(* ===== verification/_CoqProject ===== *)
-Q . S2P
Prelude.v
AllocKernels.v
Allocator.v
PagedAllocator.v
RadixKey.v
PageHash.v
RadixTree.v
RadixInv.v
RadixAcct.v
RadixMatch.v
RadixInsert.v
RadixLock.v
RadixEvict.v
RadixProps.v
RadixGrow.v
ReqPool.v
ReqCache.v
CacheAlloc.v
PyFloat.v
PyDict.v
CostModel.v
AdmissionControl.v
HaloRegistry.v
HaloTracker.v
HaloAdmission.v
HaloController.v
PrefillAdder.v
PrefillBatch.v
PrefillProps.v
PreemptProps.v
RadixMemory.v
SchedulePolicy.v
PolicyProps.v
SchedDemo.v
DecodeBatch.v
DecodeMem.v
HandOverMem.v
RetractProps.v
DecodeProps.v
QueueProps.v
DecodeStep.v
DecodeDemo.v
Sampling.v
Finish.v
FinishProps.v
ResultProc.v
ResultProps.v
StreamProps.v
OutputProps.v
ExtendBatch.v
EventLoop.v
LoopProps.v
LoopDemo.v
ExtendProps.v
PrefillOut.v
SchedLoop.v
SchedLoopDemo.v
Detokenizer.v
DetokText.v
DetokProps.v
DetokStream.v
DetokDemo.v
ExpertBalance.v
ExpertProps.v
ExpertPlace.v
ExpertRebalance.v
ExpertElastic.v
ExpertLocation.v
ExpertVec.v
ExpertDispatch.v
ExpertUpdate.v
ExpertChunk.v
ExpertPlan.v
ExpertMove.v
ExpertCluster.v
ExpertServer.v
ExpertVecProps.v
ExpertEplb.v
ExpertServe.v
ExpertDemo.v
