(* ===== verification/Prelude.v ===== *)
(** * A verification of the core of the SGLang serving runtime

    SGLang serves language models.  Its Python runtime ([src/python/sglang/srt/]) keeps the key/value
    cache of all requests in one pool of slots, shares cached prefixes between requests through a radix
    tree, and decides step by step which requests run.  This development models the part of the
    runtime that decides about memory and about admission, and proves it correct.  The numerical part
    (models, kernels, sampling) computes on the slots that this part hands out.

    ** The parts and how they interact

    - Slots.  [mem_cache/allocator.py] hands out slot indices, one by one
      ([TokenToKVPoolAllocator]) or in pages ([PagedTokenToKVPoolAllocator]); two index kernels fill in
      the slots of an extend or a decode batch.  Files: AllocKernels, Allocator, PagedAllocator.
    - The prefix tree.  [mem_cache/radix_cache.py] maps token sequences to slots, with locks on the paths
      in use, eviction by the strategies of [mem_cache/evict_policy.py], page hashes and cache events.
      Files: RadixKey and PageHash (keys and hashes), RadixTree (state and operations), RadixInv,
      RadixAcct, RadixMatch, RadixInsert, RadixLock, RadixEvict (the invariant and each operation),
      RadixProps (the contract).
    - Requests.  A request has a row in the pool of [mem_cache/memory_pool.py]; its slots go to the tree
      when it finishes or is cut into chunks; [mem_cache/common.py] allocates and releases the slots of
      batches, evicting from the tree when there are too few.  Files: ReqPool, ReqCache, CacheAlloc.
    - Scheduling.  [managers/schedule_policy.py] orders the waiting queue and builds the next prefill
      batch within the token budgets; [managers/scheduler.py] drives it.  Files: PrefillAdder (the
      builder, over the interface [PrefixMemory]), PrefillBatch (the scheduler's round, over the
      interface [QueuePolicy]), PrefillProps and PreemptProps (their theorems), RadixMemory (the radix
      cache implements [PrefixMemory]), SchedulePolicy and PolicyProps (the policies implement
      [QueuePolicy]), SchedDemo (a concrete run and the witnesses).
    - Decoding.  The running batch of [managers/schedule_batch.py] gets one slot per request and step;
      when memory is short, requests are retracted into the bounded waiting queue of
      [managers/scheduler.py], and a last one that does not fit is aborted.  Files: DecodeBatch (the
      batch, retraction, the queue, the round of the scheduler), DecodeMem (who owns which memory),
      RetractProps, DecodeProps, QueueProps and DecodeStep (the theorems), DecodeDemo (a concrete run
      and the witnesses).
    - Finishing.  [sampling/sampling_params.py] validates the parameters of a request;
      [managers/schedule_batch.py] decides after every step whether it is finished, by length, token,
      string or regex.  Files: Sampling, Finish, FinishProps.
    - Results.  [managers/scheduler_output_processor_mixin.py] appends the sampled tokens, releases what
      is finished and streams the rest.  Files: ResultProc (the handlers), ResultProps, StreamProps,
      OutputProps (decode batches), HandOverMem (finished requests and the tree).
    - Prefill batches and the loop.  [managers/schedule_batch.py] allocates a prefill batch;
      [managers/scheduler.py] alternates prefill and decode iterations with timeouts, aborts and pauses.
      Files: ExtendBatch, ExtendProps, PrefillOut (prefill), EventLoop, LoopProps (decode iterations),
      SchedLoop (all of them in any order, the step relation and invariant of the scheduler), LoopDemo,
      SchedLoopDemo.
    - Text.  [managers/detokenizer_manager.py] turns the streamed tokens into text step by step.  Files:
      Detokenizer, DetokText, DetokProps, DetokStream (from sampled tokens to the text), DetokDemo.
    - Experts.  [eplb/] moves the experts of a mixture-of-experts model between ranks while the server
      runs.  A manager counts forward passes and then asks the balancing algorithms for a new placement
      of replicas; the metadata of the placement says where a rank sends a routed token; the ranks
      exchange the weights layer by layer.  Files: ExpertBalance (the algorithms), ExpertVec (the
      vectorised ones, the choice among them, [init_by_eplb]), ExpertProps, ExpertPlace,
      ExpertRebalance, ExpertElastic, ExpertVecProps, ExpertEplb (their theorems); ExpertLocation and
      ExpertDispatch (metadata and dispatch); ExpertUpdate (the exchange, over the interface
      [Transport], the layers and the manager), ExpertChunk, ExpertPlan, ExpertMove, ExpertCluster (who
      sends what to whom, and that it arrives); ExpertServer, ExpertServe (everything together);
      ExpertDemo (concrete runs and the witnesses).
    - Admission.  [managers/admission_control/] predicts the latency of a request from cost models and
      rejects what would miss its objective; [managers/halo/] groups requests into jobs, tracks their
      slowdown and admits requests and programs.  Files: CostModel, AdmissionControl, HaloRegistry,
      HaloTracker, HaloAdmission, HaloController.
    - Shared.  This file (Python values, exceptions, sorting, lemmas on lists), PyFloat (floats),
      PyDict (dicts in insertion order).

    ** How the model corresponds to the code

    A method is a function from the state of its object to a result and a new state, under the name it
    has in the source (with the class name in front where two classes share it).  A call that can raise
    returns [res]: [Ok] or [Raise] with the Python exception.  Python integers are [Z]; tensors and
    lists are lists, with Python's slices written out ([norm_idx], [slice_to], [slice_from]); an int64
    conversion is written out where the code does one (PageHash).  Objects that are shared and mutated
    are in a store: the nodes of the radix tree are in a map from node numbers, so that parent and child
    links alias as they do in Python.  A dict is a [gmap] where its order does not matter and a
    [PyDict] where it does.  [sorted] is a stable sort.

    Floats are a parameter: the definitions are over the class [PyNum] of the operations the code uses.
    The theorems that need arithmetic take exact rationals, [Qc]; they say what the formulas compute, not
    what rounding adds.  Clock readings ([time.monotonic], [time.time]) are arguments.  Other parameters,
    each with the documented property that a theorem needs as a hypothesis: the heap of [heapq]
    (popping returns a smallest entry), the tokenizer (for streamed text, the class [TextTokenizer] of
    DetokText), [re.search] and the regex parser (any functions), SHA-256 (any function),
    [random.shuffle] and [random.sample] (the class [PyRandom]: a permutation, distinct positions), the
    order in which a dict lists its entries (each once), the grammar objects and the model worker (any
    functions), [torch.sort] (a permutation of the positions; that it sorts is not used), and
    [batch_isend_irecv] (the class [Transport]: if every receive has its send, the messages between two
    ranks arrive in the order in which they were sent).

    ** Loops

    A loop over a list is structural.  The others have fuel, and running out of fuel is the value
    [Raise LoopBound], which no theorem confuses with a result: every theorem about such a loop states
    that it returns.  Walking down the tree for a key takes at most one step per unit of the key; walking
    up, and the depth-first traversals, at most as many steps as nodes were ever created; eviction at
    most one step per live node; retraction at most one step per request of the batch; these bounds are
    the fuel in the definitions.

    ** What the theorems show

    - Slots: the free, released, pending and held pages partition the pages in every reachable state, so
      no slot is handed out twice or lost ([paged_pages_partitioned]); an allocation succeeds exactly when
      enough is free ([alloc_extend_spec]), and the Triton kernel computes what the reference
      implementation does ([extend_kernel_naive_equiv]).
    - Tree: the counters, leaves and lock counts are exact in every reachable state ([radix_accounting]);
      a match returns the longest cached prefix and an insertion adds exactly the rest of its key;
      eviction removes only unlocked leaves, in the order of the strategy, until enough is freed or
      nothing is evictable.
    - Requests: handing a finished or a chunked request over to the tree leaves each of its slots owned
      exactly once, by the tree or by the free list ([cache_finished_settles],
      [cache_unfinished_settles], [release_kv_settles]).
    - Scheduling: the next batch fits into memory, locks exactly its prefixes, respects every budget, has
      at most one chunked request, and loses no request ([next_batch_ok]); every policy permutes the
      queue; in-batch prefix caching equals a comparison of all pairs; preemption releases just enough of
      the lowest priorities.
    - Decoding: in every decode round the slots, rows and locks stay partitioned between the tree, the
      requests and the free lists, no request is lost, and the round does not run out of memory
      ([decode_step_ok]); retraction terminates, takes out what has generated least and leaves a batch
      that fits; the queue stays within its limit and drops what ranks last.
    - Finishing: a request finishes exactly when a condition holds and is cut after the first stop token;
      text that is passed on cannot begin a stop string; the length computed for a stop regex bounds its
      matches; parameters are accepted exactly in their documented ranges.
    - The scheduler as a whole: the handlers of results never raise and release exactly what is finished;
      in any interleaving of prefill and decode iterations, arrivals and aborts, nothing is lost
      ([scheduler_sound]); without new prefill batches the loop drains ([event_loop_drains]); what is
      streamed of a request is its output, once, and the client gets exactly the text of it
      ([stream_exact], [detokenizer_exact], [served_text]).
    - Admission: a job never has more requests in flight than it declared; the registry's counters and
      ownership are exact; each decision is admitted exactly when no stage rejects it; the stages of a
      job partition its calls; the cost models survive a round trip through JSON and are monotone.
    - Experts: all six algorithms return maps that belong together ([eplb_rebalance_maps]), also with
      failed ranks ([rebalance_elastic_maps]); no other replication has a smaller highest load
      ([replicate_experts_optimal]); dispatch prefers near replicas and shares the others evenly
      ([dispatch_near_and_fair]); the exchange gives every running rank the experts of the new map,
      except those it reports as missing ([update_layer_moves]); while the manager rebalances a server,
      chunk by chunk, every routed token reaches the weights of its expert ([eplb_serves]), and a
      rebalance is completed ([eplb_completes]).

    ** What is not modelled, and why

    The neural-network code ([models/], [layers/], the kernels, quantization, sampling): numerical GPU
    programs.  Servers, process management, networking, disaggregation transfer, metrics exporters:
    input and output around the runtime.  Of the scheduler, what the files above say they leave out
    (pipeline parallelism, overlap with the device, speculative decoding beyond its memory estimate,
    multimodal requests).  Of the experts, the recorder of the counts, the reload of missing experts from
    disk, the recovery of failed ranks and the canary.  The other caches (sliding-window, Mamba,
    hierarchical, C++): variants of the tree with more state per node.  LoRA, structured output and the
    multimodal caches.  The frontend language, the gateway in Rust, benchmarks and tests are other
    programs.

    A continuation would take, in this order: the sliding-window tree, over the lemmas of RadixInv; the
    host tier of the hierarchical cache; the eviction of LoRA adapters; the recorder of the expert
    counts; the output parsers. *)

From stdpp Require Export prelude gmap strings sorting.
From Stdlib Require Export ZArith.
From Stdlib Require Export Lia.

Open Scope Z_scope.
#[export] Set Warnings "-clear-no-such-hyp,-notation-for-abbreviation".

(** ** Lists as Python lists and 1-D tensors *)

(** [len(l)] as a Python integer. *)
Definition zlen {A} (l : list A) : Z := Z.of_nat (length l).

(** Clamping of a slice bound, as [slice.indices] does it for step 1. *)
Definition norm_idx (len i : Z) : Z :=
  if bool_decide (i < 0) then Z.max 0 (i + len) else Z.min len i.

(** [l[a:b]]. *)
Definition py_slice {A} (l : list A) (a b : Z) : list A :=
  let a' := norm_idx (zlen l) a in
  let b' := norm_idx (zlen l) b in
  take (Z.to_nat (b' - a')) (drop (Z.to_nat a') l).

(** [l[:n]] and [l[n:]]. *)
Definition slice_to {A} (l : list A) (n : Z) : list A :=
  take (Z.to_nat (norm_idx (zlen l) n)) l.
Definition slice_from {A} (l : list A) (n : Z) : list A :=
  drop (Z.to_nat (norm_idx (zlen l) n)) l.

(** [l[i]] for [0 <= i < len(l)]; [None] stands for IndexError (negative indices are not
    used by the modelled code). *)
Definition py_get {A} (l : list A) (i : Z) : option A :=
  if bool_decide (0 ≤ i) then l !! Z.to_nat i else None.

(** [sum(l)]. *)
Fixpoint sumZ (l : list Z) : Z :=
  match l with
  | [] => 0
  | x :: l' => x + sumZ l'
  end.

Declare Scope py_scope.
Delimit Scope py_scope with py.
Notation "l ⟨: n ⟩" := (slice_to l n) (at level 1, n at level 200) : py_scope.
Notation "l ⟨ n :⟩" := (slice_from l n) (at level 1, n at level 200) : py_scope.
Open Scope py_scope.

(** [torch.sort] and [torch.unique] on an integer tensor. *)
Definition torch_sort (l : list Z) : list Z := merge_sort Z.le l.

(** Python's [sorted] and [list.sort]: stable, for an order [R] of which [R x y] says that [y] may
    follow [x]. *)
Fixpoint py_insert {A} (R : relation A) `{!RelDecision R} (x : A) (l : list A) : list A :=
  match l with
  | [] => [x]
  | y :: l' => if decide (R x y) then x :: y :: l' else y :: py_insert R x l'
  end.

Fixpoint py_sort {A} (R : relation A) `{!RelDecision R} (l : list A) : list A :=
  match l with
  | [] => []
  | x :: l' => py_insert R x (py_sort R l')
  end.
Definition torch_unique (l : list Z) : list Z := torch_sort (remove_dups l).

(** ** Python exceptions *)

(** The exceptions the modelled code can raise. *)
Inductive exn :=
| AssertionError
| IndexError
| KeyError
| TypeError
| ValueError
| RuntimeError
| NotImplementedError
| AttributeError
| OverflowError
| ZeroDivisionError
| LoopBound.            (* not an exception: a modelled loop used up its iteration bound *)

(** The outcome of a call: a value, or an exception that left the call. *)
Inductive res (A : Type) :=
| Ok (a : A)
| Raise (e : exn).
Arguments Ok {A} a.
Arguments Raise {A} e.

(** [assert b]. *)
Definition py_assert (b : bool) : res () :=
  if b then Ok () else Raise AssertionError.

#[export] Instance res_ret : MRet res := λ A a, Ok a.
#[export] Instance res_bind : MBind res := λ A B f r,
  match r with
  | Ok a => f a
  | Raise e => Raise e
  end.

#[export] Instance exn_eq_dec : EqDecision exn.
Proof. solve_decision. Defined.

(** Loops and comprehensions whose body may raise. *)
Fixpoint res_map {A B} (f : A → res B) (l : list A) : res (list B) :=
  match l with
  | [] => Ok []
  | x :: l' => y ← f x; ys ← res_map f l'; Ok (y :: ys)
  end.

Fixpoint res_fold {A B} (f : B → A → res B) (b : B) (l : list A) : res B :=
  match l with
  | [] => Ok b
  | x :: l' => b' ← f b x; res_fold f b' l'
  end.

Fixpoint res_filter {A} (p : A → res bool) (l : list A) : res (list A) :=
  match l with
  | [] => Ok []
  | x :: l' => b ← p x; ys ← res_filter p l'; Ok (if (b : bool) then x :: ys else ys)
  end.

(** The first element that passes the test. *)
Fixpoint res_find {A} (p : A → res bool) (l : list A) : res (option A) :=
  match l with
  | [] => Ok None
  | x :: l' => b ← p x; if (b : bool) then Ok (Some x) else res_find p l'
  end.

Lemma res_map_ok {A B} (f : A → res B) (g : A → B) l : (∀ x, x ∈ l → f x = Ok (g x)) → res_map f l = Ok (map g l).
Proof.
  induction l as [|x l IH]; intros Hf; [done|]. cbn [res_map map]. rewrite Hf by set_solver. cbn [mbind res_bind].
  by rewrite IH by set_solver.
Qed.

Lemma res_filter_ok {A} (p : A → res bool) (q : A → bool) l :
  (∀ x, x ∈ l → p x = Ok (q x)) → res_filter p l = Ok (List.filter q l).
Proof.
  induction l as [|x l IH]; intros Hp; [done|]. cbn [res_filter List.filter]. rewrite Hp by set_solver. cbn [mbind res_bind].
  rewrite IH by set_solver. cbn [mbind res_bind]. by destruct (q x).
Qed.

Lemma res_find_ok {A} (p : A → res bool) (q : A → bool) l :
  (∀ x, x ∈ l → p x = Ok (q x)) → res_find p l = Ok (List.find q l).
Proof.
  induction l as [|x l IH]; intros Hp; [done|]. cbn [res_find List.find]. rewrite Hp by set_solver. cbn [mbind res_bind].
  destruct (q x); [done|]. apply IH. set_solver.
Qed.

Create HintDb sgl.

Section lists.
Context {A : Type}.
Implicit Types l k : list A.

Lemma zlen_nil : zlen (@nil A) = 0.
Proof. done. Qed.

Lemma zlen_cons x l : zlen (x :: l) = zlen l + 1.
Proof. unfold zlen. simpl. lia. Qed.

Lemma zlen_app l k : zlen (l ++ k) = zlen l + zlen k.
Proof. unfold zlen. rewrite length_app. lia. Qed.

Lemma zlen_nonneg l : 0 ≤ zlen l.
Proof. unfold zlen. lia. Qed.

Lemma zlen_0 l : zlen l = 0 ↔ l = [].
Proof. unfold zlen. rewrite <- length_zero_iff_nil. lia. Qed.

Lemma zlen_pos l : 0 < zlen l ↔ l ≠ [].
Proof. rewrite <- zlen_0. pose proof (zlen_nonneg l). lia. Qed.

Lemma zlen_take n l : zlen (take n l) = Z.min (Z.of_nat n) (zlen l).
Proof. unfold zlen. rewrite length_take. lia. Qed.

Lemma zlen_drop n l : zlen (drop n l) = Z.max 0 (zlen l - Z.of_nat n).
Proof. unfold zlen. rewrite length_drop. lia. Qed.

Lemma norm_idx_bounds n i : 0 ≤ n → 0 ≤ norm_idx n i ≤ n.
Proof. unfold norm_idx. case_bool_decide; lia. Qed.

Lemma norm_idx_id n i : 0 ≤ i ≤ n → norm_idx n i = i.
Proof. unfold norm_idx. case_bool_decide; lia. Qed.

Lemma norm_idx_nonneg n i : 0 ≤ i → norm_idx n i = Z.min n i.
Proof. unfold norm_idx. case_bool_decide; lia. Qed.

Lemma slice_to_take l n : 0 ≤ n → l⟨:n⟩ = take (Z.to_nat n) l.
Proof.
  intros Hn. unfold slice_to. rewrite norm_idx_nonneg by done.
  destruct (decide (n ≤ zlen l)); [by rewrite Z.min_r by lia|].
  rewrite Z.min_l by lia. rewrite !take_ge; unfold zlen in *; (lia || done).
Qed.

Lemma slice_from_drop l n : 0 ≤ n → l⟨n:⟩ = drop (Z.to_nat n) l.
Proof.
  intros Hn. unfold slice_from. rewrite norm_idx_nonneg by done.
  destruct (decide (n ≤ zlen l)); [by rewrite Z.min_r by lia|].
  rewrite Z.min_l by lia. rewrite !drop_ge; unfold zlen in *; (lia || done).
Qed.

Lemma slice_to_from l n : l⟨:n⟩ ++ l⟨n:⟩ = l.
Proof. unfold slice_to, slice_from. apply take_drop. Qed.

Lemma slice_to_all l n : zlen l ≤ n → l⟨:n⟩ = l.
Proof.
  intros Hn. pose proof (zlen_nonneg l).
  rewrite slice_to_take by lia. apply take_ge. unfold zlen in *. lia.
Qed.

Lemma slice_from_all l n : zlen l ≤ n → l⟨n:⟩ = [].
Proof.
  intros Hn. pose proof (zlen_nonneg l).
  rewrite slice_from_drop by lia. apply drop_ge. unfold zlen in *. lia.
Qed.

Lemma zlen_slice_to l n : 0 ≤ n → zlen (l⟨:n⟩) = Z.min n (zlen l).
Proof. intros. rewrite slice_to_take, zlen_take; lia. Qed.

Lemma zlen_slice_from l n : 0 ≤ n → zlen (l⟨n:⟩) = Z.max 0 (zlen l - n).
Proof. intros. rewrite slice_from_drop, zlen_drop; lia. Qed.

Lemma py_slice_take_drop l a b :
  0 ≤ a → 0 ≤ b → py_slice l a b = take (Z.to_nat (b - a)) (drop (Z.to_nat a) l).
Proof.
  intros Ha Hb. unfold py_slice. rewrite !norm_idx_nonneg by done.
  destruct (decide (zlen l ≤ a)) as [Hla|Hla].
  - rewrite (Z.min_l _ a) by lia.
    rewrite !(drop_ge l), !take_nil; unfold zlen in *; (lia || done).
  - rewrite (Z.min_r _ a) by lia.
    destruct (decide (b ≤ zlen l)); [by rewrite Z.min_r by lia|].
    rewrite Z.min_l by lia. rewrite !take_ge; try done; rewrite length_drop; unfold zlen in *; lia.
Qed.

Lemma sumZ_app (l k : list Z) : sumZ (l ++ k) = sumZ l + sumZ k.
Proof. induction l as [|x l IH]; simpl; lia. Qed.

Lemma sumZ_permutation (l k : list Z) : l ≡ₚ k → sumZ l = sumZ k.
Proof. induction 1; simpl; lia. Qed.

Lemma sumZ_nonneg (l : list Z) : Forall (λ x, 0 ≤ x) l → 0 ≤ sumZ l.
Proof. induction 1; simpl; lia. Qed.

End lists.

Lemma zlen_map {A B} (f : A → B) (l : list A) : zlen (map f l) = zlen l.
Proof. unfold zlen. by rewrite length_map. Qed.

Lemma list_filter_all {A} (P : A → Prop) `{!∀ x, Decision (P x)} (l : list A) :
  (∀ x, x ∈ l → P x) → filter P l = l.
Proof.
  induction l as [|x l IH]; intros Hl; [done|].
  rewrite filter_cons_True by (apply Hl; set_solver). f_equal. apply IH. set_solver.
Qed.

Lemma list_filter_none {A} (P : A → Prop) `{!∀ x, Decision (P x)} (l : list A) :
  (∀ x, x ∈ l → ¬ P x) → filter P l = [].
Proof.
  induction l as [|x l IH]; intros Hl; [done|].
  rewrite filter_cons_False by (apply Hl; set_solver). apply IH. set_solver.
Qed.

Lemma filter_ext_list {A} (Q R : A → Prop) `{!∀ a, Decision (Q a), !∀ a, Decision (R a)}
    (l : list A) :
  (∀ a, a ∈ l → Q a ↔ R a) → filter Q l = filter R l.
Proof.
  induction l as [|a l IH]; intros He; [done|]. rewrite !filter_cons.
  assert (Ha : Q a ↔ R a) by (apply He; set_solver).
  rewrite IH by (intros b Hb; apply He; set_solver).
  destruct (decide (Q a)), (decide (R a)); tauto || done.
Qed.

Lemma filter_bool {A} (P : A → Prop) `{!∀ a, Decision (P a)} (l : list A) :
  List.filter (λ a, bool_decide (P a)) l = filter P l.
Proof.
  induction l as [|a l IH]; [done|]. rewrite filter_cons. simpl. rewrite IH.
  destruct (decide (P a)); [by rewrite bool_decide_true|by rewrite bool_decide_false].
Qed.

Lemma forallb_decide {A} (P : A → Prop) `{!∀ x, Decision (P x)} (l : list A) :
  forallb (λ x, bool_decide (P x)) l = true ↔ Forall P l.
Proof.
  rewrite forallb_forall, Forall_forall. setoid_rewrite bool_decide_eq_true.
  by setoid_rewrite list_elem_of_In.
Qed.

Lemma torch_sort_perm (l : list Z) : torch_sort l ≡ₚ l.
Proof. apply merge_sort_Permutation. Qed.

Lemma elem_of_torch_unique (l : list Z) x : x ∈ torch_unique l ↔ x ∈ l.
Proof. unfold torch_unique. rewrite torch_sort_perm. apply elem_of_remove_dups. Qed.

Lemma NoDup_torch_unique (l : list Z) : NoDup (torch_unique l).
Proof. unfold torch_unique. rewrite torch_sort_perm. apply NoDup_remove_dups. Qed.

(** *** Python's sort *)

Section py_sort.
Context {A : Type} (R : relation A) `{!RelDecision R}.

Lemma py_insert_Permutation x l : py_insert R x l ≡ₚ x :: l.
Proof. induction l as [|y l IH]; simpl; [done|]. case_decide; [done|]. rewrite IH. by constructor. Qed.

Lemma py_sort_Permutation l : py_sort R l ≡ₚ l.
Proof. induction l as [|x l IH]; simpl; [done|]. by rewrite py_insert_Permutation, IH. Qed.

Context `{!Total R, !Transitive R}.

Lemma py_sort_sorted l : StronglySorted R (py_sort R l).
Proof.
  induction l as [|x l IH]; simpl; [constructor|]. induction IH as [|y k Hk IHk Hy]; simpl; [by repeat constructor|].
  case_decide as Hxy; constructor; try done.
  - by constructor.
  - constructor; [done|]. eapply Forall_impl; [exact Hy|]. intros z Hz. by trans y.
  - rewrite py_insert_Permutation. constructor; [|done]. by destruct (total R x y).
Qed.

(** Elements of the same rank keep their order. *)
Lemma py_sort_stable (Q : A → Prop) `{!∀ x, Decision (Q x)} l :
  (∀ x y, Q x → Q y → R x y) → filter Q (py_sort R l) = filter Q l.
Proof.
  intros HQ. induction l as [|x l IH]; cbn [py_sort]; [done|].
  assert (Hins : ∀ k, filter Q (py_insert R x k) = filter Q (x :: k)).
  { induction k as [|y k IHk]; cbn [py_insert]; [done|]. case_decide as Hxy; [done|]. rewrite !filter_cons in *. rewrite IHk.
    destruct (decide (Q x)), (decide (Q y)); try done. by destruct Hxy; apply HQ. }
  rewrite Hins, !filter_cons, IH. done.
Qed.

End py_sort.

Create Rewrite HintDb zlen.
#[export] Hint Rewrite @zlen_nil @zlen_cons @zlen_app @zlen_take @zlen_drop : zlen.
#[export] Hint Resolve zlen_nonneg : sgl.
