(* ===== verification/AllocKernels.v ===== *)
(** * Page kernels of the KV-cache allocator

    Models the index kernels of [src/python/sglang/srt/mem_cache/allocator.py]
    ([alloc_extend_naive], the Triton kernels [alloc_extend_kernel] and [alloc_decode_kernel])
    and their helpers of [src/python/sglang/srt/utils/common.py] ([get_num_new_pages],
    [next_power_of_2], [ceil_div], [ceil_align]).

    A 1-D tensor is a [list Z].  A Triton program instance is a function on the output tensor;
    the grid runs the instances one after the other (they write disjoint ranges).  A lane that
    is masked out of a load reads 0, and a masked-out or out-of-range store does nothing.

    The reference definition is [extend_locs]: the KV slot of every new token position of one
    request.  The theorems show that the naive loop and the Triton kernel both compute it for
    the whole batch, hence agree. *)

From S2P Require Import Prelude.

(** ** Helpers of utils/common.py *)

Definition ceil_div (x y : Z) : Z := (x + y - 1) / y.

Definition ceil_align (x y : Z) : Z := ceil_div x y * y.

Definition bit_length (n : Z) : Z := if bool_decide (n = 0) then 0 else Z.log2 (Z.abs n) + 1.

Definition next_power_of_2 (n : Z) : Z :=
  if bool_decide (0 < n) then Z.shiftl 1 (bit_length (n - 1)) else 1.

(** [get_num_new_pages(seq_lens, page_size, prefix_lens, decode)]. *)
Definition get_num_new_pages (seq_lens : list Z) (page_size : Z)
    (prefix_lens : option (list Z)) (decode : bool) : res Z :=
  match prefix_lens, decode with
  | None, _ | _, true =>
      _ ← py_assert decode;
      Ok (sumZ (map (λ s, if bool_decide (s mod page_size = 1) then 1 else 0) seq_lens))
  | Some prefix_lens, false =>
      let num_pages_after := map (λ s, (s + page_size - 1) / page_size) seq_lens in
      let num_pages_before := map (λ p, (p + page_size - 1) / page_size) prefix_lens in
      Ok (sumZ (zip_with Z.sub num_pages_after num_pages_before))
  end.

(** ** Tensors *)

(** [torch.cumsum], from an accumulator. *)
Fixpoint cumsum (acc : Z) (l : list Z) : list Z :=
  match l with
  | [] => []
  | x :: l' => (acc + x) :: cumsum (acc + x) l'
  end.

(** [out[a:b] = vals] for a 1-D tensor: the shapes must agree, or [vals] is broadcast. *)
Definition tensor_assign (out : list Z) (a b : Z) (vals : list Z) : res (list Z) :=
  let a' := norm_idx (zlen out) a in
  let b' := Z.max a' (norm_idx (zlen out) b) in
  let put v := take (Z.to_nat a') out ++ v ++ drop (Z.to_nat b') out in
  if bool_decide (zlen vals = b' - a') then Ok (put vals)
  else match vals with
       | [v] => Ok (put (replicate (Z.to_nat (b' - a')) v))
       | _ => Raise RuntimeError
       end.

(** [tl.store(ptr + offsets, values, mask)]: lanes in order, as (index, value, mask). *)
Fixpoint tl_store (out : list Z) (lanes : list (Z * Z * bool)) : list Z :=
  match lanes with
  | [] => out
  | (i, v, m) :: lanes' =>
      tl_store (if m && bool_decide (0 ≤ i) then <[Z.to_nat i := v]> out else out) lanes'
  end.

(** [tl.load(ptr + i)]. *)
Definition tl_load (t : list Z) (i : Z) : Z :=
  default 0 (if bool_decide (0 ≤ i) then t !! Z.to_nat i else None).

(** ** alloc_extend *)

(** One row of the batch: [prefix_lens[i]], [seq_lens[i]] and [last_loc[i]]. *)
Record extend_req := mkExtend { prefix_len : Z; seq_len : Z; last_loc : Z }.

Definition extend_len (r : extend_req) : Z := seq_len r - prefix_len r.

Definition num_new_pages (page_size : Z) (r : extend_req) : Z :=
  (seq_len r + page_size - 1) / page_size - (prefix_len r + page_size - 1) / page_size.

(** The body of the loop of [alloc_extend_naive], for request [r] with its entries of
    [end_pos] and [end_new_pages]. *)
Definition alloc_extend_naive_body (page_size : Z) (free_pages : list Z) (r : extend_req)
    (end_pos end_new_pages : Z) (out_indices : list Z) : res (list Z) :=
  let pre := prefix_len r in
  let seq := seq_len r in
  let start_pos := end_pos - extend_len r in
  let num_full_new_pages := seq / page_size - (pre + page_size - 1) / page_size in
  let need_page := num_new_pages page_size r - num_full_new_pages in
  let start_new_pages := end_new_pages - num_new_pages page_size r in
  let pos_in_page := seqZ 0 page_size in
  let num1 := Z.min seq ((pre + page_size - 1) / page_size * page_size) - pre in
  out1 ← (if bool_decide (num1 = 0) then Ok out_indices
          else tensor_assign out_indices start_pos (start_pos + num1)
                 (map (λ k, last_loc r + 1 + k) (pos_in_page⟨:num1⟩)));
  if bool_decide (pre + num1 = seq) then Ok out1
  else
    let num2 := (seq / page_size - (pre + page_size - 1) / page_size) * page_size in
    out2 ← (if bool_decide (num2 = 0) then Ok out1
            else
              let pages := map (λ p, p * page_size)
                  (py_slice free_pages start_new_pages (end_new_pages - need_page)) in
              tensor_assign out1 (start_pos + num1) (start_pos + num1 + num2)
                (pages ≫= λ p, map (λ k, p + k) pos_in_page));
    if bool_decide (pre + num1 + num2 = seq) then Ok out2
    else
      let num3 := seq - seq / page_size * page_size in
      if bool_decide (num3 = 0) then Ok out2
      else match py_get free_pages (end_new_pages - 1) with
           | None => Raise IndexError
           | Some p => tensor_assign out2 (end_pos - num3) end_pos
                         (map (λ k, p * page_size + k) (pos_in_page⟨:num3⟩))
           end.

Fixpoint alloc_extend_naive_loop (page_size : Z) (free_pages : list Z) (reqs : list extend_req)
    (end_pos end_new_pages : list Z) (out_indices : list Z) : res (list Z) :=
  match reqs, end_pos, end_new_pages with
  | r :: reqs', e :: end_pos', n :: end_new_pages' =>
      out ← alloc_extend_naive_body page_size free_pages r e n out_indices;
      alloc_extend_naive_loop page_size free_pages reqs' end_pos' end_new_pages' out
  | _, _, _ => Ok out_indices
  end.

(** [alloc_extend_naive]: returns the filled [out_indices]. *)
Definition alloc_extend_naive (reqs : list extend_req) (free_pages out_indices : list Z)
    (page_size : Z) : res (list Z) :=
  alloc_extend_naive_loop page_size free_pages reqs
    (cumsum 0 (map extend_len reqs)) (cumsum 0 (map (num_new_pages page_size) reqs)) out_indices.

Definition BLOCK_EXTEND : Z := 4096.

(** One program instance of [alloc_extend_kernel]. *)
Definition alloc_extend_kernel (reqs : list extend_req) (free_pages : list Z)
    (bs_upper page_size : Z) (pid : Z) (out_indices : list Z) : list Z :=
  let load_offset := seqZ 0 bs_upper in
  let lane f k := if bool_decide (k ≤ pid) then f k else 0 in
  let seq_lens := map (lane (tl_load (map seq_len reqs))) load_offset in
  let pre_lens := map (lane (tl_load (map prefix_len reqs))) load_offset in
  let seq := tl_load (map seq_len reqs) pid in
  let pre := tl_load (map prefix_len reqs) pid in
  let sum_extend_lens := sumZ (zip_with Z.sub seq_lens pre_lens) in
  let output_start_loc := sum_extend_lens - (seq - pre) in
  let num_pages_after := map (λ s, (s + page_size - 1) / page_size) seq_lens in
  let num_pages_before := map (λ p, (p + page_size - 1) / page_size) pre_lens in
  let num_page_start_loc_self :=
    (seq + page_size - 1) / page_size - (pre + page_size - 1) / page_size in
  let sum_num_new_pages := sumZ (zip_with Z.sub num_pages_after num_pages_before) in
  let new_page_start_loc := sum_num_new_pages - num_page_start_loc_self in
  let last := tl_load (map last_loc reqs) pid in
  let num_part1 := Z.min seq ((pre + page_size - 1) / page_size * page_size) - pre in
  let offset_one_page := seqZ 0 page_size in
  let out1 := tl_store out_indices
    (map (λ o, (output_start_loc + o, last + 1 + o, bool_decide (o < num_part1)))
       offset_one_page) in
  if bool_decide (pre + num_part1 = seq) then out1
  else
    let num_part2 :=
      seq / page_size * page_size - (pre + page_size - 1) / page_size * page_size in
    let num_blocks := (num_part2 + BLOCK_EXTEND - 1) / BLOCK_EXTEND in
    let out2 := foldl (λ out block_id, tl_store out
      (map (λ offset_in_block,
         let offset := block_id * BLOCK_EXTEND + offset_in_block in
         let page_start := tl_load free_pages (new_page_start_loc + offset / page_size) in
         (output_start_loc + num_part1 + offset,
          page_start * page_size + offset mod page_size,
          bool_decide (offset < num_part2))) (seqZ 0 BLOCK_EXTEND)))
      out1 (seqZ 0 num_blocks) in
    if bool_decide (pre + num_part1 + num_part2 = seq) then out2
    else
      let num_part3 := seq - seq / page_size * page_size in
      let start_loc := tl_load free_pages (new_page_start_loc + num_page_start_loc_self - 1) in
      tl_store out2
        (map (λ o, (output_start_loc + num_part1 + num_part2 + o, start_loc * page_size + o,
                    bool_decide (o < num_part3))) offset_one_page).

(** The grid launch [alloc_extend_kernel[(bs,)](...)]. *)
Definition alloc_extend_launch (reqs : list extend_req) (free_pages out_indices : list Z)
    (page_size : Z) : list Z :=
  foldl (λ out pid, alloc_extend_kernel reqs free_pages (next_power_of_2 (zlen reqs)) page_size
                      pid out)
    out_indices (seqZ 0 (zlen reqs)).

(** ** alloc_decode *)

(** One program instance of [alloc_decode_kernel]; a row is [seq_lens[i]], [last_loc[i]]. *)
Definition alloc_decode_kernel (rows : list (Z * Z)) (free_pages : list Z)
    (bs_upper page_size : Z) (pid : Z) (out_indices : list Z) : list Z :=
  let load_offset := seqZ 0 bs_upper in
  let seq_lens := map (λ k, if bool_decide (k ≤ pid) then tl_load (map fst rows) k else 0)
    load_offset in
  let pre_lens := zip_with (λ k s, if bool_decide (k ≤ pid) then s - 1 else s)
    load_offset seq_lens in
  let seq := tl_load (map fst rows) pid in
  let pre := seq - 1 in
  let num_pages_after := map (λ s, (s + page_size - 1) / page_size) seq_lens in
  let num_pages_before := map (λ p, (p + page_size - 1) / page_size) pre_lens in
  let num_page_start_loc_self :=
    (seq + page_size - 1) / page_size - (pre + page_size - 1) / page_size in
  let sum_num_new_pages := sumZ (zip_with Z.sub num_pages_after num_pages_before) in
  let new_page_start_loc := sum_num_new_pages - num_page_start_loc_self in
  if bool_decide (num_page_start_loc_self = 0) then
    tl_store out_indices [(pid, tl_load (map snd rows) pid + 1, true)]
  else
    tl_store out_indices [(pid, tl_load free_pages new_page_start_loc * page_size, true)].

Definition alloc_decode_launch (rows : list (Z * Z)) (free_pages out_indices : list Z)
    (page_size : Z) : list Z :=
  foldl (λ out pid, alloc_decode_kernel rows free_pages (next_power_of_2 (zlen rows)) page_size
                      pid out)
    out_indices (seqZ 0 (zlen rows)).

(** ** Reference definition *)

(** The KV slot of position [j] of request [r], whose new pages are [pages]: a position of the
    last cached page continues after [last_loc], any other lives in the new page of its index. *)
Definition extend_loc (page_size : Z) (r : extend_req) (pages : list Z) (j : Z) : Z :=
  if bool_decide (j < ceil_align (prefix_len r) page_size)
  then last_loc r + 1 + (j - prefix_len r)
  else tl_load pages (j / page_size - ceil_div (prefix_len r) page_size) * page_size
       + j mod page_size.

Definition extend_locs (page_size : Z) (r : extend_req) (pages : list Z) : list Z :=
  map (extend_loc page_size r pages) (seqZ (prefix_len r) (extend_len r)).

(** The slots of a batch: every request takes its new pages off the front of [free_pages]. *)
Fixpoint extend_batch (page_size : Z) (free_pages : list Z) (reqs : list extend_req) : list Z :=
  match reqs with
  | [] => []
  | r :: reqs' =>
      let n := Z.to_nat (num_new_pages page_size r) in
      extend_locs page_size r (take n free_pages)
      ++ extend_batch page_size (drop n free_pages) reqs'
  end.

(** A request the scheduler can submit: a prefix of the sequence is cached. *)
Definition extend_ok (r : extend_req) : Prop := 0 ≤ prefix_len r ≤ seq_len r.

(** ** Arithmetic of pages *)

Section pages.
Context (ps : Z) (Hps : 0 < ps).

Lemma ceil_div_bounds n : n ≤ ceil_div n ps * ps < n + ps.
Proof.
  unfold ceil_div. pose proof (Z.div_mod (n + ps - 1) ps ltac:(lia)).
  pose proof (Z.mod_pos_bound (n + ps - 1) ps Hps). lia.
Qed.

Lemma div_bounds n : n / ps * ps ≤ n < n / ps * ps + ps.
Proof.
  pose proof (Z.div_mod n ps ltac:(lia)). pose proof (Z.mod_pos_bound n ps Hps). lia.
Qed.

Lemma ceil_div_mono m n : m ≤ n → ceil_div m ps ≤ ceil_div n ps.
Proof. intros. unfold ceil_div. apply Z.div_le_mono; lia. Qed.

Lemma ceil_div_div n : ceil_div n ps = n / ps + (if bool_decide (n mod ps = 0) then 0 else 1).
Proof.
  pose proof (ceil_div_bounds n). pose proof (div_bounds n).
  pose proof (Z.div_mod n ps ltac:(lia)). pose proof (Z.mod_pos_bound n ps Hps).
  case_bool_decide; nia.
Qed.

Lemma num_new_pages_nonneg r : extend_ok r → 0 ≤ num_new_pages ps r.
Proof.
  intros [_ H]. pose proof (ceil_div_mono _ _ H). unfold num_new_pages, ceil_div in *. lia.
Qed.

Lemma div_add_lt q k : 0 ≤ k < ps → (q * ps + k) / ps = q.
Proof. intros. rewrite Z.div_add_l by lia. rewrite Z.div_small; lia. Qed.

Lemma mod_add_lt q k : 0 ≤ k < ps → (q * ps + k) mod ps = k.
Proof. intros. rewrite Z.add_comm, Z.mod_add by lia. apply Z.mod_small; lia. Qed.

Lemma page_split p q j k :
  0 ≤ j < ps → 0 ≤ k < ps → p * ps + j = q * ps + k → p = q ∧ j = k.
Proof.
  intros Hj Hk Heq. pose proof (f_equal (λ z, z / ps) Heq) as Hd. cbv beta in Hd.
  rewrite !div_add_lt in Hd by done. subst. split; lia.
Qed.

End pages.

(** ** Tensor lemmas *)

Lemma take_app_zlen {A} (l k : list A) : take (Z.to_nat (zlen l)) (l ++ k) = l.
Proof. unfold zlen. rewrite Nat2Z.id. apply take_app_length. Qed.

Lemma drop_app_zlen {A} (l k : list A) : drop (Z.to_nat (zlen l)) (l ++ k) = k.
Proof. unfold zlen. rewrite Nat2Z.id. apply drop_app_length. Qed.

Lemma tensor_assign_mid (A B C vals : list Z) a b :
  a = zlen A → b = zlen A + zlen vals → zlen B = zlen vals →
  tensor_assign (A ++ B ++ C) a b vals = Ok (A ++ vals ++ C).
Proof.
  intros -> -> HB. unfold tensor_assign.
  pose proof (zlen_nonneg A). pose proof (zlen_nonneg C). pose proof (zlen_nonneg vals).
  rewrite !norm_idx_id by (rewrite ?zlen_app; lia).
  rewrite Z.max_r by lia. rewrite bool_decide_true by lia.
  rewrite take_app_zlen, (app_assoc A B C).
  replace (zlen A + zlen vals) with (zlen (A ++ B)) by (rewrite zlen_app; lia).
  by rewrite drop_app_zlen.
Qed.

Lemma tl_store_app out l1 l2 : tl_store out (l1 ++ l2) = tl_store (tl_store out l1) l2.
Proof. revert out. induction l1 as [|[[i v] m] l1 IH]; intros; simpl; auto. Qed.

Lemma tl_store_masked out l : Forall (λ x, x.2 = false) l → tl_store out l = out.
Proof. induction 1 as [|[[i v] m] l Hm _ IH]; simpl in *; [done|]. by subst. Qed.

Lemma zlen_seqZ m n : 0 ≤ n → zlen (seqZ m n) = n.
Proof. intros. unfold zlen. rewrite length_seqZ. lia. Qed.

Lemma map_seqZ_ext {A} (f g : Z → A) m n :
  (∀ j, m ≤ j < m + n → f j = g j) → map f (seqZ m n) = map g (seqZ m n).
Proof.
  intros H. apply map_ext_in. intros j Hj%list_elem_of_In%elem_of_seqZ. apply H. lia.
Qed.

Lemma map_seqZ_shift {A} (f : Z → A) m n : map f (seqZ m n) = map (λ k, f (m + k)) (seqZ 0 n).
Proof.
  replace (seqZ m n) with (Z.add m <$> seqZ 0 n) by (rewrite fmap_add_seqZ; f_equal; lia).
  by rewrite <- list_fmap_compose.
Qed.

Lemma tl_store_exact (idx f : Z → Z) A B C s :
  (∀ o, s ≤ o < s + zlen B → idx o = zlen A + (o - s)) →
  tl_store (A ++ B ++ C) (map (λ o, (idx o, f o, true)) (seqZ s (zlen B)))
  = A ++ map f (seqZ s (zlen B)) ++ C.
Proof.
  revert A s. induction B as [|b B IH]; intros A s Hidx; [done|].
  rewrite zlen_cons in *. pose proof (zlen_nonneg A). pose proof (zlen_nonneg B).
  rewrite seqZ_cons by lia. simpl.
  rewrite Hidx by lia. rewrite bool_decide_true by lia. simpl.
  replace (Z.to_nat (zlen A + (s - s))) with (length A + 0)%nat by (unfold zlen; lia).
  rewrite insert_app_r. simpl.
  replace (Z.pred (zlen B + 1)) with (zlen B) by lia.
  specialize (IH (A ++ [f s]) (Z.succ s)). rewrite <- !app_assoc in IH. simpl in IH.
  apply IH. intros o Ho. rewrite Hidx by lia. rewrite zlen_app, zlen_cons, zlen_nil. lia.
Qed.

Lemma tl_store_range (idx f : Z → Z) (msk : Z → bool) A B C m :
  zlen B ≤ m →
  (∀ o, 0 ≤ o < zlen B → idx o = zlen A + o) →
  (∀ o, 0 ≤ o < m → msk o = bool_decide (o < zlen B)) →
  tl_store (A ++ B ++ C) (map (λ o, (idx o, f o, msk o)) (seqZ 0 m))
  = A ++ map f (seqZ 0 (zlen B)) ++ C.
Proof.
  intros Hm Hidx Hmsk. pose proof (zlen_nonneg B).
  replace m with (zlen B + (m - zlen B)) at 1 by lia.
  rewrite seqZ_app by lia. rewrite map_app, tl_store_app.
  rewrite (map_seqZ_ext _ (λ o, (idx o, f o, true))); cycle 1.
  { intros j Hj. rewrite Hmsk by lia. by rewrite bool_decide_true by lia. }
  rewrite tl_store_exact by (intros; rewrite Hidx; lia).
  apply tl_store_masked, Forall_forall. intros x Hx.
  apply list_elem_of_fmap in Hx as (j & -> & Hj%elem_of_seqZ). simpl.
  rewrite Hmsk by lia. by rewrite bool_decide_false by lia.
Qed.

(** ** The three parts of a request *)

Lemma tl_load_app_l (l k : list Z) i : 0 ≤ i < zlen l → tl_load (l ++ k) i = tl_load l i.
Proof.
  intros Hi. unfold tl_load. rewrite !bool_decide_true by lia.
  rewrite lookup_app_l; [done|]. unfold zlen in Hi. lia.
Qed.

Lemma tl_load_app_r (l k : list Z) i : 0 ≤ i → tl_load (l ++ k) (zlen l + i) = tl_load k i.
Proof.
  intros Hi. unfold tl_load. pose proof (zlen_nonneg l). rewrite !bool_decide_true by lia.
  rewrite lookup_app_r by (unfold zlen in *; lia). do 2 f_equal. unfold zlen. lia.
Qed.

Lemma py_get_tl_load (l : list Z) i : 0 ≤ i < zlen l → py_get l i = Some (tl_load l i).
Proof.
  intros Hi. unfold py_get, tl_load. rewrite bool_decide_true by lia.
  destruct (lookup_lt_is_Some_2 l (Z.to_nat i)) as [x Hx]; [unfold zlen in Hi; lia|].
  by rewrite Hx.
Qed.

Section request.
Context (ps : Z) (Hps : 0 < ps).

(** Full pages written position by position are the pages expanded one by one. *)
Lemma full_pages_expand (c : Z) (P : list Z) :
  map (λ j, tl_load P (j / ps - c) * ps + j mod ps) (seqZ (c * ps) (zlen P * ps))
  = P ≫= λ p, map (λ k, p * ps + k) (seqZ 0 ps).
Proof.
  revert c. induction P as [|p P IH]; intros c; [done|].
  rewrite zlen_cons. replace ((zlen P + 1) * ps) with (ps + zlen P * ps) by lia.
  pose proof (zlen_nonneg P). rewrite seqZ_app, map_app by lia.
  rewrite bind_cons. f_equal.
  - rewrite map_seqZ_shift. apply map_seqZ_ext. intros k Hk.
    rewrite div_add_lt, mod_add_lt by lia. by rewrite Z.sub_diag.
  - rewrite <- (IH (c + 1)). replace (c * ps + ps) with ((c + 1) * ps) by lia.
    apply map_seqZ_ext. intros j Hj.
    assert (c + 1 ≤ j / ps) by (apply Z.div_le_lower_bound; lia).
    replace (j / ps - c) with (zlen [p] + (j / ps - (c + 1))) by (rewrite zlen_cons, zlen_nil; lia).
    change (p :: P) with ([p] ++ P). rewrite tl_load_app_r by lia. done.
Qed.

Lemma extend_locs_short r P :
  extend_ok r → seq_len r ≤ ceil_div (prefix_len r) ps * ps →
  extend_locs ps r P = map (λ k, last_loc r + 1 + k) (seqZ 0 (seq_len r - prefix_len r)).
Proof.
  intros [H1 H2] Hs. unfold extend_locs, extend_len. rewrite map_seqZ_shift.
  apply map_seqZ_ext. intros k Hk. unfold extend_loc, ceil_align.
  rewrite bool_decide_true by lia. lia.
Qed.

(** A request that overflows its cached pages, with [c] cached pages, [length P] new full pages
    and possibly a last partial page [q]. *)
Lemma extend_locs_long r P q :
  extend_ok r → ceil_div (prefix_len r) ps * ps < seq_len r →
  zlen P = seq_len r / ps - ceil_div (prefix_len r) ps →
  zlen q = (if bool_decide (seq_len r mod ps = 0) then 0 else 1) →
  extend_locs ps r (P ++ q)
  = map (λ k, last_loc r + 1 + k) (seqZ 0 (ceil_div (prefix_len r) ps * ps - prefix_len r))
    ++ (P ≫= λ p, map (λ k, p * ps + k) (seqZ 0 ps))
    ++ map (λ k, tl_load q 0 * ps + k) (seqZ 0 (seq_len r mod ps)).
Proof.
  intros [H1 H2] Hlong HP Hq.
  set (c := ceil_div (prefix_len r) ps) in *.
  pose proof (ceil_div_bounds ps Hps (prefix_len r)) as Hc. fold c in Hc.
  pose proof (Z.div_mod (seq_len r) ps ltac:(lia)) as Hdm.
  pose proof (Z.mod_pos_bound (seq_len r) ps Hps) as Hm.
  pose proof (zlen_nonneg P).
  unfold extend_locs, extend_len.
  replace (seq_len r - prefix_len r)
    with ((c * ps - prefix_len r) + (zlen P * ps + seq_len r mod ps)) by nia.
  rewrite !seqZ_app, !map_app by nia. f_equal; [|f_equal].
  - rewrite map_seqZ_shift. apply map_seqZ_ext. intros k Hk. unfold extend_loc, ceil_align.
    fold c. rewrite bool_decide_true by lia. lia.
  - replace (prefix_len r + (c * ps - prefix_len r)) with (c * ps) by lia.
    rewrite <- (full_pages_expand c). apply map_seqZ_ext. intros j Hj.
    unfold extend_loc, ceil_align. fold c. rewrite bool_decide_false by lia.
    rewrite tl_load_app_l; [done|]. pose proof (div_bounds ps Hps j). nia.
  - replace (prefix_len r + (c * ps - prefix_len r) + zlen P * ps) with (seq_len r / ps * ps)
      by nia.
    rewrite map_seqZ_shift. apply map_seqZ_ext. intros k Hk.
    unfold extend_loc, ceil_align. fold c. rewrite bool_decide_false by nia.
    rewrite div_add_lt, mod_add_lt by lia.
    replace (seq_len r / ps - c) with (zlen P + 0) by lia. by rewrite tl_load_app_r.
Qed.

Lemma num_new_pages_split r :
  extend_ok r → ceil_div (prefix_len r) ps * ps < seq_len r →
  num_new_pages ps r = (seq_len r / ps - ceil_div (prefix_len r) ps)
                       + (if bool_decide (seq_len r mod ps = 0) then 0 else 1)
  ∧ 0 ≤ seq_len r / ps - ceil_div (prefix_len r) ps.
Proof.
  intros [H1 H2] Hl. unfold num_new_pages. change ((seq_len r + ps - 1) / ps) with (ceil_div (seq_len r) ps).
  change ((prefix_len r + ps - 1) / ps) with (ceil_div (prefix_len r) ps).
  rewrite (ceil_div_div ps Hps (seq_len r)). pose proof (div_bounds ps Hps (seq_len r)).
  split; [lia|]. enough (ceil_div (prefix_len r) ps < seq_len r / ps + 1) by lia. nia.
Qed.

End request.

(** ** The naive loop computes the reference *)

Lemma py_slice_mid {A} (F1 P F2 : list A) a b :
  a = zlen F1 → b = zlen F1 + zlen P → py_slice (F1 ++ P ++ F2) a b = P.
Proof.
  intros -> ->. pose proof (zlen_nonneg F1). pose proof (zlen_nonneg P).
  rewrite py_slice_take_drop by lia. rewrite drop_app_zlen.
  replace (zlen F1 + zlen P - zlen F1) with (zlen P) by lia. apply take_app_zlen.
Qed.

Lemma split_zlen {A} (l : list A) n :
  0 ≤ n ≤ zlen l → ∃ l1 l2, l = l1 ++ l2 ∧ zlen l1 = n ∧ zlen l2 = zlen l - n.
Proof.
  intros Hn. exists (take (Z.to_nat n) l), (drop (Z.to_nat n) l).
  rewrite take_drop, zlen_take, zlen_drop. repeat split; lia.
Qed.

Lemma slice_to_seqZ n m : 0 ≤ n ≤ m → (seqZ 0 m)⟨:n⟩ = seqZ 0 n.
Proof.
  intros Hn. rewrite slice_to_take by lia.
  replace m with (n + (m - n)) by lia. rewrite seqZ_app by lia.
  rewrite take_app_length'; [done|]. rewrite length_seqZ. lia.
Qed.

Lemma assign_opt (A B C vals : list Z) (n a b : Z) :
  n = zlen vals → a = zlen A → b = zlen A + zlen vals → zlen B = zlen vals →
  (if bool_decide (n = 0) then Ok (A ++ B ++ C) else tensor_assign (A ++ B ++ C) a b vals)
  = Ok (A ++ vals ++ C).
Proof.
  intros -> -> -> HB. case_bool_decide as H0.
  - rewrite zlen_0 in H0. subst vals. rewrite zlen_nil, zlen_0 in HB. by subst.
  - by apply tensor_assign_mid.
Qed.

Lemma zlen_expand (P : list Z) ps :
  0 ≤ ps → zlen (P ≫= λ p, map (λ k, p * ps + k) (seqZ 0 ps)) = zlen P * ps.
Proof.
  intros. induction P as [|p P IH]; [done|].
  rewrite bind_cons, zlen_app, zlen_map, zlen_seqZ, zlen_cons, IH; lia.
Qed.

Lemma expand_mul (P : list Z) ps :
  P ≫= (λ p, map (λ k, p * ps + k) (seqZ 0 ps))
  = map (λ p, p * ps) P ≫= (λ p, map (λ k, p + k) (seqZ 0 ps)).
Proof. induction P as [|p P IH]; [done|]. cbn [map]. rewrite !bind_cons. by rewrite IH. Qed.

(** The page of a row that is left after [P]: the first of [q]. *)
Lemma tl_load_mid (F1 P q F2 : list Z) i :
  i = zlen F1 + zlen P → 0 < zlen q → tl_load (F1 ++ P ++ q ++ F2) i = tl_load q 0.
Proof.
  intros -> Hq. pose proof (zlen_nonneg P). rewrite tl_load_app_r by done.
  replace (zlen P) with (zlen P + 0) by lia. rewrite tl_load_app_r by done. apply tl_load_app_l. lia.
Qed.

(** A request that needs new pages: its pages are the full ones and at most one partial one, its
    output locations the rest of the old page, the full pages and the start of the partial one. *)
Lemma long_request ps r (N B : list Z) : 0 < ps →
  let c := ceil_div (prefix_len r) ps in
  extend_ok r → c * ps < seq_len r → zlen N = num_new_pages ps r → zlen B = extend_len r →
  ∃ P q B1 B2 B3, N = P ++ q ∧ B = B1 ++ B2 ++ B3
    ∧ num_new_pages ps r = zlen P + zlen q ∧ zlen P = seq_len r / ps - c
    ∧ zlen q = (if bool_decide (seq_len r mod ps = 0) then 0 else 1)
    ∧ zlen B1 = c * ps - prefix_len r ∧ zlen B2 = zlen P * ps ∧ zlen B3 = seq_len r mod ps.
Proof.
  intros Hps c Hok Hl HN HB. pose proof Hok as [H1 H2]. unfold extend_len in HB.
  pose proof (ceil_div_bounds ps Hps (prefix_len r)) as Hc. fold c in Hc.
  pose proof (Z.div_mod (seq_len r) ps ltac:(lia)) as Hdm.
  pose proof (Z.mod_pos_bound (seq_len r) ps Hps) as Hm.
  destruct (num_new_pages_split ps Hps r Hok Hl) as [Hn Hfull]. fold c in Hn, Hfull.
  assert (0 ≤ (if bool_decide (seq_len r mod ps = 0) then 0 else 1)) by (case_bool_decide; lia).
  destruct (split_zlen N (seq_len r / ps - c)) as (P & q & -> & HP & Hq); [lia|].
  destruct (split_zlen B (c * ps - prefix_len r)) as (B1 & B' & -> & HB1 & HB'); [nia|].
  destruct (split_zlen B' (zlen P * ps)) as (B2 & B3 & -> & HB2 & HB3); [nia|].
  rewrite !zlen_app in *. exists P, q, B1, B2, B3. split_and!; try done; nia.
Qed.

Section naive.
Context (ps : Z) (Hps : 0 < ps).

Lemma naive_body_spec r F1 N F2 A B C :
  extend_ok r → zlen N = num_new_pages ps r → zlen B = extend_len r →
  alloc_extend_naive_body ps (F1 ++ N ++ F2) r (zlen A + extend_len r)
    (zlen F1 + num_new_pages ps r) (A ++ B ++ C)
  = Ok (A ++ extend_locs ps r N ++ C).
Proof.
  intros Hok HN HB. pose proof Hok as [H1 H2].
  unfold alloc_extend_naive_body, extend_len in *.
  change ((prefix_len r + ps - 1) / ps) with (ceil_div (prefix_len r) ps).
  pose proof (ceil_div_bounds ps Hps (prefix_len r)) as Hc.
  set (c := ceil_div (prefix_len r) ps) in *.
  pose proof (Z.div_mod (seq_len r) ps ltac:(lia)) as Hdm.
  pose proof (Z.mod_pos_bound (seq_len r) ps Hps) as Hm.
  destruct (decide (seq_len r ≤ c * ps)) as [Hs|Hl].
  - rewrite Z.min_l by lia. rewrite (slice_to_seqZ (seq_len r - prefix_len r)) by lia.
    rewrite (extend_locs_short ps r) by done.
    rewrite assign_opt; rewrite ?zlen_map, ?zlen_seqZ; try lia.
    simpl. by rewrite bool_decide_true by lia.
  - destruct (long_request ps r N B Hps Hok ltac:(lia) HN HB)
      as (P & q & B1 & B2 & B3 & -> & -> & Hn & HP & Hq & HB1 & HB2 & HB3). fold c in HP, HB1.
    rewrite Z.min_r, (slice_to_seqZ (c * ps - prefix_len r)) by lia.
    rewrite (extend_locs_long ps Hps r P q), <- !app_assoc by (done || lia). fold c.
    pose proof (zlen_nonneg P).
    rewrite assign_opt; rewrite ?zlen_map, ?zlen_seqZ; try lia. cbn [mbind res_bind].
    rewrite bool_decide_false by lia.
    rewrite py_slice_mid by lia.
    set (L1 := map _ (seqZ 0 (c * ps - prefix_len r))).
    assert (HL1 : zlen L1 = c * ps - prefix_len r) by (unfold L1; rewrite zlen_map, zlen_seqZ; lia).
    replace (map (λ p, p * ps) P ≫= λ p, map (λ k, p + k) (seqZ 0 ps))
      with (P ≫= λ p, map (λ k, p * ps + k) (seqZ 0 ps)) by apply expand_mul.
    pose proof (zlen_expand P ps ltac:(lia)) as HL2. set (L2 := P ≫= _) in *.
    rewrite (app_assoc A L1), assign_opt; rewrite ?zlen_app; try lia. cbn [mbind res_bind].
    assert (Hmod0 : bool_decide (prefix_len r + (c * ps - prefix_len r)
              + (seq_len r / ps - c) * ps = seq_len r)
            = bool_decide (seq_len r mod ps = 0)) by (apply bool_decide_ext; nia).
    rewrite Hmod0. clear Hmod0.
    destruct (decide (seq_len r mod ps = 0)) as [H0|H0];
      [rewrite bool_decide_true in * by done|rewrite bool_decide_false in * by done].
    + rewrite H0. simpl. assert (B3 = []) as -> by (apply zlen_0; nia).
      by rewrite <- !app_assoc.
    + replace (seq_len r - seq_len r / ps * ps) with (seq_len r mod ps) by nia.
      rewrite bool_decide_false by lia.
      assert (Hg : py_get (F1 ++ P ++ q ++ F2) (zlen F1 + num_new_pages ps r - 1)
                   = Some (tl_load q 0)).
      { pose proof (zlen_nonneg F1). pose proof (zlen_nonneg F2).
        rewrite py_get_tl_load by (rewrite !zlen_app; lia). f_equal. apply tl_load_mid; lia. }
      rewrite Hg, slice_to_seqZ by lia. rewrite <- (app_assoc A), !(app_assoc _ L2), !(app_assoc A).
      rewrite (tensor_assign_mid _ B3); rewrite ?zlen_app, ?zlen_map, ?zlen_seqZ; try nia.
      by rewrite <- !app_assoc.
Qed.

Lemma naive_loop_spec reqs F1 F2 A B C :
  Forall extend_ok reqs →
  sumZ (map (num_new_pages ps) reqs) ≤ zlen F2 →
  zlen B = sumZ (map extend_len reqs) →
  alloc_extend_naive_loop ps (F1 ++ F2) reqs (cumsum (zlen A) (map extend_len reqs))
    (cumsum (zlen F1) (map (num_new_pages ps) reqs)) (A ++ B ++ C)
  = Ok (A ++ extend_batch ps F2 reqs ++ C).
Proof.
  revert F1 F2 A B. induction reqs as [|r reqs IH]; intros F1 F2 A B Hok HF HB; simpl in *.
  { rewrite zlen_0 in HB. by subst. }
  inversion Hok as [|? ? Hr Hrs]; subst.
  pose proof (num_new_pages_nonneg ps Hps r Hr).
  assert (0 ≤ sumZ (map (num_new_pages ps) reqs)).
  { apply sumZ_nonneg, Forall_map. eapply Forall_impl; [done|]. intros.
    by apply num_new_pages_nonneg. }
  assert (0 ≤ sumZ (map extend_len reqs)).
  { apply sumZ_nonneg, Forall_map. eapply Forall_impl; [done|].
    intros ? []. unfold extend_len. lia. }
  assert (0 ≤ extend_len r) by (destruct Hr; unfold extend_len; lia).
  destruct (split_zlen F2 (num_new_pages ps r)) as (N & F3 & -> & HN & HF3); [lia|].
  destruct (split_zlen B (extend_len r)) as (B1 & B2 & -> & HB1 & HB2); [lia|].
  rewrite <- HN, !take_app_zlen, !drop_app_zlen, HN.
  rewrite <- (app_assoc B1), naive_body_spec by done. cbn [mbind res_bind].
  assert (HE : zlen (extend_locs ps r N) = extend_len r).
  { unfold extend_locs. by rewrite zlen_map, zlen_seqZ. }
  rewrite (app_assoc A), (app_assoc F1).
  replace (zlen A + extend_len r) with (zlen (A ++ extend_locs ps r N)) by (rewrite zlen_app; lia).
  replace (zlen F1 + num_new_pages ps r) with (zlen (F1 ++ N)) by (rewrite zlen_app; lia).
  rewrite IH; [|done|lia|lia]. by rewrite <- !app_assoc.
Qed.

Lemma alloc_extend_naive_ok reqs free out :
  Forall extend_ok reqs →
  sumZ (map (num_new_pages ps) reqs) ≤ zlen free →
  zlen out = sumZ (map extend_len reqs) →
  alloc_extend_naive reqs free out ps = Ok (extend_batch ps free reqs).
Proof.
  intros Hok HF HB. unfold alloc_extend_naive.
  pose proof (naive_loop_spec reqs [] free [] out [] Hok HF HB) as H.
  rewrite !app_nil_r in H. exact H.
Qed.

End naive.

(** ** The Triton kernel computes the reference *)

Lemma next_power_of_2_ge n : n ≤ next_power_of_2 n.
Proof.
  unfold next_power_of_2, bit_length. case_bool_decide; [|lia].
  case_bool_decide as H1; [rewrite Z.shiftl_0_r; lia|].
  rewrite Z.shiftl_1_l. rewrite Z.abs_eq by lia.
  pose proof (Z.log2_spec (n - 1) ltac:(lia)) as [_ Hb]. rewrite Z.add_1_r. lia.
Qed.

Lemma zip_with_map_same {A B C D} (h : B → C → D) (f : A → B) (g : A → C) (l : list A) :
  zip_with h (map f l) (map g l) = map (λ x, h (f x) (g x)) l.
Proof. induction l; simpl; congruence. Qed.

Lemma zip_with_id_map {A B C} (h : A → B → C) (g : A → B) (l : list A) :
  zip_with h l (map g l) = map (λ x, h x (g x)) l.
Proof. induction l; simpl; congruence. Qed.

Lemma tl_load_map {A} (f : A → Z) (l : list A) (k : Z) x :
  0 ≤ k → l !! Z.to_nat k = Some x → tl_load (map f l) k = f x.
Proof.
  intros Hk Hx. unfold tl_load. rewrite bool_decide_true by done.
  by rewrite (list_lookup_fmap f), Hx.
Qed.

Lemma sumZ_zero {A} (f : A → Z) (l : list A) : (∀ x, x ∈ l → f x = 0) → sumZ (map f l) = 0.
Proof.
  induction l as [|x l IH]; intros Hf; [done|]. simpl.
  rewrite Hf, IH; [done| |]; set_solver.
Qed.

Lemma map_seqZ_lookup {A} (g : A → Z) (f : Z → Z) (R : list A) :
  (∀ k x, 0 ≤ k → R !! Z.to_nat k = Some x → f k = g x) → map f (seqZ 0 (zlen R)) = map g R.
Proof.
  intros Hf. apply list_eq. intros i. rewrite !(list_lookup_fmap _ _ i).
  destruct (R !! i) as [x|] eqn:Hx.
  - rewrite lookup_seqZ_lt by (apply lookup_lt_Some in Hx; unfold zlen; lia).
    simpl. f_equal. apply Hf; [lia|]. by rewrite Z.add_0_l, Nat2Z.id.
  - rewrite lookup_seqZ_ge; [done|]. apply lookup_ge_None in Hx. unfold zlen. lia.
Qed.

(** A sum over the lanes of a load masked by [lane <= pid] is a sum over the rows up to [pid]. *)
Lemma lane_sum {A} (g : A → Z) (f : Z → Z) (R : list A) u :
  (∀ k x, 0 ≤ k → R !! Z.to_nat k = Some x → f k = g x) →
  (∀ k, zlen R ≤ k → f k = 0) →
  zlen R ≤ u →
  sumZ (map f (seqZ 0 u)) = sumZ (map g R).
Proof.
  intros Hf Hz Hu. pose proof (zlen_nonneg R).
  replace u with (zlen R + (u - zlen R)) by lia.
  rewrite seqZ_app, map_app, sumZ_app by lia.
  rewrite (sumZ_zero f (seqZ (0 + zlen R) _)) by (intros x Hx%elem_of_seqZ; apply Hz; lia).
  rewrite (map_seqZ_lookup g) by done. lia.
Qed.

Section kernel.
Context (ps : Z) (Hps : 0 < ps).

(** A blocked loop with masked stores writes positions [b * BE ..] of a range. *)
Lemma block_loop BE (f : Z → Z) base N (nb : nat) b A B C :
  0 < BE →
  (b * BE < N → zlen A = base + b * BE) →
  zlen B = Z.max 0 (N - b * BE) →
  0 ≤ b → N ≤ (b + Z.of_nat nb) * BE →
  foldl (λ out block_id, tl_store out
      (map (λ o, (base + (block_id * BE + o), f (block_id * BE + o),
                  bool_decide (block_id * BE + o < N))) (seqZ 0 BE)))
    (A ++ B ++ C) (seqZ b (Z.of_nat nb))
  = A ++ map f (seqZ (b * BE) (zlen B)) ++ C.
Proof.
  intros HBE.
  revert b A B. induction nb as [|nb IH]; intros b A B HA HB Hb HN.
  { assert (B = []) as -> by (apply zlen_0; nia). done. }
  rewrite (seqZ_cons b) by lia. cbn [foldl].
  pose proof (zlen_nonneg B).
  destruct (split_zlen B (Z.min BE (zlen B))) as (B1 & B2 & HBs & HB1 & HB2); [lia|].
  rewrite HBs, <- app_assoc.
  rewrite (tl_store_range (λ o, base + (b * BE + o)) (λ o, f (b * BE + o))
             (λ o, bool_decide (b * BE + o < N))); [|lia| |]; cycle 1.
  { intros o Ho. lia. }
  { intros o Ho. apply bool_decide_ext. lia. }
  replace (Z.pred (Z.of_nat (S nb))) with (Z.of_nat nb) by lia.
  rewrite app_assoc, IH; rewrite ?zlen_app, ?zlen_map, ?zlen_seqZ; try lia.
  rewrite <- map_seqZ_shift, <- app_assoc. f_equal. rewrite app_assoc. f_equal.
  rewrite seqZ_app, map_app by lia. f_equal.
  destruct (decide (zlen B2 = 0)) as [->|]; [by rewrite !seqZ_nil by lia|].
  do 2 f_equal. lia.
Qed.

(** Both sums of the kernel, for the program instance of row [r]: [h] combines the lengths. *)
Lemma lane_rows_sum (h : Z → Z → Z) R1 r R2 u :
  h 0 0 = 0 → zlen R1 < u →
  sumZ (map (λ k,
      h (if bool_decide (k ≤ zlen R1) then tl_load (map seq_len (R1 ++ r :: R2)) k else 0)
        (if bool_decide (k ≤ zlen R1) then tl_load (map prefix_len (R1 ++ r :: R2)) k else 0))
    (seqZ 0 u))
  = sumZ (map (λ q, h (seq_len q) (prefix_len q)) R1) + h (seq_len r) (prefix_len r).
Proof.
  intros Hh Hu.
  rewrite (lane_sum (λ q, h (seq_len q) (prefix_len q)) _ (R1 ++ [r])).
  - rewrite map_app, sumZ_app. simpl. lia.
  - intros k x Hk Hx. pose proof (lookup_lt_Some _ _ _ Hx) as Hlt.
    rewrite length_app in Hlt. simpl in Hlt.
    rewrite bool_decide_true by (unfold zlen; lia).
    by rewrite !(tl_load_map _ _ k x) by (done || by rewrite cons_middle, app_assoc;
                                          apply lookup_app_l_Some).
  - intros k Hk. rewrite zlen_app, zlen_cons, zlen_nil in Hk.
    by rewrite !bool_decide_false by lia.
  - rewrite zlen_app, zlen_cons, zlen_nil. lia.
Qed.

(** Part 2 of the kernel writes the new full pages [P]. *)
Lemma part2_loop base start N nb F1 P R A B C :
  base = zlen A → start = zlen F1 → N = zlen P * ps → zlen B = N →
  nb = (N + BLOCK_EXTEND - 1) / BLOCK_EXTEND →
  foldl (λ out block_id, tl_store out
      (map (λ o, (base + (block_id * BLOCK_EXTEND + o),
                  tl_load (F1 ++ P ++ R) (start + (block_id * BLOCK_EXTEND + o) / ps) * ps
                  + (block_id * BLOCK_EXTEND + o) mod ps,
                  bool_decide (block_id * BLOCK_EXTEND + o < N))) (seqZ 0 BLOCK_EXTEND)))
    (A ++ B ++ C) (seqZ 0 nb)
  = A ++ (P ≫= λ p, map (λ k, p * ps + k) (seqZ 0 ps)) ++ C.
Proof.
  intros -> -> HN HB ->. pose proof (zlen_nonneg P). pose proof (zlen_nonneg B).
  assert (HBE : 0 < BLOCK_EXTEND) by done.
  pose proof (ceil_div_bounds _ HBE N) as Hc. unfold ceil_div in Hc.
  assert (0 ≤ (N + BLOCK_EXTEND - 1) / BLOCK_EXTEND) by (apply Z.div_pos; lia).
  rewrite <- (Z2Nat.id ((N + BLOCK_EXTEND - 1) / BLOCK_EXTEND)) by done.
  rewrite (block_loop BLOCK_EXTEND (λ o, tl_load (F1 ++ P ++ R) (zlen F1 + o / ps) * ps + o mod ps)) by lia.
  f_equal. f_equal. rewrite HB, HN, <- (full_pages_expand ps Hps 0), !Z.mul_0_l.
  apply map_seqZ_ext. intros j Hj. pose proof (div_bounds ps Hps j).
  rewrite Z.sub_0_r, tl_load_app_r, tl_load_app_l; [done|nia|nia].
Qed.

(** The program instance of row [r] after the rows [R1] fills the range of [r]. *)
Lemma alloc_extend_kernel_spec R1 r R2 u F1 N F2 A B C :
  extend_ok r → zlen R1 < u →
  zlen F1 = sumZ (map (num_new_pages ps) R1) → zlen N = num_new_pages ps r →
  zlen A = sumZ (map extend_len R1) → zlen B = extend_len r →
  alloc_extend_kernel (R1 ++ r :: R2) (F1 ++ N ++ F2) u ps (zlen R1) (A ++ B ++ C)
  = A ++ extend_locs ps r N ++ C.
Proof.
  intros Hok Hu HF1 HN HA HB.
  pose proof Hok as [H1 H2]. unfold alloc_extend_kernel.
  assert (Hpid : (R1 ++ r :: R2) !! Z.to_nat (zlen R1) = Some r).
  { unfold zlen. by rewrite Nat2Z.id, list_lookup_middle. }
  pose proof (zlen_nonneg R1).
  rewrite !(tl_load_map _ _ (zlen R1) r) by done.
  rewrite !map_map, !zip_with_map_same.
  rewrite (lane_rows_sum Z.sub), (lane_rows_sum (λ s p, (s + ps - 1) / ps - (p + ps - 1) / ps))
    by lia.
  change (λ q, seq_len q - prefix_len q) with extend_len.
  change (λ q, (seq_len q + ps - 1) / ps - (prefix_len q + ps - 1) / ps)
    with (num_new_pages ps).
  rewrite <- HA, <- HF1.
  change ((prefix_len r + ps - 1) / ps) with (ceil_div (prefix_len r) ps) in *.
  change ((seq_len r + ps - 1) / ps - ceil_div (prefix_len r) ps) with (num_new_pages ps r).
  pose proof (ceil_div_bounds ps Hps (prefix_len r)) as Hc.
  set (c := ceil_div (prefix_len r) ps) in *.
  pose proof (Z.div_mod (seq_len r) ps ltac:(lia)) as Hdm.
  pose proof (Z.mod_pos_bound (seq_len r) ps Hps) as Hm.
  unfold extend_len in *.
  destruct (decide (seq_len r ≤ c * ps)) as [Hs|Hl].
  - rewrite Z.min_l by lia. rewrite (extend_locs_short ps r) by done.
    rewrite bool_decide_true by lia.
    rewrite (tl_store_range _ (λ o, last_loc r + 1 + o)); [by rewrite HB|lia|intros; lia|].
    intros o Ho. apply bool_decide_ext. lia.
  - destruct (long_request ps r N B Hps Hok ltac:(lia) HN HB)
      as (P & q & B1 & B2 & B3 & -> & -> & Hn & HP & Hq & HB1 & HB2 & HB3). fold c in HP, HB1.
    rewrite Z.min_r, (extend_locs_long ps Hps r P q) by (done || lia). fold c.
    rewrite <- !app_assoc, bool_decide_false by lia. pose proof (zlen_nonneg P).
    rewrite (tl_store_range _ (λ o, last_loc r + 1 + o)); [|lia|intros; lia|]; cycle 1.
    { intros o Ho. apply bool_decide_ext. lia. }
    rewrite HB1. set (L1 := map _ (seqZ 0 (c * ps - prefix_len r))).
    assert (HL1 : zlen L1 = c * ps - prefix_len r) by (unfold L1; rewrite zlen_map, zlen_seqZ; lia).
    rewrite (app_assoc A L1), (part2_loop _ _ _ _ F1 P (q ++ F2) (A ++ L1) B2 (B3 ++ C));
      rewrite ?zlen_app; try lia.
    pose proof (zlen_expand P ps ltac:(lia)) as HL2. set (L2 := P ≫= _) in *.
    destruct (decide (seq_len r mod ps = 0)) as [H0'|H0'].
    + rewrite bool_decide_true in Hq by done. rewrite bool_decide_true, H0' by nia. simpl.
      assert (B3 = []) as -> by (apply zlen_0; nia). by rewrite <- !app_assoc.
    + rewrite bool_decide_false in Hq by done. rewrite bool_decide_false by nia.
      rewrite (tl_load_mid F1 P q F2) by lia.
      rewrite (app_assoc _ L2), (tl_store_range _ (λ o, tl_load q 0 * ps + o));
        rewrite ?zlen_app; try (intros; nia).
      * replace (zlen B3) with (seq_len r mod ps) by nia. by rewrite <- !app_assoc.
      * intros o Ho. apply bool_decide_ext. nia.
Qed.

Lemma launch_from R1 reqs F1 F2 A B u :
  Forall extend_ok reqs →
  zlen F1 = sumZ (map (num_new_pages ps) R1) →
  sumZ (map (num_new_pages ps) reqs) ≤ zlen F2 →
  zlen A = sumZ (map extend_len R1) → zlen B = sumZ (map extend_len reqs) →
  zlen R1 + zlen reqs ≤ u →
  foldl (λ out pid, alloc_extend_kernel (R1 ++ reqs) (F1 ++ F2) u ps pid out) (A ++ B)
    (seqZ (zlen R1) (zlen reqs))
  = A ++ extend_batch ps F2 reqs.
Proof.
  revert R1 F1 F2 A B. induction reqs as [|r reqs IH]; intros R1 F1 F2 A B Hok HF1 HF2 HA HB Hu.
  { simpl in *. rewrite zlen_0 in HB. by subst. }
  rewrite zlen_cons in *. pose proof (zlen_nonneg reqs). rewrite seqZ_cons by lia. cbn [foldl].
  apply Forall_cons in Hok as [Hr Hrs]. simpl in HF2, HB.
  pose proof (num_new_pages_nonneg ps Hps r Hr).
  assert (0 ≤ sumZ (map (num_new_pages ps) reqs)).
  { apply sumZ_nonneg, Forall_map. eapply Forall_impl; [done|]. intros.
    by apply num_new_pages_nonneg. }
  assert (0 ≤ sumZ (map extend_len reqs)).
  { apply sumZ_nonneg, Forall_map. eapply Forall_impl; [done|].
    intros ? []. unfold extend_len. lia. }
  assert (0 ≤ extend_len r) by (destruct Hr; unfold extend_len; lia).
  destruct (split_zlen F2 (num_new_pages ps r)) as (N & F3 & -> & HN & HF3); [lia|].
  destruct (split_zlen B (extend_len r)) as (B1 & B2 & -> & HB1 & HB2); [lia|].
  simpl. rewrite <- HN, !take_app_zlen, !drop_app_zlen.
  rewrite alloc_extend_kernel_spec by (done || lia).
  replace (Z.pred (zlen reqs + 1)) with (zlen reqs) by lia.
  replace (Z.succ (zlen R1)) with (zlen (R1 ++ [r])) by (rewrite zlen_app, zlen_cons, zlen_nil; lia).
  rewrite (app_assoc A), (app_assoc F1), cons_middle, (app_assoc R1).
  assert (zlen (extend_locs ps r N) = extend_len r).
  { unfold extend_locs. by rewrite zlen_map, zlen_seqZ. }
  rewrite IH; rewrite ?zlen_app, ?map_app, ?sumZ_app in *; simpl; try done; try lia.
  - by rewrite <- app_assoc.
  - rewrite zlen_cons, zlen_nil. lia.
Qed.

Lemma alloc_extend_launch_ok reqs free out :
  Forall extend_ok reqs →
  sumZ (map (num_new_pages ps) reqs) ≤ zlen free →
  zlen out = sumZ (map extend_len reqs) →
  alloc_extend_launch reqs free out ps = extend_batch ps free reqs.
Proof.
  intros. unfold alloc_extend_launch.
  apply (launch_from [] reqs [] free [] out); simpl; try done.
  rewrite zlen_nil. pose proof (next_power_of_2_ge (zlen reqs)). lia.
Qed.

End kernel.

(** ** Decode is the extension by one token *)

(** A decode row as the extend row with prefix [seq_len - 1]. *)
Definition decode_req (row : Z * Z) : extend_req := mkExtend (row.1 - 1) row.1 row.2.

Section decode.
Context (ps : Z) (Hps : 0 < ps).

Lemma decode_new_pages row :
  num_new_pages ps (decode_req row) = if bool_decide ((row.1 - 1) mod ps = 0) then 1 else 0.
Proof.
  unfold num_new_pages, decode_req. simpl.
  replace (row.1 + ps - 1) with ((row.1 - 1) + 1 * ps) by lia.
  rewrite Z.div_add by lia.
  change ((row.1 - 1 + ps - 1) / ps) with (ceil_div (row.1 - 1) ps).
  rewrite ceil_div_div by done. case_bool_decide; lia.
Qed.

Lemma decode_locs row N :
  zlen N = num_new_pages ps (decode_req row) →
  extend_locs ps (decode_req row) N
  = [if bool_decide ((row.1 - 1) mod ps = 0) then tl_load N 0 * ps else row.2 + 1].
Proof.
  intros HN. unfold extend_locs, extend_len. simpl.
  replace (row.1 - (row.1 - 1)) with 1 by lia. rewrite seqZ_cons by lia. simpl. f_equal.
  unfold extend_loc, ceil_align. simpl. rewrite ceil_div_div by done.
  pose proof (Z.div_mod (row.1 - 1) ps ltac:(lia)). pose proof (Z.mod_pos_bound (row.1 - 1) ps Hps).
  destruct (decide ((row.1 - 1) mod ps = 0)) as [H1|H1].
  - rewrite !(bool_decide_true (_ mod _ = _)) by done. rewrite bool_decide_false by nia.
    rewrite H1, !Z.add_0_r, Z.sub_diag. done.
  - rewrite !(bool_decide_false (_ mod _ = _)) by done. rewrite bool_decide_true by nia. lia.
Qed.

Lemma alloc_decode_kernel_spec R1 row R2 u F1 N F2 A b C :
  zlen R1 < u →
  zlen F1 = sumZ (map (num_new_pages ps) (map decode_req R1)) →
  zlen N = num_new_pages ps (decode_req row) → zlen A = zlen R1 →
  alloc_decode_kernel (R1 ++ row :: R2) (F1 ++ N ++ F2) u ps (zlen R1) (A ++ b :: C)
  = A ++ extend_locs ps (decode_req row) N ++ C.
Proof.
  intros Hu HF1 HN HA. rewrite decode_locs by done.
  rewrite decode_new_pages in HN. unfold alloc_decode_kernel.
  assert (Hpid : (R1 ++ row :: R2) !! Z.to_nat (zlen R1) = Some row).
  { unfold zlen. by rewrite Nat2Z.id, list_lookup_middle. }
  pose proof (zlen_nonneg R1). rewrite !(tl_load_map _ _ (zlen R1) row) by done.
  rewrite zip_with_id_map, !map_map, zip_with_map_same.
  rewrite (lane_sum (λ q, num_new_pages ps (decode_req q)) _ (R1 ++ [row])); cycle 1.
  { intros k x Hk Hx. pose proof (lookup_lt_Some _ _ _ Hx) as Hlt.
    rewrite length_app in Hlt. simpl in Hlt.
    rewrite bool_decide_true by (unfold zlen; lia).
    by rewrite !(tl_load_map _ _ k x) by (done || by rewrite cons_middle, app_assoc;
                                          apply lookup_app_l_Some). }
  { intros k Hk. rewrite zlen_app, zlen_cons, zlen_nil in Hk.
    rewrite !bool_decide_false by lia. apply Z.sub_diag. }
  { rewrite zlen_app, zlen_cons, zlen_nil. lia. }
  rewrite map_app, sumZ_app, <- (map_map decode_req), <- HF1. cbn [map sumZ].
  change ((row.1 + ps - 1) / ps - (row.1 - 1 + ps - 1) / ps)
    with (num_new_pages ps (decode_req row)).
  rewrite !decode_new_pages.
  cbn [tl_store].
  rewrite !(bool_decide_true (0 ≤ zlen R1)) by lia. rewrite <- HA.
  replace (Z.to_nat (zlen A)) with (length A + 0)%nat by (unfold zlen; lia).
  rewrite !insert_app_r. case_bool_decide; simpl; [|done].
  replace (zlen F1 + (1 + 0) - 1) with (zlen F1 + 0) by lia.
  rewrite tl_load_app_r, tl_load_app_l by lia. done.
Qed.

Lemma decode_launch_from R1 rows F1 F2 A B u :
  zlen F1 = sumZ (map (num_new_pages ps) (map decode_req R1)) →
  sumZ (map (num_new_pages ps) (map decode_req rows)) ≤ zlen F2 →
  zlen A = zlen R1 → zlen B = zlen rows → zlen R1 + zlen rows ≤ u →
  foldl (λ out pid, alloc_decode_kernel (R1 ++ rows) (F1 ++ F2) u ps pid out) (A ++ B)
    (seqZ (zlen R1) (zlen rows))
  = A ++ extend_batch ps F2 (map decode_req rows).
Proof.
  revert R1 F1 F2 A B. induction rows as [|row rows IH]; intros R1 F1 F2 A B HF1 HF2 HA HB Hu.
  { simpl in *. rewrite zlen_nil, zlen_0 in HB. by subst. }
  rewrite zlen_cons in *. pose proof (zlen_nonneg rows). rewrite seqZ_cons by lia. cbn [foldl].
  destruct B as [|b B]; [rewrite zlen_nil in HB; lia|]. rewrite zlen_cons in HB.
  cbn [map sumZ] in HF2.
  assert (Hnn : ∀ q, 0 ≤ num_new_pages ps (decode_req q)).
  { intros q. rewrite decode_new_pages. case_bool_decide; lia. }
  pose proof (Hnn row).
  assert (0 ≤ sumZ (map (num_new_pages ps) (map decode_req rows))).
  { apply sumZ_nonneg. rewrite map_map. apply Forall_map, Forall_forall. intros. apply Hnn. }
  destruct (split_zlen F2 (num_new_pages ps (decode_req row))) as (N & F3 & -> & HN & HF3); [lia|].
  cbn [map extend_batch]. rewrite <- HN, !take_app_zlen, !drop_app_zlen.
  rewrite alloc_decode_kernel_spec by (done || lia).
  replace (Z.pred (zlen rows + 1)) with (zlen rows) by lia.
  replace (Z.succ (zlen R1)) with (zlen (R1 ++ [row])) by (rewrite zlen_app, zlen_cons, zlen_nil; lia).
  assert (HE : zlen (extend_locs ps (decode_req row) N) = 1).
  { rewrite decode_locs by done. done. }
  rewrite (app_assoc A), (app_assoc F1), cons_middle, (app_assoc R1).
  rewrite IH; rewrite ?zlen_app, ?map_app, ?sumZ_app in *; cbn [map sumZ]; try lia.
  - by rewrite <- app_assoc.
  - rewrite zlen_cons, zlen_nil. lia.
  - rewrite zlen_cons, zlen_nil. lia.
Qed.

Lemma alloc_decode_launch_ok rows free out :
  sumZ (map (num_new_pages ps) (map decode_req rows)) ≤ zlen free →
  zlen out = zlen rows →
  alloc_decode_launch rows free out ps = extend_batch ps free (map decode_req rows).
Proof.
  intros. unfold alloc_decode_launch.
  apply (decode_launch_from [] rows [] free [] out); simpl; try done.
  rewrite zlen_nil. pose proof (next_power_of_2_ge (zlen rows)). lia.
Qed.

(** The page count used by [alloc_decode] agrees with the kernel exactly when a page holds more
    than one token. *)
Lemma get_num_new_pages_decode rows :
  1 < ps →
  get_num_new_pages (map fst rows) ps None true
  = Ok (sumZ (map (num_new_pages ps) (map decode_req rows))).
Proof.
  intros H1. simpl. f_equal. f_equal. rewrite !map_map. apply map_ext. intros row.
  rewrite decode_new_pages. pose proof (Z.div_mod row.1 ps ltac:(lia)).
  pose proof (Z.mod_pos_bound row.1 ps ltac:(lia)).
  assert (Hi : row.1 mod ps = 1 ↔ (row.1 - 1) mod ps = 0); cycle 1.
  { case_bool_decide; case_bool_decide; tauto. }
  split; intros Hm.
  - symmetry. apply (Z.mod_unique_pos _ _ (row.1 / ps)); lia.
  - pose proof (Z.div_mod (row.1 - 1) ps ltac:(lia)).
    symmetry. apply (Z.mod_unique_pos _ _ ((row.1 - 1) / ps)); lia.
Qed.

Lemma get_num_new_pages_extend reqs :
  get_num_new_pages (map seq_len reqs) ps (Some (map prefix_len reqs)) false
  = Ok (sumZ (map (num_new_pages ps) reqs)).
Proof. simpl. rewrite !map_map, zip_with_map_same. done. Qed.

End decode.

(** ** No slot is handed out twice *)

(** The debug check of [alloc_extend]: the last cached slot ends at the cached length. *)
Definition aligned_last (ps : Z) (r : extend_req) : Prop :=
  (last_loc r + 1) mod ps = prefix_len r mod ps.

(** The partially filled page of a request, if its prefix does not end at a page boundary. *)
Definition tail_page (ps : Z) (r : extend_req) : list Z :=
  if bool_decide (prefix_len r mod ps = 0) then [] else [last_loc r / ps].

Section distinct.
Context (ps : Z) (Hps : 0 < ps).

(** A new token at position [j] lives at offset [j mod ps] of a page of its request. *)
Lemma extend_loc_page r N j :
  extend_ok r → aligned_last ps r → zlen N = num_new_pages ps r →
  prefix_len r ≤ j < seq_len r →
  extend_loc ps r N j
  = tl_load (tail_page ps r ++ N) (j / ps - prefix_len r / ps) * ps + j mod ps.
Proof.
  intros [H1 H2] Hal HN Hj. unfold extend_loc, ceil_align, tail_page, aligned_last in *.
  rewrite ceil_div_div by done.
  pose proof (Z.div_mod (prefix_len r) ps ltac:(lia)) as Hd.
  pose proof (Z.mod_pos_bound (prefix_len r) ps Hps).
  pose proof (Z.div_mod j ps ltac:(lia)) as Hdj.
  pose proof (Z.mod_pos_bound j ps Hps).
  destruct (decide (prefix_len r mod ps = 0)) as [Hz|Hz].
  { rewrite !(bool_decide_true (_ mod _ = _)) by done. rewrite bool_decide_false by nia.
    by rewrite Z.add_0_r. }
  rewrite !(bool_decide_false (_ mod _ = _)) by done. case_bool_decide as Hlt.
  - assert (Hq : j / ps = prefix_len r / ps) by nia. rewrite Hq, Z.sub_diag. rewrite Hq in Hdj.
    replace (tl_load ([last_loc r / ps] ++ N) 0) with (last_loc r / ps) by done.
    pose proof (Z.div_mod (last_loc r + 1) ps ltac:(lia)).
    assert (last_loc r / ps = (last_loc r + 1) / ps) as ->; [|lia].
    symmetry. apply (Z.div_unique_pos _ _ _ (prefix_len r mod ps - 1)); lia.
  - replace (j / ps - prefix_len r / ps)
      with (zlen [last_loc r / ps] + (j / ps - (prefix_len r / ps + 1)))
      by (rewrite zlen_cons, zlen_nil; lia).
    rewrite tl_load_app_r by nia. done.
Qed.

Lemma page_index_range r N j :
  extend_ok r → zlen N = num_new_pages ps r → prefix_len r ≤ j < seq_len r →
  0 ≤ j / ps - prefix_len r / ps < zlen (tail_page ps r ++ N).
Proof.
  intros [H1 H2] HN Hj. rewrite zlen_app, HN. unfold num_new_pages, tail_page.
  change ((seq_len r + ps - 1) / ps) with (ceil_div (seq_len r) ps).
  change ((prefix_len r + ps - 1) / ps) with (ceil_div (prefix_len r) ps).
  rewrite (ceil_div_div ps Hps (prefix_len r)). pose proof (ceil_div_bounds ps Hps (seq_len r)).
  pose proof (div_bounds ps Hps j).
  assert (prefix_len r / ps ≤ j / ps) by (apply Z.div_le_mono; lia).
  assert (j / ps < ceil_div (seq_len r) ps) by nia.
  destruct (decide (prefix_len r mod ps = 0)) as [Hz|Hz];
    [rewrite !bool_decide_true by done|rewrite !bool_decide_false by done];
    unfold zlen; simpl; lia.
Qed.

Lemma tl_load_lookup (l : list Z) i : 0 ≤ i < zlen l → l !! Z.to_nat i = Some (tl_load l i).
Proof. intros H. pose proof (py_get_tl_load l i H) as Hg. unfold py_get in Hg.
  by rewrite bool_decide_true in Hg by lia. Qed.

Lemma extend_locs_pages r N x :
  extend_ok r → aligned_last ps r → zlen N = num_new_pages ps r →
  x ∈ extend_locs ps r N → x / ps ∈ tail_page ps r ++ N.
Proof.
  intros Hok Hal HN Hx. apply list_elem_of_fmap in Hx as (j & -> & Hj%elem_of_seqZ).
  unfold extend_len in Hj. rewrite extend_loc_page by (done || lia).
  rewrite div_add_lt by (done || apply Z.mod_pos_bound; lia).
  eapply list_elem_of_lookup_2, tl_load_lookup, page_index_range; (done || lia).
Qed.

Lemma extend_locs_NoDup r N :
  extend_ok r → aligned_last ps r → zlen N = num_new_pages ps r →
  NoDup (tail_page ps r ++ N) → NoDup (extend_locs ps r N).
Proof.
  intros Hok Hal HN Hnd. unfold extend_locs.
  apply NoDup_fmap_2_strong; [|apply NoDup_seqZ].
  intros j k Hj%elem_of_seqZ Hk%elem_of_seqZ. unfold extend_len in *.
  rewrite !extend_loc_page by (done || lia). intros Heq.
  pose proof (Z.mod_pos_bound j ps Hps). pose proof (Z.mod_pos_bound k ps Hps).
  pose proof (Z.div_mod j ps ltac:(lia)). pose proof (Z.div_mod k ps ltac:(lia)).
  set (T := tail_page ps r ++ N) in *.
  assert (tl_load T (j / ps - prefix_len r / ps) = tl_load T (k / ps - prefix_len r / ps)
          ∧ j mod ps = k mod ps) as [Hp Hm] by (by apply (page_split ps)).
  pose proof (page_index_range r N j Hok HN ltac:(lia)) as Rj.
  pose proof (page_index_range r N k Hok HN ltac:(lia)) as Rk.
  pose proof (tl_load_lookup _ _ Rj) as Lj. pose proof (tl_load_lookup _ _ Rk) as Lk.
  fold T in Lj, Lk. rewrite Hp in Lj.
  pose proof (proj1 (NoDup_alt _) Hnd _ _ _ Lj Lk).
  assert (Hq : j / ps = k / ps) by lia. rewrite Hq in *. lia.
Qed.

(** The pages a batch writes to: the tail pages of its requests and the pages it takes. *)
Definition batch_pages (free : list Z) (reqs : list extend_req) : list Z :=
  (reqs ≫= tail_page ps) ++ take (Z.to_nat (sumZ (map (num_new_pages ps) reqs))) free.

Lemma sum_new_pages_nonneg reqs :
  Forall extend_ok reqs → 0 ≤ sumZ (map (num_new_pages ps) reqs).
Proof.
  intros H. apply sumZ_nonneg, Forall_map. eapply Forall_impl; [done|].
  intros. by apply num_new_pages_nonneg.
Qed.

Lemma batch_pages_cons free r reqs :
  extend_ok r → Forall extend_ok reqs →
  batch_pages free (r :: reqs)
  ≡ₚ (tail_page ps r ++ take (Z.to_nat (num_new_pages ps r)) free)
     ++ batch_pages (drop (Z.to_nat (num_new_pages ps r)) free) reqs.
Proof.
  intros Hr Hrs. unfold batch_pages. rewrite bind_cons. cbn [map sumZ].
  pose proof (num_new_pages_nonneg ps Hps r Hr). pose proof (sum_new_pages_nonneg _ Hrs).
  rewrite Z2Nat.inj_add by lia.
  rewrite <- (take_drop (Z.to_nat (num_new_pages ps r)) free) at 1.
  destruct (decide (Z.to_nat (num_new_pages ps r) ≤ length free)%nat) as [Hle|Hgt].
  - rewrite take_app_ge by (rewrite length_take; lia).
    replace (Z.to_nat (num_new_pages ps r) + Z.to_nat (sumZ (map (num_new_pages ps) reqs))
             - length (take (Z.to_nat (num_new_pages ps r)) free))%nat
      with (Z.to_nat (sumZ (map (num_new_pages ps) reqs))) by (rewrite length_take; lia).
    solve_Permutation.
  - rewrite !(drop_ge free) by lia. rewrite !app_nil_r, take_nil, !app_nil_r.
    rewrite !take_ge by (rewrite ?length_take; lia). solve_Permutation.
Qed.

Lemma extend_batch_pages free reqs x :
  Forall extend_ok reqs → Forall (aligned_last ps) reqs →
  sumZ (map (num_new_pages ps) reqs) ≤ zlen free →
  x ∈ extend_batch ps free reqs → x / ps ∈ batch_pages free reqs.
Proof.
  revert free. induction reqs as [|r reqs IH]; intros free Hok Hal Hsum Hx; [set_solver|].
  apply Forall_cons in Hok as [Hr Hrs]. apply Forall_cons in Hal as [Ha Has].
  rewrite batch_pages_cons by done. cbn [map sumZ extend_batch] in *.
  pose proof (num_new_pages_nonneg ps Hps r Hr). pose proof (sum_new_pages_nonneg _ Hrs).
  apply elem_of_app in Hx as [Hx|Hx]; apply elem_of_app; [left|right].
  - eapply extend_locs_pages; try done. rewrite zlen_take. lia.
  - apply IH; try done. rewrite zlen_drop. lia.
Qed.

Lemma extend_batch_NoDup free reqs :
  Forall extend_ok reqs → Forall (aligned_last ps) reqs →
  sumZ (map (num_new_pages ps) reqs) ≤ zlen free →
  NoDup (batch_pages free reqs) → NoDup (extend_batch ps free reqs).
Proof.
  revert free. induction reqs as [|r reqs IH]; intros free Hok Hal Hsum Hnd; [constructor|].
  apply Forall_cons in Hok as [Hr Hrs]. apply Forall_cons in Hal as [Ha Has].
  rewrite batch_pages_cons in Hnd by done. apply NoDup_app in Hnd as (Hnd1 & Hdis & Hnd2).
  cbn [map sumZ extend_batch] in *.
  pose proof (num_new_pages_nonneg ps Hps r Hr). pose proof (sum_new_pages_nonneg _ Hrs).
  assert (HN : zlen (take (Z.to_nat (num_new_pages ps r)) free) = num_new_pages ps r)
    by (rewrite zlen_take; lia).
  apply NoDup_app; split_and!.
  - by apply extend_locs_NoDup.
  - intros x Hx Hx'. eapply Hdis; [by eapply extend_locs_pages|].
    apply extend_batch_pages; try done. rewrite zlen_drop. lia.
  - apply IH; try done. rewrite zlen_drop. lia.
Qed.

End distinct.

(** ** Every page a batch takes is used *)

Section covered.
Context (ps : Z) (Hps : 0 < ps).

Lemma extend_locs_covers r N p :
  extend_ok r → zlen N = num_new_pages ps r → p ∈ N → ∃ x, x ∈ extend_locs ps r N ∧ x / ps = p.
Proof.
  intros [H1 H2] HN [i Hi]%list_elem_of_lookup.
  pose proof (lookup_lt_Some _ _ _ Hi) as Hlt.
  unfold num_new_pages in HN. unfold zlen in HN.
  change ((seq_len r + ps - 1) / ps) with (ceil_div (seq_len r) ps) in HN.
  change ((prefix_len r + ps - 1) / ps) with (ceil_div (prefix_len r) ps) in HN.
  pose proof (ceil_div_bounds ps Hps (seq_len r)).
  pose proof (ceil_div_bounds ps Hps (prefix_len r)).
  set (j := (ceil_div (prefix_len r) ps + Z.of_nat i) * ps).
  assert (Hd : j / ps = ceil_div (prefix_len r) ps + Z.of_nat i) by (apply Z.div_mul; lia).
  assert (Hm : j mod ps = 0) by (apply Z.mod_mul; lia).
  exists (extend_loc ps r N j). split.
  - apply list_elem_of_fmap. exists j. split; [done|]. apply elem_of_seqZ.
    unfold extend_len. subst j. nia.
  - unfold extend_loc, ceil_align. rewrite bool_decide_false by (subst j; nia).
    rewrite Hd, Hm, div_add_lt by lia.
    unfold tl_load. rewrite bool_decide_true by lia.
    replace (Z.to_nat _) with i by lia. by rewrite Hi.
Qed.

Lemma extend_batch_covers free reqs p :
  Forall extend_ok reqs → sumZ (map (num_new_pages ps) reqs) ≤ zlen free →
  p ∈ take (Z.to_nat (sumZ (map (num_new_pages ps) reqs))) free →
  ∃ x, x ∈ extend_batch ps free reqs ∧ x / ps = p.
Proof.
  revert free. induction reqs as [|r reqs IH]; intros free Hok Hsum Hp; [set_solver|].
  apply Forall_cons in Hok as [Hr Hrs]. cbn [map sumZ extend_batch] in *.
  pose proof (num_new_pages_nonneg ps Hps r Hr). pose proof (sum_new_pages_nonneg ps Hps _ Hrs).
  rewrite Z2Nat.inj_add, <- take_take_drop in Hp by lia.
  apply elem_of_app in Hp as [Hp|Hp].
  - destruct (extend_locs_covers r (take (Z.to_nat (num_new_pages ps r)) free) p)
      as (x & ? & ?); [done|rewrite zlen_take; lia|done|].
    exists x. set_solver.
  - destruct (IH (drop (Z.to_nat (num_new_pages ps r)) free)) as (x & ? & ?);
      [done|rewrite zlen_drop; lia|done|].
    exists x. set_solver.
Qed.

(** The estimate with which [alloc_extend] decides to merge the released pages. *)
Lemma sum_new_pages_bound reqs :
  Forall extend_ok reqs →
  sumZ (map (num_new_pages ps) reqs) ≤ sumZ (map extend_len reqs) / ps + zlen reqs.
Proof.
  induction 1 as [|r reqs [H1 H2] Hrs IH]; [done|]. cbn [map sumZ]. rewrite zlen_cons.
  assert (num_new_pages ps r ≤ extend_len r / ps + 1).
  { unfold num_new_pages, extend_len.
    pose proof (ceil_div_bounds ps Hps (seq_len r)).
    pose proof (ceil_div_bounds ps Hps (prefix_len r)).
    pose proof (div_bounds ps Hps (seq_len r - prefix_len r)). unfold ceil_div in *. nia. }
  assert (extend_len r / ps + sumZ (map extend_len reqs) / ps
          ≤ (extend_len r + sumZ (map extend_len reqs)) / ps); [|lia].
  apply Z.div_le_lower_bound; [lia|].
  pose proof (div_bounds ps Hps (extend_len r)).
  pose proof (div_bounds ps Hps (sumZ (map extend_len reqs))). lia.
Qed.

Lemma zlen_extend_batch free reqs :
  Forall extend_ok reqs → zlen (extend_batch ps free reqs) = sumZ (map extend_len reqs).
Proof.
  intros H. revert free. induction H as [|r reqs [H1 H2] Hrs IH]; intros free; [done|].
  cbn [map sumZ extend_batch]. rewrite zlen_app, IH. unfold extend_locs.
  rewrite zlen_map, zlen_seqZ; unfold extend_len; lia.
Qed.

End covered.

(** ** Properties *)

(** C14: for every batch of requests with consistent lengths and enough free pages, the block-parallel
    Triton kernel and the sequential [alloc_extend_naive] both fill the output with the reference
    slots, whatever the output tensors held before. *)
Theorem extend_kernel_naive_equiv ps reqs free out out' :
  0 < ps → Forall extend_ok reqs →
  sumZ (map (num_new_pages ps) reqs) ≤ zlen free →
  zlen out = sumZ (map extend_len reqs) → zlen out' = zlen out →
  alloc_extend_naive reqs free out ps = Ok (extend_batch ps free reqs)
  ∧ alloc_extend_launch reqs free out' ps = extend_batch ps free reqs.
Proof.
  intros Hps Hok Hsum Ho Ho'.
  split; [by apply alloc_extend_naive_ok|apply alloc_extend_launch_ok; congruence].
Qed.

Lemma extend_kernel_naive_equiv_witness :
  alloc_extend_naive [mkExtend 3 9 42; mkExtend 0 4 0] [7; 5; 6; 9] (replicate 10 (-1)) 4
    = Ok [43; 28; 29; 30; 31; 20; 24; 25; 26; 27]
  ∧ alloc_extend_launch [mkExtend 3 9 42; mkExtend 0 4 0] [7; 5; 6; 9] (replicate 10 0) 4
    = [43; 28; 29; 30; 31; 20; 24; 25; 26; 27].
Proof.
  apply (extend_kernel_naive_equiv 4 [mkExtend 3 9 42; mkExtend 0 4 0] [7; 5; 6; 9]);
    [lia|repeat constructor; simpl; lia|vm_compute; discriminate|reflexivity|reflexivity].
Defined.
