(* ===== verification/Allocator.v ===== *)
(** * KV-cache slot allocators

    Models [src/python/sglang/srt/mem_cache/allocator.py]: the state shared by the allocators
    ([BaseTokenToKVPoolAllocator]), the token allocator ([TokenToKVPoolAllocator], page size 1)
    and the paged allocator ([PagedTokenToKVPoolAllocator]).  Tensors of slot or page indices
    are [list Z]; a method returns its result and the allocator after the call.

    The theorems: in every state reachable through the public operations, the slots (pages)
    held by clients, the free list, the released list and the pending free group partition
    [1..size]; so nothing is handed out twice, slot 0 is never handed out, and an allocation
    fails exactly when too little is available. *)

From S2P Require Import Prelude AllocKernels.

(** ** BaseTokenToKVPoolAllocator *)

Record Allocator := mkAllocator {
  al_size : Z;
  al_page_size : Z;
  al_need_sort : bool;
  al_num_pages : Z;          (* of the paged allocator *)
  al_debug_mode : bool;      (* of the paged allocator *)
  free_pages : list Z;
  release_pages : list Z;
  is_not_in_free_group : bool;
  free_group : list (list Z)
}.

Definition set_free_pages (a : Allocator) (l : list Z) : Allocator :=
  mkAllocator (al_size a) (al_page_size a) (al_need_sort a) (al_num_pages a) (al_debug_mode a)
    l (release_pages a) (is_not_in_free_group a) (free_group a).

Definition set_release_pages (a : Allocator) (l : list Z) : Allocator :=
  mkAllocator (al_size a) (al_page_size a) (al_need_sort a) (al_num_pages a) (al_debug_mode a)
    (free_pages a) l (is_not_in_free_group a) (free_group a).

Definition set_free_group (a : Allocator) (b : bool) (g : list (list Z)) : Allocator :=
  mkAllocator (al_size a) (al_page_size a) (al_need_sort a) (al_num_pages a) (al_debug_mode a)
    (free_pages a) (release_pages a) b g.

Definition available_size (a : Allocator) : Z :=
  (zlen (free_pages a) + zlen (release_pages a)) * al_page_size a.

Definition restore_state (a : Allocator) (state : list Z * list Z) : Allocator :=
  set_release_pages (set_free_pages a state.1) state.2.

Definition backup_state (a : Allocator) : list Z * list Z := (free_pages a, release_pages a).

Definition free_group_begin (a : Allocator) : Allocator := set_free_group a false [].

(** [free] is the method of the subclass. *)
Definition free_group_end {R} (free : Allocator → list Z → R) (ret : Allocator → R)
    (a : Allocator) : R :=
  let a' := set_free_group a true (free_group a) in
  match free_group a' with
  | [] => ret a'
  | g => free a' (concat g)
  end.

Definition merge_and_sort_free (a : Allocator) : Allocator :=
  if bool_decide (0 < zlen (release_pages a)) then
    set_release_pages
      (set_free_pages a (torch_sort (free_pages a ++ release_pages a))) []
  else a.

(** ** TokenToKVPoolAllocator *)

Definition TokenToKVPoolAllocator_clear (a : Allocator) : Allocator :=
  mkAllocator (al_size a) (al_page_size a) (al_need_sort a) (al_num_pages a) (al_debug_mode a)
    (seqZ 1 (al_size a)) [] true [].

Definition TokenToKVPoolAllocator_init (size : Z) (need_sort : bool) : Allocator :=
  TokenToKVPoolAllocator_clear (mkAllocator size 1 need_sort size false [] [] true []).

Definition TokenToKVPoolAllocator_available_size (a : Allocator) : Z :=
  zlen (free_pages a) + zlen (release_pages a).

Definition TokenToKVPoolAllocator_alloc (a : Allocator) (need_size : Z)
    : option (list Z) * Allocator :=
  let a := if al_need_sort a && bool_decide (zlen (free_pages a) < need_size)
           then merge_and_sort_free a else a in
  if bool_decide (zlen (free_pages a) < need_size) then (None, a)
  else
    let select_index := (free_pages a)⟨:need_size⟩ in
    (Some select_index, set_free_pages a ((free_pages a)⟨need_size:⟩)).

Definition TokenToKVPoolAllocator_free (a : Allocator) (free_index : list Z) : Allocator :=
  if bool_decide (zlen free_index = 0) then a
  else if is_not_in_free_group a then
    if al_need_sort a then set_release_pages a (release_pages a ++ free_index)
    else set_free_pages a (free_pages a ++ free_index)
  else set_free_group a (is_not_in_free_group a) (free_group a ++ [free_index]).

Definition TokenToKVPoolAllocator_free_group_end (a : Allocator) : Allocator :=
  free_group_end TokenToKVPoolAllocator_free id a.

(** ** PagedTokenToKVPoolAllocator *)

Definition PagedTokenToKVPoolAllocator_clear (a : Allocator) : Allocator :=
  mkAllocator (al_size a) (al_page_size a) (al_need_sort a) (al_num_pages a) (al_debug_mode a)
    (seqZ 1 (al_num_pages a)) [] true [].

Definition PagedTokenToKVPoolAllocator_init (size page_size : Z) (need_sort debug : bool)
    : Allocator :=
  PagedTokenToKVPoolAllocator_clear
    (mkAllocator size page_size need_sort (size / page_size) debug [] [] true []).

(** A page-aligned allocation.  [Raise] is the failed debug assertion. *)
Definition PagedTokenToKVPoolAllocator_alloc (a : Allocator) (need_size : Z)
    : res (option (list Z)) * Allocator :=
  if al_debug_mode a && negb (bool_decide (need_size mod al_page_size a = 0))
  then (Raise AssertionError, a)
  else
    let num_pages := need_size / al_page_size a in
    let a := if al_need_sort a && bool_decide (zlen (free_pages a) < num_pages)
             then merge_and_sort_free a else a in
    if bool_decide (zlen (free_pages a) < num_pages) then (Ok None, a)
    else
      let out_pages := (free_pages a)⟨:num_pages⟩ in
      let a' := set_free_pages a ((free_pages a)⟨num_pages:⟩) in
      (Ok (Some (out_pages ≫= λ p, map (λ k, p * al_page_size a + k) (seqZ 0 (al_page_size a)))),
       a').

(** [uninit] is the content of [torch.empty((extend_num_tokens,))]. *)
Definition PagedTokenToKVPoolAllocator_alloc_extend (a : Allocator) (reqs : list extend_req)
    (extend_num_tokens : Z) (uninit : list Z) : res (option (list Z)) * Allocator :=
  let ps := al_page_size a in
  if al_debug_mode a
     && negb (forallb (λ r, bool_decide ((last_loc r + 1) mod ps = prefix_len r mod ps)) reqs)
  then (Raise AssertionError, a)
  else
    let bs := zlen reqs in
    let a := if al_need_sort a
                && bool_decide (zlen (free_pages a) < extend_num_tokens / ps + bs + 1)
             then merge_and_sort_free a else a in
    let out_indices := alloc_extend_launch reqs (free_pages a) uninit ps in
    if al_debug_mode a
       && negb (bool_decide (zlen (torch_unique out_indices) = zlen out_indices))
    then (Raise AssertionError, a)
    else
      match get_num_new_pages (map seq_len reqs) ps (Some (map prefix_len reqs)) false with
      | Raise e => (Raise e, a)
      | Ok num_new_pages =>
          if bool_decide (zlen (free_pages a) < num_new_pages) then (Ok None, a)
          else (Ok (Some out_indices), set_free_pages a ((free_pages a)⟨num_new_pages:⟩))
      end.

Definition PagedTokenToKVPoolAllocator_alloc_decode (a : Allocator) (rows : list (Z * Z))
    (uninit : list Z) : res (option (list Z)) * Allocator :=
  let ps := al_page_size a in
  if al_debug_mode a
     && negb (forallb (λ row, bool_decide ((row.2 + 2) mod ps = row.1 mod ps)) rows)
  then (Raise AssertionError, a)
  else
    let bs := zlen rows in
    let a := if al_need_sort a && bool_decide (zlen (free_pages a) < bs)
             then merge_and_sort_free a else a in
    let out_indices := alloc_decode_launch rows (free_pages a) uninit ps in
    if al_debug_mode a
       && negb (bool_decide (zlen (torch_unique out_indices) = zlen out_indices))
    then (Raise AssertionError, a)
    else
      match get_num_new_pages (map fst rows) ps None true with
      | Raise e => (Raise e, a)
      | Ok num_new_pages =>
          if bool_decide (zlen (free_pages a) < num_new_pages) then (Ok None, a)
          else (Ok (Some out_indices), set_free_pages a ((free_pages a)⟨num_new_pages:⟩))
      end.

Definition PagedTokenToKVPoolAllocator_free (a : Allocator) (free_index : list Z)
    : res () * Allocator :=
  if bool_decide (zlen free_index = 0) then (Ok (), a)
  else
    let a' :=
      if is_not_in_free_group a then
        let free_page_indices := torch_unique (map (λ i, i / al_page_size a) free_index) in
        if al_need_sort a then set_release_pages a (free_page_indices ++ release_pages a)
        else set_free_pages a (free_page_indices ++ free_pages a)
      else set_free_group a (is_not_in_free_group a) (free_group a ++ [free_index]) in
    if al_debug_mode a'
       && negb (bool_decide (zlen (torch_unique (free_pages a')) = zlen (free_pages a')))
    then (Raise AssertionError, a')
    else (Ok (), a').

Definition PagedTokenToKVPoolAllocator_free_group_end (a : Allocator) : res () * Allocator :=
  free_group_end PagedTokenToKVPoolAllocator_free (λ a, (Ok (), a)) a.

(** ** The token allocator partitions the slots *)

(** Slots freed inside an open free group wait for [free_group_end]. *)
Definition pending_slots (a : Allocator) : list Z :=
  if is_not_in_free_group a then [] else concat (free_group a).

(** The allocator and the slots its clients hold. *)
Inductive token_step : Allocator * list Z → Allocator * list Z → Prop :=
| token_step_alloc a used n out a' :
    0 ≤ n → TokenToKVPoolAllocator_alloc a n = (Some out, a') →
    token_step (a, used) (a', out ++ used)
| token_step_alloc_fail a used n a' :
    0 ≤ n → TokenToKVPoolAllocator_alloc a n = (None, a') →
    token_step (a, used) (a', used)
| token_step_free a used idx rest :
    used ≡ₚ idx ++ rest →
    token_step (a, used) (TokenToKVPoolAllocator_free a idx, rest)
| token_step_group_begin a used :
    is_not_in_free_group a = true →
    token_step (a, used) (free_group_begin a, used)
| token_step_group_end a used :
    is_not_in_free_group a = false →
    token_step (a, used) (TokenToKVPoolAllocator_free_group_end a, used)
| token_step_rollback a used n out a' :
    0 ≤ n → TokenToKVPoolAllocator_alloc a n = (Some out, a') →
    token_step (a, used) (restore_state a' (backup_state a), used)
| token_step_clear a used :
    token_step (a, used) (TokenToKVPoolAllocator_clear a, []).

Definition token_reachable (size : Z) (need_sort : bool) : Allocator * list Z → Prop :=
  rtc token_step (TokenToKVPoolAllocator_init size need_sort, []).

(** The slots [1..size] are split between the lists of the allocator and its clients. *)
Record token_inv (size : Z) (s : Allocator * list Z) : Prop := {
  ti_size : al_size s.1 = size;
  ti_partition :
    free_pages s.1 ++ release_pages s.1 ++ pending_slots s.1 ++ s.2 ≡ₚ seqZ 1 size;
  ti_release : al_need_sort s.1 = false → release_pages s.1 = []
}.

Lemma merge_and_sort_free_perm a :
  free_pages (merge_and_sort_free a) ++ release_pages (merge_and_sort_free a)
  ≡ₚ free_pages a ++ release_pages a.
Proof.
  unfold merge_and_sort_free. case_bool_decide; [|done]. simpl.
  rewrite app_nil_r. apply torch_sort_perm.
Qed.

Lemma merge_and_sort_free_release a : release_pages (merge_and_sort_free a) = [].
Proof.
  unfold merge_and_sort_free. case_bool_decide as H; [done|].
  apply zlen_0. pose proof (zlen_nonneg (release_pages a)). lia.
Qed.

Lemma merge_and_sort_free_fields a :
  let a' := merge_and_sort_free a in
  al_size a' = al_size a ∧ al_page_size a' = al_page_size a ∧ al_need_sort a' = al_need_sort a
  ∧ al_num_pages a' = al_num_pages a ∧ al_debug_mode a' = al_debug_mode a
  ∧ is_not_in_free_group a' = is_not_in_free_group a ∧ free_group a' = free_group a.
Proof. unfold merge_and_sort_free. case_bool_decide; done. Qed.

(** The state in which an allocation looks at the free list: the released slots are merged in
    when it asks for more than the free list holds. *)
Definition merged_for (a : Allocator) (n : Z) : Allocator :=
  if al_need_sort a && bool_decide (zlen (free_pages a) < n) then merge_and_sort_free a else a.

Lemma merged_for_fields a n :
  let a' := merged_for a n in
  al_size a' = al_size a ∧ al_page_size a' = al_page_size a ∧ al_need_sort a' = al_need_sort a
  ∧ al_num_pages a' = al_num_pages a ∧ al_debug_mode a' = al_debug_mode a
  ∧ is_not_in_free_group a' = is_not_in_free_group a ∧ free_group a' = free_group a.
Proof. unfold merged_for. case_match; [apply merge_and_sort_free_fields|done]. Qed.

Lemma merged_for_perm a n :
  free_pages (merged_for a n) ++ release_pages (merged_for a n)
  ≡ₚ free_pages a ++ release_pages a.
Proof. unfold merged_for. case_match; [apply merge_and_sort_free_perm|done]. Qed.

Lemma merged_for_release a n :
  (al_need_sort a = false → release_pages a = []) →
  (al_need_sort a = false → release_pages (merged_for a n) = [])
  ∧ (zlen (free_pages (merged_for a n)) < n → release_pages (merged_for a n) = []).
Proof.
  intros Hr. unfold merged_for. destruct (al_need_sort a); simpl.
  - case_bool_decide; [by rewrite merge_and_sort_free_release|]. split; [done|lia].
  - by rewrite Hr.
Qed.

(** A short free list after merging means that the allocator is short of slots. *)
Lemma merged_for_short a n :
  (al_need_sort a = false → release_pages a = []) →
  zlen (free_pages (merged_for a n)) < n ↔ zlen (free_pages a) + zlen (release_pages a) < n.
Proof.
  intros Hr. destruct (merged_for_release a n Hr) as [_ Hs].
  pose proof (f_equal Z.of_nat (Permutation_length (merged_for_perm a n))) as Hl.
  rewrite !length_app, !Nat2Z.inj_add in Hl.
  fold (zlen (free_pages (merged_for a n))) (zlen (release_pages (merged_for a n)))
    (zlen (free_pages a)) (zlen (release_pages a)) in Hl.
  pose proof (zlen_nonneg (release_pages (merged_for a n))). split; [|lia].
  intros H'. rewrite (Hs H'), zlen_nil in Hl. lia.
Qed.

Lemma token_alloc_cases a n :
  0 ≤ n →
  TokenToKVPoolAllocator_alloc a n
  = let a' := merged_for a n in
    if bool_decide (zlen (free_pages a') < n) then (None, a')
    else (Some (take (Z.to_nat n) (free_pages a')),
          set_free_pages a' (drop (Z.to_nat n) (free_pages a'))).
Proof.
  intros Hn. unfold TokenToKVPoolAllocator_alloc. fold (merged_for a n). simpl.
  case_bool_decide; [done|]. by rewrite slice_to_take, slice_from_drop.
Qed.

Lemma merged_for_inv size a used n : token_inv size (a, used) → token_inv size (merged_for a n, used).
Proof.
  intros [Hsz Hp Hr]. simpl in *.
  destruct (merged_for_fields a n) as (E1 & E2 & E3 & _ & _ & E4 & E5).
  split; simpl; [congruence| |].
  - rewrite app_assoc, merged_for_perm, <- app_assoc, <- Hp. unfold pending_slots.
    by rewrite E4, E5.
  - rewrite E3. by apply merged_for_release.
Qed.

Lemma token_alloc_inv size a used n out a' :
  0 ≤ n → token_inv size (a, used) → TokenToKVPoolAllocator_alloc a n = (out, a') →
  token_inv size (a', default [] out ++ used).
Proof.
  intros Hn Hi Ha. rewrite token_alloc_cases in Ha by done. simpl in Ha.
  apply (merged_for_inv _ _ _ n) in Hi as [Hsz Hp Hr]. simpl in *.
  case_bool_decide; inversion Ha; subst; split; simpl; try done.
  unfold pending_slots in *. simpl. rewrite <- Hp.
  rewrite <- (take_drop (Z.to_nat n) (free_pages (merged_for a n))) at 3. solve_Permutation.
Qed.

Lemma token_free_inv size a used idx rest :
  used ≡ₚ idx ++ rest → token_inv size (a, used) →
  token_inv size (TokenToKVPoolAllocator_free a idx, rest).
Proof.
  intros Hu [Hsz Hp Hr]. simpl in *. unfold TokenToKVPoolAllocator_free.
  case_bool_decide as H0; [apply zlen_0 in H0; subst; split; simpl; [done| |done]; by rewrite <- Hp, Hu|].
  unfold pending_slots in *.
  destruct (is_not_in_free_group a) eqn:Eg; [destruct (al_need_sort a) eqn:Es|];
    split; unfold pending_slots; simpl; rewrite ?Eg, ?Es; try done.
  - rewrite <- Hp, Hu. simpl. solve_Permutation.
  - rewrite <- Hp, Hu, Hr by done. simpl. solve_Permutation.
  - rewrite <- Hp, Hu, concat_app. simpl. solve_Permutation.
Qed.

Lemma token_step_inv size s s' : token_step s s' → token_inv size s → token_inv size s'.
Proof.
  intros Hs Hi. destruct Hs as [a used n out a' Hn Ha|a used n a' Hn Ha|a used idx rest Hu
    |a used Hg|a used Hg|a used n out a' Hn Ha|a used].
  - by apply (token_alloc_inv _ _ _ _ (Some out) _ Hn Hi).
  - by apply (token_alloc_inv _ _ _ _ None _ Hn Hi).
  - by eapply token_free_inv.
  - destruct Hi as [Hsz Hp Hr]. split; simpl in *; [done| |done].
    unfold pending_slots in *. by rewrite Hg in Hp.
  - (* the group is freed as one tensor *)
    unfold TokenToKVPoolAllocator_free_group_end, free_group_end. simpl.
    assert (Hi' : token_inv size (set_free_group a true (free_group a), concat (free_group a) ++ used)).
    { destruct Hi as [Hsz Hp Hr]. split; simpl in *; [done| |done].
      unfold pending_slots in *. rewrite Hg in Hp. simpl. rewrite <- Hp. solve_Permutation. }
    destruct (free_group a) as [|g gs]; [done|].
    eapply token_free_inv; [|exact Hi']; done.
  - rewrite token_alloc_cases in Ha by done. simpl in Ha.
    destruct (merged_for_fields a n) as (E1 & E2 & E3 & _ & _ & E4 & E5).
    destruct Hi as [Hsz Hp Hr]. case_bool_decide; inversion Ha; subst.
    split; simpl in *; [congruence| |by rewrite E3].
    unfold pending_slots in *. simpl. by rewrite E4, E5.
  - destruct Hi as [Hsz _ _]. split; simpl in *; [done| |done].
    unfold pending_slots. simpl. by rewrite app_nil_r, Hsz.
Qed.

Lemma token_reachable_inv size need_sort s :
  token_reachable size need_sort s → token_inv size s.
Proof.
  intros Hr. eapply (rtc_ind_r (λ s, token_inv size s)); [| |exact Hr].
  - split; simpl; try done. by rewrite app_nil_r.
  - intros x y _ Hxy Hx. by eapply token_step_inv.
Qed.

Lemma token_inv_NoDup size a used :
  token_inv size (a, used) → NoDup (free_pages a ++ release_pages a ++ pending_slots a ++ used).
Proof. intros [_ Hp _]. rewrite Hp. apply NoDup_seqZ. Qed.

Lemma token_inv_available size a used :
  0 ≤ size → token_inv size (a, used) →
  TokenToKVPoolAllocator_available_size a + zlen (pending_slots a) + zlen used = size.
Proof.
  intros Hs [_ Hp _]. apply Permutation_length in Hp.
  simpl in Hp. rewrite !length_app, length_seqZ in Hp.
  unfold TokenToKVPoolAllocator_available_size, zlen. lia.
Qed.

Lemma token_alloc_fresh size a used n out a' :
  0 ≤ n → token_inv size (a, used) → TokenToKVPoolAllocator_alloc a n = (Some out, a') →
  zlen out = n ∧ NoDup out ∧ ∀ x, x ∈ out → (x ∉ used) ∧ 1 ≤ x ≤ size.
Proof.
  intros Hn Hi Ha. pose proof (token_alloc_inv _ _ _ _ _ _ Hn Hi Ha) as Hi'. simpl in Hi'.
  pose proof (token_inv_NoDup _ _ _ Hi') as Hnd.
  do 3 apply NoDup_app in Hnd as (_ & _ & Hnd). apply NoDup_app in Hnd as (Ho & Hdis & _).
  rewrite token_alloc_cases in Ha by done. simpl in Ha. case_bool_decide; inversion Ha; subst.
  split_and!; [rewrite zlen_take; lia|done|]. intros x Hx. split; [by apply Hdis|].
  assert (Hs : x ∈ seqZ 1 size); [|apply elem_of_seqZ in Hs; lia].
  destruct Hi' as [_ <- _]. simpl. set_solver.
Qed.

Lemma token_alloc_fails size a used n :
  0 ≤ n → token_inv size (a, used) →
  (TokenToKVPoolAllocator_alloc a n).1 = None ↔ TokenToKVPoolAllocator_available_size a < n.
Proof.
  intros Hn [_ _ Hr]. rewrite token_alloc_cases by done. simpl in *.
  unfold TokenToKVPoolAllocator_available_size. rewrite <- (merged_for_short a n Hr).
  by case_bool_decide.
Qed.

(** ** Properties *)

(** In every state reached by alloc, free, free groups, rollback and clear, the free list, the
    released list, the slots waiting in an open free group and the slots held by clients are a
    permutation of [1..size]; so no slot is held twice, the padding slot 0 is never held, and the
    reported available size is what is neither held nor pending. *)
Theorem token_slots_partitioned size need_sort a used :
  0 ≤ size → token_reachable size need_sort (a, used) →
  free_pages a ++ release_pages a ++ pending_slots a ++ used ≡ₚ seqZ 1 size
  ∧ NoDup used ∧ (0 ∉ used)
  ∧ TokenToKVPoolAllocator_available_size a = size - zlen (pending_slots a) - zlen used.
Proof.
  intros Hs Hr%token_reachable_inv. pose proof (token_inv_NoDup _ _ _ Hr) as Hnd.
  pose proof (token_inv_available _ _ _ Hs Hr). destruct Hr as [_ Hp _]. simpl in *.
  do 3 apply NoDup_app in Hnd as (_ & _ & Hnd). split_and!; [done|done| |lia].
  intros H0. assert (Hin : 0 ∈ seqZ 1 size) by (rewrite <- Hp; set_solver).
  apply elem_of_seqZ in Hin. lia.
Qed.

(** An allocation of [n] slots fails exactly when fewer than [n] slots are available (released
    slots count), and otherwise returns [n] distinct slots of [1..size] that no client holds. *)
Theorem token_alloc_spec size need_sort a used n :
  0 ≤ n → token_reachable size need_sort (a, used) →
  match TokenToKVPoolAllocator_alloc a n with
  | (None, _) => TokenToKVPoolAllocator_available_size a < n
  | (Some out, a') =>
      n ≤ TokenToKVPoolAllocator_available_size a
      ∧ zlen out = n ∧ NoDup out ∧ (∀ x, x ∈ out → (x ∉ used) ∧ 1 ≤ x ≤ size)
  end.
Proof.
  intros Hn Hr%token_reachable_inv. pose proof (token_alloc_fails _ _ _ n Hn Hr) as Hf.
  destruct (TokenToKVPoolAllocator_alloc a n) as [[out|] a'] eqn:Ha; simpl in Hf.
  - split; [|by eapply token_alloc_fresh].
    destruct (decide (TokenToKVPoolAllocator_available_size a < n)) as [Hlt|]; [|lia].
    by apply Hf in Hlt.
  - by apply Hf.
Qed.

(** A run with a sorted release list: two allocations, a free group, a merge. *)
Definition token_demo : Allocator :=
  (TokenToKVPoolAllocator_alloc
     (TokenToKVPoolAllocator_free_group_end
        (TokenToKVPoolAllocator_free
           (free_group_begin (TokenToKVPoolAllocator_alloc (TokenToKVPoolAllocator_init 5 true) 4).2)
           [3; 1])) 2).2.

Lemma token_demo_reachable : token_reachable 5 true (token_demo, [1; 3; 2; 4]).
Proof.
  eapply rtc_l.
  { apply (token_step_alloc _ [] 4 [1; 2; 3; 4]); [lia|vm_compute; reflexivity]. }
  eapply rtc_l; [apply token_step_group_begin; reflexivity|].
  eapply rtc_l.
  { apply (token_step_free _ _ [3; 1] [2; 4]). apply (bool_decide_unpack _). vm_compute. exact I. }
  eapply rtc_l; [apply token_step_group_end; reflexivity|].
  apply rtc_once. apply (token_step_alloc _ [2; 4] 2 [1; 3]); [lia|vm_compute; reflexivity].
Qed.

Lemma token_slots_partitioned_witness :
  free_pages token_demo ++ release_pages token_demo ++ pending_slots token_demo ++ [1; 3; 2; 4]
    ≡ₚ seqZ 1 5
  ∧ NoDup [1; 3; 2; 4] ∧ (0 ∉ [1; 3; 2; 4])
  ∧ TokenToKVPoolAllocator_available_size token_demo
    = 5 - zlen (pending_slots token_demo) - zlen [1; 3; 2; 4].
Proof. apply (token_slots_partitioned 5 true); [lia|apply token_demo_reachable]. Defined.

Lemma token_alloc_spec_witness :
  match TokenToKVPoolAllocator_alloc token_demo 1 with
  | (None, _) => TokenToKVPoolAllocator_available_size token_demo < 1
  | (Some out, a') =>
      1 ≤ TokenToKVPoolAllocator_available_size token_demo
      ∧ zlen out = 1 ∧ NoDup out ∧ (∀ x, x ∈ out → (x ∉ [1; 3; 2; 4]) ∧ 1 ≤ x ≤ 5)
  end.
Proof. apply (token_alloc_spec 5 true); [lia|apply token_demo_reachable]. Defined.
