(* ===== verification/PagedAllocator.v ===== *)
(** * The paged allocator partitions the pages

    Proofs about [PagedTokenToKVPoolAllocator] of [src/python/sglang/srt/mem_cache/allocator.py]
    (its definitions are in [Allocator]).  The client's view is the list of pages it holds.  A
    batch passed to [alloc_extend] satisfies what the debug assertions of the code demand: every
    cached prefix ends where its last slot does, and a partially filled last page belongs to one
    request only.  [free] returns whole pages. *)

From S2P Require Import Prelude AllocKernels Allocator.

(** ** Pages of slots *)

Definition pages_of (ps : Z) (idx : list Z) : list Z := torch_unique (map (λ i, i / ps) idx).

Definition pending_pages (a : Allocator) : list Z :=
  if is_not_in_free_group a then [] else pages_of (al_page_size a) (concat (free_group a)).

(** The slots of whole pages, as [alloc] returns them. *)
Definition page_slots (ps : Z) (pages : list Z) : list Z :=
  pages ≫= λ p, map (λ k, p * ps + k) (seqZ 0 ps).

(** A batch whose partially filled pages are held by the clients, one request each. *)
Definition batch_ok (ps : Z) (used : list Z) (reqs : list extend_req) : Prop :=
  Forall extend_ok reqs ∧ Forall (aligned_last ps) reqs
  ∧ NoDup (reqs ≫= tail_page ps) ∧ (reqs ≫= tail_page ps) ⊆ used.

Lemma elem_of_pages_of ps idx p : p ∈ pages_of ps idx ↔ ∃ i, i ∈ idx ∧ p = i / ps.
Proof.
  unfold pages_of. rewrite elem_of_torch_unique, list_elem_of_fmap. naive_solver.
Qed.

Lemma NoDup_pages_of ps idx : NoDup (pages_of ps idx).
Proof. apply NoDup_torch_unique. Qed.
#[local] Hint Resolve NoDup_pages_of : sgl.

Lemma pages_of_page_slots ps pages :
  0 < ps → NoDup pages → pages_of ps (page_slots ps pages) ≡ₚ pages.
Proof.
  intros Hps Hnd. apply NoDup_Permutation; [auto with sgl|done|]. intros p.
  rewrite elem_of_pages_of. unfold page_slots. split.
  - intros (i & Hi & ->). apply list_elem_of_bind in Hi as (q & Hi & Hq).
    apply list_elem_of_fmap in Hi as (k & -> & Hk%elem_of_seqZ).
    rewrite div_add_lt by lia. done.
  - intros Hp. exists (p * ps). split; [|by rewrite Z.div_mul by lia].
    apply list_elem_of_bind. exists p. split; [|done]. apply list_elem_of_fmap.
    exists 0. split; [lia|]. apply elem_of_seqZ. lia.
Qed.

Lemma NoDup_page_slots ps pages : 0 < ps → NoDup pages → NoDup (page_slots ps pages).
Proof.
  intros Hps. induction 1 as [|p pages Hp Hnd IH]; [constructor|].
  unfold page_slots in *. rewrite bind_cons. apply NoDup_app. split_and!; [| |done].
  - apply NoDup_fmap_2; [intros ???; lia|apply NoDup_seqZ].
  - intros x Hx Hx'. apply list_elem_of_fmap in Hx as (k & -> & Hk%elem_of_seqZ).
    apply list_elem_of_bind in Hx' as (q & Hq & Hin).
    apply list_elem_of_fmap in Hq as (k' & Heq & Hk'%elem_of_seqZ).
    destruct (page_split ps Hps p q k k') as [-> _]; [lia|lia|done|done].
Qed.

(** Removing a duplicate-free part of a duplicate-free list. *)
Lemma filter_out_perm (used l : list Z) :
  NoDup used → NoDup l → l ⊆ used → used ≡ₚ l ++ filter (λ p, p ∉ l) used.
Proof.
  intros Hu Hl Hsub. apply NoDup_Permutation; [done| |].
  - apply NoDup_app. split_and!; [done| |by apply NoDup_filter].
    intros x Hx [? _]%list_elem_of_filter. done.
  - intros x. rewrite elem_of_app, list_elem_of_filter.
    destruct (decide (x ∈ l)); set_solver.
Qed.

(** ** Transitions *)

(** The allocator and the pages its clients hold.  Pages freed again inside one free group
    count once. *)
Inductive paged_step : Allocator * list Z → Allocator * list Z → Prop :=
| paged_step_alloc a used n out a' :
    0 ≤ n → PagedTokenToKVPoolAllocator_alloc a n = (Ok (Some out), a') →
    paged_step (a, used) (a', pages_of (al_page_size a) out ++ used)
| paged_step_alloc_fail a used n a' :
    0 ≤ n → PagedTokenToKVPoolAllocator_alloc a n = (Ok None, a') →
    paged_step (a, used) (a', used)
| paged_step_extend a used reqs uninit out a' :
    batch_ok (al_page_size a) used reqs → zlen uninit = sumZ (map extend_len reqs) →
    PagedTokenToKVPoolAllocator_alloc_extend a reqs (zlen uninit) uninit = (Ok (Some out), a') →
    paged_step (a, used) (a', filter (λ p, p ∉ used) (pages_of (al_page_size a) out) ++ used)
| paged_step_extend_fail a used reqs uninit a' :
    batch_ok (al_page_size a) used reqs → zlen uninit = sumZ (map extend_len reqs) →
    PagedTokenToKVPoolAllocator_alloc_extend a reqs (zlen uninit) uninit = (Ok None, a') →
    paged_step (a, used) (a', used)
| paged_step_decode a used rows uninit out a' :
    1 < al_page_size a →
    batch_ok (al_page_size a) used (map decode_req rows) → zlen uninit = zlen rows →
    PagedTokenToKVPoolAllocator_alloc_decode a rows uninit = (Ok (Some out), a') →
    paged_step (a, used) (a', filter (λ p, p ∉ used) (pages_of (al_page_size a) out) ++ used)
| paged_step_decode_fail a used rows uninit a' :
    1 < al_page_size a →
    batch_ok (al_page_size a) used (map decode_req rows) → zlen uninit = zlen rows →
    PagedTokenToKVPoolAllocator_alloc_decode a rows uninit = (Ok None, a') →
    paged_step (a, used) (a', used)
| paged_step_free a used idx r a' :
    pages_of (al_page_size a) idx ⊆ pending_pages a ++ used →
    PagedTokenToKVPoolAllocator_free a idx = (r, a') →
    paged_step (a, used) (a', filter (λ p, p ∉ pages_of (al_page_size a) idx) used)
| paged_step_group_begin a used :
    is_not_in_free_group a = true →
    paged_step (a, used) (free_group_begin a, used)
| paged_step_group_end a used r a' :
    is_not_in_free_group a = false →
    PagedTokenToKVPoolAllocator_free_group_end a = (r, a') →
    paged_step (a, used) (a', used)
| paged_step_rollback a used reqs uninit r a' :
    PagedTokenToKVPoolAllocator_alloc_extend a reqs (zlen uninit) uninit = (r, a') →
    paged_step (a, used) (restore_state a' (backup_state a), used)
| paged_step_clear a used :
    paged_step (a, used) (PagedTokenToKVPoolAllocator_clear a, []).

Definition paged_reachable (size ps : Z) (need_sort debug : bool)
    : Allocator * list Z → Prop :=
  rtc paged_step (PagedTokenToKVPoolAllocator_init size ps need_sort debug, []).

Record paged_inv (num ps : Z) (s : Allocator * list Z) : Prop := {
  pi_num : al_num_pages s.1 = num;
  pi_ps : al_page_size s.1 = ps;
  pi_partition :
    free_pages s.1 ++ release_pages s.1 ++ pending_pages s.1 ++ s.2 ≡ₚ seqZ 1 num;
  pi_release : al_need_sort s.1 = false → release_pages s.1 = []
}.

Section paged.
Context (num ps : Z) (Hps : 0 < ps).

Lemma paged_inv_NoDup a used :
  paged_inv num ps (a, used) →
  NoDup (free_pages a ++ release_pages a ++ pending_pages a ++ used).
Proof. intros [_ _ Hp _]. rewrite Hp. apply NoDup_seqZ. Qed.

Lemma merged_for_paged_inv a used n :
  paged_inv num ps (a, used) → paged_inv num ps (merged_for a n, used).
Proof.
  intros [Hn Hsz Hp Hr]. simpl in *.
  destruct (merged_for_fields a n) as (E1 & E2 & E3 & E6 & _ & E4 & E5).
  split; simpl; [congruence|congruence| |].
  - rewrite app_assoc, merged_for_perm, <- app_assoc, <- Hp. unfold pending_pages.
    by rewrite E2, E4, E5.
  - rewrite E3. by apply merged_for_release.
Qed.

(** Handing the first [n] free pages to the clients. *)
Lemma take_pages_inv a used new n :
  0 ≤ n → paged_inv num ps (a, used) → new ≡ₚ take (Z.to_nat n) (free_pages a) →
  paged_inv num ps (set_free_pages a (drop (Z.to_nat n) (free_pages a)), new ++ used).
Proof.
  intros Hn [H1 H2 Hp Hr] Hnew. split; simpl in *; try done.
  change (pending_pages (set_free_pages a _)) with (pending_pages a).
  rewrite Hnew, <- Hp.
  rewrite <- (take_drop (Z.to_nat n) (free_pages a)) at 3. solve_Permutation.
Qed.

Lemma paged_alloc_cases a n :
  0 ≤ n → al_page_size a = ps →
  al_debug_mode a = false ∨ n mod ps = 0 →
  PagedTokenToKVPoolAllocator_alloc a n
  = let a' := merged_for a (n / ps) in
    if bool_decide (zlen (free_pages a') < n / ps) then (Ok None, a')
    else (Ok (Some (page_slots ps (take (Z.to_nat (n / ps)) (free_pages a')))),
          set_free_pages a' (drop (Z.to_nat (n / ps)) (free_pages a'))).
Proof.
  intros Hn Hp Hd. unfold PagedTokenToKVPoolAllocator_alloc. rewrite Hp.
  assert (al_debug_mode a && negb (bool_decide (n mod ps = 0)) = false) as ->.
  { destruct Hd as [->|Hd]; [done|]. by rewrite bool_decide_true, andb_false_r by done. }
  fold (merged_for a (n / ps)). simpl.
  assert (0 ≤ n / ps) by (apply Z.div_pos; lia).
  case_bool_decide; [done|].
  destruct (merged_for_fields a (n / ps)) as (_ & E2 & _).
  rewrite E2, Hp, slice_to_take, slice_from_drop by done. done.
Qed.

Lemma take_free_NoDup a used n :
  paged_inv num ps (a, used) → NoDup (take n (free_pages a)).
Proof.
  intros Hi%paged_inv_NoDup. apply NoDup_app in Hi as (Hnd & _ & _).
  rewrite <- (take_drop n (free_pages a)) in Hnd. by apply NoDup_app in Hnd as (? & _ & _).
Qed.

Lemma paged_alloc_inv a used n out a' :
  0 ≤ n → paged_inv num ps (a, used) →
  PagedTokenToKVPoolAllocator_alloc a n = (Ok out, a') →
  paged_inv num ps (a', default [] (pages_of ps <$> out) ++ used).
Proof.
  intros Hn Hi Ha. assert (Hp : al_page_size a = ps) by apply Hi.
  rewrite paged_alloc_cases in Ha; [|done|done|]; cycle 1.
  { unfold PagedTokenToKVPoolAllocator_alloc in Ha. rewrite Hp in Ha.
    destruct (al_debug_mode a); [|by left]. case_bool_decide; [by right|done]. }
  pose proof (merged_for_paged_inv _ _ (n / ps) Hi) as Hm. simpl in Ha.
  case_bool_decide; inversion Ha; subst out a'; [done|]. simpl.
  apply take_pages_inv; [apply Z.div_pos; lia|done|].
  apply pages_of_page_slots; [done|]. by eapply take_free_NoDup.
Qed.

(** The pages of an extended batch that are new are exactly the ones taken. *)
Lemma extend_new_pages a used reqs :
  paged_inv num ps (a, used) → batch_ok ps used reqs →
  sumZ (map (num_new_pages ps) reqs) ≤ zlen (free_pages a) →
  filter (λ p, p ∉ used) (pages_of ps (extend_batch ps (free_pages a) reqs))
  ≡ₚ take (Z.to_nat (sumZ (map (num_new_pages ps) reqs))) (free_pages a).
Proof.
  intros Hi (Hok & Hal & Hnd & Hsub) Hlen. pose proof (paged_inv_NoDup _ _ Hi) as Hall.
  apply NoDup_Permutation; [by apply NoDup_filter, NoDup_pages_of|by eapply take_free_NoDup|].
  intros p. rewrite list_elem_of_filter, elem_of_pages_of. split.
  - intros [Hp (x & Hx & ->)]. eapply extend_batch_pages in Hx; try done.
    apply elem_of_app in Hx as [Hx|Hx]; [set_solver|done].
  - intros Hp. split.
    + apply elem_of_take in Hp as (i & Hi' & _). apply list_elem_of_lookup_2 in Hi'.
      apply NoDup_app in Hall as (_ & Hdis & _). intros Hu. apply (Hdis p Hi'). set_solver.
    + apply extend_batch_covers in Hp as (x & ? & <-); eauto.
Qed.

Lemma batch_pages_NoDup a used reqs :
  paged_inv num ps (a, used) → batch_ok ps used reqs → NoDup (batch_pages ps (free_pages a) reqs).
Proof.
  intros Hi (Hok & Hal & Hnd & Hsub). pose proof (paged_inv_NoDup _ _ Hi) as Hall.
  apply NoDup_app. split_and!; [done| |by eapply take_free_NoDup].
  intros p Hp Hp'. apply elem_of_take in Hp' as (i & Hi' & _). apply list_elem_of_lookup_2 in Hi'.
  apply NoDup_app in Hall as (_ & Hdis & _). apply (Hdis p Hi'). set_solver.
Qed.

(** In a state where the partition holds, the uniqueness assertions of debug mode hold. *)
Lemma extend_batch_unique a used reqs :
  paged_inv num ps (a, used) → batch_ok ps used reqs →
  sumZ (map (num_new_pages ps) reqs) ≤ zlen (free_pages a) →
  NoDup (extend_batch ps (free_pages a) reqs).
Proof.
  intros Hi Hb Hlen. pose proof Hb as (Hok & Hal & _ & _).
  apply extend_batch_NoDup; try done. by eapply batch_pages_NoDup.
Qed.

Lemma torch_unique_NoDup (l : list Z) : NoDup l → zlen (torch_unique l) = zlen l.
Proof.
  intros H. unfold zlen, torch_unique. rewrite torch_sort_perm.
  f_equal. apply Permutation_length, NoDup_Permutation; [apply NoDup_remove_dups|done|].
  intros x. apply elem_of_remove_dups.
Qed.

(** The common end of [alloc_extend] and [alloc_decode]: the debug check of the kernel's output,
    the capacity check, and the removal of the pages taken. *)
Definition kernel_result (a : Allocator) (out : list Z) (need : Z)
    : res (option (list Z)) * Allocator :=
  if al_debug_mode a && negb (bool_decide (zlen (torch_unique out) = zlen out))
  then (Raise AssertionError, a)
  else if bool_decide (zlen (free_pages a) < need) then (Ok None, a)
  else (Ok (Some out), set_free_pages a ((free_pages a)⟨need:⟩)).

Lemma kernel_result_ok a out need :
  NoDup out → 0 ≤ need ≤ zlen (free_pages a) →
  kernel_result a out need
  = (Ok (Some out), set_free_pages a (drop (Z.to_nat need) (free_pages a))).
Proof.
  intros Hnd Hn. unfold kernel_result.
  rewrite (bool_decide_true (zlen (torch_unique _) = _)) by by apply torch_unique_NoDup.
  rewrite andb_false_r, bool_decide_false, slice_from_drop by lia. done.
Qed.

Lemma kernel_result_short a out need :
  zlen (free_pages a) < need →
  (kernel_result a out need).2 = a ∧ ∀ o, (kernel_result a out need).1 ≠ Ok (Some o).
Proof.
  intros Hn. unfold kernel_result. case_match; [done|]. by rewrite bool_decide_true.
Qed.

Definition extend_merged (a : Allocator) (reqs : list extend_req) (n : Z) : Allocator :=
  merged_for a (n / al_page_size a + zlen reqs + 1).

Lemma alloc_extend_kernel_result a used reqs uninit :
  paged_inv num ps (a, used) → batch_ok ps used reqs →
  let a' := extend_merged a reqs (zlen uninit) in
  PagedTokenToKVPoolAllocator_alloc_extend a reqs (zlen uninit) uninit
  = kernel_result a' (alloc_extend_launch reqs (free_pages a') uninit ps)
      (sumZ (map (num_new_pages ps) reqs)).
Proof.
  intros Hi (Hok & Hal & Hnd & Hsub) a'. assert (Hp : al_page_size a = ps) by apply Hi.
  unfold PagedTokenToKVPoolAllocator_alloc_extend. rewrite Hp.
  rewrite (proj2 (forallb_decide (aligned_last ps) reqs)) by done. rewrite andb_false_r.
  fold (merged_for a (zlen uninit / ps + zlen reqs + 1)).
  subst a'. unfold extend_merged. rewrite Hp, get_num_new_pages_extend. done.
Qed.

Lemma alloc_decode_kernel_result a used rows uninit :
  1 < ps → paged_inv num ps (a, used) → batch_ok ps used (map decode_req rows) →
  let a' := merged_for a (zlen rows) in
  PagedTokenToKVPoolAllocator_alloc_decode a rows uninit
  = kernel_result a' (alloc_decode_launch rows (free_pages a') uninit ps)
      (sumZ (map (num_new_pages ps) (map decode_req rows))).
Proof.
  intros H1 Hi (Hok & Hal & Hnd & Hsub) a'. assert (Hp : al_page_size a = ps) by apply Hi.
  unfold PagedTokenToKVPoolAllocator_alloc_decode. rewrite Hp.
  rewrite (proj2 (forallb_decide (λ row : Z * Z, (row.2 + 2) mod ps = row.1 mod ps) rows)); cycle 1.
  { apply (Forall_fmap decode_req) in Hal. eapply Forall_impl; [exact Hal|]. intros [s l]. unfold aligned_last. simpl.
    intros Heq. replace (l + 2) with (l + 1 + 1) by lia.
    rewrite <- (Z.add_mod_idemp_l (l + 1)), Heq, Z.add_mod_idemp_l by lia. f_equal. lia. }
  rewrite andb_false_r. fold (merged_for a (zlen rows)). fold a'.
  by rewrite get_num_new_pages_decode.
Qed.

(** What a batch allocation does, once the capacity is known. *)
Lemma alloc_extend_enough a used reqs uninit :
  paged_inv num ps (a, used) → batch_ok ps used reqs → zlen uninit = sumZ (map extend_len reqs) →
  let a' := extend_merged a reqs (zlen uninit) in
  let need := sumZ (map (num_new_pages ps) reqs) in
  need ≤ zlen (free_pages a') →
  PagedTokenToKVPoolAllocator_alloc_extend a reqs (zlen uninit) uninit
  = (Ok (Some (extend_batch ps (free_pages a') reqs)),
     set_free_pages a' (drop (Z.to_nat need) (free_pages a'))).
Proof.
  intros Hi Hb Hu a' need Hl. pose proof Hb as (Hok & _).
  erewrite alloc_extend_kernel_result by done. fold a' need.
  rewrite alloc_extend_launch_ok by done. apply kernel_result_ok.
  - eapply extend_batch_unique; [by apply merged_for_paged_inv|done|done].
  - split; [by apply sum_new_pages_nonneg|done].
Qed.

Lemma alloc_decode_enough a used rows uninit :
  1 < ps → paged_inv num ps (a, used) → batch_ok ps used (map decode_req rows) →
  zlen uninit = zlen rows →
  let a' := merged_for a (zlen rows) in
  let need := sumZ (map (num_new_pages ps) (map decode_req rows)) in
  need ≤ zlen (free_pages a') →
  PagedTokenToKVPoolAllocator_alloc_decode a rows uninit
  = (Ok (Some (extend_batch ps (free_pages a') (map decode_req rows))),
     set_free_pages a' (drop (Z.to_nat need) (free_pages a'))).
Proof.
  intros H1 Hi Hb Hu a' need Hl. pose proof Hb as (Hok & _).
  erewrite alloc_decode_kernel_result by done. fold a' need.
  rewrite alloc_decode_launch_ok by done. apply kernel_result_ok.
  - eapply extend_batch_unique; [by apply merged_for_paged_inv|done|done].
  - split; [by apply sum_new_pages_nonneg|done].
Qed.

(** Both preserve the partition; [new] lists the pages that were not held before. *)
Lemma take_batch_inv a used reqs :
  paged_inv num ps (a, used) → batch_ok ps used reqs →
  let need := sumZ (map (num_new_pages ps) reqs) in
  need ≤ zlen (free_pages a) →
  paged_inv num ps (set_free_pages a (drop (Z.to_nat need) (free_pages a)),
    filter (λ p, p ∉ used) (pages_of ps (extend_batch ps (free_pages a) reqs)) ++ used).
Proof.
  intros Hi Hb need Hl. pose proof Hb as (Hok & _).
  apply take_pages_inv; [by apply sum_new_pages_nonneg|done|by apply extend_new_pages].
Qed.

Lemma paged_extend_inv a used reqs uninit out a' :
  paged_inv num ps (a, used) → batch_ok ps used reqs → zlen uninit = sumZ (map extend_len reqs) →
  PagedTokenToKVPoolAllocator_alloc_extend a reqs (zlen uninit) uninit = (Ok out, a') →
  paged_inv num ps
    (a', default [] ((λ o, filter (λ p, p ∉ used) (pages_of ps o)) <$> out) ++ used).
Proof.
  intros Hi Hb Hu Ha.
  pose proof (merged_for_paged_inv a used (zlen uninit / al_page_size a + zlen reqs + 1) Hi) as Hm.
  fold (extend_merged a reqs (zlen uninit)) in Hm.
  destruct (decide (sumZ (map (num_new_pages ps) reqs)
    ≤ zlen (free_pages (extend_merged a reqs (zlen uninit))))) as [Hl|Hl].
  - erewrite alloc_extend_enough in Ha by done. inversion Ha; subst. by apply take_batch_inv.
  - erewrite alloc_extend_kernel_result in Ha by done.
    match type of Ha with kernel_result ?x ?y ?z = _ =>
      destruct (kernel_result_short x y z ltac:(lia)) as [E1 E2] end.
    rewrite Ha in E1, E2. simpl in *. subst a'. destruct out; [naive_solver|done].
Qed.

Lemma paged_decode_inv a used rows uninit out a' :
  1 < ps → paged_inv num ps (a, used) → batch_ok ps used (map decode_req rows) →
  zlen uninit = zlen rows →
  PagedTokenToKVPoolAllocator_alloc_decode a rows uninit = (Ok out, a') →
  paged_inv num ps
    (a', default [] ((λ o, filter (λ p, p ∉ used) (pages_of ps o)) <$> out) ++ used).
Proof.
  intros H1 Hi Hb Hu Ha. pose proof (merged_for_paged_inv a used (zlen rows) Hi) as Hm.
  destruct (decide (sumZ (map (num_new_pages ps) (map decode_req rows))
    ≤ zlen (free_pages (merged_for a (zlen rows))))) as [Hl|Hl].
  - erewrite alloc_decode_enough in Ha by done. inversion Ha; subst. by apply take_batch_inv.
  - erewrite alloc_decode_kernel_result in Ha by done.
    match type of Ha with kernel_result ?x ?y ?z = _ =>
      destruct (kernel_result_short x y z ltac:(lia)) as [E1 E2] end.
    rewrite Ha in E1, E2. simpl in *. subst a'. destruct out; [naive_solver|done].
Qed.

(** ** Freeing *)

Lemma paged_free_state a idx :
  al_page_size a = ps →
  (PagedTokenToKVPoolAllocator_free a idx).2
  = if bool_decide (zlen idx = 0) then a
    else if is_not_in_free_group a then
      if al_need_sort a then set_release_pages a (pages_of ps idx ++ release_pages a)
      else set_free_pages a (pages_of ps idx ++ free_pages a)
    else set_free_group a false (free_group a ++ [idx]).
Proof.
  intros Hp. unfold PagedTokenToKVPoolAllocator_free. rewrite Hp. fold (pages_of ps idx).
  case_bool_decide; [done|]. destruct (is_not_in_free_group a), (al_need_sort a); by case_match.
Qed.

Lemma pages_of_app l k : pages_of ps (l ++ k) ≡ₚ pages_of ps l ++ filter (λ p, p ∉ pages_of ps l) (pages_of ps k).
Proof.
  apply NoDup_Permutation; [apply NoDup_pages_of| |].
  - apply NoDup_app. split_and!; [apply NoDup_pages_of| |by apply NoDup_filter, NoDup_pages_of].
    intros p Hp [? _]%list_elem_of_filter. done.
  - intros p. rewrite elem_of_app, list_elem_of_filter.
    destruct (decide (p ∈ pages_of ps l)) as [H|H]; rewrite !elem_of_pages_of in *; set_solver.
Qed.

(** The pages freed, those still pending aside, are the ones the clients give up. *)
Lemma freed_pages_perm (pend used l : list Z) :
  NoDup (pend ++ used) → NoDup l → l ⊆ pend ++ used →
  used ≡ₚ filter (λ p, p ∉ pend) l ++ filter (λ p, p ∉ l) used.
Proof.
  intros (Hp & Hdis & Hu)%NoDup_app Hl Hsub.
  rewrite (filter_out_perm used (filter (λ p, p ∉ pend) l)) at 1.
  - f_equiv. apply NoDup_Permutation; [by apply NoDup_filter..|].
    intros p. rewrite !list_elem_of_filter. set_solver.
  - done.
  - by apply NoDup_filter.
  - intros p [? Hin]%list_elem_of_filter. set_solver.
Qed.

Lemma paged_free_inv a used idx r a' :
  pages_of ps idx ⊆ pending_pages a ++ used → paged_inv num ps (a, used) →
  PagedTokenToKVPoolAllocator_free a idx = (r, a') →
  paged_inv num ps (a', filter (λ p, p ∉ pages_of ps idx) used).
Proof.
  intros Hsub Hi Ha. pose proof (paged_inv_NoDup _ _ Hi) as Hnd.
  destruct Hi as [Hn Hp Hpart Hr]. simpl in *.
  assert (E : a' = (PagedTokenToKVPoolAllocator_free a idx).2) by by rewrite Ha.
  rewrite paged_free_state in E by done. clear Ha r.
  assert (Hused : used ≡ₚ filter (λ p, p ∉ pending_pages a) (pages_of ps idx)
                        ++ filter (λ p, p ∉ pages_of ps idx) used).
  { apply freed_pages_perm; [|apply NoDup_pages_of|done].
    do 2 apply NoDup_app in Hnd as (_ & _ & Hnd). done. }
  rewrite Hused in Hpart. case_bool_decide as H0.
  { apply zlen_0 in H0. subst. by split. }
  unfold pending_pages in *.
  destruct (is_not_in_free_group a) eqn:Eg; [destruct (al_need_sort a) eqn:Es|];
    subst a'; (split; unfold pending_pages; simpl; rewrite ?Eg, ?Es; try done);
    rewrite <- Hpart.
  1,2: rewrite (list_filter_all (λ p, p ∉ []) (pages_of ps idx)) by set_solver.
  - simpl. solve_Permutation.
  - rewrite Hr by done. simpl. solve_Permutation.
  - rewrite concat_app, Hp. simpl. rewrite app_nil_r, pages_of_app. solve_Permutation.
Qed.

End paged.

Section reachable.
Context (ps : Z) (Hps : 0 < ps).

Lemma paged_group_end_inv num a used r a' :
  is_not_in_free_group a = false → paged_inv num ps (a, used) →
  PagedTokenToKVPoolAllocator_free_group_end a = (r, a') →
  paged_inv num ps (a', used).
Proof.
  intros Hg Hi Ha. pose proof (paged_inv_NoDup _ _ _ _ Hi) as Hnd.
  destruct Hi as [Hn Hp Hpart Hr]. simpl in *.
  assert (Hpend : pending_pages a = pages_of ps (concat (free_group a)))
    by (unfold pending_pages; by rewrite Hg, Hp).
  rewrite Hpend in *.
  assert (Hi' : paged_inv num ps (set_free_group a true (free_group a),
                                  pages_of ps (concat (free_group a)) ++ used)) by (by split).
  unfold PagedTokenToKVPoolAllocator_free_group_end, free_group_end in Ha. simpl in Ha.
  destruct (free_group a) as [|g gs]; [by inversion Ha; subst|].
  apply (paged_free_inv _ _ Hps _ _ (concat (g :: gs)) r a') in Hi'; [|set_solver|done].
  rewrite filter_app in Hi'.
  do 2 apply NoDup_app in Hnd as (_ & _ & Hnd). apply NoDup_app in Hnd as (_ & Hdis & _).
  rewrite (list_filter_none _ (pages_of ps (concat (g :: gs)))) in Hi' by set_solver.
  by rewrite (list_filter_all _ used) in Hi' by set_solver.
Qed.

Lemma alloc_extend_fields a reqs n uninit r a' :
  PagedTokenToKVPoolAllocator_alloc_extend a reqs n uninit = (r, a') →
  al_page_size a' = al_page_size a ∧ al_need_sort a' = al_need_sort a
  ∧ al_num_pages a' = al_num_pages a
  ∧ is_not_in_free_group a' = is_not_in_free_group a ∧ free_group a' = free_group a.
Proof.
  unfold PagedTokenToKVPoolAllocator_alloc_extend. case_match; [by intros [= <- <-]|].
  fold (merged_for a (n / al_page_size a + zlen reqs + 1)).
  pose proof (merged_for_fields a (n / al_page_size a + zlen reqs + 1)) as HF. simpl in HF.
  repeat case_match; intros [= <- <-]; simpl; tauto.
Qed.

Lemma paged_step_inv num s s' : paged_step s s' → paged_inv num ps s → paged_inv num ps s'.
Proof.
  intros Hs Hi. destruct Hs; (assert (Hp : al_page_size a = ps) by apply Hi); rewrite ?Hp in *.
  - by eapply (paged_alloc_inv _ _ Hps _ _ _ (Some out)).
  - by eapply (paged_alloc_inv _ _ Hps _ _ _ None).
  - by eapply (paged_extend_inv _ _ Hps _ _ _ _ (Some out)).
  - by eapply (paged_extend_inv _ _ Hps _ _ _ _ None).
  - by eapply (paged_decode_inv _ _ Hps _ _ _ _ (Some out)).
  - by eapply (paged_decode_inv _ _ Hps _ _ _ _ None).
  - by eapply paged_free_inv.
  - destruct Hi as [Hn Hp' Hpart Hr]. split; simpl in *; try done.
    unfold pending_pages in *. by rewrite H in Hpart.
  - by eapply paged_group_end_inv.
  - apply alloc_extend_fields in H as (E1 & E2 & E3 & E4 & E5).
    destruct Hi as [Hn Hp' Hpart Hr]. split; simpl in *; [congruence|congruence| |by rewrite E2].
    rewrite <- Hpart. unfold pending_pages. simpl. by rewrite E1, E4, E5.
  - destruct Hi as [Hn Hp' _ _]. split; simpl in *; try done.
    unfold pending_pages. simpl. by rewrite Hn, app_nil_r.
Qed.

Lemma paged_reachable_inv size need_sort debug s :
  paged_reachable size ps need_sort debug s → paged_inv (size / ps) ps s.
Proof.
  intros Hr. eapply (rtc_ind_r (λ s, paged_inv (size / ps) ps s)); [| |exact Hr].
  - split; simpl; try done. by rewrite app_nil_r.
  - intros x y _ Hxy Hx. by eapply paged_step_inv.
Qed.

(** What [alloc_extend] promises in a state where the partition holds. *)
Lemma alloc_extend_correct num a used reqs uninit out a' :
  paged_inv num ps (a, used) → batch_ok ps used reqs → zlen uninit = sumZ (map extend_len reqs) →
  PagedTokenToKVPoolAllocator_alloc_extend a reqs (zlen uninit) uninit = (Ok (Some out), a') →
  zlen out = sumZ (map extend_len reqs) ∧ NoDup out
  ∧ (∀ x, x ∈ out → x / ps ∈ (reqs ≫= tail_page ps) ∨ ((x / ps ∉ used) ∧ 1 ≤ x / ps ≤ num))
  ∧ available_size a' = available_size a - ps * sumZ (map (num_new_pages ps) reqs).
Proof.
  intros Hi Hb Hu Ha. pose proof Hb as (Hok & Hal & _).
  set (m := extend_merged a reqs (zlen uninit)).
  assert (Hm : paged_inv num ps (m, used)) by by apply merged_for_paged_inv.
  destruct (decide (sumZ (map (num_new_pages ps) reqs) ≤ zlen (free_pages m))) as [Hl|Hl].
  2: { erewrite alloc_extend_kernel_result in Ha by done. fold m in Ha.
       match type of Ha with kernel_result ?x ?y ?z = _ =>
         destruct (kernel_result_short x y z ltac:(lia)) as [_ E2] end.
       rewrite Ha in E2. naive_solver. }
  erewrite alloc_extend_enough in Ha by done. fold m in Ha. inversion Ha; subst out a'.
  split_and!.
  - by apply zlen_extend_batch.
  - by eapply extend_batch_unique.
  - intros x Hx. apply extend_batch_pages in Hx; try done.
    apply elem_of_app in Hx as [Hx|Hx]; [by left|right].
    apply elem_of_take in Hx as (i & Hx%list_elem_of_lookup_2 & _).
    pose proof (paged_inv_NoDup _ _ _ _ Hm) as (_ & Hdis & _)%NoDup_app.
    split; [intros Hin; apply (Hdis _ Hx); set_solver|].
    assert (Hs : x / ps ∈ seqZ 1 num); [|apply elem_of_seqZ in Hs; lia].
    destruct Hm as [_ _ <- _]. simpl. set_solver.
  - pose proof (merged_for_perm a (zlen uninit / al_page_size a + zlen reqs + 1)) as Hperm.
    pose proof (merged_for_fields a (zlen uninit / al_page_size a + zlen reqs + 1)) as (_ & Eps & _).
    fold (extend_merged a reqs (zlen uninit)) in Hperm, Eps. fold m in Hperm, Eps.
    apply Permutation_length in Hperm. rewrite !length_app in Hperm.
    unfold available_size. simpl. rewrite Eps, zlen_drop.
    assert (al_page_size a = ps) as -> by apply Hi.
    pose proof (sum_new_pages_nonneg ps Hps reqs Hok). unfold zlen in *. nia.
Qed.

Lemma alloc_extend_fails num a used reqs uninit :
  paged_inv num ps (a, used) → batch_ok ps used reqs → zlen uninit = sumZ (map extend_len reqs) →
  ((∀ out, (PagedTokenToKVPoolAllocator_alloc_extend a reqs (zlen uninit) uninit).1 ≠ Ok (Some out))
   ↔ available_size a < ps * sumZ (map (num_new_pages ps) reqs)).
Proof.
  intros Hi Hb Hu. pose proof Hb as (Hok & _). assert (Hp : al_page_size a = ps) by apply Hi.
  set (t := zlen uninit / al_page_size a + zlen reqs + 1).
  set (need := sumZ (map (num_new_pages ps) reqs)).
  assert (Hneed : need < t).
  { subst t need. rewrite Hp, Hu. pose proof (sum_new_pages_bound ps Hps reqs Hok). lia. }
  pose proof (merged_for_release a t (pi_release _ _ _ Hi)) as [_ Hshort].
  pose proof (Permutation_length (merged_for_perm a t)) as Hperm. rewrite !length_app in Hperm.
  assert (Hav : available_size a < ps * need ↔ zlen (free_pages (merged_for a t)) < need).
  { unfold available_size. rewrite Hp. split; [unfold zlen in *; nia|]. intros Hl.
    rewrite (Hshort ltac:(lia)) in Hperm. simpl in Hperm. unfold zlen in *. nia. }
  rewrite Hav. split; intros Hl.
  - destruct (decide (need ≤ zlen (free_pages (merged_for a t)))) as [Hge|]; [|lia].
    erewrite alloc_extend_enough in Hl by done. simpl in Hl. naive_solver.
  - erewrite alloc_extend_kernel_result by done. by apply kernel_result_short.
Qed.

End reachable.

(** ** Properties *)

(** C5: in every state reached by page allocations, batched extends and decodes, frees, free groups,
    rollbacks and clear, the free pages, the released pages, the pages waiting in an open free group
    and the pages held by clients are a permutation of [1..size/page_size]; so no page is held
    twice and the padding page 0 is never handed out. *)
Theorem paged_pages_partitioned size ps need_sort debug a used :
  0 < ps → paged_reachable size ps need_sort debug (a, used) →
  free_pages a ++ release_pages a ++ pending_pages a ++ used ≡ₚ seqZ 1 (size / ps)
  ∧ NoDup used ∧ (0 ∉ used).
Proof.
  intros Hps Hr%paged_reachable_inv; [|done].
  pose proof (paged_inv_NoDup _ _ _ _ Hr) as Hnd. destruct Hr as [_ _ Hp _]. simpl in *.
  do 3 apply NoDup_app in Hnd as (_ & _ & Hnd). split_and!; [done|done|].
  intros H0. assert (Hin : 0 ∈ seqZ 1 (size / ps)) by (rewrite <- Hp; set_solver).
  apply elem_of_seqZ in Hin. lia.
Qed.


(** With pages of more than one token, [alloc_decode] on a consistent batch that fits returns
    exactly the slots that extending every request by one token would, in batch order, and takes
    the same pages. *)
Theorem alloc_decode_spec size ps need_sort debug a used rows uninit :
  1 < ps → paged_reachable size ps need_sort debug (a, used) →
  batch_ok ps used (map decode_req rows) → zlen uninit = zlen rows →
  let a' := merged_for a (zlen rows) in
  let need := sumZ (map (num_new_pages ps) (map decode_req rows)) in
  need ≤ zlen (free_pages a') →
  PagedTokenToKVPoolAllocator_alloc_decode a rows uninit
  = (Ok (Some (extend_batch ps (free_pages a') (map decode_req rows))),
     set_free_pages a' (drop (Z.to_nat need) (free_pages a')))
  ∧ NoDup (extend_batch ps (free_pages a') (map decode_req rows)).
Proof.
  intros H1 Hr%paged_reachable_inv Hb Hu a' need Hl; [|lia].
  split; [eapply alloc_decode_enough|eapply extend_batch_unique]; try done; try lia.
  by apply merged_for_paged_inv.
Qed.

(** Pages of 4 slots; one request holds 5 tokens (pages 1 and 2), then the batch extends it and
    starts another one. *)
Definition paged_demo : Allocator :=
  (PagedTokenToKVPoolAllocator_alloc_extend (PagedTokenToKVPoolAllocator_init 40 4 true true)
     [mkExtend 0 5 (-1)] 5 [0; 0; 0; 0; 0]).2.

Lemma paged_demo_reachable : paged_reachable 40 4 true true (paged_demo, [1; 2]).
Proof.
  apply rtc_once.
  replace [1; 2] with (filter (λ p, p ∉ []) (pages_of 4 [4; 5; 6; 7; 8]) ++ []) by reflexivity.
  apply (paged_step_extend (PagedTokenToKVPoolAllocator_init 40 4 true true) [] [mkExtend 0 5 (-1)] [0; 0; 0; 0; 0] [4; 5; 6; 7; 8]);
    [|reflexivity|vm_compute; reflexivity].
  split_and!; [repeat constructor; simpl; lia|repeat constructor|vm_compute; constructor|].
  vm_compute. set_solver.
Qed.

Definition demo_batch : list extend_req := [mkExtend 5 11 8; mkExtend 0 3 (-1)].

Lemma demo_batch_ok : batch_ok 4 [1; 2] demo_batch.
Proof.
  split_and!; [repeat constructor; simpl; lia|repeat constructor| |].
  - replace (demo_batch ≫= tail_page 4) with [2] by reflexivity. apply NoDup_singleton.
  - replace (demo_batch ≫= tail_page 4) with [2] by reflexivity. set_solver.
Qed.

Lemma paged_pages_partitioned_witness :
  free_pages paged_demo ++ release_pages paged_demo ++ pending_pages paged_demo ++ [1; 2]
    ≡ₚ seqZ 1 (40 / 4)
  ∧ NoDup [1; 2] ∧ (0 ∉ [1; 2]).
Proof. apply (paged_pages_partitioned 40 4 true true); [lia|apply paged_demo_reachable]. Defined.


Lemma alloc_decode_spec_witness :
  let a' := merged_for paged_demo (zlen [(6, 8)]) in
  let need := sumZ (map (num_new_pages 4) (map decode_req [(6, 8)])) in
  PagedTokenToKVPoolAllocator_alloc_decode paged_demo [(6, 8)] [0]
  = (Ok (Some (extend_batch 4 (free_pages a') (map decode_req [(6, 8)]))),
     set_free_pages a' (drop (Z.to_nat need) (free_pages a')))
  ∧ NoDup (extend_batch 4 (free_pages a') (map decode_req [(6, 8)])).
Proof.
  apply (alloc_decode_spec 40 4 true true paged_demo [1; 2] [(6, 8)] [0]);
    [lia|apply paged_demo_reachable| |reflexivity|vm_compute; discriminate].
  split_and!; [repeat constructor; simpl; lia|repeat constructor|apply NoDup_singleton|].
  vm_compute. set_solver.
Defined.
