(* ===== verification/RadixKey.v ===== *)
(** * Keys of the radix cache

    Models [RadixKey] of [src/python/sglang/srt/mem_cache/radix_cache.py]: a sequence of token
    ids with an optional namespace [extra_key], read as single tokens or, for EAGLE, as
    overlapping bigrams over the raw tokens.

    [units] is the reference reading of a key: the list of its logical units.  The theorems show
    that slicing, prefix matching and child keys of the two representations are the expected
    operations on [units]. *)

From S2P Require Import Prelude.

Record RadixKey := mkRadixKey {
  token_ids : list Z;
  extra_key : option string;
  is_bigram : bool
}.

#[export] Instance RadixKey_eq_dec : EqDecision RadixKey.
Proof. solve_decision. Defined.

(** [__len__]. *)
Definition RadixKey_len (k : RadixKey) : Z :=
  if is_bigram k then
    let n := zlen (token_ids k) in if bool_decide (0 < n) then n - 1 else 0
  else zlen (token_ids k).

Fixpoint bigrams (t : list Z) : list (list Z) :=
  match t with
  | [] => []
  | a :: t' => match t' with
               | [] => []
               | b :: _ => [a; b] :: bigrams t'
               end
  end.

(** [__iter__]: a bigram is yielded as a pair, here a list of two tokens. *)
Definition units (k : RadixKey) : list (list Z) :=
  if is_bigram k then bigrams (token_ids k) else map (λ t, [t]) (token_ids k).

(** [__getitem__] on [slice(a, b)]. *)
Definition RadixKey_slice (k : RadixKey) (a b : Z) : RadixKey :=
  let start := norm_idx (RadixKey_len k) a in
  let stop := norm_idx (RadixKey_len k) b in
  if is_bigram k then
    let raw := if bool_decide (start < stop) then py_slice (token_ids k) start (stop + 1) else [] in
    mkRadixKey raw (extra_key k) true
  else mkRadixKey (py_slice (token_ids k) start stop) (extra_key k) false.

(** [__getitem__] on an integer. *)
Definition RadixKey_getitem (k : RadixKey) (idx : Z) : res RadixKey :=
  let idx := if bool_decide (idx < 0) then idx + RadixKey_len k else idx in
  if bool_decide (idx < 0) || bool_decide (RadixKey_len k ≤ idx) then Raise IndexError
  else Ok (RadixKey_slice k idx (idx + 1)).

(** [k[:b]] and [k[a:]]. *)
Definition RadixKey_to (k : RadixKey) (b : Z) : RadixKey := RadixKey_slice k 0 b.
Definition RadixKey_from (k : RadixKey) (a : Z) : RadixKey := RadixKey_slice k a (RadixKey_len k).

Definition page_aligned (k : RadixKey) (page_size : Z) : RadixKey :=
  if bool_decide (page_size = 1) then k
  else
    let aligned_len := RadixKey_len k / page_size * page_size in
    RadixKey_to k aligned_len.

(** [maybe_to_bigram_view]: the flag is set in place, so the caller's key changes too; the model
    returns the key after the call. *)
Definition maybe_to_bigram_view (k : RadixKey) (is_eagle : bool) (value : option (list Z))
    : RadixKey * option (list Z) :=
  if is_eagle && negb (is_bigram k) then
    let k' := mkRadixKey (token_ids k) (extra_key k) true in
    (k', (λ v, v⟨:RadixKey_len k'⟩) <$> value)
  else (k, value).

Definition check_compatible (k other : RadixKey) : res () :=
  if bool_decide (extra_key k = extra_key other) then Ok () else Raise ValueError.

(** [i = 0; for a, b in zip(t0, t1): if a != b: break; i += 1]. *)
Fixpoint common_len {A} `{EqDecision A} (t0 t1 : list A) : Z :=
  match t0, t1 with
  | a :: t0', b :: t1' => if bool_decide (a = b) then 1 + common_len t0' t1' else 0
  | _, _ => 0
  end.

(** The page-wise loop of [match]; at most [min_len] iterations run. *)
Fixpoint match_pages (fuel : nat) (t0 t1 : list Z) (min_len page_size i : Z) : Z :=
  match fuel with
  | O => i
  | S fuel' =>
      if bool_decide (i < min_len) then
        if bool_decide (py_slice t0 i (i + page_size) = py_slice t1 i (i + page_size))
        then match_pages fuel' t0 t1 min_len page_size (i + page_size)
        else i
      else i
  end.

Definition RadixKey_match (k other : RadixKey) (page_size : Z) : res Z :=
  _ ← check_compatible k other;
  let t0 := token_ids k in
  let t1 := token_ids other in
  if is_bigram k then
    let i := common_len t0 t1 in
    let matched := Z.max 0 (Z.min (i - 1) (Z.min (RadixKey_len k) (RadixKey_len other))) in
    Ok (if bool_decide (1 < page_size) then matched / page_size * page_size else matched)
  else if bool_decide (page_size = 1) then Ok (common_len t0 t1)
  else
    let min_len := Z.min (RadixKey_len k) (RadixKey_len other) in
    Ok (match_pages (Z.to_nat min_len) t0 t1 min_len page_size 0).

(** Dictionary keys are Python ints and (nested) tuples of ints and strings. *)
Definition ckey : Type := gen_tree (Z + string).
Definition py_int (t : Z) : ckey := GenLeaf (inl t).
Definition py_str (s : string) : ckey := GenLeaf (inr s).
Definition py_tuple (l : list ckey) : ckey := GenNode 0 l.

Definition py_item (t : list Z) (i : Z) : res Z :=
  match py_get t i with Some x => Ok x | None => Raise IndexError end.

Definition pair_at (t : list Z) (j : Z) : res ckey :=
  a ← py_item t j;
  b ← py_item t (j + 1);
  Ok (py_tuple [py_int a; py_int b]).

Definition child_key (k : RadixKey) (page_size : Z) : res ckey :=
  let t := token_ids k in
  plain ←
    (if is_bigram k then
       if bool_decide (page_size = 1) then pair_at t 0
       else l ← res_map (pair_at t) (seqZ 0 page_size); Ok (py_tuple l)
     else
       if bool_decide (page_size = 1) then x ← py_item t 0; Ok (py_int x)
       else Ok (py_tuple (map py_int (t⟨:page_size⟩))));
  Ok (match extra_key k with
      | None => plain
      | Some e => py_tuple [py_str e; plain]
      end).

(** ** Units *)

Lemma zlen_bigrams t : zlen (bigrams t) = Z.max 0 (zlen t - 1).
Proof.
  induction t as [|a [|b t] IH]; [done..|].
  change (bigrams (a :: b :: t)) with ([a; b] :: bigrams (b :: t)).
  rewrite !zlen_cons, IH, zlen_cons. pose proof (zlen_nonneg t). lia.
Qed.

Lemma zlen_units k : zlen (units k) = RadixKey_len k.
Proof.
  unfold units, RadixKey_len. destruct (is_bigram k).
  - rewrite zlen_bigrams. pose proof (zlen_nonneg (token_ids k)). case_bool_decide; lia.
  - unfold zlen. by rewrite length_map.
Qed.

Lemma RadixKey_len_nonneg k : 0 ≤ RadixKey_len k.
Proof. rewrite <- zlen_units. apply zlen_nonneg. Qed.

Lemma bigrams_drop n t : bigrams (drop n t) = drop n (bigrams t).
Proof.
  revert t. induction n as [|n IH]; intros t; [done|].
  destruct t as [|a [|b t]]; [done|by destruct n|].
  change (bigrams (a :: b :: t)) with ([a; b] :: bigrams (b :: t)). simpl. apply (IH (b :: t)).
Qed.

Lemma bigrams_take n t : bigrams (take (S n) t) = take n (bigrams t).
Proof.
  revert t. induction n as [|n IH]; intros t; [by destruct t as [|a []]|].
  destruct t as [|a [|b t]]; [done..|].
  change (bigrams (a :: b :: t)) with ([a; b] :: bigrams (b :: t)).
  change (take (S (S n)) (a :: b :: t)) with (a :: take (S n) (b :: t)).
  cbn [take]. rewrite <- IH. done.
Qed.

Lemma units_slice k a b :
  0 ≤ a ≤ b → b ≤ RadixKey_len k →
  units (RadixKey_slice k a b) = take (Z.to_nat (b - a)) (drop (Z.to_nat a) (units k)).
Proof.
  intros Hab Hb. unfold RadixKey_slice. rewrite !norm_idx_id by lia.
  unfold units. destruct (is_bigram k) eqn:E; simpl.
  - destruct (decide (a < b)) as [Hlt|Hlt];
      [rewrite bool_decide_true by done|rewrite bool_decide_false by done].
    + rewrite py_slice_take_drop by lia.
      replace (Z.to_nat (b + 1 - a)) with (S (Z.to_nat (b - a))) by lia.
      by rewrite bigrams_take, bigrams_drop.
    + by replace (Z.to_nat (b - a)) with 0%nat by lia.
  - rewrite py_slice_take_drop by lia. by rewrite <- fmap_drop, <- fmap_take.
Qed.

Lemma slice_extra_key k a b : extra_key (RadixKey_slice k a b) = extra_key k.
Proof. unfold RadixKey_slice. by destruct (is_bigram k). Qed.

Lemma slice_is_bigram k a b : is_bigram (RadixKey_slice k a b) = is_bigram k.
Proof. unfold RadixKey_slice. by destruct (is_bigram k). Qed.

Lemma units_to k b :
  0 ≤ b ≤ RadixKey_len k → units (RadixKey_to k b) = take (Z.to_nat b) (units k).
Proof. intros. unfold RadixKey_to. rewrite units_slice by lia. by rewrite Z.sub_0_r. Qed.

Lemma units_from k a :
  0 ≤ a ≤ RadixKey_len k → units (RadixKey_from k a) = drop (Z.to_nat a) (units k).
Proof.
  intros. unfold RadixKey_from. rewrite units_slice by lia. apply take_ge.
  rewrite length_drop. pose proof (zlen_units k). unfold zlen in *. lia.
Qed.

Lemma RadixKey_len_to k b : 0 ≤ b ≤ RadixKey_len k → RadixKey_len (RadixKey_to k b) = b.
Proof.
  intros. rewrite <- zlen_units, units_to, zlen_take, zlen_units by lia. lia.
Qed.

Lemma RadixKey_len_from k a :
  0 ≤ a ≤ RadixKey_len k → RadixKey_len (RadixKey_from k a) = RadixKey_len k - a.
Proof.
  intros. rewrite <- zlen_units, units_from, zlen_drop, zlen_units by lia. lia.
Qed.

(** ** Matching *)

(** The reference: the common prefix of two unit lists, in whole pages. *)
Definition page_match {A} `{EqDecision A} (ps : Z) (u v : list A) : Z := common_len u v / ps * ps.

Section common_len.
Context {A : Type} `{EqDecision A}.
Implicit Types u v : list A.

Lemma common_len_bounds u v : 0 ≤ common_len u v ∧ common_len u v ≤ zlen u ∧ common_len u v ≤ zlen v.
Proof.
  revert v. induction u as [|a u IH]; intros [|b v]; simpl; rewrite ?zlen_cons, ?zlen_nil;
    try (specialize (IH v); case_bool_decide); unfold zlen in *; lia.
Qed.

Lemma common_len_take u v n :
  0 ≤ n → n ≤ common_len u v → take (Z.to_nat n) u = take (Z.to_nat n) v.
Proof.
  revert v n. induction u as [|a u IH]; intros [|b v] n Hn; simpl; intros Hle;
    try (by replace n with 0 by lia).
  case_bool_decide; [subst|by replace n with 0 by lia].
  destruct (decide (n = 0)) as [->|]; [done|].
  replace (Z.to_nat n) with (S (Z.to_nat (n - 1))) by lia. simpl. f_equal. apply IH; lia.
Qed.

Lemma common_len_ge u v n :
  0 ≤ n → n ≤ zlen u → n ≤ zlen v → take (Z.to_nat n) u = take (Z.to_nat n) v → n ≤ common_len u v.
Proof.
  revert v n. induction u as [|a u IH]; intros [|b v] n Hn; rewrite ?zlen_cons, ?zlen_nil; simpl;
    intros H1 H2 Ht; try lia.
  destruct (decide (n = 0)) as [->|].
  { case_bool_decide; [|done]. pose proof (common_len_bounds u v). lia. }
  replace (Z.to_nat n) with (S (Z.to_nat (n - 1))) in Ht by lia. simpl in Ht.
  inversion Ht; subst. rewrite bool_decide_true by done.
  specialize (IH v (n - 1) ltac:(lia) ltac:(lia) ltac:(lia) ltac:(done)). lia.
Qed.

Lemma common_len_app w u v : common_len (w ++ u) (w ++ v) = zlen w + common_len u v.
Proof.
  induction w as [|a w IH]; simpl; [rewrite zlen_nil; lia|].
  rewrite bool_decide_true by done. rewrite IH, zlen_cons. lia.
Qed.

Lemma common_len_comm u v : common_len u v = common_len v u.
Proof.
  revert v. induction u as [|a u IH]; intros [|b v]; simpl; try done.
  rewrite IH. case_bool_decide; case_bool_decide; congruence.
Qed.

Lemma page_match_bounds ps u v :
  0 < ps → 0 ≤ page_match ps u v ∧ page_match ps u v ≤ common_len u v
           ∧ common_len u v < page_match ps u v + ps.
Proof.
  intros Hps. unfold page_match. pose proof (common_len_bounds u v) as [H0 _].
  pose proof (Z.div_mod (common_len u v) ps ltac:(lia)).
  pose proof (Z.mod_pos_bound (common_len u v) ps Hps).
  pose proof (Z.div_pos _ ps H0 Hps).
  split_and!; [apply Z.mul_nonneg_nonneg; lia|lia|lia].
Qed.

End common_len.

Lemma common_len_map {A B} `{EqDecision A, EqDecision B} (f : A → B) u v :
  (∀ x y, f x = f y → x = y) → common_len (map f u) (map f v) = common_len u v.
Proof.
  intros Hf. revert v. induction u as [|a u IH]; intros [|b v]; simpl; try done.
  rewrite IH. case_bool_decide; case_bool_decide; naive_solver.
Qed.

Lemma common_len_bigrams t0 t1 :
  common_len (bigrams t0) (bigrams t1) = Z.max 0 (common_len t0 t1 - 1).
Proof.
  revert t1. induction t0 as [|a t0 IH]; intros [|b t1]; try done.
  - simpl. by destruct t0.
  - destruct t0 as [|a' t0], t1 as [|b' t1]; [simpl; case_bool_decide; lia..|].
    change (bigrams (a :: a' :: t0)) with ([a; a'] :: bigrams (a' :: t0)).
    change (bigrams (b :: b' :: t1)) with ([b; b'] :: bigrams (b' :: t1)).
    cbn [common_len]. rewrite (IH (b' :: t1)). cbn [common_len].
    pose proof (common_len_bounds t0 t1).
    case_bool_decide as E1; [inversion E1; subst; rewrite !bool_decide_true by done; lia|].
    repeat case_bool_decide; subst; (done || lia).
Qed.

(** Comparing page after page finds the common prefix in whole pages. *)
Lemma match_pages_spec fuel t0 t1 ps i :
  0 < ps → 0 ≤ i → i ≤ common_len t0 t1 → (ps | i) →
  (ps | Z.min (zlen t0) (zlen t1)) →
  Z.min (zlen t0) (zlen t1) ≤ i + Z.of_nat fuel * ps →
  match_pages fuel t0 t1 (Z.min (zlen t0) (zlen t1)) ps i = page_match ps t0 t1.
Proof.
  intros Hps. set (M := Z.min (zlen t0) (zlen t1)).
  pose proof (common_len_bounds t0 t1) as Hb.
  assert (HM' : common_len t0 t1 ≤ M ∧ M ≤ zlen t0 ∧ M ≤ zlen t1) by (unfold M; lia).
  assert (Hend : ∀ j, (ps | j) → j ≤ common_len t0 t1 → common_len t0 t1 < j + ps →
                      j = page_match ps t0 t1).
  { intros j [q ->] H1 H2. unfold page_match. f_equal. apply Z.div_unique_pos with (common_len t0 t1 - q * ps); lia. }
  revert i. induction fuel as [|fuel IH]; intros i Hi Hc Hd HM Hf; simpl.
  - apply Hend; [done|done|]. lia.
  - case_bool_decide as Hlt; [|apply Hend; [done|done|lia]].
    assert (Hge : i + ps ≤ M).
    { clearbody M. destruct Hd as [q ->], HM as [r ->]. assert (q < r) by nia. nia. }
    rewrite !py_slice_take_drop by lia. replace (i + ps - i) with ps by lia.
    assert (Hiff : take (Z.to_nat ps) (drop (Z.to_nat i) t0) = take (Z.to_nat ps) (drop (Z.to_nat i) t1)
                   ↔ i + ps ≤ common_len t0 t1).
    { rewrite !take_drop_commute, <- !Z2Nat.inj_add by lia. split.
      - intros He. apply common_len_ge; [lia|lia|lia|].
        rewrite <- (take_drop (Z.to_nat i) (take _ t0)), <- (take_drop (Z.to_nat i) (take _ t1)).
        rewrite !take_take. replace (Z.to_nat i `min` Z.to_nat (i + ps))%nat with (Z.to_nat i) by lia.
        f_equal; [by apply common_len_take|done].
      - intros He. f_equal. by apply common_len_take; lia. }
    case_bool_decide as He.
    + apply IH; [lia|tauto| |done|lia]. apply Z.divide_add_r; [done|apply Z.divide_refl].
    + apply Hend; [done|done|]. apply Znot_ge_lt. intros ?. apply He, Hiff. lia.
Qed.

(** Both keys of a comparison in the cache are whole pages of the same representation. *)
Definition page_key (ps : Z) (k : RadixKey) : Prop := (ps | RadixKey_len k).

Lemma RadixKey_match_units k other ps :
  0 < ps → extra_key k = extra_key other → is_bigram k = is_bigram other →
  page_key ps k → page_key ps other →
  RadixKey_match k other ps = Ok (page_match ps (units k) (units other)).
Proof.
  intros Hps He Hb Hk Ho. unfold RadixKey_match, check_compatible.
  rewrite (bool_decide_true (extra_key k = extra_key other)) by done. unfold page_key, units, RadixKey_len in *. rewrite <- Hb in *.
  destruct (is_bigram k); simpl; f_equal.
  - unfold page_match. rewrite common_len_bigrams.
    pose proof (common_len_bounds (token_ids k) (token_ids other)).
    pose proof (zlen_nonneg (token_ids k)). pose proof (zlen_nonneg (token_ids other)).
    assert (Z.max 0 (Z.min (common_len (token_ids k) (token_ids other) - 1)
       (Z.min (if bool_decide (0 < zlen (token_ids k)) then zlen (token_ids k) - 1 else 0)
          (if bool_decide (0 < zlen (token_ids other)) then zlen (token_ids other) - 1 else 0)))
      = Z.max 0 (common_len (token_ids k) (token_ids other) - 1)) as ->
      by (repeat case_bool_decide; lia).
    clear Hk Ho. case_bool_decide; [done|]. replace ps with 1 by lia. by rewrite Z.div_1_r, Z.mul_1_r.
  - unfold page_match. rewrite common_len_map by naive_solver.
    fold (page_match ps (token_ids k) (token_ids other)).
    case_bool_decide as H1.
    + subst. unfold page_match. by rewrite Z.div_1_r, Z.mul_1_r.
    + pose proof (zlen_nonneg (token_ids k)). pose proof (zlen_nonneg (token_ids other)).
      f_equal. apply match_pages_spec; [done|lia|apply common_len_bounds|apply Z.divide_0_r| |nia].
      destruct (Z.min_spec (zlen (token_ids k)) (zlen (token_ids other))) as [[_ ->]|[_ ->]]; done.
Qed.

(** ** Child keys *)

Definition unit_ckey (u : list Z) : ckey :=
  match u with
  | [t] => py_int t
  | _ => py_tuple (map py_int u)
  end.

(** The dictionary key of the first page of units, namespaced by [extra_key]. *)
Definition page_ckey (ps : Z) (extra : option string) (page : list (list Z)) : ckey :=
  let plain := if bool_decide (ps = 1) then unit_ckey (default [] (head page))
               else py_tuple (map unit_ckey page) in
  match extra with
  | None => plain
  | Some e => py_tuple [py_str e; plain]
  end.

(** The units of one key have one length: 1, or 2 for bigrams. *)
Definition unit_width (k : RadixKey) : nat := if is_bigram k then 2 else 1.

Lemma units_width k : Forall (λ u, length u = unit_width k) (units k).
Proof.
  unfold units, unit_width. destruct (is_bigram k).
  - induction (token_ids k) as [|a [|b t] IH]; [done..|].
    change (bigrams (a :: b :: t)) with ([a; b] :: bigrams (b :: t)). by constructor.
  - apply Forall_map, Forall_true. done.
Qed.

Lemma py_item_Some t i x : t !! i = Some x → py_item t (Z.of_nat i) = Ok x.
Proof.
  intros Hi. unfold py_item, py_get. rewrite bool_decide_true by lia. by rewrite Nat2Z.id, Hi.
Qed.

Lemma bigrams_lookup t j a b :
  t !! j = Some a → t !! S j = Some b → bigrams t !! j = Some [a; b].
Proof.
  revert t. induction j as [|j IH]; intros [|a' [|b' t]] Ha Hb; simplify_eq/=; try done.
  apply (IH (b' :: t)); done.
Qed.

Lemma pair_at_unit t j u :
  bigrams t !! j = Some u → pair_at t (Z.of_nat j) = Ok (unit_ckey u).
Proof.
  intros Hu. assert (Hl : (S j < length t)%nat).
  { apply lookup_lt_Some in Hu. pose proof (zlen_bigrams t). unfold zlen in *. lia. }
  destruct (lookup_lt_is_Some_2 t j) as [a Ha]; [lia|].
  destruct (lookup_lt_is_Some_2 t (S j)) as [b Hb]; [lia|].
  pose proof (bigrams_lookup _ _ _ _ Ha Hb) as Hu'. rewrite Hu' in Hu. inversion Hu; subst.
  unfold pair_at. rewrite (py_item_Some _ _ _ Ha). simpl.
  replace (Z.of_nat j + 1) with (Z.of_nat (S j)) by lia. by rewrite (py_item_Some _ _ _ Hb).
Qed.

Lemma res_map_pairs t (n m : nat) :
  (m + n ≤ length (bigrams t))%nat →
  res_map (pair_at t) (seqZ (Z.of_nat m) (Z.of_nat n))
  = Ok (map unit_ckey (take n (drop m (bigrams t)))).
Proof.
  revert m. induction n as [|n IH]; intros m Hl; [done|].
  destruct (lookup_lt_is_Some_2 (bigrams t) m) as [u Hu]; [lia|].
  rewrite (drop_S _ _ _ Hu). rewrite seqZ_cons by lia.
  replace (Z.succ (Z.of_nat m)) with (Z.of_nat (S m)) by lia.
  replace (Z.pred (Z.of_nat (S n))) with (Z.of_nat n) by lia.
  cbn [res_map]. rewrite (pair_at_unit _ _ _ Hu). simpl. rewrite IH by lia. done.
Qed.

(** [child_key] is a function of the namespace and the first page of units. *)
Lemma child_key_units k ps :
  1 ≤ ps ≤ RadixKey_len k →
  child_key k ps = Ok (page_ckey ps (extra_key k) (take (Z.to_nat ps) (units k))).
Proof.
  intros Hps. rewrite <- zlen_units in Hps. unfold child_key, page_ckey, units in *.
  set (t := token_ids k) in *. destruct (is_bigram k).
  - assert (Hl : (0 + Z.to_nat ps ≤ length (bigrams t))%nat) by (unfold zlen in *; lia).
    pose proof (res_map_pairs t (Z.to_nat ps) 0 Hl) as Hr. rewrite drop_0 in Hr.
    rewrite Z2Nat.id in Hr by lia. change (Z.of_nat 0) with 0 in Hr.
    case_bool_decide as H1.
    + subst ps. change (Z.to_nat 1) with 1%nat in *.
      destruct (bigrams t) as [|u us] eqn:E; [simpl in Hl; lia|].
      pose proof (pair_at_unit t 0 u ltac:(by rewrite E)) as Hp.
      change (Z.of_nat 0) with 0 in Hp. rewrite Hp. done.
    + by rewrite Hr.
  - case_bool_decide as H1.
    + subst ps. by destruct t as [|x t]; [unfold zlen in *; simpl in *; lia|].
    + rewrite slice_to_take by lia. cbv zeta. rewrite firstn_map, map_map. done.
Qed.

Lemma py_tuple_inj l k : py_tuple l = py_tuple k → l = k.
Proof. unfold py_tuple. congruence. Qed.

Lemma unit_ckey_inj u v : length u = length v → (1 ≤ length u)%nat → unit_ckey u = unit_ckey v → u = v.
Proof.
  intros Hl H1. assert (Hm : ∀ x y : list Z, map py_int x = map py_int y → x = y).
  { intros x. induction x as [|a x IH]; intros [|b y] Heq; simplify_eq/=; [done|].
    f_equal. by apply IH. }
  destruct u as [|a [|a' u]], v as [|b [|b' v]]; simpl in *; try lia.
  - intros E. by inversion E.
  - intros Heq%py_tuple_inj. by apply Hm.
Qed.

Lemma units_ckey_inj w us vs :
  (1 ≤ w)%nat → Forall (λ u, length u = w) us → Forall (λ u, length u = w) vs →
  map unit_ckey us = map unit_ckey vs → us = vs.
Proof.
  intros Hw Hu. revert vs. induction Hu as [|u us Hu _ IH]; intros [|v vs] Hv Heq; simplify_eq/=.
  - done.
  - apply Forall_cons in Hv as [Hv Hvs]. f_equal; [apply unit_ckey_inj; congruence || lia|by apply IH].
Qed.

(** Two keys of one representation share a child slot exactly when they agree on the namespace
    and the first page. *)
Lemma page_ckey_inj w ps e e' p q :
  (1 ≤ w)%nat → 1 ≤ ps → zlen p = ps → zlen q = ps →
  Forall (λ u, length u = w) p → Forall (λ u, length u = w) q →
  page_ckey ps e p = page_ckey ps e' q → e = e' ∧ p = q.
Proof.
  intros Hw Hps Hp Hq Fp Fq Heq. unfold page_ckey in Heq.
  set (plain := λ page, if bool_decide (ps = 1) then unit_ckey (default [] (head page))
                        else py_tuple (map unit_ckey page)) in *.
  assert (Hinj : plain p = plain q → p = q).
  { unfold plain. case_bool_decide as H1.
    - subst ps. destruct p as [|u [|]], q as [|v [|]]; unfold zlen in *; simpl in *; try lia.
      apply Forall_cons in Fp as [Fp _]. apply Forall_cons in Fq as [Fq _].
      intros E. f_equal. apply unit_ckey_inj; congruence || lia.
    - intros E%py_tuple_inj. by eapply units_ckey_inj. }
  assert (Hstr : ∀ e x page, Forall (λ u, length u = w) page → zlen page = ps →
                 plain page ≠ py_tuple [py_str e; x]).
  { intros e0 x page Fpage Hlen. unfold plain. case_bool_decide as H1.
    - destruct page as [|u [|]]; unfold zlen in *; simpl in *; try lia.
      destruct u as [|a [|b [|c u]]]; simpl; discriminate.
    - intros E%py_tuple_inj. destruct page as [|u [|v [|]]]; simplify_eq/=.
      apply Forall_cons in Fpage as [Fu _]. destruct u as [|a [|b u]]; discriminate. }
  destruct e as [e|], e' as [e'|].
  - apply py_tuple_inj in Heq. unfold py_str in Heq. inversion Heq.
    split; [done|by apply Hinj].
  - symmetry in Heq. by apply Hstr in Heq.
  - by apply Hstr in Heq.
  - split; [done|by apply Hinj].
Qed.

(** ** Properties *)

(** For two keys of one namespace and representation that are whole pages long, [match] returns
    the length of their common prefix of logical units rounded down to whole pages, for single
    tokens and for bigrams alike. *)
Theorem radix_key_match_spec k other ps :
  0 < ps → extra_key k = extra_key other → is_bigram k = is_bigram other →
  page_key ps k → page_key ps other →
  ∃ m, RadixKey_match k other ps = Ok m ∧ (ps | m)
    ∧ take (Z.to_nat m) (units k) = take (Z.to_nat m) (units other)
    ∧ (∀ j, (ps | j) → 0 ≤ j ≤ RadixKey_len k → j ≤ RadixKey_len other →
         take (Z.to_nat j) (units k) = take (Z.to_nat j) (units other) → j ≤ m).
Proof.
  intros Hps He Hb Hk Ho. exists (page_match ps (units k) (units other)).
  pose proof (page_match_bounds ps (units k) (units other) Hps) as (B1 & B2 & B3).
  split_and!; [by apply RadixKey_match_units|apply Z.divide_factor_r|by apply common_len_take|].
  intros j [q ->] Hj Hj' Ht.
  assert (q * ps ≤ common_len (units k) (units other)).
  { apply common_len_ge; rewrite ?zlen_units; (done || lia). }
  unfold page_match in *. assert (q ≤ common_len (units k) (units other) / ps) by nia. nia.
Qed.

(** Two keys of one representation with at least a page fall into the same child slot of a node
    exactly when they have the same namespace and the same first page of units; keys of different
    namespaces never share a node. *)
Theorem radix_child_key_spec k k' ps :
  1 ≤ ps → ps ≤ RadixKey_len k → ps ≤ RadixKey_len k' → is_bigram k = is_bigram k' →
  ∃ ck ck', child_key k ps = Ok ck ∧ child_key k' ps = Ok ck'
    ∧ (ck = ck' ↔ extra_key k = extra_key k'
                  ∧ take (Z.to_nat ps) (units k) = take (Z.to_nat ps) (units k')).
Proof.
  intros Hps Hk Hk' Hb. rewrite !child_key_units by lia. eexists _, _. split_and!; [done|done|].
  split; [|intros [-> ->]; done]. apply (page_ckey_inj (unit_width k)); try done.
  - unfold unit_width. destruct (is_bigram k); lia.
  - rewrite zlen_take, zlen_units. lia.
  - rewrite zlen_take, zlen_units. lia.
  - apply Forall_take, units_width.
  - apply Forall_take. replace (unit_width k) with (unit_width k') by (unfold unit_width; by rewrite Hb).
    apply units_width.
Qed.

Lemma radix_key_match_spec_witness :
  let k := mkRadixKey [1; 2; 3; 4; 5] (Some "lora"%string) true in
  let other := mkRadixKey [1; 2; 3; 9; 5] (Some "lora"%string) true in
  ∃ m, RadixKey_match k other 2 = Ok m ∧ (2 | m)
    ∧ take (Z.to_nat m) (units k) = take (Z.to_nat m) (units other)
    ∧ (∀ j, (2 | j) → 0 ≤ j ≤ RadixKey_len k → j ≤ RadixKey_len other →
         take (Z.to_nat j) (units k) = take (Z.to_nat j) (units other) → j ≤ m).
Proof.
  apply radix_key_match_spec; [lia|reflexivity|reflexivity|exists 2; reflexivity|exists 2; reflexivity].
Defined.

Lemma radix_child_key_spec_witness :
  let k := mkRadixKey [1; 2; 3] (Some "a"%string) false in
  let k' := mkRadixKey [1; 2; 4] (Some "b"%string) false in
  ∃ ck ck', child_key k 2 = Ok ck ∧ child_key k' 2 = Ok ck'
    ∧ (ck = ck' ↔ extra_key k = extra_key k' ∧ take (Z.to_nat 2) (units k) = take (Z.to_nat 2) (units k')).
Proof. apply radix_child_key_spec; vm_compute; (reflexivity || discriminate). Defined.
