(* ===== verification/PageHash.v ===== *)
(** * Page hashes of the radix cache

    Models the hashing of [src/python/sglang/srt/mem_cache/radix_cache.py]
    ([RadixKey.hash_page], the loop of [compute_node_hash_values], [split_node_hash_value]) and
    [hash_str_to_int64] of [src/python/sglang/srt/mem_cache/utils.py].  [hashlib.sha256],
    [bytes.fromhex], [hexdigest] and [int(s, 16)] are the functions of the Python standard library,
    written out on byte lists. *)

From S2P Require Import Prelude RadixKey.

(** ** hashlib.sha256 *)

Module Sha256.

Definition w32 (x : Z) : Z := Z.land x 4294967295.
Definition rotr (x n : Z) : Z := w32 (Z.lor (Z.shiftr x n) (Z.shiftl x (32 - n))).

(** The round constants and the initial state are the first 32 fractional bits of the cube roots and
    square roots of the first primes, computed here in integers: [frac_root k p] is
    ⌊p^(1/k) · 2^32⌋ mod 2^32, the root found by deciding its bits from the highest down. *)
Definition is_prime (p : Z) : bool := forallb (λ d, negb (bool_decide (p mod d = 0))) (seqZ 2 (p - 2)).

Definition primes : list Z := filter (λ p, is_prime p = true) (seqZ 2 310).

Fixpoint root_bits (k x acc : Z) (bits : nat) : Z :=
  match bits with
  | O => acc
  | S n =>
      let next := acc + 2 ^ Z.of_nat n in
      root_bits k x (if bool_decide (next ^ k ≤ x) then next else acc) n
  end.

Definition frac_root (k p : Z) : Z := w32 (root_bits k (p * 2 ^ (32 * k)) 0 40).

Definition K : list Z := Eval vm_compute in map (frac_root 3) (take 64 primes).

Definition H0 : list Z := Eval vm_compute in map (frac_root 2) (take 8 primes).

(** Big-endian bytes of an [n]-byte number, and back. *)
Fixpoint be_bytes (n : nat) (x : Z) : list Z :=
  match n with
  | O => []
  | S n' => be_bytes n' (Z.shiftr x 8) ++ [Z.land x 255]
  end.

Definition be_value (l : list Z) : Z := foldl (λ acc b, acc * 256 + b) 0 l.

Definition pad (msg : list Z) : list Z :=
  let zeros := Z.to_nat ((55 - zlen msg) mod 64) in
  msg ++ [128] ++ replicate zeros 0 ++ be_bytes 8 (8 * zlen msg).

Fixpoint chunks {A} (n : nat) (count : nat) (l : list A) : list (list A) :=
  match count with
  | O => []
  | S c => take n l :: chunks n c (drop n l)
  end.

(** The message schedule, built newest word first. *)
Fixpoint schedule (steps : nat) (rev_w : list Z) : list Z :=
  match steps with
  | O => rev_w
  | S n =>
      let w := λ i, nth (i - 1) rev_w 0 in
      let s0 := Z.lxor (Z.lxor (rotr (w 15%nat) 7) (rotr (w 15%nat) 18)) (Z.shiftr (w 15%nat) 3) in
      let s1 := Z.lxor (Z.lxor (rotr (w 2%nat) 17) (rotr (w 2%nat) 19)) (Z.shiftr (w 2%nat) 10) in
      schedule n (w32 (w 16%nat + s0 + w 7%nat + s1) :: rev_w)
  end.

Definition round (st : list Z) (kw : Z * Z) : list Z :=
  match st with
  | [a; b; c; d; e; f; g; h] =>
      let S1 := Z.lxor (Z.lxor (rotr e 6) (rotr e 11)) (rotr e 25) in
      let ch := Z.lxor (Z.land e f) (Z.land (w32 (Z.lnot e)) g) in
      let t1 := w32 (h + S1 + ch + kw.1 + kw.2) in
      let S0 := Z.lxor (Z.lxor (rotr a 2) (rotr a 13)) (rotr a 22) in
      let maj := Z.lxor (Z.lxor (Z.land a b) (Z.land a c)) (Z.land b c) in
      let t2 := w32 (S0 + maj) in
      [w32 (t1 + t2); a; b; c; w32 (d + t1); e; f; g]
  | _ => st
  end.

Definition block (h : list Z) (bytes : list Z) : list Z :=
  let w := rev (schedule 48 (rev (map be_value (chunks 4 16 bytes)))) in
  zip_with (λ x y, w32 (x + y)) h (foldl round h (zip K w)).

(** The 32-byte digest of a byte string. *)
Definition sha256 (msg : list Z) : list Z :=
  let p := pad msg in
  foldl block H0 (chunks 64 (length p / 64)%nat p) ≫= be_bytes 4.

Example sha256_abc :
  sha256 [97; 98; 99]
  = be_bytes 32 0xba7816bf8f01cfea414140de5dae2223b00361a396177a9cb410ff61f20015ad.
Proof. vm_compute. reflexivity. Qed.

End Sha256.

(** ** Hexadecimal strings *)

Definition byte_ok (b : Z) : Prop := 0 ≤ b < 256.

Definition hex_digit (d : Z) : Ascii.ascii :=
  Ascii.ascii_of_N (Z.to_N (if bool_decide (d < 10) then 48 + d else 87 + d)).

Definition hex_value (c : Ascii.ascii) : option Z :=
  let n := Z.of_N (Ascii.N_of_ascii c) in
  if bool_decide (48 ≤ n ≤ 57) then Some (n - 48)
  else if bool_decide (97 ≤ n ≤ 102) then Some (n - 87)
  else if bool_decide (65 ≤ n ≤ 70) then Some (n - 55)
  else None.

(** [bytes.hex] (what [hexdigest] prints) and [bytes.fromhex]. *)
Fixpoint hexdigest (bytes : list Z) : string :=
  match bytes with
  | [] => EmptyString
  | b :: bs => String (hex_digit (b / 16)) (String (hex_digit (b mod 16)) (hexdigest bs))
  end.

Fixpoint fromhex (s : string) : res (list Z) :=
  match s with
  | EmptyString => Ok []
  | String c (String d s') =>
      match hex_value c, hex_value d with
      | Some x, Some y => bs ← fromhex s'; Ok ((16 * x + y) :: bs)
      | _, _ => Raise ValueError
      end
  | _ => Raise ValueError
  end.

(** [int(s, 16)] on digits. *)
Fixpoint parse_hex (acc : Z) (s : string) : res Z :=
  match s with
  | EmptyString => Ok acc
  | String c s' =>
      match hex_value c with
      | Some x => parse_hex (16 * acc + x) s'
      | None => Raise ValueError
      end
  end.

Definition int16 (s : string) : res Z :=
  match s with EmptyString => Raise ValueError | _ => parse_hex 0 s end.

Fixpoint str_take (n : nat) (s : string) : string :=
  match n, s with
  | S n', String c s' => String c (str_take n' s')
  | _, _ => EmptyString
  end.

Definition hash_str_to_int64 (hash_str : string) : res Z :=
  uint64_val ← int16 (str_take 16 hash_str);
  Ok (if bool_decide (2 ^ 63 ≤ uint64_val) then uint64_val - 2 ^ 64 else uint64_val).

(** ** Hashing pages *)

(** [t.to_bytes(4, byteorder="little", signed=False)]. *)
Definition to_bytes4 (t : Z) : res (list Z) :=
  if bool_decide (0 ≤ t < 2 ^ 32) then Ok (rev (Sha256.be_bytes 4 t)) else Raise OverflowError.

Definition token_bytes (t : list Z) (j : Z) : res (list Z) :=
  x ← py_item t j; to_bytes4 x.

Definition hash_page (k : RadixKey) (start stop : Z) (prior_hash : option string) : res string :=
  prior ← (match prior_hash with
           | None | Some EmptyString => Ok []
           | Some p => fromhex p
           end);
  let t := token_ids k in
  body ←
    (if is_bigram k then
       res_map (λ j, a ← token_bytes t j; b ← token_bytes t (j + 1); Ok (a ++ b))
         (seqZ start (stop - start))
     else res_map (token_bytes t) (seqZ start (stop - start)));
  Ok (hexdigest (Sha256.sha256 (prior ++ concat body))).

(** [range(0, n, step)] for [step > 0]. *)
Definition range_step (n step : Z) : list Z :=
  map (λ i, i * step) (seqZ 0 ((n + step - 1) / step)).

(** The loop of [compute_node_hash_values] over the pages of the node's key. *)
Fixpoint hash_pages (k : RadixKey) (page_size : Z) (starts : list Z) (parent_hash : option string)
    : res (list string) :=
  match starts with
  | [] => Ok []
  | start :: starts' =>
      let stop := Z.min (start + page_size) (RadixKey_len k) in
      if bool_decide (stop ≤ start) then hash_pages k page_size starts' parent_hash
      else
        hash_val ← hash_page k start stop parent_hash;
        rest ← hash_pages k page_size starts' (Some hash_val);
        Ok (hash_val :: rest)
  end.

Definition split_node_hash_value (child_hash_value : option (list string)) (split_len page_size : Z)
    : option (list string) * option (list string) :=
  match child_hash_value with
  | None => (None, None)
  | Some h =>
      let split_pages := if bool_decide (page_size = 1) then split_len else split_len / page_size in
      (Some (h⟨:split_pages⟩), Some (h⟨split_pages:⟩))
  end.

(** ** Hex strings *)

Lemma hex_value_digit d : 0 ≤ d < 16 → hex_value (hex_digit d) = Some d.
Proof.
  intros Hd.
  assert (d = 0 ∨ d = 1 ∨ d = 2 ∨ d = 3 ∨ d = 4 ∨ d = 5 ∨ d = 6 ∨ d = 7 ∨ d = 8 ∨ d = 9 ∨ d = 10
    ∨ d = 11 ∨ d = 12 ∨ d = 13 ∨ d = 14 ∨ d = 15) as Hc by lia.
  destruct_or! Hc; subst d; reflexivity.
Qed.

Lemma fromhex_hexdigest bs : Forall byte_ok bs → fromhex (hexdigest bs) = Ok bs.
Proof.
  induction 1 as [|b bs [H0 H1] Hbs IH]; [done|]. cbn [hexdigest fromhex].
  rewrite !hex_value_digit by
    (pose proof (Z.mod_pos_bound b 16); pose proof (Z.div_lt_upper_bound b 16 16);
     pose proof (Z.div_pos b 16); lia).
  rewrite IH. simpl. f_equal. f_equal. pose proof (Z.div_mod b 16). lia.
Qed.

Lemma parse_hex_digest bs acc :
  Forall byte_ok bs → parse_hex acc (hexdigest bs) = Ok (foldl (λ acc b, acc * 256 + b) acc bs).
Proof.
  intros Hbs. revert acc. induction Hbs as [|b bs [H0 H1] Hbs IH]; intros acc; [done|].
  cbn [hexdigest parse_hex].
  rewrite !hex_value_digit by
    (pose proof (Z.mod_pos_bound b 16); pose proof (Z.div_lt_upper_bound b 16 16);
     pose proof (Z.div_pos b 16); lia).
  rewrite IH. simpl. do 2 f_equal. pose proof (Z.div_mod b 16). lia.
Qed.

Lemma str_take_hexdigest n bs : str_take (2 * n) (hexdigest bs) = hexdigest (take n bs).
Proof.
  revert n. induction bs as [|b bs IH]; intros [|n]; [done..|].
  replace (2 * S n)%nat with (S (S (2 * n))) by lia. cbn [hexdigest str_take take]. by rewrite IH.
Qed.

Lemma be_value_bounds bs acc n :
  Forall byte_ok bs → 0 ≤ acc < 256 ^ n → 0 ≤ n →
  0 ≤ foldl (λ acc b, acc * 256 + b) acc bs < 256 ^ (n + zlen bs).
Proof.
  intros Hbs. revert acc n. induction Hbs as [|b bs [H0 H1] Hbs IH]; intros acc n Hacc Hn; simpl.
  - change (0 ≤ acc < 256 ^ (n + 0)). by rewrite Z.add_0_r.
  - rewrite zlen_cons. replace (n + (zlen bs + 1)) with (n + 1 + zlen bs) by lia. apply IH; [|lia].
    rewrite Z.pow_add_r, Z.pow_1_r by lia. nia.
Qed.

(** ** Properties *)

(** The event id of a page hash never raises on a digest of at least 8 bytes and is the signed
    64-bit reading of its first 8 bytes: it lies in the int64 range and is congruent to their
    big-endian value modulo 2^64; and a digest printed in hexadecimal is read back unchanged when
    it is chained into the next page. *)
Theorem page_hash_int64 bs :
  Forall byte_ok bs → 8 ≤ zlen bs →
  (∃ z, hash_str_to_int64 (hexdigest bs) = Ok z
    ∧ - 2 ^ 63 ≤ z < 2 ^ 63 ∧ z mod 2 ^ 64 = Sha256.be_value (take 8 bs))
  ∧ fromhex (hexdigest bs) = Ok bs.
Proof.
  intros Hbs Hlen. split; [|by apply fromhex_hexdigest].
  unfold hash_str_to_int64. change 16%nat with (2 * 8)%nat. rewrite str_take_hexdigest.
  assert (Hint : int16 (hexdigest (take 8 bs)) = Ok (Sha256.be_value (take 8 bs))).
  { unfold int16. destruct (take 8 bs) as [|b l] eqn:E.
    - destruct bs; [unfold zlen in Hlen; simpl in Hlen; lia|done].
    - rewrite <- E. assert (Hh : hexdigest (take 8 bs) ≠ EmptyString) by (by rewrite E).
      destruct (hexdigest (take 8 bs)) as [|c s] eqn:Eh; [done|]. rewrite <- Eh.
      by apply parse_hex_digest, Forall_take. }
  rewrite Hint. cbn [mbind res_bind].
  assert (Hb : 0 ≤ Sha256.be_value (take 8 bs) < 2 ^ 64).
  { pose proof (be_value_bounds (take 8 bs) 0 0 (Forall_take _ _ _ Hbs) ltac:(lia) ltac:(lia)) as Hb.
    rewrite zlen_take in Hb. replace (0 + Z.min (Z.of_nat 8) (zlen bs)) with 8 in Hb by lia.
    change (256 ^ 8) with (2 ^ 64) in Hb. exact Hb. }
  eexists. split; [done|]. case_bool_decide; (split; [lia|]).
  - rewrite <- (Z.mod_add _ 1) by lia. rewrite Z.mul_1_l, Z.sub_add. apply Z.mod_small. lia.
  - apply Z.mod_small. lia.
Qed.

Lemma page_hash_int64_witness :
  (∃ z, hash_str_to_int64 (hexdigest (Sha256.sha256 [1; 0; 0; 0])) = Ok z
    ∧ - 2 ^ 63 ≤ z < 2 ^ 63 ∧ z mod 2 ^ 64 = Sha256.be_value (take 8 (Sha256.sha256 [1; 0; 0; 0])))
  ∧ fromhex (hexdigest (Sha256.sha256 [1; 0; 0; 0])) = Ok (Sha256.sha256 [1; 0; 0; 0]).
Proof.
  apply page_hash_int64.
  - apply (bool_decide_unpack _). vm_compute. exact I.
  - vm_compute. discriminate.
Defined.
