(* ===== verification/RadixTree.v ===== *)
(** * The radix cache

    Models [TreeNode] and [RadixCache] of [src/python/sglang/srt/mem_cache/radix_cache.py] and the
    eviction strategies of [src/python/sglang/srt/mem_cache/evict_policy.py].

    The nodes are Python objects with parent and child references: the heap is the map [rc_nodes]
    from object identities to their fields, and an operation returns the cache after the call.  An
    exception is a [Raise].  [time.monotonic()] is the parameter [monotonic] (the reading of the
    n-th call); [heapq] and the KV allocator are type classes with their documented laws. *)

From S2P Require Import Prelude RadixKey PageHash.

(** ** Data *)

Record TreeNode := mkTreeNode {
  tn_children : gmap ckey nat;
  tn_parent : option nat;
  tn_key : RadixKey;
  tn_value : option (list Z);
  tn_lock_ref : Z;
  tn_last_access_time : Z;
  tn_creation_time : Z;
  tn_hit_count : Z;
  tn_host_ref_counter : Z;
  tn_host_value : option (list Z);
  tn_hash_value : option (list string);
  tn_priority : Z
}.

Definition set_tn_children (v : gmap ckey nat) (r : TreeNode) : TreeNode :=
  mkTreeNode v (tn_parent r) (tn_key r) (tn_value r) (tn_lock_ref r) (tn_last_access_time r)
    (tn_creation_time r) (tn_hit_count r) (tn_host_ref_counter r) (tn_host_value r)
    (tn_hash_value r) (tn_priority r).

Definition set_tn_parent (v : option nat) (r : TreeNode) : TreeNode :=
  mkTreeNode (tn_children r) v (tn_key r) (tn_value r) (tn_lock_ref r) (tn_last_access_time r)
    (tn_creation_time r) (tn_hit_count r) (tn_host_ref_counter r) (tn_host_value r)
    (tn_hash_value r) (tn_priority r).

Definition set_tn_key (v : RadixKey) (r : TreeNode) : TreeNode :=
  mkTreeNode (tn_children r) (tn_parent r) v (tn_value r) (tn_lock_ref r) (tn_last_access_time
    r) (tn_creation_time r) (tn_hit_count r) (tn_host_ref_counter r) (tn_host_value r)
    (tn_hash_value r) (tn_priority r).

Definition set_tn_value (v : option (list Z)) (r : TreeNode) : TreeNode :=
  mkTreeNode (tn_children r) (tn_parent r) (tn_key r) v (tn_lock_ref r) (tn_last_access_time r)
    (tn_creation_time r) (tn_hit_count r) (tn_host_ref_counter r) (tn_host_value r)
    (tn_hash_value r) (tn_priority r).

Definition set_tn_lock_ref (v : Z) (r : TreeNode) : TreeNode :=
  mkTreeNode (tn_children r) (tn_parent r) (tn_key r) (tn_value r) v (tn_last_access_time r)
    (tn_creation_time r) (tn_hit_count r) (tn_host_ref_counter r) (tn_host_value r)
    (tn_hash_value r) (tn_priority r).

Definition set_tn_last_access_time (v : Z) (r : TreeNode) : TreeNode :=
  mkTreeNode (tn_children r) (tn_parent r) (tn_key r) (tn_value r) (tn_lock_ref r) v
    (tn_creation_time r) (tn_hit_count r) (tn_host_ref_counter r) (tn_host_value r)
    (tn_hash_value r) (tn_priority r).

Definition set_tn_hit_count (v : Z) (r : TreeNode) : TreeNode :=
  mkTreeNode (tn_children r) (tn_parent r) (tn_key r) (tn_value r) (tn_lock_ref r)
    (tn_last_access_time r) (tn_creation_time r) v (tn_host_ref_counter r) (tn_host_value r)
    (tn_hash_value r) (tn_priority r).

Definition set_tn_host_ref_counter (v : Z) (r : TreeNode) : TreeNode :=
  mkTreeNode (tn_children r) (tn_parent r) (tn_key r) (tn_value r) (tn_lock_ref r)
    (tn_last_access_time r) (tn_creation_time r) (tn_hit_count r) v (tn_host_value r)
    (tn_hash_value r) (tn_priority r).

Definition set_tn_hash_value (v : option (list string)) (r : TreeNode) : TreeNode :=
  mkTreeNode (tn_children r) (tn_parent r) (tn_key r) (tn_value r) (tn_lock_ref r)
    (tn_last_access_time r) (tn_creation_time r) (tn_hit_count r) (tn_host_ref_counter r)
    (tn_host_value r) v (tn_priority r).

Definition set_tn_priority (v : Z) (r : TreeNode) : TreeNode :=
  mkTreeNode (tn_children r) (tn_parent r) (tn_key r) (tn_value r) (tn_lock_ref r)
    (tn_last_access_time r) (tn_creation_time r) (tn_hit_count r) (tn_host_ref_counter r)
    (tn_host_value r) (tn_hash_value r) v.

Definition evicted (x : TreeNode) : bool := bool_decide (tn_value x = None).

Definition backuped (x : TreeNode) : bool := negb (bool_decide (tn_host_value x = None)).

Definition protect_host (x : TreeNode) : TreeNode :=
  set_tn_host_ref_counter (tn_host_ref_counter x + 1) x.

Definition release_host (x : TreeNode) : res TreeNode :=
  if bool_decide (0 < tn_host_ref_counter x)
  then Ok (set_tn_host_ref_counter (tn_host_ref_counter x - 1) x)
  else Raise RuntimeError.

Definition get_last_hash_value (x : TreeNode) : option string :=
  match tn_hash_value x with
  | None => None
  | Some h => last h
  end.

(** *** evict_policy.py *)

Inductive EvictionStrategy :=
| LRUStrategy
| LFUStrategy
| FIFOStrategy
| MRUStrategy
| FILOStrategy
| PriorityStrategy
| SLRUStrategy (protected_threshold : Z).

(** A priority is a number or a tuple of numbers; the tuples of one strategy have one length, so
    they compare like lists. *)
Definition get_priority (s : EvictionStrategy) (x : TreeNode) : list Z :=
  match s with
  | LRUStrategy => [tn_last_access_time x]
  | LFUStrategy => [tn_hit_count x; tn_last_access_time x]
  | FIFOStrategy => [tn_creation_time x]
  | MRUStrategy => [- tn_last_access_time x]
  | FILOStrategy => [- tn_creation_time x]
  | PriorityStrategy => [tn_priority x; tn_last_access_time x]
  | SLRUStrategy threshold =>
      [if bool_decide (threshold ≤ tn_hit_count x) then 1 else 0; tn_last_access_time x]
  end.

(** The strategy chosen by [RadixCache.__init__] for [eviction_policy] (lower case). *)
Definition select_strategy (policy : string) : res EvictionStrategy :=
  if bool_decide (policy = "lru"%string) then Ok LRUStrategy
  else if bool_decide (policy = "lfu"%string) then Ok LFUStrategy
  else if bool_decide (policy = "fifo"%string) then Ok FIFOStrategy
  else if bool_decide (policy = "mru"%string) then Ok MRUStrategy
  else if bool_decide (policy = "filo"%string) then Ok FILOStrategy
  else if bool_decide (policy = "priority"%string) then Ok PriorityStrategy
  else if bool_decide (policy = "slru"%string) then Ok (SLRUStrategy 2)
  else Raise ValueError.

Fixpoint lex_lt (a b : list Z) : bool :=
  match a, b with
  | x :: a', y :: b' => if bool_decide (x = y) then lex_lt a' b' else bool_decide (x < y)
  | [], _ :: _ => true
  | _, [] => false
  end.

(** *** KV cache events *)

Inductive StorageMedium := GPU | CPU | DISK | EXTERNAL.

Inductive KVCacheEvent :=
| BlockStored (block_hashes : list Z) (parent_block_hash : option Z) (tokens : list (list Z))
    (block_size : Z) (lora_id : option Z) (medium : StorageMedium)
| BlockRemoved (block_hashes : list Z) (medium : StorageMedium)
| AllBlocksCleared.

(** *** The cache *)

Record RadixCache := mkRadixCache {
  rc_disable : bool;
  rc_page_size : Z;
  rc_enable_kv_cache_events : bool;
  rc_is_eagle : bool;
  rc_disable_finished_insert : bool;
  rc_eviction_strategy : EvictionStrategy;
  rc_nodes : gmap nat TreeNode;
  rc_counter : nat;
  rc_tick : nat;
  rc_root : nat;
  rc_evictable_size : Z;
  rc_protected_size : Z;
  rc_evictable_leaves : gset nat;
  rc_kv_event_queue : list KVCacheEvent
}.

Definition set_rc_nodes (v : gmap nat TreeNode) (r : RadixCache) : RadixCache :=
  mkRadixCache (rc_disable r) (rc_page_size r) (rc_enable_kv_cache_events r) (rc_is_eagle r)
    (rc_disable_finished_insert r) (rc_eviction_strategy r) v (rc_counter r) (rc_tick r)
    (rc_root r) (rc_evictable_size r) (rc_protected_size r) (rc_evictable_leaves r)
    (rc_kv_event_queue r).

Definition set_rc_counter (v : nat) (r : RadixCache) : RadixCache :=
  mkRadixCache (rc_disable r) (rc_page_size r) (rc_enable_kv_cache_events r) (rc_is_eagle r)
    (rc_disable_finished_insert r) (rc_eviction_strategy r) (rc_nodes r) v (rc_tick r) (rc_root
    r) (rc_evictable_size r) (rc_protected_size r) (rc_evictable_leaves r) (rc_kv_event_queue
    r).

Definition set_rc_tick (v : nat) (r : RadixCache) : RadixCache :=
  mkRadixCache (rc_disable r) (rc_page_size r) (rc_enable_kv_cache_events r) (rc_is_eagle r)
    (rc_disable_finished_insert r) (rc_eviction_strategy r) (rc_nodes r) (rc_counter r) v
    (rc_root r) (rc_evictable_size r) (rc_protected_size r) (rc_evictable_leaves r)
    (rc_kv_event_queue r).

Definition set_rc_root (v : nat) (r : RadixCache) : RadixCache :=
  mkRadixCache (rc_disable r) (rc_page_size r) (rc_enable_kv_cache_events r) (rc_is_eagle r)
    (rc_disable_finished_insert r) (rc_eviction_strategy r) (rc_nodes r) (rc_counter r) (rc_tick
    r) v (rc_evictable_size r) (rc_protected_size r) (rc_evictable_leaves r) (rc_kv_event_queue
    r).

Definition set_rc_evictable_size (v : Z) (r : RadixCache) : RadixCache :=
  mkRadixCache (rc_disable r) (rc_page_size r) (rc_enable_kv_cache_events r) (rc_is_eagle r)
    (rc_disable_finished_insert r) (rc_eviction_strategy r) (rc_nodes r) (rc_counter r) (rc_tick
    r) (rc_root r) v (rc_protected_size r) (rc_evictable_leaves r) (rc_kv_event_queue r).

Definition set_rc_protected_size (v : Z) (r : RadixCache) : RadixCache :=
  mkRadixCache (rc_disable r) (rc_page_size r) (rc_enable_kv_cache_events r) (rc_is_eagle r)
    (rc_disable_finished_insert r) (rc_eviction_strategy r) (rc_nodes r) (rc_counter r) (rc_tick
    r) (rc_root r) (rc_evictable_size r) v (rc_evictable_leaves r) (rc_kv_event_queue r).

Definition set_rc_evictable_leaves (v : gset nat) (r : RadixCache) : RadixCache :=
  mkRadixCache (rc_disable r) (rc_page_size r) (rc_enable_kv_cache_events r) (rc_is_eagle r)
    (rc_disable_finished_insert r) (rc_eviction_strategy r) (rc_nodes r) (rc_counter r) (rc_tick
    r) (rc_root r) (rc_evictable_size r) (rc_protected_size r) v (rc_kv_event_queue r).

Definition set_rc_kv_event_queue (v : list KVCacheEvent) (r : RadixCache) : RadixCache :=
  mkRadixCache (rc_disable r) (rc_page_size r) (rc_enable_kv_cache_events r) (rc_is_eagle r)
    (rc_disable_finished_insert r) (rc_eviction_strategy r) (rc_nodes r) (rc_counter r) (rc_tick
    r) (rc_root r) (rc_evictable_size r) (rc_protected_size r) (rc_evictable_leaves r) v.

(** Field access through a reference; a reference to no object is Python's None. *)
Definition get_node (c : RadixCache) (n : nat) : res TreeNode :=
  match rc_nodes c !! n with Some x => Ok x | None => Raise AttributeError end.

Definition upd_node (n : nat) (f : TreeNode → TreeNode) (c : RadixCache) : RadixCache :=
  set_rc_nodes (alter f n (rc_nodes c)) c.

Definition get_ref (r : option nat) : res nat :=
  match r with Some n => Ok n | None => Raise AttributeError end.

Definition get_value (x : TreeNode) : res (list Z) :=
  match tn_value x with Some v => Ok v | None => Raise TypeError end.

(** [children.get(ck)]. *)
Definition get_child (x : TreeNode) (ck : ckey) : option nat := tn_children x !! ck.

(** ** Interfaces *)

(** [heapq] on the entries of the eviction heap, ordered by [lt]: the documented behaviour is that
    [heappop] removes a smallest item.  The heap holds one entry per node. *)
Definition heap_entry : Type := list Z * (Z * nat).

Class Heapq := {
  heappop : list heap_entry → option (heap_entry * list heap_entry)
}.

(** Tuples compare by the priority, and on equal priorities by [TreeNode.__lt__]. *)
Definition entry_lt (a b : heap_entry) : bool :=
  if bool_decide (a.1 = b.1) then
    if bool_decide (a.2.2 = b.2.2) then false else bool_decide (a.2.1 < b.2.1)
  else lex_lt a.1 b.1.

Class HeapqLaws `{Heapq} := {
  heappop_None l : heappop l = None ↔ l = [];
  heappop_perm l x l' : heappop l = Some (x, l') → l ≡ₚ x :: l';
  heappop_min l x l' y :
    (∀ a b, a ∈ l → b ∈ l → a.2.2 = b.2.2 → a = b) →
    heappop l = Some (x, l') → y ∈ l → entry_lt y x = false
}.

(** What the cache asks of the allocator: [free] of a tensor of slots. *)
Class KVAllocator (A : Type) := kv_free : A → list Z → res A.

Section cache.
Context (monotonic : nat → Z).

(** ** TreeNode.__init__ *)

(** The key is assigned by the caller right after the construction. *)
Definition TreeNode_init (c : RadixCache) (priority : Z) (key : RadixKey) (value : option (list Z))
    : TreeNode :=
  mkTreeNode ∅ None key value 0 (monotonic (rc_tick c)) (monotonic (S (rc_tick c)))
    0 0 None None priority.

Definition new_node (c : RadixCache) (x : TreeNode) : nat * RadixCache :=
  let id := rc_counter c in
  (id, set_rc_tick (S (S (rc_tick c)))
         (set_rc_counter (S id) (set_rc_nodes (<[id := x]> (rc_nodes c)) c))).

Definition monotonic_time (c : RadixCache) : Z * RadixCache :=
  (monotonic (rc_tick c), set_rc_tick (S (rc_tick c)) c).

(** ** Hash values and events *)

Definition compute_node_hash_values (c : RadixCache) (x : TreeNode) (page_size : Z)
    : res (list string) :=
  parent_hash ←
    (match tn_parent x with
     | None => Ok None
     | Some p =>
         px ← get_node c p;
         Ok (match tn_hash_value px with
             | Some h => if bool_decide (0 < RadixKey_len (tn_key px)) && bool_decide (0 < zlen h)
                         then last h else None
             | None => None
             end)
     end);
  hash_pages (tn_key x) page_size (range_step (RadixKey_len (tn_key x)) page_size) parent_hash.

(** The hash values of the node, computed and stored when missing. *)
Definition ensure_hash_value (c : RadixCache) (n : nat) : res (list string * RadixCache) :=
  x ← get_node c n;
  match tn_hash_value x with
  | Some h => Ok (h, c)
  | None =>
      h ← compute_node_hash_values c x (rc_page_size c);
      Ok (h, upd_node n (set_tn_hash_value (Some h)) c)
  end.

Definition page_tokens (k : RadixKey) (start stop : Z) : list (list Z) :=
  if is_bigram k
  then map (λ j, [nth (Z.to_nat j) (token_ids k) 0; nth (Z.to_nat (j + 1)) (token_ids k) 0])
         (seqZ start (stop - start))
  else map (λ t, [t]) (py_slice (token_ids k) start stop).

Definition str_item (l : list string) (i : Z) : res string :=
  match py_get l i with Some x => Ok x | None => Raise IndexError end.

Fixpoint store_events (k : RadixKey) (page_size : Z) (medium : StorageMedium) (h : list string)
    (starts : list Z) (page_index : Z) (parent_block_hash : option Z) : res (list KVCacheEvent) :=
  match starts with
  | [] => Ok []
  | start :: starts' =>
      let stop := Z.min (start + page_size) (RadixKey_len k) in
      if bool_decide (stop ≤ start)
      then store_events k page_size medium h starts' page_index parent_block_hash
      else
        let toks := page_tokens k start stop in
        s ← str_item h page_index;
        block_hash ← hash_str_to_int64 s;
        rest ← store_events k page_size medium h starts' (page_index + 1) (Some block_hash);
        Ok (BlockStored [block_hash] parent_block_hash toks (zlen toks) None medium :: rest)
  end.

Definition record_store_event (c : RadixCache) (n : nat) (medium : StorageMedium)
    : res RadixCache :=
  if rc_enable_kv_cache_events c then
    '(h, c) ← ensure_hash_value c n;
    x ← get_node c n;
    parent_block_hash ←
      (match tn_parent x with
       | None => Ok None
       | Some p =>
           if bool_decide (p = rc_root c) then Ok None
           else
             px ← get_node c p;
             match tn_hash_value px with
             | Some ph => match last ph with
                          | Some s => z ← hash_str_to_int64 s; Ok (Some z)
                          | None => Ok None
                          end
             | None => Ok None
             end
       end);
    evs ← store_events (tn_key x) (rc_page_size c) medium h
            (range_step (RadixKey_len (tn_key x)) (rc_page_size c)) 0 parent_block_hash;
    Ok (set_rc_kv_event_queue (rc_kv_event_queue c ++ evs) c)
  else Ok c.

Fixpoint remove_events (k : RadixKey) (page_size : Z) (medium : StorageMedium) (h : list string)
    (starts : list Z) (page_index : Z) : res (list KVCacheEvent) :=
  match starts with
  | [] => Ok []
  | start :: starts' =>
      let stop := Z.min (start + page_size) (RadixKey_len k) in
      if bool_decide (stop ≤ start) then remove_events k page_size medium h starts' page_index
      else
        s ← str_item h page_index;
        block_hash ← hash_str_to_int64 s;
        rest ← remove_events k page_size medium h starts' (page_index + 1);
        Ok (BlockRemoved [block_hash] medium :: rest)
  end.

Definition record_remove_event (c : RadixCache) (n : nat) (medium : StorageMedium)
    : res RadixCache :=
  if rc_enable_kv_cache_events c then
    '(h, c) ← ensure_hash_value c n;
    x ← get_node c n;
    evs ← remove_events (tn_key x) (rc_page_size c) medium h
            (range_step (RadixKey_len (tn_key x)) (rc_page_size c)) 0;
    Ok (set_rc_kv_event_queue (rc_kv_event_queue c ++ evs) c)
  else Ok c.

Definition record_all_cleared_event (c : RadixCache) : RadixCache :=
  if rc_enable_kv_cache_events c
  then set_rc_kv_event_queue (rc_kv_event_queue c ++ [AllBlocksCleared]) c
  else c.

Definition take_events (c : RadixCache) : list KVCacheEvent * RadixCache :=
  if negb (rc_enable_kv_cache_events c) then ([], c)
  else (rc_kv_event_queue c, set_rc_kv_event_queue [] c).

(** ** Construction *)

Definition sys_maxsize : Z := 2 ^ 63 - 1.

Definition reset (c : RadixCache) : RadixCache :=
  let root := mkTreeNode ∅ None (mkRadixKey [] None false) (Some []) 1
                (monotonic (rc_tick c)) (monotonic (S (rc_tick c))) 0 0 (Some []) (Some [])
                (- sys_maxsize) in
  let '(id, c) := new_node c root in
  record_all_cleared_event
    (set_rc_evictable_leaves ∅ (set_rc_protected_size 0 (set_rc_evictable_size 0
       (set_rc_root id c)))).

Definition RadixCache_init (disable : bool) (page_size : Z)
    (enable_kv_cache_events is_eagle disable_finished_insert : bool) (eviction_policy : string)
    : res RadixCache :=
  strategy ← select_strategy eviction_policy;
  Ok (reset (mkRadixCache disable page_size enable_kv_cache_events is_eagle
               disable_finished_insert strategy ∅ 0 0 0 0 0 ∅ [])).

(** ** Internal helpers *)

(** [not child.evicted]. *)
Definition present (c : RadixCache) (m : nat) : bool :=
  match rc_nodes c !! m with
  | Some y => negb (evicted y)
  | None => false
  end.

Definition update_leaf_status (c : RadixCache) (n : nat) : res RadixCache :=
  x ← get_node c n;
  if evicted x || bool_decide (0 < tn_lock_ref x)
  then Ok (set_rc_evictable_leaves (rc_evictable_leaves c ∖ {[n]}) c)
  else if existsb (present c) (map snd (map_to_list (tn_children x)))
  then Ok (set_rc_evictable_leaves (rc_evictable_leaves c ∖ {[n]}) c)
  else Ok (set_rc_evictable_leaves (rc_evictable_leaves c ∪ {[n]}) c).

Definition split_node (c : RadixCache) (key : RadixKey) (child : nat) (split_len : Z)
    : res (nat * RadixCache) :=
  x ← get_node c child;
  ck_rest ← child_key (RadixKey_from key split_len) (rc_page_size c);
  v ← get_value x;
  parent ← get_ref (tn_parent x);
  ck ← child_key key (rc_page_size c);
  let '(hash_new, hash_child) :=
    split_node_hash_value (tn_hash_value x) split_len (rc_page_size c) in
  let fresh := TreeNode_init c (tn_priority x) (RadixKey_to (tn_key x) split_len)
                 (Some (v⟨:split_len⟩)) in
  let fresh := set_tn_hash_value hash_new (set_tn_lock_ref (tn_lock_ref x)
                 (set_tn_parent (Some parent) (set_tn_children {[ck_rest := child]}
                   (set_tn_hit_count (tn_hit_count x) fresh)))) in
  let '(id, c) := new_node c fresh in
  let c := upd_node child (λ x, set_tn_hash_value hash_child (set_tn_value (Some (v⟨split_len:⟩))
             (set_tn_key (RadixKey_from (tn_key x) split_len) (set_tn_parent (Some id) x)))) c in
  _ ← get_node c parent;
  Ok (id, upd_node parent (λ p, set_tn_children (<[ck := id]> (tn_children p)) p) c).

Definition inc_hit_count (c : RadixCache) (n : nat) (chunked : bool) : RadixCache :=
  if chunked then c else upd_node n (λ x, set_tn_hit_count (tn_hit_count x + 1) x) c.

(** [child_key] is only recomputed for a non-empty rest. *)
Definition next_child_key (key : RadixKey) (page_size : Z) (ck : ckey) : res ckey :=
  if bool_decide (RadixKey_len key = 0) then Ok ck else child_key key page_size.

(** ** Matching *)

(** The loop of [_match_prefix_helper]; every iteration but the last consumes a non-empty part
    of the key. *)
Fixpoint match_loop (fuel : nat) (c : RadixCache) (access_time : Z) (node : nat) (key : RadixKey)
    (ck : ckey) (value : list (list Z)) : res (list (list Z) * nat * RadixCache) :=
  match fuel with
  | O => Raise LoopBound
  | S fuel' =>
      nx ← get_node c node;
      match (if bool_decide (0 < RadixKey_len key) then get_child nx ck else None) with
      | None => Ok (value, node, c)
      | Some child =>
          x ← get_node c child;
          let c := upd_node child (set_tn_last_access_time access_time) c in
          prefix_len ← RadixKey_match (tn_key x) key (rc_page_size c);
          if bool_decide (prefix_len < RadixKey_len (tn_key x)) then
            '(fresh, c) ← split_node c (tn_key x) child prefix_len;
            fx ← get_node c fresh;
            v ← get_value fx;
            Ok (value ++ [v], fresh, c)
          else
            v ← get_value x;
            let key := RadixKey_from key prefix_len in
            ck ← next_child_key key (rc_page_size c) ck;
            match_loop fuel' c access_time child key ck (value ++ [v])
      end
  end.

Definition match_prefix_helper (c : RadixCache) (node : nat) (key : RadixKey)
    : res (list (list Z) * nat * RadixCache) :=
  let '(access_time, c) := monotonic_time c in
  let c := upd_node node (set_tn_last_access_time access_time) c in
  ck ← child_key key (rc_page_size c);
  match_loop (S (Z.to_nat (RadixKey_len key))) c access_time node key ck [].

(** [match_prefix]: [device_indices] and [last_device_node]; the host node is the same. *)
Definition match_prefix (c : RadixCache) (key : RadixKey) : res (list Z * nat * RadixCache) :=
  let key := (maybe_to_bigram_view key (rc_is_eagle c) None).1 in
  if rc_disable c || bool_decide (RadixKey_len key = 0) then Ok ([], rc_root c, c)
  else
    let key := page_aligned key (rc_page_size c) in
    if bool_decide (RadixKey_len key = 0) then Ok ([], rc_root c, c)
    else
      '(value, last_node, c) ← match_prefix_helper c (rc_root c) key;
      Ok (concat value, last_node, c).

(** ** Insertion *)

Fixpoint insert_loop (fuel : nat) (c : RadixCache) (access_time priority : Z) (chunked : bool)
    (node : nat) (key : RadixKey) (value : list Z) (ck : ckey) (total : Z)
    : res (nat * RadixKey * list Z * ckey * Z * RadixCache) :=
  match fuel with
  | O => Raise LoopBound
  | S fuel' =>
      nx ← get_node c node;
      match (if bool_decide (0 < RadixKey_len key) then get_child nx ck else None) with
      | None => Ok (node, key, value, ck, total, c)
      | Some child =>
          x ← get_node c child;
          let c := upd_node child (set_tn_last_access_time access_time) c in
          prefix_len ← RadixKey_match (tn_key x) key (rc_page_size c);
          let total := total + prefix_len in
          let key := RadixKey_from key prefix_len in
          let value := value⟨prefix_len:⟩ in
          '(node, c) ←
            (if bool_decide (prefix_len < RadixKey_len (tn_key x)) then
               split_node c (tn_key x) child prefix_len
             else Ok (child, c));
          let c := upd_node node (λ y, set_tn_priority (Z.max (tn_priority y) priority) y) c in
          let c := inc_hit_count c node chunked in
          ck ← next_child_key key (rc_page_size c) ck;
          insert_loop fuel' c access_time priority chunked node key value ck total
      end
  end.

Definition insert_leaf (c : RadixCache) (node : nat) (key : RadixKey) (value : list Z) (ck : ckey)
    (priority : Z) (chunked : bool) : res RadixCache :=
  let fresh := set_tn_parent (Some node) (TreeNode_init c priority key (Some value)) in
  let '(id, c) := new_node c fresh in
  let c := inc_hit_count c id chunked in
  _ ← get_node c node;
  let c := upd_node node (λ p, set_tn_children (<[ck := id]> (tn_children p)) p) c in
  let c := set_rc_evictable_size (rc_evictable_size c + RadixKey_len key) c in
  c ← update_leaf_status c node;
  c ← update_leaf_status c id;
  record_store_event c id GPU.

Definition insert_helper (c : RadixCache) (node : nat) (key : RadixKey) (value : list Z)
    (priority : option Z) (chunked : bool) : res (Z * RadixCache) :=
  let priority := default 0 priority in
  let '(access_time, c) := monotonic_time c in
  let c := upd_node node (λ y, set_tn_priority (Z.max (tn_priority y) priority)
                                 (set_tn_last_access_time access_time y)) c in
  if bool_decide (RadixKey_len key = 0) then Ok (0, c)
  else
    ck ← child_key key (rc_page_size c);
    '(node, key, value, ck, total, c) ←
      insert_loop (S (Z.to_nat (RadixKey_len key))) c access_time priority chunked node key value
        ck 0;
    if bool_decide (RadixKey_len key = 0) then Ok (total, c)
    else
      c ← insert_leaf c node key value ck priority chunked;
      Ok (total, c).

(** [insert]; without a value the token ids are their own values. *)
Definition insert (c : RadixCache) (key : RadixKey) (value : option (list Z))
    (priority : option Z) (chunked : bool) : res (Z * RadixCache) :=
  if rc_disable c then Ok (0, c)
  else
    let '(key, value) := maybe_to_bigram_view key (rc_is_eagle c) value in
    let key := page_aligned key (rc_page_size c) in
    let value := match value with
                 | Some v => v⟨:RadixKey_len key⟩
                 | None => (token_ids key)⟨:RadixKey_len key⟩
                 end in
    insert_helper c (rc_root c) key value priority chunked.

(** ** Locks *)

(** The walk to the root; a path has at most as many nodes as were ever created. *)
Fixpoint inc_lock_loop (fuel : nat) (c : RadixCache) (node : option nat) (delta : Z)
    : res (Z * RadixCache) :=
  match fuel with
  | O => Raise LoopBound
  | S fuel' =>
      if bool_decide (node = Some (rc_root c)) then Ok (delta, c)
      else
        n ← get_ref node;
        x ← get_node c n;
        let len := RadixKey_len (tn_key x) in
        let '(c, delta) :=
          if bool_decide (tn_lock_ref x = 0)
          then (set_rc_protected_size (rc_protected_size c + len)
                  (set_rc_evictable_size (rc_evictable_size c - len) c), delta - len)
          else (c, delta) in
        let c := upd_node n (λ y, set_tn_lock_ref (tn_lock_ref y + 1) y) c in
        c ← update_leaf_status c n;
        inc_lock_loop fuel' c (tn_parent x) delta
  end.

Definition inc_lock_ref (c : RadixCache) (node : nat) : res (Z * RadixCache) :=
  if rc_disable c then Ok (0, c)
  else inc_lock_loop (S (rc_counter c)) c (Some node) 0.

Fixpoint dec_lock_loop (fuel : nat) (c : RadixCache) (node : option nat) (delta : Z)
    : res (Z * RadixCache) :=
  match fuel with
  | O => Raise LoopBound
  | S fuel' =>
      if bool_decide (node = Some (rc_root c)) then Ok (delta, c)
      else
        n ← get_ref node;
        x ← get_node c n;
        let len := RadixKey_len (tn_key x) in
        let '(c, delta) :=
          if bool_decide (tn_lock_ref x = 1)
          then (set_rc_protected_size (rc_protected_size c - len)
                  (set_rc_evictable_size (rc_evictable_size c + len) c), delta + len)
          else (c, delta) in
        let c := upd_node n (λ y, set_tn_lock_ref (tn_lock_ref y - 1) y) c in
        c ← update_leaf_status c n;
        _ ← py_assert (negb (bool_decide (tn_parent x = None)) || bool_decide (n = rc_root c));
        dec_lock_loop fuel' c (tn_parent x) delta
  end.

Definition dec_lock_ref (c : RadixCache) (node : nat) : res (Z * RadixCache) :=
  if rc_disable c then Ok (0, c)
  else dec_lock_loop (S (rc_counter c)) c (Some node) 0.

(** ** Eviction *)

Definition delete_leaf (c : RadixCache) (n : nat) : res RadixCache :=
  x ← get_node c n;
  key ← child_key (tn_key x) (rc_page_size c);
  parent ← get_ref (tn_parent x);
  px ← get_node c parent;
  let v := get_child px key in
  let c := upd_node parent (λ p, set_tn_children (delete key (tn_children p)) p) c in
  _ ← py_assert (bool_decide (v = Some n));
  let c := set_rc_evictable_size (rc_evictable_size c - RadixKey_len (tn_key x)) c in
  let c := set_rc_evictable_leaves (rc_evictable_leaves c ∖ {[n]}) c in
  update_leaf_status c parent.

Definition evict_entry (c : RadixCache) (n : nat) : res heap_entry :=
  x ← get_node c n;
  Ok (get_priority (rc_eviction_strategy c) x, (tn_last_access_time x, n)).

Section evict.
Context `{Heapq} {A} `{KVAllocator A}.

(** Every iteration deletes a node, so there are at most as many as nodes. *)
Fixpoint evict_loop (fuel : nat) (c : RadixCache) (a : A) (heap : list heap_entry)
    (num_tokens num_evicted : Z) : res (Z * RadixCache * A) :=
  match fuel with
  | O => Raise LoopBound
  | S fuel' =>
      match (if bool_decide (num_evicted < num_tokens) then heappop heap else None) with
      | None => Ok (num_evicted, c, a)
      | Some ((_, (_, n)), heap) =>
          x ← get_node c n;
          v ← get_value x;
          a ← kv_free a v;
          let num_evicted := num_evicted + zlen v in
          c ← delete_leaf c n;
          parent ← get_ref (tn_parent x);
          px ← get_node c parent;
          heap ←
            (if bool_decide (tn_children px = ∅) && bool_decide (tn_lock_ref px = 0)
             then e ← evict_entry c parent; Ok (e :: heap)
             else Ok heap);
          c ← record_remove_event c n GPU;
          evict_loop fuel' c a heap num_tokens num_evicted
      end
  end.

Definition evict (c : RadixCache) (a : A) (num_tokens : Z) : res (Z * RadixCache * A) :=
  if rc_disable c then Ok (0, c, a)
  else
    heap ← res_map (evict_entry c) (elements (rc_evictable_leaves c));
    evict_loop (S (rc_counter c)) c a heap num_tokens 0.

End evict.

(** ** Sizes *)

(** [_total_size_helper]: the stack discipline only fixes the order of a sum. *)
Fixpoint total_size_loop (fuel : nat) (c : RadixCache) (stack : list nat) (total : Z) : res Z :=
  match fuel with
  | O => Raise LoopBound
  | S fuel' =>
      match stack with
      | [] => Ok total
      | n :: stack' =>
          x ← get_node c n;
          v ← get_value x;
          let live := List.filter (present c) (map snd (map_to_list (tn_children x))) in
          total_size_loop fuel' c (live ++ stack') (total + zlen v)
      end
  end.

Definition total_size (c : RadixCache) : res Z :=
  total_size_loop (S (rc_counter c)) c [rc_root c] 0.

End cache.
