(* ===== verification/RadixInv.v ===== *)
(** * The tree invariant of the radix cache

    The nodes of [RadixTree] that are reachable from the root form a tree; every node [n] spells a
    path [P n] of logical units and a row [V n] of KV slots of the same length.  Units carry their
    namespace ([extra_key]), so that keys of different namespaces never share a path.  [L] is the
    set of reachable nodes (an evicted node stays in the heap, unreachable).

    This file states the invariant and proves that splitting a node and adding a leaf keep it;
    [RadixOps] derives the behaviour of the public operations. *)

From S2P Require Import Prelude RadixKey PageHash RadixTree.

(** ** Qualified units *)

Definition qunit : Type := option string * list Z.

Definition qunits (k : RadixKey) : list qunit := map (pair (extra_key k)) (units k).

(** The child slot of a page of qualified units. *)
Definition slot (ps : Z) (page : list qunit) : ckey :=
  page_ckey ps (default None (fst <$> head page)) (map snd page).

(** Pages as they occur: of [ps] units of one width, in one namespace. *)
Definition good_page (ps : Z) (w : nat) (page : list qunit) : Prop :=
  zlen page = ps ∧ Forall (λ q, length q.2 = w) page
  ∧ ∀ q q', q ∈ page → q' ∈ page → q.1 = q'.1.

Lemma zlen_qunits k : zlen (qunits k) = RadixKey_len k.
Proof. unfold qunits. by rewrite zlen_map, zlen_units. Qed.

Lemma qunits_extra k q : q ∈ qunits k → q.1 = extra_key k.
Proof. intros (u & -> & _)%list_elem_of_fmap. done. Qed.

Lemma qunits_width k : Forall (λ q, length q.2 = unit_width k) (qunits k).
Proof.
  unfold qunits. apply (Forall_fmap (pair (extra_key k))). exact (units_width k).
Qed.

Lemma good_page_take ps k :
  1 ≤ ps ≤ RadixKey_len k → good_page ps (unit_width k) (take (Z.to_nat ps) (qunits k)).
Proof.
  intros Hps. split_and!.
  - rewrite zlen_take, zlen_qunits. lia.
  - apply Forall_take, qunits_width.
  - intros q q' Hq Hq'.
    assert (Hin : ∀ r, r ∈ take (Z.to_nat ps) (qunits k) → r ∈ qunits k).
    { intros r Hr. rewrite <- (take_drop (Z.to_nat ps) (qunits k)). apply elem_of_app. by left. }
    by rewrite (qunits_extra k q), (qunits_extra k q') by auto.
Qed.

Lemma child_key_slot k ps :
  1 ≤ ps ≤ RadixKey_len k → child_key k ps = Ok (slot ps (take (Z.to_nat ps) (qunits k))).
Proof.
  intros Hps. rewrite child_key_units by done. f_equal. unfold slot, qunits.
  rewrite firstn_map, map_map. simpl. rewrite map_id.
  destruct (take (Z.to_nat ps) (units k)) as [|u us] eqn:E; [|done].
  pose proof (zlen_take (Z.to_nat ps) (units k)) as Hl. rewrite E, zlen_nil, zlen_units in Hl. lia.
Qed.

Lemma slot_inj ps w p q :
  1 ≤ ps → (1 ≤ w)%nat → good_page ps w p → good_page ps w q → slot ps p = slot ps q → p = q.
Proof.
  intros Hps Hw (Hp & Fp & Ep) (Hq & Fq & Eq) Heq. unfold slot in Heq.
  assert (Hm : ∀ l : list qunit, Forall (λ r, length r.2 = w) l →
                Forall (λ u, length u = w) (map snd l)).
  { intros l Hl. by apply (Forall_fmap snd). }
  apply (page_ckey_inj w) in Heq as [He Hu]; rewrite ?zlen_map; auto.
  assert (Hun : ∀ (l : list qunit) e, (∀ r, r ∈ l → r.1 = e) → l = map (pair e) (map snd l)).
  { intros l e Hl. induction l as [|[e' u] l IH]; simpl; [done|]. f_equal.
    - f_equal. apply (Hl (e', u)). set_solver.
    - apply IH. intros r Hr. apply Hl. set_solver. }
  destruct p as [|x p], q as [|y q]; [done|unfold zlen in *; simpl in *; lia..|].
  simpl in He. rewrite (Hun (x :: p) x.1), (Hun (y :: q) y.1).
  - by rewrite He, Hu.
  - intros r Hr. apply Eq; set_solver.
  - intros r Hr. apply Ep; set_solver.
Qed.

Lemma qunits_from k a :
  0 ≤ a ≤ RadixKey_len k → qunits (RadixKey_from k a) = drop (Z.to_nat a) (qunits k).
Proof.
  intros Ha. unfold qunits. rewrite units_from by done. unfold RadixKey_from.
  by rewrite slice_extra_key, skipn_map.
Qed.

Lemma qunits_to k b :
  0 ≤ b ≤ RadixKey_len k → qunits (RadixKey_to k b) = take (Z.to_nat b) (qunits k).
Proof.
  intros Hb. unfold qunits. rewrite units_to by done. unfold RadixKey_to.
  by rewrite slice_extra_key, firstn_map.
Qed.

Lemma common_len_qunits k k' :
  extra_key k = extra_key k' → common_len (qunits k) (qunits k') = common_len (units k) (units k').
Proof.
  intros He. unfold qunits. rewrite He. apply common_len_map. congruence.
Qed.

(** ** The invariant *)

(** The key of a node in the tree: non-empty, in whole pages, of the cache's representation. *)
Record key_ok (c : RadixCache) (k : RadixKey) : Prop := {
  ko_bigram : is_bigram k = rc_is_eagle c;
  ko_pages : (rc_page_size c | RadixKey_len k);
  ko_pos : 0 < RadixKey_len k
}.

Definition first_page (c : RadixCache) (k : RadixKey) : list qunit :=
  take (Z.to_nat (rc_page_size c)) (qunits k).

Record node_ok (c : RadixCache) (L : gset nat) (P : nat → list qunit) (V : nat → list Z)
    (n : nat) (x : TreeNode) (p : nat) (px : TreeNode) (v : list Z) : Prop := {
  no_parent : tn_parent x = Some p;
  no_live : p ∈ L;
  no_px : rc_nodes c !! p = Some px;
  no_slot : tn_children px !! slot (rc_page_size c) (first_page c (tn_key x)) = Some n;
  no_key : key_ok c (tn_key x);
  no_value : tn_value x = Some v;
  no_len : zlen v = RadixKey_len (tn_key x);
  no_P : P n = P p ++ qunits (tn_key x);
  no_V : V n = V p ++ v
}.

Record tree (c : RadixCache) (L : gset nat) (P : nat → list qunit) (V : nat → list Z) : Prop := {
  tr_ps : 1 ≤ rc_page_size c;
  tr_fresh n x : rc_nodes c !! n = Some x → (n < rc_counter c)%nat;
  tr_root_live : rc_root c ∈ L;
  tr_root : ∃ x, rc_nodes c !! rc_root c = Some x ∧ tn_parent x = None
                 ∧ tn_value x = Some [] ∧ tn_key x = mkRadixKey [] None false;
  tr_root_P : P (rc_root c) = [];
  tr_root_V : V (rc_root c) = [];
  tr_node n : n ∈ L → n ≠ rc_root c →
    ∃ x p px v, rc_nodes c !! n = Some x ∧ node_ok c L P V n x p px v;
  tr_child n x ck m : n ∈ L → rc_nodes c !! n = Some x → tn_children x !! ck = Some m →
    m ∈ L ∧ m ≠ rc_root c ∧ ∃ y, rc_nodes c !! m = Some y ∧ tn_parent y = Some n
      ∧ ck = slot (rc_page_size c) (first_page c (tn_key y))
}.

Arguments ko_bigram {c k}.
Arguments ko_pages {c k}.
Arguments ko_pos {c k}.
Arguments no_parent {c L P V n x p px v}.
Arguments no_live {c L P V n x p px v}.
Arguments no_px {c L P V n x p px v}.
Arguments no_slot {c L P V n x p px v}.
Arguments no_key {c L P V n x p px v}.
Arguments no_value {c L P V n x p px v}.
Arguments no_len {c L P V n x p px v}.
Arguments no_P {c L P V n x p px v}.
Arguments no_V {c L P V n x p px v}.
Arguments tr_ps {c L P V}.
Arguments tr_fresh {c L P V}.
Arguments tr_root_live {c L P V}.
Arguments tr_root {c L P V}.
Arguments tr_root_P {c L P V}.
Arguments tr_root_V {c L P V}.
Arguments tr_node {c L P V}.
Arguments tr_child {c L P V}.

(** [m] is [n] or below it. *)
Definition parent_of (c : RadixCache) (m n : nat) : Prop :=
  ∃ x, rc_nodes c !! m = Some x ∧ tn_parent x = Some n.
Definition below (c : RadixCache) (m n : nat) : Prop := rtc (parent_of c) m n.

Section tree_facts.
Context (c : RadixCache) (L : gset nat) (P : nat → list qunit) (V : nat → list Z).
Context (T : tree c L P V).
Abbreviation ps := (rc_page_size c).
Abbreviation w := (if rc_is_eagle c then 2%nat else 1%nat).

Lemma tree_lookup n : n ∈ L → ∃ x, rc_nodes c !! n = Some x.
Proof.
  intros Hn. destruct (decide (n = rc_root c)) as [->|Hr].
  - destruct (tr_root T) as (x & Hx & _). eauto.
  - destruct (tr_node T n Hn Hr) as (x & p & px & v & Hx & _). eauto.
Qed.

Lemma key_ok_len k : key_ok c k → ps ≤ RadixKey_len k.
Proof.
  intros [_ [q Hq] Hp]. pose proof (tr_ps T). rewrite Hq in *.
  assert (0 < q) by nia. nia.
Qed.

Lemma key_ok_child_key k : key_ok c k → child_key k ps = Ok (slot ps (first_page c k)).
Proof.
  intros Hk. pose proof (tr_ps T). pose proof (key_ok_len _ Hk).
  rewrite child_key_slot by lia. done.
Qed.

Lemma key_ok_page k : key_ok c k → good_page ps w (first_page c k).
Proof.
  intros Hk. pose proof (tr_ps T). pose proof (key_ok_len _ Hk).
  pose proof (good_page_take ps k ltac:(lia)) as Hg. unfold unit_width in Hg.
  by rewrite (ko_bigram Hk) in Hg.
Qed.

Lemma first_page_inj k k' :
  key_ok c k → key_ok c k' → slot ps (first_page c k) = slot ps (first_page c k') →
  first_page c k = first_page c k'.
Proof.
  intros Hk Hk'. pose proof (tr_ps T).
  apply (slot_inj ps w); [done|destruct (rc_is_eagle c); lia|by apply key_ok_page..].
Qed.

Lemma first_page_extra k k' :
  key_ok c k → key_ok c k' → first_page c k = first_page c k' → extra_key k = extra_key k'.
Proof.
  intros Hk Hk' He. pose proof (tr_ps T). destruct (key_ok_page _ Hk) as (Hl & _ & _).
  destruct (first_page c k) as [|q l] eqn:E; [unfold zlen in Hl; simpl in Hl; lia|].
  assert (Hin : ∀ j, first_page c j = q :: l → q.1 = extra_key j).
  { intros j Hj. apply qunits_extra. rewrite <- (take_drop (Z.to_nat ps) (qunits j)).
    fold (first_page c j). rewrite Hj. set_solver. }
  by rewrite <- (Hin k), <- (Hin k').
Qed.

Lemma child_facts n x ck m :
  n ∈ L → rc_nodes c !! n = Some x → tn_children x !! ck = Some m →
  ∃ y v, rc_nodes c !! m = Some y ∧ node_ok c L P V m y n x v
         ∧ ck = slot ps (first_page c (tn_key y)).
Proof.
  intros Hn Hx Hm. destruct (tr_child T n x ck m Hn Hx Hm) as (HmL & Hmr & y & Hy & Hpar & Hck).
  destruct (tr_node T m HmL Hmr) as (y' & p & px & v & Hy' & Hok).
  assert (y' = y) by congruence. subst y'.
  assert (p = n) by (rewrite (no_parent Hok) in Hpar; congruence). subst p.
  assert (px = x) by (pose proof (no_px Hok); congruence). subst px. eauto.
Qed.

Lemma node_P_length n x p px v :
  node_ok c L P V n x p px v → zlen (P n) = zlen (P p) + RadixKey_len (tn_key x).
Proof. intros Hok. by rewrite (no_P Hok), zlen_app, zlen_qunits. Qed.

(** Induction from the root down the tree. *)
Lemma tree_ind (Q : nat → Prop) :
  Q (rc_root c) →
  (∀ n x p px v, n ∈ L → n ≠ rc_root c → rc_nodes c !! n = Some x →
     node_ok c L P V n x p px v → Q p → Q n) →
  ∀ n, n ∈ L → Q n.
Proof.
  intros HQr HQn n Hn. remember (length (P n)) as k eqn:Hk. revert n Hn Hk.
  induction (lt_wf k) as [k _ IH]. intros n Hn ->.
  destruct (decide (n = rc_root c)) as [->|Hr]; [done|].
  destruct (tr_node T n Hn Hr) as (x & p & px & v & Hx & Hok).
  apply (HQn n x p px v); try done. eapply IH; [|apply Hok|reflexivity].
  pose proof (node_P_length _ _ _ _ _ Hok). pose proof (ko_pos (no_key Hok)).
  unfold zlen in *. lia.
Qed.

Lemma P_V_length n : n ∈ L → zlen (V n) = zlen (P n).
Proof.
  revert n. apply tree_ind; [by rewrite (tr_root_P T), (tr_root_V T)|].
  intros n x p px v _ _ _ Hok IH.
  rewrite (node_P_length _ _ _ _ _ Hok), (no_V Hok), zlen_app, (no_len Hok). lia.
Qed.

Lemma P_pages n : n ∈ L → (ps | zlen (P n)).
Proof.
  revert n. apply tree_ind; [rewrite (tr_root_P T); apply Z.divide_0_r|].
  intros n x p px v _ _ _ Hok IH. rewrite (node_P_length _ _ _ _ _ Hok).
  apply Z.divide_add_r; [done|apply (no_key Hok)].
Qed.

Lemma below_root n : n ∈ L → below c n (rc_root c).
Proof.
  revert n. apply tree_ind; [apply rtc_refl|]. intros n x p px v _ _ Hx Hok IH.
  eapply rtc_l; [|exact IH]. exists x. split; [done|apply Hok].
Qed.

Lemma parent_of_live m n : m ∈ L → parent_of c m n → n ∈ L ∧ P n `prefix_of` P m ∧ m ≠ rc_root c.
Proof.
  intros Hm (x & Hx & Hp). destruct (decide (m = rc_root c)) as [->|Hr].
  { destruct (tr_root T) as (x' & Hx' & Hp' & _). congruence. }
  destruct (tr_node T m Hm Hr) as (x' & p & px & v & Hx' & Hok).
  assert (x' = x) by congruence. subst x'. rewrite (no_parent Hok) in Hp. inversion Hp; subst p.
  split_and!; [apply Hok| |done]. rewrite (no_P Hok). by apply prefix_app_r.
Qed.

Lemma below_live m n : m ∈ L → below c m n → n ∈ L ∧ P n `prefix_of` P m.
Proof.
  intros Hm Hb. revert Hm. induction Hb as [m|m k n Hp _ IH]; intros Hm; [done|].
  destruct (parent_of_live _ _ Hm Hp) as (Hk & Hpre & _). destruct (IH Hk) as [? ?].
  split; [done|]. by etrans.
Qed.

(** A live node strictly below [n] passes through the child of [n] it spells. *)
Lemma below_child m n x :
  m ∈ L → below c m n → m ≠ n → rc_nodes c !! n = Some x →
  ∃ ch y v, below c m ch ∧ rc_nodes c !! ch = Some y ∧ node_ok c L P V ch y n x v ∧ ch ∈ L
            ∧ tn_children x !! slot ps (first_page c (tn_key y)) = Some ch.
Proof.
  intros Hm Hb. revert Hm. induction Hb as [m|m k n Hp Hb IH]; intros Hm Hne Hx; [done|].
  destruct (parent_of_live _ _ Hm Hp) as (Hk & _ & Hmr).
  destruct (decide (k = n)) as [->|Hkn].
  - destruct (tr_node T m Hm Hmr) as (y & p & px & v & Hy & Hok).
    destruct Hp as (y' & Hy' & Hp). assert (y' = y) by congruence. subst y'.
    rewrite (no_parent Hok) in Hp. inversion Hp; subst p.
    assert (px = x) by (pose proof (no_px Hok); congruence). subst px.
    exists m, y, v. split_and!; [apply rtc_refl|done|done|done|apply Hok].
  - destruct (IH Hk Hkn Hx) as (ch & y & v & Hbc & ?). exists ch, y, v.
    split; [by eapply rtc_l|done].
Qed.

End tree_facts.

(** ** Updates that keep the shape *)

Definition shape (x : TreeNode) : gmap ckey nat * option nat * RadixKey * option (list Z) :=
  (tn_children x, tn_parent x, tn_key x, tn_value x).

(** The fields fixed by the constructor, and the root. *)
Definition config (c : RadixCache) :=
  (rc_disable c, rc_page_size c, rc_enable_kv_cache_events c, rc_is_eagle c,
   rc_disable_finished_insert c, rc_eviction_strategy c, rc_root c).

Lemma shape_lookup (m m' : gmap nat TreeNode) n x :
  shape <$> m' = shape <$> m → m !! n = Some x → ∃ x', m' !! n = Some x' ∧ shape x' = shape x.
Proof.
  intros Heq Hx. assert (Hl : (shape <$> m') !! n = (shape <$> m) !! n) by by rewrite Heq.
  rewrite !lookup_fmap, Hx in Hl. destruct (m' !! n) as [x'|]; simpl in Hl; [|done].
  exists x'. split; congruence.
Qed.

Lemma shape_alter (f : TreeNode → TreeNode) n (m : gmap nat TreeNode) :
  (∀ x, shape (f x) = shape x) → shape <$> alter f n m = shape <$> m.
Proof.
  intros Hf. apply map_eq. intros i. rewrite !lookup_fmap, lookup_alter.
  case_decide; [subst|done]. destruct (m !! i); simpl; [by rewrite Hf|done].
Qed.

Lemma tree_shape c c' L P V :
  config c' = config c → (rc_counter c ≤ rc_counter c')%nat →
  shape <$> rc_nodes c' = shape <$> rc_nodes c →
  tree c L P V → tree c' L P V.
Proof.
  intros Hcfg Hcnt Hsh T. unfold config in Hcfg. inversion Hcfg as [[H1 Hps H2 He H3 H4 Hr]].
  assert (Hfp : ∀ k, first_page c' k = first_page c k) by (intros; unfold first_page; by rewrite Hps).
  assert (Hko : ∀ k, key_ok c k → key_ok c' k) by (intros k [???]; split; by rewrite ?He, ?Hps).
  split; rewrite ?Hps, ?Hr.
  - apply T.
  - intros n x Hx. symmetry in Hsh. destruct (shape_lookup _ _ _ _ Hsh Hx) as (x' & Hx' & _).
    apply (tr_fresh T) in Hx'. lia.
  - apply T.
  - destruct (tr_root T) as (x & Hx & Ha & Hb & Hc).
    destruct (shape_lookup _ _ _ _ Hsh Hx) as (x' & Hx' & Hs). inversion Hs. exists x'. split_and!; congruence.
  - apply T.
  - apply T.
  - intros n Hn Hnr. destruct (tr_node T n Hn Hnr) as (x & p & px & v & Hx & Hok).
    destruct (shape_lookup _ _ _ _ Hsh Hx) as (x' & Hx' & Hs).
    destruct (shape_lookup _ _ _ _ Hsh (no_px Hok)) as (px' & Hpx' & Hps').
    unfold shape in Hs, Hps'. inversion Hs as [[S1 S2 S3 S4]]. inversion Hps' as [[Q1 Q2 Q3 Q4]].
    exists x', p, px', v. split; [done|].
    destruct Hok. split; rewrite ?S2, ?S3, ?S4, ?Q1, ?Hps, ?Hfp; try done. by apply Hko.
  - intros n x' ck m Hn Hx' Hm. symmetry in Hsh.
    destruct (shape_lookup _ _ _ _ Hsh Hx') as (x & Hx & Hs). inversion Hs as [[S1 S2 S3 S4]].
    rewrite <- S1 in Hm.
    destruct (tr_child T n x ck m Hn Hx Hm) as (HmL & Hmr & y & Hy & Hpar & Hck).
    symmetry in Hsh. destruct (shape_lookup _ _ _ _ Hsh Hy) as (y' & Hy' & Hs').
    inversion Hs' as [[S1' S2' S3' S4']]. split_and!; [done|done|]. exists y'.
    rewrite S2', S3', Hfp. done.
Qed.

Lemma tree_upd_node c L P V n f :
  (∀ x, shape (f x) = shape x) → tree c L P V → tree (upd_node n f c) L P V.
Proof. intros Hf. apply tree_shape; [done|done|]. by apply shape_alter. Qed.

(** ** Splitting a node *)

Lemma alter_lookup_Some (f : TreeNode → TreeNode) n (m : gmap nat TreeNode) x :
  m !! n = Some x → alter f n m = <[n := f x]> m.
Proof.
  intros Hx. apply map_eq. intros i. destruct (decide (i = n)) as [->|].
  - by rewrite lookup_alter_eq, lookup_insert_eq, Hx.
  - by rewrite lookup_alter_ne, lookup_insert_ne.
Qed.

Definition fun_upd {A} (f : nat → A) (n : nat) (a : A) (m : nat) : A :=
  if decide (m = n) then a else f m.

Lemma fun_upd_eq {A} (f : nat → A) n a : fun_upd f n a n = a.
Proof. unfold fun_upd. by rewrite decide_True. Qed.

Lemma fun_upd_ne {A} (f : nat → A) n a m : m ≠ n → fun_upd f n a m = f m.
Proof. intros. unfold fun_upd. by rewrite decide_False. Qed.

Section split.
Context (monotonic : nat → Z).
Context (c : RadixCache) (L : gset nat) (P : nat → list qunit) (V : nat → list Z).
Context (T : tree c L P V).
Context (n : nat) (x : TreeNode) (p : nat) (px : TreeNode) (v : list Z) (pl : Z).
Context (HnL : n ∈ L) (Hx : rc_nodes c !! n = Some x) (Hok : node_ok c L P V n x p px v).
Context (Hpl : rc_page_size c ≤ pl < RadixKey_len (tn_key x)) (Hdiv : (rc_page_size c | pl)).
Abbreviation ps := (rc_page_size c).
Abbreviation id := (rc_counter c).

Definition split_upper : TreeNode :=
  mkTreeNode {[slot ps (first_page c (RadixKey_from (tn_key x) pl)) := n]} (Some p)
    (RadixKey_to (tn_key x) pl) (Some (v⟨:pl⟩)) (tn_lock_ref x) (monotonic (rc_tick c))
    (monotonic (S (rc_tick c))) (tn_hit_count x) 0 None
    (split_node_hash_value (tn_hash_value x) pl ps).1 (tn_priority x).

Definition split_lower : TreeNode :=
  mkTreeNode (tn_children x) (Some id) (RadixKey_from (tn_key x) pl) (Some (v⟨pl:⟩))
    (tn_lock_ref x) (tn_last_access_time x) (tn_creation_time x) (tn_hit_count x)
    (tn_host_ref_counter x) (tn_host_value x)
    (split_node_hash_value (tn_hash_value x) pl ps).2 (tn_priority x).

Definition split_parent : TreeNode :=
  set_tn_children (<[slot ps (first_page c (tn_key x)) := id]> (tn_children px)) px.

Definition split_nodes : gmap nat TreeNode :=
  <[p := split_parent]> (<[n := split_lower]> (<[id := split_upper]> (rc_nodes c))).

Definition split_state : RadixCache :=
  set_rc_nodes split_nodes (set_rc_tick (S (S (rc_tick c))) (set_rc_counter (S id) c)).

Lemma n_ne_root : n ≠ rc_root c.
Proof.
  intros ->. destruct (tr_root T) as (x' & Hx' & Hp & _).
  pose proof (no_parent Hok). congruence.
Qed.

Lemma p_ne_n : p ≠ n.
Proof.
  intros E. pose proof (node_P_length _ _ _ _ _ _ _ _ _ Hok) as Hl. rewrite E in Hl.
  pose proof (ko_pos (no_key Hok)). lia.
Qed.

Lemma live_ne_id m : m ∈ L → m ≠ id.
Proof.
  intros Hm ->. destruct (tree_lookup _ _ _ _ T _ Hm) as (y & Hy). apply (tr_fresh T) in Hy. lia.
Qed.

Lemma rest_key_ok : key_ok c (RadixKey_from (tn_key x) pl).
Proof.
  pose proof (no_key Hok) as [Hb Hd Hp]. pose proof (tr_ps T).
  split.
  - unfold RadixKey_from. by rewrite slice_is_bigram.
  - rewrite RadixKey_len_from by lia. by apply Z.divide_sub_r.
  - rewrite RadixKey_len_from by lia. lia.
Qed.

Lemma upper_key_ok : key_ok c (RadixKey_to (tn_key x) pl).
Proof.
  pose proof (no_key Hok) as [Hb Hd Hp]. pose proof (tr_ps T).
  split.
  - unfold RadixKey_to. by rewrite slice_is_bigram.
  - rewrite RadixKey_len_to by lia. done.
  - rewrite RadixKey_len_to by lia. lia.
Qed.

Lemma upper_first_page : first_page c (RadixKey_to (tn_key x) pl) = first_page c (tn_key x).
Proof.
  pose proof (tr_ps T). unfold first_page. rewrite qunits_to by lia. rewrite take_take. f_equal. lia.
Qed.

Lemma split_node_eq : split_node monotonic c (tn_key x) n pl = Ok (id, split_state).
Proof.
  unfold split_node, get_node. rewrite Hx. cbn [mbind res_bind].
  rewrite (key_ok_child_key _ _ _ _ T _ rest_key_ok). cbn [mbind res_bind].
  unfold get_value. rewrite (no_value Hok). cbn [mbind res_bind].
  rewrite (no_parent Hok). cbn [get_ref mbind res_bind].
  rewrite (key_ok_child_key _ _ _ _ T _ (no_key Hok)). cbn [mbind res_bind].
  destruct (split_node_hash_value (tn_hash_value x) pl ps) as [h1 h2] eqn:Eh.
  unfold new_node, upd_node. cbn.
  pose proof p_ne_n. pose proof (live_ne_id _ HnL). pose proof (live_ne_id _ (no_live Hok)).
  rewrite lookup_alter_ne, lookup_insert_ne by done. rewrite (no_px Hok). cbn.
  do 2 f_equal. unfold split_state, split_nodes, set_rc_nodes, set_rc_tick, set_rc_counter. cbn.
  f_equal.
  rewrite (alter_lookup_Some _ n _ x) by by rewrite lookup_insert_ne.
  rewrite (alter_lookup_Some _ p _ px) by (rewrite !lookup_insert_ne by done; apply Hok).
  unfold split_lower, split_upper, split_parent. by rewrite Eh.
Qed.

Lemma split_lookup_p : split_nodes !! p = Some split_parent.
Proof. unfold split_nodes. by rewrite lookup_insert_eq. Qed.

Lemma split_lookup_n : split_nodes !! n = Some split_lower.
Proof. unfold split_nodes. rewrite lookup_insert_ne by apply p_ne_n. by rewrite lookup_insert_eq. Qed.

Lemma split_lookup_id : split_nodes !! id = Some split_upper.
Proof.
  unfold split_nodes. rewrite lookup_insert_ne by (apply live_ne_id, Hok).
  rewrite lookup_insert_ne by (by apply live_ne_id). by rewrite lookup_insert_eq.
Qed.

Lemma split_lookup_ne m : m ≠ p → m ≠ n → m ≠ id → split_nodes !! m = rc_nodes c !! m.
Proof. intros. unfold split_nodes. by rewrite !lookup_insert_ne. Qed.

Definition split_P : nat → list qunit := fun_upd P id (P p ++ take (Z.to_nat pl) (qunits (tn_key x))).
Definition split_V : nat → list Z := fun_upd V id (V p ++ take (Z.to_nat pl) v).

Lemma split_P_live m : m ∈ L → split_P m = P m.
Proof. intros. by apply fun_upd_ne, live_ne_id. Qed.

Lemma split_V_live m : m ∈ L → split_V m = V m.
Proof. intros. by apply fun_upd_ne, live_ne_id. Qed.

(** The keys and the parents of the other live nodes stay. *)
Lemma split_lookup_live m y :
  m ∈ L → m ≠ n → rc_nodes c !! m = Some y →
  ∃ y', split_nodes !! m = Some y' ∧ tn_parent y' = tn_parent y ∧ tn_key y' = tn_key y
        ∧ tn_value y' = tn_value y
        ∧ tn_children y' = if decide (m = p) then tn_children split_parent else tn_children y.
Proof.
  intros Hm Hmn Hy. destruct (decide (m = p)) as [->|Hmp].
  - exists split_parent. rewrite split_lookup_p. assert (y = px) as -> by (pose proof (no_px Hok); congruence).
    done.
  - exists y. rewrite split_lookup_ne; [done..|by apply live_ne_id].
Qed.

Lemma slot_of_n m y :
  m ∈ L → rc_nodes c !! m = Some y → tn_parent y = Some p →
  slot ps (first_page c (tn_key y)) = slot ps (first_page c (tn_key x)) → m = n.
Proof.
  intros Hm Hy Hpar Hs. assert (Hmr : m ≠ rc_root c).
  { intros ->. destruct (tr_root T) as (y' & Hy' & Hp & _). congruence. }
  destruct (tr_node T m Hm Hmr) as (y' & p' & px' & v' & Hy' & Hok').
  assert (y' = y) by congruence. subst y'.
  assert (p' = p) by (pose proof (no_parent Hok'); congruence). subst p'.
  assert (px' = px) by (pose proof (no_px Hok'); pose proof (no_px Hok); congruence). subst px'.
  pose proof (no_slot Hok'). pose proof (no_slot Hok). rewrite Hs in *. congruence.
Qed.

Lemma split_node_live m :
  m ∈ L → m ≠ rc_root c → m ≠ n →
  ∃ y q qx u, split_nodes !! m = Some y
    ∧ node_ok split_state (L ∪ {[id]}) split_P split_V m y q qx u.
Proof.
  intros Hm Hmr Hmn. destruct (tr_node T m Hm Hmr) as (y & q & qx & u & Hy & Hok').
  destruct (split_lookup_live m y Hm Hmn Hy) as (y' & Hy' & E1 & E2 & E3 & _).
  pose proof (no_live Hok') as Hq.
  destruct (decide (q = n)) as [->|Hqn].
  - (* a child of the node that was split *)
    assert (qx = x) by (pose proof (no_px Hok'); congruence). subst qx.
    exists y', n, split_lower, u. split; [done|]. destruct Hok' as [A1 A2 A3 A4 A5 A6 A7 A8 A9].
    split; rewrite ?E1, ?E2, ?E3, ?split_P_live, ?split_V_live by done; try done;
      [set_solver|apply split_lookup_n|by destruct A5].
  - destruct (split_lookup_live q qx Hq Hqn (no_px Hok')) as (qx' & Hqx' & _ & _ & _ & F4).
    exists y', q, qx', u. split; [done|]. destruct Hok' as [A1 A2 A3 A4 A5 A6 A7 A8 A9].
    split; rewrite ?E1, ?E2, ?E3, ?split_P_live, ?split_V_live by done; try done;
      [set_solver| |by destruct A5].
    rewrite F4. case_decide as Hd; [|done]. subst q.
    assert (qx = px) by (pose proof (no_px Hok); congruence). subst qx.
    unfold split_parent. simpl. rewrite lookup_insert_ne; [done|]. intros Heq.
    apply Hmn. by apply (slot_of_n m y).
Qed.

Lemma split_node_lower :
  node_ok split_state (L ∪ {[id]}) split_P split_V n split_lower id split_upper (v⟨pl:⟩).
Proof.
  pose proof (tr_ps T). pose proof (no_len Hok).
  split; simpl; try done.
  - set_solver.
  - apply split_lookup_id.
  - change (first_page split_state) with (first_page c). by rewrite lookup_singleton_eq.
  - by destruct rest_key_ok.
  - rewrite zlen_slice_from, RadixKey_len_from by lia. lia.
  - rewrite split_P_live by done. unfold split_P. rewrite fun_upd_eq, qunits_from by lia.
    rewrite (no_P Hok), <- app_assoc. by rewrite take_drop.
  - rewrite split_V_live by done. unfold split_V. rewrite fun_upd_eq, slice_from_drop by lia.
    rewrite (no_V Hok), <- app_assoc. by rewrite take_drop.
Qed.

Lemma split_node_upper :
  node_ok split_state (L ∪ {[id]}) split_P split_V id split_upper p split_parent (v⟨:pl⟩).
Proof.
  pose proof (tr_ps T). pose proof (no_len Hok). pose proof (no_live Hok).
  split; simpl; try done.
  - set_solver.
  - apply split_lookup_p.
  - change (first_page split_state) with (first_page c). rewrite upper_first_page.
    by rewrite lookup_insert_eq.
  - by destruct upper_key_ok.
  - rewrite zlen_slice_to, RadixKey_len_to by lia. lia.
  - rewrite (split_P_live p) by done. unfold split_P. by rewrite fun_upd_eq, qunits_to by lia.
  - rewrite (split_V_live p) by done. unfold split_V. by rewrite fun_upd_eq, slice_to_take by lia.
Qed.

(** The link from a live node to a child, when the child is not the one split off. *)
Lemma split_child_link k m y ck :
  m ∈ L → m ≠ rc_root c → m ≠ n → rc_nodes c !! m = Some y → tn_parent y = Some k →
  ck = slot ps (first_page c (tn_key y)) →
  m ∈ L ∪ {[id]} ∧ m ≠ rc_root c ∧ ∃ y', split_nodes !! m = Some y' ∧ tn_parent y' = Some k
    ∧ ck = slot ps (first_page c (tn_key y')).
Proof.
  intros Hm Hmr Hmn Hy Hp Hck.
  destruct (split_lookup_live m y Hm Hmn Hy) as (y' & Hy' & E1 & E2 & _ & _).
  split_and!; [set_solver|done|]. exists y'. rewrite E1, E2. done.
Qed.

Lemma split_children k y ck m :
  k ∈ L ∪ {[id]} → split_nodes !! k = Some y → tn_children y !! ck = Some m →
  m ∈ L ∪ {[id]} ∧ m ≠ rc_root c ∧ ∃ z, split_nodes !! m = Some z ∧ tn_parent z = Some k
    ∧ ck = slot ps (first_page c (tn_key z)).
Proof.
  intros Hk Hy Hm. destruct (decide (k = id)) as [->|Hkid].
  { rewrite split_lookup_id in Hy. inversion Hy; subst y. simpl in Hm.
    apply lookup_singleton_Some in Hm as [<- <-].
    split_and!; [set_solver|apply n_ne_root|]. exists split_lower.
    split_and!; [apply split_lookup_n|done|done]. }
  assert (HkL : k ∈ L) by set_solver. destruct (tree_lookup _ _ _ _ T k HkL) as (y0 & Hy0).
  assert (Hold : tn_children y0 !! ck = Some m → m ≠ n →
    m ∈ L ∪ {[id]} ∧ m ≠ rc_root c ∧ ∃ z, split_nodes !! m = Some z ∧ tn_parent z = Some k
    ∧ ck = slot ps (first_page c (tn_key z))).
  { intros Hm0 Hmn. destruct (tr_child T k y0 ck m HkL Hy0 Hm0) as (HmL & Hmr & z & Hz & Hzp & Hck).
    by apply (split_child_link k m z). }
  destruct (decide (k = n)) as [->|Hkn].
  { rewrite split_lookup_n in Hy. inversion Hy; subst y. simpl in Hm.
    assert (y0 = x) by congruence. subst y0. apply Hold; [done|]. intros ->.
    destruct (tr_child T n x ck n HnL Hx Hm) as (_ & _ & z & Hz & Hzp & _).
    assert (z = x) by congruence. subst z. pose proof p_ne_n. pose proof (no_parent Hok). congruence. }
  destruct (split_lookup_live k y0 HkL Hkn Hy0) as (y' & Hy' & _ & _ & _ & Hch).
  assert (y' = y) by congruence. subst y'. rewrite Hch in Hm. case_decide as Hkp.
  - subst k. assert (y0 = px) by (pose proof (no_px Hok); congruence). subst y0.
    simpl in Hm. apply lookup_insert_Some in Hm as [[<- <-]|[Hne Hm]].
    + split_and!; [set_solver|intros E; apply (live_ne_id _ (tr_root_live T)); done|].
      exists split_upper. rewrite <- upper_first_page at 1.
      split_and!; [apply split_lookup_id|done|done].
    + apply Hold; [done|]. intros ->.
      destruct (tr_child T p px ck n HkL Hy0 Hm) as (_ & _ & z & Hz & _ & Hck).
      assert (z = x) by congruence. by subst z.
  - apply Hold; [done|]. intros ->.
    destruct (tr_child T k y0 ck n HkL Hy0 Hm) as (_ & _ & z & Hz & Hzp & _).
    assert (z = x) by congruence. subst z. pose proof (no_parent Hok). congruence.
Qed.

Lemma split_tree : tree split_state (L ∪ {[id]}) split_P split_V.
Proof.
  pose proof (tr_root_live T) as Hr. split; simpl.
  - apply T.
  - intros m y Hy. destruct (decide (m = id)) as [->|]; [lia|].
    destruct (decide (m = p)) as [->|]; [pose proof (tr_fresh T _ _ (no_px Hok)); lia|].
    destruct (decide (m = n)) as [->|]; [pose proof (tr_fresh T _ _ Hx); lia|].
    rewrite split_lookup_ne in Hy by done. pose proof (tr_fresh T _ _ Hy). lia.
  - set_solver.
  - destruct (tr_root T) as (y & Hy & E1 & E2 & E3).
    destruct (split_lookup_live _ y Hr (not_eq_sym n_ne_root) Hy) as (y' & Hy' & F1 & F2 & F3 & _).
    exists y'. split_and!; congruence.
  - rewrite split_P_live by done. apply T.
  - rewrite split_V_live by done. apply T.
  - intros m Hm Hmr. destruct (decide (m = id)) as [->|].
    { exists split_upper, p, split_parent, (v⟨:pl⟩).
      split; [apply split_lookup_id|apply split_node_upper]. }
    destruct (decide (m = n)) as [->|].
    { exists split_lower, id, split_upper, (v⟨pl:⟩).
      split; [apply split_lookup_n|apply split_node_lower]. }
    apply split_node_live; [set_solver|done|done].
  - apply split_children.
Qed.

End split.

(** ** Paths determine nodes *)

Lemma prefix_page {A} (a l k : list A) (n : nat) :
  a ++ l `prefix_of` k → (n ≤ length l)%nat → take n (drop (length a) k) = take n l.
Proof. intros [r ->] Hn. rewrite <- app_assoc, drop_app_length. by rewrite take_app_le. Qed.

Section paths.
Context (c : RadixCache) (L : gset nat) (P : nat → list qunit) (V : nat → list Z).
Context (T : tree c L P V).
Abbreviation ps := (rc_page_size c).

Lemma first_page_prefix a k h :
  key_ok c k → P a ++ qunits k `prefix_of` h →
  take (Z.to_nat ps) (drop (length (P a)) h) = first_page c k.
Proof.
  intros Hk Hp. apply prefix_page with (l := qunits k); [done|].
  pose proof (key_ok_len _ _ _ _ T _ Hk). rewrite <- zlen_qunits in *. unfold zlen in *. lia.
Qed.

(** A live node that continues [P n] by the first page of [k] passes through the child of [n]
    in the slot of [k]. *)
Lemma descend n x h k :
  n ∈ L → h ∈ L → rc_nodes c !! n = Some x → below c h n → key_ok c k →
  P n ++ first_page c k `prefix_of` P h →
  ∃ ch y v, tn_children x !! slot ps (first_page c k) = Some ch ∧ below c h ch ∧ ch ∈ L
    ∧ rc_nodes c !! ch = Some y ∧ node_ok c L P V ch y n x v ∧ first_page c (tn_key y) = first_page c k.
Proof.
  intros Hn Hh Hx Hb Hk Hp. pose proof (tr_ps T).
  destruct (key_ok_page _ _ _ _ T _ Hk) as (Hlen & _ & _).
  assert (Hne : h ≠ n).
  { intros ->. apply prefix_length in Hp. rewrite length_app in Hp. unfold zlen in Hlen. lia. }
  destruct (below_child _ _ _ _ T h n x Hh Hb Hne Hx) as (ch & y & v & Hbc & Hy & Hok & HcL & Hslot).
  assert (Hfp : first_page c (tn_key y) = first_page c k).
  { destruct (below_live _ _ _ _ T h ch Hh Hbc) as [_ Hpre]. rewrite (no_P Hok) in Hpre.
    rewrite <- (first_page_prefix n (tn_key y) (P h) (no_key Hok) Hpre).
    rewrite (prefix_page _ _ _ (Z.to_nat ps) Hp) by (unfold zlen in Hlen; lia).
    apply take_ge. unfold zlen in Hlen. lia. }
  rewrite Hfp in Hslot. by exists ch, y, v.
Qed.

Lemma prefix_below n h : n ∈ L → h ∈ L → P n `prefix_of` P h → below c h n.
Proof.
  intros Hn Hh. revert n Hn. apply (tree_ind _ _ _ _ T (λ n, P n `prefix_of` P h → below c h n)).
  - intros _. by apply (below_root _ _ _ _ T).
  - intros n x p px v Hn Hr Hx Hok IH Hp. rewrite (no_P Hok) in Hp.
    assert (Hb : below c h p) by (apply IH; etrans; [|exact Hp]; by apply prefix_app_r).
    destruct (descend p px h (tn_key x)) as (ch & y & u & Hslot & Hbc & _);
      [apply Hok|done|apply Hok|done|apply Hok| |].
    + etrans; [|exact Hp]. apply prefix_app. unfold first_page. exists (drop (Z.to_nat ps) (qunits (tn_key x))).
      by rewrite take_drop.
    + rewrite (no_slot Hok) in Hslot. by inversion Hslot; subst.
Qed.

Lemma P_inj n m : n ∈ L → m ∈ L → P n = P m → n = m.
Proof.
  intros Hn Hm He. assert (Hb : below c m n) by (apply prefix_below; [done|done|by rewrite He]).
  destruct Hb as [|m k n Hp Hb]; [done|].
  destruct (parent_of_live _ _ _ _ T m k Hm Hp) as (Hk & _ & Hmr).
  destruct (tr_node T m Hm Hmr) as (x & p & px & v & Hx & Hok).
  destruct Hp as (x' & Hx' & Hp'). assert (x' = x) by congruence. subst x'.
  assert (p = k) by (pose proof (no_parent Hok); congruence). subst p.
  destruct (below_live _ _ _ _ T k n Hk Hb) as [_ Hpre%prefix_length].
  pose proof (node_P_length _ _ _ _ _ _ _ _ _ Hok). pose proof (ko_pos (no_key Hok)).
  rewrite He in Hpre. unfold zlen in *. lia.
Qed.

(** ** Comparing a key with a child *)

Lemma child_match n x k ch :
  n ∈ L → rc_nodes c !! n = Some x → key_ok c k →
  tn_children x !! slot ps (first_page c k) = Some ch →
  ∃ y v pl, rc_nodes c !! ch = Some y ∧ node_ok c L P V ch y n x v ∧ ch ∈ L
    ∧ first_page c (tn_key y) = first_page c k ∧ extra_key (tn_key y) = extra_key k
    ∧ RadixKey_match (tn_key y) k ps = Ok pl
    ∧ pl = page_match ps (qunits (tn_key y)) (qunits k)
    ∧ ps ≤ pl ∧ pl ≤ RadixKey_len (tn_key y) ∧ pl ≤ RadixKey_len k ∧ (ps | pl).
Proof.
  intros Hn Hx Hk Hch. pose proof (tr_ps T).
  destruct (child_facts _ _ _ _ T n x _ ch Hn Hx Hch) as (y & v & Hy & Hok & Hck).
  pose proof (no_key Hok) as Hky.
  assert (Hfp : first_page c (tn_key y) = first_page c k)
    by (symmetry; by apply (first_page_inj _ _ _ _ T)).
  pose proof (first_page_extra _ _ _ _ T _ _ Hky Hk Hfp) as He.
  set (pl := page_match ps (qunits (tn_key y)) (qunits k)).
  assert (Hc : ps ≤ common_len (qunits (tn_key y)) (qunits k)).
  { pose proof (key_ok_len _ _ _ _ T _ Hky). pose proof (key_ok_len _ _ _ _ T _ Hk).
    apply common_len_ge; rewrite ?zlen_qunits; [lia..|exact Hfp]. }
  pose proof (page_match_bounds ps (qunits (tn_key y)) (qunits k) ltac:(lia)) as (B1 & B2 & B3).
  pose proof (common_len_bounds (qunits (tn_key y)) (qunits k)) as (_ & B4 & B5).
  rewrite !zlen_qunits in *. fold pl in B1, B2, B3.
  assert (Hd : (ps | pl)) by apply Z.divide_factor_r.
  assert (ps ≤ pl).
  { destruct Hd as [q Hq]. rewrite Hq in *. assert (0 < q) by nia. nia. }
  exists y, v, pl. split_and!; try done; try lia.
  - destruct (tr_child T n x _ ch Hn Hx Hch) as (? & _). done.
  - rewrite RadixKey_match_units; [|lia|done| |apply Hky|apply Hk].
    + unfold pl, page_match. by rewrite common_len_qunits.
    + by rewrite (ko_bigram Hky), (ko_bigram Hk).
Qed.

End paths.
