(* ===== verification/RadixAcct.v ===== *)
(** * Sizes, locks and leaves of the radix cache

    The full invariant [inv]: the tree of [RadixInv], the size counters and the set of evictable
    leaves ([acct]), and the lock counts ([locks]): the lock count of a node is the number of
    locks held at or below it.  [H] lists the nodes that clients hold locks on. *)

From S2P Require Import Prelude RadixKey PageHash RadixTree RadixInv.

(** ** Sums over sets of nodes *)

Definition sum_over (f : nat → Z) (L : gset nat) : Z := sumZ (map f (elements L)).

Lemma sum_over_ext f g L : (∀ n, n ∈ L → f n = g n) → sum_over f L = sum_over g L.
Proof.
  intros He. unfold sum_over. f_equal. apply map_ext_in. intros n Hn%list_elem_of_In.
  apply He. set_solver.
Qed.

Lemma sumZ_const_0 {A} (l : list A) : sumZ (map (λ _, 0) l) = 0.
Proof. induction l; simpl; lia. Qed.

Lemma sum_over_insert f L n : n ∉ L → sum_over f (L ∪ {[n]}) = sum_over f L + f n.
Proof.
  intros Hn. unfold sum_over. rewrite (union_comm_L L).
  rewrite (sumZ_permutation _ (map f (n :: elements L))) by (by rewrite elements_union_singleton).
  simpl. lia.
Qed.

Lemma sum_over_remove f L n : n ∈ L → sum_over f (L ∖ {[n]}) = sum_over f L - f n.
Proof.
  intros Hn. assert (HL : L = L ∖ {[n]} ∪ {[n]}).
  { apply set_eq. intros m. destruct (decide (m = n)); set_solver. }
  rewrite HL at 2. rewrite sum_over_insert by set_solver. lia.
Qed.

Lemma sum_over_update f g L n :
  n ∈ L → (∀ m, m ∈ L → m ≠ n → g m = f m) → sum_over g L = sum_over f L - f n + g n.
Proof.
  intros Hn He. pose proof (sum_over_remove g L n Hn). pose proof (sum_over_remove f L n Hn).
  rewrite (sum_over_ext g f (L ∖ {[n]})) in * by set_solver. lia.
Qed.

Lemma sum_over_nonneg f L : (∀ n, n ∈ L → 0 ≤ f n) → 0 ≤ sum_over f L.
Proof.
  intros Hf. apply sumZ_nonneg, Forall_fmap, Forall_forall. intros n Hn. apply Hf. set_solver.
Qed.

(** ** The invariant *)

Record ghost := mkGhost {
  gL : gset nat;
  gP : nat → list qunit;
  gV : nat → list Z
}.

Definition node_len (c : RadixCache) (n : nat) : Z :=
  match rc_nodes c !! n with Some x => RadixKey_len (tn_key x) | None => 0 end.

Definition node_lock (c : RadixCache) (n : nat) : Z :=
  match rc_nodes c !! n with Some x => tn_lock_ref x | None => 0 end.

Definition unlocked_len (c : RadixCache) (n : nat) : Z :=
  if bool_decide (node_lock c n = 0) then node_len c n else 0.

Definition locked_len (c : RadixCache) (n : nat) : Z :=
  if bool_decide (node_lock c n = 0) then 0 else node_len c n.

Definition is_leaf (c : RadixCache) (n : nat) : Prop :=
  match rc_nodes c !! n with
  | Some x => tn_lock_ref x = 0 ∧ tn_children x = ∅
  | None => False
  end.

#[export] Instance is_leaf_dec c n : Decision (is_leaf c n).
Proof. unfold is_leaf. destruct (rc_nodes c !! n); apply _. Defined.

Record acct (c : RadixCache) (L : gset nat) : Prop := {
  ac_evictable : rc_evictable_size c = sum_over (unlocked_len c) L;
  ac_protected : rc_protected_size c = sum_over (locked_len c) L;
  ac_leaves : rc_evictable_leaves c = filter (is_leaf c) L
}.

(** The locks held at or below [n]. *)
Definition held_below (g : ghost) (H : list nat) (n : nat) : Z :=
  zlen (filter (λ h, gP g n `prefix_of` gP g h) H).

Record locks (c : RadixCache) (g : ghost) (H : list nat) : Prop := {
  lk_held h : h ∈ H → h ∈ gL g ∧ h ≠ rc_root c;
  lk_root : node_lock c (rc_root c) = 1;
  lk_node n : n ∈ gL g → n ≠ rc_root c → node_lock c n = held_below g H n
}.

Record inv (c : RadixCache) (g : ghost) (H : list nat) : Prop := {
  iv_tree : tree c (gL g) (gP g) (gV g);
  iv_acct : acct c (gL g);
  iv_locks : locks c g H
}.

Arguments ac_evictable {c L}.
Arguments ac_protected {c L}.
Arguments ac_leaves {c L}.
Arguments lk_held {c g H}.
Arguments lk_root {c g H}.
Arguments lk_node {c g H}.
Arguments iv_tree {c g H}.
Arguments iv_acct {c g H}.
Arguments iv_locks {c g H}.

Lemma held_below_nonneg g H n : 0 ≤ held_below g H n.
Proof. apply zlen_nonneg. Qed.

Lemma lock_nonneg c g H n : inv c g H → n ∈ gL g → 0 ≤ node_lock c n.
Proof.
  intros Hi Hn. destruct (decide (n = rc_root c)) as [->|Hr].
  - rewrite (lk_root (iv_locks Hi)). lia.
  - rewrite (lk_node (iv_locks Hi)) by done. apply held_below_nonneg.
Qed.

(** *** States with the same nodes up to access data *)

(** What the invariant reads of a node. *)
Definition core (x : TreeNode) := (shape x, tn_lock_ref x).

Lemma core_shape (m m' : gmap nat TreeNode) : core <$> m' = core <$> m → shape <$> m' = shape <$> m.
Proof.
  intros He. apply (f_equal (fmap fst)) in He. rewrite <- !map_fmap_compose in He. exact He.
Qed.

Lemma core_lookup (m m' : gmap nat TreeNode) n :
  core <$> m' = core <$> m → core <$> m' !! n = core <$> m !! n.
Proof. intros He. by rewrite <- !lookup_fmap, He. Qed.

Lemma core_alter (f : TreeNode → TreeNode) n (m : gmap nat TreeNode) :
  (∀ x, core (f x) = core x) → core <$> alter f n m = core <$> m.
Proof.
  intros Hf. apply map_eq. intros i. rewrite !lookup_fmap, lookup_alter.
  case_decide; [subst|done]. destruct (m !! i); simpl; [by rewrite Hf|done].
Qed.

Section core.
Context (c c' : RadixCache) (He : core <$> rc_nodes c' = core <$> rc_nodes c).

Lemma core_node_len n : node_len c' n = node_len c n.
Proof.
  pose proof (core_lookup _ _ n He) as Hl. unfold node_len.
  destruct (rc_nodes c' !! n), (rc_nodes c !! n); simpl in Hl; try done. inversion Hl. congruence.
Qed.

Lemma core_node_lock n : node_lock c' n = node_lock c n.
Proof.
  pose proof (core_lookup _ _ n He) as Hl. unfold node_lock.
  destruct (rc_nodes c' !! n), (rc_nodes c !! n); simpl in Hl; try done. by inversion Hl.
Qed.

Lemma core_is_leaf n : is_leaf c' n ↔ is_leaf c n.
Proof.
  pose proof (core_lookup _ _ n He) as Hl. unfold is_leaf.
  destruct (rc_nodes c' !! n), (rc_nodes c !! n); simpl in Hl; try done.
  inversion Hl as [[E1 E2 E3 E4 E5]]. by rewrite E1, E5.
Qed.

End core.

Lemma acct_core c c' L :
  core <$> rc_nodes c' = core <$> rc_nodes c →
  rc_evictable_size c' = rc_evictable_size c → rc_protected_size c' = rc_protected_size c →
  rc_evictable_leaves c' = rc_evictable_leaves c → acct c L → acct c' L.
Proof.
  intros He E1 E2 E3 [A1 A2 A3].
  split; rewrite ?E1, ?E2, ?E3, ?A1, ?A2, ?A3; [apply sum_over_ext; intros; unfold unlocked_len
    |apply sum_over_ext; intros; unfold locked_len|].
  - by rewrite (core_node_lock c c'), (core_node_len c c').
  - by rewrite (core_node_lock c c'), (core_node_len c c').
  - apply set_eq. intros n. rewrite !elem_of_filter. by rewrite (core_is_leaf c c').
Qed.

Lemma inv_core c c' g H :
  config c' = config c → (rc_counter c ≤ rc_counter c')%nat →
  core <$> rc_nodes c' = core <$> rc_nodes c →
  rc_evictable_size c' = rc_evictable_size c → rc_protected_size c' = rc_protected_size c →
  rc_evictable_leaves c' = rc_evictable_leaves c → inv c g H → inv c' g H.
Proof.
  intros Hcfg Hcnt He E1 E2 E3 [T A K]. assert (Hr : rc_root c' = rc_root c) by (by inversion Hcfg).
  split.
  - eapply tree_shape; try done. by apply core_shape.
  - by eapply acct_core.
  - destruct K as [K1 K2 K3]. split; rewrite ?Hr; [done|by rewrite (core_node_lock c c')|].
    intros n Hn Hnr. rewrite (core_node_lock c c') by done. by apply K3.
Qed.

Lemma inv_upd_node c g H n f :
  (∀ x, core (f x) = core x) → inv c g H → inv (upd_node n f c) g H.
Proof. intros Hf. apply inv_core; try done. by apply core_alter. Qed.

(** ** Leaf status *)

Section leaf.
Context (c : RadixCache) (L : gset nat) (P : nat → list qunit) (V : nat → list Z).
Context (T : tree c L P V).

Lemma live_not_evicted n x : n ∈ L → rc_nodes c !! n = Some x → evicted x = false.
Proof.
  intros Hn Hx. unfold evicted. destruct (decide (n = rc_root c)) as [->|Hr].
  - destruct (tr_root T) as (x' & Hx' & _ & Hv & _). assert (x' = x) by congruence. subst.
    by rewrite Hv.
  - destruct (tr_node T n Hn Hr) as (x' & p & px & v & Hx' & Hok).
    assert (x' = x) by congruence. subst. by rewrite (no_value Hok).
Qed.

Lemma update_leaf_status_eq n x :
  n ∈ L → rc_nodes c !! n = Some x → 0 ≤ tn_lock_ref x →
  update_leaf_status c n
  = Ok (set_rc_evictable_leaves
          (if decide (is_leaf c n) then rc_evictable_leaves c ∪ {[n]}
           else rc_evictable_leaves c ∖ {[n]}) c).
Proof.
  intros Hn Hx Hlk. unfold update_leaf_status, get_node. rewrite Hx. cbn [mbind res_bind].
  rewrite (live_not_evicted n x Hn Hx). simpl.
  assert (Hlf : is_leaf c n ↔ tn_lock_ref x = 0 ∧ tn_children x = ∅) by (unfold is_leaf; by rewrite Hx).
  case_bool_decide as Hl; [by rewrite decide_False by (rewrite Hlf; lia)|].
  destruct (existsb (present c) (map snd (map_to_list (tn_children x)))) eqn:E.
  - rewrite decide_False; [done|]. rewrite Hlf. intros [_ Hem]. rewrite Hem in E.
    by rewrite map_to_list_empty in E.
  - rewrite decide_True; [done|]. apply Hlf. split; [lia|]. apply map_empty. intros ck.
    destruct (tn_children x !! ck) as [m|] eqn:Hm; [|done]. exfalso.
    destruct (tr_child T n x ck m Hn Hx Hm) as (HmL & _ & y & Hy & _).
    apply not_true_iff_false in E. apply E. apply existsb_exists. exists m. split.
    + apply list_elem_of_In, list_elem_of_fmap. exists (ck, m). split; [done|].
      by apply elem_of_map_to_list.
    + unfold present. rewrite Hy. by rewrite (live_not_evicted m y).
Qed.

End leaf.

(** ** Splitting a node *)

Section split_acct.
Context (monotonic : nat → Z) (c : RadixCache) (g : ghost) (H : list nat) (Hi : inv c g H).
Context (n : nat) (x : TreeNode) (p : nat) (px : TreeNode) (v : list Z) (pl : Z).
Context (HnL : n ∈ gL g) (Hx : rc_nodes c !! n = Some x).
Context (Hok : node_ok c (gL g) (gP g) (gV g) n x p px v).
Context (Hpl : rc_page_size c ≤ pl < RadixKey_len (tn_key x)) (Hdiv : (rc_page_size c | pl)).
Abbreviation id := (rc_counter c).
Abbreviation T := (iv_tree Hi).
Abbreviation c' := (split_state monotonic c n x p px v pl).

Definition split_ghost : ghost :=
  mkGhost (gL g ∪ {[id]}) (split_P c (gP g) x p pl) (split_V c (gV g) p v pl).

Lemma split_nodes_n : rc_nodes c' !! n = Some (split_lower c x v pl).
Proof. by eapply split_lookup_n. Qed.

Lemma split_nodes_id : rc_nodes c' !! id = Some (split_upper monotonic c n x p v pl).
Proof. by apply (split_lookup_id monotonic c _ _ _ T). Qed.

(** Of the other live nodes, only the children of the parent change. *)
Lemma split_nodes_live m :
  m ∈ gL g → m ≠ n →
  node_lock c' m = node_lock c m ∧ node_len c' m = node_len c m ∧ (is_leaf c' m ↔ is_leaf c m).
Proof.
  intros Hm Hmn. unfold node_lock, node_len, is_leaf. destruct (decide (m = p)) as [->|Hmp].
  - change (rc_nodes c') with (split_nodes monotonic c n x p px v pl).
    rewrite split_lookup_p, (no_px Hok). simpl. split_and!; [done|done|].
    split; intros [_ He].
    + by apply insert_non_empty in He.
    + pose proof (no_slot Hok) as Hs. rewrite He in Hs. by rewrite lookup_empty in Hs.
  - change (rc_nodes c') with (split_nodes monotonic c n x p px v pl).
    rewrite split_lookup_ne; [done..|]. by apply (live_ne_id c _ _ _ T).
Qed.

Lemma split_n_lock : node_lock c' n = node_lock c n ∧ node_lock c' id = node_lock c n.
Proof. unfold node_lock. rewrite split_nodes_n, split_nodes_id, Hx. done. Qed.

Lemma split_n_len : node_len c' n = node_len c n - pl ∧ node_len c' id = pl.
Proof.
  pose proof (tr_ps T). unfold node_len. rewrite split_nodes_n, split_nodes_id, Hx. simpl.
  rewrite RadixKey_len_from, RadixKey_len_to by lia. done.
Qed.

Lemma split_sum (f : bool → Z → Z) :
  (∀ b x y, f b (x + y) = f b x + f b y) →
  sum_over (λ m, f (bool_decide (node_lock c' m = 0)) (node_len c' m)) (gL g ∪ {[id]})
  = sum_over (λ m, f (bool_decide (node_lock c m = 0)) (node_len c m)) (gL g).
Proof.
  intros Hf. assert (id ∉ gL g) by (intros Hin; by apply (live_ne_id c _ _ _ T id)).
  rewrite sum_over_insert by done.
  rewrite (sum_over_update (λ m, f (bool_decide (node_lock c m = 0)) (node_len c m)) _ (gL g) n);
    [|done|].
  - destruct split_n_lock as [-> ->]. destruct split_n_len as [-> ->].
    replace (node_len c n) with (node_len c n - pl + pl) at 1 by lia. rewrite Hf. lia.
  - intros m Hm Hmn. by destruct (split_nodes_live m Hm Hmn) as (-> & -> & _).
Qed.

Lemma split_acct : acct c' (gL g ∪ {[id]}).
Proof.
  destruct (iv_acct Hi) as [A1 A2 A3]. split; simpl.
  - rewrite A1. symmetry. apply (split_sum (λ b l, if b then l else 0)). intros []; lia.
  - rewrite A2. symmetry. apply (split_sum (λ b l, if b then 0 else l)). intros []; lia.
  - rewrite A3. apply set_eq. intros m. rewrite !elem_of_filter, elem_of_union, elem_of_singleton.
    destruct (decide (m = id)) as [->|Hid].
    { assert (id ∉ gL g) by (intros Hin; by apply (live_ne_id c _ _ _ T id)).
      unfold is_leaf at 2. rewrite split_nodes_id. simpl. split; [naive_solver|].
      intros [[_ He] _]. by apply map_non_empty_singleton in He. }
    destruct (decide (m = n)) as [->|Hmn].
    { unfold is_leaf. rewrite split_nodes_n, Hx. simpl. naive_solver. }
    split; intros [Hlf Hm]; (split; [apply split_nodes_live; naive_solver|naive_solver]).
Qed.

(** Whoever is below the upper half is below the lower half: nothing else shares its path. *)
Lemma split_prefix h :
  h ∈ gL g → gP g p ++ take (Z.to_nat pl) (qunits (tn_key x)) `prefix_of` gP g h
             ↔ gP g n `prefix_of` gP g h.
Proof.
  intros Hh. rewrite (no_P Hok). pose proof (tr_ps T). split; intros Hp.
  - assert (Hfp : first_page c (tn_key x) `prefix_of` take (Z.to_nat pl) (qunits (tn_key x))).
    { unfold first_page. exists (drop (Z.to_nat (rc_page_size c)) (take (Z.to_nat pl) (qunits (tn_key x)))).
      rewrite <- (take_drop (Z.to_nat (rc_page_size c)) (take (Z.to_nat pl) (qunits (tn_key x)))) at 1.
      f_equal. rewrite take_take. f_equal. lia. }
    assert (Hb : below c h p).
    { apply (prefix_below c _ _ _ T); [apply Hok|done|]. etrans; [|exact Hp]. by apply prefix_app_r. }
    destruct (descend c _ _ _ T p px h (tn_key x)) as (ch & y & u & Hslot & Hbc & _);
      [apply Hok|done|apply Hok|done|apply Hok|etrans; [|exact Hp]; by apply prefix_app|].
    rewrite (no_slot Hok) in Hslot. inversion Hslot; subst ch.
    destruct (below_live c _ _ _ T h n Hh Hbc) as [_ Hpre]. by rewrite (no_P Hok) in Hpre.
  - etrans; [|exact Hp]. apply prefix_app. exists (drop (Z.to_nat pl) (qunits (tn_key x))).
    by rewrite take_drop.
Qed.

Lemma split_locks : locks c' split_ghost H.
Proof.
  destruct (iv_locks Hi) as [K1 K2 K3].
  assert (HP : ∀ m, m ∈ gL g → gP split_ghost m = gP g m)
    by (intros m Hm; by apply (split_P_live c _ _ _ T)).
  split; simpl.
  - intros h Hh. destruct (K1 h Hh). split; [set_solver|done].
  - destruct (decide (rc_root c = n)) as [E|E].
    + exfalso. symmetry in E. revert E. by apply (n_ne_root c _ _ _ T n x p px v).
    + destruct (split_nodes_live (rc_root c) (tr_root_live T) E) as (-> & _). done.
  - assert (Hcount : ∀ m, m ∈ gL g → held_below split_ghost H m = held_below g H m).
    { intros m Hm. unfold held_below. f_equal. apply filter_ext_list. intros h Hh.
      by rewrite !HP by (done || apply K1; done). }
    intros m Hm Hmr. destruct (decide (m = id)) as [->|Hid].
    + destruct split_n_lock as [_ ->]. rewrite K3; [|done|by apply (n_ne_root c _ _ _ T n x p px v)].
      unfold held_below. f_equal. apply filter_ext_list. intros h Hh.
      rewrite (HP h) by (by apply K1). simpl. unfold split_P. rewrite fun_upd_eq. symmetry.
      apply split_prefix. by apply K1.
    + assert (HmL : m ∈ gL g) by set_solver. rewrite Hcount by done.
      destruct (decide (m = n)) as [->|Hmn].
      * destruct split_n_lock as [-> _]. by apply K3.
      * destruct (split_nodes_live m HmL Hmn) as (-> & _). by apply K3.
Qed.

Lemma split_inv : inv c' split_ghost H.
Proof. split; [by apply (split_tree monotonic c _ _ _ T)|apply split_acct|apply split_locks]. Qed.

End split_acct.

(** ** Adding a leaf *)

Section leaf_added.
Context (c c' : RadixCache) (g : ghost) (H : list nat) (Hi : inv c g H).
Context (n : nat) (x y : TreeNode) (k : RadixKey) (v : list Z).
Context (HnL : n ∈ gL g) (Hx : rc_nodes c !! n = Some x) (Hk : key_ok c k).
Context (Hv : zlen v = RadixKey_len k).
Context (Hfree : tn_children x !! slot (rc_page_size c) (first_page c k) = None).
Context (Hy : core y = ((∅, Some n, k, Some v), 0)).
Abbreviation id := (rc_counter c).
Abbreviation T := (iv_tree Hi).

Definition leaf_parent : TreeNode :=
  set_tn_children (<[slot (rc_page_size c) (first_page c k) := id]> (tn_children x)) x.

Context (Hcfg : config c' = config c) (Hcnt : rc_counter c' = S id).
Context (Hnodes : rc_nodes c' = <[n := leaf_parent]> (<[id := y]> (rc_nodes c))).

Definition leaf_ghost : ghost :=
  mkGhost (gL g ∪ {[id]}) (fun_upd (gP g) id (gP g n ++ qunits k)) (fun_upd (gV g) id (gV g n ++ v)).

Lemma leaf_id_fresh : id ∉ gL g.
Proof. intros Hin. by apply (live_ne_id c _ _ _ T id). Qed.

Lemma leaf_lookup_n : rc_nodes c' !! n = Some leaf_parent.
Proof. rewrite Hnodes. by rewrite lookup_insert_eq. Qed.

Lemma leaf_lookup_id : rc_nodes c' !! id = Some y.
Proof.
  rewrite Hnodes. rewrite lookup_insert_ne by (by apply (live_ne_id c _ _ _ T)).
  by rewrite lookup_insert_eq.
Qed.

Lemma leaf_lookup_ne m : m ≠ n → m ≠ id → rc_nodes c' !! m = rc_nodes c !! m.
Proof. intros. rewrite Hnodes. by rewrite !lookup_insert_ne. Qed.

Lemma leaf_lookup_live m z :
  m ∈ gL g → rc_nodes c !! m = Some z →
  ∃ z', rc_nodes c' !! m = Some z' ∧ tn_parent z' = tn_parent z ∧ tn_key z' = tn_key z
        ∧ tn_value z' = tn_value z ∧ tn_lock_ref z' = tn_lock_ref z
        ∧ ∀ ck j, tn_children z !! ck = Some j → tn_children z' !! ck = Some j.
Proof.
  intros Hm Hz. destruct (decide (m = n)) as [->|Hmn].
  - exists leaf_parent. rewrite leaf_lookup_n. assert (z = x) as -> by congruence.
    split_and!; try done. intros ck j Hj. simpl. rewrite lookup_insert_ne; [done|]. congruence.
  - exists z. rewrite leaf_lookup_ne by (done || by apply (live_ne_id c _ _ _ T)). done.
Qed.

Lemma leaf_P m : m ∈ gL g → gP leaf_ghost m = gP g m ∧ gV leaf_ghost m = gV g m.
Proof.
  intros Hm. pose proof leaf_id_fresh. simpl. rewrite !fun_upd_ne by (intros ->; done). done.
Qed.

Lemma leaf_first_page j : first_page c' j = first_page c j.
Proof. unfold first_page. inversion Hcfg. congruence. Qed.

Lemma leaf_key_ok j : key_ok c j → key_ok c' j.
Proof. inversion Hcfg as [[C1 Cps C2 Ce C3 C4 Cr]]. intros [???]. split; by rewrite ?Ce, ?Cps. Qed.

Lemma leaf_core :
  tn_children y = ∅ ∧ tn_parent y = Some n ∧ tn_key y = k ∧ tn_value y = Some v ∧ tn_lock_ref y = 0.
Proof. unfold core, shape in Hy. by inversion Hy. Qed.

Lemma leaf_node_new :
  node_ok c' (gL leaf_ghost) (gP leaf_ghost) (gV leaf_ghost) id y n leaf_parent v.
Proof.
  inversion Hcfg as [[C1 Cps C2 Ce C3 C4 Cr]]. destruct leaf_core as (Y1 & Y2 & Y3 & Y4 & _).
  destruct (leaf_P n HnL) as [EP EV].
  split; rewrite ?EP, ?EV, ?Cps, ?leaf_first_page, ?Y3, ?Hv; try done.
  - simpl. set_solver.
  - apply leaf_lookup_n.
  - simpl. by rewrite lookup_insert_eq.
  - by apply leaf_key_ok.
  - simpl. by rewrite fun_upd_eq.
  - simpl. by rewrite fun_upd_eq.
Qed.

Lemma leaf_node_old m :
  m ∈ gL g → m ≠ rc_root c →
  ∃ z p px u, rc_nodes c' !! m = Some z
    ∧ node_ok c' (gL leaf_ghost) (gP leaf_ghost) (gV leaf_ghost) m z p px u.
Proof.
  intros HmL Hmr. inversion Hcfg as [[C1 Cps C2 Ce C3 C4 Cr]].
  destruct (tr_node T m HmL Hmr) as (z & p & px & u & Hz & Hok).
  destruct (leaf_lookup_live m z HmL Hz) as (z' & Hz' & F1 & F2 & F3 & _ & _).
  destruct (leaf_lookup_live p px (no_live Hok) (no_px Hok)) as (px' & Hpx' & _ & _ & _ & _ & G).
  exists z', p, px', u. split; [done|].
  destruct (leaf_P m HmL) as [EP EV]. destruct (leaf_P p (no_live Hok)) as [EP' EV'].
  destruct Hok as [A1 A2 A3 A4 A5 A6 A7 A8 A9].
  split; rewrite ?EP, ?EV, ?EP', ?EV', ?F1, ?F2, ?F3, ?Cps, ?leaf_first_page; try done.
  - simpl. set_solver.
  - by apply G.
  - by apply leaf_key_ok.
Qed.

Lemma leaf_children m z ck j :
  m ∈ gL leaf_ghost → rc_nodes c' !! m = Some z → tn_children z !! ck = Some j →
  j ∈ gL leaf_ghost ∧ j ≠ rc_root c ∧ ∃ z', rc_nodes c' !! j = Some z' ∧ tn_parent z' = Some m
    ∧ ck = slot (rc_page_size c) (first_page c' (tn_key z')).
Proof.
  intros Hm Hz Hj. destruct leaf_core as (Y1 & Y2 & Y3 & _). pose proof leaf_id_fresh as Hfr.
  destruct (decide (m = id)) as [->|Hid].
  { rewrite leaf_lookup_id in Hz. inversion Hz; subst z. rewrite Y1 in Hj. by rewrite lookup_empty in Hj. }
  assert (HmL : m ∈ gL g) by (simpl in Hm; set_solver).
  assert (Hold : ∀ z0, rc_nodes c !! m = Some z0 → tn_children z0 !! ck = Some j →
    j ∈ gL leaf_ghost ∧ j ≠ rc_root c ∧ ∃ z', rc_nodes c' !! j = Some z' ∧ tn_parent z' = Some m
    ∧ ck = slot (rc_page_size c) (first_page c' (tn_key z'))).
  { intros z0 Hz0 Hj0. destruct (tr_child T m z0 ck j HmL Hz0 Hj0) as (HjL & Hjr & w & Hw & Hwp & Hck).
    destruct (leaf_lookup_live j w HjL Hw) as (w' & Hw' & F1 & F2 & _).
    split_and!; [simpl; set_solver|done|]. exists w'. rewrite F1, F2, leaf_first_page. done. }
  destruct (decide (m = n)) as [->|Hmn].
  - rewrite leaf_lookup_n in Hz. inversion Hz; subst z. simpl in Hj.
    apply lookup_insert_Some in Hj as [[<- <-]|[_ Hj]]; [|by apply (Hold x)].
    split_and!; [simpl; set_solver|intros E; apply Hfr; rewrite E; apply T|].
    exists y. rewrite leaf_lookup_id, Y2, Y3, leaf_first_page. done.
  - rewrite leaf_lookup_ne in Hz by done. by apply (Hold z).
Qed.

Lemma leaf_tree : tree c' (gL leaf_ghost) (gP leaf_ghost) (gV leaf_ghost).
Proof.
  inversion Hcfg as [[C1 Cps C2 Ce C3 C4 Cr]]. split; rewrite ?Cps, ?Cr.
  - apply T.
  - intros m z Hz. rewrite Hcnt. destruct (decide (m = id)) as [->|]; [lia|].
    destruct (decide (m = n)) as [->|]; [pose proof (tr_fresh T _ _ Hx); lia|].
    rewrite leaf_lookup_ne in Hz by done. pose proof (tr_fresh T _ _ Hz). lia.
  - pose proof (tr_root_live T). simpl. set_solver.
  - destruct (tr_root T) as (z & Hz & E1 & E2 & E3).
    destruct (leaf_lookup_live _ z (tr_root_live T) Hz) as (z' & Hz' & F1 & F2 & F3 & _).
    exists z'. split_and!; congruence.
  - rewrite (proj1 (leaf_P _ (tr_root_live T))). apply T.
  - rewrite (proj2 (leaf_P _ (tr_root_live T))). apply T.
  - intros m Hm Hmr. destruct (decide (m = id)) as [->|Hid].
    + exists y, n, leaf_parent, v. split; [apply leaf_lookup_id|apply leaf_node_new].
    + apply leaf_node_old; [simpl in Hm; set_solver|done].
  - apply leaf_children.
Qed.

Lemma leaf_old_attrs m :
  m ∈ gL g → node_lock c' m = node_lock c m ∧ node_len c' m = node_len c m
             ∧ (m ≠ n → is_leaf c' m ↔ is_leaf c m).
Proof.
  intros Hm. destruct (tree_lookup _ _ _ _ T m Hm) as (z & Hz).
  destruct (leaf_lookup_live m z Hm Hz) as (z' & Hz' & F1 & F2 & F3 & F4 & _).
  unfold node_lock, node_len, is_leaf. rewrite Hz, Hz', F2, F4. split_and!; [done|done|].
  intros Hmn. rewrite leaf_lookup_ne in Hz' by (done || by apply (live_ne_id c _ _ _ T)).
  assert (z' = z) as -> by congruence. done.
Qed.

Lemma leaf_new_attrs : node_lock c' id = 0 ∧ node_len c' id = RadixKey_len k ∧ is_leaf c' id.
Proof.
  destruct leaf_core as (Y1 & _ & Y3 & _ & Y5).
  unfold node_lock, node_len, is_leaf. rewrite leaf_lookup_id, Y1, Y3, Y5. done.
Qed.

Lemma leaf_parent_not_leaf : ¬ is_leaf c' n.
Proof.
  unfold is_leaf. rewrite leaf_lookup_n. simpl. intros [_ He]. by apply insert_non_empty in He.
Qed.

(** No lock is held below the new leaf: its path was not in the tree. *)
Lemma leaf_held : held_below leaf_ghost H id = 0.
Proof.
  destruct (iv_locks Hi) as [K1 _ _]. unfold held_below. apply zlen_0.
  apply list_filter_none. intros h Hh Hp. destruct (K1 h Hh) as [HhL _].
  rewrite (proj1 (leaf_P h HhL)) in Hp. simpl in Hp. rewrite fun_upd_eq in Hp.
  destruct (descend c _ _ _ T n x h k) as (ch & z & u & Hs & _); try done.
  - apply (prefix_below c _ _ _ T); [done|done|]. etrans; [|exact Hp]. by apply prefix_app_r.
  - etrans; [|exact Hp]. apply prefix_app. exists (drop (Z.to_nat (rc_page_size c)) (qunits k)).
    unfold first_page. by rewrite take_drop.
  - congruence.
Qed.

Lemma leaf_inv :
  rc_evictable_size c' = rc_evictable_size c + RadixKey_len k →
  rc_protected_size c' = rc_protected_size c →
  rc_evictable_leaves c' = rc_evictable_leaves c ∖ {[n]} ∪ {[id]} →
  inv c' leaf_ghost H.
Proof.
  intros S1 S2 S3. destruct (iv_acct Hi) as [A1 A2 A3]. destruct (iv_locks Hi) as [K1 K2 K3].
  destruct leaf_new_attrs as (N1 & N2 & N3). pose proof leaf_id_fresh as Hfr.
  assert (Cr : rc_root c' = rc_root c) by (by inversion Hcfg).
  assert (Hsum : ∀ f : bool → Z → Z,
    sum_over (λ m, f (bool_decide (node_lock c' m = 0)) (node_len c' m)) (gL leaf_ghost)
    = sum_over (λ m, f (bool_decide (node_lock c m = 0)) (node_len c m)) (gL g)
      + f true (RadixKey_len k)).
  { intros f. simpl. rewrite sum_over_insert by done. rewrite N1, N2. f_equal.
    apply sum_over_ext. intros m Hm. by destruct (leaf_old_attrs m Hm) as (-> & -> & _). }
  split; [apply leaf_tree| |].
  - split.
    + rewrite S1, A1. symmetry. apply (Hsum (λ b l, if b then l else 0)).
    + rewrite S2, A2. symmetry. rewrite <- Z.add_0_r. apply (Hsum (λ b l, if b then 0 else l)).
    + rewrite S3, A3. apply set_eq. intros m. simpl.
      pose proof leaf_parent_not_leaf.
      destruct (decide (m = id)) as [->|]; [set_solver|].
      destruct (decide (m = n)) as [->|]; [set_solver|].
      split; intros Hm.
      * assert (Hf : is_leaf c m ∧ m ∈ gL g) by set_solver. apply elem_of_filter.
        split; [apply leaf_old_attrs; tauto|set_solver].
      * apply elem_of_filter in Hm as [Hl Hm]. assert (m ∈ gL g) by set_solver.
        assert (is_leaf c m) by (by apply leaf_old_attrs). set_solver.
  - split; rewrite ?Cr.
    + intros h Hh. destruct (K1 h Hh). split; [simpl; set_solver|done].
    + by rewrite (proj1 (leaf_old_attrs _ (tr_root_live T))).
    + intros m Hm Hmr. destruct (decide (m = id)) as [->|]; [by rewrite N1, leaf_held|].
      assert (HmL : m ∈ gL g) by (simpl in Hm; set_solver).
      rewrite (proj1 (leaf_old_attrs m HmL)), K3 by done. unfold held_below. f_equal.
      apply filter_ext_list. intros h Hh. destruct (K1 h Hh).
      by rewrite (proj1 (leaf_P m HmL)), (proj1 (leaf_P h ltac:(done))).
Qed.

End leaf_added.
