(* ===== verification/RadixMatch.v ===== *)
(** * Prefix matching in the radix cache

    [match_prefix] of [src/python/sglang/srt/mem_cache/radix_cache.py] keeps the invariant and the
    cached content, never raises, and returns the longest cached prefix of the key in whole
    pages. *)

From S2P Require Import Prelude RadixKey PageHash RadixTree RadixInv RadixAcct.

(** ** Content *)

(** A node reached from the root along child links, with the units and the KV slots on the way. *)
Inductive path (c : RadixCache) : nat → list qunit → list Z → Prop :=
| path_root : path c (rc_root c) [] []
| path_child n us vs x ck m y v :
    path c n us vs → rc_nodes c !! n = Some x → tn_children x !! ck = Some m →
    rc_nodes c !! m = Some y → tn_value y = Some v →
    path c m (us ++ qunits (tn_key y)) (vs ++ v).

(** The cache holds the slots [vs] for the unit sequence [us]. *)
Definition cached (c : RadixCache) (us : list qunit) (vs : list Z) : Prop :=
  ∃ n us' vs', path c n us' vs' ∧ us `prefix_of` us' ∧ vs = take (length us) vs'.

Lemma path_live c L P V n us vs :
  tree c L P V → path c n us vs ↔ n ∈ L ∧ us = P n ∧ vs = V n.
Proof.
  intros T. split.
  - induction 1 as [|n us vs x ck m y v Hp IH Hx Hm Hy Hv].
    { rewrite (tr_root_P T), (tr_root_V T). split; [apply T|done]. }
    destruct IH as (Hn & -> & ->).
    destruct (child_facts _ _ _ _ T n x ck m Hn Hx Hm) as (y' & v' & Hy' & Hok & _).
    assert (y' = y) by congruence. subst y'.
    assert (v' = v) by (pose proof (no_value Hok); congruence). subst v'.
    destruct (tr_child T n x ck m Hn Hx Hm) as (HmL & _).
    by rewrite (no_P Hok), (no_V Hok).
  - intros (Hn & -> & ->). revert n Hn. apply (tree_ind _ _ _ _ T).
    + rewrite (tr_root_P T), (tr_root_V T). constructor.
    + intros n x p px v Hn Hr Hx Hok IH. rewrite (no_P Hok), (no_V Hok).
      eapply path_child; [exact IH|apply Hok|apply Hok|exact Hx|apply Hok].
Qed.

(** The new tree has the old nodes, and its other nodes lie on old paths. *)
Record refines (g g' : ghost) : Prop := {
  rf_live n : n ∈ gL g → n ∈ gL g';
  rf_P n : n ∈ gL g → gP g' n = gP g n;
  rf_V n : n ∈ gL g → gV g' n = gV g n;
  rf_new n : n ∈ gL g' → ∃ m, m ∈ gL g ∧ gP g' n `prefix_of` gP g m ∧ gV g' n `prefix_of` gV g m
}.
Arguments rf_live {g g'}.
Arguments rf_P {g g'}.
Arguments rf_V {g g'}.
Arguments rf_new {g g'}.

#[export] Instance refines_preorder : PreOrder refines.
Proof.
  split.
  - intros g. split; try done. eauto.
  - intros g1 g2 g3 H12 H23. split.
    + intros n Hn. by apply H23, H12.
    + intros n Hn. rewrite (rf_P H23) by (by apply H12). by apply H12.
    + intros n Hn. rewrite (rf_V H23) by (by apply H12). by apply H12.
    + intros n Hn. destruct (rf_new H23 n Hn) as (m & Hm & Hp & Hv).
      destruct (rf_new H12 m Hm) as (k & Hk & Hp' & Hv'). exists k.
      split_and!; [done|by etrans..].
Qed.

Lemma prefix_same_take {A} (l k : list A) n : l `prefix_of` k → (n ≤ length l)%nat → take n l = take n k.
Proof. intros [r ->] Hn. by rewrite take_app_le. Qed.

Lemma refines_cached c c' g g' :
  tree c (gL g) (gP g) (gV g) → tree c' (gL g') (gP g') (gV g') → refines g g' →
  ∀ us vs, cached c us vs ↔ cached c' us vs.
Proof.
  intros T T' R us vs. unfold cached. split; intros (n & us' & vs' & Hp & Hpre & ->).
  - apply (path_live _ _ _ _ _ _ _ T) in Hp as (Hn & -> & ->).
    exists n, (gP g' n), (gV g' n). rewrite (rf_P R), (rf_V R) by done. split_and!; [|done|done].
    apply (path_live _ _ _ _ _ _ _ T'). split; [by apply R|by rewrite (rf_P R), (rf_V R)].
  - apply (path_live _ _ _ _ _ _ _ T') in Hp as (Hn & -> & ->).
    destruct (rf_new R n Hn) as (m & Hm & Hmp & Hmv).
    exists m, (gP g m), (gV g m). split_and!; [by apply (path_live _ _ _ _ _ _ _ T)|by etrans|].
    apply prefix_same_take; [done|]. pose proof (P_V_length _ _ _ _ T' n Hn).
    apply prefix_length in Hpre. unfold zlen in *. lia.
Qed.

(** A split only adds a node in the middle of a path. *)
Lemma split_refines c g H n x p px v pl :
  inv c g H → n ∈ gL g → node_ok c (gL g) (gP g) (gV g) n x p px v →
  refines g (split_ghost c g x p v pl).
Proof.
  intros Hi HnL Hok. pose proof (iv_tree Hi) as T. split; simpl.
  - set_solver.
  - intros m Hm. by apply (split_P_live c _ _ _ T).
  - intros m Hm. by apply fun_upd_ne, (live_ne_id c _ _ _ T).
  - intros m Hm. destruct (decide (m = rc_counter c)) as [->|Hid].
    + exists n. unfold split_P, split_V. rewrite !fun_upd_eq, (no_P Hok), (no_V Hok).
      split_and!; [done| |]; apply prefix_app, prefix_take.
    + assert (m ∈ gL g) by set_solver. exists m. unfold split_P, split_V. by rewrite !fun_upd_ne.
Qed.

(** ** The walk *)

(** The rest of a key that is being matched: empty, or whole pages of the cache's kind. *)
Definition rest_ok (c : RadixCache) (k : RadixKey) : Prop :=
  is_bigram k = rc_is_eagle c ∧ (rc_page_size c | RadixKey_len k).

Lemma rest_key_ok_pos c k : rest_ok c k → 0 < RadixKey_len k → key_ok c k.
Proof. intros [? ?] ?. by split. Qed.

Lemma rest_ok_from c k a :
  rest_ok c k → 0 ≤ a ≤ RadixKey_len k → (rc_page_size c | a) → rest_ok c (RadixKey_from k a).
Proof.
  intros [Hb Hd] Ha Hda. split; [unfold RadixKey_from; by rewrite slice_is_bigram|].
  rewrite RadixKey_len_from by done. by apply Z.divide_sub_r.
Qed.

(** No live node agrees with [K] on a page more than [n] spells. *)
Definition longest (ps : Z) (g : ghost) (K : list qunit) (n : nat) : Prop :=
  ∀ h, h ∈ gL g → common_len (gP g h) K < zlen (gP g n) + ps.

Lemma common_len_prefix {A} `{EqDecision A} (l k K : list A) :
  l `prefix_of` k → common_len l K ≤ common_len k K.
Proof.
  intros Hp. pose proof (common_len_bounds l K) as (? & ? & ?).
  apply common_len_ge; [done| |done|].
  - apply prefix_length in Hp. unfold zlen in *. lia.
  - rewrite <- (common_len_take l K _) by lia. symmetry. apply prefix_same_take; [done|].
    unfold zlen in *. lia.
Qed.

Lemma refines_longest ps g g' K n n' :
  refines g g' → gP g' n' = gP g n → longest ps g K n → longest ps g' K n'.
Proof.
  intros R HP Hl h Hh. destruct (rf_new R h Hh) as (m & Hm & Hp & _).
  pose proof (common_len_prefix _ _ K Hp). specialize (Hl m Hm). rewrite HP. lia.
Qed.

Section walk.
Context (c : RadixCache) (g : ghost) (H : list nat) (Hi : inv c g H).
Context (n : nat) (x : TreeNode) (HnL : n ∈ gL g) (Hx : rc_nodes c !! n = Some x).
Abbreviation T := (iv_tree Hi).
Abbreviation ps := (rc_page_size c).

(** A node deeper than [n] on the way of the key has the child the loop looks up. *)
Lemma walk_deeper k h :
  key_ok c k → h ∈ gL g → zlen (gP g n) + ps ≤ common_len (gP g h) (gP g n ++ qunits k) →
  ∃ ch y v, tn_children x !! slot ps (first_page c k) = Some ch ∧ ch ∈ gL g ∧ rc_nodes c !! ch = Some y
    ∧ node_ok c (gL g) (gP g) (gV g) ch y n x v ∧ gP g ch `prefix_of` gP g h.
Proof.
  intros Hk Hh Hc. pose proof (tr_ps T). pose proof (zlen_nonneg (gP g n)).
  assert (Hp : gP g n ++ first_page c k `prefix_of` gP g h).
  { pose proof (common_len_take (gP g h) (gP g n ++ qunits k) (zlen (gP g n) + ps) ltac:(lia) Hc) as Ht.
    rewrite Z2Nat.inj_add in Ht by lia.
    rewrite (take_app_add' (gP g n)) in Ht by (unfold zlen; lia).
    fold (first_page c k) in Ht. rewrite <- Ht. apply prefix_take. }
  assert (Hb : below c h n).
  { apply (prefix_below c _ _ _ T); [done|done|]. etrans; [|exact Hp]. by apply prefix_app_r. }
  destruct (descend c _ _ _ T n x h k) as (ch & y & v & Hs & Hbc & HcL & Hy & Hok & _); try done.
  exists ch, y, v. split_and!; try done. by apply (below_live c _ _ _ T h ch Hh Hbc).
Qed.

Lemma walk_stop_empty k : RadixKey_len k = 0 → longest ps g (gP g n ++ qunits k) n.
Proof.
  intros Hk h Hh. pose proof (tr_ps T).
  pose proof (common_len_bounds (gP g h) (gP g n ++ qunits k)) as (_ & _ & Hb).
  rewrite zlen_app, zlen_qunits in Hb. lia.
Qed.

Lemma walk_stop_missing k :
  key_ok c k → tn_children x !! slot ps (first_page c k) = None →
  longest ps g (gP g n ++ qunits k) n.
Proof.
  intros Hk Hn h Hh. apply Znot_ge_lt. intros Hge.
  destruct (walk_deeper k h Hk Hh ltac:(lia)) as (ch & y & v & Hs & _). congruence.
Qed.

(** The end of the walk inside a child: nothing agrees longer than the child does. *)
Lemma walk_stop_split k ch y v pl :
  key_ok c k → tn_children x !! slot ps (first_page c k) = Some ch →
  rc_nodes c !! ch = Some y → node_ok c (gL g) (gP g) (gV g) ch y n x v →
  pl = page_match ps (qunits (tn_key y)) (qunits k) → pl < RadixKey_len (tn_key y) →
  (ps | RadixKey_len (tn_key y)) →
  ∀ h, h ∈ gL g → common_len (gP g h) (gP g n ++ qunits k) < zlen (gP g n) + pl + ps.
Proof.
  intros Hk Hs Hy Hok Hpl Hlt Hdiv h Hh. pose proof (tr_ps T). pose proof (zlen_nonneg (gP g n)).
  pose proof (page_match_bounds ps (qunits (tn_key y)) (qunits k) ltac:(lia)) as (B1 & B2 & B3).
  rewrite <- Hpl in *.
  assert (Hd : (ps | pl)) by (rewrite Hpl; apply Z.divide_factor_r).
  assert (Hge : pl + ps ≤ RadixKey_len (tn_key y)).
  { destruct Hdiv as [q Hq], Hd as [r Hr]. rewrite Hq, Hr in *. assert (r < q) by nia. nia. }
  apply Znot_ge_lt. intros Hc.
  destruct (walk_deeper k h Hk Hh ltac:(lia)) as (ch' & y' & v' & Hs' & _ & Hy' & Hok' & Hpre).
  assert (ch' = ch) by congruence. subst ch'. rewrite (no_P Hok) in Hpre.
  assert (Hcl : pl + ps ≤ common_len (qunits (tn_key y)) (qunits k)); [|lia].
  assert (Hlong : zlen (gP g n) + (pl + ps)
                  ≤ common_len (gP g n ++ qunits (tn_key y)) (gP g n ++ qunits k)).
  { pose proof (common_len_bounds (gP g h) (gP g n ++ qunits k)) as (_ & Hb1 & Hb2).
    apply common_len_ge; [lia|rewrite zlen_app, zlen_qunits; lia|lia|].
    rewrite <- (common_len_take (gP g h) (gP g n ++ qunits k)) by lia.
    apply prefix_same_take; [done|].
    pose proof (zlen_app (gP g n) (qunits (tn_key y))) as Hz. rewrite zlen_qunits in Hz.
    unfold zlen in *. lia. }
  rewrite common_len_app in Hlong. lia.
Qed.

End walk.

(** Touching a child on the way keeps what is known about it. *)
Lemma node_ok_upd c L P V ch f y n x v :
  core (f y) = core y → rc_nodes c !! ch = Some y → node_ok c L P V ch y n x v →
  node_ok (upd_node ch f c) L P V ch (f y) n x v ∧ rc_nodes (upd_node ch f c) !! ch = Some (f y).
Proof.
  intros Hf Hy Hok. unfold core, shape in Hf. inversion Hf as [[S1 S2 S3 S4 S5]].
  pose proof (p_ne_n _ _ _ _ _ _ _ _ _ Hok) as Hne. split.
  - destruct Hok as [A1 A2 A3 A4 A5 A6 A7 A8 A9]. split; rewrite ?S2, ?S3, ?S4; try done.
    + simpl. by rewrite lookup_alter_ne.
    + by destruct A5.
  - simpl. by rewrite lookup_alter_eq, Hy.
Qed.

Lemma get_node_Some c n x : rc_nodes c !! n = Some x → get_node c n = Ok x.
Proof. intros Hx. unfold get_node. by rewrite Hx. Qed.

Lemma core_access t y : core (set_tn_last_access_time t y) = core y.
Proof. done. Qed.

Lemma next_child_key_eq c L P V k ck :
  tree c L P V → rest_ok c k →
  ∃ ck', next_child_key k (rc_page_size c) ck = Ok ck'
         ∧ (0 < RadixKey_len k → ck' = slot (rc_page_size c) (first_page c k)).
Proof.
  intros T Hr. unfold next_child_key. case_bool_decide as H0.
  - exists ck. split; [done|lia].
  - pose proof (RadixKey_len_nonneg k). assert (Hk : key_ok c k) by (apply rest_key_ok_pos; [done|lia]).
    rewrite (key_ok_child_key _ _ _ _ T) by done. eauto.
Qed.

Section match_loop.
Context (monotonic : nat → Z).

(** One step into a child that is matched only in part: the child is split. *)
Lemma split_step c g H n x k ch y v pl t :
  inv c g H → n ∈ gL g → rc_nodes c !! n = Some x → key_ok c k →
  tn_children x !! slot (rc_page_size c) (first_page c k) = Some ch → ch ∈ gL g →
  rc_nodes c !! ch = Some y → node_ok c (gL g) (gP g) (gV g) ch y n x v →
  pl = page_match (rc_page_size c) (qunits (tn_key y)) (qunits k) →
  rc_page_size c ≤ pl < RadixKey_len (tn_key y) → (rc_page_size c | pl) →
  let c1 := upd_node ch (set_tn_last_access_time t) c in
  ∃ c' g', split_node monotonic c1 (tn_key y) ch pl = Ok (rc_counter c, c')
    ∧ inv c' g' H ∧ refines g g' ∧ config c' = config c ∧ rc_counter c ∈ gL g'
    ∧ gP g' (rc_counter c) = gP g n ++ take (Z.to_nat pl) (qunits k)
    ∧ gV g' (rc_counter c) = gV g n ++ take (Z.to_nat pl) v
    ∧ (∃ z, rc_nodes c' !! rc_counter c = Some z ∧ tn_value z = Some (take (Z.to_nat pl) v)
            ∧ ∀ ck, tn_children z !! ck = (if decide (ck = slot (rc_page_size c)
                    (first_page c (RadixKey_from (tn_key y) pl))) then Some ch else None))
    ∧ longest (rc_page_size c) g' (gP g n ++ qunits k) (rc_counter c)
    ∧ rc_evictable_size c' = rc_evictable_size c ∧ rc_protected_size c' = rc_protected_size c.
Proof.
  intros Hi Hn Hx Hk Hs HcL Hy Hok Hpl Hlt Hd c1. pose proof (tr_ps (iv_tree Hi)) as Hps.
  assert (Hi1 : inv c1 g H) by (by apply inv_upd_node).
  destruct (node_ok_upd c _ _ _ ch (set_tn_last_access_time t) y n x v (core_access t y) Hy Hok)
    as [Hok1 Hy1]. fold c1 in Hok1, Hy1.
  exists (split_state monotonic c1 ch (set_tn_last_access_time t y) n x v pl),
    (split_ghost c1 g (set_tn_last_access_time t y) n v pl).
  assert (Htake : take (Z.to_nat pl) (qunits (tn_key y)) = take (Z.to_nat pl) (qunits k)).
  { apply common_len_take; [lia|]. rewrite Hpl. apply page_match_bounds. lia. }
  assert (R : refines g (split_ghost c1 g (set_tn_last_access_time t y) n v pl))
    by (by eapply (split_refines c1)).
  assert (HP : gP (split_ghost c1 g (set_tn_last_access_time t y) n v pl) (rc_counter c)
               = gP g n ++ take (Z.to_nat pl) (qunits k)).
  { simpl. unfold split_P. rewrite (fun_upd_eq _ (rc_counter c)). simpl. by rewrite Htake. }
  split_and!; try done.
  - by apply (split_node_eq monotonic c1 _ _ _ (iv_tree Hi1) ch (set_tn_last_access_time t y) n x v pl).
  - by apply split_inv.
  - simpl. set_solver.
  - simpl. unfold split_V. by rewrite (fun_upd_eq _ (rc_counter c)).
  - eexists. split; [by eapply (split_nodes_id monotonic c1)|]. simpl.
    split; [by rewrite slice_to_take by lia|]. intros ck.
    rewrite lookup_singleton. repeat case_decide; congruence || done.
  - intros h Hh. destruct (rf_new R h Hh) as (m & Hm & Hp & _).
    pose proof (common_len_prefix _ _ (gP g n ++ qunits k) Hp).
    pose proof (walk_stop_split c g H Hi n x Hn Hx k ch y v pl Hk Hs Hy Hok Hpl ltac:(lia)
                  (ko_pages (no_key Hok)) m Hm).
    rewrite HP, zlen_app, zlen_take, zlen_qunits.
    pose proof (page_match_bounds (rc_page_size c) (qunits (tn_key y)) (qunits k) ltac:(lia)).
    pose proof (common_len_bounds (qunits (tn_key y)) (qunits k)) as (_ & _ & Hb).
    rewrite zlen_qunits in Hb. lia.
Qed.

Lemma match_loop_spec fuel : ∀ c g H node key ck vals t,
  inv c g H → node ∈ gL g → rest_ok c key → concat vals = gV g node →
  (0 < RadixKey_len key → ck = slot (rc_page_size c) (first_page c key)) →
  RadixKey_len key < Z.of_nat fuel →
  ∃ vals' n' c' g', match_loop monotonic fuel c t node key ck vals = Ok (vals', n', c')
    ∧ inv c' g' H ∧ refines g g' ∧ config c' = config c ∧ n' ∈ gL g'
    ∧ concat vals' = gV g' n' ∧ gP g' n' `prefix_of` gP g node ++ qunits key
    ∧ longest (rc_page_size c) g' (gP g node ++ qunits key) n'.
Proof.
  induction fuel as [|fuel IH]; intros c g H node key ck vals t Hi Hn Hr Hvs Hck Hf.
  { pose proof (RadixKey_len_nonneg key). lia. }
  pose proof (tr_ps (iv_tree Hi)) as Hps.
  destruct (tree_lookup _ _ _ _ (iv_tree Hi) node Hn) as (x & Hx).
  cbn [match_loop]. rewrite (get_node_Some _ _ _ Hx). cbn [mbind res_bind].
  case_bool_decide as Hlen.
  2: { exists vals, node, c, g. split_and!; try done; [by apply prefix_app_r|].
       eapply walk_stop_empty; [exact Hi|]. pose proof (RadixKey_len_nonneg key). lia. }
  pose proof (rest_key_ok_pos _ _ Hr Hlen) as Hk. rewrite (Hck Hlen). unfold get_child.
  destruct (tn_children x !! slot (rc_page_size c) (first_page c key)) as [ch|] eqn:Hs.
  2: { exists vals, node, c, g. split_and!; try done; [by apply prefix_app_r|].
       by eapply walk_stop_missing. }
  destruct (child_match _ _ _ _ (iv_tree Hi) node x key ch Hn Hx Hk Hs)
    as (y & v & pl & Hy & Hok & HcL & Hfp & He & Hm & Hpl & B1 & B2 & B3 & Hd).
  rewrite (get_node_Some _ _ _ Hy). cbn [mbind res_bind].
  change (rc_page_size (upd_node ch (set_tn_last_access_time t) c)) with (rc_page_size c).
  rewrite Hm. cbn [mbind res_bind]. case_bool_decide as Hlt.
  - destruct (split_step c g H node x key ch y v pl t) as
      (c' & g' & Hsp & Hi' & R & Hcfg & Hid & HP & HV & (z & Hz & Hzv & _) & Hlong & _); try done.
    rewrite Hsp. cbn [mbind res_bind]. rewrite (get_node_Some _ _ _ Hz). cbn [mbind res_bind].
    unfold get_value. rewrite Hzv. cbn [mbind res_bind].
    exists (vals ++ [take (Z.to_nat pl) v]), (rc_counter c), c', g'.
    split_and!; try done.
    + rewrite concat_app, Hvs, HV. simpl. by rewrite app_nil_r.
    + rewrite HP. apply prefix_app, prefix_take.
  - assert (Epl : pl = RadixKey_len (tn_key y)) by lia.
    unfold get_value. rewrite (no_value Hok). cbn [mbind res_bind].
    set (c1 := upd_node ch (set_tn_last_access_time t) c).
    assert (Hi1 : inv c1 g H) by (by apply inv_upd_node).
    assert (Hr1 : rest_ok c1 (RadixKey_from key pl)) by (apply rest_ok_from; [done|lia|done]).
    destruct (next_child_key_eq c1 _ _ _ (RadixKey_from key pl)
                (slot (rc_page_size c) (first_page c key)) (iv_tree Hi1) Hr1) as (ck' & Hck' & Hck'').
    change (rc_page_size c1) with (rc_page_size c) in Hck'. rewrite Hck'. cbn [mbind res_bind].
    assert (EP : gP g ch ++ qunits (RadixKey_from key pl) = gP g node ++ qunits key).
    { rewrite (no_P Hok), qunits_from by lia. rewrite <- app_assoc. f_equal.
      rewrite <- (take_drop (Z.to_nat pl) (qunits key)) at 2. f_equal.
      rewrite <- (common_len_take (qunits (tn_key y)) (qunits key));
        [|lia|rewrite Hpl; apply page_match_bounds; lia].
      symmetry. apply take_ge. pose proof (zlen_qunits (tn_key y)). unfold zlen in *. lia. }
    rewrite <- EP.
    destruct (IH c1 g H ch (RadixKey_from key pl) ck' (vals ++ [v]) t)
      as (vals' & n' & c' & g' & Hgo & Hi' & R & Hcfg & Hrest); try done.
    + rewrite concat_app, Hvs, (no_V Hok). simpl. by rewrite app_nil_r.
    + rewrite RadixKey_len_from by lia. lia.
    + exists vals', n', c', g'. split_and!; try done; apply Hrest.
Qed.

End match_loop.

(** ** Shared paths hold the same slots *)

Section values.
Context (c : RadixCache) (L : gset nat) (P : nat → list qunit) (V : nat → list Z).
Context (T : tree c L P V).

Lemma below_V m n : m ∈ L → below c m n → V n `prefix_of` V m.
Proof.
  intros Hm Hb. revert Hm. induction Hb as [m|m k n Hp _ IH]; intros Hm; [done|].
  destruct (parent_of_live _ _ _ _ T _ _ Hm Hp) as (Hk & _ & Hmr). etrans; [by apply IH|].
  destruct (tr_node T m Hm Hmr) as (x & p & px & v & Hx & Hok). destruct Hp as (x' & Hx' & Hp).
  assert (x' = x) by congruence. subst x'.
  assert (p = k) by (pose proof (no_parent Hok); congruence). subst p.
  rewrite (no_V Hok). by apply prefix_app_r.
Qed.

Lemma shared_values l : (rc_page_size c | l) → ∀ n, n ∈ L → ∀ m, m ∈ L →
  0 ≤ l → l ≤ zlen (P n) → l ≤ zlen (P m) → take (Z.to_nat l) (P n) = take (Z.to_nat l) (P m) →
  take (Z.to_nat l) (V n) = take (Z.to_nat l) (V m).
Proof.
  intros Hd. apply (tree_ind _ _ _ _ T (λ n, ∀ m, m ∈ L →
    0 ≤ l → l ≤ zlen (P n) → l ≤ zlen (P m) → take (Z.to_nat l) (P n) = take (Z.to_nat l) (P m) →
    take (Z.to_nat l) (V n) = take (Z.to_nat l) (V m))).
  { intros m Hm H0 Hl. rewrite (tr_root_P T), zlen_nil in Hl. by replace l with 0 by lia. }
  intros n x p px v Hn Hr Hx Hok IH m Hm H0 Hln Hlm Ht. pose proof (tr_ps T) as Hps.
  pose proof (zlen_nonneg (P p)). pose proof (P_V_length _ _ _ _ T p (no_live Hok)) as HVp.
  destruct (decide (l ≤ zlen (P p))) as [Hle|Hgt].
  - rewrite (no_V Hok), take_app_le by (unfold zlen in *; lia). apply IH; try done.
    rewrite <- Ht, (no_P Hok), take_app_le by (unfold zlen in *; lia). done.
  - assert (Hge : zlen (P p) + rc_page_size c ≤ l).
    { destruct Hd as [q ->], (P_pages _ _ _ _ T p (no_live Hok)) as [r Hr']. rewrite Hr' in *.
      assert (r < q) by nia. nia. }
    assert (Hpre : P p ++ first_page c (tn_key x) `prefix_of` P m).
    { etrans; [|apply (prefix_take _ (Z.to_nat l))]. rewrite <- Ht, (no_P Hok).
      replace (Z.to_nat l) with (length (P p) + (Z.to_nat l - length (P p)))%nat by (unfold zlen in *; lia).
      rewrite take_app_add. apply prefix_app. unfold first_page.
      rewrite <- (prefix_same_take (take (Z.to_nat l - length (P p)) (qunits (tn_key x)))
        (qunits (tn_key x)) (Z.to_nat (rc_page_size c)) (prefix_take _ _)); [apply prefix_take|].
      rewrite length_take. pose proof (key_ok_len _ _ _ _ T _ (no_key Hok)) as Hkl.
      rewrite <- zlen_qunits in Hkl. unfold zlen in *. lia. }
    assert (Hb : below c m p).
    { apply (prefix_below _ _ _ _ T); [apply Hok|done|]. etrans; [|exact Hpre]. by apply prefix_app_r. }
    destruct (descend _ _ _ _ T p px m (tn_key x)) as (ch & y & u & Hs & Hbc & _);
      [apply Hok|done|apply Hok|done|apply Hok|done|].
    rewrite (no_slot Hok) in Hs. inversion Hs; subst ch.
    apply prefix_same_take; [by apply below_V|].
    pose proof (P_V_length _ _ _ _ T n Hn). unfold zlen in *. lia.
Qed.

End values.

(** ** match_prefix *)

Definition cache_wf (c : RadixCache) (H : list nat) : Prop := ∃ g, inv c g H.

(** The key that is looked up: the bigram view when the cache works on bigrams, in whole pages. *)
Definition lookup_key (c : RadixCache) (key : RadixKey) : RadixKey :=
  page_aligned (maybe_to_bigram_view key (rc_is_eagle c) None).1 (rc_page_size c).

Definition key_kind_ok (c : RadixCache) (key : RadixKey) : Prop :=
  is_bigram key = true → rc_is_eagle c = true.

Lemma page_aligned_len k ps :
  1 ≤ ps → RadixKey_len (page_aligned k ps) = RadixKey_len k / ps * ps.
Proof.
  intros Hps. unfold page_aligned. case_bool_decide; [subst; by rewrite Z.div_1_r, Z.mul_1_r|].
  pose proof (RadixKey_len_nonneg k). pose proof (Z.div_pos (RadixKey_len k) ps ltac:(lia) ltac:(lia)).
  pose proof (Z.mul_div_le (RadixKey_len k) ps ltac:(lia)). apply RadixKey_len_to. nia.
Qed.

Lemma lookup_key_ok c key : 1 ≤ rc_page_size c → key_kind_ok c key → rest_ok c (lookup_key c key).
Proof.
  intros Hps Hk. split.
  - unfold lookup_key, page_aligned, maybe_to_bigram_view, key_kind_ok in *.
    destruct (rc_is_eagle c), (is_bigram key) eqn:E; simpl; try (by specialize (Hk eq_refl));
      case_bool_decide; simpl; unfold RadixKey_to; rewrite ?slice_is_bigram; done.
  - unfold lookup_key. rewrite page_aligned_len by done. apply Z.divide_factor_r.
Qed.

Section match_prefix.
Context (monotonic : nat → Z).

Lemma match_prefix_helper_spec c g H key :
  inv c g H → key_ok c key →
  ∃ vals n' c' g', match_prefix_helper monotonic c (rc_root c) key = Ok (vals, n', c')
    ∧ inv c' g' H ∧ refines g g' ∧ config c' = config c ∧ n' ∈ gL g'
    ∧ concat vals = gV g' n' ∧ gP g' n' `prefix_of` qunits key
    ∧ longest (rc_page_size c) g' (qunits key) n'.
Proof.
  intros Hi Hk. unfold match_prefix_helper, monotonic_time. cbv zeta iota beta.
  set (c1 := upd_node _ _ _).
  assert (Hi1 : inv c1 g H) by (apply inv_upd_node; [done|]; by apply (inv_core c)).
  assert (Hk1 : key_ok c1 key) by (by destruct Hk).
  rewrite (key_ok_child_key c1 _ _ _ (iv_tree Hi1) key Hk1). cbn [mbind res_bind].
  destruct (match_loop_spec monotonic (S (Z.to_nat (RadixKey_len key))) c1 g H (rc_root c) key
    (slot (rc_page_size c1) (first_page c1 key)) [] (monotonic (rc_tick c)))
    as (vals & n' & c' & g' & Hgo & Hi' & R & Hcfg & HnL & Hvs & Hp & Hl); try done.
  - apply (tr_root_live (iv_tree Hi1)).
  - by destruct Hk1.
  - by rewrite (tr_root_V (iv_tree Hi)).
  - pose proof (RadixKey_len_nonneg key). lia.
  - rewrite (tr_root_P (iv_tree Hi)) in Hp, Hl. simpl in Hp, Hl.
    exists vals, n', c', g'. done.
Qed.

Lemma match_prefix_ok c g H key :
  inv c g H → key_kind_ok c key → rc_disable c = false →
  ∃ vs n' c' g', match_prefix monotonic c key = Ok (vs, n', c')
    ∧ inv c' g' H ∧ refines g g' ∧ config c' = config c ∧ n' ∈ gL g'
    ∧ vs = gV g' n' ∧ gP g' n' `prefix_of` qunits (lookup_key c key)
    ∧ longest (rc_page_size c) g' (qunits (lookup_key c key)) n'.
Proof.
  intros Hi Hkind Hdis. pose proof (tr_ps (iv_tree Hi)) as Hps.
  pose proof (lookup_key_ok c key Hps Hkind) as Hr.
  unfold match_prefix. rewrite Hdis. simpl.
  fold (lookup_key c key). set (k0 := (maybe_to_bigram_view key (rc_is_eagle c) None).1).
  assert (Hlen : RadixKey_len (lookup_key c key) = RadixKey_len k0 / rc_page_size c * rc_page_size c)
    by (unfold lookup_key; by apply page_aligned_len).
  assert (Hempty : RadixKey_len (lookup_key c key) = 0 →
    ∃ vs n' c' g', Ok ([], rc_root c, c) = Ok (vs, n', c')
    ∧ inv c' g' H ∧ refines g g' ∧ config c' = config c ∧ n' ∈ gL g'
    ∧ vs = gV g' n' ∧ gP g' n' `prefix_of` qunits (lookup_key c key)
    ∧ longest (rc_page_size c) g' (qunits (lookup_key c key)) n').
  { intros H0. exists [], (rc_root c), c, g. rewrite (tr_root_P (iv_tree Hi)), (tr_root_V (iv_tree Hi)).
    split_and!; try done; [apply (tr_root_live (iv_tree Hi))|apply prefix_nil|].
    pose proof (walk_stop_empty c g H Hi (rc_root c) (lookup_key c key) H0) as Hw.
    by rewrite (tr_root_P (iv_tree Hi)) in Hw. }
  case_bool_decide as H0; [apply Hempty; rewrite Hlen, H0; by rewrite Z.div_0_l by lia|].
  case_bool_decide as H1; [by apply Hempty|].
  pose proof (RadixKey_len_nonneg (lookup_key c key)).
  destruct (match_prefix_helper_spec c g H (lookup_key c key) Hi)
    as (vals & n' & c' & g' & Hgo & Hi' & R & Hcfg & HnL & Hvs & Hp & Hl);
    [apply rest_key_ok_pos; [done|lia]|].
  rewrite Hgo. cbn [mbind res_bind]. exists (concat vals), n', c', g'. done.
Qed.

End match_prefix.
