(* ===== verification/RadixInsert.v ===== *)
(** * Insertion into the radix cache

    [insert] of [src/python/sglang/srt/mem_cache/radix_cache.py] keeps the invariant, never raises,
    reports the length of the longest cached prefix and adds exactly the rest of the key with its
    slots.  Event recording is switched off here ([rc_enable_kv_cache_events] is false). *)

From S2P Require Import Prelude RadixKey PageHash RadixTree RadixInv RadixAcct RadixMatch.

Section insert.
Context (monotonic : nat → Z).

(** The attribute updates of the walk. *)
Lemma inv_touch c g H n priority chunked :
  inv c g H →
  inv (inc_hit_count (upd_node n (λ y, set_tn_priority (Z.max (tn_priority y) priority) y) c)
         n chunked) g H.
Proof.
  intros Hi. unfold inc_hit_count. destruct chunked; repeat (apply inv_upd_node; [done|]); done.
Qed.

Lemma config_touch c n priority chunked :
  config (inc_hit_count (upd_node n (λ y, set_tn_priority (Z.max (tn_priority y) priority) y) c)
            n chunked) = config c
  ∧ rc_evictable_size (inc_hit_count (upd_node n (λ y, set_tn_priority (Z.max (tn_priority y) priority) y) c)
            n chunked) = rc_evictable_size c
  ∧ rc_protected_size (inc_hit_count (upd_node n (λ y, set_tn_priority (Z.max (tn_priority y) priority) y) c)
            n chunked) = rc_protected_size c.
Proof. by destruct chunked. Qed.

(** Where the walk of [_insert_helper] ends. *)
Record insert_end (c : RadixCache) (g g' : ghost) (H : list nat) (n : nat)
    (key : RadixKey) (value : list Z) (total : Z)
    (n' : nat) (key' : RadixKey) (value' : list Z) (ck' : ckey) (total' : Z) (c' : RadixCache)
    : Prop := {
  ie_inv : inv c' g' H;
  ie_refines : refines g g';
  ie_config : config c' = config c;
  ie_sizes : rc_evictable_size c' = rc_evictable_size c ∧ rc_protected_size c' = rc_protected_size c;
  ie_live : n' ∈ gL g';
  ie_key : gP g' n' ++ qunits key' = gP g n ++ qunits key;
  ie_rest : rest_ok c' key';
  ie_value : value' = drop (Z.to_nat (total' - total)) value;
  ie_total : total' - total = zlen (gP g' n') - zlen (gP g n) ∧ total ≤ total';
  ie_stop : 0 < RadixKey_len key' →
    ck' = slot (rc_page_size c) (first_page c' key')
    ∧ ∃ x, rc_nodes c' !! n' = Some x ∧ tn_children x !! ck' = None;
  ie_longest : longest (rc_page_size c) g' (gP g n ++ qunits key) n'
}.

(** One iteration: into a fully matched child, or into the upper half of a split one. *)
Lemma insert_step c g H n x k ch t :
  inv c g H → n ∈ gL g → rc_nodes c !! n = Some x → key_ok c k →
  tn_children x !! slot (rc_page_size c) (first_page c k) = Some ch →
  ∃ y pl n1 c1 g1, rc_nodes c !! ch = Some y ∧ RadixKey_match (tn_key y) k (rc_page_size c) = Ok pl
    ∧ 0 < pl ≤ RadixKey_len k ∧ (rc_page_size c | pl)
    ∧ (if bool_decide (pl < RadixKey_len (tn_key y)) then
         split_node monotonic (upd_node ch (set_tn_last_access_time t) c) (tn_key y) ch pl
       else Ok (ch, upd_node ch (set_tn_last_access_time t) c)) = Ok (n1, c1)
    ∧ inv c1 g1 H ∧ refines g g1 ∧ config c1 = config c ∧ n1 ∈ gL g1
    ∧ rc_evictable_size c1 = rc_evictable_size c ∧ rc_protected_size c1 = rc_protected_size c
    ∧ gP g1 n1 = gP g n ++ take (Z.to_nat pl) (qunits k).
Proof.
  intros Hi Hn Hx Hk Hs. pose proof (tr_ps (iv_tree Hi)) as Hps.
  destruct (child_match _ _ _ _ (iv_tree Hi) n x k ch Hn Hx Hk Hs)
    as (y & v & pl & Hy & Hok & HcL & Hfp & He & Hm & Hpl & B1 & B2 & B3 & Hd).
  exists y, pl. case_bool_decide as Hlt.
  - destruct (split_step monotonic c g H n x k ch y v pl t) as
      (c' & g' & Hsp & Hi' & R & Hcfg & Hid & HP & HV & _ & _ & S1 & S2); try done.
    exists (rc_counter c), c', g'. rewrite Hsp. split_and!; (done || lia).
  - exists ch, (upd_node ch (set_tn_last_access_time t) c), g.
    split_and!; try done; try lia; [by apply inv_upd_node|].
    rewrite (no_P Hok). f_equal.
    rewrite <- (common_len_take (qunits (tn_key y)) (qunits k));
      [|lia|rewrite Hpl; apply page_match_bounds; lia].
    symmetry. apply take_ge. pose proof (zlen_qunits (tn_key y)). unfold zlen in *. lia.
Qed.

(** Where the descent stops: no child continues the key. *)
Lemma insert_end_stop c g H n x key value ck total :
  inv c g H → n ∈ gL g → rc_nodes c !! n = Some x → rest_ok c key →
  (0 < RadixKey_len key → ck = slot (rc_page_size c) (first_page c key)) →
  (0 < RadixKey_len key → tn_children x !! slot (rc_page_size c) (first_page c key) = None) →
  insert_end c g g H n key value total n key value ck total c.
Proof.
  intros Hi Hn Hx Hr Hck Hnone. split; try done.
  - by rewrite Z.sub_diag.
  - lia.
  - intros Hlen. rewrite <- (Hck Hlen) in Hnone. split; [by apply Hck|]. exists x. auto.
  - destruct (decide (0 < RadixKey_len key)) as [Hlen|Hlen].
    + apply (walk_stop_missing c g H Hi n x Hn Hx); [by apply rest_key_ok_pos|by apply Hnone].
    + eapply walk_stop_empty; [done|]. pose proof (RadixKey_len_nonneg key). lia.
Qed.

Lemma insert_loop_spec fuel : ∀ c g H t priority chunked n key value ck total,
  inv c g H → n ∈ gL g → rest_ok c key →
  (0 < RadixKey_len key → ck = slot (rc_page_size c) (first_page c key)) →
  RadixKey_len key < Z.of_nat fuel →
  ∃ n' key' value' ck' total' c' g',
    insert_loop monotonic fuel c t priority chunked n key value ck total
      = Ok (n', key', value', ck', total', c')
    ∧ insert_end c g g' H n key value total n' key' value' ck' total' c'.
Proof.
  induction fuel as [|fuel IH]; intros c g H t priority chunked n key value ck total Hi Hn Hr Hck Hf.
  { pose proof (RadixKey_len_nonneg key). lia. }
  destruct (tree_lookup _ _ _ _ (iv_tree Hi) n Hn) as (x & Hx).
  cbn [insert_loop]. rewrite (get_node_Some _ _ _ Hx). cbn [mbind res_bind].
  pose proof (insert_end_stop c g H n x key value ck total Hi Hn Hx Hr Hck) as Hstop.
  case_bool_decide as Hlen.
  2: { do 7 eexists. split; [done|]. apply Hstop. lia. }
  pose proof (rest_key_ok_pos _ _ Hr Hlen) as Hk. rewrite (Hck Hlen). unfold get_child.
  destruct (tn_children x !! slot (rc_page_size c) (first_page c key)) as [ch|] eqn:Hs.
  2: { rewrite <- (Hck Hlen). do 7 eexists. split; [done|]. by apply Hstop. }
  destruct (insert_step c g H n x key ch t Hi Hn Hx Hk Hs)
    as (y & pl & n1 & c1 & g1 & Hy & Hm & Hpl & Hd & Hstep & Hi1 & R1 & Hcfg1 & Hn1 & S1 & S2 & HP1).
  rewrite (get_node_Some _ _ _ Hy). cbn [mbind res_bind].
  change (rc_page_size (upd_node ch (set_tn_last_access_time t) c)) with (rc_page_size c).
  rewrite Hm. cbn [mbind res_bind]. rewrite Hstep. cbn [mbind res_bind].
  set (c2 := inc_hit_count _ _ _).
  assert (Hi2 : inv c2 g1 H) by (by apply inv_touch).
  destruct (config_touch c1 n1 priority chunked) as (Hcfg2 & S1' & S2'). fold c2 in Hcfg2, S1', S2'.
  assert (Hcfg : config c2 = config c) by congruence.
  assert (Eps : rc_page_size c2 = rc_page_size c) by (by inversion Hcfg).
  assert (Hr2 : rest_ok c2 (RadixKey_from key pl)).
  { destruct (rest_ok_from c key pl Hr ltac:(lia) Hd) as [Ha Hb]. split; [|by rewrite Eps].
    rewrite Ha. by inversion Hcfg. }
  destruct (next_child_key_eq c2 _ _ _ _ (slot (rc_page_size c) (first_page c key)) (iv_tree Hi2) Hr2)
    as (ck2 & Hck2 & Hck2').
  rewrite Hck2. cbn [mbind res_bind].
  destruct (IH c2 g1 H t priority chunked n1 (RadixKey_from key pl) (value⟨pl:⟩) ck2 (total + pl))
    as (n' & key' & value' & ck' & total' & c' & g' & Hgo & He); try done.
  { rewrite RadixKey_len_from by lia. lia. }
  exists n', key', value', ck', total', c', g'. split; [done|].
  destruct He as [E1 E2 E3 E4 E5 E6 E7 E8 E9 E10 E11].
  assert (EK : gP g1 n1 ++ qunits (RadixKey_from key pl) = gP g n ++ qunits key).
  { rewrite HP1, qunits_from by lia. rewrite <- app_assoc. by rewrite take_drop. }
  assert (Elen : zlen (gP g1 n1) = zlen (gP g n) + pl).
  { rewrite HP1, zlen_app, zlen_take, zlen_qunits. lia. }
  rewrite Eps in *. split; try done; try congruence.
  - by etrans.
  - rewrite E8, slice_from_drop, drop_drop by lia. f_equal. lia.
  - lia.
  - by rewrite EK in E11.
Qed.

(** ** The new leaf *)

Lemma insert_leaf_spec c g H n x k v priority chunked :
  inv c g H → rc_enable_kv_cache_events c = false →
  n ∈ gL g → rc_nodes c !! n = Some x → key_ok c k → zlen v = RadixKey_len k →
  tn_children x !! slot (rc_page_size c) (first_page c k) = None →
  ∃ c', insert_leaf monotonic c n k v (slot (rc_page_size c) (first_page c k)) priority chunked = Ok c'
    ∧ inv c' (leaf_ghost c g n k v) H ∧ config c' = config c
    ∧ rc_evictable_size c' = rc_evictable_size c + RadixKey_len k
    ∧ rc_protected_size c' = rc_protected_size c.
Proof.
  intros Hi Hev Hn Hx Hk Hv Hfree. pose proof (iv_tree Hi) as T.
  pose proof (live_ne_id c _ _ _ T n Hn) as Hid.
  set (ck := slot (rc_page_size c) (first_page c k)) in *.
  set (y := if chunked then set_tn_parent (Some n) (TreeNode_init monotonic c priority k (Some v))
            else set_tn_hit_count 1 (set_tn_parent (Some n) (TreeNode_init monotonic c priority k (Some v)))).
  set (c2 := set_rc_evictable_size (rc_evictable_size c + RadixKey_len k)
       (set_rc_nodes (<[n := leaf_parent c x k]> (<[rc_counter c := y]> (rc_nodes c)))
         (set_rc_tick (S (S (rc_tick c))) (set_rc_counter (S (rc_counter c)) c)))).
  assert (Hy : core y = ((∅, Some n, k, Some v), 0)) by (unfold y; by destruct chunked).
  assert (T2 : tree c2 (gL (leaf_ghost c g n k v)) (gP (leaf_ghost c g n k v)) (gV (leaf_ghost c g n k v)))
    by (by apply (leaf_tree c c2 g H Hi n x y k v)).
  assert (Hn2 : rc_nodes c2 !! n = Some (leaf_parent c x k)) by (simpl; by rewrite lookup_insert_eq).
  assert (Hy2 : rc_nodes c2 !! rc_counter c = Some y)
    by (simpl; rewrite lookup_insert_ne by done; by rewrite lookup_insert_eq).
  assert (Hlock : 0 ≤ tn_lock_ref x).
  { pose proof (lock_nonneg _ _ _ n Hi Hn) as Hl. unfold node_lock in Hl. by rewrite Hx in Hl. }
  assert (Hgo : insert_leaf monotonic c n k v ck priority chunked
    = (c3 ← update_leaf_status c2 n; c4 ← update_leaf_status c3 (rc_counter c);
       record_store_event c4 (rc_counter c) GPU)).
  { unfold insert_leaf, new_node. cbv zeta iota beta.
    assert (Hg : ∀ d, rc_nodes d !! n = Some x → get_node d n = Ok x) by (intros; by apply get_node_Some).
    unfold inc_hit_count, upd_node. destruct chunked.
    - rewrite Hg by (simpl; by rewrite lookup_insert_ne). cbn [mbind res_bind].
      unfold c2. do 2 f_equal. unfold set_rc_evictable_size, set_rc_nodes. cbn. f_equal.
      by rewrite (alter_lookup_Some _ n _ x) by (by rewrite lookup_insert_ne).
    - rewrite Hg by (simpl; rewrite lookup_alter_ne by done; by rewrite lookup_insert_ne).
      cbn [mbind res_bind].
      unfold c2. do 2 f_equal. unfold set_rc_evictable_size, set_rc_nodes. cbn. f_equal.
      rewrite (alter_lookup_Some _ (rc_counter c) _ _ (lookup_insert_eq _ _ _)).
      rewrite insert_insert_eq.
      by rewrite (alter_lookup_Some _ n _ x) by (by rewrite lookup_insert_ne). }
  rewrite Hgo.
  rewrite (update_leaf_status_eq c2 _ _ _ T2 n (leaf_parent c x k)); [|simpl; set_solver|done|done].
  rewrite decide_False by (by eapply (leaf_parent_not_leaf c c2)). cbn [mbind res_bind].
  set (c3 := set_rc_evictable_leaves _ c2).
  assert (T3 : tree c3 (gL (leaf_ghost c g n k v)) (gP (leaf_ghost c g n k v)) (gV (leaf_ghost c g n k v)))
    by (by apply (leaf_tree c c3 g H Hi n x y k v)).
  assert (Hlf : is_leaf c3 (rc_counter c)) by (by apply (leaf_new_attrs c c3 g H Hi n x y k v)).
  rewrite (update_leaf_status_eq c3 _ _ _ T3 (rc_counter c) y); [|simpl; set_solver|done|].
  2: { by destruct (leaf_core n y k v Hy) as (_ & _ & _ & _ & ->). }
  rewrite decide_True by done. cbn [mbind res_bind].
  unfold record_store_event. simpl. rewrite Hev.
  eexists. split; [reflexivity|]. split_and!; try done.
  by eapply (leaf_inv c _ g H Hi n x y k v).
Qed.

(** ** insert *)

(** The tree gained the path [K] with the slots [U], and nothing else. *)
Record adds (g g' : ghost) (K : list qunit) (U : list Z) : Prop := {
  ad_live n : n ∈ gL g → n ∈ gL g';
  ad_P n : n ∈ gL g → gP g' n = gP g n;
  ad_V n : n ∈ gL g → gV g' n = gV g n;
  ad_new n : n ∈ gL g' →
    (∃ m, m ∈ gL g ∧ gP g' n `prefix_of` gP g m ∧ gV g' n `prefix_of` gV g m)
    ∨ (gP g' n `prefix_of` K ∧ gV g' n `prefix_of` U);
  ad_path : ∃ n, n ∈ gL g' ∧ gP g' n = K ∧ gV g' n = U
}.

Lemma refines_adds g g' n : refines g g' → n ∈ gL g' → adds g g' (gP g' n) (gV g' n).
Proof.
  intros R Hn. split; try apply R; [|by exists n]. intros m Hm. left. by apply R.
Qed.

Lemma leaf_adds c g g1 H n k v :
  refines g g1 → inv c g1 H → n ∈ gL g1 →
  adds g (leaf_ghost c g1 n k v) (gP g1 n ++ qunits k) (gV g1 n ++ v).
Proof.
  intros R Hi Hn.
  assert (Hid : rc_counter c ∉ gL g1) by (intros Hin; by apply (live_ne_id c _ _ _ (iv_tree Hi) _ Hin)).
  assert (Hne : ∀ m, m ∈ gL g1 → m ≠ rc_counter c) by (intros m Hm ->; done).
  split; simpl.
  - intros m Hm. apply (rf_live R) in Hm. set_solver.
  - intros m Hm. rewrite fun_upd_ne by (by apply Hne, (rf_live R)). by apply R.
  - intros m Hm. rewrite fun_upd_ne by (by apply Hne, (rf_live R)). by apply R.
  - intros m Hm. destruct (decide (m = rc_counter c)) as [->|Hmid].
    + right. by rewrite !fun_upd_eq.
    + left. rewrite !fun_upd_ne by done. apply R. set_solver.
  - exists (rc_counter c). rewrite !fun_upd_eq. split; [set_solver|done].
Qed.

(** The slots a call passes for the key. *)
Definition insert_row (c : RadixCache) (key : RadixKey) (value : list Z) : list Z :=
  take (Z.to_nat (RadixKey_len (lookup_key c key))) value.

(** The empty key is everywhere. *)
Lemma empty_key_facts c g H :
  inv c g H →
  adds g g [] []
  ∧ (∃ m, m ∈ gL g ∧ [] `prefix_of` gP g m ∧ [] `prefix_of` gV g m)
  ∧ (∀ h, h ∈ gL g → common_len (gP g h) [] < 0 + rc_page_size c).
Proof.
  intros Hi. pose proof (tr_ps (iv_tree Hi)). split_and!.
  - pose proof (refines_adds g g (rc_root c) (reflexivity g) (tr_root_live (iv_tree Hi))) as Ha.
    by rewrite (tr_root_P (iv_tree Hi)), (tr_root_V (iv_tree Hi)) in Ha.
  - exists (rc_root c). split_and!; [apply (iv_tree Hi)|apply prefix_nil..].
  - intros h Hh. pose proof (common_len_bounds (gP g h) []) as (_ & _ & Hb). rewrite zlen_nil in Hb. lia.
Qed.

(** What the descent from the root to [n'] has found of the key [k]: its first [pl] units. *)
Lemma descent_facts c c2 g g2 H k n' k' pl :
  inv c2 g2 H → refines g g2 → config c2 = config c → n' ∈ gL g2 → gP g2 n' ++ qunits k' = qunits k →
  pl = zlen (gP g2 n') → longest (rc_page_size c) g2 (qunits k) n' →
  gP g2 n' = take (Z.to_nat pl) (qunits k) ∧ RadixKey_len k = pl + RadixKey_len k'
  ∧ (∃ m, m ∈ gL g ∧ take (Z.to_nat pl) (qunits k) `prefix_of` gP g m ∧ gV g2 n' `prefix_of` gV g m)
  ∧ zlen (gV g2 n') = pl
  ∧ (∀ h, h ∈ gL g → common_len (gP g h) (qunits k) < pl + rc_page_size c)
  ∧ (rc_page_size c | pl).
Proof.
  intros Hi2 Hrf Hcfg Hn E6 E9 E11.
  assert (EP : gP g2 n' = take (Z.to_nat pl) (qunits k)).
  { rewrite <- E6. rewrite take_app_le, take_ge by (unfold zlen in *; lia). done. }
  split_and!; [done| | | | |].
  - rewrite <- !zlen_qunits, <- E6, zlen_app. lia.
  - destruct (rf_new Hrf n' Hn) as (m & Hm & Hp & Hv). exists m. by rewrite <- EP.
  - rewrite (P_V_length _ _ _ _ (iv_tree Hi2) n' Hn). lia.
  - intros h Hh. specialize (E11 h (rf_live Hrf h Hh)). rewrite (rf_P Hrf h Hh) in E11. lia.
  - pose proof (P_pages _ _ _ _ (iv_tree Hi2) n' Hn) as Hd. replace (zlen (gP g2 n')) with pl in Hd by lia.
    assert (rc_page_size c2 = rc_page_size c) as Eq by (by inversion Hcfg). by rewrite Eq in Hd.
Qed.

Lemma insert_helper_spec c g H k row priority chunked :
  inv c g H → rc_enable_kv_cache_events c = false → rest_ok c k → zlen row = RadixKey_len k →
  ∃ pl c' g' U0, insert_helper monotonic c (rc_root c) k row priority chunked = Ok (pl, c')
    ∧ inv c' g' H ∧ config c' = config c
    ∧ adds g g' (qunits k) (U0 ++ drop (Z.to_nat pl) row)
    ∧ 0 ≤ pl ≤ RadixKey_len k ∧ (rc_page_size c | pl) ∧ zlen U0 = pl
    ∧ (∃ m, m ∈ gL g ∧ take (Z.to_nat pl) (qunits k) `prefix_of` gP g m ∧ U0 `prefix_of` gV g m)
    ∧ (∀ h, h ∈ gL g → common_len (gP g h) (qunits k) < pl + rc_page_size c)
    ∧ rc_evictable_size c' = rc_evictable_size c + (RadixKey_len k - pl)
    ∧ rc_protected_size c' = rc_protected_size c.
Proof.
  intros Hi Hev Hr Hrow. unfold insert_helper, monotonic_time. cbv zeta iota beta.
  set (c1 := upd_node _ _ _).
  assert (Hi1 : inv c1 g H) by (apply inv_upd_node; [done|]; by apply (inv_core c)).
  pose proof (iv_tree Hi1) as T1. pose proof (RadixKey_len_nonneg k) as Hlen0.
  pose proof (tr_ps (iv_tree Hi)) as Hps.
  case_bool_decide as H0.
  { exists 0, c1, g, []. assert (Hq : qunits k = []) by (apply zlen_0; by rewrite zlen_qunits).
    assert (Hw : row = []) by (apply zlen_0; lia). rewrite Hq, Hw.
    destruct (empty_key_facts c g H Hi) as (F1 & F2 & F3).
    split_and!; try done; try lia; try apply Z.divide_0_r. simpl. lia. }
  assert (Hk1 : key_ok c1 k) by (apply rest_key_ok_pos; [done|lia]).
  rewrite (key_ok_child_key c1 _ _ _ T1 k Hk1). cbn [mbind res_bind].
  destruct (insert_loop_spec (S (Z.to_nat (RadixKey_len k))) c1 g H (monotonic (rc_tick c))
    (default 0 priority) chunked (rc_root c) k row (slot (rc_page_size c1) (first_page c1 k)) 0)
    as (n' & k' & row' & ck' & pl & c2 & g2 & Hgo & He); [done|apply T1|done|done|lia|].
  rewrite Hgo. cbn [mbind res_bind].
  destruct He as [E1 E2 E3 [E4 E4'] E5 E6 E7 E8 E9 E10 E11].
  rewrite (tr_root_P (iv_tree Hi)) in E6, E9, E11. change (zlen (@nil qunit)) with 0 in E9. simpl in E6, E11.
  destruct (descent_facts c c2 g g2 H k n' k' pl) as (EP & Elen & Hold & HV & Hlong & Hd); try done; [lia|].
  pose proof (RadixKey_len_nonneg k') as Hk0.
  case_bool_decide as H1.
  - exists pl, c2, g2, (gV g2 n'). split_and!; try done; try lia.
    + rewrite drop_ge, app_nil_r by (unfold zlen in *; lia).
      assert (EK : gP g2 n' = qunits k).
      { rewrite EP. apply take_ge. pose proof (zlen_qunits k). unfold zlen in *. lia. }
      rewrite <- EK. by apply refines_adds.
    + rewrite E4. simpl. lia.
  - destruct (E10 ltac:(lia)) as (-> & x & Hx & Hnone).
    assert (Eps : rc_page_size c1 = rc_page_size c2) by (by inversion E3).
    assert (Hrow' : row' = drop (Z.to_nat pl) row) by (rewrite E8; f_equal; lia).
    destruct (insert_leaf_spec c2 g2 H n' x k' row' (default 0 priority) chunked)
      as (c3 & Hl & Hi3 & Hcfg3 & S1 & S2); try done.
    + assert (rc_enable_kv_cache_events c2 = rc_enable_kv_cache_events c) as -> by (by inversion E3).
      done.
    + apply rest_key_ok_pos; [done|lia].
    + rewrite Hrow', zlen_drop. lia.
    + by rewrite <- Eps.
    + rewrite Eps, Hl. cbn [mbind res_bind].
      exists pl, c3, (leaf_ghost c2 g2 n' k' row'), (gV g2 n').
      split_and!; try done; try lia.
      * by rewrite Hcfg3.
      * rewrite <- Hrow', <- E6. by eapply leaf_adds.
      * rewrite S1, E4. change (rc_evictable_size c1) with (rc_evictable_size c). lia.
      * by rewrite S2.
Qed.

Lemma insert_unfold c key value priority chunked :
  1 ≤ rc_page_size c → rc_disable c = false →
  insert monotonic c key (Some value) priority chunked
  = insert_helper monotonic c (rc_root c) (lookup_key c key) (insert_row c key value) priority chunked.
Proof.
  intros Hps Hdis. unfold insert, insert_row. rewrite Hdis. unfold lookup_key, maybe_to_bigram_view.
  destruct (rc_is_eagle c && negb (is_bigram key)); simpl;
    match goal with |- context [page_aligned ?k ?p] =>
      pose proof (page_aligned_len k p Hps) as Hl; pose proof (RadixKey_len_nonneg k) as Hk;
      pose proof (RadixKey_len_nonneg (page_aligned k p)) as Hp end.
  - rewrite !slice_to_take by done. rewrite take_take. do 2 f_equal.
    match type of Hl with _ = ?l / ?p * ?p => pose proof (Z.mul_div_le l p ltac:(lia)) end. lia.
  - by rewrite slice_to_take.
Qed.

Lemma insert_ok c g H key value priority chunked :
  inv c g H → rc_enable_kv_cache_events c = false → rc_disable c = false → key_kind_ok c key →
  RadixKey_len (lookup_key c key) ≤ zlen value →
  ∃ pl c' g' U0, insert monotonic c key (Some value) priority chunked = Ok (pl, c')
    ∧ inv c' g' H ∧ config c' = config c
    ∧ adds g g' (qunits (lookup_key c key)) (U0 ++ drop (Z.to_nat pl) (insert_row c key value))
    ∧ 0 ≤ pl ≤ RadixKey_len (lookup_key c key) ∧ (rc_page_size c | pl) ∧ zlen U0 = pl
    ∧ (∃ m, m ∈ gL g ∧ take (Z.to_nat pl) (qunits (lookup_key c key)) `prefix_of` gP g m
            ∧ U0 `prefix_of` gV g m)
    ∧ (∀ h, h ∈ gL g → common_len (gP g h) (qunits (lookup_key c key)) < pl + rc_page_size c)
    ∧ rc_evictable_size c' = rc_evictable_size c + (RadixKey_len (lookup_key c key) - pl)
    ∧ rc_protected_size c' = rc_protected_size c.
Proof.
  intros Hi Hev Hdis Hkind Hlen. pose proof (tr_ps (iv_tree Hi)) as Hps.
  rewrite insert_unfold by done. apply insert_helper_spec; [done|done|by apply lookup_key_ok|].
  unfold insert_row. rewrite zlen_take. pose proof (RadixKey_len_nonneg (lookup_key c key)). lia.
Qed.

End insert.
