(* ===== verification/RadixLock.v ===== *)
(** * Locks of the radix cache

    [inc_lock_ref] and [dec_lock_ref] of [src/python/sglang/srt/mem_cache/radix_cache.py] walk from a
    node to the root.  Taking a lock adds the node to the held locks, releasing removes it; the
    walks terminate, never raise, and keep the invariant (so the size counters and the set of
    evictable leaves follow the locks). *)

From S2P Require Import Prelude RadixKey PageHash RadixTree RadixInv RadixAcct RadixMatch.

(** ** Changing one lock count *)

Section relock.
Context (c c1 : RadixCache) (g : ghost) (T : tree c (gL g) (gP g) (gV g)) (A : acct c (gL g)).
Context (a : nat) (x : TreeNode) (Ha : a ∈ gL g) (Hx : rc_nodes c !! a = Some x).
Context (l' : Z) (Hl' : 0 ≤ l').
Context (Hcfg : config c1 = config c) (Hcnt : rc_counter c1 = rc_counter c).
Context (Hnodes : rc_nodes c1 = <[a := set_tn_lock_ref l' x]> (rc_nodes c)).
Context (Hleaves : rc_evictable_leaves c1 = rc_evictable_leaves c).
Context (Hev : rc_evictable_size c1
  = rc_evictable_size c - unlocked_len c a + (if bool_decide (l' = 0) then node_len c a else 0)).
Context (Hpr : rc_protected_size c1
  = rc_protected_size c - locked_len c a + (if bool_decide (l' = 0) then 0 else node_len c a)).

Lemma relock_lookup_a : rc_nodes c1 !! a = Some (set_tn_lock_ref l' x).
Proof. rewrite Hnodes. by rewrite lookup_insert_eq. Qed.

Lemma relock_lookup_ne m : m ≠ a → rc_nodes c1 !! m = rc_nodes c !! m.
Proof. intros. rewrite Hnodes. by rewrite lookup_insert_ne. Qed.

Lemma relock_tree : tree c1 (gL g) (gP g) (gV g).
Proof.
  apply (tree_shape c); [done|lia| |done]. rewrite Hnodes. apply map_eq. intros i.
  rewrite !lookup_fmap, lookup_insert. destruct (decide (a = i)) as [<-|]; [|done].
  by rewrite Hx.
Qed.

Lemma relock_lock m : node_lock c1 m = if decide (m = a) then l' else node_lock c m.
Proof.
  unfold node_lock. destruct (decide (m = a)) as [->|];
    [by rewrite relock_lookup_a|by rewrite relock_lookup_ne].
Qed.

Lemma relock_len m : node_len c1 m = node_len c m.
Proof.
  unfold node_len. destruct (decide (m = a)) as [->|];
    [by rewrite relock_lookup_a, Hx|by rewrite relock_lookup_ne].
Qed.

Lemma relock_leaf_ne m : m ≠ a → is_leaf c1 m ↔ is_leaf c m.
Proof. intros. unfold is_leaf. by rewrite relock_lookup_ne. Qed.

Lemma relock_sum (f : bool → Z → Z) :
  sum_over (λ m, f (bool_decide (node_lock c1 m = 0)) (node_len c1 m)) (gL g)
  = sum_over (λ m, f (bool_decide (node_lock c m = 0)) (node_len c m)) (gL g)
    - f (bool_decide (node_lock c a = 0)) (node_len c a) + f (bool_decide (l' = 0)) (node_len c a).
Proof.
  rewrite (sum_over_update (λ m, f (bool_decide (node_lock c m = 0)) (node_len c m)) _ _ a); [|done|].
  - rewrite relock_lock, relock_len. by rewrite decide_True.
  - intros m Hm Hma. rewrite relock_lock, relock_len. by rewrite decide_False.
Qed.

Lemma relock_spec :
  ∃ c2, update_leaf_status c1 a = Ok c2 ∧ tree c2 (gL g) (gP g) (gV g) ∧ acct c2 (gL g)
    ∧ config c2 = config c ∧ rc_counter c2 = rc_counter c ∧ rc_nodes c2 = rc_nodes c1
    ∧ rc_evictable_size c2 = rc_evictable_size c1 ∧ rc_protected_size c2 = rc_protected_size c1.
Proof.
  rewrite (update_leaf_status_eq c1 _ _ _ relock_tree a _ Ha relock_lookup_a Hl').
  eexists. split; [reflexivity|]. destruct A as [A1 A2 A3]. split_and!; try done.
  - apply (tree_shape c1); [done|done|done|exact relock_tree].
  - split; simpl.
    + rewrite Hev, A1. symmetry. apply (relock_sum (λ b l, if b then l else 0)).
    + rewrite Hpr, A2. symmetry. apply (relock_sum (λ b l, if b then 0 else l)).
    + rewrite Hleaves, A3. apply set_eq. intros m.
      change (is_leaf (set_rc_evictable_leaves _ _)) with (is_leaf c1).
      rewrite elem_of_filter. destruct (decide (m = a)) as [->|Hma].
      * destruct (decide (is_leaf c1 a)); set_solver.
      * pose proof (relock_leaf_ne m Hma). destruct (decide (is_leaf c1 a)); set_solver.
Qed.

End relock.

(** ** The number of steps to the root *)

Definition rank (g : ghost) (a : nat) : nat :=
  size (filter (λ m, (length (gP g m) ≤ length (gP g a))%nat) (gL g)).

Lemma rank_counter c g a : tree c (gL g) (gP g) (gV g) → (rank g a ≤ rc_counter c)%nat.
Proof.
  intros T. unfold rank. etrans; [apply (subseteq_size _ (gL g)); set_solver|].
  rewrite <- (size_set_seq (C:=gset nat) 0 (rc_counter c)). apply subseteq_size. intros m Hm.
  destruct (tree_lookup _ _ _ _ T m Hm) as (y & Hy). apply (tr_fresh T) in Hy.
  apply elem_of_set_seq. lia.
Qed.

Lemma rank_pos g a : a ∈ gL g → (0 < rank g a)%nat.
Proof.
  intros Ha. unfold rank. apply Nat.neq_0_lt_0. intros E%size_empty_inv.
  assert (a ∈ filter (λ m, (length (gP g m) ≤ length (gP g a))%nat) (gL g)) by set_solver.
  set_solver.
Qed.

Lemma rank_parent g a p :
  a ∈ gL g → (length (gP g p) < length (gP g a))%nat → (rank g p < rank g a)%nat.
Proof.
  intros Ha Hlt. unfold rank. apply subset_size. split.
  - intros m. rewrite !elem_of_filter. intros [Hm ?]. split; [lia|done].
  - intros Hsub. specialize (Hsub a). rewrite !elem_of_filter in Hsub.
    destruct Hsub as [Hbad _]; [split; [lia|done]|lia].
Qed.

(** ** The walk *)

(** Nodes on the path to [n] that lie strictly below [a]: the ones the walk has passed. *)
Definition passed (g : ghost) (n a m : nat) : Z :=
  if decide (gP g m `prefix_of` gP g n ∧ (length (gP g a) < length (gP g m))%nat) then 1 else 0.

(** In the middle of a walk from [n] that adds [s] to every lock count and has reached [a]. *)
Record walking (c : RadixCache) (g : ghost) (H : list nat) (n a : nat) (s : Z) : Prop := {
  wk_tree : tree c (gL g) (gP g) (gV g);
  wk_acct : acct c (gL g);
  wk_held h : h ∈ H → h ∈ gL g ∧ h ≠ rc_root c;
  wk_root : node_lock c (rc_root c) = 1;
  wk_node m : m ∈ gL g → m ≠ rc_root c → node_lock c m = held_below g H m + s * passed g n a m;
  wk_live : a ∈ gL g;
  wk_path : gP g a `prefix_of` gP g n
}.
Arguments wk_tree {c g H n a s}.
Arguments wk_acct {c g H n a s}.
Arguments wk_held {c g H n a s}.
Arguments wk_root {c g H n a s}.
Arguments wk_node {c g H n a s}.
Arguments wk_live {c g H n a s}.
Arguments wk_path {c g H n a s}.

Lemma passed_self g n a : passed g n a a = 0.
Proof. unfold passed. rewrite decide_False; [done|]. lia. Qed.

Lemma passed_start g n m : passed g n n m = 0.
Proof. unfold passed. rewrite decide_False; [done|]. intros [Hp%prefix_length ?]. lia. Qed.

(** Passing [a] on the way to its parent [p] adds exactly [a]. *)
Lemma passed_parent c g n a x p px v m :
  tree c (gL g) (gP g) (gV g) → a ∈ gL g → rc_nodes c !! a = Some x →
  node_ok c (gL g) (gP g) (gV g) a x p px v → gP g a `prefix_of` gP g n → m ∈ gL g →
  passed g n p m = if decide (m = a) then 1 else passed g n a m.
Proof.
  intros T Ha Hx Hok Hpre Hm.
  pose proof (node_P_length _ _ _ _ _ _ _ _ _ Hok) as Hlen. pose proof (ko_pos (no_key Hok)) as Hpos.
  destruct (decide (m = a)) as [->|Hma].
  { unfold passed. rewrite decide_True; [done|]. split; [done|]. unfold zlen in *. lia. }
  unfold passed. destruct (decide (gP g m `prefix_of` gP g n)) as [Hmn|]; [|by rewrite !decide_False by tauto].
  destruct (decide (length (gP g a) < length (gP g m))%nat) as [Hlt|Hge].
  { rewrite !decide_True; [done|tauto|]. split; [done|]. unfold zlen in *. lia. }
  rewrite decide_False; [by rewrite decide_False by tauto|]. intros [_ Hlt]. apply Hma.
  assert (Hma' : gP g m `prefix_of` gP g a).
  { destruct (prefix_weak_total _ _ _ Hmn Hpre) as [|Hr]; [done|].
    rewrite (prefix_length_eq _ _ Hr) by lia. done. }
  assert (Hb : below c a m) by (by apply (prefix_below c _ _ _ T)).
  destruct Hb as [|a k m Hp Hb]; [done|].
  assert (k = p). { destruct Hp as (x' & Hx' & Hp). pose proof (no_parent Hok). congruence. } subst k.
  destruct (below_live _ _ _ _ T p m (no_live Hok) Hb) as [_ Hpl%prefix_length]. lia.
Qed.

(** One step of either walk, from [a] to its parent: the lock count of [a] becomes [lock + s], the
    sizes follow, and the leaf status is refreshed. *)
Lemma walking_step c c1 g H n a x p px v s :
  walking c g H n a s → rc_nodes c !! a = Some x →
  node_ok c (gL g) (gP g) (gV g) a x p px v → 0 ≤ tn_lock_ref x + s →
  config c1 = config c → rc_counter c1 = rc_counter c →
  rc_nodes c1 = <[a := set_tn_lock_ref (tn_lock_ref x + s) x]> (rc_nodes c) →
  rc_evictable_leaves c1 = rc_evictable_leaves c →
  rc_evictable_size c1 = rc_evictable_size c - unlocked_len c a
    + (if bool_decide (tn_lock_ref x + s = 0) then node_len c a else 0) →
  rc_protected_size c1 = rc_protected_size c - locked_len c a
    + (if bool_decide (tn_lock_ref x + s = 0) then 0 else node_len c a) →
  ∃ c2, update_leaf_status c1 a = Ok c2 ∧ walking c2 g H n p s
    ∧ config c2 = config c ∧ rc_counter c2 = rc_counter c
    ∧ rc_evictable_size c2 = rc_evictable_size c1 ∧ shape <$> rc_nodes c2 = shape <$> rc_nodes c.
Proof.
  intros W Hx Hok Hl Hcfg Hcnt Hnodes Hlv Hev Hpr. pose proof (wk_tree W) as T.
  destruct (relock_spec c c1 g T (wk_acct W) a x (wk_live W) Hx (tn_lock_ref x + s))
    as (c2 & Hu & T2 & A2 & Hcfg2 & Hcnt2 & Hn2 & S1 & _); try done.
  assert (Hlock : ∀ m, node_lock c2 m = if decide (m = a) then tn_lock_ref x + s else node_lock c m).
  { intros m. unfold node_lock at 1. rewrite Hn2.
    by apply (relock_lock c c1 a x (tn_lock_ref x + s) Hnodes m). }
  assert (Har : a ≠ rc_root c) by (by apply (n_ne_root c _ _ _ T a x p px v (wk_live W))).
  assert (Hr : rc_root c2 = rc_root c) by (by inversion Hcfg2).
  exists c2. split_and!; try done.
  2: { rewrite Hn2, Hnodes, fmap_insert. apply insert_id. by rewrite lookup_fmap, Hx. }
  split; rewrite ?Hr; try done.
  - apply W.
  - rewrite Hlock, decide_False by done. apply W.
  - intros m Hm Hmr. rewrite Hlock.
    rewrite (passed_parent c g n a x p px v m T (wk_live W) Hx Hok (wk_path W) Hm).
    destruct (decide (m = a)) as [->|Hma]; [|by apply W].
    pose proof (wk_node W a (wk_live W) Har) as Ha. rewrite passed_self in Ha.
    unfold node_lock in Ha. rewrite Hx in Ha. lia.
  - apply Hok.
  - etrans; [|apply W]. rewrite (no_P Hok). by apply prefix_app_r.
Qed.

Lemma inc_lock_loop_spec fuel : ∀ c g H n a delta,
  walking c g H n a 1 → (rank g a ≤ fuel)%nat →
  ∃ d c', inc_lock_loop fuel c (Some a) delta = Ok (d, c') ∧ walking c' g H n (rc_root c) 1
    ∧ config c' = config c ∧ d - delta = rc_evictable_size c' - rc_evictable_size c
    ∧ shape <$> rc_nodes c' = shape <$> rc_nodes c.
Proof.
  induction fuel as [|fuel IH]; intros c g H n a delta W Hf.
  { pose proof (rank_pos g a (wk_live W)). lia. }
  cbn [inc_lock_loop]. case_bool_decide as Hr.
  { inversion Hr; subst a. exists delta, c. split_and!; (done || lia). }
  assert (Har : a ≠ rc_root c) by congruence. pose proof (wk_tree W) as T.
  destruct (tr_node T a (wk_live W) Har) as (x & p & px & v & Hx & Hok).
  cbn [get_ref mbind res_bind]. rewrite (get_node_Some _ _ _ Hx). cbn [mbind res_bind].
  assert (Hl0 : 0 ≤ tn_lock_ref x).
  { pose proof (wk_node W a (wk_live W) Har) as Ha. rewrite passed_self in Ha.
    unfold node_lock in Ha. rewrite Hx in Ha. pose proof (held_below_nonneg g H a). lia. }
  assert (Hlen : node_len c a = RadixKey_len (tn_key x)) by (unfold node_len; by rewrite Hx).
  assert (Hlk : node_lock c a = tn_lock_ref x) by (unfold node_lock; by rewrite Hx).
  set (b := bool_decide (tn_lock_ref x = 0)).
  destruct (if b then _ else _) as [c0 delta'] eqn:E0.
  destruct (walking_step c (upd_node a (λ y, set_tn_lock_ref (tn_lock_ref y + 1) y) c0) g H n a x p px v 1)
    as (c2 & Hu & W2 & Hcfg2 & Hcnt2 & S2 & Hsh2); try done; try lia.
  1-3: destruct b; inversion E0; subst c0; try done; simpl;
       by rewrite (alter_lookup_Some _ a _ x) by done.
  1: by destruct b; inversion E0.
  1-2: unfold unlocked_len, locked_len; rewrite Hlk, Hlen; subst b;
       rewrite (bool_decide_false (tn_lock_ref x + 1 = 0)) by lia;
       case_bool_decide; inversion E0; simpl; lia.
  rewrite Hu. cbn [mbind res_bind]. rewrite (no_parent Hok).
  destruct (IH c2 g H n p delta' W2) as (d & c' & Hgo & W' & Hcfg' & Hd & Hsh).
  { assert (rank g p < rank g a)%nat; [|lia]. apply rank_parent; [apply (wk_live W)|].
    pose proof (node_P_length _ _ _ _ _ _ _ _ _ Hok). pose proof (ko_pos (no_key Hok)).
    unfold zlen in *. lia. }
  assert (Hr2 : rc_root c2 = rc_root c) by (by inversion Hcfg2). rewrite Hr2 in W'.
  exists d, c'. split_and!; [done|done|congruence| |congruence].
  rewrite S2 in Hd. destruct b; inversion E0; subst; simpl in Hd; lia.
Qed.

Lemma dec_lock_loop_spec fuel : ∀ c g H n a delta,
  walking c g H n a (-1) → n ∈ H → (rank g a ≤ fuel)%nat →
  ∃ d c', dec_lock_loop fuel c (Some a) delta = Ok (d, c') ∧ walking c' g H n (rc_root c) (-1)
    ∧ config c' = config c ∧ d - delta = rc_evictable_size c' - rc_evictable_size c
    ∧ shape <$> rc_nodes c' = shape <$> rc_nodes c.
Proof.
  induction fuel as [|fuel IH]; intros c g H n a delta W HnH Hf.
  { pose proof (rank_pos g a (wk_live W)). lia. }
  cbn [dec_lock_loop]. case_bool_decide as Hr.
  { inversion Hr; subst a. exists delta, c. split_and!; (done || lia). }
  assert (Har : a ≠ rc_root c) by congruence. pose proof (wk_tree W) as T.
  destruct (tr_node T a (wk_live W) Har) as (x & p & px & v & Hx & Hok).
  cbn [get_ref mbind res_bind]. rewrite (get_node_Some _ _ _ Hx). cbn [mbind res_bind].
  assert (Hl1 : 1 ≤ tn_lock_ref x).
  { pose proof (wk_node W a (wk_live W) Har) as Ha. rewrite passed_self in Ha.
    unfold node_lock in Ha. rewrite Hx in Ha.
    assert (0 < held_below g H a); [|lia]. apply zlen_pos.
    assert (Hin : n ∈ filter (λ h, gP g a `prefix_of` gP g h) H)
      by (apply list_elem_of_filter; split; [apply W|done]).
    intros E. rewrite E in Hin. set_solver. }
  assert (Hlen : node_len c a = RadixKey_len (tn_key x)) by (unfold node_len; by rewrite Hx).
  assert (Hlk : node_lock c a = tn_lock_ref x) by (unfold node_lock; by rewrite Hx).
  set (b := bool_decide (tn_lock_ref x = 1)).
  destruct (if b then _ else _) as [c0 delta'] eqn:E0.
  destruct (walking_step c (upd_node a (λ y, set_tn_lock_ref (tn_lock_ref y - 1) y) c0) g H n a x p px v (-1))
    as (c2 & Hu & W2 & Hcfg2 & Hcnt2 & S2 & Hsh2); try done; try lia.
  1-3: destruct b; inversion E0; subst c0; try done; simpl;
       by rewrite (alter_lookup_Some _ a _ x) by done.
  1: by destruct b; inversion E0.
  1-2: unfold unlocked_len, locked_len; rewrite Hlk, Hlen; subst b;
       rewrite (bool_decide_false (tn_lock_ref x = 0)) by lia;
       repeat case_bool_decide; inversion E0; simpl; lia.
  rewrite Hu. cbn [mbind res_bind]. rewrite (no_parent Hok). simpl.
  destruct (IH c2 g H n p delta' W2) as (d & c' & Hgo & W' & Hcfg' & Hd & Hsh); [done| |].
  { assert (rank g p < rank g a)%nat; [|lia]. apply rank_parent; [apply (wk_live W)|].
    pose proof (node_P_length _ _ _ _ _ _ _ _ _ Hok). pose proof (ko_pos (no_key Hok)).
    unfold zlen in *. lia. }
  assert (Hr2 : rc_root c2 = rc_root c) by (by inversion Hcfg2). rewrite Hr2 in W'.
  exists d, c'. split_and!; [done|done|congruence| |congruence].
  rewrite S2 in Hd. destruct b; inversion E0; subst; simpl in Hd; lia.
Qed.

(** ** inc_lock_ref and dec_lock_ref *)

Lemma held_below_cons g H n m :
  held_below g (n :: H) m
  = held_below g H m + (if decide (gP g m `prefix_of` gP g n) then 1 else 0).
Proof.
  unfold held_below. rewrite filter_cons. destruct (decide (gP g m `prefix_of` gP g n));
    rewrite ?zlen_cons; lia.
Qed.

(** At the root, the walk has passed every node on the path. *)
Lemma passed_root c g n m :
  tree c (gL g) (gP g) (gV g) → m ∈ gL g → m ≠ rc_root c →
  passed g n (rc_root c) m = if decide (gP g m `prefix_of` gP g n) then 1 else 0.
Proof.
  intros T Hm Hr. unfold passed. rewrite (tr_root_P T).
  destruct (tr_node T m Hm Hr) as (x & p & px & v & Hx & Hok).
  pose proof (node_P_length _ _ _ _ _ _ _ _ _ Hok). pose proof (ko_pos (no_key Hok)).
  pose proof (zlen_nonneg (gP g p)). unfold zlen in *. simpl.
  destruct (decide (gP g m `prefix_of` gP g n));
    [rewrite decide_True by (split; [done|lia])|rewrite decide_False by tauto]; done.
Qed.

Lemma held_below_perm g H H' m : H ≡ₚ H' → held_below g H m = held_below g H' m.
Proof. intros HH. unfold held_below, zlen. by rewrite HH. Qed.

Lemma walking_start c g H n s :
  inv c g H → n ∈ gL g → walking c g H n n s.
Proof.
  intros [T A K] Hn. split; try done; [apply (lk_held K)|apply (lk_root K)|].
  intros m Hm Hmr. rewrite passed_start. rewrite (lk_node K) by done. lia.
Qed.

Lemma inc_lock_ref_ok c g H n :
  inv c g H → n ∈ gL g → n ≠ rc_root c → rc_disable c = false →
  ∃ d c', inc_lock_ref c n = Ok (d, c') ∧ inv c' g (n :: H) ∧ config c' = config c
    ∧ d = rc_evictable_size c' - rc_evictable_size c
    ∧ shape <$> rc_nodes c' = shape <$> rc_nodes c.
Proof.
  intros Hi Hn Hnr Hdis. unfold inc_lock_ref. rewrite Hdis.
  destruct (inc_lock_loop_spec (S (rc_counter c)) c g H n n 0) as (d & c' & Hgo & W & Hcfg & Hd & Hsh).
  - by apply walking_start.
  - pose proof (rank_counter c g n (iv_tree Hi)). lia.
  - exists d, c'. split_and!; [done| |done|lia|done].
    assert (Hr : rc_root c' = rc_root c) by (by inversion Hcfg).
    split; [apply W|apply W|]. split; rewrite ?Hr.
    + intros h [->|Hh]%elem_of_cons; [done|]. rewrite <- Hr. by apply W.
    + rewrite <- Hr. apply W.
    + intros m Hm Hmr. rewrite (wk_node W) by (by rewrite ?Hr).
      rewrite <- Hr, (passed_root c' g n m (wk_tree W)) by (by rewrite ?Hr).
      rewrite held_below_cons. lia.
Qed.

Lemma dec_lock_ref_ok c g H H' n :
  inv c g H → H ≡ₚ n :: H' → rc_disable c = false →
  ∃ d c', dec_lock_ref c n = Ok (d, c') ∧ inv c' g H' ∧ config c' = config c
    ∧ d = rc_evictable_size c' - rc_evictable_size c
    ∧ shape <$> rc_nodes c' = shape <$> rc_nodes c.
Proof.
  intros Hi HH Hdis. unfold dec_lock_ref. rewrite Hdis.
  assert (HnH : n ∈ H) by (rewrite HH; set_solver).
  destruct (lk_held (iv_locks Hi) n HnH) as [Hn Hnr].
  destruct (dec_lock_loop_spec (S (rc_counter c)) c g H n n 0) as (d & c' & Hgo & W & Hcfg & Hd & Hsh);
    [by apply walking_start|done|pose proof (rank_counter c g n (iv_tree Hi)); lia|].
  exists d, c'. split_and!; [done| |done|lia|done].
  assert (Hr : rc_root c' = rc_root c) by (by inversion Hcfg).
  split; [apply W|apply W|]. split; rewrite ?Hr.
  - intros h Hh. rewrite <- Hr. apply W. rewrite HH. set_solver.
  - rewrite <- Hr. apply W.
  - intros m Hm Hmr. rewrite (wk_node W) by (by rewrite ?Hr).
    rewrite <- Hr, (passed_root c' g n m (wk_tree W)) by (by rewrite ?Hr).
    rewrite (held_below_perm _ _ _ _ HH), held_below_cons. lia.
Qed.

(** The root needs no lock: both walks are empty. *)
Lemma lock_ref_root c : rc_disable c = false →
  inc_lock_ref c (rc_root c) = Ok (0, c) ∧ dec_lock_ref c (rc_root c) = Ok (0, c).
Proof.
  intros Hdis. unfold inc_lock_ref, dec_lock_ref. rewrite Hdis. simpl. by rewrite bool_decide_true.
Qed.
