(* ===== verification/RadixEvict.v ===== *)
(** * Eviction from the radix cache

    [evict] of [src/python/sglang/srt/mem_cache/radix_cache.py]: it deletes unlocked leaves, in the
    order of the eviction strategy, and frees their slots.  The loop terminates, never raises,
    keeps the invariant, leaves every locked path alone, and stops only when enough tokens were
    evicted or nothing evictable is left; the freed slots are exactly those that left the tree. *)

From S2P Require Import Prelude RadixKey PageHash RadixTree RadixInv RadixAcct RadixMatch RadixLock.

(** ** Deleting a leaf *)

Section delete.
Context (c : RadixCache) (g : ghost) (H : list nat) (Hi : inv c g H).
Context (n : nat) (x : TreeNode) (p : nat) (px : TreeNode) (v : list Z).
Context (HnL : n ∈ gL g) (Hx : rc_nodes c !! n = Some x).
Context (Hok : node_ok c (gL g) (gP g) (gV g) n x p px v).
Context (Hleaf : tn_lock_ref x = 0 ∧ tn_children x = ∅).
Abbreviation T := (iv_tree Hi).
Abbreviation ck := (slot (rc_page_size c) (first_page c (tn_key x))).

Definition delete_parent : TreeNode := set_tn_children (delete ck (tn_children px)) px.

(** The state in which the leaf status of the parent is refreshed. *)
Definition deleted : RadixCache :=
  set_rc_evictable_leaves (rc_evictable_leaves c ∖ {[n]})
    (set_rc_evictable_size (rc_evictable_size c - RadixKey_len (tn_key x))
       (set_rc_nodes (<[p := delete_parent]> (rc_nodes c)) c)).

Definition delete_ghost : ghost := mkGhost (gL g ∖ {[n]}) (gP g) (gV g).

Lemma delete_leaf_eq : delete_leaf c n = update_leaf_status deleted p.
Proof.
  unfold delete_leaf. rewrite (get_node_Some _ _ _ Hx). cbn [mbind res_bind].
  rewrite (key_ok_child_key _ _ _ _ T _ (no_key Hok)). cbn [mbind res_bind].
  rewrite (no_parent Hok). cbn [get_ref mbind res_bind].
  rewrite (get_node_Some _ _ _ (no_px Hok)). cbn [mbind res_bind].
  unfold get_child. rewrite (no_slot Hok), bool_decide_true by done. cbn [py_assert mbind res_bind].
  unfold deleted, upd_node. by rewrite (alter_lookup_Some _ p _ px (no_px Hok)).
Qed.

Lemma delete_p_ne : p ≠ n.
Proof. by apply (p_ne_n _ _ _ _ _ _ _ _ _ Hok). Qed.

Lemma delete_lookup_p : rc_nodes deleted !! p = Some delete_parent.
Proof. simpl. by rewrite lookup_insert_eq. Qed.

Lemma delete_lookup_ne m : m ≠ p → rc_nodes deleted !! m = rc_nodes c !! m.
Proof. intros. simpl. by rewrite lookup_insert_ne. Qed.

(** No live node hangs below the leaf. *)
Lemma delete_no_child m y q qx u :
  rc_nodes c !! m = Some y → node_ok c (gL g) (gP g) (gV g) m y q qx u → q ≠ n.
Proof.
  intros Hy Hok' ->. assert (qx = x) by (pose proof (no_px Hok'); congruence). subst qx.
  pose proof (no_slot Hok') as Hs. destruct Hleaf as [_ He]. rewrite He in Hs.
  by rewrite lookup_empty in Hs.
Qed.

Lemma delete_lookup_live m y :
  rc_nodes c !! m = Some y →
  ∃ y', rc_nodes deleted !! m = Some y' ∧ tn_parent y' = tn_parent y ∧ tn_key y' = tn_key y
        ∧ tn_value y' = tn_value y ∧ tn_lock_ref y' = tn_lock_ref y
        ∧ (∀ k j, tn_children y' !! k = Some j ↔ tn_children y !! k = Some j ∧ ¬ (m = p ∧ k = ck)).
Proof.
  intros Hy. destruct (decide (m = p)) as [->|Hmp].
  - exists delete_parent. rewrite delete_lookup_p. assert (y = px) as -> by (pose proof (no_px Hok); congruence).
    split_and!; try done. intros k j. simpl. rewrite lookup_delete_Some. naive_solver.
  - exists y. rewrite delete_lookup_ne by done. naive_solver.
Qed.

Lemma delete_tree : tree deleted (gL delete_ghost) (gP delete_ghost) (gV delete_ghost).
Proof.
  pose proof (n_ne_root c _ _ _ T n x p px v HnL Hx Hok) as Hnr. split; simpl.
  - apply T.
  - intros m y Hy. destruct (decide (m = p)) as [->|Hmp];
      [by apply (tr_fresh T p px (no_px Hok))|].
    rewrite lookup_insert_ne in Hy by done. by apply (tr_fresh T m y).
  - pose proof (tr_root_live T). set_solver.
  - destruct (tr_root T) as (y & Hy & E1 & E2 & E3).
    destruct (delete_lookup_live _ y Hy) as (y' & Hy' & F1 & F2 & F3 & _).
    exists y'. simpl in Hy'. split_and!; congruence.
  - apply T.
  - apply T.
  - intros m Hm Hmr. assert (HmL : m ∈ gL g) by set_solver. assert (Hmn : m ≠ n) by set_solver.
    destruct (tr_node T m HmL Hmr) as (y & q & qx & u & Hy & Hok').
    destruct (delete_lookup_live m y Hy) as (y' & Hy' & F1 & F2 & F3 & _).
    destruct (delete_lookup_live q qx (no_px Hok')) as (qx' & Hqx' & _ & _ & _ & _ & G).
    pose proof (delete_no_child m y q qx u Hy Hok') as Hqn.
    exists y', q, qx', u. split; [done|]. destruct Hok' as [A1 A2 A3 A4 A5 A6 A7 A8 A9].
    split; rewrite ?F1, ?F2, ?F3; try done; [set_solver| |by destruct A5].
    apply G. split; [done|]. intros [-> Hk]. apply Hmn.
    assert (qx = px) by (pose proof (no_px Hok); congruence). subst qx.
    pose proof (no_slot Hok) as Hs. change (first_page deleted) with (first_page c) in *.
    change (rc_page_size deleted) with (rc_page_size c) in *. rewrite Hk in A4. congruence.
  - intros m y k j Hm Hy Hj. assert (HmL : m ∈ gL g) by set_solver.
    destruct (tree_lookup _ _ _ _ T m HmL) as (y0 & Hy0).
    destruct (delete_lookup_live m y0 Hy0) as (y' & Hy' & _ & _ & _ & _ & G).
    assert (y' = y) by (simpl in Hy'; congruence). subst y'. apply G in Hj as [Hj Hne].
    destruct (tr_child T m y0 k j HmL Hy0 Hj) as (HjL & Hjr & z & Hz & Hzp & Hk).
    destruct (delete_lookup_live j z Hz) as (z' & Hz' & F1 & F2 & _).
    split_and!; [|done|].
    + apply elem_of_difference. split; [done|]. intros ->%elem_of_singleton.
      assert (z = x) by congruence. subst z. apply Hne. split; [|done].
      pose proof (no_parent Hok). congruence.
    + exists z'. rewrite F1, F2. done.
Qed.

Lemma delete_attrs m :
  node_lock deleted m = node_lock c m ∧ node_len deleted m = node_len c m
  ∧ (m ≠ p → is_leaf deleted m ↔ is_leaf c m).
Proof.
  unfold node_lock, node_len, is_leaf. destruct (decide (m = p)) as [->|Hmp].
  - by rewrite delete_lookup_p, (no_px Hok).
  - by rewrite delete_lookup_ne.
Qed.

Lemma delete_not_held : n ∉ H.
Proof.
  intros Hh. destruct (lk_held (iv_locks Hi) n Hh) as [_ Hnr].
  pose proof (lk_node (iv_locks Hi) n HnL Hnr) as Hl. unfold node_lock in Hl. rewrite Hx in Hl.
  destruct Hleaf as [E _]. rewrite E in Hl. symmetry in Hl. unfold held_below in Hl.
  apply zlen_0 in Hl.
  assert (Hin : n ∈ filter (λ h, gP g n `prefix_of` gP g h) H) by (by apply list_elem_of_filter).
  rewrite Hl in Hin. set_solver.
Qed.

Lemma delete_p_not_leaf : ¬ is_leaf c p.
Proof.
  unfold is_leaf. rewrite (no_px Hok). intros [_ He]. pose proof (no_slot Hok) as Hs.
  rewrite He in Hs. by rewrite lookup_empty in Hs.
Qed.

Lemma delete_leaf_spec :
  ∃ c', delete_leaf c n = Ok c' ∧ inv c' delete_ghost H ∧ config c' = config c
    ∧ rc_counter c' = rc_counter c ∧ rc_nodes c' = <[p := delete_parent]> (rc_nodes c)
    ∧ rc_evictable_size c' = rc_evictable_size c - RadixKey_len (tn_key x)
    ∧ rc_protected_size c' = rc_protected_size c
    ∧ rc_evictable_leaves c'
      = rc_evictable_leaves c ∖ {[n]} ∪ (if decide (is_leaf deleted p) then {[p]} else ∅).
Proof.
  rewrite delete_leaf_eq. pose proof delete_tree as T'. pose proof delete_p_ne as Hpn.
  destruct (iv_acct Hi) as [A1 A2 A3]. destruct (iv_locks Hi) as [K1 K2 K3].
  assert (HpL : p ∈ gL delete_ghost) by (simpl; pose proof (no_live Hok); set_solver).
  assert (Hlk : 0 ≤ tn_lock_ref delete_parent).
  { simpl. pose proof (lock_nonneg _ _ _ p Hi (no_live Hok)) as Hl. unfold node_lock in Hl.
    by rewrite (no_px Hok) in Hl. }
  rewrite (update_leaf_status_eq deleted _ _ _ T' p delete_parent HpL delete_lookup_p Hlk).
  pose proof delete_p_not_leaf as Hpl.
  assert (Hleaves : (if decide (is_leaf deleted p) then rc_evictable_leaves deleted ∪ {[p]}
                     else rc_evictable_leaves deleted ∖ {[p]})
    = rc_evictable_leaves c ∖ {[n]} ∪ (if decide (is_leaf deleted p) then {[p]} else ∅)).
  { simpl. rewrite A3. apply set_eq. intros m. destruct (decide (is_leaf deleted p)); set_solver. }
  rewrite Hleaves. eexists. split; [reflexivity|]. split_and!; try done.
  assert (Hn0 : node_lock c n = 0 ∧ node_len c n = RadixKey_len (tn_key x)).
  { unfold node_lock, node_len. rewrite Hx. split; [apply Hleaf|done]. }
  assert (Hsum : ∀ f : bool → Z → Z,
    sum_over (λ m, f (bool_decide (node_lock deleted m = 0)) (node_len deleted m)) (gL g ∖ {[n]})
    = sum_over (λ m, f (bool_decide (node_lock c m = 0)) (node_len c m)) (gL g)
      - f true (RadixKey_len (tn_key x))).
  { intros f. rewrite (sum_over_ext _ (λ m, f (bool_decide (node_lock c m = 0)) (node_len c m)))
      by (intros m _; by destruct (delete_attrs m) as (-> & -> & _)).
    rewrite sum_over_remove by done. destruct Hn0 as [-> ->]. done. }
  split.
  - apply (tree_shape deleted); done.
  - split; simpl.
    + rewrite A1. symmetry. apply (Hsum (λ b l, if b then l else 0)).
    + rewrite A2. symmetry. rewrite <- Z.sub_0_r. apply (Hsum (λ b l, if b then 0 else l)).
    + rewrite A3. apply set_eq. intros m.
      change (is_leaf (set_rc_evictable_leaves _ _)) with (is_leaf deleted).
      destruct (decide (m = p)) as [->|Hmp].
      * destruct (decide (is_leaf deleted p)); set_solver.
      * pose proof (proj2 (proj2 (delete_attrs m)) Hmp). destruct (decide (is_leaf deleted p)); set_solver.
  - pose proof delete_not_held as Hnh. split; simpl.
    + intros h Hh. destruct (K1 h Hh). split; [set_solver|done].
    + change (node_lock (set_rc_evictable_leaves _ _)) with (node_lock deleted).
      by destruct (delete_attrs (rc_root c)) as (-> & _).
    + intros m Hm Hmr. change (node_lock (set_rc_evictable_leaves _ _)) with (node_lock deleted).
      destruct (delete_attrs m) as (-> & _). rewrite K3 by (done || set_solver). done.
Qed.

End delete.

(** ** Nothing evictable is left when there is no evictable leaf *)

Lemma held_below_mono g H n m :
  gP g n `prefix_of` gP g m → held_below g H m ≤ held_below g H n.
Proof.
  intros Hp. unfold held_below. induction H as [|h H IH]; [done|]. rewrite !filter_cons.
  repeat case_decide; rewrite ?zlen_cons; try lia. exfalso. naive_solver (etrans; eauto).
Qed.

Section no_leaf.
Context (c : RadixCache) (g : ghost) (H : list nat) (Hi : inv c g H).

Lemma path_bound : ∃ N, ∀ m, m ∈ gL g → (length (gP g m) ≤ N)%nat.
Proof.
  exists (foldr max 0%nat (map (λ m, length (gP g m)) (elements (gL g)))). intros m Hm.
  assert (Hin : m ∈ elements (gL g)) by set_solver. revert Hin. generalize (elements (gL g)).
  intros l. induction l as [|k l IH]; simpl; [set_solver|].
  intros [->|Hin]%elem_of_cons; [lia|]. specialize (IH Hin). lia.
Qed.

(** Below an unlocked node there is an unlocked leaf. *)
Lemma unlocked_leaf m :
  m ∈ gL g → m ≠ rc_root c → node_lock c m = 0 → ∃ n, n ∈ gL g ∧ is_leaf c n.
Proof.
  destruct path_bound as [N HN]. remember (N - length (gP g m))%nat as d eqn:Hd. revert m Hd.
  induction (lt_wf d) as [d _ IH]. intros m -> Hm Hmr Hlk.
  destruct (tr_node (iv_tree Hi) m Hm Hmr) as (x & p & px & v & Hx & Hok).
  destruct (decide (tn_children x = ∅)) as [He|Hne].
  - exists m. split; [done|]. unfold is_leaf, node_lock in *. rewrite Hx in *. done.
  - apply map_choose in Hne as (ck & j & Hj).
    destruct (child_facts _ _ _ _ (iv_tree Hi) m x ck j Hm Hx Hj) as (y & u & Hy & Hok' & _).
    destruct (tr_child (iv_tree Hi) m x ck j Hm Hx Hj) as (HjL & Hjr & _).
    pose proof (node_P_length _ _ _ _ _ _ _ _ _ Hok') as Hl. pose proof (ko_pos (no_key Hok')).
    pose proof (HN j HjL). pose proof (HN m Hm). unfold zlen in Hl.
    apply (IH (N - length (gP g j))%nat ltac:(lia) j eq_refl HjL Hjr).
    pose proof (lk_node (iv_locks Hi) j HjL Hjr) as Hkj.
    pose proof (lk_node (iv_locks Hi) m Hm Hmr) as Hkm.
    pose proof (held_below_mono g H m j) as Hmono. pose proof (held_below_nonneg g H j).
    rewrite (no_P Hok') in Hmono. specialize (Hmono (prefix_app_r _ _ _ (reflexivity _))). lia.
Qed.

Lemma no_leaf_no_evictable : rc_evictable_leaves c = ∅ → rc_evictable_size c = 0.
Proof.
  intros He. destruct (iv_acct Hi) as [A1 _ A3]. rewrite A1.
  rewrite (sum_over_ext _ (λ _, 0)); [unfold sum_over; apply (sumZ_const_0)|].
  intros m Hm. unfold unlocked_len. case_bool_decide as Hl; [|done].
  destruct (decide (m = rc_root c)) as [->|Hmr].
  { rewrite (lk_root (iv_locks Hi)) in Hl. lia. }
  destruct (unlocked_leaf m Hm Hmr Hl) as (n & Hn & Hlf).
  assert (n ∈ rc_evictable_leaves c) by (rewrite A3; set_solver). set_solver.
Qed.

End no_leaf.

(** ** The loop *)

Definition node_value (c : RadixCache) (n : nat) : list Z :=
  match rc_nodes c !! n with Some x => default [] (tn_value x) | None => [] end.

(** All slots the tree holds. *)
Definition tree_slots (c : RadixCache) (L : gset nat) : list Z := elements L ≫= node_value c.

Class KVAllocatorTotal (A : Type) `{KVAllocator A} := {
  kv_free_total a v : ∃ a', kv_free a v = Ok a'
}.

Section evict.
Context `{HeapqLaws} {A} `{KVAllocatorTotal A}.

(** The allocator after freeing tensors one after the other. *)
Fixpoint free_all (a : A) (vs : list (list Z)) : res A :=
  match vs with
  | [] => Ok a
  | v :: vs' => a' ← kv_free a v; free_all a' vs'
  end.

(** The heap entry of a node, as [evict] computes it. *)
Definition entry_of (c : RadixCache) (n : nat) : heap_entry :=
  match rc_nodes c !! n with
  | Some x => (get_priority (rc_eviction_strategy c) x, (tn_last_access_time x, n))
  | None => ([], (0, n))
  end.

(** Leaves deleted one after the other, each of them first in the order of the strategy. *)
Inductive evict_trace : RadixCache → list nat → RadixCache → Prop :=
| evict_trace_nil c : evict_trace c [] c
| evict_trace_cons c n c1 ns c' :
    n ∈ rc_evictable_leaves c →
    (∀ m, m ∈ rc_evictable_leaves c → entry_lt (entry_of c m) (entry_of c n) = false) →
    delete_leaf c n = Ok c1 → evict_trace c1 ns c' → evict_trace c (n :: ns) c'.

Record evict_end (c c' : RadixCache) (g g' : ghost) (held : list nat) (freed : list (list Z)) : Prop := {
  ee_inv : inv c' g' held;
  ee_config : config c' = config c;
  ee_live : gL g' ⊆ gL g;
  ee_P : gP g' = gP g;
  ee_V : gV g' = gV g;
  ee_size : rc_evictable_size c' = rc_evictable_size c - zlen (concat freed);
  ee_protected : rc_protected_size c' = rc_protected_size c;
  ee_slots : tree_slots c (gL g) ≡ₚ concat freed ++ tree_slots c' (gL g')
}.

Lemma tree_slots_insert c L n :
  n ∈ L → tree_slots c L ≡ₚ node_value c n ++ tree_slots c (L ∖ {[n]}).
Proof.
  intros Hn. unfold tree_slots.
  assert (HL : L = {[n]} ∪ L ∖ {[n]}) by (apply union_difference_L; set_solver).
  rewrite HL at 1. rewrite elements_union_singleton by set_solver. done.
Qed.

Lemma tree_slots_ext c c' L :
  (∀ m, m ∈ L → node_value c' m = node_value c m) → tree_slots c' L = tree_slots c L.
Proof.
  intros He. unfold tree_slots.
  assert (Hl : ∀ m, m ∈ elements L → node_value c' m = node_value c m) by (intros m Hm; apply He; set_solver).
  induction (elements L) as [|m l IH]; [done|]. rewrite !bind_cons. f_equal;
    [apply Hl; set_solver|apply IH; intros k Hk; apply Hl; set_solver].
Qed.

(** One iteration. *)
Lemma evict_step c g held n heap' :
  inv c g held → rc_enable_kv_cache_events c = false → n ∈ gL g → is_leaf c n →
  map (entry_of c) (elements (rc_evictable_leaves c)) ≡ₚ entry_of c n :: heap' →
  ∃ x p v c1 px' heap1, rc_nodes c !! n = Some x ∧ tn_value x = Some v ∧ tn_parent x = Some p
    ∧ delete_leaf c n = Ok c1 ∧ rc_nodes c1 !! p = Some px'
    ∧ (if bool_decide (tn_children px' = ∅) && bool_decide (tn_lock_ref px' = 0)
       then e ← evict_entry c1 p; Ok (e :: heap') else Ok heap') = Ok heap1
    ∧ inv c1 (delete_ghost g n) held ∧ config c1 = config c
    ∧ heap1 ≡ₚ map (entry_of c1) (elements (rc_evictable_leaves c1))
    ∧ (∀ m, node_value c1 m = node_value c m)
    ∧ rc_evictable_size c1 = rc_evictable_size c - zlen v
    ∧ rc_protected_size c1 = rc_protected_size c
    ∧ tree_slots c (gL g) ≡ₚ v ++ tree_slots c1 (gL g ∖ {[n]}).
Proof.
  intros Hi Hev HnL Hlf Hheap.
  assert (Hnr : n ≠ rc_root c).
  { intros ->. pose proof (lk_root (iv_locks Hi)) as Hr. unfold is_leaf, node_lock in *.
    destruct (rc_nodes c !! rc_root c); [lia|done]. }
  destruct (tr_node (iv_tree Hi) n HnL Hnr) as (x & p & px & v & Hx & Hok).
  assert (Hleaf : tn_lock_ref x = 0 ∧ tn_children x = ∅) by (unfold is_leaf in Hlf; by rewrite Hx in Hlf).
  destruct (delete_leaf_spec c g held Hi n x p px v HnL Hx Hok Hleaf)
    as (c1 & Hdel & Hi1 & Hcfg & Hcnt & Hn1 & S1 & S2 & Hlv).
  set (px' := delete_parent c x px) in *.
  assert (Hpx : rc_nodes c1 !! p = Some px') by (rewrite Hn1; by rewrite lookup_insert_eq).
  assert (Hpl : is_leaf (deleted c n x p px) p ↔ tn_children px' = ∅ ∧ tn_lock_ref px' = 0).
  { unfold is_leaf. rewrite (delete_lookup_p c n x p px). tauto. }
  assert (Hpn : p ≠ n) by (by eapply delete_p_ne).
  assert (Hpnl : ¬ is_leaf c p) by (by eapply delete_p_not_leaf).
  assert (Hrest : map (entry_of c) (elements (rc_evictable_leaves c ∖ {[n]})) ≡ₚ heap').
  { apply (Permutation_cons_inv (a := entry_of c n)). rewrite <- Hheap.
    change (entry_of c n :: map ?f ?l) with (map f (n :: l)).
    rewrite <- elements_union_singleton by set_solver. rewrite <- union_difference_L; [done|].
    rewrite (ac_leaves (iv_acct Hi)). set_solver. }
  assert (Hent : ∀ m, entry_of c1 m = entry_of c m).
  { intros m. unfold entry_of. rewrite Hn1. assert (rc_eviction_strategy c1 = rc_eviction_strategy c) as ->
      by (by inversion Hcfg).
    destruct (decide (m = p)) as [->|Hmp]; [by rewrite lookup_insert_eq, (no_px Hok)|].
    by rewrite lookup_insert_ne. }
  assert (Hval : ∀ m, node_value c1 m = node_value c m).
  { intros m. unfold node_value. rewrite Hn1.
    destruct (decide (m = p)) as [->|Hmp]; [by rewrite lookup_insert_eq, (no_px Hok)|].
    by rewrite lookup_insert_ne. }
  exists x, p, v, c1, px', (if decide (is_leaf (deleted c n x p px) p)
    then entry_of c1 p :: heap' else heap').
  split_and!; try done; try apply Hok.
  - destruct (decide (is_leaf (deleted c n x p px) p)) as [Hd|Hd].
    + apply Hpl in Hd as [E1 E2]. rewrite !bool_decide_true by done. simpl.
      unfold evict_entry, entry_of. by rewrite (get_node_Some _ _ _ Hpx), Hpx.
    + assert (bool_decide (tn_children px' = ∅) && bool_decide (tn_lock_ref px' = 0) = false) as ->; [|done].
      repeat case_bool_decide; naive_solver.
  - rewrite Hlv. destruct (decide (is_leaf (deleted c n x p px) p)) as [Hd|Hd].
    + rewrite (union_comm_L _ {[p]}), elements_union_singleton
        by (rewrite (ac_leaves (iv_acct Hi)); set_solver).
      simpl. rewrite (map_ext _ _ Hent), Hrest. by rewrite Hent.
    + rewrite union_empty_r_L, (map_ext _ _ Hent). by rewrite Hrest.
  - rewrite S1, (no_len Hok). done.
  - rewrite (tree_slots_insert c (gL g) n HnL). unfold node_value at 1. rewrite Hx, (no_value Hok). simpl.
    f_equiv. by rewrite (tree_slots_ext c c1).
Qed.

Lemma entry_of_node c n : (entry_of c n).2.2 = n.
Proof. unfold entry_of. by destruct (rc_nodes c !! n). Qed.

(** What the loop does from a state in which the heap holds the evictable leaves. *)
Record evict_result (c c' : RadixCache) (a a' : A) (g g' : ghost) (held ns : list nat) (num k : Z)
    : Prop := {
  er_free : free_all a (map (node_value c) ns) = Ok a';
  er_trace : evict_trace c ns c';
  er_end : evict_end c c' g g' held (map (node_value c) ns);
  er_enough : num ≤ k + zlen (concat (map (node_value c) ns)) ∨ rc_evictable_size c' = 0;
  er_needed ns' n : ns = ns' ++ [n] → k + zlen (concat (map (node_value c) ns')) < num
}.

Lemma evict_result_nil c a g held num k :
  inv c g held → num ≤ k ∨ rc_evictable_size c = 0 → evict_result c c a a g g held [] num k.
Proof.
  intros Hi Hs. split; simpl; try done.
  - constructor.
  - split; try done. change (zlen (concat [])) with 0. lia.
  - change (zlen []) with 0. by rewrite Z.add_0_r.
  - intros ns' n E. by destruct ns'.
Qed.

(** The top of a heap that holds the evictable leaves. *)
Lemma heap_top c heap e heap' :
  heap ≡ₚ map (entry_of c) (elements (rc_evictable_leaves c)) → heappop heap = Some (e, heap') →
  ∃ n, e = entry_of c n ∧ n ∈ rc_evictable_leaves c
    ∧ (∀ m, m ∈ rc_evictable_leaves c → entry_lt (entry_of c m) (entry_of c n) = false)
    ∧ map (entry_of c) (elements (rc_evictable_leaves c)) ≡ₚ entry_of c n :: heap'.
Proof.
  intros Hheap Hpop. assert (Hin : e ∈ map (entry_of c) (elements (rc_evictable_leaves c))).
  { rewrite <- Hheap. rewrite (heappop_perm _ _ _ Hpop). set_solver. }
  apply list_elem_of_fmap in Hin as (n & -> & Hn). apply elem_of_elements in Hn.
  exists n. split_and!; [done|done| |by rewrite <- (heappop_perm _ _ _ Hpop)].
  intros m Hm. eapply heappop_min; [|exact Hpop|].
  - intros e1 e2. rewrite Hheap. intros (m1 & -> & _)%list_elem_of_fmap (m2 & -> & _)%list_elem_of_fmap.
    rewrite !entry_of_node. by intros ->.
  - rewrite Hheap. apply list_elem_of_fmap. exists m. split; [done|]. by apply elem_of_elements.
Qed.

(** One evicted node in front. *)
Lemma evict_result_cons c c1 c' a a1 a' g g' held n v ns num k :
  node_value c n = v → kv_free a v = Ok a1 → evict_trace c (n :: ns) c' → config c1 = config c →
  (∀ m, node_value c1 m = node_value c m) →
  rc_evictable_size c1 = rc_evictable_size c - zlen v → rc_protected_size c1 = rc_protected_size c →
  tree_slots c (gL g) ≡ₚ v ++ tree_slots c1 (gL g ∖ {[n]}) → k < num →
  evict_result c1 c' a1 a' (delete_ghost g n) g' held ns num (k + zlen v) →
  evict_result c c' a a' g g' held (n :: ns) num k.
Proof.
  intros Hnv Ha1 Htr Hcfg Hval S1 S2 Hsl Hlt [R1 R2 R3 R4 R5].
  rewrite (map_ext (node_value c1) (node_value c) Hval) in R1, R3, R4. split.
  - cbn [map free_all]. rewrite Hnv, Ha1. done.
  - done.
  - destruct R3 as [E1 E2 E3 E4 E5 E6 E7 E8]. split; cbn [map concat]; rewrite ?Hnv; try done.
    + congruence.
    + simpl in E3. set_solver.
    + rewrite zlen_app. lia.
    + congruence.
    + rewrite Hsl. simpl in E8. rewrite E8. by rewrite app_assoc.
  - cbn [map concat]. rewrite Hnv, zlen_app, Z.add_assoc. done.
  - intros [|m ns'] n' E; [simpl; change (zlen []) with 0; lia|]. inversion E; subst m ns.
    cbn [map concat]. rewrite Hnv, zlen_app, Z.add_assoc.
    rewrite <- (map_ext (node_value c1) (node_value c) Hval). by eapply R5.
Qed.

Lemma evict_loop_spec fuel : ∀ c g held a heap num k,
  inv c g held → rc_enable_kv_cache_events c = false →
  heap ≡ₚ map (entry_of c) (elements (rc_evictable_leaves c)) → (size (gL g) < fuel)%nat →
  ∃ ns c' a' g',
    evict_loop fuel c a heap num k = Ok (k + zlen (concat (map (node_value c) ns)), c', a')
    ∧ evict_result c c' a a' g g' held ns num k.
Proof.
  induction fuel as [|fuel IH]; intros c g held a heap num k Hi Hev Hheap Hf; [lia|].
  cbn [evict_loop].
  assert (Hstop : num ≤ k ∨ rc_evictable_size c = 0 →
    ∃ ns c' a' g', Ok (k, c, a) = Ok (k + zlen (concat (map (node_value c) ns)), c', a')
    ∧ evict_result c c' a a' g g' held ns num k).
  { intros Hs. exists [], c, a, g. split; [|by apply evict_result_nil].
    change (zlen _) with 0. by rewrite Z.add_0_r. }
  case_bool_decide as Hlt; [|apply Hstop; lia].
  destruct (heappop heap) as [[e heap']|] eqn:Hpop.
  2: { apply Hstop. right. eapply no_leaf_no_evictable; [exact Hi|].
       apply heappop_None in Hpop as ->. apply leibniz_equiv, elements_empty_inv.
       apply Permutation_nil_l in Hheap. by destruct (elements (rc_evictable_leaves c)). }
  destruct (heap_top c heap e heap' Hheap Hpop) as (n & -> & Hn & Hmin & Hperm0).
  pose proof Hn as Hnlf. rewrite (ac_leaves (iv_acct Hi)) in Hnlf.
  apply elem_of_filter in Hnlf as [Hlf HnL].
  destruct (evict_step c g held n heap' Hi Hev HnL Hlf Hperm0) as (x & p & v & c1 & px' & heap1
    & Hx & Hv & Hp & Hdel & Hpx & Hheap1 & Hi1 & Hcfg & Hperm & Hval & S1 & S2 & Hsl).
  assert (Hnv : node_value c n = v) by (unfold node_value; by rewrite Hx, Hv).
  assert (Ee : ∃ pr t, entry_of c n = (pr, (t, n))) by (unfold entry_of; rewrite Hx; eauto).
  destruct Ee as (pr & t & ->).
  rewrite (get_node_Some _ _ _ Hx). cbn [mbind res_bind].
  unfold get_value. rewrite Hv. cbn [mbind res_bind].
  destruct (kv_free_total a v) as (a1 & Ha1). rewrite Ha1. cbn [mbind res_bind].
  rewrite Hdel. cbn [mbind res_bind]. rewrite Hp. cbn [get_ref mbind res_bind].
  rewrite (get_node_Some _ _ _ Hpx). cbn [mbind res_bind]. rewrite Hheap1. cbn [mbind res_bind].
  assert (Hev1 : rc_enable_kv_cache_events c1 = false) by (rewrite <- Hev; by inversion Hcfg).
  unfold record_remove_event. rewrite Hev1. cbn [mbind res_bind].
  destruct (IH c1 (delete_ghost g n) held a1 heap1 num (k + zlen v)) as
    (ns & c' & a' & g' & Hgo & HR); try done.
  { simpl. assert (size (gL g ∖ {[n]}) < size (gL g))%nat; [|lia]. apply subset_size. set_solver. }
  rewrite (map_ext (node_value c1) (node_value c) Hval) in Hgo.
  exists (n :: ns), c', a', g'. rewrite Hgo. cbn [map concat]. rewrite Hnv, zlen_app.
  split; [by rewrite Z.add_assoc|].
  apply (evict_result_cons c c1 c' a a1 a' g g' held n v ns num k); try done. econstructor; try done. apply HR.
Qed.

Lemma evict_ok c g held a num :
  inv c g held → rc_enable_kv_cache_events c = false → rc_disable c = false →
  ∃ ns c' a' g', evict c a num = Ok (zlen (concat (map (node_value c) ns)), c', a')
    ∧ evict_result c c' a a' g g' held ns num 0.
Proof.
  intros Hi Hev Hdis. unfold evict. rewrite Hdis.
  assert (Hentries : ∀ l, (∀ n, n ∈ l → n ∈ gL g) →
    res_map (evict_entry c) l = Ok (map (entry_of c) l)).
  { intros l. induction l as [|n l IH]; intros Hl; [done|].
    destruct (tree_lookup _ _ _ _ (iv_tree Hi) n) as (x & Hx); [set_solver|].
    assert (He : evict_entry c n = Ok (entry_of c n))
      by (unfold evict_entry, entry_of; by rewrite (get_node_Some _ _ _ Hx), Hx).
    cbn [res_map map]. rewrite He. cbn [mbind res_bind]. rewrite IH by set_solver. done. }
  rewrite Hentries; cycle 1.
  { intros n Hin. apply elem_of_elements in Hin. rewrite (ac_leaves (iv_acct Hi)) in Hin. set_solver. }
  cbn [mbind res_bind].
  destruct (evict_loop_spec (S (rc_counter c)) c g held a
    (map (entry_of c) (elements (rc_evictable_leaves c))) num 0) as
    (ns & c' & a' & g' & Hgo & Hrest); [done|done|done| |].
  - apply Nat.lt_succ_r. rewrite <- (size_set_seq (C:=gset nat) 0 (rc_counter c)).
    apply subseteq_size. intros m Hm.
    destruct (tree_lookup _ _ _ _ (iv_tree Hi) m Hm) as (y & Hy).
    apply (tr_fresh (iv_tree Hi)) in Hy. apply elem_of_set_seq. lia.
  - rewrite Z.add_0_l in Hgo. by exists ns, c', a', g'.
Qed.

End evict.
