(* ===== verification/RadixProps.v ===== *)
(** * The contract of the radix cache

    The public operations of [RadixCache] ([src/python/sglang/srt/mem_cache/radix_cache.py]) as a
    transition system over the cache and the locks its clients hold, its invariant, and the
    specifications of matching, insertion, locking and eviction.  Instances of the interfaces
    ([Heapq], [KVAllocator]) show that they can be met. *)

From S2P Require Import Prelude AllocKernels Allocator RadixKey PageHash RadixTree RadixInv RadixAcct.
From S2P Require Import RadixMatch RadixInsert RadixLock RadixEvict.

(** ** Instances of the interfaces *)

(** A heap as an unordered list: [heappop] removes a first smallest entry. *)
Fixpoint pop_min (e : heap_entry) (l : list heap_entry) : heap_entry * list heap_entry :=
  match l with
  | [] => (e, [])
  | f :: l' => if entry_lt f e then let '(m, r) := pop_min f l' in (m, e :: r)
               else let '(m, r) := pop_min e l' in (m, f :: r)
  end.

#[export] Instance list_heapq : Heapq := {
  heappop l := match l with [] => None | e :: l' => Some (pop_min e l') end
}.

Lemma pop_min_perm e l m r : pop_min e l = (m, r) → e :: l ≡ₚ m :: r.
Proof.
  revert e m r. induction l as [|f l IH]; intros e m r Hp; simpl in Hp; [by inversion Hp|].
  destruct (entry_lt f e).
  - destruct (pop_min f l) as [m' r'] eqn:E. inversion Hp; subst.
    transitivity (e :: m :: r'); [|constructor]. constructor. by apply IH.
  - destruct (pop_min e l) as [m' r'] eqn:E. inversion Hp; subst.
    transitivity (f :: e :: l); [constructor|]. transitivity (f :: m :: r'); [|constructor].
    constructor. by apply IH.
Qed.

Lemma lex_lt_neg_trans a b c : lex_lt a b = false → lex_lt b c = false → lex_lt a c = false.
Proof.
  revert b c. induction a as [|x a IH]; intros [|y b] [|z c]; simpl; try done.
  repeat case_bool_decide; subst; try done; try lia; eauto.
Qed.

Lemma lex_lt_asym a b : lex_lt a b = true → lex_lt b a = false.
Proof.
  revert b. induction a as [|x a IH]; intros [|y b]; simpl; try done.
  repeat case_bool_decide; subst; try done; try lia; eauto.
Qed.

Lemma lex_lt_total a b : a ≠ b → lex_lt a b = false → lex_lt b a = true.
Proof.
  revert b. induction a as [|x a IH]; intros [|y b] Hne; simpl; try done.
  repeat case_bool_decide; subst; try done; try lia. intros. apply IH; congruence.
Qed.

(** On entries of distinct nodes, not being smaller is transitive. *)
Lemma entry_lt_neg_trans a b c :
  (a.2.2 = b.2.2 → a = b) → (b.2.2 = c.2.2 → b = c) → (a.2.2 = c.2.2 → a = c) →
  entry_lt a b = false → entry_lt b c = false → entry_lt a c = false.
Proof.
  intros Hab Hbc Hac. unfold entry_lt. intros H1 H2.
  destruct (decide (a.2.2 = c.2.2)) as [E|E].
  { rewrite (Hac E). rewrite bool_decide_true by done. by rewrite bool_decide_true. }
  destruct (decide (a.2.2 = b.2.2)) as [E1|E1]; [by rewrite (Hab E1)|].
  destruct (decide (b.2.2 = c.2.2)) as [E2|E2]; [by rewrite <- (Hbc E2)|].
  rewrite (bool_decide_false (a.2.2 = b.2.2)) in H1 by done.
  rewrite (bool_decide_false (b.2.2 = c.2.2)) in H2 by done.
  rewrite (bool_decide_false (a.2.2 = c.2.2)) by done.
  destruct (decide (a.1 = b.1)) as [P1|P1], (decide (b.1 = c.1)) as [P2|P2].
  - rewrite bool_decide_true in H1, H2 by done. rewrite bool_decide_true by congruence.
    repeat case_bool_decide; lia || done.
  - rewrite (bool_decide_false (b.1 = c.1)) in H2 by done.
    rewrite bool_decide_false by congruence. by rewrite P1.
  - rewrite (bool_decide_false (a.1 = b.1)) in H1 by done.
    rewrite bool_decide_false by congruence. by rewrite <- P2.
  - rewrite (bool_decide_false (b.1 = c.1)) in H2 by done.
    rewrite (bool_decide_false (a.1 = b.1)) in H1 by done.
    case_bool_decide as P3; [|by eapply lex_lt_neg_trans].
    exfalso. rewrite <- P3 in H2. apply (lex_lt_total _ _ P1) in H1. congruence.
Qed.

Lemma entry_lt_asym a b : entry_lt a b = true → entry_lt b a = false.
Proof.
  unfold entry_lt. destruct (decide (a.1 = b.1)) as [P|P].
  - rewrite !(bool_decide_true (_.1 = _)) by done. repeat case_bool_decide; lia || done.
  - rewrite !(bool_decide_false (_.1 = _)) by done. apply lex_lt_asym.
Qed.

Lemma entry_lt_irrefl a : entry_lt a a = false.
Proof. unfold entry_lt. by rewrite !bool_decide_true. Qed.

Lemma pop_min_min l : ∀ e m r y,
  (∀ a b, a ∈ e :: l → b ∈ e :: l → a.2.2 = b.2.2 → a = b) →
  pop_min e l = (m, r) → y ∈ e :: l → entry_lt y m = false.
Proof.
  induction l as [|f l IH]; intros e m r y Huniq Hp Hy; simpl in Hp.
  { inversion Hp; subst. apply list_elem_of_singleton in Hy as ->. apply entry_lt_irrefl. }
  assert (Hcase : ∃ b o r', pop_min b l = (m, r') ∧ entry_lt o b = false
                          ∧ (y = o ∨ y ∈ b :: l) ∧ b ∈ e :: f :: l ∧ o ∈ e :: f :: l).
  { destruct (entry_lt f e) eqn:Hlt.
    - destruct (pop_min f l) as [m' r'] eqn:E. inversion Hp; subst. exists f, e, r'.
      split_and!; [done|by apply entry_lt_asym|set_solver..].
    - destruct (pop_min e l) as [m' r'] eqn:E. inversion Hp; subst. exists e, f, r'.
      split_and!; try done; set_solver. }
  destruct Hcase as (b & o & r' & Hb & Hob & Hyo & HbL & HoL).
  assert (Hu : ∀ a a', a ∈ b :: l → a' ∈ b :: l → a.2.2 = a'.2.2 → a = a').
  { intros a a' Ha Ha'. apply Huniq; set_solver. }
  assert (Hm : m ∈ b :: l) by (rewrite (pop_min_perm _ _ _ _ Hb); set_solver).
  destruct Hyo as [->|Hy']; [|by eapply IH].
  eapply (entry_lt_neg_trans o b m); [| | |done|]; try (intros E; apply Huniq; set_solver).
  eapply IH; [done|exact Hb|set_solver].
Qed.

#[export] Instance list_heapq_laws : HeapqLaws.
Proof.
  split.
  - intros [|e l]; [done|]. simpl. split; discriminate.
  - intros [|e l] x l' Hp; [done|]. inversion Hp as [E]. by apply pop_min_perm.
  - intros [|e l] x l' y Hu Hp Hy; [done|]. inversion Hp as [E]. by eapply pop_min_min.
Qed.

(** The token allocator as the allocator of the cache. *)
#[export] Instance token_kv : KVAllocator Allocator := λ a v, Ok (TokenToKVPoolAllocator_free a v).

#[export] Instance token_kv_total : KVAllocatorTotal Allocator.
Proof. split. intros a v. by eexists. Qed.

(** ** The initial cache *)

Section contract.
Context (monotonic : nat → Z).

Definition root_ghost (r : nat) : ghost := mkGhost {[r]} (λ _, []) (λ _, []).

Lemma reset_inv c :
  1 ≤ rc_page_size c → (∀ n x, rc_nodes c !! n = Some x → (n < rc_counter c)%nat) →
  inv (reset monotonic c) (root_ghost (rc_counter c)) [].
Proof.
  intros Hps Hfresh. set (r := rc_counter c).
  set (root := mkTreeNode ∅ None (mkRadixKey [] None false) (Some []) 1
                 (monotonic (rc_tick c)) (monotonic (S (rc_tick c))) 0 0 (Some []) (Some []) (- sys_maxsize)).
  set (d := set_rc_evictable_leaves ∅ (set_rc_protected_size 0 (set_rc_evictable_size 0
       (set_rc_root r (set_rc_tick (S (S (rc_tick c)))
         (set_rc_counter (S r) (set_rc_nodes (<[r := root]> (rc_nodes c)) c))))))).
  assert (Hd : reset monotonic c = record_all_cleared_event d) by done. rewrite Hd.
  assert (Hinv : inv d (root_ghost r) []).
  { assert (Hr : rc_nodes d !! r = Some root) by (simpl; by rewrite lookup_insert_eq).
    split.
    - split; simpl; try done.
      + intros n x Hx. apply lookup_insert_Some in Hx as [[<- _]|[_ Hx]]; [lia|].
        apply Hfresh in Hx. unfold r. lia.
      + set_solver.
      + exists root. done.
      + intros n Hn Hne. set_solver.
      + intros n x ck m Hn Hx Hm. assert (n = r) by set_solver. subst n.
        rewrite lookup_insert_eq in Hx. inversion Hx; subst x. simpl in Hm. by rewrite lookup_empty in Hm.
    - assert (Hnl : node_lock d r = 1 ∧ node_len d r = 0) by (unfold node_lock, node_len; by rewrite Hr).
      destruct Hnl as [E1 E2].
      split; simpl; unfold sum_over; rewrite ?elements_singleton; simpl.
      + unfold unlocked_len. by rewrite E1.
      + unfold locked_len. by rewrite E1, E2.
      + apply set_eq. intros n. rewrite elem_of_filter, elem_of_singleton. split; [set_solver|].
        intros [Hl ->]. unfold is_leaf in Hl. rewrite Hr in Hl. simpl in Hl. lia.
    - split; simpl; [set_solver| |set_solver].
      unfold node_lock. by rewrite Hr. }
  unfold record_all_cleared_event. destruct (rc_enable_kv_cache_events d); [|done].
  by apply (inv_core d).
Qed.

Lemma RadixCache_init_inv ps eagle dfi policy c :
  1 ≤ ps → RadixCache_init monotonic false ps false eagle dfi policy = Ok c →
  cache_wf c [] ∧ rc_disable c = false ∧ rc_enable_kv_cache_events c = false
  ∧ rc_page_size c = ps ∧ rc_is_eagle c = eagle.
Proof.
  intros Hps Hc. unfold RadixCache_init in Hc.
  destruct (select_strategy policy) as [s|]; simpl in Hc; [|done]. inversion Hc; subst c.
  split_and!; try done. eexists. by apply reset_inv.
Qed.

(** ** Transitions *)

Context {A : Type} `{KVAllocatorTotal A}.

Inductive cache_step : RadixCache * list nat → RadixCache * list nat → Prop :=
| cache_step_match c H key vs n c' :
    key_kind_ok c key → match_prefix monotonic c key = Ok (vs, n, c') →
    cache_step (c, H) (c', H)
| cache_step_insert c H key value priority chunked k c' :
    key_kind_ok c key → RadixKey_len (lookup_key c key) ≤ zlen value →
    insert monotonic c key (Some value) priority chunked = Ok (k, c') →
    cache_step (c, H) (c', H)
| cache_step_lock c H n us vs d c' :
    path c n us vs → n ≠ rc_root c → inc_lock_ref c n = Ok (d, c') →
    cache_step (c, H) (c', n :: H)
| cache_step_unlock c H H' n d c' :
    H ≡ₚ n :: H' → dec_lock_ref c n = Ok (d, c') →
    cache_step (c, H) (c', H')
| cache_step_evict c H (a a' : A) num k c' :
    evict c a num = Ok (k, c', a') →
    cache_step (c, H) (c', H)
| cache_step_reset c :
    cache_step (c, []) (reset monotonic c, []).

Definition cache_reachable (c0 : RadixCache) : RadixCache * list nat → Prop :=
  rtc cache_step (c0, []).

Definition cache_ok (s : RadixCache * list nat) : Prop :=
  cache_wf s.1 s.2 ∧ rc_disable s.1 = false ∧ rc_enable_kv_cache_events s.1 = false.

Lemma config_ok c c' :
  config c' = config c → rc_disable c = false → rc_enable_kv_cache_events c = false →
  rc_disable c' = false ∧ rc_enable_kv_cache_events c' = false.
Proof. intros Hc Hd He. unfold config in Hc. inversion Hc. split; congruence. Qed.

Lemma cache_step_ok s s' : cache_step s s' → cache_ok s → cache_ok s'.
Proof.
  intros Hs ((g & Hi) & Hdis & Hev). unfold cache_ok, cache_wf.
  destruct Hs as [c HL key vs n c' Hk Hm|c HL key value pr ch k c' Hk Hl Hins|c HL n us vs d c' Hp Hnr Hlk
    |c HL HL' n d c' HH Hlk|c HL a a' num k c' He|c]; simpl in *.
  - destruct (match_prefix_ok monotonic c g HL key Hi Hk Hdis)
      as (vs' & n' & c'' & g' & Hgo & Hi' & _ & Hcfg & _).
    rewrite Hm in Hgo. inversion Hgo; subst. split; [by exists g'|by apply (config_ok c)].
  - destruct (insert_ok monotonic c g HL key value pr ch Hi Hev Hdis Hk Hl)
      as (pl & c'' & g' & U0 & Hgo & Hi' & Hcfg & _).
    rewrite Hins in Hgo. inversion Hgo; subst. split; [by exists g'|by apply (config_ok c)].
  - apply (path_live _ _ _ _ _ _ _ (iv_tree Hi)) in Hp as (Hn & _ & _).
    destruct (inc_lock_ref_ok c g HL n Hi Hn Hnr Hdis) as (d' & c'' & Hgo & Hi' & Hcfg & _).
    rewrite Hlk in Hgo. inversion Hgo; subst. split; [by exists g|by apply (config_ok c)].
  - destruct (dec_lock_ref_ok c g HL HL' n Hi HH Hdis) as (d' & c'' & Hgo & Hi' & Hcfg & _).
    rewrite Hlk in Hgo. inversion Hgo; subst. split; [by exists g|by apply (config_ok c)].
  - destruct (evict_ok c g HL a num Hi Hev Hdis) as (ns & c'' & a'' & g' & Hgo & [_ _ Hend _ _]).
    rewrite He in Hgo. inversion Hgo; subst. split; [by exists g'; apply Hend|].
    apply (config_ok c); [apply Hend|done|done].
  - split; [|unfold reset, record_all_cleared_event; simpl; by rewrite Hev].
    eexists. apply reset_inv; [apply (tr_ps (iv_tree Hi))|apply (tr_fresh (iv_tree Hi))].
Qed.

Lemma cache_reachable_ok c0 s :
  cache_ok (c0, []) → cache_reachable c0 s → cache_ok s.
Proof.
  intros Hok Hr. eapply (rtc_ind_r (λ s, cache_ok s)); [exact Hok| |exact Hr].
  intros x y _ Hxy Hx. by eapply cache_step_ok.
Qed.

(** The reachable nodes of a cache. *)
Definition live_set (c : RadixCache) (L : gset nat) : Prop :=
  ∀ n, n ∈ L ↔ ∃ us vs, path c n us vs.

Lemma inv_live c g H' : inv c g H' → live_set c (gL g).
Proof.
  intros Hi n. setoid_rewrite (path_live _ _ _ _ _ _ _ (iv_tree Hi)). naive_solver.
Qed.

Lemma cached_unique c H' us vs ws :
  cache_wf c H' → (rc_page_size c | zlen us) → cached c us vs → cached c us ws → vs = ws.
Proof.
  intros [g Hi] Hd (n & us1 & vs1 & Hp1 & Hpre1 & ->) (m & us2 & vs2 & Hp2 & Hpre2 & ->).
  apply (path_live _ _ _ _ _ _ _ (iv_tree Hi)) in Hp1 as (Hn & -> & ->).
  apply (path_live _ _ _ _ _ _ _ (iv_tree Hi)) in Hp2 as (Hm & -> & ->).
  pose proof (shared_values _ _ _ _ (iv_tree Hi) (zlen us) Hd n Hn m Hm) as Hs.
  unfold zlen in Hs. rewrite Nat2Z.id in Hs. apply Hs; clear Hs.
  - lia.
  - apply prefix_length in Hpre1. lia.
  - apply prefix_length in Hpre2. lia.
  - destruct Hpre1 as [r1 ->], Hpre2 as [r2 ->]. by rewrite !take_app_length.
Qed.

Lemma cached_common c g H' us ws K :
  inv c g H' → us `prefix_of` K → cached c us ws →
  ∃ h, h ∈ gL g ∧ zlen us ≤ common_len (gP g h) K.
Proof.
  intros Hi HK (n & us' & vs' & Hp & Hpre & _).
  apply (path_live _ _ _ _ _ _ _ (iv_tree Hi)) in Hp as (Hn & -> & ->). exists n. split; [done|].
  pose proof (prefix_length _ _ HK). pose proof (prefix_length _ _ Hpre).
  apply common_len_ge; [apply zlen_nonneg|unfold zlen; lia..|].
  unfold zlen. rewrite Nat2Z.id. destruct HK as [r ->], Hpre as [r' ->]. by rewrite !take_app_length.
Qed.

Lemma page_le ps a b : 1 ≤ ps → (ps | a) → (ps | b) → a < b + ps → a ≤ b.
Proof. intros Hps [q ->] [r ->] Hlt. assert (q < r + 1) by nia. nia. Qed.

Lemma match_prefix_longest_ok c H' key :
  cache_ok (c, H') → key_kind_ok c key →
  ∃ vs n c', match_prefix monotonic c key = Ok (vs, n, c') ∧ cache_ok (c', H') ∧ config c' = config c
    ∧ (∀ us ws, cached c us ws ↔ cached c' us ws)
    ∧ path c' n (take (length vs) (qunits (lookup_key c key))) vs
    ∧ (∀ us ws, us `prefix_of` qunits (lookup_key c key) → (rc_page_size c | zlen us) →
         cached c us ws → (length us ≤ length vs)%nat ∧ ws = take (length us) vs).
Proof.
  intros ((g & Hi) & Hdis & Hev) Hk. simpl in *. pose proof (tr_ps (iv_tree Hi)) as Hps.
  destruct (match_prefix_ok monotonic c g H' key Hi Hk Hdis)
    as (vs & n' & c' & g' & Hgo & Hi' & R & Hcfg & HnL & -> & Hp & Hl).
  pose proof (P_V_length _ _ _ _ (iv_tree Hi') n' HnL) as HVP.
  assert (Eps : rc_page_size c' = rc_page_size c) by (by inversion Hcfg).
  assert (HP : take (length (gV g' n')) (qunits (lookup_key c key)) = gP g' n').
  { destruct Hp as [r ->]. replace (length (gV g' n')) with (length (gP g' n')) by (unfold zlen in *; lia).
    apply take_app_length. }
  pose proof (refines_cached c c' g g' (iv_tree Hi) (iv_tree Hi') R) as Hcached.
  exists (gV g' n'), n', c'. rewrite HP. split_and!; try done.
  - split; [by exists g'|by apply (config_ok c)].
  - by apply (path_live _ _ _ _ _ _ _ (iv_tree Hi')).
  - intros us ws HK Hd Hc. apply Hcached in Hc.
    destruct (cached_common c' g' H' us ws _ Hi' HK Hc) as (h & Hh & Hle).
    specialize (Hl h Hh).
    assert (Hlen : zlen us ≤ zlen (gP g' n')).
    { apply (page_le (rc_page_size c)); [done|done| |lia].
      rewrite <- Eps. by apply (P_pages _ _ _ _ (iv_tree Hi')). }
    split; [unfold zlen in *; lia|].
    assert (Hpre : us `prefix_of` gP g' n').
    { destruct (prefix_weak_total _ _ _ HK Hp) as [|Hr]; [done|].
      rewrite (prefix_length_eq _ _ Hr) by (unfold zlen in *; lia). done. }
    eapply (cached_unique c' H'); [by exists g'|by rewrite Eps|exact Hc|].
    exists n', (gP g' n'), (gV g' n'). split; [by apply (path_live _ _ _ _ _ _ _ (iv_tree Hi'))|done].
Qed.

Lemma adds_cached c c' g g' K U :
  tree c (gL g) (gP g) (gV g) → tree c' (gL g') (gP g') (gV g') → adds g g' K U →
  ∀ us vs, cached c' us vs ↔ cached c us vs ∨ (us `prefix_of` K ∧ vs = take (length us) U).
Proof.
  intros T T' Ad us vs. unfold cached. split.
  - intros (n & us' & vs' & Hp & Hpre & ->).
    apply (path_live _ _ _ _ _ _ _ T') in Hp as (Hn & -> & ->).
    assert (Hlen : (length us ≤ length (gV g' n))%nat).
    { pose proof (P_V_length _ _ _ _ T' n Hn). apply prefix_length in Hpre. unfold zlen in *. lia. }
    destruct (ad_new _ _ _ _ Ad n Hn) as [(m & Hm & Hmp & Hmv)|[HK HU]].
    + left. exists m, (gP g m), (gV g m). split_and!; [by apply (path_live _ _ _ _ _ _ _ T)|by etrans|].
      by apply prefix_same_take.
    + right. split; [by etrans|by apply prefix_same_take].
  - intros [(n & us' & vs' & Hp & Hpre & ->)|[Hpre ->]].
    + apply (path_live _ _ _ _ _ _ _ T) in Hp as (Hn & -> & ->).
      exists n, (gP g n), (gV g n). split_and!; [|done|done]. apply (path_live _ _ _ _ _ _ _ T').
      destruct Ad as [A1 A2 A3 _ _]. split; [by apply A1|]. by rewrite A2, A3.
    + destruct (ad_path _ _ _ _ Ad) as (n & Hn & HP & HV). exists n, K, U.
      split_and!; [|done|done]. apply (path_live _ _ _ _ _ _ _ T'). done.
Qed.

Lemma insert_spec_ok c H' key value priority chunked :
  cache_ok (c, H') → key_kind_ok c key → RadixKey_len (lookup_key c key) ≤ zlen value →
  let K := qunits (lookup_key c key) in
  ∃ pl old c', insert monotonic c key (Some value) priority chunked = Ok (pl, c') ∧ cache_ok (c', H')
    ∧ config c' = config c ∧ zlen old = pl ∧ pl ≤ zlen K ∧ cached c (take (Z.to_nat pl) K) old
    ∧ (∀ us ws, us `prefix_of` K → (rc_page_size c | zlen us) → cached c us ws → zlen us ≤ pl)
    ∧ (∀ us ws, cached c' us ws ↔ cached c us ws
         ∨ (us `prefix_of` K ∧ ws = take (length us) (old ++ drop (Z.to_nat pl) (insert_row c key value))))
    ∧ rc_evictable_size c' = rc_evictable_size c + (zlen K - pl)
    ∧ rc_protected_size c' = rc_protected_size c.
Proof.
  intros ((g & Hi) & Hdis & Hev) Hk Hlen K. simpl in *. pose proof (tr_ps (iv_tree Hi)) as Hps.
  destruct (insert_ok monotonic c g H' key value priority chunked Hi Hev Hdis Hk Hlen)
    as (pl & c' & g' & U0 & Hgo & Hi' & Hcfg & Had & Hpl & Hd & HU & (m & Hm & Hmp & Hmv) & Hlong & S1 & S2).
  fold K in Had, Hmp, Hlong. rewrite <- zlen_qunits in Hpl, S1. fold K in Hpl, S1.
  exists pl, U0, c'. split_and!; try done; try lia.
  - split; [by exists g'|by apply (config_ok c)].
  - exists m, (gP g m), (gV g m). split_and!; [by apply (path_live _ _ _ _ _ _ _ (iv_tree Hi))|done|].
    assert (Hl : length (take (Z.to_nat pl) K) = length U0).
    { rewrite length_take. unfold zlen in *. lia. }
    rewrite Hl. destruct Hmv as [r ->]. by rewrite take_app_length.
  - intros us ws HK Hdus Hc.
    destruct (cached_common c g H' us ws _ Hi HK Hc) as (h & Hh & Hle).
    specialize (Hlong h Hh). apply (page_le (rc_page_size c)); (done || lia).
  - exact (adds_cached c c' g g' _ _ (iv_tree Hi) (iv_tree Hi') Had).
Qed.

(** An insertion followed by a lookup of the same key returns a slot for every unit: the cached
    ones first, then the new ones. *)
Lemma insert_match_ok c H' key value priority chunked :
  cache_ok (c, H') → key_kind_ok c key → RadixKey_len (lookup_key c key) ≤ zlen value →
  let K := qunits (lookup_key c key) in
  ∃ pl old c1 n c2,
    insert monotonic c key (Some value) priority chunked = Ok (pl, c1)
    ∧ match_prefix monotonic c1 key
      = Ok (old ++ drop (Z.to_nat pl) (insert_row c key value), n, c2)
    ∧ zlen old = pl ∧ pl ≤ RadixKey_len (lookup_key c key)
    ∧ zlen (insert_row c key value) = RadixKey_len (lookup_key c key)
    ∧ cache_ok (c2, H') ∧ config c2 = config c
    ∧ path c2 n K (old ++ drop (Z.to_nat pl) (insert_row c key value))
    ∧ cached c (take (Z.to_nat pl) K) old
    ∧ (∀ us ws, us `prefix_of` K → (rc_page_size c | zlen us) → cached c us ws → zlen us ≤ pl)
    ∧ (∀ us ws, cached c2 us ws ↔ cached c us ws
         ∨ (us `prefix_of` K ∧ ws = take (length us) (old ++ drop (Z.to_nat pl) (insert_row c key value)))).
Proof.
  intros Hr Hk Hl K. subst K.
  destruct (insert_spec_ok c H' key value priority chunked Hr Hk Hl)
    as (pl & old & c1 & Hins & Hok1 & Hcfg & Hold & Hpl & Hc & Hlg & Hnew & _ & _).
  inversion Hcfg as [[C1 Cps C3 Ce C5 C6 C7]].
  assert (Hlk : lookup_key c1 key = lookup_key c key) by (unfold lookup_key; by rewrite Cps, Ce).
  assert (Hk1 : key_kind_ok c1 key) by (unfold key_kind_ok in *; by rewrite Ce).
  destruct (match_prefix_longest_ok c1 H' key Hok1 Hk1)
    as (vs & n & c2 & Hm & Hok2 & Hcfg2 & Hsame & Hp & Hlong). rewrite Hlk in *.
  rewrite <- (zlen_qunits (lookup_key c key)) in *.
  set (K := qunits (lookup_key c key)) in *.
  set (U := old ++ drop (Z.to_nat pl) (insert_row c key value)) in *.
  assert (HK : cached c1 K (take (length K) U)) by (apply Hnew; right; done).
  assert (Hps : 1 ≤ rc_page_size c) by (destruct Hr as ((g & Hi) & _); apply (tr_ps (iv_tree Hi))).
  destruct (Hlong K (take (length K) U)) as [Hlen Hvs]; [done| |done|].
  { rewrite Cps. unfold K. rewrite zlen_qunits. apply (lookup_key_ok c key Hps Hk). }
  assert (Hrow : zlen (insert_row c key value) = zlen K).
  { unfold insert_row. rewrite <- (zlen_qunits (lookup_key c key)). fold K. rewrite zlen_take.
    pose proof (zlen_nonneg K). lia. }
  assert (HU : zlen U = zlen K) by (unfold U; rewrite zlen_app, zlen_drop; pose proof (zlen_nonneg old); lia).
  assert (Hvl : (length vs ≤ length K)%nat).
  { destruct Hok2 as ((g2 & Hi2) & _). simpl in Hi2.
    apply (path_live _ _ _ _ _ _ _ (iv_tree Hi2)) in Hp as (Hn2 & EP & ->).
    pose proof (P_V_length _ _ _ _ (iv_tree Hi2) n Hn2) as Hz. rewrite <- EP, zlen_take in Hz.
    unfold zlen in Hz. lia. }
  assert (vs = U) as ->.
  { rewrite (take_ge vs) in Hvs by lia. rewrite take_ge in Hvs by (unfold zlen in *; lia). done. }
  rewrite take_ge in Hp by lia.
  exists pl, old, c1, n, c2. do 6 (split; [done|]).
  split; [exact (eq_trans Hcfg2 Hcfg)|]. split; [exact Hp|]. split; [exact Hc|]. split; [rewrite Cps; exact Hlg|]. intros us ws. by rewrite <- Hsame.
Qed.

Lemma shape_len c c' n : shape <$> rc_nodes c' = shape <$> rc_nodes c → node_len c' n = node_len c n.
Proof.
  intros Hs. assert (Hl : (shape <$> rc_nodes c') !! n = (shape <$> rc_nodes c) !! n) by by rewrite Hs.
  rewrite !lookup_fmap in Hl. unfold node_len.
  destruct (rc_nodes c' !! n), (rc_nodes c !! n); simpl in Hl; try done. inversion Hl. congruence.
Qed.

(** The counters are functions of the tree and the held locks. *)
Lemma inv_sizes c c' g H' H'' :
  inv c g H' → inv c' g H'' → H' ≡ₚ H'' → rc_root c' = rc_root c →
  shape <$> rc_nodes c' = shape <$> rc_nodes c →
  rc_evictable_size c' = rc_evictable_size c ∧ rc_protected_size c' = rc_protected_size c
  ∧ ∀ n, n ∈ gL g → node_lock c' n = node_lock c n.
Proof.
  intros Hi Hi' HH Hr Hs.
  assert (Hl : ∀ n, n ∈ gL g → node_lock c' n = node_lock c n).
  { intros n Hn. destruct (decide (n = rc_root c)) as [->|Hnr].
    - rewrite (lk_root (iv_locks Hi)). rewrite <- Hr. apply (lk_root (iv_locks Hi')).
    - rewrite (lk_node (iv_locks Hi)) by done. rewrite (lk_node (iv_locks Hi')) by (by rewrite ?Hr).
      by apply held_below_perm. }
  split_and!; [| |done].
  - rewrite (ac_evictable (iv_acct Hi)), (ac_evictable (iv_acct Hi')). apply sum_over_ext. intros n Hn.
    unfold unlocked_len. by rewrite Hl, (shape_len c c').
  - rewrite (ac_protected (iv_acct Hi)), (ac_protected (iv_acct Hi')). apply sum_over_ext. intros n Hn.
    unfold locked_len. by rewrite Hl, (shape_len c c').
Qed.

End contract.

(** ** Properties *)

(** A cache constructed with a valid page size, and any state its clients can bring it to. *)
Definition reachable_cache (monotonic : nat → Z) (ps : Z) (eagle dfi : bool) (policy : string)
    (s : RadixCache * list nat) : Prop :=
  1 ≤ ps ∧ ∃ c0, RadixCache_init monotonic false ps false eagle dfi policy = Ok c0
                 ∧ cache_reachable monotonic (A:=Allocator) c0 s.

Lemma reachable_cache_ok monotonic ps eagle dfi policy s :
  reachable_cache monotonic ps eagle dfi policy s → cache_ok s.
Proof.
  intros (Hps & c0 & Hinit & Hr). apply (cache_reachable_ok monotonic c0 s); [|done].
  destruct (RadixCache_init_inv monotonic ps eagle dfi policy c0 Hps Hinit) as (? & ? & ? & _).
  done.
Qed.

(** C19: in every reachable state, the nodes reachable from the root are finite, the evictable size
    is the number of cached tokens in unlocked nodes, the protected size that in locked ones, and
    the evictable leaves are exactly the unlocked nodes without children; the lock count of a node
    is the number of held locks on nodes whose path goes through it. *)
Theorem radix_accounting monotonic ps eagle dfi policy c H :
  reachable_cache monotonic ps eagle dfi policy (c, H) →
  ∃ L, live_set c L
    ∧ rc_evictable_size c = sum_over (unlocked_len c) L
    ∧ rc_protected_size c = sum_over (locked_len c) L
    ∧ (∀ n, n ∈ rc_evictable_leaves c ↔ n ∈ L ∧ is_leaf c n)
    ∧ (∀ n us vs, path c n us vs → n ≠ rc_root c →
         ∃ B : nat → bool, (∀ h, h ∈ H → B h = true ↔ below c h n)
                           ∧ node_lock c n = zlen (List.filter B H)).
Proof.
  intros ((g & Hi) & _)%reachable_cache_ok. simpl in *. exists (gL g).
  destruct (iv_acct Hi) as [A1 A2 A3]. split_and!; [by eapply inv_live|done|done| |].
  - intros n. rewrite A3, elem_of_filter. tauto.
  - intros n us vs Hp Hnr. apply (path_live _ _ _ _ _ _ _ (iv_tree Hi)) in Hp as (Hn & _ & _).
    exists (λ h, bool_decide (gP g n `prefix_of` gP g h)). split.
    + intros h Hh. destruct (lk_held (iv_locks Hi) h Hh) as [HhL _]. rewrite bool_decide_eq_true.
      split; intros Hb; [by apply (prefix_below _ _ _ _ (iv_tree Hi))
                        |by apply (below_live _ _ _ _ (iv_tree Hi) h n HhL)].
    + rewrite filter_bool. by apply (lk_node (iv_locks Hi)).
Qed.

(** C26: [match_prefix] never raises; it returns the slots of the longest cached prefix of the
    (page-truncated) key, the node that ends exactly there, and every other cached page-aligned
    prefix of the key is a prefix of the answer.  The cached content is unchanged. *)
Theorem radix_match_longest monotonic ps eagle dfi policy c H key :
  reachable_cache monotonic ps eagle dfi policy (c, H) → key_kind_ok c key →
  ∃ vs n c', match_prefix monotonic c key = Ok (vs, n, c')
    ∧ (∀ us ws, cached c us ws ↔ cached c' us ws)
    ∧ path c' n (take (length vs) (qunits (lookup_key c key))) vs
    ∧ (∀ us ws, us `prefix_of` qunits (lookup_key c key) → (rc_page_size c | zlen us) →
         cached c us ws → (length us ≤ length vs)%nat ∧ ws = take (length us) vs).
Proof.
  intros Hr%reachable_cache_ok Hk.
  destruct (match_prefix_longest_ok monotonic c H key Hr Hk) as (vs & n & c' & ? & _ & _ & ?). eauto 10.
Qed.

(** C35: [insert] never raises; it returns the length of the longest cached page-aligned prefix of the
    key, keeps those slots, adds the rest of the key with the new slots and nothing else, and the
    evictable size grows by the number of tokens added. *)
Theorem radix_insert_spec monotonic ps eagle dfi policy c H key value priority chunked :
  reachable_cache monotonic ps eagle dfi policy (c, H) → key_kind_ok c key →
  RadixKey_len (lookup_key c key) ≤ zlen value →
  let K := qunits (lookup_key c key) in
  ∃ pl old c', insert monotonic c key (Some value) priority chunked = Ok (pl, c')
    ∧ zlen old = pl ∧ pl ≤ zlen K ∧ cached c (take (Z.to_nat pl) K) old
    ∧ (∀ us ws, us `prefix_of` K → (rc_page_size c | zlen us) → cached c us ws → zlen us ≤ pl)
    ∧ (∀ us ws, cached c' us ws ↔ cached c us ws
         ∨ (us `prefix_of` K ∧ ws = take (length us) (old ++ drop (Z.to_nat pl) (insert_row c key value))))
    ∧ rc_evictable_size c' = rc_evictable_size c + (zlen K - pl)
    ∧ rc_protected_size c' = rc_protected_size c.
Proof.
  intros Hr%reachable_cache_ok Hk Hl.
  destruct (insert_spec_ok monotonic c H key value priority chunked Hr Hk Hl)
    as (pl & old & c' & ? & _ & _ & ?). by exists pl, old, c'.
Qed.

(** C31: a key that was inserted is found again: [match_prefix] after [insert] returns one slot per
    unit of the whole (page-truncated) key, the slots passed to [insert] after the part that was
    already cached. *)
Theorem radix_insert_match monotonic ps eagle dfi policy c H key value priority chunked :
  reachable_cache monotonic ps eagle dfi policy (c, H) → key_kind_ok c key →
  RadixKey_len (lookup_key c key) ≤ zlen value →
  ∃ pl c1 vs n c2, insert monotonic c key (Some value) priority chunked = Ok (pl, c1)
    ∧ match_prefix monotonic c1 key = Ok (vs, n, c2)
    ∧ zlen vs = RadixKey_len (lookup_key c key)
    ∧ drop (Z.to_nat pl) vs = drop (Z.to_nat pl) (insert_row c key value).
Proof.
  intros Hr%reachable_cache_ok Hk Hl.
  destruct (insert_match_ok monotonic c H key value priority chunked Hr Hk Hl)
    as (pl & old & c1 & n & c2 & Hins & Hm & Hold & Hpl & Hrow & _).
  eexists pl, c1, _, n, c2. split_and!; [done|done| |].
  - rewrite zlen_app, zlen_drop, Hrow. pose proof (zlen_nonneg old). lia.
  - rewrite drop_app_length' by (unfold zlen in *; lia). done.
Qed.

(** Locking a cached node and releasing it never raises and undoes itself: the returned deltas
    are the changes of the evictable size and cancel, both counters return to their values, and no
    lock count or cached content differs; while the lock is held, every node on the path to the
    root is locked, so it is no evictable leaf. *)
Theorem radix_lock_unlock monotonic ps eagle dfi policy c H n us vs :
  reachable_cache monotonic ps eagle dfi policy (c, H) → path c n us vs → n ≠ rc_root c →
  ∃ d1 c1 d2 c2, inc_lock_ref c n = Ok (d1, c1) ∧ dec_lock_ref c1 n = Ok (d2, c2)
    ∧ d1 = rc_evictable_size c1 - rc_evictable_size c ∧ d1 + d2 = 0
    ∧ rc_evictable_size c2 = rc_evictable_size c ∧ rc_protected_size c2 = rc_protected_size c
    ∧ (∀ m us vs, path c m us vs → path c2 m us vs ∧ node_lock c2 m = node_lock c m)
    ∧ (∀ m us' vs', path c1 m us' vs' → below c1 n m → m ∉ rc_evictable_leaves c1).
Proof.
  intros ((g & Hi) & Hdis & Hev)%reachable_cache_ok Hp Hnr. simpl in *.
  pose proof Hp as (Hn & _ & _)%(path_live _ _ _ _ _ _ _ (iv_tree Hi)).
  destruct (inc_lock_ref_ok c g H n Hi Hn Hnr Hdis) as (d1 & c1 & Hinc & Hi1 & Hcfg1 & Hd1 & Hs1).
  destruct (config_ok _ _ Hcfg1 Hdis Hev) as [Hdis1 _].
  destruct (dec_lock_ref_ok c1 g (n :: H) H n Hi1 (reflexivity _) Hdis1)
    as (d2 & c2 & Hdec & Hi2 & Hcfg2 & Hd2 & Hs2).
  destruct (inv_sizes c c2 g H H Hi Hi2 (reflexivity _)) as (S1 & S2 & Hl);
    [inversion Hcfg1; inversion Hcfg2; congruence|congruence|].
  exists d1, c1, d2, c2. split_and!; try done; try lia.
  - intros m us' vs' Hm. apply (path_live _ _ _ _ _ _ _ (iv_tree Hi)) in Hm as (Hm & -> & ->).
    split; [by apply (path_live _ _ _ _ _ _ _ (iv_tree Hi2))|by apply Hl].
  - intros m us' vs' Hm Hb Hlf. apply (path_live _ _ _ _ _ _ _ (iv_tree Hi1)) in Hm as (Hm & _ & _).
    rewrite (ac_leaves (iv_acct Hi1)) in Hlf. apply elem_of_filter in Hlf as [Hlf _].
    assert (Hz : node_lock c1 m = 0).
    { unfold is_leaf, node_lock in *. by destruct (rc_nodes c1 !! m); [destruct Hlf|]. }
    destruct (decide (m = rc_root c1)) as [->|Hmr];
      [rewrite (lk_root (iv_locks Hi1)) in Hz; lia|].
    rewrite (lk_node (iv_locks Hi1) m Hm Hmr), held_below_cons in Hz.
    pose proof (held_below_nonneg g H m).
    destruct (below_live _ _ _ _ (iv_tree Hi1) n m Hn Hb) as [_ Hpre].
    rewrite decide_True in Hz by done. lia.
Qed.

(** C38: [evict] never raises and terminates; it deletes unlocked leaves one after the other, each of
    them first in the order of the eviction strategy among the evictable leaves of its moment,
    frees exactly their slots (which are exactly the slots that leave the tree), reports their
    number, stops only when the request is met or nothing evictable is left, never evicts past
    the request, keeps every locked node, and the rest of the content. *)
Theorem radix_evict_spec monotonic ps eagle dfi policy c H (a : Allocator) num :
  reachable_cache monotonic ps eagle dfi policy (c, H) →
  ∃ ns c' a' L L', evict c a num = Ok (zlen (concat (map (node_value c) ns)), c', a')
    ∧ evict_trace c ns c' ∧ free_all a (map (node_value c) ns) = Ok a'
    ∧ live_set c L ∧ live_set c' L' ∧ L' ⊆ L ∧ list_to_set H ⊆ L'
    ∧ tree_slots c L ≡ₚ concat (map (node_value c) ns) ++ tree_slots c' L'
    ∧ (num ≤ zlen (concat (map (node_value c) ns)) ∨ rc_evictable_size c' = 0)
    ∧ (∀ ns' n, ns = ns' ++ [n] → zlen (concat (map (node_value c) ns')) < num)
    ∧ rc_evictable_size c' = rc_evictable_size c - zlen (concat (map (node_value c) ns))
    ∧ rc_protected_size c' = rc_protected_size c
    ∧ (∀ us vs, cached c' us vs → cached c us vs).
Proof.
  intros ((g & Hi) & Hdis & Hev)%reachable_cache_ok. simpl in *.
  destruct (evict_ok c g H a num Hi Hev Hdis) as (ns & c' & a' & g' & Hgo & [R1 R2 R3 R4 R5]).
  destruct R3 as [E1 E2 E3 E4 E5 E6 E7 E8].
  exists ns, c', a', (gL g), (gL g'). rewrite Z.add_0_l in R4.
  split_and!; try done; try (by eapply inv_live).
  - intros h Hh. apply elem_of_list_to_set in Hh. by apply (lk_held (iv_locks E1)).
  - intros us vs (n & us' & vs' & Hp & Hpre & ->).
    apply (path_live _ _ _ _ _ _ _ (iv_tree E1)) in Hp as (Hn & -> & ->). rewrite E4 in Hpre.
    rewrite E5. exists n, (gP g n), (gV g n). split_and!; [|done|done].
    apply (path_live _ _ _ _ _ _ _ (iv_tree Hi)). split; [set_solver|done].
Qed.

(** *** Witnesses: a cache with two branches and a held lock *)

Definition demo_clock (n : nat) : Z := Z.of_nat n.

Definition from_ok {A} (d : A) (r : res A) : A := match r with Ok a => a | Raise _ => d end.

Definition demo_empty : RadixCache :=
  mkRadixCache false 2 false false false LRUStrategy ∅ 0 0 0 0 0 ∅ [].

Definition demo0 : RadixCache :=
  from_ok demo_empty (RadixCache_init demo_clock false 2 false false false "lru").

Definition demo_key (ts : list Z) : RadixKey := mkRadixKey ts None false.

Definition demo1 : RadixCache :=
  (from_ok (0, demo_empty)
     (insert demo_clock demo0 (demo_key [1; 2; 3; 4; 5]) (Some [10; 11; 12; 13; 14]) (Some 0) false)).2.

Definition demo2 : RadixCache :=
  (from_ok (0, demo_empty)
     (insert demo_clock demo1 (demo_key [1; 2; 6; 7]) (Some [20; 21; 22; 23]) (Some 0) false)).2.

Definition default_node : TreeNode :=
  mkTreeNode ∅ None (demo_key []) None 0 0 0 0 0 None None 0.

Definition demo3 : RadixCache := (from_ok (0, demo_empty) (inc_lock_ref demo2 3)).2.

Lemma demo2_path :
  path demo2 3 (([] ++ qunits (demo_key [1; 2])) ++ qunits (demo_key [6; 7])) (([] ++ [10; 11]) ++ [22; 23]).
Proof.
  eapply (path_child demo2 2 _ _ _ (page_ckey 2 None [[6]; [7]]) 3 (from_ok (default_node) (get_node demo2 3)));
    [|vm_compute; reflexivity..].
  eapply (path_child demo2 0 _ _ _ (page_ckey 2 None [[1]; [2]]) 2 (from_ok (default_node) (get_node demo2 2)));
    [apply (path_root demo2)|vm_compute; reflexivity..].
Qed.

Lemma demo3_reachable : reachable_cache demo_clock 2 false false "lru" (demo3, [3%nat]).
Proof.
  split; [lia|]. exists demo0. split; [vm_compute; reflexivity|].
  eapply (rtc_l _ _ (demo1, [])).
  { apply (cache_step_insert _ _ _ (demo_key [1; 2; 3; 4; 5]) [10; 11; 12; 13; 14] (Some 0) false 0);
      [done|vm_compute; discriminate|vm_compute; reflexivity]. }
  eapply (rtc_l _ _ (demo2, [])).
  { apply (cache_step_insert _ _ _ (demo_key [1; 2; 6; 7]) [20; 21; 22; 23] (Some 0) false 2);
      [done|vm_compute; discriminate|vm_compute; reflexivity]. }
  apply rtc_once.
  eapply (cache_step_lock _ demo2 [] 3 _ _ (-4) demo3); [apply demo2_path|done|vm_compute; reflexivity].
Qed.

Lemma radix_accounting_witness :
  ∃ L, live_set demo3 L
    ∧ rc_evictable_size demo3 = sum_over (unlocked_len demo3) L
    ∧ rc_protected_size demo3 = sum_over (locked_len demo3) L
    ∧ (∀ n, n ∈ rc_evictable_leaves demo3 ↔ n ∈ L ∧ is_leaf demo3 n)
    ∧ (∀ n us vs, path demo3 n us vs → n ≠ rc_root demo3 →
         ∃ B : nat → bool, (∀ h, h ∈ [3%nat] → B h = true ↔ below demo3 h n)
                           ∧ node_lock demo3 n = zlen (List.filter B [3%nat])).
Proof. exact (radix_accounting _ _ _ _ _ _ _ demo3_reachable). Defined.

Lemma radix_match_longest_witness :
  let key := demo_key [1; 2; 3; 9] in
  ∃ vs n c', match_prefix demo_clock demo3 key = Ok (vs, n, c')
    ∧ (∀ us ws, cached demo3 us ws ↔ cached c' us ws)
    ∧ path c' n (take (length vs) (qunits (lookup_key demo3 key))) vs
    ∧ (∀ us ws, us `prefix_of` qunits (lookup_key demo3 key) → (rc_page_size demo3 | zlen us) →
         cached demo3 us ws → (length us ≤ length vs)%nat ∧ ws = take (length us) vs).
Proof. apply (radix_match_longest _ _ _ _ _ _ _ _ demo3_reachable). done. Defined.

Lemma radix_insert_spec_witness :
  let key := demo_key [1; 2; 3; 4; 8; 9] in
  let value := [30; 31; 32; 33; 34; 35] in
  let K := qunits (lookup_key demo3 key) in
  ∃ pl old c', insert demo_clock demo3 key (Some value) None true = Ok (pl, c')
    ∧ zlen old = pl ∧ pl ≤ zlen K ∧ cached demo3 (take (Z.to_nat pl) K) old
    ∧ (∀ us ws, us `prefix_of` K → (rc_page_size demo3 | zlen us) → cached demo3 us ws → zlen us ≤ pl)
    ∧ (∀ us ws, cached c' us ws ↔ cached demo3 us ws
         ∨ (us `prefix_of` K ∧ ws = take (length us) (old ++ drop (Z.to_nat pl) (insert_row demo3 key value))))
    ∧ rc_evictable_size c' = rc_evictable_size demo3 + (zlen K - pl)
    ∧ rc_protected_size c' = rc_protected_size demo3.
Proof.
  apply (radix_insert_spec _ _ _ _ _ _ _ _ _ _ _ demo3_reachable); [done|vm_compute; discriminate].
Defined.

Lemma radix_insert_match_witness :
  let key := demo_key [1; 2; 3; 4; 8; 9] in
  let value := [30; 31; 32; 33; 34; 35] in
  ∃ pl c1 vs n c2, insert demo_clock demo3 key (Some value) None true = Ok (pl, c1)
    ∧ match_prefix demo_clock c1 key = Ok (vs, n, c2)
    ∧ zlen vs = RadixKey_len (lookup_key demo3 key)
    ∧ drop (Z.to_nat pl) vs = drop (Z.to_nat pl) (insert_row demo3 key value).
Proof.
  apply (radix_insert_match _ _ _ _ _ _ _ _ _ _ _ demo3_reachable); [done|vm_compute; discriminate].
Defined.

Lemma demo2_reachable : reachable_cache demo_clock 2 false false "lru" (demo2, []).
Proof.
  split; [lia|]. exists demo0. split; [vm_compute; reflexivity|].
  eapply (rtc_l _ _ (demo1, [])).
  { apply (cache_step_insert _ _ _ (demo_key [1; 2; 3; 4; 5]) [10; 11; 12; 13; 14] (Some 0) false 0);
      [done|vm_compute; discriminate|vm_compute; reflexivity]. }
  apply rtc_once.
  apply (cache_step_insert _ _ _ (demo_key [1; 2; 6; 7]) [20; 21; 22; 23] (Some 0) false 2);
    [done|vm_compute; discriminate|vm_compute; reflexivity].
Qed.

Lemma radix_lock_unlock_witness :
  ∃ d1 c1 d2 c2, inc_lock_ref demo2 3 = Ok (d1, c1) ∧ dec_lock_ref c1 3 = Ok (d2, c2)
    ∧ d1 = rc_evictable_size c1 - rc_evictable_size demo2 ∧ d1 + d2 = 0
    ∧ rc_evictable_size c2 = rc_evictable_size demo2 ∧ rc_protected_size c2 = rc_protected_size demo2
    ∧ (∀ m us vs, path demo2 m us vs → path c2 m us vs ∧ node_lock c2 m = node_lock demo2 m)
    ∧ (∀ m us' vs', path c1 m us' vs' → below c1 3 m → m ∉ rc_evictable_leaves c1).
Proof. apply (radix_lock_unlock _ _ _ _ _ _ _ _ _ _ demo2_reachable demo2_path). done. Defined.

Lemma radix_evict_spec_witness :
  let a := TokenToKVPoolAllocator_init 40 false in
  ∃ ns c' a' L L', evict demo3 a 1 = Ok (zlen (concat (map (node_value demo3) ns)), c', a')
    ∧ evict_trace demo3 ns c' ∧ free_all a (map (node_value demo3) ns) = Ok a'
    ∧ live_set demo3 L ∧ live_set c' L' ∧ L' ⊆ L ∧ list_to_set [3%nat] ⊆ L'
    ∧ tree_slots demo3 L ≡ₚ concat (map (node_value demo3) ns) ++ tree_slots c' L'
    ∧ (1 ≤ zlen (concat (map (node_value demo3) ns)) ∨ rc_evictable_size c' = 0)
    ∧ (∀ ns' n, ns = ns' ++ [n] → zlen (concat (map (node_value demo3) ns')) < 1)
    ∧ rc_evictable_size c' = rc_evictable_size demo3 - zlen (concat (map (node_value demo3) ns))
    ∧ rc_protected_size c' = rc_protected_size demo3
    ∧ (∀ us vs, cached c' us vs → cached demo3 us vs).
Proof. exact (radix_evict_spec _ _ _ _ _ _ _ _ _ demo3_reachable). Defined.
