(* ===== verification/RadixGrow.v ===== *)
(** * How the tree grows

    Matching and inserting keep every node and its path; together with the locks they keep the number of
    slots in the tree, except for the slots an insertion adds.  [tree_total] is that number as the
    cache counts it. *)

From S2P Require Import Prelude RadixKey PageHash RadixTree RadixInv RadixAcct RadixMatch RadixInsert RadixLock.
From S2P Require Import RadixEvict RadixProps.

(** Every node of [c] is in [c'], with its path. *)
Definition grows (c c' : RadixCache) : Prop := ∀ n us vs, path c n us vs → path c' n us vs.

#[export] Instance grows_preorder : PreOrder grows.
Proof. split; [by intros c n us vs|]. intros c1 c2 c3 H1 H2 n us vs Hp. by apply H2, H1. Qed.

Lemma grows_same c c' : (∀ n us vs, path c n us vs ↔ path c' n us vs) → grows c c'.
Proof. intros Hp n us vs. apply Hp. Qed.

Definition tree_total (c : RadixCache) : Z := rc_evictable_size c + rc_protected_size c.

Lemma sumZ_map_plus {A} (f g h : A → Z) l :
  (∀ x, h x = f x + g x) → sumZ (map h l) = sumZ (map f l) + sumZ (map g l).
Proof. intros He. induction l as [|x l IH]; simpl; [done|]. rewrite He, IH. lia. Qed.

Lemma inv_total c g H : inv c g H → tree_total c = sum_over (node_len c) (gL g).
Proof.
  intros [_ [He Hp _] _]. unfold tree_total. rewrite He, Hp. unfold sum_over. symmetry.
  apply sumZ_map_plus. intros n. unfold unlocked_len, locked_len. case_bool_decide; lia.
Qed.

(** The size of a node is the number of its slots. *)
Lemma node_len_value c g H n : inv c g H → n ∈ gL g → node_len c n = zlen (node_value c n).
Proof.
  intros Hi Hn. pose proof (iv_tree Hi) as T. unfold node_len, node_value.
  destruct (decide (n = rc_root c)) as [->|Hne].
  - destruct (tr_root T) as (x & -> & _ & -> & ->). done.
  - destruct (tr_node T n Hn Hne) as (x & p & px & v & -> & Hok). rewrite (no_value Hok). simpl.
    by rewrite (no_len Hok).
Qed.

Lemma zlen_bind {A B} (f : A → list B) l : zlen (l ≫= f) = sumZ (map (λ x, zlen (f x)) l).
Proof. induction l as [|x l IH]; [done|]. rewrite bind_cons, zlen_app, IH. done. Qed.

Lemma total_slots c g H : inv c g H → tree_total c = zlen (tree_slots c (gL g)).
Proof.
  intros Hi. rewrite (inv_total c g H Hi). unfold sum_over, tree_slots. rewrite zlen_bind. f_equal.
  apply map_ext_in. intros n Hn%list_elem_of_In%elem_of_elements. by eapply node_len_value.
Qed.

Lemma live_of_inv c g H : inv c g H → live_set c (gL g).
Proof. apply (inv_live (λ _, 0)). Qed.

Lemma shape_total c c' g H H' :
  inv c g H → inv c' g H' → shape <$> rc_nodes c' = shape <$> rc_nodes c → tree_total c' = tree_total c.
Proof.
  intros Hi Hi' Hs. rewrite (inv_total _ _ _ Hi), (inv_total _ _ _ Hi'). apply sum_over_ext.
  intros n _. unfold node_len. assert (Hn : (shape <$> rc_nodes c') !! n = (shape <$> rc_nodes c) !! n) by by rewrite Hs.
  rewrite !lookup_fmap in Hn. destruct (rc_nodes c' !! n), (rc_nodes c !! n); try done.
  inversion Hn. congruence.
Qed.

(** ** Insertion and matching *)

Definition same_sizes (c c' : RadixCache) : Prop :=
  rc_evictable_size c' = rc_evictable_size c ∧ rc_protected_size c' = rc_protected_size c.

Section grow.
Context (monotonic : nat → Z).

Lemma split_node_sizes c key child len id c' :
  split_node monotonic c key child len = Ok (id, c') → same_sizes c c'.
Proof.
  unfold split_node. intros Hgo.
  repeat match type of Hgo with
  | (?x ≫= _) = Ok _ => destruct x eqn:?; cbn [mbind res_bind] in Hgo; [|done]
  | context [split_node_hash_value ?a ?b ?c] => destruct (split_node_hash_value a b c)
  end.
  cbv beta iota zeta delta [new_node] in Hgo.
  match type of Hgo with (?x ≫= _) = _ => destruct x; cbn [mbind res_bind] in Hgo; [|done] end. injection Hgo as _ <-. done.
Qed.

Lemma match_loop_sizes fuel : ∀ c t node key ck vals vals' n c',
  match_loop monotonic fuel c t node key ck vals = Ok (vals', n, c') → same_sizes c c'.
Proof.
  induction fuel as [|fuel IH]; intros c t node key ck vals vals' n c' Hgo; [done|]. cbn [match_loop] in Hgo.
  destruct (get_node c node) as [nx|]; cbn [mbind res_bind] in Hgo; [|done].
  destruct (if bool_decide _ then _ else _) as [child|]; [|by simplify_eq].
  destruct (get_node c child) as [x|]; cbn [mbind res_bind] in Hgo; [|done].
  destruct (RadixKey_match _ _ _) as [pl|]; cbn [mbind res_bind] in Hgo; [|done]. case_bool_decide.
  - destruct (split_node _ _ _ _ _) as [[fresh c1]|] eqn:Hs; cbn [mbind res_bind] in Hgo; [|done].
    apply split_node_sizes in Hs.
    destruct (get_node c1 fresh) as [fx|]; cbn [mbind res_bind] in Hgo; [|done].
    destruct (get_value fx); cbn [mbind res_bind] in Hgo; [|done]. simplify_eq. done.
  - destruct (get_value x); cbn [mbind res_bind] in Hgo; [|done].
    destruct (next_child_key _ _ _); cbn [mbind res_bind] in Hgo; [|done]. by apply IH in Hgo.
Qed.

Lemma match_helper_sizes c node key vals n c' :
  match_prefix_helper monotonic c node key = Ok (vals, n, c') → same_sizes c c'.
Proof.
  unfold match_prefix_helper, monotonic_time. cbv zeta beta iota. intros Hgo.
  destruct (child_key _ _) as [ck|]; cbn [mbind res_bind] in Hgo; [|done]. by apply match_loop_sizes in Hgo.
Qed.

Lemma match_prefix_sizes c key vs n c' :
  match_prefix monotonic c key = Ok (vs, n, c') → same_sizes c c'.
Proof.
  unfold match_prefix. intros Hgo. destruct (_ || _); [by simplify_eq|]. case_bool_decide; [by simplify_eq|].
  destruct (match_prefix_helper _ _ _ _) as [[[vals last] c1]|] eqn:Hm; cbn [mbind res_bind] in Hgo; [|done].
  apply match_helper_sizes in Hm. by simplify_eq.
Qed.

Lemma insert_grows c H key value pr chunked pl c' :
  cache_ok (c, H) → key_kind_ok c key → RadixKey_len (lookup_key c key) ≤ zlen value →
  insert monotonic c key (Some value) pr chunked = Ok (pl, c') →
  grows c c' ∧ tree_total c' = tree_total c + (RadixKey_len (lookup_key c key) - pl).
Proof.
  intros ((g & Hi) & Hdis & Hev) Hk Hl Hgo. simpl in *.
  destruct (insert_ok monotonic c g H key value pr chunked Hi Hev Hdis Hk Hl)
    as (pl' & c'' & g' & U0 & Hgo' & Hi' & _ & [A1 A2 A3 _ _] & _ & _ & _ & _ & _ & S1 & S2).
  rewrite Hgo in Hgo'. inversion Hgo'; subst pl' c''. split; [|unfold tree_total; lia].
  intros n us vs (Hn & -> & ->)%(path_live _ _ _ _ _ _ _ (iv_tree Hi)).
  apply (path_live _ _ _ _ _ _ _ (iv_tree Hi')). by rewrite A2, A3; auto.
Qed.

Lemma match_grows c H key vs m c' :
  cache_ok (c, H) → key_kind_ok c key → match_prefix monotonic c key = Ok (vs, m, c') →
  grows c c' ∧ tree_total c' = tree_total c.
Proof.
  intros ((g & Hi) & Hdis & Hev) Hk Hgo. simpl in *. destruct (match_prefix_sizes _ _ _ _ _ Hgo) as [S1 S2].
  split; [|unfold tree_total; lia].
  destruct (match_prefix_ok monotonic c g H key Hi Hk Hdis) as (vs' & m' & c'' & g' & Hgo' & Hi' & R & _).
  rewrite Hgo in Hgo'. inversion Hgo'; subst vs' m' c''.
  intros n us ws (Hn & -> & ->)%(path_live _ _ _ _ _ _ _ (iv_tree Hi)).
  apply (path_live _ _ _ _ _ _ _ (iv_tree Hi')). rewrite (rf_P R), (rf_V R) by done. split; [by apply (rf_live R)|done].
Qed.

End grow.
