(* ===== verification/ReqPool.v ===== *)
(** * Requests, their pool rows and the chunk cache

    Models the memory fields of [Req] ([src/python/sglang/srt/managers/schedule_batch.py]), the
    [ReqToTokenPool] of [src/python/sglang/srt/mem_cache/memory_pool.py], which maps a request to
    the KV slots of its tokens, and [ChunkCache] of
    [src/python/sglang/srt/mem_cache/chunk_cache.py].  A pool row is a [list Z] of 32-bit slot
    numbers; a method that changes an object returns it.

    The theorems: the rows handed out and the free rows partition [1..size] whatever the sequence
    of allocations and releases. *)

From S2P Require Import Prelude RadixTree.

(** ** Req *)

Record Req := mkReq {
  rq_origin_input_ids : list Z;
  rq_output_ids : list Z;
  rq_fill_ids : list Z;
  rq_extra_key : option string;
  rq_priority : option Z;
  rq_skip_radix_cache_insert : bool;
  rq_reasoning_tokens : Z;
  rq_is_chunked : Z;
  rq_kv_committed_len : Z;
  rq_kv_allocated_len : Z;
  rq_kv_committed_freed : bool;
  rq_kv_overallocated_freed : bool;
  rq_req_pool_idx : option Z;
  rq_prefix_indices : list Z;
  rq_last_node : option nat;
  rq_cache_protected_len : Z
}.

Definition set_rq_fill_ids (v : list Z) (r : Req) : Req :=
  mkReq (rq_origin_input_ids r) (rq_output_ids r) v (rq_extra_key r) (rq_priority r)
    (rq_skip_radix_cache_insert r) (rq_reasoning_tokens r) (rq_is_chunked r)
    (rq_kv_committed_len r) (rq_kv_allocated_len r) (rq_kv_committed_freed r)
    (rq_kv_overallocated_freed r) (rq_req_pool_idx r) (rq_prefix_indices r) (rq_last_node r)
    (rq_cache_protected_len r).

Definition set_rq_kv_committed_len (v : Z) (r : Req) : Req :=
  mkReq (rq_origin_input_ids r) (rq_output_ids r) (rq_fill_ids r) (rq_extra_key r)
    (rq_priority r) (rq_skip_radix_cache_insert r) (rq_reasoning_tokens r) (rq_is_chunked r) v
    (rq_kv_allocated_len r) (rq_kv_committed_freed r) (rq_kv_overallocated_freed r)
    (rq_req_pool_idx r) (rq_prefix_indices r) (rq_last_node r) (rq_cache_protected_len r).

Definition set_rq_kv_allocated_len (v : Z) (r : Req) : Req :=
  mkReq (rq_origin_input_ids r) (rq_output_ids r) (rq_fill_ids r) (rq_extra_key r)
    (rq_priority r) (rq_skip_radix_cache_insert r) (rq_reasoning_tokens r) (rq_is_chunked r)
    (rq_kv_committed_len r) v (rq_kv_committed_freed r) (rq_kv_overallocated_freed r)
    (rq_req_pool_idx r) (rq_prefix_indices r) (rq_last_node r) (rq_cache_protected_len r).

Definition set_rq_kv_committed_freed (v : bool) (r : Req) : Req :=
  mkReq (rq_origin_input_ids r) (rq_output_ids r) (rq_fill_ids r) (rq_extra_key r)
    (rq_priority r) (rq_skip_radix_cache_insert r) (rq_reasoning_tokens r) (rq_is_chunked r)
    (rq_kv_committed_len r) (rq_kv_allocated_len r) v (rq_kv_overallocated_freed r)
    (rq_req_pool_idx r) (rq_prefix_indices r) (rq_last_node r) (rq_cache_protected_len r).

Definition set_rq_kv_overallocated_freed (v : bool) (r : Req) : Req :=
  mkReq (rq_origin_input_ids r) (rq_output_ids r) (rq_fill_ids r) (rq_extra_key r)
    (rq_priority r) (rq_skip_radix_cache_insert r) (rq_reasoning_tokens r) (rq_is_chunked r)
    (rq_kv_committed_len r) (rq_kv_allocated_len r) (rq_kv_committed_freed r) v
    (rq_req_pool_idx r) (rq_prefix_indices r) (rq_last_node r) (rq_cache_protected_len r).

Definition set_rq_req_pool_idx (v : option Z) (r : Req) : Req :=
  mkReq (rq_origin_input_ids r) (rq_output_ids r) (rq_fill_ids r) (rq_extra_key r)
    (rq_priority r) (rq_skip_radix_cache_insert r) (rq_reasoning_tokens r) (rq_is_chunked r)
    (rq_kv_committed_len r) (rq_kv_allocated_len r) (rq_kv_committed_freed r)
    (rq_kv_overallocated_freed r) v (rq_prefix_indices r) (rq_last_node r)
    (rq_cache_protected_len r).

Definition set_rq_prefix_indices (v : list Z) (r : Req) : Req :=
  mkReq (rq_origin_input_ids r) (rq_output_ids r) (rq_fill_ids r) (rq_extra_key r)
    (rq_priority r) (rq_skip_radix_cache_insert r) (rq_reasoning_tokens r) (rq_is_chunked r)
    (rq_kv_committed_len r) (rq_kv_allocated_len r) (rq_kv_committed_freed r)
    (rq_kv_overallocated_freed r) (rq_req_pool_idx r) v (rq_last_node r)
    (rq_cache_protected_len r).

Definition set_rq_last_node (v : option nat) (r : Req) : Req :=
  mkReq (rq_origin_input_ids r) (rq_output_ids r) (rq_fill_ids r) (rq_extra_key r)
    (rq_priority r) (rq_skip_radix_cache_insert r) (rq_reasoning_tokens r) (rq_is_chunked r)
    (rq_kv_committed_len r) (rq_kv_allocated_len r) (rq_kv_committed_freed r)
    (rq_kv_overallocated_freed r) (rq_req_pool_idx r) (rq_prefix_indices r) v
    (rq_cache_protected_len r).

Definition set_rq_cache_protected_len (v : Z) (r : Req) : Req :=
  mkReq (rq_origin_input_ids r) (rq_output_ids r) (rq_fill_ids r) (rq_extra_key r)
    (rq_priority r) (rq_skip_radix_cache_insert r) (rq_reasoning_tokens r) (rq_is_chunked r)
    (rq_kv_committed_len r) (rq_kv_allocated_len r) (rq_kv_committed_freed r)
    (rq_kv_overallocated_freed r) (rq_req_pool_idx r) (rq_prefix_indices r) (rq_last_node r) v.

(** The server arguments the release path reads. *)
Record ServerArgs := mkServerArgs {
  sa_page_size : Z;
  sa_speculative_algorithm : option string;
  sa_strip_thinking_cache : bool
}.

Definition cache_commit_len (sa : ServerArgs) (r : Req) : Z :=
  if sa_strip_thinking_cache sa && bool_decide (0 < rq_reasoning_tokens r)
  then Z.min (rq_kv_committed_len r) (zlen (rq_origin_input_ids r))
  else rq_kv_committed_len r.

Definition pop_committed_kv_cache (sa : ServerArgs) (r : Req) : res (Z * Req) :=
  _ ← py_assert (negb (rq_kv_committed_freed r));
  Ok (cache_commit_len sa r, set_rq_kv_committed_freed true r).

Definition pop_overallocated_kv_cache (sa : ServerArgs) (r : Req) : res (Z * Z * Req) :=
  _ ← py_assert (negb (rq_kv_overallocated_freed r));
  Ok (cache_commit_len sa r, rq_kv_allocated_len r, set_rq_kv_overallocated_freed true r).

(** ** ReqToTokenPool *)

Record ReqToTokenPool := mkReqToTokenPool {
  rp_size : Z;
  rp_max_context_len : Z;
  rp_req_to_token : list (list Z);
  rp_free_slots : list Z
}.

Definition set_rp_req_to_token (v : list (list Z)) (p : ReqToTokenPool) : ReqToTokenPool :=
  mkReqToTokenPool (rp_size p) (rp_max_context_len p) v (rp_free_slots p).

Definition set_rp_free_slots (v : list Z) (p : ReqToTokenPool) : ReqToTokenPool :=
  mkReqToTokenPool (rp_size p) (rp_max_context_len p) (rp_req_to_token p) v.

Definition ReqToTokenPool_init (size max_context_len : Z) : ReqToTokenPool :=
  mkReqToTokenPool size max_context_len
    (replicate (Z.to_nat (size + 1)) (replicate (Z.to_nat max_context_len) 0)) (seqZ 1 size).

(** Conversion to the 32-bit element type of the table. *)
Definition int32 (z : Z) : Z := (z + 2 ^ 31) mod 2 ^ 32 - 2 ^ 31.

(** [req_to_token[idx]].  Rows are indexed by non-negative numbers; [None] as an index (a request
    without a row) is outside the model and reported as a TypeError. *)
Definition pool_row (p : ReqToTokenPool) (idx : option Z) : res (list Z) :=
  match idx with
  | None => Raise TypeError
  | Some i => match py_get (rp_req_to_token p) i with
              | Some row => Ok row
              | None => Raise IndexError
              end
  end.

(** [row[start:stop] = values]: the values must have the length of the (clamped) slice, or be a
    single value that is repeated. *)
Definition assign_slice (row : list Z) (start stop : Z) (values : list Z) : res (list Z) :=
  let a := norm_idx (zlen row) start in
  let b := Z.max a (norm_idx (zlen row) stop) in
  let n := Z.to_nat (b - a) in
  let put := λ vs : list Z,
    Ok (take (Z.to_nat a) row ++ map int32 vs ++ drop (Z.to_nat b) row) in
  if bool_decide (length values = n) then put values
  else match values with
       | [v] => put (replicate n v)
       | _ => Raise RuntimeError
       end.

(** [write((idx, slice(start, stop)), values)]. *)
Definition ReqToTokenPool_write (p : ReqToTokenPool) (idx : option Z) (start stop : Z)
    (values : list Z) : res ReqToTokenPool :=
  row ← pool_row p idx;
  row' ← assign_slice row start stop values;
  Ok (set_rp_req_to_token (<[Z.to_nat (default 0 idx) := row']> (rp_req_to_token p)) p).

Definition ReqToTokenPool_available_size (p : ReqToTokenPool) : Z := zlen (rp_free_slots p).

(** The loop that gives each request without a row the next selected one. *)
Fixpoint assign_rows (select_index : list Z) (reqs : list Req) : res (list Req) :=
  match reqs with
  | [] => Ok []
  | r :: reqs' =>
      match rq_req_pool_idx r, select_index with
      | Some _, _ => rs ← assign_rows select_index reqs'; Ok (r :: rs)
      | None, i :: sel => rs ← assign_rows sel reqs'; Ok (set_rq_req_pool_idx (Some i) r :: rs)
      | None, [] => Raise IndexError
      end
  end.

(** The returned indices are the [req_pool_idx] of the returned requests. *)
Definition ReqToTokenPool_alloc (p : ReqToTokenPool) (reqs : list Req)
    : res (option (list Req) * ReqToTokenPool) :=
  let reusing := List.filter (λ r, negb (bool_decide (rq_req_pool_idx r = None))) reqs in
  _ ← py_assert (forallb (λ r, bool_decide (0 < rq_is_chunked r)
                               || bool_decide (0 < rq_kv_committed_len r)) reusing);
  let need_size := zlen reqs - zlen reusing in
  if bool_decide (zlen (rp_free_slots p) < need_size) then Ok (None, p)
  else
    let select_index := (rp_free_slots p)⟨:need_size⟩ in
    let p := set_rp_free_slots ((rp_free_slots p)⟨need_size:⟩) p in
    rs ← assign_rows select_index reqs;
    Ok (Some rs, p).

Definition ReqToTokenPool_free (p : ReqToTokenPool) (r : Req) : res (ReqToTokenPool * Req) :=
  match rq_req_pool_idx r with
  | None => Raise AssertionError
  | Some i => Ok (set_rp_free_slots (rp_free_slots p ++ [i]) p, set_rq_req_pool_idx None r)
  end.

Definition ReqToTokenPool_clear (p : ReqToTokenPool) : ReqToTokenPool :=
  set_rp_free_slots (seqZ 1 (rp_size p)) p.

(** ** ChunkCache *)

Section chunk_cache.
Context {A : Type} `{KVAllocator A} (sa : ServerArgs).

Definition ChunkCache_cache_finished_req (p : ReqToTokenPool) (a : A) (r : Req) : res (A * Req) :=
  '(kv_committed_len, r) ← pop_committed_kv_cache sa r;
  row ← pool_row p (rq_req_pool_idx r);
  a ← kv_free a (row⟨:kv_committed_len⟩);
  Ok (a, r).

Definition ChunkCache_cache_unfinished_req (p : ReqToTokenPool) (r : Req) : res Req :=
  row ← pool_row p (rq_req_pool_idx r);
  Ok (set_rq_prefix_indices (row⟨:zlen (rq_fill_ids r)⟩) r).

End chunk_cache.

(** ** Row ownership *)

Definition rows (reqs : list Req) : list Z := omap rq_req_pool_idx reqs.

Definition reusing (reqs : list Req) : list Req :=
  List.filter (λ r, negb (bool_decide (rq_req_pool_idx r = None))) reqs.

(** A scheduler that allocates rows for batches and releases them: the pool and the requests that
    hold a row. *)
Inductive pool_step : ReqToTokenPool * list Req → ReqToTokenPool * list Req → Prop :=
| pool_step_alloc p held rest reqs rs p' :
    held ≡ₚ reusing reqs ++ rest → ReqToTokenPool_alloc p reqs = Ok (Some rs, p') →
    pool_step (p, held) (p', rs ++ rest)
| pool_step_free p held rest r p' r' :
    held ≡ₚ r :: rest → ReqToTokenPool_free p r = Ok (p', r') →
    pool_step (p, held) (p', rest)
| pool_step_write p held idx start stop values p' :
    ReqToTokenPool_write p idx start stop values = Ok p' →
    pool_step (p, held) (p', held)
| pool_step_clear p held :
    pool_step (p, held) (ReqToTokenPool_clear p, []).

Definition pool_ok (n : Z) (s : ReqToTokenPool * list Req) : Prop :=
  rp_size s.1 = n ∧ rows s.2 ++ rp_free_slots s.1 ≡ₚ seqZ 1 n
  ∧ Forall (λ r, rq_req_pool_idx r ≠ None) s.2.

Lemma rows_app l k : rows (l ++ k) = rows l ++ rows k.
Proof. apply omap_app. Qed.

Lemma rows_reusing reqs : rows (reusing reqs) = rows reqs.
Proof.
  unfold rows, reusing. induction reqs as [|r reqs IH]; [done|]. cbn [List.filter].
  destruct (rq_req_pool_idx r) eqn:E; simpl; rewrite E; [by f_equal|done].
Qed.

Lemma zlen_reusing_le reqs : zlen (reusing reqs) ≤ zlen reqs.
Proof.
  unfold reusing. induction reqs as [|r reqs IH]; [done|]. simpl.
  destruct (negb _); rewrite ?zlen_cons; lia.
Qed.

(** The loop never runs out of selected rows, hands each to one request, and changes nothing
    else. *)
Lemma assign_rows_ok sel reqs :
  zlen sel = zlen reqs - zlen (reusing reqs) →
  ∃ rs, assign_rows sel reqs = Ok rs ∧ rows rs ≡ₚ sel ++ rows reqs
    ∧ Forall (λ r, rq_req_pool_idx r ≠ None) rs
    ∧ Forall2 (λ r r', r' = r ∨ (rq_req_pool_idx r = None
                                 ∧ ∃ i, i ∈ sel ∧ r' = set_rq_req_pool_idx (Some i) r)) reqs rs.
Proof.
  revert sel. induction reqs as [|r reqs IH]; intros sel Hl; simpl.
  { exists []. assert (sel = []) as -> by (apply zlen_0; unfold zlen in *; simpl in *; lia). done. }
  pose proof (zlen_reusing_le reqs).
  destruct (rq_req_pool_idx r) as [i|] eqn:E.
  - assert (Er : reusing (r :: reqs) = r :: reusing reqs) by (unfold reusing; simpl; by rewrite E).
    rewrite Er, !zlen_cons in Hl. destruct (IH sel) as (rs & Hgo & Hp & Hf & Hc); [lia|].
    exists (r :: rs). rewrite Hgo. unfold rows in *. simpl. rewrite E, Hp.
    split_and!; [done|apply Permutation_middle|by constructor; rewrite ?E|constructor; auto].
  - assert (Er : reusing (r :: reqs) = reusing reqs) by (unfold reusing; simpl; by rewrite E).
    rewrite Er, zlen_cons in Hl.
    destruct sel as [|i sel]; [change (zlen []) with 0 in Hl; lia|]. rewrite zlen_cons in Hl.
    destruct (IH sel) as (rs & Hgo & Hp & Hf & Hc); [lia|].
    exists (set_rq_req_pool_idx (Some i) r :: rs). rewrite Hgo. unfold rows in *. simpl. rewrite Hp.
    split_and!; [done..|by constructor|]. constructor; [right; split; [done|]; exists i; set_solver|].
    eapply Forall2_impl; [exact Hc|]. simpl. intros ? ? [?|[? (j & ? & ?)]]; [by left|right].
    split; [done|]. exists j. set_solver.
Qed.

(** [alloc] on any pool: it fails exactly when too few rows are free, and otherwise moves the first
    free rows to the requests without one. *)
Lemma pool_alloc_ok p reqs :
  Forall (λ r, 0 < rq_is_chunked r ∨ 0 < rq_kv_committed_len r) (reusing reqs) →
  if bool_decide (zlen (rp_free_slots p) < zlen reqs - zlen (reusing reqs))
  then ReqToTokenPool_alloc p reqs = Ok (None, p)
  else ∃ rs p', ReqToTokenPool_alloc p reqs = Ok (Some rs, p') ∧ rp_size p' = rp_size p
    ∧ rp_req_to_token p' = rp_req_to_token p
    ∧ rows rs ++ rp_free_slots p' ≡ₚ rows reqs ++ rp_free_slots p
    ∧ Forall (λ r, rq_req_pool_idx r ≠ None) rs ∧ rp_max_context_len p' = rp_max_context_len p
    ∧ Forall2 (λ r r', r' = set_rq_req_pool_idx (rq_req_pool_idx r') r) reqs rs.
Proof.
  intros Hf. unfold ReqToTokenPool_alloc. fold (reusing reqs).
  assert (Ha : forallb (λ r, bool_decide (0 < rq_is_chunked r)
                             || bool_decide (0 < rq_kv_committed_len r)) (reusing reqs) = true).
  { rewrite forallb_forall. intros r Hr%list_elem_of_In. rewrite Forall_forall in Hf.
    destruct (Hf r Hr); [rewrite bool_decide_true by done; done|].
    rewrite (bool_decide_true (0 < rq_kv_committed_len r)) by done. apply orb_true_r. }
  rewrite Ha. cbn [py_assert mbind res_bind]. case_bool_decide as Hn; [done|].
  pose proof (zlen_reusing_le reqs).
  destruct (assign_rows_ok ((rp_free_slots p)⟨:zlen reqs - zlen (reusing reqs)⟩) reqs)
    as (rs & Hgo & Hp & Hnn & Hrs); [rewrite zlen_slice_to; lia|].
  rewrite Hgo. cbn [mbind res_bind]. do 2 eexists. split; [done|]. split_and!; [done..| |done|done|].
  - cbn [rp_free_slots set_rp_free_slots]. rewrite Hp, (Permutation_app_comm _ (rows reqs)), <- app_assoc.
    by rewrite slice_to_from.
  - eapply Forall2_impl; [exact Hrs|]. intros r r' [->|(_ & i & _ & ->)]; [by destruct r|done].
Qed.

Lemma pool_step_ok n s s' : pool_step s s' → pool_ok n s → pool_ok n s'.
Proof.
  intros Hs (Hn & Hp & Hf).
  destruct Hs as [p held rest reqs rs p' Hh Ha|p held rest r p' r' Hh Ha|p held idx a b vs p' Hw|p held];
    unfold pool_ok in *; simpl in *.
  - rewrite Hh in Hf. apply Forall_app in Hf as [Hf1 Hf2].
    assert (Hu : Forall (λ r, 0 < rq_is_chunked r ∨ 0 < rq_kv_committed_len r) (reusing reqs)).
    { unfold ReqToTokenPool_alloc in Ha. fold (reusing reqs) in Ha. unfold py_assert in Ha.
      destruct (forallb _ _) eqn:E; [|done]. rewrite forallb_forall in E. apply Forall_forall.
      intros r Hr%list_elem_of_In%E. apply orb_true_iff in Hr as [Hr|Hr];
        apply bool_decide_eq_true in Hr; auto. }
    pose proof (pool_alloc_ok p reqs Hu) as Hok. rewrite Ha in Hok. case_bool_decide; [done|].
    destruct Hok as (rs' & p'' & Heq & Hs & _ & Hr & Hnn & _). inversion Heq; subst rs' p''.
    split_and!; [congruence| |by apply Forall_app].
    rewrite <- Hp. unfold rows in *. rewrite Hh, !omap_app.
    fold (rows reqs) (rows rs) (rows (reusing reqs)) (rows rest) in *. rewrite rows_reusing.
    rewrite <- !app_assoc, (Permutation_app_comm (rows rest)), app_assoc, Hr, <- app_assoc.
    by rewrite (Permutation_app_comm (rp_free_slots p)).
  - unfold ReqToTokenPool_free in Ha. destruct (rq_req_pool_idx r) as [i|] eqn:E; [|done].
    inversion Ha; subst. simpl. rewrite Hh in Hf. split_and!; [done| |by inversion Hf].
    rewrite <- Hp. unfold rows. rewrite Hh. simpl. rewrite E.
    by rewrite app_assoc, (Permutation_app_comm _ [i]).
  - unfold ReqToTokenPool_write in Hw. destruct (pool_row p idx); simpl in Hw; [|done].
    destruct (assign_slice _ _ _ _); simpl in Hw; [|done]. by inversion Hw; subst.
  - by subst n.
Qed.

Lemma pool_reachable_ok n p0 s :
  pool_ok n (p0, []) → rtc pool_step (p0, []) s → pool_ok n s.
Proof.
  intros H0 Hr. eapply (rtc_ind_r (pool_ok n)); [exact H0| |exact Hr].
  intros x y _ Hxy Hx. by eapply pool_step_ok.
Qed.

(** Whatever the sequence of batch allocations, releases, writes and clears, the rows held by
    requests and the free rows partition [1..size]: no two requests share a row, row 0 stays with
    the padding requests; and an allocation of a batch whose reused rows are legitimate fails
    exactly when fewer rows are free than requests need one. *)
Theorem req_rows_partitioned size max_context_len p held :
  rtc pool_step (ReqToTokenPool_init size max_context_len, []) (p, held) →
  rows held ++ rp_free_slots p ≡ₚ seqZ 1 size
  ∧ NoDup (rows held ++ rp_free_slots p) ∧ (0 ∉ rows held ++ rp_free_slots p)
  ∧ ∀ reqs, Forall (λ r, 0 < rq_is_chunked r ∨ 0 < rq_kv_committed_len r) (reusing reqs) →
      (ReqToTokenPool_alloc p reqs = Ok (None, p)
       ↔ ReqToTokenPool_available_size p < zlen reqs - zlen (reusing reqs)).
Proof.
  intros Hr. apply (pool_reachable_ok size) in Hr as (_ & Hp & _); [|done]. simpl in Hp.
  split_and!; [done|rewrite Hp; apply NoDup_seqZ|rewrite Hp, elem_of_seqZ; lia|].
  intros reqs Hu. pose proof (pool_alloc_ok p reqs Hu) as Ha.
  unfold ReqToTokenPool_available_size. case_bool_decide; [done|].
  destruct Ha as (rs & p' & -> & _). by split.
Qed.

Definition demo_req : Req :=
  mkReq [1; 2; 3; 4; 8; 9] [7] [1; 2; 3; 4; 8; 9] None None false 0 0 0 0 false false None [] None 0.

Lemma req_rows_partitioned_witness :
  let p := set_rp_free_slots [3; 1] (ReqToTokenPool_init 3 8) in
  let held := [set_rq_req_pool_idx (Some 2) demo_req] in
  rows held ++ rp_free_slots p ≡ₚ seqZ 1 3
  ∧ NoDup (rows held ++ rp_free_slots p) ∧ (0 ∉ rows held ++ rp_free_slots p)
  ∧ ∀ reqs, Forall (λ r, 0 < rq_is_chunked r ∨ 0 < rq_kv_committed_len r) (reusing reqs) →
      (ReqToTokenPool_alloc p reqs = Ok (None, p)
       ↔ ReqToTokenPool_available_size p < zlen reqs - zlen (reusing reqs)).
Proof.
  apply (req_rows_partitioned 3 8).
  set (r1 := set_rq_req_pool_idx (Some 1) demo_req). set (r2 := set_rq_req_pool_idx (Some 2) demo_req).
  eapply (rtc_l _ _ (set_rp_free_slots [3] (ReqToTokenPool_init 3 8), [r1; r2])).
  { apply (pool_step_alloc _ [] [] [demo_req; demo_req] [r1; r2]); reflexivity. }
  apply rtc_once. by eapply (pool_step_free _ _ [r2] r1).
Defined.
