(* ===== verification/ReqCache.v ===== *)
(** * Handing a request's slots to the radix cache

    Models [RadixCache.cache_finished_req] and [cache_unfinished_req]
    ([src/python/sglang/srt/mem_cache/radix_cache.py]) over the request, the request pool, the
    allocator and the tree.  [kv_indices] is a view of the pool row: it is read again after the
    row was written.  Passing a view to [free] is passing its content, which the allocators copy
    unless a free group is open (no caller finishes prefill chunks inside one).

    The theorems: a request whose private slots are distinct and outside the tree neither leaks
    nor double-frees any of them: afterwards each is either in the tree or freed, once. *)

From S2P Require Import Prelude RadixKey RadixTree RadixInv RadixAcct RadixMatch RadixInsert.
From S2P Require Import RadixLock RadixEvict RadixProps RadixGrow ReqPool Allocator.

Section req_cache.
Context (monotonic : nat → Z) {A : Type} `{KVAllocator A} (sa : ServerArgs).

Definition cache_finished_req (c : RadixCache) (p : ReqToTokenPool) (a : A) (r : Req)
    (is_insert : bool) : res (RadixCache * A * Req) :=
  let is_insert := if rc_disable_finished_insert c then false else is_insert in
  '(kv_committed_len, r) ← pop_committed_kv_cache sa r;
  row ← pool_row p (rq_req_pool_idx r);
  if rc_disable c then
    a ← kv_free a (row⟨:kv_committed_len⟩);
    Ok (c, a, r)
  else
    let token_ids := (rq_origin_input_ids r ++ rq_output_ids r)⟨:kv_committed_len⟩ in
    let kv_indices := row⟨:zlen token_ids⟩ in
    let radix_key := page_aligned (mkRadixKey token_ids (rq_extra_key r) (rc_is_eagle c))
                       (rc_page_size c) in
    let key_len := RadixKey_len radix_key in
    let values := kv_indices⟨:key_len⟩ in
    '(c, a) ←
      (if is_insert then
         '(prefix_len, c) ← insert monotonic c radix_key (Some values)
                              (Some (default 0 (rq_priority r))) false;
         a ← kv_free a (py_slice kv_indices (rq_cache_protected_len r) prefix_len);
         Ok (c, a)
       else
         a ← kv_free a (py_slice kv_indices (rq_cache_protected_len r) key_len);
         Ok (c, a));
    a ← kv_free a (kv_indices⟨key_len:⟩);
    match rq_last_node r with
    | Some n => '(_, c) ← dec_lock_ref c n; Ok (c, a, r)
    | None => Ok (c, a, r)
    end.

Definition cache_unfinished_req (c : RadixCache) (p : ReqToTokenPool) (a : A) (r : Req)
    (chunked : bool) : res (RadixCache * ReqToTokenPool * A * Req) :=
  if rc_disable c then Ok (c, p, a, r)
  else
    let token_ids := rq_fill_ids r in
    row ← pool_row p (rq_req_pool_idx r);
    let kv_indices := row⟨:zlen token_ids⟩ in
    let radix_key := page_aligned (mkRadixKey token_ids (rq_extra_key r) (rc_is_eagle c))
                       (rc_page_size c) in
    let values := kv_indices⟨:RadixKey_len radix_key⟩ in
    '(new_prefix_len, c) ← insert monotonic c radix_key (Some values)
                             (Some (default 0 (rq_priority r))) chunked;
    a ← kv_free a (py_slice kv_indices (rq_cache_protected_len r) new_prefix_len);
    '(new_indices, new_last_node, c) ← match_prefix monotonic c radix_key;
    _ ← py_assert (bool_decide (zlen new_indices = RadixKey_len radix_key));
    p ← ReqToTokenPool_write p (rq_req_pool_idx r) (rq_cache_protected_len r) (zlen new_indices)
          (new_indices⟨rq_cache_protected_len r:⟩);
    let r := set_rq_cache_protected_len (zlen new_indices) r in
    last_node ← get_ref (rq_last_node r);
    '(_, c) ← dec_lock_ref c last_node;
    '(_, c) ← inc_lock_ref c new_last_node;
    row ← pool_row p (rq_req_pool_idx r);
    let kv_indices := row⟨:zlen token_ids⟩ in
    let r := set_rq_prefix_indices
               (if bool_decide (zlen new_indices < zlen kv_indices)
                then new_indices ++ kv_indices⟨zlen new_indices:⟩ else new_indices) r in
    Ok (c, p, a, set_rq_last_node (Some new_last_node) r).

End req_cache.

(** ** Keys of a request *)

Definition req_key (c : RadixCache) (r : Req) (ids : list Z) : RadixKey :=
  page_aligned (mkRadixKey ids (rq_extra_key r) (rc_is_eagle c)) (rc_page_size c).

Lemma page_aligned_qunits k ps :
  1 ≤ ps → qunits (page_aligned k ps) = take (Z.to_nat (RadixKey_len k / ps * ps)) (qunits k).
Proof.
  intros Hps. pose proof (RadixKey_len_nonneg k). unfold page_aligned. case_bool_decide as E.
  - subst. rewrite Z.div_1_r, Z.mul_1_r, take_ge; [done|].
    pose proof (zlen_qunits k). unfold zlen in *. lia.
  - pose proof (Z.mul_div_le (RadixKey_len k) ps ltac:(lia)).
    pose proof (Z.div_pos (RadixKey_len k) ps ltac:(lia) ltac:(lia)).
    unfold RadixKey_to, qunits. rewrite units_slice, slice_extra_key by nia.
    by rewrite drop_0, Z.sub_0_r, <- fmap_take.
Qed.

Lemma page_aligned_bigram k ps : is_bigram (page_aligned k ps) = is_bigram k.
Proof. unfold page_aligned, RadixKey_to. case_bool_decide; [done|]. apply slice_is_bigram. Qed.

(** A key that is already aligned and in the mode of the cache is looked up as it is. *)
Lemma req_key_lookup c r ids :
  1 ≤ rc_page_size c →
  key_kind_ok c (req_key c r ids)
  ∧ qunits (lookup_key c (req_key c r ids)) = qunits (req_key c r ids)
  ∧ RadixKey_len (lookup_key c (req_key c r ids)) = RadixKey_len (req_key c r ids).
Proof.
  intros Hps. set (k := req_key c r ids).
  assert (Hb : is_bigram k = rc_is_eagle c) by apply page_aligned_bigram.
  assert (Hv : (maybe_to_bigram_view k (rc_is_eagle c) None).1 = k).
  { unfold maybe_to_bigram_view. rewrite Hb. by destruct (rc_is_eagle c). }
  assert (Hq : qunits (lookup_key c k) = qunits k).
  { unfold lookup_key. rewrite Hv, page_aligned_qunits by done. apply take_ge.
    assert (Hd : (rc_page_size c | RadixKey_len k))
      by (unfold k, req_key; rewrite page_aligned_len by done; apply Z.divide_factor_r).
    destruct Hd as [q Hq]. rewrite Hq, Z.div_mul by lia. rewrite <- Hq.
    pose proof (zlen_qunits k). unfold zlen in *. lia. }
  split_and!; [unfold key_kind_ok; congruence|done|]. by rewrite <- !zlen_qunits, Hq.
Qed.

(** ** Slots *)

(** Some cached token is stored in slot [s]. *)
Definition in_tree (c : RadixCache) (s : Z) : Prop := ∃ us vs, cached c us vs ∧ s ∈ vs.

(** Releasing one lock on [n] turns the held locks [H] into [H']; the root is never locked. *)
Definition unlocks (c : RadixCache) (n : nat) (H H' : list nat) : Prop :=
  (n = rc_root c ∧ H' = H) ∨ H ≡ₚ n :: H'.

(** The slots [row] of the tokens [ids] of a request: its first [cache_protected_len] ones are the
    tree's, the others are distinct and nobody else's. *)
Record owns (c : RadixCache) (r : Req) (ids row : list Z) : Prop := {
  ow_len : zlen row = zlen ids;
  ow_protected : 0 ≤ rq_cache_protected_len r ≤ RadixKey_len (req_key c r ids);
  ow_pages : (rc_page_size c | rq_cache_protected_len r);
  ow_cached : cached c (take (Z.to_nat (rq_cache_protected_len r)) (qunits (req_key c r ids)))
                       (take (Z.to_nat (rq_cache_protected_len r)) row);
  ow_nodup : NoDup (drop (Z.to_nat (rq_cache_protected_len r)) row);
  ow_private s : s ∈ drop (Z.to_nat (rq_cache_protected_len r)) row → ¬ in_tree c s
}.

(** What happens to the slots of a request: [freed] are given back, the others are in the tree. *)
Record settled (c c' : RadixCache) (row freed : list Z) : Prop := {
  st_all s : in_tree c' s ∨ s ∈ freed ↔ in_tree c s ∨ s ∈ row;
  st_once : NoDup freed;
  st_disjoint s : s ∈ freed → ¬ in_tree c' s
}.

Lemma drop_three {B} (row : list B) p pl kl :
  (p ≤ pl ≤ kl)%nat →
  drop p row = take (pl - p) (drop p row) ++ drop pl (take kl row) ++ drop kl row.
Proof.
  intros Hp. rewrite <- (take_drop (pl - p) (drop p row)) at 1. f_equal. rewrite drop_drop.
  replace (p + (pl - p))%nat with pl by lia.
  rewrite <- (take_drop (kl - pl) (drop pl row)) at 1. rewrite drop_drop, take_drop_commute.
  replace (pl + (kl - pl))%nat with kl by lia. done.
Qed.

Lemma in_tree_cached c c' s : (∀ us vs, cached c us vs ↔ cached c' us vs) → in_tree c s ↔ in_tree c' s.
Proof. intros Hc. unfold in_tree. by setoid_rewrite Hc. Qed.

(** The content after an insertion, by slots. *)
Lemma in_tree_insert c c' K old U s :
  (∀ us ws, cached c' us ws ↔ cached c us ws ∨ (us `prefix_of` K ∧ ws = take (length us) (old ++ U))) →
  (∃ us, cached c us old) → length K = length (old ++ U) →
  in_tree c' s ↔ in_tree c s ∨ s ∈ U.
Proof.
  intros Hc (us0 & Hold) HK. split.
  - intros (us & ws & [Hw|[_ ->]]%Hc & Hs); [left; by exists us, ws|].
    rewrite <- (take_drop (length us) (old ++ U)) in HK.
    assert (Hin : s ∈ old ++ U) by (rewrite <- (take_drop (length us) (old ++ U)); set_solver).
    apply elem_of_app in Hin as [Hin|Hin]; [left; by exists us0, old|by right].
  - intros [(us & ws & Hw & Hs)|Hs]; [exists us, ws; split; [apply Hc; by left|done]|].
    exists K, (old ++ U). split; [|set_solver]. apply Hc. right. split; [done|]. by rewrite HK, firstn_all.
Qed.

Lemma inv_same_path c c' g H' H'' n us vs :
  inv c g H' → inv c' g H'' → path c n us vs ↔ path c' n us vs.
Proof.
  intros Hi Hi'. by rewrite (path_live _ _ _ _ _ _ _ (iv_tree Hi)), (path_live _ _ _ _ _ _ _ (iv_tree Hi')).
Qed.

Lemma same_path_cached c c' :
  (∀ n us vs, path c n us vs ↔ path c' n us vs) → ∀ us vs, cached c us vs ↔ cached c' us vs.
Proof. intros Hp us vs. unfold cached. by setoid_rewrite Hp. Qed.

(** ** Locks *)

Lemma unlock_ok c H' H'' n :
  cache_ok (c, H') → unlocks c n H' H'' →
  ∃ d c', dec_lock_ref c n = Ok (d, c') ∧ cache_ok (c', H'') ∧ config c' = config c
    ∧ ∀ m us vs, path c m us vs ↔ path c' m us vs.
Proof.
  intros ((g & Hi) & Hdis & Hev) [[-> ->]|HH]; simpl in *.
  - exists 0, c. unfold dec_lock_ref. rewrite Hdis. cbn [dec_lock_loop]. rewrite bool_decide_true by done.
    split; [done|]. split; [split; [by exists g|done]|done].
  - destruct (dec_lock_ref_ok c g H' H'' n Hi HH Hdis) as (d & c' & Hgo & Hi' & Hcfg & _).
    exists d, c'. split; [done|]. split; [split; [by exists g|by apply (config_ok c)]|].
    split; [done|]. intros m us vs. by eapply inv_same_path.
Qed.

(** The locks held after locking [n]. *)
Definition lock (c : RadixCache) (n : nat) (H : list nat) : list nat :=
  if bool_decide (n = rc_root c) then H else n :: H.

Lemma lock_config c c' n H' : config c' = config c → lock c' n H' = lock c n H'.
Proof. intros Hc. inversion Hc as [[C1 C2 C3 C4 C5 C6 C7]]. unfold lock. by rewrite C7. Qed.

Lemma lock_ok c H' n us0 vs0 :
  cache_ok (c, H') → path c n us0 vs0 →
  ∃ d c', inc_lock_ref c n = Ok (d, c') ∧ cache_ok (c', lock c n H') ∧ config c' = config c
    ∧ ∀ m us vs, path c m us vs ↔ path c' m us vs.
Proof.
  intros ((g & Hi) & Hdis & Hev) Hp; simpl in *. unfold lock. case_bool_decide as E.
  - exists 0, c. unfold inc_lock_ref. rewrite Hdis. cbn [inc_lock_loop]. rewrite bool_decide_true by congruence.
    split; [done|]. split; [split; [by exists g|done]|done].
  - apply (path_live _ _ _ _ _ _ _ (iv_tree Hi)) in Hp as (Hn & _ & _).
    destruct (inc_lock_ref_ok c g H' n Hi Hn E Hdis) as (d & c' & Hgo & Hi' & Hcfg & _).
    exists d, c'. split; [done|]. split; [split; [by exists g|by apply (config_ok c)]|].
    split; [done|]. intros m us vs. by eapply inv_same_path.
Qed.

(** Locks move slots between the two counters. *)
Lemma unlock_total c H' H'' n d c' :
  cache_ok (c, H') → unlocks c n H' H'' → dec_lock_ref c n = Ok (d, c') → tree_total c' = tree_total c.
Proof.
  intros ((g & Hi) & Hdis & _) [[-> ->]|HH] Hgo; simpl in *.
  - rewrite (proj2 (lock_ref_root c Hdis)) in Hgo. by inversion Hgo.
  - destruct (dec_lock_ref_ok c g H' H'' n Hi HH Hdis) as (d' & c'' & Hgo' & Hi' & _ & _ & Hsh).
    rewrite Hgo in Hgo'. inversion Hgo'; subst. by eapply shape_total.
Qed.

Lemma lock_total c H' n us0 vs0 d c' :
  cache_ok (c, H') → path c n us0 vs0 → inc_lock_ref c n = Ok (d, c') → tree_total c' = tree_total c.
Proof.
  intros ((g & Hi) & Hdis & _) Hp Hgo; simpl in *. destruct (decide (n = rc_root c)) as [->|E].
  - rewrite (proj1 (lock_ref_root c Hdis)) in Hgo. by inversion Hgo.
  - apply (path_live _ _ _ _ _ _ _ (iv_tree Hi)) in Hp as (Hn & _ & _).
    destruct (inc_lock_ref_ok c g H' n Hi Hn E Hdis) as (d' & c'' & Hgo' & Hi' & _ & _ & Hsh).
    rewrite Hgo in Hgo'. inversion Hgo'; subst. by eapply shape_total.
Qed.

Lemma unlocks_config c c' n H' H'' : config c' = config c → unlocks c n H' H'' → unlocks c' n H' H''.
Proof. intros Hc. inversion Hc as [[C1 C2 C3 C4 C5 C6 C7]]. unfold unlocks. by rewrite C7. Qed.

(** ** Settling the slots *)

Section settle.
Context (c : RadixCache) (r : Req) (ids row : list Z).
Hypothesis (Hps : 1 ≤ rc_page_size c) (Hown : owns c r ids row).

Let p := rq_cache_protected_len r.
Let key := req_key c r ids.

Lemma key_len_row : RadixKey_len key ≤ zlen row.
Proof.
  rewrite (ow_len _ _ _ _ Hown). unfold key, req_key. rewrite page_aligned_len by done.
  set (k := mkRadixKey _ _ _). pose proof (RadixKey_len_nonneg k).
  pose proof (Z.mul_div_le (RadixKey_len k) (rc_page_size c) ltac:(lia)).
  assert (RadixKey_len k ≤ zlen ids); [|lia].
  unfold RadixKey_len, k. simpl. pose proof (zlen_nonneg ids). destruct (rc_is_eagle c); [|done].
  case_bool_decide; lia.
Qed.

(** The protected part is cached, so it is part of what an insertion finds. *)
Lemma protected_found pl :
  (∀ us ws, us `prefix_of` qunits key → (rc_page_size c | zlen us) → cached c us ws → zlen us ≤ pl) →
  p ≤ pl.
Proof.
  intros Hl. destruct Hown as [_ [H0 H1] Hd Hc _ _]. fold p key in H0, H1, Hd, Hc.
  assert (Hz : zlen (take (Z.to_nat p) (qunits key)) = p)
    by (rewrite zlen_take, zlen_qunits; lia).
  rewrite <- Hz. eapply Hl; [apply prefix_take|by rewrite Hz|exact Hc].
Qed.

Lemma settle_insert c' old pl :
  p ≤ pl ≤ RadixKey_len key → zlen old = pl →
  cached c (take (Z.to_nat pl) (qunits key)) old →
  (∀ us ws, cached c' us ws ↔ cached c us ws
     ∨ (us `prefix_of` qunits key
        ∧ ws = take (length us) (old ++ drop (Z.to_nat pl) (take (Z.to_nat (RadixKey_len key)) row)))) →
  let f1 := take (Z.to_nat pl - Z.to_nat p) (drop (Z.to_nat p) row) in
  settled c c' row (f1 ++ drop (Z.to_nat (RadixKey_len key)) row)
  ∧ settled c c' (take (Z.to_nat (RadixKey_len key)) row) f1.
Proof.
  intros Hpl Hold Hc Hnew f1. pose proof key_len_row as Hkr.
  destruct Hown as [_ [H0 H1] Hd Hcp Hnd Hpriv]. fold p key in H0, H1, Hd, Hcp, Hnd, Hpriv.
  pose proof (drop_three row (Z.to_nat p) (Z.to_nat pl) (Z.to_nat (RadixKey_len key)) ltac:(lia)) as Hd3.
  fold f1 in Hd3. set (mid := drop _ (take _ row)) in *.
  set (f2 := drop (Z.to_nat (RadixKey_len key)) row) in *.
  assert (Htree : ∀ s, in_tree c' s ↔ in_tree c s ∨ s ∈ mid).
  { intros s. apply (in_tree_insert c c' (qunits key) old mid s Hnew); [by eexists|].
    rewrite length_app. unfold mid. rewrite length_drop, length_take.
    pose proof (zlen_qunits key). unfold zlen in *. lia. }
  rewrite Hd3 in Hnd, Hpriv. apply NoDup_app in Hnd as (N1 & D1 & (N2 & D2 & N3)%NoDup_app).
  assert (Hprot : ∀ s, s ∈ take (Z.to_nat p) row → in_tree c s) by (intros; by eexists _, _).
  assert (Hrow : row = take (Z.to_nat p) row ++ f1 ++ mid ++ f2) by (by rewrite <- Hd3, take_drop).
  assert (Hkl : take (Z.to_nat (RadixKey_len key)) row = take (Z.to_nat p) row ++ f1 ++ mid).
  { apply (app_inv_tail f2). unfold f2 at 1. rewrite take_drop, <- !app_assoc. done. }
  split; split; try (apply NoDup_app; split_and!; [done|set_solver|done]); try done;
    try (intros s Hs; rewrite Htree; set_solver).
  - intros s. rewrite Htree, Hrow, !elem_of_app. specialize (Hprot s). tauto.
  - intros s. rewrite Htree, Hkl, !elem_of_app. specialize (Hprot s). tauto.
Qed.

Lemma settle_free :
  settled c c row (take (Z.to_nat (RadixKey_len key) - Z.to_nat p) (drop (Z.to_nat p) row)
                   ++ drop (Z.to_nat (RadixKey_len key)) row).
Proof.
  destruct Hown as [_ [H0 H1] Hd Hcp Hnd Hpriv]. fold p key in H0, H1, Hd, Hcp, Hnd, Hpriv.
  replace (drop (Z.to_nat (RadixKey_len key)) row)
    with (drop (Z.to_nat (RadixKey_len key) - Z.to_nat p) (drop (Z.to_nat p) row))
    by (rewrite drop_drop; f_equal; lia).
  rewrite take_drop. split; [|done|done].
  intros s. rewrite <- (take_drop (Z.to_nat p) row) at 2.
  assert (s ∈ take (Z.to_nat p) row → in_tree c s) by (intros; by eexists _, _).
  set_solver.
Qed.

End settle.

(** ** Steps of a reachable cache *)

Section reach.
Context {monotonic : nat → Z} {ps : Z} {eagle dfi : bool} {policy : string}.
Let reachable := reachable_cache monotonic ps eagle dfi policy.

Lemma reach_step s s' : reachable s → cache_step monotonic (A:=Allocator) s s' → reachable s'.
Proof. intros (Hps & c0 & Hi & Hr) Hs. split; [done|]. exists c0. split; [done|]. by eapply rtc_r. Qed.

Lemma reach_unlock c H H' n :
  reachable (c, H) → unlocks c n H H' →
  ∃ d c', dec_lock_ref c n = Ok (d, c') ∧ reachable (c', H') ∧ config c' = config c
    ∧ ∀ m us vs, path c m us vs ↔ path c' m us vs.
Proof.
  intros Hr Hu. pose proof (reachable_cache_ok _ _ _ _ _ _ Hr) as Hok.
  destruct (unlock_ok c H H' n Hok Hu) as (d & c' & Hgo & _ & Hcfg & Hp).
  exists d, c'. split_and!; try done. destruct Hu as [[-> ->]|HH].
  - destruct Hok as (_ & Hdis & _). simpl in Hdis. unfold dec_lock_ref in Hgo. rewrite Hdis in Hgo.
    cbn [dec_lock_loop] in Hgo. rewrite bool_decide_true in Hgo by done. by inversion Hgo; subst.
  - eapply reach_step; [exact Hr|]. by eapply cache_step_unlock.
Qed.

Lemma reach_lock c H n us0 vs0 :
  reachable (c, H) → path c n us0 vs0 →
  ∃ d c', inc_lock_ref c n = Ok (d, c') ∧ reachable (c', lock c n H) ∧ config c' = config c
    ∧ ∀ m us vs, path c m us vs ↔ path c' m us vs.
Proof.
  intros Hr Hpn. pose proof (reachable_cache_ok _ _ _ _ _ _ Hr) as Hok.
  destruct (lock_ok c H n us0 vs0 Hok Hpn) as (d & c' & Hgo & _ & Hcfg & Hp).
  exists d, c'. split_and!; try done. unfold lock. case_bool_decide as E.
  - destruct Hok as (_ & Hdis & _). simpl in Hdis. unfold inc_lock_ref in Hgo. rewrite Hdis in Hgo.
    cbn [inc_lock_loop] in Hgo. rewrite bool_decide_true in Hgo by congruence. by inversion Hgo; subst.
  - eapply reach_step; [exact Hr|]. by eapply cache_step_lock.
Qed.

Lemma reach_page_size c H : reachable (c, H) → 1 ≤ rc_page_size c.
Proof. intros ((g & Hi) & _)%reachable_cache_ok. apply (tr_ps (iv_tree Hi)). Qed.

(** Inserting the slots of a request and looking them up. *)
Lemma reach_insert_row c H r ids row pr chunked :
  reachable (c, H) → owns c r ids row →
  let key := req_key c r ids in
  let kl := Z.to_nat (RadixKey_len key) in
  let p := rq_cache_protected_len r in
  ∃ pl old c1 n c2,
    insert monotonic c key (Some (take kl row)) pr chunked = Ok (pl, c1)
    ∧ match_prefix monotonic c1 key = Ok (old ++ drop (Z.to_nat pl) (take kl row), n, c2)
    ∧ zlen old = pl ∧ p ≤ pl ≤ RadixKey_len key
    ∧ reachable (c1, H) ∧ reachable (c2, H) ∧ config c1 = config c ∧ config c2 = config c
    ∧ path c2 n (qunits key) (old ++ drop (Z.to_nat pl) (take kl row))
    ∧ cached c (take (Z.to_nat pl) (qunits key)) old
    ∧ (∀ us ws, cached c1 us ws ↔ cached c2 us ws)
    ∧ (grows c c1 ∧ grows c1 c2 ∧ tree_total c1 = tree_total c + (RadixKey_len key - pl) ∧ tree_total c2 = tree_total c1)
    ∧ let f1 := take (Z.to_nat pl - Z.to_nat p) (drop (Z.to_nat p) row) in
      settled c c2 row (f1 ++ drop kl row) ∧ settled c c2 (take kl row) f1.
Proof.
  intros Hr Hown key kl p. pose proof (reach_page_size _ _ Hr) as Hps.
  destruct (req_key_lookup c r ids Hps) as (Hkk & Hq & Hl). fold key in Hkk, Hq, Hl.
  pose proof (key_len_row c r ids row Hps Hown) as Hrow. fold key in Hrow.
  pose proof (RadixKey_len_nonneg key).
  assert (Hz : zlen (take kl row) = RadixKey_len key) by (rewrite zlen_take; lia).
  assert (Hle : RadixKey_len (lookup_key c key) ≤ zlen (take kl row)) by lia.
  assert (Hir : insert_row c key (take kl row) = take kl row)
    by (unfold insert_row; rewrite Hl, take_take; unfold kl; by rewrite Nat.min_id).
  pose proof (reachable_cache_ok _ _ _ _ _ _ Hr) as Hok.
  destruct (insert_match_ok monotonic c H key (take kl row) pr chunked Hok Hkk Hle)
    as (pl & old & c1 & n & c2 & Hins & Hm & Hold & Hpl & _ & Hok2 & Hcfg2 & Hpath & Hc & Hlong & Hnew).
  destruct (insert_spec_ok monotonic c H key (take kl row) pr chunked Hok Hkk Hle)
    as (pl' & old' & c1' & Hins' & _ & Hcfg1 & _). rewrite Hins in Hins'. inversion Hins'; subst pl' c1'.
  rewrite Hir, Hq in *. rewrite Hl in Hpl.
  assert (Hp : p ≤ pl) by (eapply protected_found; eauto).
  assert (Hr1 : reachable (c1, H)) by (eapply reach_step; [exact Hr|]; by eapply cache_step_insert).
  assert (Hkk1 : key_kind_ok c1 key).
  { unfold key_kind_ok in *. replace (rc_is_eagle c1) with (rc_is_eagle c) by (by inversion Hcfg1). done. }
  destruct (match_prefix_longest_ok monotonic c1 H key (reachable_cache_ok _ _ _ _ _ _ Hr1) Hkk1)
    as (vs' & n' & c2' & Hm' & _ & _ & Hsame & _). rewrite Hm in Hm'. inversion Hm'; subst vs' n' c2'.
  exists pl, old, c1, n, c2. repeat (split; [done|]).
  split; [eapply reach_step; [exact Hr1|]; by eapply cache_step_match|].
  do 5 (split; [done|]). split; [|apply (settle_insert c r ids row Hps Hown c2 old pl); done].
  destruct (insert_grows monotonic c H key (take kl row) pr chunked pl c1 Hok Hkk Hle Hins) as [G1 T1]. rewrite Hl in T1.
  destruct (match_grows monotonic c1 H key _ _ _ (reachable_cache_ok _ _ _ _ _ _ Hr1) Hkk1 Hm) as [G2 T2]. done.
Qed.

End reach.

Lemma settled_same c c' c'' row freed :
  (∀ us vs, cached c' us vs ↔ cached c'' us vs) → settled c c' row freed → settled c c'' row freed.
Proof.
  intros Hs [S1 S2 S3]. pose proof (λ s, in_tree_cached c' c'' s Hs) as He.
  split; [intros s; by rewrite <- He|done|intros s; by rewrite <- He; apply S3].
Qed.

Lemma py_slice_sub {B} (l : list B) a b :
  0 ≤ a ≤ b → py_slice l a b = take (Z.to_nat b - Z.to_nat a) (drop (Z.to_nat a) l).
Proof. intros Hab. rewrite py_slice_take_drop by lia. f_equal. lia. Qed.

(** The tokens whose slots a finished request hands over. *)
Definition committed_ids (sa : ServerArgs) (r : Req) : list Z :=
  (rq_origin_input_ids r ++ rq_output_ids r)⟨:cache_commit_len sa r⟩.

Section finish.
Context {monotonic : nat → Z} {ps : Z} {eagle dfi : bool} {policy : string}.
Context {A : Type} `{KVAllocatorTotal A} (sa : ServerArgs).
Let reachable := reachable_cache monotonic ps eagle dfi policy.

Lemma cache_finished_req_ok c held held' p (a : A) r is_insert n row0 :
  reachable (c, held) → pool_row p (rq_req_pool_idx r) = Ok row0 →
  let ids := committed_ids sa r in
  let row := row0⟨:zlen ids⟩ in
  owns c r ids row → rq_kv_committed_freed r = false →
  rq_last_node r = Some n → unlocks c n held held' →
  ∃ c' a1 a' f1 f2,
    cache_finished_req monotonic sa c p a r is_insert = Ok (c', a', set_rq_kv_committed_freed true r)
    ∧ kv_free a f1 = Ok a1 ∧ kv_free a1 f2 = Ok a'
    ∧ settled c c' row (f1 ++ f2) ∧ reachable (c', held') ∧ config c' = config c
    ∧ grows c c' ∧ tree_total c' + zlen (f1 ++ f2) = tree_total c + (zlen row - rq_cache_protected_len r).
Proof.
  intros Hr Hrow0 ids row Hown Hf Hn Hu. pose proof (reach_page_size _ _ Hr) as Hps.
  pose proof (RadixKey_len_nonneg (req_key c r ids)).
  pose proof (key_len_row c r ids row Hps Hown) as Hkr.
  destruct (ow_protected _ _ _ _ Hown) as [Hp0 Hp1].
  assert (Hdis : rc_disable c = false) by apply (reachable_cache_ok _ _ _ _ _ _ Hr).
  unfold cache_finished_req, pop_committed_kv_cache. rewrite Hf. cbn [negb py_assert mbind res_bind].
  rewrite Hdis. cbn [rq_req_pool_idx rq_origin_input_ids rq_output_ids rq_extra_key rq_cache_protected_len
    rq_priority rq_last_node set_rq_kv_committed_freed]. rewrite Hrow0, Hn. cbn [mbind res_bind].
  fold (committed_ids sa r). fold ids. fold row. fold (req_key c r ids).
  rewrite (slice_to_take row), (slice_from_drop row) by done.
  destruct (if rc_disable_finished_insert c then false else is_insert).
  - destruct (reach_insert_row c held r ids row (Some (default 0 (rq_priority r))) false Hr Hown)
      as (pl & old & c1 & m & c2 & Hins & Hm & Hold & Hpl & Hr1 & _ & Hcfg1 & _ & _ & _ & Hsame & (Hg & _ & Ht & _) & Hst & _).
    rewrite Hins. cbn [mbind res_bind]. rewrite py_slice_sub by lia.
    destruct (kv_free_total a (take (Z.to_nat pl - Z.to_nat (rq_cache_protected_len r))
      (drop (Z.to_nat (rq_cache_protected_len r)) row))) as [a1 Ha1]. rewrite Ha1. cbn [mbind res_bind].
    destruct (kv_free_total a1 (drop (Z.to_nat (RadixKey_len (req_key c r ids))) row)) as [a2 Ha2].
    rewrite Ha2. cbn [mbind res_bind].
    destruct (reach_unlock c1 held held' n Hr1 (unlocks_config _ _ _ _ _ Hcfg1 Hu))
      as (d & c' & Hdec & Hr' & Hcfg' & Hpath). rewrite Hdec. cbn [mbind res_bind].
    do 5 eexists. repeat (split; [done|]). split; [|split; [done|split; [congruence|split]]].
    + eapply settled_same; [|exact Hst]. intros us vs. rewrite <- Hsame. by apply same_path_cached.
    + etrans; [exact Hg|by apply grows_same].
    + rewrite (unlock_total c1 held held' n d c'), zlen_app, zlen_take, !zlen_drop;
        [lia|by eapply reachable_cache_ok|by eapply unlocks_config|done].
  - rewrite py_slice_sub by lia.
    destruct (kv_free_total a (take (Z.to_nat (RadixKey_len (req_key c r ids))
      - Z.to_nat (rq_cache_protected_len r)) (drop (Z.to_nat (rq_cache_protected_len r)) row))) as [a1 Ha1].
    rewrite Ha1. cbn [mbind res_bind].
    destruct (kv_free_total a1 (drop (Z.to_nat (RadixKey_len (req_key c r ids))) row)) as [a2 Ha2].
    rewrite Ha2. cbn [mbind res_bind].
    destruct (reach_unlock c held held' n Hr Hu) as (d & c' & Hdec & Hr' & Hcfg' & Hpath).
    rewrite Hdec. cbn [mbind res_bind]. do 5 eexists. repeat (split; [done|]).
    split; [|split; [done|split; [done|split; [by apply grows_same|]]]].
    + eapply settled_same; [by apply same_path_cached|]. by apply settle_free.
    + rewrite (unlock_total c held held' n d c'), zlen_app, zlen_take, !zlen_drop;
        [lia|by eapply reachable_cache_ok|done|done].
Qed.

End finish.

(** ** Writing the row *)

Definition slot32 (s : Z) : Prop := - 2 ^ 31 ≤ s < 2 ^ 31.

Lemma int32_id s : slot32 s → int32 s = s.
Proof. intros Hs. unfold slot32, int32 in *. rewrite Z.mod_small; lia. Qed.

Lemma map_int32_id l : Forall slot32 l → map int32 l = l.
Proof. induction 1 as [|s l Hs Hl IH]; [done|]. simpl. by rewrite IH, int32_id. Qed.

Lemma assign_slice_ok row start stop values :
  0 ≤ start ≤ stop → stop ≤ zlen row → zlen values = stop - start →
  assign_slice row start stop values
  = Ok (take (Z.to_nat start) row ++ map int32 values ++ drop (Z.to_nat stop) row).
Proof.
  intros Hs He Hl. unfold assign_slice. rewrite !norm_idx_id by lia. rewrite Z.max_r by lia.
  by rewrite bool_decide_true by (unfold zlen in *; lia).
Qed.

(** A write changes one row. *)
Lemma write_row_ok p i row0 start stop values :
  0 ≤ i → pool_row p (Some i) = Ok row0 →
  0 ≤ start ≤ stop → stop ≤ zlen row0 → zlen values = stop - start → Forall slot32 values →
  let row1 := take (Z.to_nat start) row0 ++ values ++ drop (Z.to_nat stop) row0 in
  ∃ p', ReqToTokenPool_write p (Some i) start stop values = Ok p'
    ∧ pool_row p' (Some i) = Ok row1 ∧ p' = set_rp_req_to_token (<[Z.to_nat i := row1]> (rp_req_to_token p)) p
    ∧ ∀ j, 0 ≤ j → j ≠ i → pool_row p' (Some j) = pool_row p (Some j).
Proof.
  intros Hi Hrow Hs He Hl Hf row1. unfold ReqToTokenPool_write. rewrite Hrow. cbn [mbind res_bind].
  rewrite assign_slice_ok, map_int32_id by done. cbn [mbind res_bind default]. eexists. split; [done|].
  unfold pool_row, py_get in *. rewrite bool_decide_true in Hrow by done.
  destruct (rp_req_to_token p !! Z.to_nat i) as [row|] eqn:E; [|done].
  split_and!; [|done|].
  - rewrite bool_decide_true by done. cbn [rp_req_to_token set_rp_req_to_token].
    rewrite list_lookup_insert_eq; [done|]. by eapply lookup_lt_Some.
  - intros j Hj Hij. rewrite bool_decide_true by done. cbn [rp_req_to_token set_rp_req_to_token].
    rewrite list_lookup_insert_ne; [done|]. intros E'. unfold id in *. apply Hij. lia.
Qed.

Lemma cached_prefix c us us' vs :
  cached c us vs → us' `prefix_of` us → cached c us' (take (length us') vs).
Proof.
  intros (n & u & v & Hp & Hpre & ->) Hle. exists n, u, v. split_and!; [done|by etrans|].
  rewrite take_take. f_equal. apply prefix_length in Hle. lia.
Qed.

Lemma config_req_key c c' r ids : config c' = config c → req_key c' r ids = req_key c r ids.
Proof. intros Hc. inversion Hc. unfold req_key. congruence. Qed.

(** The values an insertion ends up with agree with the protected part of the row. *)
Lemma protected_values c held r ids row old pl U :
  cache_ok (c, held) → owns c r ids row →
  rq_cache_protected_len r ≤ pl ≤ RadixKey_len (req_key c r ids) → zlen old = pl →
  cached c (take (Z.to_nat pl) (qunits (req_key c r ids))) old →
  take (Z.to_nat (rq_cache_protected_len r)) (old ++ U) = take (Z.to_nat (rq_cache_protected_len r)) row.
Proof.
  intros Hok [_ [H0 H1] Hd Hcp _ _] Hpl Hold Hc.
  rewrite take_app_le by (unfold zlen in *; lia).
  assert (Hlen : length (take (Z.to_nat (rq_cache_protected_len r)) (qunits (req_key c r ids)))
                 = Z.to_nat (rq_cache_protected_len r)).
  { pose proof (zlen_qunits (req_key c r ids)). rewrite length_take. unfold zlen in *. lia. }
  eapply (cached_unique c held); [apply Hok| | |exact Hcp].
  - unfold zlen. rewrite Hlen, Z2Nat.id by done. done.
  - rewrite <- Hlen at 2. eapply cached_prefix; [exact Hc|].
    replace (Z.to_nat (rq_cache_protected_len r)) with (Z.to_nat (rq_cache_protected_len r) `min` Z.to_nat pl)%nat
      by lia. rewrite <- take_take. apply prefix_take.
Qed.

(** ** Unfinished requests *)

Section unfinish.
Context {monotonic : nat → Z} {ps : Z} {eagle dfi : bool} {policy : string}.
Context {A : Type} `{KVAllocatorTotal A}.
Let reachable := reachable_cache monotonic ps eagle dfi policy.

Lemma row_rewritten (row0 ids U : list Z) p kl :
  zlen (row0⟨:zlen ids⟩) = zlen ids → 0 ≤ p ≤ kl → zlen U = kl → kl ≤ zlen ids →
  take (Z.to_nat p) U = take (Z.to_nat p) (row0⟨:zlen ids⟩) →
  let row1 := take (Z.to_nat p) row0 ++ U⟨p:⟩ ++ drop (Z.to_nat kl) row0 in
  row1 = U ++ drop (Z.to_nat kl) row0
  ∧ row1⟨:zlen ids⟩ = U ++ drop (Z.to_nat kl) (row0⟨:zlen ids⟩).
Proof.
  intros Hl Hp HU Hkl Heq row1. pose proof (zlen_nonneg ids).
  rewrite slice_to_take in Hl, Heq by lia. rewrite zlen_take in Hl.
  assert (E1 : row1 = U ++ drop (Z.to_nat kl) row0).
  { unfold row1. rewrite slice_from_drop, app_assoc by lia. f_equal.
    rewrite <- (take_drop (Z.to_nat p) U) at 2. f_equal. rewrite Heq, take_take. f_equal. lia. }
  split; [done|]. rewrite E1, !slice_to_take by lia. rewrite take_app.
  rewrite (take_ge U) by (unfold zlen in *; lia). f_equal.
  rewrite take_drop_commute. f_equal. f_equal. unfold zlen in *. lia.
Qed.

(** After its cached tokens were replaced by the tree's, a request owns its row again. *)
Lemma owns_after c c' r r' ids row U f1 m :
  1 ≤ rc_page_size c → config c' = config c → rq_extra_key r' = rq_extra_key r →
  let key := req_key c r ids in
  let kl := RadixKey_len key in
  rq_cache_protected_len r' = kl → zlen row = zlen ids → kl ≤ zlen row → zlen U = kl →
  path c' m (qunits key) U → settled c c' row (f1 ++ drop (Z.to_nat kl) row) →
  owns c' r' ids (U ++ drop (Z.to_nat kl) row).
Proof.
  intros Hps Hcfg Hek key kl Hpr Hlen Hkl HU Hpath Hst.
  pose proof (RadixKey_len_nonneg key). fold kl in H1.
  assert (Hkey : req_key c' r' ids = key).
  { inversion Hcfg. unfold key, req_key. congruence. }
  assert (Hdrop : drop (Z.to_nat kl) (U ++ drop (Z.to_nat kl) row) = drop (Z.to_nat kl) row)
    by (apply drop_app_length'; unfold zlen in *; lia).
  assert (Htake : take (Z.to_nat kl) (U ++ drop (Z.to_nat kl) row) = U)
    by (apply take_app_length'; unfold zlen in *; lia).
  pose proof (zlen_qunits key) as Hqk. fold kl in Hqk.
  split; rewrite ?Hpr, ?Hkey, ?Hdrop, ?Htake.
  - rewrite zlen_app, HU, zlen_drop. lia.
  - fold kl. lia.
  - replace (rc_page_size c') with (rc_page_size c) by (by inversion Hcfg).
    unfold kl, key, req_key. rewrite page_aligned_len by done. apply Z.divide_factor_r.
  - exists m, (qunits key), U. rewrite take_ge by (unfold zlen in *; lia).
    split_and!; [done|done|]. rewrite take_ge; [done|]. unfold zlen in *. lia.
  - eapply NoDup_app. exact (st_once _ _ _ _ Hst).
  - intros s Hs Ht. apply (st_disjoint _ _ _ _ Hst s); [set_solver|done].
Qed.

(** The calls of [cache_unfinished_req] in order, each with its result. *)
Lemma cache_unfinished_run c c1 c2 c3 c4 p p' (a a' : A) r chunked n m i row0 row1 U pl d d' :
  let ids := rq_fill_ids r in
  let row := row0⟨:zlen ids⟩ in
  let key := req_key c r ids in
  let kl := RadixKey_len key in
  let pp := rq_cache_protected_len r in
  rc_disable c = false → rq_req_pool_idx r = Some i → pool_row p (Some i) = Ok row0 → 0 ≤ kl → 0 ≤ pp ≤ pl →
  insert monotonic c key (Some (take (Z.to_nat kl) row)) (Some (default 0 (rq_priority r))) chunked = Ok (pl, c1) →
  kv_free a (take (Z.to_nat pl - Z.to_nat pp) (drop (Z.to_nat pp) row)) = Ok a' →
  match_prefix monotonic c1 key = Ok (U, m, c2) → zlen U = kl →
  ReqToTokenPool_write p (Some i) pp kl (U⟨pp:⟩) = Ok p' → rq_last_node r = Some n →
  dec_lock_ref c2 n = Ok (d, c3) → inc_lock_ref c3 m = Ok (d', c4) → pool_row p' (Some i) = Ok row1 →
  row1⟨:zlen ids⟩ = U ++ drop (Z.to_nat kl) row →
  cache_unfinished_req monotonic c p a r chunked
  = Ok (c4, p', a', set_rq_last_node (Some m) (set_rq_prefix_indices
      (if bool_decide (kl < zlen (U ++ drop (Z.to_nat kl) row)) then U ++ drop (Z.to_nat kl) row else U)
      (set_rq_cache_protected_len kl r))).
Proof.
  intros ids row key kl pp Hdis Hi Hrow0 Hkl Hpp Hins Ha Hm HU Hw Hn Hdec Hinc Hrow1 Erow.
  unfold cache_unfinished_req. rewrite Hdis. rewrite Hi, Hrow0. cbn [mbind res_bind].
  fold ids row. fold (req_key c r ids). fold key. fold kl. rewrite (slice_to_take row) by done.
  rewrite Hins. cbn [mbind res_bind]. fold pp. rewrite py_slice_sub, Ha by lia. cbn [mbind res_bind].
  rewrite Hm. cbn [mbind res_bind]. rewrite HU, bool_decide_true by done. cbn [py_assert mbind res_bind].
  rewrite Hw. cbn [mbind res_bind rq_last_node set_rq_cache_protected_len]. rewrite Hn.
  cbn [get_ref mbind res_bind]. rewrite Hdec. cbn [mbind res_bind]. rewrite Hinc. cbn [mbind res_bind].
  cbn [rq_req_pool_idx set_rq_cache_protected_len]. rewrite Hi, Hrow1. cbn [mbind res_bind].
  rewrite Erow. rewrite slice_from_drop by done. rewrite drop_app_length' by (unfold zlen in *; lia). reflexivity.
Qed.

Lemma cache_unfinished_req_ok c held held' p (a : A) r chunked n i row0 :
  reachable (c, held) → rq_req_pool_idx r = Some i → 0 ≤ i → pool_row p (Some i) = Ok row0 →
  let ids := rq_fill_ids r in
  let row := row0⟨:zlen ids⟩ in
  let key := req_key c r ids in
  let kl := RadixKey_len key in
  owns c r ids row → Forall slot32 row → (∀ s, in_tree c s → slot32 s) →
  rq_last_node r = Some n → unlocks c n held held' →
  ∃ c' p' a' r' f n' row0',
    cache_unfinished_req monotonic c p a r chunked = Ok (c', p', a', r')
    ∧ kv_free a f = Ok a' ∧ settled c c' (take (Z.to_nat kl) row) f
    ∧ pool_row p' (Some i) = Ok row0' ∧ owns c' r' ids (row0'⟨:zlen ids⟩)
    ∧ drop (Z.to_nat kl) (row0'⟨:zlen ids⟩) = drop (Z.to_nat kl) row
    ∧ rq_cache_protected_len r' = kl ∧ rq_prefix_indices r' = row0'⟨:zlen ids⟩
    ∧ rq_last_node r' = Some n'
    ∧ path c' n' (qunits key) (take (Z.to_nat kl) (row0'⟨:zlen ids⟩))
    ∧ reachable (c', lock c n' held')
    ∧ (∀ j, 0 ≤ j → j ≠ i → pool_row p' (Some j) = pool_row p (Some j))
    ∧ config c' = config c ∧ grows c c' ∧ tree_total c' + zlen f = tree_total c + (kl - rq_cache_protected_len r)
    ∧ r' = set_rq_last_node (Some n') (set_rq_prefix_indices (row0'⟨:zlen ids⟩) (set_rq_cache_protected_len kl r))
    ∧ p' = set_rp_req_to_token (<[Z.to_nat i := row0']> (rp_req_to_token p)) p ∧ zlen row0' = zlen row0.
Proof.
  intros Hr Hi Hi0 Hrow0 ids row key kl Hown Hrow32 Htree32 Hn Hu.
  pose proof (reach_page_size _ _ Hr) as Hps. pose proof (RadixKey_len_nonneg key) as Hkl0. fold kl in Hkl0.
  pose proof (ow_len _ _ _ _ Hown) as Hlen. destruct (ow_protected _ _ _ _ Hown) as [Hp0 Hp1].
  pose proof (key_len_row c r ids row Hps Hown) as Hklr. fold key in Hklr, Hp1. fold kl in Hklr, Hp1.
  pose proof (reachable_cache_ok _ _ _ _ _ _ Hr) as Hok.
  assert (Hdis : rc_disable c = false) by apply Hok.
  destruct (reach_insert_row c held r ids row (Some (default 0 (rq_priority r))) chunked Hr Hown)
    as (pl & old & c1 & m & c2 & Hins & Hm & Hold & Hpl & Hr1 & Hr2 & Hcfg1 & Hcfg2 & Hpath & Hc & Hsame
        & (Hg1 & Hg2 & Ht1 & Ht2) & Hst & Hst2).
  fold key in Hins, Hm, Hpl, Hpath, Hc, Hst, Hst2. fold kl in Hins, Hm, Hpl, Hpath, Hst, Hst2.
  set (U := old ++ drop (Z.to_nat pl) (take (Z.to_nat kl) row)) in *.
  set (pp := rq_cache_protected_len r) in *.
  assert (HU : zlen U = kl) by (unfold U; rewrite zlen_app, zlen_drop, zlen_take; lia).
  assert (HUp : take (Z.to_nat pp) U = take (Z.to_nat pp) row)
    by (eapply protected_values; eauto).
  assert (HU32 : Forall slot32 U).
  { apply Forall_app. split; [|by apply Forall_drop, Forall_take].
    apply Forall_forall. intros s Hs. apply Htree32. by eexists _, old. }
  assert (Hrow0l : kl ≤ zlen row0).
  { pose proof (zlen_nonneg ids). unfold row in Hklr. rewrite zlen_slice_to in Hklr by done. lia. }
  destruct (write_row_ok p i row0 pp kl (U⟨pp:⟩) Hi0 Hrow0) as (p' & Hw & Hrow1 & Hp' & Hother);
    [lia|lia|rewrite zlen_slice_from by lia; lia|rewrite slice_from_drop by lia; by apply Forall_drop|].
  destruct (row_rewritten row0 ids U pp kl) as [Erow0 Erow]; [done|lia|done|lia|done|].
  rewrite Erow0 in Hrow1, Erow, Hp'.
  destruct (reach_unlock c2 held held' n Hr2 (unlocks_config _ _ _ _ _ Hcfg2 Hu))
    as (d & c3 & Hdec & Hr3 & Hcfg3 & Hpath3).
  destruct (reach_lock c3 held' m (qunits key) U Hr3) as (d' & c4 & Hinc & Hr4 & Hcfg4 & Hpath4);
    [by apply Hpath3|].
  destruct (kv_free_total a (take (Z.to_nat pl - Z.to_nat pp) (drop (Z.to_nat pp) row))) as [a' Ha].
  assert (Hsame4 : ∀ us vs, cached c2 us vs ↔ cached c4 us vs).
  { apply same_path_cached. intros. by rewrite Hpath3. }
  assert (Hdrop : drop (Z.to_nat kl) (U ++ drop (Z.to_nat kl) row) = drop (Z.to_nat kl) row)
    by (apply drop_app_length'; unfold zlen in *; lia).
  assert (Htake : take (Z.to_nat kl) (U ++ drop (Z.to_nat kl) row) = U)
    by (apply take_app_length'; unfold zlen in *; lia).
  eexists c4, p', a', _, _, m, _.
  split.
  { apply (cache_unfinished_run c c1 c2 c3 c4 p p' a a' r chunked n m i row0 (U ++ drop (Z.to_nat kl) row0) U pl d d');
      try done; lia. }
  split; [exact Ha|]. split; [by eapply settled_same|]. split; [exact Hrow1|].
  rewrite Erow. fold row.
  split.
  { apply (owns_after c c4 r _ ids row U (take (Z.to_nat pl - Z.to_nat pp) (drop (Z.to_nat pp) row)) m);
      try done; [congruence|by apply Hpath4, Hpath3|by eapply settled_same]. }
  assert (Hpre : (if bool_decide (kl < zlen (U ++ drop (Z.to_nat kl) row)) then U ++ drop (Z.to_nat kl) row else U)
    = U ++ drop (Z.to_nat kl) row).
  { rewrite zlen_app, zlen_drop, HU. case_bool_decide as E; [done|].
    rewrite drop_ge by (unfold zlen in *; lia). by rewrite app_nil_r. }
  split; [exact Hdrop|]. split; [done|]. split; [exact Hpre|].
  split; [done|]. split; [rewrite Htake; by apply Hpath4, Hpath3|].
  split; [rewrite <- (lock_config c c3) by congruence; done|]. split; [exact Hother|]. split; [congruence|]. split; [|split; [|split; [|split; [exact Hp'|]]]].
  - etrans; [exact Hg1|]. etrans; [exact Hg2|]. intros m' us vs Hp. by apply Hpath4, Hpath3.
  - assert (Hp3 : path c3 m (qunits key) U) by (by apply Hpath3).
    pose proof (lock_total _ _ _ _ _ _ _ (reachable_cache_ok _ _ _ _ _ _ Hr3) Hp3 Hinc) as T4.
    pose proof (unlock_total _ _ _ _ _ _ (reachable_cache_ok _ _ _ _ _ _ Hr2) (unlocks_config _ _ _ _ _ Hcfg2 Hu) Hdec) as T3.
    fold key kl in Ht1. fold pp. rewrite zlen_take, zlen_drop. lia.
  - do 2 f_equal. exact Hpre.
  - rewrite zlen_app, zlen_drop. lia.
Qed.

End unfinish.

(** ** Properties *)

(** C16: finishing a request never raises and settles its slots: the committed slots it did not
    share with the tree are, afterwards, either in the tree or freed; none is freed twice, none is
    freed while the tree holds it, no slot is lost, its lock is released and the cache stays a
    reachable one. *)
Theorem cache_finished_settles monotonic ps eagle dfi policy (sa : ServerArgs) c held held' p
    (a : Allocator) r is_insert n row0 :
  reachable_cache monotonic ps eagle dfi policy (c, held) →
  pool_row p (rq_req_pool_idx r) = Ok row0 →
  let ids := committed_ids sa r in
  let row := row0⟨:zlen ids⟩ in
  owns c r ids row → rq_kv_committed_freed r = false →
  rq_last_node r = Some n → unlocks c n held held' →
  ∃ c' a1 a' f1 f2,
    cache_finished_req monotonic sa c p a r is_insert = Ok (c', a', set_rq_kv_committed_freed true r)
    ∧ kv_free a f1 = Ok a1 ∧ kv_free a1 f2 = Ok a'
    ∧ settled c c' row (f1 ++ f2)
    ∧ reachable_cache monotonic ps eagle dfi policy (c', held').
Proof.
  intros Hr Hrow ids row Hown Hf Hn Hu.
  destruct (cache_finished_req_ok sa c held held' p a r is_insert n row0 Hr Hrow Hown Hf Hn Hu)
    as (c' & a1 & a' & f1 & f2 & H1 & H2 & H3 & H4 & H5 & _).
  by exists c', a1, a', f1, f2.
Qed.

(** C15: handing the computed tokens of an unfinished request to the tree never raises (the length
    assertion included) and settles its aligned slots; the request's row is then the tree's slots
    for the aligned tokens followed by its own unaligned ones, so that it owns its row again, its
    prefix is the whole row, the lock moved from its old node to the node that ends at its aligned
    tokens, and no other row changed. *)
Theorem cache_unfinished_settles monotonic ps eagle dfi policy c held held' p
    (a : Allocator) r chunked n i row0 :
  reachable_cache monotonic ps eagle dfi policy (c, held) →
  rq_req_pool_idx r = Some i → 0 ≤ i → pool_row p (Some i) = Ok row0 →
  let ids := rq_fill_ids r in
  let row := row0⟨:zlen ids⟩ in
  let key := req_key c r ids in
  let kl := RadixKey_len key in
  owns c r ids row → Forall slot32 row → (∀ s, in_tree c s → slot32 s) →
  rq_last_node r = Some n → unlocks c n held held' →
  ∃ c' p' a' r' f n' row0',
    cache_unfinished_req monotonic c p a r chunked = Ok (c', p', a', r')
    ∧ kv_free a f = Ok a' ∧ settled c c' (take (Z.to_nat kl) row) f
    ∧ pool_row p' (Some i) = Ok row0' ∧ owns c' r' ids (row0'⟨:zlen ids⟩)
    ∧ drop (Z.to_nat kl) (row0'⟨:zlen ids⟩) = drop (Z.to_nat kl) row
    ∧ rq_cache_protected_len r' = kl ∧ rq_prefix_indices r' = row0'⟨:zlen ids⟩
    ∧ rq_last_node r' = Some n'
    ∧ path c' n' (qunits key) (take (Z.to_nat kl) (row0'⟨:zlen ids⟩))
    ∧ reachable_cache monotonic ps eagle dfi policy (c', lock c n' held')
    ∧ (∀ j, 0 ≤ j → j ≠ i → pool_row p' (Some j) = pool_row p (Some j)).
Proof.
  intros Hr Hi Hi0 Hrow ids row key kl Hown H1 H2 Hn Hu.
  destruct (cache_unfinished_req_ok c held held' p a r chunked n i row0 Hr Hi Hi0 Hrow Hown H1 H2 Hn Hu)
    as (c' & p' & a' & r' & f & n' & row0' & G1 & G2 & G3 & G4 & G5 & G6 & G7 & G8 & G9 & G10 & G11 & G12 & _).
  exists c', p', a', r', f, n', row0'. done.
Qed.

(** A bound on the slots of the tree, by evaluation. *)
Definition tree_values_in (P : Z → bool) (c : RadixCache) : bool :=
  forallb (λ kx, forallb P (default [] (tn_value kx.2))) (map_to_list (rc_nodes c)).

Lemma tree_values_in_ok P c s : tree_values_in P c = true → in_tree c s → P s = true.
Proof.
  intros Hall (us & vs & (n & us' & vs' & Hp & _ & ->) & Hs).
  assert (Hv : forallb P vs' = true).
  { clear Hs. induction Hp as [|n us' vs' x ck m y v Hp IH Hx Hm Hy Hv]; [done|].
    rewrite forallb_app, IH. unfold tree_values_in in Hall. rewrite forallb_forall in Hall.
    specialize (Hall (m, y)). simpl in Hall. rewrite Hv in Hall. apply Hall, list_elem_of_In. by apply elem_of_map_to_list. }
  rewrite forallb_forall in Hv. apply Hv, list_elem_of_In.
  rewrite <- (take_drop (length us) vs'). set_solver.
Qed.

Definition demo_row : list Z := [10; 11; 22; 23; 30; 31; 32; 0].

Definition demo_pool : ReqToTokenPool :=
  mkReqToTokenPool 2 8 [replicate 8 0; demo_row; replicate 8 0] [2].

(** A request with seven computed tokens, the first four of them shared with the tree. *)
Definition demo_running : Req :=
  mkReq [1; 2; 6; 7; 8] [9; 5] [1; 2; 6; 7; 8; 9; 5] None (Some 1) false 0 0 7 7 false false (Some 1)
    [10; 11; 22; 23] (Some 3%nat) 4.

Definition demo_args : ServerArgs := mkServerArgs 2 None false.

Lemma demo_owns : owns demo3 demo_running [1; 2; 6; 7; 8; 9; 5] [10; 11; 22; 23; 30; 31; 32].
Proof.
  split; try (vm_compute; intuition congruence).
  - by exists 2.
  - eexists 3%nat, (([] ++ qunits (demo_key [1; 2])) ++ qunits (demo_key [6; 7])), (([] ++ [10; 11]) ++ [22; 23]).
    split; [|split; [vm_compute; by exists []|done]].
    destruct (lock_ok demo2 [] 3 _ _ (reachable_cache_ok _ _ _ _ _ _ demo2_reachable) demo2_path)
      as (d & c' & Hgo & _ & _ & Hp).
    assert (c' = demo3) as <-; [|apply Hp, demo2_path].
    assert (Hd : inc_lock_ref demo2 3 = Ok (-4, demo3)) by (vm_compute; reflexivity). congruence.
  - apply (bool_decide_unpack _). vm_compute. exact I.
  - intros s Hs Ht. apply (tree_values_in_ok (λ s, bool_decide (s < 30))) in Ht; [|vm_compute; reflexivity].
    apply bool_decide_eq_true in Ht. simpl in Hs. set_unfold. lia.
Qed.

Lemma demo_unlocks : unlocks demo3 3 [3%nat] [].
Proof. by right. Qed.

Lemma cache_finished_settles_witness :
  let a := TokenToKVPoolAllocator_init 40 false in
  ∃ c' a1 a' f1 f2,
    cache_finished_req demo_clock demo_args demo3 demo_pool a demo_running true
    = Ok (c', a', set_rq_kv_committed_freed true demo_running)
    ∧ kv_free a f1 = Ok a1 ∧ kv_free a1 f2 = Ok a'
    ∧ settled demo3 c' [10; 11; 22; 23; 30; 31; 32] (f1 ++ f2)
    ∧ reachable_cache demo_clock 2 false false "lru" (c', []).
Proof.
  apply (cache_finished_settles demo_clock 2 false false "lru" demo_args demo3 [3%nat] [] demo_pool _
    demo_running true 3 demo_row demo3_reachable); try reflexivity; [apply demo_owns|apply demo_unlocks].
Defined.

Lemma cache_unfinished_settles_witness :
  let a := TokenToKVPoolAllocator_init 40 false in
  let key := req_key demo3 demo_running [1; 2; 6; 7; 8; 9; 5] in
  ∃ c' p' a' r' f n' row0',
    cache_unfinished_req demo_clock demo3 demo_pool a demo_running false = Ok (c', p', a', r')
    ∧ kv_free a f = Ok a' ∧ settled demo3 c' [10; 11; 22; 23; 30; 31] f
    ∧ pool_row p' (Some 1) = Ok row0' ∧ owns c' r' [1; 2; 6; 7; 8; 9; 5] (row0'⟨:7⟩)
    ∧ drop 6 (row0'⟨:7⟩) = [32]
    ∧ rq_cache_protected_len r' = 6 ∧ rq_prefix_indices r' = row0'⟨:7⟩
    ∧ rq_last_node r' = Some n'
    ∧ path c' n' (qunits key) (take 6 (row0'⟨:7⟩))
    ∧ reachable_cache demo_clock 2 false false "lru" (c', lock demo3 n' [])
    ∧ (∀ j, 0 ≤ j → j ≠ 1 → pool_row p' (Some j) = pool_row demo_pool (Some j)).
Proof.
  refine (cache_unfinished_settles demo_clock 2 false false "lru" demo3 [3%nat] [] demo_pool
    (TokenToKVPoolAllocator_init 40 false) demo_running false 3 1 demo_row demo3_reachable
    _ _ _ demo_owns _ _ _ demo_unlocks); try reflexivity; try done.
  - apply (Forall_impl (λ s, 0 ≤ s < 100)); [|unfold slot32; lia].
    apply (bool_decide_unpack _). vm_compute. exact I.
  - intros s Hs. apply (tree_values_in_ok (λ s, bool_decide (0 ≤ s < 30))) in Hs; [|vm_compute; reflexivity].
    apply bool_decide_eq_true in Hs. unfold slot32. lia.
Defined.
