(* ===== verification/CacheAlloc.v ===== *)
(** * Allocating and releasing the KV cache of batches

    Models [src/python/sglang/srt/mem_cache/common.py]: eviction before an allocation, the
    allocation of slots and pool rows for extend and decode batches, the writes to the request
    pool (the Triton kernel and the loop used without Triton), the lookup of last locations (both
    kernels and the Torch version) and the release of a request.

    The allocators are those of [Allocator.v], the caches [RadixCache] and [ChunkCache]; the
    branches for sliding-window and Mamba pools are not modelled, so [isinstance] tests for them
    are false here.  The request table is row-major: the kernels address it as the flat list of
    its rows.  An exception ends a call; the state it leaves behind is not part of the result. *)

From S2P Require Import Prelude AllocKernels Allocator RadixKey RadixTree RadixInv RadixAcct RadixMatch.
From S2P Require Import RadixInsert RadixLock RadixEvict RadixProps RadixGrow.
From S2P Require Import ReqPool ReqCache.

(** ** Helpers *)

(** [kv_indices[::page_size] // page_size]. *)
Fixpoint every (n : nat) (fuel : nat) (l : list Z) : list Z :=
  match fuel, l with
  | S fuel', x :: _ => x :: every n fuel' (drop n l)
  | _, _ => []
  end.

Definition kv_to_page_indices (kv_indices : list Z) (page_size : Z) : list Z :=
  if bool_decide (page_size = 1) then kv_indices
  else map (λ i, i / page_size) (every (Z.to_nat page_size) (length kv_indices) kv_indices).

Definition kv_to_page_num (num_kv_indices page_size : Z) : Z :=
  (num_kv_indices + page_size - 1) / page_size.

Definition page_align_floor (length page_size : Z) : Z := length / page_size * page_size.

(** ** The KV pool and the prefix cache *)

Inductive KVPool :=
| TokenPool (a : Allocator)        (* TokenToKVPoolAllocator *)
| PagedPool (a : Allocator).       (* PagedTokenToKVPoolAllocator *)

Definition pool_available_size (k : KVPool) : Z :=
  match k with
  | TokenPool a => TokenToKVPoolAllocator_available_size a
  | PagedPool a => available_size a
  end.

Definition pool_page_size (k : KVPool) : Z :=
  match k with TokenPool a | PagedPool a => al_page_size a end.

#[export] Instance pool_kv : KVAllocator KVPool := λ k idx,
  match k with
  | TokenPool a => Ok (TokenPool (TokenToKVPoolAllocator_free a idx))
  | PagedPool a =>
      let '(r, a) := PagedTokenToKVPoolAllocator_free a idx in
      _ ← r; Ok (PagedPool a)
  end.

Definition pool_alloc (k : KVPool) (need_size : Z) : res (option (list Z) * KVPool) :=
  match k with
  | TokenPool a => let '(o, a) := TokenToKVPoolAllocator_alloc a need_size in Ok (o, TokenPool a)
  | PagedPool a =>
      let '(r, a) := PagedTokenToKVPoolAllocator_alloc a need_size in
      o ← r; Ok (o, PagedPool a)
  end.

Inductive PrefixCache :=
| Radix (c : RadixCache)
| Chunk (page_size : Z).

Definition cache_page_size (t : PrefixCache) : Z :=
  match t with Radix c => rc_page_size c | Chunk ps => ps end.

Section alloc.
Context (monotonic : nat → Z) `{Heapq}.

Definition evict_from_tree_cache (t : option PrefixCache) (k : KVPool) (num_tokens : Z)
    : res (option PrefixCache * KVPool) :=
  match t with
  | Some (Radix c) =>
      if bool_decide (pool_available_size k < num_tokens)
      then '(_, c, k) ← evict c k num_tokens; Ok (Some (Radix c), k)
      else Ok (t, k)
  | _ => Ok (t, k)
  end.

(** The state the callers of [backup_state=True] receive. *)
Definition pool_backup (k : KVPool) (backup : bool) : option (list Z * list Z) :=
  if backup then match k with TokenPool a | PagedPool a => Some (backup_state a) end else None.

Definition oom {A} (o : option A) : res A :=
  match o with Some out => Ok out | None => Raise RuntimeError end.

Definition alloc_token_slots (t : PrefixCache) (k : KVPool) (num_tokens : Z) (backup : bool)
    : res (list Z * option (list Z * list Z) * PrefixCache * KVPool) :=
  '(t', k) ← evict_from_tree_cache (Some t) k num_tokens;
  let state := pool_backup k backup in
  '(out, k) ← pool_alloc k num_tokens;
  out ← oom out;
  Ok (out, state, default t t', k).

(** Only the paged allocator has [alloc_extend] and [alloc_decode]; the base class raises
    NotImplementedError.  [uninit] is the content of the uninitialised output tensor. *)
Definition pool_alloc_extend (k : KVPool) (reqs : list extend_req) (extend_num_tokens : Z)
    (uninit : list Z) : res (option (list Z) * KVPool) :=
  match k with
  | TokenPool _ => Raise NotImplementedError
  | PagedPool a =>
      let '(r, a) := PagedTokenToKVPoolAllocator_alloc_extend a reqs extend_num_tokens uninit in
      o ← r; Ok (o, PagedPool a)
  end.

Definition pool_alloc_decode (k : KVPool) (rows : list (Z * Z)) (uninit : list Z)
    : res (option (list Z) * KVPool) :=
  match k with
  | TokenPool _ => Raise NotImplementedError
  | PagedPool a =>
      let '(r, a) := PagedTokenToKVPoolAllocator_alloc_decode a rows uninit in
      o ← r; Ok (o, PagedPool a)
  end.

Definition alloc_paged_token_slots_extend (t : PrefixCache) (k : KVPool) (reqs : list extend_req)
    (extend_num_tokens : Z) (backup : bool) (uninit : list Z)
    : res (list Z * option (list Z * list Z) * PrefixCache * KVPool) :=
  let num_tokens := extend_num_tokens + zlen reqs * pool_page_size k in
  '(t', k) ← evict_from_tree_cache (Some t) k num_tokens;
  let state := pool_backup k backup in
  '(out, k) ← pool_alloc_extend k reqs extend_num_tokens uninit;
  out ← oom out;
  Ok (out, state, default t t', k).

Definition alloc_paged_token_slots_decode (t : PrefixCache) (k : KVPool) (rows : list (Z * Z))
    (uninit : list Z) : res (list Z * PrefixCache * KVPool) :=
  let num_tokens := zlen rows * pool_page_size k in
  '(t', k) ← evict_from_tree_cache (Some t) k num_tokens;
  '(out, k) ← pool_alloc_decode k rows uninit;
  out ← oom out;
  Ok (out, default t t', k).

Definition alloc_req_slots (p : ReqToTokenPool) (reqs : list Req)
    : res (list Req * ReqToTokenPool) :=
  '(rs, p) ← ReqToTokenPool_alloc p reqs;
  rs ← oom rs;
  Ok (rs, p).

(** ** Writing the request table *)

(** A row of the arguments of [write_cache_indices]. *)
Record write_req := mkWrite {
  wr_idx : Z;              (* req_pool_indices[i] *)
  wr_prefix : list Z;      (* prefix_tensors[i] *)
  wr_prefix_len : Z;
  wr_seq_len : Z;
  wr_extend_len : Z
}.

Definition WRITE_BLOCK_SIZE : Z := 512.

(** The masked block loop of the kernel: [n] cells from address [base], cell [o] gets [f o]. *)
Definition store_blocks (block base n : Z) (f : Z → Z) (mem : list Z) : list Z :=
  foldl (λ mem i, tl_store mem
    (map (λ o, (base + (i * block + o), int32 (f (i * block + o)),
                bool_decide (i * block + o < n))) (seqZ 0 block)))
    mem (seqZ 0 (ceil_div n block)).

(** One program instance of [write_req_to_token_pool_triton], on the flat table. *)
Definition write_req_to_token_pool_triton (rows : list write_req) (out_cache_loc : list Z)
    (stride : Z) (pid : Z) (mem : list Z) : list Z :=
  let req_pool_index := tl_load (map wr_idx rows) pid in
  let pre_len := tl_load (map wr_prefix_len rows) pid in
  let seq_len := tl_load (map wr_seq_len rows) pid in
  let prefix_tensor := default [] (map wr_prefix rows !! Z.to_nat pid) in
  let mem := store_blocks WRITE_BLOCK_SIZE (req_pool_index * stride) pre_len
               (tl_load prefix_tensor) mem in
  let cumsum_start := sumZ (map (tl_load (map wr_extend_len rows)) (seqZ 0 pid)) in
  store_blocks WRITE_BLOCK_SIZE (req_pool_index * stride + pre_len) (seq_len - pre_len)
    (λ o, tl_load out_cache_loc (cumsum_start + o)) mem.

(** The rows of a flat table. *)
Fixpoint unflatten (stride count : nat) (mem : list Z) : list (list Z) :=
  match count with
  | O => []
  | S n => take stride mem :: unflatten stride n (drop stride mem)
  end.

Definition write_launch (rows : list write_req) (out_cache_loc : list Z) (stride : Z)
    (mem : list Z) : list Z :=
  foldl (λ mem pid, write_req_to_token_pool_triton rows out_cache_loc stride pid mem)
    mem (seqZ 0 (zlen rows)).

(** The loop used when the backend does not support Triton. *)
Fixpoint write_loop (rows : list write_req) (out_cache_loc : list Z) (pt : Z)
    (p : ReqToTokenPool) : res ReqToTokenPool :=
  match rows with
  | [] => Ok p
  | w :: rows' =>
      p ← ReqToTokenPool_write p (Some (wr_idx w)) 0 (wr_prefix_len w) (wr_prefix w);
      p ← ReqToTokenPool_write p (Some (wr_idx w)) (wr_prefix_len w) (wr_seq_len w)
            (py_slice out_cache_loc pt (pt + wr_extend_len w));
      write_loop rows' out_cache_loc (pt + wr_extend_len w) p
  end.

Definition support_triton (backend : string) : bool :=
  negb (bool_decide (backend ∈ ["torch_native"; "intel_amx"])).

Definition write_cache_indices (attention_backend : string) (out_cache_loc : list Z)
    (rows : list write_req) (p : ReqToTokenPool) : res ReqToTokenPool :=
  if support_triton attention_backend then
    let mem := write_launch rows out_cache_loc (rp_max_context_len p) (concat (rp_req_to_token p)) in
    Ok (set_rp_req_to_token
          (unflatten (Z.to_nat (rp_max_context_len p)) (length (rp_req_to_token p)) mem) p)
  else write_loop rows out_cache_loc 0 p.

(** ** Last locations *)

(** [t[i]] of a 1-D tensor; a negative index counts from the end. *)
Definition torch_index (t : list Z) (i : Z) : res Z :=
  let j := if bool_decide (i < 0) then i + zlen t else i in
  match py_get t j with Some v => Ok v | None => Raise IndexError end.

(** A query is (req_pool_index, prefix_len). *)
Definition get_last_loc_torch (table : list (list Z)) (queries : list (Z * Z)) : res (list Z) :=
  res_map (λ q,
    row ← match py_get table q.1 with Some row => Ok row | None => Raise IndexError end;
    v ← torch_index row (q.2 - 1);
    Ok (if bool_decide (0 < q.2) then v else -1)) queries.

Definition LAST_LOC_BLOCK : Z := 256.

(** One program instance of [get_last_loc_kernel]; the lanes beyond the queries read length 0. *)
Definition get_last_loc_kernel (mem : list Z) (queries : list (Z * Z)) (stride : Z) (pid : Z)
    (result : list Z) : list Z :=
  tl_store result (map (λ o,
    let offset := o + pid * LAST_LOC_BLOCK in
    let mask := bool_decide (offset < zlen queries) in
    let prefix_len := if mask then tl_load (map snd queries) offset else 0 in
    let req_pool_index := if mask then tl_load (map fst queries) offset else 0 in
    let token_mask := bool_decide (0 < prefix_len) in
    let token_index := req_pool_index * stride + (prefix_len - 1) in
    let tokens := if token_mask then tl_load mem token_index else -1 in
    (offset, tokens, mask)) (seqZ 0 LAST_LOC_BLOCK)).

(** [_get_last_loc_safe_kernel]: 32-bit results, and the load also masked by the lane mask. *)
Definition get_last_loc_safe_kernel (mem : list Z) (queries : list (Z * Z)) (stride : Z) (pid : Z)
    (result : list Z) : list Z :=
  tl_store result (map (λ o,
    let offset := o + pid * LAST_LOC_BLOCK in
    let mask := bool_decide (offset < zlen queries) in
    let prefix_len := if mask then tl_load (map snd queries) offset else 0 in
    let req_pool_index := if mask then tl_load (map fst queries) offset else 0 in
    let token_index := req_pool_index * stride + (prefix_len - 1) in
    let token_mask := mask && bool_decide (0 < prefix_len) in
    let tokens := if token_mask then tl_load mem token_index else -1 in
    (offset, int32 tokens, mask)) (seqZ 0 LAST_LOC_BLOCK)).

(** The launches; [uninit] is the content of [torch.empty]. *)
Definition get_last_loc_triton (mem : list Z) (queries : list (Z * Z)) (stride : Z)
    (uninit : list Z) : list Z :=
  foldl (λ r pid, get_last_loc_kernel mem queries stride pid r) uninit
    (seqZ 0 (ceil_div (zlen queries) LAST_LOC_BLOCK)).

Definition get_last_loc_triton_safe (mem : list Z) (queries : list (Z * Z)) (stride : Z)
    (uninit : list Z) : list Z :=
  foldl (λ r pid, get_last_loc_safe_kernel mem queries stride pid r) uninit
    (seqZ 0 (ceil_div (zlen queries) LAST_LOC_BLOCK)).

Definition get_last_loc (is_hip : bool) (attn_backend : string) (p : ReqToTokenPool)
    (queries : list (Z * Z)) (uninit : list Z) : res (list Z) :=
  let uses_triton_dispatch := negb (bool_decide (attn_backend ∈ ["ascend"; "torch_native"])) in
  let mem := concat (rp_req_to_token p) in
  if is_hip && uses_triton_dispatch
  then Ok (get_last_loc_triton_safe mem queries (rp_max_context_len p) uninit)
  else if uses_triton_dispatch
  then Ok (get_last_loc_triton mem queries (rp_max_context_len p) uninit)
  else get_last_loc_torch (rp_req_to_token p) queries.

(** ** Batches *)

Record ScheduleBatch := mkScheduleBatch {
  ba_reqs : list Req;
  ba_prefix_lens : list Z;
  ba_extend_lens : list Z;
  ba_extend_num_tokens : Z;
  ba_seq_lens : list Z;                 (* also [seq_lens_cpu] *)
  ba_req_pool_indices : list Z;         (* of a decode batch *)
  ba_encoder_lens : option (list Z)     (* of an encoder-decoder model *)
}.

Definition row_index (r : Req) : Z := default 0 (rq_req_pool_idx r).

Definition last_of (t : list Z) : Z := default (-1) (last t).

Fixpoint zip_write (reqs : list Req) (prefix_lens seq_lens extend_lens : list Z) : list write_req :=
  match reqs, prefix_lens, seq_lens, extend_lens with
  | r :: rs, p :: ps, s :: ss, e :: es =>
      mkWrite (row_index r) (rq_prefix_indices r) p s e :: zip_write rs ps ss es
  | _, _, _, _ => []
  end.

(** [alloc_for_extend]: the slots of the new tokens, the requests with their rows, and the state. *)
Definition alloc_for_extend (attention_backend : string) (b : ScheduleBatch) (t : PrefixCache)
    (k : KVPool) (p : ReqToTokenPool) (uninit : list Z)
    : res (list Z * list Req * PrefixCache * KVPool * ReqToTokenPool) :=
  '(rs, p) ← alloc_req_slots p (ba_reqs b);
  '(out_cache_loc, t, k) ←
    (if bool_decide (cache_page_size t = 1) then
       '(out, _, t, k) ← alloc_token_slots t k (ba_extend_num_tokens b) false;
       Ok (out, t, k)
     else
       let last_loc := map (λ r, last_of (rq_prefix_indices r)) (ba_reqs b) in
       let rows := zip_with (λ ps l, mkExtend ps.1 ps.2 l)
                     (zip (ba_prefix_lens b) (ba_seq_lens b)) last_loc in
       '(out, _, t, k) ← alloc_paged_token_slots_extend t k rows (ba_extend_num_tokens b) false uninit;
       Ok (out, t, k));
  p ← write_cache_indices attention_backend out_cache_loc
        (zip_write rs (ba_prefix_lens b) (ba_seq_lens b) (ba_extend_lens b)) p;
  Ok (out_cache_loc, rs, t, k, p).

(** [req_to_token[(rows, cols)] = values]: cell by cell. *)
Fixpoint write_cells (cells : list (Z * Z)) (values : list Z) (table : list (list Z))
    : res (list (list Z)) :=
  match cells, values with
  | [], [] => Ok table
  | (i, j) :: cells', v :: values' =>
      match py_get table i with
      | Some row =>
          if bool_decide (0 ≤ j < zlen row)
          then write_cells cells' values' (<[Z.to_nat i := <[Z.to_nat j := int32 v]> row]> table)
          else Raise IndexError
      | None => Raise IndexError
      end
  | _, _ => Raise RuntimeError
  end.

(** [alloc_for_decode]. *)
Definition alloc_for_decode (b : ScheduleBatch) (token_per_req : Z) (t : PrefixCache) (k : KVPool)
    (p : ReqToTokenPool) (uninit : list Z)
    : res (list Z * PrefixCache * KVPool * ReqToTokenPool) :=
  let bs := zlen (ba_seq_lens b) in
  '(out_cache_loc, t, k) ←
    (if bool_decide (cache_page_size t = 1) then
       '(out, _, t, k) ← alloc_token_slots t k (bs * token_per_req) false;
       Ok (out, t, k)
     else
       last_loc ← res_map (λ q,
         row ← pool_row p (Some q.1);
         torch_index row (q.2 - 1)) (zip (ba_req_pool_indices b) (ba_seq_lens b));
       let seq_lens_next := map (λ s, s + token_per_req) (ba_seq_lens b) in
       alloc_paged_token_slots_decode t k (zip seq_lens_next last_loc) uninit);
  let locs := match ba_encoder_lens b with
              | Some e => zip_with Z.add e (ba_seq_lens b)
              | None => ba_seq_lens b
              end in
  table ← write_cells (zip (ba_req_pool_indices b) locs) out_cache_loc (rp_req_to_token p);
  Ok (out_cache_loc, t, k, set_rp_req_to_token table p).

(** ** Release *)

(** [release_kv_cache]; neither cache manages Mamba states. *)
Definition release_kv_cache (sa : ServerArgs) (t : PrefixCache) (k : KVPool) (p : ReqToTokenPool)
    (r : Req) (is_insert : bool) : res (PrefixCache * KVPool * ReqToTokenPool * Req) :=
  if bool_decide (rq_req_pool_idx r = None) then Raise AssertionError
  else
    '(t, k, r) ←
      match t with
      | Radix c =>
          '(c, k, r) ← cache_finished_req monotonic sa c p k r
                         (is_insert && negb (rq_skip_radix_cache_insert r));
          Ok (Radix c, k, r)
      | Chunk ps => '(k, r) ← ChunkCache_cache_finished_req sa p k r; Ok (t, k, r)
      end;
    '(start_p, end_p, r) ← pop_overallocated_kv_cache sa r;
    _ ← (if bool_decide (sa_speculative_algorithm sa = None) && negb (sa_strip_thinking_cache sa)
         then py_assert (bool_decide (start_p = end_p)) else Ok ());
    let start_p := if bool_decide (1 < sa_page_size sa) then ceil_align start_p (sa_page_size sa)
                   else start_p in
    k ← (if bool_decide (start_p < end_p)
         then row ← pool_row p (rq_req_pool_idx r);
              kv_free k (py_slice row start_p end_p)
         else Ok k);
    '(p, r) ← ReqToTokenPool_free p r;
    Ok (t, k, p, r).

(** [maybe_cache_unfinished_req]. *)
Definition maybe_cache_unfinished_req (t : PrefixCache) (k : KVPool) (p : ReqToTokenPool) (r : Req)
    (chunked : bool) : res (PrefixCache * KVPool * ReqToTokenPool * Req) :=
  if rq_skip_radix_cache_insert r then Ok (t, k, p, r)
  else
    match t with
    | Radix c =>
        '(c, p, k, r) ← cache_unfinished_req monotonic c p k r chunked;
        Ok (Radix c, k, p, r)
    | Chunk ps => r ← ChunkCache_cache_unfinished_req p r; Ok (t, k, p, r)
    end.

End alloc.

(** ** Allocators inside larger ones *)

(** [f] embeds an allocator: freeing commutes with it. *)
Class KVEmbed {A B : Type} `{KVAllocator A} `{KVAllocator B} (f : A → B) := {
  kv_embed a v : kv_free (f a) v = (a' ← kv_free a v; Ok (f a'))
}.

#[export] Instance token_pool_embed : KVEmbed TokenPool.
Proof. by split. Qed.

Section embed.
Context {A B : Type} {KA : KVAllocator A} {KB : KVAllocator B} (f : A → B) {E : KVEmbed f} {HQ : Heapq}.

Definition lift2 {X} (r : res (X * A)) : res (X * B) := '(x, a) ← r; Ok (x, f a).

Lemma evict_loop_embed fuel c a heap num k :
  evict_loop fuel c (f a) heap num k = lift2 (evict_loop fuel c a heap num k).
Proof.
  revert c a heap k. induction fuel as [|fuel IH]; intros c a heap k; [done|]. simpl.
  destruct (if bool_decide (k < num) then heappop heap else None) as [[[pr [tm n]] heap']|]; [|done].
  destruct (get_node c n) as [x|]; simpl; [|done]. destruct (get_value x) as [v|]; simpl; [|done].
  rewrite kv_embed. destruct (kv_free a v) as [a'|]; simpl; [|done].
  destruct (delete_leaf c n) as [c1|]; simpl; [|done].
  destruct (get_ref (tn_parent x)) as [pn|]; simpl; [|done].
  destruct (get_node c1 pn) as [px|]; simpl; [|done].
  destruct (bool_decide (tn_children px = ∅) && bool_decide (tn_lock_ref px = 0));
    [destruct (evict_entry c1 pn) as [e|]; simpl; [|done]|];
    (destruct (record_remove_event c1 n GPU) as [c2|]; simpl; [apply IH|done]).
Qed.

Lemma evict_embed c a num : evict c (f a) num = lift2 (evict c a num).
Proof.
  unfold evict. destruct (rc_disable c); [done|].
  destruct (res_map _ _); cbn [mbind res_bind]; [|done]. apply evict_loop_embed.
Qed.

Lemma cache_finished_req_embed monotonic sa c p a r b :
  cache_finished_req monotonic sa c p (f a) r b
  = ('(c, a, r) ← cache_finished_req monotonic sa c p a r b; Ok (c, f a, r)).
Proof.
  unfold cache_finished_req.
  destruct (pop_committed_kv_cache sa r) as [[n r']|]; simpl; [|done].
  destruct (pool_row p (rq_req_pool_idx r')) as [row|]; simpl; [|done].
  destruct (rc_disable c).
  { rewrite kv_embed. by destruct (kv_free a _). }
  destruct (if rc_disable_finished_insert c then false else b).
  - destruct (insert _ _ _ _ _ _) as [[pl c1]|]; simpl; [|done].
    rewrite kv_embed. destruct (kv_free a _) as [a1|]; simpl; [|done].
    rewrite kv_embed. destruct (kv_free a1 _) as [a2|]; simpl; [|done].
    destruct (rq_last_node r'); [|done]. by destruct (dec_lock_ref c1 n0) as [[]|].
  - rewrite kv_embed. destruct (kv_free a _) as [a1|]; simpl; [|done].
    rewrite kv_embed. destruct (kv_free a1 _) as [a2|]; simpl; [|done].
    destruct (rq_last_node r'); [|done]. by destruct (dec_lock_ref c n0) as [[]|].
Qed.

Lemma cache_unfinished_req_embed monotonic c p a r b :
  cache_unfinished_req monotonic c p (f a) r b
  = ('(c, p, a, r) ← cache_unfinished_req monotonic c p a r b; Ok (c, p, f a, r)).
Proof.
  unfold cache_unfinished_req. destruct (rc_disable c); [done|].
  destruct (pool_row p (rq_req_pool_idx r)) as [row|]; simpl; [|done].
  destruct (insert _ _ _ _ _ _) as [[pl c1]|]; simpl; [|done].
  rewrite kv_embed. destruct (kv_free a _) as [a1|]; simpl; [|done].
  destruct (match_prefix _ _ _) as [[[vs m] c2]|]; simpl; [|done].
  destruct (py_assert _); simpl; [|done].
  destruct (ReqToTokenPool_write _ _ _ _ _) as [p1|]; simpl; [|done].
  destruct (get_ref _) as [n|]; simpl; [|done].
  destruct (dec_lock_ref _ _) as [[d c3]|]; simpl; [|done].
  destruct (inc_lock_ref _ _) as [[d' c4]|]; simpl; [|done].
  by destruct (pool_row p1 _).
Qed.

End embed.

(** ** Token slots *)

Lemma token_free_available a idx :
  is_not_in_free_group a = true →
  TokenToKVPoolAllocator_available_size (TokenToKVPoolAllocator_free a idx)
  = TokenToKVPoolAllocator_available_size a + zlen idx
  ∧ is_not_in_free_group (TokenToKVPoolAllocator_free a idx) = true.
Proof.
  intros Hg. unfold TokenToKVPoolAllocator_free, TokenToKVPoolAllocator_available_size.
  case_bool_decide as H0; [split; [lia|done]|]. rewrite Hg. destruct (al_need_sort a); simpl; rewrite zlen_app; split; lia || done.
Qed.

Lemma token_free_page_size a idx : al_page_size (TokenToKVPoolAllocator_free a idx) = al_page_size a.
Proof.
  unfold TokenToKVPoolAllocator_free. case_bool_decide; [done|]. by destruct (is_not_in_free_group a), (al_need_sort a).
Qed.

Lemma token_free_all size a freed rest a' :
  is_not_in_free_group a = true → token_inv size (a, concat freed ++ rest) →
  free_all a freed = Ok a' →
  token_inv size (a', rest) ∧ is_not_in_free_group a' = true
  ∧ TokenToKVPoolAllocator_available_size a' = TokenToKVPoolAllocator_available_size a + zlen (concat freed)
  ∧ al_page_size a' = al_page_size a.
Proof.
  revert a. induction freed as [|v freed IH]; intros a Hg Hi Hf; simpl in *.
  { inversion Hf; subst. split_and!; [done|done| |done]. change (zlen []) with 0. lia. }
  destruct (token_free_available a v Hg) as [Hav Hg'].
  destruct (IH (TokenToKVPoolAllocator_free a v)) as (Hi' & Hg'' & Hav' & Hpg); [done| |done|].
  { eapply token_free_inv; [|exact Hi]. by rewrite <- app_assoc. }
  split_and!; [done|done|rewrite zlen_app; lia|]. rewrite Hpg. apply token_free_page_size.
Qed.

Lemma token_inv_perm size a l k : l ≡ₚ k → token_inv size (a, l) → token_inv size (a, k).
Proof. intros Hp [H1 H2 H3]. split; simpl in *; [done|by rewrite <- Hp|done]. Qed.

Section token_slots.
Context {monotonic : nat → Z} {ps : Z} {eagle dfi : bool} {policy : string}.
Let reachable := reachable_cache monotonic ps eagle dfi policy.

Lemma live_set_unique c L L' : live_set c L → live_set c L' → L = L'.
Proof. intros H1 H2. apply set_eq. intros n. by rewrite (H1 n), (H2 n). Qed.

(** Eviction for an allocation of [n] tokens: afterwards they are available, unless everything that
    can be evicted was. *)
Lemma evict_for_alloc c held L size a others n :
  reachable (c, held) → live_set c L → is_not_in_free_group a = true →
  token_inv size (a, tree_slots c L ++ others) →
  ∃ c' a' L', evict_from_tree_cache (Some (Radix c)) (TokenPool a) n = Ok (Some (Radix c'), TokenPool a')
    ∧ reachable (c', held) ∧ live_set c' L' ∧ L' ⊆ L ∧ list_to_set held ⊆ L'
    ∧ is_not_in_free_group a' = true ∧ token_inv size (a', tree_slots c' L' ++ others)
    ∧ TokenToKVPoolAllocator_available_size a' + rc_evictable_size c'
      = TokenToKVPoolAllocator_available_size a + rc_evictable_size c
    ∧ (n ≤ TokenToKVPoolAllocator_available_size a' ∨ rc_evictable_size c' = 0)
    ∧ 0 ≤ rc_evictable_size c' ∧ al_page_size a' = al_page_size a ∧ config c' = config c
    ∧ ∀ m us vs, m ∈ L' → path c m us vs → path c' m us vs.
Proof.
  intros Hr HL Hg Hi. pose proof (reachable_cache_ok _ _ _ _ _ _ Hr) as ((g & Hinv) & Hdis & Hev).
  simpl in *. assert (L = gL g) as -> by (eapply live_set_unique; [exact HL|by eapply inv_live]).
  assert (Hnn : ∀ (c : RadixCache) (g : ghost), inv c g held → 0 ≤ rc_evictable_size c).
  { intros c1 g1 Hi1. rewrite (ac_evictable (iv_acct Hi1)). unfold sum_over. apply sumZ_nonneg.
    apply Forall_fmap, Forall_forall. intros m _. unfold unlocked_len, node_len. simpl.
    case_bool_decide; [|done]. destruct (rc_nodes c1 !! m); [apply RadixKey_len_nonneg|done]. }
  unfold evict_from_tree_cache. simpl. case_bool_decide as Hlt; cycle 1.
  { exists c, a, (gL g). split_and!; try done; [|left; lia|by eapply Hnn].
    intros h Hh. apply elem_of_list_to_set in Hh. by apply (lk_held (iv_locks Hinv)). }
  destruct (evict_ok c g held a n Hinv Hev Hdis) as (ns & c' & a' & g' & Hgo & [R1 R2 R3 R4 R5]).
  destruct R3 as [E1 E2 E3 E4 E5 E6 E7 E8].
  rewrite (evict_embed TokenPool), Hgo. simpl. exists c', a', (gL g').
  destruct (token_free_all size a (map (node_value c) ns) (tree_slots c' (gL g') ++ others) a')
    as (Hi' & Hg' & Hav' & Hpg'); [done| |done|].
  { eapply token_inv_perm; [|exact Hi]. by rewrite E8, <- app_assoc. }
  split_and!; try done; try lia.
  - eapply reach_step; [exact Hr|]. by eapply (cache_step_evict _ c held a a').
  - by eapply inv_live.
  - intros h Hh. apply elem_of_list_to_set in Hh. by apply (lk_held (iv_locks E1)).
  - destruct R4 as [R4|R4]; [left|by right]. pose proof (zlen_nonneg (free_pages a)).
    pose proof (zlen_nonneg (release_pages a)). unfold TokenToKVPoolAllocator_available_size in *. lia.
  - by eapply Hnn.
  - intros m us vs Hm Hp. apply (path_live _ _ _ _ _ _ _ (iv_tree Hinv)) in Hp as (_ & -> & ->).
    apply (path_live _ _ _ _ _ _ _ (iv_tree E1)). by rewrite E4, E5.
Qed.

End token_slots.

(** ** The table writes *)

Record write_ok (stride count : Z) (w : write_req) : Prop := {
  wo_idx : 0 ≤ wr_idx w < count;
  wo_prefix : zlen (wr_prefix w) = wr_prefix_len w;
  wo_seq : wr_prefix_len w ≤ wr_seq_len w ≤ stride;
  wo_extend : wr_extend_len w = wr_seq_len w - wr_prefix_len w
}.

(** Reference: the row of a request holds its prefix and then its part of the new slots. *)
Definition written_row (w : write_req) (new row : list Z) : list Z :=
  map int32 (wr_prefix w) ++ map int32 new ++ drop (Z.to_nat (wr_seq_len w)) row.

Fixpoint written_table (rows : list write_req) (out : list Z) (table : list (list Z)) : list (list Z) :=
  match rows with
  | [] => table
  | w :: rows' =>
      let n := Z.to_nat (wr_extend_len w) in
      written_table rows' (drop n out)
        (alter (written_row w (take n out)) (Z.to_nat (wr_idx w)) table)
  end.

Section table.
Context (stride : Z).

Definition table_ok (table : list (list Z)) : Prop := Forall (λ row, zlen row = stride) table.

Lemma written_row_len count w new row :
  write_ok stride count w → zlen new = wr_extend_len w → zlen row = stride →
  zlen (written_row w new row) = stride.
Proof.
  intros [Hi Hp Hs He] Hn Hr. unfold written_row. rewrite !zlen_app, !zlen_map, zlen_drop.
  pose proof (zlen_nonneg (wr_prefix w)). lia.
Qed.

Lemma alter_split {X} (f : X → X) (R1 R2 : list X) x : alter f (length R1) (R1 ++ x :: R2) = R1 ++ f x :: R2.
Proof. induction R1 as [|y R1 IH]; [done|]. simpl. f_equal. apply IH. Qed.

Lemma split_at {X} (l : list X) i :
  0 ≤ i < zlen l → ∃ l1 x l2, l = l1 ++ x :: l2 ∧ zlen l1 = i.
Proof.
  intros Hi. destruct (lookup_lt_is_Some_2 l (Z.to_nat i)) as [x Hx]; [unfold zlen in Hi; lia|].
  exists (take (Z.to_nat i) l), x, (drop (S (Z.to_nat i)) l).
  split; [by rewrite take_drop_middle|]. rewrite zlen_take. lia.
Qed.

Lemma zlen_concat table : table_ok table → zlen (concat table) = zlen table * stride.
Proof. induction 1 as [|row t Hr Ht IH]; [done|]. simpl. rewrite zlen_app, IH, Hr, zlen_cons. lia. Qed.

(** A masked block loop over a range of the memory writes exactly the range. *)
Lemma store_blocks_range block base n f A B C :
  0 < block → zlen A = base → zlen B = n →
  store_blocks block base n f (A ++ B ++ C) = A ++ map (λ o, int32 (f o)) (seqZ 0 n) ++ C.
Proof.
  intros Hb HA HB. unfold store_blocks. pose proof (zlen_nonneg B).
  pose proof (ceil_div_bounds block Hb n) as Hc.
  assert (0 ≤ ceil_div n block) by (unfold ceil_div; apply Z.div_pos; lia).
  rewrite <- (Z2Nat.id (ceil_div n block)) by done.
  rewrite (block_loop block (λ o, int32 (f o)) base n (Z.to_nat (ceil_div n block)) 0 A B C); lia || (try by rewrite HB).
Qed.

Lemma map_tl_load (l k : list Z) : map (tl_load (l ++ k)) (seqZ 0 (zlen l)) = l.
Proof.
  rewrite (map_seqZ_ext _ (tl_load l)) by (intros j Hj; apply tl_load_app_l; lia).
  apply list_eq. intros i. rewrite list_lookup_fmap.
  destruct (decide (i < length l)%nat) as [Hi|Hi].
  - rewrite lookup_seqZ_lt by (unfold zlen; lia). simpl. unfold tl_load. rewrite bool_decide_true by lia.
    replace (Z.to_nat (0 + Z.of_nat i)) with i by lia.
    destruct (lookup_lt_is_Some_2 l i Hi) as [x Hx]. by rewrite Hx.
  - rewrite lookup_seqZ_ge by (unfold zlen; lia). rewrite lookup_ge_None_2 by lia. done.
Qed.

Lemma map_seqZ_take (g : Z → Z) (l : list Z) n s :
  0 ≤ n → s + n ≤ zlen l → 0 ≤ s →
  map (λ o, g (tl_load l (s + o))) (seqZ 0 n) = map g (take (Z.to_nat n) (drop (Z.to_nat s) l)).
Proof.
  intros Hn Hs Hs0. set (l1 := take (Z.to_nat s) l).
  set (l2 := take (Z.to_nat n) (drop (Z.to_nat s) l)). set (l3 := drop (Z.to_nat n) (drop (Z.to_nat s) l)).
  assert (H1 : zlen l1 = s) by (unfold l1; rewrite zlen_take; lia).
  assert (H2 : zlen l2 = n) by (unfold l2; rewrite zlen_take, zlen_drop; lia).
  assert (Hl : l = l1 ++ l2 ++ l3) by (unfold l1, l2, l3; by rewrite !take_drop).
  rewrite (map_seqZ_ext _ (λ o, g (tl_load (l2 ++ l3) o))).
  - rewrite <- H2, <- (map_map (tl_load _) g), map_tl_load. done.
  - intros j Hj. rewrite Hl at 1. by rewrite <- H1, tl_load_app_r by lia.
Qed.

(** One program instance rewrites the row of its request. *)
Lemma write_program_spec all R1 w R2 out T1 row T2 :
  all = R1 ++ w :: R2 → table_ok (T1 ++ row :: T2) → zlen T1 = wr_idx w →
  write_ok stride (zlen (T1 ++ row :: T2)) w →
  Forall (λ w, 0 ≤ wr_extend_len w) R1 →
  sumZ (map wr_extend_len R1) + wr_extend_len w ≤ zlen out →
  write_req_to_token_pool_triton all out stride (zlen R1) (concat (T1 ++ row :: T2))
  = concat (T1 ++ written_row w (take (Z.to_nat (wr_extend_len w))
                                   (drop (Z.to_nat (sumZ (map wr_extend_len R1))) out)) row :: T2).
Proof.
  intros -> Ht Hidx [Hi Hp Hs He] Hpos Hout.
  assert (Hget : ∀ g, tl_load (map g (R1 ++ w :: R2)) (zlen R1) = g w).
  { intros g. apply tl_load_map; [apply zlen_nonneg|]. unfold zlen. rewrite Nat2Z.id, lookup_app_r, Nat.sub_diag by lia. done. }
  unfold write_req_to_token_pool_triton. rewrite !Hget.
  assert (Hpt : default [] (map wr_prefix (R1 ++ w :: R2) !! Z.to_nat (zlen R1)) = wr_prefix w).
  { unfold zlen. rewrite Nat2Z.id, list_lookup_fmap, lookup_app_r, Nat.sub_diag by lia. done. }
  rewrite Hpt, map_app.
  assert (Hcum : map (tl_load (map wr_extend_len R1 ++ map wr_extend_len (w :: R2))) (seqZ 0 (zlen R1))
                 = map wr_extend_len R1).
  { rewrite <- (zlen_map wr_extend_len R1). apply map_tl_load. }
  rewrite Hcum.
  assert (Hs0 : 0 ≤ sumZ (map wr_extend_len R1)).
  { apply sumZ_nonneg, Forall_fmap. eapply Forall_impl; [exact Hpos|done]. }
  apply Forall_app in Ht as [Ht1 [Hrow Ht2]%Forall_cons].
  rewrite !concat_app. cbn [concat]. pose proof (zlen_nonneg (wr_prefix w)).
  rewrite <- (take_drop (Z.to_nat (wr_prefix_len w)) row) at 1. rewrite <- app_assoc.
  rewrite store_blocks_range; [|done|rewrite zlen_concat, Hidx by done; done|rewrite zlen_take; lia].
  rewrite (map_seqZ_ext _ (λ o, int32 (tl_load (wr_prefix w) (0 + o)))) by done.
  rewrite map_seqZ_take, drop_0, take_ge by (unfold zlen in *; lia).
  rewrite <- (take_drop (Z.to_nat (wr_seq_len w - wr_prefix_len w)) (drop _ row)) at 1.
  rewrite <- app_assoc, (app_assoc (concat T1)).
  rewrite store_blocks_range; [|done| |rewrite zlen_take, zlen_drop; lia]; cycle 1.
  { rewrite zlen_app, zlen_map, zlen_concat, Hidx by done. lia. }
  rewrite (map_seqZ_take int32) by lia. unfold written_row. rewrite drop_drop, He, <- !app_assoc.
  do 4 f_equal. f_equal. lia.
Qed.

Lemma written_table_len rows out table : length (written_table rows out table) = length table.
Proof.
  revert out table. induction rows as [|w rows IH]; intros out table; [done|]. simpl. rewrite IH. apply length_alter.
Qed.

(** A request of the batch, its row, and the table after its writes. *)
Lemma write_step table w new :
  table_ok table → write_ok stride (zlen table) w → zlen new = wr_extend_len w →
  ∃ T1 row T2, table = T1 ++ row :: T2 ∧ zlen T1 = wr_idx w ∧ zlen row = stride
    ∧ alter (written_row w new) (Z.to_nat (wr_idx w)) table = T1 ++ written_row w new row :: T2
    ∧ table_ok (T1 ++ written_row w new row :: T2).
Proof.
  intros Ht Hw Hn. destruct (split_at table (wr_idx w)) as (T1 & row & T2 & -> & HT); [apply Hw|].
  pose proof Ht as Ht'. apply Forall_app in Ht' as [Ht1 [Hrow Ht2]%Forall_cons].
  exists T1, row, T2. split_and!; try done.
  - rewrite <- HT. unfold zlen. rewrite Nat2Z.id. apply alter_split.
  - apply Forall_app. split; [done|]. apply Forall_cons. split; [|done]. by eapply written_row_len.
Qed.

Lemma write_launch_spec all R1 rows out table :
  all = R1 ++ rows → table_ok table → Forall (write_ok stride (zlen table)) all →
  sumZ (map wr_extend_len all) ≤ zlen out →
  foldl (λ mem pid, write_req_to_token_pool_triton all out stride pid mem) (concat table)
    (seqZ (zlen R1) (zlen rows))
  = concat (written_table rows (drop (Z.to_nat (sumZ (map wr_extend_len R1))) out) table).
Proof.
  revert R1 table. induction rows as [|w rows IH]; intros R1 table Hall Ht Hok Hsum; [done|].
  assert (Hpos : ∀ l, Forall (write_ok stride (zlen table)) l → Forall (λ w, 0 ≤ wr_extend_len w) l).
  { intros l Hl. eapply Forall_impl; [exact Hl|]. intros v [? ? ? ?]. lia. }
  assert (Hok' := Hok). rewrite Hall in Hok'. apply Forall_app in Hok' as [Hok1 [Hw Hok2]%Forall_cons].
  assert (Hnn : ∀ l, Forall (write_ok stride (zlen table)) l → 0 ≤ sumZ (map wr_extend_len l)).
  { intros l Hl. apply sumZ_nonneg, Forall_fmap. eapply Forall_impl; [by apply Hpos|done]. }
  pose proof (Hnn _ Hok1). pose proof (Hnn _ Hok2). pose proof (Hpos _ (Forall_cons_2 _ _ _ Hw Hok2)) as Hw0.
  apply Forall_cons in Hw0 as [Hw0 _].
  assert (Hs : sumZ (map wr_extend_len R1) + wr_extend_len w + sumZ (map wr_extend_len rows) ≤ zlen out).
  { rewrite Hall, map_app, sumZ_app in Hsum. simpl in Hsum. lia. }
  rewrite zlen_cons, seqZ_cons by (pose proof (zlen_nonneg rows); lia). cbn [foldl written_table].
  set (new := take (Z.to_nat (wr_extend_len w)) (drop (Z.to_nat (sumZ (map wr_extend_len R1))) out)).
  destruct (write_step table w new Ht Hw) as (T1 & row & T2 & -> & HT & Hrow & Halt & Ht');
    [unfold new; rewrite zlen_take, zlen_drop; lia|].
  rewrite Halt, (write_program_spec all R1 w rows) by (done || by apply Hpos || lia).
  fold new. replace (Z.pred (zlen rows + 1)) with (zlen rows) by lia.
  replace (Z.succ (zlen R1)) with (zlen (R1 ++ [w])) by (rewrite zlen_app, zlen_cons, zlen_nil; lia).
  rewrite IH; [|by rewrite Hall, <- app_assoc|done| |done].
  - rewrite drop_drop, map_app, sumZ_app. simpl. do 3 f_equal. lia.
  - replace (zlen (T1 ++ written_row w new row :: T2)) with (zlen (T1 ++ row :: T2)); [done|].
    by rewrite !zlen_app, !zlen_cons.
Qed.

Lemma write_loop_spec rows out pt p :
  table_ok (rp_req_to_token p) → Forall (write_ok stride (zlen (rp_req_to_token p))) rows →
  0 ≤ pt → pt + sumZ (map wr_extend_len rows) ≤ zlen out →
  write_loop rows out pt p
  = Ok (set_rp_req_to_token (written_table rows (drop (Z.to_nat pt) out) (rp_req_to_token p)) p).
Proof.
  revert pt p. induction rows as [|w rows IH]; intros pt p Ht Hok Hpt Hsum; [by destruct p|].
  apply Forall_cons in Hok as [Hw Hok]. pose proof Hw as [Hi Hp Hs He].
  assert (Hnn : 0 ≤ sumZ (map wr_extend_len rows)).
  { apply sumZ_nonneg, Forall_fmap. eapply Forall_impl; [exact Hok|]. intros v [? ? ? ?]. simpl. lia. }
  simpl in Hsum. pose proof (zlen_nonneg (wr_prefix w)). cbn [write_loop written_table].
  set (new := take (Z.to_nat (wr_extend_len w)) (drop (Z.to_nat pt) out)).
  assert (Hnew : zlen new = wr_extend_len w) by (unfold new; rewrite zlen_take, zlen_drop; lia).
  destruct (write_step (rp_req_to_token p) w new Ht Hw Hnew) as (T1 & row & T2 & HT & HT1 & Hrow & Halt & Ht').
  assert (Hget : ∀ r, py_get (T1 ++ r :: T2) (wr_idx w) = Some r).
  { intros r. unfold py_get. rewrite bool_decide_true by lia. rewrite <- HT1. unfold zlen.
    rewrite Nat2Z.id, lookup_app_r, Nat.sub_diag by lia. done. }
  assert (Hins : ∀ r r' : list Z, <[Z.to_nat (wr_idx w) := r']> (T1 ++ r :: T2) = T1 ++ r' :: T2).
  { intros r r'. rewrite <- HT1. unfold zlen. rewrite Nat2Z.id. by rewrite insert_app_r_alt, Nat.sub_diag by lia. }
  unfold ReqToTokenPool_write, pool_row. rewrite HT, Hget. cbn [mbind res_bind default].
  rewrite assign_slice_ok by lia. cbn [mbind res_bind rp_req_to_token set_rp_req_to_token id].
  rewrite Hins, Hget. cbn [mbind res_bind].
  replace (py_slice out pt (pt + wr_extend_len w)) with new
    by (rewrite py_slice_take_drop by lia; unfold new; do 2 f_equal; lia).
  rewrite take_0. cbn [app].
  rewrite assign_slice_ok; [|lia| |lia]; cycle 1.
  { rewrite zlen_app, zlen_map, zlen_drop. lia. }
  cbn [mbind res_bind rp_req_to_token set_rp_req_to_token id]. rewrite Hins.
  rewrite take_app_length' by (rewrite length_map; unfold zlen in *; lia).
  rewrite drop_app_ge, drop_drop by (rewrite length_map; unfold zlen in *; lia).
  rewrite length_map. replace (Z.to_nat (wr_prefix_len w) + (Z.to_nat (wr_seq_len w) - length (wr_prefix w)))%nat
    with (Z.to_nat (wr_seq_len w)) by (unfold zlen in *; lia).
  fold (written_row w new row). rewrite <- HT, Halt.
  rewrite IH; cbn [rp_req_to_token set_rp_req_to_token]; [|done| |lia|lia].
  - rewrite drop_drop. replace (Z.to_nat (pt + wr_extend_len w)) with (Z.to_nat pt + Z.to_nat (wr_extend_len w))%nat
      by lia. done.
  - replace (zlen (T1 ++ written_row w new row :: T2)) with (zlen (rp_req_to_token p)); [done|].
    rewrite HT. by rewrite !zlen_app, !zlen_cons.
Qed.

Lemma unflatten_concat table :
  0 ≤ stride → table_ok table → unflatten (Z.to_nat stride) (length table) (concat table) = table.
Proof.
  intros Hs. induction 1 as [|row t Hr Ht IH]; [done|]. simpl.
  rewrite take_app_length' by (unfold zlen in *; lia). rewrite drop_app_length' by (unfold zlen in *; lia).
  by rewrite IH.
Qed.

Lemma written_table_ok rows out table :
  table_ok table → Forall (write_ok stride (zlen table)) rows → sumZ (map wr_extend_len rows) ≤ zlen out →
  table_ok (written_table rows out table).
Proof.
  revert out table. induction rows as [|w rows IH]; intros out table Ht Hok Hs; [done|].
  apply Forall_cons in Hok as [Hw Hok]. simpl in Hs. simpl.
  assert (Hnn : 0 ≤ sumZ (map wr_extend_len rows)).
  { apply sumZ_nonneg, Forall_fmap. eapply Forall_impl; [exact Hok|]. intros v [? ? ? ?]. simpl. lia. }
  destruct (write_step table w (take (Z.to_nat (wr_extend_len w)) out) Ht Hw) as (T1 & row & T2 & -> & HT1 & Hrow & -> & Ht').
  { rewrite zlen_take. destruct Hw. lia. }
  apply IH; [done| |rewrite zlen_drop; destruct Hw; lia].
  by rewrite zlen_app, zlen_cons in *.
Qed.

End table.

(** ** Last locations *)

(** Reference: the slot of the last prefix token, or -1. *)
Definition last_loc_of (table : list (list Z)) (q : Z * Z) : Z :=
  if bool_decide (0 < q.2) then tl_load (default [] (table !! Z.to_nat q.1)) (q.2 - 1) else -1.

Definition query_ok (stride count : Z) (q : Z * Z) : Prop := 0 ≤ q.1 < count ∧ 0 ≤ q.2 ≤ stride.

Lemma tl_load_concat stride table i j :
  table_ok stride table → 0 ≤ i < zlen table → 0 ≤ j < stride →
  tl_load (concat table) (i * stride + j) = tl_load (default [] (table !! Z.to_nat i)) j.
Proof.
  intros Ht Hi Hj. destruct (split_at table i Hi) as (T1 & row & T2 & -> & HT).
  apply Forall_app in Ht as [Ht1 [Hrow _]%Forall_cons].
  rewrite concat_app. cbn [concat]. rewrite <- HT, <- (zlen_concat stride T1 Ht1), tl_load_app_r by lia.
  rewrite tl_load_app_l by lia. unfold zlen. rewrite Nat2Z.id, lookup_app_r, Nat.sub_diag by lia. done.
Qed.

Lemma last_loc_blocks (g : Z → Z) n uninit :
  zlen uninit = n →
  foldl (λ r pid, tl_store r (map (λ o, (o + pid * LAST_LOC_BLOCK, g (o + pid * LAST_LOC_BLOCK),
                                         bool_decide (o + pid * LAST_LOC_BLOCK < n))) (seqZ 0 LAST_LOC_BLOCK)))
    uninit (seqZ 0 (ceil_div n LAST_LOC_BLOCK))
  = map g (seqZ 0 n).
Proof.
  intros Hn. assert (Hb : 0 < LAST_LOC_BLOCK) by done. pose proof (zlen_nonneg uninit).
  pose proof (ceil_div_bounds LAST_LOC_BLOCK Hb n) as Hc.
  assert (0 ≤ ceil_div n LAST_LOC_BLOCK) by (unfold ceil_div; apply Z.div_pos; lia).
  pose proof (block_loop LAST_LOC_BLOCK g 0 n (Z.to_nat (ceil_div n LAST_LOC_BLOCK)) 0 [] uninit []) as HB.
  cbn [app] in HB. rewrite app_nil_r, app_nil_r, Z2Nat.id, Hn, !Z.mul_0_l in HB by done.
  rewrite <- HB by (try lia; done). clear HB.
  assert (Hfold : ∀ (l : list Z) r, foldl (λ r pid, tl_store r (map (λ o, (o + pid * LAST_LOC_BLOCK,
      g (o + pid * LAST_LOC_BLOCK), bool_decide (o + pid * LAST_LOC_BLOCK < n))) (seqZ 0 LAST_LOC_BLOCK))) r l
    = foldl (λ r pid, tl_store r (map (λ o, (0 + (pid * LAST_LOC_BLOCK + o), g (pid * LAST_LOC_BLOCK + o),
      bool_decide (pid * LAST_LOC_BLOCK + o < n))) (seqZ 0 LAST_LOC_BLOCK))) r l).
  { induction l as [|pid l IH]; intros r; [done|]. cbn [foldl]. rewrite IH. f_equal. f_equal.
    apply map_seqZ_ext. intros o _. by rewrite Z.add_0_l, (Z.add_comm o). }
  apply Hfold.
Qed.

Section last_loc.
Context (stride : Z) (table : list (list Z)) (queries : list (Z * Z)).
Hypothesis (Ht : table_ok stride table) (Hq : Forall (query_ok stride (zlen table)) queries).

Definition lane_token (k : Z) : Z :=
  let prefix_len := tl_load (map snd queries) k in
  if bool_decide (0 < prefix_len)
  then tl_load (concat table) (tl_load (map fst queries) k * stride + (prefix_len - 1)) else -1.

Lemma lane_token_ref : map lane_token (seqZ 0 (zlen queries)) = map (last_loc_of table) queries.
Proof.
  transitivity (map (λ k, default 0 (last_loc_of table <$> queries !! Z.to_nat k)) (seqZ 0 (zlen queries))).
  - apply map_seqZ_ext. intros k Hk.
    destruct (lookup_lt_is_Some_2 queries (Z.to_nat k)) as [q Hk']; [unfold zlen in Hk; lia|].
    rewrite Hk'. simpl. unfold lane_token. rewrite !(tl_load_map _ _ k q) by (done || lia).
    unfold last_loc_of. rewrite Forall_forall in Hq. destruct (Hq q) as [H1 H2]; [by eapply list_elem_of_lookup_2|].
    case_bool_decide; [|done]. apply tl_load_concat; (done || lia).
  - apply list_eq. intros i. rewrite !list_lookup_fmap.
    destruct (decide (i < length queries)%nat) as [Hi|Hi].
    + rewrite lookup_seqZ_lt by (unfold zlen; lia). simpl.
      replace (Z.to_nat (0 + Z.of_nat i)) with i by lia.
      destruct (lookup_lt_is_Some_2 queries i Hi) as [q Hk]. by rewrite Hk.
    + rewrite lookup_seqZ_ge by (unfold zlen; lia). by rewrite lookup_ge_None_2 by lia.
Qed.

Lemma masked_load {X} (g : X → Z) (l : list X) k :
  (if bool_decide (k < zlen l) then tl_load (map g l) k else 0) = tl_load (map g l) k.
Proof.
  case_bool_decide as Hk; [done|]. unfold tl_load. pose proof (zlen_nonneg l).
  rewrite bool_decide_true by lia. rewrite lookup_ge_None_2; [done|]. rewrite length_map. unfold zlen in *. lia.
Qed.

Lemma last_loc_triton_ok uninit :
  zlen uninit = zlen queries →
  get_last_loc_triton (concat table) queries stride uninit = map (last_loc_of table) queries.
Proof.
  intros Hu. rewrite <- lane_token_ref, <- (last_loc_blocks lane_token _ uninit Hu). unfold get_last_loc_triton.
  clear Hu. revert uninit. induction (seqZ 0 (ceil_div _ _)) as [|pid l IH]; intros r; [done|]. cbn [foldl].
  rewrite IH. f_equal. unfold get_last_loc_kernel. f_equal. apply map_seqZ_ext. intros o _.
  rewrite !masked_load. done.
Qed.

Lemma last_loc_triton_safe_ok uninit :
  Forall (Forall slot32) table → zlen uninit = zlen queries →
  get_last_loc_triton_safe (concat table) queries stride uninit = map (last_loc_of table) queries.
Proof.
  intros H32 Hu. transitivity (map (λ k, int32 (lane_token k)) (seqZ 0 (zlen queries))).
  - rewrite <- (last_loc_blocks (λ k, int32 (lane_token k)) _ uninit Hu). unfold get_last_loc_triton_safe.
    clear Hu. revert uninit. induction (seqZ 0 (ceil_div _ _)) as [|pid l IH]; intros r; [done|]. cbn [foldl].
    rewrite IH. f_equal. unfold get_last_loc_safe_kernel. f_equal. apply map_seqZ_ext. intros o _.
    rewrite !masked_load. unfold lane_token. case_bool_decide as Hk; [done|]. simpl.
    do 3 f_equal. case_bool_decide as Hp; [|done]. exfalso. revert Hp. rewrite <- masked_load.
    rewrite bool_decide_false by done. lia.
  - rewrite <- (map_map lane_token int32), lane_token_ref. apply map_int32_id, Forall_fmap.
    eapply Forall_impl; [exact Hq|]. intros q [H1 H2]. simpl. unfold last_loc_of.
    case_bool_decide; [|done].
    destruct (lookup_lt_is_Some_2 table (Z.to_nat q.1)) as [row Hr]; [unfold zlen in *; lia|]. rewrite Hr. simpl.
    unfold tl_load. rewrite bool_decide_true by lia.
    destruct (row !! Z.to_nat (q.2 - 1)) as [v|] eqn:E; [|done]. simpl.
    rewrite Forall_forall in H32. specialize (H32 row (list_elem_of_lookup_2 _ _ _ Hr)).
    rewrite Forall_forall in H32. by apply H32, (list_elem_of_lookup_2 _ _ _ E).
Qed.

Lemma last_loc_torch_ok :
  0 < stride → get_last_loc_torch table queries = Ok (map (last_loc_of table) queries).
Proof.
  intros Hs. unfold get_last_loc_torch. clear - Hs Ht Hq.
  induction Hq as [|q qs [H1 H2] Hqs IH]; [done|]. cbn [res_map map].
  destruct (lookup_lt_is_Some_2 table (Z.to_nat q.1)) as [row Hr]; [unfold zlen in *; lia|].
  assert (Hlen : zlen row = stride).
  { unfold table_ok in Ht. rewrite Forall_forall in Ht. by apply Ht, (list_elem_of_lookup_2 _ _ _ Hr). }
  assert (Hg : py_get table q.1 = Some row) by (unfold py_get; by rewrite bool_decide_true, Hr by lia).
  rewrite Hg, IH by done. cbn [mbind res_bind]. unfold torch_index at 1.
  rewrite py_get_tl_load by (case_bool_decide; lia). cbn [mbind res_bind]. f_equal. f_equal.
  unfold last_loc_of. rewrite Hr. simpl. case_bool_decide; [|done]. by rewrite bool_decide_false by lia.
Qed.

End last_loc.

(** ** Release *)

(** Slots outside the tree and outside the request's own can be freed as well. *)
Lemma settled_over c c' r ids row f over :
  owns c r ids row → settled c c' row f →
  NoDup (drop (Z.to_nat (rq_cache_protected_len r)) row ++ over) → (∀ s, s ∈ over → ¬ in_tree c s) →
  settled c c' (row ++ over) (f ++ over).
Proof.
  intros Hown [S1 S2 S3] Hnd Hov. apply NoDup_app in Hnd as (_ & Hdis & Hno).
  assert (Hrow : ∀ s, s ∈ row → s ∉ over).
  { intros s Hs Ho. rewrite <- (take_drop (Z.to_nat (rq_cache_protected_len r)) row) in Hs.
    apply elem_of_app in Hs as [Hs|Hs]; [|by apply (Hdis s)]. apply (Hov s Ho).
    eexists _, _. split; [exact (ow_cached _ _ _ _ Hown)|done]. }
  split.
  - intros s. specialize (S1 s). rewrite !elem_of_app. tauto.
  - apply NoDup_app. split_and!; [done| |done]. intros s Hs Ho.
    destruct (proj1 (S1 s) (or_intror Hs)) as [Ht|Hr]; [by apply (Hov s)|by apply (Hrow s)].
  - intros s [Hs|Ho]%elem_of_app; [by apply S3|]. intros Ht.
    destruct (proj1 (S1 s) (or_introl Ht)) as [Ht'|Hr]; [by apply (Hov s)|by apply (Hrow s)].
Qed.

(** The over-allocated slots a release gives back. *)
Definition overallocated (sa : ServerArgs) (r : Req) (row0 : list Z) : list (list Z) :=
  let start_p := cache_commit_len sa r in
  let start_p := if bool_decide (1 < sa_page_size sa) then ceil_align start_p (sa_page_size sa)
                 else start_p in
  if bool_decide (start_p < rq_kv_allocated_len r)
  then [py_slice row0 start_p (rq_kv_allocated_len r)] else [].

(** ** Properties *)

(** The Triton kernel and the loop used by the other backends write the same request table, the
    one in which the row of every request is its prefix followed by its part of the new slots, with
    the rest unchanged. *)
Theorem write_cache_indices_equiv backend out rows p :
  0 ≤ rp_max_context_len p → table_ok (rp_max_context_len p) (rp_req_to_token p) →
  Forall (write_ok (rp_max_context_len p) (zlen (rp_req_to_token p))) rows →
  sumZ (map wr_extend_len rows) ≤ zlen out →
  write_cache_indices backend out rows p
  = Ok (set_rp_req_to_token (written_table rows out (rp_req_to_token p)) p).
Proof.
  intros Hm Ht Hok Hs. unfold write_cache_indices. destruct (support_triton backend).
  - unfold write_launch. change 0 with (zlen (@nil write_req)).
    rewrite (write_launch_spec (rp_max_context_len p) rows [] rows) by done.
    cbn [map sumZ]. rewrite drop_0. f_equal. f_equal.
    rewrite <- (written_table_len rows out (rp_req_to_token p)).
    apply unflatten_concat; [done|]. by apply written_table_ok.
  - rewrite (write_loop_spec (rp_max_context_len p)) by done. done.
Qed.

Lemma write_cache_indices_equiv_witness :
  let p := ReqToTokenPool_init 2 6 in
  let rows := [mkWrite 2 [7; 8] 2 5 3; mkWrite 1 [] 0 2 2] in
  write_cache_indices "flashinfer" [21; 22; 23; 24; 25] rows p
    = Ok (set_rp_req_to_token [[0; 0; 0; 0; 0; 0]; [24; 25; 0; 0; 0; 0]; [7; 8; 21; 22; 23; 0]] p).
Proof.
  intros p rows. apply (write_cache_indices_equiv "flashinfer" [21; 22; 23; 24; 25] rows p).
  - vm_compute. discriminate.
  - repeat constructor.
  - repeat constructor; vm_compute; discriminate.
  - vm_compute. discriminate.
Defined.

(** Every implementation of [get_last_loc] (the Torch expression, the Triton kernel and its
    32-bit variant for HIP) returns, for every query in range, the slot of the last prefix token,
    and -1 for an empty prefix. *)
Theorem get_last_loc_equiv is_hip attn_backend p queries uninit :
  0 < rp_max_context_len p → table_ok (rp_max_context_len p) (rp_req_to_token p) →
  Forall (Forall slot32) (rp_req_to_token p) →
  Forall (query_ok (rp_max_context_len p) (zlen (rp_req_to_token p))) queries →
  zlen uninit = zlen queries →
  get_last_loc is_hip attn_backend p queries uninit
  = Ok (map (last_loc_of (rp_req_to_token p)) queries).
Proof.
  intros Hm Ht H32 Hq Hu. unfold get_last_loc.
  destruct (negb _), is_hip; simpl;
    rewrite ?last_loc_triton_safe_ok, ?last_loc_triton_ok, ?(last_loc_torch_ok (rp_max_context_len p)) by done;
    done.
Qed.

Lemma get_last_loc_equiv_witness :
  get_last_loc false "triton" demo_pool [(1, 4); (2, 0); (1, 7)] [9; 9; 9] = Ok [23; -1; 32].
Proof.
  apply (get_last_loc_equiv false "triton" demo_pool [(1, 4); (2, 0); (1, 7)] [9; 9; 9]).
  - done.
  - repeat constructor.
  - repeat constructor; vm_compute; intuition congruence.
  - repeat constructor; vm_compute; intuition congruence.
  - done.
Defined.


(** For the token allocator, allocating [n] slots through the radix cache fails exactly when
    the available and the evictable slots together are fewer than [n]; otherwise it returns [n]
    slots and evicts unlocked content only, and the slots of the tree, of the requests and of the
    new batch, with the free ones, still partition [1..size]. *)
Theorem alloc_token_slots_spec monotonic ps eagle dfi policy c held L size a others n backup :
  reachable_cache monotonic ps eagle dfi policy (c, held) → live_set c L →
  is_not_in_free_group a = true → token_inv size (a, tree_slots c L ++ others) → 0 ≤ n →
  if bool_decide (n ≤ TokenToKVPoolAllocator_available_size a + rc_evictable_size c) then
    ∃ out st c' a' L',
      alloc_token_slots (Radix c) (TokenPool a) n backup = Ok (out, st, Radix c', TokenPool a')
      ∧ zlen out = n ∧ reachable_cache monotonic ps eagle dfi policy (c', held)
      ∧ live_set c' L' ∧ L' ⊆ L ∧ list_to_set held ⊆ L'
      ∧ token_inv size (a', out ++ tree_slots c' L' ++ others)
  else alloc_token_slots (Radix c) (TokenPool a) n backup = Raise RuntimeError.
Proof.
  intros Hr HL Hg Hi Hn.
  destruct (evict_for_alloc c held L size a others n Hr HL Hg Hi)
    as (c' & a1 & L' & Hev & Hr' & HL' & Hsub & Hheld & Hg' & Hi' & Hsum & Hen & Hnn & _).
  unfold alloc_token_slots. rewrite Hev. cbn [mbind res_bind pool_alloc].
  destruct (TokenToKVPoolAllocator_alloc a1 n) as [o a2] eqn:Ha. cbn [mbind res_bind].
  pose proof (token_alloc_fails size a1 _ n Hn Hi') as Hf. rewrite Ha in Hf. simpl in Hf.
  destruct o as [out|]; cbn [oom mbind res_bind default].
  - assert (¬ TokenToKVPoolAllocator_available_size a1 < n) by (rewrite <- Hf; done).
    rewrite bool_decide_true by lia.
    destruct (token_alloc_fresh size a1 _ n out a2 Hn Hi' Ha) as (Hz & _ & _).
    eexists out, _, c', a2, L'. split_and!; try done.
    exact (token_alloc_inv size a1 _ n (Some out) a2 Hn Hi' Ha).
  - assert (TokenToKVPoolAllocator_available_size a1 < n) by (by apply Hf).
    rewrite bool_decide_false by lia. done.
Qed.

(** A set of nodes that contains the root, is closed under children and has a path to each node. *)
Lemma live_set_intro c (L : gset nat) :
  rc_root c ∈ L → (∀ n, n ∈ L → ∃ us vs, path c n us vs) →
  forallb (λ n, match rc_nodes c !! n with
                | Some x => forallb (λ km, bool_decide (km.2 ∈ L)) (map_to_list (tn_children x))
                | None => true
                end) (elements L) = true →
  live_set c L.
Proof.
  intros Hroot Hp Hcl n. split; [apply Hp|]. intros (us & vs & Hpath).
  induction Hpath as [|n us vs x ck m y v Hpath IH Hx Hm Hy Hv]; [done|].
  rewrite forallb_forall in Hcl. specialize (Hcl n). rewrite <- list_elem_of_In, elem_of_elements, Hx in Hcl.
  specialize (Hcl IH). rewrite forallb_forall in Hcl. specialize (Hcl (ck, m)).
  rewrite <- list_elem_of_In, elem_of_map_to_list in Hcl.
  specialize (Hcl Hm). by apply bool_decide_eq_true in Hcl.
Qed.

Lemma demo1_reachable : reachable_cache demo_clock 2 false false "lru" (demo1, []).
Proof.
  split; [lia|]. exists demo0. split; [vm_compute; reflexivity|]. apply rtc_once.
  apply (cache_step_insert _ _ _ (demo_key [1; 2; 3; 4; 5]) [10; 11; 12; 13; 14] (Some 0) false 0);
    [done|vm_compute; discriminate|vm_compute; reflexivity].
Qed.

Lemma demo1_live : live_set demo1 {[0%nat; 1%nat]}.
Proof.
  apply live_set_intro; [vm_compute; set_solver| |vm_compute; reflexivity].
  intros n Hn. assert (n = 0%nat ∨ n = 1%nat) as [->| ->] by set_solver.
  - eexists [], []. apply (path_root demo1).
  - do 2 eexists.
    eapply (path_child demo1 0 _ _ _ (page_ckey 2 None [[1]; [2]]) 1 (from_ok (default_node) (get_node demo1 1)));
      [apply (path_root demo1)|vm_compute; reflexivity..].
Qed.

(** Slots 1 to 16: the tree has 10 to 13, a request 1 to 9, and three are free. *)
Definition demo_alloc : Allocator :=
  set_free_pages (TokenToKVPoolAllocator_init 16 true) [16; 14; 15].

Lemma demo_alloc_inv :
  token_inv 16 (demo_alloc, tree_slots demo1 {[0%nat; 1%nat]} ++ [1; 2; 3; 4; 5; 6; 7; 8; 9]).
Proof.
  split; [done| |done]. rewrite <- torch_sort_perm. match goal with |- ?l ≡ₚ ?k => assert (Hl : l = k) by (vm_compute; reflexivity) end. by rewrite Hl.
Qed.

Lemma alloc_token_slots_spec_witness :
  ∃ out st c' a' L',
    alloc_token_slots (Radix demo1) (TokenPool demo_alloc) 6 true = Ok (out, st, Radix c', TokenPool a')
    ∧ zlen out = 6 ∧ reachable_cache demo_clock 2 false false "lru" (c', [])
    ∧ live_set c' L' ∧ L' ⊆ {[0%nat; 1%nat]} ∧ list_to_set [] ⊆ L'
    ∧ token_inv 16 (a', out ++ tree_slots c' L' ++ [1; 2; 3; 4; 5; 6; 7; 8; 9]).
Proof.
  apply (alloc_token_slots_spec demo_clock 2 false false "lru" demo1 [] {[0%nat; 1%nat]} 16 demo_alloc
    [1; 2; 3; 4; 5; 6; 7; 8; 9] 6 true demo1_reachable demo1_live (eq_refl _) demo_alloc_inv). done.
Defined.

(** Releasing a request: the tree keeps its nodes, and slots are neither lost nor duplicated. *)
Lemma release_kv_ok monotonic ps eagle dfi policy sa c held held' p a r is_insert n i row0 :
  reachable_cache monotonic ps eagle dfi policy (c, held) →
  rq_req_pool_idx r = Some i → pool_row p (Some i) = Ok row0 →
  let ids := committed_ids sa r in
  let row := row0⟨:zlen ids⟩ in
  let over := overallocated sa r row0 in
  owns c r ids row → rq_kv_committed_freed r = false → rq_kv_overallocated_freed r = false →
  rq_last_node r = Some n → unlocks c n held held' →
  (sa_speculative_algorithm sa = None → sa_strip_thinking_cache sa = false →
   cache_commit_len sa r = rq_kv_allocated_len r) →
  NoDup (drop (Z.to_nat (rq_cache_protected_len r)) row ++ concat over) →
  (∀ s, s ∈ concat over → ¬ in_tree c s) →
  ∃ c' a' freed r',
    release_kv_cache monotonic sa (Radix c) (TokenPool a) p r is_insert
    = Ok (Radix c', TokenPool a', set_rp_free_slots (rp_free_slots p ++ [i]) p, r')
    ∧ free_all a freed = Ok a' ∧ settled c c' (row ++ concat over) (concat freed)
    ∧ reachable_cache monotonic ps eagle dfi policy (c', held')
    ∧ r' = set_rq_req_pool_idx None (set_rq_kv_overallocated_freed true (set_rq_kv_committed_freed true r))
    ∧ config c' = config c ∧ grows c c'
    ∧ tree_total c' + zlen (concat freed) = tree_total c + (zlen (row ++ concat over) - rq_cache_protected_len r).
Proof.
  intros Hr Hi Hrow ids row over Hown Hf1 Hf2 Hn Hu Hspec Hnd Hov.
  assert (Hrow' : pool_row p (rq_req_pool_idx r) = Ok row0) by (by rewrite Hi).
  destruct (cache_finished_req_ok sa c held held' p a r (is_insert && negb (rq_skip_radix_cache_insert r)) n row0
              Hr Hrow' Hown Hf1 Hn Hu) as (c' & a1 & a2 & f1 & f2 & Hgo & Ha1 & Ha2 & Hst & Hr' & Hcfg & Hg & Ht).
  exists c', (if bool_decide (over = []) then a2 else TokenToKVPoolAllocator_free a2 (concat over)), ([f1; f2] ++ over).
  eexists. split_and!; [| | |exact Hr'| |exact Hcfg|exact Hg|].
  - unfold release_kv_cache. rewrite bool_decide_false by congruence.
    rewrite (cache_finished_req_embed TokenPool), Hgo. cbn [mbind res_bind].
    unfold pop_overallocated_kv_cache. cbn [rq_kv_overallocated_freed set_rq_kv_committed_freed].
    rewrite Hf2. cbn [negb py_assert mbind res_bind].
    change (cache_commit_len sa (set_rq_kv_committed_freed true r)) with (cache_commit_len sa r).
    change (rq_kv_allocated_len (set_rq_kv_committed_freed true r)) with (rq_kv_allocated_len r).
    assert (Hassert : (if bool_decide (sa_speculative_algorithm sa = None) && negb (sa_strip_thinking_cache sa)
      then py_assert (bool_decide (cache_commit_len sa r = rq_kv_allocated_len r)) else Ok ()) = Ok ()).
    { case_bool_decide as E; [|done]. destruct (sa_strip_thinking_cache sa) eqn:E2; [done|].
      simpl. by rewrite Hspec, bool_decide_true. }
    rewrite Hassert. cbn [mbind res_bind]. unfold over, overallocated.
    destruct (bool_decide (_ < rq_kv_allocated_len r)); cbn [mbind res_bind];
      cbn [rq_req_pool_idx set_rq_kv_overallocated_freed set_rq_kv_committed_freed]; rewrite ?Hi.
    + rewrite Hrow. cbn [mbind res_bind]. unfold kv_free, pool_kv. cbn [mbind res_bind].
      unfold ReqToTokenPool_free. cbn [rq_req_pool_idx set_rq_kv_overallocated_freed set_rq_kv_committed_freed].
      rewrite Hi. cbn [mbind res_bind concat]. by rewrite app_nil_r.
    + unfold ReqToTokenPool_free. cbn [rq_req_pool_idx set_rq_kv_overallocated_freed set_rq_kv_committed_freed].
      rewrite Hi. done.
  - cbn [app free_all]. rewrite Ha1. cbn [mbind res_bind]. rewrite Ha2. cbn [mbind res_bind].
    unfold over, overallocated. destruct (bool_decide (_ < rq_kv_allocated_len r)); [|done].
    cbn [free_all concat]. rewrite app_nil_r. done.
  - cbn [app concat]. rewrite app_assoc. by eapply settled_over.
  - done.
  - cbn [app concat]. rewrite app_assoc, (zlen_app (f1 ++ f2)), (zlen_app row). fold ids row in Ht. lia.
Qed.

(** C20: releasing a request never raises when its bookkeeping is consistent: its committed slots go
    to the tree or are freed, its over-allocated slots (from the page after the committed ones) are
    freed, all of them once, its lock is released and its pool row returned. *)
Theorem release_kv_settles monotonic ps eagle dfi policy sa c held held' p a r is_insert n i row0 :
  reachable_cache monotonic ps eagle dfi policy (c, held) →
  rq_req_pool_idx r = Some i → pool_row p (Some i) = Ok row0 →
  let ids := committed_ids sa r in
  let row := row0⟨:zlen ids⟩ in
  let over := overallocated sa r row0 in
  owns c r ids row → rq_kv_committed_freed r = false → rq_kv_overallocated_freed r = false →
  rq_last_node r = Some n → unlocks c n held held' →
  (sa_speculative_algorithm sa = None → sa_strip_thinking_cache sa = false →
   cache_commit_len sa r = rq_kv_allocated_len r) →
  NoDup (drop (Z.to_nat (rq_cache_protected_len r)) row ++ concat over) →
  (∀ s, s ∈ concat over → ¬ in_tree c s) →
  ∃ c' a' freed r',
    release_kv_cache monotonic sa (Radix c) (TokenPool a) p r is_insert
    = Ok (Radix c', TokenPool a', set_rp_free_slots (rp_free_slots p ++ [i]) p, r')
    ∧ free_all a freed = Ok a' ∧ settled c c' (row ++ concat over) (concat freed)
    ∧ reachable_cache monotonic ps eagle dfi policy (c', held') ∧ rq_req_pool_idx r' = None.
Proof.
  intros Hr Hi Hrow ids row over Hown Hf1 Hf2 Hn Hu Hspec Hnd Hov.
  destruct (release_kv_ok monotonic ps eagle dfi policy sa c held held' p a r is_insert n i row0 Hr Hi Hrow Hown Hf1 Hf2 Hn Hu
    Hspec Hnd Hov) as (c' & a' & freed & r' & G1 & G2 & G3 & G4 & -> & _).
  by eexists c', a', freed, _.
Qed.

(** A request that speculative decoding gave two more slots than it used. *)
Definition demo_spec_pool : ReqToTokenPool :=
  mkReqToTokenPool 2 10 [replicate 10 0; [10; 11; 22; 23; 30; 31; 32; 0; 34; 35]; replicate 10 0] [2].

Definition demo_spec_args : ServerArgs := mkServerArgs 2 (Some "EAGLE") false.

Lemma release_kv_settles_witness :
  let r := set_rq_kv_allocated_len 10 demo_running in
  let a := TokenToKVPoolAllocator_init 40 false in
  ∃ c' a' freed r',
    release_kv_cache demo_clock demo_spec_args (Radix demo3) (TokenPool a) demo_spec_pool r true
    = Ok (Radix c', TokenPool a', set_rp_free_slots [2; 1] demo_spec_pool, r')
    ∧ free_all a freed = Ok a' ∧ settled demo3 c' [10; 11; 22; 23; 30; 31; 32; 34; 35] (concat freed)
    ∧ reachable_cache demo_clock 2 false false "lru" (c', []) ∧ rq_req_pool_idx r' = None.
Proof.
  refine (release_kv_settles demo_clock 2 false false "lru" demo_spec_args demo3 [3%nat] [] demo_spec_pool
    (TokenToKVPoolAllocator_init 40 false) (set_rq_kv_allocated_len 10 demo_running) true 3 1 _
    demo3_reachable (eq_refl _) (eq_refl _) _ (eq_refl _) (eq_refl _) (eq_refl _) demo_unlocks _ _ _).
  - destruct demo_owns as [H1 H2 H3 H4 H5 H6]. by split.
  - discriminate.
  - apply (bool_decide_unpack _). vm_compute. exact I.
  - intros s Hs Ht. apply (tree_values_in_ok (λ s, bool_decide (s < 30))) in Ht; [|vm_compute; reflexivity].
    apply bool_decide_eq_true in Ht. assert (Hin : s ∈ [34; 35]) by exact Hs. set_unfold. lia.
Defined.
