(* ===== verification/PyFloat.v ===== *)
(** * Python floats

    The Halo and admission-control code computes with Python floats.  Its definitions are written
    over an interface [PyNum]: the arithmetic and comparisons the code uses.  The instance [Qc]
    (canonical rationals) is exact arithmetic; theorems that need arithmetic laws are stated for
    it, theorems about control flow hold for every instance, binary64 included. *)

From S2P Require Import Prelude.
From Stdlib Require Export QArith Qcanon.

Open Scope Z_scope.

Class PyNum (F : Type) := {
  fofZ : Z → F;                       (* int to float *)
  fadd : F → F → F;
  fsub : F → F → F;
  fmul : F → F → F;
  fdiv : F → F → F;                   (* the divisors of the code are guarded, never 0.0 *)
  flt : F → F → bool;                 (* x < y *)
  fle : F → F → bool;                 (* x <= y *)
  ffinite : F → bool;                 (* math.isfinite *)
  fint : F → Z                        (* int(x): truncation *)
}.

Declare Scope pynum_scope.
Delimit Scope pynum_scope with F.
Infix "+" := fadd : pynum_scope.
Infix "-" := fsub : pynum_scope.
Infix "*" := fmul : pynum_scope.
Infix "/" := fdiv : pynum_scope.
Infix "<?" := flt : pynum_scope.
Infix "<=?" := fle : pynum_scope.

Section pynum.
Context {F : Type} `{PyNum F}.

(** [max(a, b)] and [min(a, b)]: the second argument only if it is strictly better. *)
Definition fmax (a b : F) : F := if (a <? b)%F then b else a.
Definition fmin (a b : F) : F := if (b <? a)%F then b else a.

(** [sum(l)] of floats, from 0.0 in order. *)
Definition fsum (l : list F) : F := foldl fadd (fofZ 0) l.

(** [x > y], [x >= y]. *)
Definition fgt (x y : F) : bool := (y <? x)%F.
Definition fge (x y : F) : bool := (y <=? x)%F.

Definition fZ (z : Z) : F := fofZ z.

End pynum.

(** ** Exact arithmetic *)

Definition Qc_ofZ (z : Z) : Qc := Q2Qc (inject_Z z).

#[export] Instance Qc_pynum : PyNum Qc := {
  fofZ := Qc_ofZ;
  fadd := Qcplus;
  fsub := Qcminus;
  fmul := Qcmult;
  fdiv := Qcdiv;
  flt x y := match (x ?= y)%Qc with Lt => true | _ => false end;
  fle x y := match (x ?= y)%Qc with Gt => false | _ => true end;
  ffinite _ := true;
  fint x := Z.quot (Qnum (this x)) (Zpos (Qden (this x)))
}.

Lemma Qc_flt x y : flt x y = true ↔ (x < y)%Qc.
Proof. simpl. rewrite Qclt_alt. by destruct (x ?= y)%Qc. Qed.

Lemma Qc_fle x y : fle x y = true ↔ (x <= y)%Qc.
Proof. simpl. rewrite Qcle_alt. by destruct (x ?= y)%Qc. Qed.

Lemma Qc_flt_false x y : flt x y = false ↔ (y <= x)%Qc.
Proof.
  rewrite <- not_true_iff_false, Qc_flt. split; [apply Qcnot_lt_le|apply Qcle_not_lt].
Qed.

Lemma Qc_fle_false x y : fle x y = false ↔ (y < x)%Qc.
Proof.
  rewrite <- not_true_iff_false, Qc_fle. split; [apply Qcnot_le_lt|apply Qclt_not_le].
Qed.

Lemma Qc_ofZ_add a b : (Qc_ofZ a + Qc_ofZ b)%Qc = Qc_ofZ (a + b).
Proof. apply Qc_is_canon. unfold Qc_ofZ, Qcplus. simpl. rewrite !Qred_correct. rewrite inject_Z_plus. reflexivity. Qed.

Lemma Qc_ofZ_mul a b : (Qc_ofZ a * Qc_ofZ b)%Qc = Qc_ofZ (a * b).
Proof. apply Qc_is_canon. unfold Qc_ofZ, Qcmult. simpl. rewrite !Qred_correct. rewrite inject_Z_mult. reflexivity. Qed.

Lemma Qc_ofZ_le a b : (Qc_ofZ a <= Qc_ofZ b)%Qc ↔ a ≤ b.
Proof. unfold Qcle, Qc_ofZ. simpl. rewrite !Qred_correct. rewrite <- Zle_Qle. done. Qed.

Lemma Qc_ofZ_lt a b : (Qc_ofZ a < Qc_ofZ b)%Qc ↔ a < b.
Proof. unfold Qclt, Qc_ofZ. simpl. rewrite !Qred_correct. rewrite <- Zlt_Qlt. done. Qed.

(** ** Arithmetic on the exact instance *)

Create HintDb qc.

Lemma Qc_ofZ_0 : Qc_ofZ 0 = 0%Qc.
Proof. by apply Qc_is_canon. Qed.

Lemma Qc_ofZ_1 : Qc_ofZ 1 = 1%Qc.
Proof. by apply Qc_is_canon. Qed.

Lemma Qc_ofZ_nonneg a : 0 ≤ a → (0 <= Qc_ofZ a)%Qc.
Proof. rewrite <- Qc_ofZ_0. apply Qc_ofZ_le. Qed.

Lemma Qc_add_nonneg x y : (0 <= x)%Qc → (0 <= y)%Qc → (0 <= x + y)%Qc.
Proof. intros Hx Hy. rewrite <- (Qcplus_0_r 0). by apply Qcplus_le_compat. Qed.

Lemma Qc_mul_nonneg x y : (0 <= x)%Qc → (0 <= y)%Qc → (0 <= x * y)%Qc.
Proof. intros Hx Hy. rewrite <- (Qcmult_0_l y). by apply Qcmult_le_compat_r. Qed.

Lemma Qc_mul_le_l c x y : (0 <= c)%Qc → (x <= y)%Qc → (c * x <= c * y)%Qc.
Proof. intros Hc Hxy. rewrite !(Qcmult_comm c). by apply Qcmult_le_compat_r. Qed.

Lemma Qc_le_add_r x y : (0 <= y)%Qc → (x <= x + y)%Qc.
Proof. intros Hy. rewrite <- (Qcplus_0_r x) at 1. apply Qcplus_le_compat; [apply Qcle_refl|done]. Qed.

Lemma Qc_le_add_l x y : (0 <= x)%Qc → (y <= x + y)%Qc.
Proof. rewrite Qcplus_comm. apply Qc_le_add_r. Qed.

#[export] Hint Resolve Qc_ofZ_nonneg Qc_add_nonneg Qc_mul_nonneg Qc_mul_le_l Qcplus_le_compat Qcle_refl
  Qc_le_add_r Qc_le_add_l : qc.

(** A sum accumulated by a loop is the sum of the list. *)
Definition qsum {A} (f : A → Qc) (l : list A) : Qc := foldr (λ x acc, (f x + acc)%Qc) 0%Qc l.

Lemma foldl_qsum {A} (f : A → Qc) l a : foldl (λ acc x, (acc + f x)%Qc) a l = (a + qsum f l)%Qc.
Proof.
  revert a. induction l as [|x l IH]; intros a; simpl; [ring|]. rewrite IH. unfold qsum. simpl. ring.
Qed.

Lemma qsum_app {A} (f : A → Qc) l k : qsum f (l ++ k) = (qsum f l + qsum f k)%Qc.
Proof. induction l as [|x l IH]; simpl; [ring|]. rewrite IH. ring. Qed.

Lemma qsum_Permutation {A} (f : A → Qc) l k : l ≡ₚ k → qsum f l = qsum f k.
Proof. induction 1; simpl; [done|congruence|ring|congruence]. Qed.

Lemma qsum_nonneg {A} (f : A → Qc) l : Forall (λ x, (0 <= f x)%Qc) l → (0 <= qsum f l)%Qc.
Proof. induction 1; simpl; auto with qc. Qed.

Lemma qsum_submseteq {A} (f : A → Qc) l k :
  Forall (λ x, (0 <= f x)%Qc) k → l ⊆+ k → (qsum f l <= qsum f k)%Qc.
Proof.
  intros Hk [m Hp]%submseteq_Permutation. rewrite (qsum_Permutation f _ _ Hp), qsum_app.
  rewrite Hp in Hk. apply Forall_app in Hk as [_ Hm]. auto using qsum_nonneg with qc.
Qed.

Lemma Qc_mul_cancel_le c x y : (0 < c)%Qc → (c * x <= c * y)%Qc → (x <= y)%Qc.
Proof.
  intros Hc Hle. destruct (Qclt_le_dec y x) as [Hlt|]; [|done]. exfalso.
  apply (Qcle_not_lt _ _ Hle). rewrite !(Qcmult_comm c). by apply Qcmult_lt_compat_r.
Qed.

(** [a / c > b] for a positive divisor. *)
Lemma Qc_div_lt a b c : (0 < c)%Qc → (b < a / c)%Qc ↔ (b * c < a)%Qc.
Proof.
  intros Hc. assert (Hn : c ≠ 0%Qc) by (intros ->; by apply (Qclt_not_le _ _ Hc), Qcle_refl).
  split; intros Hlt.
  - apply (Qcmult_lt_compat_r _ _ c) in Hlt; [|done].
    replace (a / c * c)%Qc with a in Hlt by (field; done). done.
  - apply Qcnot_le_lt. intros Hle. apply (Qcmult_le_compat_r _ _ c) in Hle; [|by apply Qclt_le_weak].
    replace (a / c * c)%Qc with a in Hle by (field; done). by apply (Qclt_not_le _ _ Hlt).
Qed.

Lemma Qc_pos_neq c : (0 < c)%Qc → c ≠ 0%Qc.
Proof. intros Hc ->. by apply (Qclt_not_le _ _ Hc), Qcle_refl. Qed.

(** [a / c <= b] and [b <= a / c] for a positive divisor. *)
Lemma Qc_div_le a b c : (0 < c)%Qc → (a / c <= b)%Qc ↔ (a <= b * c)%Qc.
Proof.
  intros Hc. split; intros Hle; apply Qcnot_lt_le; intros Hlt; revert Hle; apply Qclt_not_le;
    by apply (Qc_div_lt a b c Hc).
Qed.

Lemma Qc_le_div a b c : (0 < c)%Qc → (b <= a / c)%Qc ↔ (b * c <= a)%Qc.
Proof.
  intros Hc. pose proof (Qc_pos_neq c Hc).
  assert (Hac : (a / c * c)%Qc = a) by (field; done). split; intros Hle.
  - rewrite <- Hac. by apply Qcmult_le_compat_r; [|apply Qclt_le_weak].
  - apply Qcnot_lt_le. intros Hlt%(Qcmult_lt_compat_r _ _ c); [|done]. rewrite Hac in Hlt.
    by apply (Qclt_not_le _ _ Hlt).
Qed.

Lemma qsum_le {A} (f g : A → Qc) l : Forall (λ x, (f x <= g x)%Qc) l → (qsum f l <= qsum g l)%Qc.
Proof. induction 1; simpl; auto with qc. Qed.

Lemma Qc_fmax_l a b : (a <= fmax a b)%Qc.
Proof. unfold fmax. destruct (flt a b) eqn:Hlt; [by apply Qclt_le_weak, Qc_flt|apply Qcle_refl]. Qed.

Lemma Qc_fmax_r a b : (b <= fmax a b)%Qc.
Proof. unfold fmax. destruct (flt a b) eqn:Hlt; [apply Qcle_refl|by apply Qc_flt_false]. Qed.

Lemma Qc_fmax_id a b : (b <= a)%Qc → fmax a b = a.
Proof. intros Hle. unfold fmax. by rewrite (proj2 (Qc_flt_false a b) Hle). Qed.

(** [int(x)] of a positive number is within one below it. *)
Lemma Qc_fint_lt (x : Qc) : 0 < fint x → (x < Qc_ofZ (fint x + 1))%Qc.
Proof.
  destruct x as [[n d] Hx]. unfold Qclt, Qc_ofZ. simpl. intros Hq. rewrite Qred_correct.
  unfold Qlt, inject_Z. simpl.
  assert (0 < n) as Hn.
  { destruct (Z_lt_le_dec 0 n) as [|Hle]; [done|]. pose proof (Z.quot_le_mono n 0 (Zpos d) ltac:(lia) Hle).
    rewrite Z.quot_0_l in * by lia. lia. }
  rewrite Z.quot_div_nonneg by lia. pose proof (Z.div_mod n (Zpos d) ltac:(lia)).
  pose proof (Z.mod_pos_bound n (Zpos d) ltac:(lia)). nia.
Qed.

Lemma Qc_sub_neg (x y : Qc) : (x < y)%Qc → (x - y < 0)%Qc.
Proof.
  intros Hlt. apply Qcnot_le_lt. intros Hle. apply (Qclt_not_le _ _ Hlt).
  replace x with ((x - y) + y)%Qc by ring. by apply Qc_le_add_l.
Qed.

Lemma Qc_lt_sub_l (x y z : Qc) : (y < z - x)%Qc → (x + y < z)%Qc.
Proof.
  intros Hlt. apply Qcnot_le_lt. intros Hle. apply (Qclt_not_le _ _ Hlt).
  apply (Qcplus_le_compat _ _ (- x) (- x)) in Hle; [|apply Qcle_refl].
  by replace (x + y + - x)%Qc with y in Hle by ring.
Qed.

Lemma Qc_sub_pos (x y : Qc) : (0 < x - y)%Qc → (y < x)%Qc.
Proof. intros Hlt%Qc_lt_sub_l. by rewrite Qcplus_0_r in Hlt. Qed.

Lemma Qc_sub_le_0 (x y : Qc) : (x - y <= 0)%Qc → (x <= y)%Qc.
Proof.
  intros Hle. apply (Qcplus_le_compat _ _ y y) in Hle; [|apply Qcle_refl].
  by replace (x - y + y)%Qc with x in Hle by ring; rewrite Qcplus_0_l in Hle.
Qed.
