(* ===== verification/PyDict.v ===== *)
(** * Python dicts

    A [dict] with string keys as an association list in insertion order: assigning to a present key
    keeps its place, a new key goes to the end.  Used where the source iterates over a dict. *)

From S2P Require Import Prelude.

Abbreviation dict A := (list (string * A)).

Section dict.
Context {A : Type}.
Implicit Types (d : dict A) (k : string) (v : A).

(** [d.get(k)]. *)
Fixpoint dict_get d k : option A :=
  match d with
  | [] => None
  | (k', v) :: d' => if bool_decide (k' = k) then Some v else dict_get d' k
  end.

(** [d[k] = v]. *)
Fixpoint dict_set d k v : dict A :=
  match d with
  | [] => [(k, v)]
  | (k', v') :: d' => if bool_decide (k' = k) then (k', v) :: d' else (k', v') :: dict_set d' k v
  end.

(** [d.pop(k, None)]. *)
Definition dict_pop d k : dict A := filter (λ kv, kv.1 ≠ k) d.

Definition dict_keys d : list string := d.*1.
Definition dict_values d : list A := d.*2.

(** ** Laws *)

Lemma dict_get_set_eq d k v : dict_get (dict_set d k v) k = Some v.
Proof.
  induction d as [|[k' v'] d IH]; simpl; [by rewrite bool_decide_eq_true_2|].
  case_bool_decide as Hk; simpl.
  - by rewrite bool_decide_eq_true_2.
  - by rewrite bool_decide_eq_false_2.
Qed.

Lemma dict_get_set_ne d k k' v : k ≠ k' → dict_get (dict_set d k v) k' = dict_get d k'.
Proof.
  intros Hne. induction d as [|[k0 v0] d IH]; simpl; [by rewrite bool_decide_eq_false_2|].
  case_bool_decide as Hk; simpl; [|by rewrite IH]. subst. by rewrite !bool_decide_eq_false_2.
Qed.

Lemma dict_get_set d k k' v :
  dict_get (dict_set d k v) k' = if bool_decide (k = k') then Some v else dict_get d k'.
Proof. case_bool_decide; [subst; apply dict_get_set_eq|by apply dict_get_set_ne]. Qed.

Lemma dict_get_pop d k k' : dict_get (dict_pop d k) k' = if bool_decide (k = k') then None else dict_get d k'.
Proof.
  unfold dict_pop. induction d as [|[k0 v0] d IH]; [by case_bool_decide|].
  destruct (decide (k0 = k)) as [->|Hne].
  - rewrite filter_cons_False by (simpl; naive_solver). rewrite IH. simpl. by case_bool_decide.
  - rewrite filter_cons_True by done. simpl. rewrite IH.
    case_bool_decide as H1; [subst|done]. by rewrite bool_decide_eq_false_2.
Qed.

Lemma dict_get_pops d ks k :
  dict_get (foldl dict_pop d ks) k = if bool_decide (k ∈ ks) then None else dict_get d k.
Proof.
  revert d. induction ks as [|k0 ks IH]; intros d; simpl; [done|]. rewrite IH, dict_get_pop.
  repeat case_bool_decide; set_solver.
Qed.

Lemma dict_get_elem d k v : dict_get d k = Some v → (k, v) ∈ d.
Proof.
  induction d as [|[k0 v0] d IH]; simpl; [done|].
  case_bool_decide; intros; simplify_eq; set_solver.
Qed.

Lemma elem_dict_get d k v : NoDup (dict_keys d) → (k, v) ∈ d → dict_get d k = Some v.
Proof.
  induction d as [|[k0 v0] d IH]; simpl; [set_solver|]. intros [Hni Hnd]%NoDup_cons [?|Hin]%elem_of_cons.
  - simplify_eq. by rewrite bool_decide_eq_true_2.
  - rewrite bool_decide_eq_false_2; [by apply IH|]. intros ->. apply Hni.
    apply list_elem_of_fmap. by exists (k, v).
Qed.

Lemma dict_get_keys d k : is_Some (dict_get d k) ↔ k ∈ dict_keys d.
Proof.
  induction d as [|[k0 v0] d IH]; simpl; [split; [by intros [? ?]|set_solver]|].
  rewrite elem_of_cons. case_bool_decide; [naive_solver|]. rewrite IH. naive_solver.
Qed.

Lemma dict_set_keys d k v :
  dict_keys (dict_set d k v) = if bool_decide (k ∈ dict_keys d) then dict_keys d else dict_keys d ++ [k].
Proof.
  induction d as [|[k0 v0] d IH]; simpl; [done|].
  destruct (decide (k0 = k)) as [->|Hne].
  - by rewrite !bool_decide_eq_true_2 by set_solver.
  - rewrite (bool_decide_eq_false_2 (k0 = k)) by done. simpl. rewrite IH.
    repeat case_bool_decide; set_solver.
Qed.

Lemma dict_set_NoDup d k v : NoDup (dict_keys d) → NoDup (dict_keys (dict_set d k v)).
Proof.
  intros Hd. rewrite dict_set_keys. case_bool_decide; [done|].
  apply NoDup_app. split_and!; [done|set_solver|apply NoDup_singleton].
Qed.

Lemma dict_pop_NoDup d k : NoDup (dict_keys d) → NoDup (dict_keys (dict_pop d k)).
Proof.
  intros Hd. eapply sublist_NoDup; [exact Hd|]. apply fmap_sublist. apply sublist_filter.
Qed.

Lemma dict_pops_NoDup d ks : NoDup (dict_keys d) → NoDup (dict_keys (foldl dict_pop d ks)).
Proof. revert d. induction ks as [|k ks IH]; intros d Hd; simpl; [done|]. by apply IH, dict_pop_NoDup. Qed.

End dict.

(** Updating every value. *)
Lemma dict_get_fmap {A B} (f : A → B) (d : dict A) k :
  dict_get (prod_map id f <$> d) k = f <$> dict_get d k.
Proof. induction d as [|[k0 v0] d IH]; simpl; [done|]. by case_bool_decide. Qed.

Lemma dict_keys_fmap {A B} (f : A → B) (d : dict A) : dict_keys (prod_map id f <$> d) = dict_keys d.
Proof. unfold dict_keys. rewrite <- list_fmap_compose. by apply list_fmap_ext. Qed.
