(* ===== verification/CostModel.v ===== *)
(** * Cost models

    Models [src/python/sglang/srt/managers/admission_control/cost_model.py]: the prefill, TBT and
    Halo step cost models, their estimates, and their JSON form.  A cost-model file is represented
    by what [json.loads] makes of its text (or by the fact that it is missing or malformed), and
    [json.dumps] of a payload by the payload.  [float_str] stands for Python's [float] on strings.

    The theorems: writing and reading a model preserves all its estimates; a broken file is never
    fatal to the lenient loaders; the single-request estimates are the step estimate of the
    one-request batch; with non-negative coefficients a larger batch never gets cheaper. *)

From S2P Require Import Prelude PyFloat.

(** ** JSON values *)

#[warnings="-register-all"]
Inductive json (F : Type) :=
| JNull
| JBool (b : bool)
| JNum (x : F)
| JStr (s : string)
| JArr (l : list (json F))
| JObj (o : list (string * json F)).
Arguments JNull {F}.
Arguments JBool {F} b.
Arguments JNum {F} x.
Arguments JStr {F} s.
Arguments JArr {F} l.
Arguments JObj {F} o.

(** What a path holds. *)
Inductive file (F : Type) :=
| Missing
| Malformed
| Parsed (j : json F).
Arguments Missing {F}.
Arguments Malformed {F}.
Arguments Parsed {F} j.

(** [d[k]] of a dict read from JSON: the last binding of a repeated key. *)
Fixpoint obj_get {F} (o : list (string * json F)) (k : string) : option (json F) :=
  match o with
  | [] => None
  | (k', v) :: o' =>
      match obj_get o' k with
      | Some w => Some w
      | None => if bool_decide (k' = k) then Some v else None
      end
  end.

(** The outcome of a loader: [CostModelLoadError] is the only exception that leaves it. *)
Inductive load (A : Type) :=
| Loaded (a : A)
| CostModelLoadError.
Arguments Loaded {A} a.
Arguments CostModelLoadError {A}.

#[export] Instance load_bind : MBind load := λ A B f r,
  match r with Loaded a => f a | CostModelLoadError => CostModelLoadError end.

Section models.
Context {F : Type} `{PyNum F} (float_str : string → option F).
Abbreviation obj := (list (string * json F)).

(** [float(j)]; a TypeError, ValueError or KeyError becomes a [CostModelLoadError]. *)
Definition py_float (j : option (json F)) : load F :=
  match j with
  | Some (JNum x) => Loaded x
  | Some (JBool b) => Loaded (fofZ (if b then 1 else 0))
  | Some (JStr s) => match float_str s with Some x => Loaded x | None => CostModelLoadError end
  | _ => CostModelLoadError
  end.

Definition read_json (f : file F) : load obj :=
  match f with
  | Parsed (JObj o) => Loaded o
  | _ => CostModelLoadError
  end.

(** [data.get("fit_metadata", {})] and [self.metadata or {}]. *)
Definition get_metadata (o : obj) : json F := default (JObj []) (obj_get o "fit_metadata").

Definition py_falsy (j : json F) : bool :=
  match j with
  | JNull => true
  | JBool b => negb b
  | JNum x => negb (x <? fofZ 0)%F && negb (fofZ 0 <? x)%F && (x <=? fofZ 0)%F
  | JStr s => bool_decide (s = EmptyString)
  | JArr l => bool_decide (length l = 0%nat)
  | JObj o => bool_decide (length o = 0%nat)
  end.

Definition metadata_or_empty (m : json F) : json F := if py_falsy m then JObj [] else m.

(** ** PrefillCostModel *)

Record PrefillCostModel := mkPrefillCostModel {
  pf_alpha : F; pf_beta : F; pf_gamma : F; pf_delta : F; pf_metadata : json F
}.

Definition PrefillCostModel_estimate_ms (m : PrefillCostModel) (prompt_len prefix_len : Z) : F :=
  let d := Z.max 0 (prompt_len - prefix_len) in
  (pf_alpha m * fofZ d * fofZ d + pf_beta m * fofZ d + pf_gamma m + pf_delta m * fofZ prefix_len)%F.

Definition PrefillCostModel_from_json (f : file F) : load PrefillCostModel :=
  data ← read_json f;
  alpha ← py_float (obj_get data "alpha");
  beta ← py_float (obj_get data "beta");
  gamma ← py_float (obj_get data "gamma");
  delta ← match obj_get data "delta" with
          | Some j => py_float (Some j)
          | None => Loaded (fofZ 0)
          end;
  Loaded (mkPrefillCostModel alpha beta gamma delta (get_metadata data)).

Definition PrefillCostModel_to_json (m : PrefillCostModel) : file F :=
  Parsed (JObj [("alpha", JNum (pf_alpha m)); ("beta", JNum (pf_beta m)); ("gamma", JNum (pf_gamma m));
                ("delta", JNum (pf_delta m)); ("fit_metadata", metadata_or_empty (pf_metadata m))]).

(** ** TBTCostModel *)

Record TBTCostModel := mkTBTCostModel { tb_a : F; tb_b : F; tb_c : F; tb_metadata : json F }.

Definition TBTCostModel_estimate_ms (m : TBTCostModel) (batch_size per_req_kv : Z) : F :=
  (tb_a m + tb_b m * fofZ batch_size + tb_c m * fofZ per_req_kv)%F.

Definition TBTCostModel_from_json (f : file F) : load TBTCostModel :=
  data ← read_json f;
  a ← py_float (obj_get data "a");
  b ← py_float (obj_get data "b");
  c ← py_float (obj_get data "c");
  Loaded (mkTBTCostModel a b c (get_metadata data)).

Definition TBTCostModel_to_json (m : TBTCostModel) : file F :=
  Parsed (JObj [("a", JNum (tb_a m)); ("b", JNum (tb_b m)); ("c", JNum (tb_c m));
                ("fit_metadata", metadata_or_empty (tb_metadata m))]).

(** ** HaloStepCostModel *)

Definition HALO_STEP_FORM_V1 : string := "halo_step_v1".
Definition HALO_STEP_FORM_SPLIT_V1 : string := "halo_step_split_v1".

Record HaloStepCostModel := mkHaloStepCostModel {
  theta_p1 : F; theta_p2 : F; theta_p3 : F; theta_d1 : F; theta_d2 : F; theta_c : F;
  theta_c_p : option F; theta_c_d : option F; hs_form : string; hs_metadata : json F
}.

Definition is_split (m : HaloStepCostModel) : bool := bool_decide (hs_form m = HALO_STEP_FORM_SPLIT_V1).

Definition prefill_const (m : HaloStepCostModel) : F :=
  match theta_c_p m with
  | Some c => if is_split m then c else theta_c m
  | None => theta_c m
  end.

Definition decode_const (m : HaloStepCostModel) : F :=
  match theta_c_d m with
  | Some c => if is_split m then c else theta_c m
  | None => theta_c m
  end.

Definition estimate_step_ms (m : HaloStepCostModel) (prefill_infos : list (Z * Z)) (decode_infos : list Z)
    : F :=
  let sum_n_sq := foldl (λ acc nr, fadd acc (fofZ (nr.1 * nr.1))) (fofZ 0) prefill_infos in
  let sum_nr := foldl (λ acc nr, fadd acc (fofZ (nr.1 * nr.2))) (fofZ 0) prefill_infos in
  let sum_n := foldl (λ acc nr, fadd acc (fofZ nr.1)) (fofZ 0) prefill_infos in
  let any_prefill := negb (bool_decide (length prefill_infos = 0%nat)) in
  let sum_r := foldl (λ acc r, fadd acc (fofZ r)) (fofZ 0) decode_infos in
  let bs_d := zlen decode_infos in
  let any_decode := bool_decide (0 < bs_d) in
  let prefill_part := (theta_p1 m * sum_n_sq + theta_p2 m * sum_nr + theta_p3 m * sum_n)%F in
  let decode_part := (theta_d1 m * sum_r + theta_d2 m * fofZ bs_d)%F in
  if is_split m then
    let const :=
      if any_prefill && any_decode then fadd (prefill_const m) (decode_const m)
      else if any_prefill then prefill_const m else decode_const m in
    (prefill_part + decode_part + const)%F
  else (prefill_part + decode_part + theta_c m)%F.

Definition estimate_solo_prefill_total_ms (m : HaloStepCostModel) (n r : Z) : F :=
  (theta_p1 m * fofZ n * fofZ n + theta_p2 m * fofZ n * fofZ r + theta_p3 m * fofZ n + prefill_const m)%F.

Definition estimate_solo_tbt_ms (m : HaloStepCostModel) (r : Z) : F :=
  (theta_d1 m * fofZ r + theta_d2 m * fofZ 1 + decode_const m)%F.

Definition HaloStepCostModel_from_json (f : file F) : load HaloStepCostModel :=
  data ← read_json f;
  match obj_get data "form" with
  | Some (JStr form) =>
      if bool_decide (form = HALO_STEP_FORM_SPLIT_V1) then
        theta_c_p ← py_float (obj_get data "theta_c_p");
        theta_c_d ← py_float (obj_get data "theta_c_d");
        p1 ← py_float (obj_get data "theta_p1");
        p2 ← py_float (obj_get data "theta_p2");
        p3 ← py_float (obj_get data "theta_p3");
        d1 ← py_float (obj_get data "theta_d1");
        d2 ← py_float (obj_get data "theta_d2");
        Loaded (mkHaloStepCostModel p1 p2 p3 d1 d2 theta_c_d (Some theta_c_p) (Some theta_c_d) form
                  (get_metadata data))
      else if bool_decide (form = HALO_STEP_FORM_V1) then
        p1 ← py_float (obj_get data "theta_p1");
        p2 ← py_float (obj_get data "theta_p2");
        p3 ← py_float (obj_get data "theta_p3");
        d1 ← py_float (obj_get data "theta_d1");
        d2 ← py_float (obj_get data "theta_d2");
        c ← py_float (obj_get data "theta_c");
        Loaded (mkHaloStepCostModel p1 p2 p3 d1 d2 c None None form (get_metadata data))
      else CostModelLoadError
  | _ => CostModelLoadError
  end.

Definition HaloStepCostModel_to_json (m : HaloStepCostModel) : file F :=
  Parsed (JObj (
    if is_split m then
      [("form", JStr HALO_STEP_FORM_SPLIT_V1); ("theta_p1", JNum (theta_p1 m)); ("theta_p2", JNum (theta_p2 m));
       ("theta_p3", JNum (theta_p3 m)); ("theta_c_p", JNum (prefill_const m)); ("theta_d1", JNum (theta_d1 m));
       ("theta_d2", JNum (theta_d2 m)); ("theta_c_d", JNum (decode_const m));
       ("fit_metadata", metadata_or_empty (hs_metadata m))]
    else
      [("form", JStr HALO_STEP_FORM_V1); ("theta_p1", JNum (theta_p1 m)); ("theta_p2", JNum (theta_p2 m));
       ("theta_p3", JNum (theta_p3 m)); ("theta_d1", JNum (theta_d1 m)); ("theta_d2", JNum (theta_d2 m));
       ("theta_c", JNum (theta_c m)); ("fit_metadata", metadata_or_empty (hs_metadata m))])).

(** ** Lenient loaders *)

(** [path] is absent or empty, or names a file. *)
Definition try_load {M} (from_json : file F → load M) (path : option string) (fs : string → file F)
    : option M :=
  match path with
  | None => None
  | Some p =>
      if bool_decide (p = EmptyString) then None
      else match from_json (fs p) with Loaded m => Some m | CostModelLoadError => None end
  end.

Definition try_load_prefill_cost_model := try_load PrefillCostModel_from_json.
Definition try_load_tbt_cost_model := try_load TBTCostModel_from_json.
Definition try_load_halo_step_cost_model := try_load HaloStepCostModel_from_json.

End models.

Arguments PrefillCostModel F : clear implicits.
Arguments TBTCostModel F : clear implicits.
Arguments HaloStepCostModel F : clear implicits.

(** ** Round trip through JSON *)

Section roundtrip.
Context {F : Type} `{PyNum F} (float_str : string → option F).

Lemma prefill_roundtrip (m : PrefillCostModel F) :
  PrefillCostModel_from_json float_str (PrefillCostModel_to_json m)
  = Loaded (mkPrefillCostModel (pf_alpha m) (pf_beta m) (pf_gamma m) (pf_delta m)
              (metadata_or_empty (pf_metadata m))).
Proof. reflexivity. Qed.

Lemma tbt_roundtrip (m : TBTCostModel F) :
  TBTCostModel_from_json float_str (TBTCostModel_to_json m)
  = Loaded (mkTBTCostModel (tb_a m) (tb_b m) (tb_c m) (metadata_or_empty (tb_metadata m))).
Proof. reflexivity. Qed.

Lemma halo_roundtrip (m : HaloStepCostModel F) :
  HaloStepCostModel_from_json float_str (HaloStepCostModel_to_json m)
  = Loaded (
      if is_split m then
        mkHaloStepCostModel (theta_p1 m) (theta_p2 m) (theta_p3 m) (theta_d1 m) (theta_d2 m)
          (decode_const m) (Some (prefill_const m)) (Some (decode_const m)) HALO_STEP_FORM_SPLIT_V1
          (metadata_or_empty (hs_metadata m))
      else
        mkHaloStepCostModel (theta_p1 m) (theta_p2 m) (theta_p3 m) (theta_d1 m) (theta_d2 m)
          (theta_c m) None None HALO_STEP_FORM_V1 (metadata_or_empty (hs_metadata m))).
Proof. unfold HaloStepCostModel_to_json. destruct (is_split m); reflexivity. Qed.

Lemma const_unified (m : HaloStepCostModel F) :
  is_split m = false → prefill_const m = theta_c m ∧ decode_const m = theta_c m.
Proof. unfold prefill_const, decode_const. intros ->. by destruct (theta_c_p m), (theta_c_d m). Qed.

(** Writing any of the three cost models and loading the file gives a model with the same
    estimates on every input: prefill, TBT, and for the Halo step model, unified or split, the
    batched estimate and both single-request estimates; metadata survives up to the empty value. *)
Theorem cost_model_roundtrip (pm : PrefillCostModel F) (tm : TBTCostModel F) (hm : HaloStepCostModel F) :
  ∃ pm' tm' hm',
    PrefillCostModel_from_json float_str (PrefillCostModel_to_json pm) = Loaded pm'
    ∧ TBTCostModel_from_json float_str (TBTCostModel_to_json tm) = Loaded tm'
    ∧ HaloStepCostModel_from_json float_str (HaloStepCostModel_to_json hm) = Loaded hm'
    ∧ (∀ p x, PrefillCostModel_estimate_ms pm' p x = PrefillCostModel_estimate_ms pm p x)
    ∧ (∀ b k, TBTCostModel_estimate_ms tm' b k = TBTCostModel_estimate_ms tm b k)
    ∧ (∀ ps ds, estimate_step_ms hm' ps ds = estimate_step_ms hm ps ds)
    ∧ (∀ n r, estimate_solo_prefill_total_ms hm' n r = estimate_solo_prefill_total_ms hm n r)
    ∧ (∀ r, estimate_solo_tbt_ms hm' r = estimate_solo_tbt_ms hm r)
    ∧ hs_metadata hm' = metadata_or_empty (hs_metadata hm)
    ∧ is_split hm' = is_split hm.
Proof.
  eexists _, _, _. split_and!; [apply prefill_roundtrip|apply tbt_roundtrip|apply halo_roundtrip|..];
    try done; unfold estimate_step_ms, estimate_solo_prefill_total_ms, estimate_solo_tbt_ms;
    destruct (is_split hm) eqn:Hs; try done;
    destruct (const_unified hm Hs) as [Hp Hd]; intros; rewrite ?Hp, ?Hd; done.
Qed.

End roundtrip.

(** ** Exact estimates *)

Section exact.
Implicit Types (m : HaloStepCostModel Qc) (ps : list (Z * Z)) (ds : list Z).

Lemma estimate_step_exact m ps ds :
  estimate_step_ms m ps ds
  = (theta_p1 m * qsum (λ nr, Qc_ofZ (nr.1 * nr.1)) ps + theta_p2 m * qsum (λ nr, Qc_ofZ (nr.1 * nr.2)) ps
     + theta_p3 m * qsum (λ nr, Qc_ofZ nr.1) ps
     + (theta_d1 m * qsum Qc_ofZ ds + theta_d2 m * Qc_ofZ (zlen ds))
     + if is_split m then
         match ps, ds with
         | [], _ => decode_const m
         | _, [] => prefill_const m
         | _, _ => prefill_const m + decode_const m
         end
       else theta_c m)%Qc.
Proof.
  unfold estimate_step_ms. simpl. rewrite !foldl_qsum, Qc_ofZ_0, !Qcplus_0_l.
  destruct (is_split m); [|done]. by destruct ps, ds.
Qed.

(** The single-request estimates are the batched estimate of the one-request step, as their
    documentation promises, in unified and in split form. *)
Theorem solo_is_singleton_step m n r :
  estimate_solo_prefill_total_ms m n r = estimate_step_ms m [(n, r)] []
  ∧ estimate_solo_tbt_ms m r = estimate_step_ms m [] [r].
Proof.
  rewrite !estimate_step_exact.
  unfold estimate_solo_prefill_total_ms, estimate_solo_tbt_ms. simpl. rewrite <- !Qc_ofZ_mul.
  change (zlen [r]) with 1. change (zlen (@nil Z)) with 0. rewrite Qc_ofZ_0, Qc_ofZ_1.
  destruct (is_split m) eqn:Hs; [split; ring|]. destruct (const_unified m Hs) as [-> ->]. split; ring.
Qed.

(** The coefficients of a physically meaningful fit. *)
Definition nonneg_coefficients m : Prop :=
  (0 <= theta_p1 m)%Qc ∧ (0 <= theta_p2 m)%Qc ∧ (0 <= theta_p3 m)%Qc ∧ (0 <= theta_d1 m)%Qc
  ∧ (0 <= theta_d2 m)%Qc ∧ (0 <= prefill_const m)%Qc ∧ (0 <= decode_const m)%Qc.

Definition nonneg_batch (ps : list (Z * Z)) (ds : list Z) : Prop :=
  Forall (λ nr, 0 ≤ nr.1 ∧ 0 ≤ nr.2) ps ∧ Forall (λ r, 0 ≤ r) ds.

Lemma step_const_monotone m ps ds ps' ds' :
  nonneg_coefficients m → ps ⊆+ ps' → ds ⊆+ ds' → ps ≠ [] ∨ ds ≠ [] →
  (match ps, ds with
   | [], _ => decode_const m | _, [] => prefill_const m | _, _ => prefill_const m + decode_const m
   end <=
   match ps', ds' with
   | [], _ => decode_const m | _, [] => prefill_const m | _, _ => prefill_const m + decode_const m
   end)%Qc.
Proof.
  intros (_ & _ & _ & _ & _ & Hp & Hd) Hps%submseteq_length Hds%submseteq_length Hne.
  destruct ps, ps', ds, ds'; simpl in *; try lia; try (destruct Hne; done); auto with qc.
Qed.

Lemma step_mono m ps ds ps' ds' :
  nonneg_coefficients m → nonneg_batch ps' ds' → ps ⊆+ ps' → ds ⊆+ ds' → ps ≠ [] ∨ ds ≠ [] →
  (estimate_step_ms m ps ds <= estimate_step_ms m ps' ds')%Qc.
Proof.
  intros Hm [Hps' Hds'] Hps Hds Hne. rewrite !estimate_step_exact.
  pose proof (step_const_monotone m _ _ _ _ Hm Hps Hds Hne) as Hc.
  destruct Hm as (? & ? & ? & ? & ? & _ & _).
  repeat apply Qcplus_le_compat; try (apply Qc_mul_le_l; [done|]).
  1-4: apply qsum_submseteq; [|done].
  1-3: eapply Forall_impl; [exact Hps'|]; intros [n r] [? ?]; apply Qc_ofZ_nonneg; simpl in *; nia.
  - eapply Forall_impl; [exact Hds'|]. intros r ?. by apply Qc_ofZ_nonneg.
  - apply Qc_ofZ_le. apply submseteq_length in Hds. unfold zlen. lia.
  - destruct (is_split m); [done|apply Qcle_refl].
Qed.

Lemma step_nonneg m ps ds :
  nonneg_coefficients m → nonneg_batch ps ds → is_split m = true ∨ (0 <= theta_c m)%Qc →
  (0 <= estimate_step_ms m ps ds)%Qc.
Proof.
  intros (? & ? & ? & ? & ? & Hp & Hd) [Hps Hds] Hc. rewrite estimate_step_exact.
  repeat apply Qc_add_nonneg; try (apply Qc_mul_nonneg; [done|]).
  1-4: apply qsum_nonneg.
  1-3: eapply Forall_impl; [exact Hps|]; intros [n r] [? ?]; apply Qc_ofZ_nonneg; simpl in *; nia.
  - eapply Forall_impl; [exact Hds|]. intros r ?. by apply Qc_ofZ_nonneg.
  - apply Qc_ofZ_nonneg. unfold zlen. lia.
  - destruct (is_split m) eqn:Hs.
    + destruct ps, ds; auto with qc.
    + destruct Hc as [?|Hc]; done.
Qed.

(** With non-negative coefficients, adding requests to a non-empty step, on the prefill or the
    decode side, never lowers its estimated latency, in unified and in split form.  (For the empty
    step this fails: its estimate is the decode constant.) *)
Theorem step_cost_monotone m ps ds ps' ds'
    (Hm : nonneg_coefficients m) (Hb : nonneg_batch ps' ds') (Hps : ps ⊆+ ps') (Hds : ds ⊆+ ds')
    (Hne : ps ≠ [] ∨ ds ≠ []) :
  (estimate_step_ms m ps ds <= estimate_step_ms m ps' ds')%Qc.
Proof. by apply step_mono. Qed.

End exact.

Definition demo_model : HaloStepCostModel Qc :=
  mkHaloStepCostModel 0%Qc 0%Qc 1%Qc 0%Qc 1%Qc 1%Qc (Some 1%Qc) (Some 1%Qc) HALO_STEP_FORM_SPLIT_V1 JNull.

Lemma demo_model_nonneg : nonneg_coefficients demo_model.
Proof. repeat split; discriminate. Qed.

Lemma step_cost_monotone_witness :
  Qcle (estimate_step_ms demo_model [(3, 2)] []) (estimate_step_ms demo_model [(5, 1); (3, 2)] [7]).
Proof.
  apply (step_cost_monotone demo_model [(3, 2)] [] [(5, 1); (3, 2)] [7]).
  - exact demo_model_nonneg.
  - split; repeat constructor; simpl; lia.
  - apply submseteq_cons. reflexivity.
  - apply submseteq_nil_l.
  - left. discriminate.
Defined.
