(* ===== verification/AdmissionControl.v ===== *)
(** * Request admission control

    Models [src/python/sglang/srt/managers/admission_control/tbt_tracker.py] ([TBTEwmaTracker]) and
    [src/python/sglang/srt/managers/admission_control/controller.py] ([AdmissionController] with its
    configuration, its three-stage [decide] and its ring buffer of recent decisions).  The tracker
    is the object the scheduler updates after each decode step; the controller holds a reference to
    it, so a run is a sequence of decisions and tracker updates on one controller state.

    The theorems: the moving average stays within the range of the accepted samples and is warm
    exactly after the configured number of them; a request is admitted exactly when every
    configured service-level objective that can be checked holds (or checking is off); the reason
    of a rejection is the first check that fires; the ring buffer holds the last 32 decisions. *)

From S2P Require Import Prelude PyFloat CostModel.

(** ** The TBT tracker *)

Section tracker.
Context {F : Type} `{PyNum F}.

Record TBTEwmaTracker := mkTBTEwmaTracker {
  t_alpha : F; t_warm_up_steps : Z; t_value : F; t_n : Z
}.

(** [__init__]; [None] is the ValueError. *)
Definition TBTEwmaTracker_init (alpha : F) (warm_up_steps : Z) : option TBTEwmaTracker :=
  if negb ((fofZ 0 <? alpha)%F && (alpha <=? fofZ 1)%F) then None
  else if bool_decide (warm_up_steps < 0) then None
  else Some (mkTBTEwmaTracker alpha warm_up_steps (fofZ 0) 0).

Definition tracker_update (t : TBTEwmaTracker) (latency_ms : F) : TBTEwmaTracker :=
  if (latency_ms <? fofZ 0)%F then t
  else
    let value :=
      if bool_decide (t_n t = 0) then latency_ms
      else (t_alpha t * latency_ms + (fofZ 1 - t_alpha t) * t_value t)%F in
    mkTBTEwmaTracker (t_alpha t) (t_warm_up_steps t) value (t_n t + 1).

Definition tracker_get (t : TBTEwmaTracker) : F := t_value t.
Definition tracker_is_warm (t : TBTEwmaTracker) : bool := bool_decide (t_warm_up_steps t ≤ t_n t).
Definition tracker_sample_count (t : TBTEwmaTracker) : Z := t_n t.
Definition tracker_reset (t : TBTEwmaTracker) : TBTEwmaTracker :=
  mkTBTEwmaTracker (t_alpha t) (t_warm_up_steps t) (fofZ 0) 0.

End tracker.
Arguments TBTEwmaTracker F : clear implicits.

(** ** The controller *)

(** The decision reasons; the source uses their names as strings. *)
Inductive reason :=
| REASON_ADMIT
| REASON_DISABLED
| REASON_TTFT_PREDICTED
| REASON_TTFT_RATIO
| REASON_TBT_PREDICTED
| REASON_TBT_RATIO
| REASON_TBT_REACTIVE.

#[export] Instance reason_eq_dec : EqDecision reason.
Proof. solve_decision. Defined.

Definition REJECT_REASONS : list reason :=
  [REASON_TTFT_PREDICTED; REASON_TTFT_RATIO; REASON_TBT_PREDICTED; REASON_TBT_RATIO; REASON_TBT_REACTIVE].

Section controller.
Context {F : Type} `{PyNum F}.

Record SchedulerSnapshot := mkSchedulerSnapshot {
  waiting_queue_predicted_prefill_ms : F;
  running_batch_size : Z;                (* the size of a batch: not negative *)
  running_batch_total_kv_tokens : Z;
  disaggregation_mode_is_null : bool
}.

Record AdmissionDecision := mkAdmissionDecision {
  d_admit : bool;
  d_reason : reason;
  d_predicted_ttft_ms : option F;
  d_predicted_tbt_ms : option F;
  d_solo_ttft_ms : option F;
  d_solo_tbt_ms : option F;
  d_queue_predicted_ms : option F;
  d_tbt_ewma_ms : option F;
  d_ttft_slo_ms : option F;
  d_tbt_slo_ms : option F;
  d_ttft_slo_ratio : option F;
  d_tbt_slo_ratio : option F;
  d_predicted_prefill_ms : F;
  d_dry_run_would_reject : bool
}.

Record AdmissionConfig := mkAdmissionConfig {
  ttft_slo_ms : option F;
  tbt_slo_ms : option F;
  ttft_slo_ratio : option F;
  tbt_slo_ratio : option F;
  tbt_ewma_alpha : F;
  tbt_warm_up_steps : Z;
  tbt_reactive_ratio : F;
  dry_run : bool
}.

(** [x is not None and x > bound]. *)
Definition above (x : option F) (bound : F) : bool :=
  match x with Some v => fgt v bound | None => false end.

Definition ttft_abs_enabled (c : AdmissionConfig) : bool := above (ttft_slo_ms c) (fofZ 0).
Definition ttft_ratio_enabled (c : AdmissionConfig) : bool := above (ttft_slo_ratio c) (fofZ 1).
Definition tbt_abs_enabled (c : AdmissionConfig) : bool := above (tbt_slo_ms c) (fofZ 0).
Definition tbt_ratio_enabled (c : AdmissionConfig) : bool := above (tbt_slo_ratio c) (fofZ 1).
Definition stage1_enabled (c : AdmissionConfig) : bool := ttft_abs_enabled c || ttft_ratio_enabled c.
Definition stage2_enabled (c : AdmissionConfig) : bool := tbt_abs_enabled c || tbt_ratio_enabled c.
Definition stage3_enabled (c : AdmissionConfig) : bool := tbt_abs_enabled c.
Definition any_stage_enabled (c : AdmissionConfig) : bool := stage1_enabled c || stage2_enabled c.

Definition RATIO_SOLO_FLOOR_MS : F := fofZ 1.
Definition recent_decisions_max : nat := 32.

Record AdmissionController := mkAdmissionController {
  ac_config : AdmissionConfig;
  ac_prefill_cost : option (PrefillCostModel F);
  ac_tbt_cost : option (TBTCostModel F);
  ac_tbt_tracker : option (TBTEwmaTracker F);
  ac_recent_decisions : list AdmissionDecision;
  ac_disagg_warned : bool
}.

Definition AdmissionController_init config prefill_cost tbt_cost tbt_tracker : AdmissionController :=
  mkAdmissionController config prefill_cost tbt_cost tbt_tracker [] false.

Definition is_active (s : AdmissionController) : bool := any_stage_enabled (ac_config s).

Definition recent_decisions (s : AdmissionController) : list AdmissionDecision := ac_recent_decisions s.

Definition record (s : AdmissionController) (d : AdmissionDecision) : AdmissionController :=
  let l := ac_recent_decisions s ++ [d] in
  let l := if bool_decide ((recent_decisions_max < length l)%nat)
           then drop (length l - recent_decisions_max) l else l in
  mkAdmissionController (ac_config s) (ac_prefill_cost s) (ac_tbt_cost s) (ac_tbt_tracker s) l
    (ac_disagg_warned s).

Definition set_disagg_warned (s : AdmissionController) : AdmissionController :=
  mkAdmissionController (ac_config s) (ac_prefill_cost s) (ac_tbt_cost s) (ac_tbt_tracker s)
    (ac_recent_decisions s) true.

Definition disabled_decision : AdmissionDecision :=
  mkAdmissionDecision true REASON_DISABLED None None None None None None None None None None (fofZ 0) false.

Definition reject_or_dryrun (c : AdmissionConfig) (r : reason) pred_ttft pred_tbt solo_ttft solo_tbt
    tbt_ewma queue_predicted predicted_prefill : AdmissionDecision :=
  mkAdmissionDecision (dry_run c) r pred_ttft pred_tbt solo_ttft solo_tbt queue_predicted tbt_ewma
    (ttft_slo_ms c) (tbt_slo_ms c) (ttft_slo_ratio c) (tbt_slo_ratio c) predicted_prefill (dry_run c).

(** [x > bound] of an optional bound that the guard before it has found present. *)
Definition exceeds (x : F) (bound : option F) : bool :=
  match bound with Some b => fgt x b | None => false end.

Definition decide (s : AdmissionController) (prompt_len prefix_match_len : Z) (snapshot : SchedulerSnapshot)
    : AdmissionController * AdmissionDecision :=
  let c := ac_config s in
  if negb (any_stage_enabled c) then (record s disabled_decision, disabled_decision)
  else if negb (disaggregation_mode_is_null snapshot) then
    (record (set_disagg_warned s) disabled_decision, disabled_decision)
  else
    let solo_ttft := (λ m, PrefillCostModel_estimate_ms m prompt_len prefix_match_len) <$> ac_prefill_cost s in
    let t_prefill := default (fofZ 0) solo_ttft in
    let t_queue := waiting_queue_predicted_prefill_ms snapshot in
    let pred_ttft := (t_queue + t_prefill)%F in
    let solo_tbt := (λ m, TBTCostModel_estimate_ms m 1 prompt_len) <$> ac_tbt_cost s in
    let pred_tbt := (λ m,
      let bs := running_batch_size snapshot + 1 in
      let total_kv := running_batch_total_kv_tokens snapshot + prompt_len in
      TBTCostModel_estimate_ms m bs (total_kv / bs)) <$> ac_tbt_cost s in
    let reject r ewma :=
      let d := reject_or_dryrun c r (Some pred_ttft) pred_tbt solo_ttft solo_tbt ewma (Some t_queue) t_prefill in
      (record s d, d) in
    if ttft_abs_enabled c && bool_decide (is_Some solo_ttft) && exceeds pred_ttft (ttft_slo_ms c)
    then reject REASON_TTFT_PREDICTED None
    else if ttft_ratio_enabled c
            && match solo_ttft with
               | Some solo => fgt solo RATIO_SOLO_FLOOR_MS && exceeds (pred_ttft / solo)%F (ttft_slo_ratio c)
               | None => false
               end
    then reject REASON_TTFT_RATIO None
    else if tbt_abs_enabled c
            && match pred_tbt with Some p => exceeds p (tbt_slo_ms c) | None => false end
    then reject REASON_TBT_PREDICTED None
    else if tbt_ratio_enabled c
            && match pred_tbt, solo_tbt with
               | Some p, Some solo => fgt solo RATIO_SOLO_FLOOR_MS && exceeds (p / solo)%F (tbt_slo_ratio c)
               | _, _ => false
               end
    then reject REASON_TBT_RATIO None
    else
      let ewma_ms := if stage3_enabled c then tracker_get <$> ac_tbt_tracker s else None in
      if stage3_enabled c
         && match ac_tbt_tracker s with
            | Some t => tracker_is_warm t
                        && exceeds (tracker_get t) ((λ b, fmul b (tbt_reactive_ratio c)) <$> tbt_slo_ms c)
            | None => false
            end
      then reject REASON_TBT_REACTIVE ewma_ms
      else
        let d := mkAdmissionDecision true REASON_ADMIT (Some pred_ttft) pred_tbt solo_ttft solo_tbt
                   (Some t_queue) ewma_ms (ttft_slo_ms c) (tbt_slo_ms c) (ttft_slo_ratio c) (tbt_slo_ratio c)
                   t_prefill false in
        (record s d, d).

(** The scheduler's use of the controller: decisions, and tracker updates after decode steps. *)
Inductive ac_event :=
| EDecide (prompt_len prefix_match_len : Z) (snapshot : SchedulerSnapshot)
| ETbt (latency_ms : F)
| EReset.

Definition with_tracker (f : TBTEwmaTracker F → TBTEwmaTracker F) (s : AdmissionController) :=
  mkAdmissionController (ac_config s) (ac_prefill_cost s) (ac_tbt_cost s) (f <$> ac_tbt_tracker s)
    (ac_recent_decisions s) (ac_disagg_warned s).

(** The state and the decisions of a run. *)
Fixpoint ac_run (s : AdmissionController) (es : list ac_event) : AdmissionController * list AdmissionDecision :=
  match es with
  | [] => (s, [])
  | EDecide p x sn :: es' =>
      let '(s1, d) := decide s p x sn in
      let '(s2, ds) := ac_run s1 es' in (s2, d :: ds)
  | ETbt l :: es' => ac_run (with_tracker (λ t, tracker_update t l) s) es'
  | EReset :: es' => ac_run (with_tracker tracker_reset s) es'
  end.

End controller.
Arguments SchedulerSnapshot F : clear implicits.
Arguments AdmissionDecision F : clear implicits.
Arguments AdmissionConfig F : clear implicits.
Arguments AdmissionController F : clear implicits.
Arguments ac_event F : clear implicits.

(** ** The moving average *)

Section ewma.
Implicit Types (t : TBTEwmaTracker Qc) (l : list Qc).

(** What the constructor guarantees and the updates keep, for the samples accepted so far. *)
Definition ewma_inv (alpha : Qc) (warm : Z) (seen : list Qc) (t : TBTEwmaTracker Qc) : Prop :=
  t_alpha t = alpha ∧ t_warm_up_steps t = warm ∧ t_n t = zlen seen
  ∧ ∀ lo hi, seen ≠ [] → Forall (λ v, (lo <= v <= hi)%Qc) seen → (lo <= t_value t <= hi)%Qc.

(** A convex combination stays in the range. *)
Lemma convex_bounds alpha x v lo hi :
  (0 < alpha)%Qc → (alpha <= 1)%Qc → (lo <= x <= hi)%Qc → (lo <= v <= hi)%Qc →
  (lo <= alpha * x + (1 - alpha) * v <= hi)%Qc.
Proof.
  intros H0%Qclt_le_weak H1 [Hx Hx'] [Hv Hv'].
  assert (0 <= 1 - alpha)%Qc by (by apply -> Qcle_minus_iff).
  split.
  - replace lo with (alpha * lo + (1 - alpha) * lo)%Qc at 1 by ring. auto with qc.
  - replace hi with (alpha * hi + (1 - alpha) * hi)%Qc at 1 by ring. auto with qc.
Qed.

Lemma ewma_update alpha warm seen t x :
  (0 < alpha)%Qc → (alpha <= 1)%Qc → ewma_inv alpha warm seen t →
  ewma_inv alpha warm (if bool_decide (0 <= x)%Qc then seen ++ [x] else seen) (tracker_update t x).
Proof.
  intros H0 H1 (Ha & Hw & Hn & Hb). unfold tracker_update.
  destruct (flt x (fofZ 0)) eqn:Hx.
  { apply Qc_flt in Hx. simpl in Hx. rewrite Qc_ofZ_0 in Hx.
    rewrite bool_decide_eq_false_2 by (by apply Qclt_not_le). done. }
  apply Qc_flt_false in Hx. simpl in Hx. rewrite Qc_ofZ_0 in Hx. rewrite bool_decide_eq_true_2 by done.
  split_and!; simpl; try done; [rewrite Hn; unfold zlen; rewrite length_app; simpl; lia|].
  intros lo hi _ [Hs Hr]%Forall_app. rewrite Forall_singleton in Hr.
  case_bool_decide as Hz; [done|]. rewrite Qc_ofZ_1, Ha. apply convex_bounds; try done.
  apply Hb; [|done]. intros ->. by rewrite Hn in Hz.
Qed.

Lemma ewma_fold alpha warm seen t l :
  (0 < alpha)%Qc → (alpha <= 1)%Qc → ewma_inv alpha warm seen t →
  ewma_inv alpha warm (seen ++ filter (λ x, 0 <= x)%Qc l) (foldl tracker_update t l).
Proof.
  intros H0 H1. revert seen t. induction l as [|x l IH]; intros seen t Ht; simpl.
  { by rewrite app_nil_r. }
  pose proof (ewma_update _ _ _ _ x H0 H1 Ht) as Hu. apply IH in Hu. case_bool_decide.
  - rewrite filter_cons_True by done. by rewrite <- app_assoc in Hu.
  - by rewrite filter_cons_False.
Qed.

Lemma tracker_init_spec alpha warm t :
  TBTEwmaTracker_init alpha warm = Some t →
  (0 < alpha)%Qc ∧ (alpha <= 1)%Qc ∧ 0 ≤ warm ∧ t = mkTBTEwmaTracker alpha warm (Qc_ofZ 0) 0.
Proof.
  unfold TBTEwmaTracker_init. intros Hi. destruct (flt _ alpha) eqn:Ha; [|done].
  destruct (fle alpha _) eqn:Hb; [|done]. simpl in Hi. case_bool_decide; [done|]. simplify_eq.
  apply Qc_flt in Ha. apply Qc_fle in Hb. simpl in *. rewrite Qc_ofZ_0 in Ha. rewrite Qc_ofZ_1 in Hb.
  split_and!; [done..|lia|done].
Qed.

(** After any updates of a constructed tracker, negative latencies are ignored, the sample count
    is the number of the others, the tracker is warm exactly when that number has reached the
    warm-up count, and the average lies in every interval that contains all accepted samples. *)
Theorem ewma_in_range alpha warm t l (Hinit : TBTEwmaTracker_init alpha warm = Some t) :
  let accepted := filter (λ x, 0 <= x)%Qc l in
  let t' := foldl tracker_update t l in
  tracker_sample_count t' = zlen accepted
  ∧ (tracker_is_warm t' = true ↔ warm ≤ zlen accepted)
  ∧ ∀ lo hi, accepted ≠ [] → Forall (λ v, (lo <= v <= hi)%Qc) accepted → (lo <= tracker_get t' <= hi)%Qc.
Proof.
  intros accepted t'. destruct (tracker_init_spec _ _ _ Hinit) as (H0 & H1 & _ & ->).
  destruct (ewma_fold alpha warm [] (mkTBTEwmaTracker alpha warm (Qc_ofZ 0) 0) l H0 H1)
    as (_ & Hw & Hn & Hb); [by repeat split|].
  split_and!; [exact Hn| |exact Hb]. unfold tracker_is_warm. rewrite bool_decide_eq_true.
  subst t'. by rewrite Hw, Hn.
Qed.

End ewma.

Lemma ewma_in_range_witness :
  let t := mkTBTEwmaTracker 1%Qc 2 (Qc_ofZ 0) 0 in
  let t' := foldl tracker_update t [Qc_ofZ 5; Qc_ofZ (-1); Qc_ofZ 9] in
  tracker_is_warm t' = true ∧ (Qc_ofZ 5 <= tracker_get t' <= Qc_ofZ 9)%Qc.
Proof.
  destruct (ewma_in_range 1%Qc 2 (mkTBTEwmaTracker 1%Qc 2 (Qc_ofZ 0) 0) [Qc_ofZ 5; Qc_ofZ (-1); Qc_ofZ 9]
              ltac:(reflexivity)) as (_ & Hw & Hb).
  split; [by apply Hw|]. apply Hb; [done|]. repeat constructor; discriminate.
Defined.

(** ** Decisions *)

Section decisions.
Implicit Types (s : AdmissionController Qc) (sn : SchedulerSnapshot Qc).

(** The predictions the objectives are about. *)
Definition predicted_tbt (tm : TBTCostModel Qc) (p : Z) sn : Qc :=
  TBTCostModel_estimate_ms tm (running_batch_size sn + 1)
    ((running_batch_total_kv_tokens sn + p) / (running_batch_size sn + 1)).

(** The service-level objectives a controller can check for a request. *)
Definition ttft_abs_holds s (p x : Z) sn : Prop := ∀ pm slo,
  ac_prefill_cost s = Some pm → ttft_slo_ms (ac_config s) = Some slo → (0 < slo)%Qc →
  (waiting_queue_predicted_prefill_ms sn + PrefillCostModel_estimate_ms pm p x <= slo)%Qc.

Definition ttft_ratio_holds s (p x : Z) sn : Prop := ∀ pm ratio,
  ac_prefill_cost s = Some pm → ttft_slo_ratio (ac_config s) = Some ratio → (1 < ratio)%Qc →
  (1 < PrefillCostModel_estimate_ms pm p x)%Qc →
  (waiting_queue_predicted_prefill_ms sn + PrefillCostModel_estimate_ms pm p x
   <= ratio * PrefillCostModel_estimate_ms pm p x)%Qc.

Definition tbt_abs_holds s (p : Z) sn : Prop := ∀ tm slo,
  ac_tbt_cost s = Some tm → tbt_slo_ms (ac_config s) = Some slo → (0 < slo)%Qc →
  (predicted_tbt tm p sn <= slo)%Qc.

Definition tbt_ratio_holds s (p : Z) sn : Prop := ∀ tm ratio,
  ac_tbt_cost s = Some tm → tbt_slo_ratio (ac_config s) = Some ratio → (1 < ratio)%Qc →
  (1 < TBTCostModel_estimate_ms tm 1 p)%Qc →
  (predicted_tbt tm p sn <= ratio * TBTCostModel_estimate_ms tm 1 p)%Qc.

Definition tbt_reactive_holds s : Prop := ∀ t slo,
  ac_tbt_tracker s = Some t → tbt_slo_ms (ac_config s) = Some slo → (0 < slo)%Qc →
  t_warm_up_steps t ≤ t_n t → (t_value t <= slo * tbt_reactive_ratio (ac_config s))%Qc.

Definition slos_hold s (p x : Z) sn : Prop :=
  ttft_abs_holds s p x sn ∧ ttft_ratio_holds s p x sn ∧ tbt_abs_holds s p sn ∧ tbt_ratio_holds s p sn
  ∧ tbt_reactive_holds s.

Lemma above_spec (o : option Qc) b : above o b = true ↔ ∃ v, o = Some v ∧ (b < v)%Qc.
Proof.
  unfold above, fgt. destruct o as [v|]; [|by split; [|intros (? & ? & ?)]].
  rewrite Qc_flt. split; [by eauto|]. intros (? & [= <-] & ?). done.
Qed.

Lemma exceeds_spec (x : Qc) o : exceeds x o = true ↔ ∃ v, o = Some v ∧ (v < x)%Qc.
Proof.
  unfold exceeds, fgt. destruct o as [v|]; [|by split; [|intros (? & ? & ?)]].
  rewrite Qc_flt. split; [by eauto|]. intros (? & [= <-] & ?). done.
Qed.

Lemma ratio_spec (pred solo : Qc) o :
  fgt solo RATIO_SOLO_FLOOR_MS && exceeds (pred / solo)%F o = true
  ↔ (1 < solo)%Qc ∧ ∃ v, o = Some v ∧ (v * solo < pred)%Qc.
Proof.
  rewrite andb_true_iff, exceeds_spec. unfold fgt, RATIO_SOLO_FLOOR_MS. rewrite Qc_flt. simpl. rewrite Qc_ofZ_1.
  assert (Hpos : (1 < solo)%Qc → (0 < solo)%Qc) by (intros ?; by apply (Qclt_trans _ 1)).
  split; intros (Hs & v & -> & Hv); (split; [done|exists v; split; [done|]]);
    by apply Qc_div_lt; try apply Hpos.
Qed.

(** Each check of [decide] fires exactly when its objective fails. *)
Lemma ttft_abs_check s p x sn :
  let solo := (λ m, PrefillCostModel_estimate_ms m p x) <$> ac_prefill_cost s in
  ttft_abs_enabled (ac_config s) && bool_decide (is_Some solo)
    && exceeds (waiting_queue_predicted_prefill_ms sn + default (fofZ 0) solo)%F (ttft_slo_ms (ac_config s))
  = false ↔ ttft_abs_holds s p x sn.
Proof.
  intros solo. subst solo. unfold ttft_abs_holds, ttft_abs_enabled.
  destruct (ac_prefill_cost s) as [pm|]; simpl; [|by rewrite andb_false_r].
  rewrite andb_true_r, <- not_true_iff_false, andb_true_iff, above_spec, exceeds_spec.
  rewrite Qc_ofZ_0. split.
  - intros Hn pm' slo [= <-] Hs Hpos. apply Qcnot_lt_le. intros Hlt. apply Hn. split; eauto.
  - intros Hh [(slo & Hs & Hpos) (slo' & Hs' & Hlt)]. simplify_eq.
    apply (Qclt_not_le _ _ Hlt). by apply Hh.
Qed.

Lemma ttft_ratio_check s p x sn :
  let solo := (λ m, PrefillCostModel_estimate_ms m p x) <$> ac_prefill_cost s in
  ttft_ratio_enabled (ac_config s)
    && match solo with
       | Some v => fgt v RATIO_SOLO_FLOOR_MS
                   && exceeds ((waiting_queue_predicted_prefill_ms sn + default (fofZ 0) solo) / v)%F
                        (ttft_slo_ratio (ac_config s))
       | None => false
       end
  = false ↔ ttft_ratio_holds s p x sn.
Proof.
  intros solo. subst solo. unfold ttft_ratio_holds, ttft_ratio_enabled.
  destruct (ac_prefill_cost s) as [pm|]; cbn [fmap option_fmap option_map default]; [|by rewrite andb_false_r].
  rewrite <- not_true_iff_false, andb_true_iff, above_spec, ratio_spec. simpl. rewrite Qc_ofZ_1. split.
  - intros Hn pm' r [= <-] Hs Hr Hsolo. apply Qcnot_lt_le. intros Hlt. apply Hn. split; eauto.
  - intros Hh [(r & Hs & Hr) (Hsolo & r' & Hs' & Hlt)]. simplify_eq.
    apply (Qclt_not_le _ _ Hlt). by apply Hh.
Qed.

Lemma tbt_abs_check s p sn :
  tbt_abs_enabled (ac_config s)
    && match (λ m, predicted_tbt m p sn) <$> ac_tbt_cost s with
       | Some v => exceeds v (tbt_slo_ms (ac_config s))
       | None => false
       end
  = false ↔ tbt_abs_holds s p sn.
Proof.
  unfold tbt_abs_holds, tbt_abs_enabled. destruct (ac_tbt_cost s) as [tm|]; simpl; [|by rewrite andb_false_r].
  rewrite <- not_true_iff_false, andb_true_iff, above_spec, exceeds_spec, Qc_ofZ_0. split.
  - intros Hn pm' slo [= <-] Hs Hpos. apply Qcnot_lt_le. intros Hlt. apply Hn. split; eauto.
  - intros Hh [(slo & Hs & Hpos) (slo' & Hs' & Hlt)]. simplify_eq.
    apply (Qclt_not_le _ _ Hlt). by apply Hh.
Qed.

Lemma tbt_ratio_check s p sn :
  tbt_ratio_enabled (ac_config s)
    && match (λ m, predicted_tbt m p sn) <$> ac_tbt_cost s,
             (λ m, TBTCostModel_estimate_ms m 1 p) <$> ac_tbt_cost s with
       | Some v, Some solo => fgt solo RATIO_SOLO_FLOOR_MS && exceeds (v / solo)%F (tbt_slo_ratio (ac_config s))
       | _, _ => false
       end
  = false ↔ tbt_ratio_holds s p sn.
Proof.
  unfold tbt_ratio_holds, tbt_ratio_enabled.
  destruct (ac_tbt_cost s) as [tm|]; cbn [fmap option_fmap option_map]; [|by rewrite andb_false_r].
  rewrite <- not_true_iff_false, andb_true_iff, above_spec, ratio_spec. simpl. rewrite Qc_ofZ_1. split.
  - intros Hn pm' r [= <-] Hs Hr Hsolo. apply Qcnot_lt_le. intros Hlt. apply Hn. split; eauto.
  - intros Hh [(r & Hs & Hr) (Hsolo & r' & Hs' & Hlt)]. simplify_eq.
    apply (Qclt_not_le _ _ Hlt). by apply Hh.
Qed.

Lemma tbt_reactive_check s :
  stage3_enabled (ac_config s)
    && match ac_tbt_tracker s with
       | Some t => tracker_is_warm t
                   && exceeds (tracker_get t)
                        ((λ b, fmul b (tbt_reactive_ratio (ac_config s))) <$> tbt_slo_ms (ac_config s))
       | None => false
       end
  = false ↔ tbt_reactive_holds s.
Proof.
  unfold tbt_reactive_holds, stage3_enabled, tbt_abs_enabled.
  destruct (ac_tbt_tracker s) as [t|]; simpl; [|by rewrite andb_false_r].
  rewrite <- not_true_iff_false, !andb_true_iff, above_spec, exceeds_spec, Qc_ofZ_0.
  unfold tracker_is_warm. rewrite bool_decide_eq_true. split.
  - intros Hn t' slo [= <-] Hs Hpos Hw. apply Qcnot_lt_le. intros Hlt. apply Hn.
    rewrite Hs. split; [by eauto|]. split; [done|]. by eexists.
  - intros Hh [(slo & Hs & Hpos) (Hw & v & Hv & Hlt)]. rewrite Hs in Hv. simpl in Hv. simplify_eq.
    apply (Qclt_not_le _ _ Hlt). by apply Hh.
Qed.

(** Without an enabled stage every objective holds vacuously. *)
Lemma disabled_slos_hold s p x sn : any_stage_enabled (ac_config s) = false → slos_hold s p x sn.
Proof.
  unfold any_stage_enabled, stage1_enabled, stage2_enabled.
  intros [[Ha Hb]%orb_false_iff [Hc Hd]%orb_false_iff]%orb_false_iff. unfold slos_hold.
  rewrite <- ttft_abs_check, <- ttft_ratio_check, <- tbt_abs_check, <- tbt_ratio_check, <- tbt_reactive_check.
  unfold stage3_enabled. by rewrite Ha, Hb, Hc, Hd.
Qed.

(** The five checks in order, and the reason of each. *)
Definition first_violation s p x sn (r : reason) : Prop :=
  match r with
  | REASON_TTFT_PREDICTED => ¬ ttft_abs_holds s p x sn
  | REASON_TTFT_RATIO => ttft_abs_holds s p x sn ∧ ¬ ttft_ratio_holds s p x sn
  | REASON_TBT_PREDICTED =>
      ttft_abs_holds s p x sn ∧ ttft_ratio_holds s p x sn ∧ ¬ tbt_abs_holds s p sn
  | REASON_TBT_RATIO =>
      ttft_abs_holds s p x sn ∧ ttft_ratio_holds s p x sn ∧ tbt_abs_holds s p sn
      ∧ ¬ tbt_ratio_holds s p sn
  | REASON_TBT_REACTIVE =>
      ttft_abs_holds s p x sn ∧ ttft_ratio_holds s p x sn ∧ tbt_abs_holds s p sn
      ∧ tbt_ratio_holds s p sn ∧ ¬ tbt_reactive_holds s
  | REASON_ADMIT => slos_hold s p x sn
  | REASON_DISABLED => False
  end.

Definition rejected_as s (r : reason) (d : AdmissionDecision Qc) : Prop :=
  r ∈ REJECT_REASONS ∧ d_admit d = dry_run (ac_config s) ∧ d_dry_run_would_reject d = dry_run (ac_config s).

Definition admitted_as (r : reason) (d : AdmissionDecision Qc) : Prop :=
  (r ∉ REJECT_REASONS) ∧ d_admit d = true ∧ d_dry_run_would_reject d = false.

Lemma false_iff_neg (b : bool) (P : Prop) : (b = false ↔ P) → b = true → ¬ P.
Proof. intros Hb -> HP. by apply Hb in HP. Qed.

Lemma decide_cases s p x sn :
  any_stage_enabled (ac_config s) = true → disaggregation_mode_is_null sn = true →
  let d := (decide s p x sn).2 in
  first_violation s p x sn (d_reason d)
  ∧ (rejected_as s (d_reason d) d ∨ d_reason d = REASON_ADMIT ∧ admitted_as (d_reason d) d).
Proof.
  intros Ha Hd. unfold decide. rewrite Ha, Hd. cbn [negb].
  pose proof (ttft_abs_check s p x sn) as H1. pose proof (ttft_ratio_check s p x sn) as H2.
  pose proof (tbt_abs_check s p sn) as H3. pose proof (tbt_ratio_check s p sn) as H4.
  pose proof (tbt_reactive_check s) as H5.
  unfold predicted_tbt in H3, H4. cbv zeta in H1, H2 |- *.
  repeat match goal with
  | H : ?b = false ↔ _ |- context [if ?b then _ else _] =>
      destruct b; [pose proof (false_iff_neg _ _ H eq_refl)|pose proof (proj1 H eq_refl)]; clear H
  end; cbn; unfold rejected_as, admitted_as, slos_hold; cbn; (split; [by split_and?|]).
  1-5: left; (split; [by apply (bool_decide_unpack _)|done]).
  right. split_and!; try done. by apply (bool_decide_unpack _).
Qed.

(** The decision on a request is exact.  The request is admitted if and only if the controller
    runs dry, the instance is disaggregated, or every configured objective that can be checked
    holds: predicted TTFT within its cap and within its ratio of the idle-server TTFT, predicted
    TBT likewise, and a warm moving average within its fraction of the TBT cap.  A dry run reports
    precisely the requests the policy would have rejected, and the recorded reason is the first
    violated objective in the documented order. *)
Theorem admission_exact s p x sn :
  let d := (decide s p x sn).2 in
  let off := disaggregation_mode_is_null sn = false in
  (d_admit d = true ↔ dry_run (ac_config s) = true ∨ off ∨ slos_hold s p x sn)
  ∧ (d_dry_run_would_reject d = true ↔ dry_run (ac_config s) = true ∧ ¬ off ∧ ¬ slos_hold s p x sn)
  ∧ (d_reason d ≠ REASON_DISABLED → first_violation s p x sn (d_reason d))
  ∧ (d_reason d = REASON_DISABLED ↔ off ∨ is_active s = false).
Proof.
  intros d off. subst d off. unfold is_active.
  destruct (any_stage_enabled (ac_config s)) eqn:Ha; last first.
  { pose proof (disabled_slos_hold s p x sn Ha). unfold decide. rewrite Ha. cbn. naive_solver. }
  destruct (disaggregation_mode_is_null sn) eqn:Hd; last first.
  { unfold decide. rewrite Ha, Hd. cbn. split_and!; naive_solver. }
  pose proof (decide_cases s p x sn Ha Hd) as [Hf Hc].
  destruct (decide s p x sn) as [s' d]. cbn in *. unfold rejected_as, admitted_as in Hc.
  assert (Hr : d_reason d ∈ REJECT_REASONS → ¬ slos_hold s p x sn).
  { unfold slos_hold. destruct (d_reason d); cbn in Hf; try tauto; by intros ?%(bool_decide_pack _). }
  destruct Hc as [(Hin & -> & ->)|(He & _ & -> & ->)].
  - specialize (Hr Hin). destruct (dry_run (ac_config s)); split_and!; try naive_solver;
      split; try naive_solver; intros He; rewrite He in Hin; by apply (bool_decide_pack _) in Hin.
  - rewrite He in Hf |- *. cbn in Hf. split_and!; naive_solver.
Qed.

End decisions.

(** ** Recent decisions *)

Section ring.
Context {F : Type} `{PyNum F}.
Implicit Types (s : AdmissionController F).

Definition last_n {A} (n : nat) (l : list A) : list A := drop (length l - n) l.

Lemma last_n_snoc {A} n (l : list A) x : last_n n (last_n n l ++ [x]) = last_n n (l ++ [x]).
Proof.
  unfold last_n. rewrite !length_app, length_drop. simpl.
  destruct (decide_rel (≤)%nat (length l) n) as [Hle|Hgt].
  { replace (length l - n)%nat with 0%nat by lia. rewrite drop_0. do 2 f_equal. lia. }
  rewrite !drop_app, !length_drop, drop_drop. f_equal; f_equal; lia.
Qed.

Lemma record_last_n s d :
  ac_recent_decisions (record s d) = last_n recent_decisions_max (ac_recent_decisions s ++ [d]).
Proof.
  unfold record, last_n. cbn. case_bool_decide; [done|].
  by replace (_ - _)%nat with 0%nat by lia.
Qed.

Lemma decide_records s p x sn :
  ac_recent_decisions (decide s p x sn).1
  = last_n recent_decisions_max (ac_recent_decisions s ++ [(decide s p x sn).2]).
Proof. unfold decide. repeat case_match; (apply record_last_n || apply (record_last_n (set_disagg_warned s))). Qed.

Lemma ac_run_records s es past :
  ac_recent_decisions s = last_n recent_decisions_max past →
  ac_recent_decisions (ac_run s es).1 = last_n recent_decisions_max (past ++ (ac_run s es).2).
Proof.
  revert s past. induction es as [|[p x sn|l|] es IH]; intros s past Hs; cbn; [by rewrite app_nil_r|..];
    try by apply IH.
  pose proof (decide_records s p x sn) as Hd. destruct (decide s p x sn) as [s1 d]. cbn in Hd.
  specialize (IH s1 (past ++ [d])). destruct (ac_run s1 es) as [s2 ds]. cbn in *.
  rewrite IH, <- app_assoc; [done|]. by rewrite Hd, Hs, last_n_snoc.
Qed.

(** In any run of decisions, decode-step reports and resets from a fresh controller, the buffer
    of recent decisions is the last 32 decisions taken, oldest first; it never grows beyond 32. *)
Theorem recent_decisions_window config pc tc tt es :
  let '(s, ds) := ac_run (AdmissionController_init config pc tc tt) es in
  recent_decisions s = last_n 32 ds ∧ (length (recent_decisions s) ≤ 32)%nat.
Proof.
  pose proof (ac_run_records (AdmissionController_init config pc tc tt) es [] eq_refl) as Hr.
  destruct (ac_run _ es) as [s ds]. unfold recent_decisions. cbn in Hr. rewrite Hr.
  split; [done|]. unfold last_n, recent_decisions_max. rewrite length_drop. lia.
Qed.

End ring.
