(* ===== verification/HaloRegistry.v ===== *)
(** * Jobs and the job registry

    Models [src/python/sglang/srt/managers/halo/job.py] ([JobState], [JobCallSpan], [Job]) and
    [src/python/sglang/srt/managers/halo/job_registry.py] ([JobRegistry]).  The registry owns the
    [Job] objects: it is the dict [jobs] from job ids to jobs, in insertion order, and the map from
    request ids to job ids; a method of a job is an update of its entry.  Every operation takes the
    reading [now] of the monotonic clock; the readings taken inside one operation are equal.

    The theorems: request ids and jobs own each other exactly, after any sequence of operations, so
    that no lookup raises and no garbage collection drops a job with requests in flight; with
    distinct request ids the counters are the number of requests in flight; a job left alone is
    collected. *)

From S2P Require Import Prelude PyFloat PyDict CostModel.
From stdpp Require Import strings.

Open Scope Z_scope.

(** ** Job *)

Inductive JobState := QUEUED | RUNNING | COMPLETE | REJECTED.

#[export] Instance JobState_eq_dec : EqDecision JobState.
Proof. solve_decision. Defined.

Definition JobState_value (s : JobState) : string :=
  match s with
  | QUEUED => "queued" | RUNNING => "running" | COMPLETE => "complete" | REJECTED => "rejected"
  end.

(** [deque(maxlen=n).append(x)]. *)
Definition deque_append {A} (maxlen : nat) (q : list A) (x : A) : list A :=
  drop (length q + 1 - maxlen) (q ++ [x]).

Section job.
Context {F : Type} `{PyNum F}.

Record JobCallSpan := mkJobCallSpan {
  sp_admitted_ts : F;
  sp_end_ts : F;
  sp_prompt_len : Z;
  sp_prefix_len : Z;
  sp_decoded_tokens : Z;
  sp_kv_len : Z
}.

Record Job := mkJob {
  job_id : string;
  j_slo : F;
  j_state : JobState;
  virtual_job_slowdown : F;
  total_request_number : Z;
  remaining_request_number : Z;
  slo_violation_count : Z;
  first_seen_ts : F;
  last_update_ts : F;
  request_ids : gset string;
  slowdown_history : list F;
  completed_call_spans : list JobCallSpan;
  total_calls_expected : option Z;
  stage_sequence : option (list string);
  expected_input_lens : option (list Z);
  expected_output_lens : option (list Z);
  dag : option (json F);
  from_program : bool;
  declared_max_concurrency : option Z;
  in_flight_count : Z
}.

(** The mutable fields of a job. *)
Definition job_update (j : Job) (st : JobState) (vjs : F) (total remaining violations : Z) (upd : F)
    (rids : gset string) (hist : list F) (spans : list JobCallSpan) (in_flight : Z) : Job :=
  mkJob (job_id j) (j_slo j) st vjs total remaining violations (first_seen_ts j) upd rids hist spans
    (total_calls_expected j) (stage_sequence j) (expected_input_lens j) (expected_output_lens j) (dag j)
    (from_program j) (declared_max_concurrency j) in_flight.

(** The constructor call of [register_program] followed by [__post_init__]. *)
Definition new_job (now : F) (id : string) (slo : F) (total_calls : option Z) (seq : option (list string))
    (ins outs : option (list Z)) (d : option (json F)) (cap : option Z) : Job :=
  mkJob id slo QUEUED slo 0 0 0 now now ∅ [] [] total_calls seq ins outs d true cap 0.

Definition on_request_admitted (now : F) (rid : string) (j : Job) : Job :=
  job_update j (if bool_decide (j_state j = COMPLETE) then RUNNING else j_state j)
    (virtual_job_slowdown j) (total_request_number j + 1) (remaining_request_number j + 1)
    (slo_violation_count j) now ({[rid]} ∪ request_ids j) (slowdown_history j) (completed_call_spans j)
    (in_flight_count j + 1).

Definition on_request_completed (now : F) (rid : string) (j : Job) : Job :=
  job_update j (j_state j) (virtual_job_slowdown j) (total_request_number j)
    (if bool_decide (0 < remaining_request_number j) then remaining_request_number j - 1
     else remaining_request_number j)
    (slo_violation_count j) now (request_ids j ∖ {[rid]}) (slowdown_history j) (completed_call_spans j)
    (if bool_decide (0 < in_flight_count j) then in_flight_count j - 1 else in_flight_count j).

Definition mark_done (now : F) (j : Job) : Job :=
  job_update j COMPLETE (virtual_job_slowdown j) (total_request_number j) (remaining_request_number j)
    (slo_violation_count j) now (request_ids j) (slowdown_history j) (completed_call_spans j)
    (in_flight_count j).

Definition record_vjs (now : F) (vjs : F) (j : Job) : Job :=
  job_update j
    (if bool_decide (j_state j = QUEUED) && negb (bool_decide (request_ids j = ∅)) then RUNNING else j_state j)
    vjs (total_request_number j) (remaining_request_number j)
    (if fgt vjs (j_slo j) then slo_violation_count j + 1 else slo_violation_count j)
    now (request_ids j) (deque_append 64 (slowdown_history j) vjs) (completed_call_spans j) (in_flight_count j).

Definition record_completed_call (now : F) (span : JobCallSpan) (j : Job) : Job :=
  job_update j (j_state j) (virtual_job_slowdown j) (total_request_number j) (remaining_request_number j)
    (slo_violation_count j) now (request_ids j) (slowdown_history j) (completed_call_spans j ++ [span])
    (in_flight_count j).

Definition is_idle (j : Job) : bool :=
  bool_decide (j_state j = QUEUED) && bool_decide (total_request_number j = 0) && bool_decide (request_ids j = ∅).

(** JSON values of optional fields; [None] is [null]. *)
Definition json_opt {A} (f : A → json F) (o : option A) : json F := match o with Some a => f a | None => JNull end.
Definition json_int (z : Z) : json F := JNum (fofZ z).

Definition Job_to_dict (j : Job) : dict (json F) :=
  [("job_id", JStr (job_id j));
   ("state", JStr (JobState_value (j_state j)));
   ("slo", JNum (j_slo j));
   ("virtual_job_slowdown", JNum (virtual_job_slowdown j));
   ("total_request_number", json_int (total_request_number j));
   ("remaining_request_number", json_int (remaining_request_number j));
   ("slo_violation_count", json_int (slo_violation_count j));
   ("first_seen_ts", JNum (first_seen_ts j));
   ("last_update_ts", JNum (last_update_ts j));
   ("from_program", JBool (from_program j));
   ("total_calls_expected", json_opt json_int (total_calls_expected j));
   ("stage_sequence", json_opt (λ l, JArr (JStr <$> l)) (stage_sequence j));
   ("expected_input_lens", json_opt (λ l, JArr (json_int <$> l)) (expected_input_lens j));
   ("expected_output_lens", json_opt (λ l, JArr (json_int <$> l)) (expected_output_lens j));
   ("dag", json_opt id (dag j));
   ("declared_max_concurrency", json_opt json_int (declared_max_concurrency j));
   ("in_flight_count", json_int (in_flight_count j))].

(** ** JobRegistry *)

Inductive halo_reason :=
| REASON_NO_JOB_ID
| REASON_PROGRAM_NOT_REGISTERED
| REASON_JOB_ID_ALREADY_REGISTERED
| REASON_HALO_DISABLED
| REASON_HALO_KV_CAP
| REASON_HALO_ADMISSION_PREDICTED
| REASON_HALO_CONCURRENCY_CAP.

Record JobAdmissionResult := mkJobAdmissionResult {
  jar_admitted : bool; jar_job : option Job; jar_reason : option halo_reason
}.

Record JobRegistry := mkJobRegistry {
  jobs : dict Job;
  rid_to_job : gmap string string
}.

Definition JobRegistry_init : JobRegistry := mkJobRegistry [] ∅.

(** Mutate the job object stored under [id]. *)
Definition update_job (id : string) (f : Job → Job) (r : JobRegistry) : JobRegistry :=
  match dict_get (jobs r) id with
  | Some j => mkJobRegistry (dict_set (jobs r) id (f j)) (rid_to_job r)
  | None => r
  end.

(** [None] is the ValueError; otherwise [newly_registered] and the job. *)
Definition registry_register_program (now : F) (id : string) (slo : F) (total_calls : option Z)
    (seq : option (list string)) (ins outs : option (list Z)) (d : option (json F)) (cap : option Z)
    (r : JobRegistry) : option (JobRegistry * bool * Job) :=
  if negb (ffinite slo) || (slo <=? fofZ 0)%F then None
  else
    match dict_get (jobs r) id with
    | Some existing => Some (r, false, existing)
    | None =>
        let job := new_job now id slo total_calls seq ins outs d cap in
        Some (mkJobRegistry (dict_set (jobs r) id job) (rid_to_job r), true, job)
    end.

(** [None] is the KeyError of [self._jobs[existing_for_rid]]. *)
Definition admit_to_job (now : F) (id : string) (rid : string) (r : JobRegistry)
    : option (JobRegistry * JobAdmissionResult) :=
  let claim :=
    match dict_get (jobs r) id with
    | None => Some (r, mkJobAdmissionResult false None (Some REASON_PROGRAM_NOT_REGISTERED))
    | Some job =>
        let job' := on_request_admitted now rid job in
        Some (mkJobRegistry (dict_set (jobs r) id job') (<[rid:=id]> (rid_to_job r)),
              mkJobAdmissionResult true (Some job') None)
    end in
  match rid_to_job r !! rid with
  | Some existing_for_rid =>
      if bool_decide (existing_for_rid ≠ id) then
        job ← dict_get (jobs r) existing_for_rid;
        Some (r, mkJobAdmissionResult true (Some job) None)
      else claim
  | None => claim
  end.

Definition record_completion (now : F) (rid : string) (r : JobRegistry) : JobRegistry * option Job :=
  match rid_to_job r !! rid with
  | None => (r, None)
  | Some id =>
      let r1 := mkJobRegistry (jobs r) (delete rid (rid_to_job r)) in
      match dict_get (jobs r1) id with
      | None => (r1, None)
      | Some job =>
          let job' := on_request_completed now rid job in
          (mkJobRegistry (dict_set (jobs r1) id job') (rid_to_job r1), Some job')
      end
  end.

Definition mark_job_done (now : F) (rid : string) (r : JobRegistry) : JobRegistry * option Job :=
  match rid_to_job r !! rid with
  | None => (r, None)
  | Some id =>
      match dict_get (jobs r) id with
      | None => (r, None)
      | Some job => (mkJobRegistry (dict_set (jobs r) id (mark_done now job)) (rid_to_job r),
                     Some (mark_done now job))
      end
  end.

Definition no_requests (j : Job) : bool := bool_decide (request_ids j = ∅).

Definition expired (now : F) (retain_seconds : F) (j : Job) : bool :=
  bool_decide (j_state j = COMPLETE) && no_requests j && fgt (now - last_update_ts j)%F retain_seconds.

Definition gc_completed (now : F) (retain_seconds : F) (r : JobRegistry) : JobRegistry * Z :=
  let to_drop := dict_keys (filter (λ kv, expired now retain_seconds kv.2 = true) (jobs r)) in
  (mkJobRegistry (foldl dict_pop (jobs r) to_drop) (rid_to_job r), zlen to_drop).

Definition quiescent (now : F) (quiescent_seconds : F) (j : Job) : bool :=
  (bool_decide (j_state j = QUEUED) || bool_decide (j_state j = RUNNING))
  && no_requests j && fgt (now - last_update_ts j)%F quiescent_seconds.

Definition gc_quiescent_jobs (now : F) (quiescent_seconds : F) (r : JobRegistry) : JobRegistry * list Job :=
  if (quiescent_seconds <=? fofZ 0)%F then (r, [])
  else
    let visit j := if quiescent now quiescent_seconds j then mark_done now j else j in
    (mkJobRegistry (prod_map id visit <$> jobs r) (rid_to_job r),
     mark_done now <$> filter (λ j, quiescent now quiescent_seconds j = true) (dict_values (jobs r))).

Definition idle_expired (now : F) (idle_seconds : F) (j : Job) : bool :=
  from_program j && is_idle j && fgt (now - first_seen_ts j)%F idle_seconds.

Definition gc_idle_programs (now : F) (idle_seconds : F) (r : JobRegistry) : JobRegistry * Z :=
  if (idle_seconds <=? fofZ 0)%F then (r, 0)
  else
    let to_drop := dict_keys (filter (λ kv, idle_expired now idle_seconds kv.2 = true) (jobs r)) in
    (mkJobRegistry (foldl dict_pop (jobs r) to_drop) (rid_to_job r), zlen to_drop).

Definition job_for_request (r : JobRegistry) (rid : string) : option Job :=
  id ← rid_to_job r !! rid; dict_get (jobs r) id.

Definition job_for_id (r : JobRegistry) (id : string) : option Job := dict_get (jobs r) id.

Definition active_jobs (r : JobRegistry) : list Job := filter (λ j, j_state j ≠ COMPLETE) (dict_values (jobs r)).

Definition all_jobs (r : JobRegistry) : list Job := dict_values (jobs r).

(** ** Runs *)

(** The registry operations the controller and the tracker perform. *)
Inductive reg_op :=
| RRegister (id : string) (slo : F) (total_calls : option Z) (seq : option (list string))
    (ins outs : option (list Z)) (d : option (json F)) (cap : option Z)
| RAdmit (id rid : string)
| RComplete (rid : string)
| RMarkDone (rid : string)
| RRecordVjs (id : string) (vjs : F)
| RRecordCall (id : string) (span : JobCallSpan)
| RGcCompleted (retain_seconds : F)
| RGcQuiescent (quiescent_seconds : F)
| RGcIdle (idle_seconds : F).

(** An operation at a clock reading; [None] when it raises. *)
Definition reg_step (r : JobRegistry) (o : reg_op) (now : F) : option JobRegistry :=
  match o with
  | RRegister id slo tc seq ins outs d cap =>
      (λ x, x.1.1) <$> registry_register_program now id slo tc seq ins outs d cap r
  | RAdmit id rid => fst <$> admit_to_job now id rid r
  | RComplete rid => Some (record_completion now rid r).1
  | RMarkDone rid => Some (mark_job_done now rid r).1
  | RRecordVjs id vjs => Some (update_job id (record_vjs now vjs) r)
  | RRecordCall id span => Some (update_job id (record_completed_call now span) r)
  | RGcCompleted retain => Some (gc_completed now retain r).1
  | RGcQuiescent q => Some (gc_quiescent_jobs now q r).1
  | RGcIdle idle => Some (gc_idle_programs now idle r).1
  end.

(** The states of a registry; a failing registration leaves it unchanged. *)
Inductive registry_reachable : JobRegistry → Prop :=
| reg_init : registry_reachable JobRegistry_init
| reg_next r o now r' : registry_reachable r → reg_step r o now = Some r' → registry_reachable r'.

End job.

Arguments JobCallSpan F : clear implicits.
Arguments Job F : clear implicits.
Arguments JobAdmissionResult F : clear implicits.
Arguments JobRegistry F : clear implicits.
Arguments reg_op F : clear implicits.

(** ** Ownership *)

Section ownership.
Context {F : Type} `{PyNum F}.
Implicit Types (r : JobRegistry F) (j : Job F).

(** The counters of a job. *)
Definition counters_ok j : Prop :=
  remaining_request_number j = in_flight_count j
  ∧ Z.of_nat (size (request_ids j)) ≤ in_flight_count j ≤ total_request_number j
  ∧ (length (slowdown_history j) ≤ 64)%nat.

Definition reg_inv r : Prop :=
  NoDup (dict_keys (jobs r))
  ∧ (∀ id j, dict_get (jobs r) id = Some j → job_id j = id ∧ counters_ok j)
  ∧ (∀ rid id, rid_to_job r !! rid = Some id ↔ ∃ j, dict_get (jobs r) id = Some j ∧ rid ∈ request_ids j).

(** An update that leaves identity and membership alone. *)
Definition keeps_requests (f : Job F → Job F) : Prop := ∀ j,
  job_id (f j) = job_id j ∧ request_ids (f j) = request_ids j ∧ (counters_ok j → counters_ok (f j)).

Lemma mark_done_keeps now : keeps_requests (mark_done now).
Proof. done. Qed.

Lemma record_completed_call_keeps now span : keeps_requests (record_completed_call now span).
Proof. done. Qed.

Lemma deque_append_length {A} n (q : list A) x : (length q ≤ n)%nat → (length (deque_append n q x) ≤ n)%nat.
Proof. intros Hq. unfold deque_append. rewrite length_drop, length_app. simpl. lia. Qed.

Lemma record_vjs_keeps now vjs : keeps_requests (record_vjs now vjs).
Proof. intros j. split_and!; [done..|]. intros (? & [? ?] & ?). split_and!; simpl; auto using deque_append_length. Qed.

Lemma on_request_admitted_counters now rid j : counters_ok j → counters_ok (on_request_admitted now rid j).
Proof.
  intros (Hr & Hs & Hh). split_and!; simpl; [lia| |lia|done].
  pose proof (size_union_alt {[rid]} (request_ids j)) as Hu. rewrite size_singleton in Hu.
  pose proof (subseteq_size (request_ids j ∖ {[rid]}) (request_ids j)) as Hd.
  specialize (Hd ltac:(set_solver)). lia.
Qed.

Lemma on_request_completed_counters now rid j :
  rid ∈ request_ids j → counters_ok j → counters_ok (on_request_completed now rid j).
Proof.
  intros Hin (Hr & Hs & Hh).
  assert (Hsz : (0 < size (request_ids j))%nat).
  { apply Nat.neq_0_lt_0, size_non_empty_iff. set_solver. }
  pose proof (size_difference (request_ids j) {[rid]}) as Hd. rewrite size_singleton in Hd.
  specialize (Hd ltac:(set_solver)).
  unfold on_request_completed, counters_ok. simpl.
  rewrite !bool_decide_eq_true_2 by lia. split_and!; [lia..|done].
Qed.

(** Replacing or adding the job of one id. *)
Lemma reg_inv_set r id j (m : gmap string string) :
  reg_inv r → job_id j = id → counters_ok j →
  (∀ rid, m !! rid = Some id ↔ rid ∈ request_ids j) →
  (∀ rid id', id ≠ id' → m !! rid = Some id' ↔ rid_to_job r !! rid = Some id') →
  reg_inv (mkJobRegistry (dict_set (jobs r) id j) m).
Proof.
  intros (Hnd & Hj & Hown) Hid Hc Hm Hm'. split_and!; simpl.
  - by apply dict_set_NoDup.
  - intros id' j'. rewrite dict_get_set. case_bool_decide; [|by auto]. by intros [= <-]; subst.
  - intros rid id'. rewrite dict_get_set. case_bool_decide as Hi.
    + subst id'. rewrite Hm. naive_solver.
    + by rewrite Hm', Hown.
Qed.

Lemma reg_inv_own r id j rid :
  reg_inv r → dict_get (jobs r) id = Some j → rid_to_job r !! rid = Some id ↔ rid ∈ request_ids j.
Proof. intros (_ & _ & Hown) Hg. rewrite Hown, Hg. naive_solver. Qed.

Lemma update_job_inv r id f : keeps_requests f → reg_inv r → reg_inv (update_job id f r).
Proof.
  intros Hf Hr. unfold update_job. destruct (dict_get (jobs r) id) as [j|] eqn:Hg; [|done].
  destruct (Hf j) as (Hid & Hrq & Hc). pose proof Hr as (_ & Hj & _). destruct (Hj _ _ Hg) as [<- Hcj].
  apply reg_inv_set; auto. intros rid. rewrite Hrq. by apply reg_inv_own.
Qed.

(** Dropping jobs without requests. *)
Lemma reg_inv_pops r ks :
  reg_inv r → (∀ id j, id ∈ ks → dict_get (jobs r) id = Some j → request_ids j = ∅) →
  reg_inv (mkJobRegistry (foldl dict_pop (jobs r) ks) (rid_to_job r)).
Proof.
  intros (Hnd & Hj & Hown) Hks. split_and!; simpl.
  - by apply dict_pops_NoDup.
  - intros id j. rewrite dict_get_pops. case_bool_decide; [done|by auto].
  - intros rid id. rewrite Hown, dict_get_pops. case_bool_decide as Hi; [|done].
    split; intros (j & Hg & Hin); [|done]. rewrite (Hks _ _ Hi Hg) in Hin. set_solver.
Qed.

(** Updating every job. *)
Lemma reg_inv_fmap r f :
  keeps_requests f → reg_inv r → reg_inv (mkJobRegistry (prod_map id f <$> jobs r) (rid_to_job r)).
Proof.
  intros Hf (Hnd & Hj & Hown). split_and!; simpl.
  - by rewrite dict_keys_fmap.
  - intros id j. rewrite dict_get_fmap. intros (j0 & Hg & ->)%fmap_Some.
    destruct (Hf j0) as (Hid & _ & Hc). destruct (Hj _ _ Hg). rewrite Hid. auto.
  - intros rid id. rewrite Hown, dict_get_fmap. split.
    + intros (j & Hg & Hin). exists (f j). rewrite Hg. split; [done|]. by destruct (Hf j) as (_ & -> & _).
    + intros (j & (j0 & Hg & ->)%fmap_Some & Hin). exists j0. by destruct (Hf j0) as (_ & <- & _).
Qed.

(** The ids a sweep collects carry the condition it tests. *)
Lemma collected_keys (d : dict (Job F)) (P : Job F → bool) id j :
  NoDup (dict_keys d) → id ∈ dict_keys (filter (λ kv, P kv.2 = true) d) → dict_get d id = Some j → P j = true.
Proof.
  intros Hnd ([id' j'] & -> & [HP Hin]%list_elem_of_filter)%list_elem_of_fmap Hg. simpl in *.
  apply (elem_dict_get d) in Hin; [|done]. by simplify_eq.
Qed.

Lemma register_program_inv now id slo tc seq ins outs d cap r r' b j :
  reg_inv r → registry_register_program now id slo tc seq ins outs d cap r = Some (r', b, j) → reg_inv r'.
Proof.
  intros Hr. unfold registry_register_program. case_match; [done|].
  destruct (dict_get (jobs r) id) as [j0|] eqn:Hg; intros; simplify_eq; [done|].
  apply reg_inv_set; try done.
  - by split_and!; simpl; rewrite ?size_empty; try lia.
  - intros rid. destruct Hr as (_ & _ & Hown). rewrite Hown, Hg. set_solver.
Qed.

Lemma admit_to_job_inv now id rid r r' res :
  reg_inv r → admit_to_job now id rid r = Some (r', res) → reg_inv r'.
Proof.
  intros Hr. unfold admit_to_job. intros Ha.
  assert (Hcl : ∀ j, dict_get (jobs r) id = Some j → (rid_to_job r !! rid = None ∨ rid_to_job r !! rid = Some id) →
    reg_inv (mkJobRegistry (dict_set (jobs r) id (on_request_admitted now rid j)) (<[rid:=id]> (rid_to_job r)))).
  { intros j Hg Hm. pose proof Hr as (_ & Hj & _). destruct (Hj _ _ Hg) as [<- Hcj].
    apply reg_inv_set; auto using on_request_admitted_counters.
    - intros rid'. simpl. rewrite lookup_insert_Some, elem_of_union, elem_of_singleton.
      rewrite (reg_inv_own r (job_id j) j rid' Hr Hg).
      destruct (decide (rid = rid')); naive_solver.
    - intros rid' id' Hne. rewrite lookup_insert_Some. destruct (decide (rid = rid')); naive_solver. }
  destruct (rid_to_job r !! rid) as [id0|] eqn:Hm.
  - case_bool_decide as Hne.
    + destruct (dict_get (jobs r) id0); simpl in Ha; by simplify_eq.
    + subst id0. destruct (dict_get (jobs r) id) eqn:Hg; simplify_eq; auto.
  - destruct (dict_get (jobs r) id) eqn:Hg; simplify_eq; auto.
Qed.

Lemma record_completion_inv now rid r : reg_inv r → reg_inv (record_completion now rid r).1.
Proof.
  intros Hr. unfold record_completion. destruct (rid_to_job r !! rid) as [id|] eqn:Hm; [|done].
  pose proof Hr as (_ & Hj & Hown). pose proof (proj1 (Hown _ _) Hm) as (j & Hg & Hin). simpl. rewrite Hg.
  destruct (Hj _ _ Hg) as [<- Hcj]. simpl.
  apply (reg_inv_set r); auto using on_request_completed_counters.
  - intros rid'. simpl. rewrite lookup_delete_Some, elem_of_difference, elem_of_singleton.
    rewrite (reg_inv_own r (job_id j) j rid' Hr Hg). naive_solver.
  - intros rid' id' Hne. rewrite lookup_delete_Some. naive_solver.
Qed.

Lemma mark_job_done_inv now rid r : reg_inv r → reg_inv (mark_job_done now rid r).1.
Proof.
  intros Hr. unfold mark_job_done. destruct (rid_to_job r !! rid) as [id|]; [|done].
  pose proof (update_job_inv r id _ (mark_done_keeps now) Hr) as Hu. unfold update_job in Hu.
  by destruct (dict_get (jobs r) id).
Qed.

Lemma no_requests_true j : no_requests j = true → request_ids j = ∅.
Proof. apply bool_decide_eq_true_1. Qed.

Lemma gc_completed_inv now q r : reg_inv r → reg_inv (gc_completed now q r).1.
Proof.
  intros Hr. apply reg_inv_pops; [done|]. intros id j Hin Hg. pose proof Hr as (Hnd & _ & _).
  apply (collected_keys (jobs r) (expired now q) id j Hnd) in Hin; [|done].
  apply andb_true_iff in Hin as [[_ Hin]%andb_true_iff _]. by apply no_requests_true.
Qed.

Lemma gc_idle_inv now q r : reg_inv r → reg_inv (gc_idle_programs now q r).1.
Proof.
  intros Hr. unfold gc_idle_programs. case_match; [done|].
  apply reg_inv_pops; [done|]. intros id j Hin Hg. pose proof Hr as (Hnd & _ & _).
  apply (collected_keys (jobs r) (idle_expired now q) id j Hnd) in Hin; [|done].
  apply andb_true_iff in Hin as [[_ Hin]%andb_true_iff _].
  apply andb_true_iff in Hin as [_ Hin]. by apply bool_decide_eq_true_1 in Hin.
Qed.

Lemma gc_quiescent_inv now q r : reg_inv r → reg_inv (gc_quiescent_jobs now q r).1.
Proof.
  intros Hr. unfold gc_quiescent_jobs. case_match; [done|]. apply reg_inv_fmap; [|done].
  intros j. case_match; [apply mark_done_keeps|done].
Qed.

Lemma reg_step_inv r o now r' : reg_inv r → reg_step r o now = Some r' → reg_inv r'.
Proof.
  intros Hr Hs. destruct o; simpl in Hs.
  - apply fmap_Some in Hs as ([[r1 b] j] & Hs & ->). by eapply register_program_inv.
  - apply fmap_Some in Hs as ([r1 res] & Hs & ->). by eapply admit_to_job_inv.
  - simplify_eq. by apply record_completion_inv.
  - simplify_eq. by apply mark_job_done_inv.
  - simplify_eq. apply update_job_inv; [apply record_vjs_keeps|done].
  - simplify_eq. apply update_job_inv; [apply record_completed_call_keeps|done].
  - simplify_eq. by apply gc_completed_inv.
  - simplify_eq. by apply gc_quiescent_inv.
  - simplify_eq. by apply gc_idle_inv.
Qed.

Lemma registry_inv r : registry_reachable r → reg_inv r.
Proof.
  induction 1 as [|r o now r' _ IH Hs]; [|by eapply reg_step_inv].
  split_and!; simpl; [constructor|done|]. intros rid id. split; [done|by intros (? & ? & ?)].
Qed.

(** A request that is mapped stays mapped to its job until its own completion. *)
Lemma mapping_stable r o now r' rid id :
  reg_step r o now = Some r' → rid_to_job r !! rid = Some id → o ≠ RComplete rid →
  rid_to_job r' !! rid = Some id.
Proof.
  intros Hs Hm Ho. destruct o; simpl in Hs.
  - apply fmap_Some in Hs as ([[r1 b] j] & Hs & ->). unfold registry_register_program in Hs.
    case_match; [done|]. case_match; by simplify_eq.
  - apply fmap_Some in Hs as ([r1 res] & Hs & ->). unfold admit_to_job in Hs.
    repeat (case_match || case_bool_decide); simplify_eq; simpl; try done.
    + destruct (dict_get (jobs r) s); by simplify_eq/=.
    + destruct (decide (rid0 = rid)) as [->|]; [by simplify_map_eq|by rewrite lookup_insert_ne].
    + destruct (decide (rid0 = rid)) as [->|]; [by simplify_map_eq|by rewrite lookup_insert_ne].
  - simplify_eq. unfold record_completion. repeat case_match; simpl; try done;
      rewrite lookup_delete_ne by naive_solver; done.
  - simplify_eq. unfold mark_job_done. by repeat case_match.
  - simplify_eq. unfold update_job. by case_match.
  - simplify_eq. unfold update_job. by case_match.
  - by simplify_eq.
  - simplify_eq. unfold gc_quiescent_jobs. by case_match.
  - simplify_eq. unfold gc_idle_programs. by case_match.
Qed.

(** Only a registration with an invalid objective raises. *)
Lemma reg_step_total r o now :
  reg_inv r → reg_step r o now = None →
  ∃ id slo tc seq ins outs d cap, o = RRegister id slo tc seq ins outs d cap
    ∧ negb (ffinite slo) || (slo <=? fofZ 0)%F = true.
Proof.
  intros (_ & _ & Hown) Hs. destruct o; simpl in Hs; try done.
  - apply fmap_None in Hs. unfold registry_register_program in Hs. case_match; [|by case_match].
    by eauto 15.
  - exfalso. apply fmap_None in Hs. unfold admit_to_job in Hs.
    destruct (rid_to_job r !! rid) as [id0|] eqn:Hm; [|by case_match].
    case_bool_decide; [|by case_match]. apply Hown in Hm as (j & Hg & _). by rewrite Hg in Hs.
Qed.

(** C29: In every reachable registry, a request id is mapped to a job id exactly when that job is
    registered and lists the request; job ids are distinct; no operation raises except the
    registration of a program with an invalid objective; and no operation, garbage collection
    included, unmaps a request or drops its job before the request completes. *)
Theorem registry_ownership r (Hr : registry_reachable r) :
  NoDup (dict_keys (jobs r))
  ∧ (∀ rid id, rid_to_job r !! rid = Some id ↔ ∃ j, job_for_id r id = Some j ∧ rid ∈ request_ids j)
  ∧ (∀ o now, reg_step r o now = None →
       ∃ id slo tc seq ins outs d cap, o = RRegister id slo tc seq ins outs d cap
         ∧ negb (ffinite slo) || (slo <=? fofZ 0)%F = true)
  ∧ (∀ o now r' rid j, reg_step r o now = Some r' → job_for_request r rid = Some j → o ≠ RComplete rid →
       ∃ j', job_for_request r' rid = Some j' ∧ job_id j' = job_id j ∧ rid ∈ request_ids j').
Proof.
  pose proof (registry_inv r Hr) as Hi. pose proof Hi as (Hnd & Hj & Hown).
  split_and!; [done|done|intros; by eapply reg_step_total|].
  intros o now r' rid j Hs Hq Ho. unfold job_for_request in *.
  destruct (rid_to_job r !! rid) as [id|] eqn:Hm; [simpl in Hq|done].
  rewrite (mapping_stable _ _ _ _ _ _ Hs Hm Ho). simpl.
  destruct (reg_step_inv _ _ _ _ Hi Hs) as (_ & Hj' & Hown').
  pose proof (mapping_stable _ _ _ _ _ _ Hs Hm Ho) as (j' & Hg' & Hin')%Hown'.
  exists j'. split_and!; [done| |done]. destruct (Hj' _ _ Hg'), (Hj _ _ Hq). congruence.
Qed.

(** Runs in which a request id is not reused while it is in flight. *)
Inductive fresh_reachable : JobRegistry F → Prop :=
| fresh_init : fresh_reachable JobRegistry_init
| fresh_next r o now r' :
    fresh_reachable r → reg_step r o now = Some r' →
    (∀ id rid, o = RAdmit id rid → rid_to_job r !! rid = None) → fresh_reachable r'.

Lemma fresh_is_reachable r : fresh_reachable r → registry_reachable r.
Proof. induction 1; [constructor|by econstructor]. Qed.

Definition exact_counts r : Prop :=
  ∀ id j, dict_get (jobs r) id = Some j → in_flight_count j = Z.of_nat (size (request_ids j)).

Lemma exact_counts_set r id j m :
  exact_counts r → in_flight_count j = Z.of_nat (size (request_ids j)) →
  exact_counts (mkJobRegistry (dict_set (jobs r) id j) m).
Proof.
  intros Hr Hj id' j'. simpl. rewrite dict_get_set. case_bool_decide; [by intros [= <-]|by apply Hr].
Qed.

Lemma exact_counts_update r id f :
  (∀ j, in_flight_count (f j) = in_flight_count j ∧ request_ids (f j) = request_ids j) →
  exact_counts r → exact_counts (update_job id f r).
Proof.
  intros Hf Hr. unfold update_job. destruct (dict_get (jobs r) id) as [j|] eqn:Hg; [|done].
  apply exact_counts_set; [done|]. destruct (Hf j) as [-> ->]. by eapply Hr.
Qed.

Lemma exact_counts_pops r ks m : exact_counts r → exact_counts (mkJobRegistry (foldl dict_pop (jobs r) ks) m).
Proof. intros Hr id j. simpl. rewrite dict_get_pops. case_bool_decide; [done|by apply Hr]. Qed.

Lemma exact_counts_admit now id rid r r' res :
  reg_inv r → exact_counts r → rid_to_job r !! rid = None →
  admit_to_job now id rid r = Some (r', res) → exact_counts r'.
Proof.
  intros Hi Hr Hm. unfold admit_to_job. rewrite Hm.
  destruct (dict_get (jobs r) id) as [j|] eqn:Hg; intros; simplify_eq; [|done].
  apply exact_counts_set; [done|]. simpl. rewrite (Hr _ _ Hg).
  assert (rid ∉ request_ids j). { rewrite <- (reg_inv_own r id j rid Hi Hg). by rewrite Hm. }
  rewrite size_union, size_singleton by set_solver. lia.
Qed.

Lemma exact_counts_complete now rid r :
  reg_inv r → exact_counts r → exact_counts (record_completion now rid r).1.
Proof.
  intros Hi Hr. unfold record_completion. destruct (rid_to_job r !! rid) as [id|] eqn:Hm; [|done].
  pose proof Hi as (_ & _ & Hown). apply Hown in Hm as (j & Hg & Hin). simpl. rewrite Hg. simpl.
  apply (exact_counts_set r); [done|]. simpl. pose proof (Hr _ _ Hg) as Hc.
  assert (size (request_ids j) ≠ 0%nat) by (apply size_non_empty_iff; set_solver).
  rewrite size_difference, size_singleton by set_solver. case_bool_decide; lia.
Qed.

Lemma exact_counts_step r o now r' :
  reg_inv r → exact_counts r → reg_step r o now = Some r' →
  (∀ id rid, o = RAdmit id rid → rid_to_job r !! rid = None) → exact_counts r'.
Proof.
  intros Hi Hr Hs Hfr. destruct o; simpl in Hs.
  - apply fmap_Some in Hs as ([[r1 b] j] & Hs & ->). unfold registry_register_program in Hs.
    case_match; [done|]. case_match; simplify_eq; [done|]. by apply exact_counts_set.
  - apply fmap_Some in Hs as ([r1 res] & Hs & ->). eapply exact_counts_admit; eauto.
  - simplify_eq. by apply exact_counts_complete.
  - simplify_eq. unfold mark_job_done. destruct (rid_to_job r !! rid) as [id|]; [|done].
    pose proof (exact_counts_update r id (mark_done now) (λ j, conj eq_refl eq_refl) Hr) as Hu.
    unfold update_job in Hu. by destruct (dict_get (jobs r) id).
  - simplify_eq. by apply exact_counts_update.
  - simplify_eq. by apply exact_counts_update.
  - simplify_eq. by apply exact_counts_pops.
  - simplify_eq. unfold gc_quiescent_jobs. case_match; [done|]. intros id j. simpl.
    rewrite dict_get_fmap. intros (j0 & Hg & ->)%fmap_Some. case_match; simpl; by eapply Hr.
  - simplify_eq. unfold gc_idle_programs. case_match; [done|]. by apply exact_counts_pops.
Qed.

(** When no request id is reused while in flight, the counters of every registered job are
    exact: the in-flight and the remaining count are the number of requests of the job that are
    mapped to it, and the history keeps at most 64 values. *)
Theorem registry_counters_exact r (Hr : fresh_reachable r) id j (Hj : job_for_id r id = Some j) :
  in_flight_count j = Z.of_nat (size (request_ids j))
  ∧ remaining_request_number j = in_flight_count j
  ∧ in_flight_count j ≤ total_request_number j
  ∧ (∀ rid, rid ∈ request_ids j ↔ rid_to_job r !! rid = Some id)
  ∧ (length (slowdown_history j) ≤ 64)%nat.
Proof.
  pose proof (registry_inv r (fresh_is_reachable r Hr)) as Hi.
  assert (exact_counts r) as Hc.
  { clear Hi Hj. induction Hr as [|r o now r' Hr IH Hs Hfr]; [done|].
    eapply exact_counts_step; eauto using registry_inv, fresh_is_reachable. }
  pose proof Hi as (_ & Hok & _). destruct (Hok _ _ Hj) as [_ (Hrem & [_ Htot] & Hlen)].
  split_and!; try done; [by eapply Hc|]. intros rid. symmetry. by apply reg_inv_own.
Qed.

(** A job whose requests have all finished and that has seen no activity for the quiescence
    timeout is marked complete by the next sweep, and the first collection after the retention
    time removes it from the registry. *)
Theorem quiescent_job_collected r (Hr : registry_reachable r) id j now1 now2 quiescent_s retain_s
    (Hj : job_for_id r id = Some j) (Hidle : request_ids j = ∅)
    (Hst : j_state j = QUEUED ∨ j_state j = RUNNING)
    (Hq : (quiescent_s <=? fofZ 0)%F = false)
    (H1 : fgt (now1 - last_update_ts j)%F quiescent_s = true)
    (H2 : fgt (now2 - now1)%F retain_s = true) :
  let r1 := (gc_quiescent_jobs now1 quiescent_s r).1 in
  let r2 := (gc_completed now2 retain_s r1).1 in
  job_for_id r1 id = Some (mark_done now1 j) ∧ job_for_id r2 id = None
  ∧ ∀ id' j', job_for_id r1 id' = Some j' → job_for_id r2 id' = None → request_ids j' = ∅.
Proof.
  intros r1 r2. unfold job_for_id in *.
  assert (Hi1 : reg_inv r1) by (by apply gc_quiescent_inv, registry_inv).
  assert (Hg1 : dict_get (jobs r1) id = Some (mark_done now1 j)).
  { subst r1. unfold gc_quiescent_jobs. rewrite Hq. simpl. rewrite dict_get_fmap, Hj. simpl.
    unfold quiescent, no_requests. rewrite H1, Hidle. destruct Hst as [-> | ->]; done. }
  subst r2. simpl. pose proof Hi1 as (Hnd & _ & _).
  split; [done|]. split.
  - rewrite dict_get_pops, bool_decide_eq_true_2; [done|]. apply list_elem_of_fmap.
    exists (id, mark_done now1 j). split; [done|]. apply list_elem_of_filter.
    split; [|by apply dict_get_elem]. simpl. unfold expired, no_requests. simpl. by rewrite H2, Hidle.
  - intros id' j' Hg'. rewrite dict_get_pops. case_bool_decide as Hin; [|by rewrite Hg']. intros _.
    apply (collected_keys (jobs r1) (expired now2 retain_s) id' j' Hnd) in Hin; [|done].
    apply andb_true_iff in Hin as [[_ Hin]%andb_true_iff _]. by apply no_requests_true.
Qed.

End ownership.

(** ** Sample runs *)

(** A run of operations at successive clock readings. *)
Definition reg_run {F} `{PyNum F} (ops : list (reg_op F * F)) : option (JobRegistry F) :=
  foldl (λ r o, r ≫= λ r, reg_step r o.1 o.2) (Some JobRegistry_init) ops.

Lemma run_reachable {F} `{PyNum F} ops (r : JobRegistry F) : reg_run ops = Some r → registry_reachable r.
Proof.
  unfold reg_run. revert r. induction ops as [|o ops IH] using rev_ind; simpl; intros r.
  - intros [= <-]. constructor.
  - rewrite foldl_app. simpl. intros (r0 & Hr0 & Hs)%bind_Some. eapply reg_next; eauto.
Qed.

Definition demo_registration : reg_op Qc := RRegister "J" (Qc_ofZ 2) None None None None None (Some 2).

Definition demo_ops : list (reg_op Qc * Qc) :=
  [(demo_registration, Qc_ofZ 1); (RAdmit "J" "r1", Qc_ofZ 2); (RComplete "r1", Qc_ofZ 3)].

Definition demo_busy : JobRegistry Qc := default JobRegistry_init (reg_run (take 2 demo_ops)).
Definition demo_idle : JobRegistry Qc := default JobRegistry_init (reg_run demo_ops).

Lemma demo_busy_reachable : registry_reachable demo_busy.
Proof. apply (run_reachable (take 2 demo_ops)). reflexivity. Qed.

Lemma demo_idle_reachable : registry_reachable demo_idle.
Proof. apply (run_reachable demo_ops). reflexivity. Qed.

Lemma demo_busy_fresh : fresh_reachable demo_busy.
Proof.
  eapply (fresh_next (default JobRegistry_init (reg_run (take 1 demo_ops))) (RAdmit "J" "r1") (Qc_ofZ 2)).
  - eapply (fresh_next JobRegistry_init demo_registration (Qc_ofZ 1)); [constructor|reflexivity|done].
  - reflexivity.
  - intros id rid [= <- <-]. reflexivity.
Qed.

Lemma registry_ownership_witness :
  ∃ j, job_for_request (gc_completed (Qc_ofZ 1000) (Qc_ofZ 5) demo_busy).1 "r1" = Some j ∧ job_id j = "J".
Proof.
  destruct (registry_ownership demo_busy demo_busy_reachable) as (_ & _ & _ & Hk).
  destruct (Hk (RGcCompleted (Qc_ofZ 5)) (Qc_ofZ 1000) (gc_completed (Qc_ofZ 1000) (Qc_ofZ 5) demo_busy).1
              "r1" (default (new_job (Qc_ofZ 0) "" (Qc_ofZ 0) None None None None None None)
                      (job_for_request demo_busy "r1")) eq_refl eq_refl ltac:(discriminate))
    as (j' & Hj & Hid & _).
  exists j'. split; [exact Hj|exact Hid].
Defined.

Definition demo_job : Job Qc :=
  default (new_job (Qc_ofZ 0) "" (Qc_ofZ 0) None None None None None None) (job_for_id demo_busy "J").

Lemma registry_counters_exact_witness :
  in_flight_count demo_job = Z.of_nat (size (request_ids demo_job)) ∧ in_flight_count demo_job = 1.
Proof.
  split; [|reflexivity].
  exact (proj1 (registry_counters_exact demo_busy demo_busy_fresh "J" demo_job eq_refl)).
Defined.

Lemma quiescent_job_collected_witness :
  job_for_id (gc_completed (Qc_ofZ 500) (Qc_ofZ 5) (gc_quiescent_jobs (Qc_ofZ 400) (Qc_ofZ 300) demo_idle).1).1 "J"
  = None.
Proof.
  refine (proj1 (proj2 (quiescent_job_collected demo_idle demo_idle_reachable "J"
    (default demo_job (job_for_id demo_idle "J"))
    (Qc_ofZ 400) (Qc_ofZ 500) (Qc_ofZ 300) (Qc_ofZ 5) _ _ _ _ _ _))); try reflexivity.
  left. reflexivity.
Defined.

(** A client that reuses a request id while the first request is in flight: the job admits both,
    the first completion removes the mapping, the second finds nothing, and the in-flight count
    stays at one forever; with a declared concurrency of one the job admits nothing any more. *)
Theorem duplicate_rid_leaks_in_flight :
  ∃ r j, reg_run [(demo_registration, Qc_ofZ 1); (RAdmit "J" "r1", Qc_ofZ 2); (RAdmit "J" "r1", Qc_ofZ 3);
                  (RComplete "r1", Qc_ofZ 4); (RComplete "r1", Qc_ofZ 5)] = Some r
         ∧ job_for_id r "J" = Some j ∧ request_ids j = ∅ ∧ in_flight_count j = 1.
Proof. eexists _, _. split; [reflexivity|]. split; [reflexivity|]. split; reflexivity. Qed.
