(* ===== verification/HaloTracker.v ===== *)
(** * Virtual job slowdown

    Models [src/python/sglang/srt/managers/halo/slowdown_tracker.py]: the snapshot of a request,
    the solo-time primitives, the job-lifetime slowdown [compute_job_vjs] with its merge of call
    spans into stages, and the periodic [sweep].  The tracker's registry is the one of HaloRegistry
    and is passed to [sweep] explicitly.

    The theorems: the merge partitions the calls into stages that are connected in time and
    separated from each other; a lone call that took its solo time has slowdown one; a sweep keeps
    the registry reachable and only touches the jobs it has snapshots of. *)

From S2P Require Import Prelude PyFloat PyDict CostModel HaloRegistry.

Section tracker.
Context {F : Type} `{PyNum F}.

Definition MIN_SOLO_MS : F := fofZ 1.

Record RequestExecutionInfo := mkRequestExecutionInfo {
  ri_rid : string;
  ri_job_id : option string;
  ri_prompt_len : Z;
  ri_prefix_len_at_admission : Z;
  ri_decoded_tokens_so_far : Z;
  ri_kv_len_now : Z;
  ri_elapsed_ms : F;
  ri_admitted_ts : F
}.

Record SlowdownTracker := mkSlowdownTracker {
  st_prefill_cost : option (PrefillCostModel F);
  st_tbt_cost : option (TBTCostModel F);
  st_step_cost : option (HaloStepCostModel F)
}.

Definition has_cost_model (t : SlowdownTracker) : bool :=
  bool_decide (is_Some (st_step_cost t)) || bool_decide (is_Some (st_prefill_cost t))
  || bool_decide (is_Some (st_tbt_cost t)).

Definition prefill_solo_ms (t : SlowdownTracker) (prompt_len prefix_len : Z) : F :=
  let n_new := Z.max 0 (prompt_len - prefix_len) in
  let r := Z.max 0 prefix_len in
  match st_step_cost t, st_prefill_cost t with
  | Some m, _ => estimate_solo_prefill_total_ms m n_new r
  | None, Some m => PrefillCostModel_estimate_ms m prompt_len prefix_len
  | None, None => fofZ 0
  end.

Definition decode_step_ms (t : SlowdownTracker) (kv_lens : list Z) : F :=
  let kvs := (λ k, Z.max 0 k) <$> kv_lens in
  if bool_decide (length kvs = 0%nat) then fofZ 0
  else
    match st_step_cost t, st_tbt_cost t with
    | Some m, _ => estimate_step_ms m [] kvs
    | None, Some m => TBTCostModel_estimate_ms m (zlen kvs) (foldr Z.add 0 kvs / zlen kvs)
    | None, None => fofZ 0
    end.

Definition span_from_info (i : RequestExecutionInfo) : JobCallSpan F :=
  mkJobCallSpan (ri_admitted_ts i)
    (ri_admitted_ts i + fmax (fofZ 0) (ri_elapsed_ms i) / fofZ 1000)%F
    (ri_prompt_len i) (ri_prefix_len_at_admission i)
    (Z.max 0 (ri_decoded_tokens_so_far i)) (Z.max 0 (ri_kv_len_now i)).

(** [sorted(spans, key=lambda s: s.admitted_ts)]: stable. *)
Definition not_after (s1 s2 : JobCallSpan F) : Prop := flt (sp_admitted_ts s2) (sp_admitted_ts s1) = false.
#[local] Instance not_after_dec : RelDecision not_after := λ s1 s2, bool_eq_dec _ _.

Definition order_spans (spans : list (JobCallSpan F)) : list (JobCallSpan F) := py_sort not_after spans.

(** The sweep over the ordered spans; [None] for [cur_end] is minus infinity. *)
Fixpoint merge_loop (ordered : list (JobCallSpan F)) (stages : list (list (JobCallSpan F)))
    (cur : list (JobCallSpan F)) (cur_end : option F) : list (list (JobCallSpan F)) :=
  match ordered with
  | [] => match cur with [] => stages | _ => stages ++ [cur] end
  | sp :: rest =>
      match cur, cur_end with
      | _ :: _, Some e =>
          if (sp_admitted_ts sp <=? e)%F
          then merge_loop rest stages (cur ++ [sp]) (Some (fmax e (sp_end_ts sp)))
          else merge_loop rest (stages ++ [cur]) [sp] (Some (sp_end_ts sp))
      | _ :: _, None => merge_loop rest (stages ++ [cur]) [sp] (Some (sp_end_ts sp))
      | [], _ => merge_loop rest stages [sp] (Some (sp_end_ts sp))
      end
  end.

Definition merge_stages (spans : list (JobCallSpan F)) : list (list (JobCallSpan F)) :=
  merge_loop (order_spans spans) [] [] None.

(** [max(f(s) for s in stage)] and [min(...)] of a non-empty stage. *)
Definition stage_max (f : JobCallSpan F → F) (stage : list (JobCallSpan F)) : F :=
  match stage with [] => fofZ 0 | s :: l => foldl (λ acc s, fmax acc (f s)) (f s) l end.
Definition stage_min (f : JobCallSpan F → F) (stage : list (JobCallSpan F)) : F :=
  match stage with [] => fofZ 0 | s :: l => foldl (λ acc s, fmin acc (f s)) (f s) l end.

Definition stage_actual_ms (stage : list (JobCallSpan F)) : F :=
  (fmax (fofZ 0) (stage_max sp_end_ts stage - stage_min sp_admitted_ts stage) * fofZ 1000)%F.

Definition call_solo (t : SlowdownTracker) (decode_step : F) (s : JobCallSpan F) : F :=
  (prefill_solo_ms t (sp_prompt_len s) (sp_prefix_len s) + fofZ (sp_decoded_tokens s) * decode_step)%F.

Definition stage_solo_ms (t : SlowdownTracker) (stage : list (JobCallSpan F)) : F :=
  let decode_step := decode_step_ms t (sp_kv_len <$> filter (λ s, 0 < sp_decoded_tokens s) stage) in
  foldl (λ acc s, if fgt (call_solo t decode_step s) acc then call_solo t decode_step s else acc) (fofZ 0) stage.

Definition compute_job_vjs (t : SlowdownTracker) (spans : list (JobCallSpan F)) (fallback_slo : F) : F :=
  if bool_decide (length spans = 0%nat) || negb (has_cost_model t) then fallback_slo
  else
    let stages := merge_stages spans in
    let job_actual_ms := foldl (λ acc st, fadd acc (stage_actual_ms st)) (fofZ 0) stages in
    let job_solo_ms := foldl (λ acc st, fadd acc (stage_solo_ms t st)) (fofZ 0) stages in
    if (job_solo_ms <=? fofZ 0)%F then fallback_slo
    else
      let vjs := (job_actual_ms / fmax job_solo_ms MIN_SOLO_MS)%F in
      if negb (ffinite vjs) then fallback_slo else vjs.

(** [by_job.setdefault(job_id, []).append(info)] over the snapshots. *)
Definition group_by_job (keep : RequestExecutionInfo → bool) (infos : list RequestExecutionInfo)
    : dict (list RequestExecutionInfo) :=
  foldl (λ d i,
    match ri_job_id i with
    | Some id => if keep i then dict_set d id (default [] (dict_get d id) ++ [i]) else d
    | None => d
    end) [] infos.

(** The new slowdown of a job with in-flight snapshots [infos]. *)
Definition swept_vjs (t : SlowdownTracker) (infos : list RequestExecutionInfo) (job : Job F) : F :=
  compute_job_vjs t (completed_call_spans job ++ (span_from_info <$> infos)) (j_slo job).

Definition sweep (t : SlowdownTracker) (now : F) (infos : list RequestExecutionInfo) (r : JobRegistry F)
    : JobRegistry F :=
  if bool_decide (length infos = 0%nat) then r
  else
    foldl (λ r '(id, job_infos),
      match job_for_id r id with
      | None => r
      | Some job => update_job id (record_vjs now (swept_vjs t job_infos job)) r
      end) r (group_by_job (λ _, true) infos).

End tracker.

Arguments RequestExecutionInfo F : clear implicits.
Arguments SlowdownTracker F : clear implicits.
#[export] Existing Instance not_after_dec.

(** ** Stages *)

Section stages.
Implicit Types (s : JobCallSpan Qc) (st cur ordered spans : list (JobCallSpan Qc)).

#[local] Instance not_after_total : Total (@not_after Qc _).
Proof.
  intros s1 s2. unfold not_after. rewrite !Qc_flt_false.
  destruct (Qclt_le_dec (sp_admitted_ts s1) (sp_admitted_ts s2)); [left; by apply Qclt_le_weak|by right].
Qed.

#[local] Instance not_after_trans : Transitive (@not_after Qc _).
Proof. intros s1 s2 s3. unfold not_after. rewrite !Qc_flt_false. intros ? ?. by eapply Qcle_trans. Qed.

(** Every call of [st1] ended before any call of [st2] started. *)
Definition before st1 st2 : Prop := ∀ a b, a ∈ st1 → b ∈ st2 → (sp_end_ts a < sp_admitted_ts b)%Qc.

(** Every call but the first starts while an earlier one is running. *)
Definition connected st : Prop := ∀ pre s post, st = pre ++ s :: post → pre ≠ [] →
  ∃ a, a ∈ pre ∧ (sp_admitted_ts a <= sp_admitted_ts s)%Qc ∧ (sp_admitted_ts s <= sp_end_ts a)%Qc.

Definition well_staged (sts : list (list (JobCallSpan Qc))) : Prop :=
  Forall (λ st, st ≠ [] ∧ connected st) sts ∧ StronglySorted before sts.

(** [e] is the latest end of [cur]. *)
Definition latest cur (e : Qc) : Prop :=
  (∀ a, a ∈ cur → (sp_end_ts a <= e)%Qc) ∧ ∃ a, a ∈ cur ∧ sp_end_ts a = e.

Lemma connected_singleton s : connected [s].
Proof. intros [|a [|]] s' post; simpl; intros; simplify_eq. Qed.

Lemma connected_snoc cur s a :
  connected cur → a ∈ cur → (sp_admitted_ts a <= sp_admitted_ts s)%Qc → (sp_admitted_ts s <= sp_end_ts a)%Qc →
  connected (cur ++ [s]).
Proof.
  intros Hc Ha H1 H2 pre s' post Heq Hpre.
  destruct post as [|s2 post _] using rev_ind.
  - apply app_inj_tail in Heq as [-> ->]. eauto.
  - replace (pre ++ s' :: post ++ [s2]) with ((pre ++ s' :: post) ++ [s2]) in Heq by by rewrite <- app_assoc.
    apply app_inj_tail in Heq as [-> _]. by eapply Hc.
Qed.

Lemma latest_snoc cur e s : latest cur e → latest (cur ++ [s]) (fmax e (sp_end_ts s)).
Proof.
  intros [Hub (a & Ha & <-)]. unfold fmax.
  destruct (flt _ _) eqn:Hlt; [apply Qc_flt in Hlt|apply Qc_flt_false in Hlt]; split.
  - intros b [Hb|?%list_elem_of_singleton]%elem_of_app; [|subst; apply Qcle_refl].
    eapply Qcle_trans; [by apply Hub|by apply Qclt_le_weak].
  - exists s. set_solver.
  - intros b [Hb|?%list_elem_of_singleton]%elem_of_app; [by apply Hub|by subst].
  - exists a. set_solver.
Qed.

Lemma strongly_sorted_snoc {A} (R : A → A → Prop) l x :
  StronglySorted R l → Forall (λ y, R y x) l → StronglySorted R (l ++ [x]).
Proof.
  induction 1 as [|y l Hs IH Hy]; simpl; [by repeat constructor|]. intros [Hyx Hl]%Forall_cons.
  constructor; [by apply IH|]. apply Forall_app. split; [done|by constructor].
Qed.

(** The loop, in a state whose closed stages ended before everything still to come. *)
Lemma merge_loop_spec ordered sts cur cur_end :
  StronglySorted not_after ordered →
  (∀ a b, a ∈ cur → b ∈ ordered → not_after a b) →
  well_staged sts → Forall (λ st, before st (cur ++ ordered)) sts →
  (cur ≠ [] → connected cur ∧ ∃ e, cur_end = Some e ∧ latest cur e) →
  let res := merge_loop ordered sts cur cur_end in
  well_staged res ∧ concat res = concat sts ++ cur ++ ordered.
Proof.
  revert sts cur cur_end. induction ordered as [|sp rest IH]; intros sts cur cur_end Hs Hna Hw Hb Hcur.
  { simpl. rewrite app_nil_r in *. destruct cur as [|c cur].
    - by rewrite app_nil_r.
    - destruct Hcur as [Hc _]; [done|]. destruct Hw as [Hf Hss]. rewrite concat_app. simpl.
      rewrite app_nil_r. split; [|done]. split; [by apply Forall_app; split; [|constructor]|].
      by apply strongly_sorted_snoc. }
  apply StronglySorted_inv in Hs as [Hs Hsp]. rewrite Forall_forall in Hsp.
  assert (Hnew : ∀ sts', well_staged sts' → Forall (λ st, before st (sp :: rest)) sts' →
    let res := merge_loop rest sts' [sp] (Some (sp_end_ts sp)) in
    well_staged res ∧ concat res = concat sts' ++ sp :: rest).
  { intros sts' Hw' Hb'. apply (IH sts' [sp] (Some (sp_end_ts sp))); try done.
    - intros a b ->%list_elem_of_singleton Hin. by apply Hsp.
    - intros _. split; [apply connected_singleton|]. eexists. split; [done|]. split.
      + intros a ->%list_elem_of_singleton. apply Qcle_refl.
      + exists sp. set_solver. }
  destruct cur as [|c cur]; [by apply Hnew|].
  destruct Hcur as (Hc & e & -> & He); [done|]. cbn [merge_loop].
  destruct (fle (sp_admitted_ts sp) e) eqn:Hle.
  - apply Qc_fle in Hle. destruct He as [Hub (a & Ha & <-)]. simpl.
    replace (concat sts ++ c :: cur ++ sp :: rest) with (concat sts ++ ((c :: cur) ++ [sp]) ++ rest)
      by (by rewrite <- !app_assoc).
    apply (IH sts ((c :: cur) ++ [sp])); try done.
    + intros b d [Hb'| ->%list_elem_of_singleton]%elem_of_app Hd; [apply Hna; [done|by right]|by apply Hsp].
    + by rewrite <- app_assoc.
    + intros _. split; [|eexists; split; [done|]; apply latest_snoc; split; eauto].
      eapply connected_snoc; eauto. apply Qc_flt_false, (Hna a sp); [done|by left].
  - apply Qc_fle_false in Hle. destruct He as [Hub _].
    replace (concat sts ++ (c :: cur) ++ sp :: rest) with (concat (sts ++ [c :: cur]) ++ sp :: rest)
      by (rewrite concat_app; simpl; by rewrite app_nil_r, <- app_assoc).
    destruct Hw as [Hf Hss]. apply Hnew.
    + split; [by apply Forall_app; split; [|constructor]|]. apply strongly_sorted_snoc; [done|].
      eapply Forall_impl; [exact Hb|]. intros st Hst a b Ha Hb'. apply Hst; set_solver.
    + apply Forall_app. split; [|constructor; [|done]].
      * eapply Forall_impl; [exact Hb|]. intros st Hst a b Ha Hb'. apply Hst; set_solver.
      * intros a b Ha [->|Hb']%elem_of_cons.
        -- eapply Qcle_lt_trans; [by apply Hub|done].
        -- eapply Qcle_lt_trans; [by apply Hub|]. eapply Qclt_le_trans; [exact Hle|].
           apply Qc_flt_false. by apply Hsp.
Qed.

(** The stages of a job are a partition of its calls in order of admission: every call is in
    exactly one stage, a stage is connected (each call after its first starts while an earlier one
    runs), and all calls of a stage have ended before any call of a later stage starts. *)
Theorem stages_partition spans :
  let sts := merge_stages spans in
  concat sts ≡ₚ spans
  ∧ StronglySorted not_after (concat sts)
  ∧ Forall (λ st, st ≠ [] ∧ connected st) sts
  ∧ StronglySorted before sts.
Proof.
  intros sts.
  assert (Hsort : StronglySorted not_after (order_spans spans)) by (apply py_sort_sorted; apply _).
  destruct (merge_loop_spec (order_spans spans) [] [] None) as [Hw Hcat]; try done.
  { set_solver. } { split; constructor. }
  simpl in Hcat. fold (merge_stages spans) in *. subst sts. rewrite Hcat.
  split; [apply py_sort_Permutation|]. split; [done|exact Hw].
Qed.

End stages.

(** ** Slowdown *)

Section slowdown.
Implicit Types (t : SlowdownTracker Qc) (spans : list (JobCallSpan Qc)).

Definition job_actual_ms spans : Qc := qsum stage_actual_ms (merge_stages spans).
Definition job_solo_ms t spans : Qc := qsum (stage_solo_ms t) (merge_stages spans).

Lemma compute_job_vjs_exact t spans slo :
  has_cost_model t = true → (1 <= job_solo_ms t spans)%Qc →
  compute_job_vjs t spans slo = (job_actual_ms spans / job_solo_ms t spans)%Qc.
Proof.
  intros Hm Hs. unfold compute_job_vjs, job_actual_ms, job_solo_ms in *.
  destruct spans as [|sp spans].
  { exfalso. vm_compute in Hs. by apply Hs. }
  rewrite Hm, bool_decide_eq_false_2 by done. cbn [orb negb fadd Qc_pynum].
  rewrite !foldl_qsum. simpl fofZ. rewrite Qc_ofZ_0, !Qcplus_0_l.
  set (solo := qsum (stage_solo_ms t) _) in *.
  rewrite (proj2 (Qc_fle_false solo 0%Qc)) by (by apply (Qclt_le_trans _ 1)).
  rewrite Qc_fmax_id; [done|]. unfold MIN_SOLO_MS. simpl. by rewrite Qc_ofZ_1.
Qed.

(** Over the stages of a job, the virtual job slowdown compares wall-clock with solo time: if
    every stage took at least its solo time it is at least one, if none took longer it is at most
    one (so a job that runs as if alone has slowdown exactly one). *)
Theorem vjs_compares_with_solo t spans slo
    (Hm : has_cost_model t = true) (Hs : (1 <= job_solo_ms t spans)%Qc) :
  let vjs := compute_job_vjs t spans slo in
  (Forall (λ st, stage_solo_ms t st <= stage_actual_ms st)%Qc (merge_stages spans) → (1 <= vjs)%Qc)
  ∧ (Forall (λ st, stage_actual_ms st <= stage_solo_ms t st)%Qc (merge_stages spans) → (vjs <= 1)%Qc).
Proof.
  intros vjs. subst vjs. rewrite compute_job_vjs_exact by done.
  assert (Hpos : (0 < job_solo_ms t spans)%Qc) by (by apply (Qclt_le_trans _ 1)).
  rewrite (Qc_le_div _ 1 _ Hpos), (Qc_div_le _ 1 _ Hpos), Qcmult_1_l. split; apply qsum_le.
Qed.

End slowdown.

Definition demo_tracker : SlowdownTracker Qc := mkSlowdownTracker None None (Some demo_model).

(** Two overlapping calls and a later one; with [demo_model] each call of [n] new tokens and [d]
    decoded ones costs [n + 1] plus a decode step of the stage's batch per token. *)
Definition demo_spans : list (JobCallSpan Qc) :=
  [mkJobCallSpan (Qc_ofZ 50) (Qc_ofZ 60) 9 0 1 10; mkJobCallSpan (Qc_ofZ 0) (Qc_ofZ 4) 3 0 0 3;
   mkJobCallSpan (Qc_ofZ 2) (Qc_ofZ 9) 5 1 2 7].

Lemma vjs_compares_with_solo_witness : Qcle 1%Qc (compute_job_vjs demo_tracker demo_spans (Qc_ofZ 5)).
Proof.
  apply (vjs_compares_with_solo demo_tracker demo_spans (Qc_ofZ 5)).
  - reflexivity.
  - vm_compute. discriminate.
  - repeat constructor; vm_compute; discriminate.
Defined.

(** ** Sweeps *)

Section sweeping.
Context {F : Type} `{PyNum F}.
Implicit Types (r : JobRegistry F) (infos : list (RequestExecutionInfo F)).

(** The keys of the groups are the jobs of the snapshots. *)
Lemma group_by_job_keys keep infos id :
  id ∈ dict_keys (group_by_job keep infos) → ∃ i, i ∈ infos ∧ ri_job_id i = Some id ∧ keep i = true.
Proof.
  unfold group_by_job. induction infos as [|i infos IH] using rev_ind; simpl; [set_solver|].
  rewrite foldl_app. simpl. destruct (ri_job_id i) as [id'|] eqn:Hi.
  - destruct (keep i) eqn:Hk; [|set_solver]. rewrite dict_set_keys. case_bool_decide; set_solver.
  - set_solver.
Qed.

Lemma group_by_job_get keep infos id :
  default [] (dict_get (group_by_job keep infos) id)
  = filter (λ i, ri_job_id i = Some id ∧ keep i = true) infos.
Proof.
  unfold group_by_job. induction infos as [|i infos IH] using rev_ind; simpl; [done|].
  rewrite foldl_app, filter_app. simpl. destruct (ri_job_id i) as [id'|] eqn:Hi.
  - destruct (keep i) eqn:Hk; last first.
    { rewrite filter_cons_False, app_nil_r by (intros [? ?]; congruence). done. }
    rewrite dict_get_set. case_bool_decide as He.
    + subst. rewrite filter_cons_True by done. simpl. by rewrite IH.
    + rewrite filter_cons_False, app_nil_r by naive_solver. done.
  - by rewrite filter_cons_False, app_nil_r by naive_solver.
Qed.

Lemma group_by_job_NoDup keep infos : NoDup (dict_keys (group_by_job keep infos)).
Proof.
  unfold group_by_job. induction infos as [|i infos IH] using rev_ind; simpl; [constructor|].
  rewrite foldl_app. simpl. repeat case_match; auto using dict_set_NoDup.
Qed.

Lemma job_for_id_update r id id' f :
  job_for_id (update_job id f r) id' = if bool_decide (id = id') then f <$> job_for_id r id else job_for_id r id'.
Proof.
  unfold update_job, job_for_id. destruct (dict_get (jobs r) id) as [j|] eqn:Hg; simpl.
  - rewrite dict_get_set. by case_bool_decide.
  - case_bool_decide; by subst.
Qed.

Definition sweep_job (t : SlowdownTracker F) (now : F) r (kv : string * list (RequestExecutionInfo F)) :=
  match job_for_id r kv.1 with
  | None => r
  | Some job => update_job kv.1 (record_vjs now (swept_vjs t kv.2 job)) r
  end.

Lemma sweep_unfold t now infos r : sweep t now infos r = foldl (sweep_job t now) r (group_by_job (λ _, true) infos).
Proof.
  unfold sweep. case_bool_decide as Hl; [by apply length_zero_iff_nil in Hl as ->|].
  generalize (group_by_job (λ _, true) infos). intros d. revert r.
  induction d as [|[id l] d IH]; intros r; simpl; [done|]. by rewrite IH.
Qed.

Lemma sweep_job_get t now r id l id' :
  job_for_id (sweep_job t now r (id, l)) id'
  = if bool_decide (id = id') then (λ j, record_vjs now (swept_vjs t l j) j) <$> job_for_id r id'
    else job_for_id r id'.
Proof.
  unfold sweep_job. simpl. destruct (job_for_id r id) as [j|] eqn:Hg.
  - rewrite job_for_id_update. case_bool_decide; [subst; by rewrite Hg|done].
  - case_bool_decide; [subst; by rewrite Hg|done].
Qed.

Lemma sweep_fold_get t now d r id :
  NoDup (dict_keys d) →
  job_for_id (foldl (sweep_job t now) r d) id
  = match dict_get d id with
    | Some l => (λ j, record_vjs now (swept_vjs t l j) j) <$> job_for_id r id
    | None => job_for_id r id
    end.
Proof.
  revert r. induction d as [|[id' l] d IH]; intros r; simpl; [done|].
  intros [Hni Hnd]%NoDup_cons. rewrite IH by done. rewrite sweep_job_get.
  case_bool_decide as He; [|done]. subst id'.
  destruct (dict_get d id) eqn:Hg; [|done]. exfalso. apply Hni, dict_get_keys. by rewrite Hg.
Qed.

Lemma sweep_reachable t now infos r : registry_reachable r → registry_reachable (sweep t now infos r).
Proof.
  rewrite sweep_unfold. generalize (group_by_job (λ _, true) infos). intros d. revert r.
  induction d as [|[id l] d IH]; intros r Hr; simpl; [done|]. apply IH. unfold sweep_job. simpl.
  destruct (job_for_id r id) as [j|]; [|done]. by eapply (reg_next r (RRecordVjs id _) now).
Qed.

(** The snapshots of one job. *)
Definition snapshots_of (id : string) infos := filter (λ i, ri_job_id i = Some id) infos.

Lemma sweep_get t now infos r id :
  job_for_id (sweep t now infos r) id
  = if bool_decide (snapshots_of id infos = []) then job_for_id r id
    else (λ j, record_vjs now (swept_vjs t (snapshots_of id infos) j) j) <$> job_for_id r id.
Proof.
  rewrite sweep_unfold, sweep_fold_get by apply group_by_job_NoDup.
  assert (Hg : default [] (dict_get (group_by_job (λ _, true) infos) id) = snapshots_of id infos)
    by (rewrite group_by_job_get; apply list_filter_iff; naive_solver).
  destruct (dict_get _ id) as [l|] eqn:Hd; simpl in Hg; rewrite <- Hg.
  - rewrite bool_decide_eq_false_2; [done|]. intros Hnil. rewrite Hnil in Hg.
    destruct (group_by_job_keys (λ _, true) infos id) as (i & Hin & Hi & _); [apply dict_get_keys; by rewrite Hd|].
    assert (i ∈ snapshots_of id infos) as Hc by (by apply list_elem_of_filter). rewrite <- Hg in Hc. set_solver.
  - by rewrite bool_decide_eq_true_2.
Qed.

Lemma sweep_mapping t now infos r : rid_to_job (sweep t now infos r) = rid_to_job r.
Proof.
  rewrite sweep_unfold. generalize (group_by_job (λ _, true) infos). intros d. revert r.
  induction d as [|[id' l] d IH]; intros r; simpl; [done|]. rewrite IH. unfold sweep_job, update_job.
  by repeat case_match.
Qed.

(** A sweep recomputes the slowdown of exactly the jobs that have a snapshot: each such job is
    recorded once, with the slowdown over its completed calls and all of its snapshots in order;
    every other job is untouched, and ownership is preserved. *)
Theorem sweep_updates t now infos r id :
  let mine := filter (λ i, ri_job_id i = Some id) infos in
  job_for_id (sweep t now infos r) id
  = (if bool_decide (mine = []) then job_for_id r id
     else (λ j, record_vjs now (compute_job_vjs t (completed_call_spans j ++ (span_from_info <$> mine)) (j_slo j)) j)
          <$> job_for_id r id)
  ∧ rid_to_job (sweep t now infos r) = rid_to_job r.
Proof. split; [apply sweep_get|apply sweep_mapping]. Qed.

End sweeping.
