(* ===== verification/HaloAdmission.v ===== *)
(** * Predictive job admission

    Models the production predictors of
    [src/python/sglang/srt/managers/halo/admission_decision.py]: the inputs, the chunk-bounded
    extend step, the step times after an admission, the job-scoped and the request-scoped
    predictor, and the violation-ratio test [decide_admission].  The deprecated
    [LookaheadAdmissionPredictor] is not on the controller's path and is not modelled.

    The theorems: the modelled extend step uses exactly the prefill budget; the decision compares
    the number of violations with the threshold exactly; the predicted slowdown of a decoding job
    is never below one. *)

From S2P Require Import Prelude PyFloat PyDict CostModel.

Section admission.
Context {F : Type} `{PyNum F}.

Record ActiveCallInfo := mkActiveCallInfo {
  ac_rid : string;
  ac_is_prefill : bool;
  ac_prompt_len : Z;
  ac_prefix_len : Z;
  ac_decoded_tokens : Z;
  ac_kv_len_now : Z;
  ac_elapsed_actual_ms : F
}.

Record JobLookaheadInput := mkJobLookaheadInput {
  jl_job_id : string;
  jl_slo : F;
  jl_active_calls : list ActiveCallInfo;
  jl_current_actual_elapsed_ms : F;
  jl_current_solo_elapsed_ms : F;
  jl_remaining_calls : option Z;
  jl_remaining_stage_sequence : option (list string);
  jl_expected_input_lens : option (list Z);
  jl_expected_output_lens : option (list Z);
  jl_expected_cached_prefix_lens : option (list Z)
}.

Record NewJobInput := mkNewJobInput {
  nj_job_id : string;
  nj_slo : F;
  nj_first_call_input_len : Z;
  nj_first_call_prefix_len : Z;
  nj_first_call_expected_output_len : Z;
  nj_total_calls : option Z;
  nj_stage_sequence : option (list string);
  nj_expected_input_lens : option (list Z);
  nj_expected_output_lens : option (list Z);
  nj_expected_cached_prefix_lens : option (list Z)
}.

Inductive decision_reason := REASON_OK | REASON_ADMISSION_PREDICTED.

Record AdmissionDecisionResult := mkAdmissionDecisionResult {
  ad_admit : bool;
  ad_reason : decision_reason;
  ad_violation_ratio : F;
  ad_violation_count : Z;
  ad_active_jobs_total : Z;
  ad_threshold : F;
  ad_predicted_slowdowns : dict F;
  ad_horizon_sec : option F;
  ad_mode : string
}.

Definition split_current_batch_features (active_jobs : list JobLookaheadInput) : list (Z * Z) * list Z :=
  foldl (λ acc job,
    foldl (λ '(pre, dec) call,
      if ac_is_prefill call
      then (pre ++ [(Z.max 0 (ac_prompt_len call - ac_prefix_len call), ac_prefix_len call)], dec)
      else (pre, dec ++ [ac_kv_len_now call])) acc (jl_active_calls job)) ([], []) active_jobs.

Definition MIN_SOLO_STEP_MS : F := fofZ 1.

(** The loop of [_bounded_extend_step] with a positive budget. *)
Fixpoint extend_loop (remaining : Z) (prefill_infos : list (Z * Z)) : list (Z * Z) :=
  match prefill_infos with
  | [] => []
  | (n, r) :: rest =>
      if bool_decide (remaining ≤ 0) then []
      else let take := Z.min (Z.max 0 n) remaining in (take, r) :: extend_loop (remaining - take) rest
  end.

Definition bounded_extend_step (prefill_infos : list (Z * Z)) (chunked_prefill_size : option Z)
    : list (Z * Z) :=
  match chunked_prefill_size with
  | None => prefill_infos
  | Some c => if bool_decide (c ≤ 0) then prefill_infos else extend_loop c prefill_infos
  end.

Definition augmented_step_times (m : HaloStepCostModel F) (active_jobs : list JobLookaheadInput)
    (new_job : NewJobInput) (chunked_prefill_size : option Z) : F * F :=
  let '(current_prefill, current_decode) := split_current_batch_features active_jobs in
  let n_new := Z.max 0 (nj_first_call_input_len new_job - nj_first_call_prefix_len new_job) in
  let r_new := Z.max 0 (nj_first_call_prefix_len new_job) in
  let extend_batch := bounded_extend_step (current_prefill ++ [(n_new, r_new)]) chunked_prefill_size in
  (estimate_step_ms m extend_batch [],
   estimate_step_ms m [] (current_decode ++ [Z.max 0 (nj_first_call_input_len new_job)])).

Definition call_prefill_info (c : ActiveCallInfo) : Z * Z :=
  (Z.max 0 (ac_prompt_len c - ac_prefix_len c), Z.max 0 (ac_prefix_len c)).

(** The prefill entries of a job's own calls. *)
Definition job_prefill_infos (job : JobLookaheadInput) : list (Z * Z) :=
  call_prefill_info <$> filter (λ c, ac_is_prefill c = true) (jl_active_calls job).

(** The job's own step alone. *)
Definition job_solo_step (m : HaloStepCostModel F) (chunked_prefill_size : option Z) (job : JobLookaheadInput) : F :=
  match job_prefill_infos job with
  | [] => estimate_step_ms m [] ((λ c, Z.max 0 (ac_kv_len_now c)) <$> jl_active_calls job)
  | infos => estimate_step_ms m (bounded_extend_step infos chunked_prefill_size) []
  end.

(** [JobSlowdownAdmissionPredictor.predict]. *)
Definition job_predict (m : HaloStepCostModel F) (active_jobs : list JobLookaheadInput) (new_job : NewJobInput)
    (chunked_prefill_size : option Z) : dict F :=
  let '(s_extend, s_decode) := augmented_step_times m active_jobs new_job chunked_prefill_size in
  foldl (λ predictions job,
    if bool_decide (length (jl_active_calls job) = 0%nat) then predictions
    else
      let solo := job_solo_step m chunked_prefill_size job in
      let step := match job_prefill_infos job with [] => s_decode | _ => s_extend end in
      dict_set predictions (jl_job_id job) (step / fmax solo MIN_SOLO_STEP_MS)%F) [] active_jobs.

(** [RequestSlowdownAdmissionPredictor.predict]. *)
Definition request_predict (m : HaloStepCostModel F) (active_jobs : list JobLookaheadInput)
    (new_job : NewJobInput) (chunked_prefill_size : option Z) : dict F :=
  let '(s_extend, s_decode) := augmented_step_times m active_jobs new_job chunked_prefill_size in
  foldl (λ predictions job,
    foldl (λ predictions call,
      if ac_is_prefill call then
        let solo := estimate_step_ms m (bounded_extend_step [call_prefill_info call] chunked_prefill_size) [] in
        dict_set predictions (ac_rid call) (s_extend / fmax solo MIN_SOLO_STEP_MS)%F
      else
        let solo := estimate_step_ms m [] [Z.max 0 (ac_kv_len_now call)] in
        dict_set predictions (ac_rid call) (s_decode / fmax solo MIN_SOLO_STEP_MS)%F)
      predictions (jl_active_calls job)) [] active_jobs.

Definition decide_admission (predicted_slowdowns : dict F) (slos : dict F) (threshold : F) (mode : string)
    (horizon_sec : option F) : AdmissionDecisionResult :=
  let total := zlen predicted_slowdowns in
  if bool_decide (total = 0) then
    mkAdmissionDecisionResult true REASON_OK (fofZ 0) 0 0 threshold [] horizon_sec mode
  else
    let violations := foldl (λ v '(uid, pred),
      let slo := default pred (dict_get slos uid) in
      if fgt pred slo then v + 1 else v) 0 predicted_slowdowns in
    let violation_ratio := (fofZ violations / fofZ total)%F in
    if fgt violation_ratio threshold then
      mkAdmissionDecisionResult false REASON_ADMISSION_PREDICTED violation_ratio violations total threshold
        predicted_slowdowns horizon_sec mode
    else
      mkAdmissionDecisionResult true REASON_OK violation_ratio violations total threshold predicted_slowdowns
        horizon_sec mode.

End admission.

Arguments ActiveCallInfo F : clear implicits.
Arguments JobLookaheadInput F : clear implicits.
Arguments NewJobInput F : clear implicits.
Arguments AdmissionDecisionResult F : clear implicits.

(** ** The extend step *)

(** The new tokens of a step. *)
Definition step_tokens (infos : list (Z * Z)) : Z := foldr (λ nr acc, Z.max 0 nr.1 + acc) 0 infos.

Lemma step_tokens_nonneg infos : 0 ≤ step_tokens infos.
Proof. induction infos as [|[n r] infos IH]; simpl; lia. Qed.

Lemma extend_loop_tokens b infos : 0 ≤ b → step_tokens (extend_loop b infos) = Z.min b (step_tokens infos).
Proof.
  revert b. induction infos as [|[n r] infos IH]; intros b Hb; simpl; [lia|].
  pose proof (step_tokens_nonneg infos). case_bool_decide; simpl; [lia|]. rewrite IH by lia. lia.
Qed.

(** An entry of the step is a part of the pending entry in the same place. *)
Definition part_of (o i : Z * Z) : Prop := o.2 = i.2 ∧ 0 ≤ o.1 ≤ Z.max 0 i.1.

Lemma extend_loop_parts b infos :
  0 ≤ b → Forall2 part_of (extend_loop b infos) (take (length (extend_loop b infos)) infos).
Proof.
  revert b. induction infos as [|[n r] infos IH]; intros b Hb; simpl; [constructor|].
  case_bool_decide; simpl; [constructor|]. constructor; [split; simpl; [done|lia]|]. apply IH. lia.
Qed.

(** Entries before the last one are processed completely. *)
Lemma extend_loop_full b infos pre o post :
  0 ≤ b → extend_loop b infos = pre ++ o :: post → post ≠ [] →
  ∃ i, infos !! length pre = Some i ∧ o.1 = Z.max 0 i.1.
Proof.
  revert b pre. induction infos as [|[n r] infos IH]; intros b pre Hb; simpl; [by destruct pre|].
  case_bool_decide as Hz; [by destruct pre|]. destruct pre as [|p pre]; simpl; intros [= Heq1 Heq2] Hpost.
  - exists (n, r). split; [done|]. subst o. simpl.
    destruct (decide (Z.max 0 n ≤ b)); [lia|]. exfalso. apply Hpost. rewrite <- Heq2.
    replace (b - Z.min (Z.max 0 n) b) with 0 by lia. by destruct infos as [|[??]].
  - eapply IH; [|done|done]. lia.
Qed.

(** With chunked prefill enabled, the modelled extend step holds exactly
    [min(budget, pending new tokens)] new tokens: it never exceeds the budget and never leaves
    budget unused while work is pending.  It takes the pending entries in order, each with its own
    prefix, splits at most the last one, and is the whole backlog when chunking is off. *)
Theorem bounded_extend_step_exact infos c :
  let out := bounded_extend_step infos (Some c) in
  (c ≤ 0 → out = infos)
  ∧ (0 < c →
     step_tokens out = Z.min c (step_tokens infos)
     ∧ Forall2 part_of out (take (length out) infos)
     ∧ ∀ pre o post, out = pre ++ o :: post → post ≠ [] →
         ∃ i, infos !! length pre = Some i ∧ o.1 = Z.max 0 i.1)
  ∧ bounded_extend_step infos None = infos.
Proof.
  intros out. subst out. unfold bounded_extend_step. split_and!; [|intros Hc|done].
  - intros Hc. by rewrite bool_decide_eq_true_2.
  - rewrite bool_decide_eq_false_2 by lia. split_and!.
    + apply extend_loop_tokens. lia.
    + apply extend_loop_parts. lia.
    + intros pre o post. apply extend_loop_full. lia.
Qed.

(** ** The decision *)

(** A unit whose prediction exceeds its known objective. *)
Definition violates (slos : dict Qc) (up : string * Qc) : Prop :=
  match dict_get slos up.1 with Some slo => (slo < up.2)%Qc | None => False end.

#[export] Instance violates_dec slos up : Decision (violates slos up).
Proof. unfold violates. case_match; apply _. Defined.

Lemma violations_count (predictions slos : dict Qc) v0 :
  foldl (λ v '(uid, pred),
    let slo := default pred (dict_get slos uid) in if fgt pred slo then v + 1 else v) v0 predictions
  = v0 + zlen (filter (violates slos) predictions).
Proof.
  revert v0. induction predictions as [|[uid pred] ps IH]; intros v0; [unfold zlen; simpl; lia|].
  cbn [foldl]. rewrite IH. unfold fgt.
  destruct (dict_get slos uid) as [slo|] eqn:Hs; cbn [default from_option id].
  - destruct (flt slo pred) eqn:Hlt.
    + apply Qc_flt in Hlt. rewrite filter_cons_True by (unfold violates; simpl; by rewrite Hs).
      unfold zlen. simpl length. lia.
    + apply Qc_flt_false in Hlt. rewrite filter_cons_False; [done|].
      unfold violates. simpl. rewrite Hs. by apply Qcle_not_lt.
  - rewrite (proj2 (Qc_flt_false pred pred)) by apply Qcle_refl.
    rewrite filter_cons_False; [done|]. unfold violates. simpl. rewrite Hs. tauto.
Qed.

(** The decision admits the arrival if and only if the number of scored units whose predicted
    slowdown exceeds their objective is at most the threshold fraction of all scored units; a unit
    without a known objective never counts as violating, and with nothing to protect the arrival
    is admitted.  The reported counts are exact. *)
Theorem decide_admission_exact (predictions slos : dict Qc) threshold mode horizon :
  let d := decide_admission predictions slos threshold mode horizon in
  let bad := zlen (filter (violates slos) predictions) in
  (ad_admit d = true ↔ predictions = [] ∨ (Qc_ofZ bad <= threshold * Qc_ofZ (zlen predictions))%Qc)
  ∧ ad_violation_count d = bad ∧ ad_active_jobs_total d = zlen predictions
  ∧ (ad_reason d = REASON_OK ↔ ad_admit d = true).
Proof.
  intros d bad. subst d bad. unfold decide_admission.
  case_bool_decide as Ht; [|].
  { destruct predictions; [|unfold zlen in Ht; simpl in Ht; lia]. cbn. naive_solver. }
  rewrite violations_count, Z.add_0_l. set (bad := zlen (filter _ _)).
  assert (Hpos : (0 < Qc_ofZ (zlen predictions))%Qc).
  { rewrite <- Qc_ofZ_0. apply Qc_ofZ_lt. unfold zlen in *. lia. }
  assert (Hne : predictions ≠ []) by (by intros ->).
  unfold fgt. cbn [fdiv fofZ Qc_pynum].
  destruct (flt threshold _) eqn:Hlt; cbn.
  - apply Qc_flt, Qc_div_lt, Qclt_not_le in Hlt; [|done]. naive_solver.
  - apply Qc_flt_false, Qc_div_le in Hlt; [|done]. naive_solver.
Qed.

(** ** The predicted slowdown *)

Section slowdown.
Implicit Types (m : HaloStepCostModel Qc) (job : JobLookaheadInput Qc) (active : list (JobLookaheadInput Qc)).

Definition batch_prefill active : list (Z * Z) :=
  (λ c, (Z.max 0 (ac_prompt_len c - ac_prefix_len c), ac_prefix_len c))
  <$> filter (λ c, ac_is_prefill c = true) (active ≫= jl_active_calls).
Definition batch_decode active : list Z :=
  ac_kv_len_now <$> filter (λ c, ac_is_prefill c ≠ true) (active ≫= jl_active_calls).

Lemma split_features active : split_current_batch_features active = (batch_prefill active, batch_decode active).
Proof.
  unfold split_current_batch_features, batch_prefill, batch_decode.
  assert (Hcalls : ∀ (calls : list (ActiveCallInfo Qc)) pre dec,
    foldl (λ '(pre, dec) call,
      if ac_is_prefill call
      then (pre ++ [(Z.max 0 (ac_prompt_len call - ac_prefix_len call), ac_prefix_len call)], dec)
      else (pre, dec ++ [ac_kv_len_now call])) (pre, dec) calls
    = (pre ++ ((λ c, (Z.max 0 (ac_prompt_len c - ac_prefix_len c), ac_prefix_len c))
               <$> filter (λ c, ac_is_prefill c = true) calls),
       dec ++ (ac_kv_len_now <$> filter (λ c, ac_is_prefill c ≠ true) calls))).
  { induction calls as [|c calls IH]; intros pre dec; [by rewrite !app_nil_r|]. cbn [foldl].
    destruct (ac_is_prefill c) eqn:Hc.
    - rewrite IH, filter_cons_True, filter_cons_False by (rewrite Hc; naive_solver).
      cbn [fmap list_fmap]. by rewrite <- app_assoc.
    - rewrite IH, filter_cons_False, filter_cons_True by (rewrite Hc; naive_solver).
      cbn [fmap list_fmap]. by rewrite <- app_assoc. }
  cut (∀ pre dec, foldl (λ acc job, foldl (λ '(pre, dec) call,
      if ac_is_prefill call
      then (pre ++ [(Z.max 0 (ac_prompt_len call - ac_prefix_len call), ac_prefix_len call)], dec)
      else (pre, dec ++ [ac_kv_len_now call])) acc (jl_active_calls job)) (pre, dec) active
    = (pre ++ batch_prefill active, dec ++ batch_decode active)); [by intros ->|].
  unfold batch_prefill, batch_decode.
  induction active as [|job active IH]; intros pre dec; [by rewrite !app_nil_r|].
  cbn [foldl]. rewrite Hcalls, IH. cbn [mbind list_bind]. by rewrite !filter_app, !fmap_app, <- !app_assoc.
Qed.

(** Lengths as the scheduler reports them. *)
Definition nonneg_calls active : Prop :=
  Forall (λ c, 0 ≤ ac_prefix_len c ∧ 0 ≤ ac_kv_len_now c) (active ≫= jl_active_calls).

Lemma calls_submseteq job active : job ∈ active → jl_active_calls job ⊆+ active ≫= jl_active_calls.
Proof.
  induction 1 as [active|job' active Hin IH]; cbn [mbind list_bind].
  - apply submseteq_inserts_r. done.
  - by apply submseteq_inserts_l.
Qed.

Lemma own_nonneg job active :
  job ∈ active → nonneg_calls active → Forall (λ c, 0 ≤ ac_prefix_len c ∧ 0 ≤ ac_kv_len_now c) (jl_active_calls job).
Proof.
  intros Hin Hn. unfold nonneg_calls in Hn. rewrite Forall_forall in Hn |- *. intros c Hc. apply Hn.
  eapply elem_of_submseteq; [exact Hc|]. by apply calls_submseteq.
Qed.

Lemma filter_submseteq {A} (P : A → Prop) `{!∀ a, Decision (P a)} (l k : list A) :
  l ⊆+ k → filter P l ⊆+ filter P k.
Proof.
  intros [k' Hk]%submseteq_Permutation. rewrite Hk, filter_app. apply submseteq_inserts_r. done.
Qed.

Lemma fmap_ext_elem {A B} (f g : A → B) (l : list A) : (∀ x, x ∈ l → f x = g x) → f <$> l = g <$> l.
Proof. intros Hfg. apply list_fmap_ext. intros i x Hx. apply Hfg. by eapply list_elem_of_lookup_2. Qed.

Lemma own_prefill_submseteq job active :
  job ∈ active → nonneg_calls active → job_prefill_infos job ⊆+ batch_prefill active.
Proof.
  intros Hin Hn. unfold job_prefill_infos, batch_prefill.
  pose proof (own_nonneg job active Hin Hn) as Ho.
  rewrite (fmap_ext_elem call_prefill_info (λ c, (Z.max 0 (ac_prompt_len c - ac_prefix_len c), ac_prefix_len c))).
  - apply fmap_submseteq, filter_submseteq. by apply calls_submseteq.
  - intros c [_ Hc]%list_elem_of_filter. rewrite Forall_forall in Ho. destruct (Ho c Hc).
    unfold call_prefill_info. f_equal. lia.
Qed.

Lemma own_decode_submseteq job active :
  job ∈ active → nonneg_calls active → job_prefill_infos job = [] →
  (λ c, Z.max 0 (ac_kv_len_now c)) <$> jl_active_calls job ⊆+ batch_decode active.
Proof.
  intros Hin Hn Hp. unfold batch_decode. pose proof (own_nonneg job active Hin Hn) as Ho.
  assert (Hd : filter (λ c, ac_is_prefill c ≠ true) (jl_active_calls job) = jl_active_calls job).
  { apply fmap_nil_inv in Hp. clear Ho Hin. induction (jl_active_calls job) as [|c l IH]; [done|].
    destruct (ac_is_prefill c) eqn:Hc; [by rewrite filter_cons_True in Hp|].
    rewrite filter_cons_False in Hp by (by rewrite Hc). rewrite filter_cons_True by (by rewrite Hc).
    by rewrite IH. }
  rewrite <- Hd at 1. rewrite (fmap_ext_elem (λ c, Z.max 0 (ac_kv_len_now c)) ac_kv_len_now).
  - apply fmap_submseteq, filter_submseteq. by apply calls_submseteq.
  - intros c [_ Hc]%list_elem_of_filter. rewrite Forall_forall in Ho. destruct (Ho c Hc). simpl. lia.
Qed.

Lemma foldl_predictions {A V} (key : A → string) (val : A → V) (skip : A → Prop) `{!∀ a, Decision (skip a)}
    (l : list A) d x :
  NoDup (key <$> l) → x ∈ l → ¬ skip x →
  dict_get (foldl (λ d a, if bool_decide (skip a) then d else dict_set d (key a) (val a)) d l) (key x)
  = Some (val x).
Proof.
  intros Hnd Hin Hsk. induction l as [|y l IH] using rev_ind; [set_solver|].
  rewrite fmap_app in Hnd. apply NoDup_app in Hnd as (Hnd & Hdis & _). rewrite foldl_app. cbn [foldl].
  apply elem_of_app in Hin as [Hin| ->%list_elem_of_singleton].
  - specialize (IH Hnd Hin). case_bool_decide; [done|]. rewrite dict_get_set_ne; [done|].
    intros He. apply (Hdis (key x)); [by apply list_elem_of_fmap_2|]. rewrite <- He. set_solver.
  - rewrite bool_decide_eq_false_2 by done. apply dict_get_set_eq.
Qed.

Lemma job_predict_get m active new chunk job :
  NoDup (jl_job_id <$> active) → job ∈ active → jl_active_calls job ≠ [] →
  let steps := augmented_step_times m active new chunk in
  dict_get (job_predict m active new chunk) (jl_job_id job)
  = Some (match job_prefill_infos job with [] => steps.2 | _ => steps.1 end
          / fmax (job_solo_step m chunk job) MIN_SOLO_STEP_MS)%F.
Proof.
  intros Hnd Hin Hne steps. subst steps. unfold job_predict. destruct (augmented_step_times _ _ _ _) as [se sd].
  apply (foldl_predictions jl_job_id
    (λ job, (match job_prefill_infos job with [] => sd | _ => se end
             / fmax (job_solo_step m chunk job) MIN_SOLO_STEP_MS)%F)
    (λ job, length (jl_active_calls job) = 0%nat)); [done..|].
  by destruct (jl_active_calls job).
Qed.

(** The step after the admission costs at least the job's own step. *)
Lemma step_covers_own m active new chunk job :
  nonneg_coefficients m → nonneg_calls active → job ∈ active → jl_active_calls job ≠ [] →
  job_prefill_infos job = [] ∨ chunk = None →
  let steps := augmented_step_times m active new chunk in
  (job_solo_step m chunk job <= match job_prefill_infos job with [] => steps.2 | _ => steps.1 end)%Qc.
Proof.
  intros Hm Hn Hin Hne Hph. unfold augmented_step_times, job_solo_step. rewrite split_features. cbn [fst snd].
  unfold nonneg_calls in Hn. pose proof Hn as Hall. rewrite Forall_forall in Hall.
  destruct (job_prefill_infos job) as [|i infos] eqn:Hp.
  - apply step_mono; [done| |done| |].
    + split; [constructor|]. apply Forall_app. split; [|constructor; [lia|done]].
      apply Forall_fmap, Forall_forall. intros c [_ Hc]%list_elem_of_filter. simpl. by apply Hall.
    + apply submseteq_inserts_r. by apply own_decode_submseteq.
    + right. by destruct (jl_active_calls job).
  - destruct Hph as [?| ->]; [done|]. cbn [bounded_extend_step]. rewrite <- Hp.
    apply step_mono; [done| | |done|].
    + split; [|constructor]. apply Forall_app. split; [|constructor; [simpl; lia|done]].
      apply Forall_fmap, Forall_forall. intros c [_ Hc]%list_elem_of_filter. simpl.
      destruct (Hall c Hc). lia.
    + apply submseteq_inserts_r. by apply own_prefill_submseteq.
    + left. by rewrite Hp.
Qed.

(** With non-negative coefficients, the job-scoped predictor scores every active job, and never
    below one: the step after the admission, over the solo step of the job's own calls, is at least
    one for a decoding job, and for a prefilling job when prefill is not chunked (when the job's
    solo step reaches the 1 ms floor). *)
Theorem predicted_slowdown_ge_one m active new chunk job
    (Hm : nonneg_coefficients m) (Hn : nonneg_calls active) (Hnd : NoDup (jl_job_id <$> active))
    (Hin : job ∈ active) (Hne : jl_active_calls job ≠ [])
    (Hph : job_prefill_infos job = [] ∨ chunk = None)
    (Hsolo : (1 <= job_solo_step m chunk job)%Qc) :
  ∃ p, dict_get (job_predict m active new chunk) (jl_job_id job) = Some p ∧ (1 <= p)%Qc.
Proof.
  eexists. split; [by apply job_predict_get|].
  rewrite Qc_fmax_id by (unfold MIN_SOLO_STEP_MS; simpl; by rewrite Qc_ofZ_1).
  apply Qc_le_div; [by apply (Qclt_le_trans _ 1)|]. rewrite Qcmult_1_l. by apply step_covers_own.
Qed.

End slowdown.

Definition demo_call (rid : string) (kv : Z) : ActiveCallInfo Qc := mkActiveCallInfo rid false 4 0 2 kv (Qc_ofZ 0).
Definition demo_input (id : string) (calls : list (ActiveCallInfo Qc)) : JobLookaheadInput Qc :=
  mkJobLookaheadInput id (Qc_ofZ 2) calls (Qc_ofZ 0) (Qc_ofZ 0) None None None None None.
Definition demo_new : NewJobInput Qc := mkNewJobInput "N" (Qc_ofZ 2) 12 0 0 None None None None None.

Lemma predicted_slowdown_ge_one_witness :
  ∃ p, dict_get (job_predict demo_model [demo_input "A" [demo_call "a" 6]; demo_input "B" [demo_call "b" 9]]
                   demo_new (Some 8)) "B" = Some p ∧ Qcle 1%Qc p.
Proof.
  apply (predicted_slowdown_ge_one demo_model
           [demo_input "A" [demo_call "a" 6]; demo_input "B" [demo_call "b" 9]] demo_new (Some 8)
           (demo_input "B" [demo_call "b" 9])).
  - exact demo_model_nonneg.
  - repeat constructor; simpl; lia.
  - apply (bool_decide_unpack _). reflexivity.
  - right. left.
  - discriminate.
  - left. reflexivity.
  - vm_compute. discriminate.
Defined.

(** With chunked prefill the score of a prefilling job can fall below one: another job's entry takes
    half of the budget, and the quadratic cost of the two halves is less than that of the whole. *)
Lemma chunked_prediction_below_one :
  let quad := mkHaloStepCostModel 1%Qc 0%Qc 0%Qc 0%Qc 0%Qc 0%Qc None None HALO_STEP_FORM_V1 JNull in
  let call rid n := mkActiveCallInfo rid true n 0 0 0 (Qc_ofZ 0) in
  ∃ p, dict_get (job_predict quad [demo_input "A" [call "a" 4]; demo_input "B" [call "b" 8]] demo_new (Some 8)) "B"
         = Some p ∧ Qclt p 1%Qc.
Proof. eexists. split; [reflexivity|]. vm_compute. reflexivity. Qed.
