(* ===== verification/HaloController.v ===== *)
(** * The Halo controller

    Models [src/python/sglang/srt/managers/halo/controller.py] ([HaloConfig], [HaloController]) and
    the counters of [src/python/sglang/srt/managers/halo/metrics.py].  The controller composes the
    registry (HaloRegistry), the slowdown tracker (HaloTracker) and the admission predictors
    (HaloAdmission): registration of programs, the admission hook [register_request] with its
    ordered checks, the finish hook, and the periodic [tick].  A JSONL log is the list of its rows;
    a Prometheus counter is the list or number of its increments.  [now] is a reading of the
    monotonic clock.

    The theorems: requests in flight never exceed the declared concurrency of their job; a
    rejection changes nothing in the registry; a job that was admitted is never rejected mid-chain
    by the job-scoped gate, and a dry run only rejects for the strict-mode reasons and the
    concurrency cap; a job abandoned by its client is collected by the ticks. *)

From S2P Require Import Prelude PyFloat PyDict CostModel HaloRegistry HaloTracker HaloAdmission.
From Stdlib Require Import Ascii.
Open Scope Z_scope.

(** [s.lower()] of an ASCII string. *)
Definition ascii_lower (c : ascii) : ascii :=
  let n := nat_of_ascii c in
  if bool_decide ((65 ≤ n)%nat) && bool_decide ((n ≤ 90)%nat) then ascii_of_nat (n + 32) else c.
Fixpoint string_lower (s : string) : string :=
  match s with
  | EmptyString => EmptyString
  | String c s => String (ascii_lower c) (string_lower s)
  end.

(** Truthiness of an optional path. *)
Definition truthy (p : option string) : bool :=
  match p with Some s => negb (bool_decide (s = EmptyString)) | None => false end.

Section controller.
Context {F : Type} `{PyNum F}.

Record HaloConfig := mkHaloConfig {
  hc_enabled : bool;
  hc_default_slo : F;
  hc_tick_interval_ms : F;
  hc_aggregator : string;
  hc_job_log_path : option string;
  hc_prefill_cost_model_path : option string;
  hc_tbt_cost_model_path : option string;
  hc_step_cost_model_path : option string;
  hc_gc_retain_seconds : F;
  hc_program_idle_timeout_seconds : F;
  hc_job_log_interval_seconds : F;
  hc_quiescent_timeout_seconds : F;
  hc_admission_mode : string;
  hc_admission_violation_threshold : F;
  hc_admission_lookahead_horizon_sec : F;
  hc_admission_dry_run : bool;
  hc_admission_decision_log_path : option string;
  hc_admission_kv_cap_ratio : F
}.

Inductive AdmissionPredictor :=
| JobSlowdownAdmissionPredictor (m : HaloStepCostModel F)
| RequestSlowdownAdmissionPredictor (m : HaloStepCostModel F).

Definition is_request_mode (p : AdmissionPredictor) : bool :=
  match p with RequestSlowdownAdmissionPredictor _ => true | _ => false end.

Definition mode_name (p : AdmissionPredictor) : string := if is_request_mode p then "request" else "job".

Definition predict (p : AdmissionPredictor) :=
  match p with
  | JobSlowdownAdmissionPredictor m => job_predict m
  | RequestSlowdownAdmissionPredictor m => request_predict m
  end.

(** The metrics the controller drives. *)
Record HaloMetrics := mkHaloMetrics {
  hm_programs_registered : Z;
  hm_programs_rejected : list halo_reason;
  hm_requests_admitted : Z;
  hm_requests_rejected : list halo_reason;
  hm_slo_violations : Z;
  hm_active_jobs : Z;
  hm_total_known_jobs : Z;
  hm_mean_vjs : F;
  hm_max_vjs : F
}.

Definition record_program_registered (m : HaloMetrics) : HaloMetrics :=
  mkHaloMetrics (hm_programs_registered m + 1) (hm_programs_rejected m) (hm_requests_admitted m)
    (hm_requests_rejected m) (hm_slo_violations m) (hm_active_jobs m) (hm_total_known_jobs m) (hm_mean_vjs m)
    (hm_max_vjs m).

Definition record_program_rejected (r : halo_reason) (m : HaloMetrics) : HaloMetrics :=
  mkHaloMetrics (hm_programs_registered m) (hm_programs_rejected m ++ [r]) (hm_requests_admitted m)
    (hm_requests_rejected m) (hm_slo_violations m) (hm_active_jobs m) (hm_total_known_jobs m) (hm_mean_vjs m)
    (hm_max_vjs m).

Definition record_request_admitted (m : HaloMetrics) : HaloMetrics :=
  mkHaloMetrics (hm_programs_registered m) (hm_programs_rejected m) (hm_requests_admitted m + 1)
    (hm_requests_rejected m) (hm_slo_violations m) (hm_active_jobs m) (hm_total_known_jobs m) (hm_mean_vjs m)
    (hm_max_vjs m).

Definition record_request_rejected (r : halo_reason) (m : HaloMetrics) : HaloMetrics :=
  mkHaloMetrics (hm_programs_registered m) (hm_programs_rejected m) (hm_requests_admitted m)
    (hm_requests_rejected m ++ [r]) (hm_slo_violations m) (hm_active_jobs m) (hm_total_known_jobs m)
    (hm_mean_vjs m) (hm_max_vjs m).

Definition update_from_sweep (actives : list (Job F)) (total_known delta : Z) (m : HaloMetrics) : HaloMetrics :=
  let n := zlen actives in
  let violations := if bool_decide (0 < delta) then hm_slo_violations m + delta else hm_slo_violations m in
  let '(mean, peak) :=
    if bool_decide (n = 0) then (fofZ 0, fofZ 0)
    else
      let '(sum_vjs, peak_vjs) := foldl (λ '(sum, peak) j,
        (fadd sum (virtual_job_slowdown j),
         if fgt (virtual_job_slowdown j) peak then virtual_job_slowdown j else peak)) (fofZ 0, fofZ 0) actives in
      (fdiv sum_vjs (fofZ n), peak_vjs) in
  mkHaloMetrics (hm_programs_registered m) (hm_programs_rejected m) (hm_requests_admitted m)
    (hm_requests_rejected m) violations n total_known mean peak.

(** Rows of the JSONL logs. *)
Inductive job_log_row :=
| LRegisterProgram (ts : F) (job : dict (json F))
| LJobComplete (ts : F) (why : string) (job : dict (json F))
| LActiveJobs (ts : F) (jobs : list (dict (json F))).

Inductive admission_log_row :=
| LKvCap (rid job_id : string) (dry_run : bool) (decision : string) (kv_usage_ratio kv_cap_ratio : F)
| LAdmission (rid job_id : string) (is_first_call dry_run : bool) (d : AdmissionDecisionResult F).

Record HaloController := mkHaloController {
  ctl_config : HaloConfig;
  ctl_is_rank0 : bool;
  ctl_registry : JobRegistry F;
  ctl_tracker : SlowdownTracker F;
  ctl_log : option (list job_log_row);
  ctl_metrics : option HaloMetrics;
  ctl_last_total_violations : Z;
  ctl_last_tick : F;
  ctl_tick_interval_s : F;
  ctl_last_log : F;
  ctl_log_interval_s : F;
  ctl_admission_predictor : option AdmissionPredictor;
  ctl_kv_cap_enabled : bool;
  ctl_admission_log : option (list admission_log_row)
}.

(** The mutable parts. *)
Definition ctl_with (c : HaloController) reg log metrics violations tick llog alog : HaloController :=
  mkHaloController (ctl_config c) (ctl_is_rank0 c) reg (ctl_tracker c) log metrics violations tick
    (ctl_tick_interval_s c) llog (ctl_log_interval_s c) (ctl_admission_predictor c) (ctl_kv_cap_enabled c) alog.

Definition set_registry (r : JobRegistry F) (c : HaloController) : HaloController :=
  ctl_with c r (ctl_log c) (ctl_metrics c) (ctl_last_total_violations c) (ctl_last_tick c) (ctl_last_log c)
    (ctl_admission_log c).
Definition on_metrics (f : HaloMetrics → HaloMetrics) (c : HaloController) : HaloController :=
  ctl_with c (ctl_registry c) (ctl_log c) (f <$> ctl_metrics c) (ctl_last_total_violations c) (ctl_last_tick c)
    (ctl_last_log c) (ctl_admission_log c).
Definition write_log (rows : list job_log_row) (c : HaloController) : HaloController :=
  ctl_with c (ctl_registry c) ((λ l, l ++ rows) <$> ctl_log c) (ctl_metrics c) (ctl_last_total_violations c)
    (ctl_last_tick c) (ctl_last_log c) (ctl_admission_log c).
Definition write_admission_log (row : admission_log_row) (c : HaloController) : HaloController :=
  ctl_with c (ctl_registry c) (ctl_log c) (ctl_metrics c) (ctl_last_total_violations c) (ctl_last_tick c)
    (ctl_last_log c) ((λ l, l ++ [row]) <$> ctl_admission_log c).

Definition build_admission_predictor (config : HaloConfig) (step_cost : option (HaloStepCostModel F))
    : option AdmissionPredictor :=
  let mode := string_lower (if bool_decide (hc_admission_mode config = EmptyString) then "off"
                            else hc_admission_mode config) in
  if bool_decide (mode = "off") then None
  else
    match step_cost with
    | None => None
    | Some m =>
        if bool_decide (mode = "job") || bool_decide (mode = "level0") then Some (JobSlowdownAdmissionPredictor m)
        else if bool_decide (mode = "request") then Some (RequestSlowdownAdmissionPredictor m)
        else if bool_decide (mode = "level2") then Some (JobSlowdownAdmissionPredictor m)
        else None
    end.

(** [__init__]: [fs] is the file system the cost models are read from, [can_open] says which log
    files can be opened. *)
Definition HaloController_init (float_str : string → option F) (fs : string → file F) (can_open : string → bool)
    (config : HaloConfig) (is_rank0 : bool) : HaloController :=
  let step_cost := try_load_halo_step_cost_model float_str (hc_step_cost_model_path config) fs in
  let '(prefill_cost, tbt_cost) :=
    match step_cost with
    | Some _ => (None, None)
    | None => (try_load_prefill_cost_model float_str (hc_prefill_cost_model_path config) fs,
               try_load_tbt_cost_model float_str (hc_tbt_cost_model_path config) fs)
    end in
  let open_log {A} (p : option string) : option (list A) :=
    match p with Some s => if can_open s then Some [] else None | None => None end in
  let predictor := build_admission_predictor config step_cost in
  let kv_cap := (fofZ 0 <? hc_admission_kv_cap_ratio config)%F && (hc_admission_kv_cap_ratio config <? fofZ 1)%F in
  mkHaloController config is_rank0 JobRegistry_init (mkSlowdownTracker prefill_cost tbt_cost step_cost)
    (if is_rank0 && truthy (hc_job_log_path config) then open_log (hc_job_log_path config) else None)
    None 0 (fofZ 0) (fmax (hc_tick_interval_ms config) (fofZ 0) / fofZ 1000)%F
    (fofZ 0) (fmax (hc_job_log_interval_seconds config) (fofZ 0))
    predictor kv_cap
    (if is_rank0 && truthy (hc_admission_decision_log_path config) && (bool_decide (is_Some predictor) || kv_cap)
     then open_log (hc_admission_decision_log_path config) else None).

(** ** Admission *)

Definition build_active_jobs_input (r : JobRegistry F) (infos : list (RequestExecutionInfo F))
    (exclude_job_id : option string) : list (JobLookaheadInput F) :=
  let keep i :=
    negb (bool_decide (is_Some exclude_job_id ∧ ri_job_id i = exclude_job_id))
    && negb (bool_decide (ri_kv_len_now i ≤ 0)) in
  omap (λ '(jid, info_list),
    (λ job,
      mkJobLookaheadInput jid (j_slo job)
        ((λ i, mkActiveCallInfo (ri_rid i) (bool_decide (ri_decoded_tokens_so_far i ≤ 0)) (ri_prompt_len i)
                 (ri_prefix_len_at_admission i) (ri_decoded_tokens_so_far i) (ri_kv_len_now i) (ri_elapsed_ms i))
         <$> info_list)
        (fofZ 0) (fofZ 0) None None None None None) <$> job_for_id r jid) (group_by_job keep infos).

Definition build_new_job_input (job : Job F) (slo : F) (prompt_len prefix_len : Z) : NewJobInput F :=
  mkNewJobInput (job_id job) slo prompt_len prefix_len 0 (total_calls_expected job) (stage_sequence job)
    (expected_input_lens job) (expected_output_lens job) None.

(** The objectives, keyed as the predictions are. *)
Definition slos_map (p : AdmissionPredictor) (active : list (JobLookaheadInput F)) : dict F :=
  if is_request_mode p then
    foldl (λ d j, foldl (λ d c, dict_set d (ac_rid c) (jl_slo j)) d (jl_active_calls j)) [] active
  else foldl (λ d j, dict_set d (jl_job_id j) (jl_slo j)) [] active.

Definition stage_a_decide (c : HaloController) (p : AdmissionPredictor) (job : Job F) (new_slo : F)
    (prompt_len prefix_len : Z) (infos : list (RequestExecutionInfo F)) (exclude_job_id : option string)
    (chunked_prefill_size : option Z) : AdmissionDecisionResult F :=
  let active := build_active_jobs_input (ctl_registry c) infos exclude_job_id in
  let new := build_new_job_input job new_slo prompt_len prefix_len in
  decide_admission (predict p active new chunked_prefill_size) (slos_map p active)
    (hc_admission_violation_threshold (ctl_config c)) (mode_name p) None.

(** The outcome of the admission hook: the job, the [HaloRejectError], or a KeyError. *)
Inductive request_outcome :=
| ReqAdmitted (job : Job F)
| ReqRejected (r : halo_reason)
| RaisedKeyError.

Definition reject (r : halo_reason) (c : HaloController) : HaloController * request_outcome :=
  (on_metrics (record_request_rejected r) c, ReqRejected r).

(** Step 6: [admit_to_job] and the counters. *)
Definition finally_admit (now : F) (rid id : string) (c : HaloController) : HaloController * request_outcome :=
  match admit_to_job now id rid (ctl_registry c) with
  | None => (c, RaisedKeyError)
  | Some (r', res) =>
      let c' := set_registry r' c in
      match jar_admitted res, jar_job res with
      | true, Some job => (on_metrics record_request_admitted c', ReqAdmitted job)
      | _, _ => reject (default REASON_PROGRAM_NOT_REGISTERED (jar_reason res)) c'
      end
  end.

(** Step 5: the concurrency cap. *)
Definition concurrency_check (now : F) (rid id : string) (job : Job F) (c : HaloController) :=
  match declared_max_concurrency job with
  | Some cap => if bool_decide (cap ≤ in_flight_count job) then reject REASON_HALO_CONCURRENCY_CAP c
                else finally_admit now rid id c
  | None => finally_admit now rid id c
  end.

(** Step 4: Stage A. *)
Definition stage_a (now : F) (rid id : string) (job : Job F) (slo : F) (prompt_len prefix_len : Z)
    (infos : option (list (RequestExecutionInfo F))) (chunk : option Z) (c : HaloController) :=
  let is_first := bool_decide (total_request_number job = 0) in
  match ctl_admission_predictor c, infos with
  | Some p, Some infos =>
      if is_request_mode p || is_first then
        let exclude := if is_request_mode p then None else Some id in
        let d := stage_a_decide c p job slo prompt_len prefix_len infos exclude chunk in
        let c1 := write_admission_log (LAdmission rid id is_first (hc_admission_dry_run (ctl_config c)) d) c in
        if negb (ad_admit d) && negb (hc_admission_dry_run (ctl_config c))
        then reject REASON_HALO_ADMISSION_PREDICTED c1
        else concurrency_check now rid id job c1
      else concurrency_check now rid id job c
  | _, _ => concurrency_check now rid id job c
  end.

(** Step 3: the KV cap on a job's first request. *)
Definition kv_cap_hit (c : HaloController) (job : Job F) (kv_usage_ratio : option F) : option F :=
  match kv_usage_ratio with
  | Some u =>
      if bool_decide (total_request_number job = 0) && ctl_kv_cap_enabled c
         && fge u (hc_admission_kv_cap_ratio (ctl_config c))
      then Some u else None
  | None => None
  end.

Definition register_request (now : F) (rid : string) (halo_job_id : option string) (halo_slo : option F)
    (prompt_len prefix_len : Z) (infos : option (list (RequestExecutionInfo F))) (kv_usage_ratio : option F)
    (chunked_prefill_size : option Z) (c : HaloController) : HaloController * request_outcome :=
  match halo_job_id with
  | None => reject REASON_NO_JOB_ID c
  | Some id =>
      if bool_decide (id = EmptyString) then reject REASON_NO_JOB_ID c
      else
        let slo := default (hc_default_slo (ctl_config c)) halo_slo in
        match job_for_id (ctl_registry c) id with
        | None => reject REASON_PROGRAM_NOT_REGISTERED c
        | Some job =>
            let dry := hc_admission_dry_run (ctl_config c) in
            match kv_cap_hit c job kv_usage_ratio with
            | Some u =>
                let c1 := write_admission_log
                  (LKvCap rid id dry (if dry then "admit" else "reject") u
                     (hc_admission_kv_cap_ratio (ctl_config c))) c in
                if negb dry then reject REASON_HALO_KV_CAP c1
                else stage_a now rid id job slo prompt_len prefix_len infos chunked_prefill_size c1
            | None => stage_a now rid id job slo prompt_len prefix_len infos chunked_prefill_size c
            end
        end
  end.

(** ** Programs, completions and ticks *)

Record HaloRegisterProgramResult := mkHaloRegisterProgramResult {
  hr_registered : bool;
  hr_job_id : string;
  hr_reason : option halo_reason;
  hr_active_jobs : Z;
  hr_existing : option (dict (json F))
}.

(** [None] is the ValueError of an invalid objective. *)
Definition register_program (now : F) (id : string) (slo : F) (total_calls : option Z) (seq : option (list string))
    (ins outs : option (list Z)) (d : option (json F)) (cap : option Z) (c : HaloController)
    : option (HaloController * HaloRegisterProgramResult) :=
  if negb (hc_enabled (ctl_config c)) then
    Some (on_metrics (record_program_rejected REASON_HALO_DISABLED) c,
          mkHaloRegisterProgramResult false id (Some REASON_HALO_DISABLED) 0 None)
  else
    '(r, fresh, job) ← registry_register_program now id slo total_calls seq ins outs d cap (ctl_registry c);
    let c1 := set_registry r c in
    if negb fresh then
      Some (on_metrics (record_program_rejected REASON_JOB_ID_ALREADY_REGISTERED) c1,
            mkHaloRegisterProgramResult false id (Some REASON_JOB_ID_ALREADY_REGISTERED) 0 (Some (Job_to_dict job)))
    else
      let c2 := write_log [LRegisterProgram now (Job_to_dict job)] c1 in
      Some (on_metrics record_program_registered c2,
            mkHaloRegisterProgramResult true id None (zlen (active_jobs r)) None).

Definition on_request_finished (now : F) (rid : string) (finished_info : option (RequestExecutionInfo F))
    (halo_job_done : bool) (c : HaloController) : HaloController :=
  let c1 :=
    match finished_info, rid_to_job (ctl_registry c) !! rid with
    | Some i, Some id =>
        set_registry (update_job id (record_completed_call now (span_from_info i)) (ctl_registry c)) c
    | _, _ => c
    end in
  let c2 :=
    if halo_job_done then
      let '(r, job) := mark_job_done now rid (ctl_registry c1) in
      let c' := set_registry r c1 in
      match job with
      | Some j => write_log [LJobComplete now "halo_job_done" (Job_to_dict j)] c'
      | None => c'
      end
    else c1 in
  set_registry (record_completion now rid (ctl_registry c2)).1 c2.

Definition should_tick (now : F) (c : HaloController) : bool :=
  (ctl_tick_interval_s c <=? now - ctl_last_tick c)%F.

Definition log_due (now : F) (c : HaloController) : bool :=
  bool_decide (is_Some (ctl_log c))
  && ((ctl_log_interval_s c <=? fofZ 0)%F || (ctl_log_interval_s c <=? now - ctl_last_log c)%F).

(** The registry part of a due tick: sweep, then the three collections. *)
Definition tick_registry (c : HaloController) (clock : F) (infos : list (RequestExecutionInfo F))
    : JobRegistry F * list (Job F) :=
  let cfg := ctl_config c in
  let r1 := sweep (ctl_tracker c) clock infos (ctl_registry c) in
  let '(r2, flipped) := gc_quiescent_jobs clock (hc_quiescent_timeout_seconds cfg) r1 in
  let r3 := (gc_completed clock (hc_gc_retain_seconds cfg) r2).1 in
  ((gc_idle_programs clock (hc_program_idle_timeout_seconds cfg) r3).1, flipped).

(** [tick]: [now] is the caller's time, [clock] the monotonic clock the registry reads. *)
Definition tick (now clock : F) (infos : list (RequestExecutionInfo F)) (c : HaloController) : HaloController :=
  if (now - ctl_last_tick c <? ctl_tick_interval_s c)%F then c
  else
    let c0 := ctl_with c (ctl_registry c) (ctl_log c) (ctl_metrics c) (ctl_last_total_violations c) now
                (ctl_last_log c) (ctl_admission_log c) in
    let swept := sweep (ctl_tracker c0) clock infos (ctl_registry c0) in
    let c1 :=
      if log_due now c0 then
        let c' := write_log [LActiveJobs now (Job_to_dict <$> active_jobs swept)] c0 in
        ctl_with c' (ctl_registry c') (ctl_log c') (ctl_metrics c') (ctl_last_total_violations c')
          (ctl_last_tick c') now (ctl_admission_log c')
      else c0 in
    let '(r, flipped) := tick_registry c0 clock infos in
    let c2 := write_log ((λ j, LJobComplete clock "quiescent_timeout" (Job_to_dict j)) <$> flipped) c1 in
    let c3 := set_registry r c2 in
    match ctl_metrics c3 with
    | None => c3
    | Some m =>
        let total := foldr Z.add 0 (slo_violation_count <$> all_jobs r) in
        let delta := Z.max 0 (total - ctl_last_total_violations c3) in
        ctl_with c3 r (ctl_log c3) (Some (update_from_sweep (active_jobs r) (zlen (all_jobs r)) delta m)) total
          (ctl_last_tick c3) (ctl_last_log c3) (ctl_admission_log c3)
    end.

(** ** Runs *)

Inductive halo_op :=
| HRegisterProgram (id : string) (slo : F) (total_calls : option Z) (seq : option (list string))
    (ins outs : option (list Z)) (d : option (json F)) (cap : option Z)
| HRegisterRequest (rid : string) (halo_job_id : option string) (halo_slo : option F) (prompt_len prefix_len : Z)
    (infos : option (list (RequestExecutionInfo F))) (kv_usage_ratio : option F) (chunk : option Z)
| HFinished (rid : string) (info : option (RequestExecutionInfo F)) (job_done : bool)
| HTick (clock : F) (infos : list (RequestExecutionInfo F)).

(** The controller after an operation; a ValueError leaves it as it is. *)
Definition halo_step (c : HaloController) (o : halo_op) (now : F) : HaloController :=
  match o with
  | HRegisterProgram id slo tc seq ins outs d cap =>
      match register_program now id slo tc seq ins outs d cap c with Some (c', _) => c' | None => c end
  | HRegisterRequest rid id slo p x infos kv chunk => (register_request now rid id slo p x infos kv chunk c).1
  | HFinished rid info done => on_request_finished now rid info done c
  | HTick clock infos => tick now clock infos c
  end.

(** The controller after a run that starts from a fresh registry. *)
Inductive halo_reachable : HaloController → Prop :=
| halo_init c : ctl_registry c = JobRegistry_init → halo_reachable c
| halo_next c o now : halo_reachable c → halo_reachable (halo_step c o now).

End controller.

Arguments HaloConfig F : clear implicits.
Arguments HaloMetrics F : clear implicits.
Arguments AdmissionPredictor F : clear implicits.
Arguments HaloController F : clear implicits.
Arguments request_outcome F : clear implicits.
Arguments halo_op F : clear implicits.

(** ** Invariants of runs *)

Section runs.
Context {F : Type} `{PyNum F}.
Implicit Types (c : HaloController F) (r : JobRegistry F) (j : Job F).

(** A property of every registered job. *)
Definition all_satisfy (P : Job F → Prop) r : Prop := ∀ id j, job_for_id r id = Some j → P j.

Lemma all_satisfy_set P r id j m :
  all_satisfy P r → P j → all_satisfy P (mkJobRegistry (dict_set (jobs r) id j) m).
Proof.
  intros Hr Hj id' j'. unfold job_for_id. simpl. rewrite dict_get_set.
  case_bool_decide; [by intros [= <-]|by apply Hr].
Qed.

Lemma all_satisfy_update P r id f : (∀ j, P j → P (f j)) → all_satisfy P r → all_satisfy P (update_job id f r).
Proof.
  intros Hf Hr. unfold update_job. destruct (dict_get (jobs r) id) eqn:Hg; [|done].
  apply all_satisfy_set; [done|]. apply Hf. by eapply Hr.
Qed.

Lemma all_satisfy_pops P r ks m :
  all_satisfy P r → all_satisfy P (mkJobRegistry (foldl dict_pop (jobs r) ks) m).
Proof.
  intros Hr id j. unfold job_for_id. simpl. rewrite dict_get_pops. case_bool_decide; [done|by apply Hr].
Qed.

Lemma all_satisfy_fmap P r f :
  (∀ j, P j → P (f j)) → all_satisfy P r → all_satisfy P (mkJobRegistry (prod_map id f <$> jobs r) (rid_to_job r)).
Proof.
  intros Hf Hr id j. unfold job_for_id. simpl. rewrite dict_get_fmap.
  intros (j0 & Hg & ->)%fmap_Some. apply Hf. by eapply Hr.
Qed.

(** The declared concurrency is respected. *)
Definition cap_ok j : Prop := ∀ k, declared_max_concurrency j = Some k → in_flight_count j ≤ Z.max 0 k.

Lemma cap_ok_kept f :
  (∀ j, declared_max_concurrency (f j) = declared_max_concurrency j ∧ in_flight_count (f j) ≤ in_flight_count j) →
  ∀ j, cap_ok j → cap_ok (f j).
Proof. intros Hf j Hj k. destruct (Hf j) as [-> Hle]. intros Hk%Hj. lia. Qed.

Lemma cap_ok_completed now rid j : cap_ok j → cap_ok (on_request_completed now rid j).
Proof. apply cap_ok_kept. intros j'. simpl. split; [done|]. case_bool_decide; lia. Qed.

Lemma cap_record_completion now rid r :
  all_satisfy cap_ok r → all_satisfy cap_ok (record_completion now rid r).1.
Proof.
  intros Hr. unfold record_completion. destruct (rid_to_job r !! rid) as [id|]; [|done]. simpl.
  destruct (dict_get (jobs r) id) as [j|] eqn:Hg; [|exact Hr].
  apply (all_satisfy_set cap_ok r); [done|]. apply cap_ok_completed. by eapply Hr.
Qed.

Lemma mark_job_done_update now rid r :
  (mark_job_done now rid r).1
  = match rid_to_job r !! rid with Some id => update_job id (mark_done now) r | None => r end.
Proof. unfold mark_job_done, update_job. repeat case_match; done. Qed.

Lemma cap_tick_registry c clock infos :
  all_satisfy cap_ok (ctl_registry c) → all_satisfy cap_ok (tick_registry c clock infos).1.
Proof.
  intros Hr. unfold tick_registry.
  assert (H1 : all_satisfy cap_ok (sweep (ctl_tracker c) clock infos (ctl_registry c))).
  { rewrite sweep_unfold. generalize (group_by_job (λ _, true) infos). intros d.
    revert Hr. generalize (ctl_registry c). induction d as [|[id l] d IH]; intros r Hr; simpl; [done|].
    apply IH. unfold sweep_job. simpl. case_match; [|done].
    apply all_satisfy_update; [|done]. by apply cap_ok_kept. }
  destruct (gc_quiescent_jobs _ _ _) as [r2 flipped] eqn:Hq. cbn [fst].
  assert (H2 : all_satisfy cap_ok r2).
  { unfold gc_quiescent_jobs in Hq. case_match; simplify_eq; [done|]. apply all_satisfy_fmap; [|done].
    intros j Hj. case_match; [|done]. by apply (cap_ok_kept (mark_done clock)). }
  assert (H3 : all_satisfy cap_ok (gc_completed clock (hc_gc_retain_seconds (ctl_config c)) r2).1)
    by (by apply all_satisfy_pops).
  unfold gc_idle_programs. case_match; [done|]. by apply all_satisfy_pops.
Qed.

Lemma tick_registry_reachable c clock infos :
  registry_reachable (ctl_registry c) → registry_reachable (tick_registry c clock infos).1.
Proof.
  intros Hr. unfold tick_registry.
  pose proof (sweep_reachable (ctl_tracker c) clock infos _ Hr) as H1.
  pose proof (reg_next _ (RGcQuiescent (hc_quiescent_timeout_seconds (ctl_config c))) clock _ H1 eq_refl) as H2.
  destruct (gc_quiescent_jobs _ _ _) as [r2 flipped]. cbn [fst] in *.
  pose proof (reg_next _ (RGcCompleted (hc_gc_retain_seconds (ctl_config c))) clock _ H2 eq_refl) as H3.
  exact (reg_next _ (RGcIdle (hc_program_idle_timeout_seconds (ctl_config c))) clock _ H3 eq_refl).
Qed.

Lemma tick_registry_eq now clock infos c :
  ctl_registry (tick now clock infos c)
  = if (now - ctl_last_tick c <? ctl_tick_interval_s c)%F then ctl_registry c
    else (tick_registry c clock infos).1.
Proof.
  unfold tick. case_match; [done|].
  assert (Ht : tick_registry (ctl_with c (ctl_registry c) (ctl_log c) (ctl_metrics c) (ctl_last_total_violations c)
                 now (ctl_last_log c) (ctl_admission_log c)) clock infos = tick_registry c clock infos) by done.
  rewrite Ht. destruct (tick_registry c clock infos) as [r flipped]. cbn [fst].
  destruct (log_due _ _); simpl; by destruct (ctl_metrics c).
Qed.

(** A due tick only moves the time of the last tick among the static fields. *)
Lemma tick_static now clock infos c :
  (now - ctl_last_tick c <? ctl_tick_interval_s c)%F = false →
  let c' := tick now clock infos c in
  ctl_config c' = ctl_config c ∧ ctl_tick_interval_s c' = ctl_tick_interval_s c ∧ ctl_last_tick c' = now.
Proof.
  intros Hd c'. subst c'. unfold tick. rewrite Hd. destruct (tick_registry _ _ _) as [r flipped].
  destruct (log_due _ _); simpl; by destruct (ctl_metrics c).
Qed.

(** ** The admission hook *)

(** What a registered request went through. *)
Definition gate_spec (now : F) (rid id : string) j c (res : HaloController F * request_outcome F) : Prop :=
  (∃ reason, res.2 = ReqRejected reason ∧ ctl_registry res.1 = ctl_registry c)
  ∨ (∃ job', res.2 = ReqAdmitted job'
     ∧ admit_to_job now id rid (ctl_registry c)
       = Some (ctl_registry res.1, mkJobAdmissionResult true (Some job') None)
     ∧ ∀ k, declared_max_concurrency j = Some k → in_flight_count j < k).

Lemma finally_admit_spec now rid id j c :
  reg_inv (ctl_registry c) → job_for_id (ctl_registry c) id = Some j →
  (∀ k, declared_max_concurrency j = Some k → in_flight_count j < k) →
  ∃ job', (finally_admit now rid id c).2 = ReqAdmitted job'
    ∧ admit_to_job now id rid (ctl_registry c)
      = Some (ctl_registry (finally_admit now rid id c).1, mkJobAdmissionResult true (Some job') None).
Proof.
  intros Hi Hj Hk. unfold finally_admit.
  assert (Ha : ∃ r' jres job', admit_to_job now id rid (ctl_registry c) = Some (r', jres)
                ∧ jres = mkJobAdmissionResult true (Some job') None).
  { unfold job_for_id in Hj. destruct Hi as (_ & _ & Hown). unfold admit_to_job. rewrite Hj.
    destruct (rid_to_job (ctl_registry c) !! rid) as [id0|] eqn:Hm; [|by eauto 10].
    case_bool_decide; [|by eauto 10]. apply Hown in Hm as (j0 & Hg0 & _). rewrite Hg0. simpl. eauto 10. }
  destruct Ha as (r' & jres & job' & Ha & ->). rewrite Ha. cbn. by eauto.
Qed.

(** The checks after the strict mode, in order. *)
Lemma concurrency_check_spec now rid id j c :
  reg_inv (ctl_registry c) → job_for_id (ctl_registry c) id = Some j →
  let res := concurrency_check now rid id j c in
  gate_spec now rid id j c res
  ∧ (∀ reason, res.2 = ReqRejected reason → reason = REASON_HALO_CONCURRENCY_CAP
       ∧ ∃ k, declared_max_concurrency j = Some k ∧ k ≤ in_flight_count j).
Proof.
  intros Hi Hj res. subst res. unfold concurrency_check.
  destruct (declared_max_concurrency j) as [k|] eqn:Hk; [case_bool_decide as Hle|].
  - split; [left; by eexists|]. intros reason [= <-]. by eauto.
  - destruct (finally_admit_spec now rid id j c Hi Hj) as (job' & Hr & Ha); [naive_solver lia|].
    rewrite Hr. split; [|done]. right. exists job'. split_and!; [done..|naive_solver lia].
  - destruct (finally_admit_spec now rid id j c Hi Hj) as (job' & Hr & Ha); [by rewrite Hk|].
    rewrite Hr. split; [|done]. right. exists job'. split_and!; [done..|by rewrite Hk].
Qed.

Lemma stage_a_spec now rid id j slo p x infos chunk c :
  reg_inv (ctl_registry c) → job_for_id (ctl_registry c) id = Some j →
  let res := stage_a now rid id j slo p x infos chunk c in
  gate_spec now rid id j c res
  ∧ (∀ reason, res.2 = ReqRejected reason →
       (reason = REASON_HALO_CONCURRENCY_CAP ∧ ∃ k, declared_max_concurrency j = Some k ∧ k ≤ in_flight_count j)
       ∨ (reason = REASON_HALO_ADMISSION_PREDICTED ∧ hc_admission_dry_run (ctl_config c) = false
          ∧ ∃ pr, ctl_admission_predictor c = Some pr
              ∧ (is_request_mode pr = true ∨ total_request_number j = 0))).
Proof.
  intros Hi Hj res. subst res. unfold stage_a.
  pose proof (concurrency_check_spec now rid id j c Hi Hj) as [Hg Hc].
  destruct (ctl_admission_predictor c) as [pr|] eqn:Hp; [|by eauto].
  destruct infos as [infos|]; [|by eauto].
  destruct (is_request_mode pr || _) eqn:Hm; [|by eauto].
  cbv zeta. set (d := stage_a_decide _ _ _ _ _ _ _ _ _).
  set (c1 := write_admission_log _ c).
  pose proof (concurrency_check_spec now rid id j c1 Hi Hj) as [Hg1 Hc1].
  destruct (negb (ad_admit d) && _) eqn:Hd.
  - split; [left; by eexists|]. intros reason [= <-]. right.
    apply andb_true_iff in Hd as [_ Hd%negb_true_iff]. split_and!; [done..|]. exists pr. split; [done|].
    apply orb_true_iff in Hm as [?|Ht%bool_decide_eq_true]; auto.
  - split; [exact Hg1|]. intros reason Hr. left. by apply Hc1.
Qed.

(** The reasons a request of a registered job can be rejected for. *)
Definition rejection_cause j c (reason : halo_reason) : Prop :=
  (reason = REASON_HALO_CONCURRENCY_CAP ∧ ∃ k, declared_max_concurrency j = Some k ∧ k ≤ in_flight_count j)
  ∨ (hc_admission_dry_run (ctl_config c) = false
     ∧ (reason = REASON_HALO_KV_CAP ∧ ctl_kv_cap_enabled c = true ∧ total_request_number j = 0
        ∨ reason = REASON_HALO_ADMISSION_PREDICTED
          ∧ ∃ pr, ctl_admission_predictor c = Some pr
              ∧ (is_request_mode pr = true ∨ total_request_number j = 0))).

Lemma register_request_registered now rid id slo p x infos kv chunk c j :
  reg_inv (ctl_registry c) → id ≠ EmptyString → job_for_id (ctl_registry c) id = Some j →
  let res := register_request now rid (Some id) slo p x infos kv chunk c in
  gate_spec now rid id j c res ∧ (∀ reason, res.2 = ReqRejected reason → rejection_cause j c reason).
Proof.
  intros Hi Hid Hj res. subst res. unfold register_request, rejection_cause.
  rewrite bool_decide_eq_false_2 by done. rewrite Hj.
  destruct (kv_cap_hit c j kv) as [u|] eqn:Hkv.
  - set (c1 := write_admission_log _ c). destruct (hc_admission_dry_run (ctl_config c)) eqn:Hdry; cbn [negb].
    + destruct (stage_a_spec now rid id j (default (hc_default_slo (ctl_config c)) slo) p x infos chunk c1 Hi Hj)
        as [Hg Hr].
      split; [exact Hg|]. intros reason [?|(_ & Hd & _)]%Hr; [by left|]. simpl in Hd. congruence.
    + split; [left; by eexists|]. intros reason [= <-]. right. split; [done|]. left.
      unfold kv_cap_hit in Hkv. destruct kv; [|done]. case_match eqn:Hb; [|done].
      apply andb_true_iff in Hb as [[Ht%bool_decide_eq_true Hk]%andb_true_iff _]. done.
  - destruct (stage_a_spec now rid id j (default (hc_default_slo (ctl_config c)) slo) p x infos chunk c Hi Hj)
      as [Hg Hr].
    split; [exact Hg|]. intros reason [?|(-> & Hd & Hp)]%Hr; [by left|]. right. split; [done|]. by right.
Qed.

(** What a request does to the registry. *)
Lemma register_request_effect now rid oid slo p x infos kv chunk c :
  reg_inv (ctl_registry c) →
  let res := register_request now rid oid slo p x infos kv chunk c in
  (∃ reason, res.2 = ReqRejected reason ∧ ctl_registry res.1 = ctl_registry c)
  ∨ (∃ id j, oid = Some id ∧ id ≠ EmptyString ∧ job_for_id (ctl_registry c) id = Some j
       ∧ gate_spec now rid id j c res).
Proof.
  intros Hi res. subst res. destruct oid as [id|]; [|left; by eexists].
  destruct (decide (id = EmptyString)) as [->|Hid]; [left; by eexists|].
  destruct (job_for_id (ctl_registry c) id) as [j|] eqn:Hj.
  - right. exists id, j. split_and!; [done..|]. by eapply register_request_registered.
  - left. eexists. unfold register_request. rewrite bool_decide_eq_false_2, Hj by done. done.
Qed.

Lemma admit_to_job_cap now id rid r r' jres j :
  job_for_id r id = Some j → (∀ k, declared_max_concurrency j = Some k → in_flight_count j < k) →
  admit_to_job now id rid r = Some (r', jres) → all_satisfy cap_ok r → all_satisfy cap_ok r'.
Proof.
  intros Hj Hk Ha Hr. unfold admit_to_job, job_for_id in *. rewrite Hj in Ha.
  assert (Hc : cap_ok (on_request_admitted now rid j)).
  { intros k Hd. simpl in *. apply Hk in Hd. lia. }
  destruct (rid_to_job r !! rid) as [id0|]; [case_bool_decide|].
  - destruct (dict_get (jobs r) id0); simpl in Ha; by simplify_eq.
  - simplify_eq. by apply all_satisfy_set.
  - simplify_eq. by apply all_satisfy_set.
Qed.

Lemma finished_registry now rid (info : option (RequestExecutionInfo F)) (done : bool) c :
  ∃ r1, (r1 = ctl_registry c ∨ ∃ id i, r1 = update_job id (record_completed_call now (span_from_info i)) (ctl_registry c))
  ∧ ∃ r2, (r2 = r1 ∨ r2 = (mark_job_done now rid r1).1)
  ∧ ctl_registry (on_request_finished now rid info done c) = (record_completion now rid r2).1.
Proof.
  unfold on_request_finished. cbv zeta.
  set (c1 := match info, _ with Some i, Some id => _ | _, _ => c end).
  exists (ctl_registry c1). split; [subst c1; destruct info, (rid_to_job (ctl_registry c) !! rid); eauto|].
  destruct done; [|by eauto].
  destruct (mark_job_done now rid (ctl_registry c1)) as [r job] eqn:Hm. exists r. split; [by right|].
  by destruct job.
Qed.

Lemma halo_step_inv c o now :
  registry_reachable (ctl_registry c) ∧ all_satisfy cap_ok (ctl_registry c) →
  registry_reachable (ctl_registry (halo_step c o now)) ∧ all_satisfy cap_ok (ctl_registry (halo_step c o now)).
Proof.
  intros [Hr Hc]. destruct o; cbn [halo_step].
  - unfold register_program. destruct (negb _); [done|].
    destruct (registry_register_program _ _ _ _ _ _ _ _ _ _) as [[[r b] j]|] eqn:Hp; [|done]. cbn.
    assert (Hr' : registry_reachable r).
    { eapply (reg_next _ (RRegister id slo total_calls seq ins outs d cap) now); [exact Hr|]. simpl. by rewrite Hp. }
    assert (Hc' : all_satisfy cap_ok r).
    { unfold registry_register_program in Hp. case_match; [done|]. case_match; simplify_eq; [done|].
      apply all_satisfy_set; [done|]. intros k _. simpl. lia. }
    by destruct b.
  - pose proof (registry_inv _ Hr) as Hi.
    destruct (register_request_effect now rid halo_job_id halo_slo prompt_len prefix_len infos kv_usage_ratio
                chunk c Hi) as [(? & _ & ->)|(id & j & -> & _ & Hj & [(? & _ & ->)|(job' & _ & Ha & Hk)])];
      [done..|]. split.
    + eapply (reg_next _ (RAdmit id rid) now); [exact Hr|]. simpl. by rewrite Ha.
    + by eapply admit_to_job_cap.
  - destruct (finished_registry now rid info job_done c) as (r1 & H1 & r2 & H2 & ->).
    assert (registry_reachable r1 ∧ all_satisfy cap_ok r1) as [Hr1 Hc1].
    { destruct H1 as [->|(id & i & ->)]; [done|]. split.
      - by eapply (reg_next _ (RRecordCall id _) now).
      - apply all_satisfy_update; [|done]. by apply cap_ok_kept. }
    assert (registry_reachable r2 ∧ all_satisfy cap_ok r2) as [Hr2 Hc2].
    { destruct H2 as [->| ->]; [done|]. split; [by eapply (reg_next _ (RMarkDone rid) now)|].
      rewrite mark_job_done_update. case_match; [|done].
      apply all_satisfy_update; [|done]. by apply cap_ok_kept. }
    split; [by eapply (reg_next _ (RComplete rid) now)|]. by apply cap_record_completion.
  - rewrite tick_registry_eq. case_match; [done|].
    split; [by apply tick_registry_reachable|by apply cap_tick_registry].
Qed.

Lemma halo_inv c :
  halo_reachable c → registry_reachable (ctl_registry c) ∧ all_satisfy cap_ok (ctl_registry c).
Proof.
  induction 1 as [c Hc|c o now _ IH]; [|by apply halo_step_inv]. rewrite Hc.
  split; [constructor|]. done.
Qed.

(** C27: In every state a controller can reach, whatever the order of registrations, requests,
    completions and ticks, and even when clients reuse request ids, a job with declared
    concurrency [k] has at most [k] requests in flight. *)
Theorem concurrency_respected c (Hc : halo_reachable c) id j k
    (Hj : job_for_id (ctl_registry c) id = Some j) (Hk : declared_max_concurrency j = Some k) :
  Z.of_nat (size (request_ids j)) ≤ in_flight_count j ≤ Z.max 0 k
  ∧ ∀ rid, rid ∈ request_ids j ↔ rid_to_job (ctl_registry c) !! rid = Some id.
Proof.
  destruct (halo_inv c Hc) as [Hr Hcap]. pose proof (registry_inv _ Hr) as Hi.
  pose proof Hi as (_ & Hok & _). destruct (Hok _ _ Hj) as [_ (_ & [Hs _] & _)].
  split; [split; [done|by eapply Hcap]|]. intros rid. symmetry. by apply reg_inv_own.
Qed.

(** Who owns an admitted request. *)
Lemma admit_to_job_owner now id rid r r' j job' :
  job_for_id r id = Some j → admit_to_job now id rid r = Some (r', mkJobAdmissionResult true (Some job') None) →
  ∃ owner, rid_to_job r' !! rid = Some owner
    ∧ (rid_to_job r !! rid = None →
       owner = id ∧ job_for_id r' id = Some job' ∧ in_flight_count job' = in_flight_count j + 1).
Proof.
  intros Hj Ha. unfold admit_to_job, job_for_id in *. rewrite Hj in Ha.
  destruct (rid_to_job r !! rid) as [id0|] eqn:Hm; [case_bool_decide|].
  - destruct (dict_get (jobs r) id0); simplify_eq/=. exists id0. split; [done|congruence].
  - simplify_eq/=. exists id. rewrite lookup_insert_eq. done.
  - simplify_eq/=. exists id. rewrite lookup_insert_eq, dict_get_set_eq. done.
Qed.

(** Strict mode: the answer to a request of no registered job. *)
Definition strict_reason r (oid : option string) : option halo_reason :=
  match oid with
  | None => Some REASON_NO_JOB_ID
  | Some id =>
      if bool_decide (id = EmptyString) then Some REASON_NO_JOB_ID
      else match job_for_id r id with None => Some REASON_PROGRAM_NOT_REGISTERED | Some _ => None end
  end.

Lemma register_request_strict now rid oid slo p x infos kv chunk c reason :
  strict_reason (ctl_registry c) oid = Some reason →
  (register_request now rid oid slo p x infos kv chunk c).2 = ReqRejected reason.
Proof.
  unfold strict_reason, register_request. destruct oid as [id|]; [|by intros [= <-]].
  case_bool_decide; [by intros [= <-]|]. case_match; by intros [= <-].
Qed.


(** ** Abandoned jobs *)

(** What the collections do to one job. *)
Lemma pops_get (P : Job F → bool) (d : dict (Job F)) id :
  NoDup (dict_keys d) →
  dict_get (foldl dict_pop d (dict_keys (filter (λ kv, P kv.2 = true) d))) id
  = j ← dict_get d id; if P j then None else Some j.
Proof.
  intros Hnd. rewrite dict_get_pops. case_bool_decide as Hin.
  - destruct (dict_get d id) as [j|] eqn:Hg; [simpl|done]. by rewrite (collected_keys d P id j Hnd Hin Hg).
  - destruct (dict_get d id) as [j|] eqn:Hg; [simpl|done]. destruct (P j) eqn:HP; [|done].
    exfalso. apply Hin, list_elem_of_fmap. exists (id, j). split; [done|].
    apply list_elem_of_filter. split; [done|by apply dict_get_elem].
Qed.

(** The registry part of a due tick, for a job without snapshots. *)
Lemma tick_registry_get c clock infos id :
  registry_reachable (ctl_registry c) → snapshots_of id infos = [] →
  job_for_id (tick_registry c clock infos).1 id
  = (j ← job_for_id (ctl_registry c) id;
     let q := hc_quiescent_timeout_seconds (ctl_config c) in
     let j1 := if negb (q <=? fofZ 0)%F && quiescent clock q j then mark_done clock j else j in
     if expired clock (hc_gc_retain_seconds (ctl_config c)) j1 then None
     else if negb (hc_program_idle_timeout_seconds (ctl_config c) <=? fofZ 0)%F
             && idle_expired clock (hc_program_idle_timeout_seconds (ctl_config c)) j1
     then None else Some j1).
Proof.
  intros Hr Hs. unfold tick_registry.
  set (q := hc_quiescent_timeout_seconds _). set (ret := hc_gc_retain_seconds _).
  set (idl := hc_program_idle_timeout_seconds _).
  pose proof (sweep_get (ctl_tracker c) clock infos (ctl_registry c) id) as Hg.
  rewrite bool_decide_eq_true_2 in Hg by done.
  pose proof (registry_inv _ (sweep_reachable (ctl_tracker c) clock infos _ Hr)) as H1.
  pose proof (gc_quiescent_inv clock q _ H1) as H2.
  assert (Hg2 : job_for_id (gc_quiescent_jobs clock q (sweep (ctl_tracker c) clock infos (ctl_registry c))).1 id
    = (λ j, if negb (q <=? fofZ 0)%F && quiescent clock q j then mark_done clock j else j)
      <$> job_for_id (ctl_registry c) id).
  { unfold gc_quiescent_jobs, job_for_id in *. destruct (q <=? fofZ 0)%F; cbn.
    - rewrite Hg. by destruct (dict_get (jobs (ctl_registry c)) id).
    - by rewrite dict_get_fmap, Hg. }
  destruct (gc_quiescent_jobs _ _ _) as [r2 flipped]. cbn [fst] in *.
  pose proof (gc_completed_inv clock ret _ H2) as (Hnd3 & _). pose proof H2 as (Hnd2 & _).
  assert (Hg3 : job_for_id (gc_completed clock ret r2).1 id
    = j ← job_for_id r2 id; if expired clock ret j then None else Some j) by (by apply pops_get).
  unfold gc_idle_programs. rewrite Hg2 in Hg3. destruct (idl <=? fofZ 0)%F; cbn [fst negb andb].
  - rewrite Hg3. by destruct (job_for_id (ctl_registry c) id).
  - unfold job_for_id at 1. cbn [jobs]. rewrite pops_get by done.
    unfold job_for_id in Hg3 at 1. rewrite Hg3.
    destruct (job_for_id (ctl_registry c) id); [simpl|done]. by case_match.
Qed.

(** A job whose client has gone away is collected: if it has no requests in flight, has been
    silent for longer than the quiescence timeout at one due tick, and the next due tick comes more
    than the retention time later, then it is gone after the second tick, whatever other jobs are
    swept in between. *)
Theorem abandoned_job_collected c (Hc : halo_reachable c) id j now1 clock1 infos1 now2 clock2 infos2
    (Hj : job_for_id (ctl_registry c) id = Some j) (Hidle : request_ids j = ∅) (Hst : j_state j ≠ REJECTED)
    (Hn1 : snapshots_of id infos1 = []) (Hn2 : snapshots_of id infos2 = [])
    (Hq : (hc_quiescent_timeout_seconds (ctl_config c) <=? fofZ 0)%F = false)
    (Hold : fgt (clock1 - last_update_ts j)%F (hc_quiescent_timeout_seconds (ctl_config c)) = true)
    (Hret1 : fgt (clock2 - last_update_ts j)%F (hc_gc_retain_seconds (ctl_config c)) = true)
    (Hret2 : fgt (clock2 - clock1)%F (hc_gc_retain_seconds (ctl_config c)) = true)
    (Hd1 : (now1 - ctl_last_tick c <? ctl_tick_interval_s c)%F = false)
    (Hd2 : (now2 - now1 <? ctl_tick_interval_s c)%F = false) :
  let c1 := tick now1 clock1 infos1 c in
  job_for_id (ctl_registry (tick now2 clock2 infos2 c1)) id = None.
Proof.
  intros c1. destruct (halo_inv c Hc) as [Hr _].
  assert (Hstatic : ctl_config c1 = ctl_config c ∧ ctl_tick_interval_s c1 = ctl_tick_interval_s c
                    ∧ ctl_last_tick c1 = now1) by (by apply tick_static).
  destruct Hstatic as (Hcfg & Hint & Hlast).
  assert (Hr1 : registry_reachable (ctl_registry c1)).
  { subst c1. rewrite tick_registry_eq, Hd1. by apply tick_registry_reachable. }
  rewrite tick_registry_eq, Hint, Hlast, Hd2, tick_registry_get, Hcfg by done.
  subst c1. rewrite tick_registry_eq, Hd1, tick_registry_get, Hj by done. cbn [mbind option_bind].
  rewrite Hq. cbn [negb andb].
  assert (Hdone : ∀ j', j_state j' = COMPLETE → request_ids j' = ∅ →
            fgt (clock2 - last_update_ts j')%F (hc_gc_retain_seconds (ctl_config c)) = true →
            quiescent clock2 (hc_quiescent_timeout_seconds (ctl_config c)) j' = false
            ∧ expired clock2 (hc_gc_retain_seconds (ctl_config c)) j' = true).
  { intros j' Hs Hi Ht. unfold quiescent, expired, no_requests. rewrite Hs, Hi, Ht. done. }
  destruct (quiescent clock1 (hc_quiescent_timeout_seconds (ctl_config c)) j) eqn:Hqj.
  - destruct (Hdone (mark_done clock1 j)) as [H1 H2]; [done..|].
    repeat case_match; simplify_eq/=; rewrite ?H1, ?H2 in *; simplify_eq/=; try done.
  - assert (Hcomp : j_state j = COMPLETE).
    { unfold quiescent, no_requests in Hqj. rewrite Hold, Hidle in Hqj.
      destruct (j_state j); try done. }
    destruct (Hdone j) as [H1 H2]; [done..|].
    repeat case_match; simplify_eq/=; rewrite ?H1, ?H2 in *; simplify_eq/=; try done.
Qed.

End runs.

(** ** Sample runs *)

Definition demo_config : HaloConfig Qc :=
  mkHaloConfig true (Qc_ofZ 5) (Qc_ofZ 100) "max+mean" None None None None (Qc_ofZ 5) (Qc_ofZ 300) (Qc_ofZ 10)
    (Qc_ofZ 300) "off" 0%Qc 0%Qc false None 0%Qc.

Definition demo_controller : HaloController Qc :=
  HaloController_init (λ _, None) (λ _, Missing) (λ _, false) demo_config true.

(** A program with concurrency 1, its first request, its completion. *)
Definition demo_program : halo_op Qc := HRegisterProgram "J" (Qc_ofZ 2) None None None None None (Some 1).
Definition demo_request (rid : string) : halo_op Qc := HRegisterRequest rid (Some "J") None 8 0 None None None.

Definition demo_running_ctl : HaloController Qc :=
  halo_step (halo_step demo_controller demo_program (Qc_ofZ 1)) (demo_request "r1") (Qc_ofZ 2).
Definition demo_finished_ctl : HaloController Qc :=
  halo_step demo_running_ctl (HFinished "r1" None false) (Qc_ofZ 3).

Lemma demo_running_reachable : halo_reachable demo_running_ctl.
Proof. do 2 apply halo_next. by apply halo_init. Qed.

Lemma demo_finished_reachable : halo_reachable demo_finished_ctl.
Proof. apply halo_next, demo_running_reachable. Qed.

Definition running_job : Job Qc := default demo_job (job_for_id (ctl_registry demo_running_ctl) "J").
Definition finished_job : Job Qc := default demo_job (job_for_id (ctl_registry demo_finished_ctl) "J").

Lemma concurrency_respected_witness : in_flight_count running_job = 1 ∧ in_flight_count running_job ≤ Z.max 0 1.
Proof.
  split; [reflexivity|].
  apply (concurrency_respected demo_running_ctl demo_running_reachable "J" running_job 1 eq_refl eq_refl).
Defined.


Lemma abandoned_job_collected_witness :
  job_for_id (ctl_registry (tick (Qc_ofZ 410) (Qc_ofZ 410) [] (tick (Qc_ofZ 400) (Qc_ofZ 400) [] demo_finished_ctl)))
    "J" = None.
Proof.
  apply (abandoned_job_collected demo_finished_ctl demo_finished_reachable "J" finished_job
           (Qc_ofZ 400) (Qc_ofZ 400) [] (Qc_ofZ 410) (Qc_ofZ 410) []); try reflexivity.
  discriminate.
Defined.

(** The violation counter.  Job A has three recorded violations, all reported at the last sweep, and
    is due for collection; job B violates its objective for the first time in this sweep.  The tick
    collects A, the sum over the remaining jobs is smaller than at the last sweep, and the new
    violation is never reported. *)
Definition demo_counted (id : string) (st : JobState) (violations : Z) (upd : Qc) (rids : gset string) : Job Qc :=
  mkJob id (Qc_ofZ 2) st (Qc_ofZ 2) 1 0 violations (Qc_ofZ 1) upd rids [] [] None None None None None true None 0.

Definition demo_violations : HaloController Qc :=
  let reg := mkJobRegistry [("A", demo_counted "A" COMPLETE 3 (Qc_ofZ 10) ∅);
                            ("B", demo_counted "B" RUNNING 0 (Qc_ofZ 99) {["b"]})] {["b" := "B"]} in
  mkHaloController demo_config true reg demo_tracker None
    (Some (mkHaloMetrics 2 [] 2 [] 3 2 2 0%Qc 0%Qc)) 3 0%Qc 0%Qc 0%Qc 0%Qc None false None.

Theorem slo_violation_lost :
  let info := mkRequestExecutionInfo "b" (Some "B") 4 0 0 4 (Qc_ofZ 90000) (Qc_ofZ 10) in
  let c := tick (Qc_ofZ 100) (Qc_ofZ 100) [info] demo_violations in
  slo_violation_count <$> job_for_id (ctl_registry c) "B" = Some 1
  ∧ job_for_id (ctl_registry c) "A" = None
  ∧ hm_slo_violations <$> ctl_metrics c = Some 3.
Proof. vm_compute. split_and!; reflexivity. Qed.
