(* ===== verification/PrefillAdder.v ===== *)
(** * The prefill batch builder

    Models [PrefillAdder] of [src/python/sglang/srt/managers/schedule_policy.py]: the token budgets,
    [add_one_req] and [add_one_req_ignore_eos] with chunked prefill, [add_chunked_req], and the
    choice of victims of [preempt_to_schedule].  The tree cache and the allocator behind it are an
    interface, [PrefixMemory], with the laws of its locks; RadixMemory instantiates it with the
    radix cache.  Of a request the fields the builder reads are kept; requests are compared by
    [rid].  Not modelled: the sliding-window and Mamba budgets and diffusion decoding.

    The theorems are in PrefillProps. *)

From S2P Require Import Prelude PyFloat.

(** ** Requests *)

Section request.
Context {F : Type}.

Record SReq := mkSReq {
  sr_rid : string;
  sr_origin_input_ids : list Z;
  sr_output_ids : list Z;
  sr_extra_key : option string;
  sr_routing_key : option string;
  sr_return_logprob : bool;
  sr_streaming : bool;                      (* session is not None and session.streaming *)
  sr_embed_overrides : bool;                (* positional_embed_overrides is not None *)
  sr_fill_ids : list Z;
  sr_prefix_indices : list Z;
  sr_extend_input_len : Z;
  sr_logprob_start_len : Z;
  sr_extend_logprob_start_len : Z;
  sr_max_new_tokens : Z;
  sr_ignore_eos : bool;
  sr_priority : Z;
  sr_wait_queue_entry_time : F;
  sr_finished : bool;
  sr_last_node : nat;
  sr_last_host_node : nat;
  sr_host_hit_length : Z;
  sr_cache_protected_len : Z
}.

(** The fields the builder assigns. *)
Definition sr_with (r : SReq) (fill prefix : list Z) (extend logprob : Z) (last_node : nat) (protected : Z) : SReq :=
  mkSReq (sr_rid r) (sr_origin_input_ids r) (sr_output_ids r) (sr_extra_key r) (sr_routing_key r)
    (sr_return_logprob r) (sr_streaming r) (sr_embed_overrides r) fill prefix extend (sr_logprob_start_len r)
    logprob (sr_max_new_tokens r) (sr_ignore_eos r) (sr_priority r) (sr_wait_queue_entry_time r) (sr_finished r)
    last_node (sr_last_host_node r) (sr_host_hit_length r) protected.

(** The fields assigned from a match result. *)
Definition sr_matched (r : SReq) (fill : list Z) (logprob_start_len : Z) (prefix : list Z)
    (last_node last_host_node : nat) (host_hit_length protected : Z) : SReq :=
  mkSReq (sr_rid r) (sr_origin_input_ids r) (sr_output_ids r) (sr_extra_key r) (sr_routing_key r)
    (sr_return_logprob r) (sr_streaming r) (sr_embed_overrides r) fill prefix (sr_extend_input_len r)
    logprob_start_len (sr_extend_logprob_start_len r) (sr_max_new_tokens r) (sr_ignore_eos r) (sr_priority r)
    (sr_wait_queue_entry_time r) (sr_finished r) last_node last_host_node host_hit_length protected.

Definition set_extend_input_len (r : SReq) (extend_input_len : Z) : SReq :=
  let start :=
    if bool_decide (sr_logprob_start_len r = -1) then zlen (sr_fill_ids r)
    else Z.max (sr_logprob_start_len r) (zlen (sr_prefix_indices r)) in
  sr_with r (sr_fill_ids r) (sr_prefix_indices r) extend_input_len
    (Z.min (start - zlen (sr_prefix_indices r)) extend_input_len) (sr_last_node r) (sr_cache_protected_len r).

(** [req.fill_ids = req.fill_ids[:n]]. *)
Definition truncate_fill_ids (r : SReq) (n : Z) : SReq :=
  sr_with r (slice_to (sr_fill_ids r) n) (sr_prefix_indices r) (sr_extend_input_len r)
    (sr_extend_logprob_start_len r) (sr_last_node r) (sr_cache_protected_len r).

End request.
Arguments SReq F : clear implicits.

(** ** The memory behind the builder *)

(** [MatchResult], less the Mamba field. *)
Record MatchResult := mkMatchResult {
  device_indices : list Z;
  last_device_node : nat;
  last_host_node : nat;
  host_hit_length : Z;
  cache_protected_len : option Z
}.

Class PrefixMemory (M : Type) := {
  mem_available_size : M → Z;             (* token_to_kv_pool_allocator.available_size() *)
  mem_evictable_size : M → Z;             (* tree_cache.evictable_size() *)
  mem_disable : M → bool;             (* getattr(tree_cache, "disable", True) *)
  mem_match_prefix : M → list Z → option string → res (MatchResult * M);
  mem_inc_lock_ref : M → nat → res M;
  mem_dec_lock_ref : M → nat → res M;
  init_load_back : M → nat → Z → res (list Z * nat * M)
}.

(** What it promises.  [mem_state m k H] says that [m] has the content [k] and that the locks in [H]
    are held.  A lock can be taken on the nodes of the content.  A match changes neither the locks nor
    the counters (it may split a node, which is a new content), reports a prefix of the tokens asked for
    and, without a host tier, no host hit; its node can be locked, and so can the nodes of before. *)
Class PrefixMemoryLaws (M : Type) `{PrefixMemory M} := {
  content : Type;
  lockable : content → nat → Prop;
  mem_state : M → content → list nat → Prop;
  inc_lock_law m k H n : mem_state m k H → lockable k n →
    ∃ m', mem_inc_lock_ref m n = Ok m' ∧ mem_state m' k (n :: H)
      ∧ mem_available_size m' = mem_available_size m ∧ mem_disable m' = mem_disable m;
  dec_lock_law m k H H' n : mem_state m k H → H ≡ₚ n :: H' →
    ∃ m', mem_dec_lock_ref m n = Ok m' ∧ mem_state m' k H'
      ∧ mem_available_size m' = mem_available_size m ∧ mem_disable m' = mem_disable m;
  match_law m k H tokens extra : mem_state m k H → mem_disable m = false →
    ∃ mr m' k', mem_match_prefix m tokens extra = Ok (mr, m') ∧ mem_state m' k' H
      ∧ lockable k' (last_device_node mr) ∧ zlen (device_indices mr) ≤ zlen tokens ∧ host_hit_length mr = 0
      ∧ mem_available_size m' = mem_available_size m ∧ mem_evictable_size m' = mem_evictable_size m
      ∧ mem_disable m' = mem_disable m ∧ ∀ n, lockable k n → lockable k' n;
  evictable_law m m' k H H' : mem_state m k H → mem_state m' k H' → H ≡ₚ H' →
    mem_evictable_size m' = mem_evictable_size m
}.

(** ** Matching a request against the memory *)

Section next_round.
Context {F M : Type} `{PrefixMemory M}.

(** The longest prefix that may be taken from the cache: at least one token is computed. *)
Definition max_prefix_len (r : SReq F) (logprob_start_len input_len : Z) : Z :=
  let l := input_len - 1 in
  let l := if sr_return_logprob r && bool_decide (0 ≤ logprob_start_len) then Z.min l logprob_start_len else l in
  Z.max l 0.

(** [Req.init_next_round_input(tree_cache)], with [None] for [tree_cache] the prefix stays. *)
Definition init_next_round_input (r : SReq F) (tree_cache : option M) : res (SReq F * option M) :=
  let fill_ids := sr_origin_input_ids r ++ sr_output_ids r in
  let start :=
    if sr_streaming r && sr_return_logprob r && bool_decide (0 ≤ sr_logprob_start_len r) then -1
    else sr_logprob_start_len r in
  let token_ids :=
    if sr_embed_overrides r then []
    else slice_to fill_ids (max_prefix_len r start (zlen fill_ids)) in
  '(r, mem) ←
    match tree_cache with
    | None => Ok (sr_matched r fill_ids start (sr_prefix_indices r) (sr_last_node r) (sr_last_host_node r)
                    (sr_host_hit_length r) (sr_cache_protected_len r), None)
    | Some m =>
        '(mr, m) ← mem_match_prefix m token_ids (sr_extra_key r);
        Ok (sr_matched r fill_ids start (device_indices mr) (last_device_node mr) (last_host_node mr)
              (host_hit_length mr) (default (zlen (device_indices mr)) (cache_protected_len mr)), Some m)
    end;
  Ok (set_extend_input_len r (zlen (sr_fill_ids r) - zlen (sr_prefix_indices r)), mem).

(** [match_prefix_for_req], used by the scheduling policies. *)
Definition match_prefix_for_req (m : M) (r : SReq F) (token_ids : option (list Z)) : res (MatchResult * SReq F * M) :=
  let token_ids := default (sr_origin_input_ids r ++ sr_output_ids r) token_ids in
  '(mr, m) ← mem_match_prefix m token_ids (sr_extra_key r);
  Ok (mr, sr_matched r (sr_fill_ids r) (sr_logprob_start_len r) (device_indices mr) (last_device_node mr)
            (last_host_node mr) (host_hit_length mr) (default (sr_cache_protected_len r) (cache_protected_len mr)), m).

End next_round.

(** ** The builder *)

Definition CLIP_MAX_NEW_TOKENS : Z := 4096.
Definition IGNORE_EOS_RESERVE_TOKENS : Z := 1.

Inductive AddReqResult := CONTINUE | NO_TOKEN | OTHER.

#[export] Instance AddReqResult_eq_dec : EqDecision AddReqResult.
Proof. solve_decision. Defined.

Section adder.
Context {F : Type} `{PyNum F} {M : Type} `{PrefixMemory M}.
Abbreviation Req := (SReq F).

Record PrefillAdder := mkPrefillAdder {
  pa_page_size : Z;
  pa_new_token_ratio : F;
  pa_threshold : Z;                         (* priority_scheduling_preemption_threshold *)
  pa_prefill_max_requests : option Z;
  pa_single_prefill : bool;                 (* context-parallel prefill *)
  pa_mem : M;
  pa_running : option (list Req);           (* running_batch.reqs *)
  pa_rem_input_tokens : Z;
  pa_rem_chunk_tokens : option Z;
  pa_rem_total_token_offset : F;
  pa_cur_rem_token_offset : Z;
  pa_req_states : option (list (F * Z));
  pa_can_run_list : list Req;
  pa_preempt_list : list Req;
  pa_new_chunked_req : option Req;
  pa_log_hit_tokens : Z;
  pa_log_input_tokens : Z
}.

Definition pa_with_mem (m : M) (a : PrefillAdder) : PrefillAdder :=
  mkPrefillAdder (pa_page_size a) (pa_new_token_ratio a) (pa_threshold a) (pa_prefill_max_requests a)
    (pa_single_prefill a) m (pa_running a) (pa_rem_input_tokens a) (pa_rem_chunk_tokens a)
    (pa_rem_total_token_offset a) (pa_cur_rem_token_offset a) (pa_req_states a) (pa_can_run_list a)
    (pa_preempt_list a) (pa_new_chunked_req a) (pa_log_hit_tokens a) (pa_log_input_tokens a).

Definition pa_with_states (st : list (F * Z)) (a : PrefillAdder) : PrefillAdder :=
  mkPrefillAdder (pa_page_size a) (pa_new_token_ratio a) (pa_threshold a) (pa_prefill_max_requests a)
    (pa_single_prefill a) (pa_mem a) (pa_running a) (pa_rem_input_tokens a) (pa_rem_chunk_tokens a)
    (pa_rem_total_token_offset a) (pa_cur_rem_token_offset a) (Some st) (pa_can_run_list a)
    (pa_preempt_list a) (pa_new_chunked_req a) (pa_log_hit_tokens a) (pa_log_input_tokens a).

(** [self.can_run_list.append(req)], and [self.new_chunked_req = req] if [chunked]. *)
Definition pa_append (r : Req) (chunked : bool) (a : PrefillAdder) : PrefillAdder :=
  mkPrefillAdder (pa_page_size a) (pa_new_token_ratio a) (pa_threshold a) (pa_prefill_max_requests a)
    (pa_single_prefill a) (pa_mem a) (pa_running a) (pa_rem_input_tokens a) (pa_rem_chunk_tokens a)
    (pa_rem_total_token_offset a) (pa_cur_rem_token_offset a) (pa_req_states a) (pa_can_run_list a ++ [r])
    (pa_preempt_list a) (if chunked then Some r else pa_new_chunked_req a) (pa_log_hit_tokens a)
    (pa_log_input_tokens a).

Definition get_running_request_total_token_offset (ratio : F) (r : Req) : F :=
  (fofZ (Z.min (sr_max_new_tokens r - zlen (sr_output_ids r)) CLIP_MAX_NEW_TOKENS) * ratio)%F.

Definition PrefillAdder_init (page_size : Z) (m : M) (running : option (list Req)) (ratio : F)
    (rem_input_tokens : Z) (rem_chunk_tokens : option Z) (num_mixed_decode_tokens threshold : Z)
    (prefill_max_requests : option Z) (single_prefill : bool) : PrefillAdder :=
  let offset :=
    match running with
    | Some reqs => (fofZ num_mixed_decode_tokens
                    + fsum (get_running_request_total_token_offset ratio <$> reqs))%F
    | None => fofZ num_mixed_decode_tokens
    end in
  mkPrefillAdder page_size ratio threshold prefill_max_requests single_prefill m running
    (rem_input_tokens - num_mixed_decode_tokens) ((λ c, c - num_mixed_decode_tokens) <$> rem_chunk_tokens)
    offset num_mixed_decode_tokens None [] [] None 0 0.

Definition rem_total_tokens (a : PrefillAdder) : F :=
  (fofZ (mem_available_size (pa_mem a) + mem_evictable_size (pa_mem a)) - pa_rem_total_token_offset a)%F.

Definition cur_rem_tokens (a : PrefillAdder) : Z :=
  mem_available_size (pa_mem a) + mem_evictable_size (pa_mem a) - pa_cur_rem_token_offset a.

Definition ceil_paged_tokens (page_size tokens : Z) : Z := - ((- tokens) / page_size) * page_size.

Definition budget_state (a : PrefillAdder) : AddReqResult :=
  if (rem_total_tokens a <=? fofZ 0)%F || bool_decide (cur_rem_tokens a ≤ 0) then NO_TOKEN
  else if bool_decide (pa_rem_input_tokens a ≤ 0) then OTHER
  else
    match pa_rem_chunk_tokens a with
    | Some c => if bool_decide (c ≤ 0) then OTHER else CONTINUE
    | None => CONTINUE
    end.

Definition update_prefill_budget (prefix_len extend_input_len max_new_tokens : Z) (a : PrefillAdder)
    : PrefillAdder :=
  let extend_input_len := ceil_paged_tokens (pa_page_size a) extend_input_len in
  let page_overhead := pa_page_size a in
  mkPrefillAdder (pa_page_size a) (pa_new_token_ratio a) (pa_threshold a) (pa_prefill_max_requests a)
    (pa_single_prefill a) (pa_mem a) (pa_running a)
    (pa_rem_input_tokens a - extend_input_len)
    ((λ c, c - extend_input_len) <$> pa_rem_chunk_tokens a)
    (pa_rem_total_token_offset a + fofZ (extend_input_len + max_new_tokens + page_overhead))%F
    (pa_cur_rem_token_offset a + (extend_input_len + page_overhead))
    (pa_req_states a) (pa_can_run_list a) (pa_preempt_list a) (pa_new_chunked_req a)
    (pa_log_hit_tokens a + prefix_len) (pa_log_input_tokens a + extend_input_len).

(** [min(req.sampling_params.max_new_tokens, CLIP_MAX_NEW_TOKENS)]. *)
Definition clipped_max_new (r : Req) : Z := Z.min (sr_max_new_tokens r) CLIP_MAX_NEW_TOKENS.

(** ** The chunked request of the previous batch *)

(** The result is the request if its prefill is not finished.  [None] for [pa_rem_chunk_tokens] is a
    TypeError: a chunked request only exists when chunked prefill is on. *)
Definition add_chunked_req (a : PrefillAdder) (r : Req) : res (option Req * PrefillAdder) :=
  match pa_rem_chunk_tokens a with
  | None => Raise TypeError
  | Some chunk =>
      let rem := Z.min chunk (fint (rem_total_tokens a)) in
      let rem := if bool_decide (rem ≤ 0) then chunk else rem in
      let truncated := bool_decide (rem < sr_extend_input_len r) in
      let r1 := set_extend_input_len r (Z.min (sr_extend_input_len r) rem) in
      let r2 := truncate_fill_ids r1 (zlen (sr_prefix_indices r1) + sr_extend_input_len r1) in
      let a1 := pa_append r2 false a in
      let a2 := update_prefill_budget 0 (sr_extend_input_len r2) (if truncated then 0 else clipped_max_new r2) a1 in
      Ok (if truncated then Some r2 else None, a2)
  end.

(** ** Requests that ignore EOS *)

(** [tokens_left] and [tokens_occupied] of a request. *)
Definition req_state (ratio : F) (r : Req) : F * Z :=
  let ratio := if sr_ignore_eos r then fofZ 1 else ratio in
  ((fofZ (sr_max_new_tokens r) * ratio - fofZ (zlen (sr_output_ids r)))%F,
   zlen (sr_origin_input_ids r) + zlen (sr_output_ids r)).

(** The index of the insertion loop: the first entry not below, otherwise the last index reached. *)
Fixpoint insert_index (tokens_left : F) (states : list (F * Z)) : nat :=
  match states with
  | [] => 0
  | [_] => 0
  | (t, _) :: rest => if (tokens_left <=? t)%F then 0 else S (insert_index tokens_left rest)
  end.

Definition add_req_state (ratio : F) (r : Req) (insert_sort : bool) (states : list (F * Z)) : list (F * Z) :=
  let '(tokens_left, tokens_occupied) := req_state ratio r in
  if (tokens_left <=? fofZ 0)%F then states
  else if negb insert_sort then states ++ [(tokens_left, tokens_occupied)]
  else
    let i := insert_index tokens_left states in
    take i states ++ (tokens_left, tokens_occupied) :: drop i states.

(** [states.sort(key=lambda x: x[0])]. *)
Definition state_le (s1 s2 : F * Z) : Prop := flt s2.1 s1.1 = false.
#[local] Instance state_le_dec : RelDecision state_le := λ s1 s2, bool_eq_dec _ _.

Definition req_states_for (a : PrefillAdder) (r : Req) : list (F * Z) :=
  let ratio := pa_new_token_ratio a in
  match pa_req_states a with
  | Some states => add_req_state ratio r true states
  | None =>
      let reqs := r :: default [] (pa_running a) ++ pa_can_run_list a in
      py_sort state_le (foldl (λ st r, add_req_state ratio r false st) [] reqs)
  end.

(** The simulation of the coming decode steps: [true] when some step would run out. *)
Fixpoint runs_out (cur_rem : Z) (tokens_freed : Z) (states : list (F * Z)) : bool :=
  match states with
  | [] => false
  | (tokens_left, tokens_occupied) :: rest =>
      let bs := zlen states in
      let min_free_tokens := (fofZ (cur_rem + tokens_freed) - tokens_left * fofZ bs)%F in
      if (min_free_tokens <=? fofZ (IGNORE_EOS_RESERVE_TOKENS * bs))%F then true
      else runs_out cur_rem (tokens_freed + tokens_occupied) rest
  end.

Definition add_one_req_ignore_eos (a : PrefillAdder) (r : Req) : AddReqResult * PrefillAdder :=
  let paged_input := ceil_paged_tokens (pa_page_size a) (sr_extend_input_len r) in
  if fgt (fofZ paged_input) (fmin (fofZ (cur_rem_tokens a)) (rem_total_tokens a)) then (NO_TOKEN, a)
  else
    let a1 := pa_with_states (req_states_for a r) a in
    let cur_rem := cur_rem_tokens a1 - paged_input in
    if runs_out cur_rem 0 (req_states_for a r) then (NO_TOKEN, a1)
    else
      let plain := update_prefill_budget 0 (sr_extend_input_len r) (clipped_max_new r) (pa_append r false a1) in
      match pa_rem_chunk_tokens a1 with
      | None => (budget_state plain, plain)
      | Some chunk =>
          if bool_decide (sr_extend_input_len r ≤ chunk) then (budget_state plain, plain)
          else if bool_decide (chunk ≤ 0) then (OTHER, a1)
          else
            let r1 := truncate_fill_ids (set_extend_input_len r chunk) chunk in
            let a2 := update_prefill_budget 0 chunk 0 (pa_append r1 true a1) in
            (budget_state a2, a2)
      end.

(** ** One request of the waiting queue *)

(** The body under the lock of [last_node]: an early result, or none when the request was added. *)
Definition add_under_lock (a : PrefillAdder) (r : Req) (total_tokens : Z) (truncation_align_size : option Z)
    : res (option AddReqResult * PrefillAdder) :=
  if fge (fofZ total_tokens) (rem_total_tokens a) then Ok (Some NO_TOKEN, a)
  else
    '(r, a) ←
      (if bool_decide (0 < sr_host_hit_length r) then
         '(new_indices, last_node, m) ← init_load_back (pa_mem a) (sr_last_host_node r) (sr_host_hit_length r);
         let prefix := sr_prefix_indices r ++ new_indices in
         let r1 := sr_with r (sr_fill_ids r) prefix (sr_extend_input_len r) (sr_extend_logprob_start_len r)
                     last_node (sr_cache_protected_len r) in
         let r2 := set_extend_input_len r1 (zlen (sr_fill_ids r1) - zlen prefix) in
         let r3 := sr_with r2 (sr_fill_ids r2) (sr_prefix_indices r2) (sr_extend_input_len r2)
                     (sr_extend_logprob_start_len r2) (sr_last_node r2) (zlen prefix) in
         Ok (r3, pa_with_mem m a)
       else Ok (r, a));
    let prefix_len := zlen (sr_prefix_indices r) in
    let input_tokens := ceil_paged_tokens (pa_page_size a) (sr_extend_input_len r) in
    if bool_decide (pa_rem_input_tokens a ≤ input_tokens) && negb (bool_decide (length (pa_can_run_list a) = 0%nat))
    then Ok (Some OTHER, a)
    else
      let whole :=
        m ← mem_inc_lock_ref (pa_mem a) (sr_last_node r);
        Ok (None, update_prefill_budget prefix_len input_tokens (clipped_max_new r)
                    (pa_with_mem m (pa_append r false a))) in
      match pa_rem_chunk_tokens a with
      | None => whole
      | Some chunk =>
          if bool_decide (input_tokens ≤ chunk) then whole
          else
            let trunc_len := chunk / pa_page_size a * pa_page_size a in
            if bool_decide (trunc_len ≤ 0) then Ok (Some OTHER, a)
            else
              let add trunc_len :=
                let r1 := set_extend_input_len r trunc_len in
                let r2 := truncate_fill_ids r1 (zlen (sr_prefix_indices r1) + trunc_len) in
                m ← mem_inc_lock_ref (pa_mem a) (sr_last_node r2);
                Ok (None, update_prefill_budget prefix_len trunc_len 0 (pa_with_mem m (pa_append r2 true a))) in
              match truncation_align_size with
              | None => add trunc_len
              | Some align =>
                  if bool_decide (trunc_len < align) then Ok (Some OTHER, a)
                  else add (align * (trunc_len / align))
              end
      end.

(** [with self._lock_node(node): body]. *)
Definition with_lock (a : PrefillAdder) (node : nat)
    (body : PrefillAdder → res (option AddReqResult * PrefillAdder)) : res (option AddReqResult * PrefillAdder) :=
  m ← mem_inc_lock_ref (pa_mem a) node;
  '(early, a1) ← body (pa_with_mem m a);
  m' ← mem_dec_lock_ref (pa_mem a1) node;
  Ok (early, pa_with_mem m' a1).

(** The tokens a request may need: its prompt, its clipped output, one page of overhead. *)
Definition total_tokens_for (a : PrefillAdder) (r : Req) : Z :=
  let max_new := Z.min (Z.max (sr_max_new_tokens r - zlen (sr_output_ids r)) 0) CLIP_MAX_NEW_TOKENS in
  sr_extend_input_len r + max_new + pa_page_size a.

(** [delayer_allows] is the answer of the prefill delayer, [true] when there is none. *)
Definition add_one_req (a : PrefillAdder) (r : Req) (delayer_allows : bool) (truncation_align_size : option Z)
    : res (AddReqResult * PrefillAdder) :=
  if negb delayer_allows then Ok (OTHER, a)
  else if pa_single_prefill a && bool_decide (1 ≤ zlen (pa_can_run_list a)) then Ok (OTHER, a)
  else if match pa_prefill_max_requests a with
          | Some x => bool_decide (x ≤ zlen (pa_can_run_list a))
          | None => false
          end then Ok (OTHER, a)
  else if sr_ignore_eos r && mem_disable (pa_mem a) then Ok (add_one_req_ignore_eos a r)
  else
    let total_tokens := total_tokens_for a r in
    let real_input_tokens := ceil_paged_tokens (pa_page_size a) (sr_extend_input_len r - sr_host_hit_length r) in
    if fge (fofZ total_tokens) (rem_total_tokens a) then Ok (NO_TOKEN, a)
    else if bool_decide (pa_rem_input_tokens a ≤ real_input_tokens)
            && negb (bool_decide (length (pa_can_run_list a) = 0%nat)) then Ok (OTHER, a)
    else
      '(early, a1) ← with_lock a (sr_last_node r)
                        (λ a, add_under_lock a r total_tokens truncation_align_size);
      Ok (match early with Some res => res | None => budget_state a1 end, a1).

(** ** Preemption *)

(** The order of victims: [(priority * -sign, -wait_queue_entry_time)]. *)
Definition victim_le (sign : Z) (r1 r2 : Req) : Prop :=
  sr_priority r1 * - sign < sr_priority r2 * - sign
  ∨ sr_priority r1 = sr_priority r2 ∧ flt (sr_wait_queue_entry_time r1) (sr_wait_queue_entry_time r2) = false.
#[local] Instance victim_le_dec sign : RelDecision (victim_le sign).
Proof. intros r1 r2. unfold victim_le. apply _. Defined.

(** The selection loop: the victims and the tokens still missing. *)
Fixpoint select_victims (ratio : F) (threshold sign priority : Z) (missing : F) (sorted : list Req)
    : list Req * F :=
  match sorted with
  | [] => ([], missing)
  | r :: rest =>
      if bool_decide (threshold < (priority - sr_priority r) * - sign) then
        let missing := (missing - get_running_request_total_token_offset ratio r)%F in
        if (missing <=? fofZ 0)%F then ([r], missing)
        else let '(vs, missing) := select_victims ratio threshold sign priority missing rest in (r :: vs, missing)
      else ([], missing)
  end.

Definition in_rids (r : Req) (l : list Req) : bool := bool_decide (sr_rid r ∈ sr_rid <$> l).

(** The release loop: the calls [release_req(i, remaining)], the kept requests, the new offset. *)
Fixpoint release_loop (ratio : F) (victims : list Req) (total : Z) (i : Z) (released : Z) (offset : F)
    (reqs : list Req) : list (Req * Z * Z) * list Req * F :=
  match reqs with
  | [] => ([], [], offset)
  | r :: rest =>
      if in_rids r victims then
        let '(calls, kept, offset) :=
          release_loop ratio victims total (i + 1) (released + 1)
            (offset - get_running_request_total_token_offset ratio r)%F rest in
        ((r, i, total - (released + 1)) :: calls, kept, offset)
      else
        let '(calls, kept, offset) := release_loop ratio victims total (i + 1) released offset rest in
        (calls, r :: kept, offset)
  end.

Definition pa_preempted (kept victims : list Req) (offset : F) (a : PrefillAdder) : PrefillAdder :=
  mkPrefillAdder (pa_page_size a) (pa_new_token_ratio a) (pa_threshold a) (pa_prefill_max_requests a)
    (pa_single_prefill a) (pa_mem a) (Some kept) (pa_rem_input_tokens a) (pa_rem_chunk_tokens a)
    offset (pa_cur_rem_token_offset a) (pa_req_states a) (pa_can_run_list a)
    (pa_preempt_list a ++ victims) (pa_new_chunked_req a) (pa_log_hit_tokens a) (pa_log_input_tokens a).

(** [preempt_to_schedule]: whether it preempted, the [release_req] calls it makes, the builder. *)
Definition preempt_to_schedule (a : PrefillAdder) (r : Req) (low_priority_values_first : bool)
    : bool * list (Req * Z * Z) * PrefillAdder :=
  let sign := if low_priority_values_first then 1 else -1 in
  let reqs := default [] (pa_running a) in
  let valid := filter (λ x, in_rids x (pa_preempt_list a) = false ∧ sr_finished x = false) reqs in
  let sorted := py_sort (victim_le sign) valid in
  let needed := (fofZ (sr_extend_input_len r + clipped_max_new r) - rem_total_tokens a)%F in
  let '(victims, missing) := select_victims (pa_new_token_ratio a) (pa_threshold a) sign (sr_priority r) needed sorted in
  if bool_decide (length victims = 0%nat) || fgt missing (fofZ 0) then (false, [], a)
  else
    let '(calls, kept, offset) :=
      release_loop (pa_new_token_ratio a) victims (zlen reqs) 0 0 (pa_rem_total_token_offset a) reqs in
    (true, calls, pa_preempted kept victims offset a).

End adder.
Arguments PrefillAdder F M : clear implicits.
#[export] Existing Instance state_le_dec.
#[export] Existing Instance victim_le_dec.
