(* ===== verification/PrefillBatch.v ===== *)
(** * Building the next prefill batch

    Models [Scheduler._get_new_batch_prefill_raw] and [get_num_allocatable_reqs] of
    [src/python/sglang/srt/managers/scheduler.py] up to the point where the batch object is created:
    the early returns, the queue order, the carried-over chunked request, the loop over the waiting
    queue and the assertion on chunked requests.  Of the scheduler the fields this method reads and
    writes are kept.  Requests are objects that the loop mutates, so the queue that is left holds
    the mutated requests.

    The queue order is the interface [QueuePolicy]; SchedulePolicy implements it.  The features that
    are off in the model: priority preemption inside this loop (its effect on the builder is
    [preempt_to_schedule] of PrefillAdder), LoRA, the hierarchical cache and its storage, the prefill
    side of disaggregation, dynamic chunking, and the retraction test mode. *)

From S2P Require Import Prelude PyFloat PrefillAdder.

(** ** The order of the waiting queue *)

(** What a policy may change of a request: the fields of a prefix match. *)
Record same_req {F : Type} (r r' : SReq F) : Prop := {
  sq_rid : sr_rid r' = sr_rid r;
  sq_origin : sr_origin_input_ids r' = sr_origin_input_ids r;
  sq_output : sr_output_ids r' = sr_output_ids r;
  sq_max_new : sr_max_new_tokens r' = sr_max_new_tokens r
}.

(** [P] is the state of the policy object. *)
Class QueuePolicy (F M P : Type) := {
  calc_priority : P → M → list (SReq F) → list (SReq F) → res (list (SReq F) * P * M)
}.

(** A policy reorders the queue, loses no request and adds none; on the memory it acts like a
    sequence of matches. *)
Class QueuePolicyLaws (F M P : Type) `{PrefixMemoryLaws M} `{QueuePolicy F M P} := {
  policy_ok : P → Prop;
  policy_law p m k H queue running : policy_ok p → mem_state m k H → mem_disable m = false →
    ∃ queue' p' m' k', calc_priority p m queue running = Ok (queue', p', m') ∧ policy_ok p'
      ∧ (∃ perm, perm ≡ₚ queue ∧ Forall2 same_req perm queue')
      ∧ mem_state m' k' H ∧ mem_available_size m' = mem_available_size m
      ∧ mem_evictable_size m' = mem_evictable_size m ∧ mem_disable m' = mem_disable m
}.

(** ** The scheduler's part *)

Record PrefillConfig := mkPrefillConfig {
  pc_page_size : Z;
  pc_max_prefill_tokens : Z;
  pc_chunked_prefill_size : option Z;
  pc_is_mixed_chunk : bool;
  pc_threshold : Z;
  pc_prefill_max_requests : option Z;
  pc_single_prefill : bool;
  pc_pp_size : Z;
  pc_pp_max_micro_batch_size : Z;
  pc_truncation_align_size : option Z
}.

Section scheduler.
Context {F : Type} `{PyNum F} {M P : Type} `{PrefixMemory M} `{!QueuePolicy F M P}.
Context (cfg : PrefillConfig).

Record Scheduler := mkScheduler {
  sc_waiting_queue : list (SReq F);
  sc_running : list (SReq F);               (* running_batch.reqs *)
  sc_batch_is_full : bool;                  (* running_batch.batch_is_full *)
  sc_chunked_req : option (SReq F);
  sc_new_token_ratio : F;
  sc_pool_available : Z;                    (* req_to_token_pool.available_size() *)
  sc_policy : P;
  sc_mem : M
}.

(** [pool_available] is [req_to_token_pool.available_size()]. *)
Definition get_num_allocatable_reqs (pool_available running_bs : Z) : Z :=
  let res := pc_pp_max_micro_batch_size cfg - running_bs in
  if bool_decide (1 < pc_pp_size cfg) then Z.min res pool_available else res.

(** The loop over the waiting queue: [batch_is_full], the queue that is left, the builder.  A request
    was added when the builder's list grew. *)
Fixpoint fill_batch (room : Z) (delayer_allows : bool) (full : bool) (a : PrefillAdder F M)
    (queue : list (SReq F)) : res (bool * list (SReq F) * PrefillAdder F M) :=
  match queue with
  | [] => Ok (full, [], a)
  | r :: rest =>
      let full := full || bool_decide (room ≤ zlen (pa_can_run_list a)) in
      if full then Ok (full, r :: rest, a)
      else
        '(r, m) ← init_next_round_input r (Some (pa_mem a));
        let a := pa_with_mem (default (pa_mem a) m) a in
        '(result, a1) ← add_one_req a r delayer_allows (pc_truncation_align_size cfg);
        let kept := if bool_decide (zlen (pa_can_run_list a) < zlen (pa_can_run_list a1)) then [] else [r] in
        if bool_decide (result = CONTINUE) then
          '(full, others, a2) ← fill_batch room delayer_allows full a1 rest;
          Ok (full, kept ++ others, a2)
        else Ok (full || bool_decide (result = NO_TOKEN), kept ++ rest, a1)
  end.

Definition get_new_batch_prefill_raw (delayer_allows : bool) (s : Scheduler)
    : res (option (list (SReq F) * option (SReq F)) * Scheduler) :=
  let busy := bool_decide (is_Some (sc_chunked_req s)) in
  if (sc_batch_is_full s || bool_decide (length (sc_waiting_queue s) = 0%nat)) && negb busy then Ok (None, s)
  else
    let running_bs := zlen (sc_running s) in
    let room := get_num_allocatable_reqs (sc_pool_available s) running_bs in
    if bool_decide (room ≤ 0) && negb busy then
      Ok (None, mkScheduler (sc_waiting_queue s) (sc_running s) true (sc_chunked_req s) (sc_new_token_ratio s)
                  (sc_pool_available s) (sc_policy s) (sc_mem s))
    else
      '(queue, p, m) ← calc_priority (sc_policy s) (sc_mem s) (sc_waiting_queue s) (sc_running s);
      let adder :=
        PrefillAdder_init (pc_page_size cfg) m (Some (sc_running s)) (sc_new_token_ratio s)
          (pc_max_prefill_tokens cfg) (pc_chunked_prefill_size cfg)
          (if pc_is_mixed_chunk cfg then running_bs else 0) (pc_threshold cfg)
          (pc_prefill_max_requests cfg) (pc_single_prefill cfg) in
      '(chunked, adder) ←
        match sc_chunked_req s with
        | None => Ok (None, adder)
        | Some r =>
            '(r, _) ← init_next_round_input r (None : option M);
            add_chunked_req adder r
        end;
      '(full, queue, adder) ← fill_batch room delayer_allows (sc_batch_is_full s) adder queue;
      let after chunked :=
        mkScheduler queue (sc_running s) full chunked (sc_new_token_ratio s) (sc_pool_available s) p (pa_mem adder) in
      if bool_decide (length (pa_can_run_list adder) = 0%nat) then Ok (None, after chunked)
      else
        chunked ←
          match pa_new_chunked_req adder, chunked with
          | Some r, None => Ok (Some r)
          | Some _, Some _ => Raise AssertionError
          | None, _ => Ok chunked
          end;
        Ok (Some (pa_can_run_list adder, chunked), after chunked).

End scheduler.
Arguments Scheduler F M P : clear implicits.
