(* ===== verification/PrefillProps.v ===== *)
(** * Properties of the prefill batch builder

    Over the interface [PrefixMemory] with its lock laws: a batch built from the waiting queue fits
    into the available and evictable slots, respects the chunk budget, holds exactly one lock per
    request and truncates at most one request; preemption only releases requests of sufficiently
    lower priority, and frees enough. *)

From S2P Require Import Prelude PyFloat PrefillAdder PrefillBatch.

(** ** Page arithmetic *)

Section pages.
Context (ps : Z) (Hps : 0 < ps).

Lemma ceil_paged_bounds t : t ≤ ceil_paged_tokens ps t < t + ps.
Proof.
  unfold ceil_paged_tokens. pose proof (Z.div_mod (- t) ps ltac:(lia)). pose proof (Z.mod_pos_bound (- t) ps Hps). nia.
Qed.

Lemma ceil_paged_mul q : ceil_paged_tokens ps (q * ps) = q * ps.
Proof.
  unfold ceil_paged_tokens. replace (- (q * ps)) with ((- q) * ps) by lia. rewrite Z.div_mul by lia. lia.
Qed.

Lemma ceil_paged_idem t : ceil_paged_tokens ps (ceil_paged_tokens ps t) = ceil_paged_tokens ps t.
Proof. unfold ceil_paged_tokens at 2 3. apply ceil_paged_mul. Qed.

Definition floor_paged (t : Z) : Z := t / ps * ps.

Lemma floor_paged_bounds t : t - ps < floor_paged t ≤ t.
Proof.
  unfold floor_paged. pose proof (Z.div_mod t ps ltac:(lia)). pose proof (Z.mod_pos_bound t ps Hps). nia.
Qed.

Lemma floor_paged_mono t t' : t ≤ t' → floor_paged t ≤ floor_paged t'.
Proof. intros Ht. unfold floor_paged. apply Z.mul_le_mono_nonneg_r; [lia|]. by apply Z.div_le_mono. Qed.

Lemma floor_paged_sub c q : floor_paged (c - q * ps) = floor_paged c - q * ps.
Proof. unfold floor_paged. rewrite <- Z.add_opp_r, <- Z.mul_opp_l, Z.div_add by lia. lia. Qed.

(** A floor below a ceiling is below what was rounded up. *)
Lemma floor_lt_ceil t c : c < ceil_paged_tokens ps t → floor_paged c ≤ t.
Proof.
  intros Hc. pose proof (ceil_paged_bounds t). pose proof (floor_paged_bounds c).
  unfold ceil_paged_tokens, floor_paged in *. set (q := - (- t / ps)) in *. set (d := c / ps) in *.
  destruct (decide (d ≤ q - 1)); nia.
Qed.

End pages.

(** ** One request *)

Section one.
Context {M : Type} `{PrefixMemoryLaws M}.
Implicit Types (a : PrefillAdder Qc M) (r : SReq Qc) (k : content).

Definition good_req k r : Prop :=
  lockable k (sr_last_node r) ∧ 0 ≤ sr_extend_input_len r ∧ 0 ≤ sr_max_new_tokens r ∧ sr_host_hit_length r = 0.

(** The truncation length must be a positive multiple of the page size. *)
Definition good_align (ps : Z) (align : option Z) : Prop :=
  match align with Some al => 0 < al ∧ (ps | al) | None => True end.

Definition adder_state a k (Hs : list nat) : Prop :=
  mem_state (pa_mem a) k Hs ∧ mem_disable (pa_mem a) = false ∧ 0 < pa_page_size a.

(** Truncation is no longer possible. *)
Definition chunk_spent a (align : option Z) : Prop :=
  ∃ c, pa_rem_chunk_tokens a = Some c
    ∧ (floor_paged (pa_page_size a) c ≤ 0 ∨ ∃ al, align = Some al ∧ floor_paged (pa_page_size a) c < al).

(** [a'] is [a] with [r] added as [r'] and its lock taken. *)
Record added a k Hs r (align : option Z) (r' : SReq Qc) (chunked : bool) (ad_mem : M) (ad_max_new : Z) a' : Prop := {
  ad_eq : a' = update_prefill_budget (zlen (sr_prefix_indices r)) (sr_extend_input_len r') ad_max_new
                 (pa_with_mem ad_mem (pa_append r' chunked a));
  ad_state : mem_state ad_mem k (sr_last_node r :: Hs);
  ad_disable : mem_disable ad_mem = false;
  ad_available : mem_available_size ad_mem = mem_available_size (pa_mem a);
  ad_same : sr_rid r' = sr_rid r ∧ sr_last_node r' = sr_last_node r;
  ad_extend : 0 ≤ sr_extend_input_len r' ≤ sr_extend_input_len r;
  ad_new : 0 ≤ ad_max_new;
  ad_fits : (Qc_ofZ (sr_extend_input_len r' + pa_page_size a)
             <= Qc_ofZ (mem_available_size ad_mem + mem_evictable_size ad_mem) - pa_rem_total_token_offset a)%Qc;
  ad_chunk : ∀ c, pa_rem_chunk_tokens a = Some c → sr_extend_input_len r' ≤ c;
  ad_whole : chunked = false → r' = r;
  ad_trunc : chunked = true → ¬ chunk_spent a align ∧ chunk_spent a' align
}.

(** [a'] is [a] after a request was turned away: only the cache object differs. *)
Definition turned_away a k Hs a' : Prop :=
  ∃ m, a' = pa_with_mem m a ∧ mem_state m k Hs ∧ mem_disable m = false
    ∧ mem_available_size m = mem_available_size (pa_mem a).

Lemma turned_away_self a k Hs : adder_state a k Hs → turned_away a k Hs a.
Proof. intros (Hm & Hd & _). exists (pa_mem a). by destruct a. Qed.

Lemma update_ceil p t mn a :
  0 < pa_page_size a →
  update_prefill_budget p (ceil_paged_tokens (pa_page_size a) t) mn a = update_prefill_budget p t mn a.
Proof. intros Hps. unfold update_prefill_budget. by rewrite ceil_paged_idem. Qed.

(** The lock taken inside [_lock_node] survives its release. *)
Lemma relock k Hs n m1 :
  mem_state m1 k (n :: Hs) → lockable k n → mem_disable m1 = false →
  ∃ m2 m3, mem_inc_lock_ref m1 n = Ok m2 ∧ mem_dec_lock_ref m2 n = Ok m3 ∧ mem_state m3 k (n :: Hs)
    ∧ mem_disable m3 = false ∧ mem_available_size m3 = mem_available_size m1 ∧ mem_evictable_size m3 = mem_evictable_size m1.
Proof.
  intros Hm Hn Hd. destruct (inc_lock_law m1 k (n :: Hs) n Hm Hn) as (m2 & Hi & Hm2 & Ha2 & Hd2).
  destruct (dec_lock_law m2 k (n :: n :: Hs) (n :: Hs) n Hm2 (reflexivity _)) as (m3 & Hdec & Hm3 & Ha3 & Hd3).
  exists m2, m3. split_and!; try done; try congruence. by eapply evictable_law.
Qed.

(** The truncation lengths of the chunked branch. *)
Lemma trunc_len_ok (ps c ext t al : Z) :
  0 < ps → c < ceil_paged_tokens ps ext → t = floor_paged ps c → 0 < t → 0 < al → (ps | al) → al ≤ t →
  let len := al * (t / al) in
  0 ≤ len ≤ ext ∧ len ≤ c ∧ ceil_paged_tokens ps len = len ∧ floor_paged ps (c - len) < al.
Proof.
  intros Hps Hc -> Ht Hal [q ->] Hle len. pose proof (floor_lt_ceil ps Hps ext c Hc).
  pose proof (floor_paged_bounds ps Hps c). set (t := floor_paged ps c) in *.
  pose proof (Z.div_mod t (q * ps) ltac:(lia)). pose proof (Z.mod_pos_bound t (q * ps) Hal).
  pose proof (Z.div_pos t (q * ps) ltac:(lia) Hal).
  assert (Hlen : len = (q * (t / (q * ps))) * ps) by (subst len; lia).
  split_and!; [subst len; nia..| |].
  - rewrite Hlen. by apply ceil_paged_mul.
  - rewrite Hlen, floor_paged_sub by done. fold t. lia.
Qed.

Lemma trunc_none_ok (ps c ext t : Z) :
  0 < ps → c < ceil_paged_tokens ps ext → t = floor_paged ps c → 0 < t →
  0 ≤ t ≤ ext ∧ t ≤ c ∧ ceil_paged_tokens ps t = t ∧ floor_paged ps (c - t) ≤ 0.
Proof.
  intros Hps Hc -> Ht. pose proof (floor_lt_ceil ps Hps ext c Hc). pose proof (floor_paged_bounds ps Hps c).
  split_and!; try lia.
  - by apply ceil_paged_mul.
  - unfold floor_paged at 2. rewrite floor_paged_sub by done. unfold floor_paged. lia.
Qed.

Lemma Qc_ofZ_sub_le t avail e off :
  0 ≤ t → fge (Qc_ofZ (e + t)) (Qc_ofZ avail - off)%Qc = false → ∀ e', e' ≤ e → (Qc_ofZ e' <= Qc_ofZ avail - off)%Qc.
Proof.
  intros Ht Hge e' He. unfold fge in Hge. apply Qc_fle_false in Hge. apply Qclt_le_weak.
  eapply Qcle_lt_trans; [|exact Hge]. apply Qc_ofZ_le. lia.
Qed.

(** What remains to be checked about a request that is added. *)
Record fits_budget a r (align : option Z) (r' : SReq Qc) (chunked : bool) (mn : Z) (m1 : M) : Prop := {
  fb_same : sr_rid r' = sr_rid r ∧ sr_last_node r' = sr_last_node r;
  fb_extend : 0 ≤ sr_extend_input_len r' ≤ sr_extend_input_len r;
  fb_new : 0 ≤ mn;
  fb_fits : (Qc_ofZ (sr_extend_input_len r' + pa_page_size a)
             <= Qc_ofZ (mem_available_size m1 + mem_evictable_size m1) - pa_rem_total_token_offset a)%Qc;
  fb_chunk : ∀ c, pa_rem_chunk_tokens a = Some c → sr_extend_input_len r' ≤ c;
  fb_whole : chunked = false → r' = r;
  fb_trunc : chunked = true → ¬ chunk_spent a align
    ∧ ∃ c, pa_rem_chunk_tokens a = Some c
        ∧ let c' := c - ceil_paged_tokens (pa_page_size a) (sr_extend_input_len r') in
          floor_paged (pa_page_size a) c' ≤ 0 ∨ ∃ al, align = Some al ∧ floor_paged (pa_page_size a) c' < al
}.

Lemma added_intro a k Hs r align r' chunked mn m1 p :
  mem_state m1 k (sr_last_node r :: Hs) → lockable k (sr_last_node r) → mem_disable m1 = false →
  mem_available_size m1 = mem_available_size (pa_mem a) → p = zlen (sr_prefix_indices r) →
  fits_budget a r align r' chunked mn m1 →
  ∃ m2 m3, mem_inc_lock_ref m1 (sr_last_node r) = Ok m2 ∧ mem_dec_lock_ref m2 (sr_last_node r) = Ok m3
    ∧ added a k Hs r align r' chunked m3 mn
        (update_prefill_budget p (sr_extend_input_len r') mn (pa_with_mem m3 (pa_append r' chunked a))).
Proof.
  intros Hm Hn Hd Hav -> Hf. destruct (relock k Hs _ m1 Hm Hn Hd) as (m2 & m3 & Hi & Hdc & Hm3 & Hd3 & Ha3 & He3).
  exists m2, m3. split; [done|]. split; [done|]. destruct Hf as [Hsame Hext Hnew Hfit Hchunk Hwhole Htrunc].
  split; try done; [congruence|by rewrite Ha3, He3|].
  intros Hc. destruct (Htrunc Hc) as (Hns & c & Hrc & Hsp). split; [done|].
  exists (c - ceil_paged_tokens (pa_page_size a) (sr_extend_input_len r')). simpl. rewrite Hrc. done.
Qed.

(** Giving the lock back when the request is not added. *)
Lemma turned_away_intro a k Hs n m1 :
  mem_state m1 k (n :: Hs) → mem_disable m1 = false → mem_available_size m1 = mem_available_size (pa_mem a) →
  ∃ m', mem_dec_lock_ref m1 n = Ok m' ∧ turned_away a k Hs (pa_with_mem m' (pa_with_mem m1 a)).
Proof.
  intros Hm Hd Hav. destruct (dec_lock_law m1 k (n :: Hs) Hs n Hm (reflexivity _)) as (m' & Hdc & Hm' & Ha' & Hd').
  exists m'. split; [done|]. exists m'. split_and!; [done|done|congruence..].
Qed.

(** The request in the chunked branch. *)
Definition truncated_req r (len : Z) : SReq Qc :=
  truncate_fill_ids (set_extend_input_len r len) (zlen (sr_prefix_indices (set_extend_input_len r len)) + len).

Lemma truncated_fits a r align len m1 c :
  pa_rem_chunk_tokens a = Some c → ¬ chunk_spent a align →
  0 ≤ len ≤ sr_extend_input_len r → len ≤ c → ceil_paged_tokens (pa_page_size a) len = len →
  (floor_paged (pa_page_size a) (c - len) ≤ 0
   ∨ ∃ al, align = Some al ∧ floor_paged (pa_page_size a) (c - len) < al) →
  (∀ e, e ≤ sr_extend_input_len r + pa_page_size a →
     (Qc_ofZ e <= Qc_ofZ (mem_available_size m1 + mem_evictable_size m1) - pa_rem_total_token_offset a)%Qc) →
  fits_budget a r align (truncated_req r len) true 0 m1.
Proof.
  intros Hc Hns Hlen Hlc Hceil Hsp Hfit. split; simpl; try done.
  - apply Hfit. lia.
  - intros c' Hc'. by simplify_eq.
  - intros _. split; [done|]. exists c. split; [done|]. by rewrite Hceil.
Qed.

(** The rest of [with_lock] after a body that returned [x]. *)
Definition settles a k Hs r align (x : res (option AddReqResult * PrefillAdder Qc M)) : Prop :=
  ∃ early a', ('(early, a1) ← x; m' ← mem_dec_lock_ref (pa_mem a1) (sr_last_node r); Ok (early, pa_with_mem m' a1))
              = Ok (early, a')
    ∧ match early with
      | Some res => turned_away a k Hs a' ∧ res ≠ CONTINUE
      | None => ∃ r' chunked m mn, added a k Hs r align r' chunked m mn a'
      end.

Section body.
Context (a : PrefillAdder Qc M) (k : content) (Hs : list nat) (r : SReq Qc) (align : option Z) (m1 : M).
Context (Hps : 0 < pa_page_size a) (Hm1 : mem_state m1 k (sr_last_node r :: Hs)) (Hd1 : mem_disable m1 = false)
        (Ha1 : mem_available_size m1 = mem_available_size (pa_mem a)) (Hr : good_req k r).
Context (Hfit : ∀ e, e ≤ sr_extend_input_len r + pa_page_size a →
  (Qc_ofZ e <= Qc_ofZ (mem_available_size m1 + mem_evictable_size m1) - pa_rem_total_token_offset a)%Qc).

Lemma settles_early res : res ≠ CONTINUE → settles a k Hs r align (Ok (Some res, pa_with_mem m1 a)).
Proof.
  intros Hres. destruct (turned_away_intro a k Hs _ m1 Hm1 Hd1 Ha1) as (m0 & Hdc & Hturn).
  eexists _, _. cbn [mbind res_bind pa_mem pa_with_mem]. rewrite Hdc. split; [done|]. by split; [exact Hturn|].
Qed.

Lemma settles_added r' chunked mn t :
  sr_last_node r' = sr_last_node r →
  ceil_paged_tokens (pa_page_size a) t = ceil_paged_tokens (pa_page_size a) (sr_extend_input_len r') →
  fits_budget a r align r' chunked mn m1 →
  settles a k Hs r align
    (m ← mem_inc_lock_ref m1 (sr_last_node r');
     Ok (None, update_prefill_budget (zlen (sr_prefix_indices r)) t mn
                 (pa_with_mem m (pa_append r' chunked (pa_with_mem m1 a))))).
Proof.
  intros Hl Ht Hf. destruct Hr as (Hn & _).
  destruct (added_intro a k Hs r align r' chunked mn m1 _ Hm1 Hn Hd1 Ha1 eq_refl Hf) as (m2 & m3 & Hi & Hdc & Had).
  eexists _, _. rewrite Hl, Hi. cbn [mbind res_bind]. simpl pa_mem. rewrite Hdc. split; [done|].
  exists r', chunked, m3, mn. unfold update_prefill_budget in *. simpl in *. by rewrite Ht.
Qed.

Lemma settles_whole :
  (∀ c, pa_rem_chunk_tokens a = Some c → ceil_paged_tokens (pa_page_size a) (sr_extend_input_len r) ≤ c) →
  settles a k Hs r align
    (m ← mem_inc_lock_ref m1 (sr_last_node r);
     Ok (None, update_prefill_budget (zlen (sr_prefix_indices r))
                 (ceil_paged_tokens (pa_page_size a) (sr_extend_input_len r)) (clipped_max_new r)
                 (pa_with_mem m (pa_append r false (pa_with_mem m1 a))))).
Proof.
  intros Hc. destruct Hr as (Hn & Hext & Hmax & _). apply settles_added; [done|by apply ceil_paged_idem|].
  split; simpl; try done; [unfold clipped_max_new, CLIP_MAX_NEW_TOKENS; lia|by apply Hfit|].
  intros c Hcc%Hc. pose proof (ceil_paged_bounds _ Hps (sr_extend_input_len r)). lia.
Qed.

Lemma settles_truncated len c :
  pa_rem_chunk_tokens a = Some c → ¬ chunk_spent a align →
  0 ≤ len ≤ sr_extend_input_len r ∧ len ≤ c ∧ ceil_paged_tokens (pa_page_size a) len = len →
  (floor_paged (pa_page_size a) (c - len) ≤ 0
   ∨ ∃ al, align = Some al ∧ floor_paged (pa_page_size a) (c - len) < al) →
  settles a k Hs r align
    (m ← mem_inc_lock_ref m1 (sr_last_node (truncated_req r len));
     Ok (None, update_prefill_budget (zlen (sr_prefix_indices r)) len 0
                 (pa_with_mem m (pa_append (truncated_req r len) true (pa_with_mem m1 a))))).
Proof. intros Hc Hns (Hlen & Hlc & Hceil) Hsp. apply settles_added; [done|done|]. by eapply truncated_fits. Qed.

End body.

Lemma not_spent a align c :
  pa_rem_chunk_tokens a = Some c → 0 < floor_paged (pa_page_size a) c →
  (∀ al, align = Some al → al ≤ floor_paged (pa_page_size a) c) → ¬ chunk_spent a align.
Proof. intros Hc Hpos Hal (c' & Hc' & [?|(al & Hs%Hal & ?)]); simplify_eq; lia. Qed.

(** [add_under_lock] under the lock [m1]. *)
Lemma add_under_lock_settles a k Hs r align m1 :
  0 < pa_page_size a → mem_state m1 k (sr_last_node r :: Hs) → mem_disable m1 = false →
  mem_available_size m1 = mem_available_size (pa_mem a) → good_req k r → good_align (pa_page_size a) align →
  settles a k Hs r align (add_under_lock (pa_with_mem m1 a) r (total_tokens_for a r) align).
Proof.
  intros Hps Hm1 Hd1 Ha1 Hr Hal. unfold add_under_lock.
  pose proof Hr as (_ & Hext & _ & Hhost). rewrite (bool_decide_eq_false_2 (0 < sr_host_hit_length r)) by lia.
  destruct (fge _ _) eqn:Hge; [by apply settles_early|].
  assert (Hfit : ∀ e, e ≤ sr_extend_input_len r + pa_page_size a →
    (Qc_ofZ e <= Qc_ofZ (mem_available_size m1 + mem_evictable_size m1) - pa_rem_total_token_offset a)%Qc).
  { apply (Qc_ofZ_sub_le (Z.min (Z.max (sr_max_new_tokens r - zlen (sr_output_ids r)) 0) CLIP_MAX_NEW_TOKENS)).
    - unfold CLIP_MAX_NEW_TOKENS. lia.
    - rewrite <- Hge. unfold total_tokens_for. apply (f_equal2 fge); [|reflexivity].
      cbn [fofZ Qc_pynum]. f_equal. lia. }
  cbn [mbind res_bind pa_page_size pa_with_mem pa_rem_input_tokens pa_can_run_list pa_rem_chunk_tokens pa_mem].
  destruct (bool_decide (pa_rem_input_tokens a ≤ _) && _); [by apply settles_early|].
  destruct (pa_rem_chunk_tokens a) as [c|] eqn:Hc; [|apply settles_whole; try done; by rewrite Hc].
  case_bool_decide as Hin; [apply settles_whole; try done; by intros ? ?; simplify_eq|].
  fold (floor_paged (pa_page_size a) c). case_bool_decide as Ht; [by apply settles_early|].
  destruct align as [al|].
  - case_bool_decide as Hle; [by apply settles_early|]. destruct Hal as [Hpos Hdiv].
    destruct (trunc_len_ok (pa_page_size a) c (sr_extend_input_len r) _ al Hps ltac:(lia) eq_refl)
      as (? & ? & ? & ?); [lia..|done|lia|].
    eapply settles_truncated; eauto 10. eapply not_spent; [done|lia|]. intros ? [= <-]. lia.
  - destruct (trunc_none_ok (pa_page_size a) c (sr_extend_input_len r) _ Hps ltac:(lia) eq_refl)
      as (? & ? & ? & ?); [lia|].
    eapply settles_truncated; eauto 10. eapply not_spent; [done|lia|done].
Qed.

Lemma locked_add a k Hs r align :
  adder_state a k Hs → good_req k r → good_align (pa_page_size a) align →
  settles a k Hs r align (m ← mem_inc_lock_ref (pa_mem a) (sr_last_node r);
                          add_under_lock (pa_with_mem m a) r (total_tokens_for a r) align).
Proof.
  intros (Hm & Hd & Hps) Hr Hal. pose proof Hr as (Hn & _).
  destruct (inc_lock_law _ _ _ _ Hm Hn) as (m1 & Hi & Hm1 & Ha1 & Hd1). rewrite Hi. cbn [mbind res_bind].
  apply add_under_lock_settles; try done. congruence.
Qed.

(** The outcome of one call of [add_one_req]. *)
Lemma add_one_req_cases a k Hs r allows align :
  adder_state a k Hs → good_req k r → good_align (pa_page_size a) align →
  ∃ res a', add_one_req a r allows align = Ok (res, a')
    ∧ (turned_away a k Hs a' ∧ res ≠ CONTINUE
       ∨ ∃ r' chunked m mn, added a k Hs r align r' chunked m mn a' ∧ res = budget_state a'
           ∧ ∀ x, pa_prefill_max_requests a = Some x → zlen (pa_can_run_list a) < x).
Proof.
  intros Ha Hr Hal. pose proof Ha as (Hm & Hd & Hps). unfold add_one_req.
  assert (Haway : ∀ res, res ≠ CONTINUE → ∃ res' a', Ok (res, a) = Ok (res', a')
    ∧ (turned_away a k Hs a' ∧ res' ≠ CONTINUE
       ∨ ∃ r' chunked m mn, added a k Hs r align r' chunked m mn a' ∧ res' = budget_state a'
           ∧ ∀ x, pa_prefill_max_requests a = Some x → zlen (pa_can_run_list a) < x)).
  { intros res Hres. exists res, a. split; [done|]. left. split; [by apply turned_away_self|done]. }
  destruct allows; [cbn [negb]|by apply Haway]. destruct (_ && _); [by apply Haway|].
  destruct (match pa_prefill_max_requests a with Some x => _ | None => _ end) eqn:Hmx; [by apply Haway|].
  rewrite Hd, andb_false_r. destruct (fge _ _); [by apply Haway|]. destruct (_ && _); [by apply Haway|].
  destruct (locked_add a k Hs r align Ha Hr Hal) as (early & a' & Hgo & Hcase).
  unfold with_lock. destruct (mem_inc_lock_ref (pa_mem a) (sr_last_node r)) as [m1|e]; [|done].
  cbn [mbind res_bind] in *. rewrite Hgo. cbn [mbind res_bind].
  eexists _, a'. split; [done|]. destruct early as [res|].
  - by left.
  - right. destruct Hcase as (r' & ch & m & mn & Had). exists r', ch, m, mn. split_and!; [done..|].
    intros x Hx. rewrite Hx in Hmx. apply bool_decide_eq_false in Hmx. lia.
Qed.

(** ** A batch *)

(** The new tokens of a batch, and what [alloc_extend] reserves for it. *)
Definition batch_tokens (l : list (SReq Qc)) : Z := sumZ (sr_extend_input_len <$> l).
Definition batch_need (ps : Z) (l : list (SReq Qc)) : Z := batch_tokens l + zlen l * ps.

Lemma batch_tokens_snoc l r : batch_tokens (l ++ [r]) = batch_tokens l + sr_extend_input_len r.
Proof. unfold batch_tokens. rewrite fmap_app, sumZ_app. simpl. lia. Qed.

Lemma batch_need_snoc ps l r : batch_need ps (l ++ [r]) = batch_need ps l + sr_extend_input_len r + ps.
Proof. unfold batch_need, zlen. rewrite batch_tokens_snoc, length_app. simpl. lia. Qed.

(** The locks of a batch, latest first. *)
Definition batch_locks (l : list (SReq Qc)) : list nat := rev (sr_last_node <$> l).

Lemma batch_locks_snoc l r : batch_locks (l ++ [r]) = sr_last_node r :: batch_locks l.
Proof. unfold batch_locks. by rewrite fmap_app, rev_app_distr. Qed.

(** No request can be truncated any more. *)
Definition spent a (align : option Z) : Prop := chunk_spent a align ∨ (rem_total_tokens a < 0)%Qc.

(** The batch is the carried-over request [base], locked by its earlier chunk, and [new], locked by the
    builder.  [B] and [mx] are the budgets the builder started with. *)
Section batch.
Context (H0s : list nat) (B align : option Z) (base : list (SReq Qc)).

Record batch_inv (ps avail : Z) (mx : option Z) k (new : list (SReq Qc)) a : Prop := {
  bi_list : pa_can_run_list a = base ++ new;
  bi_state : adder_state a k (batch_locks new ++ H0s);
  bi_page : pa_page_size a = ps;
  bi_max : pa_prefill_max_requests a = mx;
  bi_avail : mem_available_size (pa_mem a) = avail;
  bi_offset : (Qc_ofZ (batch_need ps (base ++ new)) <= pa_rem_total_token_offset a)%Qc;
  bi_fits : new = [] ∨ batch_need ps (base ++ new) ≤ avail + mem_evictable_size (pa_mem a);
  bi_chunk : match pa_rem_chunk_tokens a, B with
             | Some c, Some b => batch_tokens (base ++ new) + c ≤ b ∧ batch_tokens (base ++ new) ≤ Z.max 0 b
             | None, None => True
             | _, _ => False
             end;
  bi_count : new = [] ∨ ∀ x, mx = Some x → zlen (base ++ new) ≤ x;
  bi_trunc : is_Some (pa_new_chunked_req a) → chunk_spent a align;
  bi_chunked : ∀ r, pa_new_chunked_req a = Some r → r ∈ base ++ new
}.

Lemma batch_inv_mem ps avail mx k k' new a m :
  batch_inv ps avail mx k new a → mem_state m k' (batch_locks new ++ H0s) → mem_disable m = false →
  mem_available_size m = mem_available_size (pa_mem a) → mem_evictable_size m = mem_evictable_size (pa_mem a) →
  batch_inv ps avail mx k' new (pa_with_mem m a).
Proof.
  intros [Hl (Hm & Hd & Hps) Hpage Hmax Hav Hoff Hfits Hch Hcnt Htr Hin] Hm' Hd' Ha' He'.
  split; simpl; try done; [congruence|]. by rewrite He'.
Qed.

Lemma batch_inv_turned ps avail mx k new a a' :
  batch_inv ps avail mx k new a → turned_away a k (batch_locks new ++ H0s) a' → batch_inv ps avail mx k new a'.
Proof.
  intros Ha (m & -> & Hm' & Hd' & Ha'). eapply batch_inv_mem; try done.
  destruct (bi_state _ _ _ _ _ _ Ha) as (Hm & _). by apply (evictable_law _ _ _ _ _ Hm Hm').
Qed.

Lemma batch_inv_added ps avail mx k new a a' r r' chunked m mn :
  batch_inv ps avail mx k new a → added a k (batch_locks new ++ H0s) r align r' chunked m mn a' →
  (∀ x, pa_prefill_max_requests a = Some x → zlen (pa_can_run_list a) < x) →
  batch_inv ps avail mx k (new ++ [r']) a'.
Proof.
  intros [Hl (Hm & Hd & Hps) Hpage Hmax Hav Hoff Hfits Hch Hcnt Htr Hin] Had Hx. subst ps avail mx.
  destruct Had as [-> Hst Hdis Hav [Hrid Hlast] Hext Hmn Hfit Hck Hwh Hsp].
  pose proof (ceil_paged_bounds _ Hps (sr_extend_input_len r')) as Hceil. rewrite Hl in Hx.
  split; simpl; rewrite ?(app_assoc base), ?Hl; try done.
  - split_and!; try done. by rewrite batch_locks_snoc, Hlast.
  - rewrite batch_need_snoc, <- Z.add_assoc, <- Qc_ofZ_add. apply Qcplus_le_compat; [done|].
    apply Qc_ofZ_le. lia.
  - right. rewrite batch_need_snoc. apply Qc_ofZ_le. rewrite <- Z.add_assoc, <- Qc_ofZ_add, <- Hav.
    eapply Qcle_trans; [apply Qcplus_le_compat; [exact Hoff|exact Hfit]|].
    replace (pa_rem_total_token_offset a + (Qc_ofZ (mem_available_size m + mem_evictable_size m)
      - pa_rem_total_token_offset a))%Qc with (Qc_ofZ (mem_available_size m + mem_evictable_size m)) by ring.
    apply Qcle_refl.
  - destruct (pa_rem_chunk_tokens a) as [c|] eqn:Hc, B as [b|]; simpl; try done.
    rewrite batch_tokens_snoc. pose proof (Hck c eq_refl). lia.
  - right. intros x Hx'. specialize (Hx x Hx'). unfold zlen in *. rewrite length_app. simpl. lia.
  - intros Hs. destruct chunked; [by destruct Hsp|].
    destruct (Htr Hs) as (c & Hc & Hdisj). exists (c - ceil_paged_tokens (pa_page_size a) (sr_extend_input_len r')).
    simpl. rewrite Hc. split; [done|].
    pose proof (floor_paged_mono _ Hps (c - ceil_paged_tokens (pa_page_size a) (sr_extend_input_len r')) c ltac:(lia)).
    destruct Hdisj as [?|(al & -> & ?)]; [left; lia|]. right. exists al. split; [done|]. lia.
  - intros x Hx'. apply elem_of_app. destruct chunked; [right; simplify_eq; set_solver|left; by apply Hin].
Qed.

(** ** Offering one request of the queue *)

Lemma next_round_ok m k Hs r :
  mem_state m k Hs → mem_disable m = false → 0 ≤ sr_max_new_tokens r →
  ∃ r' m' k', init_next_round_input r (Some m) = Ok (r', Some m') ∧ good_req k' r' ∧ same_req r r'
    ∧ mem_state m' k' Hs ∧ mem_disable m' = false ∧ mem_available_size m' = mem_available_size m
    ∧ mem_evictable_size m' = mem_evictable_size m.
Proof.
  intros Hm Hd Hmax. unfold init_next_round_input. set (tokens := if sr_embed_overrides r then [] else _).
  destruct (match_law m k Hs tokens (sr_extra_key r) Hm Hd) as (mr & m' & k' & Hgo & Hm' & Hn & Hlen & Hh & Ha & He & Hd' & _).
  rewrite Hgo. cbn [mbind res_bind]. eexists _, m', k'. split; [done|].
  assert (zlen tokens ≤ zlen (sr_origin_input_ids r ++ sr_output_ids r)).
  { unfold tokens. destruct (sr_embed_overrides r); [apply zlen_nonneg|]. unfold zlen, slice_to.
    rewrite ?length_take. lia. }
  split_and!; try done; [|congruence]. split_and!; simpl; try done. lia.
Qed.

Lemma exhausted_unchanged a k Hs r allows :
  adder_state a k Hs → good_req k r → (rem_total_tokens a < 0)%Qc →
  ∃ result, add_one_req a r allows align = Ok (result, a) ∧ result ≠ CONTINUE.
Proof.
  intros (_ & Hd & Hps) (_ & Hext & Hmax & _) Hneg. unfold add_one_req. destruct allows; [cbn [negb]|by eexists].
  destruct (_ && _); [by eexists|]. destruct (match pa_prefill_max_requests a with Some _ => _ | None => _ end);
    [by eexists|].
  rewrite Hd, andb_false_r. replace (fge _ _) with true; [by eexists|]. symmetry. apply Qc_fle, Qclt_le_weak.
  eapply Qclt_le_trans; [exact Hneg|]. apply Qc_ofZ_nonneg. unfold total_tokens_for, CLIP_MAX_NEW_TOKENS. lia.
Qed.

(** Adding a request after the chunk budget is spent: in full, and the budget stays spent. *)
Lemma added_spent a k Hs r r' chunked m mn a' :
  0 < pa_page_size a → added a k Hs r align r' chunked m mn a' → chunk_spent a align →
  pa_new_chunked_req a' = pa_new_chunked_req a ∧ chunk_spent a' align.
Proof.
  intros Hps Had (c & Hc & Hdisj).
  destruct chunked; [by destruct (proj1 (ad_trunc _ _ _ _ _ _ _ _ _ _ Had eq_refl)); exists c|].
  destruct Had as [-> _ _ _ _ Hext _ _ _ _ _]. split; [done|].
  exists (c - ceil_paged_tokens (pa_page_size a) (sr_extend_input_len r')). simpl. rewrite Hc. split; [done|].
  pose proof (ceil_paged_bounds _ Hps (sr_extend_input_len r')).
  pose proof (floor_paged_mono _ Hps (c - ceil_paged_tokens (pa_page_size a) (sr_extend_input_len r')) c ltac:(lia)).
  destruct Hdisj as [?|(al & -> & ?)]; [left; lia|]. right. exists al. split; [done|]. lia.
Qed.

(** What one turn of the loop does. *)
Record offered ps avail mx (new : list (SReq Qc)) a r (r' : SReq Qc) result k' a1 : Prop := {
  of_same : same_req r r';
  of_case : batch_inv ps avail mx k' new a1 ∧ pa_can_run_list a1 = pa_can_run_list a
              ∧ pa_new_chunked_req a1 = pa_new_chunked_req a ∧ result ≠ CONTINUE
            ∨ ∃ r'', batch_inv ps avail mx k' (new ++ [r'']) a1 ∧ sr_rid r'' = sr_rid r
                ∧ pa_can_run_list a1 = pa_can_run_list a ++ [r'']
                ∧ (spent a align → pa_new_chunked_req a1 = pa_new_chunked_req a ∧ spent a1 align)
}.

Lemma offer_ok ps avail mx k new a r allows :
  batch_inv ps avail mx k new a → good_align ps align → 0 ≤ sr_max_new_tokens r →
  ∃ r' m' k' result a1, init_next_round_input r (Some (pa_mem a)) = Ok (r', Some m')
    ∧ add_one_req (pa_with_mem m' a) r' allows align = Ok (result, a1)
    ∧ offered ps avail mx new a r r' result k' a1.
Proof.
  intros Ha Hal Hmax. pose proof (bi_state _ _ _ _ _ _ Ha) as (Hm & Hd & Hps).
  destruct (next_round_ok _ k _ r Hm Hd Hmax) as (r' & m' & k' & Hgo & Hr' & Hsame & Hm' & Hd' & Hav & Hev).
  pose proof (batch_inv_mem _ _ _ _ k' _ _ m' Ha Hm' Hd' Hav Hev) as Ha'.
  pose proof (bi_state _ _ _ _ _ _ Ha') as Hst.
  destruct (add_one_req_cases (pa_with_mem m' a) k' _ r' allows align Hst Hr') as (result & a1 & Hadd & Hcase).
  { simpl. by rewrite (bi_page _ _ _ _ _ _ Ha). }
  exists r', m', k', result, a1. split; [done|]. split; [done|]. split; [done|].
  destruct Hcase as [[Hturn Hres]|(r'' & ch & m & mn & Had & _ & Hx)].
  { left. split; [by eapply batch_inv_turned|]. by destruct Hturn as (m & -> & _). }
  right. exists r''. split; [by eapply batch_inv_added|].
  split; [by rewrite (proj1 (ad_same _ _ _ _ _ _ _ _ _ _ Had)), (sq_rid _ _ Hsame)|].
  split; [by rewrite (ad_eq _ _ _ _ _ _ _ _ _ _ Had)|]. intros [Hsp|Hneg].
  { destruct (added_spent (pa_with_mem m' a) _ _ _ _ _ _ _ _ Hps Had Hsp) as [He Hsp']. split; [exact He|by left]. }
  destruct (exhausted_unchanged (pa_with_mem m' a) k' _ r' allows Hst Hr') as (res' & Hsame' & _).
  { unfold rem_total_tokens in *. simpl in *. by rewrite Hav, Hev. }
  rewrite Hadd in Hsame'. injection Hsame' as _ ->.
  pose proof (f_equal (length ∘ pa_can_run_list) (ad_eq _ _ _ _ _ _ _ _ _ _ Had)) as Hlen.
  simpl in Hlen. rewrite length_app in Hlen. simpl in Hlen. lia.
Qed.

End batch.

(** ** The loop *)

Section loop.
Context (cfg : PrefillConfig) (H0s : list nat) (B : option Z) (base : list (SReq Qc)).
Abbreviation align := (pc_truncation_align_size cfg).
Abbreviation binv := (batch_inv H0s B align base).

Lemma fill_batch_ok ps avail mx room allows queue full a k new :
  binv ps avail mx k new a → good_align ps align → Forall (λ r, 0 ≤ sr_max_new_tokens r) queue →
  ∃ full' queue' a' k' more, fill_batch cfg room allows full a queue = Ok (full', queue', a')
    ∧ binv ps avail mx k' (new ++ more) a'
    ∧ sr_rid <$> more `sublist_of` sr_rid <$> queue
    ∧ (sr_rid <$> more) ++ (sr_rid <$> queue') ≡ₚ sr_rid <$> queue
    ∧ (spent a align → pa_new_chunked_req a' = pa_new_chunked_req a).
Proof.
  intros Ha Hal Hq. revert full a k new Ha. induction Hq as [|r rest Hr Hq IH]; intros full a k new Ha.
  { exists full, [], a, k, []. by rewrite app_nil_r. }
  cbn [fill_batch]. cbv zeta. destruct (full || _) eqn:Hfull.
  { exists true, (r :: rest), a, k, []. rewrite app_nil_r. split_and!; try done. apply sublist_nil_l. }
  destruct (offer_ok H0s B align base ps avail mx k new a r allows Ha Hal Hr)
    as (r' & m' & k' & result & a1 & Hgo & Hadd & [Hsame Hcase]).
  rewrite Hgo. cbn [mbind res_bind default]. unfold id. rewrite Hadd. cbn [mbind res_bind]. cbn [pa_can_run_list pa_with_mem].
  pose proof (sq_rid _ _ Hsame) as Hrid.
  destruct Hcase as [(Ha1 & Hcan & Hnc & Hres)|(r'' & Ha1 & Hrid' & Hcan & Hsp)].
  - rewrite Hcan, (bool_decide_eq_false_2 (result = CONTINUE)), (bool_decide_eq_false_2 (_ < _)) by (done || lia).
    eexists _, _, a1, k', []. rewrite app_nil_r. split; [done|]. split_and!; try done; [apply sublist_nil_l|].
    simpl. by rewrite Hrid.
  - rewrite Hcan, (bool_decide_eq_true_2 (_ < _)) by (unfold zlen; rewrite length_app; simpl; lia).
    destruct (bool_decide (result = CONTINUE)).
    + destruct (IH false a1 k' (new ++ [r'']) Ha1) as (full' & queue' & a' & k'' & more & Hgo' & Ha' & Hsub & Hperm & Hst).
      rewrite Hgo'. cbn [mbind res_bind]. exists full', queue', a', k'', (r'' :: more). split; [done|].
      rewrite <- app_assoc in Ha'. split_and!; [done|simpl; rewrite Hrid'; by apply sublist_skip| |].
      * simpl. rewrite Hrid'. by constructor.
      * intros H1. destruct (Hsp H1) as [He Hs1]. by rewrite (Hst Hs1).
    + eexists _, _, a1, k', [r'']. split; [done|]. split_and!; [done| | |].
      * simpl. rewrite Hrid'. apply sublist_skip, sublist_nil_l.
      * simpl. by rewrite Hrid'.
      * intros H1. by destruct (Hsp H1).
Qed.

End loop.

(** ** The fresh builder *)

Definition good_running (ratio : Qc) (running : list (SReq Qc)) : Prop :=
  (0 <= ratio)%Qc ∧ Forall (λ r, zlen (sr_output_ids r) ≤ sr_max_new_tokens r) running.

Lemma init_offset_nonneg ps (m : M) running ratio inp chunk mixed thr mx single :
  0 ≤ mixed → good_running ratio running →
  (0 <= pa_rem_total_token_offset (PrefillAdder_init ps m (Some running) ratio inp chunk mixed thr mx single))%Qc.
Proof.
  intros Hmix [Hr Hrun]. simpl. apply Qc_add_nonneg; [by apply Qc_ofZ_nonneg|]. unfold fsum. simpl.
  rewrite (foldl_qsum (λ x, x)), Qc_ofZ_0, Qcplus_0_l. apply qsum_nonneg, Forall_fmap.
  eapply Forall_impl; [exact Hrun|]. intros r Hle. apply Qc_mul_nonneg; [|done]. apply Qc_ofZ_nonneg.
  unfold CLIP_MAX_NEW_TOKENS. simpl in *. lia.
Qed.

Lemma init_batch_inv k H0s ps (m : M) running ratio inp chunk mixed thr mx single align :
  mem_state m k H0s → mem_disable m = false → 0 < ps → 0 ≤ mixed → good_running ratio running →
  batch_inv H0s ((λ c, c - mixed) <$> chunk) align [] ps (mem_available_size m) mx k []
    (PrefillAdder_init ps m (Some running) ratio inp chunk mixed thr mx single).
Proof.
  intros Hm Hd Hps Hmix Hrun. split; simpl; try done; try by left.
  - change (batch_need ps []) with 0. rewrite Qc_ofZ_0.
    exact (init_offset_nonneg ps m running ratio inp chunk mixed thr mx single Hmix Hrun).
  - destruct chunk; simpl; [|done]. unfold batch_tokens. simpl. lia.
Qed.

(** ** The carried-over request *)
(** The request after its next chunk. *)
Definition chunk_of r (len : Z) : SReq Qc := truncated_req r (Z.min (sr_extend_input_len r) len).

Lemma add_chunked_ok H0s c align k ps avail mx a r :
  batch_inv H0s (Some c) align [] ps avail mx k [] a → pa_rem_chunk_tokens a = Some c → 0 < c →
  pa_new_chunked_req a = None → 0 ≤ sr_extend_input_len r → 0 ≤ sr_max_new_tokens r →
  ∃ len a1, 0 < len ≤ c
    ∧ add_chunked_req a r = Ok (if bool_decide (len < sr_extend_input_len r) then Some (chunk_of r len) else None, a1)
    ∧ batch_inv H0s (Some c) align [chunk_of r len] ps avail mx k [] a1
    ∧ pa_new_chunked_req a1 = None
    ∧ (len < sr_extend_input_len r → spent a1 align).
Proof.
  intros [Hl (Hm & Hd & Hps) Hpage Hmax Hav Hoff Hfits Hch Hcnt Htr Hin] Hc Hpos Hnc Hext Hmn. subst ps.
  unfold add_chunked_req. rewrite Hc. remember (fint (rem_total_tokens a)) as q eqn:Hq.
  set (rem := if bool_decide (Z.min c q ≤ 0) then c else Z.min c q).
  assert (Hrem : 0 < rem ≤ c ∧ (rem = c ∨ rem = q)) by (unfold rem; case_bool_decide; lia).
  clearbody rem. eexists rem, _. split; [lia|]. split; [reflexivity|].
  change (truncate_fill_ids _ _) with (chunk_of r rem). set (r2 := chunk_of r rem).
  assert (Hlen : sr_extend_input_len r2 = Z.min (sr_extend_input_len r) rem) by done.
  pose proof (ceil_paged_bounds _ Hps (sr_extend_input_len r2)) as Hceil.
  assert (Hneed : batch_need (pa_page_size a) [r2] = sr_extend_input_len r2 + pa_page_size a)
    by (unfold batch_need, batch_tokens, zlen; simpl; lia).
  assert (Htok : batch_tokens [r2] = sr_extend_input_len r2) by (unfold batch_tokens; simpl; lia).
  split.
  { split; try by left. all: try done.
    - simpl. by rewrite Hl.
    - cbn [app pa_rem_total_token_offset update_prefill_budget pa_append]. rewrite Hneed.
      apply (Qcle_trans _ (0 + Qc_ofZ (sr_extend_input_len r2 + pa_page_size a))%Qc).
      { rewrite Qcplus_0_l. apply Qcle_refl. }
      apply Qcplus_le_compat; [|apply Qc_ofZ_le; case_bool_decide; unfold clipped_max_new, CLIP_MAX_NEW_TOKENS; simpl in *; lia].
      eapply Qcle_trans; [|exact Hoff]. apply Qc_ofZ_nonneg. unfold batch_need, batch_tokens, zlen. simpl. lia.
    - cbn [app pa_rem_chunk_tokens update_prefill_budget pa_append pa_page_size]. rewrite Hc.
      cbn [fmap option_fmap option_map]. rewrite Htok. lia.
    - simpl. intros Hs. rewrite Hnc in Hs. by destruct Hs.
    - simpl. intros x Hx. by rewrite Hnc in Hx. }
  split; [done|]. intros Hlt. rewrite bool_decide_eq_true_2 by done. rewrite Z.min_r in Hlen by lia.
  destruct Hrem as [Hrem0 [He|He]].
  - left. exists (c - ceil_paged_tokens (pa_page_size a) (sr_extend_input_len r2)).
    cbn [pa_rem_chunk_tokens update_prefill_budget pa_append pa_page_size]. rewrite Hc. split; [done|].
    left. pose proof (floor_paged_bounds _ Hps (c - ceil_paged_tokens (pa_page_size a) (sr_extend_input_len r2))). lia.
  - right. assert (Hb : 0 < fint (rem_total_tokens a)) by lia. apply Qc_fint_lt in Hb. rewrite <- Hq in Hb.
    unfold rem_total_tokens in *.
    cbn [pa_mem pa_page_size pa_rem_total_token_offset update_prefill_budget pa_append fadd fsub fofZ Qc_pynum] in *.
    replace (_ - (_ + _))%Qc with ((Qc_ofZ (mem_available_size (pa_mem a) + mem_evictable_size (pa_mem a))
       - pa_rem_total_token_offset a) - Qc_ofZ (ceil_paged_tokens (pa_page_size a) (sr_extend_input_len r2) + 0 + pa_page_size a))%Qc by ring.
    apply Qc_sub_neg. eapply Qclt_le_trans; [exact Hb|]. apply Qc_ofZ_le. lia.
Qed.

End one.

(** ** The next batch *)

Section next_batch.
Context {M P : Type} `{QueuePolicyLaws Qc M P}.
Context (cfg : PrefillConfig).

(** The chunk budget of the batch: the configured size less the decode tokens mixed in. *)
Definition chunk_budget (running_bs : Z) : option Z :=
  (λ c, c - if pc_is_mixed_chunk cfg then running_bs else 0) <$> pc_chunked_prefill_size cfg.

Record scheduler_ok (s : Scheduler Qc M P) (k : content) (H0s : list nat) : Prop := {
  so_page : 0 < pc_page_size cfg;
  so_align : good_align (pc_page_size cfg) (pc_truncation_align_size cfg);
  so_mem : mem_state (sc_mem s) k H0s;
  so_disable : mem_disable (sc_mem s) = false;
  so_policy : policy_ok (sc_policy s);
  so_running : good_running (sc_new_token_ratio s) (sc_running s);
  so_waiting : Forall (λ r, 0 ≤ sr_max_new_tokens r) (sc_waiting_queue s);
  so_chunked : ∀ r, sc_chunked_req s = Some r →
    0 ≤ sr_max_new_tokens r ∧ zlen (sr_prefix_indices r) ≤ zlen (sr_origin_input_ids r ++ sr_output_ids r)
    ∧ ∃ c, chunk_budget (zlen (sc_running s)) = Some c ∧ 0 < c
}.

(** What a batch satisfies.  [carried] is the chunk of the request carried over, [new] are the
    requests of the queue. *)
Record batch_ok (s : Scheduler Qc M P) (k : content) (H0s : list nat) (carried new : list (SReq Qc))
    (chunked : option (SReq Qc)) (s' : Scheduler Qc M P) : Prop := {
  bo_carried : sr_rid <$> carried = sr_rid <$> option_list (sc_chunked_req s);
  bo_locks : mem_state (sc_mem s') k (rev (sr_last_node <$> new) ++ H0s);
  bo_available : mem_available_size (sc_mem s') = mem_available_size (sc_mem s);
  bo_fits : new = [] ∨ batch_need (pc_page_size cfg) (carried ++ new)
              ≤ mem_available_size (sc_mem s') + mem_evictable_size (sc_mem s');
  bo_chunk : ∀ c, chunk_budget (zlen (sc_running s)) = Some c → batch_tokens (carried ++ new) ≤ Z.max 0 c;
  bo_count : new = [] ∨ ∀ x, pc_prefill_max_requests cfg = Some x → zlen (carried ++ new) ≤ x;
  bo_queue : (sr_rid <$> new) ++ (sr_rid <$> sc_waiting_queue s') ≡ₚ sr_rid <$> sc_waiting_queue s;
  bo_chunked : sc_chunked_req s' = chunked ∧ ∀ r, chunked = Some r → r ∈ carried ++ new
}.

Lemma same_reqs_rids (l l' : list (SReq Qc)) : Forall2 same_req l l' → sr_rid <$> l' = sr_rid <$> l.
Proof. induction 1 as [|r r' l l' Hs _ IH]; [done|]. by rewrite !fmap_cons, (sq_rid _ _ Hs), IH. Qed.

Lemma same_reqs_max (l l' : list (SReq Qc)) :
  Forall2 same_req l l' → Forall (λ r, 0 ≤ sr_max_new_tokens r) l → Forall (λ r, 0 ≤ sr_max_new_tokens r) l'.
Proof.
  induction 1 as [|r r' l l' Hs _ IH]; [done|]. intros [Hr Hl]%Forall_cons. constructor; [|by auto].
  by rewrite (sq_max_new _ _ Hs).
Qed.

(** The builder after the carried-over request. *)
Lemma carried_ok s k H0s m :
  scheduler_ok s k H0s → mem_state m k H0s → mem_disable m = false →
  let running_bs := zlen (sc_running s) in
  let adder :=
    PrefillAdder_init (pc_page_size cfg) m (Some (sc_running s)) (sc_new_token_ratio s)
      (pc_max_prefill_tokens cfg) (pc_chunked_prefill_size cfg) (if pc_is_mixed_chunk cfg then running_bs else 0)
      (pc_threshold cfg) (pc_prefill_max_requests cfg) (pc_single_prefill cfg) in
  ∃ chunked a1 carried,
    match sc_chunked_req s with
    | None => Ok (None, adder)
    | Some r => '(r, _) ← init_next_round_input r (None : option M); add_chunked_req adder r
    end = Ok (chunked, a1)
    ∧ batch_inv H0s (chunk_budget running_bs) (pc_truncation_align_size cfg) carried (pc_page_size cfg)
        (mem_available_size m) (pc_prefill_max_requests cfg) k [] a1
    ∧ sr_rid <$> carried = sr_rid <$> option_list (sc_chunked_req s)
    ∧ pa_new_chunked_req a1 = None
    ∧ ∀ r, chunked = Some r → r ∈ carried ∧ spent a1 (pc_truncation_align_size cfg).
Proof.
  intros [Hps Hal _ _ _ Hrun _ Hck] Hm Hd running_bs adder.
  assert (Hb : batch_inv H0s (chunk_budget running_bs) (pc_truncation_align_size cfg) [] (pc_page_size cfg)
     (mem_available_size m) (pc_prefill_max_requests cfg) k [] adder).
  { apply init_batch_inv; try done. destruct (pc_is_mixed_chunk cfg); [apply zlen_nonneg|done]. }
  destruct (sc_chunked_req s) as [r|]; last first.
  { by exists None, adder, []. }
  destruct (Hck r eq_refl) as (Hmax & Hpre & c & Hc & Hpos). unfold init_next_round_input. cbn [mbind res_bind].
  set (r1 := set_extend_input_len _ _). fold running_bs in Hc. rewrite Hc in Hb.
  destruct (add_chunked_ok H0s c _ k _ _ _ adder r1 Hb Hc Hpos eq_refl) as (len & a1 & Hlen & Hgo & Hb1 & Hn & Hsp).
  { simpl. lia. }
  { done. }
  exists (if bool_decide (len < sr_extend_input_len r1) then Some (chunk_of r1 len) else None), a1, [chunk_of r1 len].
  rewrite Hc. split; [exact Hgo|]. split; [done|]. split; [done|]. split; [done|].
  intros x Hx. case_bool_decide; simplify_eq. split; [set_solver|by apply Hsp].
Qed.

(** The outcome of one round. *)
Definition round_ok (s : Scheduler Qc M P) (H0s : list nat) (batch : option (list (SReq Qc) * option (SReq Qc)))
    (s' : Scheduler Qc M P) : Prop :=
  match batch with
  | None => sc_chunked_req s = None ∧ sc_chunked_req s' = None ∧ (∃ k', mem_state (sc_mem s') k' H0s)
            ∧ sr_rid <$> sc_waiting_queue s' ≡ₚ sr_rid <$> sc_waiting_queue s
  | Some (l, chunked) => ∃ k' carried new, l = carried ++ new ∧ batch_ok s k' H0s carried new chunked s'
  end.

(** From the builder after the loop to the outcome. *)
Lemma finish_ok s H0s m k a carried new chunked queue full p :
  batch_inv H0s (chunk_budget (zlen (sc_running s))) (pc_truncation_align_size cfg) carried (pc_page_size cfg)
    (mem_available_size m) (pc_prefill_max_requests cfg) k new a →
  mem_available_size m = mem_available_size (sc_mem s) →
  sr_rid <$> carried = sr_rid <$> option_list (sc_chunked_req s) →
  (∀ r, chunked = Some r → r ∈ carried ∧ pa_new_chunked_req a = None) →
  (sr_rid <$> new) ++ (sr_rid <$> queue) ≡ₚ sr_rid <$> sc_waiting_queue s →
  let after chunked :=
    mkScheduler queue (sc_running s) full chunked (sc_new_token_ratio s) (sc_pool_available s) p (pa_mem a) in
  ∃ batch s',
    (if bool_decide (length (pa_can_run_list a) = 0%nat) then Ok (None, after chunked)
     else
       chunked ←
         match pa_new_chunked_req a, chunked with
         | Some r, None => Ok (Some r)
         | Some _, Some _ => Raise AssertionError
         | None, _ => Ok chunked
         end;
       Ok (Some (pa_can_run_list a, chunked), after chunked)) = Ok (batch, s')
    ∧ round_ok s H0s batch s'.
Proof.
  intros [Hl (Hm & _ & _) _ _ Hav _ Hfits Hck Hcnt _ Hin] Hav0 Hrid Hch Hqueue after.
  case_bool_decide as Hemp.
  { eexists None, _. split; [done|]. rewrite Hl, length_app in Hemp.
    assert (carried = [] ∧ new = []) as [-> ->] by (destruct carried, new; simpl in *; done || lia).
    destruct (sc_chunked_req s) eqn:E; [done|].
    destruct chunked as [r|]; [by destruct (Hch r eq_refl) as [?%elem_of_nil _]|].
    split_and!; [done..|by exists k|done]. }
  assert (Hok : ∀ ch, (∀ r, ch = Some r → r ∈ carried ++ new) → ∃ batch s',
    Ok (Some (pa_can_run_list a, ch), after ch) = Ok (batch, s') ∧ round_ok s H0s batch s').
  { intros ch Hmem. eexists (Some _), _. split; [done|]. exists k, carried, new. split; [done|].
    split; simpl; try done; [congruence|by rewrite Hav|].
    intros c Hc. rewrite Hc in Hck. destruct (pa_rem_chunk_tokens a); [|done]. lia. }
  destruct (pa_new_chunked_req a) as [r|] eqn:Hn; cbn [mbind res_bind].
  - destruct chunked as [r0|]; [by destruct (Hch r0 eq_refl)|]. apply Hok. intros ? ?; simplify_eq. by apply Hin.
  - apply Hok. intros r ->. apply elem_of_app. left. by apply Hch.
Qed.


End next_batch.
