(* ===== verification/PreemptProps.v ===== *)
(** * Properties of priority preemption

    [preempt_to_schedule] of PrefillAdder, over exact arithmetic: which running requests are released,
    that they free enough, that no smaller choice in the victim order would do, and that a refusal
    means that all the requests that may be preempted together would not free enough. *)

From S2P Require Import Prelude PyFloat PrefillAdder.

Section victims.
Context (ratio : Qc) (threshold sign priority : Z).
Implicit Types (r v : SReq Qc) (l : list (SReq Qc)).
Abbreviation off := (get_running_request_total_token_offset ratio).

(** The priority gap that a victim must have. *)
Definition eligible v : Prop := threshold < (priority - sr_priority v) * - sign.
#[export] Instance eligible_dec v : Decision (eligible v).
Proof. unfold eligible. apply _. Defined.

(** The selected victims: the shortest non-empty prefix of the eligible ones that frees enough, or all
    of them if there is none. *)
Record selected (missing : Qc) l (vs : list (SReq Qc)) (missing' : Qc) : Prop := {
  se_missing : missing' = (missing - qsum off vs)%Qc;
  se_eligible : Forall eligible vs;
  se_minimal : ∀ us us', vs = us ++ us' → us ≠ [] → us' ≠ [] → (qsum off us < missing)%Qc;
  se_rest : ∃ rest, l = vs ++ rest ∧ (vs = [] ∨ (0 < missing')%Qc → ∀ v rest', rest = v :: rest' → ¬ eligible v)
}.

Lemma select_victims_selected missing l vs missing' :
  select_victims ratio threshold sign priority missing l = (vs, missing') → selected missing l vs missing'.
Proof.
  revert missing vs missing'. induction l as [|r l IH]; intros missing vs missing'; cbn [select_victims].
  { intros [= <- <-]. split; try done; [unfold qsum; cbn [foldr]; ring| |by exists []].
    intros us us' H%eq_sym. by apply app_eq_nil in H as [-> ->]. }
  case_bool_decide as He; last first.
  { intros [= <- <-]. split; try done; [unfold qsum; cbn [foldr]; ring| |].
    - intros us us' H%eq_sym. by apply app_eq_nil in H as [-> ->].
    - exists (r :: l). split; [done|]. intros _ v rest' [= <- <-]. exact He. }
  cbn [fsub fofZ Qc_pynum]. destruct (fle _ _) eqn:Hle.
  { intros [<- <-]%pair_equal_spec. apply Qc_fle in Hle. rewrite Qc_ofZ_0 in Hle. split; [unfold qsum; cbn [foldr]; ring|by constructor| |].
    - intros [|u us] us' Heq ??; [done|]. by destruct us, us'; simplify_eq/=.
    - exists l. split; [done|]. intros [|Hlt]; [done|]. by apply Qcle_not_lt in Hle. }
  destruct (select_victims _ _ _ _ _ l) as [vs0 m0] eqn:Hs. intros [<- <-]%pair_equal_spec.
  destruct (IH _ _ _ Hs) as [Hm Hf Hmin (rest & -> & Hrest)]. apply Qc_fle_false in Hle. rewrite Qc_ofZ_0 in Hle.
  split; [rewrite Hm; unfold qsum; cbn [foldr]; ring|by constructor| |].
  - intros [|u us] us' Heq ??; [done|]. simplify_eq/=. destruct us as [|u' us].
    + simpl. rewrite Qcplus_0_r. by apply Qc_sub_pos.
    + apply Qc_lt_sub_l. by apply (Hmin (u' :: us) us').
  - exists rest. split; [done|]. intros [|Hlt]; [done|]. apply Hrest. by right.
Qed.

(** *** The order of victims *)

Context (Hsign : sign = 1 ∨ sign = -1).

#[local] Instance victim_le_total : Total (victim_le (F := Qc) sign).
Proof.
  intros r1 r2. unfold victim_le. destruct (Z.lt_trichotomy (sr_priority r1) (sr_priority r2)) as [|[|]]; [destruct Hsign; lia| |destruct Hsign; lia].
  destruct (flt (sr_wait_queue_entry_time r1) (sr_wait_queue_entry_time r2)) eqn:E; [right|left; by right].
  right. split; [done|]. apply Qc_flt in E. apply Qc_flt_false. by apply Qclt_le_weak.
Qed.

#[local] Instance victim_le_trans : Transitive (victim_le (F := Qc) sign).
Proof.
  intros r1 r2 r3 [H1|[H1 T1]] [H2|[H2 T2]]; unfold victim_le; try (left; nia).
  right. split; [congruence|]. apply Qc_flt_false in T1, T2. apply Qc_flt_false. by eapply Qcle_trans.
Qed.

Lemma eligible_mono r1 r2 : victim_le sign r1 r2 → eligible r2 → eligible r1.
Proof. unfold eligible. intros [?|[-> _]]; nia. Qed.

(** In a sorted list the eligible requests come first. *)
Lemma sorted_eligible_prefix rest vs :
  StronglySorted (victim_le sign) (vs ++ rest) → Forall eligible vs →
  (∀ v rest', rest = v :: rest' → ¬ eligible v) → filter eligible (vs ++ rest) = vs.
Proof.
  intros Hs Hvs Hr. rewrite filter_app, (list_filter_all _ vs) by (by apply Forall_forall).
  assert (filter eligible rest = []) as ->; [|by rewrite app_nil_r].
  destruct rest as [|v rest]; [done|]. specialize (Hr v rest eq_refl).
  apply StronglySorted_app in Hs as (_ & _ & Hs). apply StronglySorted_inv in Hs as [_ Hv].
  rewrite filter_cons_False by done. apply list_filter_none. intros w Hw He. apply Hr.
  eapply eligible_mono; [|exact He]. by rewrite Forall_forall in Hv; apply Hv.
Qed.

End victims.

(** ** Releasing the victims *)

Section release.
Context (ratio : Qc) (victims : list (SReq Qc)).
Abbreviation off := (get_running_request_total_token_offset ratio).

Definition is_victim (r : SReq Qc) : Prop := in_rids r victims = true.
#[export] Instance is_victim_dec r : Decision (is_victim r) := bool_eq_dec _ _.

Lemma release_loop_spec total i released offset reqs calls kept offset' :
  release_loop ratio victims total i released offset reqs = (calls, kept, offset') →
  (λ c, c.1.1) <$> calls = filter is_victim reqs
  ∧ kept = filter (λ r, ¬ is_victim r) reqs
  ∧ offset' = (offset - qsum off (filter is_victim reqs))%Qc
  ∧ (∀ j r x n, calls !! j = Some (r, x, n) →
       reqs !! Z.to_nat (x - i) = Some r ∧ i ≤ x ∧ n = total - (released + Z.of_nat j + 1)).
Proof.
  revert i released offset calls kept offset'.
  induction reqs as [|r reqs IH]; intros i released offset calls kept offset'; cbn [release_loop].
  { intros [= <- <- <-]. split_and!; try done. unfold qsum. simpl. ring. }
  destruct (in_rids r victims) eqn:Hr.
  - destruct (release_loop _ _ _ _ _ _ reqs) as [[cs ks] o] eqn:Hgo.
    intros [[<- <-]%pair_equal_spec <-]%pair_equal_spec.
    destruct (IH _ _ _ _ _ _ Hgo) as (Hcs & -> & -> & Hidx).
    rewrite !(filter_cons_True is_victim), filter_cons_False by (unfold is_victim; congruence).
    split_and!; [by rewrite fmap_cons, Hcs|done|unfold qsum; cbn [foldr fsub Qc_pynum]; ring|].
    intros [|j] r' x n Hj; simplify_eq/=; [rewrite Z.sub_diag; split_and!; [done|lia..]|].
    destruct (Hidx j r' x n Hj) as (Hl & Hx & ->). split_and!; [|lia..].
    by replace (Z.to_nat (x - i)) with (S (Z.to_nat (x - (i + 1)))) by lia.
  - destruct (release_loop _ _ _ _ _ _ reqs) as [[cs ks] o] eqn:Hgo.
    intros [[<- <-]%pair_equal_spec <-]%pair_equal_spec.
    destruct (IH _ _ _ _ _ _ Hgo) as (Hcs & -> & -> & Hidx).
    rewrite !(filter_cons_False is_victim), filter_cons_True by (unfold is_victim; congruence).
    split_and!; try done. intros j r' x n Hj. destruct (Hidx j r' x n Hj) as (Hl & Hx & ->). split_and!; [|lia..].
    by replace (Z.to_nat (x - i)) with (S (Z.to_nat (x - (i + 1)))) by lia.
Qed.

(** With distinct request ids the requests released are the victims. *)
Lemma released_victims reqs :
  NoDup (sr_rid <$> reqs) → NoDup victims → (∀ v, v ∈ victims → v ∈ reqs) → filter is_victim reqs ≡ₚ victims.
Proof.
  intros Hnd Hv Hin. apply NoDup_Permutation; [by apply NoDup_filter, (NoDup_fmap_1 sr_rid)|done|].
  intros x. rewrite list_elem_of_filter. unfold is_victim, in_rids. rewrite bool_decide_eq_true. split.
  - intros [(v & Hrid & Hvin)%list_elem_of_fmap Hx]. pose proof (Hin v Hvin) as Hv'.
    apply list_elem_of_lookup in Hx as [i Hi], Hv' as [j Hj].
    assert (i = j) as ->; [|by simplify_eq].
    eapply NoDup_lookup; [exact Hnd|by rewrite list_lookup_fmap, Hi|]. by rewrite list_lookup_fmap, Hj, Hrid.
  - intros Hx. split; [|by apply Hin]. apply list_elem_of_fmap. by exists x.
Qed.

End release.

(** ** [preempt_to_schedule] *)

Section preempt.
Context {M : Type} `{PrefixMemory M}.
Implicit Types (a : PrefillAdder Qc M) (r v : SReq Qc).

(** The requests that may be preempted for [r]: running, not finished, not preempted already, and of
    sufficiently lower priority. *)
Definition may_preempt a (sign : Z) r v : Prop :=
  (in_rids v (pa_preempt_list a) = false ∧ sr_finished v = false)
  ∧ eligible (pa_threshold a) sign (sr_priority r) v.
#[local] Instance may_preempt_dec a sign r v : Decision (may_preempt a sign r v).
Proof. unfold may_preempt, eligible. apply _. Defined.

Definition freed a (l : list (SReq Qc)) : Qc := qsum (get_running_request_total_token_offset (pa_new_token_ratio a)) l.

Record preempted a (sign : Z) r (victims : list (SReq Qc)) (calls : list (SReq Qc * Z * Z)) a' : Prop := {
  pe_may : ∀ v, v ∈ victims → v ∈ default [] (pa_running a) ∧ may_preempt a sign r v;
  pe_order : ∀ v w, v ∈ victims → w ∈ default [] (pa_running a) → may_preempt a sign r w → w ∉ victims →
    victim_le sign v w;
  pe_minimal : ∀ us us', victims = us ++ us' → us ≠ [] → us' ≠ [] →
    (rem_total_tokens a + freed a us < Qc_ofZ (sr_extend_input_len r + clipped_max_new r))%Qc;
  pe_enough : (Qc_ofZ (sr_extend_input_len r + clipped_max_new r) <= rem_total_tokens a')%Qc;
  pe_released : (λ c, c.1.1) <$> calls ≡ₚ victims;
  pe_calls : ∀ j v x n, calls !! j = Some (v, x, n) →
    default [] (pa_running a) !! Z.to_nat x = Some v
    ∧ n = zlen (default [] (pa_running a)) - (Z.of_nat j + 1);
  pe_running : ∃ kept, pa_running a' = Some kept ∧ kept `sublist_of` default [] (pa_running a)
    ∧ kept ++ victims ≡ₚ default [] (pa_running a);
  pe_list : pa_preempt_list a' = pa_preempt_list a ++ victims
}.

Lemma filter_split {A} (Q : A → Prop) `{!∀ x, Decision (Q x)} (l : list A) :
  filter (λ x, ¬ Q x) l ++ filter Q l ≡ₚ l.
Proof.
  induction l as [|x l IH]; [done|]. destruct (decide (Q x)).
  - rewrite (filter_cons_True Q), filter_cons_False by tauto. rewrite <- Permutation_middle. by constructor.
  - rewrite (filter_cons_False Q), filter_cons_True by tauto. simpl. by constructor.
Qed.

Definition valid_running a : list (SReq Qc) :=
  filter (λ x, in_rids x (pa_preempt_list a) = false ∧ sr_finished x = false) (default [] (pa_running a)).

(** The selection from the sorted running requests. *)
Lemma select_sorted a (sign : Z) r missing victims missing' :
  sign = 1 ∨ sign = -1 →
  select_victims (pa_new_token_ratio a) (pa_threshold a) sign (sr_priority r) missing
    (py_sort (victim_le sign) (valid_running a)) = (victims, missing') →
  missing' = (missing - freed a victims)%Qc
  ∧ (∀ us us', victims = us ++ us' → us ≠ [] → us' ≠ [] → (freed a us < missing)%Qc)
  ∧ Forall (eligible (pa_threshold a) sign (sr_priority r)) victims
  ∧ (∃ rest, victims ++ rest ≡ₚ valid_running a ∧ ∀ v w, v ∈ victims → w ∈ rest → victim_le sign v w)
  ∧ (victims = [] ∨ (0 < missing')%Qc → victims ≡ₚ filter (may_preempt a sign r) (default [] (pa_running a))).
Proof.
  intros Hsign Hsel. apply select_victims_selected in Hsel as [Hm Hel Hmin (rest & Hrest & Hstop)].
  pose proof (py_sort_Permutation (victim_le sign) (valid_running a)) as Hperm.
  assert (Hs : StronglySorted (victim_le sign) (victims ++ rest)).
  { rewrite <- Hrest. apply py_sort_sorted; [by apply victim_le_total|by apply victim_le_trans]. }
  rewrite Hrest in Hperm. split_and!; try done.
  { exists rest. split; [done|]. intros v w. by apply StronglySorted_app_1_elem_of. }
  intros Hend. rewrite <- (sorted_eligible_prefix (pa_threshold a) sign (sr_priority r) rest victims Hs Hel (Hstop Hend)).
  rewrite Hperm. unfold valid_running. rewrite list_filter_filter.
  apply Permutation_refl', filter_ext_list. intros v _. unfold may_preempt. tauto.
Qed.

(** Releasing the selected victims. *)
Lemma preempted_intro a (sign : Z) r victims calls kept offset rest :
  NoDup (sr_rid <$> default [] (pa_running a)) → victims ++ rest ≡ₚ valid_running a →
  (∀ v w, v ∈ victims → w ∈ rest → victim_le sign v w) →
  Forall (eligible (pa_threshold a) sign (sr_priority r)) victims →
  (∀ us us', victims = us ++ us' → us ≠ [] → us' ≠ [] →
     (freed a us < Qc_ofZ (sr_extend_input_len r + clipped_max_new r) - rem_total_tokens a)%Qc) →
  (Qc_ofZ (sr_extend_input_len r + clipped_max_new r) - rem_total_tokens a - freed a victims <= 0)%Qc →
  release_loop (pa_new_token_ratio a) victims (zlen (default [] (pa_running a))) 0 0 (pa_rem_total_token_offset a)
    (default [] (pa_running a)) = (calls, kept, offset) →
  preempted a sign r victims calls (pa_preempted kept victims offset a).
Proof.
  set (reqs := default [] (pa_running a)). intros Hnd Hperm Hord Hel Hmin Hle Hgo.
  destruct (release_loop_spec _ _ _ _ _ _ _ _ _ _ Hgo) as (Hcalls & -> & -> & Hidx).
  assert (Hvalid : ∀ v, v ∈ victims ++ rest ↔ v ∈ reqs ∧ in_rids v (pa_preempt_list a) = false ∧ sr_finished v = false).
  { intros v. rewrite Hperm. unfold valid_running. rewrite list_elem_of_filter. tauto. }
  assert (Hrel : filter (is_victim victims) reqs ≡ₚ victims).
  { apply released_victims; [done| |intros v Hv; apply Hvalid; set_solver].
    assert (Hn : NoDup (victims ++ rest)) by (rewrite Hperm; by apply NoDup_filter, (NoDup_fmap_1 sr_rid)).
    by apply NoDup_app in Hn as (? & _). }
  split; try done.
  - intros v Hv. rewrite Forall_forall in Hel. destruct (proj1 (Hvalid v)); [set_solver|].
    split; [done|]. split; [done|by apply Hel].
  - intros v w Hv Hw [Hw' _] Hnot. apply Hord; [done|].
    assert (Hin : w ∈ victims ++ rest) by (by apply Hvalid). set_solver.
  - intros us us' He Hn Hn'. apply Qc_lt_sub_l. by apply (Hmin us us').
  - unfold rem_total_tokens in *. cbn [pa_preempted pa_mem pa_rem_total_token_offset fsub fofZ Qc_pynum] in *.
    rewrite (qsum_Permutation _ _ _ Hrel). apply Qc_sub_le_0. eapply Qcle_trans; [|exact Hle]. unfold freed.
    replace (_ - _)%Qc with (Qc_ofZ (sr_extend_input_len r + clipped_max_new r) -
      (Qc_ofZ (mem_available_size (pa_mem a) + mem_evictable_size (pa_mem a)) - pa_rem_total_token_offset a) -
      qsum (get_running_request_total_token_offset (pa_new_token_ratio a)) victims)%Qc by ring. apply Qcle_refl.
  - by rewrite Hcalls.
  - intros j v x n Hj. destruct (Hidx j v x n Hj) as (Hl & _ & ->). rewrite Z.sub_0_r in Hl. split; [done|unfold reqs; lia].
  - eexists. split; [done|]. split; [apply sublist_filter|]. etrans; [|apply (filter_split (is_victim victims))]. by apply Permutation_app_head.
Qed.

(** C32: Priority preemption for a request [r].  When it returns True, the released requests are running,
    unfinished, not preempted before and of lower priority by more than the threshold; nobody who could
    have been chosen comes before them in the victim order (lowest priority first, latest arrival
    first); without the last of them too little would have been freed; and afterwards the token budget
    covers the input and the clipped output of [r], even before the released slots are counted.  Each is
    released once, at its index and with the number of requests that remain; the others keep running
    in order.  When it returns False, nothing has changed, and there is no request that may be
    preempted or all of them together would not free enough. *)
Theorem preempt_spec a r low (Hnd : NoDup (sr_rid <$> default [] (pa_running a))) :
  let sign := if low : bool then 1 else -1 in
  let '(ok, calls, a') := preempt_to_schedule a r low in
  if ok : bool then ∃ victims, victims ≠ [] ∧ preempted a sign r victims calls a'
  else
    calls = [] ∧ a' = a
    ∧ let candidates := filter (may_preempt a sign r) (default [] (pa_running a)) in
      candidates = []
      ∨ (rem_total_tokens a + freed a candidates < Qc_ofZ (sr_extend_input_len r + clipped_max_new r))%Qc.
Proof.
  intros sign. unfold preempt_to_schedule. fold sign. set (reqs := default [] (pa_running a)) in *.
  assert (Hsign : sign = 1 ∨ sign = -1) by (destruct low; auto).
  set (needed := fsub _ _). destruct (select_victims _ _ _ _ _ _) as [victims missing] eqn:Hsel.
  apply (select_sorted a sign r) in Hsel as (Hm & Hmin & Hel & (rest & Hperm & Hord) & Hall); [|done].
  destruct (bool_decide _ || _) eqn:Hno.
  - split; [done|]. split; [done|]. cbv zeta.
    apply orb_prop in Hno as [Hno%bool_decide_eq_true|Hno%Qc_flt].
    + left. apply nil_length_inv in Hno as ->. symmetry. by apply Permutation_nil_l, Hall; left.
    + right. cbn [fofZ Qc_pynum] in Hno. rewrite Qc_ofZ_0 in Hno. apply Qc_lt_sub_l. pose proof Hno as Hpos. rewrite Hm in Hno. apply Qc_sub_pos in Hno.
      unfold freed at 1. rewrite <- (qsum_Permutation _ _ _ (Hall (or_intror Hpos))). exact Hno.
  - apply orb_false_iff in Hno as [Hne%bool_decide_eq_false Hle%Qc_flt_false].
    destruct (release_loop _ _ _ _ _ _ _) as [[calls kept] offset] eqn:Hgo.
    exists victims. split; [by intros ->|]. cbn [fofZ Qc_pynum] in Hle. rewrite Qc_ofZ_0, Hm in Hle. by eapply preempted_intro.
Qed.

End preempt.
