(* ===== verification/RadixMemory.v ===== *)
(** * The radix cache as the memory of the batch builder

    The radix cache with the allocator behind it implements [PrefixMemory], and its locks and matches
    obey the laws the builder relies on.  Hence the theorems of PrefillProps hold for the radix
    cache. *)

From S2P Require Import Prelude Allocator RadixKey PageHash RadixTree RadixInv.
From S2P Require Import RadixAcct RadixMatch RadixLock RadixProps RadixGrow PrefillAdder.

Lemma lookup_key_len c key : 1 ≤ rc_page_size c → RadixKey_len (lookup_key c key) ≤ zlen (token_ids key).
Proof.
  intros Hps. unfold lookup_key. rewrite page_aligned_len by done. set (k := (maybe_to_bigram_view _ _ _).1).
  assert (RadixKey_len k ≤ zlen (token_ids key)).
  { unfold k, maybe_to_bigram_view. pose proof (zlen_nonneg (token_ids key)).
    destruct (_ && _); unfold RadixKey_len; simpl; [|destruct (is_bigram key)]; repeat case_bool_decide; lia. }
  pose proof (RadixKey_len_nonneg k). pose proof (Z.mul_div_le (RadixKey_len k) (rc_page_size c) ltac:(lia)). lia.
Qed.

(** ** The instance *)

Record RadixMemory := mkRadixMemory {
  rm_cache : RadixCache;
  rm_allocator : Allocator
}.

(** What the laws keep of a cache: its tree, without locks, counters and access times. *)
Record TreeContent := mkTreeContent {
  ct_ghost : ghost;
  ct_root : nat;
  ct_shape : gmap nat (gmap ckey nat * option nat * RadixKey * option (list Z))
}.

Definition content_of (c : RadixCache) (g : ghost) : TreeContent :=
  mkTreeContent g (rc_root c) (shape <$> rc_nodes c).

(** The root is always protected: locking it does nothing. *)
Definition real_locks (root : nat) (H : list nat) : list nat := filter (λ n, n ≠ root) H.

Lemma inv_perm c g H H' : H ≡ₚ H' → inv c g H → inv c g H'.
Proof.
  intros HH [T A [Lh Lr Ln]]. split; [done..|]. split; [intros h Hh; apply Lh; by rewrite HH|done|].
  intros n Hn Hr. rewrite Ln by done. by apply held_below_perm.
Qed.

Section instance.
Context (monotonic : nat → Z).

#[export] Instance radix_memory : PrefixMemory RadixMemory := {
  mem_available_size m := available_size (rm_allocator m);
  mem_evictable_size m := rc_evictable_size (rm_cache m);
  mem_disable m := rc_disable (rm_cache m);
  mem_match_prefix m tokens extra :=
    '(vs, n, c) ← match_prefix monotonic (rm_cache m) (mkRadixKey tokens extra false);
    Ok (mkMatchResult vs n n 0 None, mkRadixMemory c (rm_allocator m));
  mem_inc_lock_ref m n := '(_, c) ← inc_lock_ref (rm_cache m) n; Ok (mkRadixMemory c (rm_allocator m));
  mem_dec_lock_ref m n := '(_, c) ← dec_lock_ref (rm_cache m) n; Ok (mkRadixMemory c (rm_allocator m));
  init_load_back m n l := Raise NotImplementedError
}.

Record radix_state (m : RadixMemory) (k : TreeContent) (H : list nat) : Prop := {
  rs_inv : inv (rm_cache m) (ct_ghost k) (real_locks (ct_root k) H);
  rs_root : rc_root (rm_cache m) = ct_root k;
  rs_shape : shape <$> rc_nodes (rm_cache m) = ct_shape k;
  rs_enabled : rc_disable (rm_cache m) = false
}.

(** A cache without locks. *)
Lemma radix_state_intro c a : cache_ok (c, []) → ∃ g, radix_state (mkRadixMemory c a) (content_of c g) [].
Proof. intros ((g & Hi) & Hd & _). exists g. by split. Qed.

(** Same configuration and shape: the state only differs in its locks. *)
Lemma radix_state_locks m k H c' H' :
  radix_state m k H → config c' = config (rm_cache m) → shape <$> rc_nodes c' = shape <$> rc_nodes (rm_cache m) →
  inv c' (ct_ghost k) (real_locks (ct_root k) H') → radix_state (mkRadixMemory c' (rm_allocator m)) k H'.
Proof. intros [Hi Hr Hs Hd] Hcfg Hsh Hi'. inversion Hcfg. split; simpl; try done; congruence. Qed.

Lemma radix_inc_lock m k H n :
  radix_state m k H → n ∈ gL (ct_ghost k) →
  ∃ m', mem_inc_lock_ref m n = Ok m' ∧ radix_state m' k (n :: H)
    ∧ mem_available_size m' = mem_available_size m ∧ mem_disable m' = mem_disable m.
Proof.
  intros Hs Hn. pose proof Hs as [Hi Hr Hsh Hd]. simpl. destruct (decide (n = ct_root k)) as [->|Hne].
  - rewrite <- Hr, (proj1 (lock_ref_root _ Hd)). cbn [mbind res_bind]. eexists. split; [done|]. split; [|done].
    apply (radix_state_locks m k H); try done. unfold real_locks. by rewrite filter_cons_False by (rewrite Hr; tauto).
  - destruct (inc_lock_ref_ok _ _ _ n Hi Hn) as (d & c' & Hgo & Hi' & Hcfg & _ & Hshape); [congruence|done|].
    rewrite Hgo. cbn [mbind res_bind]. eexists. split; [done|].
    split; [|split; [done|]; by inversion Hcfg].
    apply (radix_state_locks m k H); try done. unfold real_locks. by rewrite filter_cons_True.
Qed.

Lemma radix_dec_lock m k H H' n :
  radix_state m k H → H ≡ₚ n :: H' →
  ∃ m', mem_dec_lock_ref m n = Ok m' ∧ radix_state m' k H'
    ∧ mem_available_size m' = mem_available_size m ∧ mem_disable m' = mem_disable m.
Proof.
  intros Hs HH. pose proof Hs as [Hi Hr Hsh Hd]. simpl.
  assert (Hreal : real_locks (ct_root k) H ≡ₚ real_locks (ct_root k) (n :: H')) by (unfold real_locks; by rewrite HH).
  unfold real_locks at 2 in Hreal. destruct (decide (n = ct_root k)) as [->|Hne].
  - rewrite <- Hr, (proj2 (lock_ref_root _ Hd)). cbn [mbind res_bind]. eexists. split; [done|]. split; [|done].
    rewrite filter_cons_False in Hreal by tauto.
    apply (radix_state_locks m k H); try done. by apply (inv_perm _ _ _ _ Hreal).
  - rewrite filter_cons_True in Hreal by done.
    destruct (dec_lock_ref_ok _ _ _ _ n Hi Hreal Hd) as (d & c' & Hgo & Hi' & Hcfg & _ & Hshape).
    rewrite Hgo. cbn [mbind res_bind]. eexists. split; [done|].
    split; [|split; [done|]; by inversion Hcfg]. by apply (radix_state_locks m k H).
Qed.

Lemma radix_match m k H tokens extra :
  radix_state m k H →
  ∃ mr m' k', mem_match_prefix m tokens extra = Ok (mr, m') ∧ radix_state m' k' H
    ∧ last_device_node mr ∈ gL (ct_ghost k') ∧ zlen (device_indices mr) ≤ zlen tokens ∧ host_hit_length mr = 0
    ∧ mem_available_size m' = mem_available_size m ∧ mem_evictable_size m' = mem_evictable_size m
    ∧ mem_disable m' = mem_disable m ∧ ∀ n, n ∈ gL (ct_ghost k) → n ∈ gL (ct_ghost k').
Proof.
  intros [Hi Hr Hsh Hd]. simpl. set (key := mkRadixKey tokens extra false).
  destruct (match_prefix_ok monotonic _ _ _ key Hi) as (vs & n & c' & g' & Hgo & Hi' & R & Hcfg & Hn & -> & Hp & _); [done..|].
  rewrite Hgo. cbn [mbind res_bind]. eexists _, _, (content_of c' g'). split; [done|].
  assert (Hroot : rc_root c' = ct_root k) by (inversion Hcfg; congruence).
  split; [|split; [done|]; split; [|split; [done|]; split; [done|]; split; [|split; [by inversion Hcfg|apply (rf_live R)]]]].
  - split; simpl; try done; [by rewrite Hroot|]. inversion Hcfg; congruence.
  - simpl. rewrite (P_V_length _ _ _ _ (iv_tree Hi')) by done. pose proof (lookup_key_len (rm_cache m) key (tr_ps (iv_tree Hi))).
    apply prefix_length in Hp. rewrite <- zlen_qunits in *. unfold zlen in *. simpl in *. lia.
  - by apply match_prefix_sizes in Hgo as [? _].
Qed.

#[export] Instance radix_memory_laws : PrefixMemoryLaws RadixMemory.
Proof.
  refine {| content := TreeContent; lockable k n := n ∈ gL (ct_ghost k); mem_state := radix_state |}.
  - intros. by apply radix_inc_lock.
  - intros. by eapply radix_dec_lock.
  - intros. by eapply radix_match.
  - intros m m' k H H' [Hi Hr Hs _] [Hi' Hr' Hs' _] HH.
    destruct (inv_sizes _ _ _ _ _ Hi Hi') as (He & _); [unfold real_locks; by rewrite HH|congruence..|]. done.
Defined.

End instance.
