(* ===== verification/SchedulePolicy.v ===== *)
(** * The order of the waiting queue

    Models [SchedulePolicy] of [src/python/sglang/srt/managers/schedule_policy.py]: the choice of the
    policy, the prefix matches of the queue with in-batch prefix caching, and the sort of every policy,
    on the radix cache.

    Two things are parameters: [shuffle], Python's [random.shuffle] as the permutation it applies at its
    n-th call, and [children_order], the order in which the dict of a node lists its children.

    The theorems are in PolicyProps. *)

From S2P Require Import Prelude PyFloat Allocator RadixKey RadixTree RadixMemory PrefillAdder PrefillBatch.

Inductive CacheAwarePolicy := LPM | DFS_WEIGHT.
Inductive CacheAgnosticPolicy := FCFS | LOF | RANDOM | ROUTING_KEY.
Inductive Policy := CacheAware (p : CacheAwarePolicy) | CacheAgnostic (p : CacheAgnosticPolicy).

#[export] Instance Policy_eq_dec : EqDecision Policy.
Proof. unfold EqDecision. intros p q. unfold Decision. decide equality; decide equality. Defined.

Definition IN_BATCH_PREFIX_CACHING_CHECK_THRESHOLD : Z := 32.
Definition IN_BATCH_PREFIX_CACHING_DEPRIORITIZE_THRESHOLD : Z := 32.

Record SchedulePolicy := mkSchedulePolicy {
  sp_policy : Policy;
  sp_enable_priority_scheduling : bool;
  sp_priority_sign : Z;
  sp_waiting_queue_radix_tree : RadixCache;
  sp_shuffles : nat                       (* calls of random.shuffle so far *)
}.

Definition sp_with (tree : RadixCache) (shuffles : nat) (p : SchedulePolicy) : SchedulePolicy :=
  mkSchedulePolicy (sp_policy p) (sp_enable_priority_scheduling p) (sp_priority_sign p) tree shuffles.

(** ** Sorting by a key *)

Definition py_le {A K} (ltb : K → K → bool) (key : A → K) (x y : A) : Prop := ltb (key y) (key x) = false.
#[export] Instance py_le_dec {A K} (ltb : K → K → bool) (key : A → K) : RelDecision (py_le ltb key) :=
  λ x y, bool_eq_dec _ _.

Definition sort_by {A K} (ltb : K → K → bool) (key : A → K) (l : list A) : list A := py_sort (py_le ltb key) l.

(** The comparison of tuples. *)
Definition pair_ltb {K1 K2} (eqb1 ltb1 : K1 → K1 → bool) (ltb2 : K2 → K2 → bool) (x y : K1 * K2) : bool :=
  if eqb1 x.1 y.1 then ltb2 x.2 y.2 else ltb1 x.1 y.1.

(** [float("inf")] is [None]. *)
Definition inf_ltb (x y : option Z) : bool :=
  match x, y with
  | Some a, Some b => a <? b
  | Some _, None => true
  | None, _ => false
  end.

(** A loop whose body can raise. *)
Fixpoint for_each {A B} (body : B → A → res B) (b : B) (l : list A) : res B :=
  match l with
  | [] => Ok b
  | x :: l => b ← body b x; for_each body b l
  end.

Section policy.
Context {F : Type} `{PyNum F}.
Context (monotonic : nat → Z) (shuffle : nat → list (SReq F) → list (SReq F)) (children_order : RadixCache → nat → list nat).
Abbreviation Req := (SReq F).

(** ** The sorts *)

Definition sort_by_priority_and_fcfs (sign : Z) (q : list Req) : list Req :=
  sort_by (pair_ltb Z.eqb Z.ltb flt) (λ r, (sr_priority r * sign, sr_wait_queue_entry_time r)) q.

Definition sort_by_longest_output (enable_priority : bool) (sign : Z) (q : list Req) : list Req :=
  if enable_priority then sort_by (pair_ltb Z.eqb Z.ltb Z.ltb) (λ r, (sr_priority r * sign, - sr_max_new_tokens r)) q
  else sort_by Z.ltb (λ r, - sr_max_new_tokens r) q.

Definition sort_by_longest_prefix (deprioritized : gset string) (q : list Req) : list Req :=
  sort_by inf_ltb
    (λ r, if decide (sr_rid r ∈ deprioritized) then None else Some (- zlen (sr_prefix_indices r))) q.

(** [key and ...]: neither [None] nor empty. *)
Definition routing_key (r : Req) : option string :=
  match sr_routing_key r with
  | Some k => if bool_decide (k = ""%string) then None else Some k
  | None => None
  end.

Definition routing_key_counts (running : list Req) : gmap string Z :=
  foldl (λ m r, match routing_key r with Some k => <[k := default 0 (m !! k) + 1]> m | None => m end) ∅ running.

Definition routing_sort_key (counts : gmap string Z) (r : Req) : Z * (Z * string) :=
  match routing_key r with
  | Some k =>
      match counts !! k with
      | Some n => (0, (- n, k))
      | None => (1, (0, k))
      end
  | None => (1, (0, ""%string))
  end.

Definition sort_by_routing_key (running q : list Req) : list Req :=
  let counts := routing_key_counts running in
  if decide (counts = ∅) then q
  else sort_by (pair_ltb Z.eqb Z.ltb (pair_ltb Z.eqb Z.ltb String.ltb)) (routing_sort_key counts) q.

(** ** Depth-first order of the tree *)

(** [_calc_weight]: a missing entry counts 0, as in a defaultdict. *)
Fixpoint calc_weight (fuel : nat) (c : RadixCache) (cur_node : nat) (weight : gmap nat Z) : res (gmap nat Z) :=
  match fuel with
  | O => Raise LoopBound
  | S fuel' =>
      _ ← get_node c cur_node;
      for_each (λ w child,
          w ← calc_weight fuel' c child w;
          Ok (<[cur_node := default 0 (w !! cur_node) + default 0 (w !! child)]> w))
        weight (children_order c cur_node)
  end.

Fixpoint get_dfs_priority (fuel : nat) (c : RadixCache) (cur_node : nat) (priority : gmap nat Z)
    (last_node_to_reqs : gmap nat (list Req)) (q : list Req) : res (list Req) :=
  match fuel with
  | O => Raise LoopBound
  | S fuel' =>
      _ ← get_node c cur_node;
      let children := sort_by Z.ltb (λ x, - default 0 (priority !! x)) (children_order c cur_node) in
      q ← for_each (λ q child, get_dfs_priority fuel' c child priority last_node_to_reqs q) q children;
      Ok (q ++ default [] (last_node_to_reqs !! cur_node))
  end.

(** [last_node_to_reqs[req.last_node].append(req)] for every request. *)
Definition group_by_last_node (q : list Req) : gmap nat (list Req) :=
  foldl (λ m r, <[sr_last_node r := default [] (m !! sr_last_node r) ++ [r]]> m) ∅ q.

(** A path has at most as many nodes as were ever created. *)
Definition sort_by_dfs_weight (c : RadixCache) (q : list Req) : res (list Req) :=
  let last_node_to_reqs := group_by_last_node q in
  let node_to_weight := (λ l : list Req, zlen l) <$> last_node_to_reqs in
  weight ← calc_weight (S (rc_counter c)) c (rc_root c) node_to_weight;
  get_dfs_priority (S (rc_counter c)) c (rc_root c) weight last_node_to_reqs [].

(** ** Prefix matches *)

(** One request of [_compute_prefix_matches]: its match in the cache, and, if that is short, its match
    among the earlier requests of the queue, kept in the simulated tree. *)
Definition match_waiting (m : RadixMemory) (tree : RadixCache) (deprioritized : gset string) (r : Req)
    : res (Req * RadixMemory * RadixCache * gset string) :=
  let prefix_ids := sr_origin_input_ids r ++ sr_output_ids r in
  '(_, r, m) ← match_prefix_for_req (H := radix_memory monotonic) m r (Some prefix_ids);
  if bool_decide (zlen (sr_prefix_indices r) ≤ IN_BATCH_PREFIX_CACHING_CHECK_THRESHOLD) then
    let key := mkRadixKey prefix_ids (sr_extra_key r) false in
    '(in_batch_matching_prefixes, _, tree) ← match_prefix monotonic tree key;
    if bool_decide (IN_BATCH_PREFIX_CACHING_DEPRIORITIZE_THRESHOLD ≤ zlen in_batch_matching_prefixes) then
      Ok (r, m, tree, deprioritized ∪ {[sr_rid r]})
    else
      '(_, tree) ← insert monotonic tree key (Some (replicate (length prefix_ids) 0)) None false;
      Ok (r, m, tree, deprioritized)
  else Ok (r, m, tree, deprioritized).

Fixpoint match_queue (m : RadixMemory) (tree : RadixCache) (deprioritized : gset string) (q : list Req)
    : res (list Req * RadixMemory * RadixCache * gset string) :=
  match q with
  | [] => Ok ([], m, tree, deprioritized)
  | r :: q =>
      '(r, m, tree, deprioritized) ← match_waiting m tree deprioritized r;
      '(q, m, tree, deprioritized) ← match_queue m tree deprioritized q;
      Ok (r :: q, m, tree, deprioritized)
  end.

Definition compute_prefix_matches (m : RadixMemory) (tree : RadixCache) (q : list Req)
    : res (list Req * RadixMemory * RadixCache * gset string) :=
  match_queue m (reset monotonic tree) ∅ q.

(** ** The policy *)

(** [CacheAwarePolicy(policy)], [CacheAgnosticPolicy(policy)]. *)
Definition CacheAwarePolicy_of (policy : string) : res CacheAwarePolicy :=
  if bool_decide (policy = "lpm"%string) then Ok LPM
  else if bool_decide (policy = "dfs-weight"%string) then Ok DFS_WEIGHT
  else Raise ValueError.

Definition CacheAgnosticPolicy_of (policy : string) : res CacheAgnosticPolicy :=
  if bool_decide (policy = "fcfs"%string) then Ok FCFS
  else if bool_decide (policy = "lof"%string) then Ok LOF
  else if bool_decide (policy = "random"%string) then Ok RANDOM
  else if bool_decide (policy = "routing-key"%string) then Ok ROUTING_KEY
  else Raise ValueError.

Definition validate_and_adjust_policy (policy : string) (disable : bool) : res Policy :=
  match CacheAwarePolicy_of policy with
  | Ok p => Ok (if disable then CacheAgnostic FCFS else CacheAware p)
  | Raise _ =>
      match CacheAgnosticPolicy_of policy with
      | Ok p => Ok (CacheAgnostic p)
      | Raise _ => Raise ValueError
      end
  end.

(** [RadixCache.create_simulated()]. *)
Definition create_simulated : res RadixCache := RadixCache_init monotonic false 1 false false false "lru".

Definition SchedulePolicy_init (policy : string) (m : RadixMemory) (enable_priority_scheduling low_values_first : bool)
    : res SchedulePolicy :=
  p ← validate_and_adjust_policy policy (rc_disable (rm_cache m));
  tree ← create_simulated;
  Ok (mkSchedulePolicy p enable_priority_scheduling (if low_values_first then 1 else -1) tree 0).

Definition determine_active_policy (p : SchedulePolicy) (q : list Req) : Policy :=
  if bool_decide (sp_policy p = CacheAware LPM) && bool_decide (128 < zlen q) then CacheAgnostic FCFS
  else sp_policy p.

(** [calc_priority]: whether the prefixes were computed, the queue, the policy object, the cache.  The
    queue is sorted in place. *)
Definition SchedulePolicy_calc_priority (p : SchedulePolicy) (m : RadixMemory) (q : list Req)
    (running : option (list Req)) : res (bool * list Req * SchedulePolicy * RadixMemory) :=
  if bool_decide (sp_policy p = CacheAgnostic FCFS) then
    Ok (false, if sp_enable_priority_scheduling p then sort_by_priority_and_fcfs (sp_priority_sign p) q else q, p, m)
  else
    match determine_active_policy p q with
    | CacheAware policy =>
        '(q, m, tree, deprioritized) ← compute_prefix_matches m (sp_waiting_queue_radix_tree p) q;
        let p := sp_with tree (sp_shuffles p) p in
        match policy with
        | LPM => Ok (true, sort_by_longest_prefix deprioritized q, p, m)
        | DFS_WEIGHT =>
            q ← sort_by_dfs_weight (rm_cache m) q;
            Ok (true, q, p, m)
        end
    | CacheAgnostic FCFS => Ok (false, q, p, m)
    | CacheAgnostic LOF =>
        Ok (false, sort_by_longest_output (sp_enable_priority_scheduling p) (sp_priority_sign p) q, p, m)
    | CacheAgnostic RANDOM =>
        Ok (false, shuffle (sp_shuffles p) q, sp_with (sp_waiting_queue_radix_tree p) (S (sp_shuffles p)) p, m)
    | CacheAgnostic ROUTING_KEY =>
        Ok (false, match running with Some running => sort_by_routing_key running q | None => q end, p, m)
    end.

#[export] Instance schedule_policy : QueuePolicy F RadixMemory SchedulePolicy := {
  calc_priority p m q running :=
    '(_, q, p, m) ← SchedulePolicy_calc_priority p m q (Some running);
    Ok (q, p, m)
}.

End policy.
