(* ===== verification/PolicyProps.v ===== *)
(** * Properties of the scheduling policies

    Every policy returns a permutation of the waiting queue and never raises, so the policies of
    SchedulePolicy obey the interface of PrefillBatch; the depth-first order visits every node of the
    tree once, with weights that count the requests below it; in-batch prefix caching holds back
    exactly the requests that share a long prefix with an earlier one. *)

From S2P Require Import Prelude PyFloat Allocator RadixKey RadixTree RadixInv RadixAcct.
From S2P Require Import RadixMatch RadixProps RadixMemory PrefillAdder PrefillBatch SchedulePolicy.

(** ** Generic lemmas *)

Lemma concat_fmap_Permutation {A B} (f : A → list B) (l k : list A) : l ≡ₚ k → concat (f <$> l) ≡ₚ concat (f <$> k).
Proof.
  induction 1 as [|x l k _ IH|x y l|l k m _ IH1 _ IH2]; simpl; [done|by rewrite IH| |by etrans].
  rewrite !app_assoc. by rewrite (Permutation_app_comm (f y)).
Qed.

Lemma concat_fmap_pointwise {A B} (f g : A → list B) (l : list A) :
  Forall (λ x, f x ≡ₚ g x) l → concat (f <$> l) ≡ₚ concat (g <$> l).
Proof. induction 1 as [|x l Hx _ IH]; simpl; [done|]. by rewrite Hx, IH. Qed.

Lemma elem_of_concat_fmap {A B} (f : A → list B) (l : list A) y : y ∈ concat (f <$> l) ↔ ∃ x, x ∈ l ∧ y ∈ f x.
Proof.
  rewrite list_elem_of_In, in_concat. split.
  - intros (s & Hs & Hy). apply list_elem_of_In in Hs. apply list_elem_of_fmap in Hs as (x & -> & Hx).
    exists x. split; [done|by apply list_elem_of_In].
  - intros (x & Hx & Hy). exists (f x). rewrite <- !list_elem_of_In. split; [|done]. by apply list_elem_of_fmap_2.
Qed.

Lemma NoDup_concat_fmap {A B} (f : A → list B) (l : list A) :
  NoDup l → (∀ x, x ∈ l → NoDup (f x)) → (∀ x x' y, x ∈ l → x' ∈ l → y ∈ f x → y ∈ f x' → x = x') →
  NoDup (concat (f <$> l)).
Proof.
  induction 1 as [|x l Hx Hl IH]; intros Hn Hd; simpl; [constructor|]. apply NoDup_app. split_and!.
  - apply Hn. set_solver.
  - intros y Hy (x' & Hx' & Hy')%elem_of_concat_fmap. assert (x = x') as ->; [|done].
    apply (Hd x x' y); set_solver.
  - apply IH; [intros; apply Hn; set_solver|intros; eapply Hd; [set_solver..|done|done]].
Qed.

Lemma sorted_mono {A} (R R' : relation A) (l : list A) :
  (∀ x y, R x y → R' x y) → StronglySorted R l → StronglySorted R' l.
Proof. intros HR. induction 1 as [|x l _ IH Hx]; constructor; [done|]. eapply Forall_impl; [exact Hx|]. auto. Qed.

(** ** The subtree of a node *)

Section traverse.
Context (c : RadixCache) (L : gset nat) (P : nat → list qunit) (V : nat → list Z) (T : tree c L P V).
Context (children_order : RadixCache → nat → list nat).
Context (Horder : ∀ c n x, rc_nodes c !! n = Some x → children_order c n ≡ₚ (map_to_list (tn_children x)).*2).

Definition under (n : nat) : gset nat := filter (λ m, P n `prefix_of` P m) L.

Lemma elem_of_under m n : m ∈ under n ↔ m ∈ L ∧ P n `prefix_of` P m.
Proof. unfold under. rewrite elem_of_filter. tauto. Qed.

Lemma under_below m n : n ∈ L → m ∈ under n ↔ m ∈ L ∧ below c m n.
Proof.
  intros Hn. rewrite elem_of_under. split; intros [Hm H]; (split; [done|]).
  - by apply (prefix_below c L P V T).
  - by apply (below_live c L P V T m n Hm).
Qed.

Lemma child_of n m :
  n ∈ L → m ∈ children_order c n ↔ m ∈ L ∧ m ≠ rc_root c ∧ parent_of c m n.
Proof.
  intros Hn. destruct (tree_lookup c L P V T n Hn) as [x Hx]. rewrite (Horder c n x Hx). rewrite list_elem_of_fmap. split.
  - intros ([ck m'] & -> & Hm%elem_of_map_to_list). simpl.
    destruct (tr_child T n x ck m' Hn Hx Hm) as (? & ? & y & Hy & Hp & _). split_and!; [done..|by exists y].
  - intros (HmL & Hr & y & Hy & Hp). destruct (tr_node T m HmL Hr) as (y' & p & px & v & Hy' & Hok).
    assert (y' = y) as -> by congruence. rewrite (no_parent Hok) in Hp. inversion Hp; subst p.
    rewrite (no_px Hok) in Hx. inversion Hx; subst px.
    exists (slot (rc_page_size c) (first_page c (tn_key y)), m). split; [done|]. apply elem_of_map_to_list, (no_slot Hok).
Qed.

Lemma children_NoDup n : n ∈ L → NoDup (children_order c n).
Proof.
  intros Hn. destruct (tree_lookup c L P V T n Hn) as [x Hx]. rewrite (Horder c n x Hx).
  apply NoDup_fmap_2_strong; [|apply NoDup_map_to_list].
  intros [k1 m1] [k2 m2] H1%elem_of_map_to_list H2%elem_of_map_to_list Heq. simpl in Heq. subst m2.
  destruct (tr_child T n x k1 m1 Hn Hx H1) as (_ & _ & y & Hy & _ & ->).
  destruct (tr_child T n x k2 m1 Hn Hx H2) as (_ & _ & y' & Hy' & _ & ->). by simplify_eq.
Qed.

(** A child spells a longer path. *)
Lemma child_longer n m : n ∈ L → m ∈ children_order c n →
  ∃ k, P m = P n ++ qunits k ∧ qunits k ≠ [].
Proof.
  intros Hn (HmL & Hr & y & Hy & Hp)%child_of; [|done]. destruct (tr_node T m HmL Hr) as (y' & p & px & v & Hy' & Hok).
  assert (y' = y) as -> by congruence. rewrite (no_parent Hok) in Hp. inversion Hp; subst p.
  exists (tn_key y). split; [apply (no_P Hok)|]. intros He.
  pose proof (key_ok_len c L P V T _ (no_key Hok)). pose proof (tr_ps T). rewrite <- zlen_qunits, He in *. unfold zlen in *. simpl in *. lia.
Qed.

Lemma child_not_prefix n m : n ∈ L → m ∈ children_order c n → ¬ P m `prefix_of` P n.
Proof.
  intros Hn Hm Hp. destruct (child_longer n m Hn Hm) as (k & HP & Hk). rewrite HP in Hp.
  apply prefix_length in Hp. rewrite length_app in Hp. destruct (qunits k); [done|]. simpl in Hp. lia.
Qed.

(** Two children of a node have disjoint subtrees. *)
Lemma children_disjoint n m1 m2 k :
  n ∈ L → m1 ∈ children_order c n → m2 ∈ children_order c n → k ∈ under m1 → k ∈ under m2 → m1 = m2.
Proof.
  intros Hn Hc1 Hc2 [Hk H1]%elem_of_under [_ H2]%elem_of_under.
  pose proof (proj1 (child_of n m1 Hn) Hc1) as (Hm1 & Hr1 & y1 & Hy1 & Hp1).
  pose proof (proj1 (child_of n m2 Hn) Hc2) as (Hm2 & Hr2 & y2 & Hy2 & Hp2).
  assert (Hno : ∀ m m' y, m ∈ L → m' ∈ L → m' ∈ children_order c n → P m' `prefix_of` P m →
    rc_nodes c !! m = Some y → tn_parent y = Some n → m = m').
  { intros m m' y Hm Hm' Hc' Hp Hy Hpar. apply (prefix_below c L P V T) in Hp; [|done..].
    apply rtc_inv in Hp as [->|(p & (y' & Hy' & Hpar') & Hb)]; [done|]. assert (p = n) as -> by congruence.
    destruct (child_not_prefix n m'); [done..|]. by apply (below_live c L P V T n m'). }
  destruct (prefix_weak_total _ _ _ H1 H2) as [Hp|Hp].
  - symmetry. by eapply Hno.
  - by eapply Hno.
Qed.

Lemma under_split n : n ∈ L →
  elements (under n) ≡ₚ n :: concat ((λ m, elements (under m)) <$> children_order c n).
Proof.
  intros Hn. apply NoDup_Permutation; [apply NoDup_elements| |].
  - constructor.
    + intros (m & Hm & [_ Hin]%elem_of_elements%elem_of_under)%elem_of_concat_fmap.
      by apply (child_not_prefix n m).
    + apply NoDup_concat_fmap; [by apply children_NoDup|intros; apply NoDup_elements|].
      intros m1 m2 k Hm1 Hm2 H1%elem_of_elements H2%elem_of_elements. by apply (children_disjoint n m1 m2 k).
  - intros k. rewrite elem_of_elements, elem_of_cons, elem_of_concat_fmap. setoid_rewrite elem_of_elements.
    rewrite under_below by done. split.
    + intros [Hk Hb]. destruct (decide (k = n)) as [->|Hne]; [by left|]. right.
      destruct (tree_lookup c L P V T n Hn) as [x Hx].
      destruct (below_child c L P V T k n x Hk Hb Hne Hx) as (ch & y & v & Hbc & Hy & Hok & HcL & _).
      assert (Hcr : ch ≠ rc_root c).
      { intros ->. destruct (tr_root T) as (rx & Hrx & Hrp & _). rewrite Hy in Hrx. simplify_eq.
        by rewrite (no_parent Hok) in Hrp. }
      exists ch. split; [|by apply under_below]. apply child_of; [done|]. split_and!; [done..|].
      exists y. split; [done|]. apply (no_parent Hok).
    + intros [->|(m & Hm & Hk)]; [split; [done|apply rtc_refl]|].
      apply (child_of n m Hn) in Hm as (HmL & _ & Hp). apply under_below in Hk as [Hk Hb]; [|done].
      split; [done|]. eapply rtc_r; [exact Hb|exact Hp].
Qed.

Lemma under_size n : n ∈ L →
  size (under n) = S (sum_list ((λ m, size (under m)) <$> children_order c n)).
Proof.
  intros Hn. unfold size at 1, set_size. simpl. rewrite (Permutation_length (under_split n Hn)). simpl. f_equal.
  induction (children_order c n) as [|m l IH]; [done|]. rewrite !fmap_cons. cbn [concat]. rewrite length_app, IH. done.
Qed.

Lemma under_root : under (rc_root c) = L.
Proof. apply set_eq. intros m. rewrite elem_of_under, (tr_root_P T). split; [tauto|]. split; [done|apply prefix_nil]. Qed.

Lemma live_size : (size L ≤ rc_counter c)%nat.
Proof.
  rewrite <- (size_set_seq (C := gset nat) 0 (rc_counter c)). apply subseteq_size. intros m Hm.
  destruct (tree_lookup c L P V T m Hm) as [x Hx]. apply elem_of_set_seq. apply (tr_fresh T) in Hx. lia.
Qed.

Lemma sum_list_elem (f : nat → nat) l m : m ∈ l → (f m ≤ sum_list (f <$> l))%nat.
Proof. induction 1 as [m l|m x l _ IH]; rewrite fmap_cons; cbn [sum_list_with]; unfold id in *; lia. Qed.

Lemma child_fuel n m fuel : n ∈ L → (size (under n) ≤ S fuel)%nat → m ∈ children_order c n → (size (under m) ≤ fuel)%nat.
Proof.
  intros Hn Hf Hm. rewrite (under_size n Hn) in Hf. pose proof (sum_list_elem (λ m, size (under m)) _ m Hm). lia.
Qed.

(** *** The depth-first order *)

Context {F : Type} (priority : gmap nat Z) (reqs : gmap nat (list (SReq F))).

Definition reqs_at (n : nat) : list (SReq F) := default [] (reqs !! n).

Lemma get_dfs_priority_perm fuel : ∀ n q, n ∈ L → (size (under n) ≤ fuel)%nat →
  ∃ q', get_dfs_priority children_order fuel c n priority reqs q = Ok (q ++ q')
    ∧ q' ≡ₚ concat (reqs_at <$> elements (under n)).
Proof.
  induction fuel as [|fuel IH]; intros n q Hn Hf; [rewrite under_size in Hf by done; lia|].
  destruct (tree_lookup c L P V T n Hn) as [x Hx]. cbn [get_dfs_priority].
  rewrite (get_node_Some c n x Hx). cbn [mbind res_bind]. set (children := sort_by _ _ _).
  assert (Hc : children ≡ₚ children_order c n) by apply py_sort_Permutation.
  assert (Hloop : ∀ l q, (∀ m, m ∈ l → m ∈ children_order c n) →
    ∃ q', for_each (λ q child, get_dfs_priority children_order fuel c child priority reqs q) q l = Ok (q ++ q')
      ∧ q' ≡ₚ concat ((λ m, concat (reqs_at <$> elements (under m))) <$> l)).
  { induction l as [|m l IHl]; intros q0 Hl; [exists []; by rewrite app_nil_r|]. cbn [for_each].
    assert (Hm : m ∈ children_order c n) by (apply Hl; set_solver).
    destruct (IH m q0) as (q1 & Hgo & Hq1); [by apply (child_of n m)|by eapply child_fuel|].
    rewrite Hgo. cbn [mbind res_bind]. destruct (IHl (q0 ++ q1)) as (q2 & Hgo2 & Hq2); [set_solver|].
    rewrite Hgo2. exists (q1 ++ q2). rewrite app_assoc. split; [done|]. rewrite fmap_cons. cbn [concat].
    by rewrite Hq1, Hq2. }
  destruct (Hloop children q) as (q' & Hgo & Hq'); [intros m; by rewrite Hc|]. rewrite Hgo. cbn [mbind res_bind].
  exists (q' ++ reqs_at n). rewrite <- app_assoc. split; [done|].
  rewrite (concat_fmap_Permutation reqs_at _ _ (under_split n Hn)), fmap_cons. cbn [concat].
  rewrite Permutation_app_comm. apply Permutation_app_head. rewrite Hq', (concat_fmap_Permutation _ _ _ Hc).
  clear. induction (children_order c n) as [|m l IHl]; [done|]. rewrite !fmap_cons. cbn [concat].
  by rewrite fmap_app, concat_app, IHl.
Qed.

(** *** The weights *)

Definition wt (w : gmap nat Z) (n : nat) : Z := default 0 (w !! n).
Definition total_under (w : gmap nat Z) (n : nat) : Z := sumZ (wt w <$> elements (under n)).

Lemma wt_insert w n v m : wt (<[n := v]> w) m = if decide (m = n) then v else wt w m.
Proof.
  unfold wt. case_decide; [subst; by rewrite lookup_insert_eq|by rewrite lookup_insert_ne].
Qed.

Lemma total_under_split w n : n ∈ L → total_under w n = wt w n + sumZ (total_under w <$> children_order c n).
Proof.
  intros Hn. unfold total_under at 1. rewrite (sumZ_permutation _ _ (fmap_Permutation (wt w) _ _ (under_split n Hn))).
  rewrite fmap_cons. cbn [sumZ]. f_equal. induction (children_order c n) as [|m l IH]; [done|].
  rewrite !fmap_cons. cbn [concat sumZ]. by rewrite fmap_app, sumZ_app, IH.
Qed.

(** After [_calc_weight] of [n], every node below [n] has the total of its subtree. *)
Definition weighed (w : gmap nat Z) (n : nat) (w' : gmap nat Z) : Prop :=
  ∀ m, wt w' m = if decide (m ∈ under n) then total_under w m else wt w m.

(** The state of the loop after the children [visited] of [n]. *)
Definition partly_weighed (w : gmap nat Z) (n : nat) (visited : list nat) (w' : gmap nat Z) : Prop :=
  wt w' n = wt w n + sumZ (total_under w <$> visited)
  ∧ ∀ m, m ≠ n →
      ((∃ ch, ch ∈ visited ∧ m ∈ under ch) → wt w' m = total_under w m)
      ∧ ((¬ ∃ ch, ch ∈ visited ∧ m ∈ under ch) → wt w' m = wt w m).

(** Weights that agree on a subtree have the same totals there. *)
Lemma total_under_ext w w' n : (∀ m, m ∈ under n → wt w' m = wt w m) → total_under w' n = total_under w n.
Proof.
  intros He. unfold total_under. f_equal. apply list_fmap_ext. intros i m Hm. apply He.
  by apply elem_of_elements, (list_elem_of_lookup_2 _ i).
Qed.

Lemma under_trans m n k : m ∈ under n → k ∈ under m → k ∈ under n.
Proof. rewrite !elem_of_under. intros [_ H1] [H2 H3]. split; [done|by etrans]. Qed.

Lemma partly_step w n visited m w1 w2 :
  n ∈ L → m ∈ children_order c n → (∀ ch, ch ∈ visited → ch ∈ children_order c n) → m ∉ visited →
  partly_weighed w n visited w1 → weighed w1 m w2 →
  partly_weighed w n (visited ++ [m]) (<[n := wt w2 n + wt w2 m]> w2).
Proof.
  intros Hn Hm Hv Hnew [Hw1 Hrest] Hw2.
  assert (Hself : m ∈ under m) by (apply elem_of_under; split; [by apply (child_of n m)|done]).
  assert (Hnm : n ∉ under m) by (rewrite elem_of_under; intros [_ ?]; by apply (child_not_prefix n m)).
  assert (Hfresh : ∀ k, k ∈ under m → ¬ ∃ ch, ch ∈ visited ∧ k ∈ under ch).
  { intros k Hk (ch & Hch & Hk'). assert (ch = m) as ->; [|done]. by apply (children_disjoint n ch m k); auto. }
  assert (Hne : ∀ k, k ∈ under m → k ≠ n) by (intros k Hk ->; done).
  assert (Htot : ∀ k, k ∈ under m → total_under w1 k = total_under w k).
  { intros k Hk. apply total_under_ext. intros k' Hk'. pose proof (under_trans k m k' Hk Hk') as Hk2.
    by apply (Hrest k' (Hne k' Hk2)), Hfresh. }
  split.
  - rewrite wt_insert, decide_True by done. rewrite (Hw2 n), decide_False, Hw1 by done.
    rewrite (Hw2 m), decide_True, Htot by done. rewrite fmap_app, sumZ_app. simpl. lia.
  - intros k Hk. rewrite wt_insert, decide_False by done. rewrite (Hw2 k). case_decide as Hin.
    + split; [by intros _; apply Htot|]. intros []. exists m. split; [set_solver|done].
    + split.
      * intros (ch & [Hch| ->%list_elem_of_singleton]%elem_of_app & Hku); [|done]. apply (Hrest k Hk). by exists ch.
      * intros Hno. apply (Hrest k Hk). intros (ch & Hch & Hku). apply Hno. exists ch. set_solver.
Qed.

Lemma calc_weight_weighed fuel : ∀ n w, n ∈ L → (size (under n) ≤ fuel)%nat →
  ∃ w', calc_weight children_order fuel c n w = Ok w' ∧ weighed w n w'.
Proof.
  induction fuel as [|fuel IH]; intros n w Hn Hf; [rewrite under_size in Hf by done; lia|].
  destruct (tree_lookup c L P V T n Hn) as [x Hx]. cbn [calc_weight].
  rewrite (get_node_Some c n x Hx). cbn [mbind res_bind].
  assert (Hloop : ∀ l visited w1, visited ++ l = children_order c n → partly_weighed w n visited w1 →
    ∃ w', for_each (λ w child, w ← calc_weight children_order fuel c child w;
             Ok (<[n := default 0 (w !! n) + default 0 (w !! child)]> w)) w1 l = Ok w'
      ∧ partly_weighed w n (children_order c n) w').
  { induction l as [|m l IHl]; intros visited w1 Hl Hp.
    { rewrite app_nil_r in Hl. subst. by exists w1. }
    assert (Hm : m ∈ children_order c n) by (rewrite <- Hl; set_solver).
    pose proof (children_NoDup n Hn) as Hnd. rewrite <- Hl in Hnd. apply NoDup_app in Hnd as (_ & Hnd & _).
    cbn [for_each]. destruct (IH m w1) as (w2 & Hgo & Hw2); [by apply (child_of n m)|by eapply child_fuel|].
    rewrite Hgo. cbn [mbind res_bind]. apply (IHl (visited ++ [m])); [by rewrite <- app_assoc|].
    apply (partly_step w n visited m w1 w2); try done; [|intros Hin; apply (Hnd m Hin); set_solver].
    intros ch Hch. rewrite <- Hl. set_solver. }
  destruct (Hloop (children_order c n) [] w) as (w' & Hgo & Hw & Hrest); [done| |].
  { split; [simpl; lia|]. intros m _. split; [intros (? & ?%not_elem_of_nil & _); done|done]. }
  exists w'. split; [exact Hgo|]. intros m. destruct (decide (m = n)) as [->|Hne].
  - rewrite decide_True by (by apply elem_of_under). by rewrite Hw, total_under_split.
  - assert (Hiff : m ∈ under n ↔ ∃ ch, ch ∈ children_order c n ∧ m ∈ under ch).
    { rewrite <- elem_of_elements, (under_split n Hn), elem_of_cons, elem_of_concat_fmap.
      setoid_rewrite elem_of_elements. split; [intros [|]; done|by right]. }
    case_decide as Hin; [apply (Hrest m Hne), Hiff, Hin|]. apply (Hrest m Hne). by rewrite <- Hiff.
Qed.

End traverse.

(** ** Grouping by node *)

Section group.
Context {F : Type}.
Implicit Types (r : SReq F) (q : list (SReq F)).

Lemma group_lookup q n : default [] (group_by_last_node q !! n) = filter (λ r, sr_last_node r = n) q.
Proof.
  unfold group_by_last_node.
  assert (Hgen : ∀ (m : gmap nat (list (SReq F))), default [] (foldl (λ m r, <[sr_last_node r := default [] (m !! sr_last_node r) ++ [r]]> m) m q !! n)
    = default [] (m !! n) ++ filter (λ r, sr_last_node r = n) q).
  { induction q as [|r q IH]; intros m; [by rewrite app_nil_r|]. cbn [foldl]. rewrite IH.
    destruct (decide (sr_last_node r = n)) as [<-|Hne].
    - rewrite lookup_insert_eq, filter_cons_True by done. simpl. by rewrite <- app_assoc.
    - by rewrite lookup_insert_ne, filter_cons_False. }
  by rewrite (Hgen ∅), lookup_empty.
Qed.

Lemma group_Permutation q (l : list nat) :
  NoDup l → Forall (λ r, sr_last_node r ∈ l) q → concat ((λ n, filter (λ r, sr_last_node r = n) q) <$> l) ≡ₚ q.
Proof.
  intros Hl. induction q as [|r q IH]; intros Hq.
  { clear. induction l as [|n l IH]; [done|]. rewrite fmap_cons. by cbn [concat]. }
  apply Forall_cons in Hq as [Hr Hq]. specialize (IH Hq).
  etrans; [|apply Permutation_cons; [reflexivity|exact IH]].
  apply elem_of_Permutation in Hr as [l' Hl']. rewrite !(concat_fmap_Permutation _ _ _ Hl'), !fmap_cons. cbn [concat].
  rewrite filter_cons_True by done. simpl. constructor. apply Permutation_app_head.
  apply Permutation_refl', (f_equal (@concat _)), list_fmap_ext. intros i n Hn. apply filter_cons_False. intros He.
  rewrite Hl' in Hl. apply NoDup_cons in Hl as [Hl _]. apply Hl. rewrite He. by apply (list_elem_of_lookup_2 _ i).
Qed.

End group.

(** ** The depth-first policy *)

Section dfs.
Context {F : Type} (children_order : RadixCache → nat → list nat).
Context (Horder : ∀ c n x, rc_nodes c !! n = Some x → children_order c n ≡ₚ (map_to_list (tn_children x)).*2).

Lemma sort_by_dfs_weight_ok c g H (q : list (SReq F)) :
  inv c g H → Forall (λ r, sr_last_node r ∈ gL g) q →
  ∃ q', sort_by_dfs_weight children_order c q = Ok q' ∧ q' ≡ₚ q.
Proof.
  intros Hi Hq. pose proof (iv_tree Hi) as T. unfold sort_by_dfs_weight.
  assert (Hroot : (size (under (gL g) (gP g) (rc_root c)) ≤ S (rc_counter c))%nat).
  { rewrite (under_root c _ _ _ T). pose proof (live_size c _ _ _ T). lia. }
  destruct (calc_weight_weighed c _ _ _ T children_order Horder (S (rc_counter c)) (rc_root c)
    ((λ l : list (SReq F), zlen l) <$> group_by_last_node q) (tr_root_live T) Hroot) as (w & Hw & _).
  rewrite Hw. cbn [mbind res_bind].
  destruct (get_dfs_priority_perm c _ _ _ T children_order Horder w (group_by_last_node q) (S (rc_counter c))
    (rc_root c) [] (tr_root_live T) Hroot) as (q' & Hgo & Hperm).
  exists q'. split; [exact Hgo|]. rewrite Hperm, (under_root c _ _ _ T).
  etrans; [|apply (group_Permutation q (elements (gL g))); [apply NoDup_elements|]].
  - apply concat_fmap_pointwise, Forall_forall. intros n _. unfold reqs_at. by rewrite group_lookup.
  - eapply Forall_impl; [exact Hq|]. intros r Hr. by apply elem_of_elements.
Qed.

End dfs.

(** ** Prefix matches of the queue *)

Section matches.
Context {F : Type} (monotonic : nat → Z).
Implicit Types (r : SReq F) (q : list (SReq F)) (m : RadixMemory) (tree : RadixCache).

Definition prompt r : list Z := sr_origin_input_ids r ++ sr_output_ids r.
Definition prompt_key r : RadixKey := mkRadixKey (prompt r) (sr_extra_key r) false.

(** The simulated tree: page size 1, no bigrams. *)
Definition sim_ok tree : Prop := cache_ok (tree, []) ∧ rc_page_size tree = 1 ∧ rc_is_eagle tree = false.

Lemma sim_config tree tree' : config tree' = config tree → cache_ok (tree', []) → sim_ok tree → sim_ok tree'.
Proof. intros Hc Hok (_ & Hps & He). inversion Hc. split; [done|]. split; congruence. Qed.

Lemma sim_lookup_key tree r : sim_ok tree → lookup_key tree (prompt_key r) = prompt_key r.
Proof. intros (_ & Hps & He). unfold lookup_key, page_aligned. rewrite Hps, He. done. Qed.

(** Everything in the simulated tree is a prefix of one of the requests put in. *)
Definition sim_holds tree (inserted : list (SReq F)) : Prop :=
  ∀ us, (∃ ws, cached tree us ws) ↔ us = [] ∨ ∃ r, r ∈ inserted ∧ us `prefix_of` qunits (prompt_key r).

Lemma sim_reset tree : sim_ok tree → sim_ok (reset monotonic tree) ∧ sim_holds (reset monotonic tree) [].
Proof.
  intros (((g & Hi) & Hd & Hev) & Hps & He). simpl in *. pose proof (iv_tree Hi) as T.
  pose proof (reset_inv monotonic tree (tr_ps T) (tr_fresh T)) as Hi'.
  assert (Hcfg : rc_page_size (reset monotonic tree) = 1 ∧ rc_is_eagle (reset monotonic tree) = false
    ∧ rc_disable (reset monotonic tree) = false ∧ rc_enable_kv_cache_events (reset monotonic tree) = false).
  { unfold reset, record_all_cleared_event. simpl. by rewrite Hev. }
  destruct Hcfg as (C1 & C2 & C3 & C4). split.
  - split; [|done]. split; [by eexists|done].
  - intros us. split.
    + intros (ws & n & us' & vs' & Hp & Hpre & _). apply (path_live _ _ _ _ _ _ _ (iv_tree Hi')) in Hp as (_ & -> & _).
      left. by apply prefix_nil_inv in Hpre.
    + intros [->|(r & ?%not_elem_of_nil & _)]; [|done]. exists [], (rc_root (reset monotonic tree)), [], [].
      split_and!; [|done|done]. apply (path_live _ _ _ _ _ _ _ (iv_tree Hi')).
      split_and!; [apply (tr_root_live (iv_tree Hi'))|done|done].
Qed.

(** The two requests have the same extra key and agree on a prefix as long as the threshold. *)
Definition share_prefix r r0 : Prop :=
  sr_extra_key r = sr_extra_key r0
  ∧ IN_BATCH_PREFIX_CACHING_DEPRIORITIZE_THRESHOLD ≤ zlen (prompt r)
  ∧ slice_to (prompt r) IN_BATCH_PREFIX_CACHING_DEPRIORITIZE_THRESHOLD `prefix_of` prompt r0.

Abbreviation N := (Z.to_nat IN_BATCH_PREFIX_CACHING_DEPRIORITIZE_THRESHOLD).

Lemma qunits_prompt r : qunits (prompt_key r) = (λ t, (sr_extra_key r, [t])) <$> prompt r.
Proof. unfold qunits, units. simpl. by rewrite map_map. Qed.

Lemma share_prefix_units r r0 :
  IN_BATCH_PREFIX_CACHING_DEPRIORITIZE_THRESHOLD ≤ zlen (prompt r) →
  take N (qunits (prompt_key r)) `prefix_of` qunits (prompt_key r0) ↔ share_prefix r r0.
Proof.
  intros Hlen. unfold share_prefix. rewrite slice_to_take by done. rewrite !qunits_prompt, <- fmap_take. split.
  - intros Hp. assert (He : sr_extra_key r = sr_extra_key r0).
    { destruct (prompt r) as [|t l]; [unfold zlen in Hlen; simpl in Hlen; done|].
      destruct (prompt r0) as [|t0 l0]; simpl in Hp; [by apply prefix_nil_inv in Hp|].
      apply prefix_cons_inv_1 in Hp. congruence. }
    split_and!; [done..|]. rewrite He in Hp. destruct Hp as [k Hk].
    exists (drop (length (take N (prompt r))) (prompt r0)).
    assert (Hinj : Inj (=) (=) (λ t : Z, (sr_extra_key r0, [t]))) by (intros ?? [=]; done).
    apply (f_equal (take (length (take N (prompt r))))) in Hk.
    rewrite take_app_length', <- fmap_take in Hk by (by rewrite length_fmap). 
    apply (inj (fmap _)) in Hk. rewrite <- Hk at 1. by rewrite take_drop.
  - intros (-> & _ & k & Hk). rewrite Hk, fmap_app. by eexists.
Qed.

Lemma sim_match tree inserted r :
  sim_ok tree → sim_holds tree inserted →
  ∃ vs n tree', match_prefix monotonic tree (prompt_key r) = Ok (vs, n, tree') ∧ sim_ok tree' ∧ sim_holds tree' inserted
    ∧ (IN_BATCH_PREFIX_CACHING_DEPRIORITIZE_THRESHOLD ≤ zlen vs ↔ ∃ r0, r0 ∈ inserted ∧ share_prefix r r0).
Proof.
  intros Hs Hh. pose proof Hs as (Hok & Hps & He).
  destruct (match_prefix_longest_ok monotonic tree [] (prompt_key r) Hok) as (vs & n & tree' & Hgo & Hok' & Hcfg & Hsame & Hpath & Hlong);
    [done|]. rewrite (sim_lookup_key tree r Hs) in *.
  assert (Hs' : sim_ok tree') by (by eapply sim_config). exists vs, n, tree'. split_and!; try done.
  { intros us. rewrite <- (Hh us). split; intros [ws Hc]; exists ws; by apply Hsame. }
  assert (Hlen : length (take (length vs) (qunits (prompt_key r))) = length vs).
  { destruct Hok' as ((g' & Hi') & _). simpl in Hi'. apply (path_live _ _ _ _ _ _ _ (iv_tree Hi')) in Hpath as (Hn & HP & HV).
    pose proof (P_V_length _ _ _ _ (iv_tree Hi') n Hn). rewrite HP, HV. unfold zlen in *. lia. }
  assert (Hq : length (qunits (prompt_key r)) = length (prompt r)) by (by rewrite qunits_prompt, length_fmap).
  split.
  - intros Hv. assert (Hp : IN_BATCH_PREFIX_CACHING_DEPRIORITIZE_THRESHOLD ≤ zlen (prompt r)).
    { rewrite length_take in Hlen. unfold zlen in *. lia. }
    assert (Hc : ∃ ws, cached tree (take N (qunits (prompt_key r))) ws).
    { eexists. apply Hsame. exists n, (take (length vs) (qunits (prompt_key r))), vs. split_and!; [done| |done].
      replace (take N (qunits (prompt_key r))) with (take N (take (length vs) (qunits (prompt_key r)))); [apply prefix_take|].
      rewrite take_take. f_equal. unfold zlen in *. lia. }
    apply Hh in Hc as [Hnil|(r0 & Hr0 & Hpre)]; [|exists r0; split; [done|by apply share_prefix_units]].
    apply (f_equal length) in Hnil. rewrite length_take, Hq in Hnil. cbn [length] in Hnil.
    unfold zlen, IN_BATCH_PREFIX_CACHING_DEPRIORITIZE_THRESHOLD in *. lia.
  - intros (r0 & Hr0 & Hsh). pose proof Hsh as (_ & Hp & _). apply share_prefix_units in Hsh; [|done].
    destruct (proj2 (Hh (take N (qunits (prompt_key r))))) as [ws Hc]; [right; by exists r0|].
    destruct (Hlong _ ws (prefix_take (qunits (prompt_key r)) N)) as [Hle _]; [rewrite Hps; apply Z.divide_1_l|done|].
    rewrite length_take in Hle. unfold zlen in *. lia.
Qed.

Lemma sim_insert tree inserted r :
  sim_ok tree → sim_holds tree inserted →
  ∃ pl tree', insert monotonic tree (prompt_key r) (Some (replicate (length (prompt r)) 0)) None false = Ok (pl, tree')
    ∧ sim_ok tree' ∧ sim_holds tree' (inserted ++ [r]).
Proof.
  intros Hs Hh. pose proof Hs as (Hok & Hps & He).
  destruct (insert_spec_ok monotonic tree [] (prompt_key r) (replicate (length (prompt r)) 0) None false Hok)
    as (pl & old & tree' & Hgo & Hok' & Hcfg & _ & _ & _ & _ & Hnew & _ & _); [done| |].
  { rewrite (sim_lookup_key tree r Hs), <- zlen_qunits, qunits_prompt. unfold zlen. rewrite length_fmap, length_replicate. lia. }
  rewrite (sim_lookup_key tree r Hs) in Hnew. exists pl, tree'. split; [done|]. split; [by eapply sim_config|].
  intros us. split.
  - intros (ws & [Hc|[Hp _]]%Hnew).
    + destruct (proj1 (Hh us)) as [->|(r0 & Hr0 & Hp)]; [by exists ws|by left|]. right. exists r0. split; [set_solver|done].
    + right. exists r. split; [set_solver|done].
  - intros [->|(r0 & [Hr0| ->%list_elem_of_singleton]%elem_of_app & Hp)].
    + destruct (proj2 (Hh [])) as [ws Hc]; [by left|]. exists ws. apply Hnew. by left.
    + destruct (proj2 (Hh us)) as [ws Hc]; [right; by exists r0|]. exists ws. apply Hnew. by left.
    + eexists. apply Hnew. by right.
Qed.

(** *** The queue *)

#[export] Instance share_prefix_dec r r0 : Decision (share_prefix r r0).
Proof. unfold share_prefix. apply _. Defined.

Definition short_match r : Prop := zlen (sr_prefix_indices r) ≤ IN_BATCH_PREFIX_CACHING_CHECK_THRESHOLD.

(** In-batch prefix caching without a tree: a request with a short match is held back if it shares a
    long prefix with an earlier one that also has a short match and is not held back itself. *)
Fixpoint held_back (leaders q : list (SReq F)) : list (SReq F) :=
  match q with
  | [] => []
  | r :: q =>
      if bool_decide (short_match r) then
        if bool_decide (Exists (share_prefix r) leaders) then r :: held_back leaders q
        else held_back (leaders ++ [r]) q
      else held_back leaders q
  end.

(** What a match does to a request and to the cache. *)
Record matched (m : RadixMemory) (k : TreeContent) (H : list nat) (m' : RadixMemory) (k' : TreeContent) : Prop := {
  mt_state : radix_state m' k' H;
  mt_available : available_size (rm_allocator m') = available_size (rm_allocator m);
  mt_evictable : rc_evictable_size (rm_cache m') = rc_evictable_size (rm_cache m);
  mt_disable : rc_disable (rm_cache m') = rc_disable (rm_cache m);
  mt_live : ∀ n, n ∈ gL (ct_ghost k) → n ∈ gL (ct_ghost k')
}.

Lemma matched_refl m k H : radix_state m k H → matched m k H m k.
Proof. by split. Qed.

Lemma matched_trans m k H m1 k1 m2 k2 : matched m k H m1 k1 → matched m1 k1 H m2 k2 → matched m k H m2 k2.
Proof. intros [] []. split; try done; try congruence. auto. Qed.

Lemma match_for_req_ok m k H r :
  radix_state m k H →
  ∃ mr r' m' k', match_prefix_for_req (H := radix_memory monotonic) m r (Some (prompt r)) = Ok (mr, r', m') ∧ matched m k H m' k'
    ∧ same_req r r' ∧ sr_extra_key r' = sr_extra_key r ∧ sr_last_node r' ∈ gL (ct_ghost k').
Proof.
  intros Hm. unfold match_prefix_for_req. cbn [default]. unfold id.
  destruct (radix_match monotonic m k H (prompt r) (sr_extra_key r) Hm)
    as (mr & m' & k' & Hgo & Hm' & Hn & _ & _ & Ha & He & Hd & Hl).
  rewrite Hgo. cbn [mbind res_bind]. eexists mr, _, m', k'. split; [done|]. by split_and!.
Qed.

(** One request: it joins the leaders, is held back, or has a long match. *)
Lemma match_waiting_ok m k H tree leaders dep r :
  radix_state m k H → sim_ok tree → sim_holds tree leaders →
  ∃ r' m' k' tree' leaders' dep', match_waiting monotonic m tree dep r = Ok (r', m', tree', dep')
    ∧ matched m k H m' k' ∧ same_req r r' ∧ sr_last_node r' ∈ gL (ct_ghost k')
    ∧ sim_ok tree' ∧ sim_holds tree' leaders'
    ∧ ∀ q, list_to_set (sr_rid <$> held_back leaders (r' :: q)) ∪ dep
           = (list_to_set (sr_rid <$> held_back leaders' q) ∪ dep' : gset string).
Proof.
  intros Hm Hs Hh. unfold match_waiting. fold (prompt r).
  destruct (match_for_req_ok m k H r Hm) as (mr & r' & m' & k' & Hgo & Hmt & Hsame & Hex & Hn).
  rewrite Hgo. cbn [mbind res_bind].
  assert (Hkey : mkRadixKey (prompt r) (sr_extra_key r') false = prompt_key r').
  { unfold prompt_key, prompt. by rewrite (sq_origin _ _ Hsame), (sq_output _ _ Hsame). }
  assert (Hlen : length (prompt r) = length (prompt r')).
  { unfold prompt. by rewrite (sq_origin _ _ Hsame), (sq_output _ _ Hsame). }
  rewrite Hkey, Hlen. fold (short_match r'). destruct (bool_decide (short_match r')) eqn:Hshort; last first.
  { exists r', m', k', tree, leaders, dep. split_and!; try done. intros q. cbn [held_back]. by rewrite Hshort. }
  destruct (sim_match tree leaders r' Hs Hh) as (vs & n & tree1 & Hm1 & Hs1 & Hh1 & Hiff).
  rewrite Hm1. cbn [mbind res_bind]. rewrite <- Exists_exists in Hiff.
  destruct (bool_decide (IN_BATCH_PREFIX_CACHING_DEPRIORITIZE_THRESHOLD ≤ zlen vs)) eqn:Hlong;
    [apply bool_decide_eq_true in Hlong|apply bool_decide_eq_false in Hlong].
  - eexists r', m', k', tree1, leaders, _. split; [done|]. split_and!; try done. intros q. cbn [held_back].
    rewrite Hshort, bool_decide_eq_true_2 by (by apply Hiff). rewrite fmap_cons, list_to_set_cons. set_solver.
  - destruct (sim_insert tree1 leaders r' Hs1 Hh1) as (pl & tree2 & Hi & Hs2 & Hh2).
    rewrite Hi. cbn [mbind res_bind]. eexists r', m', k', tree2, (leaders ++ [r']), dep. split_and!; try done.
    intros q. cbn [held_back]. by rewrite Hshort, bool_decide_eq_false_2 by (by rewrite <- Hiff).
Qed.

Lemma match_queue_ok q : ∀ m k H tree leaders dep,
  radix_state m k H → sim_ok tree → sim_holds tree leaders →
  ∃ q' m' k' tree' dep', match_queue monotonic m tree dep q = Ok (q', m', tree', dep')
    ∧ matched m k H m' k' ∧ Forall2 same_req q q' ∧ Forall (λ r, sr_last_node r ∈ gL (ct_ghost k')) q'
    ∧ sim_ok tree' ∧ dep' = list_to_set (sr_rid <$> held_back leaders q') ∪ dep.
Proof.
  induction q as [|r q IH]; intros m k H tree leaders dep Hm Hs Hh; cbn [match_queue].
  { exists [], m, k, tree, dep. split_and!; try done; set_solver. }
  destruct (match_waiting_ok m k H tree leaders dep r Hm Hs Hh)
    as (r' & m1 & k1 & tree1 & leaders1 & dep1 & Hgo & Hmt & Hsame & Hn & Hs1 & Hh1 & Hdep).
  rewrite Hgo. cbn [mbind res_bind].
  destruct (IH m1 k1 H tree1 leaders1 dep1 (mt_state _ _ _ _ _ Hmt) Hs1 Hh1)
    as (q' & m2 & k2 & tree2 & dep2 & Hgo2 & Hmt2 & Hall & Hns & Hs2 & Hd2).
  rewrite Hgo2. cbn [mbind res_bind]. exists (r' :: q'), m2, k2, tree2, dep2. split; [done|]. split_and!; try done.
  - by eapply matched_trans.
  - by constructor.
  - constructor; [|done]. by apply (mt_live _ _ _ _ _ Hmt2).
  - by rewrite Hd2, (Hdep q').
Qed.

End matches.

(** A fresh policy object. *)
Lemma res_bind_Ok {A B} (x : res A) (f : A → res B) b : x ≫= f = Ok b → ∃ a, x = Ok a ∧ f a = Ok b.
Proof. destruct x as [a|e]; [|done]. by exists a. Qed.

Lemma create_simulated_ok monotonic tree : create_simulated monotonic = Ok tree → sim_ok tree.
Proof.
  intros Ht. destruct (RadixCache_init_inv monotonic 1 false false "lru" tree ltac:(lia) Ht) as (H1 & H2 & H3 & H4 & H5).
  split; [split; [exact H1|split; [exact H2|exact H3]]|split; [exact H4|exact H5]].
Qed.

Lemma SchedulePolicy_init_ok monotonic name m enable low p :
  SchedulePolicy_init monotonic name m enable low = Ok p → sim_ok (sp_waiting_queue_radix_tree p).
Proof.
  unfold SchedulePolicy_init. intros (pol & _ & (tree & Ht & Hp)%res_bind_Ok)%res_bind_Ok.
  apply (create_simulated_ok monotonic). rewrite Ht. f_equal. injection Hp. intros <-. reflexivity.
Qed.

(** ** The interface *)

Section interface.
Context (monotonic : nat → Z) (shuffle : nat → list (SReq Qc) → list (SReq Qc))
        (children_order : RadixCache → nat → list nat).
(** [random.shuffle] permutes its list, and a dict lists every child once. *)
Context (Hshuffle : ∀ n q, shuffle n q ≡ₚ q).
Context (Horder : ∀ c n x, rc_nodes c !! n = Some x → children_order c n ≡ₚ (map_to_list (tn_children x)).*2).
Abbreviation calc := (SchedulePolicy_calc_priority monotonic shuffle children_order).

Lemma same_reqs_refl (q : list (SReq Qc)) : Forall2 same_req q q.
Proof. induction q; by constructor. Qed.

(** A reordering of requests that were matched before. *)
Lemma reorder_same (q q1 q2 : list (SReq Qc)) :
  Forall2 same_req q q1 → q2 ≡ₚ q1 → ∃ perm, perm ≡ₚ q ∧ Forall2 same_req perm q2.
Proof.
  intros Hs Hp. symmetry in Hp. apply Forall2_flip in Hs.
  destruct (Permutation_Forall2 Hp Hs) as (perm & Hperm & Hs2). exists perm. split; [done|].
  by apply Forall2_flip in Hs2.
Qed.

(** Every policy. *)
Lemma calc_priority_ok p m k H q running :
  sim_ok (sp_waiting_queue_radix_tree p) → radix_state m k H →
  ∃ b q' p' m' k', calc p m q running = Ok (b, q', p', m')
    ∧ sim_ok (sp_waiting_queue_radix_tree p') ∧ (∃ perm, perm ≡ₚ q ∧ Forall2 same_req perm q') ∧ matched m k H m' k'.
Proof.
  intros Hs Hm. unfold SchedulePolicy_calc_priority.
  assert (Hkeep : ∀ (b : bool) q' p', q' ≡ₚ q → sim_ok (sp_waiting_queue_radix_tree p') →
    ∃ b' q'' p'' m' k', Ok (b, q', p', m) = Ok (b', q'', p'', m') ∧ sim_ok (sp_waiting_queue_radix_tree p'')
      ∧ (∃ perm, perm ≡ₚ q ∧ Forall2 same_req perm q'') ∧ matched m k H m' k').
  { intros b q' p' Hq Hp'. exists b, q', p', m, k. split_and!; [done|done| |by apply matched_refl].
    by apply (reorder_same q q q'); [apply same_reqs_refl|]. }
  case_bool_decide.
  { apply Hkeep; [|done]. destruct (sp_enable_priority_scheduling p); [apply py_sort_Permutation|done]. }
  destruct (determine_active_policy p q) as [aware|agnostic].
  - unfold compute_prefix_matches. destruct (sim_reset (F := Qc) monotonic _ Hs) as [Hs0 Hh0].
    destruct (match_queue_ok monotonic q m k H _ [] ∅ Hm Hs0 Hh0)
      as (q1 & m1 & k1 & tree1 & dep & Hgo & Hmt & Hsame & Hns & Hs1 & _).
    rewrite Hgo. cbn [mbind res_bind]. destruct aware.
    + eexists _, _, _, m1, k1. split; [done|]. split_and!; [done| |done].
      apply (reorder_same q q1); [done|apply py_sort_Permutation].
    + destruct (sort_by_dfs_weight_ok children_order Horder (rm_cache m1) (ct_ghost k1) _ q1
        (rs_inv _ _ _ (mt_state _ _ _ _ _ Hmt)) Hns) as (q2 & Hgo2 & Hperm).
      rewrite Hgo2. cbn [mbind res_bind]. eexists _, _, _, m1, k1. split; [done|]. split_and!; [done| |done].
      by apply (reorder_same q q1).
  - destruct agnostic; apply Hkeep; try done.
    + unfold sort_by_longest_output. destruct (sp_enable_priority_scheduling p); apply py_sort_Permutation.
    + destruct running; [|done]. unfold sort_by_routing_key. case_decide; [done|apply py_sort_Permutation].
Qed.

#[local] Existing Instance radix_memory_laws.
#[local] Existing Instance schedule_policy.

#[export] Instance schedule_policy_laws :
  QueuePolicyLaws Qc RadixMemory SchedulePolicy (H := radix_memory monotonic) (H0 := radix_memory_laws monotonic)
    (H1 := schedule_policy monotonic shuffle children_order).
Proof.
  refine {| policy_ok p := sim_ok (sp_waiting_queue_radix_tree p) |}.
  intros p m k H q running Hp Hm _.
  destruct (calc_priority_ok p m k H q (Some running) Hp Hm) as (b & q' & p' & m' & k' & Hgo & Hp' & Hperm & Hmt).
  exists q', p', m', k'. split_and!; try done; try apply Hmt. simpl. by rewrite Hgo.
Defined.

(** C30: Every scheduling policy (first come first served with or without priorities, longest prefix,
    depth-first weight, longest output, random, routing key) returns the waiting queue in a new order:
    it never raises, loses no request and duplicates none, and changes nothing of a request but the
    result of its prefix match.  The cache keeps its locks, its free slots and its evictable slots. *)
Theorem policy_permutes p m k H q running
    (Hp : sim_ok (sp_waiting_queue_radix_tree p)) (Hm : radix_state m k H) :
  ∃ b q' p' m', calc p m q running = Ok (b, q', p', m')
    ∧ (∃ perm, perm ≡ₚ q ∧ Forall2 same_req perm q')
    ∧ (∃ k', radix_state m' k' H)
    ∧ available_size (rm_allocator m') = available_size (rm_allocator m)
    ∧ rc_evictable_size (rm_cache m') = rc_evictable_size (rm_cache m).
Proof.
  destruct (calc_priority_ok p m k H q running Hp Hm) as (b & q' & p' & m' & k' & Hgo & _ & Hperm & []).
  exists b, q', p', m'. split_and!; try done. by exists k'.
Qed.

(** ** Longest prefix first *)

(** The order of [_sort_by_longest_prefix]: the requests held back come last, the others by
    decreasing length of their match. *)
Definition lpm_le (dep : gset string) (r r' : SReq Qc) : Prop :=
  sr_rid r' ∉ dep → (sr_rid r ∉ dep) ∧ zlen (sr_prefix_indices r') ≤ zlen (sr_prefix_indices r).

Lemma lpm_le_py dep (r r' : SReq Qc) :
  py_le inf_ltb (λ r, if decide (sr_rid r ∈ dep) then None else Some (- zlen (sr_prefix_indices r))) r r'
  ↔ lpm_le dep r r'.
Proof.
  unfold py_le, lpm_le. destruct (decide (sr_rid r ∈ dep)), (decide (sr_rid r' ∈ dep)); simpl; try tauto.
  - split; [done|]. intros Hd. by destruct (Hd ltac:(done)).
  - rewrite Z.ltb_ge. split; [|intros Hd; destruct (Hd ltac:(done)); lia]. intros; split; [done|lia].
Qed.

Lemma sort_by_longest_prefix_spec dep (q : list (SReq Qc)) :
  let q' := sort_by_longest_prefix dep q in
  q' ≡ₚ q ∧ StronglySorted (lpm_le dep) q'
  ∧ filter (λ r, sr_rid r ∈ dep) q' = filter (λ r, sr_rid r ∈ dep) q
  ∧ ∀ n, filter (λ r, (sr_rid r ∉ dep) ∧ zlen (sr_prefix_indices r) = n) q'
         = filter (λ r, (sr_rid r ∉ dep) ∧ zlen (sr_prefix_indices r) = n) q.
Proof.
  intros q'. split_and!.
  - apply py_sort_Permutation.
  - eapply sorted_mono; [|apply py_sort_sorted].
    + intros r r' Hle. by apply lpm_le_py.
    + intros r r'. rewrite !lpm_le_py. unfold lpm_le.
      destruct (decide (sr_rid r ∈ dep)), (decide (sr_rid r' ∈ dep)); [tauto..|].
      destruct (Z.le_ge_cases (zlen (sr_prefix_indices r)) (zlen (sr_prefix_indices r'))); [right|left]; intros _; (split; [done|lia]).
    + intros r1 r2 r3. rewrite !lpm_le_py. unfold lpm_le. intros H12 H23 H3. destruct (H23 H3) as [H2 ?].
      destruct (H12 H2) as [H1 ?]. split; [done|lia].
  - apply py_sort_stable. intros r r' Hr Hr'. apply lpm_le_py. by intros [].
  - intros n. apply py_sort_stable. intros r r' [Hr Hn] [Hr' Hn']. apply lpm_le_py. intros _. split; [done|lia].
Qed.

(** C33: The longest-prefix policy.  The requests held back by in-batch prefix caching, computed with a
    simulated radix tree, are exactly those with a short match in the cache that share a prefix of at
    least the threshold with an earlier request that has a short match and is not held back.  They come
    last, the others in the order of decreasing match length, and ties keep the order of the queue. *)
Theorem lpm_order p m k H q running
    (Hpol : sp_policy p = CacheAware LPM) (Hlen : zlen q ≤ 128)
    (Hp : sim_ok (sp_waiting_queue_radix_tree p)) (Hm : radix_state m k H) :
  ∃ q1 q' p' m', calc p m q running = Ok (true, q', p', m') ∧ Forall2 same_req q q1
    ∧ let dep := list_to_set (sr_rid <$> held_back [] q1) : gset string in
      q' ≡ₚ q1 ∧ StronglySorted (lpm_le dep) q'
      ∧ filter (λ r, sr_rid r ∈ dep) q' = filter (λ r, sr_rid r ∈ dep) q1
      ∧ ∀ n, filter (λ r, (sr_rid r ∉ dep) ∧ zlen (sr_prefix_indices r) = n) q'
             = filter (λ r, (sr_rid r ∉ dep) ∧ zlen (sr_prefix_indices r) = n) q1.
Proof.
  unfold SchedulePolicy_calc_priority, determine_active_policy. rewrite Hpol.
  rewrite (bool_decide_eq_false_2 (_ = CacheAgnostic FCFS)) by done. rewrite (bool_decide_eq_false_2 (128 < _)) by lia.
  rewrite andb_false_r. unfold compute_prefix_matches. destruct (sim_reset (F := Qc) monotonic _ Hp) as [Hs0 Hh0].
  destruct (match_queue_ok monotonic q m k H _ [] ∅ Hm Hs0 Hh0)
    as (q1 & m1 & k1 & tree1 & dep & Hgo & _ & Hsame & _ & _ & Hdep).
  rewrite Hgo. cbn [mbind res_bind]. eexists q1, _, _, m1. split; [done|]. split; [done|].
  rewrite Hdep, (right_id_L ∅ (∪)). apply sort_by_longest_prefix_spec.
Qed.

End interface.

(** ** Weights of the depth-first policy *)

Section weights.
Context (children_order : RadixCache → nat → list nat).
Context (Horder : ∀ c n x, rc_nodes c !! n = Some x → children_order c n ≡ₚ (map_to_list (tn_children x)).*2).

(** The depth-first policy visits the whole tree: it terminates within the depth bound, weighs every
    node with the number of waiting requests whose match ends at it or below it, and returns a
    permutation of the queue. *)
Theorem dfs_weights c g H (q : list (SReq Qc))
    (Hi : inv c g H) (Hq : Forall (λ r, sr_last_node r ∈ gL g) q) :
  (∃ w, calc_weight children_order (S (rc_counter c)) c (rc_root c)
          ((λ l : list (SReq Qc), zlen l) <$> group_by_last_node q) = Ok w
     ∧ ∀ n, n ∈ gL g → wt w n = zlen (filter (λ r, sr_last_node r ∈ under (gL g) (gP g) n) q)
     ∧ ∀ m, m ∈ under (gL g) (gP g) n ↔ m ∈ gL g ∧ below c m n)
  ∧ ∃ q', sort_by_dfs_weight children_order c q = Ok q' ∧ q' ≡ₚ q.
Proof.
  split; [|by apply (sort_by_dfs_weight_ok children_order Horder c g H q)]. pose proof (iv_tree Hi) as T.
  destruct (calc_weight_weighed c _ _ _ T children_order Horder (S (rc_counter c)) (rc_root c)
    ((λ l : list (SReq Qc), zlen l) <$> group_by_last_node q) (tr_root_live T)) as (w & Hw & Hwt).
  { rewrite (under_root c _ _ _ T). pose proof (live_size c _ _ _ T). lia. }
  exists w. split; [done|]. intros n Hn. split; [|intros m; by apply (under_below c _ _ _ T)].
  rewrite (Hwt n), (under_root c _ _ _ T), decide_True by done. unfold total_under.
  set (U := under (gL g) (gP g) n). set (q1 := filter _ q).
  assert (Hg : ∀ m, m ∈ U → filter (λ r, sr_last_node r = m) q1 = filter (λ r, sr_last_node r = m) q).
  { intros m Hm. unfold q1. rewrite list_filter_filter. apply filter_ext_list. intros r _. split; [tauto|]. by intros ->. }
  assert (Hperm : concat ((λ m, filter (λ r, sr_last_node r = m) q1) <$> elements U) ≡ₚ q1).
  { apply group_Permutation; [apply NoDup_elements|]. apply Forall_forall. intros r Hr. apply elem_of_elements.
    by apply list_elem_of_filter in Hr as []. }
  unfold zlen at 2. rewrite <- (Permutation_length Hperm). clear Hperm.
  assert (Hall : ∀ m, m ∈ elements U → m ∈ U) by (intros m; by rewrite elem_of_elements).
  induction (elements U) as [|m l IH]; [done|]. rewrite !fmap_cons. cbn [concat sumZ]. rewrite length_app, Nat2Z.inj_add.
  rewrite IH by (intros; apply Hall; set_solver). f_equal. rewrite Hg by (apply Hall; set_solver).
  unfold wt. rewrite lookup_fmap. rewrite <- (group_lookup q m). by destruct (group_by_last_node q !! m).
Qed.

End weights.
