(* ===== verification/SchedDemo.v ===== *)
(** * The scheduler on a concrete cache

    A radix cache with page size 2 that holds two prompts, and a waiting queue of two requests, one of
    which shares a prefix with the cache.  The next batch, the policies and preemption are run on it. *)

From S2P Require Import Prelude PyFloat Allocator RadixKey RadixTree RadixInv RadixAcct RadixMatch.
From S2P Require Import RadixProps RadixMemory PrefillAdder PrefillBatch PrefillProps PreemptProps SchedulePolicy PolicyProps.

Definition demo_shuffle (n : nat) (q : list (SReq Qc)) : list (SReq Qc) := q.

Definition demo_order (c : RadixCache) (n : nat) : list nat :=
  match rc_nodes c !! n with
  | Some x => (map_to_list (tn_children x)).*2
  | None => []
  end.

Lemma demo_shuffle_ok n q : demo_shuffle n q ≡ₚ q.
Proof. done. Qed.

Lemma demo_order_ok c n x : rc_nodes c !! n = Some x → demo_order c n ≡ₚ (map_to_list (tn_children x)).*2.
Proof. unfold demo_order. by intros ->. Qed.

Definition demo_req (rid : string) (tokens out : list Z) (max_new priority wait : Z) : SReq Qc :=
  mkSReq rid tokens out None None false false false [] [] 0 (-1) 0 max_new false priority (Qc_ofZ wait) false 0 0 0 0.

Definition demo_memory : RadixMemory := mkRadixMemory demo2 (PagedTokenToKVPoolAllocator_init 80 2 false true).

Definition demo_policy (name : string) : SchedulePolicy :=
  from_ok (mkSchedulePolicy (CacheAgnostic FCFS) false 1 demo0 0)
    (SchedulePolicy_init demo_clock name demo_memory false true).

Definition demo_queue : list (SReq Qc) :=
  [demo_req "b" [5; 5; 5; 5; 5; 5; 5; 5] [] 4 0 1; demo_req "a" [1; 2; 6; 7; 8; 9] [] 4 0 2].

Definition demo_running : list (SReq Qc) := [demo_req "x" [7; 7] [3] 5 0 0; demo_req "y" [8; 8] [4; 4] 6 1 0].

Definition demo_cfg : PrefillConfig := mkPrefillConfig 2 100 (Some 6) false 0 None false 1 8 None.

Definition demo_scheduler : Scheduler Qc RadixMemory SchedulePolicy :=
  mkScheduler demo_queue demo_running false None 1%Qc 8 (demo_policy "lpm") demo_memory.

Lemma demo_memory_ok : ∃ g, radix_state demo_memory (content_of demo2 g) [].
Proof. exact (radix_state_intro demo2 _ (reachable_cache_ok _ _ _ _ _ _ demo2_reachable)). Qed.

Lemma demo_policy_ok name p :
  SchedulePolicy_init demo_clock name demo_memory false true = Ok p → sim_ok (sp_waiting_queue_radix_tree p).
Proof. exact (SchedulePolicy_init_ok demo_clock name demo_memory false true p). Qed.

Definition run_batch (s : Scheduler Qc RadixMemory SchedulePolicy) :=
  get_new_batch_prefill_raw (H0 := radix_memory demo_clock)
    (QueuePolicy0 := schedule_policy demo_clock demo_shuffle demo_order) demo_cfg true s.

(** The request with the cached prefix goes first; the other is cut to the rest of the chunk. *)
Example demo_batch :
  match run_batch demo_scheduler with
  | Ok (Some (l, Some r), s) =>
      (λ r, (sr_rid r, sr_prefix_indices r, sr_extend_input_len r)) <$> l = [("a", [10; 11; 22; 23], 2); ("b", [], 4)]%string
      ∧ sr_rid r = "b"%string ∧ sc_waiting_queue s = []
  | _ => False
  end.
Proof. vm_compute. done. Qed.

Lemma demo_policy_lpm : SchedulePolicy_init demo_clock "lpm" demo_memory false true = Ok (demo_policy "lpm").
Proof. vm_compute. reflexivity. Qed.

#[local] Instance demo_mem : PrefixMemory RadixMemory := radix_memory demo_clock.
#[local] Instance demo_mem_laws : PrefixMemoryLaws RadixMemory := radix_memory_laws demo_clock.
#[local] Instance demo_queue_policy : QueuePolicy Qc RadixMemory SchedulePolicy :=
  schedule_policy demo_clock demo_shuffle demo_order.
#[local] Instance demo_queue_laws : QueuePolicyLaws Qc RadixMemory SchedulePolicy :=
  schedule_policy_laws demo_clock demo_shuffle demo_order demo_shuffle_ok demo_order_ok.

Lemma demo_scheduler_ok g :
  radix_state demo_memory (content_of demo2 g) [] → scheduler_ok demo_cfg demo_scheduler (content_of demo2 g) [].
Proof.
  intros Hm. split; [done|done|exact Hm|exact (rs_enabled _ _ _ Hm)| | | |done].
  - exact (demo_policy_ok "lpm" _ demo_policy_lpm).
  - split; [done|]. apply (bool_decide_unpack _). vm_compute. exact I.
  - apply (bool_decide_unpack _). vm_compute. exact I.
Qed.


Lemma policy_permutes_witness :
  ∃ b q' p' m', SchedulePolicy_calc_priority demo_clock demo_shuffle demo_order (demo_policy "lpm") demo_memory demo_queue
      (Some demo_running) = Ok (b, q', p', m')
    ∧ (∃ perm, perm ≡ₚ demo_queue ∧ Forall2 same_req perm q')
    ∧ (∃ k', radix_state m' k' [])
    ∧ available_size (rm_allocator m') = available_size (rm_allocator demo_memory)
    ∧ rc_evictable_size (rm_cache m') = rc_evictable_size (rm_cache demo_memory).
Proof.
  destruct demo_memory_ok as [g Hm].
  exact (policy_permutes demo_clock demo_shuffle demo_order demo_shuffle_ok demo_order_ok (demo_policy "lpm") demo_memory
    (content_of demo2 g) [] demo_queue (Some demo_running) (demo_policy_ok "lpm" _ demo_policy_lpm) Hm).
Defined.

Lemma lpm_order_witness :
  ∃ q1 q' p' m', SchedulePolicy_calc_priority demo_clock demo_shuffle demo_order (demo_policy "lpm") demo_memory demo_queue
      None = Ok (true, q', p', m') ∧ Forall2 same_req demo_queue q1
    ∧ let dep := list_to_set (sr_rid <$> held_back [] q1) : gset string in
      q' ≡ₚ q1 ∧ StronglySorted (lpm_le dep) q'
      ∧ filter (λ r, sr_rid r ∈ dep) q' = filter (λ r, sr_rid r ∈ dep) q1
      ∧ ∀ n, filter (λ r, (sr_rid r ∉ dep) ∧ zlen (sr_prefix_indices r) = n) q'
             = filter (λ r, (sr_rid r ∉ dep) ∧ zlen (sr_prefix_indices r) = n) q1.
Proof.
  destruct demo_memory_ok as [g Hm].
  apply (lpm_order demo_clock demo_shuffle demo_order (demo_policy "lpm") demo_memory (content_of demo2 g) [] demo_queue None);
    [vm_compute; reflexivity|vm_compute; discriminate|exact (demo_policy_ok "lpm" _ demo_policy_lpm)|exact Hm].
Defined.

Lemma dfs_weights_witness :
  let q := [sr_with (demo_req "a" [1; 2] [] 4 0 2) [] [10; 11] 0 0 (rc_root demo2) 0] in
  ∃ g, ((∃ w, calc_weight demo_order (S (rc_counter demo2)) demo2 (rc_root demo2)
           ((λ l : list (SReq Qc), zlen l) <$> group_by_last_node q) = Ok w
       ∧ ∀ n, n ∈ gL g → wt w n = zlen (filter (λ r, sr_last_node r ∈ under (gL g) (gP g) n) q)
       ∧ ∀ m, m ∈ under (gL g) (gP g) n ↔ m ∈ gL g ∧ below demo2 m n)
    ∧ ∃ q', sort_by_dfs_weight demo_order demo2 q = Ok q' ∧ q' ≡ₚ q).
Proof.
  intros q. destruct demo_memory_ok as [g Hm]. exists g.
  apply (dfs_weights demo_order demo_order_ok demo2 g [] q (rs_inv _ _ _ Hm)).
  apply Forall_singleton. exact (tr_root_live (iv_tree (rs_inv _ _ _ Hm))).
Defined.

(** ** Preemption *)

Definition demo_adder : PrefillAdder Qc RadixMemory :=
  PrefillAdder_init 2 demo_memory (Some demo_running) 1%Qc 100 None 0 0 None false.

(** The urgent request has the smaller priority value; it needs more than is left. *)
Definition demo_urgent : SReq Qc := set_extend_input_len (demo_req "u" [] [] 4 (-1) 3) 75.

Example demo_preempt :
  match preempt_to_schedule demo_adder demo_urgent true with
  | (ok, calls, a) => ok = true ∧ ((λ c, (sr_rid c.1.1, c.1.2, c.2)) <$> calls) = [("y", 1, 1)]%string
  end.
Proof. vm_compute. done. Qed.

Lemma preempt_spec_witness :
  let '(ok, calls, a') := preempt_to_schedule demo_adder demo_urgent true in
  if ok : bool then ∃ victims, victims ≠ [] ∧ preempted demo_adder 1 demo_urgent victims calls a'
  else
    calls = [] ∧ a' = demo_adder
    ∧ let candidates := filter (may_preempt demo_adder 1 demo_urgent) demo_running in
      candidates = []
      ∨ (rem_total_tokens demo_adder + freed demo_adder candidates
         < Qc_ofZ (sr_extend_input_len demo_urgent + clipped_max_new demo_urgent))%Qc.
Proof.
  apply (preempt_spec demo_adder demo_urgent true). apply NoDup_cons. split; [set_solver|apply NoDup_singleton].
Defined.

(** ** Two corner cases of the builder *)

(** The sorted insertion puts an entry larger than all others before the last one. *)
Example insert_before_last :
  (λ s, Qc_eq_bool s.1 (Qc_ofZ 9)) <$> add_req_state 1%Qc (demo_req "z" [1] [] 9 0 0) true [(Qc_ofZ 3, 1); (Qc_ofZ 5, 1)]
  = [false; true; false].
Proof. vm_compute. reflexivity. Qed.

(** With at least as many mixed-in decode tokens as the chunk size, the carried-over request is given a
    negative number of tokens. *)
Example negative_chunk :
  match add_chunked_req (PrefillAdder_init 2 demo_memory (Some demo_running) 1%Qc 100 (Some 2) 3 0 None false)
          (set_extend_input_len (demo_req "c" [1; 2; 3; 4] [] 4 0 0) 4) with
  | Ok (Some r, _) => sr_extend_input_len r = -1
  | _ => False
  end.
Proof. vm_compute. reflexivity. Qed.
