(* ===== verification/DecodeBatch.v ===== *)
(** * The running batch: decoding, retraction and the waiting queue

    Models the decode side of [ScheduleBatch] ([src/python/sglang/srt/managers/schedule_batch.py]:
    [new_tokens_required_next_decode], [check_decode_mem], [release_req], [retract_decode],
    [retract_all], [filter_batch], [merge_batch], [prepare_for_decode], and [Req.reset_for_retract])
    and of the scheduler ([src/python/sglang/srt/managers/scheduler.py]: [update_running_batch],
    [_add_request_to_queue], [_set_or_validate_priority], [_abort_on_queued_limit], the token ratio).

    The memory fields of a request are [Req] of ReqPool; [DReq] adds the fields this code reads or
    writes.  A request is an object: [dr_id] is its identity, and lists of requests that the code
    fills with references are read when they are returned, so they show the final objects.  The
    tensors of a batch are the columns of [RunningBatch], parallel to its requests ([seq_lens_cpu]
    equals [seq_lens]).  Off in the model: disaggregation (its offload copies device memory), sparse
    attention, multimodal and encoder inputs, Mamba states, penalties, the sampling tensors, the
    Halo and SLO gates of the queue, hierarchical caches, metrics and tracing. *)

From S2P Require Import Prelude AllocKernels Allocator RadixKey RadixTree ReqPool ReqCache CacheAlloc PyFloat.

(** ** Requests *)

Record DReq := mkDReq {
  dr_id : nat;
  dr_rid : string;
  dr_max_new_tokens : Z;
  dr_finished : bool;                   (* finished_reason is not None *)
  dr_to_finish : bool;                  (* to_finish is a FINISH_ABORT *)
  dr_input_embeds : bool;               (* input_embeds is not None *)
  dr_return_logprob : bool;
  dr_stream : bool;
  dr_grammar : bool;
  dr_wait_queue_entry_time : Z;
  dr_retraction_count : Z;
  dr_is_retracted : bool;
  dr_retracted_stain : bool;
  dr_extend_input_len : Z;
  dr_extend_logprob_start_len : Z;
  dr_already_computed : Z;
  dr_extend_batch_idx : Z;
  dr_decode_batch_idx : Z;
  dr_req : Req
}.

Definition set_dr_req (q : Req) (r : DReq) : DReq :=
  mkDReq (dr_id r) (dr_rid r) (dr_max_new_tokens r) (dr_finished r) (dr_to_finish r)
    (dr_input_embeds r) (dr_return_logprob r) (dr_stream r) (dr_grammar r)
    (dr_wait_queue_entry_time r) (dr_retraction_count r) (dr_is_retracted r)
    (dr_retracted_stain r) (dr_extend_input_len r) (dr_extend_logprob_start_len r)
    (dr_already_computed r) (dr_extend_batch_idx r) (dr_decode_batch_idx r) q.

Definition set_dr_to_finish (b : bool) (r : DReq) : DReq :=
  mkDReq (dr_id r) (dr_rid r) (dr_max_new_tokens r) (dr_finished r) b
    (dr_input_embeds r) (dr_return_logprob r) (dr_stream r) (dr_grammar r)
    (dr_wait_queue_entry_time r) (dr_retraction_count r) (dr_is_retracted r)
    (dr_retracted_stain r) (dr_extend_input_len r) (dr_extend_logprob_start_len r)
    (dr_already_computed r) (dr_extend_batch_idx r) (dr_decode_batch_idx r) (dr_req r).

Definition set_dr_wait_queue_entry_time (t : Z) (r : DReq) : DReq :=
  mkDReq (dr_id r) (dr_rid r) (dr_max_new_tokens r) (dr_finished r) (dr_to_finish r)
    (dr_input_embeds r) (dr_return_logprob r) (dr_stream r) (dr_grammar r)
    t (dr_retraction_count r) (dr_is_retracted r)
    (dr_retracted_stain r) (dr_extend_input_len r) (dr_extend_logprob_start_len r)
    (dr_already_computed r) (dr_extend_batch_idx r) (dr_decode_batch_idx r) (dr_req r).

Definition set_rq_priority (v : option Z) (r : Req) : Req :=
  mkReq (rq_origin_input_ids r) (rq_output_ids r) (rq_fill_ids r) (rq_extra_key r) v
    (rq_skip_radix_cache_insert r) (rq_reasoning_tokens r) (rq_is_chunked r)
    (rq_kv_committed_len r) (rq_kv_allocated_len r) (rq_kv_committed_freed r)
    (rq_kv_overallocated_freed r) (rq_req_pool_idx r) (rq_prefix_indices r) (rq_last_node r)
    (rq_cache_protected_len r).

(** [reset_for_retract], its memory fields: the request forgets its slots; a request with input
    embeddings also discards what it has generated. *)
Definition reset_memory (discard_output : bool) (r : Req) : Req :=
  mkReq (rq_origin_input_ids r) (if discard_output then [] else rq_output_ids r) (rq_fill_ids r)
    (rq_extra_key r) (rq_priority r) (rq_skip_radix_cache_insert r) (rq_reasoning_tokens r)
    0 0 0 false false (rq_req_pool_idx r) [] None 0.

Definition reset_for_retract (r : DReq) : DReq :=
  mkDReq (dr_id r) (dr_rid r) (dr_max_new_tokens r) (dr_finished r) (dr_to_finish r)
    (dr_input_embeds r) (dr_return_logprob r) (dr_stream r) (dr_grammar r)
    (dr_wait_queue_entry_time r) (dr_retraction_count r + 1) true true 0 0 0 0 0
    (reset_memory (dr_input_embeds r) (dr_req r)).

Definition dr_output_len (r : DReq) : Z := zlen (rq_output_ids (dr_req r)).
Definition dr_input_len (r : DReq) : Z := zlen (rq_origin_input_ids (dr_req r)).

(** ** The batch *)

Record RunningBatch := mkRunningBatch {
  rb_reqs : list DReq;
  rb_req_pool_indices : list Z;
  rb_seq_lens : list Z;
  rb_orig_seq_lens : list Z;
  rb_seq_lens_sum : Z;
  rb_input_ids : option (list Z);
  rb_output_ids : option (list Z);
  rb_out_cache_loc : option (list Z);
  rb_return_logprob : bool;
  rb_top_logprobs_nums : option (list Z);
  rb_token_ids_logprobs : option (list (option (list Z)));
  rb_has_stream : bool;
  rb_has_grammar : bool;
  rb_batch_is_full : bool
}.

Definition set_rb_reqs (l : list DReq) (b : RunningBatch) : RunningBatch :=
  mkRunningBatch l (rb_req_pool_indices b) (rb_seq_lens b) (rb_orig_seq_lens b) (rb_seq_lens_sum b)
    (rb_input_ids b) (rb_output_ids b) (rb_out_cache_loc b) (rb_return_logprob b)
    (rb_top_logprobs_nums b) (rb_token_ids_logprobs b) (rb_has_stream b) (rb_has_grammar b)
    (rb_batch_is_full b).

Definition set_rb_batch_is_full (v : bool) (b : RunningBatch) : RunningBatch :=
  mkRunningBatch (rb_reqs b) (rb_req_pool_indices b) (rb_seq_lens b) (rb_orig_seq_lens b)
    (rb_seq_lens_sum b) (rb_input_ids b) (rb_output_ids b) (rb_out_cache_loc b) (rb_return_logprob b)
    (rb_top_logprobs_nums b) (rb_token_ids_logprobs b) (rb_has_stream b) (rb_has_grammar b) v.

(** What the batch shares with the rest of the scheduler. *)
Record Mem := mkMem {
  me_tree : PrefixCache;
  me_kv : KVPool;
  me_pool : ReqToTokenPool
}.

(** [l[i]] of a Python list or a tensor, for an index that is not negative. *)
Definition item {A} (l : list A) (i : nat) : res A :=
  match l !! i with Some x => Ok x | None => Raise IndexError end.

(** [[l[i] for i in idx]], and [t[idx]] of a tensor. *)
Definition pick {A} (l : list A) (idx : list nat) : res (list A) := res_map (item l) idx.

(** [pick] of a column that may be None; indexing None is a TypeError. *)
Definition pick_opt {A} (l : option (list A)) (idx : list nat) : res (list A) :=
  match l with Some l => pick l idx | None => Raise TypeError end.

(** [filter_batch]: [excluded] are the identities of [chunked_req_to_exclude]. *)
Definition filter_batch (b : RunningBatch) (excluded : list nat) (keep_indices : option (list nat))
    : res RunningBatch :=
  let reqs := rb_reqs b in
  let keep :=
    match keep_indices with
    | Some keep => keep
    | None =>
        List.filter (λ i, match reqs !! i with
                          | Some r => negb (dr_finished r) && bool_decide (dr_id r ∉ excluded)
                          | None => false
                          end) (seq 0 (length reqs))
    end in
  if bool_decide (length keep = 0%nat) then Ok (set_rb_reqs [] b)
  else if bool_decide (length keep = length reqs) then Ok b
  else
    kept ← pick reqs keep;
    req_pool_indices ← pick (rb_req_pool_indices b) keep;
    seq_lens ← pick (rb_seq_lens b) keep;
    orig_seq_lens ← pick (rb_orig_seq_lens b) keep;
    output_ids ← match rb_output_ids b with
                 | Some o => o ← pick o keep; Ok (Some o)
                 | None => Ok None
                 end;
    let return_logprob := existsb dr_return_logprob kept in
    '(tops, tids) ←
      (if return_logprob then
         tops ← pick_opt (rb_top_logprobs_nums b) keep;
         tids ← pick_opt (rb_token_ids_logprobs b) keep;
         Ok (Some tops, Some tids)
       else Ok (None, None));
    Ok (mkRunningBatch kept req_pool_indices seq_lens orig_seq_lens (sumZ seq_lens)
          (rb_input_ids b) output_ids None return_logprob tops tids
          (existsb dr_stream kept) (existsb dr_grammar kept) (rb_batch_is_full b)).

(** [l.extend(k)] of a list that may be None. *)
Definition extend_opt {A} (l : option (list A)) (k : list A) : res (option (list A)) :=
  match l with Some l => Ok (Some (l ++ k)) | None => Raise AttributeError end.

(** [merge_batch]: the columns of [other] follow those of [b]. *)
Definition merge_batch (b other : RunningBatch) : res RunningBatch :=
  output_ids ←
    match rb_output_ids b, rb_output_ids other with
    | Some o, Some o' => Ok (Some (o ++ o'))
    | Some _, None => Raise TypeError
    | None, _ => Ok None
    end;
  '(tops, tids) ←
    match rb_return_logprob b, rb_return_logprob other with
    | true, true =>
        tops' ← match rb_top_logprobs_nums other with Some l => Ok l | None => Raise TypeError end;
        tops ← extend_opt (rb_top_logprobs_nums b) tops';
        tids' ← match rb_token_ids_logprobs other with Some l => Ok l | None => Raise TypeError end;
        tids ← extend_opt (rb_token_ids_logprobs b) tids';
        Ok (tops, tids)
    | true, false =>
        tops ← extend_opt (rb_top_logprobs_nums b) (replicate (length (rb_reqs other)) 0);
        tids ← extend_opt (rb_token_ids_logprobs b) (replicate (length (rb_reqs other)) None);
        Ok (tops, tids)
    | false, true =>
        tops' ← match rb_top_logprobs_nums other with Some l => Ok l | None => Raise TypeError end;
        tids' ← match rb_token_ids_logprobs other with Some l => Ok l | None => Raise TypeError end;
        Ok (Some (replicate (length (rb_reqs b)) 0 ++ tops'),
            Some (replicate (length (rb_reqs b)) None ++ tids'))
    | false, false => Ok (rb_top_logprobs_nums b, rb_token_ids_logprobs b)
    end;
  Ok (mkRunningBatch (rb_reqs b ++ rb_reqs other)
        (rb_req_pool_indices b ++ rb_req_pool_indices other) (rb_seq_lens b ++ rb_seq_lens other)
        (rb_orig_seq_lens b ++ rb_orig_seq_lens other) (rb_seq_lens_sum b + rb_seq_lens_sum other)
        (rb_input_ids b) output_ids None (rb_return_logprob b || rb_return_logprob other) tops tids
        (rb_has_stream b || rb_has_stream other) (rb_has_grammar b || rb_has_grammar other)
        (rb_batch_is_full b)).

(** ** Memory of the next decode step *)

(** The speculative-decoding arguments and the overlap mode. *)
Record SpecArgs := mkSpecArgs {
  sp_num_steps : option Z;
  sp_eagle_topk : option Z;
  sp_num_draft_tokens : Z;
  sp_enable_overlap : bool;
  sp_supports_v2 : bool
}.

(** [x or 1] *)
Definition or_1 (x : option Z) : Z :=
  match x with Some z => if bool_decide (z = 0) then 1 else z | None => 1 end.

Section batch.
Context (monotonic : nat → Z) `{Heapq} (sa : ServerArgs) (sp : SpecArgs).

Definition spec_none : bool := bool_decide (sa_speculative_algorithm sa = None).

Definition is_spec_v2 : res bool :=
  let ret := sp_enable_overlap sp && negb spec_none in
  _ ← py_assert (negb ret || sp_supports_v2 sp);
  Ok ret.

Definition get_alloc_len_per_decode : res Z :=
  if spec_none then Ok 1
  else
    let spec_steps := or_1 (sp_num_steps sp) in
    let spec_topk := or_1 (sp_eagle_topk sp) in
    if bool_decide (sa_page_size sa = 1) || bool_decide (spec_topk = 1)
    then Ok (Z.max (spec_steps * spec_topk) (sp_num_draft_tokens sp))
    else Raise NotImplementedError.

Definition new_tokens_spec_v2 (requests : list DReq) (page_size : Z) : res Z :=
  alloc_len ← get_alloc_len_per_decode;
  Ok (foldl (λ total r,
    let q := dr_req r in
    let x := Z.max 0 (rq_kv_committed_len q + 2 * alloc_len - rq_kv_allocated_len q) in
    let cur := rq_kv_allocated_len q in
    let nxt := cur + x in
    total + (ceil_align nxt page_size - ceil_align cur page_size)) 0 requests).

(** [new_tokens_required_next_decode] of the requests it selects. *)
Definition new_tokens_required_next_decode (page_size : Z) (requests : list DReq) : res Z :=
  if spec_none then
    let new_pages := zlen (List.filter (λ r, bool_decide (rq_kv_committed_len (dr_req r) mod page_size = 0))
                             requests) in
    Ok (new_pages * page_size)
  else
    v2 ← is_spec_v2;
    if v2 : bool then new_tokens_spec_v2 requests page_size
    else
      let len_per_topk := or_1 (sp_num_steps sp) in
      let spec_topk := or_1 (sp_eagle_topk sp) in
      let spec_tokens := sp_num_draft_tokens sp in
      let '(len_per_topk, spec_tokens) :=
        if bool_decide (1 < page_size) && bool_decide (1 < spec_topk)
        then (ceil_align (len_per_topk + page_size) page_size, ceil_align spec_tokens page_size)
        else if bool_decide (1 < page_size)
        then (ceil_align len_per_topk page_size, ceil_align spec_tokens page_size)
        else (len_per_topk, spec_tokens) in
      Ok (Z.max (len_per_topk * spec_topk) spec_tokens * zlen requests).

Definition check_decode_mem (b : RunningBatch) (m : Mem) (selected_indices : option (list nat))
    : res (bool * Mem) :=
  requests ← match selected_indices with
             | None => Ok (rb_reqs b)
             | Some idx => pick (rb_reqs b) idx
             end;
  num_tokens ← new_tokens_required_next_decode (pool_page_size (me_kv m)) requests;
  '(t, k) ← evict_from_tree_cache (Some (me_tree m)) (me_kv m) num_tokens;
  Ok (bool_decide (num_tokens ≤ pool_available_size k), mkMem (default (me_tree m) t) k (me_pool m)).

(** ** Retraction *)

Definition SGLANG_RETRACT_DECODE_STEPS : Z := 20.

Definition release_req (b : RunningBatch) (m : Mem) (idx : nat) (remaing_req_count : Z)
    : res (RunningBatch * Mem) :=
  r ← item (rb_reqs b) idx;
  '(t, k, p, q) ← release_kv_cache monotonic sa (me_tree m) (me_kv m) (me_pool m) (dr_req r) false;
  '(t', k) ← evict_from_tree_cache (Some t) k (remaing_req_count * SGLANG_RETRACT_DECODE_STEPS);
  Ok (set_rb_reqs (<[idx := reset_for_retract (set_dr_req q r)]> (rb_reqs b)) b,
      mkMem (default t t') k p).

(** The loop of [retract_all]. *)
Fixpoint release_all (b : RunningBatch) (m : Mem) (idx : list nat) : res (RunningBatch * Mem) :=
  match idx with
  | [] => Ok (b, m)
  | i :: rest =>
      '(b, m) ← release_req b m i (zlen (rb_reqs b) - Z.of_nat i);
      release_all b m rest
  end.

(** The retracted requests, the batch, the memory. *)
Definition retract_all (b : RunningBatch) (m : Mem) : res (list DReq * RunningBatch * Mem) :=
  '(b, m) ← release_all b m (seq 0 (length (rb_reqs b)));
  let retracted := rb_reqs b in
  b ← filter_batch b (map dr_id retracted) None;
  Ok (retracted, b, m).

(** The reversed order of the sort key [(len(output_ids), -len(origin_input_ids))]. *)
Definition retract_key (r : DReq) : Z * Z := (dr_output_len r, - dr_input_len r).

Definition key_ge (x y : (Z * Z) * nat) : Prop :=
  y.1.1 < x.1.1 ∨ x.1.1 = y.1.1 ∧ y.1.2 ≤ x.1.2.

#[export] Instance key_ge_dec : RelDecision key_ge.
Proof. intros x y. unfold key_ge. apply _. Defined.

Definition sort_indices (reqs : list DReq) : list nat :=
  let indices := seq 0 (length reqs) in
  if spec_none then
    map snd (py_sort key_ge (zip (map retract_key reqs) indices))
  else indices.

(** [l.pop()] *)
Definition pop {A} (l : list A) : res (A * list A) :=
  match last l with Some x => Ok (x, take (length l - 1) l) | None => Raise IndexError end.

Fixpoint retract_loop (fuel : nat) (first_iter : bool) (b : RunningBatch) (m : Mem)
    (sorted_indices retracted : list nat) : res (list nat * list nat * RunningBatch * Mem) :=
  match fuel with
  | O => Raise LoopBound
  | S fuel' =>
      '(go, m) ← (if first_iter then Ok (true, m)
                  else '(ok, m) ← check_decode_mem b m (Some sorted_indices); Ok (negb ok, m));
      if negb go || bool_decide (length sorted_indices = 1%nat)
      then Ok (sorted_indices, retracted, b, m)
      else
        '(idx, sorted_indices) ← pop sorted_indices;
        '(b, m) ← release_req b m idx (zlen sorted_indices);
        retract_loop fuel' false b m sorted_indices (retracted ++ [idx])
  end.

(** Even the last remaining request does not fit: it is aborted. *)
Definition abort_last (b : RunningBatch) (m : Mem) (sorted_indices : list nat)
    : res (list nat * list nat * RunningBatch * Mem) :=
  if bool_decide (length sorted_indices ≤ 1)%nat then
    '(ok, m) ← check_decode_mem b m (Some sorted_indices);
    if ok : bool then Ok (sorted_indices, [], b, m)
    else
      '(last_idx, sorted_indices) ← pop sorted_indices;
      r ← item (rb_reqs b) last_idx;
      let b := set_rb_reqs (<[last_idx := set_dr_to_finish true r]> (rb_reqs b)) b in
      '(b, m) ← release_req b m last_idx 0;
      Ok (sorted_indices, [last_idx], b, m)
  else Ok (sorted_indices, [], b, m).

Definition new_estimate_ratio {F : Type} `{PyNum F} (reqs : list DReq) : F :=
  let total_decoded_tokens := sumZ (map dr_output_len reqs) in
  let total_max_new_tokens := sumZ (map dr_max_new_tokens reqs) in
  fmin (fofZ 1) (fdiv (fofZ (total_decoded_tokens + SGLANG_RETRACT_DECODE_STEPS * zlen reqs))
                      (fofZ (total_max_new_tokens + 1))).

(** The retracted requests, the new ratio, the aborted requests, the batch, the memory. *)
Definition retract_decode {F : Type} `{PyNum F} (b : RunningBatch) (m : Mem)
    : res (list DReq * F * list DReq * RunningBatch * Mem) :=
  let sorted_indices := sort_indices (rb_reqs b) in
  '(sorted_indices, retracted, b, m) ← retract_loop (S (length (rb_reqs b))) true b m sorted_indices [];
  '(sorted_indices, aborted, b, m) ← abort_last b m sorted_indices;
  retracted_reqs ← pick (rb_reqs b) retracted;
  reqs_to_abort ← pick (rb_reqs b) aborted;
  b ← filter_batch b [] (Some sorted_indices);
  Ok (retracted_reqs, new_estimate_ratio (rb_reqs b), reqs_to_abort, b, m).

(** ** The decode step *)

(** The batch as [alloc_for_decode] reads it. *)
Definition decode_view (b : RunningBatch) : ScheduleBatch :=
  mkScheduleBatch (map dr_req (rb_reqs b)) [] [] 0 (rb_seq_lens b) (rb_req_pool_indices b) None.

Definition count_decode (r : DReq) : DReq :=
  let q := dr_req r in
  mkDReq (dr_id r) (dr_rid r) (dr_max_new_tokens r) (dr_finished r) (dr_to_finish r)
    (dr_input_embeds r) (dr_return_logprob r) (dr_stream r) (dr_grammar r)
    (dr_wait_queue_entry_time r) (dr_retraction_count r) (dr_is_retracted r)
    (dr_retracted_stain r) (dr_extend_input_len r) (dr_extend_logprob_start_len r)
    (dr_already_computed r) (dr_extend_batch_idx r) (dr_decode_batch_idx r + 1)
    (set_rq_kv_allocated_len (rq_kv_allocated_len q + 1)
       (set_rq_kv_committed_len (rq_kv_committed_len q + 1) q)).

(** [prepare_for_decode] without speculative decoding. *)
Definition prepare_for_decode (b : RunningBatch) (m : Mem) (uninit : list Z) : res (RunningBatch * Mem) :=
  '(out_cache_loc, t, k, p) ← alloc_for_decode (decode_view b) 1 (me_tree m) (me_kv m) (me_pool m) uninit;
  Ok (mkRunningBatch (map count_decode (rb_reqs b)) (rb_req_pool_indices b)
        (map (λ s, s + 1) (rb_seq_lens b)) (map (λ s, s + 1) (rb_orig_seq_lens b))
        (rb_seq_lens_sum b + zlen (rb_reqs b)) (rb_output_ids b) None (Some out_cache_loc)
        (rb_return_logprob b) (rb_top_logprobs_nums b) (rb_token_ids_logprobs b)
        (rb_has_stream b) (rb_has_grammar b) (rb_batch_is_full b),
      mkMem t k p).

End batch.

(** ** The waiting queue *)

Record QueueConfig := mkQueueConfig {
  qc_enable_priority_scheduling : bool;
  qc_low_priority_values_first : bool;
  qc_abort_on_priority_when_disabled : bool;
  qc_max_queued_requests : option Z
}.

Definition sys_maxsize : Z := 2 ^ 63 - 1.

Section queue.
Context (qc : QueueConfig).

Definition direction : Z := if qc_low_priority_values_first qc then 1 else -1.

(** [direction * priority]; a priority of None is a TypeError. *)
Definition rank (r : DReq) : res Z :=
  match rq_priority (dr_req r) with Some p => Ok (direction * p) | None => Raise TypeError end.

(** The request with its priority, or None when it is refused. *)
Definition set_or_validate_priority (r : DReq) : option DReq :=
  if qc_enable_priority_scheduling qc && bool_decide (rq_priority (dr_req r) = None) then
    Some (set_dr_req (set_rq_priority
      (Some (if qc_low_priority_values_first qc then sys_maxsize else - sys_maxsize - 1)) (dr_req r)) r)
  else if negb (qc_enable_priority_scheduling qc) && negb (bool_decide (rq_priority (dr_req r) = None))
          && qc_abort_on_priority_when_disabled qc
  then None else Some r.

(** [max(enumerate(queue), key=key_fn)]: the first of the greatest keys. *)
Fixpoint least_preferred (i : nat) (queue : list DReq) (best : nat * DReq * (Z * Z))
    : res (nat * DReq) :=
  match queue with
  | [] => Ok best.1
  | r :: rest =>
      k ← rank r;
      let t := dr_wait_queue_entry_time r in
      let bk := best.2 in
      let better := bool_decide (bk.1 < k ∨ k = bk.1 ∧ bk.2 < t) in
      least_preferred (S i) rest (if better then (i, r, (k, t)) else best)
  end.

Definition max_queued (queue : list DReq) : res (nat * DReq) :=
  match queue with
  | [] => Raise ValueError
  | r :: rest => k ← rank r; least_preferred 1 rest (0%nat, r, (k, dr_wait_queue_entry_time r))
  end.

(** Whether the incoming request is aborted, the aborted requests, and the queue. *)
Definition abort_on_queued_limit (queue : list DReq) (r : DReq) : res (bool * list DReq * list DReq) :=
  match qc_max_queued_requests qc with
  | None => Ok (false, [], queue)
  | Some limit =>
      if bool_decide (zlen queue + 1 ≤ limit) then Ok (false, [], queue)
      else
        '(victim, queue) ←
          (if qc_enable_priority_scheduling qc then
             '(idx, candidate) ← max_queued queue;
             k ← rank r;
             kc ← rank candidate;
             if bool_decide (k < kc) then Ok (candidate, delete idx queue) else Ok (r, queue)
           else Ok (r, queue));
        Ok (bool_decide (dr_rid victim = dr_rid r), [victim], queue)
  end.

(** [_add_request_to_queue] of a server that is not disaggregated: the queue and the aborted
    requests.  [now] is the entry time. *)
Definition add_request_to_queue (now : Z) (queue : list DReq) (r : DReq) : res (list DReq * list DReq) :=
  match set_or_validate_priority r with
  | None => Ok (queue, [r])
  | Some r =>
      '(aborted, victims, queue) ← abort_on_queued_limit queue r;
      if aborted : bool then Ok (queue, victims)
      else Ok (queue ++ [set_dr_wait_queue_entry_time now r], victims)
  end.

Fixpoint requeue (now : nat → Z) (queue : list DReq) (reqs : list DReq) : res (list DReq * list DReq) :=
  match reqs with
  | [] => Ok (queue, [])
  | r :: rest =>
      '(queue, out) ← add_request_to_queue (now 0%nat) queue r;
      '(queue, out') ← requeue (λ i, now (S i)) queue rest;
      Ok (queue, out ++ out')
  end.

End queue.

(** ** The scheduler *)

Section scheduler.
Context (monotonic : nat → Z) `{Heapq} (sa : ServerArgs) (sp : SpecArgs) (qc : QueueConfig).
Context {F : Type} `{PyNum F}.

(** [send_to_tokenizer.send_output(AbortReq(...))]: the requests a message was sent for, in order. *)
Record DecodeScheduler := mkDecodeScheduler {
  ds_waiting_queue : list DReq;
  ds_new_token_ratio : F;
  ds_new_token_ratio_decay : F;
  ds_min_new_token_ratio : F;
  ds_num_retracted_reqs : Z;
  ds_sent_aborts : list DReq;
  ds_mem : Mem
}.

(** [update_running_batch] without speculative decoding.  [test_retract] is the retraction test mode
    of this step; [uninit] the uninitialised memory of the allocation. *)
Definition update_running_batch (test_retract : bool) (now : nat → Z) (uninit : list Z)
    (b : RunningBatch) (s : DecodeScheduler) : res (RunningBatch * DecodeScheduler) :=
  let initial_bs := zlen (rb_reqs b) in
  b ← filter_batch b [] None;
  if bool_decide (length (rb_reqs b) = 0%nat) then Ok (set_rb_batch_is_full false b, s)
  else
    '(ok, m) ← check_decode_mem sa sp b (ds_mem s) None;
    '(b, s) ←
      (if negb ok || test_retract then
         '(retracted, ratio, aborted, b, m) ← retract_decode monotonic sa sp b m;
         '(queue, refused) ← requeue qc now (ds_waiting_queue s) retracted;
         Ok (b, mkDecodeScheduler queue ratio (ds_new_token_ratio_decay s) (ds_min_new_token_ratio s)
                  (zlen retracted) (ds_sent_aborts s ++ aborted ++ refused) m)
       else
         Ok (b, mkDecodeScheduler (ds_waiting_queue s)
                  (fmax (fsub (ds_new_token_ratio s) (ds_new_token_ratio_decay s)) (ds_min_new_token_ratio s))
                  (ds_new_token_ratio_decay s) (ds_min_new_token_ratio s) (ds_num_retracted_reqs s)
                  (ds_sent_aborts s) m));
    let b := if bool_decide (zlen (rb_reqs b) < initial_bs) then set_rb_batch_is_full false b else b in
    if bool_decide (length (rb_reqs b) = 0%nat) then Ok (b, s)
    else
      '(b, m) ← prepare_for_decode b (ds_mem s) uninit;
      Ok (b, mkDecodeScheduler (ds_waiting_queue s) (ds_new_token_ratio s) (ds_new_token_ratio_decay s)
               (ds_min_new_token_ratio s) (ds_num_retracted_reqs s) (ds_sent_aborts s) m).

End scheduler.
Arguments DecodeScheduler F : clear implicits.
