(* ===== verification/DecodeMem.v ===== *)
(** * The memory of a running batch

    The invariant [batch_mem]: the requests of a batch, the radix tree, the token allocator and the
    request table own disjoint slots, rows and locks that together are all there are.  Releasing a
    request without inserting it into the tree, and evicting from the tree, preserve it for the
    requests that stay.  The configuration is the one of a server without speculative decoding and
    with pages of one token. *)

From S2P Require Import Prelude AllocKernels Allocator RadixKey RadixTree RadixInv RadixAcct RadixMatch RadixLock.
From S2P Require Import RadixEvict RadixProps ReqPool ReqCache CacheAlloc DecodeBatch.

(** ** What a request holds *)

(** The row of a request in the table. *)
Definition row_of (p : ReqToTokenPool) (q : Req) : list Z :=
  match pool_row p (rq_req_pool_idx q) with Ok row => row | Raise _ => [] end.

Definition node_of (q : Req) : nat := default 0%nat (rq_last_node q).

(** Its slots outside the tree. *)
Definition private_slots (p : ReqToTokenPool) (q : Req) : list Z :=
  drop (Z.to_nat (rq_cache_protected_len q)) (take (Z.to_nat (rq_kv_committed_len q)) (row_of p q)).

(** Its lock, none on the root. *)
Definition locks_of (c : RadixCache) (q : Req) : list nat := lock c (node_of q) [].

(** The tokens of a request as a key. *)
Definition full_key (q : Req) : RadixKey :=
  mkRadixKey (rq_origin_input_ids q ++ rq_output_ids q) (rq_extra_key q) false.

Record holds (c : RadixCache) (p : ReqToTokenPool) (q : Req) : Prop := {
  ho_row : pool_row p (rq_req_pool_idx q) = Ok (row_of p q);
  ho_node : rq_last_node q = Some (node_of q);
  ho_protected : 0 ≤ rq_cache_protected_len q ≤ rq_kv_committed_len q;
  ho_tokens : rq_kv_committed_len q ≤ zlen (rq_origin_input_ids q ++ rq_output_ids q);
  ho_room : rq_kv_committed_len q ≤ zlen (row_of p q);
  ho_allocated : rq_kv_allocated_len q = rq_kv_committed_len q;
  ho_path : path c (node_of q) (take (Z.to_nat (rq_cache_protected_len q)) (qunits (full_key q)))
                               (take (Z.to_nat (rq_cache_protected_len q)) (row_of p q));
  ho_committed : rq_kv_committed_freed q = false;
  ho_overallocated : rq_kv_overallocated_freed q = false
}.

(** ** The invariant *)

Section batch_mem.
Context {monotonic : nat → Z} {dfi : bool} {policy : string}.
Context (sa : ServerArgs) (Hspec : sa_speculative_algorithm sa = None).
Context (Hstrip : sa_strip_thinking_cache sa = false).
Let reachable := reachable_cache monotonic 1 false dfi policy.

(** [closed] says that no free group of the allocator is open; [width] is the length of a row; [ol], [os] and [orows] are the locks, slots and rows of everybody else. *)
Record batch_mem (closed : bool) (size width : Z) (ol : list nat) (os orows : list Z) (c : RadixCache) (a : Allocator)
    (p : ReqToTokenPool) (held : list nat) (L : gset nat) (reqs : list Req) : Prop := {
  bm_reach : reachable (c, held);
  bm_mode : rc_page_size c = 1 ∧ rc_is_eagle c = false;
  bm_held : held ≡ₚ concat (map (locks_of c) reqs) ++ ol;
  bm_live : live_set c L;
  bm_group : is_not_in_free_group a = closed;
  bm_page : al_page_size a = 1;
  bm_slots : token_inv size (a, tree_slots c L ++ concat (map (private_slots p) reqs) ++ os);
  bm_reqs : Forall (holds c p) reqs;
  bm_rows : rp_free_slots p ++ map row_index reqs ++ orows ≡ₚ seqZ 1 (rp_size p);
  bm_table : Forall (λ row, zlen row = width) (rp_req_to_token p);
  bm_shape : zlen (rp_req_to_token p) = rp_size p + 1 ∧ rp_max_context_len p = width
}.

Lemma unlock_slots c held held' n L :
  reachable (c, held) → unlocks c n held held' → live_set c L →
  ∃ d c', dec_lock_ref c n = Ok (d, c') ∧ reachable (c', held') ∧ config c' = config c
    ∧ (∀ m us vs, path c m us vs ↔ path c' m us vs) ∧ live_set c' L ∧ tree_slots c' L = tree_slots c L.
Proof.
  intros Hr Hu HL. destruct (reach_unlock c held held' n Hr Hu) as (d & c' & Hgo & Hr' & Hcfg & Hp).
  exists d, c'. split_and!; try done.
  - intros m. rewrite (HL m). by setoid_rewrite Hp.
  - apply tree_slots_ext. intros m Hm.
    pose proof (reachable_cache_ok _ _ _ _ _ _ Hr) as ((g & Hi) & Hdis & _). simpl in *.
    destruct Hu as [[-> ->]|HH].
    + unfold dec_lock_ref in Hgo. rewrite Hdis in Hgo. cbn [dec_lock_loop] in Hgo.
      rewrite bool_decide_true in Hgo by done. by inversion Hgo.
    + destruct (dec_lock_ref_ok c g held held' n Hi HH Hdis) as (d' & c'' & Hgo' & _ & _ & _ & Hsh).
      rewrite Hgo in Hgo'. inversion Hgo'; subst d' c''. unfold node_value.
      destruct (rc_nodes c !! m) as [x|] eqn:Ex.
      * destruct (shape_lookup _ _ _ _ Hsh Ex) as (x' & -> & Hx). unfold shape in Hx. congruence.
      * assert (Hn : (shape <$> rc_nodes c') !! m = None) by (rewrite Hsh, lookup_fmap, Ex; done).
        rewrite lookup_fmap in Hn. by destruct (rc_nodes c' !! m).
Qed.

(** The order of the requests does not matter. *)
Lemma batch_mem_perm closed size width ol os orows c a p held L l k :
  l ≡ₚ k → batch_mem closed size width ol os orows c a p held L l → batch_mem closed size width ol os orows c a p held L k.
Proof.
  intros Hp [B1 B2 B3 B4 B5 B6 B7 B8 B9 B10 B11]. split; try done.
  - by rewrite <- Hp.
  - eapply token_inv_perm; [|exact B7]. by rewrite Hp.
  - by rewrite <- Hp.
  - by rewrite <- Hp.
Qed.

(** What a request holds depends on the tree by its path only. *)
Lemma holds_tree c c' p q :
  (∀ us vs, path c (node_of q) us vs → path c' (node_of q) us vs) → holds c p q → holds c' p q.
Proof. intros Hp [H1 H2 H3 H4 H5 H6 H7 H8 H9]. split; auto. Qed.

(** Likewise by its row. *)
Lemma row_of_eq p p' q :
  pool_row p' (rq_req_pool_idx q) = pool_row p (rq_req_pool_idx q) → row_of p' q = row_of p q.
Proof. unfold row_of. by intros ->. Qed.

Lemma holds_pool c p p' q :
  pool_row p' (rq_req_pool_idx q) = pool_row p (rq_req_pool_idx q) → holds c p q → holds c p' q.
Proof.
  intros Hp [H1 H2 H3 H4 H5 H6 H7 H8 H9]. pose proof (row_of_eq p p' q Hp) as Hr.
  split; rewrite ?Hr; try done. by rewrite Hp.
Qed.

Lemma locks_of_config c c' q : config c' = config c → locks_of c' q = locks_of c q.
Proof. intros Hc. inversion Hc as [[C1 C2 C3 C4 C5 C6 C7]]. unfold locks_of, lock. by rewrite C7. Qed.

Lemma map_locks_config c c' l : config c' = config c → map (locks_of c') l = map (locks_of c) l.
Proof. intros Hc. apply map_ext. intros q. by apply locks_of_config. Qed.

Lemma mode_config c c' : config c' = config c → rc_page_size c = 1 ∧ rc_is_eagle c = false →
  rc_page_size c' = 1 ∧ rc_is_eagle c' = false.
Proof. intros Hc. inversion Hc as [[C1 C2 C3 C4 C5 C6 C7]]. by rewrite C2, C4. Qed.

Lemma ceil_align_ge x y : 0 < y → x ≤ ceil_align x y.
Proof.
  intros Hy. unfold ceil_align, ceil_div.
  pose proof (Z.div_mod (x + y - 1) y ltac:(lia)). pose proof (Z.mod_pos_bound (x + y - 1) y Hy). lia.
Qed.

Lemma token_pool_free a v : kv_free (TokenPool a) v = Ok (TokenPool (TokenToKVPoolAllocator_free a v)).
Proof. done. Qed.

Lemma token_free_nil a : TokenToKVPoolAllocator_free a [] = a.
Proof. done. Qed.

(** A request with its over-allocated part already given back and its row returned. *)
Definition released (q : Req) : Req :=
  set_rq_req_pool_idx None (set_rq_kv_overallocated_freed true (set_rq_kv_committed_freed true q)).

(** Releasing a request without inserting it frees its private slots. *)
Lemma release_plain c held held' p a q i L :
  reachable (c, held) → rc_page_size c = 1 ∧ rc_is_eagle c = false → live_set c L →
  holds c p q → rq_req_pool_idx q = Some i → unlocks c (node_of q) held held' →
  ∃ c', release_kv_cache monotonic sa (Radix c) (TokenPool a) p q false
      = Ok (Radix c', TokenPool (TokenToKVPoolAllocator_free a (private_slots p q)),
            set_rp_free_slots (rp_free_slots p ++ [i]) p, released q)
    ∧ reachable (c', held') ∧ config c' = config c
    ∧ (∀ m us vs, path c m us vs ↔ path c' m us vs) ∧ live_set c' L ∧ tree_slots c' L = tree_slots c L.
Proof.
  intros Hr [Hps Heg] HL [H1 H2 [H3 H3'] H4 H5 H6 H7 H8 H9] Hidx Hu.
  destruct (unlock_slots c held held' (node_of q) L Hr Hu HL) as (d & c' & Hdec & Hend).
  exists c'. split; [|done]. pose proof (reachable_cache_ok _ _ _ _ _ _ Hr) as (_ & Hdis & _). simpl in Hdis.
  assert (Hcl : cache_commit_len sa q = rq_kv_committed_len q) by (unfold cache_commit_len; by rewrite Hstrip).
  unfold release_kv_cache. rewrite bool_decide_false by congruence. cbn [andb].
  unfold cache_finished_req, pop_committed_kv_cache. rewrite H8. cbn [negb py_assert mbind res_bind].
  rewrite Hdis, Hcl.
  replace (if rc_disable_finished_insert c then false else false) with false by (by destruct rc_disable_finished_insert).
  cbn [rq_req_pool_idx rq_origin_input_ids rq_output_ids rq_extra_key rq_cache_protected_len
    rq_priority rq_last_node set_rq_kv_committed_freed]. rewrite H1, H2. cbn [mbind res_bind].
  set (ids := _⟨:rq_kv_committed_len q⟩).
  assert (Hids : zlen ids = rq_kv_committed_len q)
    by (unfold ids; rewrite slice_to_take, zlen_take by lia; lia).
  assert (Hkey : ∀ k, page_aligned k (rc_page_size c) = k)
    by (intros k; unfold page_aligned; by rewrite Hps).
  rewrite Hkey. set (key := mkRadixKey ids _ _).
  assert (Hkl : RadixKey_len key = rq_kv_committed_len q) by (unfold RadixKey_len, key; cbn; by rewrite Heg).
  rewrite Hkl, Hids, (slice_to_take (row_of p q)), py_slice_sub by lia.
  rewrite (slice_from_all (take _ _)) by (rewrite zlen_take; lia).
  rewrite take_ge by (rewrite length_drop, length_take; lia). fold (private_slots p q).
  rewrite token_pool_free. cbn [mbind res_bind]. rewrite token_pool_free, token_free_nil. cbn [mbind res_bind].
  rewrite Hdec. cbn [mbind res_bind].
  unfold pop_overallocated_kv_cache. cbn [rq_kv_overallocated_freed set_rq_kv_committed_freed].
  rewrite H9. cbn [negb py_assert mbind res_bind].
  change (cache_commit_len sa (set_rq_kv_committed_freed true q)) with (cache_commit_len sa q).
  change (rq_kv_allocated_len (set_rq_kv_committed_freed true q)) with (rq_kv_allocated_len q).
  rewrite Hcl, H6, Hspec, Hstrip, (bool_decide_true (None = None)) by done.
  cbn [andb negb]. rewrite (bool_decide_true (_ = rq_kv_committed_len q)) by done. cbn [py_assert mbind res_bind].
  rewrite bool_decide_false.
  2:{ case_bool_decide; [|lia]. pose proof (ceil_align_ge (rq_kv_committed_len q) (sa_page_size sa)). lia. }
  unfold ReqToTokenPool_free. cbn [mbind res_bind rq_req_pool_idx set_rq_kv_overallocated_freed set_rq_kv_committed_freed].
  by rewrite Hidx.
Qed.

(** The release of a request takes its lock out of the held ones. *)
Lemma locks_unlock c held q l :
  held ≡ₚ locks_of c q ++ l → unlocks c (node_of q) held (if bool_decide (node_of q = rc_root c) then held else l).
Proof.
  unfold locks_of, lock, unlocks. case_bool_decide; intros Hh; [by left|by right].
Qed.

Lemma batch_mem_release size width ol os orows c a p held L q i l :
  batch_mem true size width ol os orows c a p held L (q :: l) → rq_req_pool_idx q = Some i →
  ∃ c' held', let a' := TokenToKVPoolAllocator_free a (private_slots p q) in
    let p' := set_rp_free_slots (rp_free_slots p ++ [i]) p in
    release_kv_cache monotonic sa (Radix c) (TokenPool a) p q false
    = Ok (Radix c', TokenPool a', p', released q)
    ∧ batch_mem true size width ol os orows c' a' p' held' L l.
Proof.
  intros [B1 B2 B3 B4 B5 B6 B7 B8 B9 B10 B11] Hidx. inversion B8 as [|? ? Hq Hl]; subst.
  cbn [map concat] in B3. rewrite <- app_assoc in B3. pose proof (locks_unlock _ _ _ _ B3) as Hu.
  destruct (release_plain c held _ p a q i L B1 B2 B4 Hq Hidx Hu) as (c' & Hgo & Hr & Hcfg & Hp & HL & Hts).
  exists c', (if bool_decide (node_of q = rc_root c) then held else concat (map (locks_of c) l) ++ ol).
  intros a' p'. split; [exact Hgo|]. destruct (token_free_available a (private_slots p q) B5) as [_ Hg].
  split; try done.
  - by eapply mode_config.
  - rewrite (map_locks_config c c') by done. case_bool_decide as E; [|done].
    rewrite B3. unfold locks_of at 1, lock. rewrite bool_decide_true by done. done.
  - unfold a'. by rewrite token_free_page_size.
  - rewrite Hts. eapply token_free_inv; [|exact B7]. cbn [map concat].
    change (map (private_slots p') l) with (map (private_slots p) l). solve_Permutation.
  - eapply Forall_impl; [exact Hl|]. intros r Hr'.
    eapply holds_pool; [|eapply holds_tree; [|exact Hr']]; [done|]. intros us vs. apply Hp.
  - cbn [map] in B9. unfold row_index at 1 in B9. rewrite Hidx in B9. simpl in *. rewrite <- B9.
    by rewrite <- (app_assoc (rp_free_slots p)).
Qed.

(** Eviction keeps what the requests hold: their nodes are locked. *)
Lemma batch_mem_evict size width ol os orows c a p held L l n :
  batch_mem true size width ol os orows c a p held L l →
  ∃ c' a' L', evict_from_tree_cache (Some (Radix c)) (TokenPool a) n = Ok (Some (Radix c'), TokenPool a')
    ∧ batch_mem true size width ol os orows c' a' p held L' l
    ∧ TokenToKVPoolAllocator_available_size a' + rc_evictable_size c'
      = TokenToKVPoolAllocator_available_size a + rc_evictable_size c
    ∧ (n ≤ TokenToKVPoolAllocator_available_size a' ∨ rc_evictable_size c' = 0)
    ∧ config c' = config c ∧ ∀ m us vs, m ∈ rc_root c :: held → path c m us vs → path c' m us vs.
Proof.
  intros [B1 B2 B3 B4 B5 B6 B7 B8 B9 B10 B11].
  destruct (evict_for_alloc c held L size a _ n B1 B4 B5 B7)
    as (c' & a' & L' & Hev & Hr & HL & Hsub & Hheld & Hg & Hi & Hsum & Hen & _ & Hpg & Hcfg & Hpath).
  assert (Hkeep : ∀ m us vs, m ∈ rc_root c :: held → path c m us vs → path c' m us vs).
  { intros m us vs Hm. apply Hpath. apply elem_of_cons in Hm as [->|Hm]; [|by apply Hheld, elem_of_list_to_set].
    apply HL. replace (rc_root c) with (rc_root c') by (by inversion Hcfg). eexists _, _. constructor. }
  exists c', a', L'. split; [done|]. split; [|done]. split; try done.
  - by eapply mode_config.
  - by rewrite (map_locks_config c c').
  - congruence.
  - apply Forall_forall. intros q Hq. pose proof (proj1 (Forall_forall _ _) B8 q Hq) as Hh.
    eapply holds_tree; [|exact Hh]. intros us vs. apply Hkeep.
    destruct (decide (node_of q = rc_root c)) as [E|E]; [rewrite E; by left|].
    right. rewrite B3, elem_of_app. left.
    apply list_elem_of_In, in_concat. exists (locks_of c q). split; [by apply in_map, list_elem_of_In|].
    unfold locks_of, lock. rewrite bool_decide_false by done. by left.
Qed.

End batch_mem.
