(* ===== verification/HandOverMem.v ===== *)
(** * Handing a request of a batch over to the tree

    [release_kv_cache] with insertion, for a finished request, and [cache_unfinished_req], for a request
    whose prompt was computed, keep the memory invariant of DecodeMem: the slots of the request are
    the tree's or free afterwards, and nobody else's slots, rows and locks change.  Unlike
    retraction this inserts into the tree, inside a free group or not. *)

From S2P Require Import Prelude AllocKernels Allocator RadixKey RadixTree RadixInv RadixAcct RadixMatch RadixLock.
From S2P Require Import RadixEvict RadixProps RadixGrow ReqPool ReqCache CacheAlloc DecodeBatch DecodeMem.

(** ** The slots of the tree *)

Lemma path_slots c L n us vs s :
  live_set c L → path c n us vs → s ∈ vs → s ∈ tree_slots c L.
Proof.
  intros HL. induction 1 as [|n us vs x ck m y v Hp IH Hx Hm Hy Hv]; [by intros ?%not_elem_of_nil|].
  intros [Hs|Hs]%elem_of_app; [by apply IH|]. unfold tree_slots. apply list_elem_of_bind. exists m.
  split; [unfold node_value; by rewrite Hy, Hv|]. apply elem_of_elements, HL. eexists _, _.
  by eapply path_child.
Qed.

Lemma in_tree_slots c H L s : cache_wf c H → live_set c L → in_tree c s ↔ s ∈ tree_slots c L.
Proof.
  intros [g Hi] HL. split.
  - intros (us & vs & (n & us' & vs' & Hp & _ & ->) & Hs). eapply path_slots; [done|done|].
    apply elem_of_take in Hs as (i & Hi' & _). by eapply list_elem_of_lookup_2.
  - unfold tree_slots. intros (n & Hs & Hn)%list_elem_of_bind. apply elem_of_elements in Hn.
    apply HL in Hn as (us & vs & Hp).
    pose proof (proj1 (path_live _ _ _ _ _ _ _ (iv_tree Hi)) Hp) as (Hn & HP & HV). exists us, vs. split.
    + exists n, us, vs. split_and!; [done..|]. rewrite take_ge; [done|].
      rewrite HP, HV. pose proof (P_V_length _ _ _ _ (iv_tree Hi) n Hn) as E. unfold zlen in *. lia.
    + unfold node_value in Hs. destruct (decide (n = rc_root c)) as [->|Hne].
      { destruct (tr_root (iv_tree Hi)) as (x & Hx & _ & Hv & _). rewrite Hx, Hv in Hs. by apply not_elem_of_nil in Hs. }
      destruct (tr_node (iv_tree Hi) n Hn Hne) as (x & p & px & v & Hx & Hok).
      rewrite Hx, (no_value Hok) in Hs. rewrite HV, (no_V Hok). simpl in Hs. set_solver.
Qed.

(** Two lists with the same elements, of which one has no duplicates and the other is not longer. *)
Lemma perm_by_elements {A} (l k : list A) :
  NoDup l → (∀ x, x ∈ l ↔ x ∈ k) → (length k ≤ length l)%nat → l ≡ₚ k.
Proof.
  intros Hl He Hlen. apply NoDup_ListNoDup in Hl.
  apply (NoDup_Permutation_bis Hl Hlen). intros x Hx. apply list_elem_of_In, He, list_elem_of_In. done.
Qed.

(** The slots of a request that was settled are those of the tree that it added and those it freed. *)
Lemma settled_slots c c' H H' L L' shared priv freed rest :
  cache_wf c H → cache_wf c' H' → live_set c L → live_set c' L' →
  settled c c' (shared ++ priv) freed → (∀ s, s ∈ shared → in_tree c s) →
  tree_total c' + zlen freed = tree_total c + zlen priv →
  NoDup (tree_slots c L ++ priv ++ rest) →
  tree_slots c L ++ priv ++ rest ≡ₚ concat [freed] ++ tree_slots c' L' ++ rest.
Proof.
  intros Hw Hw' HL HL' [S1 S2 S3] Hsh Ht Hnd. cbn [concat]. rewrite app_nil_r.
  trans ((tree_slots c L ++ priv) ++ rest); [by rewrite app_assoc|].
  trans ((tree_slots c' L' ++ freed) ++ rest); [|solve_Permutation]. f_equiv.
  rewrite app_assoc in Hnd. apply NoDup_app in Hnd as (Hnd & _ & _).
  assert (T : ∀ d K M, cache_wf d K → live_set d M → tree_total d = zlen (tree_slots d M)).
  { intros d K M [g Hi] HM.
    assert (M = gL g) as -> by (eapply live_set_unique; [exact HM|by eapply live_of_inv]). by eapply total_slots. }
  rewrite (T c H L Hw HL), (T c' H' L' Hw' HL') in Ht.
  apply perm_by_elements; [done| |rewrite !length_app; unfold zlen in *; lia].
  intros s. rewrite !elem_of_app. pose proof (S1 s) as Hs. rewrite elem_of_app in Hs.
  pose proof (in_tree_slots c H L s Hw HL) as E1. pose proof (in_tree_slots c' H' L' s Hw' HL') as E2.
  specialize (Hsh s). tauto.
Qed.

(** ** Requests and their keys *)

Section plain.
Context (c : RadixCache) (Hmode : rc_page_size c = 1 ∧ rc_is_eagle c = false).

Lemma plain_key q ids : req_key c q ids = mkRadixKey ids (rq_extra_key q) false.
Proof. destruct Hmode as [Hps He]. unfold req_key, page_aligned. by rewrite Hps, He. Qed.

Lemma plain_key_len q ids : RadixKey_len (req_key c q ids) = zlen ids.
Proof. by rewrite plain_key. Qed.

Lemma plain_qunits q ids : qunits (req_key c q ids) = map (pair (rq_extra_key q)) (map (λ t, [t]) ids).
Proof. rewrite plain_key. done. Qed.

End plain.

Lemma take_map_pair {B C} (f : B → C) n (l : list B) : take n (map f l) = map f (take n l).
Proof. symmetry. apply (fmap_take f). Qed.

(** Freeing keeps the accounting, inside a free group too. *)
Lemma free_all_keeps size a freed rest a' :
  token_inv size (a, concat freed ++ rest) → free_all a freed = Ok a' →
  token_inv size (a', rest) ∧ is_not_in_free_group a' = is_not_in_free_group a ∧ al_page_size a' = al_page_size a.
Proof.
  revert a. induction freed as [|v freed IH]; intros a Hi Hf; cbn [free_all concat] in *; [by inversion Hf; subst|].
  cbn [kv_free token_kv mbind res_bind] in Hf. rewrite <- app_assoc in Hi.
  destruct (IH _ (token_free_inv size a _ v _ ltac:(reflexivity) Hi) Hf) as (I1 & I2 & I3). split; [done|].
  rewrite I2, I3. split; [|apply token_free_page_size].
  unfold TokenToKVPoolAllocator_free. case_bool_decide; [done|]. destruct (is_not_in_free_group a) eqn:E; simpl; [|done].
  by destruct (al_need_sort a).
Qed.

Section hand_over.
Context {monotonic : nat → Z} {dfi : bool} {policy : string}.
Context (sa : ServerArgs) (Hspec : sa_speculative_algorithm sa = None).
Context (Hstrip : sa_strip_thinking_cache sa = false).
Context (size width : Z) (ol : list nat) (os orows : list Z).
Let reachable := reachable_cache monotonic 1 false dfi policy.
Let mem closed := batch_mem (monotonic:=monotonic) (dfi:=dfi) (policy:=policy) closed size width ol os orows.

(** The tokens whose slots are committed. *)
Definition committed_tokens (q : Req) : list Z :=
  take (Z.to_nat (rq_kv_committed_len q)) (rq_origin_input_ids q ++ rq_output_ids q).

Definition committed_row (p : ReqToTokenPool) (q : Req) : list Z :=
  take (Z.to_nat (rq_kv_committed_len q)) (row_of p q).

(** All slots outside the free lists are different. *)
Lemma mem_nodup closed c a p held L q l :
  mem closed c a p held L (q :: l) →
  NoDup (tree_slots c L ++ private_slots p q ++ concat (map (private_slots p) l) ++ os).
Proof.
  intros [_ _ _ _ _ _ [_ Hp _] _ _ _ _]. simpl in Hp.
  assert (Hn : NoDup (seqZ 1 size)) by apply NoDup_seqZ. rewrite <- Hp in Hn.
  do 3 apply NoDup_app in Hn as (_ & _ & Hn). cbn [map concat] in Hn. by rewrite <- app_assoc in Hn.
Qed.

Lemma row_split p q : committed_row p q = take (Z.to_nat (rq_cache_protected_len q)) (committed_row p q) ++ private_slots p q.
Proof. unfold private_slots, committed_row. by rewrite take_drop. Qed.

(** What a request of the batch holds, it owns in the sense of ReqCache. *)
Lemma holds_owns closed c a p held L q l :
  mem closed c a p held L (q :: l) → owns c q (committed_tokens q) (committed_row p q).
Proof.
  intros Hm. pose proof (mem_nodup _ _ _ _ _ _ _ _ Hm) as Hnd. destruct Hm as [B1 B2 _ B4 _ _ _ B8 _ _ _].
  inversion B8 as [|? ? [_ _ [H3 H3'] H4 H5 _ H7 _ _] _]; subst.
  pose proof (reachable_cache_ok _ _ _ _ _ _ B1) as (Hw & _).
  assert (Hlen : zlen (committed_tokens q) = rq_kv_committed_len q) by (unfold committed_tokens; rewrite zlen_take; lia).
  split.
  - rewrite Hlen. unfold committed_row. rewrite zlen_take. lia.
  - rewrite plain_key_len by done. lia.
  - destruct B2 as [-> _]. apply Z.divide_1_l.
  - exists (node_of q). eexists _, _. split; [exact H7|]. unfold committed_row.
    rewrite take_take, Nat.min_l by lia. rewrite plain_qunits by done. unfold full_key, qunits, units. cbn [is_bigram token_ids extra_key].
    rewrite <- !fmap_take. unfold committed_tokens. rewrite take_take, Nat.min_l by lia.
    split; [done|]. rewrite take_take, !length_map, length_take. f_equal. unfold zlen in *. lia.
  - apply NoDup_app in Hnd as (_ & _ & Hnd). by apply NoDup_app in Hnd as (Hnd & _ & _).
  - intros s Hs Ht. apply (in_tree_slots c _ L s Hw B4) in Ht.
    apply NoDup_app in Hnd as (_ & Hdis & _). apply (Hdis s Ht), elem_of_app. by left.
Qed.

(** Two lists of freed slots that are the same slots. *)
Lemma settled_held c c' H H' L L' q p freed rest :
  cache_wf c H → cache_wf c' H' → live_set c L → live_set c' L' →
  settled c c' (committed_row p q) freed → owns c q (committed_tokens q) (committed_row p q) →
  tree_total c' + zlen freed = tree_total c + zlen (private_slots p q) →
  NoDup (tree_slots c L ++ private_slots p q ++ rest) →
  tree_slots c L ++ private_slots p q ++ rest ≡ₚ freed ++ tree_slots c' L' ++ rest.
Proof.
  intros Hw Hw' HL HL' Hst Hown Ht Hnd. rewrite row_split in Hst.
  rewrite (settled_slots c c' H H' L L' _ _ freed rest Hw Hw' HL HL' Hst); try done; [cbn [concat]; by rewrite app_nil_r|].
  intros s Hs. eexists _, _. split; [exact (ow_cached _ _ _ _ Hown)|done].
Qed.

(** A request that stays keeps what it holds when the tree grows. *)
Lemma holds_grows c c' p p' q :
  grows c c' → pool_row p' (rq_req_pool_idx q) = pool_row p (rq_req_pool_idx q) → holds c p q → holds c' p' q.
Proof.
  intros Hg Hp Hh. eapply holds_pool; [exact Hp|]. eapply holds_tree; [|exact Hh]. intros us vs. apply Hg.
Qed.

Lemma batch_mem_finish closed c a p held L q i l :
  mem closed c a p held L (q :: l) → rq_req_pool_idx q = Some i →
  ∃ c' a' held' L',
    release_kv_cache monotonic sa (Radix c) (TokenPool a) p q true
    = Ok (Radix c', TokenPool a', set_rp_free_slots (rp_free_slots p ++ [i]) p, released q)
    ∧ mem closed c' a' (set_rp_free_slots (rp_free_slots p ++ [i]) p) held' L' l.
Proof.
  intros Hm Hi. pose proof (holds_owns _ _ _ _ _ _ _ _ Hm) as Hown. pose proof (mem_nodup _ _ _ _ _ _ _ _ Hm) as Hnd.
  destruct Hm as [B1 B2 B3 B4 B5 B6 B7 B8 B9 B10 B11]. inversion B8 as [|? ? Hq Hl]; subst.
  pose proof Hq as [H1 H2 [H3 H3'] H4 H5 H6 H7 H8 H9]. rewrite Hi in H1.
  cbn [map concat] in B3. rewrite <- app_assoc in B3. pose proof (locks_unlock _ _ _ _ B3) as Hu.
  assert (Hcl : cache_commit_len sa q = rq_kv_committed_len q) by (unfold cache_commit_len; by rewrite Hstrip).
  assert (Hids : committed_ids sa q = committed_tokens q) by (unfold committed_ids; rewrite Hcl, slice_to_take by lia; done).
  assert (Hlen : zlen (committed_tokens q) = rq_kv_committed_len q) by (unfold committed_tokens; rewrite zlen_take; lia).
  assert (Hrow : (row_of p q)⟨:zlen (committed_tokens q)⟩ = committed_row p q) by (rewrite Hlen, slice_to_take by lia; done).
  assert (Hover : overallocated sa q (row_of p q) = []).
  { unfold overallocated. rewrite Hcl, H6, bool_decide_false; [done|].
    destruct (bool_decide (1 < _)) eqn:E; [|lia]. apply bool_decide_eq_true in E.
    pose proof (ceil_align_ge (rq_kv_committed_len q) (sa_page_size sa)). lia. }
  destruct (release_kv_ok monotonic 1 false dfi policy sa c held
      (if bool_decide (node_of q = rc_root c) then held else concat (map (locks_of c) l) ++ ol)
      p a q true (node_of q) i (row_of p q) B1 Hi H1)
    as (c' & a' & freed & r' & Hgo & Hfree & Hst & Hr & -> & Hcfg & Hg & Ht);
    rewrite ?Hids, ?Hrow, ?Hover, ?app_nil_r; try done; try congruence.
  - apply Hown.
  - set_solver.
  - rewrite Hids, Hrow, Hover in Hst, Ht. cbn [concat] in Hst, Ht. rewrite app_nil_r in Hst, Ht.
    pose proof (reachable_cache_ok _ _ _ _ _ _ B1) as (Hw & _). pose proof (reachable_cache_ok _ _ _ _ _ _ Hr) as (Hw' & _).
    destruct Hw' as [g' Hi']. exists c', a'. eexists _, (gL g'). split; [exact Hgo|].
    pose proof (live_of_inv _ _ _ Hi') as HL'.
    assert (Hpv : zlen (private_slots p q) = zlen (committed_row p q) - rq_cache_protected_len q).
    { unfold private_slots, committed_row. rewrite zlen_drop, zlen_take. lia. }
    pose proof (settled_held c c' _ _ L (gL g') q p (concat freed) _ Hw (ex_intro _ _ Hi') B4 HL' Hst Hown ltac:(lia) Hnd) as Hperm.
    destruct (free_all_keeps size a freed (tree_slots c' (gL g') ++ concat (map (private_slots p) l) ++ os) a')
      as (I1 & I2 & I3); [|exact Hfree|].
    { eapply token_inv_perm; [|exact B7]. rewrite <- Hperm. cbn [map concat]. by rewrite <- app_assoc. }
    split; try done.
    + by eapply mode_config.
    + rewrite (map_locks_config c c') by done. case_bool_decide as E; [|done].
      rewrite B3. unfold locks_of at 1, lock. rewrite bool_decide_true by done. done.
    + congruence.
    + eapply Forall_impl; [exact Hl|]. intros r. by apply holds_grows.
    + cbn [map] in B9. unfold row_index at 1 in B9. rewrite Hi in B9. simpl in *. rewrite <- B9.
      by rewrite <- (app_assoc (rp_free_slots p)).
Qed.

Lemma mem_slot32 closed c a p held L l s :
  mem closed c a p held L l → size < 2 ^ 31 →
  s ∈ tree_slots c L ++ concat (map (private_slots p) l) → slot32 s.
Proof.
  clear Hspec Hstrip. intros [_ _ _ _ _ _ [_ Hp _] _ _ _ _] Hsize Hs. simpl in Hp. unfold slot32.
  assert (Hin : s ∈ seqZ 1 size) by (rewrite <- Hp; set_solver). apply elem_of_seqZ in Hin. lia.
Qed.

(** The request after its committed tokens went to the tree. *)
Definition cached_req (n : nat) (row : list Z) (q : Req) : Req :=
  set_rq_last_node (Some n) (set_rq_prefix_indices row (set_rq_cache_protected_len (rq_kv_committed_len q) q)).

Lemma pool_row_nonneg p i row : pool_row p (Some i) = Ok row → 0 ≤ i ∧ rp_req_to_token p !! Z.to_nat i = Some row.
Proof.
  unfold pool_row, py_get. case_bool_decide; [|done]. destruct (rp_req_to_token p !! Z.to_nat i); naive_solver.
Qed.

Lemma row_of_some p q i : rq_req_pool_idx q = Some i → pool_row p (rq_req_pool_idx q) = Ok (row_of p q) →
  pool_row p (Some i) = Ok (row_of p q) ∧ 0 ≤ i.
Proof.
  intros -> Hr. split; [done|]. by destruct (pool_row_nonneg _ _ _ Hr).
Qed.

Lemma cached_req_holds c c' p p' q n row0' :
  holds c p q → pool_row p' (rq_req_pool_idx q) = Ok row0' → zlen row0' = zlen (row_of p q) →
  path c' n (qunits (mkRadixKey (committed_tokens q) (rq_extra_key q) false))
    (take (Z.to_nat (rq_kv_committed_len q)) row0') →
  holds c' p' (cached_req n (take (Z.to_nat (rq_kv_committed_len q)) row0') q)
  ∧ private_slots p' (cached_req n (take (Z.to_nat (rq_kv_committed_len q)) row0') q) = [].
Proof.
  intros [H1 H2 [H3 H3'] H4 H5 H6 H7 H8 H9] Hrow Hlen Hpath.
  assert (Hr : row_of p' (cached_req n (take (Z.to_nat (rq_kv_committed_len q)) row0') q) = row0')
    by (unfold row_of; cbn; by rewrite Hrow).
  split; [split; cbn [rq_req_pool_idx rq_last_node rq_cache_protected_len rq_kv_committed_len cached_req set_rq_last_node
    set_rq_prefix_indices set_rq_cache_protected_len rq_origin_input_ids rq_output_ids]|]; try done; rewrite ?Hr; try (done || lia).
  - unfold node_of. cbn. unfold full_key. cbn. unfold committed_tokens in Hpath.
    unfold qunits, units in *. cbn [is_bigram token_ids extra_key] in *. by rewrite <- !fmap_take.
  - unfold private_slots. rewrite Hr. cbn. apply drop_ge. rewrite length_take. lia.
Qed.

(** The locks that are held once the request gave up its own. *)
Lemma held_rest c q held l :
  held ≡ₚ locks_of c q ++ l → (if bool_decide (node_of q = rc_root c) then held else l) ≡ₚ l.
Proof.
  unfold locks_of, lock. case_bool_decide; [|done]. by intros ->.
Qed.

Lemma lock_app c n H : lock c n H = lock c n [] ++ H.
Proof. unfold lock. by case_bool_decide. Qed.

(** A request that is not in row [i] keeps its row when row [i] is written. *)
Lemma row_kept p i row q j :
  pool_row p (rq_req_pool_idx q) = Ok row → rq_req_pool_idx q = Some j → j ≠ i → 0 ≤ i →
  ∀ k, pool_row (set_rp_req_to_token (<[Z.to_nat i := k]> (rp_req_to_token p)) p) (rq_req_pool_idx q)
       = pool_row p (rq_req_pool_idx q).
Proof.
  intros Hr Hj Hne Hi k. rewrite Hj in *. unfold pool_row, py_get in *. simpl. case_bool_decide; [|done].
  rewrite list_lookup_insert_ne; [done|lia].
Qed.

Lemma other_rows closed c a p held L q l i :
  mem closed c a p held L (q :: l) → rq_req_pool_idx q = Some i →
  Forall (λ r, ∃ j, rq_req_pool_idx r = Some j ∧ j ≠ i) l.
Proof.
  intros [_ _ _ _ _ _ _ B8 B9 _ _] Hi. inversion B8 as [|? ? _ Hl]; subst.
  assert (Hn : NoDup (seqZ 1 (rp_size p))) by apply NoDup_seqZ. rewrite <- B9 in Hn.
  apply NoDup_app in Hn as (_ & _ & Hn). apply NoDup_app in Hn as (Hn & _ & _).
  cbn [map] in Hn. unfold row_index at 1 in Hn. rewrite Hi in Hn. apply NoDup_cons in Hn as [Hn _].
  apply Forall_forall. intros r Hr. pose proof (proj1 (Forall_forall _ _) Hl r Hr) as Hh.
  pose proof (ho_row _ _ _ Hh) as Hrow. destruct (rq_req_pool_idx r) as [j|] eqn:E; [|done].
  exists j. split; [done|]. intros ->. apply Hn. apply list_elem_of_fmap. exists r. split; [|done].
  unfold row_index. by rewrite E.
Qed.

(** The slots of a request and of the tree are 32-bit numbers. *)
Lemma mem_slots32 closed c a p held L q l :
  mem closed c a p held L (q :: l) → size < 2 ^ 31 → Forall slot32 (committed_row p q) ∧ ∀ s, in_tree c s → slot32 s.
Proof.
  intros Hm Hsize. pose proof (holds_owns _ _ _ _ _ _ _ _ Hm) as Hown.
  pose proof (λ s, mem_slot32 _ _ _ _ _ _ _ s Hm Hsize) as H32. destruct Hm as [B1 _ _ B4 _ _ _ _ _ _ _].
  pose proof (reachable_cache_ok _ _ _ _ _ _ B1) as (Hw & _).
  assert (Ht : ∀ s, in_tree c s → slot32 s).
  { intros s Hs. apply H32, elem_of_app. left. by apply (in_tree_slots c _ L s Hw B4). }
  split; [|exact Ht]. rewrite row_split. apply Forall_app. split; apply Forall_forall; intros s Hs.
  - apply Ht. eexists _, _. split; [exact (ow_cached _ _ _ _ Hown)|done].
  - apply H32, elem_of_app. right. cbn [map concat]. apply elem_of_app. by left.
Qed.

(** Writing the row of one request leaves the others what they hold. *)
Lemma others_kept closed c c' a p held L q l i k :
  mem closed c a p held L (q :: l) → rq_req_pool_idx q = Some i → 0 ≤ i → grows c c' →
  let p' := set_rp_req_to_token (<[Z.to_nat i := k]> (rp_req_to_token p)) p in
  Forall (holds c' p') l ∧ map (private_slots p') l = map (private_slots p) l.
Proof.
  intros Hm Hi Hi0 Hg p'. pose proof (other_rows _ _ _ _ _ _ _ _ _ Hm Hi) as Hothers.
  destruct Hm as [_ _ _ _ _ _ _ B8 _ _ _]. inversion B8 as [|? ? _ Hl]; subst.
  assert (Hkeep : ∀ r, r ∈ l → pool_row p' (rq_req_pool_idx r) = pool_row p (rq_req_pool_idx r)).
  { intros r Hr'. destruct (proj1 (Forall_forall _ _) Hothers r Hr') as (j & Hj & Hji).
    eapply row_kept; [|exact Hj|done|done]. apply (ho_row c). by apply (proj1 (Forall_forall _ _) Hl). }
  split.
  - apply Forall_forall. intros r Hr'. apply (holds_grows c c' p p' r Hg (Hkeep r Hr')). by apply (proj1 (Forall_forall _ _) Hl).
  - apply map_ext_in. intros r Hr'%list_elem_of_In. unfold private_slots. by rewrite (row_of_eq p p' r) by auto.
Qed.

Lemma batch_mem_unfinished closed c a p held L q i l chunked :
  mem closed c a p held L (q :: l) → rq_req_pool_idx q = Some i → rq_fill_ids q = committed_tokens q → size < 2 ^ 31 →
  ∃ c' a' p' n row held' L',
    cache_unfinished_req monotonic c p (TokenPool a) q chunked = Ok (c', p', TokenPool a', cached_req n row q)
    ∧ mem closed c' a' p' held' L' (cached_req n row q :: l).
Proof.
  intros Hm Hi Hfill Hsize. pose proof (holds_owns _ _ _ _ _ _ _ _ Hm) as Hown.
  pose proof (mem_nodup _ _ _ _ _ _ _ _ Hm) as Hnd. destruct (mem_slots32 _ _ _ _ _ _ _ _ Hm Hsize) as [Hrow32 Htree32].
  pose proof (λ c' k, others_kept _ _ c' _ _ _ _ _ _ i k Hm Hi) as Hkept.
  destruct Hm as [B1 B2 B3 B4 B5 B6 B7 B8 B9 B10 B11]. inversion B8 as [|? ? Hq Hl]; subst.
  pose proof Hq as [H1 H2 [H3 H3'] H4 H5 H6 H7 H8 H9]. destruct (row_of_some p q i Hi H1) as [Hrow Hi0].
  cbn [map concat] in B3. rewrite <- app_assoc in B3. pose proof (locks_unlock _ _ _ _ B3) as Hu.
  pose proof (reachable_cache_ok _ _ _ _ _ _ B1) as (Hw & _).
  assert (Hlen : zlen (committed_tokens q) = rq_kv_committed_len q) by (unfold committed_tokens; rewrite zlen_take; lia).
  assert (Hrow' : (row_of p q)⟨:zlen (committed_tokens q)⟩ = committed_row p q) by (rewrite Hlen, slice_to_take by lia; done).
  destruct (cache_unfinished_req_ok c held (if bool_decide (node_of q = rc_root c) then held else concat (map (locks_of c) l) ++ ol)
      p a q chunked (node_of q) i (row_of p q) B1 Hi Hi0 Hrow)
    as (c' & p' & a' & r' & f & n' & row0' & Hgo & Hfree & Hst & Hr0 & Hown' & Hdrop & _ & Hpre & Hln & Hpath & Hr & _
        & Hcfg & Hg & Ht & -> & -> & Hl0); rewrite ?Hfill, ?Hrow'; try done.
  rewrite Hfill, Hrow', !(plain_key_len c B2) in *. rewrite !Hlen in *.
  rewrite !(slice_to_take row0') in * by lia.
  destruct (reachable_cache_ok _ _ _ _ _ _ Hr) as ((g' & Hi') & _). simpl in Hi'.
  exists c', a'. eexists _, n', (take (Z.to_nat (rq_kv_committed_len q)) row0'). eexists _, (gL g').
  split; [rewrite (cache_unfinished_req_embed TokenPool), Hgo; done|].
  assert (Htk : take (Z.to_nat (rq_kv_committed_len q)) (committed_row p q) = committed_row p q)
    by (unfold committed_row; rewrite take_take; f_equal; lia).
  rewrite Htk in Hst. rewrite take_take, Nat.min_id, (plain_key c B2) in Hpath.
  assert (Hpv : zlen (private_slots p q) = rq_kv_committed_len q - rq_cache_protected_len q).
  { unfold private_slots. rewrite zlen_drop, zlen_take. lia. }
  pose proof (settled_held c c' _ _ L (gL g') q p f _ Hw (ex_intro _ _ Hi') B4 (live_of_inv _ _ _ Hi') Hst Hown ltac:(lia) Hnd) as Hperm.
  destruct (free_all_keeps size a [f] (tree_slots c' (gL g') ++ concat (map (private_slots p) l) ++ os) a')
    as (I1 & I2 & I3); [|cbn [free_all]; by rewrite Hfree|].
  { cbn [concat]. rewrite app_nil_r. eapply token_inv_perm; [|exact B7]. rewrite <- Hperm. cbn [map concat]. by rewrite <- app_assoc. }
  destruct (Hkept c' row0' Hi0 Hg) as [Hh' Hpriv]. set (p' := set_rp_req_to_token _ p) in *.
  destruct (cached_req_holds c c' p p' q n' row0' Hq) as [Hh Hpn]; [by rewrite Hi|done|done|].
  split; try done; [by eapply mode_config|..]; try congruence.
  - cbn [map concat]. rewrite lock_app, (held_rest _ _ _ _ B3), (map_locks_config c c'), <- app_assoc by done.
    f_equiv. unfold locks_of, cached_req, node_of. cbn. by rewrite (lock_config c c').
  - by apply live_of_inv with (lock c n' (if bool_decide (node_of q = rc_root c) then held else concat (map (locks_of c) l) ++ ol)).
  - cbn [map concat]. by rewrite Hpn, Hpriv.
  - by constructor.
  - unfold p'. apply Forall_insert; [done|]. rewrite Hl0.
    apply pool_row_nonneg in Hrow as [_ Hrow]. by apply (proj1 (Forall_lookup _ _) B10) in Hrow.
  - destruct B11 as [B11 B12]. split; [|done]. unfold p', zlen in *. simpl. by rewrite length_insert.
Qed.

End hand_over.
