(* ===== verification/RetractProps.v ===== *)
(** * Retraction under memory pressure

    What [retract_decode] of DecodeBatch does to a batch whose memory satisfies the invariant of
    DecodeMem: it returns, it gives back the memory of the requests it takes out, it leaves the
    others untouched and in order, and what is left fits into memory. *)

From S2P Require Import Prelude AllocKernels Allocator RadixKey RadixTree RadixInv RadixMatch RadixProps.
From S2P Require Import ReqPool ReqCache CacheAlloc PyFloat DecodeBatch DecodeMem.

(** ** Selecting by index *)

Definition at_indices {A} (l : list A) (idx : list nat) (xs : list A) : Prop :=
  Forall2 (λ i x, l !! i = Some x) idx xs.

Lemma pick_ok {A} (l : list A) idx xs : at_indices l idx xs → pick l idx = Ok xs.
Proof.
  unfold pick. induction 1 as [|i x idx xs Hi H IH]; [done|]. cbn [res_map].
  assert (Hit : item l i = Ok x) by (unfold item; by rewrite Hi).
  rewrite Hit. cbn [mbind res_bind]. by rewrite IH.
Qed.

Lemma at_indices_exists {A} (l : list A) idx :
  Forall (λ i, i < length l)%nat idx → ∃ xs, at_indices l idx xs.
Proof.
  induction 1 as [|i idx Hi H [xs IH]]; [by exists []; constructor|].
  destruct (lookup_lt_is_Some_2 l i Hi) as [x Hx]. exists (x :: xs). by constructor.
Qed.

Lemma at_indices_map {A B} (f : A → B) l idx xs : at_indices l idx xs → at_indices (map f l) idx (map f xs).
Proof. induction 1; constructor; [|done]. by rewrite list_lookup_fmap, H. Qed.

Lemma at_indices_all {A} (l : list A) : at_indices l (seq 0 (length l)) l.
Proof.
  apply Forall2_same_length_lookup_2; [by rewrite length_seq|]. intros i x y Hx Hy.
  apply lookup_seq in Hx as [-> _]. done.
Qed.

Lemma at_indices_perm {A} (l : list A) idx idx' xs :
  idx ≡ₚ idx' → at_indices l idx xs → ∃ xs', xs ≡ₚ xs' ∧ at_indices l idx' xs'.
Proof.
  unfold at_indices. intros Hp. revert xs.
  induction Hp as [|i l1 l2 Hp IH|i j l1|l1 l2 l3 H1 IH1 H2 IH2]; intros xs H.
  - inversion H; subst. by exists [].
  - inversion H as [|? x ? xs1 Hi H']; subst. destruct (IH xs1 H') as (xs2 & ? & ?).
    exists (x :: xs2). split; [by constructor|by constructor].
  - inversion H as [|? x ? xs1 Hi H']; subst. inversion H' as [|? y ? xs2 Hj H'']; subst.
    exists (y :: x :: xs2). split; [constructor|by repeat constructor].
  - destruct (IH1 _ H) as (xs1 & ? & H1'). destruct (IH2 _ H1') as (xs2 & ? & ?).
    exists xs2. split; [by trans xs1|done].
Qed.

Lemma at_indices_same {A} (l : list A) idx idx' xs ys :
  idx ≡ₚ idx' → at_indices l idx xs → at_indices l idx' ys → xs ≡ₚ ys.
Proof.
  intros Hp Hx Hy. destruct (at_indices_perm l _ _ _ Hp Hx) as (zs & Hz & Hzs).
  apply pick_ok in Hy, Hzs. by assert (zs = ys) as <- by congruence.
Qed.

Lemma at_indices_elem {A} (l : list A) idx xs x :
  at_indices l idx xs → x ∈ xs → ∃ i, i ∈ idx ∧ l !! i = Some x.
Proof.
  intros H (j & Hj)%list_elem_of_lookup. destruct (Forall2_lookup_r _ _ _ _ _ H Hj) as (i & Hi & ?).
  exists i. split; [by eapply list_elem_of_lookup_2|done].
Qed.

Lemma at_indices_change {A B} (f : A → B) (l : list A) (k : list B) idx xs :
  (∀ i x, i ∈ idx → l !! i = Some x → k !! i = Some (f x)) → at_indices l idx xs → at_indices k idx (map f xs).
Proof.
  intros He H. induction H as [|i x idx xs Hi H IH]; cbn [map]; constructor; [apply He; [set_solver|done]|].
  apply IH. intros j y Hj. apply He. set_solver.
Qed.

Lemma at_indices_ext {A} (l k : list A) idx xs :
  (∀ i, i ∈ idx → k !! i = l !! i) → at_indices l idx xs → at_indices k idx xs.
Proof.
  intros He H. induction H as [|i x idx xs Hi H IH]; constructor; [rewrite He by set_solver; done|].
  apply IH. intros j Hj. apply He. set_solver.
Qed.

Lemma at_indices_app {A} (l : list A) i1 i2 xs :
  at_indices l (i1 ++ i2) xs ↔ ∃ x1 x2, xs = x1 ++ x2 ∧ at_indices l i1 x1 ∧ at_indices l i2 x2.
Proof.
  unfold at_indices. split.
  - intros H. apply Forall2_app_inv_l in H as (x1 & x2 & H1 & H2 & ->). by exists x1, x2.
  - intros (x1 & x2 & -> & H1 & H2). by apply Forall2_app.
Qed.

Lemma at_indices_length {A} (l : list A) idx xs : at_indices l idx xs → length xs = length idx.
Proof. intros H. symmetry. by eapply Forall2_length. Qed.

Lemma pop_snoc {A} (l : list A) x : pop (l ++ [x]) = Ok (x, l).
Proof.
  unfold pop. rewrite last_snoc, length_app. simpl. rewrite Nat.add_sub. by rewrite take_app_length.
Qed.

(** ** Columns *)

(** The columns of a batch are those of its requests; a request that has finished has already given
    its memory back. *)
Definition column (f : Req → Z) (col : list Z) (reqs : list DReq) : Prop :=
  Forall2 (λ v r, dr_finished r = false → v = f (dr_req r)) col reqs.

(** The pending tokens, which the next step feeds to the model: the last one of each request. *)
Definition pending (o : list Z) (reqs : list DReq) : Prop :=
  Forall2 (λ v r, dr_finished r = false → last (rq_output_ids (dr_req r)) = Some v) o reqs.

Record columns (b : RunningBatch) : Prop := {
  co_rows : column row_index (rb_req_pool_indices b) (rb_reqs b);
  co_lens : column rq_kv_committed_len (rb_seq_lens b) (rb_reqs b);
  co_orig : length (rb_orig_seq_lens b) = length (rb_reqs b);
  co_sum : rb_seq_lens_sum b = sumZ (rb_seq_lens b);
  co_output o : rb_output_ids b = Some o → pending o (rb_reqs b);
  co_logprob : rb_return_logprob b = existsb dr_return_logprob (rb_reqs b);
  co_tops : rb_return_logprob b = true →
    ∃ t u, rb_top_logprobs_nums b = Some t ∧ rb_token_ids_logprobs b = Some u
           ∧ length t = length (rb_reqs b) ∧ length u = length (rb_reqs b)
}.

Lemma at_indices_bound {A B} (l : list A) (k : list B) idx xs :
  length k = length l → at_indices l idx xs → ∃ ys, at_indices k idx ys ∧ length ys = length idx.
Proof.
  intros Hl H. destruct (at_indices_exists k idx) as [ys Hy].
  { rewrite Hl. induction H as [|i x idx xs Hi H IH]; constructor; [by eapply lookup_lt_Some|done]. }
  exists ys. split; [done|]. by eapply at_indices_length.
Qed.

Lemma column_at (P : Z → DReq → Prop) col reqs idx vs xs :
  Forall2 P col reqs → at_indices col idx vs → at_indices reqs idx xs → Forall2 P vs xs.
Proof.
  intros Hc Hv. revert xs. induction Hv as [|i v idx vs Hi Hv IH]; intros xs Hx; inversion Hx as [|? x ? xs' Hix Hx']; subst; constructor.
  - exact (Forall2_lookup_lr _ _ _ _ _ _ Hc Hi Hix).
  - by apply IH.
Qed.

Lemma column_all f col reqs :
  Forall (λ r, dr_finished r = false) reqs → column f col reqs → col = map (λ r, f (dr_req r)) reqs.
Proof.
  intros Hf Hc. induction Hc as [|v r col reqs Hv Hc IH]; [done|]. inversion Hf; subst. simpl.
  f_equal; [by apply Hv|by apply IH].
Qed.

Lemma existsb_at (f : DReq → bool) l idx xs : at_indices l idx xs → existsb f xs = true → existsb f l = true.
Proof.
  intros H. rewrite !existsb_exists. intros (x & Hin & Hf). exists x. split; [|done].
  apply list_elem_of_In in Hin. apply list_elem_of_lookup in Hin as [j Hj].
  destruct (Forall2_lookup_r _ _ _ _ _ H Hj) as (i & _ & Hi). apply list_elem_of_In. by eapply list_elem_of_lookup_2.
Qed.

(** Keeping some requests of a batch whose other requests may have changed. *)
Lemma filter_keep b l keep xs :
  columns b → at_indices (rb_reqs b) keep xs → at_indices l keep xs →
  keep ≠ [] → length keep ≠ length l →
  ∃ b', filter_batch (set_rb_reqs l b) [] (Some keep) = Ok b' ∧ rb_reqs b' = xs ∧ columns b'
    ∧ rb_batch_is_full b' = rb_batch_is_full b.
Proof.
  intros [C1 C2 C3 C4 C5 C6 C7] Hb Hl Hne Hlen. pose proof (at_indices_length _ _ _ Hl) as Hx.
  unfold filter_batch. cbn [rb_reqs set_rb_reqs]. rewrite !bool_decide_false by (by rewrite ?length_zero_iff_nil).
  rewrite (pick_ok _ _ _ Hl). cbn [mbind res_bind rb_req_pool_indices rb_seq_lens rb_orig_seq_lens rb_output_ids
    rb_top_logprobs_nums rb_token_ids_logprobs rb_input_ids rb_batch_is_full set_rb_reqs].
  destruct (at_indices_bound _ (rb_req_pool_indices b) _ _ (Forall2_length _ _ _ C1) Hb) as (ri & Hri & _).
  destruct (at_indices_bound _ (rb_seq_lens b) _ _ (Forall2_length _ _ _ C2) Hb) as (sl & Hsl & _).
  rewrite (pick_ok _ _ _ Hri). cbn [mbind res_bind]. rewrite (pick_ok _ _ _ Hsl). cbn [mbind res_bind].
  pose proof (column_at _ _ _ _ _ _ C1 Hri Hb) as Hcr. pose proof (column_at _ _ _ _ _ _ C2 Hsl Hb) as Hcs.
  destruct (at_indices_bound _ (rb_orig_seq_lens b) _ _ C3 Hb) as (os & Hos & Hosl).
  rewrite (pick_ok _ _ _ Hos). cbn [mbind res_bind].
  assert (Ho : ∃ o, (match rb_output_ids b with
      | Some o => o ← pick o keep; Ok (Some o) | None => Ok None end) = Ok o
      ∧ ∀ o', o = Some o' → pending o' xs).
  { destruct (rb_output_ids b) as [o|]; [|by exists None].
    destruct (at_indices_bound _ o _ _ (Forall2_length _ _ _ (C5 o eq_refl)) Hb) as (ys & Hys & Hysl).
    rewrite (pick_ok _ _ _ Hys). exists (Some ys). split; [done|]. intros ? [= <-]. exact (column_at _ _ _ _ _ _ (C5 o eq_refl) Hys Hb). }
  destruct Ho as (o & -> & Ho). cbn [mbind res_bind].
  destruct (existsb dr_return_logprob xs) eqn:Elp.
  - destruct C7 as (t & u & -> & -> & Ht & Hu); [rewrite C6; by eapply existsb_at|]. cbn [pick_opt].
    destruct (at_indices_bound _ t _ _ Ht Hb) as (ts & Hts & Htsl).
    destruct (at_indices_bound _ u _ _ Hu Hb) as (us & Hus & Husl).
    rewrite (pick_ok _ _ _ Hts). cbn [mbind res_bind]. rewrite (pick_ok _ _ _ Hus). cbn [mbind res_bind].
    eexists. split; [done|]. split; [done|]. split; [|done].
    split; simpl; try done; try congruence.
    intros _. exists ts, us. split_and!; congruence.
  - cbn [mbind res_bind]. eexists. split; [done|]. split; [done|]. split; [|done].
    split; simpl; try done; try congruence.
Qed.

(** Filtering drops no column of pending tokens. *)
Lemma filter_batch_output b excluded keep b' :
  filter_batch b excluded keep = Ok b' → is_Some (rb_output_ids b) → is_Some (rb_output_ids b').
Proof.
  unfold filter_batch. set (k := match keep with Some k => k | None => _ end). clearbody k. intros Hf Ho.
  case_bool_decide; [by inversion Hf; subst|]. case_bool_decide; [by inversion Hf; subst|].
  destruct (pick (rb_reqs b) k); [|done]. destruct (pick (rb_req_pool_indices b) k); [|done].
  destruct (pick (rb_seq_lens b) k); [|done]. destruct (pick (rb_orig_seq_lens b) k); [|done]. cbn [mbind res_bind] in Hf.
  destruct Ho as [o Ho]. rewrite Ho in Hf. destruct (pick o k); [|done]. cbn [mbind res_bind] in Hf.
  destruct (if existsb _ _ then _ else _) as [[tops tids]|]; [|done]. inversion Hf. by eexists.
Qed.

(** ** Steps on the memory *)

(** A request after its release, and after it was aborted. *)
Definition retracted_req (r : DReq) : DReq := reset_for_retract (set_dr_req (released (dr_req r)) r).
Definition aborted_req (r : DReq) : DReq := retracted_req (set_dr_to_finish true r).

Section retract.
Context {monotonic : nat → Z} {dfi : bool} {policy : string}.
Context (sa : ServerArgs) (sp : SpecArgs) (Hspec : sa_speculative_algorithm sa = None).
Context (Hstrip : sa_strip_thinking_cache sa = false).
Context (size width : Z) (ol : list nat) (os orows : list Z).

Definition batch_inv (m : Mem) (reqs : list DReq) : Prop :=
  ∃ c a p held L, m = mkMem (Radix c) (TokenPool a) p
    ∧ batch_mem (monotonic:=monotonic) (dfi:=dfi) (policy:=policy) true size width ol os orows c a p held L (map dr_req reqs).

Definition kv_available (m : Mem) : Z := pool_available_size (me_kv m).

Lemma batch_inv_perm m l k : l ≡ₚ k → batch_inv m l → batch_inv m k.
Proof.
  intros Hp (c & a & p & held & L & -> & Hm). exists c, a, p, held, L. split; [done|].
  eapply batch_mem_perm; [|exact Hm]. by rewrite Hp.
Qed.

(** One token per request. *)
Lemma required_plain reqs : new_tokens_required_next_decode sa sp 1 reqs = Ok (zlen reqs).
Proof.
  unfold new_tokens_required_next_decode, spec_none. rewrite Hspec, bool_decide_true by done.
  rewrite Z.mul_1_r. f_equal. f_equal. induction reqs as [|r reqs IH]; [done|]. simpl.
  rewrite Z.mod_1_r. simpl. by rewrite IH.
Qed.

Lemma check_plain b m idx reqs :
  match idx with None => rb_reqs b = reqs | Some idx => at_indices (rb_reqs b) idx reqs end →
  batch_inv m reqs →
  ∃ m', check_decode_mem sa sp b m idx = Ok (bool_decide (zlen reqs ≤ kv_available m'), m') ∧ batch_inv m' reqs.
Proof.
  intros Hsel (c & a & p & held & L & -> & Hm).
  destruct (batch_mem_evict size width ol os orows c a p held L _ (zlen reqs) Hm) as (c' & a' & L' & Hev & Hm' & _).
  exists (mkMem (Radix c') (TokenPool a') p). split; [|by exists c', a', p, held, L'].
  unfold check_decode_mem.
  assert (Hr : match idx with None => Ok (rb_reqs b) | Some idx => pick (rb_reqs b) idx end = Ok reqs)
    by (destruct idx; [by apply pick_ok|by subst]).
  rewrite Hr. cbn [mbind res_bind me_kv pool_page_size]. rewrite (bm_page _ _ _ _ _ _ _ _ _ _ _ _ Hm), required_plain.
  cbn [mbind res_bind me_tree me_kv]. by rewrite Hev.
Qed.

Lemma release_plain_req b m idx r l n :
  rb_reqs b !! idx = Some r → batch_inv m (r :: l) →
  ∃ m', release_req monotonic sa b m idx n
        = Ok (set_rb_reqs (<[idx := retracted_req r]> (rb_reqs b)) b, m') ∧ batch_inv m' l.
Proof.
  intros Hr (c & a & p & held & L & -> & Hm). cbn [map] in Hm.
  assert (Hidx : ∃ i, rq_req_pool_idx (dr_req r) = Some i).
  { pose proof (bm_reqs _ _ _ _ _ _ _ _ _ _ _ _ Hm) as Hh. inversion Hh as [|? ? Hq _]; subst.
    pose proof (ho_row _ _ _ Hq) as Hrow. destruct (rq_req_pool_idx (dr_req r)) as [i|]; [by exists i|done]. }
  destruct Hidx as [i Hi].
  destruct (batch_mem_release sa Hspec Hstrip size width ol os orows c a p held L _ i _ Hm Hi)
    as (c' & held' & Hgo & Hm').
  destruct (batch_mem_evict size width ol os orows _ _ _ _ _ _ (n * SGLANG_RETRACT_DECODE_STEPS) Hm')
    as (c2 & a2 & L2 & Hev & Hm2 & _).
  eexists (mkMem (Radix c2) (TokenPool a2) _). split; [|by eexists c2, a2, _, held', L2].
  unfold release_req, item. rewrite Hr. cbn [mbind res_bind me_tree me_kv me_pool].
  rewrite Hgo. cbn [mbind res_bind]. by rewrite Hev.
Qed.

(** ** The loop *)

(** The state of the loop: [sorted] are the indices still in the batch; the requests at the indices
    [retracted] have been released. *)
Record loop_st (b0 b : RunningBatch) (sorted0 sorted retracted : list nat) : Prop := {
  ls_batch : b = set_rb_reqs (rb_reqs b) b0;
  ls_split : sorted0 = sorted ++ rev retracted;
  ls_nodup : NoDup sorted0;
  ls_len : length (rb_reqs b) = length (rb_reqs b0);
  ls_keep i : i ∉ retracted → rb_reqs b !! i = rb_reqs b0 !! i;
  ls_done i r : i ∈ retracted → rb_reqs b0 !! i = Some r → rb_reqs b !! i = Some (retracted_req r)
}.

Lemma loop_fresh b0 b sorted0 sorted idx retracted :
  loop_st b0 b sorted0 (sorted ++ [idx]) retracted → idx ∉ retracted.
Proof.
  intros [_ -> Hnd _ _ _]. rewrite <- app_assoc in Hnd. apply NoDup_app in Hnd as (_ & _ & Hnd).
  simpl in Hnd. apply NoDup_cons in Hnd as [Hn _]. by rewrite <- Permutation_rev in Hn.
Qed.

Lemma loop_step b0 b sorted0 sorted idx retracted r :
  loop_st b0 b sorted0 (sorted ++ [idx]) retracted → rb_reqs b0 !! idx = Some r →
  loop_st b0 (set_rb_reqs (<[idx := retracted_req r]> (rb_reqs b)) b) sorted0 sorted (retracted ++ [idx]).
Proof.
  intros Hls Hr. pose proof (loop_fresh _ _ _ _ _ _ Hls) as Hf. destruct Hls as [L1 L2 L3 L4 L5 L6].
  assert (Hlt : (idx < length (rb_reqs b))%nat) by (rewrite L4; by eapply lookup_lt_Some).
  split; simpl.
  - rewrite L1. done.
  - rewrite rev_app_distr, L2, <- app_assoc. done.
  - done.
  - by rewrite length_insert.
  - intros i Hi. rewrite list_lookup_insert_ne by set_solver. apply L5. set_solver.
  - intros i r' Hi Hr'. destruct (decide (i = idx)) as [->|Hne].
    + rewrite list_lookup_insert_eq by done. congruence.
    + rewrite list_lookup_insert_ne by done. apply L6; [set_solver|done].
Qed.

Lemma loop_alive b0 b sorted0 sorted retracted xs :
  loop_st b0 b sorted0 sorted retracted → at_indices (rb_reqs b0) sorted xs → at_indices (rb_reqs b) sorted xs.
Proof.
  intros [_ -> Hnd _ Hk _]. apply at_indices_ext. intros i Hi. apply Hk. intros Hr.
  apply NoDup_app in Hnd as (_ & Hd & _). apply (Hd i Hi). by apply list_elem_of_In, in_rev; rewrite rev_involutive; apply list_elem_of_In.
Qed.

Lemma retract_loop_ok fuel : ∀ first b0 b m sorted0 sorted retracted xs,
  (length sorted ≤ fuel)%nat → sorted ≠ [] → loop_st b0 b sorted0 sorted retracted →
  at_indices (rb_reqs b0) sorted xs → batch_inv m xs →
  ∃ sorted' retracted' b' m' xs',
    retract_loop monotonic sa sp fuel first b m sorted retracted = Ok (sorted', retracted', b', m')
    ∧ sorted' ≠ [] ∧ loop_st b0 b' sorted0 sorted' retracted'
    ∧ at_indices (rb_reqs b0) sorted' xs' ∧ batch_inv m' xs'
    ∧ (length sorted' = 1%nat ∨ zlen xs' ≤ kv_available m')
    ∧ (first = true → (1 < length sorted)%nat → (length sorted' < length sorted)%nat)
    ∧ (length sorted' ≤ length sorted)%nat.
Proof.
  induction fuel as [|fuel IH]; intros first b0 b m sorted0 sorted retracted xs Hf Hne Hls Hx Hm.
  { destruct sorted; [done|simpl in Hf; lia]. }
  cbn [retract_loop].
  assert (Hgo : ∃ go m1, (if first then Ok (true, m)
      else '(ok, m) ← check_decode_mem sa sp b m (Some sorted); Ok (negb ok, m)) = Ok (go, m1)
      ∧ batch_inv m1 xs ∧ (go = false → first = false ∧ zlen xs ≤ kv_available m1)).
  { destruct first; [by exists true, m|].
    destruct (check_plain b m (Some sorted) xs (loop_alive _ _ _ _ _ _ Hls Hx) Hm) as (m1 & -> & Hm1).
    eexists _, m1. split; [done|]. split; [done|]. intros Hg. apply negb_false_iff in Hg.
    by apply bool_decide_eq_true in Hg. }
  destruct Hgo as (go & m1 & -> & Hm1 & Hgo). cbn [mbind res_bind].
  destruct (negb go || bool_decide (length sorted = 1%nat)) eqn:Eexit.
  - exists sorted, retracted, b, m1, xs. split_and!; try done.
    + apply orb_true_iff in Eexit as [Eg|El]; [right; apply Hgo; by destruct go|left].
      by apply bool_decide_eq_true in El.
    + intros -> Hlen. apply orb_true_iff in Eexit as [Eg|El]; [destruct go; [done|by destruct Hgo]|].
      apply bool_decide_eq_true in El. lia.
  - apply orb_false_iff in Eexit as [_ Hl1]. apply bool_decide_eq_false in Hl1.
    destruct sorted as [|idx sorted _] using rev_ind; [done|]. rewrite length_app in *. simpl in *.
    apply at_indices_app in Hx as (ys & zs & -> & Hys & Hz).
    inversion Hz as [|? r ? ? Hr Hz']; subst. inversion Hz'; subst.
    rewrite pop_snoc. cbn [mbind res_bind].
    assert (Hbr : rb_reqs b !! idx = Some r) by (rewrite (ls_keep _ _ _ _ _ Hls) by (by eapply loop_fresh); done).
    destruct (release_plain_req b m1 idx r ys (zlen sorted) Hbr) as (m2 & -> & Hm2).
    { eapply batch_inv_perm; [|exact Hm1]. solve_Permutation. }
    cbn [mbind res_bind].
    destruct (IH false b0 (set_rb_reqs (<[idx:=retracted_req r]> (rb_reqs b)) b) m2 sorted0 sorted
                (retracted ++ [idx]) ys) as (s' & r' & b' & m' & xs' & Hgo' & I1 & I2 & I3 & I4 & I5 & _ & I7);
      [lia|intros ->; simpl in *; lia|by eapply loop_step|done|done|].
    exists s', r', b', m', xs'. split_and!; try done; intros; lia.
Qed.

Lemma abort_last_ok b0 b m sorted0 sorted retracted xs :
  sorted ≠ [] → loop_st b0 b sorted0 sorted retracted → at_indices (rb_reqs b0) sorted xs → batch_inv m xs →
  (length sorted = 1%nat ∨ zlen xs ≤ kv_available m) →
  ∃ sorted' aborted b' m' xs' dead,
    abort_last monotonic sa sp b m sorted = Ok (sorted', aborted, b', m')
    ∧ batch_inv m' xs' ∧ zlen xs' ≤ kv_available m'
    ∧ sorted = sorted' ++ aborted ∧ xs = xs' ++ dead ∧ at_indices (rb_reqs b0) sorted' xs'
    ∧ at_indices (rb_reqs b') aborted (map aborted_req dead)
    ∧ b' = set_rb_reqs (rb_reqs b') b0 ∧ length (rb_reqs b') = length (rb_reqs b0)
    ∧ (∀ i, i ∉ aborted → rb_reqs b' !! i = rb_reqs b !! i)
    ∧ (dead = [] ∨ xs' = [] ∧ ∃ r, dead = [r]).
Proof.
  intros Hne Hls Hx Hm Hfit. unfold abort_last. pose proof (at_indices_length _ _ _ Hx) as Hlx.
  destruct (decide (length sorted ≤ 1)%nat) as [Hl1|Hl1]; cycle 1.
  { rewrite bool_decide_false by done. exists sorted, [], b, m, xs, []. rewrite !app_nil_r.
    destruct Hls. split_and!; try done; [lia|constructor|by left]. }
  rewrite bool_decide_true by done.
  destruct (check_plain b m (Some sorted) xs (loop_alive _ _ _ _ _ _ Hls Hx) Hm) as (m1 & -> & Hm1).
  cbn [mbind res_bind]. case_bool_decide as Hok.
  { exists sorted, [], b, m1, xs, []. rewrite !app_nil_r. destruct Hls. split_and!; try done; [constructor|by left]. }
  destruct sorted as [|i [|]]; [done| |simpl in Hl1; lia].
  inversion Hx as [|? r ? xs1 Hr Hx1]; subst. inversion Hx1; subst.
  change [i] with ([] ++ [i]) at 1. rewrite pop_snoc. cbn [mbind res_bind].
  assert (Hbr : rb_reqs b !! i = Some r)
    by (rewrite (ls_keep _ _ _ _ _ Hls); [done|by apply (loop_fresh b0 b sorted0 [])]).
  assert (Hlt : (i < length (rb_reqs b))%nat) by (by eapply lookup_lt_Some).
  unfold item. rewrite Hbr. cbn [mbind res_bind].
  destruct (release_plain_req (set_rb_reqs (<[i := set_dr_to_finish true r]> (rb_reqs b)) b) m1 i
              (set_dr_to_finish true r) [] 0) as (m2 & -> & Hm2);
    [simpl; by rewrite list_lookup_insert_eq|exact Hm1|]. cbn [mbind res_bind rb_reqs set_rb_reqs].
  rewrite list_insert_insert_eq.
  eexists [], [i], _, m2, [], [r]. split; [done|]. split; [done|].
  destruct (Hm2) as (c & a & p & held & L & -> & Hbm).
  split_and!; try done.
  - unfold kv_available. simpl. unfold TokenToKVPoolAllocator_available_size. rewrite <- zlen_app. apply zlen_nonneg.
  - simpl. repeat constructor. by rewrite list_lookup_insert_eq.
  - rewrite (ls_batch _ _ _ _ _ Hls). done.
  - simpl. rewrite length_insert. apply (ls_len _ _ _ _ _ Hls).
  - intros j Hj. simpl. rewrite list_lookup_insert_ne by set_solver. done.
  - right. split; [done|]. by exists r.
Qed.

End retract.

(** ** The order of retraction *)

Section order.
Context (sa : ServerArgs) (Hspec : sa_speculative_algorithm sa = None) (reqs : list DReq).

Let keyed := zip (map retract_key reqs) (seq 0 (length reqs)).

#[local] Instance key_ge_total : Total key_ge.
Proof. intros x y. unfold key_ge. lia. Qed.

#[local] Instance key_ge_trans : Transitive key_ge.
Proof. intros x y z. unfold key_ge. lia. Qed.

Lemma sort_indices_eq : sort_indices sa reqs = map snd (py_sort key_ge keyed).
Proof. unfold sort_indices, spec_none. by rewrite Hspec. Qed.

Lemma sort_indices_perm : sort_indices sa reqs ≡ₚ seq 0 (length reqs).
Proof.
  rewrite sort_indices_eq, py_sort_Permutation. unfold keyed.
  change (map snd) with (fmap (M:=list) (snd : (Z * Z) * nat → nat)).
  rewrite snd_zip; [done|]. by rewrite length_seq, length_map.
Qed.

Lemma keyed_elem k i : (k, i) ∈ keyed → ∃ r, reqs !! i = Some r ∧ k = retract_key r.
Proof.
  unfold keyed. intros (j & Hj)%list_elem_of_lookup. apply lookup_zip_Some in Hj as [Hk Hi].
  apply lookup_seq in Hi as [-> _]. rewrite list_lookup_fmap in Hk. simpl in *.
  destruct (reqs !! j) as [r|]; [|done]. exists r. by inversion Hk.
Qed.

(** A request taken out first has generated less, or as much from a longer input. *)
Definition retracted_before (v k : DReq) : Prop :=
  dr_output_len v < dr_output_len k ∨ dr_output_len v = dr_output_len k ∧ dr_input_len k ≤ dr_input_len v.

Lemma sort_indices_order s1 s2 i j x y :
  sort_indices sa reqs = s1 ++ s2 → i ∈ s1 → j ∈ s2 → reqs !! i = Some x → reqs !! j = Some y →
  retracted_before y x.
Proof.
  rewrite sort_indices_eq. intros Hs Hi Hj Hx Hy.
  pose proof (py_sort_sorted key_ge keyed) as Hsort. pose proof (py_sort_Permutation key_ge keyed) as Hp.
  set (l := py_sort key_ge keyed) in *. apply map_eq_app in Hs as (l1 & l2 & Hl & <- & <-).
  apply list_elem_of_fmap in Hi as ([ki i'] & -> & Hi). apply list_elem_of_fmap in Hj as ([kj j'] & -> & Hj).
  simpl in *. rewrite Hl in Hsort, Hp.
  assert (Hge : key_ge (ki, i') (kj, j')).
  { clear -Hsort Hi Hj. induction l1 as [|z l1 IH]; [by apply not_elem_of_nil in Hi|].
    inversion Hsort as [|? ? Hs' Hf]; subst. apply elem_of_cons in Hi as [<-|Hi]; [|by apply IH].
    apply (proj1 (Forall_forall _ _) Hf). set_solver. }
  destruct (keyed_elem ki i') as (x' & Hx' & ->); [rewrite <- Hp; set_solver|].
  destruct (keyed_elem kj j') as (y' & Hy' & ->); [rewrite <- Hp; set_solver|].
  assert (x' = x) by congruence. assert (y' = y) by congruence. subst.
  unfold key_ge, retract_key in Hge. simpl in Hge. unfold retracted_before. lia.
Qed.

End order.

(** ** The whole operation *)

Section whole.
Context {monotonic : nat → Z} {dfi : bool} {policy : string}.
Context (sa : ServerArgs) (sp : SpecArgs) (Hspec : sa_speculative_algorithm sa = None).
Context (Hstrip : sa_strip_thinking_cache sa = false).
Context (size width : Z) (ol : list nat) (os orows : list Z).
Let inv := batch_inv (monotonic:=monotonic) (dfi:=dfi) (policy:=policy) size width ol os orows.

(** The requests [victims] were retracted and [dead] aborted. *)
Record retraction (b b' : RunningBatch) (m' : Mem) (victims dead : list DReq) : Prop := {
  re_all : rb_reqs b ≡ₚ rb_reqs b' ++ victims ++ dead;
  re_mem : inv m' (rb_reqs b');
  re_fits : zlen (rb_reqs b') ≤ kv_available m';
  re_columns : rb_reqs b' = [] ∨ columns b';
  re_order k v : k ∈ rb_reqs b' → v ∈ victims → retracted_before v k;
  re_dead : dead = [] ∨ rb_reqs b' = [] ∧ ∃ r, dead = [r];
  re_progress : (1 < length (rb_reqs b))%nat → victims ≠ [];
  re_output : is_Some (rb_output_ids b) → is_Some (rb_output_ids b')
}.

(** What the loop and the abort leave behind is what [filter_batch] keeps. *)
Lemma filter_kept b b2 sorted xs retracted :
  columns b → b2 = set_rb_reqs (rb_reqs b2) b → length (rb_reqs b2) = length (rb_reqs b) →
  at_indices (rb_reqs b) sorted xs → at_indices (rb_reqs b2) sorted xs →
  (length sorted = length (rb_reqs b) → sorted = seq 0 (length (rb_reqs b))) →
  (length sorted = length (rb_reqs b) → rb_reqs b2 = rb_reqs b) →
  ∃ b', filter_batch b2 retracted (Some sorted) = Ok b' ∧ rb_reqs b' = xs ∧ (xs = [] ∨ columns b').
Proof.
  intros Hc Hb2 Hlen Hx Hx2 Hseq Hsame. destruct sorted as [|i sorted].
  { inversion Hx; subst. eexists. split; [done|]. split; [done|by left]. }
  destruct (decide (length (i :: sorted) = length (rb_reqs b))) as [Hl|Hl].
  - specialize (Hseq Hl). specialize (Hsame Hl). eexists. split; [|split; [|right]].
    + unfold filter_batch. rewrite bool_decide_false by done. rewrite bool_decide_true by congruence. done.
    + rewrite Hseq, Hsame in Hx2. pose proof (at_indices_all (rb_reqs b)) as Ha.
      apply pick_ok in Hx2, Ha. rewrite Hsame. congruence.
    + rewrite Hb2, Hsame. by destruct b.
  - destruct (filter_keep b (rb_reqs b2) (i :: sorted) xs) as (b' & Hf & Hb' & Hc' & _); try done; [congruence|].
    exists b'. split_and!; [|done|by right]. rewrite Hb2. exact Hf.
Qed.

(** The loop and the abort, by indices: [s2] stay, [ret] were retracted, [ab] was aborted. *)
Record selection (b b2 : RunningBatch) (m2 : Mem) (s2 ab ret : list nat) (xs vs dead : list DReq) : Prop := {
  se_sorted : sort_indices sa (rb_reqs b) = (s2 ++ ab) ++ rev ret;
  se_nodup : NoDup ((s2 ++ ab) ++ ret);
  se_stay : at_indices (rb_reqs b) s2 xs;
  se_dead : at_indices (rb_reqs b) ab dead;
  se_victims : at_indices (rb_reqs b) ret vs;
  se_retracted : at_indices (rb_reqs b2) ret (map retracted_req vs);
  se_aborted : at_indices (rb_reqs b2) ab (map aborted_req dead);
  se_others i : i ∉ ab ++ ret → rb_reqs b2 !! i = rb_reqs b !! i;
  se_batch : b2 = set_rb_reqs (rb_reqs b2) b;
  se_len : length (rb_reqs b2) = length (rb_reqs b);
  se_mem : inv m2 xs;
  se_fits : zlen xs ≤ kv_available m2;
  se_last : dead = [] ∨ xs = [] ∧ ∃ r, dead = [r];
  se_first : (1 < length (rb_reqs b))%nat → ret ≠ []
}.

Lemma retract_select b m :
  rb_reqs b ≠ [] → inv m (rb_reqs b) →
  ∃ s1 s2 ab ret b1 b2 m1 m2 xs vs dead,
    retract_loop monotonic sa sp (S (length (rb_reqs b))) true b m (sort_indices sa (rb_reqs b)) []
    = Ok (s1, ret, b1, m1)
    ∧ abort_last monotonic sa sp b1 m1 s1 = Ok (s2, ab, b2, m2) ∧ selection b b2 m2 s2 ab ret xs vs dead.
Proof.
  intros Hne Hm. set (s0 := sort_indices sa (rb_reqs b)).
  pose proof (sort_indices_perm sa Hspec (rb_reqs b)) as Hp. fold s0 in Hp.
  assert (Hnd0 : NoDup s0) by (rewrite Hp; apply NoDup_seq).
  assert (Hl0 : length s0 = length (rb_reqs b)) by (by rewrite Hp, length_seq).
  destruct (at_indices_perm (rb_reqs b) _ s0 _ (symmetry Hp) (at_indices_all _)) as (xs0 & Hxs0 & Hx0).
  assert (Hls0 : loop_st b b s0 s0 []) by (split; rewrite ?app_nil_r; try done; [by destruct b|set_solver]).
  destruct (retract_loop_ok (monotonic:=monotonic) (dfi:=dfi) (policy:=policy) sa sp Hspec Hstrip size width ol os orows
      (S (length (rb_reqs b))) true b b m s0 s0 [] xs0)
    as (s1 & ret & b1 & m1 & xs1 & Hloop & Hne1 & Hls & Hx1 & Hm1 & Hfit1 & Hfirst & Hle1); try done;
    [lia|intros E; rewrite E in Hl0; by destruct (rb_reqs b)|by eapply batch_inv_perm|].
  destruct (abort_last_ok (monotonic:=monotonic) (dfi:=dfi) (policy:=policy) sa sp Hspec Hstrip size width ol os orows
      b b1 m1 s0 s1 ret xs1)
    as (s2 & ab & b2 & m2 & xs2 & dead & Hab & Hm2 & Hfit & -> & -> & Hx2 & Hdead & Hb2 & Hlen2 & Hk2 & Hd); try done.
  pose proof (ls_split _ _ _ _ _ Hls) as Hsplit.
  assert (Hnd : NoDup ((s2 ++ ab) ++ ret)) by (rewrite (Permutation_rev ret) at 1; by rewrite <- Hsplit).
  rewrite Hsplit in Hx0. apply at_indices_app in Hx0 as (? & vs0 & _ & _ & Hvs0).
  destruct (at_indices_perm (rb_reqs b) (rev ret) ret vs0) as (vs & _ & Hvs); [by rewrite <- Permutation_rev|done|].
  apply at_indices_app in Hx1 as (xs2' & dead' & Hd' & Hx2' & Hdead').
  assert (xs2' = xs2) as -> by (apply pick_ok in Hx2, Hx2'; congruence). apply app_inv_head in Hd' as <-.
  exists (s2 ++ ab), s2, ab, ret, b1, b2, m1, m2, xs2, vs, dead. split; [done|]. split; [done|]. split; try done.
  - eapply at_indices_change; [|exact Hvs]. intros i y Hi Hy. rewrite Hk2 by (apply NoDup_app in Hnd; set_solver).
    by apply (ls_done _ _ _ _ _ Hls).
  - intros i Hi. rewrite Hk2 by set_solver. apply (ls_keep _ _ _ _ _ Hls). set_solver.
  - intros Hlen ->. simpl in Hsplit. rewrite app_nil_r in Hsplit.
    rewrite Hsplit in Hfirst, Hl0. specialize (Hfirst eq_refl). lia.
Qed.

Lemma selection_filter b b2 m2 s2 ab ret xs vs dead :
  columns b → rb_reqs b ≠ [] → selection b b2 m2 s2 ab ret xs vs dead →
  ∃ b', filter_batch b2 [] (Some s2) = Ok b' ∧ rb_reqs b' = xs ∧ (xs = [] ∨ columns b').
Proof.
  intros Hc Hne S. pose proof (sort_indices_perm sa Hspec (rb_reqs b)) as Hp.
  pose proof (se_nodup _ _ _ _ _ _ _ _ _ S) as Hnd. pose proof (se_others _ _ _ _ _ _ _ _ _ S) as Ho.
  assert (Hshort : length s2 = length (rb_reqs b) → length (rb_reqs b) = 1%nat ∧ ab = [] ∧ ret = []).
  { intros E. assert (Hz : length (rb_reqs b) = (length s2 + length ab + length ret)%nat)
      by (rewrite <- (length_seq (length (rb_reqs b)) 0), <- Hp, (se_sorted _ _ _ _ _ _ _ _ _ S), !length_app, length_rev; lia).
    assert (length ab = 0%nat ∧ length ret = 0%nat) as [->%length_zero_iff_nil ->%length_zero_iff_nil] by lia.
    split_and!; try done. destruct (decide (1 < length (rb_reqs b))%nat) as [Hl|Hl].
    - by destruct (se_first _ _ _ _ _ _ _ _ _ S Hl).
    - destruct (rb_reqs b) as [|? []]; simpl in *; [done|done|lia]. }
  apply (filter_kept b b2 s2 xs [] Hc); try apply S.
  - eapply at_indices_ext; [|apply S]. intros i Hi. apply Ho. apply NoDup_app in Hnd as (Hnd & Hdis & _).
    apply NoDup_app in Hnd as (_ & Hdis' & _). set_solver.
  - intros E. destruct (Hshort E) as (E1 & -> & ->). pose proof (se_sorted _ _ _ _ _ _ _ _ _ S) as Hs.
    rewrite !app_nil_r in Hs. simpl in Hs. rewrite E1, Hs in *. by apply Permutation_singleton_r in Hp.
  - intros E. destruct (Hshort E) as (_ & -> & ->). apply list_eq. intros i. apply Ho. set_solver.
Qed.

Lemma retract_decode_spec {F} `{PyNum F} b m :
  rb_reqs b ≠ [] → columns b → inv m (rb_reqs b) →
  ∃ victims dead b' m',
    retract_decode monotonic sa sp b m
    = Ok (map retracted_req victims, new_estimate_ratio (rb_reqs b'), map aborted_req dead, b', m')
    ∧ retraction b b' m' victims dead.
Proof.
  intros Hne Hc Hm.
  destruct (retract_select b m Hne Hm) as (s1 & s2 & ab & ret & b1 & b2 & m1 & m2 & xs & vs & dead & Hloop & Hab & S).
  destruct (selection_filter _ _ _ _ _ _ _ _ _ Hc Hne S) as (b' & Hf & Hb' & Hcol).
  pose proof (sort_indices_perm sa Hspec (rb_reqs b)) as Hp.
  destruct S as [S1 S2 S3 S4 S5 S6 S7 S8 S9 S10 S11 S12 S13 S14]. exists vs, dead, b', m2. split.
  - unfold retract_decode. rewrite Hloop. cbn [mbind res_bind]. rewrite Hab. cbn [mbind res_bind].
    rewrite (pick_ok _ _ _ S6). cbn [mbind res_bind]. rewrite (pick_ok _ _ _ S7). cbn [mbind res_bind].
    by rewrite Hf.
  - subst xs. split; try done.
    + trans ((rb_reqs b' ++ dead) ++ vs); [|solve_Permutation].
      eapply (at_indices_same (rb_reqs b)); [|apply at_indices_all|].
      2:{ apply at_indices_app. eexists _, _. split; [done|]. split; [|exact S5].
          apply at_indices_app. by eexists _, _. }
      by rewrite <- Hp, S1, <- Permutation_rev.
    + intros k v Hk Hv. destruct (at_indices_elem _ _ _ _ S3 Hk) as (i & Hi & Hik).
      destruct (at_indices_elem _ _ _ _ S5 Hv) as (j & Hj & Hjv).
      eapply (sort_indices_order sa Hspec (rb_reqs b) (s2 ++ ab) (rev ret)); try done; [set_solver|].
      by rewrite <- Permutation_rev.
    + intros Hlen ->. inversion S5; subst. by apply S14.
    + intros Hout. apply (filter_batch_output _ _ _ _ Hf). by rewrite S9.
Qed.

(** ** Retracting the whole batch *)

Lemma release_all_ok suf : ∀ pre b m,
  rb_reqs b = map retracted_req pre ++ suf → inv m suf →
  ∃ m', release_all monotonic sa b m (seq (length pre) (length suf))
        = Ok (set_rb_reqs (map retracted_req (pre ++ suf)) b, m') ∧ inv m' [].
Proof.
  induction suf as [|r suf IH]; intros pre b m Hb Hm; cbn [length seq release_all].
  { exists m. split; [|done]. rewrite !app_nil_r in *. rewrite <- Hb. by destruct b. }
  assert (Hr : rb_reqs b !! length pre = Some r) by (rewrite Hb; by rewrite list_lookup_middle by (by rewrite length_map)).
  destruct (release_plain_req sa Hspec Hstrip size width ol os orows b m (length pre) r suf
    (zlen (rb_reqs b) - Z.of_nat (length pre)) Hr Hm) as (m1 & -> & Hm1). cbn [mbind res_bind].
  destruct (IH (pre ++ [r]) (set_rb_reqs (<[length pre := retracted_req r]> (rb_reqs b)) b) m1) as (m2 & Hgo & Hm2).
  { simpl. rewrite Hb, map_app, <- app_assoc. rewrite <- (length_map retracted_req pre) at 1.
    by rewrite insert_app_r_alt, Nat.sub_diag by done. }
  { done. }
  exists m2. split; [|done]. rewrite length_app, Nat.add_1_r in Hgo. rewrite Hgo, <- app_assoc. by destruct b.
Qed.

Lemma filter_everything b : filter_batch b (map dr_id (rb_reqs b)) None = Ok (set_rb_reqs [] b).
Proof.
  unfold filter_batch.
  assert (He : List.filter (λ i, match rb_reqs b !! i with
      | Some r => negb (dr_finished r) && bool_decide (dr_id r ∉ map dr_id (rb_reqs b)) | None => false end)
      (seq 0 (length (rb_reqs b))) = []).
  { rewrite <- (List.filter_false (seq 0 (length (rb_reqs b)))). apply List.filter_ext. intros i.
    destruct (rb_reqs b !! i) as [r|] eqn:Er; [|done]. rewrite bool_decide_false; [apply andb_false_r|].
    intros Hn. apply Hn. apply list_elem_of_fmap_2. by eapply list_elem_of_lookup_2. }
  by rewrite He.
Qed.

Lemma retract_all_spec b m :
  inv m (rb_reqs b) →
  ∃ m', retract_all monotonic sa b m = Ok (map retracted_req (rb_reqs b), set_rb_reqs [] b, m') ∧ inv m' [].
Proof.
  intros Hm. destruct (release_all_ok (rb_reqs b) [] b m eq_refl Hm) as (m' & Hgo & Hm'). exists m'. split; [|done].
  unfold retract_all. change 0%nat with (length (@nil DReq)). rewrite Hgo. cbn [mbind res_bind app rb_reqs set_rb_reqs].
  pose proof (filter_everything (set_rb_reqs (map retracted_req (rb_reqs b)) b)) as Hf. cbn [rb_reqs set_rb_reqs] in Hf.
  rewrite Hf. cbn [mbind res_bind]. by destruct b.
Qed.

End whole.

(** ** Merging *)

Lemma existsb_logprob_app b other :
  columns b → columns other →
  rb_return_logprob b || rb_return_logprob other = existsb dr_return_logprob (rb_reqs b ++ rb_reqs other).
Proof. intros Hb Ho. by rewrite existsb_app, (co_logprob _ Hb), (co_logprob _ Ho). Qed.

(** The log-probability columns of a merged batch. *)
Lemma merge_logprobs b other :
  columns b → columns other →
  ∃ t u,
    match rb_return_logprob b, rb_return_logprob other with
    | true, true =>
        tops' ← match rb_top_logprobs_nums other with Some l => Ok l | None => Raise TypeError end;
        tops ← extend_opt (rb_top_logprobs_nums b) tops';
        tids' ← match rb_token_ids_logprobs other with Some l => Ok l | None => Raise TypeError end;
        tids ← extend_opt (rb_token_ids_logprobs b) tids';
        Ok (tops, tids)
    | true, false =>
        tops ← extend_opt (rb_top_logprobs_nums b) (replicate (length (rb_reqs other)) 0);
        tids ← extend_opt (rb_token_ids_logprobs b) (replicate (length (rb_reqs other)) None);
        Ok (tops, tids)
    | false, true =>
        tops' ← match rb_top_logprobs_nums other with Some l => Ok l | None => Raise TypeError end;
        tids' ← match rb_token_ids_logprobs other with Some l => Ok l | None => Raise TypeError end;
        Ok (Some (replicate (length (rb_reqs b)) 0 ++ tops'),
            Some (replicate (length (rb_reqs b)) None ++ tids'))
    | false, false => Ok (rb_top_logprobs_nums b, rb_token_ids_logprobs b)
    end = Ok (t, u)
    ∧ (rb_return_logprob b || rb_return_logprob other = true →
       ∃ t' u', t = Some t' ∧ u = Some u' ∧ length t' = length (rb_reqs b ++ rb_reqs other)
                ∧ length u' = length (rb_reqs b ++ rb_reqs other)).
Proof.
  intros Hb Ho. pose proof (co_tops _ Hb) as Tb. pose proof (co_tops _ Ho) as To.
  destruct (rb_return_logprob b), (rb_return_logprob other).
  - destruct (Tb eq_refl) as (t & u & -> & -> & ? & ?). destruct (To eq_refl) as (t' & u' & -> & -> & ? & ?).
    eexists _, _. split; [done|]. intros _. exists (t ++ t'), (u ++ u'). rewrite !length_app. split_and!; (done || lia).
  - destruct (Tb eq_refl) as (t & u & -> & -> & ? & ?). eexists _, _. split; [done|]. intros _.
    eexists _, _. split_and!; [done|done| |]; rewrite !length_app, length_replicate; lia.
  - destruct (To eq_refl) as (t & u & -> & -> & ? & ?). eexists _, _. split; [done|]. intros _.
    eexists _, _. split_and!; [done|done| |]; rewrite !length_app, length_replicate; lia.
  - eexists _, _. by split.
Qed.

(** ** Properties *)

(** Merging two batches appends the requests of the second one and keeps the columns of the
    result those of its requests: rows, lengths, their sum, pending tokens and log-probability
    settings. *)
Theorem merge_batch_columns b other :
  columns b → columns other → (rb_output_ids other = None → rb_output_ids b = None) →
  ∃ b', merge_batch b other = Ok b' ∧ rb_reqs b' = rb_reqs b ++ rb_reqs other ∧ columns b'.
Proof.
  intros Hb Ho Hout. destruct (merge_logprobs b other Hb Ho) as (t & u & Hlp & Htu).
  pose proof (existsb_logprob_app b other Hb Ho) as Hex.
  assert (Hoi : ∃ o, match rb_output_ids b, rb_output_ids other with
    | Some o, Some o' => Ok (Some (o ++ o')) | Some _, None => Raise TypeError | None, _ => Ok None end = Ok o
    ∧ ∀ o', o = Some o' → pending o' (rb_reqs b ++ rb_reqs other)).
  { destruct (rb_output_ids b) as [o|] eqn:Eb; [|by exists None].
    destruct (rb_output_ids other) as [o'|] eqn:Eo; [|by specialize (Hout eq_refl)].
    exists (Some (o ++ o')). split; [done|]. intros ? [= <-].
    apply Forall2_app; [by apply (co_output _ Hb)|by apply (co_output _ Ho)]. }
  destruct Hoi as (o & Hoi & Hlo). unfold merge_batch. rewrite Hoi. cbn [mbind res_bind]. rewrite Hlp. cbn [mbind res_bind].
  eexists. split; [done|]. split; [done|]. destruct Hb, Ho. split; simpl; try done.
  - by apply Forall2_app.
  - by apply Forall2_app.
  - rewrite !length_app. lia.
  - rewrite sumZ_app. lia.
Qed.

(** C22: retraction returns, whatever the memory looks like: the retracted requests, the aborted one
    and those that stay are the requests of the batch; those that stay are untouched, their columns
    are theirs and one new token each fits into memory; every retracted one has generated less than
    every one that stays (or as much from an input at least as long); only a single remaining
    request is ever aborted; of two or more requests at least one is retracted; and the memory of
    those taken out is back where it belongs. *)
Theorem retract_decode_ok {F} `{PyNum F} monotonic dfi policy sa sp size width ol os orows b m :
  sa_speculative_algorithm sa = None → sa_strip_thinking_cache sa = false →
  rb_reqs b ≠ [] → columns b →
  batch_inv (monotonic:=monotonic) (dfi:=dfi) (policy:=policy) size width ol os orows m (rb_reqs b) →
  ∃ victims dead b' m',
    retract_decode (F:=F) monotonic sa sp b m
    = Ok (map retracted_req victims, new_estimate_ratio (rb_reqs b'), map aborted_req dead, b', m')
    ∧ retraction (monotonic:=monotonic) (dfi:=dfi) (policy:=policy) size width ol os orows b b' m' victims dead.
Proof. intros Hspec Hstrip. by apply retract_decode_spec. Qed.

(** Retracting the whole batch (when the scheduler pauses) takes every request out of the batch
    and gives all their slots, rows and locks back. *)
Theorem retract_all_ok monotonic dfi policy sa size width ol os orows b m :
  sa_speculative_algorithm sa = None → sa_strip_thinking_cache sa = false →
  batch_inv (monotonic:=monotonic) (dfi:=dfi) (policy:=policy) size width ol os orows m (rb_reqs b) →
  ∃ m', retract_all monotonic sa b m = Ok (map retracted_req (rb_reqs b), set_rb_reqs [] b, m')
    ∧ batch_inv (monotonic:=monotonic) (dfi:=dfi) (policy:=policy) size width ol os orows m' [].
Proof. intros Hspec Hstrip. by apply retract_all_spec. Qed.
