(* ===== verification/DecodeProps.v ===== *)
(** * The decode step

    [prepare_for_decode] gives every request of a batch that fits into memory one new slot and
    writes it into the request's row; the memory invariant of DecodeMem holds for the longer
    requests.  With the retraction of RetractProps this makes [update_running_batch] total: a decode
    step neither runs out of memory nor loses a request. *)

From S2P Require Import Prelude AllocKernels Allocator RadixKey RadixTree RadixInv RadixMatch RadixEvict RadixProps.
From S2P Require Import ReqPool ReqCache CacheAlloc PyFloat DecodeBatch DecodeMem RetractProps.

(** ** Writing one cell per row *)

Lemma pool_row_table p i row : pool_row p (Some i) = Ok row ↔ 0 ≤ i ∧ rp_req_to_token p !! Z.to_nat i = Some row.
Proof.
  unfold pool_row, py_get. case_bool_decide; [|naive_solver].
  destruct (rp_req_to_token p !! Z.to_nat i); naive_solver.
Qed.

Definition with_table (p : ReqToTokenPool) (table : list (list Z)) : ReqToTokenPool := set_rp_req_to_token table p.

Lemma pool_row_insert p i row j k :
  pool_row p (Some i) = Ok row → 0 ≤ j →
  pool_row (with_table p (<[Z.to_nat i := k]> (rp_req_to_token p))) (Some j)
  = if bool_decide (j = i) then Ok k else pool_row p (Some j).
Proof.
  intros [Hi Hr]%pool_row_table Hj. unfold pool_row, py_get. simpl. rewrite bool_decide_true by done.
  case_bool_decide as E.
  - subst j. rewrite list_lookup_insert_eq by (by eapply lookup_lt_Some). done.
  - rewrite list_lookup_insert_ne by (intros E2; apply E; lia). done.
Qed.

(** The row of a cell after the write. *)
Definition cell_row (p p' : ReqToTokenPool) (cell : Z * Z) (v : Z) : Prop :=
  ∀ row, pool_row p (Some cell.1) = Ok row → pool_row p' (Some cell.1) = Ok (<[Z.to_nat cell.2 := int32 v]> row).

Lemma write_cells_len cells : ∀ vs table table', write_cells cells vs table = Ok table' → length table' = length table.
Proof.
  induction cells as [|[i j] cells IH]; intros [|v vs] table table' Hw; cbn [write_cells] in Hw; try done; [by inversion Hw|].
  destruct (py_get table i); [|done]. case_bool_decide; [|done]. rewrite (IH _ _ _ Hw). apply length_insert.
Qed.

Lemma write_cells_ok p cells vs :
  NoDup cells.*1 → length cells = length vs →
  Forall (λ c, ∃ row, pool_row p (Some c.1) = Ok row ∧ 0 ≤ c.2 < zlen row) cells →
  ∃ table, write_cells cells vs (rp_req_to_token p) = Ok table
    ∧ (∀ i, 0 ≤ i → i ∉ cells.*1 → pool_row (with_table p table) (Some i) = pool_row p (Some i))
    ∧ Forall2 (cell_row p (with_table p table)) cells vs
    ∧ (∀ w, Forall (λ row, zlen row = w) (rp_req_to_token p) → Forall (λ row, zlen row = w) table).
Proof.
  revert p vs. induction cells as [|[i j] cells IH]; intros p vs Hnd Hlen Hc.
  { destruct vs; [|done]. exists (rp_req_to_token p). split_and!; [done| |constructor|done]. by destruct p. }
  destruct vs as [|v vs]; [done|]. cbn [fmap list_fmap fst] in *. apply NoDup_cons in Hnd as [Hi Hnd].
  inversion Hc as [|? ? (row & Hrow & Hj) Hc']; subst. simpl in Hrow, Hj.
  set (p1 := with_table p (<[Z.to_nat i := <[Z.to_nat j := int32 v]> row]> (rp_req_to_token p))).
  pose proof (proj1 (pool_row_table _ _ _) Hrow) as [Hi0 Hlk].
  assert (Hp1 : ∀ k, 0 ≤ k → pool_row p1 (Some k)
    = if bool_decide (k = i) then Ok (<[Z.to_nat j := int32 v]> row) else pool_row p (Some k))
    by (intros k Hk; by apply (pool_row_insert p i row)).
  assert (Hne : ∀ c, c ∈ cells → c.1 ≠ i) by (intros c Hcin He; apply Hi; rewrite <- He; by apply list_elem_of_fmap_2).
  destruct (IH p1 vs) as (table & Hw & Hout & Hin & Hwid); [done|by inversion Hlen| |].
  { rewrite Forall_forall in Hc' |- *. intros c Hcin. destruct (Hc' c Hcin) as (row' & Hr' & Hb).
    exists row'. split; [|done]. pose proof (proj1 (pool_row_table _ _ _) Hr') as [Hc0 _].
    rewrite Hp1, bool_decide_false by auto. done. }
  exists table. split_and!.
  - cbn [write_cells]. unfold py_get. rewrite bool_decide_true by done. rewrite Hlk.
    rewrite bool_decide_true by done. exact Hw.
  - intros k Hk Hk'. rewrite not_elem_of_cons in Hk'. destruct Hk' as [Hki Hk'].
    change (with_table p table) with (with_table p1 table).
    rewrite Hout by done. by rewrite Hp1, bool_decide_false.
  - constructor.
    + intros row' Hr'. simpl in *. assert (row' = row) as -> by congruence.
      change (with_table p table) with (with_table p1 table). rewrite Hout by done.
      by rewrite Hp1, bool_decide_true.
    + change (with_table p table) with (with_table p1 table).
      apply Forall2_same_length_lookup_2; [by inversion Hlen|]. intros k c u Hck Huk row' Hr'.
      pose proof (Forall2_lookup_lr _ _ _ _ _ _ Hin Hck Huk) as Hcell. apply Hcell.
      pose proof (proj1 (pool_row_table _ _ _) Hr') as [Hc0 _].
      rewrite Hp1, bool_decide_false; [done|by eapply Hne, list_elem_of_lookup_2|done].
  - intros w Hw'. apply Hwid. simpl. apply Forall_insert; [done|].
    unfold zlen. rewrite length_insert. by apply (Forall_lookup_1 _ _ _ _ Hw' Hlk).
Qed.

(** ** One more token *)

Definition next_req (q : Req) : Req :=
  set_rq_kv_allocated_len (rq_kv_allocated_len q + 1) (set_rq_kv_committed_len (rq_kv_committed_len q + 1) q).

(** The request has a token for the next slot, and its row has a cell. *)
Definition can_decode (width : Z) (q : Req) : Prop :=
  rq_kv_committed_len q < zlen (rq_origin_input_ids q ++ rq_output_ids q) ∧ rq_kv_committed_len q < width.

Lemma take_insert_snoc {A} (l : list A) n x : (n < length l)%nat → take (S n) (<[n := x]> l) = take n l ++ [x].
Proof.
  intros Hn. rewrite (take_S_r _ _ x); [|by apply list_lookup_insert_eq].
  by rewrite take_insert_ge.
Qed.

Lemma next_req_holds width c p p' q i v :
  holds c p q → can_decode width q → rq_req_pool_idx q = Some i → zlen (row_of p q) = width → slot32 v →
  cell_row p p' (i, rq_kv_committed_len q) v →
  holds c p' (next_req q) ∧ private_slots p' (next_req q) = private_slots p q ++ [v].
Proof.
  intros [H1 H2 [H3 H3'] H4 H5 H6 H7 H8 H9] [D1 D2] Hi Hw Hv Hcell. rewrite Hi in H1.
  specialize (Hcell _ H1). cbn [fst snd] in Hcell. rewrite int32_id in Hcell by done.
  assert (Hrow : row_of p' (next_req q) = <[Z.to_nat (rq_kv_committed_len q) := v]> (row_of p q))
    by (unfold row_of at 1; change (rq_req_pool_idx (next_req q)) with (rq_req_pool_idx q); by rewrite Hi, Hcell).
  assert (Hlt : (Z.to_nat (rq_kv_committed_len q) < length (row_of p q))%nat) by (unfold zlen in *; lia).
  assert (Hs : Z.to_nat (rq_kv_committed_len q + 1) = S (Z.to_nat (rq_kv_committed_len q))) by lia.
  split.
  - split; rewrite ?Hrow; simpl; try done; try lia.
    + change (pool_row p' (rq_req_pool_idx q) = Ok (<[Z.to_nat (rq_kv_committed_len q) := v]> (row_of p q))).
      by rewrite Hi.
    + unfold zlen. rewrite length_insert. unfold zlen in *. lia.
    + rewrite take_insert_ge by lia. exact H7.
  - unfold private_slots. rewrite Hrow. simpl. rewrite Hs, take_insert_snoc by done.
    rewrite drop_app_le; [done|]. rewrite length_take. lia.
Qed.

Definition cell_of (q : Req) : Z * Z := (row_index q, rq_kv_committed_len q).

Lemma holds_idx c p q : holds c p q → rq_req_pool_idx q = Some (row_index q).
Proof.
  intros Hh. pose proof (ho_row _ _ _ Hh) as Hr. unfold row_index. by destruct (rq_req_pool_idx q).
Qed.

Lemma holds_width width c p q :
  holds c p q → Forall (λ row, zlen row = width) (rp_req_to_token p) → zlen (row_of p q) = width.
Proof.
  intros Hh Hw. pose proof (ho_row _ _ _ Hh) as Hr. rewrite (holds_idx _ _ _ Hh) in Hr.
  apply pool_row_table in Hr as [_ Hr]. by apply (Forall_lookup_1 _ _ _ _ Hw Hr).
Qed.

(** The last slot of a request. *)
Definition ends_with (p : ReqToTokenPool) (q : Req) (v : Z) : Prop := last (private_slots p q) = Some v.

Lemma next_reqs width c p p' reqs out :
  Forall (holds c p) reqs → Forall (can_decode width) reqs → Forall (λ row, zlen row = width) (rp_req_to_token p) →
  Forall slot32 out → Forall2 (cell_row p p') (map cell_of reqs) out →
  Forall (holds c p') (map next_req reqs)
  ∧ concat (map (private_slots p') (map next_req reqs)) ≡ₚ out ++ concat (map (private_slots p) reqs)
  ∧ Forall2 (ends_with p') (map next_req reqs) out.
Proof.
  intros Hh Hd Hw. revert out. induction Hh as [|q reqs Hq Hh IH]; intros out Ho Hc; cbn [map] in *.
  { inversion Hc; subst. split_and!; [constructor|done|constructor]. }
  inversion Hc as [|? v ? out' Hcell Hc']; subst. inversion Hd as [|? ? Hdq Hd']; subst.
  inversion Ho as [|? ? Hv Ho']; subst. destruct (IH Hd' out' Ho' Hc') as (IH1 & IH2 & IH3).
  destruct (next_req_holds width c p p' q (row_index q) v) as [N1 N2]; try done;
    [by eapply holds_idx|by eapply holds_width|].
  split_and!; [by constructor| |constructor; [|done]].
  - cbn [concat]. rewrite N2, IH2. solve_Permutation.
  - unfold ends_with. by rewrite N2, last_snoc.
Qed.

Section step.
Context {monotonic : nat → Z} {dfi : bool} {policy : string}.
Context (size width : Z) (ol : list nat) (os orows : list Z) (Hsize : size < 2 ^ 31).
Let mem_ok := batch_mem (monotonic:=monotonic) (dfi:=dfi) (policy:=policy) true size width ol os orows.

(** Slots for a batch that fits: nothing is evicted. *)
Lemma alloc_fits c a p held L l n :
  mem_ok c a p held L l → 0 ≤ n ≤ TokenToKVPoolAllocator_available_size a →
  ∃ out a', alloc_token_slots (Radix c) (TokenPool a) n false = Ok (out, None, Radix c, TokenPool a')
    ∧ zlen out = n ∧ Forall slot32 out ∧ is_not_in_free_group a' = true ∧ al_page_size a' = 1
    ∧ token_inv size (a', out ++ tree_slots c L ++ concat (map (private_slots p) l) ++ os).
Proof.
  intros [B1 B2 B3 B4 B5 B6 B7 B8 B9 B10 B11] Hn.
  unfold alloc_token_slots, evict_from_tree_cache. cbn [pool_available_size].
  rewrite bool_decide_false by lia. cbn [mbind res_bind pool_alloc].
  destruct (TokenToKVPoolAllocator_alloc a n) as [o a'] eqn:Ha. cbn [mbind res_bind].
  pose proof (token_alloc_fails size a _ n ltac:(lia) B7) as Hf. rewrite Ha in Hf. cbn [fst] in Hf.
  pose proof (token_alloc_inv size a _ n o a' ltac:(lia) B7 Ha) as Hi.
  destruct o as [out|]; [|pose proof (proj1 Hf eq_refl); lia].
  destruct (token_alloc_fresh size a _ n out a' ltac:(lia) B7 Ha) as (Hz & _ & Hb).
  exists out, a'. split; [done|]. split; [done|]. split.
  { apply Forall_forall. intros x Hx. destruct (Hb x Hx) as [_ Hx']. unfold slot32. lia. }
  rewrite token_alloc_cases in Ha by lia. cbn zeta in Ha.
  destruct (merged_for_fields a n) as (_ & F2 & _ & _ & _ & F6 & _).
  case_bool_decide; [done|]. injection Ha as _ <-. split_and!; [simpl; congruence|simpl; congruence|exact Hi].
Qed.

Lemma NoDup_seqZ_perm (l k : list Z) n : l ++ k ≡ₚ seqZ 1 n → NoDup l.
Proof. intros Hp. assert (NoDup (l ++ k)) as Hnd by (rewrite Hp; apply NoDup_seqZ). by apply NoDup_app in Hnd as [? _]. Qed.

(** Allocating for the next token of every request and writing the slots into the rows. *)
Lemma alloc_decode_ok c a p held L reqs uninit :
  mem_ok c a p held L reqs → Forall (can_decode width) reqs →
  zlen reqs ≤ TokenToKVPoolAllocator_available_size a →
  ∃ out a' p',
    alloc_for_decode (mkScheduleBatch reqs [] [] 0 (map rq_kv_committed_len reqs) (map row_index reqs) None) 1
      (Radix c) (TokenPool a) p uninit = Ok (out, Radix c, TokenPool a', p')
    ∧ zlen out = zlen reqs ∧ Forall2 (ends_with p') (map next_req reqs) out
    ∧ mem_ok c a' p' held L (map next_req reqs).
Proof.
  intros Hm Hd Hfit. destruct (alloc_fits c a p held L reqs (zlen reqs) Hm) as (out & a' & Ha & Hz & H32 & Hg & Hpg & Hi);
    [split; [apply zlen_nonneg|done]|].
  destruct Hm as [B1 B2 B3 B4 B5 B6 B7 B8 B9 B10 B11].
  assert (Hzip : zip (map row_index reqs) (map rq_kv_committed_len reqs) = map cell_of reqs)
    by (clear; induction reqs as [|q l IH]; [done|]; simpl; by rewrite IH).
  assert (Hrows : (map cell_of reqs).*1 = map row_index reqs) by exact (map_map cell_of fst reqs).
  destruct (write_cells_ok p (map cell_of reqs) out) as (table & Hw & Hout & Hcell & Hwid).
  { rewrite Hrows. rewrite Permutation_app_comm, <- app_assoc in B9. by eapply NoDup_seqZ_perm. }
  { rewrite length_map. unfold zlen in Hz. lia. }
  { apply Forall_forall. intros cell (q & -> & Hq)%list_elem_of_fmap.
    pose proof (proj1 (Forall_forall _ _) B8 q Hq) as Hh. pose proof (proj1 (Forall_forall _ _) Hd q Hq) as [_ D2].
    exists (row_of p q). unfold cell_of. cbn [fst snd]. rewrite <- (holds_idx _ _ _ Hh), (holds_width width _ _ _ Hh B10).
    split; [apply Hh|]. pose proof (ho_protected _ _ _ Hh). lia. }
  destruct (next_reqs width c p (with_table p table) reqs out B8 Hd B10 H32 Hcell) as (N1 & N2 & N3).
  exists out, a', (with_table p table). split; [|split; [done|split; [done|]]].
  - unfold alloc_for_decode. cbn [ba_seq_lens ba_req_pool_indices ba_encoder_lens cache_page_size].
    destruct B2 as [-> _]. rewrite bool_decide_true by done.
    replace (zlen (map rq_kv_committed_len reqs) * 1) with (zlen reqs) by (unfold zlen; rewrite length_map; lia).
    rewrite Ha. cbn [mbind res_bind]. by rewrite Hzip, Hw.
  - split; try done.
    + rewrite B3. rewrite map_map. done.
    + eapply token_inv_perm; [|exact Hi]. rewrite N2. solve_Permutation.
    + rewrite map_map. done.
    + by apply Hwid.
    + destruct B11 as [B11 B12]. split; [|done]. unfold zlen in *. simpl. by rewrite (write_cells_len _ _ _ _ Hw).
Qed.

End step.

(** ** The batch *)

Section batch.
Context {monotonic : nat → Z} {dfi : bool} {policy : string}.
Context (size width : Z) (ol : list nat) (os orows : list Z) (Hsize : size < 2 ^ 31).
Let inv := batch_inv (monotonic:=monotonic) (dfi:=dfi) (policy:=policy) size width ol os orows.

Definition unfinished (r : DReq) : bool := negb (dr_finished r).

(** A batch after the allocation of its next tokens: [out] are the new slots, in the order of the
    requests, each the last one of its request. *)
Record decoded (b b' : RunningBatch) (p' : ReqToTokenPool) (out : list Z) : Prop := {
  de_reqs : rb_reqs b' = map count_decode (rb_reqs b);
  de_columns : columns b';
  de_out : rb_out_cache_loc b' = Some out;
  de_len : zlen out = zlen (rb_reqs b);
  de_slots : Forall2 (ends_with p') (map dr_req (rb_reqs b')) out;
  de_input : rb_input_ids b' = rb_output_ids b;
  de_full : rb_batch_is_full b' = rb_batch_is_full b
}.

Lemma count_decode_columns b o out :
  Forall (λ r, dr_finished r = false) (rb_reqs b) → columns b →
  columns (mkRunningBatch (map count_decode (rb_reqs b)) (rb_req_pool_indices b)
        (map (λ s, s + 1) (rb_seq_lens b)) (map (λ s, s + 1) (rb_orig_seq_lens b))
        (rb_seq_lens_sum b + zlen (rb_reqs b)) o None out
        (rb_return_logprob b) (rb_top_logprobs_nums b) (rb_token_ids_logprobs b)
        (rb_has_stream b) (rb_has_grammar b) (rb_batch_is_full b)).
Proof.
  intros Hf [C1 C2 C3 C4 C5 C6 C7]. split; simpl; rewrite ?length_map; try done.
  - unfold column. rewrite Forall2_fmap_r. exact C1.
  - unfold column. rewrite Forall2_fmap. eapply Forall2_impl; [exact C2|]. simpl. intros s r Hs Hr.
    by rewrite <- Hs.
  - rewrite C4. apply Forall2_length in C2. clear -C2. revert C2. generalize (rb_reqs b).
    induction (rb_seq_lens b) as [|s l IH]; intros [|r reqs] Hl; try done. cbn [map sumZ].
    rewrite <- (IH reqs) by (by inversion Hl). rewrite zlen_cons. simpl. lia.
  - rewrite C6. clear. induction (rb_reqs b) as [|r l IH]; [done|]. simpl. by rewrite IH.
Qed.

Lemma prepare_ok b m uninit :
  Forall (λ r, dr_finished r = false) (rb_reqs b) → columns b → inv m (rb_reqs b) →
  Forall (can_decode width) (map dr_req (rb_reqs b)) → zlen (rb_reqs b) ≤ kv_available m →
  ∃ out b' m', prepare_for_decode b m uninit = Ok (b', m') ∧ decoded b b' (me_pool m') out
    ∧ inv m' (rb_reqs b').
Proof.
  intros Hf Hc (c & a & p & held & L & -> & Hm) Hd Hfit. unfold kv_available in Hfit. simpl in Hfit.
  destruct (alloc_decode_ok size width ol os orows Hsize c a p held L _ uninit Hm Hd) as (out & a' & p' & Hgo & Hz & Hcell & Hm').
  { unfold zlen in *. by rewrite length_map. }
  eexists out, _, (mkMem (Radix c) (TokenPool a') p'). split; [|split].
  - unfold prepare_for_decode, decode_view. cbn [me_tree me_kv me_pool].
    rewrite (column_all _ _ _ Hf (co_rows _ Hc)), (column_all _ _ _ Hf (co_lens _ Hc)).
    rewrite <- !(map_map dr_req), Hgo. cbn [mbind res_bind]. done.
  - split; simpl; try done.
    + rewrite !(map_map dr_req), <- (column_all _ _ _ Hf (co_rows _ Hc)), <- (column_all _ _ _ Hf (co_lens _ Hc)).
      by apply count_decode_columns.
    + unfold zlen in *. by rewrite length_map in Hz.
    + rewrite map_map in *. exact Hcell.
  - exists c, a', p', held, L. split; [done|]. simpl. rewrite map_map. rewrite map_map in Hm'. exact Hm'.
Qed.

End batch.
