(* ===== verification/QueueProps.v ===== *)
(** * The bounded waiting queue

    What [add_request_to_queue] of DecodeBatch promises: the queue stays within its limit, every
    request is in it or was sent an abort, and the request that is dropped ranks last. *)

From S2P Require Import Prelude ReqPool DecodeBatch.

Section queue.
Context (qc : QueueConfig).

(** The sort key: [direction * priority] and the time of entry. *)
Definition rank_of (r : DReq) : Z := direction qc * default 0 (rq_priority (dr_req r)).

Definition after_eq (x y : DReq) : Prop :=
  rank_of x < rank_of y
  ∨ rank_of x = rank_of y ∧ dr_wait_queue_entry_time x ≤ dr_wait_queue_entry_time y.

Definition has_priority (r : DReq) : Prop := is_Some (rq_priority (dr_req r)).

Lemma rank_ok r : has_priority r → rank qc r = Ok (rank_of r).
Proof. unfold rank, rank_of. by intros [p ->]. Qed.

(** The maximum is the first of the last-ranked requests. *)
Lemma least_preferred_ok rest : ∀ pre bi br,
  Forall has_priority rest → (pre ++ rest) !! bi = Some br → (∀ x, x ∈ pre → after_eq x br) →
  ∃ i r, least_preferred qc (length pre) rest (bi, br, (rank_of br, dr_wait_queue_entry_time br)) = Ok (i, r)
    ∧ (pre ++ rest) !! i = Some r ∧ ∀ x, x ∈ pre ++ rest → after_eq x r.
Proof.
  induction rest as [|r rest IH]; intros pre bi br Hp Hb Hpre; cbn [least_preferred].
  { exists bi, br. rewrite app_nil_r in *. done. }
  inversion Hp as [|? ? Hr Hp']; subst. rewrite (rank_ok r Hr). cbn [mbind res_bind fst snd].
  replace (S (length pre)) with (length (pre ++ [r])) by (rewrite length_app; simpl; lia).
  rewrite (cons_middle r pre rest), app_assoc in *. case_bool_decide as Hbetter.
  - apply IH; [done| |].
    + rewrite lookup_app_l by (rewrite length_app; simpl; lia). by rewrite list_lookup_middle.
    + intros x [Hx|Hx]%elem_of_app.
      * specialize (Hpre x Hx). unfold after_eq in *. lia.
      * apply list_elem_of_singleton in Hx as ->. unfold after_eq. lia.
  - apply IH; [done|done|]. intros x [Hx|Hx]%elem_of_app; [by apply Hpre|].
    apply list_elem_of_singleton in Hx as ->. unfold after_eq. lia.
Qed.

Lemma max_queued_ok q :
  q ≠ [] → Forall has_priority q →
  ∃ i r, max_queued qc q = Ok (i, r) ∧ q !! i = Some r ∧ ∀ x, x ∈ q → after_eq x r.
Proof.
  intros Hne Hp. destruct q as [|r rest]; [done|]. inversion Hp; subst. cbn [max_queued].
  rewrite rank_ok by done. cbn [mbind res_bind].
  apply (least_preferred_ok rest [r] 0 r); [done|done|].
  intros x ->%list_elem_of_singleton. unfold after_eq. lia.
Qed.

(** ** The limit *)

(** With priority scheduling every queued request has a priority; a limit is at least one. *)
Record queue_ok (q : list DReq) : Prop := {
  qo_priority : qc_enable_priority_scheduling qc = true → Forall has_priority q;
  qo_limit n : qc_max_queued_requests qc = Some n → 1 ≤ n
}.

Definition within (q : list DReq) : Prop := ∀ n, qc_max_queued_requests qc = Some n → zlen q ≤ n.

(** The outcome of a queue limit: nobody, the incoming request or a queued one is dropped. *)
Inductive limited (q : list DReq) (r : DReq) : bool → list DReq → list DReq → Prop :=
| limited_room : (∀ n, qc_max_queued_requests qc = Some n → zlen q + 1 ≤ n) → limited q r false [] q
| limited_incoming : (qc_enable_priority_scheduling qc = true → ∀ x, x ∈ q → rank_of x ≤ rank_of r) →
    limited q r true [r] q
| limited_queued v q' : q ≡ₚ v :: q' → rank_of r < rank_of v → (∀ x, x ∈ q' → rank_of x ≤ rank_of v) →
    limited q r (bool_decide (dr_rid v = dr_rid r)) [v] q'.

Lemma abort_on_queued_limit_ok q r :
  queue_ok q → (qc_enable_priority_scheduling qc = true → has_priority r) →
  ∃ ab out q', abort_on_queued_limit qc q r = Ok (ab, out, q') ∧ limited q r ab out q'.
Proof.
  intros [Hq Hl] Hr. unfold abort_on_queued_limit. destruct (qc_max_queued_requests qc) as [n|] eqn:En.
  2:{ eexists _, _, _. split; [done|]. apply limited_room. by rewrite En. }
  case_bool_decide as Hroom.
  { eexists _, _, _. split; [done|]. apply limited_room. rewrite En. by intros n' [= <-]. }
  destruct (qc_enable_priority_scheduling qc) eqn:Ep; cycle 1.
  { cbn [mbind res_bind]. eexists _, _, _. split; [done|]. rewrite bool_decide_true by done.
    apply limited_incoming. by rewrite Ep. }
  destruct (max_queued_ok q) as (i & v & Hm & Hi & Hmax); [|by apply Hq|].
  { intros ->. specialize (Hl n eq_refl). rewrite zlen_nil in Hroom. lia. }
  rewrite Hm. cbn [mbind res_bind]. rewrite (rank_ok r) by auto. cbn [mbind res_bind].
  assert (Hv : has_priority v) by (eapply Forall_lookup_1; [by apply Hq|exact Hi]).
  rewrite (rank_ok v Hv). cbn [mbind res_bind]. case_bool_decide as Hlt; cbn [mbind res_bind].
  - eexists _, _, _. split; [done|]. apply limited_queued; [by apply delete_Permutation|done|].
    intros x Hx. assert (x ∈ q) as Hxq by (rewrite (delete_Permutation q i v Hi); set_solver).
    specialize (Hmax x Hxq). unfold after_eq in Hmax. lia.
  - eexists _, _, _. split; [done|]. rewrite bool_decide_true by done. apply limited_incoming.
    intros _ x Hx. specialize (Hmax x Hx). unfold after_eq in Hmax. lia.
Qed.

(** ** Adding requests *)

(** Queueing may set the priority and the time of a request; it stays the same request. *)
Definition ident (r : DReq) : nat * string := (dr_id r, dr_rid r).

(** [q'] and the aborted [out] are the requests of [q] and the incoming ones. *)
Record queued (q q' out incoming : list DReq) : Prop := {
  qd_all : map ident (q' ++ out) ≡ₚ map ident (q ++ incoming);
  qd_ok : queue_ok q';
  qd_within : within q → within q'
}.

Lemma set_priority_ok r r' :
  set_or_validate_priority qc r = Some r' →
  ident r' = ident r ∧ (qc_enable_priority_scheduling qc = true → has_priority r').
Proof.
  unfold set_or_validate_priority, has_priority. destruct (qc_enable_priority_scheduling qc).
  - case_bool_decide as E; cbn [andb negb]; intros [= <-]; split; try done.
    intros _. by destruct (rq_priority (dr_req r)).
  - cbn [andb negb]. case_match; [done|]. by intros [= <-].
Qed.

Lemma queued_room q r t :
  queue_ok q → (qc_enable_priority_scheduling qc = true → has_priority r) →
  queue_ok (q ++ [set_dr_wait_queue_entry_time t r]).
Proof.
  intros [H1 H2] Hr. split; [|done]. intros E. apply Forall_app. split; [by apply H1|].
  repeat constructor. by apply Hr.
Qed.

Lemma queue_ok_perm q v q' : queue_ok q → q ≡ₚ v :: q' → queue_ok q'.
Proof. intros [H1 H2] Hp. split; [|done]. intros E. specialize (H1 E). rewrite Hp in H1. by inversion H1. Qed.

Lemma add_request_ok now q r :
  queue_ok q → dr_rid r ∉ map dr_rid q →
  ∃ q' out, add_request_to_queue qc now q r = Ok (q', out) ∧ queued q q' out [r]
    ∧ (qc_enable_priority_scheduling qc = true → ∀ v x, v ∈ out → x ∈ q' → rank_of x ≤ rank_of v).
Proof.
  intros Hq Hrid. unfold add_request_to_queue. destruct (set_or_validate_priority qc r) as [r'|] eqn:Er; cycle 1.
  { exists q, [r]. split; [done|]. split; [by split|]. intros E. unfold set_or_validate_priority in Er.
    rewrite E in Er. case_bool_decide; done. }
  destruct (set_priority_ok r r' Er) as [Hid Hpr]. assert (Hrid' : dr_rid r' = dr_rid r) by (by inversion Hid).
  destruct (abort_on_queued_limit_ok q r' Hq Hpr) as (ab & out & q' & -> & Hl). cbn [mbind res_bind].
  inversion Hl as [Hroom|Hinc|v q'' Hp Hlt Hmax]; subst.
  - exists (q' ++ [set_dr_wait_queue_entry_time now r']), []. split; [done|]. split; [|set_solver]. split.
    + rewrite app_nil_r, !map_app. simpl. change (ident (set_dr_wait_queue_entry_time now r')) with (ident r').
      by rewrite Hid.
    + by apply queued_room.
    + intros _ n Hn. rewrite zlen_app. specialize (Hroom n Hn). done.
  - exists q', [r']. split; [done|]. split.
    + split; try done. rewrite !map_app. simpl. by rewrite Hid.
    + intros E w x Hw Hx. apply list_elem_of_singleton in Hw as ->. by apply Hinc.
  - rewrite bool_decide_false.
    2:{ intros Hv. apply Hrid. rewrite <- Hrid', <- Hv, Hp. by left. }
    exists (q' ++ [set_dr_wait_queue_entry_time now r']), [v]. split; [done|]. split; [split|].
    + rewrite !map_app, Hp. simpl. change (ident (set_dr_wait_queue_entry_time now r')) with (ident r').
      rewrite Hid. solve_Permutation.
    + apply queued_room; [by eapply queue_ok_perm|done].
    + intros Hw n Hn. specialize (Hw n Hn). unfold zlen in *. rewrite Hp in Hw.
      rewrite length_app. simpl in *. lia.
    + intros E w x Hw Hx. apply list_elem_of_singleton in Hw as ->. apply elem_of_app in Hx as [Hx|Hx]; [by apply Hmax|].
      apply list_elem_of_singleton in Hx as ->. change (rank_of (set_dr_wait_queue_entry_time now r')) with (rank_of r'). lia.
Qed.

Lemma rids_of_idents l k : map ident l ≡ₚ map ident k → map dr_rid l ≡ₚ map dr_rid k.
Proof. intros Hp. rewrite <- !(map_map ident snd). by rewrite Hp. Qed.

Lemma requeue_ok reqs : ∀ now q,
  queue_ok q → NoDup (map dr_rid (q ++ reqs)) →
  ∃ q' out, requeue qc now q reqs = Ok (q', out) ∧ queued q q' out reqs.
Proof.
  induction reqs as [|r reqs IH]; intros now q Hq Hnd; cbn [requeue].
  { exists q, []. split; [done|]. by split. }
  assert (Hr : dr_rid r ∉ map dr_rid q).
  { rewrite map_app in Hnd. apply NoDup_app in Hnd as (_ & Hd & _). intros Hin. apply (Hd _ Hin). by left. }
  destruct (add_request_ok (now 0%nat) q r Hq Hr) as (q1 & out1 & -> & [A1 A2 A3] & _). cbn [mbind res_bind].
  destruct (IH (λ i, now (S i)) q1 A2) as (q2 & out2 & -> & [B1 B2 B3]).
  { assert (Hp : map ident ((q1 ++ reqs) ++ out1) ≡ₚ map ident (q ++ r :: reqs)).
    { trans (map ident (q1 ++ out1) ++ map ident reqs); [rewrite !map_app; solve_Permutation|].
      rewrite A1, !map_app, <- app_assoc. done. }
    apply rids_of_idents in Hp. rewrite <- Hp, map_app in Hnd. by apply NoDup_app in Hnd as [? _]. }
  cbn [mbind res_bind]. exists q2, (out1 ++ out2). split; [done|]. split; [|done|auto].
  trans (map ident (q2 ++ out2) ++ map ident out1); [rewrite !map_app; solve_Permutation|].
  rewrite B1. trans (map ident (q1 ++ out1) ++ map ident reqs); [rewrite !map_app; solve_Permutation|].
  rewrite A1, !map_app, <- app_assoc. done.
Qed.

End queue.

(** ** Property *)

(** C36: adding a request to the waiting queue keeps the queue within its limit and drops nobody
    silently: the queue and the requests that were sent an abort are together the old queue and the
    new request, and under priority scheduling no request left in the queue ranks behind a dropped
    one. *)
Theorem add_request_bounded qc now q r :
  queue_ok qc q → within qc q → dr_rid r ∉ map dr_rid q →
  ∃ q' out, add_request_to_queue qc now q r = Ok (q', out)
    ∧ map ident (q' ++ out) ≡ₚ map ident (q ++ [r]) ∧ queue_ok qc q' ∧ within qc q'
    ∧ (qc_enable_priority_scheduling qc = true → ∀ v x, v ∈ out → x ∈ q' → rank_of qc x ≤ rank_of qc v).
Proof.
  intros Hq Hw Hr. destruct (add_request_ok qc now q r Hq Hr) as (q' & out & Hgo & [A1 A2 A3] & Hd).
  exists q', out. split_and!; auto.
Qed.
