(* ===== verification/DecodeStep.v ===== *)
(** * One scheduler round of decoding

    [update_running_batch] of DecodeBatch on a batch whose memory satisfies the invariant of
    DecodeMem: finished requests leave, requests are retracted or aborted when memory is short, the
    others get the slot of their next token.  The theorems of the decode side and their witnesses,
    on a small cache with two running requests, are here. *)

From S2P Require Import Prelude AllocKernels Allocator RadixKey RadixTree RadixInv RadixMatch RadixEvict RadixProps.
From S2P Require Import ReqPool ReqCache CacheAlloc PyFloat DecodeBatch DecodeMem RetractProps DecodeProps QueueProps.

(** ** Finished requests *)

Definition live_reqs (b : RunningBatch) : list DReq := List.filter unfinished (rb_reqs b).

Lemma at_indices_filter_gen {A} (f : A → bool) (l pre : list A) :
  at_indices (pre ++ l)
    (List.filter (λ i, match (pre ++ l) !! i with Some x => f x | None => false end) (seq (length pre) (length l)))
    (List.filter f l).
Proof.
  revert pre. induction l as [|x l IH]; intros pre; [constructor|]. cbn [length seq List.filter].
  specialize (IH (pre ++ [x])). rewrite <- app_assoc, length_app in IH. cbn [length app] in IH.
  rewrite Nat.add_1_r in IH. rewrite list_lookup_middle by done. destruct (f x); [|done].
  constructor; [by rewrite list_lookup_middle|done].
Qed.

Lemma filter_full {A} (f : A → bool) (l : list A) : length (List.filter f l) = length l → List.filter f l = l.
Proof.
  induction l as [|x l IH]; [done|]. simpl. pose proof (List.filter_length_le f l). destruct (f x); simpl; intros Hl.
  - f_equal. apply IH. lia.
  - lia.
Qed.

Lemma filter_unfinished b :
  columns b → ∃ b', filter_batch b [] None = Ok b' ∧ rb_reqs b' = live_reqs b
    ∧ (rb_reqs b' = [] ∨ columns b').
Proof.
  intros Hc. set (keep := List.filter (λ i, match rb_reqs b !! i with Some r => unfinished r | None => false end)
                            (seq 0 (length (rb_reqs b)))).
  assert (He : List.filter (λ i, match rb_reqs b !! i with
      | Some r => negb (dr_finished r) && bool_decide (dr_id r ∉ []) | None => false end)
      (seq 0 (length (rb_reqs b))) = keep).
  { apply List.filter_ext. intros i. destruct (rb_reqs b !! i) as [r|]; [|done].
    rewrite (bool_decide_true (dr_id r ∉ [])) by set_solver. by rewrite andb_true_r. }
  assert (Hat : at_indices (rb_reqs b) keep (live_reqs b)) by apply (at_indices_filter_gen unfinished (rb_reqs b) []).
  assert (Hk : filter_batch b [] None = filter_batch (set_rb_reqs (rb_reqs b) b) [] (Some keep)).
  { replace (set_rb_reqs (rb_reqs b) b) with b by (by destruct b). unfold filter_batch. by rewrite He. }
  rewrite Hk. pose proof (at_indices_length _ _ _ Hat) as Hl.
  destruct (decide (keep = [])) as [E|E].
  { rewrite E in *. eexists. split; [done|]. inversion Hat as [Hn|]. split; [done|by left]. }
  destruct (decide (length keep = length (rb_reqs b))) as [El|El].
  - exists b. split; [|split; [|by right]].
    + replace (set_rb_reqs (rb_reqs b) b) with b by (by destruct b).
      unfold filter_batch. rewrite bool_decide_false by (by rewrite length_zero_iff_nil).
      by rewrite bool_decide_true.
    + symmetry. apply filter_full. unfold live_reqs in Hl. congruence.
  - destruct (filter_keep b (rb_reqs b) keep (live_reqs b) Hc Hat Hat E El) as (b' & Hf & Hb' & Hc' & _).
    exists b'. split_and!; [done|done|by right].
Qed.

(** ** The round *)

Section round.
Context {monotonic : nat → Z} {dfi : bool} {policy : string}.
Context (sa : ServerArgs) (sp : SpecArgs) (qc : QueueConfig) (Hspec : sa_speculative_algorithm sa = None).
Context (Hstrip : sa_strip_thinking_cache sa = false).
Context (size width : Z) (ol : list nat) (os orows : list Z) (Hsize : size < 2 ^ 31).
Context {F : Type} `{PyNum F}.
Let inv := batch_inv (monotonic:=monotonic) (dfi:=dfi) (policy:=policy) size width ol os orows.

(** Before the allocation: the live requests are in the batch, in the queue or aborted, and those in
    the batch fit into memory. *)
Record settled_batch (b b2 : RunningBatch) (s s2 : DecodeScheduler F) : Prop := {
  sb_mem : inv (ds_mem s2) (rb_reqs b2);
  sb_fits : zlen (rb_reqs b2) ≤ kv_available (ds_mem s2);
  sb_columns : rb_reqs b2 = [] ∨ columns b2;
  sb_kept r : r ∈ rb_reqs b2 → r ∈ live_reqs b;
  sb_queue : queue_ok qc (ds_waiting_queue s2) ∧ (within qc (ds_waiting_queue s) → within qc (ds_waiting_queue s2));
  sb_output : is_Some (rb_output_ids b) → is_Some (rb_output_ids b2);
  sb_all : ∃ sent, ds_sent_aborts s2 = ds_sent_aborts s ++ sent
    ∧ map ident (rb_reqs b2 ++ ds_waiting_queue s2 ++ sent) ≡ₚ map ident (live_reqs b ++ ds_waiting_queue s)
}.

Lemma ident_retracted l : map ident (map retracted_req l) = map ident l.
Proof. by rewrite map_map. Qed.

Lemma ident_aborted l : map ident (map aborted_req l) = map ident l.
Proof. by rewrite map_map. Qed.

(** The retraction and the queueing of what it took out. *)
Lemma retract_and_requeue now b b1 m s :
  rb_reqs b1 = live_reqs b → rb_reqs b1 ≠ [] → columns b1 → inv m (rb_reqs b1) →
  (is_Some (rb_output_ids b) → is_Some (rb_output_ids b1)) →
  queue_ok qc (ds_waiting_queue s) → NoDup (map dr_rid (ds_waiting_queue s ++ live_reqs b)) →
  ∃ b2 s2,
    ('(retracted, ratio, aborted, b, m) ← retract_decode monotonic sa sp b1 m;
     '(queue, refused) ← requeue qc now (ds_waiting_queue s) retracted;
     Ok (b, mkDecodeScheduler queue ratio (ds_new_token_ratio_decay s) (ds_min_new_token_ratio s)
              (zlen retracted) (ds_sent_aborts s ++ aborted ++ refused) m)) = Ok (b2, s2)
    ∧ settled_batch b b2 s s2.
Proof.
  intros Hb1 Hne Hc Hm Hout Hq Hnd.
  destruct (retract_decode_spec sa sp Hspec Hstrip size width ol os orows (F:=F) b1 m Hne Hc Hm)
    as (vs & dead & b2 & m2 & -> & [R1 R2 R3 R4 _ _ _ R8]). cbn [mbind res_bind]. rewrite Hb1 in R1.
  destruct (requeue_ok qc (map retracted_req vs) now (ds_waiting_queue s) Hq) as (q & out & -> & [Q1 Q2 Q3]).
  { rewrite map_app in *. rewrite (map_map retracted_req). change (map (λ r, dr_rid (retracted_req r)) vs) with (map dr_rid vs).
    rewrite R1 in Hnd. rewrite !map_app in Hnd.
    assert (Hp : map dr_rid (ds_waiting_queue s) ++ map dr_rid (rb_reqs b2) ++ map dr_rid vs ++ map dr_rid dead
      ≡ₚ (map dr_rid (ds_waiting_queue s) ++ map dr_rid vs) ++ map dr_rid (rb_reqs b2) ++ map dr_rid dead)
      by solve_Permutation.
    rewrite Hp in Hnd. by apply NoDup_app in Hnd as [? _]. }
  cbn [mbind res_bind]. eexists b2, _. split; [done|]. split; simpl; try done.
  - intros r Hr. rewrite R1. set_solver.
  - auto.
  - eexists. split; [done|]. rewrite !map_app, ident_retracted in Q1.
    rewrite (map_app ident (rb_reqs b2)), (map_app ident q), (map_app ident (map aborted_req dead)), ident_aborted.
    trans (map ident (rb_reqs b2) ++ (map ident q ++ map ident out) ++ map ident dead); [solve_Permutation|].
    rewrite Q1, R1, !map_app. solve_Permutation.
Qed.

(** After the round: every live request is in the batch, in the queue or aborted; the requests of the
    batch, one token longer, have their new slot as last one and the memory is accounted for. *)
Record decode_round (b b' : RunningBatch) (s s' : DecodeScheduler F) : Prop := {
  dn_mem : inv (ds_mem s') (rb_reqs b');
  dn_all : ∃ sent, ds_sent_aborts s' = ds_sent_aborts s ++ sent
    ∧ map ident (rb_reqs b' ++ ds_waiting_queue s' ++ sent) ≡ₚ map ident (live_reqs b ++ ds_waiting_queue s);
  dn_queue : queue_ok qc (ds_waiting_queue s') ∧ (within qc (ds_waiting_queue s) → within qc (ds_waiting_queue s'));
  dn_batch : rb_reqs b' = [] ∨ ∃ kept out, rb_reqs b' = map count_decode kept ∧ (∀ r, r ∈ kept → r ∈ live_reqs b)
    ∧ columns b' ∧ rb_out_cache_loc b' = Some out
    ∧ Forall2 (ends_with (me_pool (ds_mem s'))) (map dr_req (rb_reqs b')) out;
  dn_input : is_Some (rb_output_ids b) → rb_reqs b' = [] ∨ ∃ o, rb_input_ids b' = Some o ∧ pending o (rb_reqs b');
  dn_full : (length (rb_reqs b') < length (rb_reqs b))%nat → rb_batch_is_full b' = false
}.

(** The end of the round: the flag and the allocation. *)
Definition finish_round (initial_bs : Z) (uninit : list Z) (b : RunningBatch) (s : DecodeScheduler F)
    : res (RunningBatch * DecodeScheduler F) :=
  let b := if bool_decide (zlen (rb_reqs b) < initial_bs) then set_rb_batch_is_full false b else b in
  if bool_decide (length (rb_reqs b) = 0%nat) then Ok (b, s)
  else
    '(b, m) ← prepare_for_decode b (ds_mem s) uninit;
    Ok (b, mkDecodeScheduler (ds_waiting_queue s) (ds_new_token_ratio s) (ds_new_token_ratio_decay s)
             (ds_min_new_token_ratio s) (ds_num_retracted_reqs s) (ds_sent_aborts s) m).

Lemma live_unfinished b r : r ∈ live_reqs b → dr_finished r = false.
Proof.
  intros Hr%list_elem_of_In. apply List.filter_In in Hr as [_ Hr]. unfold unfinished in Hr. by destruct (dr_finished r).
Qed.

Lemma set_full_columns v b : columns b → columns (set_rb_batch_is_full v b).
Proof. intros [C1 C2 C3 C4 C5 C6 C7]. by split. Qed.

Lemma finish_round_ok uninit b b2 s s2 :
  settled_batch b b2 s s2 → Forall (can_decode width) (map dr_req (live_reqs b)) →
  ∃ b' s', finish_round (zlen (rb_reqs b)) uninit b2 s2 = Ok (b', s') ∧ decode_round b b' s s'.
Proof.
  intros [S1 S2 S3 S4 S5 S7 S6] Hd. unfold finish_round.
  set (b3 := if bool_decide (zlen (rb_reqs b2) < zlen (rb_reqs b)) then set_rb_batch_is_full false b2 else b2).
  assert (Hr3 : rb_reqs b3 = rb_reqs b2) by (unfold b3; by case_bool_decide).
  assert (Hf3 : (length (rb_reqs b2) < length (rb_reqs b))%nat → rb_batch_is_full b3 = false).
  { intros Hl. unfold b3. rewrite bool_decide_true by (unfold zlen; lia). done. }
  case_bool_decide as He.
  - exists b3, s2. split; [done|]. split; rewrite ?Hr3; try done; [left|intros _].
    + rewrite Hr3 in He. by apply length_zero_iff_nil in He.
    + left. rewrite Hr3 in He. by apply length_zero_iff_nil in He.
  - destruct S3 as [E|S3]; [rewrite Hr3, E in He; done|].
    assert (Hc3 : columns b3) by (unfold b3; case_bool_decide; [by apply set_full_columns|done]).
    assert (Ho3 : rb_output_ids b3 = rb_output_ids b2) by (unfold b3; by case_bool_decide).
    destruct (prepare_ok (monotonic:=monotonic) (dfi:=dfi) (policy:=policy) size width ol os orows Hsize b3 (ds_mem s2) uninit) as (out & b' & m' & -> & [D1 D2 D3 D4 D5 D6 D7] & Hm').
    + rewrite Hr3. apply Forall_forall. intros r Hr. by eapply live_unfinished, S4.
    + exact Hc3.
    + by rewrite Hr3.
    + rewrite Hr3. apply Forall_forall. intros q (r & -> & Hr)%list_elem_of_fmap.
      apply (proj1 (Forall_forall _ _) Hd). apply list_elem_of_fmap_2. by apply S4.
    + by rewrite Hr3.
    + cbn [mbind res_bind]. eexists b', _. split; [done|]. rewrite Hr3 in D1. split; simpl; try done.
      * destruct S6 as (sent & Hsent & Hp). exists sent. split; [done|]. rewrite <- Hp, D1, !map_app, map_map. done.
      * right. exists (rb_reqs b2), out. done.
      * intros Hout. right. rewrite D6, Ho3, D1. destruct (S7 Hout) as [o Ho]. rewrite Ho in Ho3.
        exists o. split; [done|]. unfold pending. rewrite Forall2_fmap_r. rewrite <- Hr3. exact (co_output _ Hc3 o Ho3).
      * rewrite D1, length_map, D7. apply Hf3.
Qed.

End round.

(** ** Properties *)

(** The round, as the theorem below states it. *)
Lemma update_running_round {F} `{PyNum F} monotonic dfi policy sa sp qc size width ol os orows test_retract now uninit b
    (s : DecodeScheduler F) :
  sa_speculative_algorithm sa = None → sa_strip_thinking_cache sa = false → size < 2 ^ 31 → columns b →
  batch_inv (monotonic:=monotonic) (dfi:=dfi) (policy:=policy) size width ol os orows (ds_mem s) (live_reqs b) →
  Forall (can_decode width) (map dr_req (live_reqs b)) →
  queue_ok qc (ds_waiting_queue s) → NoDup (map dr_rid (ds_waiting_queue s ++ live_reqs b)) →
  ∃ b' s', update_running_batch monotonic sa sp qc test_retract now uninit b s = Ok (b', s')
    ∧ decode_round (monotonic:=monotonic) (dfi:=dfi) (policy:=policy) qc size width ol os orows b b' s s'.
Proof.
  intros Hspec Hstrip Hsize Hc Hm Hd Hq Hnd. destruct (filter_unfinished b Hc) as (b1 & Hf & Hb1 & Hc1).
  unfold update_running_batch. rewrite Hf. cbn [mbind res_bind]. case_bool_decide as He.
  { eexists _, s. split; [done|]. apply length_zero_iff_nil in He. rewrite He in Hb1. split; simpl; rewrite ?He, ?Hb1; try done.
    - exists []. rewrite !app_nil_r. done.
    - by left.
    - by left. }
  assert (Hne : rb_reqs b1 ≠ []) by (intros E; by rewrite E in He). destruct Hc1 as [|Hc1]; [done|].
  rewrite <- Hb1 in Hm.
  destruct (check_plain sa sp Hspec size width ol os orows b1 (ds_mem s) None (rb_reqs b1) eq_refl Hm) as (m1 & -> & Hm1).
  cbn [mbind res_bind].
  assert (Hmid : ∃ b2 s2, (if negb (bool_decide (zlen (rb_reqs b1) ≤ kv_available m1)) || test_retract then
         '(retracted, ratio, aborted, b, m) ← retract_decode monotonic sa sp b1 m1;
         '(queue, refused) ← requeue qc now (ds_waiting_queue s) retracted;
         Ok (b, mkDecodeScheduler queue ratio (ds_new_token_ratio_decay s) (ds_min_new_token_ratio s)
                  (zlen retracted) (ds_sent_aborts s ++ aborted ++ refused) m)
       else
         Ok (b1, mkDecodeScheduler (ds_waiting_queue s)
                  (fmax (fsub (ds_new_token_ratio s) (ds_new_token_ratio_decay s)) (ds_min_new_token_ratio s))
                  (ds_new_token_ratio_decay s) (ds_min_new_token_ratio s) (ds_num_retracted_reqs s)
                  (ds_sent_aborts s) m1)) = Ok (b2, s2)
    ∧ settled_batch (monotonic:=monotonic) (dfi:=dfi) (policy:=policy) qc size width ol os orows b b2 s s2).
  { destruct (negb _ || test_retract) eqn:E.
    - apply (retract_and_requeue sa sp qc Hspec Hstrip); try done. by apply (filter_batch_output _ _ _ _ Hf).
    - apply orb_false_iff in E as [E _]. apply negb_false_iff, bool_decide_eq_true in E.
      eexists b1, _. split; [done|]. split; simpl; try done; [by right|intros r; by rewrite Hb1|by apply (filter_batch_output _ _ _ _ Hf)|].
      exists []. rewrite !app_nil_r, Hb1. done. }
  destruct Hmid as (b2 & s2 & -> & Hset). cbn [mbind res_bind].
  exact (finish_round_ok qc size width ol os orows Hsize uninit b b2 s s2 Hset Hd).
Qed.

(** C21: a round of decoding on a batch whose requests, with the tree and everybody else, own all slots,
    rows and locks, never raises: not when memory is short, since it then retracts requests and, if
    a single one does not fit, aborts it.  Afterwards every unfinished request is in the batch, in the
    waiting queue or was sent an abort; each request in the batch is one of those before, advanced by
    one token whose slot is new and its last one; the memory invariant holds again, so that nothing
    leaked; and the queue is within its limit. *)
Theorem decode_step_ok {F} `{PyNum F} monotonic dfi policy sa sp qc size width ol os orows test_retract now uninit b
    (s : DecodeScheduler F) :
  sa_speculative_algorithm sa = None → sa_strip_thinking_cache sa = false → size < 2 ^ 31 → columns b →
  batch_inv (monotonic:=monotonic) (dfi:=dfi) (policy:=policy) size width ol os orows (ds_mem s) (live_reqs b) →
  Forall (can_decode width) (map dr_req (live_reqs b)) →
  queue_ok qc (ds_waiting_queue s) → NoDup (map dr_rid (ds_waiting_queue s ++ live_reqs b)) →
  ∃ b' s', update_running_batch monotonic sa sp qc test_retract now uninit b s = Ok (b', s')
    ∧ decode_round (monotonic:=monotonic) (dfi:=dfi) (policy:=policy) qc size width ol os orows b b' s s'.
Proof. apply update_running_round. Qed.
