(* ===== verification/DecodeDemo.v ===== *)
(** * A running batch, concretely

    Two requests over an empty radix cache: slots 1 to 4 are theirs, slot 5 is free, so the next
    decode step, which needs two slots, retracts one of them.  The witnesses of the decode side. *)

From S2P Require Import Prelude AllocKernels Allocator RadixKey RadixTree RadixInv RadixMatch RadixEvict RadixProps.
From S2P Require Import ReqPool ReqCache CacheAlloc PyFloat DecodeBatch DecodeMem RetractProps DecodeProps QueueProps.
From S2P Require Import DecodeStep.

Definition run_cache : RadixCache :=
  from_ok demo0 (RadixCache_init demo_clock false 1 false false false "lru").

Definition run_args : ServerArgs := mkServerArgs 1 None false.
Definition run_spec : SpecArgs := mkSpecArgs None None 0 false false.

Definition run_pool : ReqToTokenPool :=
  mkReqToTokenPool 3 6 [replicate 6 0; [1; 2; 0; 0; 0; 0]; [3; 4; 0; 0; 0; 0]; replicate 6 0] [3].

Definition run_alloc : Allocator := set_free_pages (TokenToKVPoolAllocator_init 5 false) [5].

Definition run_mem : Mem := mkMem (Radix run_cache) (TokenPool run_alloc) run_pool.

(** A request with row [i] that has generated [out]. *)
Definition run_req (id : nat) (rid : string) (i : Z) (input out : list Z) : DReq :=
  mkDReq id rid 16 false false false false true false 0 0 false false 0 0 0 1 1
    (mkReq input out (input ++ out) None (Some 0) false 0 0 2 2 false false (Some i) [] (Some 0%nat) 0).

Definition run_r1 : DReq := run_req 1 "a" 1 [7; 8] [9].
Definition run_r2 : DReq := run_req 2 "b" 2 [7] [5; 6].

Definition run_batch : RunningBatch :=
  mkRunningBatch [run_r1; run_r2] [1; 2] [2; 2] [2; 1] 4 None (Some [9; 6]) None false None None true false true.

Lemma run_live : live_set run_cache {[0%nat]}.
Proof.
  apply live_set_intro; [vm_compute; set_solver| |vm_compute; reflexivity].
  intros n ->%elem_of_singleton. eexists [], []. apply (path_root run_cache).
Qed.

Lemma run_holds r : r ∈ [run_r1; run_r2] → holds run_cache run_pool (dr_req r).
Proof.
  intros Hr. set_unfold in Hr. destruct Hr as [->|[->|[]]]; split; try (vm_compute; reflexivity); try (vm_compute; lia);
    try (vm_compute; split; congruence); try (vm_compute; congruence); apply (path_root run_cache).
Qed.

Lemma run_batch_mem :
  batch_mem (monotonic:=demo_clock) (dfi:=false) (policy:="lru") true 5 6 [] [] [] run_cache run_alloc run_pool [] {[0%nat]}
    (map dr_req [run_r1; run_r2]).
Proof.
  split.
  - split; [lia|]. exists run_cache. split; [vm_compute; reflexivity|]. apply rtc_refl.
  - vm_compute. done.
  - vm_compute. constructor.
  - apply run_live.
  - done.
  - done.
  - split; [done| |done]. vm_compute. solve_Permutation.
  - repeat constructor; apply run_holds; set_solver.
  - vm_compute. solve_Permutation.
  - repeat constructor.
  - done.
Qed.

Lemma run_inv :
  batch_inv (monotonic:=demo_clock) (dfi:=false) (policy:="lru") 5 6 [] [] [] run_mem [run_r1; run_r2].
Proof. exists run_cache, run_alloc, run_pool, [], {[0%nat]}. split; [done|exact run_batch_mem]. Qed.

Lemma run_columns : columns run_batch.
Proof.
  split; try done; [by repeat constructor|by repeat constructor|]. intros o [= <-]. by repeat constructor.
Qed.

(** ** Witnesses *)

(** The first request, which has generated less, goes; its slots and the free one are available. *)
Example run_retract :
  match retract_decode (F:=Qc) demo_clock run_args run_spec run_batch run_mem with
  | Ok (retracted, _, aborted, b, m) =>
      (map dr_rid retracted, map dr_rid aborted, map dr_rid (rb_reqs b), rb_seq_lens b,
       kv_available m, rp_free_slots (me_pool m))
      = (["a"], [], ["b"], [2], 3, [3; 1])
  | Raise _ => False
  end.
Proof. vm_compute. reflexivity. Qed.

Lemma retract_decode_ok_witness :
  ∃ victims dead b' m',
    retract_decode (F:=Qc) demo_clock run_args run_spec run_batch run_mem
    = Ok (map retracted_req victims, new_estimate_ratio (rb_reqs b'), map aborted_req dead, b', m')
    ∧ retraction (monotonic:=demo_clock) (dfi:=false) (policy:="lru") 5 6 [] [] [] run_batch b' m' victims dead.
Proof.
  exact (retract_decode_ok demo_clock false "lru" run_args run_spec 5 6 [] [] [] run_batch run_mem
    eq_refl eq_refl ltac:(discriminate) run_columns run_inv).
Defined.

Lemma retract_all_ok_witness :
  ∃ m', retract_all demo_clock run_args run_batch run_mem
        = Ok (map retracted_req [run_r1; run_r2], set_rb_reqs [] run_batch, m')
    ∧ batch_inv (monotonic:=demo_clock) (dfi:=false) (policy:="lru") 5 6 [] [] [] m' [].
Proof.
  exact (retract_all_ok demo_clock false "lru" run_args 5 6 [] [] [] run_batch run_mem eq_refl eq_refl run_inv).
Defined.

(** A batch with one request that asks for log-probabilities. *)
Definition run_other : RunningBatch :=
  mkRunningBatch [mkDReq 3 "c" 16 false false false true false false 0 0 false false 0 0 0 1 1
                    (dr_req (run_req 3 "c" 3 [7; 8] [9]))]
    [3] [2] [2] 2 None (Some [9]) None true (Some [4]) (Some [None]) false false false.

Lemma run_other_columns : columns run_other.
Proof.
  split; try done; [by repeat constructor|by repeat constructor|intros o [= <-]; by repeat constructor|].
  intros _. by exists [4], [None].
Qed.

Lemma merge_batch_columns_witness :
  ∃ b', merge_batch run_batch run_other = Ok b' ∧ rb_reqs b' = rb_reqs run_batch ++ rb_reqs run_other ∧ columns b'.
Proof. exact (merge_batch_columns run_batch run_other run_columns run_other_columns ltac:(discriminate)). Defined.

(** A full queue of one request; the incoming one has a better priority. *)
Definition run_queue : QueueConfig := mkQueueConfig true true false (Some 1).

Definition run_waiting : DReq :=
  set_dr_req (set_rq_priority (Some 5) (dr_req run_r2)) (run_req 4 "w" 3 [7] []).

Example run_preempt :
  match add_request_to_queue run_queue 3 [run_waiting] run_r1 with
  | Ok (q, out) => (map dr_rid q, map dr_rid out) = (["a"], ["w"])
  | Raise _ => False
  end.
Proof. vm_compute. reflexivity. Qed.

Lemma run_queue_ok : queue_ok run_queue [run_waiting].
Proof. split; [intros _; repeat constructor; by eexists|]. intros n [= <-]. done. Qed.

Lemma add_request_bounded_witness :
  ∃ q' out, add_request_to_queue run_queue 3 [run_waiting] run_r1 = Ok (q', out)
    ∧ map ident (q' ++ out) ≡ₚ map ident ([run_waiting] ++ [run_r1]) ∧ queue_ok run_queue q' ∧ within run_queue q'
    ∧ (qc_enable_priority_scheduling run_queue = true →
       ∀ v x, v ∈ out → x ∈ q' → rank_of run_queue x ≤ rank_of run_queue v).
Proof.
  refine (add_request_bounded run_queue 3 [run_waiting] run_r1 run_queue_ok _ _).
  - intros n [= <-]. done.
  - apply (bool_decide_unpack _). vm_compute. exact I.
Defined.

(** The decode step over the two requests, with the waiting one in the queue: the retracted request
    takes its place. *)
Definition run_state : DecodeScheduler Qc :=
  mkDecodeScheduler [run_waiting] (Qc_ofZ 1) (Qc_ofZ 0) (Qc_ofZ 0) 0 [] run_mem.

Example run_step :
  match update_running_batch demo_clock run_args run_spec run_queue false (λ _, 9) [] run_batch run_state with
  | Ok (b, s) => (map dr_rid (rb_reqs b), map dr_rid (ds_waiting_queue s), map dr_rid (ds_sent_aborts s),
                  rb_out_cache_loc b, rb_seq_lens b, rb_input_ids b)
                 = (["b"], ["a"], ["w"], Some [5], [3], Some [6])
  | Raise _ => False
  end.
Proof. vm_compute. reflexivity. Qed.

Lemma decode_step_ok_witness :
  ∃ b' s', update_running_batch demo_clock run_args run_spec run_queue false (λ _, 9) [] run_batch run_state = Ok (b', s')
    ∧ decode_round (monotonic:=demo_clock) (dfi:=false) (policy:="lru") run_queue 5 6 [] [] [] run_batch b' run_state s'.
Proof.
  refine (decode_step_ok demo_clock false "lru" run_args run_spec run_queue 5 6 [] [] [] false (λ _, 9) [] run_batch run_state
    eq_refl eq_refl _ run_columns run_inv _ run_queue_ok _).
  - done.
  - repeat constructor; vm_compute; split; reflexivity.
  - apply (bool_decide_unpack _). vm_compute. exact I.
Defined.
