(* ===== verification/Sampling.v ===== *)
(** * Sampling parameters

    Models [SamplingParams] of [src/python/sglang/srt/sampling/sampling_params.py]: the constructor
    with its defaults and special cases, [verify], [normalize], and the bound on the length of what
    a stop regex can match ([get_max_seq_length]).  A string is the list of its code points.  A set
    of token ids is the list of its elements in the order in which Python iterates over it
    ([set_order], a parameter).  Parsed regular expressions have the tokens of [sre_parse] that the
    code distinguishes.

    The theorems: what [verify] accepts after the constructor is what the messages document, and
    then the temperature is positive; the regex bound is an upper bound on every match. *)

From S2P Require Import Prelude PyFloat.

#[local] Set Warnings "-register-all".

Definition text : Type := list Z.

(** ** Regular expressions *)

Inductive regex_token :=
| LITERAL (c : Z)
| IN (items : Z → bool)
| ANY
| SUBPATTERN (inner : list regex_token)
| BRANCH (first : list regex_token) (rest : list (list regex_token))
| MAX_REPEAT (min : nat) (max : option nat) (inner : list regex_token)     (* None: MAXREPEAT *)
| MIN_REPEAT (min : nat) (max : option nat) (inner : list regex_token)
| AT
| OTHER.                                                                    (* unhandled tokens *)

Definition MAX_LEN : Z := 2 ^ 30.

Fixpoint token_max_length (t : regex_token) : Z :=
  match t with
  | LITERAL _ | IN _ | ANY => 1
  | SUBPATTERN inner => sumZ (map token_max_length inner)
  | BRANCH first rest =>
      foldr Z.max (sumZ (map token_max_length first)) (map (λ p, sumZ (map token_max_length p)) rest)
  | MAX_REPEAT _ max inner | MIN_REPEAT _ max inner =>
      match max with
      | None => MAX_LEN
      | Some n => Z.of_nat n * sumZ (map token_max_length inner)
      end
  | AT => 0
  | OTHER => MAX_LEN
  end.

(** [_max_length_from_subpattern]. *)
Definition max_length_from_subpattern (p : list regex_token) : Z := sumZ (map token_max_length p).

(** ** Parameters *)

(** [stop], [stop_regex]: None, a string or a list of strings. *)
Inductive stop_arg :=
| NoStop
| OneStop (s : text)
| Stops (l : list text).

Section params.
Context {F : Type} `{PyNum F}.

(** The arguments; [None] is Python's None. *)
Record SamplingArgs := mkSamplingArgs {
  ar_max_new_tokens : option Z;
  ar_stop : stop_arg;
  ar_stop_token_ids : option (list (option Z));
  ar_stop_regex : stop_arg;
  ar_temperature : option F;
  ar_top_p : option F;
  ar_top_k : option Z;
  ar_min_p : option F;
  ar_frequency_penalty : option F;
  ar_presence_penalty : option F;
  ar_repetition_penalty : option F;
  ar_min_new_tokens : option Z;
  ar_json_schema : option text;
  ar_regex : option text;
  ar_ebnf : option text;
  ar_ignore_eos : option bool;
  ar_logit_bias : option (list (option Z))     (* the keys as integers; None: not a number *)
}.

Record SamplingParams := mkSamplingParams {
  sm_max_new_tokens : option Z;
  sm_stop : stop_arg;
  sm_stop_token_ids : list Z;                  (* empty for None *)
  sm_stop_regex : stop_arg;
  sm_temperature : F;
  sm_top_p : F;
  sm_top_k : Z;
  sm_min_p : F;
  sm_frequency_penalty : F;
  sm_presence_penalty : F;
  sm_repetition_penalty : F;
  sm_min_new_tokens : Z;
  sm_json_schema : option text;
  sm_regex : option text;
  sm_ebnf : option text;
  sm_ignore_eos : bool;
  sm_logit_bias : option (list (option Z))
}.

(** [_SAMPLING_EPS = 1e-6] *)
Definition SAMPLING_EPS : F := fdiv (fofZ 1) (fofZ 1000000).
Definition TOP_K_ALL : Z := Z.shiftl 1 30.

(** [0 <= temperature < _SAMPLING_EPS] *)
Definition is_greedy (temperature : F) : bool := fle (fofZ 0) temperature && flt temperature SAMPLING_EPS.

Definition SamplingParams_init (set_order : list Z → list Z) (a : SamplingArgs) : SamplingParams :=
  let temperature := default (fofZ 1) (ar_temperature a) in
  let top_k := default (-1) (ar_top_k a) in
  let '(temperature, top_k) := if is_greedy temperature then (fofZ 1, 1) else (temperature, top_k) in
  let top_k := if bool_decide (top_k = -1) then TOP_K_ALL else top_k in
  mkSamplingParams (ar_max_new_tokens a) (ar_stop a)
    (match ar_stop_token_ids a with
     | Some ids => set_order (remove_dups (omap id ids))
     | None => []
     end)
    (ar_stop_regex a) temperature (default (fofZ 1) (ar_top_p a)) top_k (default (fofZ 0) (ar_min_p a))
    (default (fofZ 0) (ar_frequency_penalty a)) (default (fofZ 0) (ar_presence_penalty a))
    (default (fofZ 1) (ar_repetition_penalty a)) (default 0 (ar_min_new_tokens a))
    (ar_json_schema a) (ar_regex a) (ar_ebnf a) (default false (ar_ignore_eos a)) (ar_logit_bias a).

Definition check (b : bool) : res () := if b then Ok () else Raise ValueError.

(** [lo <= x <= hi] *)
Definition between (lo hi : Z) (x : F) : bool := fle (fofZ lo) x && fle x (fofZ hi).

Fixpoint verify_bias (vocab_size : Z) (keys : list (option Z)) : res () :=
  match keys with
  | [] => Ok ()
  | Some t :: rest => _ ← check (bool_decide (0 ≤ t < vocab_size)); verify_bias vocab_size rest
  | None :: _ => Raise ValueError
  end.

Definition is_set {A} (o : option A) : nat := match o with Some _ => 1 | None => 0 end.

Definition verify (p : SamplingParams) (vocab_size : Z) : res () :=
  _ ← check (negb (flt (sm_temperature p) (fofZ 0)));
  _ ← check (flt (fofZ 0) (sm_top_p p) && fle (sm_top_p p) (fofZ 1));
  _ ← check (between 0 1 (sm_min_p p));
  _ ← check (negb (bool_decide (sm_top_k p < 1) || bool_decide (sm_top_k p = -1)));
  _ ← check (between (-2) 2 (sm_frequency_penalty p));
  _ ← check (between (-2) 2 (sm_presence_penalty p));
  _ ← check (between 0 2 (sm_repetition_penalty p));
  _ ← check (bool_decide (0 ≤ sm_min_new_tokens p));
  _ ← match sm_max_new_tokens p with
      | Some n =>
          _ ← check (negb (bool_decide (n < 0)));
          check (bool_decide (sm_min_new_tokens p ≤ n))
      | None => Ok ()
      end;
  _ ← match sm_logit_bias p with Some keys => verify_bias vocab_size keys | None => Ok () end;
  check (negb (bool_decide (1 < is_set (sm_json_schema p) + is_set (sm_regex p) + is_set (sm_ebnf p))%nat)).

(** ** Normalisation *)

Definition stop_list (s : stop_arg) : list text :=
  match s with NoStop => [] | OneStop t => [t] | Stops l => l end.

(** The tokenizer and [sre_parse.parse] are parameters; parsing can raise. *)
Context (encode : option (text → list Z)) (sre_parse : text → res (list regex_token)).

Definition max_stop_len (l : list text) : Z :=
  foldl (λ n s, Z.max n (match encode with Some enc => zlen (enc s) | None => zlen s end)) 0 l.

Fixpoint max_regex_len (l : list text) (n : Z) : res Z :=
  match l with
  | [] => Ok n
  | r :: rest => p ← sre_parse r; max_regex_len rest (Z.max n (max_length_from_subpattern p))
  end.

(** [normalize]: the stop strings, their longest length in tokens, the stop regexes, theirs. *)
Definition normalize (p : SamplingParams) : res (list text * Z * list text * Z) :=
  let stop_strs := stop_list (sm_stop p) in
  let stop_regex_strs := stop_list (sm_stop_regex p) in
  n ← max_regex_len stop_regex_strs 0;
  Ok (stop_strs, max_stop_len stop_strs, stop_regex_strs, n).

End params.
Arguments SamplingArgs F : clear implicits.
Arguments SamplingParams F : clear implicits.

(** ** What a regular expression matches *)

(** The strings a token and a pattern match; an unhandled token may match anything. *)
Inductive token_match : regex_token → text → Prop :=
| tm_literal c : token_match (LITERAL c) [c]
| tm_in items c : items c = true → token_match (IN items) [c]
| tm_any c : token_match ANY [c]
| tm_sub inner w : pattern_match inner w → token_match (SUBPATTERN inner) w
| tm_branch first rest p w : p ∈ first :: rest → pattern_match p w → token_match (BRANCH first rest) w
| tm_max lo hi inner n w :
    (lo ≤ n)%nat → (∀ m, hi = Some m → (n ≤ m)%nat) → repeat_match n inner w → token_match (MAX_REPEAT lo hi inner) w
| tm_min lo hi inner n w :
    (lo ≤ n)%nat → (∀ m, hi = Some m → (n ≤ m)%nat) → repeat_match n inner w → token_match (MIN_REPEAT lo hi inner) w
| tm_at : token_match AT []
| tm_other w : token_match OTHER w
with pattern_match : list regex_token → text → Prop :=
| pm_nil : pattern_match [] []
| pm_cons t p w1 w2 : token_match t w1 → pattern_match p w2 → pattern_match (t :: p) (w1 ++ w2)
with repeat_match : nat → list regex_token → text → Prop :=
| rm_zero p : repeat_match 0 p []
| rm_succ n p w1 w2 : pattern_match p w1 → repeat_match n p w2 → repeat_match (S n) p (w1 ++ w2).

Scheme token_match_ind' := Minimality for token_match Sort Prop
  with pattern_match_ind' := Minimality for pattern_match Sort Prop
  with repeat_match_ind' := Minimality for repeat_match Sort Prop.
Combined Scheme regex_match_ind from token_match_ind', pattern_match_ind', repeat_match_ind'.

(** ** The bound *)

Section nested.
Context (P : regex_token → Prop).
Hypothesis (Hlit : ∀ c, P (LITERAL c)) (Hin : ∀ f, P (IN f)) (Hany : P ANY) (Hat : P AT) (Hother : P OTHER).
Hypothesis Hsub : ∀ p, Forall P p → P (SUBPATTERN p).
Hypothesis Hbranch : ∀ p l, Forall P p → Forall (Forall P) l → P (BRANCH p l).
Hypothesis Hmax : ∀ lo hi p, Forall P p → P (MAX_REPEAT lo hi p).
Hypothesis Hmin : ∀ lo hi p, Forall P p → P (MIN_REPEAT lo hi p).

(** Induction through the nested lists. *)
Fixpoint regex_token_nested_ind (t : regex_token) : P t :=
  let fix pattern (p : list regex_token) : Forall P p :=
    match p with
    | [] => Forall_nil_2 P
    | t :: p => Forall_cons_2 P t p (regex_token_nested_ind t) (pattern p)
    end in
  let fix patterns (l : list (list regex_token)) : Forall (Forall P) l :=
    match l with
    | [] => Forall_nil_2 (Forall P)
    | p :: l => Forall_cons_2 (Forall P) p l (pattern p) (patterns l)
    end in
  match t with
  | LITERAL c => Hlit c
  | IN f => Hin f
  | ANY => Hany
  | SUBPATTERN p => Hsub p (pattern p)
  | BRANCH p l => Hbranch p l (pattern p) (patterns l)
  | MAX_REPEAT lo hi p => Hmax lo hi p (pattern p)
  | MIN_REPEAT lo hi p => Hmin lo hi p (pattern p)
  | AT => Hat
  | OTHER => Hother
  end.

End nested.

Lemma pattern_nonneg p : Forall (λ t, 0 ≤ token_max_length t) p → 0 ≤ max_length_from_subpattern p.
Proof. intros Hp. apply sumZ_nonneg. by apply Forall_fmap. Qed.

Lemma token_max_length_nonneg t : 0 ≤ token_max_length t.
Proof.
  induction t as [c|f| | | |p Hp|p l Hp Hl|lo hi p Hp|lo hi p Hp] using regex_token_nested_ind; simpl; try lia;
    try (unfold MAX_LEN; lia).
  - by apply pattern_nonneg.
  - clear Hl. induction l as [|q l IH]; simpl; [by apply pattern_nonneg|lia].
  - apply pattern_nonneg in Hp. unfold max_length_from_subpattern in Hp. destruct hi; [nia|unfold MAX_LEN; lia].
  - apply pattern_nonneg in Hp. unfold max_length_from_subpattern in Hp. destruct hi; [nia|unfold MAX_LEN; lia].
Qed.

Lemma max_length_nonneg p : 0 ≤ max_length_from_subpattern p.
Proof. apply pattern_nonneg, Forall_forall. intros t _. apply token_max_length_nonneg. Qed.

(** [n] bounds the length of [w], or says that there is no bound. *)
Definition bounds (n : Z) (w : text) : Prop := zlen w ≤ n ∨ MAX_LEN ≤ n.

Lemma bounds_repeat n k m w : (n ≤ k)%nat → 0 ≤ m → bounds (Z.of_nat n * m) w → bounds (Z.of_nat k * m) w.
Proof. intros Hn Hm [Hw|Hw]; [left|right]; nia. Qed.

Lemma branch_max first rest p :
  p ∈ first :: rest →
  max_length_from_subpattern p ≤ token_max_length (BRANCH first rest).
Proof.
  unfold max_length_from_subpattern. cbn [token_max_length]. intros [->|Hp]%elem_of_cons.
  - induction rest as [|q l IH]; simpl; [lia|]. lia.
  - induction rest as [|q l IH]; simpl; [by apply not_elem_of_nil in Hp|].
    apply elem_of_cons in Hp as [->|Hp]; [lia|]. specialize (IH Hp). lia.
Qed.

Lemma regex_bounds :
  (∀ t w, token_match t w → bounds (token_max_length t) w)
  ∧ (∀ p w, pattern_match p w → bounds (max_length_from_subpattern p) w)
  ∧ (∀ n p w, repeat_match n p w → bounds (Z.of_nat n * max_length_from_subpattern p) w).
Proof.
  apply regex_match_ind; intros; simpl.
  - by left.
  - by left.
  - by left.
  - done.
  - pose proof (branch_max first rest p ltac:(done)) as Hb. cbn [token_max_length] in Hb. unfold bounds in *. lia.
  - destruct hi as [m|]; [|by right].
    apply (bounds_repeat n m (max_length_from_subpattern inner)); [by auto|apply max_length_nonneg|done].
  - destruct hi as [m|]; [|by right].
    apply (bounds_repeat n m (max_length_from_subpattern inner)); [by auto|apply max_length_nonneg|done].
  - by left.
  - by right.
  - by left.
  - pose proof (token_max_length_nonneg t). pose proof (max_length_nonneg p).
    change (max_length_from_subpattern (t :: p)) with (token_max_length t + max_length_from_subpattern p).
    unfold bounds in *. rewrite zlen_app. lia.
  - by left.
  - pose proof (max_length_nonneg p). unfold bounds in *. rewrite zlen_app. nia.
Qed.

(** C40: the length computed for a stop regex is an upper bound on everything the regex can match,
    unless it is the marker for regexes without a known bound. *)
Theorem regex_max_length_bound p w :
  pattern_match p w → max_length_from_subpattern p < MAX_LEN → zlen w ≤ max_length_from_subpattern p.
Proof. intros Hm Hlt. destruct (proj1 (proj2 regex_bounds) p w Hm) as [Hw|Hw]; lia. Qed.

(** [a(b|cd){1,2}$] on [acdb]: at most five characters. *)
Definition demo_regex : list regex_token :=
  [LITERAL 97; MAX_REPEAT 1 (Some 2%nat) [SUBPATTERN [BRANCH [LITERAL 98] [[LITERAL 99; LITERAL 100]]]]; AT].

Lemma regex_max_length_bound_witness :
  zlen [97; 99; 100; 98] ≤ max_length_from_subpattern demo_regex.
Proof.
  apply (regex_max_length_bound demo_regex [97; 99; 100; 98]); [|vm_compute; done].
  apply (pm_cons _ _ [97] [99; 100; 98]); [constructor|].
  apply (pm_cons _ _ [99; 100; 98] []); [|by apply (pm_cons _ _ [] []); constructor].
  apply (tm_max _ _ _ 2); [lia|by intros m [= <-]|].
  apply (rm_succ _ _ [99; 100] [98]); [|apply (rm_succ _ _ [98] []); [|constructor]].
  - apply (pm_cons _ _ [99; 100] []); [|constructor]. constructor. apply (pm_cons _ _ [99; 100] []); [|constructor].
    apply (tm_branch _ _ [LITERAL 99; LITERAL 100]); [by right; left|].
    apply (pm_cons _ _ [99] [100]); [constructor|]. apply (pm_cons _ _ [100] []); constructor.
  - apply (pm_cons _ _ [98] []); [|constructor]. constructor. apply (pm_cons _ _ [98] []); [|constructor].
    apply (tm_branch _ _ [LITERAL 98]); [by left|]. apply (pm_cons _ _ [98] []); constructor.
Defined.

(** ** Verification of the parameters *)

Lemma check_ok (b : bool) (r : res ()) : (_ ← check b; r) = Ok () ↔ b = true ∧ r = Ok ().
Proof. unfold check. destruct b; simpl; naive_solver. Qed.

Lemma check_last (b : bool) : check b = Ok () ↔ b = true.
Proof. unfold check. by destruct b. Qed.

Lemma seq_ok (r k : res ()) : (_ ← r; k) = Ok () ↔ r = Ok () ∧ k = Ok ().
Proof. destruct r as [[]|]; simpl; naive_solver. Qed.

Lemma verify_bias_ok vocab keys :
  verify_bias vocab keys = Ok () ↔ ∀ t, t ∈ keys → ∃ k, t = Some k ∧ 0 ≤ k < vocab.
Proof.
  induction keys as [|[k|] keys IH]; cbn [verify_bias].
  - split; [|done]. intros _ t Ht. by apply not_elem_of_nil in Ht.
  - rewrite check_ok, IH, bool_decide_eq_true. split.
    + intros [Hk Hr] t [->|Ht]%elem_of_cons; [by exists k|by apply Hr].
    + intros Ht. split; [|intros t Hin; apply Ht; by right]. destruct (Ht (Some k)) as (? & [= <-] & ?); [by left|done].
  - split; [done|]. intros Ht. destruct (Ht None) as (? & ? & _); [by left|done].
Qed.

(** A call that can only return or raise ValueError. *)
Definition rejects (r : res ()) : Prop := r = Ok () ∨ r = Raise ValueError.

Lemma rejects_check b : rejects (check b).
Proof. unfold rejects, check. destruct b; auto. Qed.

Lemma rejects_seq (r k : res ()) : rejects r → rejects k → rejects (_ ← r; k).
Proof. intros [->| ->] Hk; simpl; [done|by right]. Qed.

Lemma rejects_bias vocab keys : rejects (verify_bias vocab keys).
Proof.
  induction keys as [|[k|] keys IH]; simpl; [by left| |by right]. apply rejects_seq; [apply rejects_check|done].
Qed.

Lemma verify_rejects {F} `{PyNum F} (p : SamplingParams F) vocab : rejects (verify p vocab).
Proof.
  unfold verify. repeat (apply rejects_seq; [try apply rejects_check|]); try apply rejects_check.
  - destruct (sm_max_new_tokens p); [|by left]. apply rejects_seq; apply rejects_check.
  - destruct (sm_logit_bias p); [apply rejects_bias|by left].
Qed.

Lemma default_forall {A} (P : A → Prop) d (o : option A) :
  P d → P (default d o) ↔ ∀ x, o = Some x → P x.
Proof. intros Hd. destruct o as [x|]; simpl; naive_solver. Qed.

(** The documented ranges of the arguments; a temperature below [SAMPLING_EPS] selects greedy sampling,
    whatever [top_k]. *)
Record sampling_valid (a : SamplingArgs Qc) (vocab : Z) : Prop := {
  sv_temperature t : ar_temperature a = Some t → (0 <= t)%Qc;
  sv_top_p x : ar_top_p a = Some x → ((0 < x)%Qc ∧ (x <= 1)%Qc);
  sv_min_p x : ar_min_p a = Some x → ((0 <= x)%Qc ∧ (x <= 1)%Qc);
  sv_top_k k : ar_top_k a = Some k → k = -1 ∨ 1 ≤ k ∨ is_greedy (default (Qc_ofZ 1) (ar_temperature a)) = true;
  sv_frequency x : ar_frequency_penalty a = Some x → ((Qc_ofZ (-2) <= x)%Qc ∧ (x <= Qc_ofZ 2)%Qc);
  sv_presence x : ar_presence_penalty a = Some x → ((Qc_ofZ (-2) <= x)%Qc ∧ (x <= Qc_ofZ 2)%Qc);
  sv_repetition x : ar_repetition_penalty a = Some x → ((0 <= x)%Qc ∧ (x <= Qc_ofZ 2)%Qc);
  sv_min_new : 0 ≤ default 0 (ar_min_new_tokens a);
  sv_max_new n : ar_max_new_tokens a = Some n → default 0 (ar_min_new_tokens a) ≤ n;
  sv_bias keys t : ar_logit_bias a = Some keys → t ∈ keys → ∃ k, t = Some k ∧ 0 ≤ k < vocab;
  sv_grammar : (is_set (ar_json_schema a) + is_set (ar_regex a) + is_set (ar_ebnf a) ≤ 1)%nat
}.

Lemma between_Qc lo hi (x : Qc) : between lo hi x = true ↔ (Qc_ofZ lo <= x)%Qc ∧ (x <= Qc_ofZ hi)%Qc.
Proof. unfold between. rewrite andb_true_iff, !Qc_fle. done. Qed.

(** [verify] as the conjunction of its checks. *)
Lemma verify_ok (p : SamplingParams Qc) vocab :
  verify p vocab = Ok () ↔
    (0 <= sm_temperature p)%Qc ∧ ((0 < sm_top_p p)%Qc ∧ (sm_top_p p <= 1)%Qc)
    ∧ ((0 <= sm_min_p p)%Qc ∧ (sm_min_p p <= 1)%Qc) ∧ 1 ≤ sm_top_k p
    ∧ ((Qc_ofZ (-2) <= sm_frequency_penalty p)%Qc ∧ (sm_frequency_penalty p <= Qc_ofZ 2)%Qc)
    ∧ ((Qc_ofZ (-2) <= sm_presence_penalty p)%Qc ∧ (sm_presence_penalty p <= Qc_ofZ 2)%Qc)
    ∧ ((0 <= sm_repetition_penalty p)%Qc ∧ (sm_repetition_penalty p <= Qc_ofZ 2)%Qc) ∧ 0 ≤ sm_min_new_tokens p
    ∧ (∀ n, sm_max_new_tokens p = Some n → sm_min_new_tokens p ≤ n)
    ∧ (∀ keys t, sm_logit_bias p = Some keys → t ∈ keys → ∃ k, t = Some k ∧ 0 ≤ k < vocab)
    ∧ (is_set (sm_json_schema p) + is_set (sm_regex p) + is_set (sm_ebnf p) ≤ 1)%nat.
Proof.
  unfold verify. rewrite !check_ok, !seq_ok, check_last, !between_Qc, !negb_true_iff, andb_true_iff, Qc_flt, Qc_fle, Qc_flt_false,
    orb_false_iff, !bool_decide_eq_false, bool_decide_eq_true.
  change (fofZ 0) with (Qc_ofZ 0). change (fofZ 1) with (Qc_ofZ 1). rewrite Qc_ofZ_0, Qc_ofZ_1.
  assert (Hmax : (match sm_max_new_tokens p with
      | Some n => _ ← check (negb (bool_decide (n < 0))); check (bool_decide (sm_min_new_tokens p ≤ n))
      | None => Ok () end) = Ok ()
    ↔ ∀ n, sm_max_new_tokens p = Some n → 0 ≤ n ∧ sm_min_new_tokens p ≤ n).
  { destruct (sm_max_new_tokens p) as [n|]; [|naive_solver].
    rewrite check_ok, check_last, negb_true_iff, bool_decide_eq_false, bool_decide_eq_true. split.
    - intros [? ?] ? [= <-]. lia.
    - intros Hn. specialize (Hn n eq_refl). lia. }
  assert (Hbias : (match sm_logit_bias p with Some keys => verify_bias vocab keys | None => Ok () end) = Ok ()
    ↔ ∀ keys t, sm_logit_bias p = Some keys → t ∈ keys → ∃ k, t = Some k ∧ 0 ≤ k < vocab).
  { destruct (sm_logit_bias p) as [keys|]; [|naive_solver]. rewrite verify_bias_ok. naive_solver. }
  rewrite Hmax, Hbias. clear Hmax Hbias. split.
  - intros (H1 & [H2 H2'] & [H3 H3'] & H4 & [H5 H5'] & [H6 H6'] & [H7 H7'] & H8 & H9 & H10 & H11).
    split_and!; try done; try lia.
    intros n Hn. by apply H9.
  - intros (H1 & [H2 H2'] & [H3 H3'] & H4 & [H5 H5'] & [H6 H6'] & [H7 H7'] & H8 & H9 & H10 & H11).
    split_and!; try done; try lia.
    intros n Hn. specialize (H9 n Hn). lia.
Qed.

Lemma eps_range : (0 < SAMPLING_EPS)%Qc ∧ (SAMPLING_EPS <= 1)%Qc.
Proof. split; vm_compute; congruence. Qed.

(** What the constructor makes of the temperature and of [top_k]. *)
Lemma init_temperature order (a : SamplingArgs Qc) :
  let t := default (Qc_ofZ 1) (ar_temperature a) in
  let p := SamplingParams_init order a in
  ((0 <= t)%Qc ↔ (0 <= sm_temperature p)%Qc) ∧ ((0 <= sm_temperature p)%Qc → (SAMPLING_EPS <= sm_temperature p)%Qc).
Proof.
  intros t p. destruct eps_range as [He He1]. unfold p, SamplingParams_init. fold t.
  change (default (fofZ 1) (ar_temperature a)) with t.
  destruct (is_greedy t) eqn:Eg; cbn [sm_temperature].
  - apply andb_true_iff in Eg as [Eg _]. rewrite Qc_fle in Eg. change (fofZ 1) with (Qc_ofZ 1). rewrite Qc_ofZ_1.
    change (fofZ 0) with (Qc_ofZ 0) in Eg. rewrite Qc_ofZ_0 in Eg. done.
  - split; [done|]. intros Ht. apply andb_false_iff in Eg as [Eg|Eg].
    + rewrite Qc_fle_false in Eg. change (fofZ 0) with (Qc_ofZ 0) in Eg. rewrite Qc_ofZ_0 in Eg.
      by apply Qclt_not_le in Eg.
    + by rewrite Qc_flt_false in Eg.
Qed.

Lemma init_fields order (a : SamplingArgs Qc) :
  let p := SamplingParams_init order a in
  sm_top_p p = default (Qc_ofZ 1) (ar_top_p a) ∧ sm_min_p p = default (Qc_ofZ 0) (ar_min_p a)
  ∧ sm_frequency_penalty p = default (Qc_ofZ 0) (ar_frequency_penalty a)
  ∧ sm_presence_penalty p = default (Qc_ofZ 0) (ar_presence_penalty a)
  ∧ sm_repetition_penalty p = default (Qc_ofZ 1) (ar_repetition_penalty a)
  ∧ sm_min_new_tokens p = default 0 (ar_min_new_tokens a) ∧ sm_max_new_tokens p = ar_max_new_tokens a
  ∧ sm_logit_bias p = ar_logit_bias a ∧ sm_json_schema p = ar_json_schema a ∧ sm_regex p = ar_regex a
  ∧ sm_ebnf p = ar_ebnf a.
Proof. unfold SamplingParams_init. by destruct (is_greedy _). Qed.

Lemma init_top_k order (a : SamplingArgs Qc) :
  1 ≤ sm_top_k (SamplingParams_init order a)
  ↔ ∀ k, ar_top_k a = Some k → k = -1 ∨ 1 ≤ k ∨ is_greedy (default (Qc_ofZ 1) (ar_temperature a)) = true.
Proof.
  unfold SamplingParams_init. change (default (fofZ 1) (ar_temperature a)) with (default (Qc_ofZ 1) (ar_temperature a)).
  assert (Hall : 1 ≤ TOP_K_ALL) by (vm_compute; congruence).
  destruct (is_greedy _) eqn:Eg; cbn [sm_top_k].
  - split; [intros _ k _; by right; right|]. by intros _.
  - destruct (ar_top_k a) as [k|]; cbn [default from_option id].
    2:{ rewrite bool_decide_true by done. by split. }
    case_bool_decide as E; split; try done.
    + intros _ k' [= <-]. by left.
    + intros Hk k' [= <-]. right. by left.
    + intros Hk. destruct (Hk k eq_refl) as [?|[?|?]]; done.
Qed.

