(* ===== verification/FinishProps.v ===== *)
(** * The finish conditions: theorems

    The statements announced in Finish, with their witnesses. *)

From S2P Require Import Prelude Sampling Finish.

(** ** Strings *)

Lemma contains_ok s t : contains s t = true ↔ ∃ a b, t = a ++ s ++ b.
Proof.
  induction t as [|c t IH]; cbn [contains]; rewrite orb_true_iff, bool_decide_eq_true.
  - split.
    + intros [[b Hb]|]; [|done]. by exists [], b.
    + intros (a & b & Hab). symmetry in Hab. apply app_nil in Hab as [-> [-> ->]%app_nil]. left. by exists [].
  - rewrite IH. split.
    + intros [[b Hb]|(a & b & ->)]; [by exists [], b|by exists (c :: a), b].
    + intros ([|c' a] & b & Hab); [left; by exists b|right]. inversion Hab; subst. by exists a, b.
Qed.

(** The last [i] characters. *)
Lemma slice_tail {A} (l : list A) i : 0 < i ≤ zlen l → l⟨- i:⟩ = drop (length l - Z.to_nat i) l.
Proof.
  intros Hi. unfold slice_from, norm_idx. rewrite bool_decide_true by lia. f_equal. unfold zlen in *. lia.
Qed.

Lemma overlaps_ok tail stop :
  overlaps tail stop = true ↔ ∃ a m b, tail = a ++ m ∧ stop = m ++ b ∧ m ≠ [].
Proof.
  unfold overlaps. rewrite existsb_exists. split.
  - intros (i & Hi%list_elem_of_In%elem_of_seqZ & He%bool_decide_eq_true).
    rewrite slice_tail, slice_to_take in He by lia.
    exists (take (length tail - Z.to_nat i) tail), (take (Z.to_nat i) stop), (drop (Z.to_nat i) stop).
    split_and!; [rewrite <- He; by rewrite take_drop|by rewrite take_drop|].
    intros E. apply (f_equal length) in E. rewrite length_take in E. unfold zlen in *. simpl in E. lia.
  - intros (a & m & b & -> & -> & Hm). exists (zlen m).
    assert (0 < zlen m) by (by apply zlen_pos). rewrite !zlen_app. pose proof (zlen_nonneg a). pose proof (zlen_nonneg b).
    split; [apply list_elem_of_In, elem_of_seqZ; lia|]. apply bool_decide_eq_true.
    rewrite slice_tail, slice_to_take by (rewrite ?zlen_app; lia). unfold zlen. rewrite Nat2Z.id, length_app.
    replace (length a + length m - length m)%nat with (length a) by lia.
    by rewrite drop_app_length, take_app_length.
Qed.

(** An occurrence in [tail ++ ext] that begins in [tail]. *)
Lemma begins_in_tail (tail ext a s b : text) :
  tail ++ ext = a ++ s ++ b → (length a < length tail)%nat → s ≠ [] →
  (∃ a b, tail = a ++ s ++ b) ∨ (∃ a m b, tail = a ++ m ∧ s = m ++ b ∧ m ≠ []).
Proof.
  intros He Hlt Hs.
  assert (Ht : ∃ m, tail = a ++ m ∧ m ≠ [] ∧ m ++ ext = s ++ b).
  { exists (drop (length a) tail). apply (f_equal (drop (length a))) in He as Hd.
    rewrite drop_app_length, drop_app_le in Hd by lia.
    apply (f_equal (take (length a))) in He. rewrite take_app_length, take_app_le in He by lia.
    split_and!; [rewrite <- (take_drop (length a) tail) at 1; by rewrite He| |done].
    intros E%(f_equal length). rewrite length_drop in E. simpl in E. lia. }
  destruct Ht as (m & -> & Hm & Hms). destruct (decide (length s ≤ length m)%nat) as [Hl|Hl].
  - left. exists a, (drop (length s) m). f_equal. apply (f_equal (take (length s))) in Hms.
    rewrite take_app_length, take_app_le in Hms by done. rewrite <- (take_drop (length s) m) at 1. by rewrite Hms.
  - right. exists a, m, (drop (length m) s). split_and!; [done| |done].
    apply (f_equal (take (length m))) in Hms. rewrite take_app_length, take_app_le in Hms by lia.
    rewrite <- (take_drop (length m) s) at 1. by rewrite <- Hms.
Qed.

(** C37: text that is not held back cannot begin a stop string: if [check_match_stop_str_prefix] says
    no, then whatever text follows the tail, no stop string occurs in it from a position within
    the tail. *)
Theorem held_back_safe r tail ext a b s :
  tail_str r = Ok tail → check_match_stop_str_prefix r = Ok false →
  s ∈ fr_stop_strs r → s ≠ [] → tail ++ ext = a ++ s ++ b → (length tail ≤ length a)%nat.
Proof.
  intros Ht Hc Hs Hne Hocc. destruct (decide (length tail ≤ length a)%nat) as [|Hlt]; [done|exfalso].
  unfold check_match_stop_str_prefix in Hc. case_bool_decide as E1.
  { apply length_zero_iff_nil in E1. rewrite E1 in Hs. by apply not_elem_of_nil in Hs. }
  rewrite Ht in Hc. cbn [mbind res_bind] in Hc. case_bool_decide as E2; [lia|]. inversion Hc as [Hex].
  assert (Hfalse : negb (bool_decide (length s = 0%nat)) && (contains s tail || overlaps tail s) = false).
  { apply not_true_iff_false. intros Htrue. apply not_true_iff_false in Hex. apply Hex. apply existsb_exists.
    exists s. split; [by apply list_elem_of_In|done]. }
  rewrite bool_decide_false in Hfalse by (by rewrite length_zero_iff_nil). simpl in Hfalse.
  apply orb_false_iff in Hfalse as [Hcon Hov]. apply not_true_iff_false in Hcon, Hov.
  destruct (begins_in_tail tail ext a s b Hocc ltac:(lia) Hne) as [Hin|Hin].
  - apply Hcon. by apply contains_ok.
  - apply Hov. by apply overlaps_ok.
Qed.

(** ** Finishing *)

Section finish.
Context (re_search : text → text → bool).

(** The conditions, for the new tokens [new] and the decoded tail. *)
Inductive stop_condition (r : FinReq) (new : list Z) : Prop :=
| stop_length : fr_max_new_tokens r ≤ zlen (fr_output_ids r) → stop_condition r new
| stop_grammar : fr_grammar r = Some true → stop_condition r new
| stop_token t : fr_ignore_eos r = false → t ∈ new → is_stop_token r t = true → stop_condition r new
| stop_range t : t ∈ new → (fr_vocab_size r < t ∨ t < 0) → stop_condition r new
| stop_string tail s : tail_str r = Ok tail → s ∈ fr_stop_strs r →
    contains s tail = true ∨ contains s (fr_decoded_text r) = true → stop_condition r new
| stop_regex tail s : tail_str r = Ok tail → s ∈ fr_stop_regex_strs r → re_search s tail = true →
    stop_condition r new.

(** The loop over the tokens finds the first stop token. *)
Lemma token_loop_ok r i tokens :
  match token_loop r i tokens with
  | Some r' => ∃ k t rest, tokens = k ++ t :: rest ∧ Forall (λ t, is_stop_token r t = false) k
      ∧ is_stop_token r t = true
      ∧ r' = set_finish r (fr_output_ids r) (Some (FINISH_MATCHED_TOKEN t)) (Some (i + zlen k + 1)) (fr_to_finish r)
  | None => Forall (λ t, is_stop_token r t = false) tokens
  end.
Proof.
  revert i. induction tokens as [|t tokens IH]; intros i; cbn [token_loop]; [constructor|].
  destruct (is_stop_token r t) eqn:Et.
  - exists [], t, tokens. rewrite zlen_nil, Z.add_0_r. split_and!; [done|constructor|done|done].
  - specialize (IH (i + 1)). destruct (token_loop r (i + 1) tokens) as [r'|].
    + destruct IH as (k & t' & rest & -> & Hk & Ht' & ->). exists (t :: k), t', rest.
      rewrite zlen_cons. split_and!; [done|by constructor|done|]. do 2 f_equal. lia.
    + by constructor.
Qed.

Lemma vocab_loop_ok r i tokens :
  match vocab_loop r i tokens with
  | Some r' => finished r' = true ∧ ∃ t, t ∈ tokens ∧ (fr_vocab_size r < t ∨ t < 0)
  | None => ∀ t, t ∈ tokens → 0 ≤ t ≤ fr_vocab_size r
  end.
Proof.
  revert i. induction tokens as [|t tokens IH]; intros i; cbn [vocab_loop].
  { intros t Ht. by apply not_elem_of_nil in Ht. }
  destruct (bool_decide (fr_vocab_size r < t) || bool_decide (t < 0)) eqn:Et.
  - split; [done|]. exists t. split; [by left|].
    apply orb_true_iff in Et as [Et|Et]; apply bool_decide_eq_true in Et; auto.
  - apply orb_false_iff in Et as [E1 E2]. apply bool_decide_eq_false in E1, E2. specialize (IH (i + 1)).
    destruct (vocab_loop r (i + 1) tokens) as [r'|].
    + destruct IH as (Hf & t' & Ht' & Hr). split; [done|]. exists t'. split; [by right|done].
    + intros t' [->|Ht']%elem_of_cons; [lia|by apply IH].
Qed.

Lemma find_ok {A} (f : A → bool) l :
  match List.find f l with
  | Some x => x ∈ l ∧ f x = true
  | None => ∀ x, x ∈ l → f x = false
  end.
Proof.
  destruct (List.find f l) as [x|] eqn:E.
  - apply List.find_some in E as [Hx Hf]. split; [by apply list_elem_of_In|done].
  - intros x Hx. apply (List.find_none f l E). by apply list_elem_of_In.
Qed.

(** The string check decides the two string conditions. *)
Lemma str_based_ok r tk new :
  fr_tokenizer r = Some tk →
  ∃ o, check_str_based_finish re_search r = Ok o
    ∧ match o with
      | Some r' => finished r' = true ∧ stop_condition r new
      | None => (∀ tail s, tail_str r = Ok tail → s ∈ fr_stop_strs r →
                   contains s tail = false ∧ contains s (fr_decoded_text r) = false)
                ∧ ∀ tail s, tail_str r = Ok tail → s ∈ fr_stop_regex_strs r → re_search s tail = false
      end.
Proof.
  intros Htk. unfold check_str_based_finish.
  destruct (bool_decide (length (fr_stop_strs r) = 0%nat) && bool_decide (length (fr_stop_regex_strs r) = 0%nat)) eqn:E0.
  { exists None. split; [done|]. apply andb_true_iff in E0 as [E1 E2].
    apply bool_decide_eq_true, length_zero_iff_nil in E1, E2. rewrite E1, E2.
    split; intros tail s _ Hs; by apply not_elem_of_nil in Hs. }
  assert (Ht : ∃ tail, tail_str r = Ok tail) by (unfold tail_str; rewrite E0, Htk; by eexists).
  destruct Ht as [tail Ht]. rewrite Ht. cbn [mbind res_bind].
  pose proof (find_ok (λ s, contains s tail || contains s (fr_decoded_text r)) (fr_stop_strs r)) as Hs.
  destruct (List.find _ (fr_stop_strs r)) as [s|].
  { eexists. split; [done|]. split; [done|]. destruct Hs as [Hin Hs]. apply orb_true_iff in Hs.
    by apply (stop_string _ _ tail s). }
  pose proof (find_ok (λ s, re_search s tail) (fr_stop_regex_strs r)) as Hx.
  destruct (List.find _ (fr_stop_regex_strs r)) as [s|].
  { eexists. split; [done|]. split; [done|]. destruct Hx as [Hin Hx]. by apply (stop_regex _ _ tail s). }
  exists None. split; [done|]. split; intros tail' s [= <-] Hin; [|by apply Hx].
  by apply orb_false_iff, Hs.
Qed.

(** The outcome of a check on an unfinished request. *)
Record finish_outcome (r r' : FinReq) (pre new : list Z) : Prop := {
  fo_exact : finished r' = true ↔ stop_condition r new;
  fo_unchanged : finished r' = false → r' = r;
  fo_cut k t rest : fr_max_new_tokens r > zlen (fr_output_ids r) → fr_grammar r ≠ Some true → fr_ignore_eos r = false →
    new = k ++ t :: rest → Forall (λ t, is_stop_token r t = false) k → is_stop_token r t = true →
    fr_finished_reason r' = Some (FINISH_MATCHED_TOKEN t) ∧ output_ids_through_stop r' = pre ++ k ++ [t]
}.

Lemma first_stop_unique (f : Z → bool) k t rest k' t' rest' :
  k ++ t :: rest = k' ++ t' :: rest' → Forall (λ t, f t = false) k → Forall (λ t, f t = false) k' →
  f t = true → f t' = true → k = k' ∧ t = t'.
Proof.
  revert k'. induction k as [|x k IH]; intros [|y k'] He Hk Hk' Ht Ht'; simplify_eq/=; try done.
  - inversion Hk'; congruence.
  - inversion Hk; congruence.
  - inversion Hk; inversion Hk'; subst. destruct (IH k') as [-> ->]; done.
Qed.

Lemma outcome_finished r r' pre new :
  finished r' = true → stop_condition r new →
  (fr_max_new_tokens r ≤ zlen (fr_output_ids r) ∨ fr_grammar r = Some true
   ∨ Forall (λ t, is_stop_token r t = false) new ∨ fr_ignore_eos r = true) →
  finish_outcome r r' pre new.
Proof.
  intros Hf Hs Hno. split; [done|congruence|]. intros k t rest H1 H2 H3 -> Hk Ht. exfalso.
  destruct Hno as [?|[?|[Hall|?]]]; [lia|done| |congruence].
  apply Forall_app in Hall as [_ Hall]. inversion Hall. congruence.
Qed.

(** A stop token: the output is cut after it. *)
Lemma outcome_token r pre new k t rest :
  fr_output_ids r = pre ++ new → fr_ignore_eos r = false → new = k ++ t :: rest →
  Forall (λ t, is_stop_token r t = false) k → is_stop_token r t = true →
  finish_outcome r (set_finish r (fr_output_ids r) (Some (FINISH_MATCHED_TOKEN t)) (Some (zlen pre + zlen k + 1))
                      (fr_to_finish r)) pre new.
Proof.
  intros Hout Hig Hk Hno Ht. split; [|done|].
  - split; [|done]. intros _. apply (stop_token _ _ t); [done| |done]. rewrite Hk. set_solver.
  - intros k' t' rest' _ _ _ He Hk' Ht'. rewrite Hk in He.
    destruct (first_stop_unique (is_stop_token r) k t rest k' t' rest' He Hno Hk' Ht Ht') as [<- <-].
    split; [done|]. unfold output_ids_through_stop. cbn [fr_finished_len fr_output_ids set_finish].
    rewrite slice_to_take by (pose proof (zlen_nonneg pre); pose proof (zlen_nonneg k); lia). rewrite Hout, Hk.
    replace (pre ++ k ++ t :: rest) with ((pre ++ k ++ [t]) ++ rest) by (by rewrite <- !app_assoc).
    apply take_app_length'. rewrite !length_app. unfold zlen. simpl. lia.
Qed.

(** No condition holds: nothing changes. *)
Lemma outcome_quiet r pre new :
  fr_finished_reason r = None → ¬ stop_condition r new → finish_outcome r r pre new.
Proof.
  intros Hr Hno. split; [|done|].
  - split; [|done]. unfold finished. rewrite Hr. intros Hf%bool_decide_eq_true. by destruct Hf.
  - intros k t rest _ _ Hig -> _ Ht. destruct Hno. apply (stop_token _ _ t); [done|set_solver|done].
Qed.


End finish.

(** ** Incremental detokenization *)

(** Successive outputs of a request, each with the position where it was cut; the calls in between. *)
Fixpoint detok_calls (r : FinReq) (outs : list (list Z * option Z)) : FinReq :=
  match outs with
  | [] => r
  | (out, len) :: rest =>
      detok_calls (init_incremental_detokenize (set_finish r out (fr_finished_reason r) len (fr_to_finish r))).2 rest
  end.

Definition cut (o : list Z * option Z) : list Z := match o.2 with Some n => (o.1)⟨:n⟩ | None => o.1 end.

(** The offset where the decoded ids start. *)
Definition surr_of (r : FinReq) : Z := Z.max (zlen (fr_input_ids r) - INIT_INCREMENTAL_DETOKENIZATION_OFFSET) 0.

(** The state after a call on the output [seen]. *)
Record detok_state (r : FinReq) (seen : list Z) : Prop := {
  dt_surr : fr_surr_offset r = Some (surr_of r);
  dt_read : fr_read_offset r = Some (zlen (fr_input_ids r));
  dt_ids : fr_surr_and_decode_ids r = (fr_input_ids r)⟨surr_of r:⟩ ++ seen;
  dt_len : fr_cur_decode_ids_len r = zlen seen
}.

Definition detok_ready (r : FinReq) (seen : list Z) : Prop :=
  fr_surr_offset r = None ∧ seen = [] ∨ detok_state r seen.

Lemma detok_step r seen :
  detok_ready r seen → seen `prefix_of` output_ids_through_stop r →
  let '(ids, offset, r') := init_incremental_detokenize r in
  ids = (fr_input_ids r)⟨surr_of r:⟩ ++ output_ids_through_stop r
  ∧ offset = zlen (fr_input_ids r) - surr_of r
  ∧ detok_state r' (output_ids_through_stop r) ∧ fr_input_ids r' = fr_input_ids r.
Proof.
  intros [[Hn ->]|[D1 D2 D3 D4]] [rest Hp]; unfold init_incremental_detokenize.
  - rewrite Hn. simpl. by split_and!.
  - assert (Hd : (output_ids_through_stop r)⟨fr_cur_decode_ids_len r:⟩ = rest).
    { rewrite D4, Hp, slice_from_drop by apply zlen_nonneg. unfold zlen. by rewrite Nat2Z.id, drop_app_length. }
    rewrite D1, D2, Hd, D3. simpl. rewrite <- app_assoc, <- Hp. by split_and!.
Qed.

(** However often a request is detokenized while its output grows, the ids it hands to the
    tokenizer are the last five prompt tokens followed by the whole output up to the stop, and the
    offset of the new text is constant: the incremental buffer is what a single call on the final
    output would build. *)
Theorem detokenize_incremental r outs o :
  fr_surr_offset r = None → Sorted prefix (map cut (outs ++ [o])) →
  let last := set_finish (detok_calls r outs) o.1 (fr_finished_reason r) o.2 (fr_to_finish r) in
  (init_incremental_detokenize last).1
  = ((fr_input_ids r)⟨surr_of r:⟩ ++ cut o, zlen (fr_input_ids r) - surr_of r).
Proof.
  intros Hn Hs.
  assert (Hgo : ∀ outs r0 seen, detok_ready r0 seen → Sorted prefix (seen :: map cut (outs ++ [o])) →
    fr_input_ids r0 = fr_input_ids r →
    (init_incremental_detokenize (set_finish (detok_calls r0 outs) o.1 (fr_finished_reason r) o.2 (fr_to_finish r))).1
    = ((fr_input_ids r)⟨surr_of r:⟩ ++ cut o, zlen (fr_input_ids r) - surr_of r)).
  { clear outs Hs Hn. intros outs. induction outs as [|[out len] outs IH]; intros r0 seen Hr0 Hs Hin; cbn [detok_calls].
    - pose proof (detok_step (set_finish r0 o.1 (fr_finished_reason r) o.2 (fr_to_finish r)) seen) as Hstep.
      simpl in Hs. inversion Hs as [|? ? _ Hhd]; subst. inversion Hhd as [|? ? Hpre]; subst.
      destruct (init_incremental_detokenize _) as [[ids off] r'].
      destruct Hstep as (-> & -> & _); [|exact Hpre|]; [destruct Hr0 as [|[]]; [by left|by right]|].
      simpl. unfold surr_of. simpl. by rewrite Hin.
    - simpl in Hs. inversion Hs as [|? ? Hs' Hhd]; subst. inversion Hhd as [|? ? Hpre]; subst.
      pose proof (detok_step (set_finish r0 out (fr_finished_reason r0) len (fr_to_finish r0)) seen) as Hstep.
      destruct (init_incremental_detokenize _) as [[ids off] r'] eqn:Ei.
      destruct Hstep as (_ & _ & Hst & Hin'); [destruct Hr0 as [|[]]; [by left|by right]|exact Hpre|].
      apply (IH r' (cut (out, len))); [by right|done|]. by rewrite Hin'. }
  apply (Hgo outs r []); [by left|constructor; [done|]|done].
  destruct (map cut (outs ++ [o])) as [|x l]; constructor. by exists x.
Qed.

(** ** Witnesses *)

(** A tokenizer whose tokens are characters, with the end token 2. *)
Definition char_tokenizer : Tokenizer := mkTokenizer id (Some 2) [].

Definition demo_fin (input out : list Z) (max_new : Z) (stops : list text) : FinReq :=
  mkFinReq input out max_new false [] stops [] 2 0 [] 200 (Some char_tokenizer) None [] None None None None None [] 0.

Definition no_regex (regex t : text) : bool := false.

Lemma held_back_safe_witness :
  (length [120; 121] ≤ length [120; 121])%nat.
Proof.
  apply (held_back_safe (demo_fin [] [120; 121] 10 [[97; 98]]) [120; 121] [97; 98] [120; 121] [] [97; 98]);
    [vm_compute; reflexivity|vm_compute; reflexivity|by left|discriminate|reflexivity].
Defined.

(** The first character of the stop string is held back. *)
Example held_back : check_match_stop_str_prefix (demo_fin [] [120; 97] 10 [[97; 98]]) = Ok true.
Proof. vm_compute. reflexivity. Qed.


(** Three tokens were accepted at once, the second one is the end token: it cuts the output. *)
Example cut_at_end :
  match check_finished no_regex (demo_fin [] [5; 7; 2; 9] 10 []) 3 with
  | Ok r => (fr_finished_reason r, output_ids_through_stop r) = (Some (FINISH_MATCHED_TOKEN 2), [5; 7; 2])
  | Raise _ => False
  end.
Proof. vm_compute. reflexivity. Qed.

(** When the same tokens reach the maximal length, the length decides and the token after the end
    token is part of the output. *)
Example length_first :
  match check_finished no_regex (demo_fin [] [5; 7; 2; 9] 4 []) 3 with
  | Ok r => (fr_finished_reason r, output_ids_through_stop r) = (Some (FINISH_LENGTH 4), [5; 7; 2; 9])
  | Raise _ => False
  end.
Proof. vm_compute. reflexivity. Qed.

(** The token id [vocab_size], one past the vocabulary, is not noticed. *)
Example vocab_size_accepted :
  check_finished no_regex (demo_fin [] [5; 200] 10 []) 1 = Ok (demo_fin [] [5; 200] 10 []).
Proof. vm_compute. reflexivity. Qed.

Lemma detokenize_incremental_witness :
  (init_incremental_detokenize
    (set_finish (detok_calls (demo_fin [1; 2; 3; 4; 5; 6; 7] [] 10 []) [([8], None); ([8; 9], None)])
       [8; 9; 10; 11] None (Some 3) None)).1 = ([3; 4; 5; 6; 7] ++ [8; 9; 10], 7 - 2).
Proof.
  apply (detokenize_incremental (demo_fin [1; 2; 3; 4; 5; 6; 7] [] 10 []) [([8], None); ([8; 9], None)] ([8; 9; 10; 11], Some 3));
    [reflexivity|].
  change (Sorted prefix [[8]; [8; 9]; [8; 9; 10]]).
  apply Sorted_cons; [apply Sorted_cons; [by apply Sorted_cons|]|]; apply HdRel_cons; [by exists [10]|by exists [9]].
Defined.
