(* ===== verification/ResultProc.v ===== *)
(** * Processing the results of a batch

    Models the output side of the scheduler
    ([src/python/sglang/srt/managers/scheduler_output_processor_mixin.py]:
    [process_batch_result_decode], [process_batch_result_prefill], [_handle_finished_req],
    [_maybe_update_reasoning_tokens], [stream_output_generation]), the abort messages of
    [scheduler.py] ([abort_request]) and [Req.update_reasoning_tokens].

    A request object is kept in two records: [DReq] of DecodeBatch, which the batches list, and
    [GenState], its other fields, in a map by identity.  Fields that both need (the output ids, the
    token limit, whether it is finished or about to be) are in [DReq] and copied into the finish
    checks of Finish and back.  The sampled tokens are an argument; a grammar is an arbitrary object
    with [accept_token], which may raise ValueError, and [is_terminated].

    Off in the model, as in DecodeBatch: speculative decoding, disaggregation, embedding models, sparse
    attention, Mamba states, log probabilities, hidden states and routed experts (columns that are only
    collected), metrics. *)

From Stdlib Require Import String.
From S2P Require Import Prelude AllocKernels Allocator RadixKey RadixTree ReqPool ReqCache CacheAlloc DecodeBatch.
From S2P Require Import Sampling Finish.

(** [a % b] *)
Definition py_mod (a b : Z) : res Z := if bool_decide (b = 0) then Raise ZeroDivisionError else Ok (a mod b).

(** ** Requests *)

Section result.
Context {G : Type} (accept_token : G → Z → option G) (is_terminated : G → bool).
Context (re_search : text → text → bool).

Record GenState := mkGenState {
  gs_fin : FinReq;                           (* the finish conditions and the detokenizer's offsets *)
  gs_grammar : option G;
  gs_grammar_finished : bool;
  gs_require_reasoning : bool;
  gs_is_reasoning_over : bool;
  gs_stream_interval : option Z;             (* sampling_params.stream_interval *)
  gs_finished_output : bool;
  gs_send_token_offset : Z;
  gs_send_decode_id_offset : Z
}.

Definition gs_with_fin (f : FinReq) (x : GenState) : GenState :=
  mkGenState f (gs_grammar x) (gs_grammar_finished x) (gs_require_reasoning x) (gs_is_reasoning_over x)
    (gs_stream_interval x) (gs_finished_output x) (gs_send_token_offset x) (gs_send_decode_id_offset x).

Definition gs_with_grammar (g : option G) (fin : bool) (x : GenState) : GenState :=
  mkGenState (gs_fin x) g fin (gs_require_reasoning x) (gs_is_reasoning_over x)
    (gs_stream_interval x) (gs_finished_output x) (gs_send_token_offset x) (gs_send_decode_id_offset x).

Definition gs_with_reasoning_over (x : GenState) : GenState :=
  mkGenState (gs_fin x) (gs_grammar x) (gs_grammar_finished x) (gs_require_reasoning x) true
    (gs_stream_interval x) (gs_finished_output x) (gs_send_token_offset x) (gs_send_decode_id_offset x).

Definition gs_sent (f : FinReq) (token_offset decode_offset : Z) (x : GenState) : GenState :=
  mkGenState f (gs_grammar x) (gs_grammar_finished x) (gs_require_reasoning x) (gs_is_reasoning_over x)
    (gs_stream_interval x) (gs_finished_output x) token_offset decode_offset.

Definition gs_with_finished_output (x : GenState) : GenState :=
  mkGenState (gs_fin x) (gs_grammar x) (gs_grammar_finished x) (gs_require_reasoning x) (gs_is_reasoning_over x)
    (gs_stream_interval x) true (gs_send_token_offset x) (gs_send_decode_id_offset x).

Definition set_rq_output_ids (v : list Z) (r : Req) : Req :=
  mkReq (rq_origin_input_ids r) v (rq_fill_ids r) (rq_extra_key r) (rq_priority r)
    (rq_skip_radix_cache_insert r) (rq_reasoning_tokens r) (rq_is_chunked r)
    (rq_kv_committed_len r) (rq_kv_allocated_len r) (rq_kv_committed_freed r)
    (rq_kv_overallocated_freed r) (rq_req_pool_idx r) (rq_prefix_indices r) (rq_last_node r)
    (rq_cache_protected_len r).

Definition set_rq_reasoning_tokens (v : Z) (r : Req) : Req :=
  mkReq (rq_origin_input_ids r) (rq_output_ids r) (rq_fill_ids r) (rq_extra_key r) (rq_priority r)
    (rq_skip_radix_cache_insert r) v (rq_is_chunked r)
    (rq_kv_committed_len r) (rq_kv_allocated_len r) (rq_kv_committed_freed r)
    (rq_kv_overallocated_freed r) (rq_req_pool_idx r) (rq_prefix_indices r) (rq_last_node r)
    (rq_cache_protected_len r).

Definition set_rq_is_chunked (v : Z) (r : Req) : Req :=
  mkReq (rq_origin_input_ids r) (rq_output_ids r) (rq_fill_ids r) (rq_extra_key r) (rq_priority r)
    (rq_skip_radix_cache_insert r) (rq_reasoning_tokens r) v
    (rq_kv_committed_len r) (rq_kv_allocated_len r) (rq_kv_committed_freed r)
    (rq_kv_overallocated_freed r) (rq_req_pool_idx r) (rq_prefix_indices r) (rq_last_node r)
    (rq_cache_protected_len r).

(** The finish flags of a request. *)
Definition set_dr_finish (finished to_finish : bool) (q : Req) (r : DReq) : DReq :=
  mkDReq (dr_id r) (dr_rid r) (dr_max_new_tokens r) finished to_finish
    (dr_input_embeds r) (dr_return_logprob r) (dr_stream r) (dr_grammar r)
    (dr_wait_queue_entry_time r) (dr_retraction_count r) (dr_is_retracted r)
    (dr_retracted_stain r) (dr_extend_input_len r) (dr_extend_logprob_start_len r)
    (dr_already_computed r) (dr_extend_batch_idx r) (dr_decode_batch_idx r) q.

(** The message of [FINISH_ABORT()]. *)
Definition aborted_message : text := [65; 98; 111; 114; 116; 101; 100].

(** The shared fields as the finish checks see them. *)
Definition fin_view (r : DReq) (x : GenState) : FinReq :=
  let f := gs_fin x in
  mkFinReq (fr_input_ids f) (rq_output_ids (dr_req r)) (dr_max_new_tokens r) (fr_ignore_eos f)
    (fr_stop_token_ids f) (fr_stop_strs f) (fr_stop_regex_strs f) (fr_stop_str_max_len f)
    (fr_stop_regex_max_len f) (fr_eos_token_ids f) (fr_vocab_size f) (fr_tokenizer f)
    (is_terminated <$> gs_grammar x) (fr_decoded_text f) (fr_finished_reason f) (fr_finished_len f)
    (if dr_to_finish r then Some (default (FINISH_ABORT aborted_message) (fr_to_finish f)) else None)
    (fr_surr_offset f) (fr_read_offset f) (fr_surr_and_decode_ids f) (fr_cur_decode_ids_len f).

(** [req.check_finished(n)]. *)
Definition check_request (n : Z) (r : DReq) (x : GenState) : res (DReq * GenState) :=
  f ← check_finished re_search (fin_view r x) n;
  Ok (set_dr_finish (finished f) (bool_decide (is_Some (fr_to_finish f)))
        (set_rq_output_ids (fr_output_ids f) (dr_req r)) r,
      gs_with_fin f x).

(** [update_reasoning_tokens]: [token_id] as the list it is or becomes. *)
Definition update_reasoning_tokens (token_id : list Z) (think_end_id : Z) (q : Req) (over : bool) : Req * bool :=
  if over then (q, over)
  else match list_find (λ t, t = think_end_id) token_id with
       | Some (end_pos, _) => (set_rq_reasoning_tokens (rq_reasoning_tokens q + (Z.of_nat end_pos + 1)) q, true)
       | None => (set_rq_reasoning_tokens (rq_reasoning_tokens q + zlen token_id) q, over)
       end.

(** [_maybe_update_reasoning_tokens]. *)
Definition maybe_update_reasoning_tokens (think_end_id : option Z) (token_id : list Z) (r : DReq) (x : GenState)
    : DReq * GenState :=
  match think_end_id with
  | Some e =>
      if gs_require_reasoning x then
        let '(q, over) := update_reasoning_tokens token_id e (dr_req r) (gs_is_reasoning_over x) in
        (set_dr_req q r, if over then gs_with_reasoning_over x else x)
      else (r, x)
  | None => (r, x)
  end.

(** The steps both handlers share: the token is appended, counted as a reasoning token, and the request
    is checked. *)
Definition append_token (think_end_id : option Z) (next_token_id : Z) (r : DReq) (x : GenState) : res (DReq * GenState) :=
  let r := set_dr_req (set_rq_output_ids (rq_output_ids (dr_req r) ++ [next_token_id]) (dr_req r)) r in
  let '(r, x) := maybe_update_reasoning_tokens think_end_id [next_token_id] r x in
  check_request 1 r x.

(** ** Aborting *)

Record AbortReq := mkAbortReq { ar_rid : string; ar_abort_all : bool }.

(** [recv_req.abort_all or req.rid.startswith(recv_req.rid)] *)
Definition abort_matches (m : AbortReq) (r : DReq) : bool :=
  ar_abort_all m || String.prefix (ar_rid m) (dr_rid r).

(** Requests that run are marked: they run one more step. *)
Definition abort_mark (m : AbortReq) (r : DReq) : DReq :=
  if negb (dr_finished r) && abort_matches m r then set_dr_to_finish true r else r.

(** [abort_request] of a server that is not disaggregated: the waiting requests that match leave the
    queue, the last one first; those in [running] (and in the current batch) are marked.  The
    result is the queue, the requests a message was sent for, and the marked requests. *)
Definition abort_request (m : AbortReq) (queue running : list DReq) : list DReq * list DReq * list DReq :=
  (List.filter (λ r, negb (abort_matches m r)) queue, rev (List.filter (abort_matches m) queue),
   map (abort_mark m) running).

(** ** The state of a loop over the results *)

Record ResultState := mkResultState {
  rs_reqs : list DReq;                       (* batch.reqs *)
  rs_running : list DReq;                    (* running_batch.reqs, if that is another batch *)
  rs_gen : gmap nat GenState;
  rs_queue : list DReq;
  rs_sent_aborts : list DReq;
  rs_mem : Mem
}.

Definition rs_set (i : nat) (r : DReq) (x : GenState) (m : Mem) (s : ResultState) : ResultState :=
  mkResultState (<[i := r]> (rs_reqs s)) (rs_running s) (<[dr_id r := x]> (rs_gen s)) (rs_queue s) (rs_sent_aborts s) m.

Definition gen_of (s : gmap nat GenState) (r : DReq) : res GenState :=
  match s !! dr_id r with Some x => Ok x | None => Raise AttributeError end.

Context (monotonic : nat → Z) (sa : ServerArgs).

(** The call of [release_kv_cache] for a finished request. *)
Definition release_finished (r : DReq) (m : Mem) : res (DReq * Mem) :=
  '(t, k, p, q) ← release_kv_cache monotonic sa (me_tree m) (me_kv m) (me_pool m) (dr_req r) true;
  Ok (set_dr_req q r, mkMem t k p).

(** [_handle_finished_req]. *)
Definition handle_finished_req (r : DReq) (m : Mem) : res (DReq * Mem) :=
  if dr_finished r then release_finished r m else Ok (r, m).

(** The grammar of a request sees the token.  A ValueError aborts the request by its id. *)
Definition accept_grammar (i : nat) (token : Z) (s : ResultState) : res ResultState :=
  r ← item (rs_reqs s) i;
  x ← gen_of (rs_gen s) r;
  match gs_grammar x with
  | None => Ok s
  | Some g =>
      let '(g, s) :=
        match accept_token g token with
        | Some g => (g, s)
        | None =>
            let m := mkAbortReq (dr_rid r) false in
            let '(queue, sent, running) := abort_request m (rs_queue s) (rs_running s) in
            (g, mkResultState (map (abort_mark m) (rs_reqs s)) running (rs_gen s) queue (rs_sent_aborts s ++ sent) (rs_mem s))
        end in
      Ok (mkResultState (rs_reqs s) (rs_running s) (<[dr_id r := gs_with_grammar (Some g) (dr_finished r) x]> (rs_gen s))
            (rs_queue s) (rs_sent_aborts s) (rs_mem s))
  end.

(** One request of [process_batch_result_decode], without speculative decoding. *)
Definition decode_result (enable_overlap : bool) (think_end_id : option Z) (tokens : list Z) (s : ResultState) (i : nat)
    : res ResultState :=
  r ← item (rs_reqs s) i;
  if enable_overlap && (dr_finished r || dr_is_retracted r) then Ok s
  else
    x ← gen_of (rs_gen s) r;
    next_token_id ← item tokens i;
    '(r, x) ← append_token think_end_id next_token_id r x;
    '(r, m) ← handle_finished_req r (rs_mem s);
    accept_grammar i next_token_id (rs_set i r x m s).

(** One request of [process_batch_result_prefill]; [decoding] are the identities of
    [batch.decoding_reqs].  The result also says whether the request is still being chunked. *)
Definition prefill_result (think_end_id : option Z) (tokens : list Z) (decoding : option (list nat))
    (s : ResultState * option nat) (i : nat) : res (ResultState * option nat) :=
  let '(s, skip) := s in
  r ← item (rs_reqs s) i;
  match tokens !! i with
  | None => Ok (s, skip)                     (* zip stops at the shorter list *)
  | Some next_token_id =>
      if dr_finished r || dr_is_retracted r then Ok (s, skip)
      else
        x ← gen_of (rs_gen s) r;
        if bool_decide (rq_is_chunked (dr_req r) ≤ 0) then
          '(r, x) ← append_token think_end_id next_token_id r x;
          '(r, m) ←
            (if dr_finished r then release_finished r (rs_mem s)
             else if match decoding with
                     | Some l => bool_decide (length l = 0%nat) || bool_decide (dr_id r ∉ l)
                     | None => true
                     end
             then
               let m := rs_mem s in
               '(t, k, p, q) ← maybe_cache_unfinished_req monotonic (me_tree m) (me_kv m) (me_pool m) (dr_req r) false;
               Ok (set_dr_req q r, mkMem t k p)
             else Ok (r, rs_mem s));
          s ← accept_grammar i next_token_id (rs_set i r x m s);
          Ok (s, skip)
        else
          let r := set_dr_req (set_rq_is_chunked (rq_is_chunked (dr_req r) - 1) (dr_req r)) r in
          Ok (rs_set i r x (rs_mem s) s, Some (dr_id r))
  end.

(** ** Streaming *)

(** What a request contributes to the message for the detokenizer. *)
Record StreamMsg := mkStreamMsg {
  sm_rid : string;
  sm_finished_reason : option FinishReason;
  sm_decoded_text : text;
  sm_decode_ids : list Z;
  sm_read_offset : Z;
  sm_output_ids : list Z;
  sm_prompt_tokens : Z;
  sm_reasoning_tokens : Z;
  sm_completion_tokens : Z;
  sm_retraction_count : Z
}.

(** [finished_len] is set on output if no finish check set it. *)
Definition fill_finished_len (n : Z) (f : FinReq) : FinReq :=
  match fr_finished_len f with
  | Some _ => f
  | None => set_finish f (fr_output_ids f) (fr_finished_reason f) (Some n) (fr_to_finish f)
  end.

(** Whether an unfinished request is due. *)
Definition stream_due (stream_interval force_interval : Z) (r : DReq) (x : GenState) : res bool :=
  let n := zlen (rq_output_ids (dr_req r)) in
  if dr_stream r then
    let interval := match gs_stream_interval x with
                    | Some k => if bool_decide (k = 0) then stream_interval else k
                    | None => stream_interval
                    end in
    m ← py_mod n interval;
    let due := if bool_decide (1 < interval) then bool_decide (m = 1) else bool_decide (m = 0) in
    if due then b ← check_match_stop_str_prefix (fin_view r x); Ok (negb b) else Ok false
  else
    m ← py_mod n force_interval;
    Ok (bool_decide (m = 0)).

(** The message of a request that is due, and its new offsets. *)
Definition stream_message (r : DReq) (x : GenState) : StreamMsg * GenState :=
  let '(decode_ids, read_offset, f) := init_incremental_detokenize (fin_view r x) in
  let output_ids := output_ids_through_stop f in
  (mkStreamMsg (dr_rid r) (fr_finished_reason f) (fr_decoded_text f) (decode_ids⟨gs_send_decode_id_offset x:⟩)
     read_offset (output_ids⟨gs_send_token_offset x:⟩) (dr_input_len r) (rq_reasoning_tokens (dr_req r))
     (zlen output_ids) (dr_retraction_count r),
   gs_sent f (zlen output_ids) (zlen decode_ids) x).

(** One request of [stream_output_generation]. *)
Definition stream_request (stream_interval force_interval : Z) (r : DReq) (x : GenState)
    : res (option StreamMsg * GenState) :=
  if dr_finished r then
    if gs_finished_output x then Ok (None, x)
    else
      let x := gs_with_finished_output x in
      let x := gs_with_fin (fill_finished_len (zlen (rq_output_ids (dr_req r))) (gs_fin x)) x in
      let '(msg, x) := stream_message r x in Ok (Some msg, x)
  else
    due ← stream_due stream_interval force_interval r x;
    if due : bool then let '(msg, x) := stream_message r x in Ok (Some msg, x) else Ok (None, x).

(** [stream_output_generation]: the messages in the order of the requests. *)
Fixpoint stream_output (stream_interval force_interval : Z) (skip_req : option nat) (reqs : list DReq)
    (gen : gmap nat GenState) : res (list StreamMsg * gmap nat GenState) :=
  match reqs with
  | [] => Ok ([], gen)
  | r :: rest =>
      if bool_decide (skip_req = Some (dr_id r)) then stream_output stream_interval force_interval skip_req rest gen
      else
        x ← gen_of gen r;
        '(msg, x) ← stream_request stream_interval force_interval r x;
        '(msgs, gen) ← stream_output stream_interval force_interval skip_req rest (<[dr_id r := x]> gen);
        Ok (option_list msg ++ msgs, gen)
  end.

(** ** The two result handlers *)

Definition pool_free_group_begin (k : KVPool) : KVPool :=
  match k with
  | TokenPool a => TokenPool (free_group_begin a)
  | PagedPool a => PagedPool (free_group_begin a)
  end.

Definition pool_free_group_end (k : KVPool) : res KVPool :=
  match k with
  | TokenPool a => Ok (TokenPool (TokenToKVPoolAllocator_free_group_end a))
  | PagedPool a =>
      let '(r, a) := PagedTokenToKVPoolAllocator_free_group_end a in
      _ ← r; Ok (PagedPool a)
  end.

Record OutConfig := mkOutConfig {
  oc_enable_overlap : bool;
  oc_think_end_id : option Z;                (* model_config.think_end_id *)
  oc_stream_interval : Z;
  oc_force_stream_interval : Z               (* DEFAULT_FORCE_STREAM_INTERVAL *)
}.

Record OutState := mkOutState {
  os_gen : gmap nat GenState;
  os_queue : list DReq;                      (* waiting_queue *)
  os_sent_aborts : list DReq;
  os_messages : list (list StreamMsg);       (* sent to the detokenizer *)
  os_num_generated_tokens : Z;
  os_forward_ct_decode : Z;
  os_mem : Mem
}.

(** The new [batch.reqs] and the state. *)
Definition process_batch_result_decode (oc : OutConfig) (reqs : list DReq) (tokens : list Z) (s : OutState)
    : res (list DReq * OutState) :=
  let m := os_mem s in
  let st := mkResultState reqs [] (os_gen s) (os_queue s) (os_sent_aborts s)
              (mkMem (me_tree m) (pool_free_group_begin (me_kv m)) (me_pool m)) in
  st ← res_fold (decode_result (oc_enable_overlap oc) (oc_think_end_id oc) tokens) st (seq 0 (length reqs));
  '(msgs, gen) ← stream_output (oc_stream_interval oc) (oc_force_stream_interval oc) None (rs_reqs st) (rs_gen st);
  let m := rs_mem st in
  k ← pool_free_group_end (me_kv m);
  Ok (rs_reqs st,
      mkOutState gen (rs_queue st) (rs_sent_aborts st)
        (os_messages s ++ (if bool_decide (length reqs = 0%nat) then [] else [msgs]))
        (os_num_generated_tokens s + zlen reqs) ((os_forward_ct_decode s + 1) mod 2 ^ 30)
        (mkMem (me_tree m) k (me_pool m))).

(** The new [batch.reqs], [running_batch.reqs] and the state. *)
Definition process_batch_result_prefill (oc : OutConfig) (reqs running : list DReq) (decoding : option (list nat))
    (tokens : list Z) (s : OutState) : res (list DReq * list DReq * OutState) :=
  let st := mkResultState reqs running (os_gen s) (os_queue s) (os_sent_aborts s) (os_mem s) in
  '(st, skip_stream_req) ←
    res_fold (prefill_result (oc_think_end_id oc) tokens decoding) (st, None) (seq 0 (length reqs));
  '(msgs, gen) ← stream_output (oc_stream_interval oc) (oc_force_stream_interval oc) skip_stream_req (rs_reqs st) (rs_gen st);
  Ok (rs_reqs st, rs_running st,
      mkOutState gen (rs_queue st) (rs_sent_aborts st)
        (os_messages s ++ (if bool_decide (length reqs = 0%nat) then [] else [msgs]))
        (os_num_generated_tokens s) (os_forward_ct_decode s) (rs_mem st)).

End result.
Arguments GenState G : clear implicits.
Arguments ResultState G : clear implicits.
Arguments OutState G : clear implicits.
