(* ===== verification/ResultProps.v ===== *)
(** * Processing results: memory and progress

    The decode handler of ResultProc on a batch whose memory satisfies the invariant of DecodeMem:
    every request gets its token, the finished ones hand their slots to the tree inside the free
    group, the others keep theirs, and after the group is closed all slots, rows and locks are
    accounted for again. *)

From S2P Require Import Prelude AllocKernels Allocator RadixKey RadixTree RadixInv RadixMatch RadixProps ReqPool ReqCache.
From S2P Require Import CacheAlloc DecodeBatch DecodeMem HandOverMem RetractProps DecodeProps QueueProps.
From S2P Require Import Sampling Finish FinishProps ResultProc.

(** ** One finish check *)

Section check.
Context (re_search : text → text → bool).

(** The checks on strings can decode. *)
Definition can_decode_text (r : FinReq) : Prop :=
  fr_stop_strs r = [] ∧ fr_stop_regex_strs r = [] ∨ is_Some (fr_tokenizer r).

Lemma str_based_shape r :
  can_decode_text r →
  ∃ o, check_str_based_finish re_search r = Ok o ∧ ∀ r', o = Some r' → ∃ reason, r' = finish_with r reason.
Proof.
  intros Hd. unfold check_str_based_finish, tail_str. destruct (_ && _) eqn:E0; [by exists None|].
  destruct Hd as [[E1 E2]|[tk Htk]]; [by rewrite E1, E2 in E0|]. rewrite Htk. cbn [mbind res_bind].
  destruct (List.find _ (fr_stop_strs r)); [eexists; split; [done|]; intros ? [= <-]; eauto|].
  destruct (List.find _ (fr_stop_regex_strs r)); [eexists; split; [done|]; intros ? [= <-]; eauto|]. by exists None.
Qed.

Lemma boundary_last r out t : fr_output_ids r = out ++ [t] → ∃ t', boundary_output r (zlen out) = out ++ [t'].
Proof.
  intros Hout. unfold boundary_output. rewrite Hout.
  assert (Hi : ∀ x y, <[Z.to_nat (zlen out) := y]> (out ++ [x]) = out ++ [y]).
  { intros x y. unfold zlen. rewrite Nat2Z.id. by rewrite insert_app_r_alt, Nat.sub_diag by lia. }
  destruct (fr_stop_token_ids r) as [|x ?], (fr_eos_token_ids r) as [|y ?]; rewrite ?Hi; eauto.
Qed.

(** A check after one more token: nothing else than the finish fields and, for a token out of range, that
    token changes; while the request is unfinished nothing changes and its output is below the limit. *)
Lemma check_one r out t :
  fr_finished_reason r = None → fr_output_ids r = out ++ [t] → can_decode_text r →
  ∃ t' reason len tf, check_finished re_search r 1 = Ok (set_finish r (out ++ [t']) reason len tf)
    ∧ (reason = None → t' = t ∧ tf = None ∧ fr_to_finish r = None ∧ zlen (out ++ [t]) < fr_max_new_tokens r
                       ∧ len = fr_finished_len r)
    ∧ (len = fr_finished_len r ∨ len = Some (zlen out + 1)
       ∨ len = Some (fr_max_new_tokens r) ∧ fr_max_new_tokens r ≤ zlen out + 1 ∧ ∃ n, reason = Some (FINISH_LENGTH n)).
Proof.
  intros Hr Hout Hd. unfold check_finished, finished at 1. rewrite Hr, bool_decide_false by (intros [? ?]; done).
  destruct (fr_to_finish r) as [reason|] eqn:Htf; [exists t; rewrite Hout; eexists _, _, _; by split_and!; [..|left]|].
  case_bool_decide as Hlen.
  { exists t; rewrite Hout in *; eexists _, _, _. rewrite zlen_app in Hlen. change (zlen [t]) with 1 in Hlen. split_and!; [done..|]. do 2 right. split_and!; [done..|by eexists]. }
  case_bool_decide as Hg.
  { rewrite Hout, last_snoc. exists t. unfold finish_with. rewrite Hout. eexists _, _, _. split_and!; [done..|]. by left. }
  assert (Hnew : (fr_output_ids r)⟨- (1):⟩ = [t]).
  { rewrite Hout, slice_tail by (rewrite zlen_app; change (zlen [t]) with 1; pose proof (zlen_nonneg out); lia).
    replace (length (out ++ [t]) - Z.to_nat 1)%nat with (length out) by (rewrite length_app; simpl; lia).
    by rewrite drop_app_length. }
  rewrite Hnew. unfold check_token_based_finish, check_vocab_boundary_finish. rewrite Hout, zlen_app.
  change (zlen [t]) with 1. rewrite Z.add_simpl_r. cbn [token_loop vocab_loop].
  destruct (if fr_ignore_eos r then None else _) as [r'|] eqn:Etok.
  { destruct (fr_ignore_eos r); [done|]. destruct (is_stop_token r t); [|done]. inversion Etok. subst r'. rewrite Hout.
    exists t. eexists _, _, _. split_and!; [done..|]. by right; left. }
  destruct (bool_decide (fr_vocab_size r < t) || bool_decide (t < 0)).
  { destruct (boundary_last r out t Hout) as [t' ->]. exists t'. eexists _, _, _. split_and!; [done..|]. by right; left. }
  destruct (str_based_shape r Hd) as (o & -> & Ho). cbn [mbind res_bind]. destruct o as [r'|].
  - destruct (Ho r' eq_refl) as [reason ->]. exists t. unfold finish_with. rewrite Hout. eexists _, _, _. split_and!; [done..|]. by left.
  - exists t, None, (fr_finished_len r), None. split.
    2:{ rewrite Hout, zlen_app in Hlen. change (zlen [t]) with 1 in Hlen. split; [|by left]. intros _. split_and!; [done..|lia|done]. }
    f_equal. destruct r; cbn in *; subst; reflexivity.
Qed.

End check.

(** ** Requests that get a longer output *)

(** The memory fields stay, the output grows. *)
Record extends_req (q q' : Req) : Prop := {
  er_idx : rq_req_pool_idx q' = rq_req_pool_idx q;
  er_node : rq_last_node q' = rq_last_node q;
  er_protected : rq_cache_protected_len q' = rq_cache_protected_len q;
  er_committed : rq_kv_committed_len q' = rq_kv_committed_len q;
  er_allocated : rq_kv_allocated_len q' = rq_kv_allocated_len q;
  er_committed_freed : rq_kv_committed_freed q' = rq_kv_committed_freed q;
  er_overallocated_freed : rq_kv_overallocated_freed q' = rq_kv_overallocated_freed q;
  er_extra : rq_extra_key q' = rq_extra_key q;
  er_origin : rq_origin_input_ids q' = rq_origin_input_ids q;
  er_output : rq_output_ids q `prefix_of` rq_output_ids q';
  er_fill : rq_fill_ids q' = rq_fill_ids q
}.

#[export] Instance extends_req_preorder : PreOrder extends_req.
Proof.
  split; [by intros q; split|]. intros q1 q2 q3 [] []. split; try congruence. by etrans.
Qed.

Lemma extends_slots p q q' : extends_req q q' → row_of p q' = row_of p q ∧ private_slots p q' = private_slots p q.
Proof. intros [E1 _ E3 E4 _ _ _ _ _ _ _]. unfold private_slots, row_of. by rewrite E1, E3, E4. Qed.

Lemma extends_holds c p q q' : extends_req q q' → holds c p q → holds c p q'.
Proof.
  intros He [H1 H2 [H3 H3'] H4 H5 H6 H7 H8 H9]. destruct (extends_slots p q q' He) as [Hrow _].
  destruct He as [E1 E2 E3 E4 E5 E6 E7 E8 E9 [k E10] _].
  assert (Hn : node_of q' = node_of q) by (unfold node_of; congruence).
  split; rewrite ?Hrow, ?E1, ?E2, ?E3, ?E4, ?E5, ?E6, ?E7, ?Hn; try done.
  - rewrite E9, E10, !zlen_app in *. pose proof (zlen_nonneg k). lia.
  - replace (take (Z.to_nat (rq_cache_protected_len q)) (qunits (full_key q')))
      with (take (Z.to_nat (rq_cache_protected_len q)) (qunits (full_key q))); [done|].
    unfold full_key, qunits, units. cbn [is_bigram token_ids extra_key]. rewrite E8, E9, E10, app_assoc, <- !fmap_take.
    rewrite (take_app_le (rq_origin_input_ids q ++ rq_output_ids q) k); [done|]. unfold zlen in *. lia.
Qed.

Section mem.
Context {monotonic : nat → Z} {dfi : bool} {policy : string}.
Context (size width : Z) (ol : list nat) (os orows : list Z).
Let mem closed := batch_mem (monotonic:=monotonic) (dfi:=dfi) (policy:=policy) closed size width ol os orows.

Lemma batch_mem_extend closed c a p held L q q' l :
  extends_req q q' → mem closed c a p held L (q :: l) → mem closed c a p held L (q' :: l).
Proof.
  intros He [B1 B2 B3 B4 B5 B6 B7 B8 B9 B10 B11]. pose proof (extends_slots p q q' He) as [_ Hs].
  inversion B8 as [|? ? Hq Hl]; subst.
  assert (Hn : node_of q' = node_of q) by (unfold node_of; by rewrite (er_node _ _ He)).
  assert (Hi : row_index q' = row_index q) by (unfold row_index; by rewrite (er_idx _ _ He)).
  split; try done.
  - cbn [map concat] in *. unfold locks_of at 1 in B3. unfold locks_of at 1. by rewrite Hn.
  - cbn [map concat] in *. by rewrite Hs.
  - constructor; [|done]. by apply (extends_holds c p q).
  - cbn [map] in *. by rewrite Hi.
Qed.

(** The two ends of a free group. *)
Lemma batch_mem_open c a p held L l :
  mem true c a p held L l → mem false c (free_group_begin a) p held L l.
Proof.
  intros [B1 B2 B3 B4 B5 B6 [T1 T2 T3] B8 B9 B10 B11]. split; try done. split; try done. simpl in *.
  unfold pending_slots in *. rewrite B5 in T2. done.
Qed.

Lemma batch_mem_close c a p held L l :
  mem false c a p held L l → mem true c (TokenToKVPoolAllocator_free_group_end a) p held L l.
Proof.
  intros [B1 B2 B3 B4 B5 B6 B7 B8 B9 B10 B11].
  pose proof (token_step_inv size _ _ (token_step_group_end a _ B5) B7) as B7'.
  assert (Hg : is_not_in_free_group (TokenToKVPoolAllocator_free_group_end a) = true
               ∧ al_page_size (TokenToKVPoolAllocator_free_group_end a) = al_page_size a).
  { unfold TokenToKVPoolAllocator_free_group_end, free_group_end. simpl. destruct (free_group a); [done|].
    unfold TokenToKVPoolAllocator_free. simpl. case_bool_decide; [done|]. by destruct (al_need_sort a). }
  destruct Hg as [G1 G2]. split; try done. congruence.
Qed.

End mem.

(** ** One request *)

Section step.
Context {G : Type} (accept_token : G → Z → option G) (is_terminated : G → bool) (re_search : text → text → bool).

(** [r'] is [r] with the token [t]. *)
Record processed (t : Z) (r r' : DReq) : Prop := {
  pr_shape : ∃ f tf q, r' = set_dr_finish f tf q r;
  pr_output : ∃ t', rq_output_ids (dr_req r') = rq_output_ids (dr_req r) ++ [t'] ∧ (dr_finished r' = false → t' = t);
  pr_origin : rq_origin_input_ids (dr_req r') = rq_origin_input_ids (dr_req r);
  pr_live : dr_finished r' = false →
    (rq_req_pool_idx (dr_req r') = rq_req_pool_idx (dr_req r) ∧ rq_kv_committed_len (dr_req r') = rq_kv_committed_len (dr_req r))
    ∧ dr_output_len r' < dr_max_new_tokens r
}.

(** The rest of a request object: the finish checks can run, and agree about whether it is finished. *)
Definition gen_ok (gen : gmap nat (GenState G)) (r : DReq) : Prop :=
  ∃ x, gen !! dr_id r = Some x ∧ can_decode_text (gs_fin x) ∧ finished (gs_fin x) = dr_finished r.

Lemma maybe_update_shape think token r (x : GenState G) :
  ∃ n b, maybe_update_reasoning_tokens think token r x
    = (set_dr_req (set_rq_reasoning_tokens n (dr_req r)) r, if b : bool then gs_with_reasoning_over x else x).
Proof.
  assert (Hid : r = set_dr_req (set_rq_reasoning_tokens (rq_reasoning_tokens (dr_req r)) (dr_req r)) r)
    by (destruct r as [????????????? ?????[]]; done).
  unfold maybe_update_reasoning_tokens, update_reasoning_tokens. destruct think as [e|].
  - destruct (gs_require_reasoning x).
    + destruct (gs_is_reasoning_over x) eqn:Eo.
      * eexists _, true. rewrite <- Hid. by destruct r.
      * destruct (list_find _ _) as [[k ?]|]; [by eexists _, true|by eexists _, false].
    + eexists _, false. by rewrite <- Hid.
  - eexists _, false. by rewrite <- Hid.
Qed.

(** What a check changes of the rest of the object: the finish fields only. *)
Record advanced (r r' : DReq) (x x' : GenState G) : Prop := {
  av_out : fr_output_ids (gs_fin x') = rq_output_ids (dr_req r');
  av_len : fr_finished_len (gs_fin x') = fr_finished_len (gs_fin x) ∨ fr_finished_len (gs_fin x') = Some (dr_output_len r')
    ∨ fr_finished_len (gs_fin x') = Some (dr_max_new_tokens r) ∧ dr_max_new_tokens r ≤ dr_output_len r'
      ∧ ∃ n, fr_finished_reason (gs_fin x') = Some (FINISH_LENGTH n);
  av_quiet : dr_finished r' = false → fr_finished_len (gs_fin x') = fr_finished_len (gs_fin x);
  av_same : gs_fin x' = set_finish (fin_view is_terminated r' x) (fr_output_ids (gs_fin x')) (fr_finished_reason (gs_fin x'))
                          (fr_finished_len (gs_fin x')) (fr_to_finish (gs_fin x'));
  av_sent : gs_send_token_offset x' = gs_send_token_offset x ∧ gs_send_decode_id_offset x' = gs_send_decode_id_offset x
            ∧ gs_finished_output x' = gs_finished_output x ∧ gs_stream_interval x' = gs_stream_interval x
}.

Lemma append_token_ok think t r (x : GenState G) :
  can_decode_text (gs_fin x) → finished (gs_fin x) = false →
  ∃ r' x', append_token is_terminated re_search think t r x = Ok (r', x') ∧ processed t r r'
    ∧ extends_req (dr_req r) (dr_req r') ∧ (can_decode_text (gs_fin x') ∧ finished (gs_fin x') = dr_finished r')
    ∧ advanced r r' x x'.
Proof.
  intros Hd Hf. unfold append_token.
  destruct (maybe_update_shape think [t] (set_dr_req (set_rq_output_ids (rq_output_ids (dr_req r) ++ [t]) (dr_req r)) r) x)
    as (n & b & ->). unfold check_request.
  set (x1 := if b then gs_with_reasoning_over x else x). set (r1 := set_dr_req _ _).
  assert (Hx1 : gs_fin x1 = gs_fin x) by (unfold x1; by destruct b).
  assert (Hnone : fr_finished_reason (fin_view is_terminated r1 x1) = None).
  { cbn. rewrite Hx1. unfold finished in Hf. apply bool_decide_eq_false in Hf. by apply eq_None_not_Some. }
  destruct (check_one re_search (fin_view is_terminated r1 x1) (rq_output_ids (dr_req r)) t) as (t' & reason & len & tf & Hc & Hno & Hlen).
  { done. } { done. } { unfold can_decode_text. cbn. by rewrite Hx1. }
  rewrite Hc. cbn [mbind res_bind]. eexists _, _. split; [done|].
  assert (He : extends_req (dr_req r) (set_rq_output_ids (rq_output_ids (dr_req r) ++ [t']) (dr_req r1))).
  { split; try done. by eexists. }
  assert (Hfr : ∀ o len tf, finished (set_finish (fin_view is_terminated r1 x1) o reason len tf) = bool_decide (is_Some reason)) by done.
  split; [|split; [exact He|split; [split; [unfold can_decode_text; cbn; by rewrite Hx1|done]|]]].
  2:{ split; cbn; [done| | | |by unfold x1; destruct b].
      - cbn in Hlen. rewrite Hx1 in Hlen. unfold dr_output_len. cbn. by rewrite zlen_app.
      - rewrite Hfr. intros E%bool_decide_eq_false%eq_None_not_Some. destruct (Hno E) as (_ & _ & _ & _ & ->). cbn. by rewrite Hx1.
      - unfold set_finish, fin_view, x1. cbn. by destruct b. }
  split; cbn [dr_req dr_finished set_dr_finish].
  - eexists _, _, _. done.
  - exists t'. split; [done|]. rewrite Hfr. intros E%bool_decide_eq_false%eq_None_not_Some. by apply Hno.
  - done.
  - rewrite Hfr. intros E%bool_decide_eq_false%eq_None_not_Some. split; [done|].
    destruct (Hno E) as (-> & _ & _ & Hlt & _). exact Hlt.
Qed.

End step.

(** ** Marks *)

(** [r'] is [r], perhaps marked to be aborted. *)
Definition marked (r r' : DReq) : Prop := ∃ b, r' = set_dr_to_finish b r.

#[export] Instance marked_preorder : PreOrder marked.
Proof.
  split; [intros r; exists (dr_to_finish r); by destruct r|]. intros r1 r2 r3 [b ->] [b' ->]. by exists b'.
Qed.

Lemma abort_marked m r : marked r (abort_mark m r).
Proof. unfold abort_mark. destruct (_ && _); [by exists true|done]. Qed.

Lemma abort_all_marked m l : Forall2 marked l (map (abort_mark m) l).
Proof. induction l; constructor; [apply abort_marked|done]. Qed.

Definition live_of (l : list DReq) : list DReq := List.filter unfinished l.

Lemma marked_live l l' : Forall2 marked l l' →
  map dr_req (live_of l') = map dr_req (live_of l) ∧ map ident l' = map ident l.
Proof.
  induction 1 as [|r r' l l' [b ->] _ [IH1 IH2]]; [done|]. cbn [map]. split; [|by rewrite IH2].
  unfold live_of in *. cbn [List.filter]. change (unfinished (set_dr_to_finish b r)) with (unfinished r).
  destruct (unfinished r); cbn [map dr_req set_dr_to_finish]; by rewrite IH1.
Qed.

Lemma live_cons r l : live_of (r :: l) = if dr_finished r then live_of l else r :: live_of l.
Proof. unfold live_of, unfinished. cbn [List.filter]. by destruct (dr_finished r). Qed.

Lemma live_app l k : live_of (l ++ k) = live_of l ++ live_of k.
Proof. apply List.filter_app. Qed.

Lemma processed_marked t r r1 r2 : processed t r r1 → marked r1 r2 → processed t r r2.
Proof.
  intros [(f & tf & q & ->) P2 P3 P4] [b ->]. split; try done. by exists f, b, q.
Qed.

Lemma marked_processed t r r1 r2 : marked r r1 → processed t r1 r2 → processed t r r2.
Proof.
  intros [b ->] [(f & tf & q & ->) P2 P3 P4]. split; try done. by exists f, tf, q.
Qed.

Lemma processed_ident t r r' : processed t r r' → ident r' = ident r.
Proof. by intros [(f & tf & q & ->) _ _ _]. Qed.

(** ** The loop over a batch *)

Section loop.
Context {G : Type} (accept_token : G → Z → option G) (is_terminated : G → bool) (re_search : text → text → bool).
Context {monotonic : nat → Z} {dfi : bool} {policy : string}.
Context (sa : ServerArgs) (Hspec : sa_speculative_algorithm sa = None) (Hstrip : sa_strip_thinking_cache sa = false).
Context (size width : Z) (ol : list nat) (os orows : list Z).

Definition group_mem (closed : bool) (m : Mem) (reqs : list DReq) : Prop :=
  ∃ c a p held L, m = mkMem (Radix c) (TokenPool a) p
    ∧ batch_mem (monotonic:=monotonic) (dfi:=dfi) (policy:=policy) closed size width ol os orows c a p held L (map dr_req reqs).

Lemma group_mem_perm closed m l k : map dr_req l ≡ₚ map dr_req k → group_mem closed m l → group_mem closed m k.
Proof.
  intros Hp (c & a & p & held & L & -> & Hm). exists c, a, p, held, L. split; [done|]. by eapply batch_mem_perm.
Qed.

(** A finished request hands over its memory, an unfinished one keeps it. *)
Lemma handle_finished_ok closed m r r1 l :
  group_mem closed m (r :: l) → extends_req (dr_req r) (dr_req r1) →
  ∃ r2 m2 q, handle_finished_req monotonic sa r1 m = Ok (r2, m2) ∧ r2 = set_dr_req q r1
    ∧ rq_output_ids q = rq_output_ids (dr_req r1) ∧ rq_origin_input_ids q = rq_origin_input_ids (dr_req r1)
    ∧ (dr_finished r1 = false → q = dr_req r1)
    ∧ group_mem closed m2 (if dr_finished r1 then l else r2 :: l).
Proof.
  intros (c & a & p & held & L & -> & Hm) He. cbn [map] in Hm. apply (batch_mem_extend size width ol os orows _ _ _ _ _ _ _ _ _ He) in Hm.
  unfold handle_finished_req. destruct (dr_finished r1) eqn:Ef.
  - assert (Hidx : ∃ i, rq_req_pool_idx (dr_req r1) = Some i).
    { pose proof (bm_reqs _ _ _ _ _ _ _ _ _ _ _ _ Hm) as Hh. inversion Hh as [|? ? Hq _]; subst.
      pose proof (ho_row _ _ _ Hq) as Hrow. destruct (rq_req_pool_idx (dr_req r1)) as [i|]; [by exists i|done]. }
    destruct Hidx as [i Hi].
    destruct (batch_mem_finish sa Hspec Hstrip size width ol os orows closed c a p held L _ i _ Hm Hi)
      as (c' & a' & held' & L' & Hgo & Hm').
    unfold release_finished. cbn [me_tree me_kv me_pool]. rewrite Hgo. cbn [mbind res_bind].
    eexists _, _, _. split; [done|]. split; [done|]. split_and!; try done. by eexists _, _, _, _, _.
  - eexists r1, _, (dr_req r1). split; [done|]. split_and!; try done; [by destruct r1|].
    by eexists _, _, _, _, _.
Qed.

Lemma gen_ok_marked gen l l' : Forall2 marked l l' → Forall (gen_ok (G:=G) gen) l → Forall (gen_ok gen) l'.
Proof.
  induction 1 as [|r r' l l' [b ->] _ IH]; intros Hg; [constructor|].
  inversion Hg as [|? ? Hr Hl]; subst. constructor; [exact Hr|auto].
Qed.

Lemma gen_ok_insert gen x l r :
  Forall (gen_ok (G:=G) gen) l → dr_id r ∉ map dr_id l → Forall (gen_ok (<[dr_id r := x]> gen)) l.
Proof.
  intros Hg Hn. apply Forall_forall. intros r' Hr'. destruct (proj1 (Forall_forall _ _) Hg r' Hr') as (x' & Hx & Hr).
  exists x'. split; [|done]. rewrite lookup_insert_ne; [done|]. intros E. apply Hn. rewrite E.
  apply list_elem_of_In, in_map, list_elem_of_In. done.
Qed.

(** What an abort message changes. *)
Record abort_effect (s s' : ResultState G) : Prop := {
  ae_reqs : Forall2 marked (rs_reqs s) (rs_reqs s');
  ae_running : Forall2 marked (rs_running s) (rs_running s');
  ae_gen r : gen_ok (rs_gen s) r → gen_ok (rs_gen s') r;
  ae_mem : rs_mem s' = rs_mem s;
  ae_queue : ∃ sent, rs_sent_aborts s' = rs_sent_aborts s ++ sent ∧ rs_queue s' ++ sent ≡ₚ rs_queue s
}.

Lemma filter_both {A} (f : A → bool) l : List.filter (λ x, negb (f x)) l ++ List.filter f l ≡ₚ l.
Proof.
  induction l as [|x l IH]; [done|]. cbn [List.filter]. destruct (f x); cbn [negb app]; [|by rewrite IH].
  rewrite <- IH at 3. solve_Permutation.
Qed.

Lemma marked_refl l : Forall2 marked l l.
Proof. induction l; constructor; done. Qed.

Lemma gen_ok_same_fin gen n x x' r :
  gen !! n = Some x → gs_fin x' = gs_fin x → gen_ok (G:=G) gen r → gen_ok (<[n := x']> gen) r.
Proof.
  intros Hx Hf (y & Hy & H1 & H2). destruct (decide (n = dr_id r)) as [->|Hne].
  - rewrite Hx in Hy. inversion Hy; subst y. exists x'. rewrite lookup_insert_eq, Hf. done.
  - exists y. by rewrite lookup_insert_ne.
Qed.

Lemma accept_grammar_ok i token s r :
  rs_reqs s !! i = Some r → gen_ok (rs_gen s) r →
  ∃ s', accept_grammar accept_token i token s = Ok s' ∧ abort_effect s s'.
Proof.
  intros Hi (x & Hx & Hg). unfold accept_grammar, item, gen_of. rewrite Hi. cbn [mbind res_bind]. rewrite Hx.
  cbn [mbind res_bind]. destruct (gs_grammar x) as [g|] eqn:Eg.
  - destruct (accept_token g token) as [g'|].
    + eexists. split; [done|]. split; cbn; [apply marked_refl..|intros r'; by eapply gen_ok_same_fin|done|].
      exists []. by rewrite !app_nil_r.
    + eexists. split; [done|]. split; cbn; [apply abort_all_marked..|intros r'; by eapply gen_ok_same_fin|done|].
      eexists. split; [done|]. rewrite <- (Permutation_rev (List.filter _ _)). apply filter_both.
  - exists s. split; [done|]. split; [apply marked_refl..|done|done|]. exists []. by rewrite !app_nil_r.
Qed.

(** One request of the batch: the ones before it, [ds], and after it, [ts], are at most marked. *)
Record stepped (R : Z → DReq → DReq → Prop) (s s' : ResultState G) (t : Z) (ds : list DReq) (r : DReq) (ts : list DReq) : Prop := {
  st_reqs : ∃ ds' r' ts', rs_reqs s' = ds' ++ r' :: ts' ∧ Forall2 marked ds ds' ∧ R t r r' ∧ Forall2 marked ts ts';
  st_running : Forall2 marked (rs_running s) (rs_running s');
  st_gen : Forall (gen_ok (rs_gen s')) (rs_reqs s');
  st_others r' : dr_id r' ∉ map dr_id (rs_reqs s) → gen_ok (rs_gen s) r' → gen_ok (rs_gen s') r';
  st_queue : ∃ sent, rs_sent_aborts s' = rs_sent_aborts s ++ sent ∧ rs_queue s' ++ sent ≡ₚ rs_queue s
}.

Lemma set_and_accept s ds r ts r' x' m t token :
  rs_reqs s = ds ++ r :: ts → NoDup (map dr_id (rs_reqs s)) → Forall (gen_ok (rs_gen s)) (rs_reqs s) →
  processed t r r' → can_decode_text (gs_fin x') → finished (gs_fin x') = dr_finished r' →
  ∃ s', accept_grammar accept_token (length ds) token (rs_set (length ds) r' x' m s) = Ok s'
    ∧ stepped processed s s' t ds r ts ∧ rs_mem s' = m
    ∧ map dr_req (live_of (rs_reqs s')) = map dr_req (live_of (ds ++ r' :: ts)).
Proof.
  intros Hreqs Hnd Hgen Hp Hd Hf. set (s1 := rs_set (length ds) r' x' m s).
  assert (Hid : dr_id r' = dr_id r) by (pose proof (processed_ident _ _ _ Hp) as E; by inversion E).
  assert (Hr1 : rs_reqs s1 = ds ++ r' :: ts).
  { unfold s1. cbn. rewrite Hreqs, insert_app_r_alt, Nat.sub_diag by lia. done. }
  rewrite Hreqs, map_app in Hnd. cbn [map] in Hnd. apply NoDup_app in Hnd as (Hn1 & Hn2 & [Hn3 Hn4]%NoDup_cons).
  assert (Hgr : gen_ok (rs_gen s1) r') by (exists x'; unfold s1; cbn; rewrite lookup_insert_eq; done).
  rewrite Hreqs in Hgen. apply Forall_app in Hgen as [Hg1 Hg2]. inversion Hg2 as [|? ? _ Hg3]; subst.
  assert (Hg' : Forall (gen_ok (rs_gen s1)) (rs_reqs s1)).
  { rewrite Hr1. unfold s1. cbn. apply Forall_app. split; [|constructor; [exact Hgr|]];
      apply gen_ok_insert; try done; rewrite Hid; [|done].
    intros Hin. apply (Hn2 _ Hin). by left. }
  destruct (accept_grammar_ok (length ds) token s1 r') as (s' & Hgo & [A1 A2 A3 A4 A5]).
  { rewrite Hr1. by rewrite list_lookup_middle. } { done. }
  exists s'. split; [done|]. rewrite Hr1 in A1. split; [|split; [done|by apply marked_live]].
  pose proof A1 as (ds' & k & Hds & Hk & Hs')%Forall2_app_inv_l.
  inversion Hk as [|? r2 ? ts' Hr2 Hts]; subst. split.
  - exists ds', r2, ts'. split; [done|]. split; [done|]. split; [|done]. by eapply processed_marked.
  - exact A2.
  - apply (gen_ok_marked _ _ _ A1). apply Forall_forall. intros r0 Hr0. apply A3.
    rewrite <- Hr1 in Hr0. by apply (proj1 (Forall_forall _ _) Hg').
  - intros r0 Hr0 Hg0. apply A3. destruct Hg0 as (y & Hy & Hrest). exists y. split; [|done]. unfold s1. cbn.
    rewrite lookup_insert_ne; [done|]. intros E. apply Hr0. rewrite Hreqs, <- E, Hid, map_app. cbn [map]. set_solver.
  - exact A5.
Qed.

Lemma decode_result_ok think tokens s ds r ts t :
  rs_reqs s = ds ++ r :: ts → NoDup (map dr_id (rs_reqs s)) → Forall (gen_ok (rs_gen s)) (rs_reqs s) →
  dr_finished r = false → tokens !! length ds = Some t → group_mem false (rs_mem s) (live_of (rs_reqs s)) →
  ∃ s', decode_result accept_token is_terminated re_search monotonic sa false think tokens s (length ds) = Ok s'
    ∧ stepped processed s s' t ds r ts ∧ group_mem false (rs_mem s') (live_of (rs_reqs s')).
Proof.
  intros Hreqs Hnd Hgen Hf Ht Hm. unfold decode_result, item, gen_of. rewrite Hreqs, list_lookup_middle by done.
  cbn [mbind res_bind andb]. assert (Hgr : gen_ok (rs_gen s) r).
  { apply (proj1 (Forall_forall _ _) Hgen). rewrite Hreqs. set_solver. }
  destruct Hgr as (x & Hx & Hd & Hfx). rewrite Hx. cbn [mbind res_bind]. rewrite Ht. cbn [mbind res_bind].
  destruct (append_token_ok is_terminated re_search think t r x Hd ltac:(congruence)) as (r1 & x1 & -> & Hp & He & (Hd1 & Hf1) & _).
  cbn [mbind res_bind].
  assert (Hm1 : group_mem false (rs_mem s) (r :: live_of (ds ++ ts))).
  { eapply group_mem_perm; [|exact Hm]. rewrite Hreqs, !live_app, live_cons, Hf. cbn [map].
    rewrite !map_app. cbn [map]. by rewrite Permutation_middle. }
  destruct (handle_finished_ok false (rs_mem s) r r1 _ Hm1 He) as (r2 & m2 & q & -> & Hr2 & Ho & Hor & Hq & Hm2).
  cbn [mbind res_bind].
  assert (Hp2 : processed t r r2).
  { destruct Hp as [(f & tf & q0 & ->) P2 P3 P4]. subst r2. split; cbn in *; [by eexists _, _, _|by rewrite Ho|by rewrite Hor|].
    intros E. unfold dr_output_len in *. cbn in *. rewrite (Hq E). by apply P4. }
  assert (Hf2 : dr_finished r2 = dr_finished r1) by (by subst r2).
  destruct (set_and_accept s ds r ts r2 x1 m2 t t Hreqs Hnd Hgen Hp2 Hd1 ltac:(congruence)) as (s' & Hgo & Hst & Hms & Hlive).
  exists s'. split; [exact Hgo|]. split; [done|]. rewrite Hms. eapply group_mem_perm; [|exact Hm2]. rewrite Hlive, !live_app, live_cons, Hf2.
  destruct (dr_finished r1); cbn [map]; rewrite !map_app; [done|]. cbn [map]. by rewrite Permutation_middle.
Qed.

(** *** Any loop whose steps are such *)

(** After the loop: every request was treated, in the order of the batch. *)
Record looped (R : Z → DReq → DReq → Prop) (tokens : list Z) (reqs : list DReq) (s s' : ResultState G) : Prop := {
  lp_reqs : Forall3 R tokens reqs (rs_reqs s');
  lp_running : Forall2 marked (rs_running s) (rs_running s');
  lp_gen : Forall (gen_ok (rs_gen s')) (rs_reqs s');
  lp_others r' : dr_id r' ∉ map dr_id reqs → gen_ok (rs_gen s) r' → gen_ok (rs_gen s') r';
  lp_queue : ∃ sent, rs_sent_aborts s' = rs_sent_aborts s ++ sent ∧ rs_queue s' ++ sent ≡ₚ rs_queue s
}.

(** What a step does to a request does not depend on marks. *)
Class Marking (R : Z → DReq → DReq → Prop) := {
  mk_before t r r1 r2 : marked r r1 → R t r1 r2 → R t r r2;
  mk_after t r r1 r2 : R t r r1 → marked r1 r2 → R t r r2;
  mk_id t r r' : R t r r' → dr_id r' = dr_id r
}.

#[export] Instance processed_marking : Marking processed.
Proof.
  split; [apply marked_processed|apply processed_marked|].
  intros t r r' Hp. pose proof (processed_ident _ _ _ Hp) as E. by inversion E.
Qed.

Lemma marking_ids `{Marking R} tokens l l' : Forall3 R tokens l l' → map dr_id l' = map dr_id l.
Proof.
  induction 1 as [|t r r' tokens l l' Hp _ IH]; [done|]. cbn [map]. rewrite IH. by rewrite (mk_id _ _ _ Hp).
Qed.

Lemma marked_ids l l' : Forall2 marked l l' → map dr_id l' = map dr_id l.
Proof. induction 1 as [|r r' l l' [b ->] _ IH]; [done|]. cbn [map]. by rewrite IH. Qed.

Lemma marking_after `{Marking R} tokens l l' l2 :
  Forall3 R tokens l l' → Forall2 marked l' l2 → Forall3 R tokens l l2.
Proof.
  intros HR. revert l2. induction HR as [|t r r' tokens l l' Hp _ IH]; intros l2 Hm; inversion Hm; subst; constructor.
  - by eapply mk_after.
  - by apply IH.
Qed.

Section steps.
Context {B : Type} (proj : B → ResultState G) (f : B → nat → res B) (R : Z → DReq → DReq → Prop) {HR : Marking R}.
Context (Pre : DReq → Prop) (M : ResultState G → Prop).
Context (HPre : ∀ r r', marked r r' → Pre r → Pre r').

Definition steps_ok (tokens : list Z) : Prop := ∀ x ds r ts t,
  rs_reqs (proj x) = ds ++ r :: ts → NoDup (map dr_id (rs_reqs (proj x))) → Forall (gen_ok (rs_gen (proj x))) (rs_reqs (proj x)) →
  Pre r → tokens !! length ds = Some t → M (proj x) →
  ∃ x', f x (length ds) = Ok x' ∧ stepped R (proj x) (proj x') t ds r ts ∧ M (proj x').

Lemma result_loop_ok tokens ts0 : steps_ok tokens → ∀ ds0 tds tts x ds ts,
  tokens = tds ++ tts → length tts = length ts0 → rs_reqs (proj x) = ds ++ ts → Forall3 R tds ds0 ds → Forall2 marked ts0 ts →
  Forall Pre ts0 → NoDup (map dr_id (ds0 ++ ts0)) → Forall (gen_ok (rs_gen (proj x))) (rs_reqs (proj x)) → M (proj x) →
  ∃ x', res_fold f x (seq (length ds) (length ts)) = Ok x' ∧ looped R tokens (ds0 ++ ts0) (proj x) (proj x') ∧ M (proj x').
Proof.
  intros Hstep. induction ts0 as [|r0 ts0 IH]; intros ds0 tds tts x ds ts Htok Hlen Hreqs Hds Hts Hun Hnd Hgen Hm.
  - inversion Hts; subst. destruct tts; [|done]. rewrite !app_nil_r in *. exists x. split; [done|]. split; [|done].
    split; try done; [by rewrite Hreqs|]. exists []. by rewrite !app_nil_r.
  - inversion Hts as [|? r ? ts' Hr Hts']; subst. inversion Hun as [|? ? Hr0 Hun']; subst. destruct tts as [|t tts]; [done|].
    assert (Hids : map dr_id (rs_reqs (proj x)) = map dr_id (ds0 ++ r0 :: ts0)).
    { rewrite Hreqs, !map_app, (marking_ids _ _ _ Hds). f_equal. by apply marked_ids. }
    assert (Hl : length tds = length ds) by (by eapply Forall3_length_lr).
    destruct (Hstep x ds r ts' t Hreqs) as (x1 & Hgo & [S1 S2 S3 S4 S5] & Hm1); try done.
    + by rewrite Hids.
    + by eapply HPre.
    + rewrite <- Hl. by rewrite list_lookup_middle.
    + destruct S1 as (ds1 & r1 & ts1 & E1 & Hds1 & Hr1 & Hts1).
      destruct (IH (ds0 ++ [r0]) (tds ++ [t]) tts x1 (ds1 ++ [r1]) ts1) as (x' & Hgo' & [L1 L2 L3 L4 L5] & Hm'); rewrite <- ?app_assoc; try done.
      * simpl in Hlen. lia.
      * apply Forall3_app; [by eapply marking_after|]. constructor; [by eapply mk_before|constructor].
      * by etrans.
      * exists x'. cbn [length seq res_fold]. rewrite Hgo. cbn [mbind res_bind].
        rewrite length_app, Nat.add_1_r, <- (Forall2_length _ _ _ Hds1), <- (Forall2_length _ _ _ Hts1) in Hgo'.
        split; [exact Hgo'|]. split; [|done].
        rewrite <- !app_assoc in L1, L4. cbn [app] in L1, L4. split; try done.
        -- by etrans.
        -- intros r' Hn Hg. apply L4; [done|]. apply S4; [by rewrite Hids|done].
        -- destruct L5 as (q2 & -> & Q2), S5 as (q1 & -> & Q1). exists (q1 ++ q2). split; [by rewrite app_assoc|].
           rewrite (Permutation_app_comm q1), app_assoc, Q2. done.
Qed.

End steps.

Lemma decode_loop_ok think tokens reqs s :
  length tokens = length reqs → rs_reqs s = reqs → Forall (λ r, dr_finished r = false) reqs → NoDup (map dr_id reqs) →
  Forall (gen_ok (rs_gen s)) reqs → group_mem false (rs_mem s) (live_of reqs) →
  ∃ s', res_fold (decode_result accept_token is_terminated re_search monotonic sa false think tokens) s (seq 0 (length reqs)) = Ok s'
    ∧ looped processed tokens reqs s s' ∧ group_mem false (rs_mem s') (live_of (rs_reqs s')).
Proof.
  intros Hlen <- Hun Hnd Hgen Hm.
  refine (result_loop_ok id _ processed (λ r, dr_finished r = false) (λ s, group_mem false (rs_mem s) (live_of (rs_reqs s)))
    _ tokens (rs_reqs s) _ [] [] tokens s [] (rs_reqs s) eq_refl Hlen eq_refl _ (marked_refl _) Hun Hnd Hgen Hm).
  - by intros r r' [b ->].
  - intros x ds r ts t. by apply decode_result_ok.
  - constructor.
Qed.

End loop.
