(* ===== verification/StreamProps.v ===== *)
(** * Streaming and the decode handler: theorems

    What [stream_output_generation] sends of a request over its life is its output up to the stop,
    each token once, with one final message; [process_batch_result_decode] never raises and keeps the
    memory accounted for. *)

From S2P Require Import Prelude AllocKernels Allocator RadixKey RadixTree RadixInv RadixMatch RadixProps ReqPool ReqCache.
From S2P Require Import CacheAlloc DecodeBatch DecodeMem HandOverMem RetractProps DecodeProps QueueProps.
From S2P Require Import Sampling Finish FinishProps ResultProc ResultProps.

Section stream.
Context {G : Type} (accept_token : G → Z → option G) (is_terminated : G → bool) (re_search : text → text → bool).
Context (stream_interval force_interval : Z).

(** The intervals by which a request is streamed are not zero. *)
Definition intervals_ok (r : DReq) (x : GenState G) : Prop :=
  force_interval ≠ 0 ∧ (stream_interval ≠ 0 ∨ ∃ k, gs_stream_interval x = Some k ∧ k ≠ 0).

Lemma stream_due_ok r x :
  intervals_ok r x → can_decode_text (gs_fin x) → ∃ b, stream_due is_terminated stream_interval force_interval r x = Ok b.
Proof.
  intros [Hf Hi] Hd. unfold stream_due, py_mod. destruct (dr_stream r).
  - set (k := match gs_stream_interval x with Some k => if bool_decide (k = 0) then stream_interval else k | None => _ end).
    assert (Hk : k ≠ 0).
    { unfold k. destruct (gs_stream_interval x) as [j|]; [case_bool_decide|];
        destruct Hi as [Hi|(j' & E & Hj)]; simplify_eq; done. }
    rewrite (bool_decide_false (k = 0)) by done. cbn [mbind res_bind].
    destruct (if bool_decide (1 < k) then _ else _); [|by eexists].
    unfold check_match_stop_str_prefix, tail_str. cbn [fr_stop_strs fr_stop_regex_strs fr_tokenizer fin_view].
    case_bool_decide as E1; [by eexists|]. cbn [andb].
    destruct Hd as [[Hd _]|[tk ->]]; [by rewrite Hd in E1|]. cbn [mbind res_bind]. case_bool_decide; by eexists.
  - rewrite bool_decide_false by done. cbn [mbind res_bind]. by eexists.
Qed.

(** What a message is computed from: the output up to the stop. *)
Definition visible (r : DReq) (x : GenState G) : list Z :=
  match fr_finished_len (gs_fin x) with
  | Some n => (rq_output_ids (dr_req r))⟨:n⟩
  | None => rq_output_ids (dr_req r)
  end.

(** The rest of an object after [sent] was sent: the next message starts there. *)
Record sent_upto (x : GenState G) (sent : list Z) : Prop := {
  su_tokens : gs_send_token_offset x = zlen sent;
  su_detok : detok_ready (gs_fin x) sent;
  su_ids : gs_send_decode_id_offset x = if bool_decide (fr_surr_offset (gs_fin x) = None) then 0
             else zlen ((fr_input_ids (gs_fin x))⟨surr_of (gs_fin x):⟩ ++ sent)
}.

Lemma stream_message_fin r (x : GenState G) :
  let f := (init_incremental_detokenize (fin_view is_terminated r x)).2 in
  fr_finished_len f = fr_finished_len (gs_fin x) ∧ fr_output_ids f = rq_output_ids (dr_req r)
  ∧ fr_finished_reason f = fr_finished_reason (gs_fin x) ∧ (can_decode_text (gs_fin x) → can_decode_text f)
  ∧ fr_decoded_text f = fr_decoded_text (gs_fin x).
Proof. unfold init_incremental_detokenize. cbn. by destruct (fr_surr_offset (gs_fin x)), (fr_read_offset (gs_fin x)). Qed.

Lemma stream_message_ok r x sent rest :
  sent_upto x sent → visible r x = sent ++ rest →
  let '(msg, x') := stream_message is_terminated r x in
  sm_rid msg = dr_rid r ∧ sm_finished_reason msg = fr_finished_reason (gs_fin x) ∧ sm_output_ids msg = rest
  ∧ sm_decode_ids msg = (if bool_decide (fr_surr_offset (gs_fin x) = None)
                         then (fr_input_ids (gs_fin x))⟨surr_of (gs_fin x):⟩ else []) ++ rest
  ∧ sent_upto x' (sent ++ rest) ∧ fr_surr_offset (gs_fin x') ≠ None ∧ fr_input_ids (gs_fin x') = fr_input_ids (gs_fin x)
  ∧ fr_finished_reason (gs_fin x') = fr_finished_reason (gs_fin x) ∧ (can_decode_text (gs_fin x) → can_decode_text (gs_fin x'))
  ∧ fr_finished_len (gs_fin x') = fr_finished_len (gs_fin x)
  ∧ gs_finished_output x' = gs_finished_output x ∧ gs_stream_interval x' = gs_stream_interval x
  ∧ sm_read_offset msg = zlen (fr_input_ids (gs_fin x)) - surr_of (gs_fin x) ∧ sm_decoded_text msg = fr_decoded_text (gs_fin x)
  ∧ fr_decoded_text (gs_fin x') = fr_decoded_text (gs_fin x).
Proof.
  intros [S1 S2 S3] Hv. unfold stream_message.
  assert (Hv' : output_ids_through_stop (fin_view is_terminated r x) = sent ++ rest) by exact Hv.
  assert (Hready : detok_ready (fin_view is_terminated r x) sent).
  { destruct S2 as [[? ?]|[]]; [by left|by right]. }
  pose proof (detok_step (fin_view is_terminated r x) sent Hready) as Hd. rewrite Hv' in Hd.
  pose proof (stream_message_fin r x) as Hff.
  destruct (init_incremental_detokenize (fin_view is_terminated r x)) as [[ids offset] f] eqn:E.
  destruct Hd as (D1 & D2 & D3 & D4); [by eexists|]. destruct Hff as (F1 & F2 & F3 & F4 & F5). cbn [snd] in *.
  assert (Hout : output_ids_through_stop f = sent ++ rest)
    by (unfold output_ids_through_stop; rewrite F1, F2; exact Hv).
  rewrite Hout. cbn [sm_rid sm_finished_reason sm_output_ids sm_decode_ids gs_sent gs_fin gs_send_token_offset
    gs_send_decode_id_offset gs_finished_output gs_stream_interval fr_input_ids].
  change (fr_input_ids (fin_view is_terminated r x)) with (fr_input_ids (gs_fin x)) in *.
  change (surr_of (fin_view is_terminated r x)) with (surr_of (gs_fin x)) in *.
  assert (Hs : surr_of f = surr_of (gs_fin x)) by (unfold surr_of; by rewrite D4).
  split_and!; try done.
  - rewrite S1, slice_from_drop by apply zlen_nonneg. unfold zlen. by rewrite Nat2Z.id, drop_app_length.
  - rewrite D1, S3. case_bool_decide as E0.
    + rewrite slice_from_drop by done. simpl. destruct S2 as [[_ ->]|[D _ _ _]]; [done|congruence].
    + rewrite slice_from_drop by apply zlen_nonneg. rewrite app_assoc. unfold zlen. by rewrite Nat2Z.id, drop_app_length.
  - split; cbn.
    + done.
    + by right.
    + rewrite bool_decide_false by (by rewrite (dt_surr _ _ D3)). rewrite D1, D4, Hs. done.
  - by rewrite (dt_surr _ _ D3).
Qed.

(** ** The life of a request

    Each step has the sampled token; before it the request may have been marked to be aborted, and its
    grammar may have moved on.  A finished request that still is in a batch gets no token. *)

Fixpoint life (think : option Z) (r : DReq) (x : GenState G) (steps : list (Z * bool * option G))
    : res (list StreamMsg * DReq * GenState G) :=
  match steps with
  | [] => Ok ([], r, x)
  | (t, mark, g) :: rest =>
      let r := if mark then set_dr_to_finish true r else r in
      let x := gs_with_grammar g (gs_grammar_finished x) x in
      '(r, x) ← (if dr_finished r then Ok (r, x) else append_token is_terminated re_search think t r x);
      '(msg, x) ← stream_request is_terminated stream_interval force_interval r x;
      '(msgs, r, x) ← life think r x rest;
      Ok (option_list msg ++ msgs, r, x)
  end.

(** Between two steps. *)
Record alive (r : DReq) (x : GenState G) (sent : list Z) : Prop := {
  al_sent : sent_upto x sent;
  al_flag : finished (gs_fin x) = dr_finished r;
  al_text : can_decode_text (gs_fin x);
  al_intervals : intervals_ok r x;
  al_unfinished : dr_finished r = false → gs_finished_output x = false ∧ fr_finished_len (gs_fin x) = None
    ∧ sent `prefix_of` rq_output_ids (dr_req r)
    ∧ (dr_output_len r < dr_max_new_tokens r ∨ rq_output_ids (dr_req r) = []);
  al_finished : dr_finished r = true → gs_finished_output x = true ∧ visible r x = sent
}.

(** The reasons in a sequence of messages: the last one has one if the request is finished. *)
Definition final_reason (fin : bool) (msgs : list StreamMsg) : Prop :=
  if fin then ∃ pre m reason, msgs = pre ++ [m] ∧ Forall (λ m, sm_finished_reason m = None) pre
              ∧ sm_finished_reason m = Some reason
  else Forall (λ m, sm_finished_reason m = None) msgs.

Definition output_of (msgs : list StreamMsg) : list Z := concat (map sm_output_ids msgs).
Definition decode_ids_of (msgs : list StreamMsg) : list Z := concat (map sm_decode_ids msgs).

(** The prompt tokens that a first message repeats for the detokenizer. *)
Definition context_ids (x : GenState G) : list Z :=
  if bool_decide (fr_surr_offset (gs_fin x) = None) then (fr_input_ids (gs_fin x))⟨surr_of (gs_fin x):⟩ else [].

(** What else the detokenizer relies on in a message: it brings something new, unless the length limit
    ended the request. *)
Record message_ok (f : FinReq) (m : StreamMsg) : Prop := {
  mo_read : sm_read_offset m = zlen (fr_input_ids f) - surr_of f;
  mo_text : sm_decoded_text m = fr_decoded_text f;
  mo_new : sm_output_ids m ≠ [] ∨ ∃ n, sm_finished_reason m = Some (FINISH_LENGTH n)
}.

(** One step of an unfinished request. *)
Record life_step (t : Z) (r r' : DReq) (x x' : GenState G) (sent : list Z) (msg : option StreamMsg) : Prop := {
  ls_token : ∃ t', rq_output_ids (dr_req r') = rq_output_ids (dr_req r) ++ [t'] ∧ (dr_finished r' = false → t' = t);
  ls_alive : alive r' x' (sent ++ output_of (option_list msg));
  ls_reason : final_reason (dr_finished r') (option_list msg);
  ls_rid m : msg = Some m → sm_rid m = dr_rid r;
  ls_decode : decode_ids_of (option_list msg) = (if bool_decide (msg = None) then [] else context_ids x) ++ output_of (option_list msg);
  ls_context : context_ids x' = if bool_decide (msg = None) then context_ids x else [];
  ls_same : dr_max_new_tokens r' = dr_max_new_tokens r ∧ dr_rid r' = dr_rid r;
  ls_message m : msg = Some m → message_ok (gs_fin x) m;
  ls_fields : fr_input_ids (gs_fin x') = fr_input_ids (gs_fin x) ∧ fr_decoded_text (gs_fin x') = fr_decoded_text (gs_fin x)
}.

Lemma advanced_sent r r' x x' sent : advanced is_terminated r r' x x' → sent_upto x sent → sent_upto x' sent.
Proof.
  intros [_ _ _ E (E1 & E2 & _ & _)] [S1 S2 S3]. split; [congruence| |].
  - rewrite E. destruct S2 as [[? ?]|[]]; [by left|right; by split].
  - rewrite E2, S3. by rewrite E.
Qed.

Lemma advanced_fields r r' x x' :
  advanced is_terminated r r' x x' →
  fr_input_ids (gs_fin x') = fr_input_ids (gs_fin x) ∧ fr_decoded_text (gs_fin x') = fr_decoded_text (gs_fin x).
Proof. intros [_ _ _ -> _]. done. Qed.

Lemma advanced_context r r' x x' : advanced is_terminated r r' x x' → context_ids x' = context_ids x.
Proof. intros [_ _ _ E _]. unfold context_ids. by rewrite E. Qed.

(** What was sent is part of what may be sent after one more token, and there is more. *)
Lemma sent_visible r r' x x' sent t' :
  advanced is_terminated r r' x x' → rq_output_ids (dr_req r') = rq_output_ids (dr_req r) ++ [t'] →
  fr_finished_len (gs_fin x) = None → sent `prefix_of` rq_output_ids (dr_req r) →
  (dr_output_len r < dr_max_new_tokens r ∨ rq_output_ids (dr_req r) = []) →
  sent `prefix_of` visible r' x'
  ∧ ((length sent < length (visible r' x'))%nat ∨ ∃ n, fr_finished_reason (gs_fin x') = Some (FINISH_LENGTH n)).
Proof.
  intros [_ Hlen _ _ _] Ho Hn Hs Hmax. unfold visible.
  assert (Hs' : sent `prefix_of` rq_output_ids (dr_req r') ∧ (length sent < length (rq_output_ids (dr_req r')))%nat).
  { rewrite Ho. split; [etrans; [exact Hs|by eexists]|]. rewrite length_app. apply prefix_length in Hs. cbn. lia. }
  destruct Hlen as [->|[->|(-> & Hle & Hreason)]].
  - rewrite Hn. destruct Hs'. auto.
  - unfold dr_output_len. rewrite slice_to_take, take_ge by (unfold zlen; lia). destruct Hs'. auto.
  - split; [|by right]. destruct Hmax as [Hmax|E]; [|rewrite E in Hs; apply prefix_nil_inv in Hs as ->; apply prefix_nil].
    unfold dr_output_len in *. rewrite slice_to_take by (pose proof (zlen_nonneg (rq_output_ids (dr_req r))); lia).
    destruct Hs as [k Hk]. rewrite Ho. rewrite Hk in *. exists (take (Z.to_nat (dr_max_new_tokens r) - length sent) (k ++ [t'])).
    rewrite <- app_assoc, take_app. f_equal. apply take_ge. rewrite zlen_app in Hmax. unfold zlen in Hmax. lia.
Qed.

Lemma output_of_some m : output_of (option_list (Some m)) = sm_output_ids m.
Proof. apply app_nil_r. Qed.

Lemma decode_ids_of_some m : decode_ids_of (option_list (Some m)) = sm_decode_ids m.
Proof. apply app_nil_r. Qed.

(** A step that sends: the message brings the client up to date. *)
Lemma life_send t r r' x x1 x2 sent msg x' :
  processed t r r' → sent_upto x2 sent → sent `prefix_of` visible r' x2 →
  finished (gs_fin x2) = dr_finished r' → can_decode_text (gs_fin x2) → intervals_ok r x →
  advanced is_terminated r r' x x1 →
  fr_input_ids (gs_fin x2) = fr_input_ids (gs_fin x1) → fr_surr_offset (gs_fin x2) = fr_surr_offset (gs_fin x1) →
  gs_stream_interval x2 = gs_stream_interval x1 →
  (dr_finished r' = false → gs_finished_output x2 = false ∧ fr_finished_len (gs_fin x2) = None) →
  (dr_finished r' = true → gs_finished_output x2 = true) →
  ((length sent < length (visible r' x2))%nat ∨ ∃ n, fr_finished_reason (gs_fin x2) = Some (FINISH_LENGTH n)) →
  fr_decoded_text (gs_fin x2) = fr_decoded_text (gs_fin x1) →
  stream_message is_terminated r' x2 = (msg, x') → life_step t r r' x x' sent (Some msg).
Proof.
  intros Hp Hs [rest Hv] Hf Hd Hi Ha E1 E2 E3 Hu Hfin Hnew E4 Hmsg.
  pose proof (stream_message_ok r' x2 sent rest Hs Hv) as Hm. rewrite Hmsg in Hm.
  destruct Hm as (M1 & M2 & M3 & M4 & M5 & M6 & M7 & M8 & M9 & M10 & M11 & M12 & M13 & M14 & M15).
  destruct (advanced_fields _ _ _ _ Ha) as [G1 G2].
  destruct Hp as [(f & tf & q & Er) Hout _ Hlive].
  assert (Hrid : dr_rid r' = dr_rid r ∧ dr_max_new_tokens r' = dr_max_new_tokens r ∧ dr_id r' = dr_id r) by (by subst r').
  destruct Hrid as (Hrid & Hmax & _).
  split; rewrite ?output_of_some, ?decode_ids_of_some, ?M3; [exact Hout|..].
  - split; [done|..].
    + rewrite <- Hf. unfold finished. by rewrite M8.
    + by apply M9.
    + destruct Hi as [? Hi]. split; [done|]. rewrite M12, E3. destruct Ha as [_ _ _ _ (_ & _ & _ & ->)]. done.
    + intros Hd'. destruct (Hu Hd') as [U1 U2]. rewrite M11, M10. split_and!; [done..| |].
      * unfold visible in Hv. rewrite U2 in Hv. by exists []; rewrite app_nil_r.
      * left. rewrite Hmax. by apply Hlive.
    + intros Hd'. rewrite M11. split; [by apply Hfin|]. unfold visible. rewrite M10. exact Hv.
  - unfold final_reason. destruct (dr_finished r').
    + unfold finished in Hf. apply bool_decide_eq_true in Hf as [reason Hr]. exists [], msg, reason. rewrite M2. done.
    + constructor; [|done]. rewrite M2. unfold finished in Hf. apply bool_decide_eq_false in Hf. by apply eq_None_not_Some.
  - intros m [= <-]. congruence.
  - rewrite M4. f_equal. rewrite <- (advanced_context _ _ _ _ Ha). unfold context_ids. cbn. by unfold surr_of; rewrite E1, E2.
  - unfold context_ids. by rewrite bool_decide_false.
  - done.
  - intros m [= <-]. split.
    + rewrite M13. unfold surr_of. by rewrite E1, G1.
    + by rewrite M14, E4.
    + rewrite M3, M2. destruct Hnew as [Hnew|?]; [left|by right]. intros ->. rewrite Hv, app_nil_r in Hnew. lia.
  - rewrite M7, M15. split; congruence.
Qed.

(** One step of an unfinished request: it gets its token and whatever is due is sent. *)
Lemma life_step_ok think t r x sent :
  alive r x sent → dr_finished r = false →
  ∃ r' x1 msg x', append_token is_terminated re_search think t r x = Ok (r', x1)
    ∧ stream_request is_terminated stream_interval force_interval r' x1 = Ok (msg, x') ∧ life_step t r r' x x' sent msg.
Proof.
  intros [A1 A2 A3 A4 A5 _] Hf. destruct (A5 Hf) as (U1 & U2 & U3 & U4).
  destruct (append_token_ok is_terminated re_search think t r x A3 ltac:(congruence)) as (r' & x1 & Hgo & Hp & _ & (Hd1 & Hf1) & Ha).
  pose proof (pr_output _ _ _ Hp) as (t' & Ho & _).
  destruct (sent_visible r r' x x1 sent t' Ha Ho U2 U3 U4) as [Hv Hnew]. pose proof (advanced_sent _ _ _ _ _ Ha A1) as Hs.
  pose proof (av_sent _ _ _ _ _ Ha) as (S1 & S2 & S3 & S4).
  assert (Hi1 : intervals_ok r' x1) by (destruct A4 as [? Hi]; split; [done|by rewrite S4]).
  exists r', x1. unfold stream_request. destruct (dr_finished r') eqn:Ef.
  - rewrite S3, U1. set (x2 := gs_with_fin _ _).
    assert (Hx2 : visible r' x2 = visible r' x1 ∧ finished (gs_fin x2) = finished (gs_fin x1)
                  ∧ (can_decode_text (gs_fin x1) → can_decode_text (gs_fin x2)) ∧ sent_upto x2 sent
                  ∧ fr_input_ids (gs_fin x2) = fr_input_ids (gs_fin x1) ∧ fr_surr_offset (gs_fin x2) = fr_surr_offset (gs_fin x1)
                  ∧ fr_finished_reason (gs_fin x2) = fr_finished_reason (gs_fin x1) ∧ fr_decoded_text (gs_fin x2) = fr_decoded_text (gs_fin x1)).
    { unfold x2, visible, fill_finished_len. cbn. destruct (fr_finished_len (gs_fin x1)) eqn:El; cbn.
      - rewrite El. split_and!; try done. by destruct Hs.
      - split_and!; try done; [by rewrite slice_to_take, take_ge by (unfold zlen; lia)|].
        destruct Hs as [Q1 Q2 Q3]. split; [done| |done]. destruct Q2 as [[? ?]|[]]; [by left|right; by split]. }
    destruct Hx2 as (V1 & V2 & V3 & V4 & V5 & V6 & V7 & V8). destruct (stream_message is_terminated r' x2) as [msg x'] eqn:Em.
    exists (Some msg), x'. split; [exact Hgo|]. split; [done|].
    eapply (life_send t r r' x x1 x2); try done; rewrite ?Ef; try done; [by rewrite V1|congruence|by apply V3|by rewrite V1, V7].
  - destruct (stream_due_ok r' x1 Hi1 Hd1) as [b ->]. cbn [mbind res_bind].
    assert (Hl1 : fr_finished_len (gs_fin x1) = None) by (rewrite (av_quiet _ _ _ _ _ Ha Ef); done).
    destruct b.
    + destruct (stream_message is_terminated r' x1) as [msg x'] eqn:Em. exists (Some msg), x'. split; [exact Hgo|].
      split; [done|]. eapply (life_send t r r' x x1 x1); try done; rewrite ?Ef; try done. by rewrite S3.
    + exists None, x1. split; [exact Hgo|]. split; [done|]. unfold visible in Hv. rewrite Hl1 in Hv.
      destruct Hp as [(f & tf & q & Er) Hout _ Hlive]. destruct (Hlive Ef) as [_ Hlt].
      assert (Hrid : dr_rid r' = dr_rid r ∧ dr_max_new_tokens r' = dr_max_new_tokens r) by (by subst r').
      destruct Hrid as [Hrid Hmax]. split; cbn; rewrite ?app_nil_r; try done.
      * split; try done; [congruence| |by rewrite Ef]. intros _. rewrite S3, Hmax. split_and!; try done. by left.
      * rewrite Ef. constructor.
      * by apply advanced_context with (r:=r) (r':=r').
      * by eapply advanced_fields.
Qed.

(** The whole life. *)
Record lived (steps : list (Z * bool * option G)) (r r' : DReq) (x x' : GenState G) (sent : list Z) (msgs : list StreamMsg) : Prop := {
  lv_alive : alive r' x' (sent ++ output_of msgs);
  lv_reason : if dr_finished r then msgs = [] ∧ dr_finished r' = true else final_reason (dr_finished r') msgs;
  lv_rid : Forall (λ m, sm_rid m = dr_rid r) msgs;
  lv_decode : decode_ids_of msgs = (if bool_decide (msgs = []) then [] else context_ids x) ++ output_of msgs;
  lv_tokens : if dr_finished r then rq_output_ids (dr_req r') = rq_output_ids (dr_req r)
              else if dr_finished r'
              then ∃ k t', (k < length steps)%nat
                     ∧ rq_output_ids (dr_req r') = rq_output_ids (dr_req r) ++ take k (map (λ s, s.1.1) steps) ++ [t']
              else rq_output_ids (dr_req r') = rq_output_ids (dr_req r) ++ map (λ s, s.1.1) steps;
  lv_same : dr_max_new_tokens r' = dr_max_new_tokens r;
  lv_messages : Forall (message_ok (gs_fin x)) msgs;
  lv_ids : match msgs with
           | [] => True
           | m :: rest => sm_decode_ids m = context_ids x ++ sm_output_ids m ∧ Forall (λ m, sm_decode_ids m = sm_output_ids m) rest
           end
}.

Lemma alive_before r x sent (mark : bool) g fin :
  alive r x sent → alive (if mark then set_dr_to_finish true r else r) (gs_with_grammar g fin x) sent.
Proof. intros [[] A2 A3 A4 A5 A6]. by destruct mark. Qed.

Lemma lived_cons t mark g steps r r1 r' x x1 x' sent msg msgs :
  dr_finished r = false → life_step t r r1 x x1 sent msg →
  lived steps r1 r' x1 x' (sent ++ output_of (option_list msg)) msgs →
  lived ((t, mark, g) :: steps) r r' x x' sent (option_list msg ++ msgs).
Proof.
  intros Hf [S0 S1 S2 S3 S4 S5 [S6 S6'] S7 [S8 S8']] [L1 L2 L3 L4 L5 L6 L7 L8].
  assert (Ho : output_of (option_list msg ++ msgs) = output_of (option_list msg) ++ output_of msgs)
    by (unfold output_of; by rewrite map_app, concat_app).
  assert (Hi : decode_ids_of (option_list msg ++ msgs) = decode_ids_of (option_list msg) ++ decode_ids_of msgs)
    by (unfold decode_ids_of; by rewrite map_app, concat_app).
  split; rewrite ?Ho, ?Hi, ?Hf.
  - by rewrite app_assoc.
  - destruct (dr_finished r1) eqn:E1; cbn [final_reason] in S2.
    + destruct L2 as [-> ->]. rewrite app_nil_r. exact S2.
    + unfold final_reason in *. destruct (dr_finished r').
      * destruct L2 as (pre & m & reason & -> & Hpre & Hm). exists (option_list msg ++ pre), m, reason.
        rewrite app_assoc. split; [done|]. split; [by apply Forall_app|done].
      * by apply Forall_app.
  - rewrite S6' in L3. apply Forall_app. split; [|done]. destruct msg as [m|]; constructor; [by apply S3|done].
  - rewrite S4, L4, S5. destruct msg as [m|]; cbn [option_list app]; [|done].
    rewrite !bool_decide_false by done. rewrite <- app_assoc. do 2 f_equal. by case_bool_decide.
  - destruct S0 as (t' & Ho' & Ht'). cbn [map fst length]. destruct (dr_finished r1) eqn:E1.
    + destruct L2 as [_ ->]. exists 0%nat, t'. split; [lia|]. by rewrite L5, Ho'.
    + rewrite Ho', (Ht' eq_refl) in L5. destruct (dr_finished r').
      * destruct L5 as (k & t'' & Hk & ->). exists (S k), t''. split; [lia|]. by rewrite <- app_assoc.
      * by rewrite L5, <- app_assoc.
  - congruence.
  - apply Forall_app. split; [destruct msg as [m|]; constructor; [by apply S7|done]|].
    eapply Forall_impl; [exact L7|]. intros m [M1 M2 M3]. split; [|by rewrite M2|done]. rewrite M1. unfold surr_of. by rewrite S8.
  - destruct msg as [m|]; cbn [option_list app].
    + rewrite decode_ids_of_some, output_of_some, bool_decide_false in S4 by done. split; [done|]. destruct msgs as [|m' rest]; [constructor|].
      rewrite S5, bool_decide_false in L8 by done. destruct L8 as [L8 L8']. by constructor.
    + by rewrite S5 in L8.
Qed.

Lemma life_ok think steps : ∀ r x sent,
  alive r x sent →
  ∃ msgs r' x', life think r x steps = Ok (msgs, r', x') ∧ lived steps r r' x x' sent msgs.
Proof.
  induction steps as [|[[t mark] g] steps IH]; intros r x sent Ha; cbn [life].
  - exists [], r, x. split; [done|]. split; cbn; rewrite ?app_nil_r; try done; destruct (dr_finished r); try done; constructor.
  - apply (alive_before _ _ _ mark g (gs_grammar_finished x)) in Ha. set (r0 := if mark then _ else _) in *. set (x0 := gs_with_grammar _ _ _) in *.
    assert (H0 : ∀ x' msgs r', lived ((t, mark, g) :: steps) r0 r' x0 x' sent msgs → lived ((t, mark, g) :: steps) r r' x x' sent msgs).
    { intros x' msgs r' []. unfold r0 in *. destruct mark; by split. }
    assert (Hr0 : dr_finished r0 = dr_finished r) by (by unfold r0; destruct mark).
    destruct (dr_finished r0) eqn:Ef; cbn [mbind res_bind].
    + unfold stream_request. rewrite Ef. destruct (al_finished _ _ _ Ha Ef) as [-> Hv]. cbn [mbind res_bind].
      destruct (IH r0 x0 sent Ha) as (msgs & r' & x' & -> & [L1 L2 L3 L4 L5 L6 L7 L8]). rewrite Ef in L2, L5.
      destruct L2 as [-> Hf']. eexists _, _, _. split; [done|]. apply H0. split; rewrite ?Ef; done.
    + destruct (life_step_ok think t r0 x0 sent Ha Ef) as (r1 & x1 & msg & x2 & -> & Hs & Hstep). cbn [mbind res_bind].
      rewrite Hs. cbn [mbind res_bind]. destruct (IH r1 x2 _ (ls_alive _ _ _ _ _ _ _ Hstep)) as (msgs & r' & x' & -> & Hl).
      eexists _, _, _. split; [done|]. apply H0. by eapply lived_cons.
Qed.

(** A request that was just created. *)
Record fresh_request (r : DReq) (x : GenState G) : Prop := {
  fq_output : rq_output_ids (dr_req r) = [];
  fq_unfinished : dr_finished r = false ∧ finished (gs_fin x) = false ∧ fr_finished_len (gs_fin x) = None;
  fq_unsent : gs_finished_output x = false ∧ gs_send_token_offset x = 0 ∧ gs_send_decode_id_offset x = 0
              ∧ fr_surr_offset (gs_fin x) = None;
  fq_text : can_decode_text (gs_fin x)
}.

Lemma fresh_alive r x : fresh_request r x → intervals_ok r x → alive r x [].
Proof.
  intros [F1 (F2 & F3 & F4) (F5 & F6 & F7 & F8) F9] Hi. split; try done; [|congruence| |congruence].
  - split; [done|by left|]. by rewrite F8.
  - intros _. rewrite F1. split_and!; try done. by right.
Qed.

(** C6: Whatever tokens are sampled for a new request, and whenever it is marked to be aborted or its
    grammar moves, running it never raises and the stream is exact: the messages carry the request's
    own id and its output ids in order, each once, up to the stop; only the last message of a finished
    request has a finish reason, and then everything up to the stop was sent; the ids for the detokenizer
    are the same behind the prompt tokens it needs as context, sent once; and after
    [max_new_tokens] steps the request is finished. *)
Theorem stream_exact think r x steps :
  fresh_request r x → intervals_ok r x →
  ∃ msgs r' x', life think r x steps = Ok (msgs, r', x')
    ∧ Forall (λ m, sm_rid m = dr_rid r) msgs
    ∧ final_reason (dr_finished r') msgs
    ∧ (if dr_finished r' then output_of msgs = visible r' x' else output_of msgs `prefix_of` rq_output_ids (dr_req r'))
    ∧ decode_ids_of msgs = (if bool_decide (msgs = []) then [] else (fr_input_ids (gs_fin x))⟨surr_of (gs_fin x):⟩) ++ output_of msgs
    ∧ (if dr_finished r'
       then ∃ k t', (k < length steps)%nat ∧ rq_output_ids (dr_req r') = take k (map (λ s, s.1.1) steps) ++ [t']
       else rq_output_ids (dr_req r') = map (λ s, s.1.1) steps)
    ∧ (0 < zlen steps → dr_max_new_tokens r ≤ zlen steps → dr_finished r' = true).
Proof.
  intros Hf Hi. destruct (life_ok think steps r x [] (fresh_alive r x Hf Hi)) as (msgs & r' & x' & Hgo & [L1 L2 L3 L4 L5 L6 L7 L8]).
  destruct Hf as [F1 (F2 & _ & _) (_ & _ & _ & F8) _]. rewrite F2 in L2, L5. rewrite F1 in L5. destruct L1 as [A1 _ _ _ A5 A6].
  exists msgs, r', x'. unfold context_ids in L4. rewrite (bool_decide_true _ F8) in L4. split_and!; try done.
  - destruct (dr_finished r'); [by destruct (A6 eq_refl) as [_ ->]|by apply A5].
  - intros Hpos Hmax. destruct (dr_finished r'); [done|]. destruct (A5 eq_refl) as (_ & _ & _ & [Hlt|E]).
    + unfold dr_output_len in Hlt. rewrite L5, L6 in Hlt. unfold zlen in *. rewrite length_app, length_map in Hlt. simpl in Hlt. lia.
    + rewrite L5 in E. destruct steps; [done|]. done.
Qed.

End stream.
