(* ===== verification/OutputProps.v ===== *)
(** * The decode handler

    [process_batch_result_decode] of ResultProc as a whole: the loop of ResultProps inside the free
    group, the messages of StreamProps, the end of the group. *)

From S2P Require Import Prelude AllocKernels Allocator RadixKey RadixTree RadixInv RadixMatch RadixProps ReqPool ReqCache.
From S2P Require Import CacheAlloc DecodeBatch DecodeMem HandOverMem RetractProps DecodeProps QueueProps.
From S2P Require Import Sampling Finish FinishProps ResultProc ResultProps StreamProps.

Section output.
Context {G : Type} (accept_token : G → Z → option G) (is_terminated : G → bool) (re_search : text → text → bool).

(** ** Streaming a batch *)

Section stream.
Context (stream_interval force_interval : Z) (Hsi : stream_interval ≠ 0) (Hfi : force_interval ≠ 0).

(** The rest of an object may be replaced by one that can still decode and is as finished. *)
Lemma gen_ok_replace (gen : gmap nat (GenState G)) n x x' r :
  gen !! n = Some x → finished (gs_fin x') = finished (gs_fin x) → (can_decode_text (gs_fin x) → can_decode_text (gs_fin x')) →
  gen_ok gen r → gen_ok (<[n := x']> gen) r.
Proof.
  intros Hx Hf Hd (y & Hy & H1 & H2). destruct (decide (n = dr_id r)) as [->|Hne].
  - rewrite Hx in Hy. inversion Hy; subst y. exists x'. rewrite lookup_insert_eq, Hf. auto.
  - exists y. by rewrite lookup_insert_ne.
Qed.

Lemma stream_message_keeps r (x : GenState G) :
  let '(msg, x') := stream_message is_terminated r x in
  sm_rid msg = dr_rid r ∧ sm_finished_reason msg = fr_finished_reason (gs_fin x)
  ∧ finished (gs_fin x') = finished (gs_fin x) ∧ (can_decode_text (gs_fin x) → can_decode_text (gs_fin x')).
Proof.
  unfold stream_message. pose proof (stream_message_fin is_terminated r x) as Hf.
  destruct (init_incremental_detokenize _) as [[ids off] f]. cbn in Hf. destruct Hf as (F1 & F2 & F3 & F4 & _).
  cbn. split_and!; try done. unfold finished. by rewrite F3.
Qed.

Lemma stream_request_keeps r (x : GenState G) :
  can_decode_text (gs_fin x) → finished (gs_fin x) = dr_finished r →
  ∃ msg x', stream_request is_terminated stream_interval force_interval r x = Ok (msg, x')
    ∧ finished (gs_fin x') = finished (gs_fin x) ∧ can_decode_text (gs_fin x')
    ∧ (∀ m, msg = Some m → sm_rid m = dr_rid r ∧ bool_decide (is_Some (sm_finished_reason m)) = dr_finished r).
Proof.
  intros Hd Hf. unfold stream_request. destruct (dr_finished r) eqn:Ef.
  - destruct (gs_finished_output x); [by exists None, x|]. set (x2 := gs_with_fin _ _).
    assert (H2 : finished (gs_fin x2) = finished (gs_fin x) ∧ can_decode_text (gs_fin x2)).
    { unfold x2, fill_finished_len. cbn. by destruct (fr_finished_len (gs_fin x)). }
    destruct H2 as [H2 H3]. pose proof (stream_message_keeps r x2) as Hm.
    destruct (stream_message is_terminated r x2) as [m x']. destruct Hm as (M1 & M2 & M3 & M4).
    exists (Some m), x'. split; [done|]. split; [congruence|]. split; [auto|]. intros ? [= <-]. split; [done|].
    rewrite M2. change (finished (gs_fin x2) = true). congruence.
  - destruct (stream_due_ok is_terminated stream_interval force_interval r x) as [b ->]; [split; [done|by left]|done|].
    cbn [mbind res_bind]. destruct b; [|by exists None, x]. pose proof (stream_message_keeps r x) as Hm.
    destruct (stream_message is_terminated r x) as [m x']. destruct Hm as (M1 & M2 & M3 & M4).
    exists (Some m), x'. split; [done|]. split; [congruence|]. split; [auto|]. intros ? [= <-]. split; [done|].
    rewrite M2. exact Hf.
Qed.

(** Every message is about one of the requests, and says whether it is finished. *)
Definition about (reqs : list DReq) (m : StreamMsg) : Prop :=
  ∃ r, r ∈ reqs ∧ sm_rid m = dr_rid r ∧ bool_decide (is_Some (sm_finished_reason m)) = dr_finished r.

Lemma stream_output_ok skip reqs : ∀ (gen : gmap nat (GenState G)),
  Forall (gen_ok gen) reqs →
  ∃ msgs gen', stream_output is_terminated stream_interval force_interval skip reqs gen = Ok (msgs, gen')
    ∧ Forall (about reqs) msgs ∧ (∀ r, gen_ok gen r → gen_ok gen' r).
Proof.
  induction reqs as [|r reqs IH]; intros gen Hg; cbn [stream_output]; [by exists [], gen|].
  inversion Hg as [|? ? Hr Hl]; subst.
  assert (Hab : ∀ msgs, Forall (about reqs) msgs → Forall (about (r :: reqs)) msgs).
  { intros msgs Hms. eapply Forall_impl; [exact Hms|]. intros m (r' & Hin & Hm). exists r'. split; [by right|done]. }
  case_bool_decide.
  { destruct (IH gen Hl) as (msgs & gen' & -> & H1 & H2). exists msgs, gen'. auto. }
  destruct Hr as (x & Hx & Hd & Hf). unfold gen_of. rewrite Hx. cbn [mbind res_bind].
  destruct (stream_request_keeps r x Hd Hf) as (msg & x' & -> & K1 & K2 & K3). cbn [mbind res_bind].
  assert (Hk : ∀ r', gen_ok gen r' → gen_ok (<[dr_id r := x']> gen) r') by (intros r'; by apply gen_ok_replace with (x:=x)).
  destruct (IH (<[dr_id r := x']> gen)) as (msgs & gen' & -> & H1 & H2).
  { eapply Forall_impl; [exact Hl|]. intros r'. apply Hk. }
  cbn [mbind res_bind]. eexists _, gen'. split; [done|]. split; [|auto].
  apply Forall_app. split; [|auto]. destruct msg as [m|]; constructor; [|done].
  exists r. split; [by left|auto].
Qed.

End stream.

(** ** The handler *)

Context {monotonic : nat → Z} {dfi : bool} {policy : string}.
Context (sa : ServerArgs) (Hspec : sa_speculative_algorithm sa = None) (Hstrip : sa_strip_thinking_cache sa = false).
Context (size width : Z) (ol : list nat) (os orows : list Z).
Let inv := batch_inv (monotonic:=monotonic) (dfi:=dfi) (policy:=policy) size width ol os orows.

(** After the results of a decode batch: each request has its token, the memory of the finished ones
    was handed over, and the aborts that failing grammars cause took requests out of the queue. *)
Record handled (tokens : list Z) (reqs reqs' : list DReq) (s s' : OutState G) : Prop := {
  hd_reqs : Forall3 processed tokens reqs reqs';
  hd_mem : inv (os_mem s') (live_of reqs');
  hd_gen : Forall (gen_ok (os_gen s')) reqs';
  hd_others r : dr_id r ∉ map dr_id reqs → gen_ok (os_gen s) r → gen_ok (os_gen s') r;
  hd_queue : ∃ sent, os_sent_aborts s' = os_sent_aborts s ++ sent ∧ os_queue s' ++ sent ≡ₚ os_queue s;
  hd_messages : reqs ≠ [] → ∃ msgs, os_messages s' = os_messages s ++ [msgs] ∧ Forall (about reqs') msgs;
  hd_counts : os_num_generated_tokens s' = os_num_generated_tokens s + zlen reqs
}.

Lemma process_decode_handled oc reqs tokens s :
  oc_enable_overlap oc = false → oc_stream_interval oc ≠ 0 → oc_force_stream_interval oc ≠ 0 →
  length tokens = length reqs → Forall (λ r, dr_finished r = false) reqs → NoDup (map dr_id reqs) →
  Forall (gen_ok (os_gen s)) reqs → inv (os_mem s) reqs →
  ∃ reqs' s', process_batch_result_decode accept_token is_terminated re_search monotonic sa oc reqs tokens s = Ok (reqs', s')
    ∧ handled tokens reqs reqs' s s'.
Proof.
  intros Hov Hsi Hfi Hlen Hun Hnd Hgen (c & a & p & held & L & Em & Hm). unfold process_batch_result_decode. rewrite Em, Hov.
  cbn [me_tree me_kv me_pool pool_free_group_begin].
  apply batch_mem_open in Hm. set (st := mkResultState _ _ _ _ _ _).
  assert (Hlive : live_of reqs = reqs).
  { clear -Hun. induction Hun as [|r l Hr _ IH]; [done|]. by rewrite live_cons, Hr, IH. }
  destruct (decode_loop_ok (monotonic:=monotonic) (dfi:=dfi) (policy:=policy) accept_token is_terminated re_search sa Hspec Hstrip
              size width ol os orows (oc_think_end_id oc) tokens reqs st)
    as (st' & Hgo & [L1 L2 L3 L4 L5] & (c' & a' & p' & held' & L' & Em' & Hm')); try done.
  { rewrite Hlive. by exists c, (free_group_begin a), p, held, L. }
  rewrite Hgo. cbn [mbind res_bind].
  destruct (stream_output_ok (oc_stream_interval oc) (oc_force_stream_interval oc) Hsi Hfi None (rs_reqs st') (rs_gen st') L3)
    as (msgs & gen' & -> & Hmsg & Hgen'). cbn [mbind res_bind].
  rewrite Em'. cbn [me_tree me_kv me_pool pool_free_group_end mbind res_bind]. eexists _, _. split; [done|].
  split; cbn [os_mem os_gen os_sent_aborts os_queue os_messages os_num_generated_tokens]; try done.
  - eexists _, _, _, held', L'. split; [done|]. by apply batch_mem_close.
  - eapply Forall_impl; [exact L3|]. auto.
  - intros r Hr Hg. apply Hgen', L4; done.
  - intros Hne. exists msgs. split; [|done]. rewrite bool_decide_false; [done|]. by rewrite length_zero_iff_nil.
Qed.


End output.
