(* ===== verification/ExtendBatch.v ===== *)
(** * The prefill batch

    Models [ScheduleBatch.init_new], [prepare_for_extend] and [mix_with_running]
    ([src/python/sglang/srt/managers/schedule_batch.py]): the admitted requests get rows and slots,
    their rows are written, and the columns of the batch are built.

    [ExtendInfo] holds the other fields of a request that this code reads or writes, by the identity of
    the request.  Off in the model: embeddings, multimodal and encoder inputs, Mamba states,
    multi-item scoring, the sampling tensors. *)

From S2P Require Import Prelude AllocKernels Allocator RadixKey RadixTree ReqPool ReqCache CacheAlloc DecodeBatch.

Record ExtendInfo := mkExtendInfo {
  ei_cached_tokens : Z;
  ei_cached_tokens_device : Z;
  ei_cached_tokens_host : Z;
  ei_cached_tokens_storage : Z;
  ei_cache_breakdown_computed : bool;
  ei_host_hit_length : Z;
  ei_storage_hit_length : Z;
  ei_logprob_start_len : Z;
  ei_top_logprobs_num : Z;
  ei_token_ids_logprob : option (list Z)
}.

(** The fields of the batch that only a prefill has. *)
Record ExtendFields := mkExtendFields {
  xf_prefix_lens : list Z;
  xf_extend_lens : list Z;
  xf_extend_num_tokens : Z;
  xf_extend_logprob_start_lens : list Z;
  xf_extend_input_logprob_token_ids : option (list Z)
}.

Definition prefix_len (r : DReq) : Z := zlen (rq_prefix_indices (dr_req r)).
Definition seq_len (r : DReq) : Z := zlen (rq_fill_ids (dr_req r)).
Definition new_ids (r : DReq) : list Z := (rq_fill_ids (dr_req r))⟨prefix_len r:⟩.

(** [init_new] *)
Definition init_new (reqs : list DReq) : RunningBatch :=
  mkRunningBatch reqs [] [] [] 0 None None None (existsb dr_return_logprob reqs) None None
    (existsb dr_stream reqs) (existsb dr_grammar reqs) false.

(** The batch as [alloc_for_extend] reads it. *)
Definition extend_view (reqs : list DReq) : ScheduleBatch :=
  mkScheduleBatch (map dr_req reqs) (map prefix_len reqs) (map dr_extend_input_len reqs)
    (zlen (concat (map new_ids reqs))) (map seq_len reqs) [] None.

(** The cached tokens are counted once, the breakdown by source at the first chunk. *)
Definition count_cached (r : DReq) (x : ExtendInfo) : ExtendInfo :=
  let cached := ei_cached_tokens x + (prefix_len r - dr_already_computed r) in
  let host_total := ei_host_hit_length x in
  let storage_portion := Z.min host_total (ei_storage_hit_length x) in
  if ei_cache_breakdown_computed x then
    mkExtendInfo cached (ei_cached_tokens_device x) (ei_cached_tokens_host x) (ei_cached_tokens_storage x) true
      (ei_host_hit_length x) (ei_storage_hit_length x) (ei_logprob_start_len x) (ei_top_logprobs_num x) (ei_token_ids_logprob x)
  else
    mkExtendInfo cached (Z.max 0 (prefix_len r - host_total)) (host_total - storage_portion) storage_portion true
      (ei_host_hit_length x) (ei_storage_hit_length x) (ei_logprob_start_len x) (ei_top_logprobs_num x) (ei_token_ids_logprob x).

(** The request with its row [q] after the loop of [prepare_for_extend]. *)
Definition extended (q : Req) (r : DReq) : DReq :=
  mkDReq (dr_id r) (dr_rid r) (dr_max_new_tokens r) (dr_finished r) (dr_to_finish r)
    (dr_input_embeds r) (dr_return_logprob r) (dr_stream r) (dr_grammar r)
    (dr_wait_queue_entry_time r) (dr_retraction_count r) false
    (dr_retracted_stain r) (dr_extend_input_len r) (dr_extend_logprob_start_len r)
    (if dr_retracted_stain r then dr_already_computed r else seq_len r) (dr_extend_batch_idx r + 1) (dr_decode_batch_idx r)
    (set_rq_kv_allocated_len (seq_len r) (set_rq_kv_committed_len (seq_len r) q)).

(** The token ids whose input log probabilities are computed: the next token of each position, padded
    with zeros. *)
Definition input_logprob_token_ids (r : DReq) (x : ExtendInfo) : list Z :=
  let start_len := if bool_decide (ei_logprob_start_len x = -1) then dr_input_len r else ei_logprob_start_len x in
  let global_start_idx := if bool_decide (prefix_len r < start_len) then start_len else prefix_len r in
  let global_end_idx := seq_len r in
  let ids := py_slice (rq_origin_input_ids (dr_req r)) (global_start_idx + 1) (global_end_idx + 1) in
  ids ++ replicate (Z.to_nat (dr_extend_input_len r - dr_extend_logprob_start_len r - zlen ids)) 0.

(** The loop: requests and their rows, with the other fields. *)
Fixpoint extend_requests (reqs : list (DReq * Req)) (infos : gmap nat ExtendInfo)
    : res (list DReq * list (list Z) * gmap nat ExtendInfo) :=
  match reqs with
  | [] => Ok ([], [], infos)
  | (r, q) :: rest =>
      _ ← py_assert (bool_decide (seq_len r - prefix_len r = dr_extend_input_len r));
      x ← match infos !! dr_id r with Some x => Ok x | None => Raise AttributeError end;
      let x' := if dr_retracted_stain r then x else count_cached r x in
      '(rs, ids, infos) ← extend_requests rest (<[dr_id r := x']> infos);
      Ok (extended q r :: rs, input_logprob_token_ids r x' :: ids, infos)
  end.

Definition clamp (lo hi v : Z) : Z := Z.min (Z.max v lo) hi.

(** [prepare_for_extend] of [init_new reqs]: the batch, its prefill fields, the other fields of the
    requests and the memory. *)
Definition prepare_for_extend `{Heapq} (attention_backend : string) (vocab_size : Z) (uninit : list Z) (reqs : list DReq)
    (infos : gmap nat ExtendInfo) (m : Mem) : res (RunningBatch * ExtendFields * gmap nat ExtendInfo * Mem) :=
  let b := init_new reqs in
  '(out_cache_loc, qs, t, k, p) ←
    alloc_for_extend attention_backend (extend_view reqs) (me_tree m) (me_kv m) (me_pool m) uninit;
  '(rs, ids, infos) ← extend_requests (zip reqs qs) infos;
  let num (f : ExtendInfo → Z) := map (λ r, from_option f 0 (infos !! dr_id r)) rs in
  Ok (mkRunningBatch rs (map row_index (map dr_req rs)) (map seq_len reqs)
        (map (λ r, Z.max (seq_len r) (dr_input_len r)) reqs) (sumZ (map seq_len reqs))
        (Some (concat (map new_ids reqs))) None (Some out_cache_loc) (rb_return_logprob b)
        (if rb_return_logprob b then Some (num ei_top_logprobs_num) else None)
        (if rb_return_logprob b then Some (map (λ r, infos !! dr_id r ≫= ei_token_ids_logprob) rs) else None)
        (rb_has_stream b) (rb_has_grammar b) (rb_batch_is_full b),
      mkExtendFields (map prefix_len reqs) (map dr_extend_input_len reqs) (zlen (concat (map new_ids reqs)))
        (map dr_extend_logprob_start_len reqs)
        (if rb_return_logprob b then Some (map (clamp 0 (vocab_size - 1)) (concat ids)) else None),
      infos, mkMem t k p).

(** ** Mixing with the running batch *)

Definition set_dr_extend (extend_input_len extend_logprob_start_len : Z) (q : Req) (r : DReq) : DReq :=
  mkDReq (dr_id r) (dr_rid r) (dr_max_new_tokens r) (dr_finished r) (dr_to_finish r)
    (dr_input_embeds r) (dr_return_logprob r) (dr_stream r) (dr_grammar r)
    (dr_wait_queue_entry_time r) (dr_retraction_count r) (dr_is_retracted r)
    (dr_retracted_stain r) extend_input_len extend_logprob_start_len
    (dr_already_computed r) (dr_extend_batch_idx r) (dr_decode_batch_idx r) q.

Definition set_rq_fill_ids (v : list Z) (r : Req) : Req :=
  mkReq (rq_origin_input_ids r) (rq_output_ids r) v (rq_extra_key r) (rq_priority r)
    (rq_skip_radix_cache_insert r) (rq_reasoning_tokens r) (rq_is_chunked r)
    (rq_kv_committed_len r) (rq_kv_allocated_len r) (rq_kv_committed_freed r)
    (rq_kv_overallocated_freed r) (rq_req_pool_idx r) (rq_prefix_indices r) (rq_last_node r)
    (rq_cache_protected_len r).

(** A running request as a prefill of one token; [set_extend_input_len(1)]. *)
Definition as_extend (logprob_start_len : nat → Z) (r : DReq) : DReq :=
  let fill_ids := rq_origin_input_ids (dr_req r) ++ rq_output_ids (dr_req r) in
  let l := logprob_start_len (dr_id r) in
  let start_len := if bool_decide (l = -1) then zlen fill_ids else Z.max l (prefix_len r) in
  set_dr_extend 1 (Z.min (start_len - prefix_len r) 1) (set_rq_fill_ids fill_ids (dr_req r)) r.

Definition cat_opt (x y : option (list Z)) : res (option (list Z)) :=
  match x, y with Some l, Some k => Ok (Some (l ++ k)) | _, _ => Raise TypeError end.

(** [mix_with_running]: the running requests follow those of the batch. *)
Definition mix_with_running (enable_overlap : bool) (logprob_start_len : nat → Z) (b : RunningBatch) (x : ExtendFields)
    (running : RunningBatch) : res (RunningBatch * ExtendFields) :=
  let running := set_rb_reqs (map (as_extend logprob_start_len) (rb_reqs running)) running in
  input_ids ← cat_opt (rb_input_ids b) (rb_input_ids running);
  out_cache_loc ← cat_opt (rb_out_cache_loc b) (rb_out_cache_loc running);
  b ← merge_batch b running;
  let delta := if enable_overlap then 0 else -1 in
  let bs := length (rb_reqs running) in
  Ok (mkRunningBatch (rb_reqs b) (rb_req_pool_indices b) (rb_seq_lens b) (rb_orig_seq_lens b) (rb_seq_lens_sum b)
        input_ids (rb_output_ids b) out_cache_loc (rb_return_logprob b) (rb_top_logprobs_nums b) (rb_token_ids_logprobs b)
        (rb_has_stream b) (rb_has_grammar b) (rb_batch_is_full b),
      mkExtendFields
        (xf_prefix_lens x ++ map (λ r, dr_input_len r + dr_output_len r + delta) (rb_reqs running))
        (xf_extend_lens x ++ replicate bs 1) (xf_extend_num_tokens x + Z.of_nat bs)
        (xf_extend_logprob_start_lens x ++ replicate bs 0) (xf_extend_input_logprob_token_ids x)).
