(* ===== verification/EventLoop.v ===== *)
(** * The scheduler loop

    Models the parts of [src/python/sglang/srt/managers/scheduler.py] around the batches:
    [_abort_on_waiting_timeout], [_abort_on_running_timeout], the merge of the last prefill batch and
    the decode arm of [get_next_batch_to_run], [run_batch], [process_batch_result], the iterations of
    [event_loop_normal] that decode and those that run a new prefill batch, [abort_request],
    [pause_generation] and [continue_generation].

    The model worker is an argument: a function from the batch to the sampled tokens.  The clock is an
    argument of each iteration.  Off in the model, besides what DecodeBatch and ResultProc leave out:
    diffusion models, pipeline parallelism, prefill-only batches, data-parallel attention. *)

From S2P Require Import Prelude AllocKernels Allocator RadixKey RadixTree ReqPool ReqCache CacheAlloc PyFloat DecodeBatch.
From S2P Require Import ExtendBatch Sampling Finish ResultProc.

(** ** Timeouts *)

(** [_abort_on_running_timeout]; [forward_entry_time] is by the identity of the request. *)
Definition abort_on_running_timeout (timeout now : Z) (forward_entry_time : nat → Z) (b : RunningBatch) : RunningBatch :=
  if bool_decide (timeout ≤ 0) then b
  else if bool_decide (length (rb_reqs b) = 0%nat) then b
  else
    let deadline := now - timeout in
    set_rb_reqs (map (λ r,
      let t := forward_entry_time (dr_id r) in
      if negb (dr_finished r) && bool_decide (0 < t < deadline) then set_dr_to_finish true r else r) (rb_reqs b)) b.

(** [_abort_on_waiting_timeout]: the queue and the requests a message was sent for. *)
Definition abort_on_waiting_timeout (timeout now : Z) (queue : list DReq) : list DReq * list DReq :=
  if bool_decide (timeout ≤ 0) then (queue, [])
  else
    let late r := bool_decide (0 < dr_wait_queue_entry_time r < now - timeout) in
    let deleted := List.filter late queue in
    (List.filter (λ r, bool_decide (dr_id r ∉ map dr_id deleted)) queue, deleted).

(** ** Merging the last batch *)

(** A batch that ran, with its forward mode and the request it chunked. *)
Record LastBatch := mkLastBatch {
  lb_batch : RunningBatch;
  lb_is_extend : bool;
  lb_chunked_req : option nat
}.

(** The merge of [get_next_batch_to_run]; [chunked_req] is the chunked request of the scheduler. *)
Definition merge_last_batch (chunked_req : option nat) (last : option LastBatch) (running : RunningBatch) : res RunningBatch :=
  match last with
  | Some l =>
      if lb_is_extend l then
        let excluded := option_list chunked_req ++ option_list (lb_chunked_req l) in
        let last_bs := length (rb_reqs (lb_batch l)) in
        b ← filter_batch (lb_batch l) excluded None;
        let running := if bool_decide (length (rb_reqs b) < last_bs)%nat then set_rb_batch_is_full false running else running in
        if bool_decide (length (rb_reqs b) = 0%nat) then Ok running
        else if bool_decide (length (rb_reqs running) = 0%nat) then Ok b
        else merge_batch running b
      else Ok running
  | None => Ok running
  end.

Section loop.
Context {G : Type} (accept_token : G → Z → option G) (is_terminated : G → bool) (re_search : text → text → bool).
Context (monotonic : nat → Z) (sa : ServerArgs) (sp : SpecArgs) (qc : QueueConfig) (oc : OutConfig).
Context `{Heapq} {F : Type} `{PyNum F}.
Context (model_worker : RunningBatch → list Z).

(** ** Pausing *)

Inductive PauseMode := pause_abort | pause_retract | pause_in_place.

Record PauseState := mkPauseState {
  pa_engine_paused : bool;
  pa_running : RunningBatch;
  pa_last : option LastBatch;
  pa_chunked_req : option nat;
  pa_sched : DecodeScheduler F
}.

(** [pause_generation] without overlap. *)
Definition pause_generation (mode : PauseMode) (now : nat → Z) (s : PauseState) : res PauseState :=
  match mode with
  | pause_in_place => Ok (mkPauseState true (pa_running s) (pa_last s) (pa_chunked_req s) (pa_sched s))
  | _ =>
      running ←
        match pa_last s with
        | Some l =>
            if lb_is_extend l then
              b ← filter_batch (lb_batch l) [] None;
              if bool_decide (length (rb_reqs b) = 0%nat) then Ok (pa_running s)
              else if bool_decide (length (rb_reqs (pa_running s)) = 0%nat) then Ok b
              else merge_batch (pa_running s) b
            else Ok (pa_running s)
        | None => Ok (pa_running s)
        end;
      match mode with
      | pause_retract =>
          if bool_decide (length (rb_reqs running) = 0%nat) then
            Ok (mkPauseState true running None (pa_chunked_req s) (pa_sched s))
          else
            running ← filter_batch running [] None;
            let d := pa_sched s in
            '(running, d) ←
              (if bool_decide (length (rb_reqs running) = 0%nat) then Ok (running, d)
               else
                 '(retracted, running, m) ← retract_all monotonic sa running (ds_mem d);
                 '(queue, refused) ← requeue qc now (ds_waiting_queue d) retracted;
                 Ok (running, mkDecodeScheduler queue (ds_new_token_ratio d) (ds_new_token_ratio_decay d)
                                (ds_min_new_token_ratio d) (ds_num_retracted_reqs d) (ds_sent_aborts d ++ refused) m));
            Ok (mkPauseState true (set_rb_batch_is_full false running) None None d)
      | _ => Ok (mkPauseState true running None (pa_chunked_req s) (pa_sched s))
      end
  end.

Definition continue_generation (s : PauseState) : PauseState :=
  mkPauseState false (pa_running s) (pa_last s) (pa_chunked_req s) (pa_sched s).

(** ** One iteration *)

Record LoopState := mkLoopState {
  ls_batch : RunningBatch;                   (* running_batch *)
  ls_last : option LastBatch;                (* last_batch, when that is a prefill batch *)
  ls_sched : DecodeScheduler F;
  ls_gen : gmap nat (GenState G);
  ls_messages : list (list StreamMsg);
  ls_num_generated_tokens : Z;
  ls_forward_ct_decode : Z
}.

(** What the loop reads from its environment in an iteration. *)
Record LoopEnv := mkLoopEnv {
  en_test_retract : bool;
  en_now : nat → Z;
  en_perf_counter : Z;
  en_uninit : list Z
}.

Context (waiting_timeout running_timeout : Z) (forward_entry_time : nat → Z).

Definition with_queue (queue aborted : list DReq) (d : DecodeScheduler F) : DecodeScheduler F :=
  mkDecodeScheduler queue (ds_new_token_ratio d) (ds_new_token_ratio_decay d) (ds_min_new_token_ratio d)
    (ds_num_retracted_reqs d) (ds_sent_aborts d ++ aborted) (ds_mem d).

(** How [get_next_batch_to_run] begins: timeouts, then the last prefill batch joins the running one.  A
    prefill batch that follows has no chunked request. *)
Definition begin_iteration (env : LoopEnv) (s : LoopState) : res LoopState :=
  let d := ls_sched s in
  let '(queue, aborted) := abort_on_waiting_timeout waiting_timeout (en_perf_counter env) (ds_waiting_queue d) in
  let b := abort_on_running_timeout running_timeout (en_perf_counter env) forward_entry_time (ls_batch s) in
  b ← merge_last_batch None (ls_last s) b;
  Ok (mkLoopState b None (with_queue queue aborted d) (ls_gen s) (ls_messages s) (ls_num_generated_tokens s) (ls_forward_ct_decode s)).

(** [get_next_batch_to_run] when no prefill batch can be built: the batch to run is the new running
    batch, if that is not empty.  The last component is the state after [begin_iteration]. *)
Definition get_next_batch_to_run (env : LoopEnv) (s : LoopState) : res (RunningBatch * DecodeScheduler F * LoopState) :=
  s ← begin_iteration env s;
  let b := ls_batch s in
  if bool_decide (length (rb_reqs b) = 0%nat) then Ok (b, ls_sched s, s)
  else
    '(b, d) ← update_running_batch monotonic sa sp qc (en_test_retract env) (en_now env) (en_uninit env) b (ls_sched s);
    Ok (b, d, s).

(** [run_batch] without overlap: the batch keeps the sampled tokens for its next step. *)
Definition run_batch (b : RunningBatch) : list Z * RunningBatch :=
  let next_token_ids := model_worker b in
  (next_token_ids,
   mkRunningBatch (rb_reqs b) (rb_req_pool_indices b) (rb_seq_lens b) (rb_orig_seq_lens b) (rb_seq_lens_sum b)
     (rb_input_ids b) (Some next_token_ids) (rb_out_cache_loc b) (rb_return_logprob b)
     (rb_top_logprobs_nums b) (rb_token_ids_logprobs b) (rb_has_stream b) (rb_has_grammar b) (rb_batch_is_full b)).

Definition event_loop_step (env : LoopEnv) (s : LoopState) : res LoopState :=
  '(b, d, s) ← get_next_batch_to_run env s;
  if bool_decide (length (rb_reqs b) = 0%nat) then
    Ok (mkLoopState b None d (ls_gen s) (ls_messages s) (ls_num_generated_tokens s) (ls_forward_ct_decode s))
  else
    let '(tokens, b) := run_batch b in
    '(reqs, o) ← process_batch_result_decode accept_token is_terminated re_search monotonic sa oc (rb_reqs b) tokens
                   (mkOutState (ls_gen s) (ds_waiting_queue d) (ds_sent_aborts d) (ls_messages s)
                      (ls_num_generated_tokens s) (ls_forward_ct_decode s) (ds_mem d));
    Ok (mkLoopState (set_rb_reqs reqs b) None
          (mkDecodeScheduler (os_queue o) (ds_new_token_ratio d) (ds_new_token_ratio_decay d) (ds_min_new_token_ratio d)
             (ds_num_retracted_reqs d) (os_sent_aborts o) (os_mem o))
          (os_gen o) (os_messages o) (os_num_generated_tokens o) (os_forward_ct_decode o)).

Fixpoint event_loop (envs : list LoopEnv) (s : LoopState) : res LoopState :=
  match envs with
  | [] => Ok s
  | env :: envs' => s ← event_loop_step env s; event_loop envs' s
  end.

(** ** A prefill iteration *)

(** The iteration for a new prefill batch of the admitted requests [reqs], without a chunked request
    and without mixing: [s] is the state after [begin_iteration] and the admission, with which the requests
    left the waiting queue. *)
Definition extend_iteration (attention_backend : string) (vocab_size : Z) (uninit : list Z) (reqs : list DReq)
    (s : LoopState) (infos : gmap nat ExtendInfo) : res (LoopState * gmap nat ExtendInfo) :=
  let d := ls_sched s in
  '(b, _, infos, m) ← prepare_for_extend attention_backend vocab_size uninit reqs infos (ds_mem d);
  let '(tokens, b) := run_batch b in
  '(reqs, running, o) ←
    process_batch_result_prefill accept_token is_terminated re_search monotonic sa oc (rb_reqs b) (rb_reqs (ls_batch s)) None tokens
      (mkOutState (ls_gen s) (ds_waiting_queue d) (ds_sent_aborts d) (ls_messages s)
         (ls_num_generated_tokens s) (ls_forward_ct_decode s) m);
  Ok (mkLoopState (set_rb_reqs running (ls_batch s)) (Some (mkLastBatch (set_rb_reqs reqs b) true None))
        (mkDecodeScheduler (os_queue o) (ds_new_token_ratio d) (ds_new_token_ratio_decay d) (ds_min_new_token_ratio d)
           (ds_num_retracted_reqs d) (os_sent_aborts o) (os_mem o))
        (os_gen o) (os_messages o) (os_num_generated_tokens o) (os_forward_ct_decode o), infos).

(** ** An abort message between two iterations *)

(** [abort_request] of the scheduler: [running] of ResultProc are the requests of the running batch and of the
    current batch, which between two iterations is the last one. *)
Definition handle_abort (m : AbortReq) (s : LoopState) : LoopState :=
  let b := ls_batch s in
  let last_reqs := from_option (λ l, rb_reqs (lb_batch l)) [] (ls_last s) in
  let '(queue, sent, reqs) := abort_request m (ds_waiting_queue (ls_sched s)) (rb_reqs b ++ last_reqs) in
  let n := length (rb_reqs b) in
  mkLoopState (set_rb_reqs (take n reqs) b)
    ((λ l, mkLastBatch (set_rb_reqs (drop n reqs) (lb_batch l)) (lb_is_extend l) (lb_chunked_req l)) <$> ls_last s)
    (with_queue queue sent (ls_sched s)) (ls_gen s) (ls_messages s) (ls_num_generated_tokens s) (ls_forward_ct_decode s).

End loop.
Arguments PauseState F : clear implicits.
Arguments LoopState G F : clear implicits.
