(* ===== verification/LoopProps.v ===== *)
(** * The scheduler loop: composition

    An iteration of [event_loop_normal] without a new prefill batch: timeouts, the decode round of
    DecodeStep, the model worker and the result handler of OutputProps.  One invariant of the
    scheduler state carries through every iteration, so the loop never raises, accounts for every
    request, and drains its batch within the token limits. *)

From S2P Require Import Prelude AllocKernels Allocator RadixKey RadixTree RadixInv RadixMatch RadixProps ReqPool ReqCache.
From S2P Require Import CacheAlloc PyFloat DecodeBatch DecodeMem HandOverMem RetractProps DecodeProps QueueProps DecodeStep.
From S2P Require Import Sampling Finish FinishProps ResultProc ResultProps StreamProps OutputProps EventLoop.

(** ** Batches whose requests changed *)

Definition keeps_columns (r r' : DReq) : Prop :=
  dr_return_logprob r' = dr_return_logprob r
  ∧ (dr_finished r' = false → dr_finished r = false ∧ row_index (dr_req r') = row_index (dr_req r)
                              ∧ rq_kv_committed_len (dr_req r') = rq_kv_committed_len (dr_req r)).

Definition set_rb_output_ids (o : option (list Z)) (b : RunningBatch) : RunningBatch :=
  mkRunningBatch (rb_reqs b) (rb_req_pool_indices b) (rb_seq_lens b) (rb_orig_seq_lens b) (rb_seq_lens_sum b)
    (rb_input_ids b) o (rb_out_cache_loc b) (rb_return_logprob b)
    (rb_top_logprobs_nums b) (rb_token_ids_logprobs b) (rb_has_stream b) (rb_has_grammar b) (rb_batch_is_full b).

Lemma column_keeps (P Q : Z → DReq → Prop) col l l' :
  (∀ v r r', keeps_columns r r' → P v r → Q v r') → Forall2 P col l → Forall2 keeps_columns l l' → Forall2 Q col l'.
Proof.
  intros HPQ H. revert l'. induction H as [|v r col l Hv H IH]; intros l' Hk; inversion Hk; subst; constructor; eauto.
Qed.

Lemma columns_replace b l o :
  columns b → Forall2 keeps_columns (rb_reqs b) l → (∀ o', o = Some o' → pending o' l) →
  columns (set_rb_reqs l (set_rb_output_ids o b)).
Proof.
  intros [C1 C2 C3 C4 C5 C6 C7] Hk Ho. pose proof (Forall2_length _ _ _ Hk) as Hl. split; simpl; try done.
  - eapply column_keeps; [|exact C1|exact Hk]. intros v r r' (_ & K) HP Hf. destruct (K Hf) as (? & -> & _). auto.
  - eapply column_keeps; [|exact C2|exact Hk]. intros v r r' (_ & K) HP Hf. destruct (K Hf) as (? & _ & ->). auto.
  - lia.
  - rewrite C6. clear -Hk. induction Hk as [|r r' l l' [Hr _] _ IH]; [done|]. cbn [existsb]. by rewrite Hr, IH.
  - by rewrite <- Hl.
Qed.

Lemma marked_keeps l l' : Forall2 marked l l' → Forall2 keeps_columns l l'.
Proof. intros H. eapply Forall2_impl; [exact H|]. intros r r' [b ->]. by split. Qed.

Lemma columns_marked b l : Forall2 marked (rb_reqs b) l → columns b → columns (set_rb_reqs l b).
Proof.
  intros Hm Hc. replace (set_rb_reqs l b) with (set_rb_reqs l (set_rb_output_ids (rb_output_ids b) b)) by (by destruct b).
  apply columns_replace; [done|by apply marked_keeps|]. intros o Ho. pose proof (co_output _ Hc o Ho) as Hp. clear -Hp Hm.
  revert l Hm. induction Hp as [|v r o l0 Hv Hp IH]; intros l Hm; inversion Hm as [|? r' ? l' [b0 ->] Hm']; subst; constructor; [done|by apply IH].
Qed.

(** ** Timeouts *)

Lemma running_timeout_marks timeout now entry b :
  ∃ l, abort_on_running_timeout timeout now entry b = set_rb_reqs l b ∧ Forall2 marked (rb_reqs b) l.
Proof.
  assert (Hid : b = set_rb_reqs (rb_reqs b) b) by (by destruct b).
  unfold abort_on_running_timeout. do 2 (case_bool_decide; [exists (rb_reqs b); split; [done|apply marked_refl]|]).
  eexists. split; [done|]. generalize (rb_reqs b). intros k. induction k as [|r k IH]; constructor; [|done].
  destruct (_ && _); [by exists true|done].
Qed.

Lemma waiting_timeout_splits timeout now queue :
  NoDup (map dr_id queue) →
  let '(queue', late) := abort_on_waiting_timeout timeout now queue in
  queue' ++ late ≡ₚ queue ∧ ∀ r, r ∈ late ↔ r ∈ queue ∧ 0 < timeout ∧ 0 < dr_wait_queue_entry_time r < now - timeout.
Proof.
  intros Hnd. unfold abort_on_waiting_timeout. case_bool_decide as Ht.
  { rewrite app_nil_r. split; [done|]. intros r. split; [by intros ?%not_elem_of_nil|lia]. }
  set (late := λ r, bool_decide (0 < dr_wait_queue_entry_time r < now - timeout)). split.
  - assert (Hf : List.filter (λ r, bool_decide (dr_id r ∉ map dr_id (List.filter late queue))) queue
                 = List.filter (λ r, negb (late r)) queue).
    { apply filter_ext_in. intros r Hr. destruct (late r) eqn:El; cbn [negb].
      - apply bool_decide_eq_false. intros Hn. apply Hn. apply list_elem_of_In, in_map, List.filter_In. done.
      - apply bool_decide_eq_true. intros (r' & Hid & [Hr' Hl]%list_elem_of_In%List.filter_In)%list_elem_of_fmap.
        enough (r = r') as -> by congruence. clear -Hnd Hid Hr Hr'. apply list_elem_of_In in Hr, Hr'.
        apply list_elem_of_lookup in Hr as [i Hi]. apply list_elem_of_lookup in Hr' as [j Hj].
        assert (i = j) as -> by (eapply (NoDup_lookup (map dr_id queue)); [done|by erewrite list_lookup_fmap, Hi|];
          erewrite list_lookup_fmap, Hj; cbn; congruence). congruence. }
    rewrite Hf. apply filter_both.
  - intros r. rewrite list_elem_of_In, List.filter_In, <- list_elem_of_In. unfold late. rewrite bool_decide_eq_true. intuition lia.
Qed.

(** ** Merging *)

Lemma merge_batch_output b other b' :
  merge_batch b other = Ok b' → is_Some (rb_output_ids b) → is_Some (rb_output_ids other) → is_Some (rb_output_ids b').
Proof.
  unfold merge_batch. intros Hm [o Ho] [o' Ho']. rewrite Ho, Ho' in Hm. cbn [mbind res_bind] in Hm.
  destruct (match rb_return_logprob b with true => _ | false => _ end) as [[t u]|]; [|done]. inversion Hm. by eexists.
Qed.

Lemma filter_twice {A} (f : A → bool) l : List.filter f (List.filter f l) = List.filter f l.
Proof. induction l as [|x l IH]; [done|]. cbn [List.filter]. destruct (f x) eqn:E; [|exact IH]. cbn [List.filter]. by rewrite E, IH. Qed.

Definition usable (b : RunningBatch) : Prop := rb_reqs b = [] ∨ columns b ∧ is_Some (rb_output_ids b).

Lemma merge_last_ok last running :
  columns last → is_Some (rb_output_ids last) → usable running →
  ∃ b, merge_last_batch None (Some (mkLastBatch last true None)) running = Ok b ∧ usable b
    ∧ live_reqs b = live_reqs running ++ live_reqs last.
Proof.
  intros Hc Ho Hr. unfold merge_last_batch. cbn -[filter_batch merge_batch bool_decide].
  destruct (filter_unfinished last Hc) as (b & Hf & Hb & Hcb). rewrite Hf. cbn [mbind res_bind].
  pose proof (filter_batch_output _ _ _ _ Hf Ho) as Hob. set (run := if bool_decide (length (rb_reqs b) < length (rb_reqs last))%nat then _ else _).
  assert (Hrun : rb_reqs run = rb_reqs running ∧ usable run ∧ live_reqs run = live_reqs running).
  { unfold run. case_bool_decide; [|done]. split_and!; try done. destruct Hr as [E|[C O]]; [by left|right]. split; [by apply set_full_columns|done]. }
  destruct Hrun as (R1 & R2 & R3). assert (Hll : live_reqs b = live_reqs last).
  { unfold live_reqs at 1. rewrite Hb. apply filter_twice. }
  case_bool_decide as E1.
  { exists run. split_and!; [done..|]. apply length_zero_iff_nil in E1. rewrite E1 in Hb. by rewrite <- Hb, app_nil_r. }
  destruct Hcb as [E|Hcb]; [by rewrite E in E1|]. case_bool_decide as E2.
  { exists b. split_and!; [done|by right|]. rewrite Hll. apply length_zero_iff_nil in E2. rewrite R1 in E2. unfold live_reqs at 2. by rewrite E2. }
  destruct R2 as [E|[C O]]; [by rewrite E in E2|].
  destruct (merge_batch_columns run b C Hcb) as (b' & Hm & Hb' & Hc'); [by intros Hn; rewrite Hn in Hob; destruct Hob|].
  exists b'. split; [done|]. split; [right; split; [done|by eapply merge_batch_output]|].
  unfold live_reqs at 1. rewrite Hb', List.filter_app. fold (live_reqs run). fold (live_reqs b). by rewrite R3, Hll.
Qed.

(** ** The invariant *)

(** A request that decodes has one token more than slots, and its token limit fits its row. *)
Record decode_ready (width : Z) (r : DReq) : Prop := {
  dy_committed : rq_kv_committed_len (dr_req r) + 1 = zlen (rq_origin_input_ids (dr_req r) ++ rq_output_ids (dr_req r));
  dy_output : dr_output_len r < dr_max_new_tokens r;
  dy_width : dr_input_len r + dr_max_new_tokens r ≤ width
}.

Lemma ready_can_decode width l : Forall (decode_ready width) l → Forall (can_decode width) (map dr_req l).
Proof.
  intros H. apply Forall_forall. intros q (r & -> & Hr)%list_elem_of_fmap.
  destruct (proj1 (Forall_forall _ _) H r Hr) as [H1 H2 H3]. unfold can_decode, dr_output_len, dr_input_len in *.
  rewrite zlen_app in *. lia.
Qed.

Lemma ready_marked width r r' : marked r r' → decode_ready width r → decode_ready width r'.
Proof. intros [b ->] []. by split. Qed.

(** A request that waits for the token after its last slot. *)
Record token_due (width : Z) (r : DReq) : Prop := {
  td_flag : dr_finished r = false;
  td_committed : rq_kv_committed_len (dr_req r) = zlen (rq_origin_input_ids (dr_req r) ++ rq_output_ids (dr_req r));
  td_width : dr_input_len r + dr_max_new_tokens r ≤ width
}.

Lemma ready_due width r : dr_finished r = false → decode_ready width r → token_due width (count_decode r).
Proof. intros Hf [H1 H2 H3]. by split. Qed.

Lemma due_processed width t r r' :
  token_due width r → processed t r r' → dr_finished r' = false → decode_ready width r'.
Proof.
  intros [H1 H2 H3] [(f & tf & q & Hr') (t' & Ho & _) Hor Hlive] Hf. destruct (Hlive Hf) as [[_ E4] Hlt].
  assert (Hm : dr_max_new_tokens r' = dr_max_new_tokens r) by (by subst r').
  split; [|by rewrite Hm|by unfold dr_input_len in *; rewrite Hor, Hm].
  rewrite E4, Hor, Ho, app_assoc, zlen_app, <- H2. done.
Qed.

(** What a batch is after its tokens. *)
Lemma processed_facts width tokens k reqs' :
  Forall (token_due width) k → Forall3 processed tokens k reqs' →
  Forall2 keeps_columns k reqs' ∧ pending tokens reqs' ∧ map ident reqs' = map ident k ∧ Forall (decode_ready width) (live_of reqs').
Proof.
  intros Hk H3. revert Hk. induction H3 as [|t r r' tokens k reqs' Hp H3 IH]; intros Hk; [split_and!; constructor|].
  apply Forall_cons in Hk as [Hr Hk]. destruct (IH Hk) as (I1 & I2 & I3 & I4).
  pose proof (processed_ident _ _ _ Hp) as Hid. pose proof (pr_shape _ _ _ Hp) as (f & tf & q & Hs). split_and!.
  - constructor; [|done]. split; [by subst r'|]. intros Hf'. destruct (pr_live _ _ _ Hp Hf') as [[E1 E4] _].
    split; [apply Hr|]. unfold row_index. by rewrite E1, E4.
  - constructor; [|done]. intros Hf'. destruct (pr_output _ _ _ Hp) as (t' & -> & Ht'). by rewrite last_snoc, (Ht' Hf').
  - cbn [map]. by rewrite I3, Hid.
  - rewrite live_cons. destruct (dr_finished r') eqn:Ef; [done|]. constructor; [by eapply due_processed|done].
Qed.

Section loop.
Context {G : Type} (accept_token : G → Z → option G) (is_terminated : G → bool) (re_search : text → text → bool).
Context {monotonic : nat → Z} {dfi : bool} {policy : string}.
Context (sa : ServerArgs) (sp : SpecArgs) (qc : QueueConfig) (oc : OutConfig) {F : Type} `{PyNum F}.
Context (Hspec : sa_speculative_algorithm sa = None) (Hstrip : sa_strip_thinking_cache sa = false).
Context (Hov : oc_enable_overlap oc = false) (Hsi : oc_stream_interval oc ≠ 0) (Hfi : oc_force_stream_interval oc ≠ 0).
Context (size width : Z) (ol : list nat) (os orows : list Z) (Hsize : size < 2 ^ 31).
Context (model_worker : RunningBatch → list Z) (Hworker : ∀ b, length (model_worker b) = length (rb_reqs b)).
Context (waiting_timeout running_timeout : Z) (forward_entry_time : nat → Z).
Let inv := batch_inv (monotonic:=monotonic) (dfi:=dfi) (policy:=policy) size width ol os orows.

Definition queue_of (s : LoopState G F) : list DReq := ds_waiting_queue (ls_sched s).

(** The unfinished requests of the running batch and of a prefill batch that has not joined it. *)
Definition running_of (s : LoopState G F) : list DReq :=
  match ls_last s with
  | Some l => live_reqs (ls_batch s) ++ live_reqs (lb_batch l)
  | None => live_reqs (ls_batch s)
  end.

Definition last_ok (last : option LastBatch) : Prop :=
  ∀ l, last = Some l → lb_is_extend l = true ∧ lb_chunked_req l = None ∧ columns (lb_batch l) ∧ is_Some (rb_output_ids (lb_batch l)).

Lemma last_none : last_ok None.
Proof. by intros l Hl. Qed.
Hint Resolve last_none : core.

Record loop_inv (s : LoopState G F) : Prop := {
  li_columns : usable (ls_batch s);
  li_mem : inv (ds_mem (ls_sched s)) (running_of s);
  li_ready : Forall (decode_ready width) (running_of s);
  li_queue : queue_ok qc (queue_of s);
  li_ids : NoDup (map dr_id (running_of s ++ queue_of s));
  li_rids : NoDup (map dr_rid (running_of s ++ queue_of s));
  li_gen : Forall (gen_ok (ls_gen s)) (running_of s);
  li_last : last_ok (ls_last s)
}.

(** Every request is accounted for; those that still run have one more token. *)
Record advanced_to (n : Z) (s s' : LoopState G F) : Prop := {
  at_all : ∃ sent fin, ds_sent_aborts (ls_sched s') = ds_sent_aborts (ls_sched s) ++ sent
    ∧ Forall (λ r, dr_finished r = true) fin
    ∧ map ident (running_of s' ++ queue_of s' ++ sent ++ fin) ≡ₚ map ident (running_of s ++ queue_of s);
  at_longer r' : r' ∈ running_of s' → ∃ r, r ∈ running_of s ∧ ident r' = ident r
    ∧ dr_max_new_tokens r' = dr_max_new_tokens r ∧ dr_output_len r' = dr_output_len r + n
}.

Lemma advanced_refl s : advanced_to 0 s s.
Proof.
  split.
  - exists [], []. rewrite !app_nil_r. done.
  - intros r Hr. exists r. by rewrite Z.add_0_r.
Qed.

Lemma advanced_trans m n s1 s2 s3 : advanced_to m s1 s2 → advanced_to n s2 s3 → advanced_to (m + n) s1 s3.
Proof.
  intros [(t1 & f1 & A1 & A2 & A3) A4] [(t2 & f2 & B1 & B2 & B3) B4]. split.
  - exists (t1 ++ t2), (f1 ++ f2). split; [by rewrite B1, A1, app_assoc|]. split; [by apply Forall_app|].
    rewrite <- A3. rewrite !map_app in *. rewrite (app_assoc (map ident (running_of s2))), <- B3. solve_Permutation.
  - intros r3 Hr3. destruct (B4 r3 Hr3) as (r2 & Hr2 & E1 & E2 & E3). destruct (A4 r2 Hr2) as (r1 & Hr1 & D1 & D2 & D3).
    exists r1. split; [done|]. split_and!; [congruence..|lia].
Qed.

Lemma ident_ids l k : map ident l ≡ₚ map ident k → map dr_id l ≡ₚ map dr_id k ∧ map dr_rid l ≡ₚ map dr_rid k.
Proof.
  intros Hp. split.
  - change (map dr_id) with (map (λ r, fst (ident r))). rewrite <- !(map_map ident fst). by rewrite Hp.
  - change (map dr_rid) with (map (λ r, snd (ident r))). rewrite <- !(map_map ident snd). by rewrite Hp.
Qed.

Lemma perm_parts l k q sent fin :
  map ident (l ++ q ++ sent ++ fin) ≡ₚ map ident k →
  (NoDup (map dr_id k) → NoDup (map dr_id (l ++ q))) ∧ (NoDup (map dr_rid k) → NoDup (map dr_rid (l ++ q))).
Proof.
  intros [Hi Hr]%ident_ids. rewrite app_assoc in Hi, Hr. rewrite <- Hi, <- Hr, !(map_app _ (l ++ q)).
  split; intros Hn; by apply NoDup_app in Hn as (? & _ & _).
Qed.

Lemma marked_live_of l l' : Forall2 marked l l' → Forall2 marked (live_of l) (live_of l').
Proof.
  induction 1 as [|r r' l l' Hr _ IH]; [constructor|]. rewrite !live_cons.
  destruct Hr as [b ->]. cbn [dr_finished set_dr_to_finish]. destruct (dr_finished r); [done|]. constructor; [by exists b|done].
Qed.

Lemma marked_idents l l' : Forall2 marked l l' → map ident l' = map ident l.
Proof. induction 1 as [|r r' l l' [b ->] _ IH]; [done|]. cbn [map]. by rewrite IH. Qed.

Lemma marked_pred (P : DReq → Prop) l l' :
  (∀ r r', marked r r' → P r → P r') → Forall2 marked l l' → Forall P l → Forall P l'.
Proof.
  intros HP. induction 1 as [|r r' l l' Hr _ IH]; intros HF; [constructor|]. inversion HF; subst. constructor; eauto.
Qed.

Lemma inv_marked m l l' : Forall2 marked l l' → inv m l → inv m l'.
Proof.
  intros Hl (c & a & p & held & L & -> & Hm). exists c, a, p, held, L. split; [done|].
  replace (map dr_req l') with (map dr_req l); [done|]. clear -Hl.
  induction Hl as [|r r' l l' [b ->] _ IH]; [done|]. cbn [map]. by rewrite IH.
Qed.

(** ** Timeouts and the merge *)

(** Requests left the queue, others are marked. *)
Lemma trimmed_inv s s' gone :
  loop_inv s → usable (ls_batch s') → last_ok (ls_last s') → Forall2 marked (running_of s) (running_of s') →
  queue_of s' ++ gone ≡ₚ queue_of s → ds_mem (ls_sched s') = ds_mem (ls_sched s) → ls_gen s' = ls_gen s →
  ds_sent_aborts (ls_sched s') = ds_sent_aborts (ls_sched s) ++ gone →
  loop_inv s' ∧ advanced_to 0 s s'.
Proof.
  intros [I1 I2 I3 I4 I5 I6 I7 I8] Hu Hl Hm Hq Em Eg Es.
  assert (Hid : map ident (running_of s' ++ queue_of s' ++ gone ++ []) ≡ₚ map ident (running_of s ++ queue_of s)).
  { by rewrite app_nil_r, (map_app ident (running_of s')), (marked_idents _ _ Hm), Hq, <- map_app. }
  destruct (perm_parts _ _ _ _ _ Hid) as [R1 R2]. split.
  - split; auto.
    + rewrite Em. by eapply inv_marked.
    + eapply marked_pred; [|exact Hm|exact I3]. intros r r'. apply ready_marked.
    + destruct I4 as [W1 W2]. split; [|done]. intros E. specialize (W1 E). rewrite <- Hq in W1. by apply Forall_app in W1 as [? _].
    + rewrite Eg. by eapply gen_ok_marked.
  - split; [by exists gone, []|]. intros r' (i & Hi)%list_elem_of_lookup.
    destruct (Forall2_lookup_r _ _ _ _ _ Hm Hi) as (r & Hr & [b ->]). exists r. rewrite Z.add_0_r. split; [by eapply list_elem_of_lookup_2|done].
Qed.

Lemma begin_iteration_ok env s :
  loop_inv s →
  ∃ s1, begin_iteration waiting_timeout running_timeout forward_entry_time env s = Ok s1
    ∧ ls_last s1 = None ∧ loop_inv s1 ∧ advanced_to 0 s s1.
Proof.
  intros Hi. pose proof Hi as [I1 I2 I3 I4 I5 I6 I7 I8]. unfold begin_iteration.
  pose proof (waiting_timeout_splits waiting_timeout (en_perf_counter env) (queue_of s)) as Hw. unfold queue_of in Hw.
  destruct (abort_on_waiting_timeout _ _ _) as [queue late] eqn:Eq.
  destruct Hw as [Hw _]. { rewrite map_app in I5. by apply NoDup_app in I5 as (_ & _ & ?). }
  destruct (running_timeout_marks running_timeout (en_perf_counter env) forward_entry_time (ls_batch s)) as (l & -> & Hl).
  pose proof (marked_live_of _ _ Hl) as Hlive.
  assert (Hu : usable (set_rb_reqs l (ls_batch s))).
  { destruct I1 as [E|[C O]]; [left; rewrite E in Hl; by inversion Hl|right; split; [by apply columns_marked|done]]. }
  assert (∃ b, merge_last_batch None (ls_last s) (set_rb_reqs l (ls_batch s)) = Ok b ∧ usable b ∧ Forall2 marked (running_of s) (live_reqs b))
    as (b & -> & Hb & Hmb).
  { unfold running_of. destruct (ls_last s) as [[lb ext ch]|]; [|by exists (set_rb_reqs l (ls_batch s))].
    destruct (I8 _ eq_refl) as (L1 & L2 & L3 & L4). cbn in L1, L2. subst ext ch.
    destruct (merge_last_ok lb _ L3 L4 Hu) as (b & Hm & Hub & Hlb). exists b. split_and!; [done..|]. rewrite Hlb.
    apply Forall2_app; [exact Hlive|apply marked_refl]. }
  cbn [mbind res_bind]. eexists. split; [done|]. split; [done|]. by apply (trimmed_inv s _ late).
Qed.

(** ** Choosing the batch *)

(** The batch to run: requests that ran before, each with its new slot, fed with their last tokens. *)
Record launched (s : LoopState G F) (b : RunningBatch) (d : DecodeScheduler F) : Prop := {
  ln_mem : inv (ds_mem d) (rb_reqs b);
  ln_queue : queue_ok qc (ds_waiting_queue d);
  ln_all : ∃ sent, ds_sent_aborts d = ds_sent_aborts (ls_sched s) ++ sent
    ∧ map ident (rb_reqs b ++ ds_waiting_queue d ++ sent) ≡ₚ map ident (running_of s ++ queue_of s);
  ln_batch : rb_reqs b = [] ∨ columns b ∧ ∃ kept, rb_reqs b = map count_decode kept
    ∧ ∀ r, r ∈ kept → dr_finished r = false ∧ r ∈ running_of s;
  ln_input : rb_reqs b = [] ∨ ∃ o, rb_input_ids b = Some o ∧ pending o (rb_reqs b)
}.

Lemma next_batch_launched env s :
  loop_inv s → ls_last s = None →
  ∃ b d, (if bool_decide (length (rb_reqs (ls_batch s)) = 0%nat) then Ok (ls_batch s, ls_sched s)
          else update_running_batch monotonic sa sp qc (en_test_retract env) (en_now env) (en_uninit env) (ls_batch s) (ls_sched s))
         = Ok (b, d) ∧ launched s b d.
Proof.
  intros [I1 I2 I3 I4 I5 I6 I7 I8] Hlast. unfold running_of in *. rewrite Hlast in *. case_bool_decide as He.
  { eexists _, _. split; [done|]. apply length_zero_iff_nil in He. unfold live_reqs in *. rewrite He in *.
    split; rewrite ?He; cbn; try done; [|by left..]. exists []. unfold queue_of, running_of, live_reqs. rewrite Hlast, He, !app_nil_r. done. }
  destruct I1 as [E|[I1 I1']]; [by rewrite E in He|].
  destruct (update_running_round monotonic dfi policy sa sp qc size width ol os orows (en_test_retract env) (en_now env) (en_uninit env)
              (ls_batch s) (ls_sched s) Hspec Hstrip Hsize I1 I2) as (b & d & Hgo & [D1 D2 D3 D4 D5 _]).
  - by apply ready_can_decode.
  - exact I4.
  - by rewrite map_app, Permutation_app_comm, <- map_app.
  - exists b, d. split; [exact Hgo|]. split; unfold running_of; rewrite ?Hlast; try done.
    + apply D3.
    + destruct D4 as [E|(kept & out & E1 & E2 & E3 & _)]; [by left|]. right. split; [done|]. exists kept. split; [done|].
      intros r Hr. specialize (E2 r Hr). split; [by eapply live_unfinished|done].
    + by apply D5.
Qed.

(** ** One iteration *)

(** Where a live request of the new batch comes from. *)
Lemma processed_from tokens kept reqs' r' :
  Forall3 processed tokens (map count_decode kept) reqs' → r' ∈ reqs' →
  ∃ r, r ∈ kept ∧ ident r' = ident r ∧ dr_max_new_tokens r' = dr_max_new_tokens r ∧ dr_output_len r' = dr_output_len r + 1.
Proof.
  intros H3 (i & Hi)%list_elem_of_lookup. destruct (Forall3_lookup_r _ _ _ _ _ _ H3 Hi) as (t & r & _ & Hr & Hp).
  rewrite list_lookup_fmap in Hr. destruct (kept !! i) as [r0|] eqn:E; [|done]. inversion Hr; subst.
  exists r0. split; [by eapply list_elem_of_lookup_2|]. destruct Hp as [(f & tf & q & ->) (t' & Ho & _) _ _].
  split_and!; [done..|]. unfold dr_output_len. rewrite Ho, zlen_app. done.
Qed.

Lemma forall_count (P : DReq → Prop) kept :
  (∀ r, r ∈ kept → P (count_decode r)) → Forall P (map count_decode kept).
Proof. intros HP. apply Forall_forall. intros ? (r & -> & Hr)%list_elem_of_fmap. auto. Qed.

(** Nothing is left to run. *)
Lemma idle_step s b d :
  loop_inv s → launched s b d → rb_reqs b = [] →
  let s' := mkLoopState b None d (ls_gen s) (ls_messages s) (ls_num_generated_tokens s) (ls_forward_ct_decode s) in
  loop_inv s' ∧ advanced_to 1 s s'.
Proof.
  intros [_ _ I3 _ I5 I6 I7 _] [N1 N2 (sent & N3 & N4) N5 N6] He s'. rewrite He in *. cbn [app] in N4.
  assert (N4' : map ident ([] ++ ds_waiting_queue d ++ sent ++ []) ≡ₚ map ident (running_of s ++ queue_of s)) by (by rewrite app_nil_r).
  destruct (perm_parts _ _ _ _ _ N4') as [P1 P2].
  assert (Hr : running_of s' = []) by (unfold running_of, live_reqs; cbn; by rewrite He).
  split; split; rewrite ?Hr; unfold queue_of in *; cbn [s' ls_batch ls_sched]; auto; try done.
  - by left.
  - exists sent, []. rewrite app_nil_r. done.
  - by intros ? ?%not_elem_of_nil.
Qed.

Lemma kept_sources s kept :
  loop_inv s → (∀ r, r ∈ kept → dr_finished r = false ∧ r ∈ running_of s) →
  Forall (decode_ready width) kept ∧ Forall (λ r, dr_finished r = false) kept ∧ ∀ r, r ∈ kept → gen_ok (ls_gen s) r.
Proof.
  intros [_ _ I3 _ _ _ I7 _] Hk. split_and!; [apply Forall_forall; intros r Hr..|intros r Hr]; destruct (Hk r Hr) as (Hf & Hr0).
  - by apply (proj1 (Forall_forall _ _) I3).
  - done.
  - exact (proj1 (Forall_forall _ _) I7 r Hr0).
Qed.

(** The state after the results [o] of a batch. *)
Definition after_results (b : RunningBatch) (reqs : list DReq) (d : DecodeScheduler F) (o : OutState G) : LoopState G F :=
  mkLoopState (set_rb_reqs reqs b) None
    (mkDecodeScheduler (os_queue o) (ds_new_token_ratio d) (ds_new_token_ratio_decay d) (ds_min_new_token_ratio d)
       (ds_num_retracted_reqs d) (os_sent_aborts o) (os_mem o))
    (os_gen o) (os_messages o) (os_num_generated_tokens o) (os_forward_ct_decode o).

Definition out_state (s : LoopState G F) (d : DecodeScheduler F) : OutState G :=
  mkOutState (ls_gen s) (ds_waiting_queue d) (ds_sent_aborts d) (ls_messages s)
    (ls_num_generated_tokens s) (ls_forward_ct_decode s) (ds_mem d).

Lemma results_step s b d kept reqs' o :
  loop_inv s → launched s b d → columns b → rb_reqs b = map count_decode kept →
  (∀ r, r ∈ kept → dr_finished r = false ∧ r ∈ running_of s) →
  handled (monotonic:=monotonic) (dfi:=dfi) (policy:=policy) size width ol os orows (model_worker b) (rb_reqs b) reqs' (out_state s d) o →
  let s' := after_results (run_batch model_worker b).2 reqs' d o in loop_inv s' ∧ advanced_to 1 s s'.
Proof.
  intros Hi [N1 N2 (sent & N3 & N4) N5 N6] Hcol Hb Hk [P1 P2 P3 P4 (sent' & E5 & Hq5) P6 P7] s'.
  destruct (kept_sources s kept Hi Hk) as (K1 & K2 & K3). destruct Hi as [_ _ I3 _ I5 I6 I7 _]. rewrite Hb in P1, N4.
  destruct (processed_facts width (model_worker b) (map count_decode kept) reqs') as (Q1 & Q2 & Q3 & Q4); [|done|].
  { apply forall_count. intros r Hr. apply ready_due; [by apply (proj1 (Forall_forall _ _) K2)|by apply (proj1 (Forall_forall _ _) K1)]. }
  cbn [out_state os_sent_aborts os_queue] in E5, Hq5.
  set (fin := List.filter dr_finished reqs').
  assert (Hall : map ident (live_of reqs' ++ os_queue o ++ (sent ++ sent') ++ fin) ≡ₚ map ident (running_of s ++ queue_of s)).
  { rewrite <- N4. rewrite (map_app ident (map count_decode kept)), (map_map count_decode). change (map (λ r, ident (count_decode r)) kept) with (map ident kept).
    assert (Hsp : map ident reqs' ≡ₚ map ident (live_of reqs' ++ fin)) by (symmetry; apply Permutation_map, filter_both).
    rewrite (map_map count_decode) in Q3. change (map (λ r, ident (count_decode r)) kept) with (map ident kept) in Q3.
    rewrite <- Q3, Hsp, <- Hq5, !map_app. solve_Permutation. }
  destruct (perm_parts _ _ _ _ _ Hall) as [R1 R2].
  split; split; unfold queue_of, running_of in *; cbn [s' after_results ls_batch ls_sched ls_gen ds_waiting_queue ds_mem ds_sent_aborts]; auto; try done.
  - right. split; [|by eexists]. rewrite <- Hb in Q1. pose proof (columns_replace b reqs' (Some (model_worker b)) Hcol Q1) as Hc.
    apply Hc. by intros ? [= <-].
  - destruct N2 as [W1 W2]. split; [|done]. intros E. specialize (W1 E). rewrite <- Hq5 in W1. by apply Forall_app in W1 as [? _].
  - apply Forall_forall. intros r Hr. apply (proj1 (Forall_forall _ _) P3). apply list_elem_of_In, List.filter_In, proj1, list_elem_of_In in Hr. done.
  - exists (sent ++ sent'), fin. split; [by rewrite E5, N3, app_assoc|]. split; [|done].
    apply Forall_forall. intros r Hr%list_elem_of_In. by apply List.filter_In in Hr as [_ ?].
  - intros r' Hr'. apply list_elem_of_In, List.filter_In, proj1, list_elem_of_In in Hr'.
    destruct (processed_from _ _ _ _ P1 Hr') as (r & Hr & E1 & E2 & E3). destruct (Hk r Hr) as (_ & Hr0).
    exists r. done.
Qed.

Lemma event_step_ok env s0 :
  loop_inv s0 →
  ∃ s', event_loop_step accept_token is_terminated re_search monotonic sa sp qc oc model_worker
          waiting_timeout running_timeout forward_entry_time env s0 = Ok s' ∧ loop_inv s' ∧ advanced_to 1 s0 s'.
Proof.
  intros Hi0. destruct (begin_iteration_ok env s0 Hi0) as (s & Hs & Hlast & Hi & Ha0).
  destruct (next_batch_launched env s Hi Hlast) as (b & d & Hgo & Hl).
  assert (Hnext : get_next_batch_to_run monotonic sa sp qc waiting_timeout running_timeout forward_entry_time env s0 = Ok (b, d, s)).
  { unfold get_next_batch_to_run. rewrite Hs. cbn [mbind res_bind]. destruct (bool_decide _); [by inversion Hgo|]. by rewrite Hgo. }
  unfold event_loop_step. rewrite Hnext. cbn [mbind res_bind].
  assert (Hcut : ∀ x, (∃ s', x = Ok s' ∧ loop_inv s' ∧ advanced_to 1 s s') → ∃ s', x = Ok s' ∧ loop_inv s' ∧ advanced_to 1 s0 s').
  { intros x (s' & Hx & Hi' & Ha'). exists s'. split_and!; [done..|]. change 1 with (0 + 1). by eapply advanced_trans. }
  apply Hcut. clear Hgo Hcut.
  case_bool_decide as He.
  { apply length_zero_iff_nil in He. eexists. split; [done|]. by apply idle_step. }
  pose proof Hl as [N1 _ (sent & _ & N4) N5 _]. destruct N5 as [E|(Hcol & kept & Hb & Hk)]; [by rewrite E in He|].
  destruct (kept_sources s kept Hi Hk) as (_ & K2 & K3).
  assert (Hnd : NoDup (map dr_id (rb_reqs b))).
  { pose proof (li_ids _ Hi) as I5. apply ident_ids in N4 as [N4 _]. rewrite <- N4, map_app in I5. by apply NoDup_app in I5 as (? & _ & _). }
  destruct (process_decode_handled (monotonic:=monotonic) (dfi:=dfi) (policy:=policy) accept_token is_terminated re_search sa Hspec Hstrip
              size width ol os orows oc (rb_reqs b) (model_worker b) (out_state s d)) as (reqs' & o & Hproc & Hh); try done.
  { rewrite Hb. apply forall_count. intros r Hr. exact (proj1 (Forall_forall _ _) K2 r Hr). }
  { rewrite Hb. apply forall_count. exact K3. }
  unfold run_batch. cbn [rb_reqs]. unfold out_state in Hproc. rewrite Hproc. cbn [mbind res_bind]. eexists. split; [done|].
  by apply (results_step s b d kept).
Qed.

Lemma event_loop_ok envs : ∀ s,
  loop_inv s →
  ∃ s', event_loop accept_token is_terminated re_search monotonic sa sp qc oc model_worker
          waiting_timeout running_timeout forward_entry_time envs s = Ok s' ∧ loop_inv s' ∧ advanced_to (zlen envs) s s'.
Proof.
  induction envs as [|env envs IH]; intros s Hi; cbn [event_loop].
  { exists s. split; [done|]. split; [done|apply advanced_refl]. }
  destruct (event_step_ok env s Hi) as (s1 & -> & Hi1 & Ha1). cbn [mbind res_bind].
  destruct (IH s1 Hi1) as (s2 & Hgo & Hi2 & Ha2). exists s2. split; [done|]. split; [done|].
  rewrite zlen_cons, Z.add_comm. by eapply advanced_trans.
Qed.


End loop.
