(* ===== verification/LoopDemo.v ===== *)
(** * The loop, concretely

    The two requests of DecodeDemo with a limit of four tokens: the first iteration retracts one of them,
    the other one generates until its limit, and its slots go to the tree.  The witnesses of
    the result side. *)

From S2P Require Import Prelude AllocKernels Allocator RadixKey RadixTree RadixInv RadixMatch RadixEvict RadixProps.
From S2P Require Import ReqPool ReqCache CacheAlloc PyFloat DecodeBatch DecodeMem HandOverMem RetractProps DecodeProps QueueProps.
From S2P Require Import DecodeStep DecodeDemo Sampling Finish FinishProps ResultProc ResultProps StreamProps OutputProps.
From S2P Require Import EventLoop LoopProps.

(** A grammar over tokens: it refuses the token 99 and ends with the token 98. *)
Definition loop_accept (g : bool) (t : Z) : option bool :=
  if bool_decide (t = 99) then None else Some (bool_decide (t = 98)).
Definition loop_terminated (g : bool) : bool := g.
Definition loop_search (regex s : text) : bool := contains regex s.

Definition loop_req (r : DReq) : DReq :=
  mkDReq (dr_id r) (dr_rid r) 4 false false false false true false 0 0 false false 0 0 0 1 1 (dr_req r).

Definition loop_reqs : list DReq := map loop_req [run_r1; run_r2].

Definition loop_fin (input : list Z) : FinReq :=
  mkFinReq input [] 4 false [] [] [] 0 0 [50] 100 None None [] None None None None None [] 0.

Definition loop_gen_state (input : list Z) (g : option bool) : GenState bool :=
  mkGenState (loop_fin input) g false false false None false 0 0.

Definition loop_gen : gmap nat (GenState bool) :=
  {[ 1%nat := loop_gen_state [7; 8] None; 2%nat := loop_gen_state [7] (Some false) ]}.

Definition loop_batch : RunningBatch := set_rb_reqs loop_reqs DecodeDemo.run_batch.

Definition loop_sched : DecodeScheduler Qc :=
  mkDecodeScheduler [run_waiting] (Qc_ofZ 1) (Qc_ofZ 0) (Qc_ofZ 0) 0 [] run_mem.

Definition loop_start : LoopState bool Qc := mkLoopState loop_batch None loop_sched loop_gen [] 0 0.
Definition loop_config : OutConfig := mkOutConfig false None 1 50.
Definition loop_env : LoopEnv := mkLoopEnv false (λ _, 9) 100 [].
Definition loop_worker (b : RunningBatch) : list Z := map (λ r, 60 + Z.of_nat (dr_id r)) (rb_reqs b).

Lemma loop_gen_ok : Forall (gen_ok loop_gen) loop_reqs.
Proof. repeat constructor; eexists; (split; [vm_compute; reflexivity|]); (split; [by left|done]). Qed.

Lemma loop_start_inv :
  loop_inv (monotonic:=demo_clock) (dfi:=false) (policy:="lru") run_queue 5 6 [] [] [] loop_start.
Proof.
  split.
  - right. split; [|by eexists]. split; try done; [by repeat constructor|by repeat constructor|].
    intros o [= <-]. by repeat constructor.
  - exact run_inv.
  - repeat constructor; vm_compute; congruence.
  - exact run_queue_ok.
  - apply (bool_decide_unpack _). vm_compute. exact I.
  - apply (bool_decide_unpack _). vm_compute. exact I.
  - exact loop_gen_ok.
  - done.
Qed.

(** Three iterations: the rest of the retracted request waits, the other one has four tokens. *)
Example loop_run :
  match event_loop loop_accept loop_terminated loop_search demo_clock run_args run_spec run_queue loop_config loop_worker
          0 0 (λ _, 1) [loop_env; loop_env; loop_env] loop_start with
  | Ok s => (map dr_rid (running_of s), map dr_rid (queue_of s), map dr_rid (ds_sent_aborts (ls_sched s)),
             map (map sm_output_ids) (ls_messages s))
            = ([], ["a"], ["w"], [[[5; 6; 62]]; [[62]]])
  | Raise _ => False
  end.
Proof. vm_compute. reflexivity. Qed.



(** ** Streaming *)

Definition stream_req : DReq :=
  mkDReq 1 "s" 4 false false false false true false 0 0 false false 0 0 0 0 0
    (mkReq [7; 8] [] [7; 8] None None false 0 0 2 2 false false (Some 1) [] (Some 0%nat) 0).

Definition stream_steps : list (Z * bool * option bool) := map (λ t, (t, false, None)) [60; 61; 50; 62].

(** The token 50 is the end of the sequence: three tokens are sent, the last one with the reason. *)
Example stream_run :
  match life loop_terminated loop_search 2 50 None stream_req (loop_gen_state [7; 8] None) stream_steps with
  | Ok (msgs, r, x) => (map sm_output_ids msgs, map sm_decode_ids msgs, dr_finished r)
                       = ([[60]; [61; 50]], [[7; 8; 60]; [61; 50]], true)
  | Raise _ => False
  end.
Proof. vm_compute. reflexivity. Qed.

Lemma stream_exact_witness :
  let x := loop_gen_state [7; 8] None in
  ∃ msgs r' x', life loop_terminated loop_search 2 50 None stream_req x stream_steps = Ok (msgs, r', x')
    ∧ Forall (λ m, sm_rid m = "s") msgs
    ∧ final_reason (dr_finished r') msgs
    ∧ (if dr_finished r' then output_of msgs = visible r' x' else output_of msgs `prefix_of` rq_output_ids (dr_req r'))
    ∧ decode_ids_of msgs = (if bool_decide (msgs = []) then [] else (fr_input_ids (gs_fin x))⟨surr_of (gs_fin x):⟩) ++ output_of msgs
    ∧ (if dr_finished r'
       then ∃ k t', (k < 4)%nat ∧ rq_output_ids (dr_req r') = take k (map (λ s, s.1.1) stream_steps) ++ [t']
       else rq_output_ids (dr_req r') = map (λ s, s.1.1) stream_steps)
    ∧ (0 < 4 → 4 ≤ 4 → dr_finished r' = true).
Proof.
  intros x. refine (stream_exact loop_terminated loop_search 2 50 None stream_req x stream_steps _ _).
  - split; [done|done|done|by left].
  - split; [done|by left].
Defined.

(** Aborting by id takes every request whose id begins with it. *)
Example abort_by_prefix :
  map dr_to_finish (abort_request (mkAbortReq "req-1" false) []
    [mkDReq 1 "req-1" 4 false false false false true false 0 0 false false 0 0 0 0 0 (dr_req (loop_req run_r1));
     mkDReq 2 "req-10" 4 false false false false true false 0 0 false false 0 0 0 0 0 (dr_req (loop_req run_r2))]).2
  = [true; true].
Proof. reflexivity. Qed.
