(* ===== verification/ExtendProps.v ===== *)
(** * The prefill batch: memory

    [prepare_for_extend] on admitted requests: each gets a row, its slots and what it needs to hold in
    the sense of DecodeMem, and its input ids are the tokens whose slots are new. *)

From S2P Require Import Prelude AllocKernels Allocator RadixKey RadixTree RadixInv RadixMatch RadixEvict RadixProps ReqPool ReqCache.
From S2P Require Import CacheAlloc DecodeBatch DecodeMem HandOverMem RetractProps DecodeProps ExtendBatch.

Lemma Forall2_impl_in {A B} (P Q : A → B → Prop) l k :
  (∀ x y, x ∈ l → P x y → Q x y) → Forall2 P l k → Forall2 Q l k.
Proof.
  intros HPQ H. induction H as [|x y l k Hxy H IH]; constructor; [apply HPQ; [by left|done]|].
  apply IH. intros x' y' Hx'. apply HPQ. by right.
Qed.

(** ** The written table *)

Definition row_nat (w : write_req) : nat := Z.to_nat (wr_idx w).

Lemma written_table_ext rows : ∀ out table i,
  i ∉ map row_nat rows → written_table rows out table !! i = table !! i.
Proof.
  induction rows as [|w rows IH]; intros out table i Hi; [done|]. cbn [written_table map] in *.
  rewrite IH by set_solver. apply list_lookup_alter_ne. set_solver.
Qed.

(** Each row is the prefix and its part of the new slots. *)
Lemma written_rows rows : ∀ out table,
  NoDup (map row_nat rows) → Forall (λ w, 0 ≤ wr_extend_len w ∧ (row_nat w < length table)%nat) rows →
  sumZ (map wr_extend_len rows) = zlen out →
  ∃ news, concat news = out
    ∧ Forall2 (λ w new, zlen new = wr_extend_len w ∧ ∃ row, table !! row_nat w = Some row
        ∧ written_table rows out table !! row_nat w = Some (written_row w new row)) rows news.
Proof.
  induction rows as [|w rows IH]; intros out table Hnd Hok Hs.
  { exists []. split; [|constructor]. symmetry. by apply zlen_0. }
  cbn [map] in Hnd. apply NoDup_cons in Hnd as [Hn Hnd]. inversion Hok as [|? ? [H0 Hlt] Hok']; subst. cbn [map sumZ] in Hs.
  set (n := Z.to_nat (wr_extend_len w)).
  assert (Hnn : 0 ≤ sumZ (map wr_extend_len rows)).
  { apply sumZ_nonneg, Forall_fmap. eapply Forall_impl; [exact Hok'|]. by intros v [? _]. }
  destruct (IH (drop n out) (alter (written_row w (take n out)) (row_nat w) table) Hnd) as (news & Hc & H2).
  { eapply Forall_impl; [exact Hok'|]. intros v [? ?]. by rewrite length_alter. }
  { rewrite zlen_drop. lia. }
  exists (take n out :: news). cbn [concat]. rewrite Hc, take_drop. split; [done|]. constructor.
  - split; [rewrite zlen_take; lia|]. destruct (lookup_lt_is_Some_2 table (row_nat w) Hlt) as [row Hrow]. exists row.
    split; [done|]. cbn [written_table]. rewrite written_table_ext by done.
    change (Z.to_nat (wr_idx w)) with (row_nat w). by rewrite list_lookup_alter_eq, Hrow.
  - eapply Forall2_impl_in; [|exact H2]. intros v new Hv (Hz & row & Hrow & Hw). split; [done|]. exists row. split; [|done].
    rewrite list_lookup_alter_ne in Hrow; [done|]. intros E. apply Hn. rewrite E. by apply list_elem_of_fmap_2.
Qed.

(** ** Admitted requests *)

Section extend.
Context {monotonic : nat → Z} {dfi : bool} {policy : string}.
Context (size width : Z) (Hsize : size < 2 ^ 31) (Hwidth : 0 ≤ width).
Let mem := batch_mem (monotonic:=monotonic) (dfi:=dfi) (policy:=policy) true size width.

(** A request that was matched, locked and, if it is continued, has a row: its prefix is the one of its
    node, and its tokens up to [fill_ids] fit into a row. *)
Record admitted (c : RadixCache) (q : Req) : Prop := {
  ad_node : rq_last_node q = Some (node_of q);
  ad_path : path c (node_of q) (take (length (rq_prefix_indices q)) (qunits (full_key q))) (rq_prefix_indices q);
  ad_protected : rq_cache_protected_len q = zlen (rq_prefix_indices q);
  ad_fill : rq_fill_ids q `prefix_of` rq_origin_input_ids q ++ rq_output_ids q;
  ad_lens : zlen (rq_prefix_indices q) ≤ zlen (rq_fill_ids q) ≤ width;
  ad_freed : rq_kv_committed_freed q = false ∧ rq_kv_overallocated_freed q = false
}.

(** A row is only kept by a request that is continued. *)
Definition continued (q : Req) : Prop := 0 < rq_is_chunked q ∨ 0 < rq_kv_committed_len q.

(** The request once its slots are committed. *)
Definition committed_req (q : Req) : Req :=
  set_rq_kv_allocated_len (zlen (rq_fill_ids q)) (set_rq_kv_committed_len (zlen (rq_fill_ids q)) q).

Definition extend_len (q : Req) : Z := zlen (rq_fill_ids q) - zlen (rq_prefix_indices q).

Definition write_of (q : Req) : write_req :=
  mkWrite (row_index q) (rq_prefix_indices q) (zlen (rq_prefix_indices q)) (zlen (rq_fill_ids q)) (extend_len q).

(** Its row holds the prefix, the new slots and whatever was behind them. *)
Lemma committed_holds c p q i new row :
  admitted c q → rq_req_pool_idx q = Some i → pool_row p (Some i) = Ok row →
  Forall slot32 (rq_prefix_indices q) → Forall slot32 new → zlen new = extend_len q →
  ∀ p', pool_row p' (Some i) = Ok (written_row (write_of q) new row) →
  holds c p' (committed_req q) ∧ private_slots p' (committed_req q) = new.
Proof.
  intros [A1 A2 A3 A4 A5 [A6 A6']] Hi Hrow H32 H32' Hz p' Hp'. unfold written_row in Hp'. cbn [write_of wr_prefix wr_seq_len] in Hp'.
  rewrite !map_int32_id in Hp' by done.
  assert (Hr : row_of p' (committed_req q) = rq_prefix_indices q ++ new ++ drop (Z.to_nat (zlen (rq_fill_ids q))) row).
  { unfold row_of. cbn. by rewrite Hi, Hp'. }
  assert (Hlp : Z.to_nat (zlen (rq_prefix_indices q)) = length (rq_prefix_indices q)) by (unfold zlen; lia).
  assert (Hlf : Z.to_nat (zlen (rq_fill_ids q)) = length (rq_prefix_indices q ++ new))
    by (rewrite length_app; unfold extend_len, zlen in *; lia).
  split.
  - split; try done; rewrite ?Hr.
    + cbn. by rewrite Hi, Hp'.
    + cbn. rewrite A3. split; [apply zlen_nonneg|lia].
    + cbn. destruct A4 as [k ->]. rewrite zlen_app. pose proof (zlen_nonneg k). lia.
    + cbn. rewrite app_assoc, zlen_app, zlen_app. unfold extend_len in Hz. pose proof (zlen_nonneg (drop (Z.to_nat (zlen (rq_fill_ids q))) row)). lia.
    + cbn [rq_cache_protected_len committed_req set_rq_kv_allocated_len set_rq_kv_committed_len]. rewrite A3, Hlp, take_app_length. exact A2.
  - unfold private_slots. rewrite Hr. cbn [rq_cache_protected_len rq_kv_committed_len committed_req set_rq_kv_allocated_len set_rq_kv_committed_len].
    rewrite A3, Hlf, app_assoc, take_app_length, Hlp. by rewrite drop_app_length.
Qed.

Lemma admitted_row c q i : admitted c q → admitted c (set_rq_req_pool_idx i q).
Proof. intros [A1 A2 A3 A4 A5 A6]. by split. Qed.

Lemma zip_write_of rs :
  zip_write rs (map (λ q, zlen (rq_prefix_indices q)) rs) (map (λ q, zlen (rq_fill_ids q)) rs) (map extend_len rs) = map write_of rs.
Proof. induction rs as [|q rs IH]; [done|]. cbn [zip_write map]. by rewrite IH. Qed.

(** Allocation with an eviction before it. *)
Lemma alloc_evicting ol os orows c a p held L l n :
  mem ol os orows c a p held L l → 0 ≤ n ≤ TokenToKVPoolAllocator_available_size a + rc_evictable_size c →
  ∃ out c' a' a2 L',
    alloc_token_slots (Radix c) (TokenPool a) n false = Ok (out, None, Radix c', TokenPool a2)
    ∧ mem ol os orows c' a' p held L' l ∧ zlen out = n ∧ Forall slot32 out
    ∧ is_not_in_free_group a2 = true ∧ al_page_size a2 = 1
    ∧ token_inv size (a2, out ++ tree_slots c' L' ++ concat (map (private_slots p) l) ++ os)
    ∧ config c' = config c ∧ ∀ m us vs, m ∈ rc_root c :: held → path c m us vs → path c' m us vs.
Proof.
  intros Hm Hn. destruct (batch_mem_evict size width ol os orows c a p held L l n Hm)
    as (c' & a' & L' & Hev & Hm' & Hsum & Hen & Hcfg & Hpath).
  assert (Hfit : 0 ≤ n ≤ TokenToKVPoolAllocator_available_size a') by (destruct Hen; lia).
  destruct (alloc_fits size width ol os orows Hsize c' a' p held L' l n Hm' Hfit) as (out & a2 & Ha & Hz & H32 & Hg & Hpg & Hi).
  exists out, c', a', a2, L'. split_and!; try done. rewrite <- Ha. unfold alloc_token_slots. rewrite Hev. cbn [mbind res_bind].
  unfold evict_from_tree_cache. cbn [pool_available_size]. rewrite bool_decide_false by lia. done.
Qed.

(** A pool with the same table. *)
Lemma mem_same_table ol os orows orows' c a p p1 held L l :
  rp_req_to_token p1 = rp_req_to_token p → rp_size p1 = rp_size p → rp_max_context_len p1 = rp_max_context_len p →
  rp_free_slots p1 ++ orows' ≡ₚ rp_free_slots p ++ orows →
  mem ol os orows c a p held L l → mem ol os orows' c a p1 held L l.
Proof.
  intros Ht Hs Hw Hf [B1 B2 B3 B4 B5 B6 B7 B8 B9 B10 B11].
  assert (Hp : ∀ i, pool_row p1 i = pool_row p i) by (intros i; unfold pool_row; by rewrite Ht).
  assert (Hr : map (private_slots p1) l = map (private_slots p) l).
  { apply map_ext. intros q. unfold private_slots. by rewrite (row_of_eq p p1 q). }
  split; try done; rewrite ?Hr, ?Ht, ?Hs, ?Hw; try done.
  - eapply Forall_impl; [exact B8|]. intros q. by apply holds_pool.
  - rewrite <- B9. rewrite (Permutation_app_comm (map row_index l)), app_assoc, Hf. solve_Permutation.
Qed.

Lemma rows_index rs : Forall (λ r, rq_req_pool_idx r ≠ None) rs → rows rs = map row_index rs.
Proof.
  induction 1 as [|r rs Hr _ IH]; [done|]. unfold rows in *. cbn [omap list_omap map]. unfold row_index at 1.
  destruct (rq_req_pool_idx r); [|done]. cbn. by rewrite IH.
Qed.

(** The rows of the new requests are distinct, exist, and are nobody else's. *)
Lemma new_rows ol os orows c a p held L l rs :
  mem ol os (map row_index rs ++ orows) c a p held L l →
  NoDup (map row_nat (map write_of rs)) ∧ Forall (λ q, 0 ≤ row_index q < zlen (rp_req_to_token p)) rs
  ∧ ∀ q r, q ∈ l → r ∈ rs → row_index q ≠ row_index r.
Proof.
  intros [_ _ _ _ _ _ _ _ B9 _ [B11 _]].
  assert (Hn : NoDup (seqZ 1 (rp_size p))) by apply NoDup_seqZ. rewrite <- B9 in Hn.
  assert (Hin : ∀ q, q ∈ rs → 1 ≤ row_index q ≤ rp_size p).
  { intros q Hq. assert (H : row_index q ∈ seqZ 1 (rp_size p)); [|apply elem_of_seqZ in H; lia].
    rewrite <- B9, !elem_of_app. right. right. left. by apply list_elem_of_fmap_2. }
  apply NoDup_app in Hn as (_ & _ & Hn). apply NoDup_app in Hn as (_ & Hdis & Hn). apply NoDup_app in Hn as (Hn & _ & _).
  split_and!.
  - rewrite map_map. change (λ x, row_nat (write_of x)) with (λ x, Z.to_nat (row_index x)).
    clear -Hn Hin. induction rs as [|q rs IH]; [constructor|]. cbn [map] in *. apply NoDup_cons in Hn as [Hq Hn]. constructor.
    + intros (r & E & Hr)%list_elem_of_fmap. apply Hq, list_elem_of_fmap. exists r. split; [|done].
      pose proof (Hin q ltac:(by left)). pose proof (Hin r ltac:(by right)). lia.
    + apply IH; [done|]. intros r Hr. apply Hin. by right.
  - apply Forall_forall. intros q Hq. specialize (Hin q Hq). lia.
  - intros q r Hq Hr E. apply (Hdis (row_index q)); [by apply list_elem_of_fmap_2|].
    rewrite E. apply elem_of_app. left. by apply list_elem_of_fmap_2.
Qed.

Lemma prefix_slot32 ol os orows c a p held L l q :
  mem ol os orows c a p held L l → admitted c q → Forall slot32 (rq_prefix_indices q).
Proof.
  intros Hm Ha. apply Forall_forall. intros s Hs. eapply mem_slot32; [exact Hm|done|].
  apply elem_of_app. left. eapply path_slots; [apply Hm|apply (ad_path _ _ Ha)|done].
Qed.

Lemma write_of_ok p c q : admitted c q → rp_max_context_len p = width → 0 ≤ row_index q < zlen (rp_req_to_token p) →
  write_ok (rp_max_context_len p) (zlen (rp_req_to_token p)) (write_of q).
Proof. intros Ha Hw Hr. rewrite Hw. split; cbn; try done. apply Ha. Qed.

Lemma pool_row_lookup p i row : 0 ≤ i → pool_row p (Some i) = Ok row ↔ rp_req_to_token p !! Z.to_nat i = Some row.
Proof.
  intros Hi. unfold pool_row, py_get. rewrite bool_decide_true by lia. destruct (rp_req_to_token p !! Z.to_nat i); naive_solver.
Qed.

(** What the new requests hold once their rows are written. *)
Lemma written_holds c p q0 out rs table' :
  Forall (admitted c) rs → Forall (λ r, rq_req_pool_idx r ≠ None) rs → Forall (λ q, Forall slot32 (rq_prefix_indices q)) rs →
  Forall (λ q, 0 ≤ row_index q) rs → Forall slot32 (concat out) →
  Forall2 (λ w new, zlen new = wr_extend_len w ∧ ∃ row, rp_req_to_token p !! row_nat w = Some row
             ∧ table' !! row_nat w = Some (written_row w new row)) (map write_of rs) out →
  q0 = with_table p table' →
  Forall (holds c q0) (map committed_req rs) ∧ concat (map (private_slots q0) (map committed_req rs)) = concat out
  ∧ Forall (λ q, zlen (private_slots q0 (committed_req q)) = extend_len q) rs.
Proof.
  intros H1 H2 H3 H4 H5 HF ->. remember (map write_of rs) as ws eqn:E. revert rs E H1 H2 H3 H4.
  induction HF as [|w new ws out (Hz & row & Hrow & Hw) HF IH]; intros [|q rs] E H1 H2 H3 H4; try done.
  inversion E; subst. inversion H1; inversion H2 as [|? ? Hq2 ?]; inversion H3; inversion H4; subst. cbn [concat] in H5.
  apply Forall_app in H5 as [H5 H5t]. destruct (IH H5t rs eq_refl) as (I1 & I2 & I3); [done..|].
  destruct (rq_req_pool_idx q) as [i|] eqn:Ei; [|done].
  assert (Hri : row_index q = i) by (unfold row_index; by rewrite Ei). unfold row_nat in Hrow, Hw. cbn [write_of wr_idx] in Hrow, Hw.
  rewrite Hri in *. destruct (committed_holds c p q i new row) with (p' := with_table p table') as [C1 C2]; try done.
  - by apply pool_row_lookup.
  - by apply pool_row_lookup.
  - split; [by constructor|]. cbn [map concat]. split; [by rewrite C2, I2|]. constructor; [by rewrite C2|done].
Qed.

(** The other requests keep their rows. *)
Lemma unwritten_rows c p rs l out :
  Forall (λ q, 0 ≤ row_index q < zlen (rp_req_to_token p)) rs → (∀ q r, q ∈ l → r ∈ rs → row_index q ≠ row_index r) →
  Forall (holds c p) l →
  let p' := with_table p (written_table (map write_of rs) out (rp_req_to_token p)) in
  Forall (holds c p') l ∧ map (private_slots p') l = map (private_slots p) l.
Proof.
  intros Hb Hdis Hh p'.
  assert (Hkeep : ∀ q, q ∈ l → pool_row p' (rq_req_pool_idx q) = pool_row p (rq_req_pool_idx q)).
  { intros q Hq. pose proof (ho_row _ _ _ (proj1 (Forall_forall _ _) Hh q Hq)) as Hrow.
    destruct (rq_req_pool_idx q) as [j|] eqn:Ej; [|done]. unfold pool_row, p'. cbn [with_table rp_req_to_token set_rp_req_to_token].
    unfold py_get. case_bool_decide as Hj; [|done]. rewrite written_table_ext; [done|].
    rewrite map_map. intros (r & E & Hr)%list_elem_of_fmap. apply (Hdis q r Hq Hr).
    pose proof (proj1 (Forall_forall _ _) Hb r Hr). unfold row_nat in E. cbn in E. unfold row_index at 1. rewrite Ej. cbn in *. lia. }
  split.
  - apply Forall_forall. intros q Hq. apply (holds_pool c p p' q (Hkeep q Hq)). by apply (proj1 (Forall_forall _ _) Hh).
  - apply map_ext_in. intros q Hq%list_elem_of_In. unfold private_slots. by rewrite (row_of_eq p p' q) by auto.
Qed.

Lemma extend_write ol os orows c a p held L l rs out a2 backend :
  mem (concat (map (locks_of c) rs) ++ ol) os (map row_index rs ++ orows) c a p held L l →
  Forall (admitted c) rs → Forall (λ r, rq_req_pool_idx r ≠ None) rs →
  zlen out = sumZ (map extend_len rs) → Forall slot32 out → is_not_in_free_group a2 = true → al_page_size a2 = 1 →
  token_inv size (a2, out ++ tree_slots c L ++ concat (map (private_slots p) l) ++ os) →
  ∃ p', write_cache_indices backend out (map write_of rs) p = Ok p'
    ∧ concat (map (private_slots p') (map committed_req rs)) = out
    ∧ Forall (λ q, zlen (private_slots p' (committed_req q)) = extend_len q) rs
    ∧ mem ol os orows c a2 p' held L (map committed_req rs ++ l).
Proof.
  intros Hm Ha Hs Hz H32 Hg Hpg Hi. destruct (new_rows _ _ _ _ _ _ _ _ _ _ Hm) as (Hnd & Hb & Hdis).
  assert (Hp32 : Forall (λ q, Forall slot32 (rq_prefix_indices q)) rs).
  { eapply Forall_impl; [exact Ha|]. intros q. by eapply prefix_slot32. }
  destruct Hm as [B1 B2 B3 B4 B5 B6 B7 B8 B9 B10 [B11 B12]].
  assert (Hsum : map wr_extend_len (map write_of rs) = map extend_len rs) by (by rewrite map_map).
  exists (with_table p (written_table (map write_of rs) out (rp_req_to_token p))). split.
  { apply write_cache_indices_equiv; [by rewrite B12|by rewrite B12| |by rewrite Hsum, Hz].
    apply Forall_fmap, Forall_forall. intros q Hq. eapply write_of_ok; [by apply (proj1 (Forall_forall _ _) Ha)|done|].
    by apply (proj1 (Forall_forall _ _) Hb). }
  set (p' := with_table p _).
  destruct (written_rows (map write_of rs) out (rp_req_to_token p)) as (news & <- & HF); [done| |by rewrite Hsum|].
  { apply Forall_fmap, Forall_forall. intros q Hq. cbn. destruct (proj1 (Forall_forall _ _) Hb q Hq).
    pose proof (ad_lens _ _ (proj1 (Forall_forall _ _) Ha q Hq)). unfold extend_len, row_nat, zlen in *. cbn. lia. }
  destruct (written_holds c p p' news rs (written_table (map write_of rs) (concat news) (rp_req_to_token p)) Ha Hs Hp32) as (W1 & W2 & W3); [by eapply Forall_impl; [exact Hb|]; intros q []|done|done|done|].
  split; [done|]. split; [done|].
  destruct (unwritten_rows c p rs l (concat news) Hb Hdis B8) as [K1 K2]. fold p' in K1, K2.
  split; try done.
  - rewrite map_app, concat_app. rewrite (map_map committed_req), B3. change (map (λ x, locks_of c (committed_req x)) rs) with (map (locks_of c) rs).
    solve_Permutation.
  - rewrite map_app, concat_app, W2, K2. eapply token_inv_perm; [|exact Hi]. solve_Permutation.
  - by apply Forall_app.
  - rewrite map_app, (map_map committed_req). change (map (λ x, row_index (committed_req x)) rs) with (map row_index rs).
    cbn [p' with_table rp_free_slots rp_size set_rp_req_to_token]. rewrite <- B9. solve_Permutation.
  - apply (written_table_ok width); [done| |by rewrite Hsum, Hz]. rewrite <- B12. apply Forall_fmap, Forall_forall. intros q Hq.
    eapply write_of_ok; [by apply (proj1 (Forall_forall _ _) Ha)|done|]. by apply (proj1 (Forall_forall _ _) Hb).
  - split; [|done]. unfold zlen in *. cbn [p' with_table rp_req_to_token rp_size set_rp_req_to_token]. by rewrite written_table_len.
Qed.

(** ** The allocation *)

Lemma with_rows_maps (news rs : list Req) :
  Forall2 (λ r r', r' = set_rq_req_pool_idx (rq_req_pool_idx r') r) news rs →
  map (λ q, zlen (rq_prefix_indices q)) rs = map (λ q, zlen (rq_prefix_indices q)) news
  ∧ map (λ q, zlen (rq_fill_ids q)) rs = map (λ q, zlen (rq_fill_ids q)) news
  ∧ map extend_len rs = map extend_len news ∧ (∀ c, map (locks_of c) rs = map (locks_of c) news)
  ∧ ∀ c, Forall (admitted c) news → Forall (admitted c) rs.
Proof.
  induction 1 as [|q q' news rs Hq _ (I1 & I2 & I3 & I4 & I5)]; [done|]. rewrite Hq. cbn [map].
  split_and!; [by rewrite I1|by rewrite I2|by rewrite I3|intros c; by rewrite I4|].
  intros c Ha. inversion Ha; subst. constructor; [by apply admitted_row|auto].
Qed.

Definition new_batch (news : list Req) : ScheduleBatch :=
  mkScheduleBatch news (map (λ q, zlen (rq_prefix_indices q)) news) (map extend_len news) (sumZ (map extend_len news))
    (map (λ q, zlen (rq_fill_ids q)) news) [] None.

Lemma admitted_keeps c c' held news ol l :
  config c' = config c → held ≡ₚ concat (map (locks_of c) l) ++ concat (map (locks_of c) news) ++ ol →
  (∀ m us vs, m ∈ rc_root c :: held → path c m us vs → path c' m us vs) →
  Forall (admitted c) news → Forall (admitted c') news.
Proof.
  intros Hcfg Hh Hp Ha. apply Forall_forall. intros q Hq. destruct (proj1 (Forall_forall _ _) Ha q Hq) as [A1 A2 A3 A4 A5 A6].
  split; try done. apply Hp; [|done]. destruct (decide (node_of q = rc_root c)) as [E|E]; [rewrite E; by left|]. right.
  rewrite Hh, !elem_of_app. right. left. apply list_elem_of_In, in_concat. exists (locks_of c q).
  split; [by apply in_map, list_elem_of_In|]. unfold locks_of, lock. rewrite bool_decide_false by done. by left.
Qed.

Lemma alloc_extend_ok ol os orows c a p held L running news uninit backend :
  mem (concat (map (locks_of c) news) ++ ol) os (rows news ++ orows) c a p held L running →
  Forall (admitted c) news → Forall continued (reusing news) →
  zlen news - zlen (reusing news) ≤ zlen (rp_free_slots p) →
  sumZ (map extend_len news) ≤ TokenToKVPoolAllocator_available_size a + rc_evictable_size c →
  ∃ out rs c' a' p' L',
    alloc_for_extend backend (new_batch news) (Radix c) (TokenPool a) p uninit = Ok (out, rs, Radix c', TokenPool a', p')
    ∧ Forall2 (λ r r', r' = set_rq_req_pool_idx (rq_req_pool_idx r') r) news rs
    ∧ concat (map (private_slots p') (map committed_req rs)) = out
    ∧ Forall (λ q, zlen (private_slots p' (committed_req q)) = extend_len q) rs
    ∧ mem ol os orows c' a' p' held L' (map committed_req rs ++ running).
Proof.
  intros Hm Ha Hcont Hrows Hfit. unfold alloc_for_extend, alloc_req_slots, new_batch. cbn [ba_reqs ba_extend_num_tokens ba_prefix_lens ba_seq_lens ba_extend_lens].
  pose proof (pool_alloc_ok p news Hcont) as Hpa. rewrite bool_decide_false in Hpa by lia.
  destruct Hpa as (rs & p1 & -> & Hs & Ht & Hpr & Hnn & Hmx & Hrs). cbn [mbind res_bind oom].
  destruct (with_rows_maps news rs Hrs) as (M1 & M2 & M3 & M4 & M5). rewrite (rows_index rs Hnn) in Hpr.
  apply (mem_same_table _ _ _ (map row_index rs ++ orows) _ _ _ p1) in Hm; [|done..|].
  2:{ rewrite !app_assoc, (Permutation_app_comm (rp_free_slots p1)), (Permutation_app_comm (rp_free_slots p)). by f_equiv. }
  assert (Hpos : 0 ≤ sumZ (map extend_len news)).
  { apply sumZ_nonneg, Forall_fmap. eapply Forall_impl; [exact Ha|]. intros q Hq. pose proof (ad_lens _ _ Hq). unfold extend_len. cbn. lia. }
  destruct (alloc_evicting _ _ _ _ _ _ _ _ _ (sumZ (map extend_len news)) Hm ltac:(lia))
    as (out & c' & a' & a2 & L' & Hgo & Hm' & Hz & H32 & Hg & Hpg & Hi & Hcfg & Hpath).
  rewrite (bool_decide_true (cache_page_size (Radix c) = 1)) by apply (bm_mode _ _ _ _ _ _ _ _ _ _ _ _ Hm).
  rewrite Hgo. cbn [mbind res_bind].
  rewrite <- M1, <- M2, <- M3, zip_write_of.
  destruct (extend_write ol os orows c' a' p1 held L' running rs out a2 backend) as (p' & -> & Hout & Hlen & Hm2); try done.
  - rewrite (map_locks_config c c'), M4 by done. exact Hm'.
  - apply (admitted_keeps c c' held rs ol running Hcfg); [|exact Hpath|by apply M5]. rewrite M4. apply (bm_held _ _ _ _ _ _ _ _ _ _ _ _ Hm).
  - by rewrite M3.
  - cbn [mbind res_bind]. eexists _, _, c', a2, p', L'. done.
Qed.

End extend.

(** ** The batch *)

Section prepare.
Context {monotonic : nat → Z} {dfi : bool} {policy : string}.
Context (size width : Z) (Hsize : size < 2 ^ 31) (Hwidth : 0 ≤ width) (ol : list nat) (os orows : list Z).
Let mem := batch_mem (monotonic:=monotonic) (dfi:=dfi) (policy:=policy) true size width.
Let inv := batch_inv (monotonic:=monotonic) (dfi:=dfi) (policy:=policy) size width ol os orows.

Definition reqs_of (reqs : list DReq) : list Req := map dr_req reqs.

(** The requests [reqs] were admitted beside [running]: each is matched and locked, a continued one has
    its row, and rows and slots for all of them are there or can be evicted. *)
Definition admission (m : Mem) (reqs running : list DReq) : Prop :=
  ∃ c a p held L, m = mkMem (Radix c) (TokenPool a) p
    ∧ mem (concat (map (locks_of c) (reqs_of reqs)) ++ ol) os (rows (reqs_of reqs) ++ orows) c a p held L (reqs_of running)
    ∧ Forall (admitted width c) (reqs_of reqs) ∧ Forall continued (reusing (reqs_of reqs))
    ∧ Forall (λ r, dr_extend_input_len r = extend_len (dr_req r)) reqs
    ∧ zlen reqs - zlen (reusing (reqs_of reqs)) ≤ zlen (rp_free_slots p)
    ∧ sumZ (map extend_len (reqs_of reqs)) ≤ TokenToKVPoolAllocator_available_size a + rc_evictable_size c.

Lemma new_ids_len c r : admitted width c (dr_req r) → zlen (new_ids r) = extend_len (dr_req r).
Proof.
  intros Ha. pose proof (ad_lens _ _ _ Ha). unfold new_ids, extend_len, prefix_len. pose proof (zlen_nonneg (rq_prefix_indices (dr_req r))).
  rewrite slice_from_drop, zlen_drop by lia. lia.
Qed.

Lemma extend_view_new c reqs :
  Forall (admitted width c) (reqs_of reqs) → Forall (λ r, dr_extend_input_len r = extend_len (dr_req r)) reqs →
  extend_view reqs = new_batch (reqs_of reqs).
Proof.
  intros Ha He. unfold extend_view, new_batch, reqs_of. rewrite !map_map. f_equal.
  - clear Ha. induction He as [|r reqs Hr _ IH]; [done|]. cbn [map]. by rewrite Hr, IH.
  - unfold reqs_of in Ha. clear He. induction reqs as [|r reqs IH]; [done|]. cbn [map concat sumZ] in *. inversion Ha; subst.
    rewrite zlen_app, (new_ids_len c r), IH by done. done.
Qed.

(** The loop over the requests and their rows. *)
Lemma extend_requests_ok reqs : ∀ qs infos,
  length qs = length reqs → Forall (λ r, dr_extend_input_len r = extend_len (dr_req r)) reqs →
  Forall (λ r, is_Some (infos !! dr_id r)) reqs →
  ∃ ids infos', extend_requests (zip reqs qs) infos = Ok (zip_with extended qs reqs, ids, infos').
Proof.
  induction reqs as [|r reqs IH]; intros [|q qs] infos Hl He Hx; try done; [by eexists _, _|].
  apply Forall_cons in He as [Hr He']. apply Forall_cons in Hx as [[x Hx'] Hx2]. cbn [zip zip_with extend_requests].
  rewrite bool_decide_true by (unfold seq_len, prefix_len; rewrite Hr; unfold extend_len; lia). cbn [py_assert mbind res_bind].
  rewrite Hx'. cbn [mbind res_bind].
  destruct (IH qs (<[dr_id r := if dr_retracted_stain r then x else count_cached r x]> infos)) as (ids & infos' & ->);
    [simpl in Hl; lia|done| |].
  { eapply Forall_impl; [exact Hx2|]. intros r' Hr'. destruct (decide (dr_id r = dr_id r')) as [->|Hne];
      [rewrite lookup_insert_eq; by eexists|by rewrite lookup_insert_ne]. }
  cbn [mbind res_bind]. by eexists _, _.
Qed.

(** The batch: the requests with what they hold, in their order; the input ids and the new slots, which
    belong to them position by position. *)
Record extended_batch (reqs running : list DReq) (b : RunningBatch) (x : ExtendFields) (m : Mem) : Prop := {
  eb_mem : inv m (rb_reqs b ++ running);
  eb_columns : columns b;
  eb_reqs : Forall2 (λ r r', ∃ i, r' = extended (set_rq_req_pool_idx i (dr_req r)) r) reqs (rb_reqs b);
  eb_input : rb_input_ids b = Some (concat (map new_ids reqs));
  eb_slots : rb_out_cache_loc b = Some (concat (map (private_slots (me_pool m)) (reqs_of (rb_reqs b))));
  eb_pairs : Forall2 (λ r r', zlen (private_slots (me_pool m) (dr_req r')) = zlen (new_ids r)) reqs (rb_reqs b);
  eb_output : rb_output_ids b = None;
  eb_lens : xf_extend_num_tokens x = sumZ (xf_extend_lens x)
}.

Lemma zip_extended (qs : list Req) (reqs : list DReq) :
  Forall2 (λ r r', r' = set_rq_req_pool_idx (rq_req_pool_idx r') r) (reqs_of reqs) qs →
  reqs_of (zip_with extended qs reqs) = map committed_req qs
  ∧ Forall2 (λ r r', ∃ i, r' = extended (set_rq_req_pool_idx i (dr_req r)) r) reqs (zip_with extended qs reqs)
  ∧ existsb dr_return_logprob (zip_with extended qs reqs) = existsb dr_return_logprob reqs.
Proof.
  remember (reqs_of reqs) as k eqn:E. intros H. revert reqs E.
  induction H as [|q q' k qs Hq H IH]; intros [|r reqs] E; try done. inversion E; subst.
  destruct (IH reqs eq_refl) as (I1 & I2 & I3). cbn [zip_with reqs_of map existsb] in *. fold (reqs_of (zip_with extended qs reqs)).
  split_and!.
  - rewrite <- I1. f_equal. unfold committed_req, seq_len. cbn. by rewrite Hq.
  - constructor; [|done]. exists (rq_req_pool_idx q'). by rewrite <- Hq.
  - by rewrite I3.
Qed.

Lemma extended_columns reqs qs ids out x tops tids hs hg full :
  Forall2 (λ r r', r' = set_rq_req_pool_idx (rq_req_pool_idx r') r) (reqs_of reqs) qs → length x = length reqs →
  (existsb dr_return_logprob reqs = true → ∃ t u, tops = Some t ∧ tids = Some u ∧ length t = length reqs ∧ length u = length reqs) →
  columns (mkRunningBatch (zip_with extended qs reqs) (map row_index (reqs_of (zip_with extended qs reqs))) (map seq_len reqs)
             x (sumZ (map seq_len reqs)) ids None out (existsb dr_return_logprob reqs) tops tids hs hg full).
Proof.
  intros Hq Hx Htops. destruct (zip_extended qs reqs Hq) as (Z1 & Z2 & Z3). pose proof (Forall2_length _ _ _ Z2) as Hl. split; simpl; try done.
  - clear. induction (zip_with extended qs reqs) as [|r l IH]; constructor; [done|exact IH].
  - unfold column. clear -Z2. induction Z2 as [|r r' l l' [i ->] _ IH]; constructor; [done|exact IH].
  - lia.
  - intros E. destruct (Htops E) as (t & u & -> & -> & Ht & Hu). exists t, u. split_and!; try done; lia.
Qed.

Lemma new_slot_lens c p (reqs : list DReq) qs :
  Forall2 (λ r r', r' = set_rq_req_pool_idx (rq_req_pool_idx r') r) (reqs_of reqs) qs → Forall (admitted width c) (reqs_of reqs) →
  Forall (λ q, zlen (private_slots p (committed_req q)) = extend_len q) qs →
  Forall2 (λ r r', zlen (private_slots p (dr_req r')) = zlen (new_ids r)) reqs (zip_with extended qs reqs).
Proof.
  remember (reqs_of reqs) as k eqn:E. intros H. revert reqs E.
  induction H as [|q q' k qs Hq H IH]; intros [|r reqs] E Ha Hl; try done. inversion E; subst.
  apply Forall_cons in Ha as [Ha Ha']. apply Forall_cons in Hl as [Hl Hl']. cbn [zip_with]. constructor; [|by apply IH].
  rewrite (new_ids_len c r Ha). replace (dr_req (extended q' r)) with (committed_req q'); [rewrite Hl, Hq; done|].
  unfold committed_req, seq_len. cbn. by rewrite Hq.
Qed.

Lemma prepare_extend_batch backend vocab_size uninit reqs running infos m :
  admission m reqs running → Forall (λ r, is_Some (infos !! dr_id r)) reqs →
  ∃ b x infos' m', prepare_for_extend backend vocab_size uninit reqs infos m = Ok (b, x, infos', m')
    ∧ extended_batch reqs running b x m'.
Proof.
  intros (c & a & p & held & L & -> & Hm & Ha & Hcont & He & Hrows & Hfit) Hx. unfold prepare_for_extend.
  cbn [me_tree me_kv me_pool]. rewrite (extend_view_new c reqs Ha He).
  destruct (alloc_extend_ok size width Hsize Hwidth ol os orows c a p held L (reqs_of running) (reqs_of reqs) uninit backend Hm Ha Hcont)
    as (out & qs & c' & a' & p' & L' & -> & Hqs & Hout & Hlen & Hm'); [unfold reqs_of, zlen in *; by rewrite length_map|done|].
  cbn [mbind res_bind]. pose proof (Forall2_length _ _ _ Hqs) as Hlq. unfold reqs_of in Hlq. rewrite length_map in Hlq.
  destruct (extend_requests_ok reqs qs infos) as (ids & infos' & ->); [done..|]. cbn [mbind res_bind].
  destruct (zip_extended qs reqs Hqs) as (Z1 & Z2 & Z3). eexists _, _, _, _. split; [done|].
  split; cbn [rb_reqs rb_input_ids rb_out_cache_loc rb_output_ids xf_extend_num_tokens xf_extend_lens me_pool]; try done.
  - exists c', a', p', held, L'. split; [done|]. rewrite map_app. change (map dr_req (zip_with extended qs reqs)) with (reqs_of (zip_with extended qs reqs)).
    rewrite Z1. exact Hm'.
  - apply extended_columns; [exact Hqs|apply length_map|]. change (rb_return_logprob (init_new reqs)) with (existsb dr_return_logprob reqs).
    intros ->. eexists _, _. split_and!; try done; rewrite length_map, length_zip_with; lia.
  - by rewrite Z1, Hout.
  - by apply (new_slot_lens c).
  - pose proof (extend_view_new c reqs Ha He) as Hv. pose proof (f_equal ba_extend_num_tokens Hv) as V1. pose proof (f_equal ba_extend_lens Hv) as V2.
    cbn in V1, V2. congruence.
Qed.

(** C9: preparing a prefill batch of admitted requests never raises, evicting from the tree if it must: every
    request, new or continued, has a row that holds its cached prefix followed by its new slots, the
    input ids of the batch are the tokens behind the prefixes and its new slots are those of the
    requests, position by position; the columns are those of the requests; and slots, rows and locks
    are partitioned between the tree, these requests, the running ones and the free lists. *)
Theorem prepare_for_extend_ok backend vocab_size uninit reqs running infos m :
  admission m reqs running → Forall (λ r, is_Some (infos !! dr_id r)) reqs →
  ∃ b x infos' m', prepare_for_extend backend vocab_size uninit reqs infos m = Ok (b, x, infos', m')
    ∧ extended_batch reqs running b x m'.
Proof. apply prepare_extend_batch. Qed.

End prepare.
