(* ===== verification/PrefillOut.v ===== *)
(** * The prefill handler

    [process_batch_result_prefill] of ResultProc on a batch of ExtendProps: a request whose prompt is
    complete gets its first token and hands its prompt over to the tree, finished or not; a chunked
    one gets nothing and stays as it is. *)

From S2P Require Import Prelude AllocKernels Allocator RadixKey RadixTree RadixInv RadixMatch RadixProps ReqPool ReqCache.
From S2P Require Import CacheAlloc DecodeBatch DecodeMem HandOverMem RetractProps DecodeProps QueueProps.
From S2P Require Import Sampling Finish FinishProps ResultProc ResultProps StreamProps OutputProps.

Section prefill.
Context {G : Type} (accept_token : G → Z → option G) (is_terminated : G → bool) (re_search : text → text → bool).
Context {monotonic : nat → Z} {dfi : bool} {policy : string}.
Context (sa : ServerArgs) (Hspec : sa_speculative_algorithm sa = None) (Hstrip : sa_strip_thinking_cache sa = false).
Context (size width : Z) (ol : list nat) (os orows : list Z) (Hsize : size < 2 ^ 31).
Let gmem := group_mem (monotonic:=monotonic) (dfi:=dfi) (policy:=policy) size width ol os orows true.

(** A request of a prefill batch: its committed tokens are its [fill_ids]. *)
Record prefill_ready (r : DReq) : Prop := {
  py_flags : dr_finished r = false ∧ dr_is_retracted r = false;
  py_fill : rq_fill_ids (dr_req r) = committed_tokens (dr_req r);
  py_len : rq_kv_committed_len (dr_req r) ≤ zlen (rq_origin_input_ids (dr_req r) ++ rq_output_ids (dr_req r))
}.

Definition dec_chunk (r : DReq) : DReq := set_dr_req (set_rq_is_chunked (rq_is_chunked (dr_req r) - 1) (dr_req r)) r.

Definition prefilled (t : Z) (r r' : DReq) : Prop :=
  if bool_decide (rq_is_chunked (dr_req r) ≤ 0) then processed t r r' else marked (dec_chunk r) r'.

#[export] Instance prefilled_marking : Marking prefilled.
Proof.
  split; unfold prefilled.
  - intros t r r1 r2 [b ->] Hp. cbn [dr_req set_dr_to_finish] in Hp. case_bool_decide; [by eapply marked_processed; [exists b|]|].
    destruct Hp as [b' ->]. by exists b'.
  - intros t r r1 r2 Hp Hm. case_bool_decide; [by eapply processed_marked|by etrans].
  - intros t r r'. case_bool_decide; [apply mk_id|]. by intros [b ->].
Qed.

Lemma extended_fill r q1 : prefill_ready r → extends_req (dr_req r) q1 → rq_fill_ids q1 = committed_tokens q1.
Proof.
  intros [_ Hf Hl] [E1 E2 E3 E4 _ _ _ _ E9 [k E10] ->]. rewrite Hf. unfold committed_tokens.
  rewrite E4, E9, E10, app_assoc. symmetry. apply take_app_le. unfold zlen in *. lia.
Qed.

Lemma group_mem_head m q q' l l' :
  extends_req q q' → gmem m l → map dr_req l = q :: l' → ∃ c a p held L, m = mkMem (Radix c) (TokenPool a) p
    ∧ batch_mem (monotonic:=monotonic) (dfi:=dfi) (policy:=policy) true size width ol os orows c a p held L (q' :: l').
Proof.
  intros He (c & a & p & held & L & -> & Hm) E. rewrite E in Hm. exists c, a, p, held, L. split; [done|]. by eapply batch_mem_extend.
Qed.

(** An unfinished request hands its prompt over and keeps what it holds. *)
Lemma cache_unfinished_kept m r r1 l :
  gmem m (r :: l) → extends_req (dr_req r) (dr_req r1) → rq_fill_ids (dr_req r1) = committed_tokens (dr_req r1) →
  ∃ q m2, ('(t, k, p, q) ← maybe_cache_unfinished_req monotonic (me_tree m) (me_kv m) (me_pool m) (dr_req r1) false;
           Ok (set_dr_req q r1, mkMem t k p)) = Ok (set_dr_req q r1, m2)
    ∧ rq_output_ids q = rq_output_ids (dr_req r1) ∧ rq_origin_input_ids q = rq_origin_input_ids (dr_req r1)
    ∧ rq_req_pool_idx q = rq_req_pool_idx (dr_req r1) ∧ rq_kv_committed_len q = rq_kv_committed_len (dr_req r1)
    ∧ gmem m2 (set_dr_req q r1 :: l).
Proof.
  intros Hm He Hfill. destruct (group_mem_head m (dr_req r) (dr_req r1) (r :: l) (map dr_req l) He Hm eq_refl)
    as (c & a & p & held & L & -> & Hm'). unfold maybe_cache_unfinished_req. cbn [me_tree me_kv me_pool].
  destruct (rq_skip_radix_cache_insert (dr_req r1)).
  { cbn [mbind res_bind]. eexists (dr_req r1), _. split; [done|]. split_and!; try done. by exists c, a, p, held, L. }
  assert (Hidx : ∃ i, rq_req_pool_idx (dr_req r1) = Some i).
  { pose proof (bm_reqs _ _ _ _ _ _ _ _ _ _ _ _ Hm') as Hh. inversion Hh as [|? ? Hq _]; subst.
    pose proof (ho_row _ _ _ Hq) as Hrow. destruct (rq_req_pool_idx (dr_req r1)) as [i|]; [by exists i|done]. }
  destruct Hidx as [i Hi].
  destruct (batch_mem_unfinished size width ol os orows true c a p held L (dr_req r1) i (map dr_req l) false Hm' Hi Hfill Hsize)
    as (c' & a' & p' & n & row & held' & L' & -> & Hm2). cbn [mbind res_bind].
  eexists _, _. split; [done|]. split_and!; try done. by exists c', a', p', held', L'.
Qed.

(** A finished request hands everything over. *)
Lemma release_finished_kept m r r1 l :
  gmem m (r :: l) → extends_req (dr_req r) (dr_req r1) → dr_finished r1 = true →
  ∃ q m2, release_finished monotonic sa r1 m = Ok (set_dr_req q r1, m2)
    ∧ rq_output_ids q = rq_output_ids (dr_req r1) ∧ rq_origin_input_ids q = rq_origin_input_ids (dr_req r1) ∧ gmem m2 l.
Proof.
  intros Hm He Hf. destruct (handle_finished_ok sa Hspec Hstrip size width ol os orows true m r r1 l Hm He) as (r2 & m2 & q & Hgo & -> & E1 & E2 & _ & Hm2).
  unfold handle_finished_req in Hgo. rewrite Hf in Hgo, Hm2. by exists q, m2.
Qed.

(** ** One request *)

Lemma live_middle ds r ts others : dr_finished r = false →
  map dr_req (live_of (ds ++ r :: ts) ++ others) ≡ₚ map dr_req (r :: live_of (ds ++ ts) ++ others).
Proof.
  intros Hf. rewrite !live_app, live_cons, Hf. cbn [map]. rewrite !map_app. cbn [map]. solve_Permutation.
Qed.

(** The memory after a request with all its tokens, finished or not. *)
Lemma prefill_settles r r1 t m l :
  gmem m (r :: l) → prefill_ready r → processed t r r1 → extends_req (dr_req r) (dr_req r1) →
  ∃ r2 m2,
    (if dr_finished r1 then release_finished monotonic sa r1 m
     else '(t, k, p, q) ← maybe_cache_unfinished_req monotonic (me_tree m) (me_kv m) (me_pool m) (dr_req r1) false;
          Ok (set_dr_req q r1, mkMem t k p)) = Ok (r2, m2)
    ∧ processed t r r2 ∧ dr_finished r2 = dr_finished r1 ∧ gmem m2 (if dr_finished r1 then l else r2 :: l).
Proof.
  intros Hm Hr Hp He.
  assert (Hset : ∀ q, rq_output_ids q = rq_output_ids (dr_req r1) → rq_origin_input_ids q = rq_origin_input_ids (dr_req r1) →
    (dr_finished r1 = false → rq_req_pool_idx q = rq_req_pool_idx (dr_req r1) ∧ rq_kv_committed_len q = rq_kv_committed_len (dr_req r1)) →
    processed t r (set_dr_req q r1)).
  { intros q E1 E2 E3. destruct Hp as [(f & tf & q0 & ->) P2 P3 P4]. split; cbn in *; [by eexists _, _, _|by rewrite E1|by rewrite E2|].
    intros E. destruct (E3 E) as [-> ->]. unfold dr_output_len in *. cbn in *. rewrite E1. by apply P4. }
  destruct (dr_finished r1) eqn:Ef.
  - destruct (release_finished_kept m r r1 l Hm He Ef) as (q & m2 & -> & E1 & E2 & Hm2). eexists _, _. split; [done|]. split_and!; [by apply Hset|done|done].
  - destruct (cache_unfinished_kept m r r1 l Hm He) as (q & m2 & -> & E1 & E2 & E3 & E4 & Hm2); [by eapply extended_fill|].
    eexists _, _. split; [done|]. split_and!; [by apply Hset|done|done].
Qed.

Lemma prefill_result_ok think tokens others s skip ds r ts t :
  rs_reqs s = ds ++ r :: ts → NoDup (map dr_id (rs_reqs s)) → Forall (gen_ok (rs_gen s)) (rs_reqs s) →
  prefill_ready r → tokens !! length ds = Some t → gmem (rs_mem s) (live_of (rs_reqs s) ++ others) →
  ∃ s' skip', prefill_result accept_token is_terminated re_search monotonic sa think tokens None (s, skip) (length ds) = Ok (s', skip')
    ∧ stepped prefilled s s' t ds r ts ∧ gmem (rs_mem s') (live_of (rs_reqs s') ++ others).
Proof.
  intros Hreqs Hnd Hgen Hr Ht Hm. pose proof Hr as [[Hf Hre] _ _]. unfold prefill_result, item, gen_of.
  rewrite Hreqs, list_lookup_middle by done. cbn [mbind res_bind]. rewrite Ht, Hf, Hre. cbn [orb].
  assert (Hgr : gen_ok (rs_gen s) r) by (apply (proj1 (Forall_forall _ _) Hgen); rewrite Hreqs; set_solver).
  destruct Hgr as (x & Hx & Hd & Hfx). rewrite Hx. cbn [mbind res_bind].
  assert (Hm1 : gmem (rs_mem s) (r :: live_of (ds ++ ts) ++ others)).
  { eapply group_mem_perm; [|exact Hm]. rewrite Hreqs. by apply live_middle. }
  destruct (decide (rq_is_chunked (dr_req r) ≤ 0)) as [Hc|Hc]; [rewrite bool_decide_true by done|rewrite bool_decide_false by done].
  - destruct (append_token_ok is_terminated re_search think t r x Hd ltac:(congruence)) as (r1 & x1 & -> & Hp & He & (Hd1 & Hf1) & _).
    cbn [mbind res_bind]. destruct (prefill_settles r r1 t (rs_mem s) _ Hm1 Hr Hp He) as (r2 & m2 & Hgo & Hp2 & Hf2 & Hm2).
    cbn [mbind res_bind] in Hgo. rewrite Hgo. cbn [mbind res_bind].
    destruct (set_and_accept accept_token re_search sa Hspec Hstrip orows s ds r ts r2 x1 m2 t t Hreqs Hnd Hgen Hp2 Hd1 ltac:(congruence)) as (s' & -> & Hst & Hms & Hlive).
    cbn [mbind res_bind]. exists s', skip. split; [done|]. split.
    + destruct Hst as [S1 S2 S3 S4 S5]. split; try done. unfold prefilled. rewrite bool_decide_true by done. exact S1.
    + rewrite Hms. eapply group_mem_perm; [|exact Hm2]. rewrite (map_app dr_req (live_of (rs_reqs s'))), Hlive.
      rewrite !live_app, live_cons, Hf2. destruct (dr_finished r1); cbn [map]; rewrite !map_app; [done|]. cbn [map]. solve_Permutation.
  - set (r2 := dec_chunk r). exists (rs_set (length ds) r2 x (rs_mem s) s), (Some (dr_id r2)). split; [done|].
    assert (Hr2 : rs_reqs (rs_set (length ds) r2 x (rs_mem s) s) = ds ++ r2 :: ts).
    { cbn. rewrite Hreqs, insert_app_r_alt, Nat.sub_diag by lia. done. }
    assert (Hk : ∀ r', gen_ok (rs_gen s) r' → gen_ok (<[dr_id r := x]> (rs_gen s)) r').
    { intros r'. by apply gen_ok_same_fin with x. }
    split; [split|].
    + exists ds, r2, ts. split; [done|]. split; [apply marked_refl|]. split; [|apply marked_refl].
      unfold prefilled. rewrite bool_decide_false by done. done.
    + apply marked_refl.
    + rewrite Hr2. rewrite Hreqs in Hgen. apply Forall_app in Hgen as [G1 G2]. apply Forall_cons in G2 as [_ G2].
      apply Forall_app. split; [by eapply Forall_impl; [exact G1|]; exact Hk|]. constructor; [|by eapply Forall_impl; [exact G2|]; exact Hk].
      exists x. split; [apply lookup_insert_eq|]. done.
    + intros r' _ Hg. by apply Hk.
    + exists []. by rewrite !app_nil_r.
    + rewrite Hr2. cbn [rs_mem rs_set]. eapply group_mem_perm; [symmetry; by apply live_middle|].
      destruct (group_mem_head (rs_mem s) (dr_req r) (dr_req r2) _ _ ltac:(by split) Hm1 eq_refl) as (c & a & p & held & L & E & Hm2).
      by exists c, a, p, held, L.
Qed.

(** ** The handler *)

(** After the results of a prefill batch. *)
Record prefill_handled (tokens : list Z) (reqs reqs' others running running' : list DReq) (s s' : OutState G) : Prop := {
  ph_reqs : Forall3 prefilled tokens reqs reqs';
  ph_running : Forall2 marked running running';
  ph_mem : gmem (os_mem s') (live_of reqs' ++ others);
  ph_gen : Forall (gen_ok (os_gen s')) reqs';
  ph_others r : dr_id r ∉ map dr_id reqs → gen_ok (os_gen s) r → gen_ok (os_gen s') r;
  ph_queue : ∃ sent, os_sent_aborts s' = os_sent_aborts s ++ sent ∧ os_queue s' ++ sent ≡ₚ os_queue s;
  ph_messages : reqs ≠ [] → ∃ msgs, os_messages s' = os_messages s ++ [msgs] ∧ Forall (about reqs') msgs
}.

Lemma process_prefill_handled oc reqs running others tokens s :
  oc_stream_interval oc ≠ 0 → oc_force_stream_interval oc ≠ 0 →
  length tokens = length reqs → Forall prefill_ready reqs → NoDup (map dr_id reqs) →
  Forall (gen_ok (os_gen s)) reqs → gmem (os_mem s) (reqs ++ others) →
  ∃ reqs' running' s',
    process_batch_result_prefill accept_token is_terminated re_search monotonic sa oc reqs running None tokens s = Ok (reqs', running', s')
    ∧ prefill_handled tokens reqs reqs' others running running' s s'.
Proof.
  intros Hsi Hfi Hlen Hr Hnd Hgen Hm. unfold process_batch_result_prefill. set (st := mkResultState _ _ _ _ _ _).
  assert (Hlive : live_of reqs = reqs).
  { clear -Hr. induction Hr as [|r l Hr _ IH]; [done|]. by rewrite live_cons, (proj1 (py_flags _ Hr)), IH. }
  destruct (result_loop_ok fst (prefill_result accept_token is_terminated re_search monotonic sa (oc_think_end_id oc) tokens None) prefilled
    prefill_ready (λ s, gmem (rs_mem s) (live_of (rs_reqs s) ++ others))) with (tokens := tokens) (ts0 := reqs) (ds0 := @nil DReq)
    (tds := @nil Z) (tts := tokens) (x := (st, @None nat)) (ds := @nil DReq) (ts := reqs) as ([st' skip] & Hgo & [L1 L2 L3 L4 L5] & Hm'); try done.
  - intros r r' [b ->] [P1 P2 P3]. by split.
  - intros [s0 sk] ds r ts t H1 H2 H3 H4 H5 H6. destruct (prefill_result_ok (oc_think_end_id oc) tokens others s0 sk ds r ts t)
      as (s1 & sk1 & Hgo & Hst & Hm1); try done. by exists (s1, sk1).
  - constructor.
  - change (gmem (os_mem s) (live_of reqs ++ others)). by rewrite Hlive.
  - cbn [length] in Hgo. rewrite Hgo. cbn [mbind res_bind fst] in *.
    destruct (stream_output_ok is_terminated (oc_stream_interval oc) (oc_force_stream_interval oc) Hsi Hfi skip (rs_reqs st') (rs_gen st') L3)
      as (msgs & gen' & -> & Hmsg & Hgen'). cbn [mbind res_bind]. eexists _, _, _. split; [done|].
    split; cbn [os_mem os_gen os_sent_aborts os_queue os_messages]; try done.
    + eapply Forall_impl; [exact L3|]. auto.
    + intros r Hn Hg. apply Hgen', L4; done.
    + intros Hne. exists msgs. split; [|done]. rewrite bool_decide_false; [done|]. by rewrite length_zero_iff_nil.
Qed.


End prefill.
