(* ===== verification/SchedLoop.v ===== *)
(** * The scheduler as a whole

    Prefill iterations (ExtendProps, PrefillOut) and decode iterations (LoopProps) in any order, with
    requests that arrive and requests that are aborted in between: one step relation, one
    invariant, and the accounting of every request that ever arrived. *)

From S2P Require Import Prelude AllocKernels Allocator RadixKey RadixTree RadixInv RadixMatch RadixProps ReqPool ReqCache.
From S2P Require Import CacheAlloc PyFloat DecodeBatch DecodeMem HandOverMem RetractProps DecodeProps QueueProps DecodeStep.
From S2P Require Import Sampling Finish FinishProps ResultProc ResultProps StreamProps OutputProps ExtendBatch EventLoop LoopProps.
From S2P Require Import ExtendProps PrefillOut.

(** ** A prefill iteration *)

Section sched.
Context {G : Type} (accept_token : G → Z → option G) (is_terminated : G → bool) (re_search : text → text → bool).
Context {monotonic : nat → Z} {dfi : bool} {policy : string}.
Context (sa : ServerArgs) (sp : SpecArgs) (qc : QueueConfig) (oc : OutConfig) {F : Type} `{PyNum F}.
Context (Hspec : sa_speculative_algorithm sa = None) (Hstrip : sa_strip_thinking_cache sa = false).
Context (Hov : oc_enable_overlap oc = false) (Hsi : oc_stream_interval oc ≠ 0) (Hfi : oc_force_stream_interval oc ≠ 0).
Context (size width : Z) (ol : list nat) (os orows : list Z) (Hsize : size < 2 ^ 31) (Hwidth : 0 ≤ width).
Context (model_worker : RunningBatch → list Z) (Hworker : ∀ b, length (model_worker b) = length (rb_reqs b)).
Context (waiting_timeout running_timeout : Z) (forward_entry_time : nat → Z).
Context (attention_backend : string) (vocab_size : Z).
Let adm := admission (monotonic:=monotonic) (dfi:=dfi) (policy:=policy) size width ol os orows.
Let linv := loop_inv (G:=G) (F:=F) (monotonic:=monotonic) (dfi:=dfi) (policy:=policy) qc size width ol os orows.

(** A request that is prefilled as a whole. *)
Record whole (r : DReq) : Prop := {
  wh_flags : dr_finished r = false ∧ rq_is_chunked (dr_req r) ≤ 0;
  wh_fill : rq_fill_ids (dr_req r) = rq_origin_input_ids (dr_req r) ++ rq_output_ids (dr_req r);
  wh_width : dr_input_len r + dr_max_new_tokens r ≤ width
}.

(** The state between the admission of [reqs] and their batch. *)
Record admitting (reqs : list DReq) (s : LoopState G F) (infos : gmap nat ExtendInfo) : Prop := {
  am_last : ls_last s = None;
  am_columns : usable (ls_batch s);
  am_mem : adm (ds_mem (ls_sched s)) reqs (running_of s);
  am_ready : Forall (decode_ready width) (running_of s);
  am_queue : queue_ok qc (queue_of s);
  am_ids : NoDup (map dr_id (running_of s ++ queue_of s ++ reqs));
  am_rids : NoDup (map dr_rid (running_of s ++ queue_of s ++ reqs));
  am_gen : Forall (gen_ok (ls_gen s)) (running_of s ++ reqs);
  am_infos : Forall (λ r, is_Some (infos !! dr_id r)) reqs;
  am_whole : Forall whole reqs
}.

Lemma extended_ready reqs reqs1 :
  Forall whole reqs → Forall2 (λ r r', ∃ i, r' = extended (set_rq_req_pool_idx i (dr_req r)) r) reqs reqs1 →
  Forall prefill_ready reqs1 ∧ Forall (token_due width) reqs1 ∧ Forall (λ r, rq_is_chunked (dr_req r) ≤ 0) reqs1
  ∧ map ident reqs1 = map ident reqs ∧ (∀ gen, Forall (gen_ok (G:=G) gen) reqs → Forall (gen_ok gen) reqs1).
Proof.
  intros Hw H2. induction H2 as [|r r1 reqs reqs1 [i ->] _ IH]; [by split_and!|].
  apply Forall_cons in Hw as [[[W1 W1'] W2 W3] Hw]. destruct (IH Hw) as (I1 & I2 & I3 & I4 & I5). split_and!.
  - constructor; [|done]. split; cbn; [done| |unfold seq_len; rewrite W2; lia].
    unfold committed_tokens, seq_len. cbn. rewrite W2, take_ge; [done|]. unfold zlen. lia.
  - constructor; [|done]. split; cbn; [done|unfold seq_len; by rewrite W2|done].
  - by constructor.
  - cbn [map]. by rewrite I4.
  - intros gen Hg. apply Forall_cons in Hg as [Hg Hg']. constructor; [exact Hg|auto].
Qed.

Lemma prefilled_whole tokens reqs reqs' :
  Forall (λ r, rq_is_chunked (dr_req r) ≤ 0) reqs → Forall3 prefilled tokens reqs reqs' → Forall3 processed tokens reqs reqs'.
Proof.
  intros Hc H3. induction H3 as [|t r r' tokens reqs reqs' Hp _ IH]; constructor; apply Forall_cons in Hc as [Hc1 Hc2]; [|auto].
  unfold prefilled in Hp. by rewrite bool_decide_true in Hp.
Qed.

(** Everybody who was there is there: running, waiting, finished or aborted. *)
Definition accounted (before after : list DReq) (s s' : LoopState G F) : Prop :=
  ∃ sent fin, ds_sent_aborts (ls_sched s') = ds_sent_aborts (ls_sched s) ++ sent ∧ Forall (λ r, dr_finished r = true) fin
    ∧ map ident (after ++ sent ++ fin) ≡ₚ map ident before.

Lemma finished_part reqs : Forall (λ r, dr_finished r = true) (List.filter dr_finished reqs).
Proof. apply Forall_forall. intros r Hr%list_elem_of_In. by apply List.filter_In in Hr as [_ ?]. Qed.

Lemma live_split reqs : map ident reqs ≡ₚ map ident (live_of reqs) ++ map ident (List.filter dr_finished reqs).
Proof. rewrite <- map_app. symmetry. apply Permutation_map, filter_both. Qed.

Lemma forall_live (P : DReq → Prop) reqs : Forall P reqs → Forall P (live_of reqs).
Proof.
  intros HP. apply Forall_forall. intros r Hr%list_elem_of_In. apply List.filter_In in Hr as [Hr%list_elem_of_In _].
  by apply (proj1 (Forall_forall _ _) HP).
Qed.

Lemma gen_ok_others reqs (s : LoopState G F) (gen' : gmap nat (GenState G)) :
  NoDup (map dr_id (running_of s ++ queue_of s ++ reqs)) → Forall (gen_ok (ls_gen s)) (running_of s ++ reqs) →
  (∀ r, dr_id r ∉ map dr_id reqs → gen_ok (ls_gen s) r → gen_ok gen' r) → Forall (gen_ok gen') (running_of s).
Proof.
  intros Hnd Hg Ho. apply Forall_app in Hg as [Hg _]. rewrite map_app in Hnd. apply NoDup_app in Hnd as (_ & Hdis & _).
  apply Forall_forall. intros r Hr. apply Ho; [|by apply (proj1 (Forall_forall _ _) Hg)].
  intros Hin. apply (Hdis (dr_id r)); [by apply list_elem_of_fmap_2|]. rewrite map_app. apply elem_of_app. by right.
Qed.

(** The state once the results [o] of the new batch are there. *)
Definition after_prefill (s : LoopState G F) (b : RunningBatch) (reqs running : list DReq) (o : OutState G) : LoopState G F :=
  let d := ls_sched s in
  mkLoopState (set_rb_reqs running (ls_batch s)) (Some (mkLastBatch (set_rb_reqs reqs b) true None))
    (mkDecodeScheduler (os_queue o) (ds_new_token_ratio d) (ds_new_token_ratio_decay d) (ds_min_new_token_ratio d)
       (ds_num_retracted_reqs d) (os_sent_aborts o) (os_mem o))
    (os_gen o) (os_messages o) (os_num_generated_tokens o) (os_forward_ct_decode o).

Lemma prefilled_inv reqs s infos reqs1 reqs' running' o b' tokens :
  admitting reqs s infos → Forall (token_due width) reqs1 → map ident reqs1 = map ident reqs →
  Forall3 processed tokens reqs1 reqs' → columns (set_rb_reqs reqs' b') → is_Some (rb_output_ids b') →
  prefill_handled (monotonic:=monotonic) (dfi:=dfi) (policy:=policy) size width ol os orows tokens reqs1 reqs' (running_of s) (rb_reqs (ls_batch s)) running'
    (out_state s (ls_sched s)) o →
  let s' := after_prefill s b' reqs' running' o in
  linv s' ∧ accounted (running_of s ++ queue_of s ++ reqs) (running_of s' ++ queue_of s') s s'.
Proof.
  intros [A0 A1 A2 A3 A4 A5 A6 A7 A8 A9] Hdue Hid1 Hp Hcol Hout [P1 P2 P3 P4 P5 (sent & P6 & P6') P7] s'.
  destruct (processed_facts width tokens reqs1 reqs' Hdue Hp) as (Q1 & Q2 & Q3 & Q4). cbn [out_state os_sent_aborts os_queue] in P6, P6'.
  assert (Hrun : running_of s = live_of (rb_reqs (ls_batch s))) by (unfold running_of; by rewrite A0).
  pose proof (marked_live_of _ _ P2) as Hm. rewrite <- Hrun in Hm.
  assert (Hids : map dr_id reqs1 = map dr_id reqs).
  { change (map dr_id) with (map (λ r, fst (ident r))). by rewrite <- !(map_map ident fst), Hid1. }
  assert (Hr' : running_of s' = live_of running' ++ live_of reqs') by done.
  assert (Hq' : queue_of s' = os_queue o) by done.
  assert (Hall : map ident ((running_of s' ++ queue_of s') ++ sent ++ List.filter dr_finished reqs') ≡ₚ map ident (running_of s ++ queue_of s ++ reqs)).
  { rewrite Hr', Hq', !map_app, (marked_idents _ _ Hm), <- Hid1, <- Q3, (live_split reqs'). unfold queue_of. rewrite <- P6', map_app. solve_Permutation. }
  assert (Hall' : map ident (running_of s' ++ queue_of s' ++ sent ++ List.filter dr_finished reqs') ≡ₚ map ident (running_of s ++ queue_of s ++ reqs))
    by (by rewrite <- Hall, <- app_assoc).
  destruct (perm_parts _ _ _ _ _ Hall') as [R1 R2]. split; [|exists sent, (List.filter dr_finished reqs'); split_and!; [done|apply finished_part|done]].
  split; rewrite ?Hr', ?Hq'; auto.
  - destruct A1 as [E|[C O]]; [left; rewrite E in P2; by inversion P2|right; split; [by apply columns_marked|done]].
  - destruct P3 as (c & a & p & held & L & Em & Hmem). exists c, a, p, held, L. split; [exact Em|].
    eapply batch_mem_perm; [|exact Hmem]. rewrite !map_app. rewrite Permutation_app_comm. f_equiv.
    clear -Hm. induction Hm as [|r r' l l' [b ->] _ IH]; [done|]. cbn [map]. by rewrite IH.
  - apply Forall_app. split; [|done]. eapply marked_pred; [|exact Hm|exact A3]. intros r r'. apply ready_marked.
  - destruct A4 as [W1 W2]. split; [|done]. intros E. specialize (W1 E). unfold queue_of in W1. rewrite <- P6' in W1. by apply Forall_app in W1 as [? _].
  - apply Forall_app. split; [|by apply forall_live]. eapply gen_ok_marked; [exact Hm|]. eapply gen_ok_others; [exact A5|exact A7|].
    intros r Hn. apply P5. by rewrite Hids.
  - intros l [= <-]. done.
Qed.

Lemma extend_iteration_ok uninit reqs s infos :
  admitting reqs s infos →
  ∃ s' infos', extend_iteration accept_token is_terminated re_search monotonic sa oc model_worker attention_backend vocab_size uninit reqs s infos
      = Ok (s', infos')
    ∧ linv s' ∧ accounted (running_of s ++ queue_of s ++ reqs) (running_of s' ++ queue_of s') s s'.
Proof.
  intros Ha. pose proof Ha as [A0 A1 A2 A3 A4 A5 A6 A7 A8 A9]. unfold extend_iteration.
  destruct (prepare_extend_batch (monotonic:=monotonic) (dfi:=dfi) (policy:=policy) size width Hsize Hwidth ol os orows
    attention_backend vocab_size uninit reqs (running_of s) infos _ A2 A8) as (b & x & infos' & m & -> & [E1 E2 E3 E4 E5 E6 E7 E8]).
  cbn [mbind res_bind]. unfold run_batch. cbn [rb_reqs].
  destruct (extended_ready reqs (rb_reqs b) A9 E3) as (X1 & X2 & X3 & X4 & X5).
  assert (Hids : map dr_id (rb_reqs b) = map dr_id reqs).
  { change (map dr_id) with (map (λ r, fst (ident r))). by rewrite <- !(map_map ident fst), X4. }
  destruct (process_prefill_handled (monotonic:=monotonic) (dfi:=dfi) (policy:=policy) accept_token is_terminated re_search sa Hspec Hstrip
    size width ol os orows Hsize oc (rb_reqs b) (rb_reqs (ls_batch s)) (running_of s) (model_worker b)
    (mkOutState (ls_gen s) (ds_waiting_queue (ls_sched s)) (ds_sent_aborts (ls_sched s)) (ls_messages s)
       (ls_num_generated_tokens s) (ls_forward_ct_decode s) m)) as (reqs' & running' & o & Hgo & Hh); try done.
  { rewrite Hids. rewrite !map_app in A5. do 2 apply NoDup_app in A5 as (_ & _ & A5). done. }
  { apply X5. by apply Forall_app in A7 as [_ ?]. }
  rewrite Hgo. cbn [mbind res_bind].
  pose proof (prefilled_whole _ _ _ X3 (ph_reqs _ _ _ _ _ _ _ _ _ _ _ _ _ Hh)) as Hp.
  destruct (processed_facts width (model_worker b) (rb_reqs b) reqs' X2 Hp) as (Q1 & Q2 & _ & _).
  eexists _, _. split; [done|].
  apply (prefilled_inv reqs s infos (rb_reqs b) reqs' running' o (set_rb_output_ids (Some (model_worker b)) b) (model_worker b) Ha X2 X4 Hp).
  - apply columns_replace; [done|done|]. by intros ? [= <-].
  - by eexists.
  - destruct Hh as [P1 P2 P3 P4 P5 P6 P7]. by split.
Qed.

(** ** Any interleaving *)

(** The steps of the scheduler: a decode iteration; the prefill of requests that were admitted from the
    queue; a request arrives; an abort message arrives. *)
Inductive sched_step : list DReq → LoopState G F * gmap nat ExtendInfo → LoopState G F * gmap nat ExtendInfo → Prop :=
| sched_decode env s s' infos :
    event_loop_step accept_token is_terminated re_search monotonic sa sp qc oc model_worker
      waiting_timeout running_timeout forward_entry_time env s = Ok s' →
    sched_step [] (s, infos) (s', infos)
| sched_prefill env uninit reqs s s0 s1 s' infos infos1 infos' :
    begin_iteration waiting_timeout running_timeout forward_entry_time env s = Ok s0 →
    ls_batch s1 = ls_batch s0 → ls_gen s1 = ls_gen s0 → ds_sent_aborts (ls_sched s1) = ds_sent_aborts (ls_sched s0) →
    map ident (queue_of s1 ++ reqs) ≡ₚ map ident (queue_of s0) → admitting reqs s1 infos1 →
    extend_iteration accept_token is_terminated re_search monotonic sa oc model_worker attention_backend vocab_size uninit reqs s1 infos1
      = Ok (s', infos') →
    sched_step [] (s, infos) (s', infos')
| sched_arrive now r x s queue aborted infos :
    dr_id r ∉ map dr_id (running_of s ++ queue_of s) → dr_rid r ∉ map dr_rid (running_of s ++ queue_of s) →
    add_request_to_queue qc now (queue_of s) r = Ok (queue, aborted) →
    sched_step [r] (s, infos)
      (mkLoopState (ls_batch s) (ls_last s) (with_queue queue aborted (ls_sched s)) (<[dr_id r := x]> (ls_gen s)) (ls_messages s)
         (ls_num_generated_tokens s) (ls_forward_ct_decode s), infos)
| sched_abort m s infos : sched_step [] (s, infos) (handle_abort m s, infos).

Lemma arrive_inv now r x s queue aborted :
  linv s → dr_id r ∉ map dr_id (running_of s ++ queue_of s) → dr_rid r ∉ map dr_rid (running_of s ++ queue_of s) →
  add_request_to_queue qc now (queue_of s) r = Ok (queue, aborted) →
  let s' := mkLoopState (ls_batch s) (ls_last s) (with_queue queue aborted (ls_sched s)) (<[dr_id r := x]> (ls_gen s)) (ls_messages s)
              (ls_num_generated_tokens s) (ls_forward_ct_decode s) in
  linv s' ∧ accounted (running_of s ++ queue_of s ++ [r]) (running_of s' ++ queue_of s') s s'.
Proof.
  intros [I1 I2 I3 I4 I5 I6 I7 I8] Hid Hrid Hgo s'.
  destruct (add_request_ok qc now (queue_of s) r I4) as (q' & out & Hgo' & [D1 D2 D3] & _).
  { rewrite map_app in Hrid. set_solver. }
  rewrite Hgo in Hgo'. inversion Hgo'; subst q' out.
  assert (Hall : map ident (running_of s' ++ queue_of s' ++ aborted ++ []) ≡ₚ map ident (running_of s ++ queue_of s ++ [r])).
  { rewrite app_nil_r. change (running_of s') with (running_of s). change (queue_of s') with queue.
    rewrite !(map_app ident (running_of s)). by f_equiv. }
  destruct (perm_parts _ _ _ _ _ Hall) as [R1 R2]. split.
  - split; try done.
    + apply R1. rewrite app_assoc, map_app. apply NoDup_app. split_and!; [done| |cbn; apply NoDup_singleton].
      intros y Hy. cbn. set_solver.
    + apply R2. rewrite app_assoc, map_app. apply NoDup_app. split_and!; [done| |cbn; apply NoDup_singleton].
      intros y Hy. cbn. set_solver.
    + apply gen_ok_insert; [exact I7|]. rewrite map_app in Hid. set_solver.
  - exists aborted, []. split_and!; [done|done|]. by rewrite <- Hall, <- !app_assoc.
Qed.

Lemma abort_inv m s :
  linv s → let s' := handle_abort m s in linv s' ∧ advanced_to 0 s s'.
Proof.
  intros Hi. pose proof Hi as [I1 I2 I3 I4 I5 I6 I7 I8]. unfold handle_abort.
  unfold abort_request. rewrite map_app, take_app_length', drop_app_length' by (by rewrite length_map).
  pose proof (abort_all_marked m) as Hall.
  eapply (trimmed_inv (monotonic:=monotonic) (dfi:=dfi) (policy:=policy) qc size width ol os orows s _ (rev (List.filter (abort_matches m) (queue_of s)))); try done.
  - destruct I1 as [E|[C O]]; [left; cbn; by rewrite E|right; split; [by apply columns_marked|done]].
  - intros l. cbn. destruct (ls_last s) as [l0|]; [|done]. intros [= <-]. destruct (I8 _ eq_refl) as (L1 & L2 & L3 & L4).
    split_and!; [done..| |done]. by apply columns_marked.
  - unfold running_of. cbn. destruct (ls_last s) as [l0|]; cbn.
    + apply Forall2_app; apply marked_live_of, Hall.
    + apply marked_live_of, Hall.
  - cbn. rewrite <- (Permutation_rev (List.filter _ _)). apply filter_both.
Qed.

Lemma accounted_trans new1 new2 s1 s2 s3 :
  accounted (running_of s1 ++ queue_of s1 ++ new1) (running_of s2 ++ queue_of s2) s1 s2 →
  accounted (running_of s2 ++ queue_of s2 ++ new2) (running_of s3 ++ queue_of s3) s2 s3 →
  accounted (running_of s1 ++ queue_of s1 ++ new1 ++ new2) (running_of s3 ++ queue_of s3) s1 s3.
Proof.
  intros (t1 & f1 & A1 & A2 & A3) (t2 & f2 & B1 & B2 & B3). exists (t1 ++ t2), (f1 ++ f2).
  split; [by rewrite B1, A1, app_assoc|]. split; [by apply Forall_app|].
  trans (map ident (running_of s2 ++ queue_of s2 ++ new2) ++ map ident (t1 ++ f1)).
  - rewrite <- B3, !map_app. solve_Permutation.
  - trans (map ident (running_of s1 ++ queue_of s1 ++ new1) ++ map ident new2); [rewrite <- A3, !map_app; solve_Permutation|].
    rewrite !map_app. solve_Permutation.
Qed.

Lemma advanced_accounted n s s' :
  advanced_to n s s' → accounted (running_of s ++ queue_of s) (running_of s' ++ queue_of s') s s'.
Proof. intros [(sent & fin & A1 & A2 & A3) _]. exists sent, fin. by rewrite <- app_assoc. Qed.

Lemma sched_step_inv new s infos s' infos' :
  sched_step new (s, infos) (s', infos') → linv s →
  linv s' ∧ accounted (running_of s ++ queue_of s ++ new) (running_of s' ++ queue_of s') s s'.
Proof.
  intros Hs Hi. inversion Hs as [env s0 s0' i0 Hgo|env uninit reqs sa0 s0 s1 s0' i0 i1 i0' Hbeg Hb Hg Hsent Hq Ha Hgo|now r x s0 queue aborted i0 Hid Hrid Hgo|m s0 i0]; subst.
  - destruct (event_step_ok accept_token is_terminated re_search sa sp qc oc Hspec Hstrip Hov Hsi Hfi size width ol os orows Hsize
      model_worker Hworker waiting_timeout running_timeout forward_entry_time env s Hi) as (s2 & Hgo2 & Hi2 & Ha).
    rewrite Hgo in Hgo2. inversion Hgo2; subst s2. split; [done|]. rewrite app_nil_r. by eapply advanced_accounted.
  - destruct (begin_iteration_ok (monotonic:=monotonic) (dfi:=dfi) (policy:=policy) qc size width ol os orows
      waiting_timeout running_timeout forward_entry_time env s Hi) as (s2 & Hbeg2 & Hlast & Hi0 & Ha0).
    rewrite Hbeg in Hbeg2. inversion Hbeg2; subst s2. apply advanced_accounted in Ha0.
    destruct (extend_iteration_ok uninit reqs s1 i1 Ha) as (s2 & i2 & Hgo2 & Hi2 & (sent & fin & A1 & A2 & A3)).
    rewrite Hgo in Hgo2. inversion Hgo2; subst s2 i2. split; [done|].
    assert (Hac : accounted (running_of s0 ++ queue_of s0 ++ []) (running_of s' ++ queue_of s') s0 s').
    { exists sent, fin. split; [by rewrite <- Hsent|]. split; [done|].
      rewrite A3, app_nil_r, !(map_app ident (running_of _)). unfold running_of at 1 2. rewrite Hb, Hlast, (am_last _ _ _ Ha). by f_equiv. }
    rewrite <- (app_nil_r (queue_of s)) in Ha0. exact (accounted_trans [] [] _ _ _ Ha0 Hac).
  - exact (arrive_inv now r x s queue aborted Hi Hid Hrid Hgo).
  - rewrite app_nil_r. destruct (abort_inv m s Hi) as [R1 R2]. split; [done|]. by eapply advanced_accounted.
Qed.

Inductive sched_run : list DReq → LoopState G F * gmap nat ExtendInfo → LoopState G F * gmap nat ExtendInfo → Prop :=
| sched_run_refl x : sched_run [] x x
| sched_run_step new1 new2 x y z : sched_run new1 x y → sched_step new2 y z → sched_run (new1 ++ new2) x z.

Lemma sched_run_inv new x y : sched_run new x y → linv x.1 →
  linv y.1 ∧ accounted (running_of x.1 ++ queue_of x.1 ++ new) (running_of y.1 ++ queue_of y.1) x.1 y.1.
Proof.
  induction 1 as [[s i]|new1 new2 x [s i] [s' i'] Hr IH Hs]; intros Hi; cbn in *.
  - split; [done|]. exists [], []. rewrite !app_nil_r. done.
  - destruct (IH Hi) as [Hi1 Ha1]. destruct (sched_step_inv _ _ _ _ _ Hs Hi1) as [Hi2 Ha2].
    split; [done|]. by eapply accounted_trans.
Qed.


End sched.
