(* ===== verification/SchedLoopDemo.v ===== *)
(** * The scheduler, concretely

    On the state of LoopDemo: a request arrives and takes the place of a waiting one with a lower
    priority, is prefilled into the last free slot, and the next decode iteration has to retract. *)

From S2P Require Import Prelude AllocKernels Allocator RadixKey RadixTree RadixInv RadixMatch RadixEvict RadixProps.
From S2P Require Import ReqPool ReqCache CacheAlloc PyFloat DecodeBatch DecodeMem HandOverMem RetractProps DecodeProps QueueProps.
From S2P Require Import DecodeStep DecodeDemo Sampling Finish FinishProps ResultProc ResultProps StreamProps OutputProps.
From S2P Require Import ExtendBatch EventLoop LoopProps LoopDemo ExtendProps PrefillOut SchedLoop.

(** The new request, as it arrives and as it is admitted: nothing of it is cached. *)
Definition new_req : DReq :=
  mkDReq 5 "p" 4 false false false false true false 0 0 false false 0 0 0 0 0
    (mkReq [7] [] [] None (Some 0) false 0 0 0 0 false false None [] None 0).

Definition new_admitted : DReq :=
  mkDReq 5 "p" 4 false false false false true false 9 0 false false 1 0 0 0 0
    (mkReq [7] [] [7] None (Some 0) false 0 0 0 0 false false None [] (Some 0%nat) 0).

Definition new_infos : gmap nat ExtendInfo := {[ 5%nat := mkExtendInfo 0 0 0 0 false 0 0 (-1) 0 None ]}.

Definition arrive_state : LoopState bool Qc :=
  mkLoopState (ls_batch loop_start) None (with_queue [set_dr_wait_queue_entry_time 9 new_req] [run_waiting] (ls_sched loop_start))
    (<[5%nat := loop_gen_state [7] None]> (ls_gen loop_start)) (ls_messages loop_start) 0 0.

Definition begun_state : LoopState bool Qc :=
  match begin_iteration 0 0 (λ _, 1) loop_env arrive_state with Ok s => s | Raise _ => arrive_state end.

Definition admit_state : LoopState bool Qc :=
  mkLoopState (ls_batch begun_state) None
    (mkDecodeScheduler [] (Qc_ofZ 1) (Qc_ofZ 0) (Qc_ofZ 0) 0 (ds_sent_aborts (ls_sched arrive_state)) run_mem)
    (ls_gen arrive_state) [] 0 0.

Definition prefill_result_state : LoopState bool Qc * gmap nat ExtendInfo :=
  match extend_iteration loop_accept loop_terminated loop_search demo_clock run_args loop_config loop_worker "triton" 100 [] [new_admitted]
          admit_state new_infos with
  | Ok x => x
  | Raise _ => (admit_state, new_infos)
  end.

Definition decode_result_state : LoopState bool Qc :=
  match event_loop_step loop_accept loop_terminated loop_search demo_clock run_args run_spec run_queue loop_config loop_worker
          0 0 (λ _, 1) loop_env prefill_result_state.1 with
  | Ok x => x
  | Raise _ => admit_state
  end.

(** After the prefill three requests run; the decode iteration retracts until the rest fits, and the waiting queue, which
    holds one request, drops what it has no room for. *)
Example sched_run_example :
  (map dr_rid (running_of prefill_result_state.1), map (map sm_output_ids) (ls_messages prefill_result_state.1),
   map dr_rid (running_of decode_result_state), map dr_rid (queue_of decode_result_state),
   map dr_rid (ds_sent_aborts (ls_sched decode_result_state)))
  = (["a"; "b"; "p"], [[[65]]], ["b"; "p"], ["a"], ["w"]).
Proof. vm_compute. reflexivity. Qed.

Lemma new_admission :
  admission (monotonic:=demo_clock) (dfi:=false) (policy:="lru") 5 6 [] [] [] run_mem [new_admitted] loop_reqs.
Proof.
  exists run_cache, run_alloc, run_pool, [], {[0%nat]}. split; [done|]. split; [exact run_batch_mem|split_and!].
  - constructor; [|constructor]. split; try done. all: first [apply (path_root run_cache) | by exists [] | vm_compute; split; congruence].
  - constructor.
  - repeat constructor.
  - vm_compute. congruence.
  - vm_compute. congruence.
Qed.

Lemma new_admitting :
  admitting (monotonic:=demo_clock) (dfi:=false) (policy:="lru") run_queue 5 6 [] [] [] [new_admitted] admit_state new_infos.
Proof.
  split; [done|..].
  - exact (li_columns _ _ _ _ _ _ _ loop_start_inv).
  - exact new_admission.
  - exact (li_ready _ _ _ _ _ _ _ loop_start_inv).
  - split; [intros _; constructor|]. intros n [= <-]. done.
  - apply (bool_decide_unpack _). vm_compute. exact I.
  - apply (bool_decide_unpack _). vm_compute. exact I.
  - repeat constructor; eexists; (split; [vm_compute; reflexivity|]); (split; [by left|done]).
  - repeat constructor. by eexists.
  - repeat constructor; vm_compute; congruence.
Qed.

Lemma new_prefill :
  extend_iteration loop_accept loop_terminated loop_search demo_clock run_args loop_config loop_worker "triton" 100 [] [new_admitted]
    admit_state new_infos = Ok (prefill_result_state.1, prefill_result_state.2).
Proof. vm_compute. reflexivity. Qed.

Lemma new_decode :
  event_loop_step loop_accept loop_terminated loop_search demo_clock run_args run_spec run_queue loop_config loop_worker
    0 0 (λ _, 1) loop_env prefill_result_state.1 = Ok decode_result_state.
Proof. vm_compute. reflexivity. Qed.

Lemma new_arrival : add_request_to_queue run_queue 9 (queue_of loop_start) new_req = Ok (queue_of arrive_state, [run_waiting]).
Proof. vm_compute. reflexivity. Qed.

Lemma new_run :
  sched_run loop_accept loop_terminated loop_search (monotonic:=demo_clock) (dfi:=false) (policy:="lru") run_args run_spec run_queue loop_config
    5 6 [] [] [] loop_worker 0 0 (λ _, 1) "triton" 100 [new_req] (loop_start, new_infos) (decode_result_state, prefill_result_state.2).
Proof.
  refine (sched_run_step _ _ _ _ _ _ _ _ _ _ _ _ _ _ _ _ _ _ [new_req] [] _ (prefill_result_state.1, prefill_result_state.2) _ _ _).
  - refine (sched_run_step _ _ _ _ _ _ _ _ _ _ _ _ _ _ _ _ _ _ [new_req] [] _ (arrive_state, new_infos) _ _ _).
    + refine (sched_run_step _ _ _ _ _ _ _ _ _ _ _ _ _ _ _ _ _ _ [] [new_req] _ (loop_start, new_infos) _ (sched_run_refl _ _ _ _ _ _ _ _ _ _ _ _ _ _ _ _ _ _ _) _).
      apply (sched_arrive _ _ _ _ _ _ _ _ _ _ _ _ _ _ _ _ _ _ 9 new_req (loop_gen_state [7] None) loop_start _ _ new_infos);
        [apply (bool_decide_unpack _); vm_compute; exact I..|exact new_arrival].
    + apply (sched_prefill _ _ _ _ _ _ _ _ _ _ _ _ _ _ _ _ _ _ loop_env [] [new_admitted] arrive_state begun_state admit_state prefill_result_state.1 new_infos new_infos prefill_result_state.2);
        [reflexivity..|exact new_admitting|exact new_prefill].
  - apply (sched_decode _ _ _ _ _ _ _ _ _ _ _ _ _ _ _ _ _ _ loop_env). exact new_decode.
Qed.


Lemma prepare_for_extend_ok_witness :
  ∃ b x infos' m', prepare_for_extend "triton" 100 [] [new_admitted] new_infos run_mem = Ok (b, x, infos', m')
    ∧ extended_batch (monotonic:=demo_clock) (dfi:=false) (policy:="lru") 5 6 [] [] [] [new_admitted] loop_reqs b x m'.
Proof.
  refine (prepare_for_extend_ok 5 6 _ _ [] [] [] "triton" 100 [] [new_admitted] loop_reqs new_infos run_mem new_admission _).
  - done.
  - done.
  - repeat constructor. by eexists.
Defined.

(** The running requests as a prefill batch: the second one is in the middle of its prompt. *)
Definition chunk_reqs : list DReq :=
  [set_dr_req (mkReq [7; 8] [] [7; 8] None (Some 0) false 0 0 2 2 false false (Some 1) [] (Some 0%nat) 0) (loop_req run_r1);
   set_dr_req (mkReq [7; 5; 6] [] [7; 5] None (Some 0) false 0 1 2 2 false false (Some 2) [] (Some 0%nat) 0) (loop_req run_r2)].

Lemma chunk_holds r : r ∈ chunk_reqs → holds run_cache run_pool (dr_req r).
Proof.
  intros Hr. set_unfold in Hr. destruct Hr as [->|[->|[]]]; split; try (vm_compute; reflexivity); try (vm_compute; lia);
    try (vm_compute; split; congruence); try (vm_compute; congruence); apply (path_root run_cache).
Qed.

Lemma chunk_mem :
  group_mem (monotonic:=demo_clock) (dfi:=false) (policy:="lru") 5 6 [] [] [] true run_mem chunk_reqs.
Proof.
  exists run_cache, run_alloc, run_pool, [], {[0%nat]}. split; [done|]. destruct run_batch_mem as [B1 B2 B3 B4 B5 B6 B7 B8 B9 B10 B11].
  split; try done. repeat constructor; apply chunk_holds; set_solver.
Qed.

