(* ===== verification/Detokenizer.v ===== *)
(** * The detokenizer

    Models [src/python/sglang/srt/managers/detokenizer_manager.py] ([DecodeStatus], [LimitedCapacityDict],
    [trim_matched_stop], [_grouped_batch_decode], [_decode_batch_token_id_output],
    [handle_batch_token_id_out]) and [find_printable_text] of [src/python/sglang/utils.py].  The messages
    are those of ResultProc, with the sampling parameters the detokenizer reads.

    The tokenizer is a parameter: [decode] and [batch_decode], under the two flags of a request.  A string is
    the list of its code points.  The fields of [BatchTokenIDOutput] that are only passed on are left out. *)

From S2P Require Import Prelude PyDict DecodeBatch Sampling Finish ResultProc.

(** ** Strings *)

(** The replacement character: the tail of a text whose last character is incomplete. *)
Definition REPLACEMENT : Z := 65533.

(** [t.endswith(c)] *)
Definition ends_with_char (c : Z) (t : text) : bool := bool_decide (last t = Some c).

(** [t.find(s)] if it is not -1. *)
Fixpoint str_find (s t : text) : option nat :=
  if bool_decide (s `prefix_of` t) then Some 0%nat
  else match t with [] => None | _ :: t' => S <$> str_find s t' end.

(** [t.rfind(c)] of a character. *)
Fixpoint str_rfind (c : Z) (t : text) : Z :=
  match t with
  | [] => -1
  | x :: t' =>
      let k := str_rfind c t' in
      if bool_decide (0 ≤ k) then k + 1 else if bool_decide (x = c) then 0 else -1
  end.

Definition is_chinese_char (cp : Z) : bool :=
  existsb (λ '(lo, hi), bool_decide (lo ≤ cp ≤ hi))
    [(19968, 40959); (13312, 19903); (131072, 173791); (173824, 177983); (177984, 178207); (178208, 183983);
     (63744, 64255); (194560, 195103)].

Definition find_printable_text (t : list Z) : text :=
  if ends_with_char 10 t then t
  else if bool_decide (0 < zlen t) && from_option is_chinese_char false (last t) then t
  else if bool_decide (1 < zlen t) && from_option is_chinese_char false (t !! (length t - 2)%nat) then t⟨:-1⟩
  else t⟨:str_rfind 32 t + 1⟩.

(** ** The state of a request *)

Record DecodeStatus := mkDecodeStatus {
  st_decoded_text : text;
  st_decode_ids : list Z;
  st_surr_offset : Z;
  st_read_offset : Z;
  st_sent_offset : Z
}.

Definition st_extend (ids : list Z) (s : DecodeStatus) : DecodeStatus :=
  mkDecodeStatus (st_decoded_text s) (st_decode_ids s ++ ids) (st_surr_offset s) (st_read_offset s) (st_sent_offset s).

(** [decoded_text += new_text] and the new offsets. *)
Definition st_commit (new_text : text) (s : DecodeStatus) : DecodeStatus :=
  mkDecodeStatus (st_decoded_text s ++ new_text) (st_decode_ids s) (st_read_offset s) (zlen (st_decode_ids s)) (st_sent_offset s).

Definition st_sent (n : Z) (s : DecodeStatus) : DecodeStatus :=
  mkDecodeStatus (st_decoded_text s) (st_decode_ids s) (st_surr_offset s) (st_read_offset s) n.

(** [LimitedCapacityDict.__setitem__]: a full dict drops its oldest entry. *)
Definition limited_set {A} (capacity : Z) (d : dict A) (k : string) (v : A) : res (dict A) :=
  if bool_decide (capacity ≤ zlen d) then
    match d with
    | [] => Raise KeyError
    | _ :: d' => Ok (dict_set d' k v)
    end
  else Ok (dict_set d k v).

(** What the detokenizer reads of a request in a message. *)
Record DetokMsg := mkDetokMsg {
  dm_msg : StreamMsg;
  dm_skip_special_tokens : bool;
  dm_spaces_between_special_tokens : bool;
  dm_no_stop_trim : bool
}.

Definition dm_rid (x : DetokMsg) : string := sm_rid (dm_msg x).
Definition dm_flags (x : DetokMsg) : bool * bool := (dm_skip_special_tokens x, dm_spaces_between_special_tokens x).

(** [finished_reason.get("matched")] of the JSON of a reason: a token or a string. *)
Definition reason_matched (f : FinishReason) : option (Z + text) :=
  match f with
  | FINISH_MATCHED_TOKEN t => Some (inl t)
  | FINISH_MATCHED_STR s => Some (inr s)
  | FINISHED_MATCHED_REGEX s => Some (inr s)
  | FINISH_LENGTH _ | FINISH_ABORT _ => None
  end.

Section detok.
Context (decode : bool → bool → list Z → text) (batch_decode : bool → bool → list (list Z) → list text).
Context (is_tool_call_parser_gpt_oss disable_tokenizer_batch_decode : bool) (DETOKENIZER_MAX_STATES : Z).

(** [trim_matched_stop] of a string. *)
Definition trim_matched_stop_str (output : text) (finished_reason : option FinishReason) (no_stop_trim : bool) : text :=
  if no_stop_trim then output
  else match finished_reason ≫= reason_matched with
       | Some (inr matched) =>
           if bool_decide (length matched = 0%nat) then output
           else match str_find matched output with Some pos => take pos output | None => output end
       | _ => output
       end.

(** [trim_matched_stop] of a list of ids; the token 0 counts as no match. *)
Definition trim_matched_stop_ids (output : list Z) (finished_reason : option FinishReason) (no_stop_trim : bool) : res (list Z) :=
  if no_stop_trim then Ok output
  else match finished_reason ≫= reason_matched with
       | Some (inl matched) =>
           if bool_decide (matched = 0) then Ok output
           else match last output with
                | None => Raise IndexError
                | Some t => if bool_decide (t = 200012) && is_tool_call_parser_gpt_oss then Ok output else Ok (output⟨:-1⟩)
                end
       | _ => Ok output
       end.

(** ** Decoding a batch *)

(** [groups[key].append(idx)] *)
Fixpoint add_group (groups : list (bool * bool * list nat)) (key : bool * bool) (idx : nat) : list (bool * bool * list nat) :=
  match groups with
  | [] => [(key, [idx])]
  | (k, l) :: groups' => if bool_decide (k = key) then (k, l ++ [idx]) :: groups' else (k, l) :: add_group groups' key idx
  end.

Fixpoint group_indices (groups : list (bool * bool * list nat)) (idx : nat) (flags : list (bool * bool)) : list (bool * bool * list nat) :=
  match flags with
  | [] => groups
  | key :: flags' => group_indices (add_group groups key idx) (S idx) flags'
  end.

(** [for idx, text in zip(indices, decoded): results[idx] = text] *)
Fixpoint assign_all (results : list text) (assigns : list (nat * text)) : list text :=
  match assigns with
  | [] => results
  | (idx, t) :: rest => assign_all (<[idx := t]> results) rest
  end.

Fixpoint decode_groups (ids_list : list (list Z)) (groups : list (bool * bool * list nat)) (results : list text) : res (list text) :=
  match groups with
  | [] => Ok results
  | ((skip, space), indices) :: groups' =>
      ids ← pick ids_list indices;
      decode_groups ids_list groups' (assign_all results (zip indices (batch_decode skip space ids)))
  end.

Definition grouped_batch_decode (ids_list : list (list Z)) (flags : list (bool * bool)) : res (list text) :=
  match flags with
  | [] => Raise IndexError
  | (skip, space) :: _ =>
      if forallb (λ f, bool_decide (f = (skip, space))) flags then Ok (batch_decode skip space ids_list)
      else decode_groups ids_list (group_indices [] 0 flags) (replicate (length ids_list) [])
  end.

Definition decode_texts (ids_list : list (list Z)) (flags : list (bool * bool)) : res (list text) :=
  if disable_tokenizer_batch_decode then Ok (zip_with (λ ids f, decode f.1 f.2 ids) ids_list flags)
  else grouped_batch_decode ids_list flags.

(** ** The handler *)

(** The first loop: the statuses with the new ids, and for each request the ids to read and those around. *)
Fixpoint collect_ids (d : dict DecodeStatus) (msgs : list DetokMsg) : res (dict DecodeStatus * list (list Z) * list (list Z)) :=
  match msgs with
  | [] => Ok (d, [], [])
  | x :: msgs' =>
      let m := dm_msg x in
      '(s, d) ←
        match dict_get d (dm_rid x) with
        | None =>
            let s := mkDecodeStatus (sm_decoded_text m) (sm_decode_ids m) 0 (sm_read_offset m) 0 in
            d ← limited_set DETOKENIZER_MAX_STATES d (dm_rid x) s; Ok (s, d)
        | Some s => let s := st_extend (sm_decode_ids m) s in Ok (s, dict_set d (dm_rid x) s)
        end;
      read ← trim_matched_stop_ids ((st_decode_ids s)⟨st_surr_offset s:⟩) (sm_finished_reason m) (dm_no_stop_trim x);
      let surr := py_slice (st_decode_ids s) (st_surr_offset s) (st_read_offset s) in
      '(d, reads, surrs) ← collect_ids d msgs';
      Ok (d, read :: reads, surr :: surrs)
  end.

(** One request of the second loop: its new status, [None] once it is finished, and the text to send. *)
Definition emit_text (x : DetokMsg) (s : DecodeStatus) (read_text surr_text : text) : option DecodeStatus * text :=
  let new_text := read_text⟨zlen surr_text:⟩ in
  let reason := sm_finished_reason (dm_msg x) in
  let '(s, new_text) :=
    match reason with
    | None =>
        if bool_decide (0 < zlen new_text) && negb (ends_with_char REPLACEMENT new_text)
        then (st_commit new_text s, [])
        else (s, find_printable_text new_text)
    | Some _ => (s, new_text)
    end in
  let output_str := trim_matched_stop_str (st_decoded_text s ++ new_text) reason (dm_no_stop_trim x) in
  (match reason with None => Some (st_sent (zlen output_str) s) | Some _ => None end, output_str⟨st_sent_offset s:⟩).

Fixpoint emit_texts (d : dict DecodeStatus) (rows : list (DetokMsg * (text * text))) : res (dict DecodeStatus * list text) :=
  match rows with
  | [] => Ok (d, [])
  | (x, (read_text, surr_text)) :: rows' =>
      match dict_get d (dm_rid x) with
      | None => Raise RuntimeError
      | Some s =>
          let '(s', out) := emit_text x s read_text surr_text in
          let d := match s' with Some s' => dict_set d (dm_rid x) s' | None => dict_pop d (dm_rid x) end in
          '(d, outs) ← emit_texts d rows';
          Ok (d, out :: outs)
      end
  end.

Definition decode_batch_token_id_output (d : dict DecodeStatus) (msgs : list DetokMsg) : res (dict DecodeStatus * list text) :=
  '(d, reads, surrs) ← collect_ids d msgs;
  surr_texts ← decode_texts surrs (map dm_flags msgs);
  read_texts ← decode_texts reads (map dm_flags msgs);
  emit_texts d (zip msgs (zip read_texts surr_texts)).

(** The new statuses and [output_strs]. *)
Definition handle_batch_token_id_out (d : dict DecodeStatus) (msgs : list DetokMsg) : res (dict DecodeStatus * list text) :=
  if bool_decide (0 < zlen msgs) then decode_batch_token_id_output d msgs else Ok (d, []).

(** [event_loop]: the batches in the order in which they come. *)
Fixpoint detok_loop (d : dict DecodeStatus) (batches : list (list DetokMsg)) : res (dict DecodeStatus * list (list text)) :=
  match batches with
  | [] => Ok (d, [])
  | msgs :: rest =>
      '(d, outs) ← handle_batch_token_id_out d msgs;
      '(d, all) ← detok_loop d rest;
      Ok (d, outs :: all)
  end.

End detok.
