(* ===== verification/DetokText.v ===== *)
(** * The detokenizer: the text of one request

    The windows of ids that are decoded for a request, message by message, telescope into the text of
    all its ids. *)

From S2P Require Import Prelude PyDict DecodeBatch Sampling Finish ResultProc Detokenizer.

(** ** Incomplete tails *)

Definition complete (t : list Z) : Prop := last t ≠ Some REPLACEMENT.

#[export] Instance complete_dec t : Decision (complete t).
Proof. apply _. Defined.

(** A text without the replacement characters at its end. *)
Fixpoint strip (t : text) : text :=
  match t with
  | [] => []
  | x :: t' => if bool_decide (strip t' = []) && bool_decide (x = REPLACEMENT) then [] else x :: strip t'
  end.

Lemma strip_prefix t : strip t `prefix_of` t.
Proof.
  induction t as [|x t IH]; [done|]. cbn [strip]. destruct (_ && _); [apply prefix_nil|by apply prefix_cons].
Qed.

Lemma prefix_strip p t : complete p → p `prefix_of` t → p `prefix_of` strip t.
Proof.
  intros Hc [k ->]. induction p as [|x p IH]; [apply prefix_nil|]. cbn [app strip].
  destruct (decide (p = [])) as [->|Hne].
  - cbn in Hc. rewrite (bool_decide_false (x = REPLACEMENT)) by (intros ->; by apply Hc).
    rewrite andb_false_r. apply prefix_cons, prefix_nil.
  - assert (Hp : p `prefix_of` strip (p ++ k)).
    { apply IH. unfold complete in *. by rewrite last_cons in Hc; destruct (last p) eqn:E; [|apply last_None in E]. }
    rewrite bool_decide_false; [by apply prefix_cons|]. intros E. rewrite E in Hp. apply prefix_nil_inv in Hp. done.
Qed.

Lemma strip_complete t : complete t → strip t = t.
Proof. intros Hc. apply (anti_symm prefix); [apply strip_prefix|by apply prefix_strip]. Qed.

Lemma complete_nil : complete [].
Proof. done. Qed.

Lemma complete_app t k : k ≠ [] → complete (t ++ k) ↔ complete k.
Proof.
  intros Hk. unfold complete. rewrite last_app. destruct (last k) eqn:E; [done|]. by apply last_None in E.
Qed.

Lemma strip_app a b : complete a → strip (a ++ b) = a ++ strip b.
Proof.
  induction a as [|x a IH]; intros Hc; [done|]. cbn [app strip]. destruct (decide (a = [])) as [->|Hne].
  - cbn. rewrite (bool_decide_false (x = REPLACEMENT)) by (intros ->; by apply Hc). by rewrite andb_false_r.
  - rewrite IH by (by apply (complete_app [x] a)). rewrite bool_decide_false; [done|]. by intros [? _]%app_nil.
Qed.

(** ** The part that is printed early *)

Lemma rfind_spec c (t : list Z) :
  let k := str_rfind c t in
  -1 ≤ k < zlen t ∧ (0 ≤ k → t !! Z.to_nat k = Some c) ∧ ∀ i, t !! i = Some c → Z.of_nat i ≤ k.
Proof.
  cbn zeta. induction t as [|x t (I1 & I2 & I3)]; cbn [str_rfind]; [by split_and!|]. rewrite zlen_cons.
  pose proof (zlen_nonneg t). case_bool_decide as E.
  - split; [lia|]. split; [intros _; rewrite Z2Nat.inj_add by lia; rewrite Nat.add_comm; by apply I2|].
    intros [|i] Hi; [lia|]. specialize (I3 i Hi). lia.
  - assert (Hno : ∀ i, t !! i ≠ Some c) by (intros i Hi; specialize (I3 i Hi); lia).
    case_bool_decide as Ex; (split; [lia|split]).
    + by intros _; subst.
    + intros [|i] Hi; [lia|]. by apply Hno in Hi.
    + lia.
    + intros [|i] Hi; [by inversion Hi|by apply Hno in Hi].
Qed.

(** What was not committed: nothing, or it ends incomplete. *)
Definition unsettled (t : list Z) : Prop := t = [] ∨ ¬ complete t.

Lemma slice_to_neg1 {A} (t : list A) : t⟨:-1⟩ = take (length t - 1) t.
Proof. unfold slice_to, norm_idx. rewrite bool_decide_true by lia. f_equal. unfold zlen. lia. Qed.

Lemma replacement_not_cjk : is_chinese_char REPLACEMENT = false.
Proof. done. Qed.

(** The last two cases of [find_printable_text]. *)
Lemma printable_cases (t : list Z) :
  unsettled t →
  (∃ c, 1 < zlen t ∧ t !! (length t - 2)%nat = Some c ∧ is_chinese_char c = true ∧ find_printable_text t = take (length t - 1) t)
  ∨ find_printable_text t = take (Z.to_nat (str_rfind 32 t + 1)) t.
Proof.
  intros Hu. unfold find_printable_text, ends_with_char.
  assert (Hl : last t ≠ Some 10 ∧ from_option is_chinese_char false (last t) = false).
  { destruct Hu as [->|Hc]; [done|]. unfold complete in Hc. apply dec_stable in Hc. rewrite Hc. done. }
  destruct Hl as [H1 H2]. rewrite bool_decide_false by done. rewrite H2, andb_false_r.
  destruct (bool_decide (1 < zlen t)) eqn:E1; cbn [andb].
  - apply bool_decide_eq_true in E1. destruct (t !! (length t - 2)%nat) as [c|] eqn:Ec; cbn [from_option].
    + destruct (is_chinese_char c) eqn:Ecc; [left; exists c; by rewrite slice_to_neg1|right].
      destruct (rfind_spec 32 t) as (R1 & _). by rewrite slice_to_take by lia.
    + right. destruct (rfind_spec 32 t) as (R1 & _). by rewrite slice_to_take by lia.
  - right. destruct (rfind_spec 32 t) as (R1 & _). by rewrite slice_to_take by lia.
Qed.

Lemma printable_prefix (t : list Z) : unsettled t → find_printable_text t `prefix_of` t ∧ complete (find_printable_text t).
Proof.
  intros Hu. destruct (printable_cases t Hu) as [(c & Hl & Hc & Hcjk & ->)| ->]; split; try apply prefix_take.
  - unfold complete. rewrite last_lookup, length_take. replace (Init.Nat.pred _) with (length t - 2)%nat by (unfold zlen in Hl; lia).
    rewrite lookup_take_lt by (unfold zlen in Hl; lia). intros E. assert (Ec : Some c = Some REPLACEMENT) by (etrans; [symmetry; exact Hc|exact E]). by inversion Ec; subst.
  - destruct (rfind_spec 32 t) as (R1 & R2 & _). destruct (decide (0 ≤ str_rfind 32 t)) as [Hge|Hlt].
    + unfold complete. rewrite last_lookup, length_take. unfold zlen in R1. replace (Init.Nat.pred _) with (Z.to_nat (str_rfind 32 t)) by lia.
      rewrite lookup_take_lt by lia. intros E. assert (Ec : Some 32 = Some REPLACEMENT) by (etrans; [symmetry; exact (R2 Hge)|exact E]). done.
    + replace (str_rfind 32 t) with (-1) by lia. done.
Qed.

(** Without CJK characters, more text never takes back what was printed. *)
Lemma printable_grows (t t' : list Z) :
  unsettled t → unsettled t' → strip t `prefix_of` t' → Forall (λ c, is_chinese_char c = false) t →
  find_printable_text t `prefix_of` find_printable_text t'.
Proof.
  intros Hu Hu' Hs Hcjk. destruct (printable_prefix t Hu) as [P1 P2]. destruct (printable_prefix t' Hu') as [P1' P2'].
  assert (Hp : find_printable_text t `prefix_of` t') by (etrans; [by apply prefix_strip|done]).
  destruct (prefix_weak_total _ _ _ Hp P1') as [|Hq]; [done|].
  destruct (printable_cases t Hu) as [(c & _ & Hc & Hcc & _)|E].
  { eapply Forall_lookup_1 in Hcjk; [|exact Hc]. congruence. }
  destruct (decide (str_rfind 32 t = -1)) as [E0|E0]; [rewrite E, E0; apply prefix_nil|].
  destruct (rfind_spec 32 t) as (R1 & R2 & _). specialize (R2 ltac:(lia)).
  assert (Hlt : t' !! Z.to_nat (str_rfind 32 t) = Some 32).
  { destruct Hp as [k Hk]. rewrite Hk, E. rewrite lookup_app_l, lookup_take_lt; [done|lia|]. rewrite length_take. unfold zlen in R1. lia. }
  destruct (rfind_spec 32 t') as (R1' & _ & R3'). specialize (R3' _ Hlt).
  assert (Hlen : (length (find_printable_text t) ≤ length (find_printable_text t'))%nat); [|by rewrite (prefix_length_eq _ _ Hq Hlen)].
  unfold zlen in *. rewrite E. destruct (printable_cases t' Hu') as [(c & Hl & Hc & Hcc & ->)| ->]; rewrite !length_take; [|lia].
  destruct (decide (Z.to_nat (str_rfind 32 t) < length t' - 1)%nat) as [|Hge]; [lia|]. exfalso.
  destruct Hu' as [->|Hu']; [done|]. unfold complete in Hu'. apply dec_stable in Hu'. rewrite last_lookup in Hu'.
  replace (Init.Nat.pred (length t')) with (Z.to_nat (str_rfind 32 t)) in Hu' by lia. rewrite Hlt in Hu'. done.
Qed.

(** ** What incremental detokenization relies on

    Text does not change once it is complete, and the text of new ids depends on the ids before them only
    through a window of complete ones. *)

Class TextTokenizer (dec : list Z → list Z) := {
  tt_stable x z : strip (dec x) `prefix_of` dec (x ++ z);
  tt_context x y z : complete (dec x) → complete (dec (x ++ y)) → y ≠ [] →
    drop (length (dec y)) (dec (y ++ z)) = drop (length (dec (x ++ y))) (dec (x ++ y ++ z))
}.

Section text.
Context (dec : list Z → list Z) `{!TextTokenizer dec}.

Lemma dec_prefix x z : complete (dec x) → dec x `prefix_of` dec (x ++ z).
Proof. intros Hc. rewrite <- (strip_complete (dec x)) at 1 by done. apply tt_stable. Qed.

(** The text of [ids] after the context [c]. *)
Definition text_after (c ids : list Z) : list Z := drop (length (dec c)) (dec ids).

Lemma text_after_app c x z :
  complete (dec c) → complete (dec x) → c `prefix_of` x →
  dec (x ++ z) = dec x ++ text_after x (x ++ z) ∧ text_after c (x ++ z) = text_after c x ++ text_after x (x ++ z).
Proof.
  intros Hc Hx [k ->]. destruct (dec_prefix _ z Hx) as [t Ht]. destruct (dec_prefix c k Hc) as [u Hu]. unfold text_after.
  rewrite Ht, drop_app_length. split; [done|]. rewrite Hu, <- app_assoc, !drop_app_length. done.
Qed.

(** The state of a request between two messages: [x] is settled, [y] is the window around, [rest] is not
    committed. *)
Record decoding (c : list Z) (s : DecodeStatus) (x y rest : list Z) : Prop := {
  dg_ids : st_decode_ids s = x ++ y ++ rest;
  dg_surr : st_surr_offset s = zlen x;
  dg_read : st_read_offset s = zlen (x ++ y);
  dg_context : complete (dec c) ∧ c `prefix_of` x ++ y;
  dg_complete : complete (dec (x ++ y));
  dg_window : x = [] ∨ complete (dec x) ∧ y ≠ [];
  dg_text : st_decoded_text s = text_after c (x ++ y);
  dg_rest : unsettled (text_after y (y ++ rest));
  dg_sent : st_sent_offset s = zlen (st_decoded_text s ++ find_printable_text (text_after y (y ++ rest)))
}.

(** What was sent. *)
Definition shown (c x y rest : list Z) : list Z := text_after c (x ++ y) ++ find_printable_text (text_after y (y ++ rest)).

Lemma window_text c s x y rest z :
  decoding c s x y rest →
  text_after y (y ++ z) = text_after (x ++ y) (x ++ y ++ z)
  ∧ text_after c (x ++ y ++ z) = text_after c (x ++ y) ++ text_after y (y ++ z)
  ∧ dec (x ++ y ++ z) = dec (x ++ y) ++ text_after y (y ++ z).
Proof.
  intros [_ _ _ [D1 D2] D4 D5 _ _ _].
  assert (E : text_after y (y ++ z) = text_after (x ++ y) (x ++ y ++ z)).
  { destruct D5 as [->|[D3 D5]]; [done|]. by apply tt_context. }
  destruct (text_after_app c (x ++ y) z D1 D4 D2) as [T1 T2]. rewrite <- app_assoc in T1, T2. rewrite E. done.
Qed.

(** What was sent is part of what may be sent with more ids. *)
Lemma shown_stable c s x y rest z :
  decoding c s x y rest → shown c x y rest `prefix_of` text_after c (x ++ y ++ rest ++ z)
  ∧ (length (shown c x y rest) ≤ length (drop (length (dec c)) (strip (dec (x ++ y ++ rest)))))%nat.
Proof.
  intros Hd. destruct (window_text c s x y rest rest Hd) as (W1 & W2 & W3). destruct (window_text c s x y rest (rest ++ z) Hd) as (_ & V2 & V3).
  destruct Hd as [_ _ _ [D1 D2] D4 D5 _ D8 _]. destruct (printable_prefix _ D8) as [P1 P2].
  assert (Hall : dec (x ++ y) ++ find_printable_text (text_after y (y ++ rest)) `prefix_of` strip (dec (x ++ y ++ rest))).
  { apply prefix_strip; [|rewrite W3; by apply prefix_app].
    destruct (decide (find_printable_text (text_after y (y ++ rest)) = [])) as [->|Hne]; [by rewrite app_nil_r|by apply complete_app]. }
  destruct D2 as [k Hk]. destruct (dec_prefix c k D1) as [u Hu]. rewrite <- Hk in Hu.
  assert (Eu : text_after c (x ++ y) = u) by (unfold text_after; by rewrite Hu, drop_app_length).
  unfold shown. rewrite Eu. rewrite Hu in Hall. split.
  - assert (Hs : dec c ++ u ++ find_printable_text (text_after y (y ++ rest)) `prefix_of` dec (x ++ y ++ rest ++ z)).
    { rewrite app_assoc. etrans; [exact Hall|].
      replace (x ++ y ++ rest ++ z) with ((x ++ y ++ rest) ++ z) by (by rewrite <- !app_assoc). apply tt_stable. }
    destruct Hs as [v Hv]. unfold text_after at 2. rewrite Hv, <- !app_assoc, drop_app_length. by exists v; rewrite <- app_assoc.
  - destruct Hall as [v Hv]. rewrite Hv, <- !app_assoc, drop_app_length, !length_app. lia.
Qed.

(** No character of [t] is a CJK character. *)
Definition no_cjk (t : list Z) : Prop := Forall (λ c, is_chinese_char c = false) t.

(** Text that stays incomplete from one message to the next has no CJK characters. *)
Definition steady (c ids ids' : list Z) : Prop :=
  complete (dec ids) ∨ complete (dec ids') ∨ no_cjk (text_after c ids).

Lemma status_slices c s x y rest z :
  decoding c s x y rest →
  (st_decode_ids (st_extend z s))⟨st_surr_offset (st_extend z s):⟩ = y ++ rest ++ z
  ∧ py_slice (st_decode_ids (st_extend z s)) (st_surr_offset (st_extend z s)) (st_read_offset (st_extend z s)) = y.
Proof.
  intros [D1 D2 D3 _ _ _ _ _ _]. cbn [st_extend st_decode_ids st_surr_offset st_read_offset]. rewrite D1, D2, D3, <- !app_assoc. split.
  - rewrite slice_from_drop by apply zlen_nonneg. unfold zlen. by rewrite Nat2Z.id, drop_app_length.
  - unfold py_slice, norm_idx. pose proof (zlen_nonneg x). rewrite !zlen_app. pose proof (zlen_nonneg y).
    rewrite !bool_decide_false by lia. pose proof (zlen_nonneg (rest ++ z)). rewrite zlen_app in *.
    rewrite !Z.min_r by lia. replace (zlen x + zlen y - zlen x) with (zlen y) by lia. unfold zlen.
    by rewrite !Nat2Z.id, drop_app_length, take_app_length.
Qed.

Lemma text_after_nil y : text_after y (y ++ []) = [].
Proof. unfold text_after. by rewrite app_nil_r, drop_all. Qed.

(** What a complete text leaves pending. *)
Lemma complete_pending c s x y rest z :
  decoding c s x y rest → unsettled (text_after y (y ++ z)) → complete (dec (x ++ y ++ z)) → text_after y (y ++ z) = [].
Proof.
  intros Hd [E|Hn] Hc; [done|]. destruct (decide (text_after y (y ++ z) = [])) as [|Hne]; [done|]. destruct Hn.
  destruct (window_text c s x y rest z Hd) as (_ & _ & W). rewrite W in Hc. by apply complete_app in Hc.
Qed.

Lemma trim_str_none t b : trim_matched_stop_str t None b = t.
Proof. by destruct b. Qed.

Lemma sent_split c s x y rest (o : list Z) :
  decoding c s x y rest → shown c x y rest `prefix_of` o → shown c x y rest ++ o⟨st_sent_offset s:⟩ = o.
Proof.
  intros [_ _ _ _ _ _ D7 _ D9] [k ->]. rewrite D9, D7. change (text_after c (x ++ y) ++ _) with (shown c x y rest).
  rewrite slice_from_drop by apply zlen_nonneg. unfold zlen. by rewrite Nat2Z.id, drop_app_length.
Qed.

(** A message that leaves the text unsettled does not take back what was shown. *)
Lemma shown_grows c s x y rest z :
  decoding c s x y rest → steady c (x ++ y ++ rest) (x ++ y ++ rest ++ z) → unsettled (text_after y (y ++ rest ++ z)) →
  shown c x y rest `prefix_of` text_after c (x ++ y) ++ find_printable_text (text_after y (y ++ rest ++ z)).
Proof.
  intros Hd Hs Hu. pose proof (dg_rest _ _ _ _ _ Hd) as Hu0. destruct Hs as [Hs|[Hs|Hs]].
  - unfold shown. rewrite (complete_pending _ _ _ _ _ _ Hd Hu0 Hs). cbn. rewrite app_nil_r. by eexists.
  - destruct (shown_stable _ _ _ _ _ z Hd) as [Hp _]. destruct (window_text _ _ _ _ _ (rest ++ z) Hd) as (_ & W & _).
    rewrite W in Hp. by rewrite (complete_pending _ _ _ _ _ _ Hd Hu Hs) in *.
  - unfold shown. apply prefix_app. destruct (window_text _ _ _ _ _ rest Hd) as (_ & W2 & W3).
    destruct (window_text _ _ _ _ _ (rest ++ z) Hd) as (_ & _ & V3). apply printable_grows; [done..| |].
    + assert (Hst : strip (dec (x ++ y ++ rest)) `prefix_of` dec (x ++ y ++ rest ++ z)).
      { replace (x ++ y ++ rest ++ z) with ((x ++ y ++ rest) ++ z) by (by rewrite <- !app_assoc). apply tt_stable. }
      rewrite W3, V3, strip_app in Hst by apply (dg_complete _ _ _ _ _ Hd). by apply prefix_app_inv in Hst.
    + unfold no_cjk in Hs. rewrite W2 in Hs. by apply Forall_app in Hs as [_ ?].
Qed.

Lemma emit_new y t (s : text) : dec y = s → (dec (y ++ t))⟨zlen s:⟩ = text_after y (y ++ t).
Proof. intros <-. rewrite slice_from_drop by apply zlen_nonneg. unfold zlen. by rewrite Nat2Z.id. Qed.

(** A message in the middle of a request. *)
Lemma emit_more c s x y rest m z :
  decoding c s x y rest → sm_finished_reason (dm_msg m) = None → steady c (x ++ y ++ rest) (x ++ y ++ rest ++ z) →
  ∃ s' x' y' rest' out, emit_text m (st_extend z s) (dec (y ++ rest ++ z)) (dec y) = (Some s', out)
    ∧ decoding c s' x' y' rest' ∧ x' ++ y' ++ rest' = x ++ y ++ rest ++ z
    ∧ shown c x' y' rest' = shown c x y rest ++ out.
Proof.
  intros Hd Hr Hs. unfold emit_text. rewrite Hr, (emit_new y _ _ eq_refl). set (n := text_after y (y ++ rest ++ z)).
  destruct (window_text _ _ _ _ _ (rest ++ z) Hd) as (_ & W2 & W3). fold n in W2, W3.
  destruct (shown_stable _ _ _ _ _ z Hd) as [Hp _]. pose proof Hd as [D1 D2 D3 [D4 D4'] D5 D6 D7 D8 D9].
  destruct (bool_decide (0 < zlen n) && negb (ends_with_char REPLACEMENT n)) eqn:E; cbv beta iota; rewrite trim_str_none.
  - apply andb_true_iff in E as [E1%bool_decide_eq_true E2%negb_true_iff]. apply bool_decide_eq_false in E2.
    assert (Hn : n ≠ []) by (intros Hn; rewrite Hn in E1; done).
    eexists _, (x ++ y), (rest ++ z), [], _. split; [done|]. rewrite !app_nil_r, <- !app_assoc.
    assert (Hsh : shown c (x ++ y) (rest ++ z) [] = text_after c (x ++ y ++ rest ++ z)).
    { unfold shown. rewrite text_after_nil. cbn. by rewrite app_nil_r, <- app_assoc. }
    split; [|split; [done|]].
    + split; cbn [st_sent st_commit st_extend st_decode_ids st_surr_offset st_read_offset st_decoded_text st_sent_offset];
        rewrite ?app_nil_r, ?D1, <- ?app_assoc; try done.
      * split; [done|]. etrans; [exact D4'|]. exists (rest ++ z). by rewrite <- app_assoc.
      * rewrite W3. by apply complete_app.
      * right. split; [done|]. intros En. apply Hn. unfold n. rewrite En. apply text_after_nil.
      * by rewrite D7, W2.
      * left. apply drop_all.
      * unfold text_after. rewrite drop_all. cbn. by rewrite app_nil_r.
    + rewrite Hsh. cbn [st_decoded_text st_commit st_extend st_sent_offset]. rewrite D7, ?app_nil_r, <- W2. symmetry. by eapply sent_split.
  - assert (Hu : unsettled n).
    { apply andb_false_iff in E as [E%bool_decide_eq_false|E%negb_false_iff%bool_decide_eq_true].
      - left. destruct n; [done|]. rewrite zlen_cons in E. pose proof (zlen_nonneg n). lia.
      - right. by intros Hc. }
    eexists _, x, y, (rest ++ z), _. split; [done|]. split; [|split; [done|]].
    + split; cbn [st_sent st_extend st_decode_ids st_surr_offset st_read_offset st_decoded_text st_sent_offset]; try done.
      by rewrite D1, <- !app_assoc.
    + change (shown c x y (rest ++ z)) with (text_after c (x ++ y) ++ find_printable_text n). cbn [st_decoded_text st_extend st_sent_offset].
      rewrite D7. symmetry. eapply sent_split; [done|]. by apply (shown_grows c s).
Qed.

(** The last message of a request. *)
Lemma emit_last c s x y rest m z z' f :
  decoding c s x y rest → sm_finished_reason (dm_msg m) = Some f →
  let final := trim_matched_stop_str (text_after c (x ++ y ++ rest ++ z')) (Some f) (dm_no_stop_trim m) in
  (length (shown c x y rest) ≤ length final)%nat →
  ∃ out, emit_text m (st_extend z s) (dec (y ++ rest ++ z')) (dec y) = (None, out) ∧ shown c x y rest ++ out = final.
Proof.
  intros Hd Hr final Hle. unfold emit_text. rewrite Hr, (emit_new y _ _ eq_refl).
  destruct (window_text _ _ _ _ _ (rest ++ z') Hd) as (_ & W2 & _). destruct (shown_stable _ _ _ _ _ z' Hd) as [Hp _].
  eexists. split; [done|]. cbn [st_decoded_text st_extend st_sent_offset]. rewrite (dg_text _ _ _ _ _ Hd), <- W2. fold final.
  eapply sent_split; [done|]. assert (Hf : final `prefix_of` text_after c (x ++ y ++ rest ++ z')).
  { unfold final, trim_matched_stop_str. destruct (dm_no_stop_trim m); [done|]. change (Some f ≫= reason_matched) with (reason_matched f). destruct (reason_matched f) as [[t|t]|]; try reflexivity.
    case_bool_decide; [done|]. destruct (str_find _ _); [apply prefix_take|done]. }
  destruct (prefix_weak_total _ _ _ Hp Hf) as [|Hq]; [done|]. by rewrite (prefix_length_eq _ _ Hq Hle).
Qed.

End text.
