(* ===== verification/DetokProps.v ===== *)
(** * The detokenizer: theorems

    Decoding in groups is decoding one by one.  The texts that a request is sent, put together, are the text of
    its whole output: under two laws of the tokenizer, both of which incremental detokenization relies on, the
    windows of ids that are decoded again and again telescope. *)

From S2P Require Import Prelude PyDict DecodeBatch RetractProps Sampling Finish ResultProc Detokenizer DetokText.

(** ** Decoding in groups *)

Section groups.
Context (decode : bool → bool → list Z → text) (batch_decode : bool → bool → list (list Z) → list text).
Context (Hbatch : ∀ skip space l, batch_decode skip space l = map (decode skip space) l).

Definition decode_each (ids_list : list (list Z)) (flags : list (bool * bool)) : list text :=
  zip_with (λ ids f, decode f.1 f.2 ids) ids_list flags.

(** Every index is in the group of its flags. *)
Definition grouped (groups : list (bool * bool * list nat)) (i : nat) (f : bool * bool) : Prop := ∃ l, (f, l) ∈ groups ∧ i ∈ l.

Lemma add_group_ok groups key idx i f :
  grouped (add_group groups key idx) i f ↔ grouped groups i f ∨ (i = idx ∧ f = key).
Proof.
  unfold grouped. induction groups as [|[k l] groups IH]; cbn [add_group].
  - split; [intros (l & [= -> ->]%list_elem_of_singleton & Hi); right; set_solver|]. intros [(l & Hl & Hi)|[-> ->]]; [set_solver|]. exists [idx]. set_solver.
  - case_bool_decide as E.
    + subst k. split.
      * intros (l' & [[= -> ->]|Hl']%elem_of_cons & Hi); [|left; exists l'; set_solver].
        apply elem_of_app in Hi as [Hi|Hi]; [left; exists l; set_solver|set_solver].
      * intros [(l' & [[= -> ->]|Hl']%elem_of_cons & Hi)|[-> ->]]; [exists (l ++ [idx])|exists l'|exists (l ++ [idx])]; set_solver.
    + split.
      * intros (l' & [[= -> ->]|Hl']%elem_of_cons & Hi); [left; exists l; set_solver|].
        destruct (proj1 IH) as [(l0 & ? & ?)|?]; [by exists l'|left; exists l0; set_solver|by right].
      * intros [(l' & [[= -> ->]|Hl']%elem_of_cons & Hi)|H]; [exists l; set_solver| |];
          (destruct (proj2 IH) as (l0 & ? & ?); [|exists l0; set_solver]); [left; by exists l'|by right].
Qed.

Lemma group_indices_ok flags : ∀ groups idx i f,
  grouped (group_indices groups idx flags) i f ↔ grouped groups i f ∨ (idx ≤ i ∧ flags !! (i - idx) = Some f)%nat.
Proof.
  induction flags as [|key flags IH]; intros groups idx i f; cbn [group_indices].
  { rewrite lookup_nil. naive_solver. }
  rewrite IH, add_group_ok. split.
  - intros [[?|[-> ->]]|[Hle Hf]]; [by left|right|right].
    + by rewrite Nat.sub_diag.
    + split; [lia|]. by replace (i - idx)%nat with (S (i - S idx)) by lia.
  - intros [?|[Hle Hf]]; [by left; left|]. destruct (decide (i = idx)) as [->|Hne].
    + rewrite Nat.sub_diag in Hf. left. right. by inversion Hf.
    + right. split; [lia|]. replace (i - idx)%nat with (S (i - S idx)) in Hf by lia. done.
Qed.

Lemma assign_all_lookup (target : list text) assigns : ∀ results,
  (∀ i t, (i, t) ∈ assigns → target !! i = Some t ∧ is_Some (results !! i)) →
  length (assign_all results assigns) = length results
  ∧ ∀ i, assign_all results assigns !! i = if bool_decide (i ∈ assigns.*1) then target !! i else results !! i.
Proof.
  induction assigns as [|[j t] assigns IH]; intros results Ha; cbn [assign_all]; [done|].
  destruct (Ha j t ltac:(set_solver)) as [Hj Hlt]. destruct (IH (<[j := t]> results)) as [I1 I2].
  { intros i u Hi. destruct (Ha i u ltac:(set_solver)) as [? ?]. split; [done|]. by rewrite lookup_lt_is_Some, length_insert, <- lookup_lt_is_Some. }
  split; [by rewrite I1, length_insert|]. intros i. rewrite I2. cbn [fmap list_fmap fst]. destruct (decide (i = j)) as [->|Hne].
  - rewrite (bool_decide_true (j ∈ j :: _)) by set_solver. case_bool_decide; [done|].
    rewrite list_lookup_insert_eq by (by apply lookup_lt_is_Some). done.
  - rewrite list_lookup_insert_ne by done. rewrite (bool_decide_ext (i ∈ j :: assigns.*1) (i ∈ assigns.*1)) by set_solver. done.
Qed.

Lemma decode_groups_ok ids_list flags groups : ∀ results,
  length flags = length ids_list → length results = length ids_list →
  (∀ i f, grouped groups i f → flags !! i = Some f) →
  ∃ results', decode_groups batch_decode ids_list groups results = Ok results' ∧ length results' = length results
    ∧ ∀ i, (∃ f, grouped groups i f) ∨ results !! i = decode_each ids_list flags !! i → results' !! i = decode_each ids_list flags !! i.
Proof.
  induction groups as [|[[skip space] idx] groups IH]; intros results Hlen Hres Hg; cbn [decode_groups].
  { eexists. split; [done|]. split; [done|]. intros i [(f & l & Hl & _)|?]; [set_solver|done]. }
  assert (Hidx : ∀ i, i ∈ idx → flags !! i = Some (skip, space)) by (intros i Hi; apply Hg; exists idx; set_solver).
  assert (Hids : ∀ i, i ∈ idx → (i < length ids_list)%nat).
  { intros i Hi. rewrite <- Hlen. apply lookup_lt_is_Some. rewrite Hidx by done. by eexists. }
  destruct (at_indices_exists ids_list idx) as [ids Hf]; [by apply Forall_forall|]. rewrite (pick_ok _ _ _ Hf). cbn [mbind res_bind]. rewrite Hbatch.
  destruct (assign_all_lookup (decode_each ids_list flags) (zip idx (map (decode skip space) ids)) results) as [A1 A2].
  { intros i t Hit. apply list_elem_of_lookup in Hit as [k Hk]. apply lookup_zip_with_Some in Hk as (i' & t' & [= <- <-] & Hi & Ht).
    rewrite list_lookup_fmap in Ht. destruct (ids !! k) as [x|] eqn:Ex; [|done]. inversion Ht; subst.
    pose proof (Forall2_lookup_lr _ _ _ _ _ _ Hf Hi Ex) as Hx. assert (i ∈ idx) by (by eapply list_elem_of_lookup_2). split.
    - unfold decode_each. rewrite lookup_zip_with, Hx, (Hidx i) by done. done.
    - apply lookup_lt_is_Some. rewrite Hres. auto. }
  destruct (IH (assign_all results (zip idx (map (decode skip space) ids))) Hlen ltac:(congruence)) as (results' & -> & R1 & R2).
  { intros i f (l & Hl & Hi). apply Hg. exists l. set_solver. }
  eexists. split; [done|]. split; [congruence|]. intros i Hi. apply R2. rewrite A2.
  assert (Ez : (zip idx (map (decode skip space) ids)).*1 = idx).
  { apply fst_zip. rewrite length_map. by rewrite (Forall2_length _ _ _ Hf). }
  rewrite Ez. case_bool_decide as Ein; [by right|]. destruct Hi as [(f & l & [[= -> ->]|Hl]%elem_of_cons & Hi)|Hi]; [done| |by right].
  left. exists f, l. done.
Qed.

Lemma grouped_decode_each ids_list flags :
  length ids_list = length flags → flags ≠ [] → grouped_batch_decode batch_decode ids_list flags = Ok (decode_each ids_list flags).
Proof.
  intros Hlen Hne. unfold grouped_batch_decode. destruct flags as [|[skip space] flags']; [done|]. set (flags := (skip, space) :: flags') in *.
  destruct (forallb _ flags) eqn:Eall.
  - rewrite Hbatch. f_equal. assert (Hall : Forall (λ f, f = (skip, space)) flags).
    { apply Forall_forall. intros f Hf%list_elem_of_In. rewrite forallb_forall in Eall. apply Eall, bool_decide_eq_true in Hf. done. }
    clear Eall Hne. clearbody flags. revert ids_list Hlen. induction Hall as [|f flags Hf _ IH]; intros [|ids l] Hlen; try done.
    cbn [map decode_each zip_with]. subst f. f_equal. apply IH. by inversion Hlen.
  - destruct (decode_groups_ok ids_list flags (group_indices [] 0 flags) (replicate (length ids_list) [])) as (r & -> & R1 & R2);
      [done|by rewrite length_replicate| |].
    { intros i f [(l & Hl & _)|[_ Hf]]%group_indices_ok; [set_solver|]. by rewrite Nat.sub_0_r in Hf. }
    f_equal. apply list_eq_same_length with (n := length ids_list);
      [unfold decode_each; rewrite length_zip_with; lia|by rewrite R1, length_replicate|].
    intros i x y Hi Hx Hy. rewrite R2 in Hx; [congruence|]. left.
    destruct (lookup_lt_is_Some_2 flags i ltac:(lia)) as [f Hf]. exists f. apply group_indices_ok. right. by rewrite Nat.sub_0_r; split; [lia|].
Qed.

End groups.

(** ** Each request by itself

    The specification: a request has its own status and its own decoder; nothing is shared. *)

Section loop.
Context (decode : bool → bool → list Z → text) (batch_decode : bool → bool → list (list Z) → list text).
Context (Hbatch : ∀ skip space l, batch_decode skip space l = map (decode skip space) l).
Context (gpt_oss no_batch : bool) (capacity : Z).
Let handle := handle_batch_token_id_out decode batch_decode gpt_oss no_batch capacity.
Let loop := detok_loop decode batch_decode gpt_oss no_batch capacity.

Definition status_for (s : option DecodeStatus) (m : DetokMsg) : DecodeStatus :=
  match s with
  | None => mkDecodeStatus (sm_decoded_text (dm_msg m)) (sm_decode_ids (dm_msg m)) 0 (sm_read_offset (dm_msg m)) 0
  | Some s => st_extend (sm_decode_ids (dm_msg m)) s
  end.

Definition read_ids (s : DecodeStatus) (m : DetokMsg) : res (list Z) :=
  trim_matched_stop_ids gpt_oss ((st_decode_ids s)⟨st_surr_offset s:⟩) (sm_finished_reason (dm_msg m)) (dm_no_stop_trim m).

Definition surr_ids (s : DecodeStatus) : list Z := py_slice (st_decode_ids s) (st_surr_offset s) (st_read_offset s).

Definition decode_for (m : DetokMsg) : list Z → text := decode (dm_skip_special_tokens m) (dm_spaces_between_special_tokens m).

Definition detok_one (s : option DecodeStatus) (m : DetokMsg) : res (option DecodeStatus * text) :=
  let s := status_for s m in
  read ← read_ids s m;
  Ok (emit_text m s (decode_for m read) (decode_for m (surr_ids s))).

Fixpoint run_one (s : option DecodeStatus) (msgs : list DetokMsg) : res (option DecodeStatus * list text) :=
  match msgs with
  | [] => Ok (s, [])
  | m :: rest => '(s, out) ← detok_one s m; '(s, outs) ← run_one s rest; Ok (s, out :: outs)
  end.

(** ** One batch *)

Definition opened (open : list string) (msgs : list DetokMsg) : list string :=
  List.filter (λ k, bool_decide (k ∉ open)) (map dm_rid msgs).

Definition closed (msgs : list DetokMsg) : list string :=
  map dm_rid (List.filter (λ m, bool_decide (is_Some (sm_finished_reason (dm_msg m)))) msgs).

Lemma dict_set_len {A} (d : dict A) k v : zlen (dict_set d k v) = if bool_decide (k ∈ dict_keys d) then zlen d else zlen d + 1.
Proof.
  assert (E : ∀ d' : dict A, zlen d' = zlen (dict_keys d')) by (intros d'; unfold zlen, dict_keys; by rewrite length_fmap).
  rewrite !E, dict_set_keys. case_bool_decide; [done|]. rewrite zlen_app. done.
Qed.

Lemma collect_ok msgs : ∀ d,
  NoDup (map dm_rid msgs) → zlen d + zlen (opened (dict_keys d) msgs) ≤ capacity →
  Forall (λ m, ∃ read, read_ids (status_for (dict_get d (dm_rid m)) m) m = Ok read) msgs →
  ∃ d' reads, collect_ids gpt_oss capacity d msgs = Ok (d', reads, map (λ m, surr_ids (status_for (dict_get d (dm_rid m)) m)) msgs)
    ∧ Forall2 (λ m read, read_ids (status_for (dict_get d (dm_rid m)) m) m = Ok read) msgs reads
    ∧ (∀ m, m ∈ msgs → dict_get d' (dm_rid m) = Some (status_for (dict_get d (dm_rid m)) m))
    ∧ (∀ k, k ∉ map dm_rid msgs → dict_get d' k = dict_get d k)
    ∧ dict_keys d' = dict_keys d ++ opened (dict_keys d) msgs.
Proof.
  induction msgs as [|m msgs IH]; intros d Hnd Hroom Hread.
  { exists d, []. split_and!; try done; [by intros ? ?%not_elem_of_nil|by rewrite app_nil_r]. }
  cbn [map] in Hnd. apply NoDup_cons in Hnd as [Hni Hnd]. apply Forall_cons in Hread as [(read & Hr) Hread]. cbn [collect_ids].
  set (s := status_for (dict_get d (dm_rid m)) m) in *. set (k := dm_rid m) in *.
  assert (Hset : (match dict_get d k with
                  | None => d0 ← limited_set capacity d k s; Ok (s, d0)
                  | Some _ => Ok (s, dict_set d k s) end) = Ok (s, dict_set d k s)
                 ∧ dict_keys (dict_set d k s) = dict_keys d ++ opened (dict_keys d) [m]).
  { rewrite dict_set_keys. unfold opened in *. cbn [map List.filter] in *. fold k in Hroom |- *. destruct (dict_get d k) eqn:Ek.
    - rewrite (bool_decide_true (k ∈ _)) by (apply dict_get_keys; by eexists). rewrite bool_decide_false by (intros Hn; apply Hn, dict_get_keys; by eexists).
      by rewrite app_nil_r.
    - assert (Hn : k ∉ dict_keys d) by (rewrite <- dict_get_keys, Ek; by intros [? ?]).
      rewrite (bool_decide_false (k ∈ _)) by done. rewrite (bool_decide_true (k ∉ _)) in * by done. split; [|done].
      unfold limited_set. rewrite zlen_cons in Hroom. pose proof (zlen_nonneg (List.filter (λ k, bool_decide (k ∉ dict_keys d)) (map dm_rid msgs))).
      rewrite bool_decide_false by lia. done. }
  destruct Hset as [Hset Hkeys].
  assert (Hget : ∀ m', m' ∈ msgs → dict_get (dict_set d k s) (dm_rid m') = dict_get d (dm_rid m')).
  { intros m' Hm'. apply dict_get_set_ne. intros E. apply Hni. rewrite E. by apply list_elem_of_fmap_2. }
  assert (Hop : opened (dict_keys (dict_set d k s)) msgs = opened (dict_keys d) msgs).
  { unfold opened. apply List.filter_ext_in. intros k' Hk'%list_elem_of_In. apply bool_decide_ext. rewrite dict_set_keys.
    case_bool_decide; [done|]. assert (k' ≠ k) by (intros ->; done). set_solver. }
  assert (Hsplit : opened (dict_keys d) (m :: msgs) = opened (dict_keys d) [m] ++ opened (dict_keys d) msgs).
  { unfold opened. by rewrite <- List.filter_app. }
  destruct (IH (dict_set d k s) Hnd) as (d' & reads & Hgo & Hf & Hin & Hout & Hkd).
  { rewrite Hop. rewrite Hsplit, zlen_app in Hroom.
    assert (E : ∀ d' : dict DecodeStatus, zlen d' = zlen (dict_keys d')) by (intros d'; unfold zlen, dict_keys; by rewrite length_fmap).
    rewrite E, Hkeys, zlen_app, <- E. lia. }
  { apply Forall_forall. intros m' Hm'. rewrite Hget by done. by apply (proj1 (Forall_forall _ _) Hread). }
  exists d', (read :: reads). split_and!.
  - replace (match dict_get d k with None => _ | Some s0 => _ end) with (Ok (s, dict_set d k s))
      by (rewrite <- Hset; unfold s, k, status_for; by destruct (dict_get d (dm_rid m))).
    cbn [mbind res_bind]. unfold read_ids in Hr. rewrite Hr. cbn [mbind res_bind]. rewrite Hgo. cbn [mbind res_bind map]. f_equal. f_equal. f_equal.
    apply map_ext_in. intros m' Hm'%list_elem_of_In. by rewrite Hget.
  - constructor; [done|]. clear -Hf Hget. induction Hf as [|m' r' l l' H1 _ IH]; constructor; [rewrite Hget in H1 by set_solver; done|].
    apply IH. intros m0 Hm0. apply Hget. set_solver.
  - intros m' [->|Hm']%elem_of_cons; [|by rewrite <- Hget, <- Hin by done]. rewrite Hout by done. apply dict_get_set_eq.
  - intros k' Hk'. cbn [map] in Hk'. apply not_elem_of_cons in Hk' as [Hne Hk']. rewrite Hout by done. by apply dict_get_set_ne.
  - by rewrite Hkd, Hop, Hkeys, Hsplit, app_assoc.
Qed.

Lemma dict_pop_keys {A} (d : dict A) k : dict_keys (dict_pop d k) = List.filter (λ k', bool_decide (k' ≠ k)) (dict_keys d).
Proof.
  unfold dict_pop, dict_keys. induction d as [|[k' v] d IH]; [done|]. rewrite filter_cons. cbn [fmap list_fmap fst List.filter].
  case_decide; case_bool_decide; try done. by rewrite <- IH.
Qed.

Lemma filter_and {A} (f g : A → bool) l : List.filter f (List.filter g l) = List.filter (λ x, g x && f x) l.
Proof. induction l as [|x l IH]; [done|]. cbn [List.filter]. destruct (g x); cbn [List.filter andb]; [|done]. destruct (f x); by rewrite IH. Qed.

Lemma emit_text_reason m s r t : is_Some (emit_text m s r t).1 ↔ sm_finished_reason (dm_msg m) = None.
Proof.
  unfold emit_text. destruct (sm_finished_reason (dm_msg m)); cbn.
  - split; [by intros [? ?]|done].
  - destruct (_ && _); cbn; split; try done; by eexists.
Qed.

Lemma emit_ok rows : ∀ d,
  NoDup (map (λ x, dm_rid x.1) rows) → (∀ x, x ∈ rows → is_Some (dict_get d (dm_rid x.1))) →
  ∃ d' outs, emit_texts d rows = Ok (d', outs)
    ∧ Forall2 (λ x out, ∃ s, dict_get d (dm_rid x.1) = Some s ∧ emit_text x.1 s x.2.1 x.2.2 = (dict_get d' (dm_rid x.1), out)) rows outs
    ∧ (∀ k, k ∉ map (λ x, dm_rid x.1) rows → dict_get d' k = dict_get d k)
    ∧ dict_keys d' = List.filter (λ k, bool_decide (k ∉ closed (map fst rows))) (dict_keys d).
Proof.
  induction rows as [|[m [rt st]] rows IH]; intros d Hnd Hin.
  { exists d, []. split_and!; try done. symmetry. apply forallb_filter_id. apply forallb_forall. intros k _. by apply bool_decide_eq_true_2, not_elem_of_nil. }
  cbn [map fst] in Hnd. apply NoDup_cons in Hnd as [Hni Hnd]. destruct (Hin (m, (rt, st)) ltac:(set_solver)) as [s Hs]. cbn [fst] in Hs.
  cbn [emit_texts]. rewrite Hs. pose proof (emit_text_reason m s rt st) as Hreason. destruct (emit_text m s rt st) as [s' out] eqn:Ee. cbn [fst] in Hreason.
  set (d1 := match s' with Some s'' => dict_set d (dm_rid m) s'' | None => dict_pop d (dm_rid m) end).
  assert (Hget : ∀ k, k ≠ dm_rid m → dict_get d1 k = dict_get d k).
  { intros k Hk. unfold d1. destruct s'; [by apply dict_get_set_ne|]. rewrite dict_get_pop. by rewrite bool_decide_false. }
  assert (Hself : dict_get d1 (dm_rid m) = s').
  { unfold d1. destruct s'; [apply dict_get_set_eq|]. rewrite dict_get_pop. by rewrite bool_decide_true. }
  assert (Hne : ∀ x, x ∈ rows → dm_rid x.1 ≠ dm_rid m).
  { intros x Hx E. apply Hni. rewrite <- E. apply list_elem_of_fmap. by exists x. }
  destruct (IH d1 Hnd) as (d' & outs & -> & Hf & Hout & Hkeys).
  { intros x Hx. rewrite Hget by (by apply Hne). apply Hin. set_solver. }
  cbn [mbind res_bind]. exists d', (out :: outs). split_and!; [done|..].
  - constructor.
    + exists s. split; [done|]. cbn [fst snd]. by rewrite Ee, Hout, Hself.
    + clear -Hf Hget Hne. induction Hf as [|x o l l' (s0 & H1 & H2) _ IH]; constructor; [|apply IH; intros; apply Hne; set_solver].
      exists s0. split; [|done]. by rewrite <- Hget by (apply Hne; set_solver).
  - intros k Hk. cbn [map fst] in Hk. apply not_elem_of_cons in Hk as [Hk1 Hk2]. rewrite Hout by done. by apply Hget.
  - rewrite Hkeys. unfold closed. cbn [map fst List.filter]. unfold d1. destruct s' as [s'|].
    + rewrite bool_decide_false by (intros [f Hf']; destruct Hreason as [Hr _]; rewrite Hr in Hf' by (by eexists); done).
      rewrite dict_set_keys, bool_decide_true; [done|]. apply dict_get_keys. by eexists.
    + rewrite bool_decide_true.
      * rewrite dict_pop_keys, filter_and. apply List.filter_ext. intros k. cbn [map]. rewrite <- bool_decide_and. apply bool_decide_ext. set_solver.
      * apply not_eq_None_Some. intros E. apply Hreason in E. by destruct E.
Qed.

Lemma decode_texts_each ids_list msgs :
  length ids_list = length msgs → msgs ≠ [] →
  decode_texts decode batch_decode no_batch ids_list (map dm_flags msgs) = Ok (zip_with (λ m ids, decode_for m ids) msgs ids_list).
Proof.
  intros Hlen Hne. assert (E : decode_each decode ids_list (map dm_flags msgs) = zip_with (λ m ids, decode_for m ids) msgs ids_list).
  { unfold decode_each. clear Hne. revert ids_list Hlen. induction msgs as [|m msgs IH]; intros [|ids l] Hl; try done.
    cbn [map zip_with]. f_equal. apply IH. by inversion Hl. }
  unfold decode_texts. destruct no_batch; [by f_equal|]. rewrite (grouped_decode_each _ _ Hbatch), E; [done|by rewrite length_map|].
  by destruct msgs.
Qed.

(** The requests with a status after a batch. *)
Definition open_after (open : list string) (msgs : list DetokMsg) : list string :=
  List.filter (λ k, bool_decide (k ∉ closed msgs)) (open ++ opened open msgs).

Lemma detok_one_read s m r : detok_one s m = Ok r → ∃ read, read_ids (status_for s m) m = Ok read.
Proof. unfold detok_one. destruct (read_ids _ _) as [read|]; [by exists read|done]. Qed.

Lemma handle_ok d msgs :
  NoDup (map dm_rid msgs) → zlen d + zlen (opened (dict_keys d) msgs) ≤ capacity →
  Forall (λ m, ∃ r, detok_one (dict_get d (dm_rid m)) m = Ok r) msgs →
  ∃ d' outs, handle d msgs = Ok (d', outs)
    ∧ Forall2 (λ m out, detok_one (dict_get d (dm_rid m)) m = Ok (dict_get d' (dm_rid m), out)) msgs outs
    ∧ (∀ k, k ∉ map dm_rid msgs → dict_get d' k = dict_get d k)
    ∧ dict_keys d' = open_after (dict_keys d) msgs.
Proof.
  intros Hnd Hroom Hone. unfold handle, handle_batch_token_id_out. case_bool_decide as Hpos.
  2:{ destruct msgs; [|rewrite zlen_cons in Hpos; pose proof (zlen_nonneg msgs); lia]. exists d, []. split_and!; try done.
      unfold open_after, opened. cbn. rewrite app_nil_r. symmetry. apply forallb_filter_id, forallb_forall. intros k _. apply bool_decide_eq_true_2, not_elem_of_nil. }
  assert (Hne : msgs ≠ []) by (by intros ->).
  destruct (collect_ok msgs d Hnd Hroom) as (d1 & reads & Hgo & Hf & Hin & Hout & Hkeys).
  { eapply Forall_impl; [exact Hone|]. intros m [r Hr]. by eapply detok_one_read. }
  unfold decode_batch_token_id_output. rewrite Hgo. cbn [mbind res_bind]. pose proof (Forall2_length _ _ _ Hf) as Hlen.
  rewrite !decode_texts_each; [|by rewrite ?length_map..]. cbn [mbind res_bind].
  set (rows := zip msgs _).
  assert (Hrows : rows = zip_with (λ m read, (m, (decode_for m read, decode_for m (surr_ids (status_for (dict_get d (dm_rid m)) m))))) msgs reads).
  { unfold rows. clear -Hf. induction Hf as [|m r l l' _ _ IH]; [done|]. cbn [map zip_with zip]. by rewrite IH. }
  assert (Hfst : map fst rows = msgs) by (rewrite Hrows; clear -Hlen; revert reads Hlen; induction msgs as [|m l IH]; intros [|r l'] Hl; try done;
    cbn [zip_with map fst]; f_equal; apply IH; by inversion Hl).
  assert (Hrid : map (λ x, dm_rid x.1) rows = map dm_rid msgs) by (by rewrite <- Hfst, map_map).
  destruct (emit_ok rows d1) as (d' & outs & -> & He & Hout' & Hkeys').
  { by rewrite Hrid. }
  { intros x Hx. assert (x.1 ∈ msgs) by (rewrite <- Hfst; by apply list_elem_of_fmap_2). rewrite Hin by done. by eexists. }
  exists d', outs. split_and!; [done|..].
  - rewrite Hrows in He. clear -He Hf Hin. revert outs He. induction Hf as [|m read l l' Hr _ IH]; intros outs He; cbn [zip_with] in He; inversion He as [|? out ? outs' (s & Hs & Hm) He']; subst; constructor.
    + unfold detok_one. rewrite Hr. cbn [mbind res_bind]. cbn [fst snd] in Hs, Hm. rewrite Hin in Hs by set_solver. inversion Hs; subst. by rewrite Hm.
    + apply IH; [|done]. intros m' Hm'. apply Hin. set_solver.
  - intros k Hk. rewrite Hout' by (by rewrite Hrid). by apply Hout.
  - rewrite Hkeys', Hfst, Hkeys. done.
Qed.

(** ** The loop *)

Definition of_rid (k : string) (msgs : list DetokMsg) : list DetokMsg := List.filter (λ m, bool_decide (dm_rid m = k)) msgs.

Definition outs_of_rid (k : string) (msgs : list DetokMsg) (outs : list text) : list text :=
  map snd (List.filter (λ x, bool_decide (dm_rid x.1 = k)) (zip msgs outs)).

Lemma rid_cases k b outs :
  NoDup (map dm_rid b) → length b = length outs →
  ((k ∉ map dm_rid b) ∧ of_rid k b = [] ∧ outs_of_rid k b outs = [])
  ∨ ∃ i m o, b !! i = Some m ∧ outs !! i = Some o ∧ dm_rid m = k ∧ of_rid k b = [m] ∧ outs_of_rid k b outs = [o].
Proof.
  unfold of_rid, outs_of_rid. revert outs. induction b as [|m b IH]; intros [|o outs] Hnd Hl; try done.
  { left. split_and!; [apply not_elem_of_nil|done..]. }
  cbn [map] in Hnd. apply NoDup_cons in Hnd as [Hni Hnd]. cbn [zip zip_with List.filter map fst].
  destruct (IH outs Hnd ltac:(by inversion Hl)) as [(H1 & H2 & H3)|(i & m' & o' & H1 & H2 & H3 & H4 & H5)].
  - case_bool_decide as E.
    + right. exists 0%nat, m, o. cbn [map]. by rewrite H2, H3.
    + left. split_and!; [|done..]. by apply not_elem_of_cons.
  - rewrite bool_decide_false; [right; by exists (S i), m', o'|]. intros E. apply Hni. rewrite E, <- H3.
    apply list_elem_of_fmap_2. by eapply list_elem_of_lookup_2.
Qed.

(** Each batch has a request at most once, and the statuses fit. *)
Fixpoint fits (open : list string) (batches : list (list DetokMsg)) : Prop :=
  match batches with
  | [] => True
  | b :: rest => NoDup (map dm_rid b) ∧ zlen open + zlen (opened open b) ≤ capacity ∧ fits (open_after open b) rest
  end.

Lemma of_rid_app k l l' : of_rid k (l ++ l') = of_rid k l ++ of_rid k l'.
Proof. apply List.filter_app. Qed.

Lemma outs_of_rid_app k l l' o o' : length l = length o → outs_of_rid k (l ++ l') (o ++ o') = outs_of_rid k l o ++ outs_of_rid k l' o'.
Proof. intros Hl. unfold outs_of_rid. rewrite zip_with_app by done. by rewrite List.filter_app, map_app. Qed.

Lemma keys_len {A} (d : dict A) : zlen (dict_keys d) = zlen d.
Proof. unfold zlen, dict_keys. by rewrite length_fmap. Qed.

Lemma loop_refines batches : ∀ d,
  fits (dict_keys d) batches → (∀ k, ∃ r, run_one (dict_get d k) (of_rid k (concat batches)) = Ok r) →
  ∃ d' outs, loop d batches = Ok (d', outs) ∧ Forall2 (λ b o, length b = length o) batches outs
    ∧ ∀ k, run_one (dict_get d k) (of_rid k (concat batches)) = Ok (dict_get d' k, outs_of_rid k (concat batches) (concat outs)).
Proof.
  induction batches as [|b batches IH]; intros d Hfit Hone; cbn [fits] in Hfit.
  { exists d, []. split_and!; [done|constructor|done]. }
  destruct Hfit as (Hnd & Hroom & Hfit). rewrite keys_len in Hroom.
  destruct (handle_ok d b Hnd Hroom) as (d1 & o & Hgo & Hf & Hout & Hkeys).
  { apply Forall_forall. intros m Hm. destruct (Hone (dm_rid m)) as [r Hr]. cbn [concat] in Hr. rewrite of_rid_app in Hr.
    destruct (rid_cases (dm_rid m) b (replicate (length b) []) Hnd) as [(Hn & _)|(i & m' & ? & Hi & _ & E & E1 & _)]; [by rewrite length_replicate|by destruct Hn; apply list_elem_of_fmap_2|].
    assert (m' = m) as ->.
    { apply list_elem_of_lookup in Hm as [j Hj]. assert (i = j) as -> by (eapply (NoDup_lookup (map dm_rid b)); [done|by rewrite list_lookup_fmap, Hi|];
        rewrite list_lookup_fmap, Hj; cbn; congruence). congruence. }
    rewrite E1 in Hr. cbn [app run_one] in Hr. destruct (detok_one (dict_get d (dm_rid m)) m) as [r0|]; [by eexists|done]. }
  pose proof (Forall2_length _ _ _ Hf) as Hlen.
  assert (Hstep : ∀ k rest, run_one (dict_get d k) (of_rid k b ++ rest)
                  = ('(s, outs) ← run_one (dict_get d1 k) rest; Ok (s, outs_of_rid k b o ++ outs))).
  { intros k rest. destruct (rid_cases k b o Hnd Hlen) as [(H1 & H2 & H3)|(i & m & out & H1 & H2 & H3 & H4 & H5)].
    - rewrite H2, H3, Hout by done. cbn [app]. by destruct (run_one _ _) as [[? ?]|].
    - rewrite H4, H5. cbn [app run_one]. pose proof (Forall2_lookup_lr _ _ _ _ _ _ Hf H1 H2) as Hd. cbn in Hd. rewrite H3 in Hd. rewrite Hd.
      cbn [mbind res_bind]. by destruct (run_one _ _) as [[? ?]|]. }
  destruct (IH d1) as (d' & outs & Hgo' & Hl & Hk).
  { by rewrite Hkeys. }
  { intros k. destruct (Hone k) as [r Hr]. cbn [concat] in Hr. rewrite of_rid_app, Hstep in Hr.
    destruct (run_one (dict_get d1 k) _) as [r0|]; [by eexists|done]. }
  exists d', (o :: outs). split; [|split; [by constructor|]].
  - unfold loop. cbn [detok_loop]. fold handle. rewrite Hgo. cbn [mbind res_bind]. fold loop. by rewrite Hgo'.
  - intros k. cbn [concat]. rewrite of_rid_app, Hstep, Hk. cbn [mbind res_bind]. by rewrite outs_of_rid_app.
Qed.

(** ** What a request is told *)

(** Whether the last token is cut off. *)
Definition trims_token (m : DetokMsg) : Prop :=
  dm_no_stop_trim m = false ∧ ∃ t, sm_finished_reason (dm_msg m) = Some (FINISH_MATCHED_TOKEN t) ∧ t ≠ 0.

(** What is left of the ids. *)
Definition kept_ids (reason : option FinishReason) (no_stop_trim : bool) (ids : list Z) : list Z :=
  match trim_matched_stop_ids gpt_oss ids reason no_stop_trim with Ok l => l | Raise _ => ids end.

Lemma trim_ids_app m l z :
  (trims_token m → z ≠ []) →
  trim_matched_stop_ids gpt_oss (l ++ z) (sm_finished_reason (dm_msg m)) (dm_no_stop_trim m) = Ok (l ++ kept_ids (sm_finished_reason (dm_msg m)) (dm_no_stop_trim m) z).
Proof.
  intros Hz. unfold kept_ids, trim_matched_stop_ids, trims_token in *. destruct (dm_no_stop_trim m); [done|].
  destruct (sm_finished_reason (dm_msg m)) as [[t|t|t|t|t]|]; try done. cbn. case_bool_decide as E; [done|].
  destruct z as [|a z] using rev_ind; [by destruct Hz; [split; [done|]; by exists t|]|].
  rewrite app_assoc, !last_snoc. destruct (_ && _); [by rewrite app_assoc|]. rewrite !slice_to_neg1, !length_app, <- app_assoc.
  cbn [length]. f_equal. replace (length l + length z + 1 - 1)%nat with (length l + length z)%nat by lia.
  rewrite app_assoc, take_app_length' by (by rewrite length_app). by rewrite take_app_length' by lia.
Qed.

Lemma kept_more b z : kept_ids None b z = z.
Proof. by destruct b. Qed.

(** The messages of a request after the ids [D] were seen, and the text it ends with, if it ends. *)
Inductive told (flags : bool * bool) (c : list Z) : list Z → list DetokMsg → option text → Prop :=
| told_open D : told flags c D [] None
| told_more D m msgs t :
    dm_flags m = flags → sm_finished_reason (dm_msg m) = None →
    steady (decode flags.1 flags.2) c D (D ++ sm_decode_ids (dm_msg m)) →
    told flags c (D ++ sm_decode_ids (dm_msg m)) msgs t → told flags c D (m :: msgs) t
| told_last D m f :
    let dec := decode flags.1 flags.2 in
    let final := trim_matched_stop_str (text_after dec c (D ++ kept_ids (Some f) (dm_no_stop_trim m) (sm_decode_ids (dm_msg m)))) (Some f) (dm_no_stop_trim m) in
    dm_flags m = flags → sm_finished_reason (dm_msg m) = Some f → (trims_token m → sm_decode_ids (dm_msg m) ≠ []) →
    (length (drop (length (dec c)) (strip (dec D))) ≤ length final)%nat →
    told flags c D [m] (Some final).

Lemma decode_for_flags m flags : dm_flags m = flags → decode_for m = decode flags.1 flags.2.
Proof. by intros <-. Qed.

Lemma run_told flags c D msgs t :
  TextTokenizer (decode flags.1 flags.2) → told flags c D msgs t → ∀ s x y rest,
  decoding (decode flags.1 flags.2) c s x y rest → D = x ++ y ++ rest →
  let shown := shown (decode flags.1 flags.2) c x y rest in
  ∃ s' outs, run_one (Some s) msgs = Ok (s', outs)
    ∧ match t with
      | Some t => s' = None ∧ shown ++ concat outs = t
      | None => s' ≠ None ∧ shown ++ concat outs `prefix_of` text_after (decode flags.1 flags.2) c (D ++ concat (map (λ m, sm_decode_ids (dm_msg m)) msgs))
      end.
Proof.
  intros Htt Ht. set (dec := decode flags.1 flags.2) in *.
  induction Ht as [D|D m msgs t Hfl Hr Hst Ht IH|D m f dec0 final Hfl Hr Htrim Hle]; intros s x y rest Hd ED shown.
  - eexists _, []. split; [done|]. split; [done|]. cbn [map concat]. rewrite !app_nil_r.
    destruct (shown_stable dec c s x y rest [] Hd) as [Hp _]. by rewrite app_nil_r, <- ED in Hp.
  - cbn [run_one]. set (z := sm_decode_ids (dm_msg m)) in *. subst D. rewrite <- !app_assoc in Hst.
    destruct (emit_more dec c s x y rest m z Hd Hr Hst) as (s' & x' & y' & rest' & out & He & Hd' & EN & Hsh).
    destruct (IH s' x' y' rest' Hd') as (s'' & outs & Hrun & Hres); [by rewrite EN, <- !app_assoc|].
    assert (H1 : detok_one (Some s) m = Ok (Some s', out)).
    { unfold detok_one, read_ids, surr_ids. cbn [status_for]. destruct (status_slices dec c s x y rest z Hd) as [S1 S2]. fold z. rewrite S1, S2.
      rewrite (app_assoc y), trim_ids_app; [|intros (_ & ? & ? & _); congruence]. rewrite <- app_assoc. cbn [mbind res_bind].
      rewrite (decode_for_flags m flags Hfl). fold dec. by rewrite Hr, kept_more, He. }
    rewrite H1. cbn [mbind res_bind]. rewrite Hrun. cbn [mbind res_bind]. eexists _, _. split; [done|]. cbn [concat map]. fold z.
    unfold shown. rewrite (app_assoc (DetokText.shown _ _ _ _ _)), <- Hsh. destruct t; [done|]. by rewrite app_assoc.
  - cbn [run_one]. set (z := sm_decode_ids (dm_msg m)) in *. subst D.
    destruct (shown_stable dec c s x y rest [] Hd) as [_ Hlen].
    destruct (emit_last dec c s x y rest m z (kept_ids (Some f) (dm_no_stop_trim m) z) f Hd Hr) as (out & He & Hout).
    { unfold final, dec0 in Hle. rewrite <- !app_assoc in Hle. fold dec in Hle. lia. }
    assert (H1 : detok_one (Some s) m = Ok (None, out)).
    { unfold detok_one, read_ids, surr_ids. cbn [status_for]. destruct (status_slices dec c s x y rest z Hd) as [S1 S2]. fold z. rewrite S1, S2.
      rewrite (app_assoc y), trim_ids_app by done. rewrite <- app_assoc. cbn [mbind res_bind].
      rewrite (decode_for_flags m flags Hfl). fold dec. by rewrite Hr, He. }
    rewrite H1. cbn [mbind res_bind]. eexists _, _. split; [done|]. split; [done|]. cbn [concat]. rewrite app_nil_r. unfold shown. rewrite Hout.
    unfold final, dec0. by rewrite <- !app_assoc.
Qed.

(** ** The whole stream *)

Definition with_ids (ids : list Z) (m : DetokMsg) : DetokMsg :=
  let x := dm_msg m in
  mkDetokMsg (mkStreamMsg (sm_rid x) (sm_finished_reason x) (sm_decoded_text x) ids (sm_read_offset x) (sm_output_ids x)
                (sm_prompt_tokens x) (sm_reasoning_tokens x) (sm_completion_tokens x) (sm_retraction_count x))
    (dm_skip_special_tokens m) (dm_spaces_between_special_tokens m) (dm_no_stop_trim m).

(** All messages of a request: the first one brings the ids [c] before the output as context. *)
Inductive conversation : list DetokMsg → option text → Prop :=
| conv_none : conversation [] None
| conv_some flags c z m msgs t :
    TextTokenizer (decode flags.1 flags.2) → complete (decode flags.1 flags.2 c) →
    sm_decoded_text (dm_msg m) = [] → sm_decode_ids (dm_msg m) = c ++ z → sm_read_offset (dm_msg m) = zlen c →
    told flags c c (with_ids z m :: msgs) t → conversation (m :: msgs) t.

Lemma first_status m c z :
  sm_decoded_text (dm_msg m) = [] → sm_decode_ids (dm_msg m) = c ++ z → sm_read_offset (dm_msg m) = zlen c →
  detok_one None m = detok_one (Some (mkDecodeStatus [] c 0 (zlen c) 0)) (with_ids z m).
Proof. intros H1 H2 H3. unfold detok_one. cbn [status_for]. rewrite H1, H2, H3. done. Qed.

Lemma conversation_run msgs t :
  conversation msgs t →
  ∃ s' outs, run_one None msgs = Ok (s', outs) ∧ ∀ t', t = Some t' → s' = None ∧ concat outs = t'.
Proof.
  intros [|flags c z m msgs' t' Htt Hc H1 H2 H3 Ht]; [by eexists _, []|]. set (dec := decode flags.1 flags.2) in *.
  destruct (run_told flags c c _ _ Htt Ht (mkDecodeStatus [] c 0 (zlen c) 0) [] c []) as (s' & outs & Hrun & Hres).
  - fold dec. split; cbn; rewrite ?app_nil_r; try done.
    + by left.
    + unfold text_after. by rewrite drop_all.
    + left. unfold text_after. by rewrite drop_all.
    + unfold text_after. by rewrite drop_all.
  - by rewrite app_nil_r.
  - exists s', outs. split.
    + cbn [run_one] in Hrun |- *. by rewrite (first_status m c z).
    + intros t0 ->. destruct Hres as [-> <-]. split; [done|]. fold dec. unfold shown. cbn. rewrite app_nil_r.
      unfold text_after. by rewrite drop_all.
Qed.

Lemma detok_conversations batches texts :
  fits [] batches → (∀ k, conversation (of_rid k (concat batches)) (texts k)) →
  ∃ d' outs, detok_loop decode batch_decode gpt_oss no_batch capacity [] batches = Ok (d', outs)
    ∧ Forall2 (λ b o, length b = length o) batches outs
    ∧ ∀ k t, texts k = Some t → dict_get d' k = None ∧ concat (outs_of_rid k (concat batches) (concat outs)) = t.
Proof.
  intros Hfit Hc. destruct (loop_refines batches [] Hfit) as (d' & outs & Hgo & Hl & Hk).
  { intros k. destruct (conversation_run _ _ (Hc k)) as (s' & o & Hrun & _). by eexists. }
  exists d', outs. split_and!; [done..|]. intros k t Ht. destruct (conversation_run _ _ (Hc k)) as (s' & o & Hrun & Hres).
  specialize (Hk k). change (dict_get [] k) with (@None DecodeStatus) in Hk. rewrite Hrun in Hk. inversion Hk; subst. by apply Hres.
Qed.


End loop.
