(* ===== verification/DetokStream.v ===== *)
(** * From the scheduler to the text

    The messages that the scheduler streams for a request (StreamProps) are what the detokenizer needs
    (DetokProps): the text a client gets is the text of the output. *)

From S2P Require Import Prelude PyDict DecodeBatch ReqCache Sampling Finish FinishProps ResultProc ResultProps StreamProps.
From S2P Require Import Detokenizer DetokText DetokProps.

Section served.
Context {G : Type} (is_terminated : G → bool) (re_search : text → text → bool) (stream_interval force_interval : Z).
Context (decode : bool → bool → list Z → text) (batch_decode : bool → bool → list (list Z) → list text).
Context (Hbatch : ∀ skip space l, batch_decode skip space l = map (decode skip space) l).
Context (gpt_oss no_batch : bool) (capacity : Z) (Hcap : 0 < capacity).
Context (skip space no_stop_trim : bool) `{!TextTokenizer (decode skip space)}.
Let dec := decode skip space.
Let told := told decode gpt_oss (skip, space).
Let conversation := conversation decode gpt_oss.
Let fits := fits capacity.

(** A message with the sampling parameters of its request. *)
Definition row (m : StreamMsg) : DetokMsg := mkDetokMsg m skip space no_stop_trim.
Definition plain (m : StreamMsg) : DetokMsg := with_ids (sm_output_ids m) (row m).

Lemma plain_row m : sm_decode_ids m = sm_output_ids m → plain m = row m.
Proof. unfold plain, with_ids, row. intros E. destruct m. cbn in *. by rewrite E. Qed.

(** The text of a finished request with the output [out]. *)
Definition final_text (c out : list Z) (reason : FinishReason) : text :=
  trim_matched_stop_str (text_after dec c (c ++ kept_ids gpt_oss (Some reason) no_stop_trim out)) (Some reason) no_stop_trim.

(** The text stays steady while [sent] is sent. *)
Definition steady_while (c sent : list Z) : Prop :=
  ∀ k j, (k ≤ j ≤ length sent)%nat → steady dec c (c ++ take k sent) (c ++ take j sent).

Lemma kept_app reason l z :
  ((∃ t, reason = FINISH_MATCHED_TOKEN t) → z ≠ []) →
  kept_ids gpt_oss (Some reason) no_stop_trim (l ++ z) = l ++ kept_ids gpt_oss (Some reason) no_stop_trim z.
Proof.
  intros Hz. set (m := mkDetokMsg (mkStreamMsg "" (Some reason) [] [] 0 [] 0 0 0 0) skip space no_stop_trim).
  unfold kept_ids at 1. pose proof (trim_ids_app gpt_oss m l z) as Ht. cbn in Ht. rewrite Ht; [done|].
  intros (_ & t & E & _). apply Hz. exists t. cbn in E. congruence.
Qed.

Lemma told_messages c pre : ∀ sent m f,
  Forall (λ m, sm_finished_reason m = None) pre → sm_finished_reason m = Some f →
  ((∃ t, f = FINISH_MATCHED_TOKEN t) → sm_output_ids m ≠ []) →
  steady_while c (sent ++ output_of pre) →
  (length (drop (length (dec c)) (strip (dec (c ++ sent ++ output_of pre)))) ≤ length (final_text c (sent ++ output_of pre ++ sm_output_ids m) f))%nat →
  told c (c ++ sent) (map plain (pre ++ [m])) (Some (final_text c (sent ++ output_of pre ++ sm_output_ids m) f)).
Proof.
  induction pre as [|m0 pre IH]; intros sent m f Hpre Hf Hne Hst Hle; cbn [map app].
  - assert (Hk : final_text c (sent ++ output_of [] ++ sm_output_ids m) f
       = trim_matched_stop_str (text_after dec c ((c ++ sent) ++ kept_ids gpt_oss (Some f) (dm_no_stop_trim (plain m)) (sm_decode_ids (dm_msg (plain m))))) (Some f) (dm_no_stop_trim (plain m))).
    { unfold final_text. cbn [output_of map concat app]. rewrite kept_app by done. by rewrite <- app_assoc. }
    rewrite Hk in *. cbn [output_of map concat] in Hle. rewrite app_nil_r in Hle. apply told_last; try done.
    intros (_ & t & E & _). apply Hne. exists t. cbn in E. congruence.
  - apply Forall_cons in Hpre as [H0 Hpre].
    assert (Ho : output_of (m0 :: pre) = sm_output_ids m0 ++ output_of pre) by done. rewrite Ho in *.
    apply told_more; [done|done| |].
    + assert (Hs := Hst (length sent) (length (sent ++ sm_output_ids m0)) ltac:(rewrite !length_app; lia)).
      rewrite (app_assoc sent), take_app_length in Hs. rewrite <- (app_assoc sent), take_app_length in Hs. by rewrite <- app_assoc.
    + cbn [dm_msg plain with_ids row sm_decode_ids]. rewrite <- app_assoc.
      replace (sent ++ (sm_output_ids m0 ++ output_of pre) ++ sm_output_ids m)
        with ((sent ++ sm_output_ids m0) ++ output_of pre ++ sm_output_ids m) in * by (by rewrite <- !app_assoc).
      apply IH; [done..| |]; by rewrite <- app_assoc.
Qed.

Lemma fits_one rid msgs : ∀ open,
  Forall (λ m, sm_rid m = rid) msgs → open = [] ∨ open = [rid] → fits open (map (λ m, [row m]) msgs).
Proof.
  induction msgs as [|m msgs IH]; intros open Hr Ho; [done|]. apply Forall_cons in Hr as [Hm Hr]. cbn [map].
  assert (Hrid : dm_rid (row m) = rid) by exact Hm. assert (Hop : open ++ opened open [row m] = [rid]).
  { unfold opened. cbn [map List.filter]. rewrite Hrid. destruct Ho as [->| ->].
    - by rewrite bool_decide_true by apply not_elem_of_nil.
    - rewrite bool_decide_false; [done|]. set_solver. }
  split; [apply NoDup_singleton|]. split.
  - rewrite <- zlen_app, Hop. change (zlen [rid]) with 1. lia.
  - apply IH; [done|]. unfold open_after. rewrite Hop. cbn [List.filter]. case_bool_decide; auto.
Qed.

Lemma of_rid_rows k rid msgs :
  Forall (λ m, sm_rid m = rid) msgs → of_rid k (map row msgs) = if bool_decide (k = rid) then map row msgs else [].
Proof.
  unfold of_rid. induction 1 as [|m msgs Hm _ IH]; [by case_bool_decide|]. cbn [map List.filter]. rewrite IH.
  assert (E : dm_rid (row m) = rid) by exact Hm. rewrite E. repeat case_bool_decide; congruence.
Qed.

Lemma concat_singletons {A B} (f : A → B) l : concat (map (λ x, [f x]) l) = map f l.
Proof. induction l as [|x l IH]; [done|]. cbn. by rewrite IH. Qed.

(** Everything the detokenizer sends for the only request there is. *)
Lemma outs_of_all rid msgs outs :
  Forall (λ m, sm_rid m = rid) msgs → length outs = length msgs → outs_of_rid rid (map row msgs) outs = outs.
Proof.
  intros Hr. revert outs. induction Hr as [|m msgs Hm _ IH]; intros [|o outs] Hl; try done.
  unfold outs_of_rid. cbn [map zip zip_with List.filter fst]. rewrite bool_decide_true by exact Hm. cbn [map snd]. f_equal. apply IH. by inversion Hl.
Qed.

Lemma detok_request rid c m msgs t :
  Forall (λ m, sm_rid m = rid) (m :: msgs) → complete (dec c) → sm_decoded_text m = [] → sm_read_offset m = zlen c →
  sm_decode_ids m = c ++ sm_output_ids m → Forall (λ m, sm_decode_ids m = sm_output_ids m) msgs →
  told c c (map plain (m :: msgs)) (Some t) →
  ∃ d' outs, detok_loop decode batch_decode gpt_oss no_batch capacity [] (map (λ m, [row m]) (m :: msgs)) = Ok (d', outs)
    ∧ concat (concat outs) = t.
Proof.
  intros Hr Hc H1 H2 H3 H4 Ht. destruct (detok_conversations decode batch_decode Hbatch gpt_oss no_batch capacity
    (map (λ m, [row m]) (m :: msgs)) (λ k, if bool_decide (k = rid) then Some t else None)) as (d' & outs & Hgo & Hl & Hk).
  - apply (fits_one rid); [done|by left].
  - intros k. rewrite concat_singletons, (of_rid_rows k rid) by done. case_bool_decide; [|constructor].
    cbn [map]. apply (conv_some decode gpt_oss (skip, space) c (sm_output_ids m)); try done. cbn [map] in Ht.
    replace (map row msgs) with (map plain msgs); [exact Ht|]. apply map_ext_in. intros m' Hm'%list_elem_of_In. apply plain_row.
    by apply (proj1 (Forall_forall _ _) H4).
  - exists d', outs. split; [done|]. destruct (Hk rid t) as [_ <-]; [by rewrite bool_decide_true|]. rewrite concat_singletons, (outs_of_all rid); [done|done|].
    clear -Hl. revert outs Hl. generalize (m :: msgs). intros l. induction l as [|x l IH]; intros outs Hl; inversion Hl as [|? o ? outs' Ho Hl']; subst; [done|].
    cbn [concat]. rewrite length_app, <- Ho, IH by done. done.
Qed.


End served.
