(* ===== verification/DetokDemo.v ===== *)
(** * The detokenizer: a concrete tokenizer, runs and witnesses

    A tokenizer in which a character may take two tokens: the token 90 begins one, and is a replacement
    character until the next token comes. *)

From S2P Require Import Prelude PyDict DecodeBatch Sampling Finish FinishProps ResultProc ResultProps StreamProps LoopDemo.
From S2P Require Import Detokenizer DetokText DetokProps DetokStream.

Fixpoint pair_decode (l : list Z) : list Z :=
  match l with
  | [] => []
  | a :: l' =>
      if bool_decide (a = 90) then match l' with [] => [REPLACEMENT] | b :: l'' => (1000 + b) :: pair_decode l'' end
      else a :: pair_decode l'
  end.

(** A list of tokens ends between two characters, or in the middle of one. *)
Definition whole (x : list Z) : Prop := ∀ w, pair_decode (x ++ w) = pair_decode x ++ pair_decode w.

Lemma whole_or_half n : ∀ x, (length x < n)%nat → whole x ∨ ∃ x0, x = x0 ++ [90] ∧ whole x0.
Proof.
  induction n as [|n IH]; intros x Hn; [lia|]. destruct x as [|a x]; [by left|]. destruct (decide (a = 90)) as [->|Ha].
  - destruct x as [|b x]; [right; by exists []|]. destruct (IH x) as [Hw|(x0 & -> & Hw)]; [cbn in Hn; lia| |].
    + left. intros w. cbn. by rewrite Hw.
    + right. exists (90 :: b :: x0). split; [done|]. intros w. cbn. by rewrite Hw.
  - assert (E : ∀ l, pair_decode (a :: l) = a :: pair_decode l) by (intros l; cbn; by rewrite bool_decide_false).
    destruct (IH x) as [Hw|(x0 & -> & Hw)]; [cbn in Hn; lia| |].
    + left. intros w. cbn [app]. by rewrite !E, Hw.
    + right. exists (a :: x0). split; [done|]. intros w. cbn [app]. by rewrite !E, Hw.
Qed.

Lemma whole_complete x : complete (pair_decode x) → whole x.
Proof.
  intros Hc. destruct (whole_or_half (S (length x)) x ltac:(lia)) as [|(x0 & -> & Hw)]; [done|]. destruct Hc.
  rewrite Hw. change (pair_decode [90]) with [REPLACEMENT]. by rewrite last_snoc.
Qed.

Lemma pair_decode_nil y : pair_decode y = [] → y = [].
Proof. destruct y as [|a y]; [done|]. cbn. case_bool_decide; [by destruct y|done]. Qed.

#[export] Instance pair_tokenizer : TextTokenizer pair_decode.
Proof.
  split.
  - intros x z. destruct (whole_or_half (S (length x)) x ltac:(lia)) as [Hw|(x0 & -> & Hw)].
    + rewrite Hw. etrans; [apply strip_prefix|by eexists].
    + rewrite <- app_assoc, !Hw. etrans; [|by eexists].
      assert (Hs : strip (pair_decode x0 ++ [REPLACEMENT]) = strip (pair_decode x0)).
      { generalize (pair_decode x0). intros l. induction l as [|a l IH]; [done|]. cbn. by rewrite IH. }
      change (pair_decode [90]) with [REPLACEMENT]. rewrite Hs. apply strip_prefix.
  - intros x y z Hx Hxy Hy. rewrite app_assoc, (whole_complete (x ++ y) Hxy). rewrite drop_app_length.
    assert (Hc : complete (pair_decode y)).
    { rewrite (whole_complete x Hx) in Hxy. apply complete_app in Hxy; [done|]. by intros E%pair_decode_nil. }
    rewrite (whole_complete y Hc). by rewrite drop_app_length.
Qed.

Definition demo_decode (skip space : bool) (l : list Z) : text := pair_decode l.
Definition demo_batch (skip space : bool) (l : list (list Z)) : list text := map (demo_decode skip space) l.

Definition demo_msg (rid : string) (reason : option FinishReason) (decode_ids : list Z) (read_offset : Z) (output_ids : list Z) : DetokMsg :=
  mkDetokMsg (mkStreamMsg rid reason [] decode_ids read_offset output_ids 0 0 0 0) true true false.

Definition last_a : DetokMsg := demo_msg "a" (Some (FINISH_MATCHED_TOKEN 50)) [63; 50] 2 [63; 50].
Definition last_b : DetokMsg := demo_msg "b" (Some (FINISH_MATCHED_STR [68; 69])) [67; 68; 69] 1 [67; 68; 69].

(** Two requests; a character of the first one is split between its messages, its stop token is cut off; the second one ends with
    a stop string. *)
Definition demo_batches : list (list DetokMsg) :=
  [ [demo_msg "a" None [7; 8; 60; 90] 2 [60; 90]; demo_msg "b" None [9; 65] 1 [65]];
    [demo_msg "b" None [66] 1 [66]; demo_msg "a" None [61; 62] 2 [61; 62]];
    [last_a]; [last_b] ].

Definition demo_texts (k : string) : option text :=
  if bool_decide (k = "a") then Some [60; 1061; 62; 63] else if bool_decide (k = "b") then Some [65; 66; 67] else None.

Example demo_texts_sent :
  detok_loop demo_decode demo_batch false false 2 [] demo_batches
  = Ok ([], [[[]; [65]]; [[66]; [60; 1061; 62]]; [[63]]; [[67]]]).
Proof. vm_compute. reflexivity. Qed.

Lemma demo_conversation k : conversation demo_decode false (of_rid k (concat demo_batches)) (demo_texts k).
Proof.
  unfold demo_texts. case_bool_decide as Ea; [subst k|case_bool_decide as Eb; [subst k|]].
  - replace (of_rid "a" _) with [demo_msg "a" None [7; 8; 60; 90] 2 [60; 90]; demo_msg "a" None [61; 62] 2 [61; 62]; last_a] by done.
    apply (conv_some demo_decode false (true, true) [7; 8] [60; 90]); try done; [apply pair_tokenizer|].
    apply told_more; [done|done|by right; right; repeat constructor|]. apply told_more; [done|done|right; left; done|].
    refine (told_last demo_decode false (true, true) [7; 8] [7; 8; 60; 90; 61; 62] last_a (FINISH_MATCHED_TOKEN 50) _ _ _ _); [done|done|done|vm_compute; lia].
  - replace (of_rid "b" _) with [demo_msg "b" None [9; 65] 1 [65]; demo_msg "b" None [66] 1 [66]; last_b] by done.
    apply (conv_some demo_decode false (true, true) [9] [65]); try done; [apply pair_tokenizer|].
    apply told_more; [done|done|by left|]. apply told_more; [done|done|by left|].
    refine (told_last demo_decode false (true, true) [9] [9; 65; 66] last_b (FINISH_MATCHED_STR [68; 69]) _ _ _ _); [done|done|done|vm_compute; lia].
  - replace (of_rid k (concat demo_batches)) with (@nil DetokMsg); [constructor|].
    unfold of_rid, demo_batches, last_a, last_b, demo_msg, dm_rid. cbn -[bool_decide]. by rewrite !(bool_decide_false (_ = k)) by congruence.
Qed.


(** The request of LoopDemo with a split character: the token 90 alone is sent first. *)
Definition split_steps : list (Z * bool * option bool) := map (λ t, (t, false, None)) [90; 61; 50; 62].

Definition split_life : list StreamMsg * DReq * GenState bool :=
  match life loop_terminated loop_search 2 50 None stream_req (loop_gen_state [7; 8] None) split_steps with
  | Ok x => x
  | Raise _ => ([], stream_req, loop_gen_state [7; 8] None)
  end.

Lemma split_steady : steady_while demo_decode true true [7; 8] [90].
Proof.
  intros k j Hkj. cbn in Hkj. destruct k as [|[|k]]; [by left| |lia]. right. right. by repeat constructor.
Qed.


(** With CJK characters in a text that stays incomplete, what is printed can shrink, and the offset of the sent text with it:
    the character 20013 is sent twice. *)
Example cjk_sent_twice :
  detok_loop demo_decode demo_batch false false 2 []
    [ [demo_msg "a" None [7; 20013; 90] 1 [20013; 90]]; [demo_msg "a" None [5; 90] 1 [5; 90]]; [demo_msg "a" None [6] 1 [6]] ]
  = Ok ([("a", mkDecodeStatus [20013; 1005; 1006] [7; 20013; 90; 5; 90; 6] 1 6 3)],
        [[[20013]]; [[]]; [[20013; 1005; 1006]]]).
Proof. vm_compute. reflexivity. Qed.

(** The stop token 0 is not cut off. *)
Example stop_token_zero :
  trim_matched_stop_ids false [60; 0] (Some (FINISH_MATCHED_TOKEN 0)) false = Ok [60; 0].
Proof. reflexivity. Qed.
