(* ===== verification/ExpertBalance.v ===== *)
(** * Balancing the experts of a mixture-of-experts model

    Models [src/python/sglang/srt/eplb/eplb_algorithms/deepseek.py] ([balanced_packing],
    [replicate_experts], [rebalance_experts_hierarchical], [rebalance_experts]), the variant of
    [elasticity_aware.py] for servers with failed ranks, and [compute_algorithm] of their [__init__.py].

    A tensor [layers, n] is a list of rows; every operation of the code acts on the rows one by one, and
    [view], [unflatten] and [flatten] are cutting into chunks and concatenation.  The weights are a
    parameter of the class [PyNum].  [weight.sort(descending=True).indices] is a parameter, since the order of
    equal weights is not specified; [max(...).indices] is the first maximum, as torch documents it.
    [empty_like] is a tensor of arbitrary content. *)

From S2P Require Import Prelude RadixKey PyFloat.

(** ** Tensor rows *)

(** [t.gather(-1, idx)] *)
Definition tensor_get {A} (l : list A) (i : Z) : res A :=
  match py_get l i with Some x => Ok x | None => Raise RuntimeError end.
Definition gather {A} (l : list A) (idx : list Z) : res (list A) := res_map (tensor_get l) idx.

(** [t.scatter_(-1, idx, src)] *)
Fixpoint scatter {A} (l : list A) (idx : list Z) (src : list A) : res (list A) :=
  match idx, src with
  | i :: idx', x :: src' =>
      if bool_decide (0 ≤ i < zlen l) then scatter (<[Z.to_nat i := x]> l) idx' src' else Raise RuntimeError
  | _, _ => Ok l
  end.

(** [t.view(n, k)] of a row. *)
Definition chunks {A} (n k : nat) (l : list A) : list (list A) := map (λ i, take k (drop (i * k) l)) (seq 0 n).

(** [a % b] and [a // b] *)
Definition int_mod (a b : Z) : res Z := if bool_decide (b = 0) then Raise ZeroDivisionError else Ok (a mod b).
Definition int_div (a b : Z) : res Z := if bool_decide (b = 0) then Raise ZeroDivisionError else Ok (a / b).

(** [assert a % b == 0] *)
Definition assert_divides (b a : Z) : res unit := m ← int_mod a b; py_assert (bool_decide (m = 0)).

Section balance.
Context {F : Type} `{PyNum F} (sort_desc : list F → list nat) (uninit : Z).

(** ** Packing *)

(** [min(candidates, key=w.__getitem__)]: the first of the smallest. *)
Fixpoint min_by (w : list F) (best : nat) (candidates : list nat) : nat :=
  match candidates with
  | [] => best
  | j :: rest =>
      match w !! j, w !! best with
      | Some x, Some y => min_by w (if (x <? y)%F then j else best) rest
      | _, _ => min_by w best rest
      end
  end.

Record PackState := mkPackState {
  ps_weights : list F;                       (* pack_weights *)
  ps_items : list Z;                         (* pack_items *)
  ps_index : list Z;                         (* pack_index_list[i] *)
  ps_rank : list Z                           (* rank_in_pack_list[i] *)
}.

(** One group of a row. *)
Definition pack_group (groups_per_pack : Z) (weight : list F) (s : PackState) (group : nat) : res PackState :=
  match List.filter (λ j, match ps_items s !! j with Some c => bool_decide (c < groups_per_pack) | None => false end)
          (seq 0 (length (ps_items s))) with
  | [] => Raise ValueError
  | j :: rest =>
      let pack := min_by (ps_weights s) j rest in
      match ps_items s !! pack, ps_weights s !! pack, weight !! group with
      | Some c, Some pw, Some w =>
          _ ← py_assert (bool_decide (c < groups_per_pack));
          Ok (mkPackState (<[pack := (pw + w)%F]> (ps_weights s)) (<[pack := c + 1]> (ps_items s))
                (<[group := Z.of_nat pack]> (ps_index s)) (<[group := c]> (ps_rank s)))
      | _, _, _ => Raise IndexError
      end
  end.

Fixpoint pack_groups (groups_per_pack : Z) (weight : list F) (s : PackState) (groups : list nat) : res PackState :=
  match groups with
  | [] => Ok s
  | g :: rest => s ← pack_group groups_per_pack weight s g; pack_groups groups_per_pack weight s rest
  end.

(** [balanced_packing] of a row: the pack and the rank of each item. *)
Definition balanced_packing_row (weight : list F) (num_packs : Z) : res (list Z * list Z) :=
  let num_groups := length weight in
  _ ← assert_divides num_packs (Z.of_nat num_groups);
  groups_per_pack ← int_div (Z.of_nat num_groups) num_packs;
  if bool_decide (groups_per_pack = 1) then Ok (map Z.of_nat (seq 0 num_groups), replicate num_groups 0)
  else
    let n := Z.to_nat num_packs in
    s ← pack_groups groups_per_pack weight
          (mkPackState (replicate n (fofZ 0)) (replicate n 0) (replicate num_groups (-1)) (replicate num_groups (-1)))
          (sort_desc weight);
    Ok (ps_index s, ps_rank s).

(** ** Replication *)

(** The index of the first maximum. *)
Fixpoint max_index (best : F) (best_i i : nat) (l : list F) : nat :=
  match l with
  | [] => best_i
  | x :: l' => if (best <? x)%F then max_index x i (S i) l' else max_index best best_i (S i) l'
  end.

Definition argmax (l : list F) : res nat :=
  match l with [] => Raise IndexError | x :: l' => Ok (max_index x 0 1 l') end.

Record ReplicaState := mkReplicaState {
  re_phy2log : list Z;
  re_rank : list Z;
  re_logcnt : list Z
}.

(** The loop [for i in range(i, i + n)]. *)
Fixpoint replicate_loop (weight : list F) (n i : nat) (s : ReplicaState) : res ReplicaState :=
  match n with
  | O => Ok s
  | S n' =>
      e ← argmax (zip_with (λ w c, (w / fofZ c)%F) weight (re_logcnt s));
      match re_logcnt s !! e with
      | Some c => replicate_loop weight n' (S i)
                    (mkReplicaState (<[i := Z.of_nat e]> (re_phy2log s)) (<[i := c]> (re_rank s)) (<[e := c + 1]> (re_logcnt s)))
      | None => Raise IndexError
      end
  end.

(** [replicate_experts] of a row. *)
Definition replicate_experts_row (weight : list F) (num_phy : Z) : res (list Z * list Z * list Z) :=
  let num_log := length weight in
  _ ← py_assert (bool_decide (0 ≤ num_phy - Z.of_nat num_log));
  let n := Z.to_nat num_phy in
  s ← replicate_loop weight (n - num_log) num_log
        (mkReplicaState (seqZ 0 num_phy) (replicate n 0) (replicate num_log 1));
  Ok (re_phy2log s, re_rank s, re_logcnt s).

(** ** The hierarchical policy *)

Definition inverse (perm : list Z) : res (list Z) :=
  scatter (replicate (length perm) uninit) perm (seqZ 0 (zlen perm)).

(** A node: the experts of its row of [tokens_per_mlog] are replicated and packed onto its GPUs.  The result is
    [pphy2mlog], [phyrank.gather(pphy2phy)] and [mlogcnt]. *)
Definition place_node (tokens : list F) (num_phy num_gpus phy_experts_per_gpu : Z) : res (list Z * list Z * list Z) :=
  '(phy2mlog, phyrank, mlogcnt) ← replicate_experts_row tokens num_phy;
  tokens_per_phy ← gather (zip_with (λ w c, (w / fofZ c)%F) tokens mlogcnt) phy2mlog;
  '(pack_index, rank_in_pack) ← balanced_packing_row tokens_per_phy num_gpus;
  let phy2pphy := zip_with (λ p r, p * phy_experts_per_gpu + r) pack_index rank_in_pack in
  pphy2phy ← inverse phy2pphy;
  pphy2mlog ← gather phy2mlog pphy2phy;
  pphyrank ← gather phyrank pphy2phy;
  Ok (pphy2mlog, pphyrank, mlogcnt).

Definition place_nodes (tokens_per_mlog : list (list F)) (num_phy num_gpus phy_experts_per_gpu : Z)
    : res (list (list Z * list Z * list Z)) :=
  res_map (λ tokens, place_node tokens num_phy num_gpus phy_experts_per_gpu) tokens_per_mlog.

(** A layer of [rebalance_experts_hierarchical]: [pphy2log], [pphyrank], [logcnt]. *)
Definition rebalance_layer (weight : list F) (num_physical_experts num_groups num_nodes num_gpus : Z) : res (list Z * list Z * list Z) :=
  let num_logical_experts := zlen weight in
  _ ← assert_divides num_groups num_logical_experts;
  group_size ← int_div num_logical_experts num_groups;
  _ ← assert_divides num_nodes num_groups;
  groups_per_node ← int_div num_groups num_nodes;
  _ ← assert_divides num_nodes num_gpus;
  _ ← assert_divides num_gpus num_physical_experts;
  phy_experts_per_gpu ← int_div num_physical_experts num_gpus;
  let tokens_per_group := map fsum (chunks (Z.to_nat num_groups) (Z.to_nat group_size) weight) in
  '(group_pack_index, group_rank_in_pack) ← balanced_packing_row tokens_per_group num_nodes;
  let log2mlog := concat (zip_with (λ p r, map (λ k, (p * groups_per_node + r) * group_size + k) (seqZ 0 group_size))
                            group_pack_index group_rank_in_pack) in
  mlog2log ← inverse log2mlog;
  sorted_weight ← gather weight mlog2log;
  let per_node := num_logical_experts / num_nodes in
  nodes ← place_nodes (chunks (Z.to_nat num_nodes) (Z.to_nat per_node) sorted_weight)
            (num_physical_experts / num_nodes) (num_gpus / num_nodes) phy_experts_per_gpu;
  let pphy2mlog := concat (imap (λ i '(p, _, _), map (λ m, m + Z.of_nat i * per_node) p) nodes) in
  pphy2log ← gather mlog2log pphy2mlog;
  logcnt ← gather (concat (map (λ '(_, _, c), c) nodes)) log2mlog;
  Ok (pphy2log, concat (map (λ '(_, r, _), r) nodes), logcnt).

Definition rebalance_experts_hierarchical (weight : list (list F)) (num_physical_experts num_groups num_nodes num_gpus : Z)
    : res (list (list Z * list Z * list Z)) :=
  res_map (λ w, rebalance_layer w num_physical_experts num_groups num_nodes num_gpus) weight.

(** [t.max().item()]; torch raises for an empty tensor. *)
Definition tensor_max (l : list Z) : res Z :=
  match l with [] => Raise RuntimeError | x :: l' => Ok (foldl Z.max x l') end.

(** [log2phy] of a layer: the replicas of each expert, padded with -1; [num_replicas] physical experts. *)
Definition scatter_replicas (num_logical_experts maxlogcnt num_replicas : Z) (phy2log phyrank : list Z) : res (list (list Z)) :=
  flat ← scatter (replicate (Z.to_nat (num_logical_experts * maxlogcnt)) (-1))
           (zip_with (λ e r, e * maxlogcnt + r) phy2log phyrank) (seqZ 0 num_replicas);
  Ok (chunks (Z.to_nat num_logical_experts) (Z.to_nat maxlogcnt) flat).

(** [rebalance_experts]: for each layer [phy2log], [log2phy] and [logcnt]. *)
Definition rebalance_experts (weight : list (list F)) (num_logical_experts num_replicas num_groups num_nodes num_gpus : Z)
    (enable_hierarchical : bool) : res (list (list Z * list (list Z) * list Z)) :=
  layers ←
    (if enable_hierarchical then rebalance_experts_hierarchical weight num_replicas num_groups num_nodes num_gpus
     else rebalance_experts_hierarchical weight num_replicas 1 1 num_gpus);
  maxlogcnt ← tensor_max (concat (map (λ '(_, _, c), c) layers));
  res_map (λ '(phy2log, phyrank, logcnt),
    log2phy ← scatter_replicas num_logical_experts maxlogcnt num_replicas phy2log phyrank;
    Ok (phy2log, log2phy, logcnt)) layers.

(** ** Failed ranks *)

(** [l.insert(idx, x)] *)
Definition list_insert_at {A} (idx : nat) (x : A) (l : list A) : list A := take idx l ++ x :: drop idx l.

(** The loop over the ranks: a failed rank gets experts 0 in [phy2log], and the physical experts from it on move up. *)
Fixpoint insert_failed (num_local : Z) (idx : nat) (active_ranks : list bool) (slices log2phy : list (list Z))
    : res (list (list Z) * list (list Z)) :=
  match active_ranks with
  | [] => Ok (slices, log2phy)
  | true :: rest => insert_failed num_local (S idx) rest slices log2phy
  | false :: rest =>
      match slices with
      | [] => Raise IndexError
      | s :: _ =>
          insert_failed num_local (S idx) rest (list_insert_at idx (replicate (length s) 0) slices)
            (map (map (λ p, if bool_decide (Z.of_nat idx * num_local ≤ p) then p + num_local else p)) log2phy)
      end
  end.

(** [elasticity_aware.rebalance_experts] *)
Definition rebalance_elastic (weight : list (list F)) (num_logical_experts num_replicas num_groups num_nodes num_gpus : Z)
    (enable_hierarchical : bool) (active_ranks : list bool) : res (list (list Z * list (list Z) * list Z)) :=
  let num_active_ranks := zlen (List.filter id active_ranks) in
  num_local_experts ← int_div num_replicas num_gpus;
  let failed := bool_decide (num_active_ranks < num_gpus) in
  layers ←
    (if failed then rebalance_experts_hierarchical weight (num_local_experts * num_active_ranks) 1 1 num_active_ranks
     else if enable_hierarchical then rebalance_experts_hierarchical weight num_replicas num_groups num_nodes num_gpus
     else rebalance_experts_hierarchical weight num_replicas 1 1 num_gpus);
  maxlogcnt ← tensor_max (concat (map (λ '(_, _, c), c) layers));
  res_map (λ '(phy2log, phyrank, logcnt),
    log2phy ← scatter_replicas num_logical_experts maxlogcnt (num_local_experts * num_active_ranks) phy2log phyrank;
    if failed then
      '(slices, log2phy) ← insert_failed num_local_experts 0 active_ranks
                             (chunks (Z.to_nat num_active_ranks) (Z.to_nat num_local_experts) phy2log) log2phy;
      Ok (concat slices, log2phy, logcnt)
    else Ok (phy2log, log2phy, logcnt)) layers.

End balance.

(** ** Choosing the algorithm *)

Inductive EplbAlgorithm :=
| deepseek | deepseek_hierarchical | deepseek_vec | deepseek_vec_hierarchical
| elasticity_aware | elasticity_aware_hierarchical.

(** [EplbAlgorithm[name]] *)
Definition algorithm_of_name (name : string) : res EplbAlgorithm :=
  if bool_decide (name = "deepseek") then Ok deepseek
  else if bool_decide (name = "deepseek_hierarchical") then Ok deepseek_hierarchical
  else if bool_decide (name = "deepseek_vec") then Ok deepseek_vec
  else if bool_decide (name = "deepseek_vec_hierarchical") then Ok deepseek_vec_hierarchical
  else if bool_decide (name = "elasticity_aware") then Ok elasticity_aware
  else if bool_decide (name = "elasticity_aware_hierarchical") then Ok elasticity_aware_hierarchical
  else Raise KeyError.

Definition compute_algorithm (raw_algorithm : string) (num_groups : option Z) (num_nodes : Z) : res EplbAlgorithm :=
  if bool_decide (raw_algorithm ≠ "auto") then algorithm_of_name raw_algorithm
  else match num_groups with
       | Some g => m ← int_mod g num_nodes; Ok (if bool_decide (m = 0) then deepseek_hierarchical else deepseek)
       | None => Ok deepseek
       end.
