(* ===== verification/ExpertProps.v ===== *)
(** * Balancing experts: packing and replication

    The lemmas on tensor rows, on [balanced_packing] (every pack gets the same number of items, and an item is
    identified by its pack and its rank) and on [replicate_experts] (every expert has at least one replica, a
    replica is identified by its expert and its rank, and the largest load of a replica is the smallest
    possible). *)

From S2P Require Import Prelude RadixKey PyFloat ExpertBalance.

(** ** Rows *)

Lemma tensor_get_some {A} (l : list A) i : 0 ≤ i < zlen l → ∃ x, tensor_get l i = Ok x ∧ l !! Z.to_nat i = Some x.
Proof.
  intros Hi. unfold tensor_get, py_get. rewrite bool_decide_true by lia.
  destruct (lookup_lt_is_Some_2 l (Z.to_nat i)) as [x Hx]; [unfold zlen in Hi; lia|]. exists x. by rewrite Hx.
Qed.

(** [l'] are the entries of [l] at [idx]. *)
Definition picked {A} (l : list A) (idx : list Z) (l' : list A) : Prop := Forall2 (λ i x, 0 ≤ i ∧ l !! Z.to_nat i = Some x) idx l'.

Lemma gather_ok {A} (l : list A) idx :
  Forall (λ i, 0 ≤ i < zlen l) idx → ∃ l', gather l idx = Ok l' ∧ picked l idx l'.
Proof.
  unfold gather. induction 1 as [|i idx Hi _ (l' & IH & Hp)]; [by exists []; split; constructor|].
  destruct (tensor_get_some l i Hi) as (x & Hx & Hl). exists (x :: l'). cbn [res_map]. rewrite Hx. cbn [mbind res_bind]. rewrite IH. split; [done|].
  constructor; [split; [lia|done]|done].
Qed.

Lemma picked_length {A} (l : list A) idx l' : picked l idx l' → length l' = length idx.
Proof. intros Hp. symmetry. by eapply Forall2_length. Qed.

Lemma picked_zip {A B} (a : list A) (b : list B) idx a' b' : picked a idx a' → picked b idx b' → picked (zip a b) idx (zip a' b').
Proof.
  intros Ha. revert b'. induction Ha as [|i x idx a' [Hi Hx] _ IH]; intros b' Hb; inversion Hb as [|? y ? b0 [_ Hy] Hb']; subst; [constructor|].
  constructor; [|by apply IH]. split; [done|]. by rewrite lookup_zip_with, Hx, Hy.
Qed.

Lemma picked_map {A B} (f : A → B) l idx l' : picked l idx l' → picked (map f l) idx (map f l').
Proof. induction 1 as [|i x idx l' [Hi Hx] _ IH]; constructor; [|done]. split; [done|]. by rewrite list_lookup_fmap, Hx. Qed.

Lemma pick_all {A} (l : list A) : omap (λ i, l !! Z.to_nat i) (seqZ 0 (zlen l)) = l.
Proof.
  induction l as [|x l IH] using rev_ind; [done|]. unfold zlen in *. rewrite length_app, Nat.add_1_r, seqZ_S, omap_app. cbn.
  rewrite ?Z.add_0_l, ?Nat2Z.id, list_lookup_middle by done. f_equal. rewrite <- IH at 2. apply list_omap_ext, Forall_Forall2_diag, Forall_seqZ.
  intros i Hi. apply lookup_app_l. lia.
Qed.

Lemma picked_perm {A} (l : list A) idx l' : picked l idx l' → idx ≡ₚ seqZ 0 (zlen l) → l' ≡ₚ l.
Proof.
  intros Hp Hi. assert (E : l' = omap (λ i, l !! Z.to_nat i) idx).
  { clear Hi. induction Hp as [|i x idx l' [_ Hx] _ IH]; [done|]. cbn. by rewrite Hx, IH. }
  rewrite E, Hi. by rewrite pick_all.
Qed.

Lemma picked_lookup {A} (l : list A) idx l' k i x :
  picked l idx l' → idx !! k = Some i → l' !! k = Some x → l !! Z.to_nat i = Some x.
Proof. intros Hp Hi Hx. by apply (Forall2_lookup_lr _ _ _ _ _ _ Hp Hi Hx). Qed.

(** Distinct numbers below their number are all of them. *)
Lemma perm_seqZ (l : list Z) : NoDup l → Forall (λ x, 0 ≤ x < zlen l) l → l ≡ₚ seqZ 0 (zlen l).
Proof.
  intros Hnd Hr. apply submseteq_length_Permutation; [|rewrite length_seqZ; unfold zlen; lia].
  apply NoDup_submseteq; [done|]. intros x Hx. apply elem_of_seqZ. apply (proj1 (Forall_forall _ _) Hr) in Hx. lia.
Qed.

Lemma scatter_ok {A} idx : ∀ (l src : list A),
  NoDup idx → Forall (λ i, 0 ≤ i < zlen l) idx → length src = length idx →
  ∃ l', scatter l idx src = Ok l' ∧ length l' = length l
    ∧ (∀ k i x, idx !! k = Some i → src !! k = Some x → l' !! Z.to_nat i = Some x)
    ∧ (∀ j, Z.of_nat j ∉ idx → l' !! j = l !! j).
Proof.
  induction idx as [|i idx IH]; intros l [|x src] Hnd Hr Hl; try done; cbn [scatter].
  { exists l. split_and!; done. }
  apply NoDup_cons in Hnd as [Hni Hnd]. apply Forall_cons in Hr as [Hi Hr]. rewrite bool_decide_true by done.
  destruct (IH (<[Z.to_nat i := x]> l) src Hnd) as (l' & -> & H1 & H2 & H3).
  { unfold zlen in *. by rewrite length_insert. }
  { by inversion Hl. }
  exists l'. split; [done|]. split; [by rewrite H1, length_insert|]. split.
  - intros [|k] j y Hj Hy; cbn in Hj, Hy; [|by eapply H2]. simplify_eq. rewrite H3 by (by rewrite Z2Nat.id by lia).
    apply list_lookup_insert_eq. unfold zlen in Hi. lia.
  - intros j Hj. apply not_elem_of_cons in Hj as [Hj1 Hj2]. rewrite H3 by done. apply list_lookup_insert_ne. intros E. apply Hj1. lia.
Qed.

(** [inverse] of a permutation. *)
Record inverts (perm inv : list Z) : Prop := {
  iv_length : length inv = length perm;
  iv_back i p : perm !! i = Some p → 0 ≤ p ∧ inv !! Z.to_nat p = Some (Z.of_nat i);
  iv_forth j q : inv !! j = Some q → 0 ≤ q ∧ perm !! Z.to_nat q = Some (Z.of_nat j);
  iv_perm : inv ≡ₚ seqZ 0 (zlen inv)
}.

Lemma inverse_ok uninit perm : perm ≡ₚ seqZ 0 (zlen perm) → ∃ inv, inverse uninit perm = Ok inv ∧ inverts perm inv.
Proof.
  intros Hp. assert (Hnd : NoDup perm) by (rewrite Hp; apply NoDup_seqZ).
  assert (Hr : Forall (λ i, 0 ≤ i < zlen perm) perm).
  { apply Forall_forall. intros i Hi. rewrite Hp in Hi. apply elem_of_seqZ in Hi. lia. }
  unfold inverse. destruct (scatter_ok perm (replicate (length perm) uninit) (seqZ 0 (zlen perm)) Hnd) as (inv & -> & H1 & H2 & _).
  { unfold zlen. rewrite length_replicate. exact Hr. }
  { rewrite length_seqZ. unfold zlen. lia. }
  rewrite length_replicate in H1. exists inv. split; [done|].
  assert (Hback : ∀ i p, perm !! i = Some p → 0 ≤ p ∧ inv !! Z.to_nat p = Some (Z.of_nat i)).
  { intros i p Hi. split; [apply (Forall_lookup_1 _ _ _ _ Hr) in Hi; lia|]. apply (H2 i p); [done|].
    apply lookup_lt_Some in Hi. rewrite lookup_seqZ_lt by (unfold zlen; lia). done. }
  assert (Hforth : ∀ j q, inv !! j = Some q → 0 ≤ q ∧ perm !! Z.to_nat q = Some (Z.of_nat j)).
  { intros j q Hj. assert (Hin : Z.of_nat j ∈ perm) by (rewrite Hp; apply elem_of_seqZ; apply lookup_lt_Some in Hj; unfold zlen; lia).
    apply list_elem_of_lookup in Hin as [i Hi]. destruct (Hback i _ Hi) as [_ Hq]. rewrite Nat2Z.id, Hj in Hq. inversion Hq; subst.
    split; [lia|]. by rewrite Nat2Z.id. }
  split; [done|done|done|]. apply perm_seqZ.
  - apply NoDup_alt. intros i j q Hi Hj. destruct (Hforth _ _ Hi) as [_ E1]. destruct (Hforth _ _ Hj) as [_ E2]. rewrite E1 in E2. inversion E2. lia.
  - apply Forall_forall. intros q [j Hj]%list_elem_of_lookup. destruct (Hforth _ _ Hj) as [? E]. apply lookup_lt_Some in E. unfold zlen. lia.
Qed.

Lemma assert_divides_ok b a : 0 < b → a mod b = 0 → assert_divides b a = Ok tt.
Proof. intros Hb Ha. unfold assert_divides, int_mod. rewrite bool_decide_false by lia. cbn [mbind res_bind]. by rewrite Ha, bool_decide_true. Qed.

Lemma int_div_ok a b : 0 < b → int_div a b = Ok (a / b).
Proof. intros Hb. unfold int_div. by rewrite bool_decide_false by lia. Qed.

(** ** Packing *)

Section pack.
Context {F : Type} `{PyNum F} (sort_desc : list F → list nat) (Hsort : ∀ l, sort_desc l ≡ₚ seq 0 (length l)).

Lemma min_by_in (w : list F) cands : ∀ best, min_by w best cands ∈ best :: cands.
Proof.
  induction cands as [|j cands IH]; intros best; cbn [min_by]; [set_solver|].
  destruct (w !! j) as [x|]; [destruct (w !! best) as [y|]; [destruct (x <? y)%F|]|];
    match goal with |- min_by w ?b _ ∈ _ => specialize (IH b) end; set_solver.
Qed.

(** The groups in [done] have their packs, which hold at most [k] each. *)
Record packing (k : Z) (packs n : nat) (done : list nat) (s : PackState (F:=F)) : Prop := {
  pk_lengths : length (ps_weights s) = packs ∧ length (ps_items s) = packs ∧ length (ps_index s) = n ∧ length (ps_rank s) = n;
  pk_items : Forall (λ c, 0 ≤ c ≤ k) (ps_items s);
  pk_sum : sumZ (ps_items s) = zlen done;
  pk_done g : g ∈ done → ∃ p r c, ps_index s !! g = Some (Z.of_nat p) ∧ ps_rank s !! g = Some r ∧ ps_items s !! p = Some c ∧ 0 ≤ r < c;
  pk_inj g g' : g ∈ done → g' ∈ done → ps_index s !! g = ps_index s !! g' → ps_rank s !! g = ps_rank s !! g' → g = g'
}.

Lemma sumZ_full k l : Forall (λ c, c = k) l → sumZ l = zlen l * k.
Proof. induction 1 as [|c l -> _ IH]; [done|]. cbn [sumZ]. rewrite IH, zlen_cons. lia. Qed.

Lemma sumZ_insert l i c c' : l !! i = Some c → sumZ (<[i := c']> l) = sumZ l + c' - c.
Proof. revert i. induction l as [|x l IH]; intros [|i] Hi; try done; cbn in Hi; [simplify_eq; cbn; lia|].
  change (x + sumZ (<[i := c']> l) = (x + sumZ l) + c' - c). rewrite (IH i Hi). lia.
Qed.

Lemma pack_group_ok k packs n done s g weight :
  packing k packs n done s → zlen done < Z.of_nat packs * k → g ∉ done → (g < n)%nat → (g < length weight)%nat →
  ∃ s', pack_group k weight s g = Ok s' ∧ packing k packs n (g :: done) s'.
Proof.
  intros [(L1 & L2 & L3 & L4) P2 P3 P4 P5] Hroom Hg Hn Hw. unfold pack_group.
  set (ok := λ j, match ps_items s !! j with Some c => bool_decide (c < k) | None => false end).
  destruct (List.filter ok (seq 0 (length (ps_items s)))) as [|j rest] eqn:Ef.
  { exfalso. assert (Hall : Forall (λ c, c = k) (ps_items s)).
    { apply Forall_lookup. intros j c Hj. pose proof (Forall_lookup_1 _ _ _ _ P2 Hj) as Hc. cbn in Hc.
      destruct (decide (c < k)) as [Hlt|]; [|lia]. exfalso. assert (Hin : In j (List.filter ok (seq 0 (length (ps_items s))))).
      { apply List.filter_In. split; [apply in_seq; apply lookup_lt_Some in Hj; lia|]. unfold ok. rewrite Hj. by apply bool_decide_eq_true_2. }
      by rewrite Ef in Hin. }
    rewrite (sumZ_full k) in P3 by done. unfold zlen at 1 in P3. rewrite L2 in P3. lia. }
  set (pack := min_by (ps_weights s) j rest).
  assert (Hpack : ok pack = true).
  { assert (Hin : pack ∈ List.filter ok (seq 0 (length (ps_items s)))) by (rewrite Ef; apply min_by_in).
    apply list_elem_of_In, List.filter_In in Hin. by destruct Hin. }
  unfold ok in Hpack. destruct (ps_items s !! pack) as [c|] eqn:Ec; [|done]. apply bool_decide_eq_true in Hpack as Hck.
  pose proof (lookup_lt_Some _ _ _ Ec) as Hlt. destruct (lookup_lt_is_Some_2 (ps_weights s) pack ltac:(lia)) as [pw ->].
  destruct (lookup_lt_is_Some_2 weight g Hw) as [w ->]. rewrite bool_decide_true by done. cbn [py_assert mbind res_bind].
  eexists. split; [done|]. pose proof (Forall_lookup_1 _ _ _ _ P2 Ec) as Hc0. cbn in Hc0. split; cbn [ps_weights ps_items ps_index ps_rank].
  - by rewrite !length_insert.
  - apply Forall_insert; [done|lia].
  - rewrite (sumZ_insert _ _ _ _ Ec), zlen_cons. lia.
  - intros g' [->|Hg']%elem_of_cons.
    + exists pack, c, (c + 1). rewrite !list_lookup_insert_eq by lia. split_and!; [done..|lia|lia].
    + destruct (P4 g' Hg') as (p & r & c' & H1 & H2 & H3 & H4). rewrite !list_lookup_insert_ne by (intros ->; done).
      destruct (decide (p = pack)) as [->|Hne].
      * exists pack, r, (c + 1). rewrite list_lookup_insert_eq by lia. rewrite Ec in H3. simplify_eq. split_and!; [done..|lia|lia].
      * exists p, r, c'. rewrite list_lookup_insert_ne by done. done.
  - assert (Hsep : ∀ g', g' ∈ done → ps_index s !! g' = Some (Z.of_nat pack) → ps_rank s !! g' = Some c → False).
    { intros g' Hg' E1 E2. destruct (P4 g' Hg') as (p & r & c' & H1 & H2 & H3 & H4). simplify_eq. lia. }
    intros g1 g2 [->|H1]%elem_of_cons [->|H2]%elem_of_cons E1 E2; [done| | |].
    + exfalso. rewrite list_lookup_insert_eq in E1 by lia. rewrite list_lookup_insert_eq in E2 by lia.
      rewrite list_lookup_insert_ne in E1 by (intros ->; done). rewrite list_lookup_insert_ne in E2 by (intros ->; done). by eapply (Hsep g2).
    + exfalso. rewrite (list_lookup_insert_eq _ g) in E1 by lia. rewrite (list_lookup_insert_eq _ g) in E2 by lia.
      rewrite list_lookup_insert_ne in E1 by (intros ->; done). rewrite list_lookup_insert_ne in E2 by (intros ->; done). by eapply (Hsep g1).
    + rewrite !list_lookup_insert_ne in E1 by (intros ->; done). rewrite !list_lookup_insert_ne in E2 by (intros ->; done). by apply P5.
Qed.

Lemma pack_groups_ok k packs n weight groups : ∀ done s,
  packing k packs n done s → NoDup (groups ++ done) → Forall (λ g, g < n ∧ g < length weight)%nat groups →
  zlen groups + zlen done ≤ Z.of_nat packs * k →
  ∃ s', pack_groups k weight s groups = Ok s' ∧ packing k packs n (rev groups ++ done) s'.
Proof.
  induction groups as [|g groups IH]; intros done s Hp Hnd Hr Hroom; cbn [pack_groups]; [by exists s|].
  cbn [app] in Hnd. apply NoDup_cons in Hnd as [Hg Hnd]. apply Forall_cons in Hr as [[Hn Hw] Hr]. rewrite zlen_cons in Hroom. pose proof (zlen_nonneg groups).
  destruct (pack_group_ok k packs n done s g weight Hp) as (s1 & -> & Hp1); [lia|set_solver|done|done|]. cbn [mbind res_bind].
  destruct (IH (g :: done) s1 Hp1) as (s' & -> & Hp'); [|done|rewrite zlen_cons; lia|].
  - rewrite <- Permutation_middle. constructor; done.
  - exists s'. split; [done|]. cbn [rev]. by rewrite <- app_assoc.
Qed.

(** The places of the items: the pack times the size of a pack, plus the rank. *)
Definition places (k : Z) (index rank : list Z) : list Z := zip_with (λ p r, p * k + r) index rank.

Lemma place_inj k p p' r r' : 0 ≤ r < k → 0 ≤ r' < k → p * k + r = p' * k + r' → p = p' ∧ r = r'.
Proof. intros Hr Hr' E. apply (Z.div_mod_unique k); [by left|by left|lia]. Qed.

Lemma balanced_packing_ok weight num_packs :
  0 < num_packs → zlen weight mod num_packs = 0 →
  let k := zlen weight / num_packs in
  ∃ index rank, balanced_packing_row sort_desc weight num_packs = Ok (index, rank)
    ∧ length index = length weight ∧ length rank = length weight
    ∧ Forall2 (λ p r, 0 ≤ p < num_packs ∧ 0 ≤ r < k) index rank
    ∧ places k index rank ≡ₚ seqZ 0 (zlen weight).
Proof.
  intros Hp Hm k. assert (Hk : zlen weight = num_packs * k) by (unfold k; pose proof (Z.div_mod (zlen weight) num_packs); lia).
  pose proof (zlen_nonneg weight) as Hn. assert (Hk0 : 0 ≤ k) by (apply Z.div_pos; lia). unfold balanced_packing_row. change (Z.of_nat (length weight)) with (zlen weight).
  rewrite assert_divides_ok, int_div_ok by done. cbn [mbind res_bind]. fold k. case_bool_decide as E1.
  - eexists _, _. split; [done|]. rewrite !length_map, length_seq, length_replicate. split_and!; [done..| |].
    + apply Forall2_same_length_lookup_2; [by rewrite length_map, length_seq, length_replicate|]. intros i p r Hi Hr.
      apply lookup_replicate in Hr as [-> _]. rewrite list_lookup_fmap in Hi. destruct (seq 0 (length weight) !! i) as [j|] eqn:Ej; [|done].
      apply lookup_seq in Ej as [-> Hj]. inversion Hi; subst. unfold zlen in *. lia.
    + apply reflexive_eq. apply list_eq. intros i. unfold places. rewrite lookup_zip_with, list_lookup_fmap. destruct (decide (i < length weight)%nat) as [Hi|Hi].
      * rewrite lookup_seq_lt, lookup_replicate_2 by done. cbn. rewrite lookup_seqZ_lt by (unfold zlen; lia). f_equal. lia.
      * rewrite lookup_seq_ge by lia. cbn. rewrite lookup_seqZ_ge; [done|unfold zlen; lia].
  - set (packs := Z.to_nat num_packs). set (n := length weight).
    assert (Hpm := Hsort weight). fold n in Hpm.
    destruct (pack_groups_ok k packs n weight (sort_desc weight) [] (mkPackState (replicate packs (fofZ 0)) (replicate packs 0) (replicate n (-1)) (replicate n (-1))))
      as (s & -> & [(L1 & L2 & L3 & L4) P2 P3 P4 P5]).
    + split; cbn; rewrite ?length_replicate; try done; try (by intros ? ?%not_elem_of_nil).
      * apply Forall_replicate. lia.
      * rewrite (sumZ_full 0) by (by apply Forall_replicate). by rewrite Z.mul_0_r.
      * by intros ? ? ?%not_elem_of_nil.
    + rewrite app_nil_r, Hpm. apply NoDup_seq.
    + rewrite Hpm. apply Forall_forall. intros g Hg. apply elem_of_seq in Hg. lia.
    + unfold zlen at 1. rewrite Hpm, length_seq. change (zlen []) with 0. change (Z.of_nat n) with (zlen weight). unfold packs. rewrite Z2Nat.id by lia. lia.
    + cbn [mbind res_bind]. eexists _, _. split; [done|]. rewrite app_nil_r in *.
      assert (Hall : ∀ g, (g < n)%nat → g ∈ rev (sort_desc weight)).
      { intros g Hg. rewrite <- Permutation_rev, Hpm. apply elem_of_seq. lia. }
      assert (Hget : ∀ g p r, ps_index s !! g = Some p → ps_rank s !! g = Some r → 0 ≤ p < num_packs ∧ 0 ≤ r < k).
      { intros g p r Hp' Hr'. destruct (P4 g) as (p' & r' & c & H1 & H2 & H3 & H4); [apply Hall; apply lookup_lt_Some in Hp'; lia|].
        rewrite H1 in Hp'. rewrite H2 in Hr'. inversion Hp'; inversion Hr'; subst p r. pose proof (Forall_lookup_1 _ _ _ _ P2 H3) as Hc. cbn in Hc. apply lookup_lt_Some in H3. unfold packs in *. lia. }
      split_and!; [lia..| |].
      * apply Forall2_same_length_lookup_2; [lia|]. intros g p r Hp' Hr'. eauto.
      * assert (Hlen : zlen (places k (ps_index s) (ps_rank s)) = zlen weight) by (unfold places, zlen; rewrite length_zip_with; lia).
        rewrite <- Hlen. apply perm_seqZ.
        -- apply NoDup_alt. intros g g' x Hg Hg'. unfold places in *. apply lookup_zip_with_Some in Hg as (p & r & -> & H1 & H2).
           apply lookup_zip_with_Some in Hg' as (p' & r' & E & H1' & H2'). pose proof (Hget _ _ _ H1 H2). pose proof (Hget _ _ _ H1' H2').
           destruct (place_inj k p p' r r') as [<- <-]; [lia..|]. apply P5; [apply Hall; apply lookup_lt_Some in H1; lia|apply Hall; apply lookup_lt_Some in H1'; lia|congruence..].
        -- rewrite Hlen. apply Forall_lookup. intros g x Hg. unfold places in Hg. apply lookup_zip_with_Some in Hg as (p & r & -> & H1 & H2).
           pose proof (Hget _ _ _ H1 H2). rewrite Hk. nia.
Qed.

End pack.

(** ** Replication *)

(** The physical experts are the replicas [0, ..., logcnt[e] - 1] of every logical expert [e], each exactly once. *)
Record replicas (phy2log phyrank logcnt : list Z) : Prop := {
  rp_length : length phyrank = length phy2log;
  rp_nodup : NoDup (zip phy2log phyrank);
  rp_pairs e r : (e, r) ∈ zip phy2log phyrank ↔ 0 ≤ e ∧ 0 ≤ r ∧ ∃ c, logcnt !! Z.to_nat e = Some c ∧ r < c;
  rp_pos : Forall (λ c, 1 ≤ c) logcnt
}.

Lemma replicas_range phy2log phyrank logcnt :
  replicas phy2log phyrank logcnt → Forall (λ e, 0 ≤ e < zlen logcnt) phy2log.
Proof.
  intros [Hl _ Hp _]. apply Forall_lookup. intros p e He. destruct (lookup_lt_is_Some_2 phyrank p) as [r Hr]; [apply lookup_lt_Some in He; lia|].
  destruct (proj1 (Hp e r)) as (? & _ & c & Hc & _); [apply list_elem_of_lookup; exists p; by rewrite lookup_zip_with, He, Hr|].
  apply lookup_lt_Some in Hc. unfold zlen. lia.
Qed.

Section replicate.
Context {F : Type} `{PyNum F}.

Lemma max_index_range (l : list F) : ∀ best bi i, (bi < i)%nat → (max_index best bi i l < i + length l)%nat.
Proof.
  induction l as [|x l IH]; intros best bi i Hb; cbn [max_index length]; [lia|].
  destruct (best <? x)%F; [pose proof (IH x i (S i))|pose proof (IH best bi (S i))]; lia.
Qed.

Lemma argmax_range (l : list F) : (0 < length l)%nat → ∃ e, argmax l = Ok e ∧ (e < length l)%nat.
Proof.
  destruct l as [|x l]; cbn [argmax length]; intros Hl; [lia|]. eexists. split; [done|]. pose proof (max_index_range l x 0 1). lia.
Qed.

(** The state of [replicate_experts] when [i] physical experts are assigned. *)
Record replicating (n num_log i : nat) (s : ReplicaState) : Prop := {
  rg_lengths : length (re_phy2log s) = n ∧ length (re_rank s) = n ∧ length (re_logcnt s) = num_log;
  rg_sum : sumZ (re_logcnt s) = Z.of_nat i;
  rg_replicas : replicas (take i (re_phy2log s)) (take i (re_rank s)) (re_logcnt s)
}.

Lemma replicas_add phy2log phyrank logcnt e c :
  replicas phy2log phyrank logcnt → logcnt !! e = Some c →
  replicas (phy2log ++ [Z.of_nat e]) (phyrank ++ [c]) (<[e := c + 1]> logcnt).
Proof.
  intros [Hl Hnd Hp Hpos] He. pose proof (Forall_lookup_1 _ _ _ _ Hpos He) as Hc. cbn in Hc.
  split.
  - rewrite !length_app. cbn. lia.
  - rewrite zip_with_app by done. apply NoDup_app. split; [done|]. split; [|apply NoDup_singleton].
    intros [e' r] Hin [=-> ->]%list_elem_of_singleton. apply Hp in Hin as (_ & _ & c' & Hc' & ?). rewrite Nat2Z.id, He in Hc'. simplify_eq. lia.
  - intros e' r. rewrite zip_with_app by done. rewrite elem_of_app, Hp. cbn [zip_with]. rewrite list_elem_of_singleton.
    destruct (decide (Z.to_nat e' = e)) as [E|Hne].
    + rewrite E, He, list_lookup_insert_eq by (by eapply lookup_lt_Some). split.
      * intros [(? & ? & c' & ? & ?)|[=-> ->]]; [simplify_eq; split_and!; [done|done|]; exists (c' + 1); split; [done|lia]|split_and!; [lia|lia|]; exists (c + 1); split; [done|lia]].
      * intros (He' & Hr & c' & ? & ?). simplify_eq. destruct (decide (r = c)) as [->|]; [right; f_equal; lia|]. left. split_and!; [done|done|]. exists c. split; [done|lia].
    + rewrite list_lookup_insert_ne by done. split; [|tauto]. intros [?|[=-> ->]]; [done|]. by rewrite Nat2Z.id in Hne.
  - apply Forall_insert; [done|lia].
Qed.

Lemma replicate_loop_ok weight n : ∀ k i s,
  replicating n (length weight) i s → (i + k = n)%nat → (0 < length weight)%nat →
  ∃ s', replicate_loop weight k i s = Ok s' ∧ replicating n (length weight) n s'.
Proof.
  induction k as [|k IH]; intros i s Hs Hi Hw; cbn [replicate_loop]; [by exists s; rewrite Nat.add_0_r in Hi; subst|].
  destruct Hs as [(L1 & L2 & L3) Hsum Hrep].
  destruct (argmax_range (zip_with (λ w c, (w / fofZ c)%F) weight (re_logcnt s))) as (e & -> & He); [rewrite length_zip_with; lia|].
  rewrite length_zip_with in He. cbn [mbind res_bind]. destruct (lookup_lt_is_Some_2 (re_logcnt s) e ltac:(lia)) as [c Hc]. rewrite Hc.
  apply IH; [|lia|done]. split; cbn [re_phy2log re_rank re_logcnt].
  - by rewrite !length_insert.
  - rewrite (sumZ_insert _ _ _ _ Hc). lia.
  - rewrite (take_S_r _ _ (Z.of_nat e)), (take_S_r _ _ c) by (by rewrite list_lookup_insert_eq by lia).
    rewrite !take_insert_ge by lia. by apply replicas_add.
Qed.

Lemma replicas_once n : replicas (seqZ 0 (Z.of_nat n)) (replicate n 0) (replicate n 1).
Proof.
  assert (Hl : ∀ i, seqZ 0 (Z.of_nat n) !! i = if decide (i < n)%nat then Some (Z.of_nat i) else None).
  { intros i. case_decide; [by rewrite lookup_seqZ_lt by lia|by rewrite lookup_seqZ_ge by lia]. }
  split.
  - rewrite length_replicate, length_seqZ. lia.
  - apply (NoDup_fmap_1 fst). rewrite fst_zip by (rewrite length_seqZ, length_replicate; lia). apply NoDup_seqZ.
  - intros e r. rewrite list_elem_of_lookup. split.
    + intros [i Hi]. rewrite lookup_zip_with, Hl in Hi. case_decide as Hin; [|done]. rewrite lookup_replicate_2 in Hi by done. cbn in Hi. simplify_eq.
      split_and!; [lia|lia|]. exists 1. rewrite Nat2Z.id, lookup_replicate_2 by done. split; [done|lia].
    + intros (He & Hr & c & [-> Hc]%lookup_replicate & ?). exists (Z.to_nat e).
      rewrite lookup_zip_with, Hl, decide_True, lookup_replicate_2 by done. cbn. f_equal. f_equal; lia.
  - apply Forall_replicate. lia.
Qed.

Lemma replicate_experts_row_ok weight num_phy :
  (0 < length weight)%nat → zlen weight ≤ num_phy →
  ∃ phy2log rank logcnt, replicate_experts_row weight num_phy = Ok (phy2log, rank, logcnt)
    ∧ replicas phy2log rank logcnt ∧ length logcnt = length weight ∧ zlen phy2log = num_phy ∧ sumZ logcnt = num_phy.
Proof.
  intros Hw Hn. unfold replicate_experts_row. fold (zlen weight). rewrite bool_decide_true by lia. cbn [py_assert mbind res_bind].
  unfold zlen in *. set (n := Z.to_nat num_phy).
  destruct (replicate_loop_ok weight n (n - length weight) (length weight) (mkReplicaState (seqZ 0 num_phy) (replicate n 0) (replicate (length weight) 1)))
    as (s & -> & [(L1 & L2 & L3) Hs Hr]); [|lia|done|].
  { split; cbn.
    - rewrite length_seqZ, !length_replicate. done.
    - rewrite (sumZ_full 1) by (by apply Forall_replicate). unfold zlen. rewrite length_replicate. lia.
    - rewrite take_replicate, Nat.min_l by lia. replace (take _ _) with (seqZ 0 (Z.of_nat (length weight))); [apply replicas_once|].
      apply list_eq. intros j. rewrite lookup_take. case_decide; [rewrite !lookup_seqZ_lt by lia; done|by rewrite lookup_seqZ_ge by lia]. }
  cbn [mbind res_bind]. eexists _, _, _. split; [done|]. rewrite !take_ge in Hr by lia. unfold n in *. split_and!; [done|done|lia|lia].
Qed.

End replicate.

(** [weight / logcnt]: the load of a replica of each expert. *)
Definition loads (weight : list Qc) (cnt : list Z) : list Qc := zip_with (λ w c, (w / fofZ c)%F) weight cnt.

Lemma Qc_ofZ_pos c : 0 < c → (0 < Qc_ofZ c)%Qc.
Proof. intros Hc. rewrite <- Qc_ofZ_0. by apply Qc_ofZ_lt. Qed.

Lemma share_le (w : Qc) c c' : (0 <= w)%Qc → 0 < c ≤ c' → (w / Qc_ofZ c' <= w / Qc_ofZ c)%Qc.
Proof.
  intros Hw Hc. assert (H1 := Qc_ofZ_pos c ltac:(lia)). assert (H2 := Qc_ofZ_pos c' ltac:(lia)).
  apply Qcmult_lt_0_le_reg_r with (Qc_ofZ c * Qc_ofZ c')%Qc; [rewrite Qc_ofZ_mul; apply Qc_ofZ_pos; nia|].
  replace (w / Qc_ofZ c' * (Qc_ofZ c * Qc_ofZ c'))%Qc with (w * Qc_ofZ c)%Qc by (field; intros E; rewrite E in H2; by apply Qclt_not_eq in H2).
  replace (w / Qc_ofZ c * (Qc_ofZ c * Qc_ofZ c'))%Qc with (w * Qc_ofZ c')%Qc by (field; intros E; rewrite E in H1; by apply Qclt_not_eq in H1).
  apply Qc_mul_le_l; [done|]. apply Qc_ofZ_le. lia.
Qed.

Lemma max_index_max (pre l : list Qc) best bi :
  pre !! bi = Some best → Forall (λ y, y <= best)%Qc pre →
  ∃ x, (pre ++ l) !! max_index best bi (length pre) l = Some x ∧ Forall (λ y, y <= x)%Qc (pre ++ l).
Proof.
  revert pre best bi. induction l as [|y l IH]; intros pre best bi Hb Hpre; cbn [max_index].
  { exists best. by rewrite app_nil_r. }
  replace (S (length pre)) with (length (pre ++ [y])) by (rewrite length_app; cbn; lia).
  replace (pre ++ y :: l) with ((pre ++ [y]) ++ l) by by rewrite <- app_assoc.
  destruct (flt best y) eqn:E.
  - apply Qc_flt in E. apply IH; [by rewrite list_lookup_middle|]. apply Forall_app. split; [|by repeat constructor; apply Qcle_refl].
    eapply Forall_impl; [exact Hpre|]. intros z Hz. apply Qcle_trans with best; [exact Hz|]. by apply Qclt_le_weak.
  - apply Qc_flt_false in E. apply IH; [by apply lookup_app_l_Some|]. apply Forall_app. split; [done|]. by constructor.
Qed.

Lemma argmax_max (l : list Qc) e : argmax l = Ok e → ∃ x, l !! e = Some x ∧ Forall (λ y, y <= x)%Qc l.
Proof.
  destruct l as [|x l]; [done|]. cbn [argmax]. intros [=<-]. apply (max_index_max [x] l x 0); [done|]. repeat constructor. apply Qcle_refl.
Qed.

(** No expert has a replica that it would not need for the largest load of a replica. *)
Definition thrifty (weight : list Qc) (cnt : list Z) : Prop :=
  ∀ e w c, weight !! e = Some w → cnt !! e = Some c → 1 < c → Forall (λ x, x <= w / Qc_ofZ (c - 1))%Qc (loads weight cnt).

Lemma loads_lookup weight cnt e x :
  loads weight cnt !! e = Some x ↔ ∃ w c, x = (w / Qc_ofZ c)%Qc ∧ weight !! e = Some w ∧ cnt !! e = Some c.
Proof. unfold loads. by rewrite lookup_zip_with_Some. Qed.

(** One more replica lowers the load of its expert and leaves the others. *)
Lemma loads_add weight cnt e c bound :
  Forall (λ w, 0 <= w)%Qc weight → cnt !! e = Some c → 1 ≤ c →
  Forall (λ x, x <= bound)%Qc (loads weight cnt) → Forall (λ x, x <= bound)%Qc (loads weight (<[e := c + 1]> cnt)).
Proof.
  intros Hw He Hc Hb. apply Forall_lookup. intros k x (w & c' & -> & Hk & Hc')%loads_lookup.
  assert (Hwk := Forall_lookup_1 _ _ _ _ Hw Hk). destruct (decide (k = e)) as [->|Hne].
  - rewrite list_lookup_insert_eq in Hc' by (by eapply lookup_lt_Some). simplify_eq.
    apply Qcle_trans with (w / Qc_ofZ c)%Qc; [apply share_le; [done|lia]|]. apply (Forall_lookup_1 _ _ e _ Hb), loads_lookup. eauto.
  - rewrite list_lookup_insert_ne in Hc' by done. apply (Forall_lookup_1 _ _ k _ Hb), loads_lookup. eauto.
Qed.

Lemma thrifty_add weight cnt e c :
  Forall (λ w, 0 <= w)%Qc weight → Forall (λ c, 1 ≤ c) cnt → thrifty weight cnt →
  argmax (loads weight cnt) = Ok e → cnt !! e = Some c → thrifty weight (<[e := c + 1]> cnt).
Proof.
  intros Hw Hpos Ht (x & Hx & Hmax)%argmax_max He k w c' Hk Hc' Hc1. assert (Hc := Forall_lookup_1 _ _ _ _ Hpos He). cbn in Hc.
  apply loads_add; [done..|]. destruct (decide (k = e)) as [->|Hne].
  - rewrite list_lookup_insert_eq in Hc' by (by eapply lookup_lt_Some). simplify_eq.
    apply loads_lookup in Hx as (w' & c0 & -> & ? & ?). simplify_eq. by replace (c0 + 1 - 1) with c0 by lia.
  - rewrite list_lookup_insert_ne in Hc' by done. by eapply Ht.
Qed.

Lemma replicate_loop_thrifty weight : ∀ k i s s',
  Forall (λ w, 0 <= w)%Qc weight → Forall (λ c, 1 ≤ c) (re_logcnt s) → thrifty weight (re_logcnt s) →
  replicate_loop weight k i s = Ok s' → thrifty weight (re_logcnt s').
Proof.
  induction k as [|k IH]; intros i s s' Hw Hpos Ht; cbn [replicate_loop]; [by intros [=->]|].
  fold (loads weight (re_logcnt s)). destruct (argmax _) as [e|] eqn:Ee; [|done]. cbn [mbind res_bind].
  destruct (re_logcnt s !! e) as [c|] eqn:Ec; [|done]. assert (Hc := Forall_lookup_1 _ _ _ _ Hpos Ec). cbn in Hc. apply IH; [done|..]; cbn [re_logcnt].
  - apply Forall_insert; [done|lia].
  - by eapply thrifty_add.
Qed.

(** A thrifty assignment needs at most the replicas of any assignment with smaller loads. *)
Lemma thrifty_fewer weight cnt : ∀ cnt',
  Forall (λ w, 0 <= w)%Qc weight → Forall (λ c, 1 ≤ c) cnt' → length cnt = length weight → length cnt' = length weight →
  ∀ bound, (∀ e w c, weight !! e = Some w → cnt !! e = Some c → 1 < c → (bound < w / Qc_ofZ (c - 1))%Qc) →
  Forall (λ x, x <= bound)%Qc (loads weight cnt') →
  Forall2 Z.le cnt cnt'.
Proof.
  intros cnt' Hw Hpos' Hl Hl' bound Ht Hb. apply Forall2_same_length_lookup_2; [lia|]. intros e c c' Hc Hc'.
  assert (H1 := Forall_lookup_1 _ _ _ _ Hpos' Hc'). cbn in H1. destruct (decide (c ≤ c')) as [|Hgt]; [done|]. exfalso.
  destruct (lookup_lt_is_Some_2 weight e) as [w He]; [apply lookup_lt_Some in Hc; lia|]. assert (Hwe := Forall_lookup_1 _ _ _ _ Hw He).
  apply (Qclt_not_le _ _ (Ht e w c He Hc ltac:(lia))). apply Qcle_trans with (w / Qc_ofZ c')%Qc; [apply share_le; [done|lia]|].
  apply (Forall_lookup_1 _ _ e _ Hb), loads_lookup. eauto.
Qed.

Lemma sumZ_le l k : Forall2 Z.le l k → sumZ l ≤ sumZ k.
Proof. induction 1; cbn [sumZ]; lia. Qed.

Lemma sumZ_lt l k e x y : Forall2 Z.le l k → l !! e = Some x → k !! e = Some y → x < y → sumZ l < sumZ k.
Proof.
  intros Hle. revert e. induction Hle as [|a b l k Hab Hlk IH]; intros [|e] Hx Hy Hxy; try done; cbn in Hx, Hy; cbn [sumZ].
  - simplify_eq. apply sumZ_le in Hlk. lia.
  - specialize (IH e Hx Hy Hxy). lia.
Qed.

Lemma thrifty_optimal weight cnt cnt' bound :
  Forall (λ w, 0 <= w)%Qc weight → thrifty weight cnt → Forall (λ c, 1 ≤ c) cnt' →
  length cnt = length weight → length cnt' = length weight → sumZ cnt' ≤ sumZ cnt →
  Forall (λ x, x <= bound)%Qc (loads weight cnt') → Forall (λ x, x <= bound)%Qc (loads weight cnt).
Proof.
  intros Hw Ht Hpos' Hl Hl' Hsum Hb. apply Forall_lookup. intros k x Hk. destruct (Qclt_le_dec bound x) as [Hx|]; [|done]. exfalso.
  assert (Hle : Forall2 Z.le cnt cnt').
  { apply (thrifty_fewer weight cnt cnt' Hw Hpos' Hl Hl' bound); [|done]. intros e w c He Hc H1. eapply Qclt_le_trans; [exact Hx|].
    exact (Forall_lookup_1 _ _ _ _ (Ht e w c He Hc H1) Hk). }
  apply loads_lookup in Hk as (w & c & -> & Hwk & Hck). destruct (lookup_lt_is_Some_2 cnt' k) as [c' Hc']; [apply lookup_lt_Some in Hck; lia|].
  assert (Hc1 := Forall_lookup_1 _ _ _ _ Hpos' Hc'). cbn in Hc1. assert (Hcc := Forall2_lookup_lr _ _ _ _ _ _ Hle Hck Hc').
  assert (Hlt : c < c').
  { destruct (decide (c = c')) as [->|]; [|cbn in Hcc; lia]. exfalso. apply (Qclt_not_le _ _ Hx).
    apply (Forall_lookup_1 _ _ k _ Hb), loads_lookup. eauto. }
  pose proof (sumZ_lt _ _ _ _ _ Hle Hck Hc' Hlt). lia.
Qed.

(** C18: [replicate_experts] replicates every row of at least one expert to at least as many physical experts:
    each logical expert gets at least one replica, the physical experts are its replicas [0, ..., logcnt - 1],
    each once, and the largest load of a replica is the smallest that any assignment of the physical experts
    can have (exact arithmetic, loads that are not negative). *)
Theorem replicate_experts_optimal weight num_phy :
  (0 < length weight)%nat → zlen weight ≤ num_phy → Forall (λ w, 0 <= w)%Qc weight →
  ∃ phy2log rank logcnt, replicate_experts_row weight num_phy = Ok (phy2log, rank, logcnt)
    ∧ replicas phy2log rank logcnt ∧ length logcnt = length weight ∧ zlen phy2log = num_phy ∧ sumZ logcnt = num_phy
    ∧ ∀ cnt bound, length cnt = length weight → Forall (λ c, 1 ≤ c) cnt → sumZ cnt ≤ num_phy →
        Forall (λ x, x <= bound)%Qc (loads weight cnt) → Forall (λ x, x <= bound)%Qc (loads weight logcnt).
Proof.
  intros Hl Hn Hw. destruct (replicate_experts_row_ok weight num_phy Hl Hn) as (phy2log & rank & logcnt & E & Hr & Hlc & Hlp & Hs).
  exists phy2log, rank, logcnt. split_and!; try done. intros cnt bound Hcl Hpos Hsum.
  apply thrifty_optimal; [done| |done|done|done|lia].
  unfold replicate_experts_row in E. rewrite bool_decide_true in E by (unfold zlen in Hn; lia). cbn [py_assert mbind res_bind] in E.
  destruct (replicate_loop _ _ _ _) as [s|] eqn:Es; [|done]. cbn [mbind res_bind] in E. inversion E; subst.
  eapply replicate_loop_thrifty; [done| | |exact Es]; cbn [re_logcnt].
  - apply Forall_replicate. lia.
  - intros e w c _ [-> _]%lookup_replicate Hc. lia.
Qed.

(** [replicate_experts_optimal] for loads 7, 2, 1 on six physical experts. *)
Lemma replicate_experts_optimal_witness :
  ∃ phy2log rank logcnt, replicate_experts_row [Qc_ofZ 7; Qc_ofZ 2; Qc_ofZ 1] 6 = Ok (phy2log, rank, logcnt)
    ∧ replicas phy2log rank logcnt ∧ logcnt = [4; 1; 1]
    ∧ Forall (λ x, x <= Qc_ofZ 2)%Qc (loads [Qc_ofZ 7; Qc_ofZ 2; Qc_ofZ 1] logcnt).
Proof.
  destruct (replicate_experts_optimal [Qc_ofZ 7; Qc_ofZ 2; Qc_ofZ 1] 6) as (p & r & c & E & Hr & _ & _ & _ & Hopt);
    [cbn; lia|vm_compute; discriminate|repeat constructor; vm_compute; discriminate|].
  exists p, r, c. split_and!; [exact E|exact Hr| |].
  - assert (Hc : replicate_experts_row [Qc_ofZ 7; Qc_ofZ 2; Qc_ofZ 1] 6 = Ok ([0; 1; 2; 0; 0; 0], [0; 0; 0; 1; 2; 3], [4; 1; 1])) by (vm_compute; reflexivity).
    rewrite Hc in E. by inversion E.
  - apply (Hopt [4; 1; 1] (Qc_ofZ 2)); [reflexivity|repeat constructor; lia|vm_compute; discriminate|repeat constructor; vm_compute; discriminate].
Defined.
