(* ===== verification/ExpertPlace.v ===== *)
(** * Balancing experts: placing the replicas

    The composition of the packings and the replication in [rebalance_experts_hierarchical]: the physical experts
    of a layer are the replicas of its logical experts, each once, the experts of a group stay on one node, and
    [log2phy] of [rebalance_experts] lists the replicas of every expert. *)

From S2P Require Import Prelude RadixKey PyFloat ExpertBalance ExpertProps.

(** ** Blocks of equal length *)

Lemma concat_at {A} (k : nat) (ll : list (list A)) : Forall (λ l, length l = k) ll →
  ∀ i q, (q < k)%nat → concat ll !! (i * k + q)%nat = ll !! i ≫= λ l, l !! q.
Proof.
  induction 1 as [|l ll Hl _ IH]; intros [|i] q Hq; cbn [concat]; [done|done| |].
  - rewrite lookup_app_l by lia. done.
  - rewrite lookup_app_r by lia. replace (_ - _)%nat with (i * k + q)%nat by lia. by apply IH.
Qed.

Lemma concat_Some {A} (k : nat) (ll : list (list A)) j x : Forall (λ l, length l = k) ll → (0 < k)%nat →
  concat ll !! j = Some x ↔ ∃ i q l, j = (i * k + q)%nat ∧ (q < k)%nat ∧ ll !! i = Some l ∧ l !! q = Some x.
Proof.
  intros Hll Hk. split.
  - intros Hj. exists (j / k)%nat, (j mod k)%nat. pose proof (Nat.mod_upper_bound j k). pose proof (Nat.div_mod j k). 
    assert (Ej : (j / k * k + j mod k)%nat = j) by lia. rewrite <- Ej, (concat_at k) in Hj by (done || lia).
    destruct (ll !! (j / k)%nat) as [l|]; [|done]. exists l. split_and!; [done|lia|done|done].
  - intros (i & q & l & -> & Hq & Hl & Hx). rewrite (concat_at k) by done. by rewrite Hl.
Qed.

Lemma length_concat_const {A} (k : nat) (ll : list (list A)) : Forall (λ l, length l = k) ll → length (concat ll) = (length ll * k)%nat.
Proof. induction 1 as [|l ll Hl _ IH]; [done|]. cbn [concat length]. rewrite length_app. lia. Qed.

Lemma chunks_length {A} n k (l : list A) : length (chunks n k l) = n.
Proof. unfold chunks. by rewrite length_map, length_seq. Qed.

Lemma chunks_lengths {A} n k (l : list A) : length l = (n * k)%nat → Forall (λ c, length c = k) (chunks n k l).
Proof.
  intros Hl. apply Forall_fmap, Forall_forall. intros i Hi%elem_of_seq. cbn. rewrite length_take, length_drop. nia.
Qed.

Lemma block_inj (k i i' q q' : nat) : (q < k)%nat → (q' < k)%nat → (i * k + q = i' * k + q')%nat → i = i' ∧ q = q'.
Proof. intros Hq Hq' E. apply (Nat.div_mod_unique k); lia. Qed.

(** ** Rearranging the physical experts *)

Lemma replicas_perm p r p' r' c :
  replicas p r c → length r' = length p' → zip p' r' ≡ₚ zip p r → replicas p' r' c.
Proof.
  intros [Hl Hnd Hp Hpos] Hl' Hz. split; [done|by rewrite Hz| |done]. intros e x. rewrite <- Hp. by rewrite Hz.
Qed.

(** The nodes one after the other. *)
Section nodes.
Context (K M : nat) (nodes : list (list Z * list Z * list Z)) (HK : (0 < K)%nat) (HM : (0 < M)%nat)
  (Hn : Forall (λ '(p, r, c), replicas p r c ∧ length p = K ∧ length c = M) nodes).

Let P := imap (λ i '(p, _, _), map (λ m, m + Z.of_nat i * Z.of_nat M) p) nodes.
Let R := map (λ '(_, r, _), r) nodes.
Let C := map (λ '(_, _, c), c) nodes.

Lemma node_ok i p r c : nodes !! i = Some (p, r, c) → replicas p r c ∧ length p = K ∧ length c = M.
Proof. intros Hi. exact (Forall_lookup_1 _ _ _ _ Hn Hi). Qed.

Lemma node_lengths : Forall (λ l, length l = K) P ∧ Forall (λ l, length l = K) R ∧ Forall (λ l, length l = M) C.
Proof.
  split_and!.
  - apply Forall_lookup. intros i l Hi. unfold P in Hi. rewrite list_lookup_imap in Hi. destruct (nodes !! i) as [[[p r] c]|] eqn:E; [|done].
    cbn in Hi. simplify_eq. rewrite length_map. by destruct (node_ok _ _ _ _ E) as (_ & ? & _).
  - apply Forall_fmap. eapply Forall_impl; [exact Hn|]. intros [[p r] c] ([Hl _ _ _] & ? & _). cbn. lia.
  - apply Forall_fmap. eapply Forall_impl; [exact Hn|]. intros [[p r] c] (_ & _ & ?). done.
Qed.

Lemma node_expert j e : concat P !! j = Some e ↔
  ∃ i q p r c m, j = (i * K + q)%nat ∧ (q < K)%nat ∧ nodes !! i = Some (p, r, c) ∧ p !! q = Some m ∧ e = m + Z.of_nat i * Z.of_nat M.
Proof.
  destruct node_lengths as (HP & _ & _). rewrite (concat_Some K) by done. split.
  - intros (i & q & l & -> & Hq & Hi & Hl). unfold P in Hi. rewrite list_lookup_imap in Hi. destruct (nodes !! i) as [[[p r] c]|] eqn:E; [|done].
    cbn in Hi. simplify_eq. rewrite list_lookup_fmap in Hl. destruct (p !! q) as [m|] eqn:Em; [|done]. cbn in Hl. simplify_eq. by exists i, q, p, r, c, m.
  - intros (i & q & p & r & c & m & -> & Hq & E & Hm & ->). eexists i, q, _. split_and!; [done|done| |].
    + unfold P. by rewrite list_lookup_imap, E.
    + by rewrite list_lookup_fmap, Hm.
Qed.

Lemma node_pair j e r : zip (concat P) (concat R) !! j = Some (e, r) ↔
  ∃ i q p' r' c' m, j = (i * K + q)%nat ∧ (q < K)%nat ∧ nodes !! i = Some (p', r', c') ∧ zip p' r' !! q = Some (m, r) ∧ e = m + Z.of_nat i * Z.of_nat M.
Proof.
  destruct node_lengths as (_ & HR & _). rewrite lookup_zip_with_Some. split.
  - intros (e0 & r0 & [=<- <-] & He & Hr). apply node_expert in He as (i & q & p' & r' & c' & m & -> & Hq & E & Hm & ->).
    exists i, q, p', r', c', m. split_and!; try done. rewrite (concat_at K) in Hr by done. unfold R in Hr. rewrite list_lookup_fmap, E in Hr. cbn in Hr.
    by rewrite lookup_zip_with, Hm, Hr.
  - intros (i & q & p' & r' & c' & m & -> & Hq & E & Hz & ->). apply lookup_zip_with_Some in Hz as (m0 & r0 & [=<- <-] & Hm & Hr).
    eexists _, _. split; [done|]. split; [apply node_expert; by exists i, q, p', r', c', m|].
    rewrite (concat_at K) by done. unfold R. by rewrite list_lookup_fmap, E.
Qed.

Lemma node_range i q p r c m : nodes !! i = Some (p, r, c) → p !! q = Some m → 0 ≤ m < Z.of_nat M.
Proof.
  intros Hi Hq. destruct (node_ok _ _ _ _ Hi) as (Hrep & _ & Hc).
  pose proof (Forall_lookup_1 _ _ _ _ (replicas_range _ _ _ Hrep) Hq) as Hr. cbn in Hr. unfold zlen in Hr. lia.
Qed.

Lemma zip_fst {A B} (a : list A) (b : list B) q x y : zip a b !! q = Some (x, y) → a !! q = Some x.
Proof. by intros (? & ? & [=<- <-] & ? & _)%lookup_zip_with_Some. Qed.

Lemma nodes_nodup : NoDup (zip (concat P) (concat R)).
Proof.
  apply NoDup_alt. intros j j' [e r] Hj Hj'. apply node_pair in Hj as (i & q & p' & r' & c' & m & -> & Hq & Hi & Hzq & ->).
  apply node_pair in Hj' as (i2 & q2 & p2 & r2 & c2 & m2 & -> & Hq2 & Hi2 & Hzq2 & E).
  pose proof (node_range _ _ _ _ _ _ Hi (zip_fst _ _ _ _ _ Hzq)). pose proof (node_range _ _ _ _ _ _ Hi2 (zip_fst _ _ _ _ _ Hzq2)).
  destruct (place_inj (Z.of_nat M) (Z.of_nat i) (Z.of_nat i2) m m2) as [Ei ->]; [lia..|]. apply Nat2Z.inj in Ei as <-. rewrite Hi in Hi2. inversion Hi2; subst.
  destruct (node_ok _ _ _ _ Hi) as ([_ Hnd _ _] & _). by rewrite (NoDup_lookup _ _ _ _ Hnd Hzq Hzq2).
Qed.

Lemma nodes_pairs e r : (e, r) ∈ zip (concat P) (concat R) ↔ 0 ≤ e ∧ 0 ≤ r ∧ ∃ c, concat C !! Z.to_nat e = Some c ∧ r < c.
Proof.
  destruct node_lengths as (_ & _ & HC). rewrite list_elem_of_lookup. split.
  - intros [j Hj]. apply node_pair in Hj as (i & q & p' & r' & c' & m & -> & Hq & Hi & Hzq & ->). pose proof (node_range _ _ _ _ _ _ Hi (zip_fst _ _ _ _ _ Hzq)) as Hm.
    destruct (node_ok _ _ _ _ Hi) as ([_ _ Hp _] & _). destruct (proj1 (Hp m r)) as (_ & Hr & c & Hc & Hlt); [by eapply list_elem_of_lookup_2|].
    split_and!; [lia|done|]. exists c. split; [|done]. replace (Z.to_nat _) with (i * M + Z.to_nat m)%nat by lia.
    rewrite (concat_at M) by (done || lia). unfold C. rewrite list_lookup_fmap, Hi. done.
  - intros (He & Hr & c & Hcc & Hlt). apply (concat_Some M) in Hcc as (i & q & l & Ej & Hq & Hl & Hc); [|done|done]. unfold C in Hl. rewrite list_lookup_fmap in Hl.
    destruct (nodes !! i) as [[[p' r'] c']|] eqn:Hi; [|done]. cbn in Hl. inversion Hl; subst l.
    destruct (node_ok _ _ _ _ Hi) as ([Hlen _ Hp _] & HKp & _).
    destruct (proj1 (list_elem_of_lookup _ _) (proj2 (Hp (Z.of_nat q) r) ltac:(split_and!; [lia|done|exists c; by rewrite Nat2Z.id]))) as [x Hx].
    exists (i * K + x)%nat. apply node_pair. exists i, x, p', r', c', (Z.of_nat q). split_and!; try done; [|lia].
    apply lookup_lt_Some in Hx. rewrite length_zip_with in Hx. lia.
Qed.

Lemma replicas_concat : replicas (concat P) (concat R) (concat C).
Proof.
  destruct node_lengths as (HP & HR & _). split; [|apply nodes_nodup|apply nodes_pairs|].
  - rewrite !(length_concat_const K) by done. unfold R, P. by rewrite length_map, length_imap.
  - apply Forall_concat, Forall_fmap. eapply Forall_impl; [exact Hn|]. intros [[p r] c] ([_ _ _ ?] & _). done.
Qed.

End nodes.

(** The experts under other numbers. *)
Lemma replicas_relabel p r c fwd back p' c' :
  replicas p r c → inverts fwd back → length c = length fwd → picked back p p' → picked c fwd c' → replicas p' r c'.
Proof.
  intros [Hl Hnd Hp Hpos] [Il Ib If _] Hc Hp' Hc'.
  assert (Hat : ∀ j e, p' !! j = Some e ↔ ∃ m, p !! j = Some m ∧ 0 ≤ e ∧ 0 ≤ m ∧ fwd !! Z.to_nat e = Some m).
  { intros j e. split.
    - intros Hj. destruct (Forall2_lookup_r _ _ _ _ _ Hp' Hj) as (m & Hm & H0 & Hb). exists m. destruct (If _ _ Hb). rewrite Z2Nat.id in * by done. done.
    - intros (m & Hm & He & H0 & Hf). destruct (Forall2_lookup_l _ _ _ _ _ Hp' Hm) as (e' & He' & _ & Hb). destruct (Ib _ _ Hf) as [_ Hb'].
      rewrite Z2Nat.id in Hb' by done. congruence. }
  assert (Hcnt : ∀ e x, c' !! e = Some x ↔ ∃ m, fwd !! e = Some m ∧ 0 ≤ m ∧ c !! Z.to_nat m = Some x).
  { intros e x. split.
    - intros He. destruct (Forall2_lookup_r _ _ _ _ _ Hc' He) as (m & ? & ? & ?). eauto.
    - intros (m & Hm & H0 & Hx). destruct (Forall2_lookup_l _ _ _ _ _ Hc' Hm) as (x' & ? & _ & ?). congruence. }
  assert (Hlp := picked_length _ _ _ Hp'). split; [lia| | |].
  - apply NoDup_alt. intros j j' [e x] Hj Hj'. apply lookup_zip_with_Some in Hj as (? & ? & [=<- <-] & (m & Hm & ? & ? & Hf)%Hat & Hx).
    apply lookup_zip_with_Some in Hj' as (? & ? & [=<- <-] & (m' & Hm' & ? & ? & Hf')%Hat & Hx'). rewrite Hf in Hf'. simplify_eq.
    eapply (NoDup_lookup _ _ _ (m', x) Hnd); by rewrite lookup_zip_with, ?Hm, ?Hm', ?Hx, ?Hx'.
  - intros e x. rewrite list_elem_of_lookup. split.
    + intros [j Hj]. apply lookup_zip_with_Some in Hj as (? & ? & [=<- <-] & (m & Hm & He & H0 & Hf)%Hat & Hx).
      destruct (proj1 (Hp m x)) as (_ & Hx0 & y & Hy & Hlt); [apply list_elem_of_lookup; exists j; by rewrite lookup_zip_with, Hm, Hx|].
      split_and!; [done|done|]. exists y. split; [|done]. apply Hcnt. eauto.
    + intros (He & Hx & y & (m & Hf & H0 & Hy)%Hcnt & Hlt).
      destruct (proj1 (list_elem_of_lookup _ _) (proj2 (Hp m x) ltac:(eauto))) as [j Hj]. exists j.
      apply lookup_zip_with_Some in Hj as (? & ? & [=<- <-] & Hm & Hr). apply lookup_zip_with_Some. eexists _, _. split; [done|].
      split; [|done]. apply Hat. eauto.
  - apply Forall_lookup. intros e x (m & _ & _ & Hx)%Hcnt. exact (Forall_lookup_1 _ _ _ _ Hpos Hx).
Qed.

(** ** A layer *)

Section layer.
Context {F : Type} `{PyNum F} (sort_desc : list F → list nat) (uninit : Z)
  (Hsort : ∀ l, sort_desc l ≡ₚ seq 0 (length l)).

Lemma place_node_ok tokens num_gpus k :
  (0 < length tokens)%nat → 0 < num_gpus → zlen tokens ≤ num_gpus * k →
  ∃ p r c, place_node sort_desc uninit tokens (num_gpus * k) num_gpus k = Ok (p, r, c)
    ∧ replicas p r c ∧ zlen p = num_gpus * k ∧ length c = length tokens.
Proof.
  intros Hl Hg Hle. unfold place_node.
  destruct (replicate_experts_row_ok tokens (num_gpus * k) Hl Hle) as (p & r & c & -> & Hrep & Hc & Hp & _). cbn [mbind res_bind].
  pose proof (replicas_range _ _ _ Hrep) as Hrange. destruct (gather_ok (zip_with (λ w c, (w / fofZ c)%F) tokens c) p) as (t & -> & Ht).
  { eapply Forall_impl; [exact Hrange|]. intros e He. cbn in *. unfold zlen in *. rewrite length_zip_with. lia. }
  apply picked_length in Ht. assert (Htz : zlen t = num_gpus * k) by (unfold zlen in *; lia). cbn [mbind res_bind].
  destruct (balanced_packing_ok sort_desc Hsort t num_gpus Hg) as (index & rank & -> & Hi & Hr & _ & Hpl);
    [rewrite Htz, Z.mul_comm; apply Z.mod_mul; lia|]. cbn [mbind res_bind].
  replace (zlen t / num_gpus) with k in Hpl by (rewrite Htz, Z.mul_comm, Z.div_mul; lia). fold (places k index rank).
  assert (Hpz : length (places k index rank) = length p) by (unfold places; rewrite length_zip_with; lia).
  destruct (inverse_ok uninit (places k index rank)) as (inv & -> & Hinv); [by replace (zlen (places k index rank)) with (zlen t) by (unfold zlen; lia)|].
  cbn [mbind res_bind]. destruct Hinv as [Hil _ _ Hip].
  assert (Hir : ∀ l : list Z, length l = length inv → Forall (λ i, 0 ≤ i < zlen l) inv).
  { intros l El. apply Forall_forall. intros i Hin. rewrite Hip in Hin. apply elem_of_seqZ in Hin. unfold zlen in *. lia. }
  destruct (gather_ok p inv) as (p' & -> & Hp'); [apply Hir; lia|]. cbn [mbind res_bind]. destruct Hrep as [Hlr ? ? ?] eqn:Erep. clear Erep.
  destruct (gather_ok r inv) as (r' & -> & Hr'); [apply Hir; lia|]. cbn [mbind res_bind].
  eexists _, _, _. split; [done|]. assert (L1 := picked_length _ _ _ Hp'). assert (L2 := picked_length _ _ _ Hr').
  split; [|split; [unfold zlen in *; lia|done]]. eapply (replicas_perm p r); [done|lia|].
  eapply picked_perm; [by apply picked_zip|]. replace (zlen (zip p r)) with (zlen inv) by (unfold zlen; rewrite length_zip_with; lia). done.
Qed.

Lemma place_nodes_ok tokens num_gpus k M :
  (0 < M)%nat → 0 < num_gpus → Z.of_nat M ≤ num_gpus * k → Forall (λ t, length t = M) tokens →
  ∃ nodes, place_nodes sort_desc uninit tokens (num_gpus * k) num_gpus k = Ok nodes ∧ length nodes = length tokens
    ∧ Forall (λ '(p, r, c), replicas p r c ∧ length p = Z.to_nat (num_gpus * k) ∧ length c = M) nodes.
Proof.
  intros HM Hg Hle. unfold place_nodes. induction 1 as [|t ts Ht _ (nodes & E & Hl & Hn)]; [by exists []|]. cbn [res_map].
  destruct (place_node_ok t num_gpus k) as (p & r & c & -> & Hrep & Hp & Hc); [lia|done|unfold zlen; lia|]. cbn [mbind res_bind]. rewrite E.
  eexists. split; [done|]. split; [cbn; lia|]. constructor; [|done]. split; [done|]. unfold zlen in Hp. lia.
Qed.

(** [log2mlog]: the experts renumbered so that the groups of a node are together. *)
Definition regroup (S : Z) (pl : list Z) : list Z := concat (map (λ x, map (λ k, x * S + k) (seqZ 0 S)) pl).

Lemma regroup_Some S pl e m : 0 < S → regroup S pl !! e = Some m ↔
  ∃ i q x, e = (i * Z.to_nat S + q)%nat ∧ Z.of_nat q < S ∧ pl !! i = Some x ∧ m = x * S + Z.of_nat q.
Proof.
  intros HS. unfold regroup. rewrite (concat_Some (Z.to_nat S)); [|apply Forall_fmap, Forall_true; intros x; cbn; by rewrite length_map, length_seqZ|lia].
  split.
  - intros (i & q & l & -> & Hq & Hi & Hl). rewrite list_lookup_fmap in Hi. destruct (pl !! i) as [x|] eqn:Ex; [|done]. cbn in Hi. simplify_eq.
    rewrite list_lookup_fmap, lookup_seqZ_lt in Hl by lia. cbn in Hl. simplify_eq. exists i, q, x. split_and!; [done|lia|done|done].
  - intros (i & q & x & -> & Hq & Hi & ->). eexists i, q, _. split_and!; [done|lia|by rewrite list_lookup_fmap, Hi|].
    rewrite list_lookup_fmap, lookup_seqZ_lt by lia. done.
Qed.

Lemma length_regroup S pl : 0 < S → zlen (regroup S pl) = zlen pl * S.
Proof.
  intros HS. unfold regroup, zlen. rewrite (length_concat_const (Z.to_nat S)); [rewrite length_map; lia|].
  apply Forall_fmap, Forall_true. intros x. cbn. by rewrite length_map, length_seqZ.
Qed.

Lemma regroup_perm S pl n : 0 < S → pl ≡ₚ seqZ 0 n → zlen pl = n → regroup S pl ≡ₚ seqZ 0 (zlen (regroup S pl)).
Proof.
  intros HS Hp Hn. apply perm_seqZ.
  - apply NoDup_alt. intros e e' m He He'. apply regroup_Some in He as (i & q & x & -> & Hq & Hx & ->); [|done].
    apply regroup_Some in He' as (i' & q' & x' & -> & Hq' & Hx' & E); [|done]. destruct (place_inj S x x' (Z.of_nat q) (Z.of_nat q')) as [<- Eq]; [lia..|].
    apply Nat2Z.inj in Eq as <-. f_equal. f_equal. eapply (NoDup_lookup pl); [rewrite Hp; apply NoDup_seqZ|done..].
  - rewrite length_regroup by done. apply Forall_lookup. intros e m He. apply regroup_Some in He as (i & q & x & -> & Hq & Hx & ->); [|done].
    apply list_elem_of_lookup_2 in Hx. rewrite Hp in Hx. apply elem_of_seqZ in Hx. nia.
Qed.

(** What [rebalance_experts_hierarchical] promises of a layer: [pack] is the node of each group, and the physical
    experts of a node are [K] in a row. *)
Record layer_ok (num_logical num_physical group_size K : Z) (res : list Z * list Z * list Z) : Prop := {
  ly_replicas : replicas res.1.1 res.1.2 res.2;
  ly_length : zlen res.1.1 = num_physical;
  ly_count : zlen res.2 = num_logical;
  ly_local p p' e e' : res.1.1 !! p = Some e → res.1.1 !! p' = Some e' → e / group_size = e' / group_size → Z.of_nat p / K = Z.of_nat p' / K
}.

Lemma regroup_places G S index rank :
  concat (zip_with (λ p r, map (λ k, (p * G + r) * S + k) (seqZ 0 S)) index rank) = regroup S (places G index rank).
Proof. unfold regroup, places. revert rank. induction index as [|p index IH]; intros [|r rank]; [done..|]. cbn. by rewrite IH. Qed.

(** The node of a renumbered expert is the pack of its group. *)
Lemma regroup_node G S index rank e m :
  0 < G → 0 < S → Forall (λ r, 0 ≤ r < G) rank → regroup S (places G index rank) !! e = Some m →
  ∃ p, index !! Z.to_nat (Z.of_nat e / S) = Some p ∧ m / (G * S) = p.
Proof.
  intros HG HS Hr He. apply regroup_Some in He as (i & q & x & -> & Hq & Hx & ->); [|done].
  apply lookup_zip_with_Some in Hx as (p & r & -> & Hp & Hri). pose proof (Forall_lookup_1 _ _ _ _ Hr Hri) as Hr'. cbn in Hr'.
  exists p. split.
  - replace (Z.of_nat (i * Z.to_nat S + q)) with (Z.of_nat q + Z.of_nat i * S) by lia.
    rewrite Z.div_add, Z.div_small, Z.add_0_l, Nat2Z.id by lia. done.
  - replace ((p * G + r) * S + Z.of_nat q) with ((r * S + Z.of_nat q) + p * (G * S)) by lia.
    rewrite Z.div_add, Z.div_small by nia. lia.
Qed.

Lemma divides_ok a b : 0 < b → assert_divides b (b * a) = Ok tt.
Proof. intros Hb. apply assert_divides_ok; [done|]. rewrite Z.mul_comm. apply Z.mod_mul. lia. Qed.

Lemma div_exact a b : 0 < b → b * a / b = a.
Proof. intros Hb. rewrite Z.mul_comm. apply Z.div_mul. lia. Qed.

Lemma int_div_exact a b : 0 < b → int_div (b * a) b = Ok a.
Proof. intros Hb. by rewrite int_div_ok, div_exact. Qed.

(** The nodes of a layer, from the renumbering of its experts. *)
Lemma place_layer_ok weight N M g k log2mlog :
  0 < N → 0 < M → 0 < g → M ≤ g * k → zlen weight = N * M → zlen log2mlog = N * M → log2mlog ≡ₚ seqZ 0 (zlen log2mlog) →
  ∃ mlog2log sorted nodes pphy2log logcnt,
    inverse uninit log2mlog = Ok mlog2log ∧ gather weight mlog2log = Ok sorted
    ∧ place_nodes sort_desc uninit (chunks (Z.to_nat N) (Z.to_nat M) sorted) (g * k) g k = Ok nodes
    ∧ gather mlog2log (concat (imap (λ i '(p, _, _), map (λ m, m + Z.of_nat i * M) p) nodes)) = Ok pphy2log
    ∧ gather (concat (map (λ '(_, _, c), c) nodes)) log2mlog = Ok logcnt
    ∧ replicas pphy2log (concat (map (λ '(_, r, _), r) nodes)) logcnt ∧ zlen pphy2log = N * (g * k) ∧ zlen logcnt = N * M
    ∧ ∀ p e, pphy2log !! p = Some e → 0 ≤ e ∧ ∃ m, log2mlog !! Z.to_nat e = Some m ∧ m / M = Z.of_nat p / (g * k).
Proof.
  intros HN HM Hg Hle Hw Hlg Hperm. destruct (inverse_ok uninit log2mlog Hperm) as (mlog2log & E1 & Hinv). pose proof Hinv as [Hil Hib Hif Hip].
  destruct (gather_ok weight mlog2log) as (sorted & E2 & Hs).
  { apply Forall_forall. intros i Hi. rewrite Hip in Hi. apply elem_of_seqZ in Hi. unfold zlen in *. lia. }
  apply picked_length in Hs. destruct (place_nodes_ok (chunks (Z.to_nat N) (Z.to_nat M) sorted) g k (Z.to_nat M)) as (nodes & E3 & Hnl & Hn); [lia|done|lia| |].
  { apply chunks_lengths. unfold zlen in *. nia. }
  rewrite chunks_length in Hnl. assert (HK : (0 < Z.to_nat (g * k))%nat) by lia. assert (HM' : (0 < Z.to_nat M)%nat) by lia.
  pose proof (replicas_concat _ _ nodes HK HM' Hn) as Hrep. destruct (node_lengths _ _ nodes HK HM' Hn) as (HP & _ & HC).
  pose proof (replicas_range _ _ _ Hrep) as Hrange. rewrite Z2Nat.id in * by lia.
  pose proof (length_concat_const _ _ HC) as HlC. rewrite length_map, Hnl in HlC. pose proof (length_concat_const _ _ HP) as HlP. rewrite length_imap, Hnl in HlP.
  destruct (gather_ok mlog2log (concat (imap (λ i '(p, _, _), map (λ m, m + Z.of_nat i * M) p) nodes))) as (pphy2log & E4 & Hpl).
  { eapply Forall_impl; [exact Hrange|]. intros i Hi. cbn in *. unfold zlen in *. nia. }
  destruct (gather_ok (concat (map (λ '(_, _, c), c) nodes)) log2mlog) as (logcnt & E5 & Hlc).
  { apply Forall_forall. intros i Hi. rewrite Hperm in Hi. apply elem_of_seqZ in Hi. unfold zlen in *. nia. }
  exists mlog2log, sorted, nodes, pphy2log, logcnt. assert (L1 := picked_length _ _ _ Hpl). assert (L2 := picked_length _ _ _ Hlc).
  split_and!; try done; [|unfold zlen in *; nia|unfold zlen in *; nia|].
  - eapply replicas_relabel; [exact Hrep|exact Hinv| |done|done]. unfold zlen in *. nia.
  - intros p e He. destruct (Forall2_lookup_r _ _ _ _ _ Hpl He) as (m & Hm & H0 & Hb). destruct (Hif _ _ Hb) as [He0 Hf]. rewrite Z2Nat.id in Hf by done.
    split; [done|]. exists m. split; [done|]. destruct (node_expert (Z.to_nat (g * k)) (Z.to_nat M) nodes HK HM' Hn p m) as [Hne _].
    rewrite Z2Nat.id in Hne by lia. destruct (Hne Hm) as (i & q & p' & r & c & m' & -> & Hq & Hi & Hm' & ->).
    pose proof (node_range _ _ nodes HK HM' Hn _ _ _ _ _ _ Hi Hm') as Hr. replace (Z.of_nat (i * Z.to_nat (g * k) + q)) with (Z.of_nat q + Z.of_nat i * (g * k)) by lia.
    rewrite !Z.div_add, !Z.div_small by lia. done.
Qed.

Lemma rebalance_layer_exact weight N G S g k :
  0 < N → 0 < G → 0 < S → 0 < g → zlen weight = N * G * S → G * S ≤ g * k →
  ∃ res, rebalance_layer sort_desc uninit weight (N * g * k) (N * G) N (N * g) = Ok res
    ∧ layer_ok (N * G * S) (N * g * k) S (g * k) res.
Proof.
  intros HN HG HS Hg Hw Hle. unfold rebalance_layer. rewrite Hw.
  assert (0 < N * G) by nia. assert (0 < N * g) by nia. assert (HM : 0 < G * S) by nia.
  repeat first [rewrite divides_ok by done|rewrite int_div_exact by done|progress cbn [mbind res_bind]].
  set (tg := map fsum _). assert (Htg : zlen tg = N * G) by (unfold tg, zlen; rewrite length_map, chunks_length; lia).
  destruct (balanced_packing_ok sort_desc Hsort tg N HN) as (index & rank & -> & Hil & Hrl & Hir & Hpl);
    [rewrite Htg, Z.mul_comm; apply Z.mod_mul; lia|]. cbn [mbind res_bind].
  rewrite Htg, div_exact in * by done. rewrite regroup_places. rewrite <- !Z.mul_assoc, !div_exact by done.
  assert (Hzp : zlen (places G index rank) = N * G) by (unfold places, zlen in *; rewrite length_zip_with; lia).
  destruct (place_layer_ok weight N (G * S) g k (regroup S (places G index rank))) as (mlog2log & sorted & nodes & pphy2log & logcnt & E1 & E2 & E3 & E4 & E5 & Hrep & Hl1 & Hl2 & Hloc);
    [done..|lia|rewrite length_regroup by done; lia|by eapply regroup_perm|].
  rewrite E1. cbn [mbind res_bind]. rewrite E2. cbn [mbind res_bind]. rewrite E3. cbn [mbind res_bind]. rewrite E4. cbn [mbind res_bind]. rewrite E5. cbn [mbind res_bind].
  eexists. split; [done|]. split; cbn [fst snd]; [done|done|done|]. intros p p' e e' He He' Eg.
  destruct (Hloc p e He) as (He0 & m & Hm & Hmk). destruct (Hloc p' e' He') as (He0' & m' & Hm' & Hmk').
  assert (Hrank : Forall (λ r, 0 ≤ r < G) rank).
  { apply Forall_lookup. intros i r Hi. destruct (Forall2_lookup_r _ _ _ _ _ Hir Hi) as (? & _ & _ & ?). done. }
  destruct (regroup_node G S index rank _ _ HG HS Hrank Hm) as (x & Hx & Ex). destruct (regroup_node G S index rank _ _ HG HS Hrank Hm') as (x' & Hx' & Ex').
  rewrite Z2Nat.id in Hx, Hx' by done. rewrite Eg, Hx' in Hx. simplify_eq. lia.
Qed.

End layer.
