(* ===== verification/ExpertRebalance.v ===== *)
(** * Balancing experts: the maps of [rebalance_experts]

    The entry points of [deepseek.py] and [elasticity_aware.py]: [log2phy] is the inverse of [phy2log], with or
    without failed ranks. *)

From S2P Require Import Prelude RadixKey PyFloat ExpertBalance ExpertProps ExpertPlace.

(** The physical experts that hold a replica of [e], among those [usable]. *)
Definition holders (usable : Z → bool) (phy2log : list Z) (e : Z) : list Z :=
  List.filter (λ p, usable p && bool_decide (phy2log !! Z.to_nat p = Some e)) (seqZ 0 (zlen phy2log)).

Lemma elem_of_holders usable phy2log e p :
  p ∈ holders usable phy2log e ↔ 0 ≤ p ∧ usable p = true ∧ phy2log !! Z.to_nat p = Some e.
Proof.
  unfold holders. rewrite list_elem_of_In, List.filter_In, <- list_elem_of_In, elem_of_seqZ, andb_true_iff, bool_decide_eq_true. split; [tauto|].
  intros (? & ? & Hp). split_and!; try done. apply lookup_lt_Some in Hp. unfold zlen. lia.
Qed.

Lemma NoDup_holders usable phy2log e : NoDup (holders usable phy2log e).
Proof. unfold holders. apply NoDup_ListNoDup, List.NoDup_filter, NoDup_ListNoDup, NoDup_seqZ. Qed.

(** What the maps of a layer are for: the row of an expert in [log2phy] lists its replicas, padded with -1. *)
Record maps_ok (usable : Z → bool) (num_logical : Z) (phy2log : list Z) (log2phy : list (list Z)) (logcnt : list Z) : Prop := {
  mo_range : Forall (λ e, 0 ≤ e < num_logical) phy2log;
  mo_lengths : zlen log2phy = num_logical ∧ zlen logcnt = num_logical;
  mo_rows e row c : log2phy !! e = Some row → logcnt !! e = Some c →
    1 ≤ c ∧ ∃ pad, row = take (Z.to_nat c) row ++ replicate pad (-1) ∧ (Z.to_nat c ≤ length row)%nat
      ∧ take (Z.to_nat c) row ≡ₚ holders usable phy2log (Z.of_nat e)
}.

Lemma chunks_lookup {A} n k (l : list A) i : (i < n)%nat → chunks n k l !! i = Some (take k (drop (i * k) l)).
Proof. intros Hi. unfold chunks. rewrite list_lookup_fmap, lookup_seq_lt by done. done. Qed.

Lemma concat_chunks {A} n k (l : list A) : (0 < k)%nat → length l = (n * k)%nat → concat (chunks n k l) = l.
Proof.
  intros Hk Hl. pose proof (chunks_lengths _ _ _ Hl) as Hc. apply list_eq. intros j. destruct (decide (j < length l)%nat) as [Hj|Hj].
  - destruct (lookup_lt_is_Some_2 _ _ Hj) as [x Hx]. rewrite Hx. apply (concat_Some k); [done|done|].
    pose proof (Nat.div_mod j k ltac:(lia)). pose proof (Nat.mod_upper_bound j k ltac:(lia)). assert (j / k < n)%nat by (apply Nat.Div0.div_lt_upper_bound; lia).
    eexists (j / k)%nat, (j mod k)%nat, _. split_and!; [lia|done|by apply chunks_lookup|]. rewrite lookup_take_lt, lookup_drop by done. rewrite <- Hx. f_equal. lia.
  - rewrite !lookup_ge_None_2; [done|lia|]. rewrite (length_concat_const _ _ Hc), chunks_length. lia.
Qed.

(** A row of replicas, then padding. *)
Lemma replica_row_split (row : list Z) c : (c ≤ length row)%nat → (∀ r, (c ≤ r < length row)%nat → row !! r = Some (-1)) →
  row = take c row ++ replicate (length row - c) (-1).
Proof.
  intros Hc Hr. rewrite <- (take_drop c row) at 1. f_equal. apply list_eq. intros i. rewrite lookup_drop. destruct (decide (c + i < length row)%nat).
  - rewrite Hr, lookup_replicate_2 by lia. done.
  - rewrite !lookup_ge_None_2 by (rewrite ?length_replicate; lia). done.
Qed.

Section scatter.
Context (phy2log phyrank logcnt : list Z) (num_replicas maxlogcnt : Z)
  (Hrep : replicas phy2log phyrank logcnt) (Hlen : zlen phy2log = num_replicas) (Hmax : Forall (λ c, c ≤ maxlogcnt) logcnt).

Let idx := zip_with (λ e r, e * maxlogcnt + r) phy2log phyrank.
Let size := zlen logcnt * maxlogcnt.

Lemma replica_of p e r : phy2log !! p = Some e → phyrank !! p = Some r →
  0 ≤ e < zlen logcnt ∧ 0 ≤ r < maxlogcnt ∧ ∃ c, logcnt !! Z.to_nat e = Some c ∧ r < c.
Proof.
  intros He Hr. destruct (proj1 (rp_pairs _ _ _ Hrep e r)) as (? & ? & c & Hc & ?); [apply list_elem_of_lookup; exists p; by rewrite lookup_zip_with, He, Hr|].
  pose proof (Forall_lookup_1 _ _ _ _ Hmax Hc). pose proof (Forall_lookup_1 _ _ _ _ (replicas_range _ _ _ Hrep) He). cbn in *. split_and!; [lia..|]. eauto.
Qed.

Lemma idx_Some p x : idx !! p = Some x ↔ ∃ e r, x = e * maxlogcnt + r ∧ phy2log !! p = Some e ∧ phyrank !! p = Some r.
Proof. apply lookup_zip_with_Some. Qed.

Lemma idx_NoDup : NoDup idx.
Proof.
  apply NoDup_alt. intros p p' x Hp Hp'. apply idx_Some in Hp as (e & r & -> & He & Hr). apply idx_Some in Hp' as (e' & r' & E & He' & Hr').
  destruct (replica_of _ _ _ He Hr) as (? & ? & _). destruct (replica_of _ _ _ He' Hr') as (? & ? & _).
  destruct (place_inj maxlogcnt e e' r r') as [<- <-]; [lia..|].
  eapply (NoDup_lookup _ _ _ (e, r) (rp_nodup _ _ _ Hrep)); by rewrite lookup_zip_with, ?He, ?Hr, ?He', ?Hr'.
Qed.

Lemma idx_range : Forall (λ i, 0 ≤ i < size) idx.
Proof.
  apply Forall_lookup. intros p x Hp. apply idx_Some in Hp as (e & r & -> & He & Hr). destruct (replica_of _ _ _ He Hr) as (? & ? & _). unfold size. nia.
Qed.

(** The cells of [log2phy]. *)
Lemma scatter_cells :
  ∃ flat, scatter (replicate (Z.to_nat size) (-1)) idx (seqZ 0 num_replicas) = Ok flat ∧ length flat = Z.to_nat size
    ∧ ∀ e c r, logcnt !! e = Some c → Z.of_nat r < maxlogcnt →
        let cell := flat !! (e * Z.to_nat maxlogcnt + r)%nat in
        (Z.of_nat r < c → ∃ p, cell = Some (Z.of_nat p) ∧ phy2log !! p = Some (Z.of_nat e) ∧ phyrank !! p = Some (Z.of_nat r))
        ∧ (c ≤ Z.of_nat r → cell = Some (-1)).
Proof.
  destruct (scatter_ok idx (replicate (Z.to_nat size) (-1)) (seqZ 0 num_replicas) idx_NoDup) as (flat & E & Hfl & Hset & Hrest).
  { unfold zlen. rewrite length_replicate. eapply Forall_impl; [exact idx_range|]. intros i Hi. cbn in *. lia. }
  { rewrite length_seqZ. unfold idx. rewrite length_zip_with, (rp_length _ _ _ Hrep). unfold zlen in *. lia. }
  exists flat. split; [done|]. split; [by rewrite Hfl, length_replicate|]. intros e c r Hc Hr cell.
  assert (Ecell : cell = flat !! Z.to_nat (Z.of_nat e * maxlogcnt + Z.of_nat r)) by (unfold cell; f_equal; nia).
  rewrite Ecell. clearbody cell. split.
  - intros Hlt. destruct (proj1 (list_elem_of_lookup _ _) (proj2 (rp_pairs _ _ _ Hrep (Z.of_nat e) (Z.of_nat r)) ltac:(split_and!; [lia|lia|exists c; by rewrite Nat2Z.id]))) as [p Hp].
    apply lookup_zip_with_Some in Hp as (? & ? & [=<- <-] & He & Hrk). exists p. split; [|done]. eapply (Hset p).
    + apply idx_Some. eauto.
    + apply lookup_lt_Some in He. rewrite lookup_seqZ_lt by (unfold zlen in *; lia). done.
  - intros Hge. rewrite Hrest.
    + apply lookup_replicate_2. apply lookup_lt_Some in Hc. unfold size, zlen. apply Z2Nat.inj_lt; nia.
    + intros [p Hp]%list_elem_of_lookup. apply idx_Some in Hp as (e' & r' & E' & He' & Hr'). destruct (replica_of _ _ _ He' Hr') as (? & ? & c' & Hc' & ?). rewrite Z2Nat.id in E' by nia.
      destruct (place_inj maxlogcnt (Z.of_nat e) e' (Z.of_nat r) r') as [<- <-]; [lia..|]. rewrite Nat2Z.id in Hc'. simplify_eq. lia.
Qed.

Lemma scatter_replicas_ok :
  ∃ log2phy, scatter_replicas (zlen logcnt) maxlogcnt num_replicas phy2log phyrank = Ok log2phy
    ∧ maps_ok (λ _, true) (zlen logcnt) phy2log log2phy logcnt.
Proof.
  unfold scatter_replicas. destruct scatter_cells as (flat & E & Hfl & Hcell). fold idx size. rewrite E. cbn [mbind res_bind]. eexists. split; [done|].
  split; [by eapply replicas_range|unfold zlen; rewrite chunks_length; lia|]. intros e row c Hrow Hc. pose proof (Forall_lookup_1 _ _ _ _ (rp_pos _ _ _ Hrep) Hc) as Hc1.
  pose proof (Forall_lookup_1 _ _ _ _ Hmax Hc) as Hcm. pose proof (lookup_lt_Some _ _ _ Hc) as Hlt. cbn in Hc1, Hcm. split; [done|].
  rewrite chunks_lookup in Hrow by (unfold zlen; lia). inversion Hrow as [Er]. clear Hrow. rewrite Er.
  assert (Hlr : length row = Z.to_nat maxlogcnt) by (rewrite <- Er, length_take, length_drop, Hfl; unfold size, zlen; nia).
  assert (Hat : ∀ r, (r < length row)%nat → row !! r = flat !! (e * Z.to_nat maxlogcnt + r)%nat).
  { intros r Hr. rewrite <- Er, lookup_take_lt by lia. by rewrite lookup_drop. }
  exists (length row - Z.to_nat c)%nat. split; [apply replica_row_split; [lia|]|split; [lia|]].
  { intros r Hr. rewrite Hat by lia. destruct (Hcell e c r Hc) as [_ Hpad]; [lia|]. apply Hpad. lia. }
  assert (Hin : ∀ r p, take (Z.to_nat c) row !! r = Some p ↔ 0 ≤ p ∧ phy2log !! Z.to_nat p = Some (Z.of_nat e) ∧ phyrank !! Z.to_nat p = Some (Z.of_nat r)).
  { intros r p. split.
    - intros [Hp Hr]%lookup_take_Some. rewrite Hat in Hp by (by eapply lookup_lt_Some). destruct (Hcell e c r Hc) as [Hl _]; [lia|].
      destruct Hl as (p' & E' & ? & ?); [lia|]. rewrite E' in Hp. inversion Hp; subst. rewrite Nat2Z.id. split_and!; [lia|done|done].
    - intros (H0 & He & Hr). destruct (replica_of _ _ _ He Hr) as (_ & ? & c' & Hc' & ?). rewrite Nat2Z.id in Hc'. simplify_eq.
      apply lookup_take_Some. split; [|lia]. rewrite Hat by lia. destruct (Hcell e c r Hc) as [Hl _]; [lia|]. destruct Hl as (p' & E' & He' & Hr'); [lia|]. rewrite E'.
      enough (p' = Z.to_nat p) by (f_equal; lia). eapply (NoDup_lookup _ _ _ (Z.of_nat e, Z.of_nat r) (rp_nodup _ _ _ Hrep)); by rewrite lookup_zip_with, ?He, ?Hr, ?He', ?Hr'. }
  apply NoDup_Permutation; [|apply NoDup_holders|].
  - apply NoDup_alt. intros r r' p Hr Hr'. apply Hin in Hr as (_ & _ & Hr). apply Hin in Hr' as (_ & _ & Hr'). rewrite Hr in Hr'. inversion Hr'. lia.
  - intros p. rewrite elem_of_holders, list_elem_of_lookup. split.
    + intros [r Hr]. apply Hin in Hr as (? & ? & _). done.
    + intros (H0 & _ & He). destruct (lookup_lt_is_Some_2 phyrank (Z.to_nat p)) as [r Hr]; [rewrite (rp_length _ _ _ Hrep); by eapply lookup_lt_Some|].
      destruct (replica_of _ _ _ He Hr) as (_ & ? & _). exists (Z.to_nat r). apply Hin. rewrite Z2Nat.id by lia. done.
Qed.

End scatter.

(** ** [rebalance_experts] *)

Section rebalance.
Context {F : Type} `{PyNum F} (sort_desc : list F → list nat) (uninit : Z)
  (Hsort : ∀ l, sort_desc l ≡ₚ seq 0 (length l)).

Lemma rebalance_layer_ok weight num_physical num_groups num_nodes num_gpus :
  0 < zlen weight ≤ num_physical → 0 < num_groups → 0 < num_nodes → 0 < num_gpus →
  zlen weight mod num_groups = 0 → num_groups mod num_nodes = 0 → num_gpus mod num_nodes = 0 → num_physical mod num_gpus = 0 →
  ∃ res, rebalance_layer sort_desc uninit weight num_physical num_groups num_nodes num_gpus = Ok res
    ∧ layer_ok (zlen weight) num_physical (zlen weight / num_groups) (num_physical / num_nodes) res.
Proof.
  intros Hw Hgr Hn Hg (S & HS)%Z.mod_divide (G & HG)%Z.mod_divide (g & Hg')%Z.mod_divide (k & Hk)%Z.mod_divide; [|lia..].
  assert (0 < G) by nia. assert (0 < g) by nia. assert (0 < S) by nia. subst num_groups num_gpus. rewrite HS in Hw |- *.
  replace (S * (G * num_nodes)) with (num_nodes * G * S) in * by lia. replace (G * num_nodes) with (num_nodes * G) by lia.
  replace (k * (g * num_nodes)) with (num_nodes * g * k) in * by lia. replace (g * num_nodes) with (num_nodes * g) by lia. subst num_physical.
  destruct (rebalance_layer_exact sort_desc uninit Hsort weight num_nodes G S g k) as (res & E & Hres); [done..|nia|].
  exists res. split; [done|]. rewrite (div_exact S) by nia. rewrite <- (Z.mul_assoc num_nodes g k), div_exact by done.
  by rewrite (Z.mul_assoc num_nodes g k).
Qed.

(** The shapes [rebalance_experts_hierarchical] accepts. *)
Record shape_ok (num_logical num_physical num_groups num_nodes num_gpus : Z) : Prop := {
  sh_experts : 0 < num_logical ≤ num_physical;
  sh_groups : 0 < num_groups ∧ num_logical mod num_groups = 0;
  sh_nodes : 0 < num_nodes ∧ num_groups mod num_nodes = 0 ∧ num_gpus mod num_nodes = 0;
  sh_gpus : 0 < num_gpus ∧ num_physical mod num_gpus = 0
}.

Lemma hierarchical_ok weight num_logical num_physical num_groups num_nodes num_gpus :
  shape_ok num_logical num_physical num_groups num_nodes num_gpus → Forall (λ w, zlen w = num_logical) weight →
  ∃ layers, rebalance_experts_hierarchical sort_desc uninit weight num_physical num_groups num_nodes num_gpus = Ok layers
    ∧ length layers = length weight
    ∧ Forall (layer_ok num_logical num_physical (num_logical / num_groups) (num_physical / num_nodes)) layers.
Proof.
  intros [He [? ?] (? & ? & ?) [? ?]]. unfold rebalance_experts_hierarchical. induction 1 as [|w ws Hw _ (layers & E & Hl & Hall)]; [by exists []|].
  cbn [res_map]. subst num_logical. destruct (rebalance_layer_ok w num_physical num_groups num_nodes num_gpus) as (res & -> & Hres); [done..|].
  cbn [mbind res_bind]. rewrite E. eexists. split; [done|]. split; [cbn; lia|by constructor].
Qed.

Lemma foldl_max l : ∀ x, x ≤ foldl Z.max x l ∧ Forall (λ c, c ≤ foldl Z.max x l) l.
Proof.
  induction l as [|y l IH]; intros x; cbn [foldl]; [split; [lia|constructor]|]. destruct (IH (Z.max x y)) as [H1 H2]. split; [lia|]. constructor; [lia|done].
Qed.

Lemma tensor_max_ok l : l ≠ [] → ∃ m, tensor_max l = Ok m ∧ Forall (λ c, c ≤ m) l.
Proof. destruct l as [|x l]; [done|]. intros _. eexists. split; [done|]. destruct (foldl_max l x). by constructor. Qed.

(** The largest count of the layers. *)
Lemma max_count num_logical num_physical S K layers :
  0 < num_logical → layers ≠ [] → Forall (layer_ok num_logical num_physical S K) layers →
  ∃ m, tensor_max (concat (map (λ '(_, _, c), c) layers)) = Ok m ∧ Forall (λ '(_, _, c), Forall (λ x, x ≤ m) c) layers.
Proof.
  intros Hn Hne Hall. destruct (tensor_max_ok (concat (map (λ '(_, _, c), c) layers))) as (m & E & Hm).
  - destruct layers as [|[[p r] c] layers]; [done|]. apply Forall_cons in Hall as [[_ _ Hc _] _]. cbn [fst snd] in Hc. destruct c; [rewrite zlen_nil in Hc; lia|done].
  - exists m. split; [done|]. rewrite Forall_concat, Forall_fmap in Hm. eapply Forall_impl; [exact Hm|]. by intros [[p r] c].
Qed.

(** The experts of a group of [S] are on one node of [K] physical experts. *)
Definition groups_local (S K : Z) (phy2log : list Z) : Prop :=
  ∀ p p' e e', phy2log !! p = Some e → phy2log !! p' = Some e' → e / S = e' / S → Z.of_nat p / K = Z.of_nat p' / K.

Lemma scatter_layers num_logical num_physical S K m layers :
  Forall (layer_ok num_logical num_physical S K) layers → Forall (λ '(_, _, c), Forall (λ x, x ≤ m) c) layers →
  ∃ maps, res_map (λ '(phy2log, phyrank, logcnt),
            log2phy ← scatter_replicas num_logical m num_physical phy2log phyrank; Ok (phy2log, log2phy, logcnt)) layers = Ok maps
    ∧ length maps = length layers
    ∧ Forall (λ '(phy2log, log2phy, logcnt), zlen phy2log = num_physical ∧ maps_ok (λ _, true) num_logical phy2log log2phy logcnt
        ∧ groups_local S K phy2log) maps.
Proof.
  induction 1 as [|[[p r] c] layers [Hr Hp Hc Hloc] _ IH]; intros Hm; [by exists []|]. apply Forall_cons in Hm as [Hm Hms]. destruct (IH Hms) as (maps & E & Hl & Hall).
  cbn [fst snd] in *. cbn [res_map]. subst num_logical. destruct (scatter_replicas_ok p r c num_physical m Hr Hp Hm) as (log2phy & -> & Hmaps).
  cbn [mbind res_bind]. rewrite E. eexists. split; [done|]. split; [cbn; lia|]. by constructor.
Qed.

(** The maps of the layers, for any choice of groups and nodes. *)
Lemma rebalance_with weight num_logical num_replicas groups nodes num_gpus :
  weight ≠ [] → Forall (λ w : list F, zlen w = num_logical) weight → shape_ok num_logical num_replicas groups nodes num_gpus →
  ∃ layers m maps, rebalance_experts_hierarchical sort_desc uninit weight num_replicas groups nodes num_gpus = Ok layers
    ∧ tensor_max (concat (map (λ '(_, _, c), c) layers)) = Ok m
    ∧ res_map (λ '(phy2log, phyrank, logcnt),
          log2phy ← scatter_replicas num_logical m num_replicas phy2log phyrank; Ok (phy2log, log2phy, logcnt)) layers = Ok maps
    ∧ length maps = length weight
    ∧ Forall (λ '(phy2log, log2phy, logcnt), zlen phy2log = num_replicas ∧ maps_ok (λ _, true) num_logical phy2log log2phy logcnt
        ∧ groups_local (num_logical / groups) (num_replicas / nodes) phy2log) maps.
Proof.
  intros Hne Hw Hs. destruct (hierarchical_ok weight _ _ _ _ _ Hs Hw) as (layers & E1 & Hl & Hall).
  assert (Hnl : layers ≠ []) by (destruct weight, layers; done).
  destruct (max_count _ _ _ _ layers (proj1 (sh_experts _ _ _ _ _ Hs)) Hnl Hall) as (m & E2 & Hm).
  destruct (scatter_layers _ _ _ _ m layers Hall Hm) as (maps & E3 & Hlm & Hmaps). exists layers, m, maps. split_and!; try done. lia.
Qed.

(** [rebalance_experts] on shapes that pass its assertions returns for every layer maps that belong together:
    every physical expert holds a logical expert, every logical expert has [logcnt >= 1] replicas, the row of an
    expert in [log2phy] lists exactly the physical experts that hold it, once each and padded with -1, and with
    the hierarchical policy the experts of a group are on one node. *)
Theorem rebalance_experts_maps (weight : list (list F)) num_logical num_replicas num_groups num_nodes num_gpus (enable_hierarchical : bool) :
  weight ≠ [] → Forall (λ w, zlen w = num_logical) weight →
  (if enable_hierarchical then shape_ok num_logical num_replicas num_groups num_nodes num_gpus else shape_ok num_logical num_replicas 1 1 num_gpus) →
  ∃ maps, rebalance_experts sort_desc uninit weight num_logical num_replicas num_groups num_nodes num_gpus enable_hierarchical = Ok maps
    ∧ length maps = length weight
    ∧ Forall (λ '(phy2log, log2phy, logcnt), zlen phy2log = num_replicas ∧ maps_ok (λ _, true) num_logical phy2log log2phy logcnt
        ∧ (enable_hierarchical = true → groups_local (num_logical / num_groups) (num_replicas / num_nodes) phy2log)) maps.
Proof.
  intros Hne Hw Hshape. unfold rebalance_experts.
  destruct enable_hierarchical; (destruct (rebalance_with weight _ _ _ _ _ Hne Hw Hshape) as (layers & m & maps & -> & Em & Er & Hl & Hall)); cbn [mbind res_bind]; rewrite Em; cbn [mbind res_bind];
    rewrite Er; exists maps; (split_and!; [done|done|]); (eapply Forall_impl; [exact Hall|]); intros [[p l] c] (? & ? & ?); done.
Qed.

End rebalance.
