(* ===== verification/ExpertElastic.v ===== *)
(** * Balancing experts with failed ranks

    [elasticity_aware.rebalance_experts] balances over the active ranks and then makes room for the failed ones.
    The maps still belong together, and no entry of [log2phy] points to a failed rank. *)

From S2P Require Import Prelude RadixKey PyFloat ExpertBalance ExpertProps ExpertPlace ExpertRebalance.

(** The physical expert [p] is on an active rank; a rank has [L] physical experts. *)
Definition on_active (active_ranks : list bool) (L p : Z) : bool :=
  match active_ranks !! Z.to_nat (p / L) with Some b => b | None => false end.

(** The same while the ranks from [idx] on are still to be inserted. *)
Definition on_active_below (active_ranks : list bool) (L : Z) (idx : nat) (p : Z) : bool :=
  if bool_decide (Z.of_nat idx ≤ p / L) then true else on_active active_ranks L p.

Lemma holders_ext u u' phy2log e : (∀ p, 0 ≤ p < zlen phy2log → u p = u' p) → holders u phy2log e = holders u' phy2log e.
Proof.
  intros Hu. unfold holders. apply List.filter_ext_in. intros p Hp%list_elem_of_In%elem_of_seqZ. rewrite Hu by lia. done.
Qed.

Lemma maps_ok_ext u u' n phy2log log2phy logcnt :
  (∀ p, 0 ≤ p < zlen phy2log → u p = u' p) → maps_ok u n phy2log log2phy logcnt → maps_ok u' n phy2log log2phy logcnt.
Proof. intros Hu [Hr Hl Hrow]. split; [done|done|]. intros e row c He Hc. by rewrite <- (holders_ext u u'); [apply Hrow|]. Qed.

(** ** One failed rank *)

Section insert.
Context (L : Z) (idx : nat) (slices : list (list Z)) (active : list bool) (HL : 0 < L)
  (Hs : Forall (λ s, length s = Z.to_nat L) slices) (Hidx : (idx ≤ length slices)%nat) (Hfail : active !! idx = Some false).

(** Where the physical experts move. *)
Definition shift (p : Z) : Z := if bool_decide (Z.of_nat idx * L ≤ p) then p + L else p.

Let phy := concat slices.
Let phy' := concat (list_insert_at idx (replicate (Z.to_nat L) 0) slices).

Lemma shift_inj p q : shift p = shift q → p = q.
Proof. unfold shift. repeat case_bool_decide; lia. Qed.

Lemma length_before : length (concat (take idx slices)) = (idx * Z.to_nat L)%nat.
Proof. rewrite (length_concat_const (Z.to_nat L)) by (by apply Forall_take). by rewrite length_take, Nat.min_l. Qed.

Lemma phy_split : phy = concat (take idx slices) ++ concat (drop idx slices)
  ∧ phy' = concat (take idx slices) ++ replicate (Z.to_nat L) 0 ++ concat (drop idx slices).
Proof.
  unfold phy, phy', list_insert_at. split; [by rewrite <- concat_app, take_drop|]. by rewrite concat_app.
Qed.

Lemma shift_lookup p : 0 ≤ p → phy' !! Z.to_nat (shift p) = phy !! Z.to_nat p.
Proof.
  intros Hp. destruct phy_split as [-> ->]. pose proof length_before as Hl. unfold shift. case_bool_decide.
  - rewrite !lookup_app_r; rewrite ?length_replicate, ?Hl; [|nia..]. f_equal. nia.
  - rewrite !lookup_app_l by nia. done.
Qed.

Lemma shift_usable p : 0 ≤ p → on_active_below active L (S idx) (shift p) = on_active_below active L idx p.
Proof.
  intros Hp. unfold on_active_below, shift. destruct (bool_decide_reflect (Z.of_nat idx * L ≤ p)) as [E|E].
  - assert (Z.of_nat idx ≤ p / L) by (apply Z.div_le_lower_bound; lia).
    replace ((p + L) / L) with (p / L + 1) by (pose proof (Z.div_add p 1 L); rewrite Z.mul_1_l in *; lia). rewrite !bool_decide_true by lia. done.
  - assert (p / L < Z.of_nat idx) by (apply Z.div_lt_upper_bound; lia). rewrite !bool_decide_false by lia. done.
Qed.

Lemma shift_onto p' : 0 ≤ p' → on_active_below active L (S idx) p' = true → ∃ p, 0 ≤ p ∧ p' = shift p.
Proof.
  intros Hp Hu. destruct (decide (p' < Z.of_nat idx * L)) as [Hlt|Hge]; [exists p'; unfold shift; rewrite bool_decide_false by lia; done|].
  assert (Z.of_nat idx ≤ p' / L) by (apply Z.div_le_lower_bound; lia).
  destruct (decide (p' / L = Z.of_nat idx)) as [E|Hne].
  { exfalso. unfold on_active_below in Hu. rewrite bool_decide_false in Hu by lia. unfold on_active in Hu. by rewrite E, Nat2Z.id, Hfail in Hu. }
  exists (p' - L). assert (Z.of_nat (S idx) * L ≤ p').
  { pose proof (Z.mul_div_le p' L HL). nia. }
  split; [nia|]. unfold shift. rewrite bool_decide_true by lia. lia.
Qed.

Lemma holders_shift e :
  holders (on_active_below active L (S idx)) phy' e ≡ₚ map shift (holders (on_active_below active L idx) phy e).
Proof.
  apply NoDup_Permutation; [apply NoDup_holders|apply NoDup_fmap_2; [intros p q; apply shift_inj|apply NoDup_holders]|].
  intros p'. rewrite elem_of_holders, list_elem_of_fmap. split.
  - intros (H0 & Hu & Hp). destruct (shift_onto p' H0 Hu) as (p & Hp0 & ->). exists p. split; [done|]. apply elem_of_holders.
    rewrite shift_usable in Hu by done. rewrite shift_lookup in Hp by done. done.
  - intros (p & -> & (H0 & Hu & Hp)%elem_of_holders). rewrite shift_usable, shift_lookup by done. split_and!; [|done|done].
    unfold shift. case_bool_decide; lia.
Qed.

Lemma insert_failed_step n log2phy logcnt :
  0 < n → maps_ok (on_active_below active L idx) n phy log2phy logcnt →
  maps_ok (on_active_below active L (S idx)) n phy' (map (map shift) log2phy) logcnt.
Proof.
  intros Hn [Hr [Hl1 Hl2] Hrow]. split.
  - destruct phy_split as [E ->]. rewrite E in Hr. apply Forall_app in Hr as [H1 H2]. rewrite !Forall_app. split_and!; [done| |done].
    apply Forall_replicate. lia.
  - unfold zlen in *. by rewrite length_map.
  - intros e row' c He Hc. rewrite list_lookup_fmap in He. destruct (log2phy !! e) as [row|] eqn:Erow; [|done]. cbn in He. simplify_eq.
    destruct (Hrow e row c Erow Hc) as (Hc1 & pad & Hsplit & Hlen & Hperm). split; [done|]. exists pad. rewrite length_map, firstn_map. split_and!; [|done|].
    + rewrite Hsplit at 1. rewrite map_app. f_equal. rewrite fmap_replicate. f_equal. unfold shift. rewrite bool_decide_false by nia. done.
    + rewrite holders_shift. by apply fmap_Permutation.
Qed.

End insert.

(** ** The loop over the ranks *)

Lemma shift_eq L idx : (λ p, if bool_decide (Z.of_nat idx * L ≤ p) then p + L else p) = shift L idx.
Proof. done. Qed.

Lemma on_active_below_next active L idx p : active !! idx = Some true → 0 ≤ p → 0 < L →
  on_active_below active L idx p = on_active_below active L (S idx) p.
Proof.
  intros Ha Hp HL. pose proof (Z.div_pos p L Hp HL). unfold on_active_below. destruct (bool_decide_reflect (Z.of_nat (S idx) ≤ p / L)).
  - by rewrite bool_decide_true by lia.
  - case_bool_decide; [|done]. unfold on_active. by replace (Z.to_nat (p / L)) with idx by lia; rewrite Ha.
Qed.

(** The active ranks among [l]. *)
Definition num_active (l : list bool) : nat := length (List.filter id l).

Lemma insert_failed_ok L n logcnt active : 0 < L → 0 < n → ∀ rest before slices log2phy,
  active = before ++ rest → Forall (λ s, length s = Z.to_nat L) slices → (0 < length slices)%nat →
  length slices = (length before + num_active rest)%nat →
  maps_ok (on_active_below active L (length before)) n (concat slices) log2phy logcnt →
  ∃ slices' log2phy', insert_failed L (length before) rest slices log2phy = Ok (slices', log2phy')
    ∧ Forall (λ s, length s = Z.to_nat L) slices' ∧ length slices' = length active
    ∧ maps_ok (on_active_below active L (length active)) n (concat slices') log2phy' logcnt.
Proof.
  intros HL Hn. induction rest as [|b rest IH]; intros before slices log2phy Ha Hs Hne Hlen Hmaps; cbn [insert_failed].
  { rewrite app_nil_r in Ha. subst before. exists slices, log2phy. split_and!; try done. cbn in Hlen. lia. }
  assert (Hb : active !! length before = Some b) by (by rewrite Ha, list_lookup_middle).
  replace (S (length before)) with (length (before ++ [b])) by (rewrite length_app; cbn; lia).
  assert (Ha' : active = (before ++ [b]) ++ rest) by (by rewrite <- app_assoc).
  assert (Hl' : length (before ++ [b]) = S (length before)) by (rewrite length_app; cbn; lia). destruct b.
  - apply IH; [done|done|done|change (num_active (true :: rest)) with (S (num_active rest)) in Hlen; rewrite Hl'; lia|]. rewrite Hl'. eapply maps_ok_ext; [|exact Hmaps].
    intros p Hp. apply on_active_below_next; [done|lia|done].
  - destruct slices as [|s sl] eqn:Esl; [cbn in Hne; lia|]. rewrite <- Esl in *. clear Hne.
    assert (Hls : length s = Z.to_nat L) by (rewrite Esl in Hs; by apply Forall_cons in Hs as [? _]). rewrite Hls, shift_eq. change (num_active (false :: rest)) with (num_active rest) in Hlen.
    apply IH; [done| | | |].
    + unfold list_insert_at. apply Forall_app. split; [by apply Forall_take|]. constructor; [apply length_replicate|by apply Forall_drop].
    + unfold list_insert_at. rewrite length_app. cbn. lia.
    + unfold list_insert_at. rewrite Hl', length_app, length_cons, length_take, length_drop. lia.
    + rewrite Hl'. apply (insert_failed_step L (length before) slices active); try done. lia.
Qed.

(** ** [rebalance_experts] of [elasticity_aware.py] *)

Section elastic.
Context {F : Type} `{PyNum F} (sort_desc : list F → list nat) (uninit : Z)
  (Hsort : ∀ l, sort_desc l ≡ₚ seq 0 (length l)).

(** A layer when ranks have failed. *)
Lemma elastic_layer L n active phy2log log2phy logcnt :
  0 < L → 0 < n → (0 < num_active active)%nat → zlen phy2log = L * Z.of_nat (num_active active) →
  maps_ok (λ _, true) n phy2log log2phy logcnt →
  ∃ slices log2phy', insert_failed L 0 active (chunks (num_active active) (Z.to_nat L) phy2log) log2phy = Ok (slices, log2phy')
    ∧ zlen (concat slices) = L * zlen active ∧ maps_ok (on_active active L) n (concat slices) log2phy' logcnt.
Proof.
  intros HL Hn Ha Hlen Hmaps. assert (Hlp : length phy2log = (num_active active * Z.to_nat L)%nat) by (unfold zlen in Hlen; nia).
  pose proof (chunks_lengths _ _ _ Hlp) as Hc. pose proof (concat_chunks (num_active active) (Z.to_nat L) phy2log ltac:(lia) Hlp) as Ecat.
  destruct (insert_failed_ok L n logcnt active HL Hn active [] (chunks (num_active active) (Z.to_nat L) phy2log) log2phy)
    as (slices & log2phy' & E & Hs & Hl & Hm); [done|done|by rewrite chunks_length|by rewrite chunks_length| |].
  { rewrite Ecat. eapply maps_ok_ext; [|exact Hmaps]. intros p Hp. unfold on_active_below. rewrite bool_decide_true; [done|]. apply Z.div_pos; lia. }
  exists slices, log2phy'. split; [done|]. assert (Hz : zlen (concat slices) = L * zlen active) by (unfold zlen; rewrite (length_concat_const _ _ Hs), Hl; lia).
  split; [done|]. eapply maps_ok_ext; [|exact Hm]. intros p Hp. unfold on_active_below. rewrite bool_decide_false; [done|].
  rewrite Hz in Hp. assert (p / L < zlen active) by (apply Z.div_lt_upper_bound; lia). unfold zlen in *. lia.
Qed.

Lemma elastic_layers L n active maps :
  0 < L → 0 < n → (0 < num_active active)%nat →
  Forall (λ '(phy2log, log2phy, logcnt), zlen phy2log = L * Z.of_nat (num_active active) ∧ maps_ok (λ _, true) n phy2log log2phy logcnt) maps →
  ∃ maps', res_map (λ '(phy2log, log2phy, logcnt),
       '(slices, log2phy') ← insert_failed L 0 active (chunks (num_active active) (Z.to_nat L) phy2log) log2phy;
       Ok (concat slices, log2phy', logcnt)) maps = Ok maps'
    ∧ length maps' = length maps
    ∧ Forall (λ '(phy2log, log2phy, logcnt), zlen phy2log = L * zlen active ∧ maps_ok (on_active active L) n phy2log log2phy logcnt) maps'.
Proof.
  intros HL Hn Ha. induction 1 as [|[[p l] c] maps [Hp Hm] _ (maps' & E & Hl & Hall)]; [by exists []|]. cbn [res_map].
  destruct (elastic_layer L n active p l c HL Hn Ha Hp Hm) as (slices & l' & -> & Hz & Hm'). cbn [mbind res_bind]. rewrite E.
  eexists. split; [done|]. split; [cbn; lia|]. by constructor.
Qed.

(** The two passes over the layers are one. *)
Lemma res_map_compose {A B C} (f : A → res B) (g : B → res C) (h : A → res C) l : ∀ l1 l2,
  (∀ x y, f x = Ok y → h x = g y) → res_map f l = Ok l1 → res_map g l1 = Ok l2 → res_map h l = Ok l2.
Proof.
  induction l as [|x l IH]; intros l1 l2 Hfg; cbn [res_map]; [by intros [=<-]|].
  destruct (f x) as [y|] eqn:Ef; [|done]. cbn [mbind res_bind]. destruct (res_map f l) as [ys|] eqn:El; [|done]. cbn [mbind res_bind].
  intros [=<-]. cbn [res_map]. rewrite (Hfg _ _ Ef). destruct (g y) as [z|]; [|done]. cbn [mbind res_bind].
  destruct (res_map g ys) as [zs|] eqn:Eg; [|done]. cbn [mbind res_bind]. intros [=<-]. by rewrite (IH ys zs Hfg eq_refl Eg).
Qed.

Lemma pos_factors n a b : 0 < n ≤ a * b → 0 ≤ b → 0 < a ∧ 0 < b.
Proof. intros Hn Hb. destruct (decide (b = 0)) as [->|]; [lia|]. split; [|lia]. destruct (decide (0 < a)); [done|nia]. Qed.

Lemma num_active_all active : zlen (List.filter id active) = zlen active → active = replicate (length active) true.
Proof.
  unfold zlen. induction active as [|b active IH]; [done|]. cbn [List.filter length replicate]. destruct b; cbn [id]; intros E.
  - f_equal. apply IH. cbn in E. lia.
  - pose proof (List.filter_length_le id active). lia.
Qed.

(** C23: [rebalance_experts] of [elasticity_aware.py] returns maps that belong together when all ranks are active
    and when some have failed: every row of [log2phy] then lists exactly the physical experts of its expert that
    are on active ranks, once each, and [phy2log] still has an entry for every physical expert of every rank. *)
Theorem rebalance_elastic_maps (weight : list (list F)) num_logical num_replicas num_groups num_nodes num_gpus (enable_hierarchical : bool) active_ranks :
  let L := num_replicas / num_gpus in
  let alive := zlen (List.filter id active_ranks) in
  weight ≠ [] → Forall (λ w, zlen w = num_logical) weight →
  zlen active_ranks = num_gpus → 0 < num_gpus → num_replicas mod num_gpus = 0 →
  (if bool_decide (alive < num_gpus) then 0 < num_logical ≤ L * alive
   else if enable_hierarchical then shape_ok num_logical num_replicas num_groups num_nodes num_gpus
   else shape_ok num_logical num_replicas 1 1 num_gpus) →
  ∃ maps, rebalance_elastic sort_desc uninit weight num_logical num_replicas num_groups num_nodes num_gpus enable_hierarchical active_ranks = Ok maps
    ∧ length maps = length weight
    ∧ Forall (λ '(phy2log, log2phy, logcnt), zlen phy2log = num_replicas ∧ maps_ok (on_active active_ranks L) num_logical phy2log log2phy logcnt) maps.
Proof.
  intros L alive Hne Hw Hz Hg Hmod Hshape. assert (HLg : num_replicas = L * num_gpus) by (unfold L; pose proof (Z.div_mod num_replicas num_gpus); lia).
  unfold rebalance_elastic. fold alive. rewrite int_div_ok by done. fold L. cbn [mbind res_bind]. revert Hshape. case_bool_decide as Hf; intros Hshape.
  - destruct (pos_factors _ _ _ Hshape (zlen_nonneg _)) as [HL Halive].
    assert (Ena : Z.to_nat alive = num_active active_ranks) by (unfold alive, zlen, num_active; lia).
    destruct (rebalance_with sort_desc uninit Hsort weight num_logical (L * alive) 1 1 alive Hne Hw) as (layers & m & maps & -> & Em & Er & Hl & Hall).
    { split; [done|split; [lia|apply Z.mod_1_r]|split; [lia|split; [done|apply Z.mod_1_r]]|split; [done|apply Z.mod_mul; lia]]. }
    cbn [mbind res_bind]. rewrite Em. cbn [mbind res_bind].
    destruct (elastic_layers L num_logical active_ranks maps) as (maps' & Er' & Hl' & Hall'); [done|lia|lia| |].
    { eapply Forall_impl; [exact Hall|]. intros [[p l] c] (Hp & Hm & _). split; [|done]. rewrite Hp, <- Ena. lia. }
    exists maps'. split.
    + eapply res_map_compose; [|exact Er|exact Er']. intros [[p r] c] [[p' l] c'] E. destruct (scatter_replicas _ _ _ _ _) as [l0|]; [|done].
      cbn [mbind res_bind] in *. injection E as <- <- <-. by rewrite Ena.
    + split; [lia|]. eapply Forall_impl; [exact Hall'|]. intros [[p l] c] (Hp & Hm). split; [|done]. rewrite Hp, HLg. lia.
  - assert (Ealive : alive = num_gpus).
    { pose proof (List.filter_length_le id active_ranks). unfold alive, zlen in *. lia. }
    assert (Hall_active : active_ranks = replicate (length active_ranks) true) by (apply num_active_all; unfold alive in Ealive; lia).
    rewrite Ealive, <- HLg.
    assert (Hu : ∀ p, 0 ≤ p < num_replicas → true = on_active active_ranks L p).
    { intros p Hp. assert (HL : 0 < L) by nia. pose proof (Z.div_pos p L). assert (p / L < num_gpus) by (apply Z.div_lt_upper_bound; lia).
      unfold on_active. rewrite Hall_active, lookup_replicate_2; [done|]. unfold zlen in Hz. lia. }
    destruct enable_hierarchical;
      (destruct (rebalance_with sort_desc uninit Hsort weight _ _ _ _ _ Hne Hw Hshape) as (layers & m & maps & -> & Em & Er & Hl & Hall));
      cbn [mbind res_bind]; rewrite Em; cbn [mbind res_bind]; rewrite Er; exists maps; (split_and!; [done|done|]); (eapply Forall_impl; [exact Hall|]);
      intros [[p l] c] (Hp & Hm & _); (split; [done|]); (eapply maps_ok_ext; [|exact Hm]); rewrite Hp; exact Hu.
Qed.

End elastic.
