(* ===== verification/ExpertLocation.v ===== *)
(** * Where the experts are

    Models [src/python/sglang/srt/eplb/expert_location.py] and [expert_location_dispatch.py]: the metadata of the
    physical experts ([ExpertLocationMetadata] and its construction from maps, its update layer by layer), the
    physical expert to which a rank dispatches a logical expert ([_find_nearest_expert], [_fair_choices],
    [compute_logical_to_rank_dispatch_physical_map]), and the translation of the routed expert ids.

    The CPU copies of the tensors are not repeated.  The random generator is a parameter of the class [PyRandom]
    with the documented behaviour of [random.Random]: [sample] draws distinct positions, [shuffle] permutes.
    Shapes are those of the server; broadcasting between different shapes is not modelled. *)

From S2P Require Import Prelude RadixKey ExpertBalance.

(** [random.Random] *)
Class PyRandom (Rng : Type) := {
  seeded : Z → Rng;
  sample : Rng → list Z → Z → Rng * list Z;
  shuffle : Rng → list Z → Rng * list Z;
  sample_ok r l k : 0 ≤ k ≤ zlen l → zlen (sample r l k).2 = k ∧ (sample r l k).2 ⊆+ l;
  shuffle_ok r l : (shuffle r l).2 ≡ₚ l
}.

(** ** The nearest physical expert *)

Definition compute_gpu_id_of_physical_expert (physical_expert_id num_local_gpu_physical_experts : Z) : res Z :=
  int_div physical_expert_id num_local_gpu_physical_experts.
Definition compute_node_id_of_physical_expert (physical_expert_id num_local_host_physical_experts : Z) : res Z :=
  int_div physical_expert_id num_local_host_physical_experts.

Definition find_nearest_expert (candidates : list Z) (num_local_gpu moe_ep_rank num_gpus_per_node num_local_node : Z) : res Z :=
  match candidates with
  | [c] => Ok c
  | _ =>
      same_gpu ← res_filter (λ c, g ← compute_gpu_id_of_physical_expert c num_local_gpu; Ok (bool_decide (g = moe_ep_rank))) candidates;
      match same_gpu with
      | c :: _ => Ok c
      | [] =>
          node_rank ← int_div moe_ep_rank num_gpus_per_node;
          same_node ← res_filter (λ c, n ← compute_node_id_of_physical_expert c num_local_node; Ok (bool_decide (n = node_rank))) candidates;
          match same_node with c :: _ => Ok c | [] => Ok (-1) end
      end
  end.

Section random.
Context {Rng : Type} `{PyRandom Rng}.

(** [_fair_choices] *)
Definition fair_choices (arr : list Z) (k : Z) (r : Rng) : res (Rng * list Z) :=
  quotient ← int_div k (zlen arr);
  remainder ← int_mod k (zlen arr);
  let '(r, extra) := sample r arr remainder in
  Ok (shuffle r (concat (replicate (Z.to_nat quotient) arr) ++ extra)).

(** The choices go to the ranks without a near expert, in order. *)
Fixpoint fill_remaining (vals choices : list Z) : res (list Z) :=
  match vals with
  | [] => Ok []
  | v :: vals' =>
      if bool_decide (v = -1) then
        match choices with
        | c :: choices' => l ← fill_remaining vals' choices'; Ok (c :: l)
        | [] => Raise ValueError
        end
      else l ← fill_remaining vals' choices; Ok (v :: l)
  end.

(** The physical experts of all ranks for one logical expert of a layer. *)
Definition dispatch_cell (num_local_gpu num_gpus_per_node num_local_node ep_size : Z) (r : Rng) (row : list Z) : res (Rng * list Z) :=
  let candidates := List.filter (λ p, negb (bool_decide (p = -1))) row in
  vals ← res_map (λ rank, find_nearest_expert candidates num_local_gpu rank num_gpus_per_node num_local_node) (seqZ 0 ep_size);
  let remaining := List.filter (λ v, bool_decide (v = -1)) vals in
  match remaining with
  | [] => Ok (r, vals)
  | _ => '(r, choices) ← fair_choices candidates (zlen remaining) r; l ← fill_remaining vals choices; Ok (r, l)
  end.

(** The loops over the layers and experts: for each the physical experts of all ranks. *)
Fixpoint dispatch_cells (num_local_gpu num_gpus_per_node num_local_node ep_size : Z) (r : Rng) (rows : list (list Z)) : res (Rng * list (list Z)) :=
  match rows with
  | [] => Ok (r, [])
  | row :: rows' =>
      '(r, cell) ← dispatch_cell num_local_gpu num_gpus_per_node num_local_node ep_size r row;
      '(r, cells) ← dispatch_cells num_local_gpu num_gpus_per_node num_local_node ep_size r rows';
      Ok (r, cell :: cells)
  end.

Fixpoint dispatch_layers (num_local_gpu num_gpus_per_node num_local_node ep_size : Z) (r : Rng) (layers : list (list (list Z)))
    : res (Rng * list (list (list Z))) :=
  match layers with
  | [] => Ok (r, [])
  | rows :: layers' =>
      '(r, cells) ← dispatch_cells num_local_gpu num_gpus_per_node num_local_node ep_size r rows;
      '(r, rest) ← dispatch_layers num_local_gpu num_gpus_per_node num_local_node ep_size r layers';
      Ok (r, cells :: rest)
  end.

Definition compute_logical_to_rank_dispatch_physical_map (nnodes : Z) (logical_to_all_physical_map : list (list (list Z)))
    (ep_size num_physical_experts ep_rank : Z) (seed : Z) : res (list (list Z)) :=
  num_local_gpu ← int_div num_physical_experts ep_size;
  num_gpus_per_node ← int_div ep_size nnodes;
  '(_, layers) ← dispatch_layers num_local_gpu num_gpus_per_node (num_local_gpu * num_gpus_per_node) ep_size (seeded seed) logical_to_all_physical_map;
  _ ← py_assert (forallb (forallb (forallb (λ v, negb (bool_decide (v = -1))))) layers);
  res_map (res_map (λ cell, tensor_get cell ep_rank)) layers.

End random.

(** ** From [physical_to_logical_map] to the inverse map *)

(** [_pad_nested_array] *)
Definition pad_nested_array (arr : list (list (list Z))) (pad_value : Z) : res (list (list (list Z))) :=
  match concat arr with
  | [] => Raise ValueError
  | inner :: rest =>
      let max_len := foldl Nat.max (length inner) (map length rest) in
      Ok (map (map (λ inner, inner ++ replicate (max_len - length inner) pad_value)) arr)
  end.

(** The candidates of the logical experts of a layer. *)
Definition candidates_of_layer (physical_to_logical : list Z) (num_logical_experts : Z) : res (list (list Z)) :=
  res_fold (λ lists '(p, e),
    match py_get lists e with
    | Some l => Ok (<[Z.to_nat e := l ++ [p]]> lists)
    | None => Raise IndexError
    end) (replicate (Z.to_nat num_logical_experts) []) (zip (seqZ 0 (zlen physical_to_logical)) physical_to_logical).

(** [_compute_logical_to_all_physical_map] *)
Definition compute_logical_to_all_physical_map (server_ep_size nnodes : Z) (physical_to_logical_map : list (list Z))
    (num_physical_experts num_logical_experts ep_size : Z) (moe_ep_rank : option Z) : res (list (list (list Z))) :=
  lists ← res_map (λ row, candidates_of_layer row num_logical_experts) physical_to_logical_map;
  lists ←
    match moe_ep_rank with
    | None => Ok lists
    | Some rank =>
        num_gpus_per_node ← int_div server_ep_size nnodes;
        num_local_gpu ← int_div num_physical_experts ep_size;
        res_map (res_map (λ candidates,
          nearest ← find_nearest_expert candidates num_local_gpu rank num_gpus_per_node (num_local_gpu * num_gpus_per_node);
          Ok (if negb (bool_decide (nearest = -1)) then [nearest] else candidates))) lists
    end;
  pad_nested_array lists (-1).

(** ** The metadata *)

Record ExpertLocationMetadata := mkMetadata {
  physical_to_logical_map : list (list Z);
  logical_to_all_physical_map : list (list (list Z));
  logical_to_all_physical_map_num_valid : list (list Z);
  logical_to_rank_dispatch_physical_map : option (list (list Z))
}.

(** [__post_init__]: the shapes of the maps agree. *)
Definition post_init (m : ExpertLocationMetadata) (num_physical num_logical : Z) : res ExpertLocationMetadata :=
  let l0 := zlen (physical_to_logical_map m) in
  _ ← py_assert (bool_decide (l0 = zlen (logical_to_all_physical_map m)) && bool_decide (l0 = zlen (logical_to_all_physical_map_num_valid m)));
  _ ← py_assert (forallb (λ rows, bool_decide (zlen rows = num_logical)) (logical_to_all_physical_map m)
                 && forallb (λ row, bool_decide (zlen row = num_logical)) (logical_to_all_physical_map_num_valid m));
  _ ← py_assert (forallb (λ row, bool_decide (zlen row = num_physical)) (physical_to_logical_map m)
                 && forallb (forallb (λ row, bool_decide (zlen row = num_physical))) (logical_to_all_physical_map m));
  Ok m.

(** [F.pad] of a row on the right up to [n] entries; it crops when the row is longer. *)
Definition pad_row (n : Z) (row : list Z) : list Z := take (Z.to_nat n) row ++ replicate (Z.to_nat (n - zlen row)) (-1).

(** [torch.count_nonzero(row != -1)] *)
Definition count_valid (row : list Z) : Z := zlen (List.filter (λ p, negb (bool_decide (p = -1))) row).

Section metadata.
Context {Rng : Type} `{PyRandom Rng}.

(** [_init_raw]; [static] is [ep_dispatch_algorithm == "static"]. *)
Definition init_raw (nnodes ep_size ep_rank num_physical num_logical : Z) (static : bool)
    (p2l : list (list Z)) (l2p : list (list (list Z))) : res ExpertLocationMetadata :=
  dispatch ←
    (if static then d ← compute_logical_to_rank_dispatch_physical_map nnodes l2p ep_size num_physical ep_rank 42; Ok (Some d) else Ok None);
  post_init (mkMetadata p2l (map (map (pad_row num_physical)) l2p) (map (map count_valid) l2p) dispatch) num_physical num_logical.

(** [init_by_mapping] and [init_trivial], after [_init_common]. *)
Definition init_by_mapping (nnodes ep_size ep_rank num_physical num_logical : Z) (static : bool) (p2l : list (list Z)) (moe_ep_rank : option Z)
    : res ExpertLocationMetadata :=
  l2p ← compute_logical_to_all_physical_map ep_size nnodes p2l num_physical num_logical ep_size moe_ep_rank;
  init_raw nnodes ep_size ep_rank num_physical num_logical static p2l l2p.

(** [_init_common]: the numbers of physical experts, in all and of a rank. *)
Definition init_common (num_logical_experts ep_num_redundant_experts ep_size : Z) : res (Z * Z) :=
  let num_physical_experts := num_logical_experts + ep_num_redundant_experts in
  _ ← assert_divides ep_size num_physical_experts;
  num_local ← int_div num_physical_experts ep_size;
  Ok (num_physical_experts, num_local).

Definition init_trivial (nnodes ep_size ep_rank num_layers num_logical ep_num_redundant_experts : Z) (static : bool) (moe_ep_rank : option Z)
    : res ExpertLocationMetadata :=
  '(num_physical, _) ← init_common num_logical ep_num_redundant_experts ep_size;
  row ← res_map (λ p, int_mod p num_logical) (seqZ 0 num_physical);
  init_by_mapping nnodes ep_size ep_rank num_physical num_logical static (replicate (Z.to_nat num_layers) row) moe_ep_rank.

End metadata.

(** [update]: the layers in [update_layer_ids] are taken from the other metadata. *)
Definition update_field {A} (update_layer_ids : list Z) (self other : list A) : res (list A) :=
  if bool_decide (length self = length other) then
    Ok (imap (λ i '(a, b), if bool_decide (Z.of_nat i ∈ update_layer_ids) then b else a) (zip self other))
  else Raise RuntimeError.

Definition metadata_update (self other : ExpertLocationMetadata) (update_layer_ids : list Z) : res ExpertLocationMetadata :=
  p2l ← update_field update_layer_ids (physical_to_logical_map self) (physical_to_logical_map other);
  l2p ← update_field update_layer_ids (logical_to_all_physical_map self) (logical_to_all_physical_map other);
  num_valid ← update_field update_layer_ids (logical_to_all_physical_map_num_valid self) (logical_to_all_physical_map_num_valid other);
  dispatch ←
    match logical_to_rank_dispatch_physical_map self, logical_to_rank_dispatch_physical_map other with
    | Some a, Some b => d ← update_field update_layer_ids a b; Ok (Some d)
    | None, None => Ok None
    | _, _ => Raise AssertionError
    end;
  Ok (mkMetadata p2l l2p num_valid dispatch).

(** [logical_to_all_physical] *)
Definition logical_to_all_physical (m : ExpertLocationMetadata) (num_physical num_logical layer_id logical_expert_id : Z)
    (require_global_experts : bool) : res (list Z) :=
  rows ← tensor_get (logical_to_all_physical_map m) layer_id;
  if require_global_experts then
    if bool_decide (num_logical = 0) then Raise ValueError
    else Ok (List.filter (λ p, bool_decide ((p - logical_expert_id) mod num_logical = 0)) (seqZ logical_expert_id (num_physical - logical_expert_id)))
  else
    row ← tensor_get rows logical_expert_id;
    Ok (List.filter (λ p, negb (bool_decide (p = -1))) row).

(** ** Dispatch of the routed experts *)

Inductive DispatchAlgorithm := static | dynamic | fake.

(** [topk_ids_logical_to_physical] for the flattened ids of a layer; [random] are the values of [randint]. *)
Definition topk_ids_logical_to_physical (m : ExpertLocationMetadata) (layer_id : Z) (algorithm : option DispatchAlgorithm)
    (random topk_ids : list Z) : res (list Z) :=
  match algorithm with
  | None => Ok topk_ids
  | Some static =>
      match logical_to_rank_dispatch_physical_map m with
      | Some d => row ← tensor_get d layer_id; res_map (tensor_get row) topk_ids
      | None => Raise TypeError
      end
  | Some (dynamic | fake) =>
      rows ← tensor_get (logical_to_all_physical_map m) layer_id;
      valid ← tensor_get (logical_to_all_physical_map_num_valid m) layer_id;
      res_map (λ '(e, x), n ← tensor_get valid e; i ← int_mod x n; row ← tensor_get rows e; tensor_get row i) (zip topk_ids random)
  end.
