(* ===== verification/ExpertVec.v ===== *)
(** * The vectorised balancing and the choice of the algorithm

    Models [src/python/sglang/srt/eplb/eplb_algorithms/deepseek_vec.py], the function [rebalance_experts] of their
    [__init__.py], and [ExpertLocationMetadata.init_by_eplb].

    A layer is modelled on its own: its tokens are a row for each step.  The tensors viewed as chunks
    ([num_chunks, num_physical_experts_per_chunk]) are handled chunk by chunk, since every operation of the loop
    acts on the chunks one by one; an index tensor with one entry per chunk is the entry of the chunk.  [argmin]
    and [max(...).indices] are the first extremum, as torch documents them. *)

From S2P Require Import Prelude RadixKey PyFloat ExpertBalance ExpertLocation.

#[global] Instance EplbAlgorithm_eq_dec : EqDecision EplbAlgorithm.
Proof. solve_decision. Defined.

Section vec.
Context {F : Type} `{PyNum F} (sort_desc : list F → list nat) (uninit : Z).

(** ** [pack_groups] *)

(** [key_func]: a full node, or the tokens of the node. *)
Definition node_key (groups_per_rank : Z) (node : F * Z) : Z * F :=
  if bool_decide (groups_per_rank ≤ node.2) then (1, fofZ 0) else (0, node.1).
Definition key_lt (a b : Z * F) : bool := bool_decide (a.1 < b.1) || (bool_decide (a.1 = b.1) && (a.2 <? b.2)%F).

(** [min(range(num_nodes), key=key_func)] *)
Fixpoint first_min (best : nat) (best_key : Z * F) (i : nat) (keys : list (Z * F)) : nat :=
  match keys with
  | [] => best
  | k :: rest => if key_lt k best_key then first_min i k (S i) rest else first_min best best_key (S i) rest
  end.

(** The loop over the groups of a layer: the tokens and groups of the nodes, and [ret]. *)
Definition pack_one (groups_per_rank : Z) (tokens : list F) (st : list (F * Z) * list Z) (group : nat) : res (list (F * Z) * list Z) :=
  let '(nodes, ret) := st in
  match map (node_key groups_per_rank) nodes with
  | [] => Raise ValueError
  | k :: keys =>
      let rank := first_min 0 k 1 keys in
      match nodes !! rank, tokens !! group with
      | Some (t, n), Some x =>
          _ ← py_assert (bool_decide (n < groups_per_rank));
          Ok (<[rank := ((t + x)%F, n + 1)]> nodes, <[group := Z.of_nat rank * groups_per_rank + n]> ret)
      | _, _ => Raise IndexError
      end
  end.

Definition vec_pack_groups (tokens_per_group : list F) (num_nodes : Z) : res (list Z) :=
  let num_groups := zlen tokens_per_group in
  _ ← assert_divides num_nodes num_groups;
  groups_per_rank ← int_div num_groups num_nodes;
  '(_, ret) ← res_fold (pack_one groups_per_rank tokens_per_group)
                (replicate (Z.to_nat num_nodes) (fofZ 0, 0), replicate (length tokens_per_group) (-1)) (sort_desc tokens_per_group);
  Ok ret.

(** ** [make_redundant_experts_chunkwise] *)

(** The index of the first minimum. *)
Fixpoint min_index (best : F) (best_i i : nat) (l : list F) : nat :=
  match l with
  | [] => best_i
  | x :: l' => if (x <? best)%F then min_index x i (S i) l' else min_index best best_i (S i) l'
  end.
Definition argmin (l : list F) : res nat :=
  match l with [] => Raise IndexError | x :: l' => Ok (min_index x 0 1 l') end.

(** [t.sum(0)] *)
Definition sum_columns (n : nat) (rows : list (list F)) : list F := map (λ j, fsum (omap (.!! j) rows)) (seq 0 n).

(** A chunk: its part of [physical_to_logical_map], its rows of [logical_to_physical_map] and its [logical_count]. *)
Record ChunkState := mkChunkState {
  ch_phy2log : list Z;
  ch_rows : list (list Z);
  ch_count : list Z
}.

(** [values] of a step: the highest load of the chunk if each of its experts gets the next replica. *)
Definition step_values (first_expert : Z) (tokens : list F) (count : list Z) : res (list F) :=
  let tiny := (fofZ 1 / fofZ 10000)%F in
  let score := imap (λ j '(t, c), ((t + fofZ (first_expert + Z.of_nat j) * tiny) / fofZ c)%F) (zip tokens count) in
  let score1 := zip_with (λ t c, (t / fofZ (c + 1))%F) tokens count in
  i ← argmax score;
  match score !! i, score1 !! i with
  | Some m, Some s1 =>
      let score := <[i := s1]> score in
      i2 ← argmax score;
      match score !! i2 with
      | Some m2 => Ok (<[i := m2]> (replicate (length score) m))
      | None => Raise IndexError
      end
  | _, _ => Raise IndexError
  end.

(** The loop [for i in range(num_redundancy_experts_per_group)] for chunk [g]; [p] is the first physical expert of
    the chunk, [e] its first logical expert, [n] the number of its logical experts. *)
Definition redundant_step (tokens : list (list F)) (p e : Z) (n : nat) (s : ChunkState) (i : nat) : res ChunkState :=
  values ← res_map (λ row, step_values e row (ch_count s)) tokens;
  j ← argmin (sum_columns n values);
  match ch_count s !! j, ch_rows s !! j with
  | Some c, Some row =>
      if bool_decide (0 ≤ c < zlen row) && bool_decide (n + i < length (ch_phy2log s))%nat then
        Ok (mkChunkState (<[(n + i)%nat := Z.of_nat j + e]> (ch_phy2log s))
              (<[j := <[Z.to_nat c := p + Z.of_nat n + Z.of_nat i]> row]> (ch_rows s)) (<[j := c + 1]> (ch_count s)))
      else Raise IndexError
  | _, _ => Raise IndexError
  end.

Definition redundant_chunk (tokens : list (list F)) (num_physical_per_chunk num_logical_per_group row_length : Z) (num_redundancy_per_group : Z) (g : Z)
    : res ChunkState :=
  let n := Z.to_nat num_logical_per_group in
  let p := g * num_physical_per_chunk in
  let e := g * num_logical_per_group in
  res_fold (redundant_step (map (λ row, take n (drop (Z.to_nat e) row)) tokens) p e n)
    (mkChunkState (seqZ e num_logical_per_group ++ replicate (Z.to_nat (num_physical_per_chunk - num_logical_per_group)) uninit)
       (map (λ j, (p + j) :: replicate (Z.to_nat (row_length - 1)) (-1)) (seqZ 0 num_logical_per_group)) (replicate n 1))
    (seq 0 (Z.to_nat num_redundancy_per_group)).

(** [indices.argsort(-1)] of distinct indices. *)
Definition by_value (a b : Z * Z) : Prop := a.1 ≤ b.1.
#[global] Instance by_value_dec : RelDecision by_value.
Proof. intros a b. unfold by_value. apply _. Defined.
Definition argsort (l : list Z) : list Z := map snd (py_sort by_value (zip l (seqZ 0 (zlen l)))).

(** [view(num_local, num_local_groups)], every second row reversed, transposed and flattened. *)
Definition snake (num_local num_groups : nat) (l : list Z) : list Z :=
  let rows := imap (λ i row, if Nat.odd i then reverse row else row) (chunks num_local num_groups l) in
  concat (map (λ a, omap (.!! a) rows) (seq 0 num_groups)).

(** Load-balancing between the GPUs. *)
Definition balance_gpus (tokens : list (list F)) (num_physical num_local num_chunks per_chunk : Z) (phy2log : list Z) (rows : list (list Z)) (count : list Z)
    : res (list Z * list (list Z)) :=
  counts ← gather count phy2log;
  total ← gather (sum_columns (length count) tokens) phy2log;
  let score := zip_with (λ t c, (t / fofZ c)%F) total counts in
  _ ← assert_divides num_local per_chunk;
  num_local_groups ← int_div per_chunk num_local;
  let indices := concat (imap (λ g s, snake (Z.to_nat num_local) (Z.to_nat num_local_groups)
                                        (map (λ i, Z.of_nat i + Z.of_nat g * per_chunk) (sort_desc s)))
                              (chunks (Z.to_nat num_chunks) (Z.to_nat per_chunk) score)) in
  phy2log' ← gather phy2log indices;
  let inv := argsort indices in
  rows' ← res_map (res_map (λ p, if bool_decide (p = -1) then Ok (-1) else tensor_get inv p)) rows;
  Ok (phy2log', rows').

Definition make_redundant_layer (tokens : list (list F)) (num_logical num_physical num_local per_chunk : Z) : res (list Z * list (list Z) * list Z) :=
  let num_redundancy := num_physical - num_logical in
  if bool_decide (num_redundancy + 1 < 0) then Raise RuntimeError
  else
    _ ← assert_divides per_chunk num_physical;
    num_chunks ← int_div num_physical per_chunk;
    _ ← assert_divides num_chunks num_logical;
    per_group ← int_div num_logical num_chunks;
    _ ← assert_divides num_chunks num_redundancy;
    redundancy_per_group ← int_div num_redundancy num_chunks;
    if bool_decide (num_redundancy < 0) then Raise RuntimeError
    else
      cs ← res_map (redundant_chunk tokens per_chunk per_group (num_redundancy + 1) redundancy_per_group) (seqZ 0 num_chunks);
      let phy2log := concat (map ch_phy2log cs) in
      let rows := concat (map ch_rows cs) in
      let count := concat (map ch_count cs) in
      if bool_decide (1 < num_local) then
        '(phy2log, rows) ← balance_gpus tokens num_physical num_local num_chunks per_chunk phy2log rows count;
        Ok (phy2log, rows, count)
      else Ok (phy2log, rows, count).

(** ** The entry points *)

Definition decode_rebalance_layer (tokens : list (list F)) (num_logical num_physical num_local : Z) : res (list Z * list (list Z) * list Z) :=
  make_redundant_layer tokens num_logical num_physical num_local num_physical.

Definition prefill_rebalance_layer (tokens : list (list F)) (num_logical num_physical num_local num_groups num_nodes : Z)
    : res (list Z * list (list Z) * list Z) :=
  _ ← assert_divides num_groups num_logical;
  group_size ← int_div num_logical num_groups;
  _ ← assert_divides num_nodes num_groups;
  let tokens_per_group := map fsum (chunks (Z.to_nat num_groups) (Z.to_nat group_size) (sum_columns (Z.to_nat num_logical) tokens)) in
  group_perm ← vec_pack_groups tokens_per_group num_nodes;
  let log2mlog := concat (map (λ g, map (λ k, g * group_size + k) (seqZ 0 group_size)) group_perm) in
  mlog2log ← inverse uninit log2mlog;
  tokens_per_mlog ← res_map (λ row, gather row mlog2log) tokens;
  per_chunk ← int_div num_physical num_nodes;
  '(phy2mlog, mlog2phy, mlog_count) ← make_redundant_layer tokens_per_mlog num_logical num_physical num_local per_chunk;
  phy2log ← gather mlog2log phy2mlog;
  log2phy ← gather mlog2phy log2mlog;
  log_count ← gather mlog_count log2mlog;
  Ok (phy2log, log2phy, log_count).

(** [deepseek_vec.rebalance_experts]; the tokens are [steps, layers, experts], here layer by layer. *)
Definition vec_rebalance_experts (tokens : list (list (list F))) (num_logical num_physical num_local : Z) (num_groups : option Z) (num_nodes : Z)
    (enable_hierarchical : bool) : res (list (list Z * list (list Z) * list Z)) :=
  if enable_hierarchical then
    match num_groups with
    | Some n => res_map (λ t, prefill_rebalance_layer t num_logical num_physical num_local n num_nodes) tokens
    | None => Raise TypeError
    end
  else res_map (λ t, decode_rebalance_layer t num_logical num_physical num_local) tokens.

(** ** The choice of the algorithm *)

(** The counts of the recorder, layer by layer: a row for each step. *)
Definition layer_counts (num_layers : nat) (logical_count : list (list (list Z))) : list (list (list Z)) :=
  map (λ l, omap (.!! l) logical_count) (seq 0 num_layers).

(** [tokens_per_expert.sum(dim=0)] of a layer. *)
Definition sum_steps (num_logical : Z) (steps : list (list Z)) : list F :=
  map (λ e, fofZ (sumZ (omap (.!! e) steps))) (seq 0 (Z.to_nat num_logical)).

(** [eplb_algorithms.rebalance_experts]; [active_ranks] is the state of elastic expert parallelism. *)
Definition eplb_rebalance_experts (counts : list (list (list Z))) (num_logical num_physical num_local : Z) (num_groups : option Z) (num_nodes : Z)
    (algorithm : EplbAlgorithm) (active_ranks : list bool) : res (list (list Z * list (list Z) * list Z)) :=
  let weight := map (sum_steps num_logical) counts in
  let groups (hierarchical : bool) := match num_groups with Some n => Ok n | None => if hierarchical then Raise TypeError else Ok 1 end in
  match algorithm with
  | deepseek | deepseek_hierarchical =>
      let h := bool_decide (algorithm = deepseek_hierarchical) in
      num_gpus ← int_div num_physical num_local; n ← groups h;
      rebalance_experts sort_desc uninit weight num_logical num_physical n num_nodes num_gpus h
  | deepseek_vec | deepseek_vec_hierarchical =>
      vec_rebalance_experts (map (map (map fofZ)) counts) num_logical num_physical num_local num_groups num_nodes (bool_decide (algorithm = deepseek_vec_hierarchical))
  | elasticity_aware | elasticity_aware_hierarchical =>
      let h := bool_decide (algorithm = elasticity_aware_hierarchical) in
      num_gpus ← int_div num_physical num_local;
      n ← groups (h && bool_decide (num_gpus ≤ zlen (List.filter id active_ranks)));
      rebalance_elastic sort_desc uninit weight num_logical num_physical n num_nodes num_gpus h active_ranks
  end.

(** [init_by_eplb] *)
Definition init_by_eplb {Rng} `{PyRandom Rng} (raw_algorithm : string) (nnodes ep_size ep_rank num_logical ep_num_redundant_experts : Z) (num_groups : option Z)
    (flag : bool) (active_ranks : list bool) (num_layers : nat) (logical_count : list (list (list Z))) : res ExpertLocationMetadata :=
  '(num_physical, _) ← init_common num_logical ep_num_redundant_experts ep_size;
  num_local ← int_div num_physical ep_size;
  algorithm ← compute_algorithm raw_algorithm num_groups nnodes;
  maps ← eplb_rebalance_experts (layer_counts num_layers logical_count) num_logical num_physical num_local num_groups nnodes algorithm active_ranks;
  init_raw (Rng:=Rng) nnodes ep_size ep_rank num_physical num_logical flag (map (λ l, l.1.1) maps) (map (λ l, l.1.2) maps).

End vec.
