(* ===== verification/ExpertDispatch.v ===== *)
(** * Dispatching to the experts

    The physical expert a rank dispatches to holds the logical expert, is on the rank or on its node when one is,
    and the ranks without a near expert are spread evenly; from [rebalance_experts] to the ids of the routed
    tokens, every token reaches a physical expert that holds its logical expert. *)

From S2P Require Import Prelude RadixKey PyFloat ExpertBalance ExpertProps ExpertPlace ExpertRebalance ExpertLocation.

(** ** The nearest expert *)

Section nearest.
Context (Lg Gn : Z) (HLg : 0 < Lg) (HGn : 0 < Gn).

(** The candidate is on the rank, or on its node. *)
Definition on_gpu (rank c : Z) : Prop := c / Lg = rank.
Definition on_node (rank c : Z) : Prop := c / (Lg * Gn) = rank / Gn.

Lemma on_gpu_node rank c : on_gpu rank c → on_node rank c.
Proof. unfold on_gpu, on_node. intros <-. symmetry. rewrite Z.div_div by lia. done. Qed.

(** A rank that has to share: several candidates, none of them on its node. *)
Definition far_rank (candidates : list Z) (rank : Z) : Prop := length candidates ≠ 1%nat ∧ ∀ c, c ∈ candidates → ¬ on_node rank c.

(** The choice of [_find_nearest_expert]: -1 for a rank that has to share. *)
Definition near (candidates : list Z) (rank v : Z) : Prop :=
  ((v ∈ candidates ∧ ¬ far_rank candidates rank) ∨ (v = -1 ∧ far_rank candidates rank))
  ∧ ((∃ c, c ∈ candidates ∧ on_gpu rank c) → v ∈ candidates ∧ on_gpu rank v)
  ∧ ((∃ c, c ∈ candidates ∧ on_node rank c) → v ∈ candidates ∧ on_node rank v).

Lemma filter_nil_none (f : Z → bool) l : List.filter f l = [] → ∀ x, x ∈ l → f x = false.
Proof.
  intros Hf x Hx. destruct (f x) eqn:E; [|done]. assert (Hin : In x (List.filter f l)) by (apply List.filter_In; split; [by apply list_elem_of_In|done]).
  by rewrite Hf in Hin.
Qed.

Lemma filter_cons_some (f : Z → bool) l c l' : List.filter f l = c :: l' → c ∈ l ∧ f c = true.
Proof. intros Hf. assert (Hin : In c (List.filter f l)) by (rewrite Hf; by left). apply List.filter_In in Hin as [? ?]. by rewrite list_elem_of_In. Qed.

Lemma find_nearest_several candidates rank : length candidates ≠ 1%nat →
  ∃ v, find_nearest_expert candidates Lg rank Gn (Lg * Gn) = Ok v ∧ near candidates rank v.
Proof.
  intros Hl. replace (find_nearest_expert candidates Lg rank Gn (Lg * Gn)) with
    (same_gpu ← res_filter (λ c, g ← compute_gpu_id_of_physical_expert c Lg; Ok (bool_decide (g = rank))) candidates;
      match same_gpu with
      | c :: _ => Ok c
      | [] =>
          node_rank ← int_div rank Gn;
          same_node ← res_filter (λ c, n ← compute_node_id_of_physical_expert c (Lg * Gn); Ok (bool_decide (n = node_rank))) candidates;
          match same_node with c :: _ => Ok c | [] => Ok (-1) end
      end) by (by destruct candidates as [|? [|? ?]]).
  rewrite (res_filter_ok _ (λ c, bool_decide (c / Lg = rank))).
  2: { intros c _. unfold compute_gpu_id_of_physical_expert. by rewrite int_div_ok. }
  cbn [mbind res_bind]. destruct (List.filter _ candidates) as [|c l] eqn:Ef.
  - rewrite int_div_ok by done. cbn [mbind res_bind]. rewrite (res_filter_ok _ (λ c, bool_decide (c / (Lg * Gn) = rank / Gn))).
    2: { intros c _. unfold compute_node_id_of_physical_expert. rewrite int_div_ok by nia. done. }
    cbn [mbind res_bind]. assert (Hno : ∀ c, c ∈ candidates → ¬ on_gpu rank c).
    { intros c Hc Hg. pose proof (filter_nil_none _ _ Ef c Hc) as Hf. by apply bool_decide_eq_false in Hf. }
    clear Ef. destruct (List.filter _ candidates) as [|c l] eqn:Ef.
    + assert (Hnn : ∀ c, c ∈ candidates → ¬ on_node rank c).
      { intros c Hc Hg. pose proof (filter_nil_none _ _ Ef c Hc) as Hf. by apply bool_decide_eq_false in Hf. }
      exists (-1). split; [done|]. split; [by right; split_and!|]. split; [intros (c & Hc & Hg); by destruct (Hno c)|intros (c & Hc & Hg); by destruct (Hnn c)].
    + apply filter_cons_some in Ef as [Hc Hn]. apply bool_decide_eq_true in Hn. exists c. split; [done|]. split; [left; split; [done|]; intros [_ Hfar]; by apply (Hfar c)|]. split; [intros (c' & Hc' & Hg); by destruct (Hno c')|done].
  - apply filter_cons_some in Ef as [Hc Hn]. apply bool_decide_eq_true in Hn. apply on_gpu_node in Hn as Hn'. exists c. split; [done|].
    split; [left; split; [done|]; intros [_ Hfar]; by apply (Hfar c)|]. done.
Qed.

Lemma find_nearest_ok candidates rank : ∃ v, find_nearest_expert candidates Lg rank Gn (Lg * Gn) = Ok v ∧ near candidates rank v.
Proof.
  destruct (decide (length candidates = 1%nat)) as [E|E]; [|by apply find_nearest_several]. destruct candidates as [|c [|? ?]]; try done.
  exists c. split; [done|]. split; [left; split; [set_solver|by intros [? _]]|]. split; intros (c' & Hc%list_elem_of_singleton & ?); subst c'; (split; [set_solver|done]).
Qed.

End nearest.

(** ** All ranks *)

Definition occurrences (c : Z) (l : list Z) : Z := zlen (List.filter (λ x, bool_decide (x = c)) l).

Lemma occurrences_app c a b : occurrences c (a ++ b) = occurrences c a + occurrences c b.
Proof. unfold occurrences. by rewrite List.filter_app, zlen_app. Qed.

#[global] Instance occurrences_proper c : Proper ((≡ₚ) ==> eq) (occurrences c).
Proof.
  intros a b Hab. unfold occurrences, zlen. f_equal. induction Hab as [|x a b _ IH|x y a|a b c' _ IH1 _ IH2]; cbn [List.filter]; [done| | |congruence].
  - destruct (bool_decide (x = c)); cbn; congruence.
  - destruct (bool_decide (x = c)), (bool_decide (y = c)); done.
Qed.

Lemma occurrences_NoDup c l : NoDup l → c ∈ l → occurrences c l = 1.
Proof.
  intros Hnd Hc. apply list_elem_of_split in Hc as (a & b & ->). rewrite occurrences_app. unfold occurrences at 2. cbn [List.filter]. rewrite bool_decide_true by done.
  rewrite zlen_cons. fold (occurrences c b). apply NoDup_app in Hnd as (_ & Ha & [Hb _]%NoDup_cons).
  assert (Hz : ∀ l, c ∉ l → occurrences c l = 0).
  { clear. intros l Hl. unfold occurrences. replace (List.filter _ l) with (@nil Z); [done|]. symmetry. induction l as [|x l IH]; [done|]. cbn [List.filter].
    rewrite bool_decide_false by set_solver. apply IH. set_solver. }
  rewrite (Hz a), (Hz b); [lia|done|]. intros Hin. apply (Ha c Hin). by left.
Qed.

Lemma occurrences_submseteq c l k : l ⊆+ k → occurrences c l ≤ occurrences c k.
Proof.
  intros (m & E)%submseteq_Permutation. rewrite E, occurrences_app. pose proof (zlen_nonneg (List.filter (λ x, bool_decide (x = c)) m)). unfold occurrences at 3. lia.
Qed.

Section cells.
Context {Rng : Type} `{PyRandom Rng}.

(** Every candidate is chosen [k / len] times, or once more. *)
Lemma fair_choices_ok arr k (r : Rng) : arr ≠ [] → NoDup arr → 0 ≤ k →
  ∃ r' choices, fair_choices arr k r = Ok (r', choices) ∧ zlen choices = k ∧ (∀ c, c ∈ choices → c ∈ arr)
    ∧ ∀ c, c ∈ arr → k / zlen arr ≤ occurrences c choices ≤ k / zlen arr + 1.
Proof.
  intros Hne Hnd Hk. assert (Hl : 0 < zlen arr) by (destruct arr; [done|rewrite zlen_cons; pose proof (zlen_nonneg arr); lia]).
  unfold fair_choices, int_mod. rewrite int_div_ok, bool_decide_false by lia. cbn [mbind res_bind]. pose proof (Z.mod_pos_bound k (zlen arr) Hl) as Hm.
  pose proof (Z.div_pos k (zlen arr) Hk Hl) as Hq. pose proof (sample_ok r arr (k mod zlen arr)) as Hs.
  destruct (sample r arr (k mod zlen arr)) as [r1 extra]. cbn [snd] in Hs. destruct Hs as [Hel Hes]; [lia|].
  set (all := concat _ ++ extra). pose proof (shuffle_ok r1 all) as Hsh. destruct (shuffle r1 all) as [r2 choices]. cbn [snd] in Hsh.
  assert (Hrep : ∀ c n, occurrences c (concat (replicate n arr)) = Z.of_nat n * occurrences c arr).
  { intros c n. induction n as [|n IH]; [done|]. cbn [replicate concat]. rewrite occurrences_app, IH. lia. }
  exists r2, choices. split; [done|]. split_and!.
  - unfold zlen. rewrite Hsh. unfold all. rewrite length_app, Nat2Z.inj_add. fold (zlen extra). rewrite Hel.
    rewrite (length_concat_const (length arr)) by (apply Forall_replicate; done). rewrite length_replicate. pose proof (Z.div_mod k (zlen arr)). unfold zlen in *. nia.
  - intros c Hc. rewrite Hsh in Hc. unfold all in Hc. apply elem_of_app in Hc as [Hc|Hc].
    + apply list_elem_of_In, in_concat in Hc as (l & Hl' & Hc). apply list_elem_of_In, elem_of_replicate in Hl' as [-> _]. by apply list_elem_of_In.
    + by eapply elem_of_submseteq.
  - intros c Hc. rewrite Hsh. unfold all. rewrite occurrences_app, Hrep, (occurrences_NoDup c arr) by done. rewrite Z2Nat.id by done.
    pose proof (occurrences_submseteq c _ _ Hes) as Ho. rewrite (occurrences_NoDup c arr) in Ho by done.
    pose proof (zlen_nonneg (List.filter (λ x, bool_decide (x = c)) extra)). unfold occurrences in *. lia.
Qed.

Lemma fill_remaining_ok vals : ∀ choices, zlen choices = zlen (List.filter (λ v, bool_decide (v = -1)) vals) →
  ∃ col, fill_remaining vals choices = Ok col
    ∧ Forall2 (λ v x, v ≠ -1 → x = v) vals col
    ∧ map snd (List.filter (λ t : Z * Z, bool_decide (t.1 = -1)) (zip vals col)) = choices.
Proof.
  induction vals as [|v vals IH]; intros choices Hl; cbn [fill_remaining].
  { exists []. split; [done|]. split; [constructor|]. destruct choices; [done|]. rewrite zlen_cons in Hl. cbn in Hl. pose proof (zlen_nonneg choices). unfold zlen in Hl. cbn in Hl. lia. }
  cbn [List.filter] in Hl. case_bool_decide as E.
  - destruct choices as [|c choices]; [rewrite zlen_cons in Hl; pose proof (zlen_nonneg (List.filter (λ v, bool_decide (v = -1)) vals)); unfold zlen in *; cbn in Hl; lia|].
    rewrite !zlen_cons in Hl. destruct (IH choices ltac:(lia)) as (col & -> & H1 & H2). cbn [mbind res_bind]. exists (c :: col). split; [done|]. split; [by constructor|].
    cbn [zip_with List.filter fst]. rewrite bool_decide_true by done. cbn [map snd]. by rewrite H2.
  - destruct (IH choices Hl) as (col & -> & H1 & H2). cbn [mbind res_bind]. exists (v :: col). split; [done|]. split; [by constructor|].
    cbn [zip_with List.filter fst]. by rewrite bool_decide_false.
Qed.

Context (Lg Gn ep_size : Z) (HLg : 0 < Lg) (HGn : 0 < Gn) (Hep : 0 ≤ ep_size).

(** The column of a logical expert: the physical expert of every rank. *)
Record column_ok (candidates col : list Z) : Prop := {
  cl_length : zlen col = ep_size;
  cl_valid : Forall (λ x, x ∈ candidates) col;
  cl_gpu rank x : col !! rank = Some x → (∃ c, c ∈ candidates ∧ on_gpu Lg (Z.of_nat rank) c) → on_gpu Lg (Z.of_nat rank) x;
  cl_node rank x : col !! rank = Some x → (∃ c, c ∈ candidates ∧ on_node Lg Gn (Z.of_nat rank) c) → on_node Lg Gn (Z.of_nat rank) x;
  cl_fair : ∃ mask : list bool, length mask = length col ∧ (∀ rank b, mask !! rank = Some b → b = true ↔ far_rank Lg Gn candidates (Z.of_nat rank))
    ∧ let far := map snd (List.filter fst (zip mask col)) in
      ∀ c, c ∈ candidates → zlen far / zlen candidates ≤ occurrences c far ≤ zlen far / zlen candidates + 1
}.

Lemma column_from candidates vals col choices : -1 ∉ candidates → Forall2 (near Lg Gn candidates) (seqZ 0 ep_size) vals →
  Forall2 (λ v x, v ≠ -1 → x = v) vals col → map snd (List.filter (λ t : Z * Z, bool_decide (t.1 = -1)) (zip vals col)) = choices →
  (∀ c, c ∈ choices → c ∈ candidates) →
  (∀ c, c ∈ candidates → zlen choices / zlen candidates ≤ occurrences c choices ≤ zlen choices / zlen candidates + 1) →
  column_ok candidates col.
Proof.
  intros Hm1 Hnear Hcol Hch Hin Hfair.
  assert (Hvl : zlen vals = ep_size) by (unfold zlen; rewrite <- (Forall2_length _ _ _ Hnear), length_seqZ; lia).
  assert (Hlen := Forall2_length _ _ _ Hcol).
  assert (Hat : ∀ rank x, col !! rank = Some x → ∃ v, vals !! rank = Some v ∧ (v ≠ -1 → x = v) ∧ near Lg Gn candidates (Z.of_nat rank) v ∧ (v = -1 → x ∈ candidates)).
  { intros rank x Hx. destruct (Forall2_lookup_r _ _ _ _ _ Hcol Hx) as (v & Hv & Hvx). exists v. split; [done|]. split; [done|]. split.
    - destruct (Forall2_lookup_r _ _ _ _ _ Hnear Hv) as (y & Hy & Hn). apply lookup_lt_Some in Hv. unfold zlen in Hvl.
      rewrite lookup_seqZ_lt in Hy by lia. inversion Hy; subst y. exact Hn.
    - intros ->. apply Hin. rewrite <- Hch. apply list_elem_of_fmap. exists (-1, x). split; [done|]. apply list_elem_of_In, List.filter_In.
      split; [|done]. apply list_elem_of_In, list_elem_of_lookup. exists rank. by rewrite lookup_zip_with, Hv, Hx. }
  split.
  - unfold zlen in *. lia.
  - apply Forall_lookup. intros rank x Hx. destruct (Hat rank x Hx) as (v & _ & Hvx & [[[Hv _]|[Hv _]] _] & Hfar); [|by apply Hfar].
    rewrite Hvx; [done|]. by intros ->.
  - intros rank x Hx Hex. destruct (Hat rank x Hx) as (v & _ & Hvx & (_ & Hg & _) & _). destruct (Hg Hex) as [Hv Hon]. rewrite Hvx; [done|]. by intros ->.
  - intros rank x Hx Hex. destruct (Hat rank x Hx) as (v & _ & Hvx & (_ & _ & Hn) & _). destruct (Hn Hex) as [Hv Hon]. rewrite Hvx; [done|]. by intros ->.
  - exists (map (λ v, bool_decide (v = -1)) vals). split; [rewrite length_map; lia|]. split.
    + intros rank b Hr. rewrite list_lookup_fmap in Hr. destruct (vals !! rank) as [v|] eqn:Ev; [|done]. cbn in Hr. inversion Hr as [Hb].
      destruct (lookup_lt_is_Some_2 col rank) as [x Hx]; [apply lookup_lt_Some in Ev; lia|]. destruct (Hat rank x Hx) as (v' & Hv & _ & [[[Hc Hno]|[-> Hfr]] _] & _);
        rewrite Ev in Hv; inversion Hv; subst; rewrite bool_decide_eq_true; [|tauto]. split; [by intros ->|done].
    + assert (Efar : map snd (List.filter fst (zip (map (λ v, bool_decide (v = -1)) vals) col)) = choices).
      { rewrite <- Hch. clear -Hcol. induction Hcol as [|v x vals col _ _ IH]; [done|]. cbn [zip_with List.filter map fst]. destruct (bool_decide (v = -1)); cbn [map]; by rewrite IH. }
      cbv zeta. rewrite Efar. exact Hfair.
Qed.

Lemma vals_ok candidates : ∃ vals, res_map (λ rank, find_nearest_expert candidates Lg rank Gn (Lg * Gn)) (seqZ 0 ep_size) = Ok vals
  ∧ Forall2 (near Lg Gn candidates) (seqZ 0 ep_size) vals.
Proof.
  generalize (seqZ 0 ep_size). induction l as [|x l (vals & E & IH)]; [by exists []; split; [|constructor]|]. cbn [res_map].
  destruct (find_nearest_ok Lg Gn HLg HGn candidates x) as (v & -> & Hv). cbn [mbind res_bind]. rewrite E. exists (v :: vals). split; [done|]. by constructor.
Qed.

Lemma dispatch_cell_ok (r : Rng) row : let candidates := List.filter (λ p, negb (bool_decide (p = -1))) row in
  candidates ≠ [] → NoDup candidates →
  ∃ r' col, dispatch_cell Lg Gn (Lg * Gn) ep_size r row = Ok (r', col) ∧ column_ok candidates col.
Proof.
  intros candidates Hne Hnd. unfold dispatch_cell. fold candidates.
  assert (Hm1 : -1 ∉ candidates) by (intros Hin; apply list_elem_of_In, List.filter_In in Hin as [_ Hin]; done).
  destruct (vals_ok candidates) as (vals & -> & Hnear). cbn [mbind res_bind].
  destruct (List.filter (λ v, bool_decide (v = -1)) vals) as [|v0 rem] eqn:Erem.
  - exists r, vals. split; [done|]. apply (column_from candidates vals vals []); [done|done| | |by intros c ?%not_elem_of_nil|intros c _; change (zlen (@nil Z)) with 0; change (occurrences c []) with 0; rewrite Zdiv_0_l; lia].
    + apply Forall_Forall2_diag, Forall_true. done.
    + clear -Erem. induction vals as [|v vals IH]; [done|]. cbn [List.filter zip_with fst] in *. destruct (bool_decide (v = -1)); [done|by apply IH].
  - rewrite <- Erem. clear v0 rem Erem.
    destruct (fair_choices_ok candidates (zlen (List.filter (λ v, bool_decide (v = -1)) vals)) r Hne Hnd ltac:(apply zlen_nonneg)) as (r' & choices & -> & Hk & Hin & Hfair).
    cbn [mbind res_bind]. destruct (fill_remaining_ok vals choices Hk) as (col & -> & Hf2 & Hfar). cbn [mbind res_bind]. exists r', col. split; [done|].
    apply (column_from candidates vals col choices); try done. by rewrite Hk.
Qed.

End cells.

(** ** The table of a server *)

Definition candidates_of (row : list Z) : list Z := List.filter (λ p, negb (bool_decide (p = -1))) row.
Definition usable_row (row : list Z) : Prop := candidates_of row ≠ [] ∧ NoDup (candidates_of row).

Section table.
Context {Rng : Type} `{PyRandom Rng} (Lg Gn ep_size : Z) (HLg : 0 < Lg) (HGn : 0 < Gn) (Hep : 0 ≤ ep_size).

Lemma dispatch_cells_ok rows : Forall usable_row rows → ∀ r : Rng,
  ∃ r' cells, dispatch_cells Lg Gn (Lg * Gn) ep_size r rows = Ok (r', cells) ∧ Forall2 (λ row, column_ok Lg Gn ep_size (candidates_of row)) rows cells.
Proof.
  induction 1 as [|row rows [Hne Hnd] _ IH]; intros r; cbn [dispatch_cells]; [by exists r, []; split; [|constructor]|].
  destruct (dispatch_cell_ok Lg Gn ep_size HLg HGn Hep r row Hne Hnd) as (r1 & col & -> & Hcol). cbn [mbind res_bind].
  destruct (IH r1) as (r2 & cells & -> & Hc). cbn [mbind res_bind]. exists r2, (col :: cells). split; [done|]. by constructor.
Qed.

Lemma dispatch_layers_ok layers : Forall (Forall usable_row) layers → ∀ r : Rng,
  ∃ r' table, dispatch_layers Lg Gn (Lg * Gn) ep_size r layers = Ok (r', table)
    ∧ Forall2 (Forall2 (λ row, column_ok Lg Gn ep_size (candidates_of row))) layers table.
Proof.
  induction 1 as [|rows layers Hrows _ IH]; intros r; cbn [dispatch_layers]; [by exists r, []; split; [|constructor]|].
  destruct (dispatch_cells_ok rows Hrows r) as (r1 & cells & -> & Hc). cbn [mbind res_bind].
  destruct (IH r1) as (r2 & table & -> & Ht). cbn [mbind res_bind]. exists r2, (cells :: table). split; [done|]. by constructor.
Qed.

Lemma candidates_not_m1 row : -1 ∉ candidates_of row.
Proof. intros Hin. by apply list_elem_of_In, List.filter_In in Hin as [_ Hin]. Qed.

Lemma columns_valid layers table : Forall2 (Forall2 (λ row, column_ok Lg Gn ep_size (candidates_of row))) layers table →
  forallb (forallb (forallb (λ v, negb (bool_decide (v = -1))))) table = true.
Proof.
  intros Ht. apply forallb_forall. intros cells [i Hi]%list_elem_of_In%list_elem_of_lookup. destruct (Forall2_lookup_r _ _ _ _ _ Ht Hi) as (rows & _ & Hc).
  apply forallb_forall. intros col [j Hj]%list_elem_of_In%list_elem_of_lookup. destruct (Forall2_lookup_r _ _ _ _ _ Hc Hj) as (row & _ & Hcol).
  apply forallb_forall. intros v Hv%list_elem_of_In. apply negb_true_iff, bool_decide_eq_false. intros ->.
  by apply (candidates_not_m1 row), (proj1 (Forall_forall _ _) (cl_valid _ _ _ _ _ Hcol)).
Qed.

(** The entry of a rank in a column. *)
Definition at_rank (rank : Z) (col : list Z) : Z := default (-1) (col !! Z.to_nat rank).

Lemma select_rank layers table rank : Forall2 (Forall2 (λ row, column_ok Lg Gn ep_size (candidates_of row))) layers table → 0 ≤ rank < ep_size →
  res_map (res_map (λ cell, tensor_get cell rank)) table = Ok (map (map (at_rank rank)) table).
Proof.
  intros Ht Hr. apply res_map_ok. intros cells [i Hi]%list_elem_of_lookup. destruct (Forall2_lookup_r _ _ _ _ _ Ht Hi) as (rows & _ & Hc).
  apply res_map_ok. intros col [j Hj]%list_elem_of_lookup. destruct (Forall2_lookup_r _ _ _ _ _ Hc Hj) as (row & _ & Hcol).
  destruct (tensor_get_some col rank) as (x & -> & Hx); [rewrite (cl_length _ _ _ _ _ Hcol); lia|]. unfold at_rank. by rewrite Hx.
Qed.

End table.

Section server.
Context {Rng : Type} `{PyRandom Rng} (nnodes ep_size num_physical : Z)
  (Hnn : 0 < nnodes ≤ ep_size) (Hnp : ep_size ≤ num_physical).

Notation Lg := (num_physical / ep_size).
Notation Gn := (ep_size / nnodes).

Lemma local_pos : 0 < Lg ∧ 0 < Gn.
Proof. split; apply Z.div_str_pos; lia. Qed.

(** All ranks compute the same table and each reads its own entries. *)
Lemma dispatch_table l2p seed : Forall (Forall usable_row) l2p →
  ∃ table, Forall2 (Forall2 (λ row, column_ok Lg Gn ep_size (candidates_of row))) l2p table
    ∧ ∀ ep_rank, 0 ≤ ep_rank < ep_size →
        compute_logical_to_rank_dispatch_physical_map (Rng:=Rng) nnodes l2p ep_size num_physical ep_rank seed = Ok (map (map (at_rank ep_rank)) table).
Proof.
  intros Hl. destruct local_pos as [HLg HGn]. destruct (dispatch_layers_ok Lg Gn ep_size HLg HGn ltac:(lia) l2p Hl (seeded seed)) as (r' & table & E & Ht).
  exists table. split; [done|]. intros rank Hr. unfold compute_logical_to_rank_dispatch_physical_map. rewrite !int_div_ok by lia. cbn [mbind res_bind].
  rewrite E. cbn [mbind res_bind]. rewrite (columns_valid _ _ _ _ _ Ht). cbn [py_assert mbind res_bind]. by apply (select_rank Lg Gn ep_size l2p).
Qed.

(** ** From the maps of a rebalance *)

Context (num_logical : Z).

(** The maps of a layer. *)
Definition layer_maps (l : list Z * list (list Z) * list Z) : Prop :=
  let '(p2l, l2p, cnt) := l in zlen p2l = num_physical ∧ maps_ok (λ _, true) num_logical p2l l2p cnt.

Lemma filter_padding n : List.filter (λ p, negb (bool_decide (p = -1))) (replicate n (-1)) = [].
Proof. by induction n. Qed.

Lemma row_prefix p2l l2p cnt e row c : maps_ok (λ _, true) num_logical p2l l2p cnt → l2p !! e = Some row → cnt !! e = Some c →
  1 ≤ c ∧ (Z.to_nat c ≤ length row)%nat ∧ candidates_of row = take (Z.to_nat c) row ∧ take (Z.to_nat c) row ≡ₚ holders (λ _, true) p2l (Z.of_nat e).
Proof.
  intros [_ _ Hrow] He Hc. destruct (Hrow e row c He Hc) as (Hc1 & pad & Esplit & Hlen & Hp). split_and!; [done|done| |done].
  unfold candidates_of. rewrite Esplit at 1. rewrite List.filter_app. rewrite filter_padding, app_nil_r. apply List.forallb_filter_id, forallb_forall. intros x Hx%list_elem_of_In. rewrite Hp in Hx. apply elem_of_holders in Hx as (H0 & _).
  apply negb_true_iff, bool_decide_eq_false. lia.
Qed.

Lemma row_usable p2l l2p cnt e row : maps_ok (λ _, true) num_logical p2l l2p cnt → l2p !! e = Some row →
  usable_row row ∧ ∀ p, p ∈ candidates_of row ↔ 0 ≤ p ∧ p2l !! Z.to_nat p = Some (Z.of_nat e).
Proof.
  intros Hm He. destruct (mo_lengths _ _ _ _ _ Hm) as [H1 H2]. destruct (lookup_lt_is_Some_2 cnt e) as [c Hc]; [apply lookup_lt_Some in He; unfold zlen in *; lia|].
  destruct (row_prefix p2l l2p cnt e row c Hm He Hc) as (Hc1 & Hlen & E & Hp). unfold usable_row. rewrite E. split.
  - split; [|rewrite Hp; apply NoDup_holders]. intros En. apply (f_equal length) in En. rewrite length_take in En. cbn in En. lia.
  - intros p. rewrite Hp, elem_of_holders. tauto.
Qed.

Lemma layer_rows_usable l : layer_maps l → Forall usable_row l.1.2.
Proof. destruct l as [[p2l l2p] cnt]. intros [_ Hm]. apply Forall_lookup. intros e row He. by apply (row_usable p2l l2p cnt e row). Qed.

Lemma zlen_pad_row row : 0 ≤ num_physical → zlen (pad_row num_physical row) = num_physical.
Proof. intros Hn. unfold pad_row, zlen. rewrite length_app, length_take, length_replicate. lia. Qed.

Lemma forallb_of_map {A B} (f : A → B) (p : B → bool) l : forallb p (map f l) = forallb (λ x, p (f x)) l.
Proof. induction l as [|x l IH]; [done|]. cbn. by rewrite IH. Qed.

(** The metadata of the maps. *)
Lemma init_raw_ok layers (flag : bool) ep_rank : Forall layer_maps layers → 0 ≤ ep_rank < ep_size →
  ∃ m, init_raw (Rng:=Rng) nnodes ep_size ep_rank num_physical num_logical flag (map (λ l, l.1.1) layers) (map (λ l, l.1.2) layers) = Ok m
    ∧ physical_to_logical_map m = map (λ l, l.1.1) layers
    ∧ logical_to_all_physical_map m = map (λ l, map (pad_row num_physical) l.1.2) layers
    ∧ logical_to_all_physical_map_num_valid m = map (λ l, map count_valid l.1.2) layers
    ∧ if flag then ∃ table, Forall2 (Forall2 (λ row, column_ok Lg Gn ep_size (candidates_of row))) (map (λ l, l.1.2) layers) table
                  ∧ logical_to_rank_dispatch_physical_map m = Some (map (map (at_rank ep_rank)) table)
      else logical_to_rank_dispatch_physical_map m = None.
Proof.
  intros Hl Hr. unfold init_raw.
  assert (Hpost : ∀ d, post_init (mkMetadata (map (λ l, l.1.1) layers) (map (map (pad_row num_physical)) (map (λ l, l.1.2) layers)) (map (map count_valid) (map (λ l, l.1.2) layers)) d) num_physical num_logical
    = Ok (mkMetadata (map (λ l, l.1.1) layers) (map (map (pad_row num_physical)) (map (λ l, l.1.2) layers)) (map (map count_valid) (map (λ l, l.1.2) layers)) d)).
  { intros d. unfold post_init. cbn [physical_to_logical_map logical_to_all_physical_map logical_to_all_physical_map_num_valid].
    rewrite !zlen_map. rewrite !bool_decide_true by done. cbn [andb py_assert mbind res_bind].
    rewrite !map_map. rewrite !forallb_of_map.
    assert (Hall : ∀ f : list Z * list (list Z) * list Z → bool, (∀ l, layer_maps l → f l = true) → forallb f layers = true).
    { intros f Hf. apply forallb_forall. intros l Hin%list_elem_of_In. apply Hf. exact (proj1 (Forall_forall _ _) Hl l Hin). }
    rewrite !Hall; [done|..]; intros [[p2l l2p] cnt] [Hz Hm]; cbn [fst snd]; destruct (mo_lengths _ _ _ _ _ Hm) as [H1 H2].
    - apply bool_decide_eq_true. by rewrite zlen_map.
    - apply bool_decide_eq_true. by rewrite zlen_map.
    - rewrite forallb_of_map. apply forallb_forall. intros row _. apply bool_decide_eq_true, zlen_pad_row. lia.
    - by apply bool_decide_eq_true. }
  destruct flag; cbn [mbind res_bind].
  - destruct (dispatch_table (map (λ l, l.1.2) layers) 42) as (table & Ht & Hd).
    { apply Forall_fmap. eapply Forall_impl; [exact Hl|]. apply layer_rows_usable. }
    rewrite (Hd ep_rank Hr). cbn [mbind res_bind]. rewrite Hpost. eexists. split; [done|]. cbn. rewrite !map_map. split_and!; [done|done|done|]. exists table. done.
  - rewrite Hpost. eexists. split; [done|]. cbn. by rewrite !map_map.
Qed.

(** ** The ids of routed tokens *)

Lemma res_map_Forall2 {A B} (f : A → res B) (P : A → B → Prop) l : (∀ x, x ∈ l → ∃ y, f x = Ok y ∧ P x y) →
  ∃ ys, res_map f l = Ok ys ∧ Forall2 P l ys.
Proof.
  induction l as [|x l IH]; intros Hf; [by exists []; split; [|constructor]|]. cbn [res_map]. destruct (Hf x ltac:(left)) as (y & -> & Hy). cbn [mbind res_bind].
  destruct IH as (ys & -> & Hys); [intros z Hz; apply Hf; by right|]. cbn [mbind res_bind]. exists (y :: ys). split; [done|]. by constructor.
Qed.

Lemma tensor_get_lookup {A} (l : list A) i x : l !! i = Some x → tensor_get l (Z.of_nat i) = Ok x.
Proof. intros Hx. unfold tensor_get, py_get. rewrite bool_decide_true by lia. by rewrite Nat2Z.id, Hx. Qed.

(** The physical expert holds the logical one. *)
Definition holds_logical (p2l : list Z) (e p : Z) : Prop := 0 ≤ p ∧ p2l !! Z.to_nat p = Some e.

Lemma dynamic_entry p2l l2p cnt e row x : zlen p2l = num_physical → maps_ok (λ _, true) num_logical p2l l2p cnt → l2p !! e = Some row →
  ∃ p, (i ← int_mod x (count_valid row); tensor_get (pad_row num_physical row) i) = Ok p ∧ holds_logical p2l (Z.of_nat e) p.
Proof.
  intros Hz Hm He. destruct (mo_lengths _ _ _ _ _ Hm) as [H1 H2]. destruct (lookup_lt_is_Some_2 cnt e) as [c Hc]; [apply lookup_lt_Some in He; unfold zlen in *; lia|].
  destruct (row_prefix p2l l2p cnt e row c Hm He Hc) as (Hc1 & Hlen & E & Hp).
  assert (Hcv : count_valid row = c) by (unfold count_valid; fold (candidates_of row); rewrite E; unfold zlen; rewrite length_take; lia).
  assert (Hcp : c ≤ num_physical).
  { assert (Hle : (length (take (Z.to_nat c) row) ≤ length (seqZ 0 (zlen p2l)))%nat).
    { rewrite Hp. unfold holders. apply List.filter_length_le. }
    rewrite length_take, length_seqZ in Hle. unfold zlen in *. lia. }
  rewrite Hcv. unfold int_mod. rewrite bool_decide_false by lia. cbn [mbind res_bind]. pose proof (Z.mod_pos_bound x c ltac:(lia)) as Hx. set (i := x mod c) in *. clearbody i.
  destruct (lookup_lt_is_Some_2 row (Z.to_nat i) ltac:(lia)) as [p Hpi]. exists p. split.
  - rewrite <- (Z2Nat.id i) by lia. apply tensor_get_lookup. unfold pad_row. apply lookup_app_l_Some, lookup_take_Some. split; [done|lia].
  - assert (Hin : p ∈ take (Z.to_nat c) row) by (apply list_elem_of_lookup; exists (Z.to_nat i); apply lookup_take_Some; split; [done|lia]).
    rewrite Hp in Hin. apply elem_of_holders in Hin as (? & _ & ?). done.
Qed.

(** The algorithm is one the server was started with. *)
Definition dispatches (flag : bool) (algorithm : DispatchAlgorithm) : Prop := match algorithm with static => flag = true | _ => True end.

Lemma topk_ok layers (flag : bool) ep_rank m layer_id l algorithm random ids :
  Forall layer_maps layers → 0 ≤ ep_rank < ep_size →
  init_raw (Rng:=Rng) nnodes ep_size ep_rank num_physical num_logical flag (map (λ l, l.1.1) layers) (map (λ l, l.1.2) layers) = Ok m →
  layers !! layer_id = Some l → dispatches flag algorithm → Forall (λ e, 0 ≤ e < num_logical) ids → length random = length ids →
  ∃ ps, topk_ids_logical_to_physical m (Z.of_nat layer_id) (Some algorithm) random ids = Ok ps ∧ Forall2 (holds_logical l.1.1) ids ps.
Proof.
  intros Hl Hr Em Hlayer Hdisp Hids Hrand. destruct (init_raw_ok layers flag ep_rank Hl Hr) as (m' & Em' & _ & M2 & M3 & M4). rewrite Em in Em'. inversion Em'; subst m'. clear Em Em'.
  destruct l as [[p2l l2p] cnt]. pose proof (Forall_lookup_1 _ _ _ _ Hl Hlayer) as [Hz Hm]. destruct (mo_lengths _ _ _ _ _ Hm) as [H1 H2]. cbn [fst].
  assert (Hrow : ∀ e, 0 ≤ e < num_logical → ∃ row, l2p !! Z.to_nat e = Some row) by (intros e He; apply lookup_lt_is_Some_2; unfold zlen in *; lia).
  unfold topk_ids_logical_to_physical.
  assert (Hdyn : ∃ ps, (rows ← tensor_get (logical_to_all_physical_map m) (Z.of_nat layer_id);
      valid ← tensor_get (logical_to_all_physical_map_num_valid m) (Z.of_nat layer_id);
      res_map (λ '(e, x), n ← tensor_get valid e; i ← int_mod x n; row ← tensor_get rows e; tensor_get row i) (zip ids random)) = Ok ps
    ∧ Forall2 (holds_logical p2l) ids ps).
  { rewrite M2, M3. rewrite (tensor_get_lookup _ _ (map (pad_row num_physical) l2p)) by (by rewrite list_lookup_fmap, Hlayer).
    rewrite (tensor_get_lookup _ _ (map count_valid l2p)) by (by rewrite list_lookup_fmap, Hlayer). cbn [mbind res_bind].
    destruct (res_map_Forall2 (λ '(e, x), n ← tensor_get (map count_valid l2p) e; i ← int_mod x n; row ← tensor_get (map (pad_row num_physical) l2p) e; tensor_get row i)
      (λ t p, holds_logical p2l t.1 p) (zip ids random)) as (ps & E & Hps).
    - intros [e x] Hin. apply elem_of_zip_l in Hin as He. assert (Her : 0 ≤ e < num_logical) by exact (proj1 (Forall_forall _ _) Hids e He). destruct (Hrow e Her) as [row Erow].
      rewrite <- (Z2Nat.id e) by lia. rewrite (tensor_get_lookup _ _ (count_valid row)) by (by rewrite list_lookup_fmap, Erow).
      rewrite (tensor_get_lookup _ _ (pad_row num_physical row)) by (by rewrite list_lookup_fmap, Erow). cbn [mbind res_bind]. by apply (dynamic_entry p2l l2p cnt).
    - exists ps. split; [exact E|]. rewrite <- (fst_zip ids random) by lia. by apply Forall2_fmap_l. }
  destruct algorithm; [|exact Hdyn..]. cbn in Hdisp. subst flag. clear Hdyn. destruct M4 as (table & Ht & ->).
  assert (Hl2p : map (λ l, l.1.2) layers !! layer_id = Some l2p) by (by rewrite list_lookup_fmap, Hlayer).
  destruct (Forall2_lookup_l _ _ _ _ _ Ht Hl2p) as (cells & Hcells & Hc).
  rewrite (tensor_get_lookup _ _ (map (at_rank ep_rank) cells)) by (by rewrite list_lookup_fmap, Hcells). cbn [mbind res_bind]. apply res_map_Forall2.
  intros e He. assert (Her : 0 ≤ e < num_logical) by exact (proj1 (Forall_forall _ _) Hids e He). destruct (Hrow e Her) as [row Erow]. destruct (Forall2_lookup_l _ _ _ _ _ Hc Erow) as (col & Hcol & Hok).
  exists (at_rank ep_rank col). split; [rewrite <- (Z2Nat.id e) by lia; apply tensor_get_lookup; by rewrite list_lookup_fmap, Hcol|].
  destruct (lookup_lt_is_Some_2 col (Z.to_nat ep_rank)) as [p Hp]; [pose proof (cl_length _ _ _ _ _ Hok); unfold zlen in *; lia|]. unfold at_rank. rewrite Hp. cbn.
  pose proof (Forall_lookup_1 _ _ _ _ (cl_valid _ _ _ _ _ Hok) Hp) as Hin. cbn in Hin.
  apply (proj2 (row_usable p2l l2p cnt _ row Hm Erow)) in Hin. by rewrite Z2Nat.id in Hin by lia.
Qed.

End server.

(** C25: The table of the static dispatch: all ranks compute the same one and each reads its own entries.  For every
    logical expert, a rank gets a physical expert that holds it, on the rank itself if there is one, else on its
    node if there is one, and the ranks that have to share are spread evenly over the replicas. *)
Theorem dispatch_near_and_fair {Rng} `{PyRandom Rng} nnodes ep_size num_physical l2p seed :
  0 < nnodes ≤ ep_size → ep_size ≤ num_physical → Forall (Forall usable_row) l2p →
  ∃ table, Forall2 (Forall2 (λ row, column_ok (num_physical / ep_size) (ep_size / nnodes) ep_size (candidates_of row))) l2p table
    ∧ ∀ ep_rank, 0 ≤ ep_rank < ep_size →
        compute_logical_to_rank_dispatch_physical_map (Rng:=Rng) nnodes l2p ep_size num_physical ep_rank seed = Ok (map (map (at_rank ep_rank)) table).
Proof. intros Hn Hp Hl. by apply dispatch_table. Qed.
