(* ===== verification/ExpertUpdate.v ===== *)
(** * Moving experts between ranks

    Models [src/python/sglang/srt/eplb/expert_location_updater.py]: after a rebalance every rank computes which
    experts it copies locally, receives and sends, the ranks exchange the weights, and the received buffers are
    copied into the weights ([update_expert_weights_single_layer], [_ChunkUtils], [_update_expert_weights_raw]).

    The weights of a layer on a rank are a list of tensors, and a tensor a list of slots, one for each physical
    expert of the rank.  All ranks run the same code; [update_layer_cluster] runs them together.
    [torch.distributed.batch_isend_irecv] is a parameter, the class [Transport], which promises the documented
    behaviour: the messages between two ranks arrive in the order in which they were sent.  The tensors of
    metrics, the logs and the canary are left out.

    The second half is the loop over the layers ([ExpertLocationUpdater.update]) and
    [src/python/sglang/srt/eplb/eplb_manager.py]: the generator of [EPLBManager] that counts forward passes and
    then rebalances in chunks of layers with a forward pass between two chunks.  The weights of a layer are those of
    all ranks, by layer id as in [routed_experts_weights_of_layer].  The new metadata of a rebalance ([init_by_eplb]
    on the dumped counts) is an input of a step, and so is the comparison of the utilisation with its threshold.
    Reloading the missing experts from disk is not modelled. *)

From S2P Require Import Prelude RadixKey ExpertBalance ExpertLocation.

(** [list.index] *)
Definition py_index (l : list Z) (x : Z) : res Z :=
  match list_find (.= x) l with Some (i, _) => Ok (Z.of_nat i) | None => Raise ValueError end.

(** ** Chunks *)

Record ChunkUtils := mkChunkUtils { chunk_values : list Z; element_values : list Z }.

Definition chunk_index_from_element_index (num_elements num_chunks element_index : Z) : res Z :=
  short_chunk_size ← int_div num_elements num_chunks;
  num_long_chunks ← int_mod num_elements num_chunks;
  let num_elements_for_long_chunks := num_long_chunks * (short_chunk_size + 1) in
  if bool_decide (element_index < num_elements_for_long_chunks) then int_div element_index (short_chunk_size + 1)
  else q ← int_div (element_index - num_elements_for_long_chunks) short_chunk_size; Ok (num_long_chunks + q).

(** The bounds of [slice(start, end)]. *)
Definition element_slice_from_chunk_index (num_elements num_chunks chunk_index : Z) : res (Z * Z) :=
  short_chunk_size ← int_div num_elements num_chunks;
  num_long_chunks ← int_mod num_elements num_chunks;
  let start := chunk_index * short_chunk_size + Z.min chunk_index num_long_chunks in
  Ok (start, start + short_chunk_size + (if bool_decide (chunk_index < num_long_chunks) then 1 else 0)).

Definition chunk_value_from_element_value (c : ChunkUtils) (element_value : Z) : res Z :=
  i ← py_index (element_values c) element_value;
  chunk_index ← chunk_index_from_element_index (zlen (element_values c)) (zlen (chunk_values c)) i;
  py_item (chunk_values c) chunk_index.

Definition element_values_from_chunk_value (c : ChunkUtils) (chunk_value : Z) : res (list Z) :=
  if bool_decide (zlen (element_values c) = 0) then Ok []
  else
    i ← py_index (chunk_values c) chunk_value;
    '(a, b) ← element_slice_from_chunk_index (zlen (element_values c)) (zlen (chunk_values c)) i;
    Ok (py_slice (element_values c) a b).

(** [_deduplicate_ordered] with the output so far. *)
Fixpoint dedup_from (output arr : list Z) : list Z :=
  match arr with
  | [] => output
  | x :: arr' => dedup_from (if bool_decide (last output = Some x) then output else output ++ [x]) arr'
  end.
Definition deduplicate_ordered (arr : list Z) : list Z := dedup_from [] arr.

(** ** The plan of a rank *)

(** [P2POp]: tensor [i] at a local slot, and the peer.  An [isend] reads the weights, an [irecv] writes a
    temporary buffer. *)
Inductive P2POp :=
| isend (i slot : nat) (peer : Z)
| irecv (i slot : nat) (peer : Z).
Definition op_peer (op : P2POp) : Z := match op with isend _ _ p | irecv _ _ p => p end.
Definition is_isend (op : P2POp) : bool := match op with isend _ _ _ => true | _ => false end.
Definition is_irecv (op : P2POp) : bool := match op with irecv _ _ _ => true | _ => false end.

Section rank.
Context {V : Type}.

(** The temporary buffers, [buffer2weight_copy_infos] and [p2p_op_infos]. *)
Record Plan := mkPlan {
  pl_temp : list (list V);
  pl_copies : list (Z * Z);
  pl_ops : list (Z * list P2POp)
}.

(** [for i in range(n): dst[i][to].copy_(src[i][from])] *)
Definition copy_tensors (n : nat) (dst src : list (list V)) (to from : nat) : res (list (list V)) :=
  res_fold (λ dst i,
    match dst !! i, src !! i ≫= (.!! from) with
    | Some t, Some v => if bool_decide (to < length t)%nat then Ok (<[i := <[to := v]> t]> dst) else Raise IndexError
    | _, _ => Raise IndexError
    end) dst (seq 0 n).

Context (old_map new_map : list Z) (num_local num_gpu_per_node rank : Z).

Definition local_range : list Z := seqZ (rank * num_local) num_local.

(** [_get_local_expert_location] *)
Definition local_slot (expert_location : Z) : res nat :=
  _ ← py_assert (bool_decide (rank * num_local ≤ expert_location < (rank + 1) * num_local));
  Ok (Z.to_nat (expert_location mod num_local)).

Definition holds_expert (m : list Z) (e : Z) (location : Z) : res bool := x ← py_item m location; Ok (bool_decide (x = e)).

(** [_compute_comm_info] *)
Definition compute_comm_info (e : Z) : res (ChunkUtils * ChunkUtils * list Z) :=
  let n := zlen old_map in
  src ← res_filter (holds_expert old_map e) (seqZ 0 n);
  let all_src_ranks := deduplicate_ordered (map (λ x, x / num_local) src) in
  let node x := x / num_gpu_per_node in
  let all_src_nodes := map node all_src_ranks in
  let self_node_src_ranks := List.filter (λ x, bool_decide (node x = node rank)) all_src_ranks in
  dst ← res_filter (λ x, h ← holds_expert new_map e x; Ok (h && negb (bool_decide (x / num_local ∈ all_src_ranks)))) (seqZ 0 n);
  let need_comm_dst_ranks := deduplicate_ordered (map (λ x, x / num_local) dst) in
  let need_comm_self_node_dst_ranks :=
    if bool_decide (0 < zlen self_node_src_ranks) then List.filter (λ x, bool_decide (node x = node rank)) need_comm_dst_ranks else [] in
  let need_comm_cross_node_dst_ranks := List.filter (λ x, negb (bool_decide (node x ∈ all_src_nodes))) need_comm_dst_ranks in
  Ok (mkChunkUtils self_node_src_ranks need_comm_self_node_dst_ranks,
      mkChunkUtils all_src_ranks need_comm_cross_node_dst_ranks,
      need_comm_self_node_dst_ranks).

(** [_create_p2p_recv_and_buffer2weight_copy] *)
Definition create_p2p_recv (num_tensors : nat) (src_rank e dst : Z) (p : Plan) : res Plan :=
  ops ← res_map (λ i, slot ← local_slot dst; Ok (irecv i slot src_rank)) (seq 0 num_tensors);
  Ok (mkPlan (pl_temp p) (pl_copies p ++ [(dst, dst)]) (pl_ops p ++ [(e, ops)])).

(** [_handle_recv_of_dst_expert_location] *)
Definition handle_recv_of_dst (weights : list (list V)) (p : Plan) (dst : Z) : res Plan :=
  let num_tensors := length weights in
  e ← py_item new_map dst;
  o ← py_item old_map dst;
  if bool_decide (o = e) then Ok p
  else
    same_gpu ← res_find (holds_expert old_map e) local_range;
    match same_gpu with
    | Some src =>
        to ← local_slot dst;
        from ← local_slot src;
        temp ← copy_tensors num_tensors (pl_temp p) weights to from;
        Ok (mkPlan temp (pl_copies p ++ [(dst, dst)]) (pl_ops p))
    | None =>
        free_rider ← res_find (holds_expert new_map e) (seqZ (rank * num_local) (dst - rank * num_local));
        match free_rider with
        | Some src => Ok (mkPlan (pl_temp p) (pl_copies p ++ [(src, dst)]) (pl_ops p))
        | None =>
            '(same_node, cross_node, need_self) ← compute_comm_info e;
            chosen_src_rank ←
              (if bool_decide (rank ∈ need_self) then chunk_value_from_element_value same_node rank
               else chunk_value_from_element_value cross_node rank);
            create_p2p_recv num_tensors chosen_src_rank e dst p
        end
    end.

(** [_handle_recv] *)
Definition handle_recv (weights temp : list (list V)) : res Plan :=
  res_fold (handle_recv_of_dst weights) (mkPlan temp [] []) local_range.

(** [_create_isend_ops_of_logical_expert_id] *)
Definition isend_ops_of (num_tensors : nat) (e src : Z) : res (list P2POp) :=
  '(same_node, cross_node, _) ← compute_comm_info e;
  same_node_dst_ranks ← element_values_from_chunk_value same_node rank;
  cross_node_dst_ranks ← element_values_from_chunk_value cross_node rank;
  res_map (λ '(d, i), slot ← local_slot src; Ok (isend i slot d))
    (concat (map (λ d, map (pair d) (seq 0 num_tensors)) (same_node_dst_ranks ++ cross_node_dst_ranks))).

(** [_create_isend_ops]: the experts handled so far and the operations. *)
Definition create_isend_ops (num_tensors : nat) : res (list (Z * list P2POp)) :=
  st ← res_fold (λ '(handled, infos) src,
         e ← py_item old_map src;
         if bool_decide (e ∈ handled) then Ok (handled, infos)
         else ops ← isend_ops_of num_tensors e src; Ok (e :: handled, infos ++ [(e, ops)])) ([] : list Z, []) local_range;
  Ok st.2.

(** [_filter_p2p_ops] for the state of elastic expert parallelism: the operations that stay, and the experts
    that are missing. *)
Definition rank_active (is_active : list bool) (peer : Z) : res bool :=
  match py_get is_active peer with Some b => Ok b | None => Raise IndexError end.

Definition filter_info (is_active : list bool) (info : Z * list P2POp) : res (Z * list P2POp * list Z) :=
  let '(e, ops) := info in
  let has_isend := existsb is_isend ops in
  let has_irecv := existsb is_irecv ops in
  _ ← py_assert (negb (has_isend && has_irecv));
  if has_isend then ops' ← res_filter (λ op, rank_active is_active (op_peer op)) ops; Ok (e, ops', [])
  else if has_irecv then
    inactive ← res_find (λ op, a ← rank_active is_active (op_peer op); Ok (negb a)) ops;
    match inactive with Some _ => Ok (e, [], [e]) | None => Ok (e, ops, []) end
  else Ok (e, ops, []).

Definition filter_p2p_ops (elastic : option (list bool)) (infos : list (Z * list P2POp)) : res (list (Z * list P2POp) * list Z) :=
  match elastic with
  | None => Ok (infos, [])
  | Some is_active => l ← res_map (filter_info is_active) infos; Ok (map fst l, concat (map snd l))
  end.

(** [sorted(p2p_op_infos, key=lambda info: info[0])], then the operations in order. *)
Definition by_expert (a b : Z * list P2POp) : Prop := a.1 ≤ b.1.
#[global] Instance by_expert_dec : RelDecision by_expert.
Proof. intros a b. unfold by_expert. apply _. Defined.
Definition ordered_ops (infos : list (Z * list P2POp)) : list P2POp := concat (map snd (py_sort by_expert infos)).

(** What a rank has to do: its buffers, copies, operations in order, and missing experts. *)
Record RankPlan := mkRankPlan {
  rp_temp : list (list V);
  rp_copies : list (Z * Z);
  rp_ops : list P2POp;
  rp_missing : list Z
}.

(** [_entrypoint] up to the exchange. *)
Definition plan_rank (elastic : option (list bool)) (weights temp : list (list V)) : res RankPlan :=
  _ ← py_assert (forallb (λ t, bool_decide (zlen t = num_local)) weights);
  _ ← int_div rank num_gpu_per_node;
  p ← handle_recv weights temp;
  sends ← create_isend_ops (length weights);
  '(infos, missing) ← filter_p2p_ops elastic (pl_ops p ++ sends);
  Ok (mkRankPlan (pl_temp p) (pl_copies p) (ordered_ops infos) missing).

(** [_execute_buffer2weight_copies] *)
Definition execute_copies (weights temp : list (list V)) (copies : list (Z * Z)) : res (list (list V)) :=
  res_fold (λ w '(b, d),
    to ← local_slot d; from ← local_slot b;
    copy_tensors (length weights) w temp to from) weights copies.

End rank.

(** ** All ranks *)

(** What a rank hands to [batch_isend_irecv]: the values it sends, and the peers it receives from. *)
Inductive Msg (V : Type) :=
| Send (v : V) (peer : Z)
| Recv (peer : Z).
Arguments Send {V} v peer.
Arguments Recv {V} peer.

(** The values sent to [d], and the peers of the receives, in order. *)
Definition sent {V} (d : Z) (ms : list (Msg V)) : list V :=
  omap (λ m, match m with Send v p => if bool_decide (p = d) then Some v else None | Recv _ => None end) ms.
Definition recv_peers {V} (ms : list (Msg V)) : list Z :=
  omap (λ m, match m with Recv p => Some p | Send _ _ => None end) ms.

(** The values [got] by the receives from [s]. *)
Definition arrivals {V} (s : Z) (peers : list Z) (got : list V) : list V :=
  omap (λ '(p, v), if bool_decide (p = s) then Some v else None) (zip peers got).

(** If between any two ranks there are as many sends as receives, the exchange ends, and the values of a rank
    arrive at a peer in the order in which they were sent. *)
Class Transport (V : Type) := {
  exchange : list (list (Msg V)) → res (list (list V));
  exchange_ok all :
    (∀ s d ms md, all !! s = Some ms → all !! d = Some md →
       length (sent (Z.of_nat d) ms) = length (List.filter (λ p, bool_decide (p = Z.of_nat s)) (recv_peers md))) →
    (∀ d md p, all !! d = Some md → p ∈ recv_peers md → 0 ≤ p < zlen all) →
    ∃ got, exchange all = Ok got ∧ length got = length all
      ∧ ∀ d md, all !! d = Some md → ∃ g, got !! d = Some g ∧ length g = length (recv_peers md)
          ∧ ∀ s ms, all !! s = Some ms → arrivals (Z.of_nat s) (recv_peers md) g = sent (Z.of_nat d) ms
}.

Section cluster.
Context {V : Type} `{Transport V} (old_map new_map : list Z) (num_local num_gpu_per_node : Z).

Definition message (weights : list (list V)) (op : P2POp) : res (Msg V) :=
  match op with
  | isend i slot p => match weights !! i ≫= (.!! slot) with Some v => Ok (Send v p) | None => Raise IndexError end
  | irecv _ _ p => Ok (Recv p)
  end.

(** The received values land in the buffers of the receives. *)
Fixpoint receive (temp : list (list V)) (ops : list P2POp) (got : list V) : res (list (list V)) :=
  match ops with
  | [] => Ok temp
  | isend _ _ _ :: ops' => receive temp ops' got
  | irecv i slot _ :: ops' =>
      match got, temp !! i with
      | v :: got', Some t => receive (<[i := <[slot := v]> t]> temp) ops' got'
      | _, _ => Raise RuntimeError
      end
  end.

(** A rank that does not run takes no part. *)
Definition idle (temp : list (list V)) : RankPlan := mkRankPlan temp [] [] [].

Definition plan_of (alive : list bool) (elastic : option (list bool)) (rw : nat * (list (list V) * list (list V))) : res RankPlan :=
  let '(r, (weights, temp)) := rw in
  match alive !! r with
  | Some true => plan_rank old_map new_map num_local num_gpu_per_node (Z.of_nat r) elastic weights temp
  | _ => Ok (idle temp)
  end.

Definition finish_of (rp : nat * (list (list V) * RankPlan * list V)) : res (list (list V) * list (list V)) :=
  let '(r, (weights, p, got)) := rp in
  temp ← receive (rp_temp p) (rp_ops p) got;
  w ← execute_copies num_local (Z.of_nat r) weights temp (rp_copies p);
  Ok (w, temp).

(** [update_expert_weights_single_layer] on all ranks: the weights and buffers of every rank after it, and its
    missing experts. *)
Definition update_layer_cluster (alive : list bool) (elastic : option (list bool)) (states : list (list (list V) * list (list V)))
    : res (list (list (list V) * list (list V)) * list (list Z)) :=
  plans ← res_map (plan_of alive elastic) (imap pair states);
  msgs ← res_map (λ '(p, (weights, _)), res_map (message weights) (rp_ops p)) (zip plans states);
  got ← exchange msgs;
  states' ← res_map finish_of (imap pair (zip (zip (map fst states) plans) got));
  Ok (states', map rp_missing plans).

End cluster.

(** ** All layers *)

Section layers.
Context {V : Type} `{Transport V} (empty_like : list (list V) → list (list V)).

(** The weights of the ranks, by layer. *)
Notation LayerWeights := (gmap Z (list (list (list V)))).

Definition layer_weights (weights : LayerWeights) (layer_id : Z) : res (list (list (list V))) :=
  match weights !! layer_id with Some w => Ok w | None => Raise KeyError end.

(** One layer of the loop: the weights, the buffers of the ranks, and the missing experts of the layers so far. *)
Definition update_one_layer (old new : ExpertLocationMetadata) (num_local num_gpu_per_node : Z) (alive : list bool) (elastic : option (list bool))
    (st : LayerWeights * list (list (list V)) * list (Z * list (list Z))) (layer_id : Z)
    : res (LayerWeights * list (list (list V)) * list (Z * list (list Z))) :=
  let '(weights, temps, missing) := st in
  w ← layer_weights weights layer_id;
  old_map ← tensor_get (physical_to_logical_map old) layer_id;
  new_map ← tensor_get (physical_to_logical_map new) layer_id;
  '(states, ms) ← update_layer_cluster old_map new_map num_local num_gpu_per_node alive elastic (zip w temps);
  Ok (<[layer_id := map fst states]> weights, map snd states, missing ++ [(layer_id, ms)]).

(** [_update_expert_weights_raw]; [num_physical_experts] is the width of the old map. *)
Definition update_expert_weights (old new : ExpertLocationMetadata) (num_physical_experts world_size nnodes : Z) (alive : list bool)
    (elastic : option (list bool)) (weights : LayerWeights) (update_layer_ids : list Z) : res (LayerWeights * list (Z * list (list Z))) :=
  match update_layer_ids with
  | [] => Raise IndexError
  | first :: _ =>
      sample ← layer_weights weights first;
      _ ← assert_divides world_size num_physical_experts;
      num_local ← int_div num_physical_experts world_size;
      num_gpu_per_node ← int_div world_size nnodes;
      '(weights, _, missing) ← res_fold (update_one_layer old new num_local num_gpu_per_node alive elastic) (weights, map empty_like sample, []) update_layer_ids;
      Ok (weights, missing)
  end.

(** The state the forward passes see. *)
Record Server := mkServer { sv_meta : ExpertLocationMetadata; sv_weights : LayerWeights }.

(** [ExpertLocationUpdater.update] *)
Definition updater_update (num_physical_experts world_size nnodes : Z) (alive : list bool) (elastic : option (list bool))
    (s : Server) (new : ExpertLocationMetadata) (update_layer_ids : list Z) : res (Server * list (Z * list (list Z))) :=
  '(weights, missing) ← update_expert_weights (sv_meta s) new num_physical_experts world_size nnodes alive elastic (sv_weights s) update_layer_ids;
  meta ← metadata_update (sv_meta s) new update_layer_ids;
  Ok (mkServer meta weights, missing).

(** ** The manager *)

(** [_chunk_list]; the range is empty for a negative step. *)
Definition chunk_list (items : list Z) (chunk_size : Z) : res (list (list Z)) :=
  if bool_decide (chunk_size = 0) then Raise ValueError
  else if bool_decide (chunk_size < 0) then Ok []
  else Ok (map (λ i, py_slice items (i * chunk_size) (i * chunk_size + chunk_size)) (seqZ 0 ((zlen items + chunk_size - 1) / chunk_size))).

(** [_compute_update_layer_ids_chunks] *)
Definition compute_update_layer_ids_chunks (weights : LayerWeights) (rebalance_layers_per_chunk : option Z) : res (list (list Z)) :=
  let all_layer_ids := py_sort Z.le (map fst (map_to_list weights)) in
  let chunk_size := match rebalance_layers_per_chunk with Some n => if bool_decide (n = 0) then 1000000 else n | None => 1000000 end in
  chunk_list all_layer_ids chunk_size.

(** [_check_rebalance_needed], with the comparison of the utilisation with the threshold. *)
Definition check_rebalance_needed (utilization_above_threshold : option bool) : bool :=
  match utilization_above_threshold with None => true | Some above => negb above end.

(** Where the generator is suspended: before its first step, in the loop over the forward passes, or before the
    first of the chunks that are left. *)
Inductive Generator :=
| Fresh
| Counting (passes : nat)
| Updating (new : ExpertLocationMetadata) (chunks : list (list Z)).

Section manager.
Context (num_physical_experts world_size nnodes : Z) (alive : list bool) (elastic : option (list bool))
  (rebalance_num_iterations : nat) (rebalance_layers_per_chunk : option Z).

Definition update_expert_location (s : Server) (new : ExpertLocationMetadata) (ids : list Z) : res Server :=
  '(s, _) ← updater_update num_physical_experts world_size nnodes alive elastic s new ids; Ok s.

(** The start of the loop over the forward passes, after a rebalance or at the beginning.  With no passes to
    count the loop would rebalance again without a yield. *)
Definition start_counting : res Generator :=
  match rebalance_num_iterations with O => Raise LoopBound | S _ => Ok (Counting 1) end.

(** [rebalance] up to its first yield, or the start of the next loop. *)
Definition start_rebalance (utilization_above_threshold : option bool) (new : res ExpertLocationMetadata) (s : Server) : res (Generator * Server) :=
  if check_rebalance_needed utilization_above_threshold then
    new ← new;
    chunks ← compute_update_layer_ids_chunks (sv_weights s) rebalance_layers_per_chunk;
    match chunks with
    | [] => g ← start_counting; Ok (g, s)
    | [ids] => s ← update_expert_location s new ids; g ← start_counting; Ok (g, s)
    | _ => Ok (Updating new chunks, s)
    end
  else g ← start_counting; Ok (g, s).

(** [on_forward_pass_end]: [next] of the generator. *)
Definition on_forward_pass_end (utilization_above_threshold : option bool) (new : res ExpertLocationMetadata) (g : Generator) (s : Server)
    : res (Generator * Server) :=
  match g with
  | Fresh =>
      match rebalance_num_iterations with
      | O => start_rebalance utilization_above_threshold new s
      | S _ => Ok (Counting 1, s)
      end
  | Counting k =>
      if bool_decide (k < rebalance_num_iterations)%nat then Ok (Counting (S k), s)
      else start_rebalance utilization_above_threshold new s
  | Updating new [] => g ← start_counting; Ok (g, s)
  | Updating new (ids :: rest) =>
      s ← update_expert_location s new ids;
      match rest with
      | [] => g ← start_counting; Ok (g, s)
      | _ => Ok (Updating new rest, s)
      end
  end.

End manager.
End layers.
