(* ===== verification/ExpertChunk.v ===== *)
(** * Moving experts: who sends to whom

    [_ChunkUtils] distributes the receivers of an expert over its senders: the sender a receiver picks is the one
    whose slice of the receivers contains it, so both sides agree without talking.  [_compute_comm_info] gives
    the same answer on every rank of a node. *)

From S2P Require Import Prelude RadixKey ExpertBalance ExpertProps ExpertUpdate.

Lemma py_index_Some l x i : NoDup l → py_index l x = Ok i ↔ 0 ≤ i ∧ l !! Z.to_nat i = Some x.
Proof.
  intros Hnd. unfold py_index. destruct (list_find (.= x) l) as [[j y]|] eqn:E.
  - apply list_find_Some in E as (Hj & -> & _). split; [intros [=<-]; rewrite Nat2Z.id; split; [lia|done]|].
    intros [H0 Hi]. f_equal. pose proof (NoDup_lookup _ _ _ _ Hnd Hi Hj). lia.
  - apply list_find_None in E. split; [done|]. intros [_ Hi]. apply list_elem_of_lookup_2 in Hi.
    by apply (proj1 (Forall_forall _ _) E) in Hi.
Qed.

Lemma py_index_in l x : x ∈ l → ∃ i, py_index l x = Ok i ∧ 0 ≤ i ∧ l !! Z.to_nat i = Some x.
Proof.
  intros Hx. unfold py_index. destruct (list_find (.= x) l) as [[j y]|] eqn:E.
  - apply list_find_Some in E as (Hj & -> & _). exists (Z.of_nat j). rewrite Nat2Z.id. split; [done|]. split; [lia|done].
  - apply list_find_None in E. by apply (proj1 (Forall_forall _ _) E) in Hx.
Qed.

(** ** The slices *)

(** The first element of chunk [k], for chunks of size [s] of which the first [l] have one more. *)
Definition chunk_start (s l k : Z) : Z := k * s + Z.min k l.

Lemma chunk_start_next s l k : chunk_start s l k + s + (if bool_decide (k < l) then 1 else 0) = chunk_start s l (k + 1).
Proof. unfold chunk_start. case_bool_decide; lia. Qed.

Lemma chunk_start_mono s l k k' : 0 ≤ s → 0 ≤ l → k < k' → chunk_start s l (k + 1) ≤ chunk_start s l k'.
Proof. unfold chunk_start. nia. Qed.

Lemma chunk_index_ok n c j : 0 < c → 0 ≤ j < n →
  ∃ k, chunk_index_from_element_index n c j = Ok k ∧ 0 ≤ k < c
    ∧ chunk_start (n / c) (n mod c) k ≤ j < chunk_start (n / c) (n mod c) (k + 1).
Proof.
  intros Hc Hj. unfold chunk_index_from_element_index, int_mod. rewrite int_div_ok, bool_decide_false by lia. cbn [mbind res_bind].
  pose proof (Z.div_mod n c ltac:(lia)) as En. pose proof (Z.mod_pos_bound n c Hc) as Hl. pose proof (Z.div_pos n c ltac:(lia) Hc) as Hs.
  set (s := n / c) in *. set (l := n mod c) in *. clearbody s l. unfold chunk_start. case_bool_decide as Hlt.
  - rewrite int_div_ok by lia. eexists. split; [done|]. pose proof (Z.div_mod j (s + 1) ltac:(lia)). pose proof (Z.mod_pos_bound j (s + 1) ltac:(lia)).
    assert (Hk : j / (s + 1) < l) by (apply Z.div_lt_upper_bound; lia). assert (Hk0 := Z.div_pos j (s + 1) ltac:(lia) ltac:(lia)).
    set (k := j / (s + 1)) in *. clearbody k. rewrite !Z.min_l by lia. nia.
  - assert (0 < s) by nia. rewrite int_div_ok by lia. cbn [mbind res_bind]. eexists. split; [done|]. set (j' := j - l * (s + 1)) in *.
    pose proof (Z.div_mod j' s ltac:(lia)). pose proof (Z.mod_pos_bound j' s ltac:(lia)). pose proof (Z.div_pos j' s ltac:(lia) ltac:(lia)).
    assert (j' / s < c - l) by (apply Z.div_lt_upper_bound; [lia|unfold j'; nia]). set (q := j' / s) in *. clearbody q. unfold j' in *.
    rewrite !Z.min_r by lia. nia.
Qed.

Lemma element_slice_ok n c k : 0 < c →
  element_slice_from_chunk_index n c k = Ok (chunk_start (n / c) (n mod c) k, chunk_start (n / c) (n mod c) (k + 1)).
Proof.
  intros Hc. unfold element_slice_from_chunk_index, int_mod. rewrite int_div_ok, bool_decide_false by lia. cbn [mbind res_bind].
  by rewrite <- chunk_start_next.
Qed.

Lemma py_slice_in {A} (l : list A) a b x : 0 ≤ a ≤ b → b ≤ zlen l →
  x ∈ py_slice l a b ↔ ∃ j, a ≤ j < b ∧ l !! Z.to_nat j = Some x.
Proof.
  intros Ha Hb. unfold py_slice, norm_idx. rewrite !bool_decide_false by lia. rewrite !Z.min_r by lia. rewrite list_elem_of_lookup. split.
  - intros (i & Hi). apply lookup_take_Some in Hi as [Hi Hlt]. rewrite lookup_drop in Hi. exists (a + Z.of_nat i). split; [lia|].
    by replace (Z.to_nat (a + Z.of_nat i)) with (Z.to_nat a + i)%nat by lia.
  - intros (j & Hj & Hx). exists (Z.to_nat (j - a)). apply lookup_take_Some. split; [|lia]. rewrite lookup_drop.
    by replace (Z.to_nat a + Z.to_nat (j - a))%nat with (Z.to_nat j) by lia.
Qed.

Lemma chunk_start_last n c : 0 < c → chunk_start (n / c) (n mod c) c = n.
Proof. intros Hc. unfold chunk_start. pose proof (Z.div_mod n c). pose proof (Z.mod_pos_bound n c Hc). rewrite Z.min_r by lia. lia. Qed.

Lemma NoDup_py_slice {A} (l : list A) a b : NoDup l → NoDup (py_slice l a b).
Proof.
  intros Hnd. unfold py_slice. rewrite <- (take_drop (Z.to_nat (norm_idx (zlen l) a)) l) in Hnd. apply NoDup_app in Hnd as (_ & _ & Hnd).
  set (m := Z.to_nat (_ - _)). rewrite <- (take_drop m) in Hnd. by apply NoDup_app in Hnd as (Hnd & _ & _).
Qed.

(** The two sides of [_ChunkUtils] agree: every element has a chunk, and the elements of a chunk are exactly
    those whose chunk it is, each once. *)
Lemma chunks_agree C E :
  NoDup C → NoDup E → C ≠ [] →
  (∀ e, e ∈ E → ∃ c, chunk_value_from_element_value (mkChunkUtils C E) e = Ok c ∧ c ∈ C)
  ∧ ∀ c, c ∈ C → ∃ es, element_values_from_chunk_value (mkChunkUtils C E) c = Ok es ∧ NoDup es
      ∧ ∀ e, e ∈ es ↔ e ∈ E ∧ chunk_value_from_element_value (mkChunkUtils C E) e = Ok c.
Proof.
  intros HC HE Hne. assert (Hc0 : 0 < zlen C) by (destruct C; [done|rewrite zlen_cons; pose proof (zlen_nonneg C); lia]).
  assert (Hval : ∀ e i, py_index E e = Ok i → 0 ≤ i → E !! Z.to_nat i = Some e → ∃ k c, chunk_value_from_element_value (mkChunkUtils C E) e = Ok c
     ∧ 0 ≤ k ∧ C !! Z.to_nat k = Some c ∧ chunk_start (zlen E / zlen C) (zlen E mod zlen C) k ≤ i < chunk_start (zlen E / zlen C) (zlen E mod zlen C) (k + 1)).
  { intros e i Ei H0 Hi. unfold chunk_value_from_element_value. cbn [element_values chunk_values]. rewrite Ei. cbn [mbind res_bind].
    destruct (chunk_index_ok (zlen E) (zlen C) i Hc0) as (k & -> & Hk & Hr); [apply lookup_lt_Some in Hi; unfold zlen; lia|]. cbn [mbind res_bind].
    unfold py_item, py_get. rewrite bool_decide_true by lia. destruct (lookup_lt_is_Some_2 C (Z.to_nat k)) as [c Hc]; [unfold zlen in Hk; lia|].
    exists k, c. rewrite Hc. split_and!; [done|lia|done|lia|lia]. }
  split.
  - intros e He. destruct (py_index_in E e He) as (i & Ei & H0 & Hi). destruct (Hval e i Ei H0 Hi) as (k & c & E1 & _ & Hc & _).
    exists c. split; [done|by eapply list_elem_of_lookup_2].
  - intros c Hc. unfold element_values_from_chunk_value. cbn [element_values chunk_values]. case_bool_decide as Hz.
    { exists []. split; [done|]. split; [constructor|]. intros e. destruct E; [set_solver|]. rewrite zlen_cons in Hz. pose proof (zlen_nonneg E). lia. }
    destruct (py_index_in C c Hc) as (k & Ek & Hk0 & Hk). rewrite Ek. cbn [mbind res_bind]. rewrite element_slice_ok by done. cbn [mbind res_bind].
    pose proof (Z.div_mod (zlen E) (zlen C) ltac:(lia)). pose proof (Z.mod_pos_bound (zlen E) (zlen C) Hc0). pose proof (zlen_nonneg E).
    pose proof (Z.div_pos (zlen E) (zlen C) ltac:(lia) Hc0). assert (Hkc : k < zlen C) by (apply lookup_lt_Some in Hk; unfold zlen; lia).
    set (s := zlen E / zlen C) in *. set (l := zlen E mod zlen C) in *.
    assert (Hend : chunk_start s l (k + 1) ≤ zlen E).
    { rewrite <- (chunk_start_last (zlen E) (zlen C) Hc0). fold s l. destruct (decide (k + 1 = zlen C)) as [->|]; [done|].
      etrans; [|apply (chunk_start_mono s l (k + 1)); lia]. unfold chunk_start. nia. }
    eexists. split; [done|]. split; [by apply NoDup_py_slice|]. intros e. rewrite py_slice_in; [|unfold chunk_start; nia|done]. split.
    + intros (j & Hj & He). assert (Hj0 : 0 ≤ j) by (unfold chunk_start in Hj; nia). split; [by eapply list_elem_of_lookup_2|].
      assert (Ej : py_index E e = Ok j) by (by apply py_index_Some). destruct (Hval e j Ej Hj0 He) as (k' & c' & E1 & Hk'0 & Hc' & Hr). rewrite E1. f_equal.
      enough (k' = k) by (subst; congruence). destruct (Z.lt_total k k') as [Hlt|[->|Hlt]]; [|done|].
      * pose proof (chunk_start_mono s l k k'). lia.
      * pose proof (chunk_start_mono s l k' k). lia.
    + intros [He E1]. destruct (py_index_in E e He) as (i & Ei & Hi0 & Hi). destruct (Hval e i Ei Hi0 Hi) as (k' & c' & E2 & Hk'0 & Hc' & Hr).
      rewrite E1 in E2. inversion E2; subst c'. assert (k' = k) as -> by (pose proof (NoDup_lookup _ _ _ _ HC Hk Hc'); lia). by exists i.
Qed.

(** ** [_deduplicate_ordered] *)

Lemma last_max (l : list Z) y x : StronglySorted Z.le l → last l = Some y → x ∈ l → x ≤ y.
Proof.
  intros Hs Hl. destruct l as [|a l _] using rev_ind; [done|]. rewrite last_snoc in Hl. simplify_eq. intros [Hx|Hx%list_elem_of_singleton]%elem_of_app; [|lia].
  apply (StronglySorted_app_1_elem_of _ _ _ _ _ Hs Hx). set_solver.
Qed.

Lemma dedup_from_ok arr : ∀ output, StronglySorted Z.le (output ++ arr) → NoDup output →
  NoDup (dedup_from output arr) ∧ ∀ x, x ∈ dedup_from output arr ↔ x ∈ output ∨ x ∈ arr.
Proof.
  induction arr as [|x arr IH]; intros output Hs Hnd; cbn [dedup_from]; [split; [done|set_solver]|]. case_bool_decide as El.
  - destruct (IH output) as [H1 H2]; [|done|].
    + apply StronglySorted_app in Hs as (Hx & H1 & H2). apply StronglySorted_inv in H2 as [H2 _]. apply StronglySorted_app_2; [set_solver|done|done].
    + split; [done|]. intros y. rewrite H2. apply last_Some_elem_of in El. set_solver.
  - destruct (IH (output ++ [x])) as [H1 H2]; [by rewrite <- app_assoc| |].
    + apply NoDup_app. split; [done|]. split; [|apply NoDup_singleton]. intros y Hy Hyx%list_elem_of_singleton. subst y. apply El.
      destruct (last output) as [z|] eqn:Ez; [|apply last_None in Ez; subst; set_solver]. f_equal.
      pose proof (last_max output z x (StronglySorted_app_1_l _ _ _ Hs) Ez Hy).
      pose proof (StronglySorted_app_1_elem_of _ _ _ z x Hs (last_Some_elem_of _ _ Ez) ltac:(set_solver)). lia.
    + split; [done|]. intros y. rewrite H2. set_solver.
Qed.

Lemma deduplicate_ordered_ok arr : StronglySorted Z.le arr →
  NoDup (deduplicate_ordered arr) ∧ ∀ x, x ∈ deduplicate_ordered arr ↔ x ∈ arr.
Proof. intros Hs. destruct (dedup_from_ok arr [] Hs (NoDup_nil_2)) as [H1 H2]. split; [done|]. intros x. rewrite H2. set_solver. Qed.

(** ** [_compute_comm_info] *)

Lemma holds_expert_ok m e x : 0 ≤ x < zlen m → holds_expert m e x = Ok (bool_decide (m !! Z.to_nat x = Some e)).
Proof.
  intros Hx. unfold holds_expert, py_item, py_get. rewrite bool_decide_true by lia.
  destruct (lookup_lt_is_Some_2 m (Z.to_nat x)) as [y Hy]; [unfold zlen in Hx; lia|]. rewrite Hy. cbn [mbind res_bind]. f_equal.
  apply bool_decide_ext. naive_solver.
Qed.

Section comm.
Context (old_map new_map : list Z) (L G : Z) (HL : 0 < L) (HG : 0 < G) (Hlen : length new_map = length old_map).

(** Rank [r] has expert [e] in one of its slots. *)
Definition has (m : list Z) (r e : Z) : Prop := ∃ x, x / L = r ∧ 0 ≤ x ∧ m !! Z.to_nat x = Some e.

(** The locations of [e] in order, and their ranks. *)
Definition locations (m : list Z) (e : Z) (ok : Z → bool) : list Z :=
  List.filter (λ x, bool_decide (m !! Z.to_nat x = Some e) && ok x) (seqZ 0 (zlen old_map)).

Lemma StronglySorted_seqZ n : ∀ a, StronglySorted Z.lt (seqZ a (Z.of_nat n)).
Proof.
  induction n as [|n IH]; intros a; [rewrite seqZ_nil by lia; constructor|]. rewrite seqZ_cons by lia. constructor.
  - replace (Z.pred (Z.of_nat (S n))) with (Z.of_nat n) by lia. apply IH.
  - apply Forall_forall. intros x Hx%elem_of_seqZ. lia.
Qed.

Lemma StronglySorted_filter_b {A} (R : A → A → Prop) (f : A → bool) l : StronglySorted R l → StronglySorted R (List.filter f l).
Proof.
  induction 1 as [|x l Hl IH Hx]; cbn [List.filter]; [constructor|]. destruct (f x); [|done]. constructor; [done|].
  apply Forall_forall. intros y Hy%list_elem_of_In%List.filter_In. apply (proj1 (Forall_forall _ _) Hx). apply list_elem_of_In. tauto.
Qed.

Lemma StronglySorted_div l : StronglySorted Z.lt l → StronglySorted Z.le (map (λ x, x / L) l).
Proof.
  induction 1 as [|x l Hl IH Hx]; cbn [map]; [constructor|]. constructor; [done|]. apply Forall_fmap. eapply Forall_impl; [exact Hx|].
  intros y Hy. cbn. apply Z.div_le_mono; lia.
Qed.

(** The ranks of [_deduplicate_ordered]. *)
Definition ranks_of (m : list Z) (e : Z) (ok : Z → bool) : list Z := deduplicate_ordered (map (λ x, x / L) (locations m e ok)).

Lemma ranks_of_ok m e ok : length m = length old_map →
  NoDup (ranks_of m e ok) ∧ ∀ r, r ∈ ranks_of m e ok ↔ ∃ x, x / L = r ∧ 0 ≤ x ∧ m !! Z.to_nat x = Some e ∧ ok x = true.
Proof.
  intros Hm. destruct (deduplicate_ordered_ok (map (λ x, x / L) (locations m e ok))) as [H1 H2].
  { apply StronglySorted_div, StronglySorted_filter_b. apply StronglySorted_seqZ. }
  split; [done|]. intros r. unfold ranks_of. rewrite H2, list_elem_of_fmap. unfold locations. split.
  - intros (x & -> & Hx). apply list_elem_of_In, List.filter_In in Hx as [Hin Hx]. apply list_elem_of_In, elem_of_seqZ in Hin.
    apply andb_true_iff in Hx as [Hx Hok]. apply bool_decide_eq_true in Hx. exists x. split_and!; [done|lia|done|done].
  - intros (x & <- & H0 & Hx & Hok). exists x. split; [done|]. apply list_elem_of_In, List.filter_In. split.
    + apply list_elem_of_In, elem_of_seqZ. apply lookup_lt_Some in Hx. unfold zlen. lia.
    + apply andb_true_iff. split; [by apply bool_decide_eq_true|done].
Qed.

Definition src_ranks (e : Z) : list Z := ranks_of old_map e (λ _, true).
Definition need_ranks (e : Z) : list Z := ranks_of new_map e (λ x, negb (bool_decide (x / L ∈ src_ranks e))).

Lemma src_ranks_ok e : NoDup (src_ranks e) ∧ ∀ r, r ∈ src_ranks e ↔ has old_map r e.
Proof.
  destruct (ranks_of_ok old_map e (λ _, true) eq_refl) as [H1 H2]. split; [done|]. intros r. unfold src_ranks. rewrite H2. unfold has. naive_solver.
Qed.

Lemma need_ranks_ok e : NoDup (need_ranks e) ∧ ∀ r, r ∈ need_ranks e ↔ has new_map r e ∧ ¬ has old_map r e.
Proof.
  destruct (ranks_of_ok new_map e (λ x, negb (bool_decide (x / L ∈ src_ranks e))) Hlen) as [H1 H2]. split; [done|].
  intros r. unfold need_ranks. rewrite H2. destruct (src_ranks_ok e) as [_ Hs]. unfold has at 1. setoid_rewrite negb_true_iff. setoid_rewrite bool_decide_eq_false.
  setoid_rewrite Hs. naive_solver.
Qed.

Definition same_node (node e : Z) : ChunkUtils :=
  mkChunkUtils (List.filter (λ x, bool_decide (x / G = node)) (src_ranks e))
    (if bool_decide (0 < zlen (List.filter (λ x, bool_decide (x / G = node)) (src_ranks e)))
     then List.filter (λ x, bool_decide (x / G = node)) (need_ranks e) else []).
Definition cross_node (e : Z) : ChunkUtils :=
  mkChunkUtils (src_ranks e) (List.filter (λ x, negb (bool_decide (x / G ∈ map (λ x, x / G) (src_ranks e)))) (need_ranks e)).

Lemma compute_comm_info_ok rank e :
  compute_comm_info old_map new_map L G rank e = Ok (same_node (rank / G) e, cross_node e, element_values (same_node (rank / G) e)).
Proof.
  unfold compute_comm_info.
  rewrite (res_filter_ok _ (λ x, bool_decide (old_map !! Z.to_nat x = Some e) && true)).
  2: { intros x Hx%elem_of_seqZ. rewrite holds_expert_ok by lia. by rewrite andb_true_r. }
  cbn [mbind res_bind]. fold (locations old_map e (λ _, true)). fold (ranks_of old_map e (λ _, true)). fold (src_ranks e).
  rewrite (res_filter_ok _ (λ x, bool_decide (new_map !! Z.to_nat x = Some e) && negb (bool_decide (x / L ∈ src_ranks e)))).
  2: { intros x Hx%elem_of_seqZ. rewrite holds_expert_ok by (unfold zlen in *; lia). done. }
  cbn [mbind res_bind]. done.
Qed.

(** The ranks that need [e], and the rank each of them receives it from. *)
Definition needs (d e : Z) : Prop := has new_map d e ∧ ¬ has old_map d e.
Definition chosen (d e : Z) : res Z :=
  if bool_decide (d ∈ element_values (same_node (d / G) e)) then chunk_value_from_element_value (same_node (d / G) e) d
  else chunk_value_from_element_value (cross_node e) d.

Lemma filter_mem (f : Z → bool) l x : x ∈ List.filter f l ↔ x ∈ l ∧ f x = true.
Proof. by rewrite list_elem_of_In, List.filter_In, <- list_elem_of_In. Qed.

Lemma NoDup_filter_b (f : Z → bool) l : NoDup l → NoDup (List.filter f l).
Proof. intros Hl. apply NoDup_ListNoDup, List.NoDup_filter. by apply NoDup_ListNoDup. Qed.

Lemma nonempty_pos {A} (l : list A) : 0 < zlen l ↔ l ≠ [].
Proof. destruct l; [done|]. rewrite zlen_cons. split; [done|]. pose proof (zlen_nonneg l). lia. Qed.

Lemma same_chunks node e r : r ∈ chunk_values (same_node node e) ↔ has old_map r e ∧ r / G = node.
Proof. cbn [same_node chunk_values]. rewrite filter_mem, bool_decide_eq_true. by rewrite (proj2 (src_ranks_ok e)). Qed.

Lemma same_elements node e d : d ∈ element_values (same_node node e) ↔ needs d e ∧ d / G = node ∧ chunk_values (same_node node e) ≠ [].
Proof.
  cbn [same_node element_values chunk_values]. case_bool_decide as Hz; rewrite nonempty_pos in Hz.
  - rewrite filter_mem, bool_decide_eq_true, (proj2 (need_ranks_ok e)). unfold needs. tauto.
  - split; [set_solver|]. intros (_ & _ & ?). done.
Qed.

Lemma cross_elements e d : d ∈ element_values (cross_node e) ↔ needs d e ∧ ∀ r, has old_map r e → r / G ≠ d / G.
Proof.
  cbn [cross_node element_values]. rewrite filter_mem, negb_true_iff, bool_decide_eq_false, (proj2 (need_ranks_ok e)), list_elem_of_fmap.
  setoid_rewrite (proj2 (src_ranks_ok e)). unfold needs. split.
  - intros [? Hn]. split; [done|]. intros r Hr E. apply Hn. exists r. done.
  - intros [? Hn]. split; [done|]. intros (r & E & Hr). by apply (Hn r Hr).
Qed.

Lemma same_NoDup node e : NoDup (chunk_values (same_node node e)) ∧ NoDup (element_values (same_node node e)).
Proof.
  cbn [same_node chunk_values element_values]. split; [apply NoDup_filter_b, src_ranks_ok|]. case_bool_decide; [apply NoDup_filter_b, need_ranks_ok|constructor].
Qed.

Lemma cross_NoDup e : NoDup (chunk_values (cross_node e)) ∧ NoDup (element_values (cross_node e)).
Proof. split; [apply src_ranks_ok|apply NoDup_filter_b, need_ranks_ok]. Qed.

(** Every rank that needs an expert that some rank has chooses one that has it. *)
Lemma chosen_ok d e : needs d e → (∃ r, has old_map r e) → ∃ s, chosen d e = Ok s ∧ has old_map s e ∧ s ≠ d.
Proof.
  intros Hd [r Hr]. unfold chosen. case_bool_decide as Hin.
  - pose proof Hin as (_ & _ & Hne)%same_elements. destruct (same_NoDup (d / G) e) as [N1 N2].
    destruct (chunks_agree _ _ N1 N2 Hne) as [Hval _]. destruct (Hval d Hin) as (s & Hs & Hsin). exists s. split; [exact Hs|].
    apply same_chunks in Hsin as [Hsin _]. split; [done|]. intros ->. by destruct Hd.
  - assert (Hc : d ∈ element_values (cross_node e)).
    { apply cross_elements. split; [done|]. intros r' Hr' E. apply Hin, same_elements. split; [done|]. split; [done|].
      intros En. assert (Hx : r' ∈ chunk_values (same_node (d / G) e)) by (by apply same_chunks). rewrite En in Hx. set_solver. }
    destruct (cross_NoDup e) as [N1 N2]. assert (Hne : chunk_values (cross_node e) ≠ []).
    { intros En. assert (Hx : r ∈ chunk_values (cross_node e)) by (by apply src_ranks_ok). rewrite En in Hx. set_solver. }
    destruct (chunks_agree _ _ N1 N2 Hne) as [Hval _]. destruct (Hval d Hc) as (s & Hs & Hsin). exists s. split; [exact Hs|].
    apply src_ranks_ok in Hsin. split; [done|]. intros ->. by destruct Hd.
Qed.

Lemma element_values_empty c x : element_values c = [] → element_values_from_chunk_value c x = Ok [].
Proof. intros E. unfold element_values_from_chunk_value. by rewrite E. Qed.

(** A rank sends an expert it has to exactly the ranks that choose it. *)
Lemma receivers_ok s e : has old_map s e → ∃ l1 l2,
  element_values_from_chunk_value (same_node (s / G) e) s = Ok l1 ∧ element_values_from_chunk_value (cross_node e) s = Ok l2
  ∧ NoDup (l1 ++ l2) ∧ ∀ d, d ∈ l1 ++ l2 ↔ needs d e ∧ chosen d e = Ok s.
Proof.
  intros Hs. assert (Hs1 : s ∈ chunk_values (same_node (s / G) e)) by (by apply same_chunks).
  assert (Hs2 : s ∈ chunk_values (cross_node e)) by (by apply src_ranks_ok).
  destruct (same_NoDup (s / G) e) as [N1 N2]. destruct (cross_NoDup e) as [N3 N4].
  destruct (chunks_agree _ _ N1 N2) as [_ H1]; [intros E; rewrite E in Hs1; set_solver|]. destruct (H1 s Hs1) as (l1 & E1 & Nd1 & M1).
  destruct (chunks_agree _ _ N3 N4) as [_ H2]; [intros E; rewrite E in Hs2; set_solver|]. destruct (H2 s Hs2) as (l2 & E2 & Nd2 & M2).
  exists l1, l2. split; [exact E1|]. split; [exact E2|].
  assert (Hout : ∀ d, d ∈ element_values (cross_node e) → d ∉ element_values (same_node (d / G) e)).
  { intros d (_ & Hno)%cross_elements (_ & _ & Hne)%same_elements. destruct (chunk_values (same_node (d / G) e)) as [|r l] eqn:Er; [done|].
    assert (Hr : r ∈ chunk_values (same_node (d / G) e)) by (rewrite Er; set_solver). apply same_chunks in Hr as [Hr E]. by apply (Hno r). }
  split.
  - apply NoDup_app. split; [done|]. split; [|done]. intros d (Hd & _)%M1 (Hd' & _)%M2. pose proof Hd as (_ & E & _)%same_elements.
    apply (Hout d Hd'). by rewrite E.
  - intros d. rewrite elem_of_app, M1, M2. unfold chosen. split.
    + intros [[Hd Hv]|[Hd Hv]].
      * pose proof Hd as (Hn & E & _)%same_elements. split; [done|]. rewrite E. rewrite bool_decide_true by done. exact Hv.
      * pose proof Hd as (Hn & _)%cross_elements. split; [done|]. rewrite bool_decide_false by (by apply Hout). exact Hv.
    + intros [Hn Hv]. case_bool_decide as Hin.
      * left. assert (Hsd : s / G = d / G).
        { destruct (same_NoDup (d / G) e) as [N5 N6]. pose proof Hin as (_ & _ & Hne)%same_elements. destruct (chunks_agree _ _ N5 N6 Hne) as [Hval _].
          destruct (Hval d Hin) as (s' & Hs' & Hin'). assert (Ok s = Ok s') as [=<-] by (rewrite <- Hv; exact Hs'). by apply same_chunks in Hin' as [_ ?]. }
        rewrite Hsd. split; [done|exact Hv].
      * right. split; [|exact Hv]. apply cross_elements. split; [done|]. intros r Hr E. apply Hin, same_elements. split; [done|]. split; [done|].
        intros En. assert (Hx : r ∈ chunk_values (same_node (d / G) e)) by (by apply same_chunks). rewrite En in Hx. set_solver.
Qed.

End comm.
