(* ===== verification/ExpertPlan.v ===== *)
(** * Moving experts: the plan of a rank

    What [_handle_recv], [_create_isend_ops] and [_filter_p2p_ops] leave behind on one rank: every slot that
    changes is filled from a buffer, every buffer is filled from the rank itself or by a receive from the chosen
    rank, and the rank sends each of its experts to the ranks that choose it. *)

From S2P Require Import Prelude RadixKey ExpertBalance ExpertProps ExpertUpdate ExpertChunk.

Lemma find_first_nat (p : Z → bool) n : ∀ a x, List.find p (seqZ a (Z.of_nat n)) = Some x →
  a ≤ x < a + Z.of_nat n ∧ p x = true ∧ ∀ y, a ≤ y < x → p y = false.
Proof.
  induction n as [|n IH]; intros a x; [by rewrite seqZ_nil by lia|]. rewrite seqZ_cons by lia. cbn [List.find]. destruct (p a) eqn:Ea.
  - intros [=<-]. split_and!; [lia..|done|lia].
  - replace (Z.pred (Z.of_nat (S n))) with (Z.of_nat n) by lia. intros (? & ? & Hy)%IH. split_and!; [lia..|done|]. intros y ?. destruct (decide (y = a)) as [->|]; [done|]. apply Hy. lia.
Qed.

Lemma find_first (p : Z → bool) a n x : List.find p (seqZ a n) = Some x →
  a ≤ x < a + n ∧ p x = true ∧ ∀ y, a ≤ y < x → p y = false.
Proof.
  destruct (decide (0 ≤ n)) as [Hn|Hn]; [|by rewrite seqZ_nil by lia]. intros Hf.
  rewrite <- (Z2Nat.id n) in Hf by done. apply find_first_nat in Hf. by rewrite Z2Nat.id in Hf.
Qed.

Lemma find_None_seqZ (p : Z → bool) a n x : List.find p (seqZ a n) = None → a ≤ x < a + n → p x = false.
Proof. intros Hf Hx. apply (List.find_none _ _ Hf), list_elem_of_In, elem_of_seqZ. lia. Qed.

(** ** Tensors *)

Section tensors.
Context {V : Type} (W : Z → nat → V) (T : nat) (L : Z).

Definition shape (w : list (list V)) : Prop := length w = T ∧ Forall (λ t, length t = Z.to_nat L) w.

(** Slot [k] holds expert [e]. *)
Definition slot_is (w : list (list V)) (k : nat) (e : Z) : Prop := ∀ i, (i < T)%nat → w !! i ≫= (.!! k) = Some (W e i).

Lemma shape_insert w i t : shape w → length t = Z.to_nat L → shape (<[i := t]> w).
Proof. intros [Hl Hf] Ht. split; [by rewrite length_insert|by apply Forall_insert]. Qed.

Lemma copy_tensors_from dst0 src to from : shape dst0 → shape src → (to < Z.to_nat L)%nat → (from < Z.to_nat L)%nat →
  ∀ n j, (j + n = T)%nat → ∀ dst, shape dst → ∃ dst',
    res_fold (λ dst i,
      match dst !! i, src !! i ≫= (.!! from) with
      | Some t, Some v => if bool_decide (to < length t)%nat then Ok (<[i := <[to := v]> t]> dst) else Raise IndexError
      | _, _ => Raise IndexError
      end) dst (seq j n) = Ok dst' ∧ shape dst'
    ∧ (∀ i k, (i < j)%nat ∨ k ≠ to → dst' !! i ≫= (.!! k) = dst !! i ≫= (.!! k))
    ∧ (∀ i, (j ≤ i < T)%nat → dst' !! i ≫= (.!! to) = src !! i ≫= (.!! from)).
Proof.
  intros Hd0 Hs Hto Hfrom. induction n as [|n IH]; intros j Hj dst Hd; cbn [seq res_fold]; [exists dst; split_and!; [done|done|done|lia]|].
  destruct Hs as [Hsl Hsf]. destruct Hd as [Hdl Hdf]. destruct (lookup_lt_is_Some_2 dst j ltac:(lia)) as [t Ht]. rewrite Ht.
  destruct (lookup_lt_is_Some_2 src j ltac:(lia)) as [ts Hts]. pose proof (Forall_lookup_1 _ _ _ _ Hsf Hts) as Hl1. pose proof (Forall_lookup_1 _ _ _ _ Hdf Ht) as Hl2. cbn in Hl1, Hl2.
  destruct (lookup_lt_is_Some_2 ts from ltac:(lia)) as [v Hv]. rewrite Hts. cbn [mbind option_bind]. rewrite Hv. rewrite bool_decide_true by lia. cbn [mbind res_bind].
  destruct (IH (S j) ltac:(lia) (<[j := <[to := v]> t]> dst)) as (dst' & E & Hsh & Hkeep & Hset); [apply shape_insert; [done|by rewrite length_insert]|].
  exists dst'. split; [exact E|]. split; [done|]. split.
  - intros i k Hik. rewrite Hkeep by lia. destruct (decide (i = j)) as [->|Hne]; [|by rewrite list_lookup_insert_ne by done].
    rewrite list_lookup_insert_eq by lia. rewrite Ht. cbn. destruct Hik; [lia|]. by rewrite list_lookup_insert_ne.
  - intros i Hi. destruct (decide (i = j)) as [->|Hne]; [|apply Hset; lia]. rewrite Hkeep by lia. rewrite list_lookup_insert_eq by lia. cbn.
    rewrite list_lookup_insert_eq by lia. rewrite Hts. cbn. by rewrite Hv.
Qed.

Lemma copy_tensors_ok dst src to from : shape dst → shape src → (to < Z.to_nat L)%nat → (from < Z.to_nat L)%nat →
  ∃ dst', copy_tensors T dst src to from = Ok dst' ∧ shape dst'
    ∧ (∀ k e, k ≠ to → slot_is dst k e → slot_is dst' k e) ∧ (∀ e, slot_is src from e → slot_is dst' to e).
Proof.
  intros Hd Hs Hto Hfrom. destruct (copy_tensors_from dst src to from Hd Hs Hto Hfrom T 0 eq_refl dst Hd) as (dst' & E & Hsh & Hkeep & Hset).
  exists dst'. split; [exact E|]. split; [done|]. split.
  - intros k e Hk Hslot i Hi. rewrite Hkeep by tauto. by apply Hslot.
  - intros e Hslot i Hi. rewrite Hset by lia. by apply Hslot.
Qed.

End tensors.

(** ** Receives *)

Section rank_plan.
Context {V : Type} (W : Z → nat → V) (T : nat) (L G : Z) (R : nat) (old_map new_map : list Z).
Context (HL : 0 < L) (HG : 0 < G) (Hold : zlen old_map = Z.of_nat R * L) (Hnew : length new_map = length old_map)
  (Hsrc : ∀ e, e ∈ new_map → e ∈ old_map).
Context (d : Z) (Hd : 0 ≤ d < Z.of_nat R).

Notation has := (has L).
Notation needs := (needs old_map new_map L).
Notation chosen := (chosen old_map new_map L G).
Notation shape := (shape T L).
Notation slot_is := (slot_is W T).

(** The local slot of a location of this rank. *)
Definition slot_of (x : Z) : nat := Z.to_nat (x - d * L).

(** The weights hold the experts of the map [m]. *)
Definition holding (m : list Z) (w : list (list V)) : Prop :=
  shape w ∧ ∀ x e, d * L ≤ x < d * L + L → m !! Z.to_nat x = Some e → slot_is w (slot_of x) e.

Lemma local_slot_ok x : d * L ≤ x < d * L + L → local_slot L d x = Ok (slot_of x).
Proof.
  intros Hx. unfold local_slot. rewrite bool_decide_true by lia. cbn [py_assert mbind res_bind]. f_equal. unfold slot_of. f_equal.
  symmetry. apply (Z.mod_unique_pos _ _ d); lia.
Qed.

Lemma slot_of_lt x : d * L ≤ x < d * L + L → (slot_of x < Z.to_nat L)%nat.
Proof. intros Hx. unfold slot_of. lia. Qed.

Lemma slot_of_inj x y : d * L ≤ x → d * L ≤ y → slot_of x = slot_of y → x = y.
Proof. unfold slot_of. lia. Qed.

(** The entry of a map at a location of this rank. *)
Lemma entry m x : length m = length old_map → d * L ≤ x < d * L + L → ∃ e, py_item m x = Ok e ∧ m !! Z.to_nat x = Some e.
Proof.
  intros Hm Hx. assert (Hr : 0 ≤ x < zlen m) by (unfold zlen in *; nia). unfold py_item, py_get. rewrite bool_decide_true by lia.
  destruct (lookup_lt_is_Some_2 m (Z.to_nat x)) as [e He]; [unfold zlen in Hr; lia|]. exists e. by rewrite He.
Qed.

Lemma has_local m e : has m d e ↔ ∃ x, d * L ≤ x < d * L + L ∧ m !! Z.to_nat x = Some e.
Proof.
  unfold ExpertChunk.has. split.
  - intros (x & Hx & H0 & He). exists x. split; [|done]. pose proof (Z.div_mod x L ltac:(lia)). pose proof (Z.mod_pos_bound x L HL). nia.
  - intros (x & Hx & He). exists x. split_and!; [|nia|done]. symmetry. apply (Z.div_unique_pos _ _ _ (x - d * L)); lia.
Qed.

Lemma holds_local m e x : length m = length old_map → d * L ≤ x < d * L + L →
  holds_expert m e x = Ok (bool_decide (m !! Z.to_nat x = Some e)).
Proof. intros Hm Hx. apply holds_expert_ok. unfold zlen in *. nia. Qed.

Definition recv_ops (b s : Z) : list P2POp := map (λ i, irecv i (slot_of b) s) (seq 0 T).

Lemma recv_ops_ok b s : d * L ≤ b < d * L + L →
  ∀ l, res_map (λ i, slot ← local_slot L d b; Ok (irecv i slot s)) l = Ok (map (λ i, irecv i (slot_of b) s) l).
Proof. intros Hb l. apply res_map_ok. intros i _. by rewrite local_slot_ok. Qed.

(** The plan when the locations below [x] are done; [rl] are the experts received, where they land and from whom. *)
Record planned (x : Z) (rl : list (Z * Z * Z)) (p : Plan) : Prop := {
  pd_shape : shape (pl_temp p);
  pd_ops : pl_ops p = map (λ '(e, b, s), (e, recv_ops b s)) rl;
  pd_keys : NoDup (map (λ t : Z * Z * Z, t.1.1) rl);
  pd_recv e b s : (e, b, s) ∈ rl → needs d e ∧ chosen d e = Ok s ∧ d * L ≤ b < x ∧ new_map !! Z.to_nat b = Some e
    ∧ ∀ y, d * L ≤ y < b → new_map !! Z.to_nat y ≠ Some e;
  pd_all y e : d * L ≤ y < x → new_map !! Z.to_nat y = Some e → needs d e → ∃ b s, (e, b, s) ∈ rl;
  pd_copies b w : (b, w) ∈ pl_copies p → d * L ≤ b < x ∧ d * L ≤ w < x ∧ ∃ e, new_map !! Z.to_nat b = Some e ∧ new_map !! Z.to_nat w = Some e
    ∧ ((has old_map d e ∧ slot_is (pl_temp p) (slot_of b) e) ∨ ∃ s, (e, b, s) ∈ rl);
  pd_changed w : d * L ≤ w < x → old_map !! Z.to_nat w = new_map !! Z.to_nat w ∨ ∃ b, (b, w) ∈ pl_copies p
}.

Lemma planned_unchanged x rl p e : planned x rl p → has old_map d e → new_map !! Z.to_nat x = Some e → old_map !! Z.to_nat x = Some e →
  planned (x + 1) rl p.
Proof.
  intros [P1 P2 P3 P4 P5 P6 P7] Hh Hn Ho. split; try done.
  - intros e' b s Hin. destruct (P4 e' b s Hin) as (? & ? & ? & ? & ?). split_and!; [done|done|lia|lia|done|done].
  - intros y e' Hy He Hne. destruct (decide (y = x)) as [->|]; [|apply (P5 y e'); [lia|done|done]]. simplify_eq. by destruct Hne.
  - intros b w Hin. destruct (P6 b w Hin) as (? & ? & ?). split_and!; [lia..|done].
  - intros w Hw. destruct (decide (w = x)) as [->|]; [left; congruence|]. apply P7. lia.
Qed.

(** A copy is appended; it finds its expert in the buffers. *)
Lemma planned_copy x rl p temp b e : planned x rl p → shape temp →
  (∀ y e', d * L ≤ y < x → slot_is (pl_temp p) (slot_of y) e' → slot_is temp (slot_of y) e') →
  d * L ≤ x → d * L ≤ b ≤ x → new_map !! Z.to_nat b = Some e → new_map !! Z.to_nat x = Some e →
  ((has old_map d e ∧ slot_is temp (slot_of b) e) ∨ ((¬ needs d e → False) ∧ ∃ s, (e, b, s) ∈ rl)) →
  planned (x + 1) rl (mkPlan temp (pl_copies p ++ [(b, x)]) (pl_ops p)).
Proof.
  intros [P1 P2 P3 P4 P5 P6 P7] Hsh Hkeep Hx Hb Hnb Hnx Hcase. split; cbn [pl_temp pl_copies pl_ops]; try done.
  - intros e' b' s Hin. destruct (P4 e' b' s Hin) as (? & ? & ? & ? & ?). split_and!; [done|done|lia|lia|done|done].
  - intros y e' Hy He Hne. destruct (decide (y = x)) as [->|]; [|apply (P5 y e'); [lia|done|done]]. simplify_eq.
    destruct Hcase as [[Hh _]|[_ [s Hs]]]; [by destruct Hne|eauto].
  - intros b' w [Hin|Hin%list_elem_of_singleton]%elem_of_app.
    + destruct (P6 b' w Hin) as (? & ? & e' & ? & ? & Hor). split_and!; [lia..|]. exists e'. split_and!; [done..|].
      destruct Hor as [[? ?]|?]; [left; split; [done|]; apply Hkeep; [lia|done]|by right].
    + simplify_eq. split_and!; [lia..|]. exists e. split_and!; [done..|]. destruct Hcase as [?|[_ ?]]; [by left|by right].
  - intros w Hw. destruct (decide (w = x)) as [->|]; [right; exists b; set_solver|]. destruct (P7 w) as [?|[b' ?]]; [lia|by left|right; exists b'; set_solver].
Qed.

(** A receive is appended. *)
Lemma planned_recv x rl p e s : planned x rl p → d * L ≤ x → new_map !! Z.to_nat x = Some e → needs d e → chosen d e = Ok s →
  (∀ y, d * L ≤ y < x → new_map !! Z.to_nat y ≠ Some e) →
  planned (x + 1) (rl ++ [(e, x, s)]) (mkPlan (pl_temp p) (pl_copies p ++ [(x, x)]) (pl_ops p ++ [(e, recv_ops x s)])).
Proof.
  intros [P1 P2 P3 P4 P5 P6 P7] Hx Hnx Hne Hch Hfirst. split; cbn [pl_temp pl_copies pl_ops]; try done.
  - by rewrite map_app, P2.
  - rewrite map_app. apply NoDup_app. split; [done|]. split; [|apply NoDup_singleton]. intros e' He' ->%list_elem_of_singleton.
    apply list_elem_of_fmap in He' as ([[e0 b] s0] & E & Hin). cbn in E. subst e0. destruct (P4 _ _ _ Hin) as (_ & _ & Hb & Hnb & _). by apply (Hfirst b).
  - intros e' b' s' [Hin|Hin%list_elem_of_singleton]%elem_of_app.
    + destruct (P4 e' b' s' Hin) as (? & ? & ? & ? & ?). split_and!; [done|done|lia|lia|done|done].
    + simplify_eq. split_and!; [done|done|lia|lia|done|done].
  - intros y e' Hy He Hn'. destruct (decide (y = x)) as [->|]; [simplify_eq; exists x, s; set_solver|].
    destruct (P5 y e') as (b & s' & ?); [lia|done|done|]. exists b, s'. set_solver.
  - intros b' w [Hin|Hin%list_elem_of_singleton]%elem_of_app.
    + destruct (P6 b' w Hin) as (? & ? & e' & ? & ? & Hor). split_and!; [lia..|]. exists e'. split_and!; [done..|].
      destruct Hor as [?|[s' ?]]; [by left|right; exists s'; set_solver].
    + simplify_eq. split_and!; [lia..|]. exists e. split_and!; [done..|]. right. exists s. set_solver.
  - intros w Hw. destruct (decide (w = x)) as [->|]; [right; exists x; set_solver|]. destruct (P7 w) as [?|[b' ?]]; [lia|by left|right; exists b'; set_solver].
Qed.

Lemma handle_recv_step weights x rl p : holding old_map weights → planned x rl p → d * L ≤ x < d * L + L →
  ∃ rl' p', handle_recv_of_dst old_map new_map L G d weights p x = Ok p' ∧ planned (x + 1) rl' p'.
Proof.
  intros [Hsh Hhold] Hp Hx. unfold handle_recv_of_dst. destruct (entry new_map x Hnew Hx) as (e & -> & He). destruct (entry old_map x eq_refl Hx) as (o & -> & Ho).
  cbn [mbind res_bind]. case_bool_decide as Eo.
  { subst o. exists rl, p. split; [done|]. eapply planned_unchanged; [done| |done|done]. apply has_local. eauto. }
  unfold local_range. rewrite (res_find_ok (holds_expert old_map e) (λ y, bool_decide (old_map !! Z.to_nat y = Some e))).
  2: { intros y Hy%elem_of_seqZ. apply holds_local; [done|lia]. }
  cbn [mbind res_bind].  destruct (List.find _ _) as [src|] eqn:Ef.
  - apply find_first in Ef as (Hs & Hse & _). apply bool_decide_eq_true in Hse. rewrite !local_slot_ok by lia. cbn [mbind res_bind].
    destruct Hsh as [Hlw Hfw] eqn:E. clear E. rewrite Hlw.
    destruct (copy_tensors_ok W T L (pl_temp p) weights (slot_of x) (slot_of src) (pd_shape _ _ _ Hp) (conj Hlw Hfw)) as (temp & -> & Hsh' & Hkeep & Hset); [apply slot_of_lt; lia..|].
    cbn [mbind res_bind]. exists rl. eexists. split; [done|]. assert (Hh : has old_map d e) by (apply has_local; eauto).
    eapply planned_copy; [done|done| |lia|lia|done|done|].
    + intros y e' Hy. apply Hkeep. intros E. apply slot_of_inj in E; lia.
    + left. split; [done|]. apply Hset. apply Hhold; [lia|done].
  - assert (Hnone : ∀ y, d * L ≤ y < d * L + L → old_map !! Z.to_nat y ≠ Some e).
    { intros y Hy. pose proof (find_None_seqZ _ _ _ y Ef Hy) as Hf. by apply bool_decide_eq_false in Hf. }
    assert (Hneeds : needs d e).
    { split; [apply has_local; eauto|]. intros (y & Hy & Hye)%has_local. by apply (Hnone y). }
    rewrite (res_find_ok (holds_expert new_map e) (λ y, bool_decide (new_map !! Z.to_nat y = Some e))).
    2: { intros y Hy%elem_of_seqZ. apply holds_local; [exact Hnew|lia]. }
    clear Ef. cbn [mbind res_bind]. destruct (List.find _ _) as [src|] eqn:Ef2.
    + apply find_first in Ef2 as (Hs & Hse & Hsf). apply bool_decide_eq_true in Hse. exists rl. eexists. split; [done|].
      destruct (pd_all _ _ _ Hp src e ltac:(lia) Hse Hneeds) as (b & s & Hin). destruct (pd_recv _ _ _ Hp _ _ _ Hin) as (_ & _ & Hb & Hbe & Hbf).
      assert (b = src) as ->.
      { destruct (Z.lt_total b src) as [Hlt|[->|Hlt]]; [|done|]; [|exfalso; by apply (Hbf src); [lia|]].
        specialize (Hsf b ltac:(lia)). by apply bool_decide_eq_false in Hsf. }
      eapply planned_copy; [done|by apply Hp|done|lia|lia|done|done|]. right. split; [done|eauto].
    + rewrite compute_comm_info_ok by done. cbn [mbind res_bind].
      destruct (chosen_ok old_map new_map L G HL HG Hnew d e Hneeds) as (s & Hch & Hhas & _).
      { assert (He' : e ∈ old_map) by (apply Hsrc; by eapply list_elem_of_lookup_2). apply list_elem_of_lookup in He' as [k Hk].
        exists (Z.of_nat k / L). exists (Z.of_nat k). rewrite Nat2Z.id. split_and!; [done|lia|done]. }
      unfold chosen in Hch. rewrite Hch. cbn [mbind res_bind]. unfold create_p2p_recv. rewrite recv_ops_ok by lia. cbn [mbind res_bind].
      exists (rl ++ [(e, x, s)]). eexists. split; [done|]. rewrite (proj1 Hsh). apply planned_recv; [done|lia|done|done|done|].
      intros y Hy Hye. pose proof (find_None_seqZ _ _ _ y Ef2) as Hf. apply bool_decide_eq_false in Hf; [done|lia].
Qed.

Lemma handle_recv_from weights : holding old_map weights → ∀ n x rl p, d * L ≤ x → x + Z.of_nat n = d * L + L → planned x rl p →
  ∃ rl' p', res_fold (handle_recv_of_dst old_map new_map L G d weights) p (seqZ x (Z.of_nat n)) = Ok p' ∧ planned (d * L + L) rl' p'.
Proof.
  intros Hw. induction n as [|n IH]; intros x rl p Hx Hn Hp.
  - rewrite seqZ_nil by lia. exists rl, p. split; [done|]. by replace (d * L + L) with x by lia.
  - rewrite seqZ_cons by lia. cbn [res_fold]. destruct (handle_recv_step weights x rl p Hw Hp ltac:(lia)) as (rl1 & p1 & -> & Hp1). cbn [mbind res_bind].
    replace (Z.pred (Z.of_nat (S n))) with (Z.of_nat n) by lia. apply (IH (Z.succ x) rl1); [lia|lia|]. by replace (Z.succ x) with (x + 1) by lia.
Qed.

Lemma handle_recv_ok weights temp : holding old_map weights → shape temp →
  ∃ rl p, handle_recv old_map new_map L G d weights temp = Ok p ∧ planned (d * L + L) rl p.
Proof.
  intros Hw Ht. unfold handle_recv, local_range.
  destruct (handle_recv_from weights Hw (Z.to_nat L) (d * L) [] (mkPlan temp [] [])) as (rl & p & E & Hp); [lia|lia| |].
  { split; cbn [pl_temp pl_copies pl_ops]; try done; try (by intros; lia); [constructor|set_solver|set_solver]. }
  rewrite Z2Nat.id in E by lia. by exists rl, p.
Qed.

(** ** Sends *)

Lemma has_range m r e : length m = length old_map → has m r e → 0 ≤ r < Z.of_nat R.
Proof.
  intros Hm (x & <- & H0 & Hx). apply lookup_lt_Some in Hx. unfold zlen in Hold. split; [apply Z.div_pos; lia|]. apply Z.div_lt_upper_bound; lia.
Qed.

Definition send_ops (src : Z) (dsts : list Z) : list P2POp := concat (map (λ p, map (λ i, isend i (slot_of src) p) (seq 0 T)) dsts).

Lemma isend_ops_of_ok e src : d * L ≤ src < d * L + L → old_map !! Z.to_nat src = Some e →
  ∃ dsts, isend_ops_of old_map new_map L G d T e src = Ok (send_ops src dsts) ∧ NoDup dsts ∧ ∀ p, p ∈ dsts ↔ needs p e ∧ chosen p e = Ok d.
Proof.
  intros Hs He. assert (Hh : has old_map d e) by (apply has_local; eauto). unfold isend_ops_of. rewrite compute_comm_info_ok by done. cbn [mbind res_bind].
  destruct (receivers_ok old_map new_map L G HL HG Hnew d e Hh) as (l1 & l2 & -> & H2 & Hnd & Hmem). cbn [mbind res_bind]. rewrite H2. cbn [mbind res_bind].
  exists (l1 ++ l2). split; [|done]. rewrite (res_map_ok _ (λ '(p, i), isend i (slot_of src) p)).
  - f_equal. unfold send_ops. rewrite concat_map, map_map. f_equal. apply map_ext. intros p. by rewrite map_map.
  - intros [p i] _. by rewrite local_slot_ok.
Qed.

(** The sends when the locations below [x] are done: the experts, where they lie and to whom they go. *)
Record sending (x : Z) (sl : list (Z * Z * list Z)) (st : list Z * list (Z * list P2POp)) : Prop := {
  se_infos : st.2 = map (λ '(e, src, dsts), (e, send_ops src dsts)) sl;
  se_handled e : e ∈ st.1 ↔ e ∈ map (λ t : Z * Z * list Z, t.1.1) sl;
  se_keys : NoDup (map (λ t : Z * Z * list Z, t.1.1) sl);
  se_send e src dsts : (e, src, dsts) ∈ sl → d * L ≤ src < d * L + L ∧ old_map !! Z.to_nat src = Some e
    ∧ NoDup dsts ∧ ∀ p, p ∈ dsts ↔ needs p e ∧ chosen p e = Ok d;
  se_all y e : d * L ≤ y < x → old_map !! Z.to_nat y = Some e → e ∈ map (λ t : Z * Z * list Z, t.1.1) sl
}.

Lemma create_isend_from : ∀ n x sl st, d * L ≤ x → x + Z.of_nat n = d * L + L → sending x sl st →
  ∃ sl' st', res_fold (λ '(handled, infos) src,
         e ← py_item old_map src;
         if bool_decide (e ∈ handled) then Ok (handled, infos)
         else ops ← isend_ops_of old_map new_map L G d T e src; Ok (e :: handled, infos ++ [(e, ops)])) st (seqZ x (Z.of_nat n)) = Ok st'
    ∧ sending (d * L + L) sl' st'.
Proof.
  induction n as [|n IH]; intros x sl [handled infos] Hx Hn Hst.
  - rewrite seqZ_nil by lia. exists sl, (handled, infos). split; [done|]. by replace (d * L + L) with x by lia.
  - rewrite seqZ_cons by lia. cbn [res_fold]. destruct (entry old_map x eq_refl ltac:(lia)) as (e & -> & He). cbn [mbind res_bind].
    replace (Z.pred (Z.of_nat (S n))) with (Z.of_nat n) by lia. destruct Hst as [S1 S2 S3 S4 S5]. cbn [fst snd] in *. case_bool_decide as Hin; cbn [mbind res_bind].
    + apply (IH (Z.succ x) sl); [lia|lia|]. split; cbn [fst snd]; try done. intros y e' Hy Hye. destruct (decide (y = x)) as [->|]; [|apply (S5 y); [lia|done]].
      simplify_eq. by apply S2.
    + destruct (isend_ops_of_ok e x ltac:(lia) He) as (dsts & -> & Hnd & Hmem). cbn [mbind res_bind].
      apply (IH (Z.succ x) (sl ++ [(e, x, dsts)])); [lia|lia|]. split; cbn [fst snd].
      * by rewrite map_app, S1.
      * intros e'. rewrite map_app, elem_of_cons, elem_of_app, S2. cbn. rewrite list_elem_of_singleton. tauto.
      * rewrite map_app. apply NoDup_app. split; [done|]. split; [|apply NoDup_singleton]. intros e' He' ->%list_elem_of_singleton. by apply Hin, S2.
      * intros e' src dsts' [Hi|Hi%list_elem_of_singleton]%elem_of_app; [by apply S4|]. simplify_eq. split_and!; [lia|lia|done|done|done].
      * intros y e' Hy Hye. rewrite map_app, elem_of_app. destruct (decide (y = x)) as [->|]; [right; simplify_eq; cbn; set_solver|left; apply (S5 y); [lia|done]].
Qed.

Lemma create_isend_ok : ∃ sl st, create_isend_ops old_map new_map L G d T = Ok st.2 ∧ sending (d * L + L) sl st.
Proof.
  unfold create_isend_ops, local_range. destruct (create_isend_from (Z.to_nat L) (d * L) [] ([], [])) as (sl & st & E & Hs); [lia|lia| |].
  { split; cbn; try done; try (by intros; lia); [constructor|set_solver]. }
  rewrite Z2Nat.id in E by lia. exists sl, st. rewrite E. done.
Qed.

(** ** The active ranks *)

Context (HT : (0 < T)%nat) (act : Z → bool).

(** The state of elastic expert parallelism says that the ranks in [act] are active. *)
Definition elastic_view (elastic : option (list bool)) : Prop :=
  match elastic with
  | None => ∀ r, 0 ≤ r < Z.of_nat R → act r = true
  | Some l => length l = R ∧ ∀ r, 0 ≤ r < Z.of_nat R → l !! Z.to_nat r = Some (act r)
  end.

Definition recv_info (t : Z * Z * Z) : Z * list P2POp := (t.1.1, if act t.2 then recv_ops t.1.2 t.2 else []).
Definition send_info (t : Z * Z * list Z) : Z * list P2POp := (t.1.1, send_ops t.1.2 (List.filter act t.2)).
Definition missing_of (rl : list (Z * Z * Z)) : list Z := map (λ t : Z * Z * Z, t.1.1) (List.filter (λ t : Z * Z * Z, negb (act t.2)) rl).

Lemma rank_active_ok l r : elastic_view (Some l) → 0 ≤ r < Z.of_nat R → rank_active l r = Ok (act r).
Proof. intros [_ Hl] Hr. unfold rank_active, py_get. rewrite bool_decide_true by lia. by rewrite Hl. Qed.

Lemma existsb_map_const {A B} (f : A → B) (p : B → bool) c l : (∀ x, p (f x) = c) → l ≠ [] → existsb p (map f l) = c.
Proof.
  intros Hp. induction l as [|x l IH]; [done|]. intros _. cbn. rewrite Hp. destruct l as [|y l]; [by destruct c|]. rewrite IH by done. by destruct c.
Qed.

Lemma seq_T : seq 0 T ≠ [].
Proof. destruct T; [lia|done]. Qed.

Lemma filter_recv l e b s : elastic_view (Some l) → 0 ≤ s < Z.of_nat R →
  filter_info l (e, recv_ops b s) = Ok (recv_info (e, b, s), missing_of [(e, b, s)]).
Proof.
  intros Hv Hs. unfold filter_info.
  replace (existsb is_isend (recv_ops b s)) with false by (symmetry; apply existsb_map_const; [done|apply seq_T]).
  replace (existsb is_irecv (recv_ops b s)) with true by (symmetry; apply existsb_map_const; [done|apply seq_T]). cbn [andb negb py_assert mbind res_bind].
  rewrite (res_find_ok _ (λ op, negb (act s))).
  2: { intros op (i & -> & _)%list_elem_of_fmap. cbn [op_peer]. by rewrite (rank_active_ok l). }
  cbn [mbind res_bind]. unfold missing_of, recv_info. cbn [List.filter map fst snd]. destruct (act s) eqn:Ea; cbn [negb].
  - assert (Hn : ∀ ops : list P2POp, List.find (λ _, false) ops = None) by (by induction ops). by rewrite Hn.
  - unfold recv_ops. pose proof seq_T as Hq. destruct (seq 0 T); [done|]. cbn [map List.find fst]. done.
Qed.

Lemma filter_send_ops src dsts : List.filter (λ op, act (op_peer op)) (send_ops src dsts) = send_ops src (List.filter act dsts).
Proof.
  unfold send_ops. induction dsts as [|p dsts IH]; [done|]. cbn [map concat List.filter]. rewrite List.filter_app, IH.
  assert (Hf : ∀ l, List.filter (λ op, act (op_peer op)) (map (λ i, isend i (slot_of src) p) l) = if act p then map (λ i, isend i (slot_of src) p) l else []).
  { induction l as [|i l IHl]; cbn; [by destruct (act p)|]. rewrite IHl. by destruct (act p). }
  rewrite Hf. by destruct (act p).
Qed.

Lemma filter_send l e src dsts : elastic_view (Some l) → Forall (λ p, 0 ≤ p < Z.of_nat R) dsts →
  filter_info l (e, send_ops src dsts) = Ok (send_info (e, src, dsts), []).
Proof.
  intros Hv Hd'. unfold filter_info, send_info. cbn [fst snd].
  assert (Hno : existsb is_irecv (send_ops src dsts) = false).
  { apply not_true_is_false. intros (op & Hop & Hr)%existsb_exists. apply list_elem_of_In in Hop. unfold send_ops in Hop.
    apply list_elem_of_In, in_concat in Hop as (ops & Hops & Hop). apply in_map_iff in Hops as (p & <- & _). by apply in_map_iff in Hop as (i & <- & _). }
  rewrite Hno, andb_false_r. cbn [negb py_assert mbind res_bind]. destruct (existsb is_isend _) eqn:Ei.
  - rewrite (res_filter_ok _ (λ op, act (op_peer op))); [by rewrite filter_send_ops|].
    intros op Hop. apply list_elem_of_In in Hop. unfold send_ops in Hop. apply in_concat in Hop as (ops & Hops & Hop). apply in_map_iff in Hops as (p & <- & Hp).
    apply in_map_iff in Hop as (i & <- & _). cbn [op_peer]. apply rank_active_ok; [done|]. apply (proj1 (Forall_forall _ _) Hd'). by apply list_elem_of_In.
  - rewrite <- filter_send_ops. destruct (send_ops src dsts) as [|op ops] eqn:Eo; [done|]. exfalso.
    assert (Hop : In op (send_ops src dsts)) by (rewrite Eo; by left). unfold send_ops in Hop. apply in_concat in Hop as (l' & Hl' & Hop).
    apply in_map_iff in Hl' as (p & <- & _). apply in_map_iff in Hop as (i & <- & _). cbn in Ei. done.
Qed.

Lemma chosen_range e s : needs d e → chosen d e = Ok s → 0 ≤ s < Z.of_nat R ∧ has old_map s e.
Proof.
  intros Hn Hc. destruct (chosen_ok old_map new_map L G HL HG Hnew d e Hn) as (s' & Hs' & Hh & _).
  - destruct Hn as [(x & _ & _ & Hx) _]. assert (He : e ∈ old_map) by (apply Hsrc; by eapply list_elem_of_lookup_2).
    apply list_elem_of_lookup in He as [k Hk]. exists (Z.of_nat k / L), (Z.of_nat k). rewrite Nat2Z.id. split_and!; [done|lia|done].
  - rewrite Hc in Hs'. inversion Hs'; subst s'. split; [|done]. exact (has_range old_map s e eq_refl Hh).
Qed.

Lemma missing_concat rl : concat (map (λ t, missing_of [t]) rl) = missing_of rl.
Proof.
  induction rl as [|t rl IH]; [done|]. cbn [map concat]. rewrite IH. unfold missing_of. cbn [List.filter]. by destruct (act t.2).
Qed.

Lemma filter_p2p_ok elastic x y rl p sl st : elastic_view elastic → planned x rl p → sending y sl st →
  filter_p2p_ops elastic (pl_ops p ++ st.2) = Ok (map recv_info rl ++ map send_info sl, missing_of rl).
Proof.
  intros Hv Hp Hs. rewrite (pd_ops _ _ _ Hp), (se_infos _ _ _ Hs). unfold filter_p2p_ops.
  assert (Hrl : ∀ t, t ∈ rl → 0 ≤ t.2 < Z.of_nat R).
  { intros [[e b] s] Ht. destruct (pd_recv _ _ _ Hp _ _ _ Ht) as (Hn & Hc & _). by apply (chosen_range e). }
  assert (Hsl : ∀ t, t ∈ sl → Forall (λ p, 0 ≤ p < Z.of_nat R) t.2).
  { intros [[e src] dsts] Ht. destruct (se_send _ _ _ Hs _ _ _ Ht) as (_ & _ & _ & Hm). apply Forall_forall. intros q Hq. apply Hm in Hq as [[Hh _] _].
    exact (has_range new_map q e Hnew Hh). }
  destruct elastic as [l|].
  - assert (E1 : res_map (filter_info l) (map (λ '(e, b, s), (e, recv_ops b s)) rl ++ map (λ '(e, src, dsts), (e, send_ops src dsts)) sl)
      = Ok (map (λ t, (recv_info t, missing_of [t])) rl ++ map (λ t, (send_info t, [])) sl)).
    { clear Hp Hs. induction rl as [|[[e b] s] rl' IH]; cbn [map app res_map].
      - induction sl as [|[[e src] dsts] sl' IHs]; cbn [map res_map]; [done|]. rewrite filter_send; [|done|by apply (Hsl (e, src, dsts)); left].
        cbn [mbind res_bind]. rewrite IHs; [done|]. intros t Ht. apply Hsl. by right.
      - rewrite filter_recv; [|done|by apply (Hrl (e, b, s)); left]. cbn [mbind res_bind]. rewrite IH; [done|]. intros t Ht. apply Hrl. by right. }
    rewrite E1. cbn [mbind res_bind]. f_equal. rewrite !map_app, !map_map. cbn [fst snd]. f_equal. rewrite concat_app.
    replace (concat (map (λ _ : Z * Z * list Z, []) sl)) with (@nil Z) by (by clear; induction sl). rewrite app_nil_r. apply missing_concat.
  - f_equal. f_equal.
    + f_equal.
      * apply map_ext_in. intros [[e b] s] Ht%list_elem_of_In. unfold recv_info. cbn [fst snd]. by rewrite (Hv s (Hrl _ Ht)).
      * apply map_ext_in. intros [[e src] dsts] Ht%list_elem_of_In. unfold send_info. cbn [fst snd]. f_equal. f_equal. symmetry.
        apply List.forallb_filter_id, forallb_forall. intros q Hq%list_elem_of_In. apply Hv. exact (proj1 (Forall_forall _ _) (Hsl _ Ht) q Hq).
    + unfold missing_of. assert (Ef : List.filter (λ t : Z * Z * Z, negb (act t.2)) rl = []); [|by rewrite Ef].
      clear Hp. induction rl as [|t rl' IH]; [done|]. cbn [List.filter]. rewrite (Hv t.2) by (apply Hrl; by left). cbn [negb]. apply IH. intros t' Ht'. apply Hrl. by right.
Qed.

(** The plan of a rank. *)
Lemma plan_rank_ok elastic weights temp : elastic_view elastic → holding old_map weights → shape temp →
  ∃ rl sl ops st rp, plan_rank old_map new_map L G d elastic weights temp = Ok rp
    ∧ planned (d * L + L) rl (mkPlan (rp_temp rp) (rp_copies rp) ops) ∧ sending (d * L + L) sl st
    ∧ rp_ops rp = ordered_ops (map recv_info rl ++ map send_info sl) ∧ rp_missing rp = missing_of rl.
Proof.
  intros Hv Hw Ht. unfold plan_rank. pose proof Hw as [[Hl Hf] _].
  replace (forallb _ weights) with true.
  2: { symmetry. apply forallb_forall. intros t Hin. apply bool_decide_eq_true. apply list_elem_of_In in Hin.
       pose proof (proj1 (Forall_forall _ _) Hf t Hin) as Htl. cbn in Htl. unfold zlen. lia. }
  cbn [py_assert mbind res_bind]. rewrite int_div_ok by done. cbn [mbind res_bind].
  destruct (handle_recv_ok weights temp Hw Ht) as (rl & p & -> & Hp). cbn [mbind res_bind]. rewrite Hl.
  destruct create_isend_ok as (sl & st & -> & Hs). cbn [mbind res_bind]. rewrite (filter_p2p_ok elastic _ _ rl p sl st Hv Hp Hs). cbn [mbind res_bind].
  exists rl, sl, (pl_ops p), st. eexists. split; [done|]. cbn [rp_temp rp_copies rp_ops rp_missing]. by destruct p.
Qed.

End rank_plan.
