(* ===== verification/ExpertMove.v ===== *)
(** * Moving experts: the exchange

    The plans of all ranks together: the sends of one rank to another are the receives of the other from it, in
    the same order, so that the exchange ends and every received value lands in the buffer of its expert; after
    the copies every slot holds the expert of the new map. *)

From S2P Require Import Prelude RadixKey ExpertBalance ExpertProps ExpertPlace ExpertUpdate ExpertChunk ExpertPlan.

(** The receives of a list of operations: tensor, slot and peer. *)
Definition recvs (ops : list P2POp) : list (nat * nat * Z) :=
  omap (λ op, match op with irecv i slot p => Some (i, slot, p) | isend _ _ _ => None end) ops.
Definition recvs_from (s : Z) (ops : list P2POp) : list (nat * nat * Z) := List.filter (λ r, bool_decide (r.2 = s)) (recvs ops).

Lemma recvs_from_app s a b : recvs_from s (a ++ b) = recvs_from s a ++ recvs_from s b.
Proof. unfold recvs_from, recvs. by rewrite omap_app, List.filter_app. Qed.

Section messages.
Context {V : Type} (W : Z → nat → V) (T : nat) (HT : (0 < T)%nat) (L : Z) (r : Z) (old_map : list Z) (act : Z → bool).

(** The expert in a slot of rank [r]. *)
Definition expert_at (m : list Z) (slot : nat) : Z := default 0 (m !! Z.to_nat (r * L + Z.of_nat slot)).

Definition msg_of (op : P2POp) : Msg V :=
  match op with isend i slot p => Send (W (expert_at old_map slot) i) p | irecv _ _ p => Recv p end.

Lemma recv_peers_msg ops : recv_peers (map msg_of ops) = map (λ t : nat * nat * Z, t.2) (recvs ops).
Proof. unfold recv_peers, recvs. induction ops as [|[i k p|i k p] ops IH]; cbn; [done|done|]. by rewrite IH. Qed.

Lemma sent_app (q : Z) (a b : list (Msg V)) : sent q (a ++ b) = sent q a ++ sent q b.
Proof. apply omap_app. Qed.

(** The values of an expert. *)
Definition values (e : Z) : list V := map (W e) (seq 0 T).

Notation send_info := (send_info T L r act).
Notation recv_info := (recv_info T L r act).
Notation recv_ops := (recv_ops T L r).
Notation send_ops := (send_ops T L r).

Lemma expert_at_slot m x e : 0 ≤ r * L ≤ x → m !! Z.to_nat x = Some e → expert_at m (slot_of L r x) = e.
Proof. intros Hx He. unfold expert_at, slot_of. rewrite Z2Nat.id by lia. replace (r * L + (x - r * L)) with x by lia. by rewrite He. Qed.

Lemma sent_block q slot p l : sent q (map msg_of (map (λ i, isend i slot p) l)) =
  if bool_decide (p = q) then map (W (expert_at old_map slot)) l else [].
Proof.
  induction l as [|i l IH]; [by destruct (bool_decide (p = q))|].
  change (sent q (map msg_of (map (λ i, isend i slot p) (i :: l))))
    with (match (if bool_decide (p = q) then Some (W (expert_at old_map slot) i) else None) with
          | Some v => v :: sent q (map msg_of (map (λ i, isend i slot p) l)) | None => sent q (map msg_of (map (λ i, isend i slot p) l)) end).
  rewrite IH. by destruct (bool_decide (p = q)).
Qed.

Lemma sent_send_ops q src dsts e : 0 ≤ r * L ≤ src → old_map !! Z.to_nat src = Some e → NoDup dsts →
  sent q (map msg_of (send_ops src dsts)) = if bool_decide (q ∈ dsts) then values e else [].
Proof.
  intros Hs He. unfold ExpertPlan.send_ops. induction dsts as [|p dsts IH]; cbn [map concat]; [done|].
  intros [Hp Hnd]%NoDup_cons. rewrite map_app, sent_app, sent_block, IH by done. rewrite (expert_at_slot _ _ _ Hs He).
  destruct (decide (p = q)) as [->|Hne].
  - rewrite bool_decide_true by done. rewrite bool_decide_false by done. rewrite bool_decide_true by set_solver. by rewrite app_nil_r.
  - rewrite (bool_decide_false (p = q)) by done. cbn [app]. rewrite (bool_decide_ext (q ∈ p :: dsts) (q ∈ dsts)) by set_solver. done.
Qed.

Lemma sent_recv_ops q b s : sent q (map msg_of (recv_ops b s)) = [].
Proof. unfold ExpertPlan.recv_ops, sent. induction (seq 0 T); cbn; done. Qed.

Lemma recvs_send_ops s src dsts : recvs_from s (send_ops src dsts) = [].
Proof.
  unfold ExpertPlan.send_ops. induction dsts as [|p dsts IH]; [done|]. cbn [map concat]. rewrite recvs_from_app, IH, app_nil_r.
  clear IH. induction (seq 0 T) as [|i l IHl]; [done|exact IHl].
Qed.

Lemma recvs_recv_ops s b s' : recvs_from s (recv_ops b s') = if bool_decide (s' = s) then map (λ i, (i, slot_of L r b, s)) (seq 0 T) else [].
Proof.
  unfold ExpertPlan.recv_ops. induction (seq 0 T) as [|i l IH]; [by destruct (bool_decide (s' = s))|].
  change (recvs_from s (map (λ i, irecv i (slot_of L r b) s') (i :: l)))
    with (if bool_decide (s' = s) then (i, slot_of L r b, s') :: recvs_from s (map (λ i, irecv i (slot_of L r b) s') l)
          else recvs_from s (map (λ i, irecv i (slot_of L r b) s') l)).
  rewrite IH. case_bool_decide; [by subst|done].
Qed.

(** What an information is for: a send to [q], or a receive from [s]. *)
Definition sends_to (q : Z) (info : Z * list P2POp) : bool := negb (bool_decide (sent q (map msg_of info.2) = [])).
Definition receives_from (s : Z) (info : Z * list P2POp) : bool := negb (bool_decide (recvs_from s info.2 = [])).

Lemma concat_filter {A B} (f : A → list B) (p : A → bool) l : (∀ x, p x = false → f x = []) → concat (map f l) = concat (map f (List.filter p l)).
Proof.
  intros Hp. induction l as [|x l IH]; [done|]. cbn [map concat List.filter]. destruct (p x) eqn:E; cbn [map concat]; rewrite IH; [done|]. by rewrite (Hp x E).
Qed.

End messages.

(** ** Reception *)

Section receive.
Context {V : Type} (W : Z → nat → V) (T : nat) (L : Z) (nv : nat → Z).

Lemma lookup_cell_insert (w : list (list V)) i k v t i' k' :
  w !! i = Some t → (k < length t)%nat →
  <[i := <[k := v]> t]> w !! i' ≫= (.!! k') = if bool_decide (i' = i ∧ k' = k) then Some v else w !! i' ≫= (.!! k').
Proof.
  intros Hi Hk. pose proof (lookup_lt_Some _ _ _ Hi). destruct (decide (i' = i)) as [->|Hne].
  - rewrite list_lookup_insert_eq by done. cbn. destruct (decide (k' = k)) as [->|Hnk].
    + rewrite list_lookup_insert_eq by done. by rewrite bool_decide_true.
    + rewrite list_lookup_insert_ne by done. rewrite bool_decide_false by tauto. by rewrite Hi.
  - rewrite list_lookup_insert_ne by done. by rewrite bool_decide_false by tauto.
Qed.

(** If every value received for a slot belongs to the expert [nv] of the slot, the buffers that already hold their
    expert keep it, and the buffers that are received hold theirs. *)
Lemma receive_ok ops : ∀ (temp : list (list V)) got,
  shape T L temp → length got = length (recvs ops) →
  Forall (λ t : nat * nat * Z, (t.1.1 < T)%nat ∧ (t.1.2 < Z.to_nat L)%nat) (recvs ops) →
  (∀ i k p v, ((i, k, p), v) ∈ zip (recvs ops) got → v = W (nv k) i) →
  ∃ temp', receive temp ops got = Ok temp' ∧ shape T L temp'
    ∧ ∀ i k, (temp' !! i ≫= (.!! k) = temp !! i ≫= (.!! k) ∨ temp' !! i ≫= (.!! k) = Some (W (nv k) i))
        ∧ ((∃ p, (i, k, p) ∈ recvs ops) → temp' !! i ≫= (.!! k) = Some (W (nv k) i)).
Proof.
  induction ops as [|[i k p|i k p] ops IH]; intros temp got Hsh Hlen Hr Hgood; cbn [receive].
  - exists temp. split; [done|]. split; [done|]. intros i k. split; [by left|]. intros [p Hp]. cbn in Hp. set_solver.
  - by apply IH.
  - change (recvs (irecv i k p :: ops)) with ((i, k, p) :: recvs ops) in *. destruct got as [|v got]; [done|].
    apply Forall_cons in Hr as [[Hi Hk] Hr]. cbn [fst snd] in Hi, Hk. destruct Hsh as [Hl Hf]. destruct (lookup_lt_is_Some_2 temp i ltac:(lia)) as [t Ht]. rewrite Ht.
    pose proof (Forall_lookup_1 _ _ _ _ Hf Ht) as Htl. cbn in Htl. assert (Hv : v = W (nv k) i) by (apply (Hgood i k p); by left).
    destruct (IH (<[i := <[k := v]> t]> temp) got) as (temp' & E & Hsh' & Hcell); [by apply shape_insert; [|rewrite length_insert]|by inversion Hlen|done| |].
    { intros i' k' p' v' Hin. apply (Hgood i' k' p'). by right. }
    exists temp'. split; [exact E|]. split; [done|]. intros i' k'. destruct (Hcell i' k') as [Hc1 Hc2].
    rewrite (lookup_cell_insert _ _ _ _ _ _ _ Ht) in Hc1 by lia. split.
    + case_bool_decide as Eik; [|done]. destruct Eik as [-> ->]. right. destruct Hc1 as [->|Hc1]; [by rewrite Hv|done].
    + intros [p' [Heq|Hin]%elem_of_cons]; [|apply Hc2; eauto]. simplify_eq. rewrite bool_decide_true in Hc1 by done. destruct Hc1 as [->|Hc1]; done.
Qed.

(** In terms of slots. *)
Lemma receive_slots ops temp temp' :
  (∀ i k, (temp' !! i ≫= (.!! k) = temp !! i ≫= (.!! k) ∨ temp' !! i ≫= (.!! k) = Some (W (nv k) i))
        ∧ ((∃ p, (i, k, p) ∈ recvs ops) → temp' !! i ≫= (.!! k) = Some (W (nv k) i))) →
  (∀ k, slot_is W T temp k (nv k) → slot_is W T temp' k (nv k))
  ∧ (∀ k, (∀ i, (i < T)%nat → ∃ p, (i, k, p) ∈ recvs ops) → slot_is W T temp' k (nv k)).
Proof.
  intros Hcell. split.
  - intros k Hs i Hi. destruct (Hcell i k) as [[->|Hc] _]; [by apply Hs|done].
  - intros k Hs i Hi. destruct (Hcell i k) as [_ Hc]. by apply Hc, Hs.
Qed.

End receive.

(** ** Sorting by expert *)

Lemma py_sort_map {A B} (R : relation A) (Q : relation B) `{!RelDecision R, !RelDecision Q} (f : A → B) l :
  (∀ x y, Q (f x) (f y) ↔ R x y) → py_sort Q (map f l) = map f (py_sort R l).
Proof.
  intros Hf. assert (Hins : ∀ x k, py_insert Q (f x) (map f k) = map f (py_insert R x k)).
  { intros x k. induction k as [|y k IH]; [done|]. cbn [map py_insert]. destruct (decide (R x y)), (decide (Q (f x) (f y))); try done; try (by exfalso; naive_solver).
    cbn [map]. by rewrite IH. }
  induction l as [|x l IH]; [done|]. cbn [map py_sort]. by rewrite IH, Hins.
Qed.

Section omap_keys.
Context {A B : Type} (k : A → Z) (k' : B → Z) (f : A → option B) (Hf : ∀ x y, f x = Some y → k' y = k x).

Lemma omap_key_in l e : e ∈ map k' (omap f l) → e ∈ map k l.
Proof.
  intros (y & -> & Hy)%list_elem_of_fmap. apply list_elem_of_omap in Hy as (x & Hx & E). rewrite (Hf x y E). apply list_elem_of_fmap. eauto.
Qed.

Lemma NoDup_omap_keys l : NoDup (map k l) → NoDup (map k' (omap f l)).
Proof.
  induction l as [|x l IH]; [constructor|]. cbn [map]. intros [Hx Hnd]%NoDup_cons. cbn. destruct (f x) as [y|] eqn:E; [|by apply IH].
  cbn [map]. constructor; [|by apply IH]. rewrite (Hf x y E). intros Hin%omap_key_in. done.
Qed.

Lemma sorted_omap_keys l : StronglySorted (λ a b, k a ≤ k b) l → StronglySorted Z.le (map k' (omap f l)).
Proof.
  induction 1 as [|x l Hl IH Hx]; [constructor|]. cbn. destruct (f x) as [y|] eqn:E; [|done]. cbn [map]. constructor; [done|].
  apply Forall_forall. intros e He%omap_key_in. rewrite (Hf x y E). apply list_elem_of_fmap in He as (z & -> & Hz). by apply (proj1 (Forall_forall _ _) Hx).
Qed.

End omap_keys.

(** ** The traffic of a rank *)

Section traffic.
Context {V : Type} (W : Z → nat → V) (T : nat) (L G : Z) (R : nat) (old_map new_map : list Z).
Context (HL : 0 < L) (HG : 0 < G) (Hold : zlen old_map = Z.of_nat R * L) (Hnew : length new_map = length old_map)
  (Hsrc : ∀ e, e ∈ new_map → e ∈ old_map) (HT : (0 < T)%nat) (act : Z → bool).
Context (r : Z) (Hr : 0 ≤ r < Z.of_nat R).

Notation needs := (needs old_map new_map L).
Notation chosen := (chosen old_map new_map L G).
Notation recv_info := (recv_info T L r act).
Notation send_info := (send_info T L r act).
Notation msg_of := (msg_of W L r old_map).

(** The tasks of a rank, in the order in which they are handed over. *)
Definition task : Type := (Z * Z * Z) + (Z * Z * list Z).
Definition task_key (t : task) : Z := match t with inl t => t.1.1 | inr t => t.1.1 end.
Definition task_info (t : task) : Z * list P2POp := match t with inl t => recv_info t | inr t => send_info t end.
Definition task_le (a b : task) : Prop := task_key a ≤ task_key b.
#[local] Instance task_le_dec : RelDecision task_le.
Proof. intros a b. unfold task_le. apply _. Defined.
#[local] Instance task_le_total : Total task_le.
Proof. intros a b. unfold task_le. lia. Qed.
#[local] Instance task_le_trans : Transitive task_le.
Proof. intros a b c. unfold task_le. lia. Qed.

Definition tasks (rl : list (Z * Z * Z)) (sl : list (Z * Z * list Z)) : list task := py_sort task_le (map inl rl ++ map inr sl).

Lemma ordered_tasks rl sl : ordered_ops (map recv_info rl ++ map send_info sl) = concat (map snd (map task_info (tasks rl sl))).
Proof.
  unfold ordered_ops, tasks. do 2 f_equal. rewrite <- (py_sort_map task_le by_expert task_info).
  - f_equal. by rewrite map_app, !map_map.
  - intros [t|t] [u|u]; done.
Qed.

Definition recv_task (s : Z) (t : task) : option (Z * Z) :=
  match t with inl t => if bool_decide (t.2 = s) && act s then Some (t.1.1, t.1.2) else None | inr _ => None end.
Definition send_task (q : Z) (t : task) : option Z :=
  match t with inl _ => None | inr t => if bool_decide (q ∈ t.2) && act q then Some t.1.1 else None end.

(** What the receives from [s] look like. *)
Definition block (s : Z) (eb : Z * Z) : list (nat * nat * Z) := map (λ i, (i, slot_of L r eb.2, s)) (seq 0 T).

Lemma recvs_tasks s ts : recvs_from s (concat (map snd (map task_info ts))) = concat (map (block s) (omap (recv_task s) ts)).
Proof.
  induction ts as [|[[[e b] s']|[[e src] dsts]] ts IH]; [done| |].
  - cbn [map concat task_info]. rewrite recvs_from_app, IH. cbn [omap list_omap recv_task fst snd]. unfold ExpertPlan.recv_info. cbn [fst snd].
    destruct (act s') eqn:Ea.
    + rewrite recvs_recv_ops. case_bool_decide as E; [|done]. subst s'. by rewrite Ea.
    + case_bool_decide as E; [|done]. subst s'. by rewrite Ea.
  - cbn [map concat task_info]. rewrite recvs_from_app, IH. cbn [omap list_omap recv_task]. unfold ExpertPlan.send_info. cbn [fst snd]. by rewrite recvs_send_ops.
Qed.

Lemma sent_tasks q x sl st ts : sending T L G old_map new_map r x sl st → (∀ t, inr t ∈ ts → t ∈ sl) →
  sent q (map msg_of (concat (map snd (map task_info ts)))) = concat (map (values W T) (omap (send_task q) ts)).
Proof.
  intros Hs. induction ts as [|[[[e b] s']|[[e src] dsts]] ts IH]; intros Hin; [done| |].
  - cbn [map concat task_info]. rewrite map_app, sent_app, IH by (intros t Ht; apply Hin; by right). cbn [omap list_omap send_task]. unfold ExpertPlan.recv_info. cbn [fst snd].
    destruct (act s'); [by rewrite sent_recv_ops|done].
  - cbn [map concat task_info]. rewrite map_app, sent_app, IH by (intros t Ht; apply Hin; by right). cbn [omap list_omap send_task fst snd]. unfold ExpertPlan.send_info. cbn [fst snd].
    destruct (se_send _ _ _ _ _ _ _ _ _ Hs e src dsts) as (Hsrc' & He & Hnd & _); [apply Hin; by left|].
    rewrite (sent_send_ops W T HT L r old_map act q src (List.filter act dsts) e); [|nia|done|by apply NoDup_filter_b].
    rewrite (bool_decide_ext (q ∈ List.filter act dsts) (q ∈ dsts ∧ act q = true)) by apply filter_mem.
    destruct (act q); [|rewrite bool_decide_false by naive_solver; by rewrite andb_false_r].
    rewrite (bool_decide_ext (q ∈ dsts ∧ true = true) (q ∈ dsts)) by naive_solver. rewrite andb_true_r. by destruct (bool_decide (q ∈ dsts)).
Qed.

Lemma tasks_perm rl sl : tasks rl sl ≡ₚ map inl rl ++ map inr sl.
Proof. apply py_sort_Permutation. Qed.

Lemma tasks_inl rl sl t : inl t ∈ tasks rl sl ↔ t ∈ rl.
Proof.
  rewrite tasks_perm, elem_of_app, !list_elem_of_fmap. split; [|by left; exists t].
  intros [(t' & [=->] & ?)|(t' & [=] & _)]. done.
Qed.

Lemma tasks_inr rl sl t : inr t ∈ tasks rl sl ↔ t ∈ sl.
Proof.
  rewrite tasks_perm, elem_of_app, !list_elem_of_fmap. split; [|by right; exists t].
  intros [(t' & [=] & _)|(t' & [=->] & ?)]. done.
Qed.

Lemma tasks_sorted rl sl : StronglySorted (λ a b, task_key a ≤ task_key b) (tasks rl sl).
Proof. apply (py_sort_sorted task_le). Qed.

Lemma recv_task_key s x y : recv_task s x = Some y → y.1 = task_key x.
Proof. destruct x as [[[e b] s']|t]; cbn; [|done]. case_bool_decide; cbn; [|done]. destruct (act s); [|done]. by intros [=<-]. Qed.

Lemma send_task_key q x y : send_task q x = Some y → y = task_key x.
Proof. destruct x as [t|[[e src] dsts]]; cbn; [done|]. case_bool_decide; cbn; [|done]. destruct (act q); [|done]. by intros [=<-]. Qed.

(** The keys of the tasks of one kind are distinct. *)
Lemma NoDup_recv_keys s rl sl : NoDup (map (λ t : Z * Z * Z, t.1.1) rl) → NoDup (map fst (omap (recv_task s) (tasks rl sl))).
Proof.
  intros Hnd. rewrite tasks_perm, omap_app. replace (omap (recv_task s) (map inr sl)) with (@nil (Z * Z)) by (by induction sl).
  rewrite app_nil_r. replace (omap (recv_task s) (map inl rl)) with (omap (λ t, recv_task s (inl t)) rl).
  - apply (NoDup_omap_keys (λ t : Z * Z * Z, t.1.1) fst); [|done]. intros x y. apply (recv_task_key s (inl x)).
  - clear. induction rl as [|t rl IH]; [done|]. cbn [map]. cbn [omap list_omap] in *. by rewrite IH.
Qed.

Lemma NoDup_send_keys q rl sl : NoDup (map (λ t : Z * Z * list Z, t.1.1) sl) → NoDup (omap (send_task q) (tasks rl sl)).
Proof.
  intros Hnd. rewrite <- (map_id (omap _ _)). rewrite tasks_perm, omap_app. replace (omap (send_task q) (map inl rl)) with (@nil Z) by (by induction rl).
  cbn [app]. replace (omap (send_task q) (map inr sl)) with (omap (λ t, send_task q (inr t)) sl).
  - apply (NoDup_omap_keys (λ t : Z * Z * list Z, t.1.1) (λ x, x)); [|done]. intros x y. apply (send_task_key q (inr x)).
  - clear. induction sl as [|t sl IH]; [done|]. cbn [map]. cbn [omap list_omap] in *. by rewrite IH.
Qed.

(** The receives of a rank from [s]: the experts it needs for which it chooses [s], in order. *)
Lemma traffic_recv s rl sl p : planned W T L G old_map new_map r (r * L + L) rl p →
  ∃ eb, recvs_from s (ordered_ops (map recv_info rl ++ map send_info sl)) = concat (map (block s) eb)
    ∧ StronglySorted Z.le (map fst eb) ∧ NoDup (map fst eb)
    ∧ (∀ e b, (e, b) ∈ eb ↔ act s = true ∧ (e, b, s) ∈ rl)
    ∧ ∀ e, e ∈ map fst eb ↔ act s = true ∧ needs r e ∧ chosen r e = Ok s.
Proof.
  intros Hp. exists (omap (recv_task s) (tasks rl sl)). rewrite ordered_tasks, recvs_tasks. split; [done|].
  assert (Hin : ∀ e b, (e, b) ∈ omap (recv_task s) (tasks rl sl) ↔ act s = true ∧ (e, b, s) ∈ rl).
  { intros e b. rewrite list_elem_of_omap. split.
    - intros ([[[e' b'] s']|t] & Ht & E); [|done]. apply tasks_inl in Ht. cbn in E. case_bool_decide; cbn in E; [|done]. subst s'.
      destruct (act s); [|done]. by inversion E; subst.
    - intros [Ha Ht]. exists (inl (e, b, s)). split; [by apply tasks_inl|]. cbn. rewrite bool_decide_true by done. by rewrite Ha. }
  split; [apply (sorted_omap_keys task_key fst _ (recv_task_key s)), tasks_sorted|]. split; [by apply NoDup_recv_keys, (pd_keys _ _ _ _ _ _ _ _ _ _ Hp)|].
  split; [done|]. intros e. rewrite list_elem_of_fmap. split.
  - intros ([e' b] & -> & [Ha Ht]%Hin). destruct (pd_recv _ _ _ _ _ _ _ _ _ _ Hp _ _ _ Ht) as (? & ? & _). done.
  - intros (Ha & Hn & Hc). assert (Hl : ∃ y, r * L ≤ y < r * L + L ∧ new_map !! Z.to_nat y = Some e).
    { destruct Hn as [(y & Hy & H0 & He) _]. exists y. split; [|done]. pose proof (Z.div_mod y L ltac:(lia)). pose proof (Z.mod_pos_bound y L HL). nia. }
    destruct Hl as (y & Hy & He). destruct (pd_all _ _ _ _ _ _ _ _ _ _ Hp y e Hy He Hn) as (b & s' & Ht).
    destruct (pd_recv _ _ _ _ _ _ _ _ _ _ Hp _ _ _ Ht) as (_ & Hc' & _). rewrite Hc in Hc'. inversion Hc'; subst s'.
    exists (e, b). split; [done|]. by apply Hin.
Qed.

(** The sends of a rank to [q]: the experts that [q] needs and for which it chooses this rank, in order. *)
Lemma traffic_send q rl sl st : 0 ≤ q → sending T L G old_map new_map r (r * L + L) sl st →
  ∃ es, sent q (map msg_of (ordered_ops (map recv_info rl ++ map send_info sl))) = concat (map (values W T) es)
    ∧ StronglySorted Z.le es ∧ NoDup es ∧ ∀ e, e ∈ es ↔ act q = true ∧ needs q e ∧ chosen q e = Ok r.
Proof.
  intros Hq Hs. exists (omap (send_task q) (tasks rl sl)). rewrite ordered_tasks, (sent_tasks q _ sl st) by (done || (intros t Ht; by apply tasks_inr in Ht)).
  split; [done|]. split.
  { rewrite <- (map_id (omap _ _)). apply (sorted_omap_keys task_key (λ x, x) _ (send_task_key q)), tasks_sorted. }
  split; [by apply NoDup_send_keys, (se_keys _ _ _ _ _ _ _ _ _ Hs)|]. intros e. rewrite list_elem_of_omap. split.
  - intros ([t|[[e' src] dsts]] & Ht & E); [done|]. apply tasks_inr in Ht. cbn in E. destruct (bool_decide_reflect (q ∈ dsts)) as [Hin|]; cbn in E; [|done].
    destruct (act q); [|done]. inversion E; subst e'. split; [done|]. destruct (se_send _ _ _ _ _ _ _ _ _ Hs _ _ _ Ht) as (_ & _ & _ & Hm). by apply Hm.
  - intros (Ha & Hn & Hc). destruct (chosen_range T L G R old_map new_map HL HG Hold Hnew Hsrc q HT e r Hn Hc) as [_ (y & Hy & H0 & He)].
    assert (Hyl : r * L ≤ y < r * L + L) by (pose proof (Z.div_mod y L ltac:(lia)); pose proof (Z.mod_pos_bound y L HL); nia).
    pose proof (se_all _ _ _ _ _ _ _ _ _ Hs y e Hyl He) as Hk. apply list_elem_of_fmap in Hk as ([[e' src] dsts] & E & Ht). cbn in E. subst e'.
    exists (inr (e, src, dsts)). split; [by apply tasks_inr|]. cbn. destruct (se_send _ _ _ _ _ _ _ _ _ Hs _ _ _ Ht) as (_ & _ & _ & Hm).
    rewrite bool_decide_true by (by apply Hm). by rewrite Ha.
Qed.

End traffic.
