(* ===== verification/ExpertCluster.v ===== *)
(** * Moving experts: the correctness of an update

    [update_expert_weights_single_layer] on all ranks: if the weights of every running rank hold the experts of
    the old map, they hold the experts of the new map afterwards, except for the experts that the rank reports
    as missing because the rank it would receive them from does not run. *)

From S2P Require Import Prelude RadixKey ExpertBalance ExpertProps ExpertPlace ExpertUpdate ExpertChunk ExpertPlan ExpertMove.

Lemma res_map_each {A B} (f : A → res B) (P : nat → B → Prop) l : ∀ k,
  (∀ i x, l !! i = Some x → ∃ y, f x = Ok y ∧ P (k + i)%nat y) →
  ∃ ys, res_map f l = Ok ys ∧ length ys = length l ∧ ∀ i y, ys !! i = Some y → P (k + i)%nat y.
Proof.
  induction l as [|x l IH]; intros k Hf; cbn [res_map]; [exists []; split_and!; [done|done|by intros]|].
  destruct (Hf 0%nat x eq_refl) as (y & -> & Hy). cbn [mbind res_bind]. destruct (IH (S k)) as (ys & -> & Hl & Hys).
  { intros i x' Hi. destruct (Hf (S i) x' Hi) as (y' & E & Hy'). exists y'. split; [done|]. by replace (S k + i)%nat with (k + S i)%nat by lia. }
  cbn [mbind res_bind]. exists (y :: ys). split; [done|]. split; [cbn; lia|]. intros [|i] y' Hi; cbn in Hi; [by simplify_eq|].
  replace (k + S i)%nat with (S k + i)%nat by lia. by apply Hys.
Qed.

Lemma zip_concat {A B C} (f : A → list B) (g : A → list C) l : (∀ x, x ∈ l → length (f x) = length (g x)) →
  zip (concat (map f l)) (concat (map g l)) = concat (map (λ x, zip (f x) (g x)) l).
Proof.
  induction l as [|x l IH]; intros Hl; [done|]. cbn [map concat]. rewrite zip_with_app by (apply Hl; by left). f_equal. apply IH. intros y Hy. apply Hl. by right.
Qed.

Lemma zip_filter_fst {A B} (p : A → bool) (a : list A) (b : list B) : length b = length a →
  map fst (List.filter (λ t : A * B, p t.1) (zip a b)) = List.filter p a.
Proof.
  revert b. induction a as [|x a IH]; intros [|y b] Hl; try done. cbn [zip_with List.filter fst]. destruct (p x); cbn [map fst]; rewrite IH by (cbn in Hl; lia); done.
Qed.

Lemma arrivals_filter {V} s (rs : list (nat * nat * Z)) (g : list V) :
  arrivals s (map (λ t : nat * nat * Z, t.2) rs) g = map snd (List.filter (λ t : nat * nat * Z * V, bool_decide (t.1.2 = s)) (zip rs g)).
Proof.
  unfold arrivals. revert g. induction rs as [|r rs IH]; intros [|v g]; try done. specialize (IH g). cbn [map zip_with List.filter omap list_omap fst].
  case_bool_decide as E; cbn [fst snd map] in *; [f_equal|]; exact IH.
Qed.

Section cluster.
Context {V : Type} `{Transport V} (W : Z → nat → V) (T : nat) (L G : Z) (R : nat) (old_map new_map : list Z).
Context (HL : 0 < L) (HG : 0 < G) (Hold : zlen old_map = Z.of_nat R * L) (Hnew : length new_map = length old_map)
  (Hsrc : ∀ e, e ∈ new_map → e ∈ old_map) (HT : (0 < T)%nat) (alive : list bool).

Notation needs := (needs old_map new_map L).
Notation chosen := (chosen old_map new_map L G).

Definition runs (r : Z) : bool := match alive !! Z.to_nat r with Some b => b | None => false end.
Notation act := runs.

(** The tasks of a running rank, and its state. *)
Record at_work (r : Z) (weights : list (list V)) (rp : RankPlan) (rl : list (Z * Z * Z)) (sl : list (Z * Z * list Z)) : Prop := {
  aw_plan : ∃ ops, planned W T L G old_map new_map r (r * L + L) rl (mkPlan (rp_temp rp) (rp_copies rp) ops);
  aw_send : ∃ st, sending T L G old_map new_map r (r * L + L) sl st;
  aw_ops : rp_ops rp = ordered_ops (map (recv_info T L r act) rl ++ map (send_info T L r act) sl);
  aw_missing : rp_missing rp = missing_of act rl;
  aw_weights : holding W T L r old_map weights
}.

(** ** Messages *)

Lemma task_ops_valid r weights rp rl sl op : 0 ≤ r < Z.of_nat R → at_work r weights rp rl sl → op ∈ rp_ops rp →
  message weights op = Ok (msg_of W L r old_map op).
Proof.
  intros Hr [_ [st Hs] Eops _ [_ Hh]] Hop. rewrite Eops, ordered_tasks in Hop. apply list_elem_of_In, in_concat in Hop as (ops & Hops & Hop).
  apply in_map_iff in Hops as (info & <- & Hinfo). apply in_map_iff in Hinfo as ([[[e b] s]|[[e src] dsts]] & <- & Ht); apply list_elem_of_In in Ht; cbn [task_info] in Hop.
  - unfold recv_info in Hop. cbn [fst snd] in Hop. destruct (act s); [|done]. apply in_map_iff in Hop as (i & <- & _). done.
  - apply tasks_inr in Ht. destruct (se_send _ _ _ _ _ _ _ _ _ Hs _ _ _ Ht) as (Hsl & He & _). unfold send_info in Hop. cbn [fst snd] in Hop.
    apply in_concat in Hop as (ops & Hops & Hop). apply in_map_iff in Hops as (p & <- & _). apply in_map_iff in Hop as (i & <- & Hi). apply in_seq in Hi.
    cbn [message msg_of]. rewrite (Hh src e Hsl He i) by lia. by rewrite (expert_at_slot T HT L r old_map src e) by (done || nia).
Qed.

(** The receives of a rank are those of its tasks from running ranks. *)
Lemma recvs_valid r weights rp rl sl i k p : 0 ≤ r < Z.of_nat R → at_work r weights rp rl sl → (i, k, p) ∈ recvs (rp_ops rp) →
  act p = true ∧ 0 ≤ p < Z.of_nat R ∧ (i < T)%nat ∧ ∃ e b, (e, b, p) ∈ rl ∧ k = slot_of L r b ∧ r * L ≤ b < r * L + L ∧ new_map !! Z.to_nat b = Some e.
Proof.
  intros Hr [[ops Hp] _ Eops _ _] Hin. assert (Hf : (i, k, p) ∈ recvs_from p (rp_ops rp)).
  { unfold recvs_from. apply list_elem_of_In, List.filter_In. split; [by apply list_elem_of_In|]. cbn. by apply bool_decide_eq_true. }
  destruct (traffic_recv W T L G R old_map new_map HL Hnew HT act r p rl sl _ Hp) as (eb & E & _ & _ & Hmem & _).
  rewrite Eops, E in Hf. apply list_elem_of_In, in_concat in Hf as (l & Hl & Hin'). apply in_map_iff in Hl as ([e b] & <- & Heb).
  apply in_map_iff in Hin' as (i' & [=<- <-] & Hi). apply in_seq in Hi. apply list_elem_of_In, Hmem in Heb as [Ha Hrl].
  destruct (pd_recv _ _ _ _ _ _ _ _ _ _ Hp _ _ _ Hrl) as (Hn & Hc & Hb & Hbe & _).
  split; [done|]. split; [by apply (chosen_range T L G R old_map new_map HL HG Hold Hnew Hsrc r HT e p Hn Hc)|]. split; [lia|]. exists e, b. done.
Qed.

(** Between two running ranks, what is sent is what is received, value by value. *)
Lemma paired s d ws rps rls sls wd rpd rld sld : 0 ≤ s < Z.of_nat R → 0 ≤ d < Z.of_nat R → act s = true → act d = true →
  at_work s ws rps rls sls → at_work d wd rpd rld sld →
  ∃ eb, sent d (map (msg_of W L s old_map) (rp_ops rps)) = concat (map (λ t : Z * Z, values W T t.1) eb)
    ∧ recvs_from s (rp_ops rpd) = concat (map (block T L d s) eb)
    ∧ ∀ e b, (e, b) ∈ eb → d * L ≤ b < d * L + L ∧ new_map !! Z.to_nat b = Some e.
Proof.
  intros Hs Hd As Ad [_ [st Hst] Es _ _] [[ops Hp] _ Ed _ _].
  destruct (traffic_send W T L G R old_map new_map HL HG Hold Hnew Hsrc HT act s Hs d rls sls st ltac:(lia) Hst) as (es & E1 & S1 & N1 & M1).
  destruct (traffic_recv W T L G R old_map new_map HL Hnew HT act d s rld sld _ Hp) as (eb & E2 & S2 & N2 & Hmem & M2).
  exists eb. rewrite Es, E1, Ed, E2. split_and!; [|done|].
  - assert (Heq : es = map fst eb).
    { apply (StronglySorted_unique Z.le); [done|done|]. apply NoDup_Permutation; [done|done|]. intros e. rewrite M1, M2, As, Ad. done. }
    by rewrite Heq, map_map.
  - intros e b [_ Hrl]%Hmem. by destruct (pd_recv _ _ _ _ _ _ _ _ _ _ Hp _ _ _ Hrl) as (_ & _ & ? & ? & _).
Qed.

(** Every value received belongs to the expert of its slot. *)
Lemma received_good d wd rpd rld sld g : 0 ≤ d < Z.of_nat R → act d = true → at_work d wd rpd rld sld → length g = length (recvs (rp_ops rpd)) →
  (∀ s, 0 ≤ s < Z.of_nat R → act s = true → ∃ ws rps rls sls, at_work s ws rps rls sls
     ∧ arrivals s (recv_peers (map (msg_of W L d old_map) (rp_ops rpd))) g = sent d (map (msg_of W L s old_map) (rp_ops rps))) →
  ∀ i k p v, ((i, k, p), v) ∈ zip (recvs (rp_ops rpd)) g → v = W (expert_at L d new_map k) i.
Proof.
  intros Hd Ad Hwork Hlen Harr i k p v Hin.
  assert (Hrv : (i, k, p) ∈ recvs (rp_ops rpd)) by (apply elem_of_zip_l in Hin; done).
  destruct (recvs_valid d wd rpd rld sld i k p Hd Hwork Hrv) as (Ap & Hp & _). destruct (Harr p Hp Ap) as (ws & rps & rls & sls & Hws & Ea).
  destruct (paired p d ws rps rls sls wd rpd rld sld Hp Hd Ap Ad Hws Hwork) as (eb & Es & Er & Hloc).
  set (Z0 := List.filter (λ t : nat * nat * Z * V, bool_decide (t.1.2 = p)) (zip (recvs (rp_ops rpd)) g)).
  assert (E1 : map fst Z0 = concat (map (block T L d p) eb)) by (rewrite <- Er; exact (zip_filter_fst (λ r : nat * nat * Z, bool_decide (r.2 = p)) _ _ Hlen)).
  assert (E2 : map snd Z0 = concat (map (λ t : Z * Z, values W T t.1) eb)).
  { unfold Z0. rewrite recv_peers_msg, arrivals_filter in Ea. rewrite Ea. exact Es. }
  assert (EZ : Z0 = concat (map (λ t, zip (block T L d p t) (values W T t.1)) eb)).
  { rewrite <- zip_concat by (intros t _; unfold block, values; by rewrite !length_map). rewrite <- E1, <- E2. symmetry. apply zip_fst_snd. }
  assert (Hz : ((i, k, p), v) ∈ Z0) by (apply list_elem_of_In, List.filter_In; split; [by apply list_elem_of_In|by apply bool_decide_eq_true]).
  rewrite EZ in Hz. apply list_elem_of_In, in_concat in Hz as (l & Hl & Hz). apply in_map_iff in Hl as ([e b] & <- & Heb). apply list_elem_of_In in Heb, Hz.
  destruct (Hloc e b Heb) as [Hb Hbe]. unfold block, values in Hz. cbn [fst snd] in Hz. apply list_elem_of_lookup in Hz as [n Hn].
  apply lookup_zip_with_Some in Hn as (x & y & [=<- <-] & Hx & Hy). rewrite list_lookup_fmap in Hx. rewrite list_lookup_fmap in Hy. destruct (seq 0 T !! n) as [j|]; [|done]. cbn in Hx, Hy. simplify_eq.
  by rewrite (expert_at_slot T HT L d new_map b e) by (done || nia).
Qed.

(** ** The copies *)

Lemma execute_copies_ok r temp (missing : list Z) (copies : list (Z * Z)) : 0 ≤ r < Z.of_nat R → shape T L temp →
  (∀ b w, (b, w) ∈ copies → r * L ≤ b < r * L + L ∧ r * L ≤ w < r * L + L
     ∧ ∀ e, new_map !! Z.to_nat w = Some e → e ∉ missing → slot_is W T temp (slot_of L r b) e) →
  ∀ weights, shape T L weights →
  (∀ x e, r * L ≤ x < r * L + L → new_map !! Z.to_nat x = Some e → e ∉ missing → slot_is W T weights (slot_of L r x) e ∨ ∃ b, (b, x) ∈ copies) →
  ∃ w', execute_copies L r weights temp copies = Ok w' ∧ shape T L w'
    ∧ ∀ x e, r * L ≤ x < r * L + L → new_map !! Z.to_nat x = Some e → e ∉ missing → slot_is W T w' (slot_of L r x) e.
Proof.
  intros Hr Ht Hcopies weights Hw. unfold execute_copies. rewrite (proj1 Hw). revert weights Hw.
  induction copies as [|[b w] copies IH]; intros weights Hw Hinv; cbn [res_fold].
  { exists weights. split; [done|]. split; [done|]. intros x e Hx He Hm. destruct (Hinv x e Hx He Hm) as [?|[b Hb]]; [done|set_solver]. }
  destruct (Hcopies b w) as (Hb & Hwl & Hslot); [by left|]. rewrite !(local_slot_ok L R old_map new_map Hnew) by done. cbn [mbind res_bind].
  destruct (copy_tensors_ok W T L weights temp (slot_of L r w) (slot_of L r b) Hw Ht) as (w1 & -> & Hsh1 & Hkeep & Hset); [unfold slot_of; lia..|]. cbn [mbind res_bind].
  apply IH; [|done|].
  - intros b' w' Hin. apply Hcopies. by right.
  - intros x e Hx He Hm. destruct (decide (x = w)) as [->|Hne]; [left; apply Hset, Hslot; done|].
    destruct (Hinv x e Hx He Hm) as [Hs|[b' [Heq|Hin]%elem_of_cons]]; [left; apply Hkeep; [|done]|simplify_eq|right; eauto].
    intros E. apply Hne. apply (slot_of_inj L R old_map new_map Hnew r); [lia|lia|done].
Qed.

(** ** A running rank after the exchange *)

Lemma rank_finish_ok r weights rp rl sl g : 0 ≤ r < Z.of_nat R → at_work r weights rp rl sl → length g = length (recvs (rp_ops rp)) →
  (∀ i k p v, ((i, k, p), v) ∈ zip (recvs (rp_ops rp)) g → v = W (expert_at L r new_map k) i) →
  ∃ w' t', finish_of L (Z.to_nat r, (weights, rp, g)) = Ok (w', t') ∧ shape T L w' ∧ shape T L t'
    ∧ ∀ x e, r * L ≤ x < r * L + L → new_map !! Z.to_nat x = Some e → e ∉ rp_missing rp → slot_is W T w' (slot_of L r x) e.
Proof.
  intros Hr Hwork Hlen Hgood. pose proof Hwork as [[ops Hp] _ Eops Emiss [Hsh Hhold]]. unfold finish_of. rewrite Z2Nat.id by lia.
  destruct (receive_ok W T L (expert_at L r new_map) (rp_ops rp) (rp_temp rp) g (pd_shape _ _ _ _ _ _ _ _ _ _ Hp) Hlen) as (temp' & -> & Hsh' & Hcell); [|exact Hgood|].
  { apply Forall_forall. intros [[i k] p] Hin. destruct (recvs_valid r weights rp rl sl i k p Hr Hwork Hin) as (_ & _ & Hi & e & b & _ & -> & Hb & _).
    split; [done|]. cbn. unfold slot_of. lia. }
  cbn [mbind res_bind]. destruct (receive_slots W T _ _ _ _ Hcell) as [Hkeep Hrecv].
  destruct (execute_copies_ok r temp' (rp_missing rp) (rp_copies rp) Hr Hsh') with (weights := weights) as (w' & -> & Hw' & Hall); [|done| |].
  - intros b w Hin. destruct (pd_copies _ _ _ _ _ _ _ _ _ _ Hp b w Hin) as (Hb & Hw & e & Hbe & Hwe & Hor). split; [done|]. split; [done|].
    intros e' He' Hm. rewrite Hwe in He'. inversion He'; subst e'. rewrite <- (expert_at_slot T HT L r new_map b e) by (done || nia).
    destruct Hor as [[_ Hs]|[s Hs]].
    + apply Hkeep. rewrite (expert_at_slot T HT L r new_map b e) by (done || nia). exact Hs.
    + apply Hrecv. intros i Hi. exists s. destruct (traffic_recv W T L G R old_map new_map HL Hnew HT act r s rl sl _ Hp) as (eb & E & _ & _ & Hmem & _).
      assert (Ha : act s = true).
      { destruct (act s) eqn:Ea; [done|]. exfalso. apply Hm. rewrite Emiss. unfold missing_of. apply list_elem_of_fmap. exists (e, b, s). split; [done|].
        apply list_elem_of_In, List.filter_In. split; [by apply list_elem_of_In|]. cbn. by rewrite Ea. }
      assert (Hf : (i, slot_of L r b, s) ∈ recvs_from s (rp_ops rp)).
      { rewrite Eops, E. apply list_elem_of_In, in_concat. exists (block T L r s (e, b)). split; [apply in_map, list_elem_of_In, Hmem; done|].
        unfold block. apply in_map_iff. exists i. split; [done|]. apply in_seq. lia. }
      unfold recvs_from in Hf. apply list_elem_of_In, List.filter_In in Hf as [Hf _]. by apply list_elem_of_In.
  - intros x e Hx He Hm. destruct (pd_changed _ _ _ _ _ _ _ _ _ _ Hp x Hx) as [Eq|?]; [|by right]. left. apply Hhold; [done|]. by rewrite Eq.
  - cbn [mbind res_bind]. exists w', temp'. done.
Qed.

(** ** All ranks *)

Context (elastic : option (list bool)) (states : list (list (list V) * list (list V))).
Context (Halive : length alive = R) (Hlen : length states = R) (Hview : elastic_view R act elastic)
  (Hstates : ∀ r w t, states !! r = Some (w, t) → alive !! r = Some true → holding W T L (Z.of_nat r) old_map w ∧ shape T L t).

Lemma runs_nat (r : nat) : act (Z.of_nat r) = true ↔ alive !! r = Some true.
Proof. unfold runs. rewrite Nat2Z.id. destruct (alive !! r) as [[|]|]; naive_solver. Qed.

(** The plan of rank [r]. *)
Definition plan_at (r : nat) (rp : RankPlan (V:=V)) : Prop :=
  ∀ w t, states !! r = Some (w, t) →
    if act (Z.of_nat r) then ∃ rl sl, at_work (Z.of_nat r) w rp rl sl else rp = idle t.

Lemma plans_ok : ∃ plans, res_map (plan_of old_map new_map L G alive elastic) (imap pair states) = Ok plans ∧ length plans = R
  ∧ ∀ r rp, plans !! r = Some rp → plan_at r rp.
Proof.
  destruct (res_map_each (plan_of old_map new_map L G alive elastic) plan_at (imap pair states) 0) as (plans & E & Hl & Hp).
  - intros r [r' [w t]] Hr. rewrite list_lookup_imap in Hr. destruct (states !! r) as [st|] eqn:Es; [|done]. cbn in Hr. inversion Hr; subst r' st.
    pose proof (lookup_lt_Some _ _ _ Es). unfold plan_of, plan_at. setoid_rewrite Es. destruct (lookup_lt_is_Some_2 alive r ltac:(lia)) as [b Eb]. rewrite Eb.
    replace (act (Z.of_nat (0 + r))) with b by (unfold runs; cbn; by rewrite Nat2Z.id, Eb). destruct b.
    + destruct (Hstates r w t Es Eb) as [Hw Ht].
      destruct (plan_rank_ok W T L G R old_map new_map HL HG Hold Hnew Hsrc (Z.of_nat r) ltac:(lia) HT act elastic w t Hview Hw Ht)
        as (rl & sl & ops & st & rp & E & H1 & H2 & H3 & H4). exists rp. split; [exact E|]. intros w' t' [=<- <-]. exists rl, sl. by split; [exists ops|exists st|..].
    + exists (idle t). split; [done|]. by intros w' t' [=<- <-].
  - exists plans. split; [exact E|]. split; [by rewrite Hl, length_imap|exact Hp].
Qed.

(** The messages of rank [r]. *)
Definition messages_at (plans : list (RankPlan (V:=V))) (r : nat) (ms : list (Msg V)) : Prop :=
  ∀ rp, plans !! r = Some rp → ms = map (msg_of W L (Z.of_nat r) old_map) (rp_ops rp).

Section plans.
Context (plans : list (RankPlan (V:=V))) (Hpl : length plans = R) (Hplans : ∀ r rp, plans !! r = Some rp → plan_at r rp).

Lemma messages_ok : ∃ msgs, res_map (λ '(p, (weights, _)), res_map (message weights) (rp_ops p)) (zip plans states) = Ok msgs
  ∧ length msgs = R ∧ ∀ r ms, msgs !! r = Some ms → messages_at plans r ms.
Proof.
  destruct (res_map_each (λ '(p, (weights, _)), res_map (message weights) (rp_ops p)) (messages_at plans) (zip plans states) 0) as (msgs & E & Hl & Hm).
  - intros r [rp [w t]] Hr. apply lookup_zip_with_Some in Hr as (? & ? & [=<- <-] & Hrp & Hst). pose proof (lookup_lt_Some _ _ _ Hst).
    exists (map (msg_of W L (Z.of_nat r) old_map) (rp_ops rp)). split.
    + apply res_map_ok. intros op Hop. pose proof (Hplans r rp Hrp w t Hst) as Hp. destruct (act (Z.of_nat r)).
      * destruct Hp as (rl & sl & Hwork). by eapply (task_ops_valid (Z.of_nat r)); [lia|..].
      * subst rp. cbn in Hop. set_solver.
    + change (0 + r)%nat with r. intros rp' Hrp'. congruence.
  - exists msgs. split; [exact E|]. split; [rewrite Hl, length_zip_with; lia|exact Hm].
Qed.

Section msgs.
Context (msgs : list (list (Msg V))) (Hml : length msgs = R) (Hmsgs : ∀ r ms, msgs !! r = Some ms → messages_at plans r ms).

(** The messages of a rank, with the work behind them. *)
Lemma message_cases r ms : msgs !! r = Some ms → ∃ rp w t, plans !! r = Some rp ∧ states !! r = Some (w, t) ∧ (r < R)%nat
  ∧ ms = map (msg_of W L (Z.of_nat r) old_map) (rp_ops rp)
  ∧ if act (Z.of_nat r) then ∃ rl sl, at_work (Z.of_nat r) w rp rl sl else rp = idle t.
Proof.
  intros Hr. pose proof (lookup_lt_Some _ _ _ Hr). destruct (lookup_lt_is_Some_2 plans r ltac:(lia)) as [rp Hrp].
  destruct (lookup_lt_is_Some_2 states r ltac:(lia)) as [[w t] Hst]. exists rp, w, t. split_and!; [done|done|lia|by apply (Hmsgs r ms Hr)|by apply (Hplans r rp Hrp)].
Qed.

Lemma filter_recv_peers s (r : Z) (ops : list P2POp) :
  List.filter (λ p, bool_decide (p = s)) (recv_peers (map (msg_of W L r old_map) ops)) = map (λ t : nat * nat * Z, t.2) (recvs_from s ops).
Proof.
  rewrite recv_peers_msg. unfold recvs_from. induction (recvs ops) as [|t l IH]; [done|]. cbn [map List.filter]. rewrite IH. by destruct (bool_decide (t.2 = s)).
Qed.

(** As many sends as receives between any two ranks. *)
Lemma traffic_balanced s d ms md : msgs !! s = Some ms → msgs !! d = Some md →
  length (sent (Z.of_nat d) ms) = length (List.filter (λ p, bool_decide (p = Z.of_nat s)) (recv_peers md)).
Proof.
  intros Hs Hd. destruct (message_cases s ms Hs) as (rps & ws & ts & Eps & _ & Hsr & -> & Ws). destruct (message_cases d md Hd) as (rpd & wd & td & Epd & _ & Hdr & -> & Wd).
  rewrite filter_recv_peers, length_map. destruct (act (Z.of_nat s)) eqn:As; destruct (act (Z.of_nat d)) eqn:Ad.
  - destruct Ws as (rls & sls & Ws). destruct Wd as (rld & sld & Wd).
    destruct (paired (Z.of_nat s) (Z.of_nat d) _ _ _ _ _ _ _ _ ltac:(lia) ltac:(lia) As Ad Ws Wd) as (eb & -> & -> & _).
    rewrite !(length_concat_const T), !length_map; [done|..]; apply Forall_fmap, Forall_true; intros [e b]; cbn; unfold block, values; by rewrite length_map, length_seq.
  - subst rpd. cbn. destruct Ws as (rls & sls & [_ [st Hst] Es _ _]). rewrite Es.
    destruct (traffic_send W T L G R old_map new_map HL HG Hold Hnew Hsrc HT act (Z.of_nat s) ltac:(lia) (Z.of_nat d) rls sls st ltac:(lia) Hst) as (es & -> & _ & _ & Hes).
    destruct es as [|e es]; [done|]. exfalso. destruct (proj1 (Hes e)) as [Ha _]; [by left|]. congruence.
  - subst rps. cbn. destruct Wd as (rld & sld & Wd). destruct (recvs_from (Z.of_nat s) (rp_ops rpd)) as [|[[i k] p] l] eqn:El; [done|]. exfalso.
    assert (Hin : (i, k, p) ∈ recvs_from (Z.of_nat s) (rp_ops rpd)) by (rewrite El; by left).
    unfold recvs_from in Hin. apply list_elem_of_In, List.filter_In in Hin as [Hin Hp]. apply bool_decide_eq_true in Hp. cbn in Hp. subst p.
    apply list_elem_of_In in Hin. destruct (recvs_valid (Z.of_nat d) _ _ _ _ _ _ _ ltac:(lia) Wd Hin) as [Ha _]. congruence.
  - subst rps rpd. done.
Qed.

Lemma peers_in_range d md p : msgs !! d = Some md → p ∈ recv_peers md → 0 ≤ p < zlen msgs.
Proof.
  intros Hd Hp. destruct (message_cases d md Hd) as (rpd & wd & td & _ & _ & Hdr & -> & Wd). rewrite recv_peers_msg in Hp.
  apply list_elem_of_fmap in Hp as ([[i k] p'] & -> & Hin). destruct (act (Z.of_nat d)).
  - destruct Wd as (rl & sl & Wd). destruct (recvs_valid (Z.of_nat d) _ _ _ _ _ _ _ ltac:(lia) Wd Hin) as (_ & ? & _). unfold zlen. cbn [fst snd]. lia.
  - subst rpd. cbn in Hin. set_solver.
Qed.

End msgs.
End plans.

(** What a running rank has at the end, and what a rank that does not run has. *)
Definition updated (r : nat) (before after : list (list V) * list (list V)) (missing : list Z) : Prop :=
  if act (Z.of_nat r) then
    shape T L after.1 ∧ shape T L after.2
    ∧ (∀ x e, Z.of_nat r * L ≤ x < Z.of_nat r * L + L → new_map !! Z.to_nat x = Some e → e ∉ missing → slot_is W T after.1 (slot_of L (Z.of_nat r) x) e)
    ∧ ∀ e, e ∈ missing → needs (Z.of_nat r) e ∧ ∃ s, chosen (Z.of_nat r) e = Ok s ∧ act s = false
  else after = before ∧ missing = [].

Lemma missing_ok r w rp rl sl e : at_work r w rp rl sl → e ∈ rp_missing rp → needs r e ∧ ∃ s, chosen r e = Ok s ∧ act s = false.
Proof.
  intros [[ops Hp] _ _ Em _] He. rewrite Em in He. unfold missing_of in He. apply list_elem_of_fmap in He as ([[e' b] s] & -> & Hin).
  apply list_elem_of_In, List.filter_In in Hin as [Hin Ha]. apply list_elem_of_In in Hin. apply negb_true_iff in Ha. cbn in Ha |- *.
  destruct (pd_recv _ _ _ _ _ _ _ _ _ _ Hp _ _ _ Hin) as (? & ? & _). eauto.
Qed.

Lemma finish_rank plans msgs got : length plans = R → (∀ r rp, plans !! r = Some rp → plan_at r rp) →
  length msgs = R → (∀ r ms, msgs !! r = Some ms → messages_at plans r ms) → length got = R →
  (∀ d md, msgs !! d = Some md → ∃ g, got !! d = Some g ∧ length g = length (recv_peers md)
     ∧ ∀ s ms, msgs !! s = Some ms → arrivals (Z.of_nat s) (recv_peers md) g = sent (Z.of_nat d) ms) →
  ∀ r w t rp g, states !! r = Some (w, t) → plans !! r = Some rp → got !! r = Some g →
  ∃ after, finish_of L (r, (w, rp, g)) = Ok after ∧ updated r (w, t) after (rp_missing rp).
Proof.
  intros Hpl Hplans Hml Hmsgs Hgl Hgot r w t rp g Hst Hrp Hg. assert (Hr : (r < R)%nat) by (apply lookup_lt_Some in Hst; lia).
  destruct (lookup_lt_is_Some_2 msgs r ltac:(lia)) as [md Hmd]. destruct (Hgot r md Hmd) as (g' & Hg' & Hgl' & Harr). rewrite Hg in Hg'. inversion Hg'; subst g'.
  pose proof (Hmsgs r md Hmd rp Hrp) as ->. pose proof (Hplans r rp Hrp w t Hst) as Hcase. unfold updated. destruct (act (Z.of_nat r)) eqn:Ar.
  - destruct Hcase as (rl & sl & Hwork). rewrite recv_peers_msg, length_map in Hgl'.
    destruct (rank_finish_ok (Z.of_nat r) w rp rl sl g) as (w' & t' & E & H1 & H2 & H3); [lia|done|done| |].
    { apply (received_good (Z.of_nat r) w rp rl sl g); [lia|done|done|done|]. intros s Hs As.
      destruct (lookup_lt_is_Some_2 msgs (Z.to_nat s) ltac:(lia)) as [ms Hms].
      destruct (message_cases plans Hpl Hplans msgs Hml Hmsgs _ ms Hms) as (rps & ws & ts & _ & _ & _ & -> & Ws). rewrite Z2Nat.id in * by lia. rewrite As in Ws.
      destruct Ws as (rls & sls & Ws). exists ws, rps, rls, sls. split; [done|]. specialize (Harr _ _ Hms). rewrite Z2Nat.id in Harr by lia. exact Harr. }
    rewrite Nat2Z.id in E. exists (w', t'). split; [exact E|]. split_and!; [done|done|done|]. intros e. by apply (missing_ok _ w rp rl sl).
  - subst rp. cbn in Hgl'. destruct g; [|done]. exists (w, t). split; [done|]. done.
Qed.

Lemma update_layer_run : ∃ states' missing,
  update_layer_cluster old_map new_map L G alive elastic states = Ok (states', missing)
  ∧ length states' = R ∧ length missing = R
  ∧ ∀ r before after ms, states !! r = Some before → states' !! r = Some after → missing !! r = Some ms → updated r before after ms.
Proof.
  unfold update_layer_cluster. destruct plans_ok as (plans & -> & Hpl & Hplans). cbn [mbind res_bind].
  destruct (messages_ok plans Hpl Hplans) as (msgs & -> & Hml & Hmsgs). cbn [mbind res_bind].
  destruct (exchange_ok msgs) as (got & -> & Hgl & Hgot).
  { intros s d ms md. by apply (traffic_balanced plans). }
  { intros d md p. by apply (peers_in_range plans). }
  cbn [mbind res_bind]. rewrite Hml in Hgl. set (cells := imap pair (zip (zip (map fst states) plans) got)).
  destruct (res_map_each (finish_of L) (λ r after, ∀ before rp, states !! r = Some before → plans !! r = Some rp → updated r before after (rp_missing rp)) cells 0)
    as (states' & -> & Hl & Hs).
  - intros r [r' [[w rp] g]] Hr. unfold cells in Hr. rewrite list_lookup_imap in Hr. destruct (zip (zip (map fst states) plans) got !! r) as [c|] eqn:Ec; [|done].
    cbn in Hr. inversion Hr; subst r' c. apply lookup_zip_with_Some in Ec as (? & ? & [=<- <-] & Ec & Hg). apply lookup_zip_with_Some in Ec as (? & ? & [=<- <-] & Hw & Hrp).
    rewrite list_lookup_fmap in Hw. destruct (states !! r) as [[w0 t]|] eqn:Es; [|done]. cbn in Hw. inversion Hw; subst w0.
    destruct (finish_rank plans msgs got Hpl Hplans Hml Hmsgs Hgl Hgot r w t rp g Es Hrp Hg) as (after & E & Hu). exists after. split; [exact E|].
    change (0 + r)%nat with r. intros before rp' Hb Hrp'. congruence.
  - cbn [mbind res_bind]. exists states', (map rp_missing plans). split; [done|]. split; [|split; [by rewrite length_map|]].
    + rewrite Hl. unfold cells. rewrite length_imap, !length_zip_with, length_map. lia.
    + intros r before after ms Hb Ha Hm. rewrite list_lookup_fmap in Hm. destruct (plans !! r) as [rp|] eqn:Erp; [|done]. cbn in Hm. inversion Hm; subst ms.
      by apply (Hs r after Ha before rp).
Qed.

End cluster.

(** C7: The update of a layer on all ranks, some of which may have failed: if every running rank holds the experts
    of the old map, the update ends without an error, the ranks that do not run are left alone, and every running
    rank holds the experts of the new map in its slots, except those it reports as missing, which are experts it
    did not have and would have received from a rank that does not run. *)
Theorem update_layer_moves {V} `{Transport V} (W : Z → nat → V) (T : nat) (L G : Z) (R : nat) (old_map new_map : list Z) alive elastic states :
  0 < L → 0 < G → (0 < T)%nat → zlen old_map = Z.of_nat R * L → length new_map = length old_map → (∀ e, e ∈ new_map → e ∈ old_map) →
  length alive = R → length states = R → elastic_view R (runs alive) elastic →
  (∀ r w t, states !! r = Some (w, t) → alive !! r = Some true → holding W T L (Z.of_nat r) old_map w ∧ shape T L t) →
  ∃ states' missing, update_layer_cluster old_map new_map L G alive elastic states = Ok (states', missing) ∧ length states' = R ∧ length missing = R
    ∧ ∀ r before after ms, states !! r = Some before → states' !! r = Some after → missing !! r = Some ms →
        updated W T L G old_map new_map alive r before after ms.
Proof. intros. by apply update_layer_run. Qed.
