(* ===== verification/ExpertServer.v ===== *)
(** * A rebalancing server

    A healthy server stays sound while the manager rebalances it chunk by chunk: at the end of every forward pass
    the weights of every rank are those the metadata speaks of, and the metadata can be used for dispatch.  The
    chunks are the layers in order; each is updated between two passes. *)

From S2P Require Import Prelude RadixKey PyFloat ExpertBalance ExpertProps ExpertPlace ExpertRebalance ExpertLocation ExpertDispatch.
From S2P Require Import ExpertUpdate ExpertChunk ExpertPlan ExpertMove ExpertCluster.

(** ** Metadata *)

Section metadata.
Context (num_layers : nat) (num_physical num_logical : Z) (flag : bool).

(** Metadata of which every layer can be used for dispatch. *)
Record good_meta (m : ExpertLocationMetadata) : Prop := {
  gm_lengths : length (physical_to_logical_map m) = num_layers ∧ length (logical_to_all_physical_map m) = num_layers
    ∧ length (logical_to_all_physical_map_num_valid m) = num_layers
    ∧ match logical_to_rank_dispatch_physical_map m with Some d => length d = num_layers ∧ flag = true | None => flag = false end;
  gm_maps layer p2l : physical_to_logical_map m !! layer = Some p2l → zlen p2l = num_physical ∧ ∀ e, e ∈ p2l ↔ 0 ≤ e < num_logical;
  gm_topk layer p2l algorithm random ids : physical_to_logical_map m !! layer = Some p2l → dispatches flag algorithm →
    Forall (λ e, 0 ≤ e < num_logical) ids → length random = length ids →
    ∃ ps, topk_ids_logical_to_physical m (Z.of_nat layer) (Some algorithm) random ids = Ok ps ∧ Forall2 (holds_logical p2l) ids ps
}.

Lemma update_field_ok {A} ids (self other : list A) : length self = length other → ∃ l, update_field ids self other = Ok l ∧ length l = length self
  ∧ ∀ i, l !! i = if bool_decide (Z.of_nat i ∈ ids) then other !! i else self !! i.
Proof.
  intros Hl. unfold update_field. rewrite bool_decide_true by done. eexists. split; [done|]. split; [rewrite length_imap, length_zip_with; lia|].
  intros i. rewrite list_lookup_imap, lookup_zip_with. destruct (self !! i) as [a|] eqn:Ea, (other !! i) as [b|] eqn:Eb; cbn.
  - by case_bool_decide.
  - apply lookup_lt_Some in Ea. apply lookup_ge_None in Eb. lia.
  - apply lookup_lt_Some in Eb. apply lookup_ge_None in Ea. lia.
  - by case_bool_decide.
Qed.

Lemma tensor_get_ext {A} (a b : list A) i : a !! Z.to_nat i = b !! Z.to_nat i → tensor_get a i = tensor_get b i.
Proof. intros E. unfold tensor_get, py_get. by rewrite E. Qed.

(** The ids of a layer depend on the entries of the layer only. *)
Lemma topk_ext m m' layer algorithm random ids :
  logical_to_all_physical_map m !! layer = logical_to_all_physical_map m' !! layer →
  logical_to_all_physical_map_num_valid m !! layer = logical_to_all_physical_map_num_valid m' !! layer →
  match logical_to_rank_dispatch_physical_map m, logical_to_rank_dispatch_physical_map m' with
  | Some d, Some d' => d !! layer = d' !! layer | None, None => True | _, _ => False end →
  topk_ids_logical_to_physical m (Z.of_nat layer) algorithm random ids = topk_ids_logical_to_physical m' (Z.of_nat layer) algorithm random ids.
Proof.
  intros E1 E2 E3. unfold topk_ids_logical_to_physical.
  rewrite (tensor_get_ext _ (logical_to_all_physical_map m')) by (by rewrite Nat2Z.id).
  rewrite (tensor_get_ext _ (logical_to_all_physical_map_num_valid m')) by (by rewrite Nat2Z.id).
  destruct (logical_to_rank_dispatch_physical_map m) as [d|], (logical_to_rank_dispatch_physical_map m') as [d'|]; try done.
  by rewrite (tensor_get_ext d d') by (by rewrite Nat2Z.id).
Qed.

Lemma metadata_update_ok self other ids : good_meta self → good_meta other →
  ∃ m, metadata_update self other ids = Ok m ∧ good_meta m
    ∧ ∀ i, physical_to_logical_map m !! i = if bool_decide (Z.of_nat i ∈ ids) then physical_to_logical_map other !! i else physical_to_logical_map self !! i.
Proof.
  intros [(A1 & A2 & A3 & A4) Am At] [(B1 & B2 & B3 & B4) Bm Bt]. unfold metadata_update.
  destruct (update_field_ok ids (physical_to_logical_map self) (physical_to_logical_map other) ltac:(lia)) as (p & -> & L1 & F1). cbn [mbind res_bind].
  destruct (update_field_ok ids (logical_to_all_physical_map self) (logical_to_all_physical_map other) ltac:(lia)) as (l & -> & L2 & F2). cbn [mbind res_bind].
  destruct (update_field_ok ids (logical_to_all_physical_map_num_valid self) (logical_to_all_physical_map_num_valid other) ltac:(lia)) as (n & -> & L3 & F3). cbn [mbind res_bind].
  assert (Hd : ∃ d, match logical_to_rank_dispatch_physical_map self, logical_to_rank_dispatch_physical_map other with
      | Some a, Some b => d ← update_field ids a b; Ok (Some d) | None, None => Ok None | _, _ => Raise AssertionError end = Ok d
      ∧ match d with Some d => length d = num_layers ∧ flag = true | None => flag = false end
      ∧ ∀ i, match d, if bool_decide (Z.of_nat i ∈ ids) then logical_to_rank_dispatch_physical_map other else logical_to_rank_dispatch_physical_map self with
             | Some d, Some d' => d !! i = d' !! i | None, None => True | _, _ => False end).
  { destruct (logical_to_rank_dispatch_physical_map self) as [a|], (logical_to_rank_dispatch_physical_map other) as [b|]; try (by destruct A4, B4; congruence); try (by destruct A4; congruence); try (by destruct B4; congruence).
    - destruct A4 as [A4 Af], B4 as [B4 _]. destruct (update_field_ok ids a b ltac:(lia)) as (d & -> & Ld & Fd). exists (Some d). split; [done|]. split; [split; [lia|done]|].
      intros i. rewrite (Fd i). by case_bool_decide.
    - exists None. split; [done|]. split; [done|]. intros i. by case_bool_decide. }
  destruct Hd as (d & -> & Hd1 & Hd2). cbn [mbind res_bind]. eexists. split; [done|]. split; [|exact F1].
  split; cbn [physical_to_logical_map logical_to_all_physical_map logical_to_all_physical_map_num_valid logical_to_rank_dispatch_physical_map].
  - split_and!; [lia..|]. exact Hd1.
  - intros i p2l Hi. rewrite F1 in Hi. case_bool_decide; [by apply (Bm i)|by apply (Am i)].
  - intros i p2l algorithm random xs Hi Hdis Hxs Hrand. rewrite F1 in Hi. specialize (F2 i). specialize (F3 i). specialize (Hd2 i). case_bool_decide.
    + rewrite (topk_ext _ other); [by apply (Bt i)|done|done|exact Hd2].
    + rewrite (topk_ext _ self); [by apply (At i)|done|done|exact Hd2].
Qed.

End metadata.

(** The metadata built from the maps of a rebalance. *)
Lemma init_raw_good {Rng} `{PyRandom Rng} nnodes ep_size num_physical num_logical layers (flag : bool) ep_rank m :
  0 < nnodes ≤ ep_size → ep_size ≤ num_physical → Forall (layer_maps num_physical num_logical) layers → 0 ≤ ep_rank < ep_size →
  init_raw (Rng:=Rng) nnodes ep_size ep_rank num_physical num_logical flag (map (λ l, l.1.1) layers) (map (λ l, l.1.2) layers) = Ok m →
  good_meta (length layers) num_physical num_logical flag m.
Proof.
  intros Hnn Hnp Hl Hr Em. pose proof Em as Em0.
  destruct (init_raw_ok nnodes ep_size num_physical Hnn Hnp num_logical layers flag ep_rank Hl Hr) as (m' & Em' & M1 & M2 & M3 & M4).
  rewrite Em in Em'. inversion Em'; subst m'. split.
  - rewrite M1, M2, M3, !length_map. split_and!; [done..|]. destruct flag; [|by rewrite M4]. destruct M4 as (table & Ht & ->).
    apply Forall2_length in Ht. rewrite length_map in *. done.
  - intros i p2l Hi. rewrite M1, list_lookup_fmap in Hi. destruct (layers !! i) as [[[p2l' l2p] cnt]|] eqn:El; [|done]. cbn in Hi. inversion Hi; subst p2l'.
    pose proof (Forall_lookup_1 _ _ _ _ Hl El) as [Hz Hm]. split; [done|]. intros e. split.
    + intros He. exact (proj1 (Forall_forall _ _) (mo_range _ _ _ _ _ Hm) e He).
    + intros He. destruct (mo_lengths _ _ _ _ _ Hm) as [H1 H2]. destruct (lookup_lt_is_Some_2 l2p (Z.to_nat e)) as [row Hrow]; [unfold zlen in *; lia|].
      destruct (row_usable nnodes ep_size Hnn num_logical p2l l2p cnt _ row Hm Hrow) as [[Hne _] Hmem]. destruct (candidates_of row) as [|p l] eqn:Ec; [done|].
      destruct (proj1 (Hmem p)) as [_ Hp]; [by left|]. rewrite Z2Nat.id in Hp by lia. by eapply list_elem_of_lookup_2.
  - intros i p2l algorithm random ids Hi Hdis Hids Hrand. rewrite M1, list_lookup_fmap in Hi. destruct (layers !! i) as [l|] eqn:El; [|done]. cbn in Hi. inversion Hi; subst p2l.
    by apply (topk_ok (Rng:=Rng) nnodes ep_size num_physical Hnn Hnp num_logical layers flag ep_rank).
Qed.

(** ** Weights *)

Section server.
Context {V : Type} `{Transport V} (empty_like : list (list V) → list (list V)) (W : Z → Z → nat → V) (T : nat) (L : Z) (R : nat) (nnodes : Z).
Context (HT : (0 < T)%nat) (HL : 0 < L) (Hnn : 0 < nnodes ≤ Z.of_nat R) (Hempty : ∀ w, shape T L w → shape T L (empty_like w)).

Notation LayerWeights := (gmap Z (list (list (list V)))).
Notation G := (Z.of_nat R / nnodes).
Notation alive := (replicate R true).
Notation num_physical := (Z.of_nat R * L).

Lemma nodes_pos : 0 < G.
Proof. apply Z.div_str_pos. lia. Qed.

Lemma runs_all r : 0 ≤ r < Z.of_nat R → runs alive r = true.
Proof. intros Hr. unfold runs. rewrite lookup_replicate_2 by lia. done. Qed.

(** The ranks hold the experts of a map for a layer. *)
Definition ranks_hold (layer : Z) (p2l : list Z) (w : list (list (list V))) : Prop :=
  length w = R ∧ ∀ r wr, w !! r = Some wr → holding (W layer) T L (Z.of_nat r) p2l wr.
Definition buffers_ok (temps : list (list (list V))) : Prop := length temps = R ∧ Forall (shape T L) temps.

Lemma layer_step old new weights temps missing layer w old_map new_map :
  weights !! layer = Some w → 0 ≤ layer →
  physical_to_logical_map old !! Z.to_nat layer = Some old_map → physical_to_logical_map new !! Z.to_nat layer = Some new_map →
  zlen old_map = num_physical → zlen new_map = num_physical → (∀ e, e ∈ new_map → e ∈ old_map) →
  ranks_hold layer old_map w → buffers_ok temps →
  ∃ w' temps' ms, update_one_layer old new L G alive None (weights, temps, missing) layer = Ok (<[layer := w']> weights, temps', missing ++ [(layer, ms)])
    ∧ ranks_hold layer new_map w' ∧ buffers_ok temps' ∧ Forall (λ m, m = []) ms.
Proof.
  intros Hw H0 Ho Hn Hzo Hzn Hsrc [Hwl Hwh] [Htl Hts]. unfold update_one_layer, layer_weights. rewrite Hw. cbn [mbind res_bind].
  pose proof (tensor_get_lookup _ _ _ Ho) as Eo. pose proof (tensor_get_lookup _ _ _ Hn) as En. rewrite Z2Nat.id in Eo, En by done. rewrite Eo, En. cbn [mbind res_bind].
  assert (Hlen : length new_map = length old_map) by (unfold zlen in *; lia).
  destruct (update_layer_run (W layer) T L G R old_map new_map HL nodes_pos Hzo Hlen Hsrc HT alive None (zip w temps)) as (states & ms & -> & Hsl & Hml & Hupd).
  - apply length_replicate.
  - rewrite length_zip_with. lia.
  - intros r Hr. by apply runs_all.
  - intros r wr t Hr _. apply lookup_zip_with_Some in Hr as (? & ? & [=<- <-] & Hwr & Htr). split; [by apply Hwh|exact (Forall_lookup_1 _ _ _ _ Hts Htr)].
  - cbn [mbind res_bind]. exists (map fst states), (map snd states), ms. split; [done|].
    assert (Hall : ∀ r after m, states !! r = Some after → ms !! r = Some m → shape T L after.1 ∧ shape T L after.2 ∧ m = []
      ∧ ∀ x e, Z.of_nat r * L ≤ x < Z.of_nat r * L + L → new_map !! Z.to_nat x = Some e → slot_is (W layer) T after.1 (slot_of L (Z.of_nat r) x) e).
    { intros r after m Ha Hm. assert (Hr : (r < R)%nat) by (apply lookup_lt_Some in Ha; lia).
      destruct (lookup_lt_is_Some_2 (zip w temps) r) as [before Hb]; [rewrite length_zip_with; lia|].
      specialize (Hupd r before after m Hb Ha Hm). unfold updated in Hupd. rewrite runs_all in Hupd by lia. destruct Hupd as (S1 & S2 & Hslot & Hmiss).
      assert (Em : m = []).
      { destruct m as [|e m]; [done|]. exfalso. destruct (Hmiss e ltac:(left)) as (Hne & s & Hs & Hrun).
        destruct (chosen_range T L G R old_map new_map HL nodes_pos Hzo Hlen Hsrc (Z.of_nat r) HT e s Hne Hs) as [Hsr _]. rewrite runs_all in Hrun by done. done. }
      subst m. split_and!; [done|done|done|]. intros x e Hx He. apply Hslot; [done|done|set_solver]. }
    split; [|split].
    + split; [by rewrite length_map|]. intros r wr Hr. rewrite list_lookup_fmap in Hr. destruct (states !! r) as [after|] eqn:Ea; [|done]. cbn in Hr. inversion Hr; subst wr.
      destruct (lookup_lt_is_Some_2 ms r) as [m Hm]; [apply lookup_lt_Some in Ea; lia|]. destruct (Hall r after m Ea Hm) as (? & _ & _ & ?). done.
    + split; [by rewrite length_map|]. apply Forall_fmap, Forall_lookup. intros r after Ea.
      destruct (lookup_lt_is_Some_2 ms r) as [m Hm]; [apply lookup_lt_Some in Ea; lia|]. by destruct (Hall r after m Ea Hm) as (_ & ? & _).
    + apply Forall_lookup. intros r m Hm. destruct (lookup_lt_is_Some_2 states r) as [after Ea]; [apply lookup_lt_Some in Hm; lia|]. by destruct (Hall r after m Ea Hm) as (_ & _ & ? & _).
Qed.

Context (num_layers : nat) (num_logical : Z) (flag : bool).
Notation good_meta := (good_meta num_layers num_physical num_logical flag).

(** The weights are those the metadata speaks of. *)
Definition placed (m : ExpertLocationMetadata) (weights : LayerWeights) : Prop :=
  ∀ layer w, weights !! layer = Some w → 0 ≤ layer < Z.of_nat num_layers
    ∧ ∃ p2l, physical_to_logical_map m !! Z.to_nat layer = Some p2l ∧ ranks_hold layer p2l w.

Lemma layers_fold old new ids : good_meta old → good_meta new → ∀ weights temps missing,
  NoDup ids → (∀ layer, layer ∈ ids → ∃ w, weights !! layer = Some w ∧ 0 ≤ layer < Z.of_nat num_layers
     ∧ ∃ p2l, physical_to_logical_map old !! Z.to_nat layer = Some p2l ∧ ranks_hold layer p2l w) →
  buffers_ok temps →
  ∃ weights' temps' missing', res_fold (update_one_layer old new L G alive None) (weights, temps, missing) ids = Ok (weights', temps', missing')
    ∧ (∀ layer, layer ∉ ids → weights' !! layer = weights !! layer)
    ∧ ∀ layer, layer ∈ ids → ∃ w p2l, weights' !! layer = Some w ∧ physical_to_logical_map new !! Z.to_nat layer = Some p2l ∧ ranks_hold layer p2l w.
Proof.
  intros Hgo Hgn. induction ids as [|layer ids IH]; intros weights temps missing Hnd Hw Ht; cbn [res_fold].
  { exists weights, temps, missing. split; [done|]. split; [done|set_solver]. }
  apply NoDup_cons in Hnd as [Hni Hnd]. destruct (Hw layer) as (w & Ew & Hr & p2l & Ep & Hh); [by left|].
  destruct (gm_maps _ _ _ _ _ Hgo _ _ Ep) as [Hzo Ho]. destruct (gm_lengths _ _ _ _ _ Hgn) as (Hnl & _).
  destruct (lookup_lt_is_Some_2 (physical_to_logical_map new) (Z.to_nat layer)) as [p2l' Ep']; [lia|]. destruct (gm_maps _ _ _ _ _ Hgn _ _ Ep') as [Hzn Hn].
  destruct (layer_step old new weights temps missing layer w p2l p2l' Ew ltac:(lia) Ep Ep' Hzo Hzn) as (w' & temps' & ms & -> & Hh' & Ht' & _); [|done|done|].
  { intros e He. apply Ho. by apply Hn. }
  cbn [mbind res_bind]. destruct (IH (<[layer := w']> weights) temps' (missing ++ [(layer, ms)]) Hnd) as (weights2 & temps2 & missing2 & E & Hout & Hin); [|done|].
  { intros l Hl. destruct (Hw l) as (w0 & E0 & ?); [by right|]. exists w0. rewrite lookup_insert_ne by (intros ->; done). done. }
  exists weights2, temps2, missing2. split; [exact E|]. split.
  - intros l Hl. rewrite Hout by set_solver. apply lookup_insert_ne. set_solver.
  - intros l [->|Hl]%elem_of_cons; [|by apply Hin]. exists w', p2l'. rewrite Hout by done. rewrite lookup_insert_eq. done.
Qed.

(** A server whose metadata is good and whose weights are in place. *)
Definition sound (s : Server) : Prop := good_meta (sv_meta s) ∧ placed (sv_meta s) (sv_weights s).

Lemma layer_stays m ws layer : sound (mkServer m ws) → layer ∈ dom ws → ∃ w, ws !! layer = Some w ∧ 0 ≤ layer < Z.of_nat num_layers
  ∧ ∃ p2l, physical_to_logical_map m !! Z.to_nat layer = Some p2l ∧ ranks_hold layer p2l w.
Proof. intros [_ Hpl] Hl. apply elem_of_dom in Hl as [w Hw]. exists w. split; [done|]. exact (Hpl _ _ Hw). Qed.

(** The experts and buffers of a layer have the shapes that [empty_like] keeps. *)
Lemma buffers_empty layer p2l w : ranks_hold layer p2l w → buffers_ok (map empty_like w).
Proof.
  intros [Hl Hw]. split; [by rewrite length_map|]. apply Forall_fmap, Forall_lookup. intros r wr Hr. apply Hempty. by destruct (Hw _ _ Hr).
Qed.

(** [ExpertLocationUpdater.update] keeps a server sound. *)
Lemma updater_update_ok s new ids : sound s → good_meta new → ids ≠ [] → NoDup ids → (∀ layer, layer ∈ ids → layer ∈ dom (sv_weights s)) →
  ∃ s' missing, updater_update empty_like num_physical (Z.of_nat R) nnodes alive None s new ids = Ok (s', missing)
    ∧ sound s' ∧ dom (sv_weights s') = dom (sv_weights s)
    ∧ ∀ i, physical_to_logical_map (sv_meta s') !! i = if bool_decide (Z.of_nat i ∈ ids) then physical_to_logical_map new !! i else physical_to_logical_map (sv_meta s) !! i.
Proof.
  intros Hs Hgn Hne Hnd Hids. destruct s as [m ws]. unfold updater_update, update_expert_weights. destruct ids as [|first rest] eqn:Eids; [done|]. rewrite <- Eids in *.
  assert (Hat : ∀ layer, layer ∈ ids → ∃ w, ws !! layer = Some w ∧ 0 ≤ layer < Z.of_nat num_layers
     ∧ ∃ p2l, physical_to_logical_map m !! Z.to_nat layer = Some p2l ∧ ranks_hold layer p2l w) by (intros l Hl; apply layer_stays; auto).
  destruct (Hat first) as (w & Ew & _ & p2l & _ & Hw); [rewrite Eids; by left|]. destruct Hs as [Hgo Hpl]. cbn [sv_meta sv_weights] in *.
  unfold layer_weights. rewrite Ew. cbn [mbind res_bind]. assert (HR : 0 < Z.of_nat R) by lia.
  assert (Hdiv : assert_divides (Z.of_nat R) num_physical = Ok ()) by (apply divides_ok; lia). rewrite Hdiv. cbn [mbind res_bind].
  rewrite (int_div_exact _ (Z.of_nat R)) by lia. cbn [mbind res_bind]. rewrite (int_div_ok _ nnodes) by lia. cbn [mbind res_bind].
  destruct (layers_fold m new ids Hgo Hgn ws (map empty_like w) [] Hnd Hat) as (ws' & temps' & missing & -> & Hout & Hin); [by eapply buffers_empty|]. cbn [mbind res_bind].
  destruct (metadata_update_ok _ _ _ _ m new ids Hgo Hgn) as (m' & -> & Hgm & Hmap). cbn [mbind res_bind].
  eexists _, _. split; [done|]. assert (Hdom : dom ws' = dom ws).
  { apply set_eq. intros l. rewrite !elem_of_dom. destruct (decide (l ∈ ids)) as [Hl|Hl]; [|by rewrite Hout].
    destruct (Hin l Hl) as (w' & _ & -> & _). destruct (Hat l Hl) as (? & -> & _). split; eauto. }
  split; [|split; [exact Hdom|exact Hmap]]. split; [exact Hgm|]. intros layer w' Hw'. cbn [sv_meta sv_weights] in *. destruct (decide (layer ∈ ids)) as [Hl|Hl].
  - destruct (Hin layer Hl) as (w0 & p & E0 & Ep & Hh). destruct (Hat layer Hl) as (_ & _ & Hr & _). split; [done|]. exists p.
    rewrite Hmap, Z2Nat.id, bool_decide_true by (done || lia). rewrite E0 in Hw'. inversion Hw'; subst w0. done.
  - rewrite Hout in Hw' by done. destruct (Hpl _ _ Hw') as (Hr & p & Ep & Hh). split; [done|]. exists p.
    rewrite Hmap, Z2Nat.id, bool_decide_false by (done || lia). done.
Qed.

End server.

(** ** Chunks of layers *)

Lemma chunk_prefix (items : list Z) c k : 0 < c → 
  concat (map (λ i, py_slice items (i * c) (i * c + c)) (seqZ 0 (Z.of_nat k))) = take (k * Z.to_nat c) items.
Proof.
  intros Hc. induction k as [|k IH]; [done|]. rewrite Nat2Z.inj_succ, <- Z.add_1_r, seqZ_app by lia. rewrite map_app, concat_app, IH. rewrite seqZ_cons by lia. rewrite seqZ_nil by lia. cbn [map concat Z.succ Z.pred]. rewrite Z.add_0_l.
  rewrite app_nil_r, py_slice_take_drop by lia. replace (Z.to_nat (Z.of_nat k * c)) with (k * Z.to_nat c)%nat by lia.
  replace (Z.to_nat (Z.of_nat k * c + c - Z.of_nat k * c)) with (Z.to_nat c) by lia. rewrite take_take_drop. f_equal. lia.
Qed.

Lemma chunk_list_ok items c : 0 < c → ∃ chunks, chunk_list items c = Ok chunks ∧ concat chunks = items ∧ Forall (λ ids, ids ≠ [] ∧ zlen ids ≤ c) chunks.
Proof.
  intros Hc. unfold chunk_list. rewrite !bool_decide_false by lia. eexists. split; [done|]. set (n := (zlen items + c - 1) / c).
  assert (Hn : 0 ≤ n) by (apply Z.div_pos; unfold zlen; lia). pose proof (Z.mul_div_le (zlen items + c - 1) c Hc) as H1. pose proof (Z.mul_succ_div_gt (zlen items + c - 1) c Hc) as H2. fold n in H1, H2. split.
  - rewrite <- (Z2Nat.id n) by done. rewrite chunk_prefix by done. apply take_ge. unfold zlen in *. nia.
  - apply Forall_fmap, Forall_forall. intros i Hi%elem_of_seqZ. cbn. rewrite py_slice_take_drop by nia. split.
    + intros Hnil. apply (f_equal length) in Hnil. rewrite length_take, length_drop in Hnil. cbn in Hnil. unfold zlen in *. nia.
    + unfold zlen. rewrite length_take. lia.
Qed.

Section manager.
Context {V : Type} `{Transport V} (empty_like : list (list V) → list (list V)) (W : Z → Z → nat → V) (T : nat) (L : Z) (R : nat) (nnodes : Z).
Context (HT : (0 < T)%nat) (HL : 0 < L) (Hnn : 0 < nnodes ≤ Z.of_nat R) (Hempty : ∀ w, shape T L w → shape T L (empty_like w)).
Context (num_layers : nat) (num_logical : Z) (flag : bool).

Notation LayerWeights := (gmap Z (list (list (list V)))).
Notation alive := (replicate R true).
Notation num_physical := (Z.of_nat R * L).
Notation good_meta := (good_meta num_layers num_physical num_logical flag).
Notation sound := (sound W T L R num_layers num_logical flag).

(** Chunks of layers of the server. *)
Definition chunks_ok (s : Server (V:=V)) (cs : list (list Z)) : Prop :=
  Forall (λ ids, ids ≠ [] ∧ NoDup ids ∧ ∀ layer, layer ∈ ids → layer ∈ dom (sv_weights s)) cs.

Lemma all_layer_ids (ws : LayerWeights) : let ids := py_sort Z.le (map fst (map_to_list ws)) in NoDup ids ∧ ∀ layer, layer ∈ ids ↔ layer ∈ dom ws.
Proof.
  intros ids. assert (Hp : ids ≡ₚ (map_to_list ws).*1) by apply py_sort_Permutation. split; [rewrite Hp; apply NoDup_fst_map_to_list|].
  intros layer. rewrite Hp, list_elem_of_fmap, elem_of_dom. split.
  - intros ([l w] & -> & Hin). apply elem_of_map_to_list in Hin. eauto.
  - intros [w Hw]. exists (layer, w). split; [done|]. by apply elem_of_map_to_list.
Qed.

Lemma NoDup_of_concat (cs : list (list Z)) ids : NoDup (concat cs) → ids ∈ cs → NoDup ids.
Proof. intros Hnd [i Hi]%list_elem_of_lookup. apply list_elem_of_split_length in Hi as (l1 & l2 & -> & _). rewrite concat_app in Hnd. cbn in Hnd. by apply NoDup_app in Hnd as (_ & _ & (? & _)%NoDup_app). Qed.

Lemma compute_chunks_ok (s : Server) per_chunk : ∃ cs, compute_update_layer_ids_chunks (sv_weights s) per_chunk = Ok cs ∧ chunks_ok s cs
  ∧ (match per_chunk with Some n => 0 ≤ n | None => True end → ∀ layer, layer ∈ concat cs ↔ layer ∈ dom (sv_weights s)).
Proof using Type.
  clear HT HL Hnn Hempty. unfold compute_update_layer_ids_chunks. destruct (all_layer_ids (sv_weights s)) as [Hnd Hin]. set (ids := py_sort Z.le (map fst (map_to_list (sv_weights s)))) in *.
  set (c := match per_chunk with Some n => if bool_decide (n = 0) then 1000000 else n | None => 1000000 end).
  destruct (decide (0 < c)) as [Hc|Hc].
  - destruct (chunk_list_ok ids c Hc) as (cs & -> & Hcat & Hall). exists cs. split; [done|]. split; [|intros _; by rewrite Hcat].
    apply Forall_forall. intros x Hx. pose proof (proj1 (Forall_forall _ _) Hall x Hx) as [Hne _]. split; [done|]. split.
    + apply (NoDup_of_concat cs); [by rewrite Hcat|done].
    + intros layer Hl. apply Hin. rewrite <- Hcat. apply list_elem_of_In, in_concat. exists x. split; by apply list_elem_of_In.
  - assert (Hc0 : c < 0 ∧ match per_chunk with Some n => n < 0 | None => False end).
    { subst c. destruct per_chunk as [n|]; [|lia]. case_bool_decide; lia. }
    exists []. unfold chunk_list. rewrite bool_decide_false, bool_decide_true by lia. split; [done|]. split; [constructor|]. destruct per_chunk; lia.
Qed.

Context (iterations : nat) (per_chunk : option Z) (Hit : (0 < iterations)%nat).

Notation step := (on_forward_pass_end empty_like num_physical (Z.of_nat R) nnodes alive None iterations per_chunk).

(** What is left of a rebalance can be done. *)
Definition gen_ok (g : Generator) (s : Server) : Prop :=
  match g with Updating new cs => good_meta new ∧ chunks_ok s cs | _ => True end.

Lemma start_counting_ok : start_counting iterations = Ok (Counting 1).
Proof using Hit. clear HT HL Hnn Hempty. unfold start_counting. by destruct iterations; [lia|]. Qed.

(** One chunk. *)
Lemma update_chunk s new ids : sound s → good_meta new → ids ≠ [] → NoDup ids → (∀ layer, layer ∈ ids → layer ∈ dom (sv_weights s)) →
  ∃ s', update_expert_location empty_like num_physical (Z.of_nat R) nnodes alive None s new ids = Ok s' ∧ sound s' ∧ dom (sv_weights s') = dom (sv_weights s)
    ∧ ∀ i, physical_to_logical_map (sv_meta s') !! i = if bool_decide (Z.of_nat i ∈ ids) then physical_to_logical_map new !! i else physical_to_logical_map (sv_meta s) !! i.
Proof.
  intros Hs Hn Hne Hnd Hids. unfold update_expert_location.
  destruct (updater_update_ok empty_like W T L R nnodes HT HL Hnn Hempty num_layers num_logical flag s new ids Hs Hn Hne Hnd Hids) as (s' & missing & -> & ? & ? & ?).
  cbn [mbind res_bind]. by exists s'.
Qed.

Lemma chunks_ok_dom s s' cs : dom (sv_weights s') = dom (sv_weights s) → chunks_ok s cs → chunks_ok s' cs.
Proof. intros Hd. unfold chunks_ok. by rewrite Hd. Qed.

Lemma start_rebalance_ok above new s : sound s → good_meta new →
  ∃ g s', start_rebalance empty_like num_physical (Z.of_nat R) nnodes alive None iterations per_chunk above (Ok new) s = Ok (g, s') ∧ sound s' ∧ gen_ok g s'.
Proof.
  intros Hs Hn. unfold start_rebalance. rewrite start_counting_ok. destruct (check_rebalance_needed above); cbn [mbind res_bind]; [|by exists (Counting 1), s].
  destruct (compute_chunks_ok s per_chunk) as (cs & -> & Hcs & _). cbn [mbind res_bind]. destruct cs as [|ids [|ids2 cs]].
  - by exists (Counting 1), s.
  - apply Forall_cons in Hcs as [(Hne & Hnd & Hids) _]. destruct (update_chunk s new ids Hs Hn Hne Hnd Hids) as (s' & -> & Hs' & _). cbn [mbind res_bind]. by exists (Counting 1), s'.
  - by exists (Updating new (ids :: ids2 :: cs)), s.
Qed.

Lemma step_ok above new g s : sound s → good_meta new → gen_ok g s →
  ∃ g' s', step above (Ok new) g s = Ok (g', s') ∧ sound s' ∧ gen_ok g' s'.
Proof.
  intros Hs Hn Hg. unfold on_forward_pass_end. destruct g as [|k|m [|ids cs]].
  - destruct iterations; [lia|]. by exists (Counting 1), s.
  - case_bool_decide; [by exists (Counting (S k)), s|]. by apply start_rebalance_ok.
  - rewrite start_counting_ok. by exists (Counting 1), s.
  - destruct Hg as [Hm ((Hne & Hnd & Hids) & Hcs)%Forall_cons]. destruct (update_chunk s m ids Hs Hm Hne Hnd Hids) as (s' & -> & Hs' & Hd & _). cbn [mbind res_bind].
    destruct cs as [|ids2 cs]; [rewrite start_counting_ok; by exists (Counting 1), s'|]. exists (Updating m (ids2 :: cs)), s'. split; [done|]. split; [done|].
    split; [done|]. by apply (chunks_ok_dom s).
Qed.

(** The chunks that are left, one at each pass. *)
Lemma run_chunks {I} (above : I → option bool) (counted : I → res ExpertLocationMetadata) new inputs cs :
  length cs = length inputs → cs ≠ [] → good_meta new → ∀ s, sound s → chunks_ok s cs →
  ∃ s', res_fold (λ st i, step (above i) (counted i) st.1 st.2) (Updating new cs, s) inputs = Ok (Counting 1, s') ∧ sound s'
    ∧ ∀ i, physical_to_logical_map (sv_meta s') !! i
        = if bool_decide (Z.of_nat i ∈ concat cs) then physical_to_logical_map new !! i else physical_to_logical_map (sv_meta s) !! i.
Proof.
  intros Hlen Hne Hn. revert inputs Hlen Hne. induction cs as [|ids cs IH]; intros [|input inputs] Hlen Hne s Hs Hcs; try done.
  apply Forall_cons in Hcs as [(Hid & Hnd & Hids) Hcs]. cbn [res_fold on_forward_pass_end fst snd].
  destruct (update_chunk s new ids Hs Hn Hid Hnd Hids) as (s1 & -> & Hs1 & Hd & Hmap). cbn [mbind res_bind]. destruct cs as [|ids2 cs].
  - rewrite start_counting_ok. cbn [mbind res_bind]. destruct inputs; [|done]. exists s1. split; [done|]. split; [done|]. intros i. rewrite Hmap. cbn [concat]. by rewrite app_nil_r.
  - cbn [mbind res_bind]. destruct (IH inputs ltac:(cbn in *; lia) ltac:(done) s1 Hs1) as (s2 & E & Hs2 & Hmap2); [by apply (chunks_ok_dom s)|]. exists s2. split; [exact E|]. split; [done|].
    intros i. rewrite Hmap2, Hmap. cbn [concat]. repeat case_bool_decide; set_solver.
Qed.

End manager.
