(* ===== verification/ExpertVecProps.v ===== *)
(** * The vectorised balancing

    The maps that [make_redundant_experts_chunkwise] builds in a chunk, and of all chunks together.  Balancing between
    the GPUs and packing of groups only rearrange, so that [deepseek_vec.rebalance_experts] returns maps that
    belong together. *)

From S2P Require Import Prelude RadixKey PyFloat ExpertBalance ExpertProps ExpertPlace ExpertRebalance ExpertDispatch ExpertVec.

Lemma zlen_insert {A} i (x : A) l : zlen (<[i := x]> l) = zlen l.
Proof. unfold zlen. by rewrite length_insert. Qed.

(** The row of an expert lists [c] physical experts, the places of [v] in [p2l] from [p] on, and then padding. *)
Record row_lists (p : Z) (p2l : list Z) (v : Z) (row : list Z) (c : Z) : Prop := {
  rl_count : 1 ≤ c ≤ zlen row;
  rl_pad : drop (Z.to_nat c) row = replicate (length row - Z.to_nat c) (-1);
  rl_nodup : NoDup (take (Z.to_nat c) row);
  rl_in x : x ∈ take (Z.to_nat c) row ↔ p ≤ x ∧ p2l !! Z.to_nat (x - p) = Some v
}.

(** One more place. *)
Lemma row_lists_add p p2l v row c x : row_lists p p2l v row c → c < zlen row → x = p + zlen p2l → 0 ≤ p →
  row_lists p (p2l ++ [v]) v (<[Z.to_nat c := x]> row) (c + 1).
Proof.
  intros [Hc Hpad Hnd Hin] Hlt -> Hp. unfold zlen in *. assert (Ht : take (Z.to_nat (c + 1)) (<[Z.to_nat c := p + Z.of_nat (length p2l)]> row)
     = take (Z.to_nat c) row ++ [p + Z.of_nat (length p2l)]).
  { rewrite Z2Nat.inj_add, Nat.add_1_r by lia. rewrite (take_S_r _ _ (p + Z.of_nat (length p2l))) by (apply list_lookup_insert_eq; lia). by rewrite take_insert_ge. }
  split.
  - unfold zlen. rewrite length_insert. lia.
  - rewrite length_insert, drop_insert_lt by lia. replace (Z.to_nat (c + 1)) with (Z.to_nat c + 1)%nat by lia. rewrite <- drop_drop, Hpad, drop_replicate. f_equal. lia.
  - rewrite Ht. apply NoDup_app. split; [done|]. split; [|apply NoDup_singleton]. intros y Hy%Hin ->%list_elem_of_singleton. destruct Hy as [_ Hy].
    apply lookup_lt_Some in Hy. lia.
  - intros y. rewrite Ht, elem_of_app, Hin, list_elem_of_singleton. split.
    + intros [[? Hy]| ->]; [split; [done|]; by apply lookup_app_l_Some|]. split; [lia|]. rewrite lookup_app_r by lia. by replace (_ - _)%nat with 0%nat by lia.
    + intros [? Hy]. apply lookup_app_Some in Hy as [Hy|[Hge Hy]]; [by left|]. right. apply list_lookup_singleton_Some in Hy as [? _]. lia.
Qed.

Lemma row_lists_other p p2l v v' row c : row_lists p p2l v row c → v' ≠ v → row_lists p (p2l ++ [v']) v row c.
Proof.
  intros [Hc Hpad Hnd Hin] Hv. split; [done|done|done|]. intros y. rewrite Hin. split; intros [? Hy]; (split; [done|]).
  - by apply lookup_app_l_Some.
  - apply lookup_app_Some in Hy as [Hy|[Hge Hy]]; [done|]. apply list_lookup_singleton_Some in Hy as [_ ?]. done.
Qed.

(** ** A chunk *)

Section chunk.
Context {F : Type} `{PyNum F}.

Lemma step_values_ok e (row : list F) count n : (0 < n)%nat → length row = n → length count = n → ∃ vs, step_values e row count = Ok vs ∧ length vs = n.
Proof.
  intros Hn Hr Hc. unfold step_values. set (score := imap _ _). assert (Hs : length score = n) by (unfold score; rewrite length_imap, length_zip_with; lia).
  set (score1 := zip_with _ _ _). assert (Hs1 : length score1 = n) by (unfold score1; rewrite length_zip_with; lia).
  destruct (argmax_range score) as (i & -> & Hi); [lia|]. cbn [mbind res_bind].
  destruct (lookup_lt_is_Some_2 score i Hi) as [m ->]. destruct (lookup_lt_is_Some_2 score1 i ltac:(lia)) as [s1 ->].
  destruct (argmax_range (<[i := s1]> score)) as (i2 & -> & Hi2); [rewrite length_insert; lia|]. cbn [mbind res_bind].
  destruct (lookup_lt_is_Some_2 _ i2 Hi2) as [m2 ->]. eexists. split; [done|]. rewrite length_insert, length_replicate, length_insert. done.
Qed.

Lemma min_index_range (l : list F) : ∀ best bi i, (bi < i)%nat → (min_index best bi i l < i + length l)%nat.
Proof.
  induction l as [|x l IH]; intros best bi i Hb; cbn [min_index length]; [lia|].
  destruct (x <? best)%F; [pose proof (IH x i (S i))|pose proof (IH best bi (S i))]; lia.
Qed.

Lemma argmin_range (l : list F) : (0 < length l)%nat → ∃ e, argmin l = Ok e ∧ (e < length l)%nat.
Proof.
  destruct l as [|x l]; cbn [argmin length]; intros Hl; [lia|]. eexists. split; [done|]. pose proof (min_index_range l x 0 1). lia.
Qed.

Context (p e : Z) (n N : nat) (len : Z) (Hp : 0 ≤ p) (Hn : (0 < n)%nat).

(** The chunk when [i] redundant experts are placed. *)
Record chunk_ok (i : nat) (s : ChunkState) : Prop := {
  ck_lengths : length (ch_phy2log s) = N ∧ length (ch_rows s) = n ∧ length (ch_count s) = n;
  ck_room : (n + i ≤ N)%nat;
  ck_range : Forall (λ v, e ≤ v < e + Z.of_nat n) (take (n + i) (ch_phy2log s));
  ck_rows j row c : ch_rows s !! j = Some row → ch_count s !! j = Some c →
    zlen row = len ∧ c ≤ 1 + Z.of_nat i ∧ row_lists p (take (n + i) (ch_phy2log s)) (e + Z.of_nat j) row c
}.

Lemma redundant_step_ok tokens i s : chunk_ok i s → (n + i < N)%nat → Z.of_nat i + 1 < len → Forall (λ row : list F, length row = n) tokens →
  ∃ s', redundant_step tokens p e n s i = Ok s' ∧ chunk_ok (S i) s'.
Proof.
  intros [(L1 & L2 & L3) _ Hr Hrows] HN Hlen Ht. unfold redundant_step.
  assert (Hv : ∃ vs, res_map (λ row, step_values e row (ch_count s)) tokens = Ok vs).
  { destruct (res_map_Forall2 (λ row, step_values e row (ch_count s)) (λ _ _, True) tokens) as (vs & -> & _); [|by exists vs].
    intros row Hin. pose proof (proj1 (Forall_forall _ _) Ht row Hin) as Hl. cbn in Hl. destruct (step_values_ok e row (ch_count s) n Hn Hl L3) as (vs & -> & _). by exists vs. }
  destruct Hv as [vs ->]. cbn [mbind res_bind]. destruct (argmin_range (sum_columns n vs)) as (j & -> & Hj); [unfold sum_columns; by rewrite length_map, length_seq|].
  unfold sum_columns in Hj. rewrite length_map, length_seq in Hj. cbn [mbind res_bind].
  destruct (lookup_lt_is_Some_2 (ch_count s) j ltac:(lia)) as [c Ec]. destruct (lookup_lt_is_Some_2 (ch_rows s) j ltac:(lia)) as [row Erow]. rewrite Ec, Erow.
  destruct (Hrows j row c Erow Ec) as (Hlr & Hci & Hl). pose proof (rl_count _ _ _ _ _ Hl) as Hc1. rewrite !bool_decide_true by lia. cbn [andb].
  eexists. split; [done|]. assert (Htake : take (n + S i) (<[(n + i)%nat := Z.of_nat j + e]> (ch_phy2log s)) = take (n + i) (ch_phy2log s) ++ [e + Z.of_nat j]).
  { rewrite <- plus_n_Sm. rewrite (take_S_r _ _ (Z.of_nat j + e)) by (apply list_lookup_insert_eq; lia). rewrite take_insert_ge by done. by rewrite Z.add_comm. }
  split; cbn [ch_phy2log ch_rows ch_count].
  - rewrite !length_insert. done.
  - lia.
  - rewrite Htake. apply Forall_app. split; [done|]. repeat constructor; lia.
  - intros j' row' c' Hrow' Hc'. rewrite Htake. destruct (decide (j' = j)) as [->|Hne].
    + rewrite list_lookup_insert_eq in Hrow' by lia. rewrite list_lookup_insert_eq in Hc' by lia. inversion Hrow'; inversion Hc'; subst. rewrite zlen_insert. split; [done|]. split; [lia|].
      apply row_lists_add; [done|lia| |done]. unfold zlen. rewrite length_take. lia.
    + rewrite list_lookup_insert_ne in Hrow' by done. rewrite list_lookup_insert_ne in Hc' by done. destruct (Hrows j' row' c' Hrow' Hc') as (? & ? & ?). split; [done|]. split; [lia|].
      apply row_lists_other; [done|lia].
Qed.

Lemma redundant_steps_ok tokens : Forall (λ row : list F, length row = n) tokens → ∀ k i s, chunk_ok i s → (n + i + k ≤ N)%nat → Z.of_nat (i + k) < len →
  ∃ s', res_fold (redundant_step tokens p e n) s (seq i k) = Ok s' ∧ chunk_ok (i + k) s'.
Proof.
  intros Ht. induction k as [|k IH]; intros i s Hs HN Hlen; cbn [seq res_fold]; [exists s; by rewrite Nat.add_0_r|].
  destruct (redundant_step_ok tokens i s Hs ltac:(lia) ltac:(lia) Ht) as (s1 & -> & Hs1). cbn [mbind res_bind].
  destruct (IH (S i) s1 Hs1 ltac:(lia) ltac:(lia)) as (s2 & E & Hs2). exists s2. split; [exact E|]. by replace (i + S k)%nat with (S i + k)%nat by lia.
Qed.

(** The state before the loop. *)
Lemma chunk_start uninit : (n ≤ N)%nat → 1 ≤ len →
  chunk_ok 0 (mkChunkState (seqZ e (Z.of_nat n) ++ replicate (N - n) uninit) (map (λ j, (p + j) :: replicate (Z.to_nat (len - 1)) (-1)) (seqZ 0 (Z.of_nat n))) (replicate n 1)).
Proof.
  intros HN Hlen. assert (Ht : take (n + 0) (seqZ e (Z.of_nat n) ++ replicate (N - n) uninit) = seqZ e (Z.of_nat n)).
  { rewrite Nat.add_0_r. rewrite take_app_length' by (rewrite length_seqZ; lia). done. }
  split; cbn [ch_phy2log ch_rows ch_count].
  - rewrite length_app, length_map, !length_seqZ, !length_replicate. lia.
  - lia.
  - rewrite Ht. apply Forall_seqZ. lia.
  - rewrite Ht. intros j row c Hrow Hc. rewrite list_lookup_fmap in Hrow. destruct (seqZ 0 (Z.of_nat n) !! j) as [j'|] eqn:Ej; [|done]. cbn in Hrow. inversion Hrow; subst row.
    apply lookup_seqZ in Ej as [-> Hj]. apply lookup_replicate in Hc as [-> _]. rewrite Z.add_0_l in *. split; [unfold zlen; cbn [length]; rewrite length_replicate; lia|]. split; [lia|]. split.
    + unfold zlen. cbn [length]. lia.
    + change (Z.to_nat 1) with 1%nat. cbn [drop length]. rewrite ?drop_0, length_replicate. f_equal. lia.
    + apply NoDup_singleton.
    + intros x. change (take (Z.to_nat 1) _) with [p + Z.of_nat j]. rewrite list_elem_of_singleton. split.
      * intros ->. split; [lia|]. rewrite lookup_seqZ_lt by lia. f_equal. lia.
      * intros [Hx Hl]. apply lookup_seqZ in Hl as [Hl _]. lia.
Qed.

End chunk.

(** ** A layer *)

Section layer.
Context {F : Type} `{PyNum F} (uninit : Z).

(** The maps of the experts [e, e + n) on the physical experts [p, p + N). *)
Record chunk_maps (p e : Z) (n N : nat) (len : Z) (s : ChunkState) : Prop := {
  cm_lengths : length (ch_phy2log s) = N ∧ length (ch_rows s) = n ∧ length (ch_count s) = n;
  cm_range : Forall (λ v, e ≤ v < e + Z.of_nat n) (ch_phy2log s);
  cm_rows j row c : ch_rows s !! j = Some row → ch_count s !! j = Some c → zlen row = len ∧ row_lists p (ch_phy2log s) (e + Z.of_nat j) row c
}.

Lemma redundant_chunk_ok (tokens : list (list F)) (n r : nat) len g : (0 < n)%nat → 0 ≤ g → Z.of_nat r < len →
  Forall (λ row, (Z.to_nat (g * Z.of_nat n) + n ≤ length row)%nat) tokens →
  ∃ s, redundant_chunk uninit tokens (Z.of_nat (n + r)) (Z.of_nat n) len (Z.of_nat r) g = Ok s
    ∧ chunk_maps (g * Z.of_nat (n + r)) (g * Z.of_nat n) n (n + r) len s.
Proof.
  intros Hn Hg Hr Ht. unfold redundant_chunk. rewrite !Nat2Z.id.
  replace (Z.to_nat (Z.of_nat (n + r) - Z.of_nat n)) with (n + r - n)%nat by lia.
  pose proof (chunk_start (g * Z.of_nat (n + r)) (g * Z.of_nat n) n (n + r) len Hn uninit ltac:(lia) ltac:(lia)) as H0.
  assert (Ht' : Forall (λ row : list F, length row = n) (map (λ row, take n (drop (Z.to_nat (g * Z.of_nat n)) row)) tokens)).
  { apply Forall_fmap. eapply Forall_impl; [exact Ht|]. intros row Hrow. cbn in Hrow |- *. rewrite length_take, length_drop. lia. }
  destruct (redundant_steps_ok (g * Z.of_nat (n + r)) (g * Z.of_nat n) n (n + r) len ltac:(apply Z.mul_nonneg_nonneg; lia) Hn _ Ht' r 0%nat _ H0) as (s & E & [Hl _ Hrg Hrows]); [lia..|].
  exists s. split; [exact E|]. destruct Hl as (L1 & L2 & L3). rewrite Nat.add_0_l in *. rewrite take_ge in Hrg by lia. split; [done|done|].
  intros j row c Hrow Hc. destruct (Hrows j row c Hrow Hc) as (? & _ & Hl). rewrite take_ge in Hl by lia. done.
Qed.

End layer.

(** What the maps of a layer promise: the row of every expert lists its places. *)
Record lists_ok (num_logical len : Z) (p2l : list Z) (rows : list (list Z)) (count : list Z) : Prop := {
  ls_range : Forall (λ v, 0 ≤ v < num_logical) p2l;
  ls_lengths : zlen rows = num_logical ∧ zlen count = num_logical;
  ls_rows e row c : rows !! e = Some row → count !! e = Some c → zlen row = len ∧ row_lists 0 p2l (Z.of_nat e) row c
}.

Lemma lists_maps num_logical len p2l rows count : lists_ok num_logical len p2l rows count → maps_ok (λ _, true) num_logical p2l rows count.
Proof.
  intros [Hr Hl Hrows]. split; [done|done|]. intros e row c Hrow Hc. destruct (Hrows e row c Hrow Hc) as [_ [Hc1 Hpad Hnd Hin]]. split; [lia|].
  eexists. split; [rewrite <- Hpad; by rewrite take_drop|]. split; [unfold zlen in *; lia|].
  apply NoDup_Permutation; [done|apply NoDup_holders|]. intros x. rewrite Hin, elem_of_holders, Z.sub_0_r. tauto.
Qed.

(** All chunks. *)
Lemma chunks_lists n N len cs : (0 < n ≤ N)%nat → (∀ g s, cs !! g = Some s → chunk_maps (Z.of_nat g * Z.of_nat N) (Z.of_nat g * Z.of_nat n) n N len s) →
  lists_ok (Z.of_nat (length cs * n)) len (concat (map ch_phy2log cs)) (concat (map ch_rows cs)) (concat (map ch_count cs))
  ∧ length (concat (map ch_phy2log cs)) = (length cs * N)%nat.
Proof.
  intros Hn Hcs.
  assert (HP : Forall (λ l, length l = N) (map ch_phy2log cs)) by (apply Forall_fmap, Forall_lookup; intros g s Hs; by destruct (Hcs g s Hs) as [(? & _) _ _]).
  assert (HR : Forall (λ l, length l = n) (map ch_rows cs)) by (apply Forall_fmap, Forall_lookup; intros g s Hs; by destruct (Hcs g s Hs) as [(_ & ? & _) _ _]).
  assert (HC : Forall (λ l, length l = n) (map ch_count cs)) by (apply Forall_fmap, Forall_lookup; intros g s Hs; by destruct (Hcs g s Hs) as [(_ & _ & ?) _ _]).
  assert (Hphy : ∀ x v, concat (map ch_phy2log cs) !! x = Some v ↔ ∃ g q s, x = (g * N + q)%nat ∧ (q < N)%nat ∧ cs !! g = Some s ∧ ch_phy2log s !! q = Some v).
  { intros x v. rewrite (concat_Some N) by (done || lia). split.
    - intros (g & q & l & -> & Hq & Hl & Hv). rewrite list_lookup_fmap in Hl. destruct (cs !! g) as [s|] eqn:Es; [|done]. cbn in Hl. inversion Hl; subst. by exists g, q, s.
    - intros (g & q & s & -> & Hq & Hs & Hv). exists g, q, (ch_phy2log s). by rewrite list_lookup_fmap, Hs. }
  split; [split|].
  - apply Forall_lookup. intros x v (g & q & s & -> & Hq & Hs & Hv)%Hphy. pose proof (Forall_lookup_1 _ _ _ _ (cm_range _ _ _ _ _ _ (Hcs g s Hs)) Hv) as Hr.
    cbn in Hr. apply lookup_lt_Some in Hs. nia.
  - unfold zlen. rewrite !(length_concat_const n), !length_map by done. done.
  - intros e row c Hrow Hc. apply (concat_Some n) in Hrow as (g & j & l & -> & Hj & Hl & Hrow); [|done|lia]. rewrite (concat_at n) in Hc by done.
    rewrite list_lookup_fmap in Hl. rewrite list_lookup_fmap in Hc. destruct (cs !! g) as [s|] eqn:Es; [|done]. cbn in Hl, Hc. inversion Hl; subst l.
    destruct (cm_rows _ _ _ _ _ _ (Hcs g s Es) j row c Hrow Hc) as (? & [Hc1 Hpad Hnd Hin]). split; [done|]. split; [done|done|done|].
    intros x. rewrite Hin, Z.sub_0_r. pose proof (cm_lengths _ _ _ _ _ _ (Hcs g s Es)) as (L1 & _). split.
    + intros [Hx Hv]. split; [lia|]. apply Hphy. pose proof (lookup_lt_Some _ _ _ Hv). exists g, (Z.to_nat (x - Z.of_nat g * Z.of_nat N)), s. split_and!; [nia|lia|done|].
      rewrite Hv. f_equal. lia.
    + intros [Hx Hv]. apply Hphy in Hv as (g' & q & s' & Ex & Hq & Hs' & Hv). pose proof (Forall_lookup_1 _ _ _ _ (cm_range _ _ _ _ _ _ (Hcs g' s' Hs')) Hv) as Hr. cbn in Hr.
      assert (g' = g) as -> by nia. rewrite Es in Hs'. inversion Hs'; subst s'. split; [lia|]. replace (Z.to_nat (x - Z.of_nat g * Z.of_nat N)) with q by nia.
      rewrite Hv. f_equal. lia.
  - by rewrite (length_concat_const N), length_map.
Qed.

(** ** Rearranging *)

(** The physical experts in another order; [inv] gives their new places. *)
Lemma lists_move num_logical len p2l rows count idx inv p2l' : lists_ok num_logical len p2l rows count → inverts idx inv → length idx = length p2l → picked p2l idx p2l' →
  lists_ok num_logical len p2l' (map (map (λ p, if bool_decide (p = -1) then -1 else default (-1) (inv !! Z.to_nat p))) rows) count.
Proof.
  intros [Hr [Hl1 Hl2] Hrows] [Il Ib If _] Hlen Hp. set (f := λ p, if bool_decide (p = -1) then -1 else default (-1) (inv !! Z.to_nat p)).
  assert (Hf : ∀ x, 0 ≤ x < zlen p2l → ∃ q, f x = Z.of_nat q ∧ inv !! Z.to_nat x = Some (Z.of_nat q) ∧ idx !! q = Some x).
  { intros x Hx. destruct (lookup_lt_is_Some_2 inv (Z.to_nat x)) as [q Hq]; [unfold zlen in *; lia|]. destruct (If _ _ Hq) as [Hq0 Hi]. exists (Z.to_nat q). unfold f.
    rewrite bool_decide_false, Hq by lia. cbn. rewrite !Z2Nat.id in * by lia. done. }
  assert (Hat : ∀ q x, idx !! q = Some x → p2l' !! q = p2l !! Z.to_nat x).
  { intros q x Hx. destruct (Forall2_lookup_l _ _ _ _ _ Hp Hx) as (v & -> & _ & ->). done. }
  split.
  - apply Forall_lookup. intros q v Hv. destruct (Forall2_lookup_r _ _ _ _ _ Hp Hv) as (x & _ & _ & Hx). exact (Forall_lookup_1 _ _ _ _ Hr Hx).
  - by rewrite zlen_map.
  - intros e row' c Hrow' Hc. rewrite list_lookup_fmap in Hrow'. destruct (rows !! e) as [row|] eqn:Erow; [|done]. cbn in Hrow'. inversion Hrow'; subst row'. clear Hrow'.
    destruct (Hrows e row c Erow Hc) as [Hlr [Hc1 Hpad Hnd Hin]]. split; [by rewrite zlen_map|].
    assert (Hx : ∀ x, x ∈ take (Z.to_nat c) row → 0 ≤ x < zlen p2l ∧ p2l !! Z.to_nat x = Some (Z.of_nat e)).
    { intros x [Hx0 Hx]%Hin. rewrite Z.sub_0_r in Hx. pose proof (lookup_lt_Some _ _ _ Hx). unfold zlen. split; [lia|done]. }
    split; rewrite ?zlen_map, ?length_map; [done| | |].
    + rewrite skipn_map, Hpad. by rewrite fmap_replicate.
    + rewrite firstn_map. apply NoDup_fmap_2_strong; [|done]. intros x y Hx1 Hy1 E. destruct (Hx x Hx1) as [Hxr _], (Hx y Hy1) as [Hyr _].
      destruct (Hf x Hxr) as (q & Eq & _ & Hq), (Hf y Hyr) as (q' & Eq' & _ & Hq'). assert (q = q') as <- by lia. congruence.
    + intros y. rewrite firstn_map, Z.sub_0_r. split.
      * intros (x & -> & Hx1)%list_elem_of_fmap. destruct (Hx x Hx1) as [Hxr Hxv]. destruct (Hf x Hxr) as (q & -> & _ & Hq). split; [lia|]. by rewrite Nat2Z.id, (Hat _ _ Hq).
      * intros [Hy Hv]. destruct (Forall2_lookup_r _ _ _ _ _ Hp Hv) as (x & Hix & Hx0 & Hxv). apply list_elem_of_fmap. exists x. split.
        -- destruct (Ib _ _ Hix) as [_ Hinv]. unfold f. rewrite bool_decide_false, Hinv by lia. cbn. lia.
        -- apply Hin. by rewrite Z.sub_0_r.
Qed.

(** The experts under other numbers. *)
Lemma lists_relabel num_logical len p2l rows count fwd back p2l' rows' count' : lists_ok num_logical len p2l rows count → inverts fwd back → zlen fwd = num_logical →
  picked back p2l p2l' → picked rows fwd rows' → picked count fwd count' → lists_ok num_logical len p2l' rows' count'.
Proof.
  intros [Hr [Hl1 Hl2] Hrows] [Il Ib If _] Hlen Hp Hrows' Hcount'. split.
  - apply Forall_lookup. intros x e He. destruct (Forall2_lookup_r _ _ _ _ _ Hp He) as (m & _ & Hm & He'). destruct (If _ _ He') as [? Hi]. apply lookup_lt_Some in Hi. unfold zlen in *. lia.
  - unfold zlen in *. by rewrite (picked_length _ _ _ Hrows'), (picked_length _ _ _ Hcount').
  - intros e row c Hrow Hc. destruct (Forall2_lookup_r _ _ _ _ _ Hrows' Hrow) as (m & Hm & Hm0 & Hrow0). destruct (Forall2_lookup_r _ _ _ _ _ Hcount' Hc) as (m' & Hm' & _ & Hc0).
    rewrite Hm in Hm'. inversion Hm'; subst m'. destruct (Hrows _ _ _ Hrow0 Hc0) as [Hlr [Hc1 Hpad Hnd Hin]]. split; [done|]. split; [done|done|done|]. intros x. rewrite Hin, Z.sub_0_r.
    rewrite Z2Nat.id by done. split; intros [Hx Hv]; (split; [done|]).
    + destruct (Forall2_lookup_l _ _ _ _ _ Hp Hv) as (e' & -> & _ & He'). destruct (Ib _ _ Hm) as [_ Hb]. rewrite Hb in He'. done.
    + destruct (Forall2_lookup_r _ _ _ _ _ Hp Hv) as (m' & -> & Hm0' & He'). destruct (If _ _ He') as [_ Hi]. rewrite Nat2Z.id in Hi. f_equal.
      rewrite Hm in Hi. inversion Hi as [E]. lia.
Qed.

(** [argsort] of a permutation is its inverse. *)
#[local] Instance by_value_total : Total by_value.
Proof. intros a b. unfold by_value. lia. Qed.
#[local] Instance by_value_trans : Transitive by_value.
Proof. intros a b c. unfold by_value. lia. Qed.

Lemma le_sorted_seqZ n a : StronglySorted Z.le (seqZ a n).
Proof.
  destruct (decide (0 ≤ n)) as [Hn|Hn]; [|rewrite seqZ_nil by lia; constructor]. rewrite <- (Z2Nat.id n) by done. clear Hn. generalize (Z.to_nat n) as k. intros k. revert a.
  induction k as [|k IH]; intros a; [constructor|]. rewrite seqZ_cons by lia. constructor; [by replace (Z.pred _) with (Z.of_nat k) by lia|]. apply Forall_seqZ. lia.
Qed.

Lemma argsort_ok perm : perm ≡ₚ seqZ 0 (zlen perm) → inverts perm (argsort perm).
Proof.
  intros Hp. unfold argsort. set (pairs := zip perm (seqZ 0 (zlen perm))). pose proof (py_sort_Permutation by_value pairs) as Hs. pose proof (py_sort_sorted by_value pairs) as Hsort.
  set (s := py_sort by_value pairs) in *. assert (Hlen : length pairs = length perm) by (unfold pairs; rewrite length_zip_with, length_seqZ; unfold zlen; lia).
  assert (Hfst : map fst s = seqZ 0 (zlen perm)).
  { apply (StronglySorted_unique Z.le).
    - clear -Hsort. induction Hsort as [|a l _ IH Ha]; cbn [map]; constructor; [done|]. apply Forall_fmap. exact Ha.
    - apply le_sorted_seqZ.
    - transitivity (map fst pairs); [by apply Permutation_map|]. unfold pairs. rewrite fst_zip by (rewrite length_seqZ; unfold zlen; lia). done. }
  assert (Hpair : ∀ v q, (v, q) ∈ s ↔ 0 ≤ q ∧ perm !! Z.to_nat q = Some v).
  { intros v q. rewrite Hs. unfold pairs. rewrite list_elem_of_lookup. split.
    - intros [i (? & ? & [=<- <-] & Hv & Hq)%lookup_zip_with_Some]. apply lookup_seqZ in Hq as [-> ?]. split; [lia|]. by rewrite Z.add_0_l, Nat2Z.id.
    - intros [Hq Hv]. exists (Z.to_nat q). apply lookup_zip_with_Some. exists v, q. split_and!; [done|done|]. apply lookup_lt_Some in Hv. rewrite lookup_seqZ_lt by (unfold zlen; lia). f_equal. lia. }
  assert (Hat : ∀ j v q, s !! j = Some (v, q) → v = Z.of_nat j).
  { intros j v q Hj. assert (E : map fst s !! j = Some v) by (by rewrite list_lookup_fmap, Hj). rewrite Hfst in E. apply lookup_seqZ in E as [-> _]. lia. }
  split.
  - rewrite length_map, Hs. done.
  - intros i v Hv. assert (Hin : (v, Z.of_nat i) ∈ s) by (apply Hpair; split; [lia|by rewrite Nat2Z.id]). apply list_elem_of_lookup in Hin as [j Hj]. pose proof (Hat _ _ _ Hj) as ->.
    split; [lia|]. by rewrite Nat2Z.id, list_lookup_fmap, Hj.
  - intros j q Hq. rewrite list_lookup_fmap in Hq. destruct (s !! j) as [[v q']|] eqn:Ej; [|done]. cbn in Hq. inversion Hq; subst q'. pose proof (Hat _ _ _ Ej) as ->.
    apply Hpair. by eapply list_elem_of_lookup_2.
  - rewrite zlen_map. assert (Hz : zlen s = zlen perm) by (unfold zlen; rewrite Hs; lia). rewrite Hz. transitivity (map snd pairs); [by apply Permutation_map|].
    unfold pairs. by rewrite snd_zip by (rewrite length_seqZ; unfold zlen; lia).
Qed.

(** ** The order of the GPUs *)

Lemma Permutation_concat {A} (ll kk : list (list A)) : Forall2 (≡ₚ) ll kk → concat ll ≡ₚ concat kk.
Proof. induction 1 as [|l k ll kk Hl _ IH]; [done|]. cbn. by rewrite Hl, IH. Qed.

(** Columns instead of rows. *)
Lemma columns_perm {A} (k : nat) (rows : list (list A)) : Forall (λ row, length row = k) rows →
  concat (map (λ a, omap (.!! a) rows) (seq 0 k)) ≡ₚ concat rows.
Proof.
  induction 1 as [|row rows Hr _ IH].
  - cbn [concat]. induction (seq 0 k) as [|a l IH]; [done|exact IH].
  - cbn [concat]. rewrite <- IH. clear IH. assert (Hrow : row = omap (row !!.) (seq 0 k)).
    { clear -Hr. revert k Hr. induction row as [|x row IH] using rev_ind; intros k Hk; rewrite ?length_app in Hk; cbn in Hk; [by subst|].
      replace k with (S (length row)) by lia. rewrite seq_S, omap_app. cbn. rewrite list_lookup_middle by done. f_equal. rewrite (IH (length row)) at 1 by done.
      apply list_omap_ext, Forall_Forall2_diag, Forall_forall. intros a Ha%elem_of_seq. by rewrite lookup_app_l by lia. }
    assert (Hin : ∀ a, a ∈ seq 0 k → is_Some (row !! a)) by (intros a Ha%elem_of_seq; apply lookup_lt_is_Some_2; lia).
    transitivity (omap (row !!.) (seq 0 k) ++ concat (map (λ a, omap (.!! a) rows) (seq 0 k))); [|by rewrite <- Hrow]. clear Hr Hrow. induction (seq 0 k) as [|a l IH]; [done|]. destruct (Hin a ltac:(left)) as [x Hx]. cbn. rewrite Hx. cbn.
    constructor. rewrite IH by (intros b Hb; apply Hin; by right). rewrite !app_assoc. apply Permutation_app_tail, Permutation_app_comm.
Qed.

Lemma snake_perm (a k : nat) (l : list Z) : (0 < k)%nat → length l = (a * k)%nat → snake a k l ≡ₚ l.
Proof.
  intros Hk Hl. unfold snake. pose proof (chunks_lengths _ _ _ Hl) as Hc. rewrite columns_perm.
  - rewrite <- (concat_chunks a k l Hk Hl) at 2. apply Permutation_concat, Forall2_lookup. intros i. rewrite list_lookup_imap.
    destruct (chunks a k l !! i) as [row|]; constructor. destruct (Nat.odd i); [apply reverse_Permutation|done].
  - apply Forall_lookup. intros i row Hi. rewrite list_lookup_imap in Hi. destruct (chunks a k l !! i) as [row'|] eqn:E; [|done]. cbn in Hi. inversion Hi.
    pose proof (Forall_lookup_1 _ _ _ _ Hc E) as Hr. cbn in Hr. destruct (Nat.odd i); by rewrite ?length_reverse.
Qed.

Lemma blocks_seqZ (N C : nat) : concat (map (λ g, map (λ i, Z.of_nat i + Z.of_nat g * Z.of_nat N) (seq 0 N)) (seq 0 C)) = seqZ 0 (Z.of_nat (C * N)).
Proof.
  induction C as [|C IH]; [done|]. rewrite seq_S, map_app, concat_app, IH. cbn [map concat]. rewrite app_nil_r. replace (Z.of_nat (S C * N)) with (Z.of_nat (C * N) + Z.of_nat N) by lia.
  rewrite seqZ_app by lia. f_equal. apply list_eq. intros i. rewrite list_lookup_fmap. destruct (decide (i < N)%nat) as [Hi|Hi].
  - rewrite lookup_seq_lt, lookup_seqZ_lt by lia. cbn. f_equal. lia.
  - rewrite lookup_seq_ge, lookup_seqZ_ge by lia. done.
Qed.

Lemma divides_nat a k : (0 < a)%nat → assert_divides (Z.of_nat a) (Z.of_nat (a * k)) = Ok tt.
Proof. intros Ha. rewrite Nat2Z.inj_mul. apply divides_ok. lia. Qed.
Lemma int_div_nat a k : (0 < a)%nat → int_div (Z.of_nat (a * k)) (Z.of_nat a) = Ok (Z.of_nat k).
Proof. intros Ha. rewrite Nat2Z.inj_mul. apply int_div_exact. lia. Qed.

Section maps.
Context {F : Type} `{PyNum F} (sort_desc : list F → list nat) (uninit : Z) (Hsort : ∀ l, sort_desc l ≡ₚ seq 0 (length l)).

(** [indices] *)
Lemma gpu_order_perm (C a k : nat) (score : list F) : (0 < k)%nat → length score = (C * (a * k))%nat →
  concat (imap (λ g s, snake a k (map (λ i, Z.of_nat i + Z.of_nat g * Z.of_nat (a * k)) (sort_desc s))) (chunks C (a * k) score)) ≡ₚ seqZ 0 (Z.of_nat (C * (a * k))).
Proof.
  intros Hk Hl. rewrite <- blocks_seqZ. apply Permutation_concat, Forall2_lookup. intros g. rewrite list_lookup_imap, list_lookup_fmap. destruct (decide (g < C)%nat) as [Hg|Hg].
  - pose proof (chunks_lengths _ _ _ Hl) as Hc. destruct (lookup_lt_is_Some_2 (chunks C (a * k) score) g) as [s Es]; [by rewrite chunks_length|].
    pose proof (Forall_lookup_1 _ _ _ _ Hc Es) as Hs. cbn in Hs. rewrite Es, lookup_seq_lt by done. cbn. constructor.
    rewrite snake_perm; [|done|by rewrite length_map, Hsort, length_seq]. rewrite Hsort, Hs. done.
  - rewrite lookup_ge_None_2 by (rewrite chunks_length; lia). rewrite lookup_seq_ge by lia. constructor.
Qed.

(** The entries of the rows are places or padding. *)
Lemma rows_range num_logical len p2l rows count : lists_ok num_logical len p2l rows count → ∀ row p, row ∈ rows → p ∈ row → p = -1 ∨ 0 ≤ p < zlen p2l.
Proof.
  intros [_ [H1 H2] Hrows] row p [e He]%list_elem_of_lookup Hp. destruct (lookup_lt_is_Some_2 count e) as [c Hc]; [apply lookup_lt_Some in He; unfold zlen in *; lia|].
  destruct (Hrows e row c He Hc) as [_ [_ Hpad _ Hin]]. rewrite <- (take_drop (Z.to_nat c) row) in Hp. apply elem_of_app in Hp as [Hp|Hp].
  - right. apply Hin in Hp as [Hp Hv]. rewrite Z.sub_0_r in Hv. apply lookup_lt_Some in Hv. unfold zlen. lia.
  - left. rewrite Hpad in Hp. by apply elem_of_replicate in Hp as [-> _].
Qed.

Lemma balance_gpus_ok tokens num_logical len (C a k : nat) p2l rows count : (0 < a)%nat → (0 < k)%nat → lists_ok num_logical len p2l rows count → length p2l = (C * (a * k))%nat →
  ∃ p2l' rows', balance_gpus sort_desc tokens (Z.of_nat (C * (a * k))) (Z.of_nat a) (Z.of_nat C) (Z.of_nat (a * k)) p2l rows count = Ok (p2l', rows')
    ∧ lists_ok num_logical len p2l' rows' count ∧ length p2l' = length p2l.
Proof.
  intros Ha Hk Hok Hlen. pose proof Hok as [Hr [H1 H2] _]. unfold balance_gpus.
  destruct (gather_ok count p2l) as (counts & -> & Hcounts); [by rewrite H2|]. cbn [mbind res_bind].
  destruct (gather_ok (sum_columns (length count) tokens) p2l) as (total & -> & Htotal).
  { unfold sum_columns, zlen. rewrite length_map, length_seq. fold (zlen count). by rewrite H2. }
  cbn [mbind res_bind]. rewrite divides_nat, int_div_nat by done. cbn [mbind res_bind]. rewrite !Nat2Z.id.
  set (score := zip_with _ total counts). assert (Hs : length score = (C * (a * k))%nat).
  { unfold score. rewrite length_zip_with, (picked_length _ _ _ Hcounts), (picked_length _ _ _ Htotal). lia. }
  pose proof (gpu_order_perm C a k score Hk Hs) as Hperm. set (idx := concat (imap _ _)) in *.
  assert (Hil : length idx = (C * (a * k))%nat) by (rewrite Hperm, length_seqZ; lia). assert (Hperm' : idx ≡ₚ seqZ 0 (zlen idx)) by (unfold zlen; by rewrite Hil).
  pose proof (argsort_ok idx Hperm') as Hinv. destruct (gather_ok p2l idx) as (p2l' & -> & Hp2l').
  { apply Forall_forall. intros x Hx. rewrite Hperm' in Hx. apply elem_of_seqZ in Hx. unfold zlen in *. lia. }
  cbn [mbind res_bind]. rewrite (res_map_ok _ (map (λ p, if bool_decide (p = -1) then -1 else default (-1) (argsort idx !! Z.to_nat p)))).
  - cbn [mbind res_bind]. eexists _, _. split; [done|]. split; [|rewrite (picked_length _ _ _ Hp2l'); lia]. apply (lists_move num_logical len p2l rows count idx); [done|done|lia|done].
  - intros row Hrow. apply res_map_ok. intros p Hp. destruct (rows_range _ _ _ _ _ Hok row p Hrow Hp) as [->|Hpr]; [done|]. rewrite bool_decide_false by lia.
    pose proof (iv_length _ _ Hinv) as Hl. destruct (tensor_get_some (argsort idx) p) as (x & -> & ->); [unfold zlen in *; lia|]. done.
Qed.

(** ** A layer *)

Lemma make_redundant_ok (tokens : list (list F)) (C n r a : nat) : (0 < C)%nat → (0 < n)%nat → (0 < a)%nat → ((n + r) mod a = 0)%nat →
  Forall (λ row, length row = (C * n)%nat) tokens →
  ∃ p2l rows count, make_redundant_layer sort_desc uninit tokens (Z.of_nat (C * n)) (Z.of_nat (C * (n + r))) (Z.of_nat a) (Z.of_nat (n + r)) = Ok (p2l, rows, count)
    ∧ lists_ok (Z.of_nat (C * n)) (Z.of_nat (C * r) + 1) p2l rows count ∧ length p2l = (C * (n + r))%nat.
Proof.
  intros HC Hn Ha Hdiv Ht. unfold make_redundant_layer. replace (Z.of_nat (C * (n + r)) - Z.of_nat (C * n)) with (Z.of_nat (C * r)) by lia.
  rewrite bool_decide_false by lia. assert (HN : (0 < n + r)%nat) by lia. rewrite (Nat.mul_comm C (n + r)). rewrite (divides_nat (n + r)) by done. rewrite (int_div_nat (n + r)) by done. cbn [mbind res_bind].
  rewrite (divides_nat C n), (int_div_nat C n) by done. cbn [mbind res_bind].
  rewrite (divides_nat C r), (int_div_nat C r) by done. cbn [mbind res_bind]. rewrite bool_decide_false by lia.
  destruct (res_map_Forall2 (redundant_chunk uninit tokens (Z.of_nat (n + r)) (Z.of_nat n) (Z.of_nat (C * r) + 1) (Z.of_nat r))
    (λ g s, chunk_maps (g * Z.of_nat (n + r)) (g * Z.of_nat n) n (n + r) (Z.of_nat (C * r) + 1) s) (seqZ 0 (Z.of_nat C))) as (cs & -> & Hcs).
  { intros g Hg%elem_of_seqZ. apply redundant_chunk_ok; [done|lia|nia|]. eapply Forall_impl; [exact Ht|]. intros row Hrow. cbn in Hrow. nia. }
  cbn [mbind res_bind]. pose proof (Forall2_length _ _ _ Hcs) as Hl. rewrite length_seqZ, Nat2Z.id in Hl.
  destruct (chunks_lists n (n + r) (Z.of_nat (C * r) + 1) cs) as [Hok Hlen]; [lia| |].
  { intros g s Hs. destruct (Forall2_lookup_r _ _ _ _ _ Hcs Hs) as (g' & Hg' & Hm). apply lookup_seqZ in Hg' as [-> _]. done. }
  rewrite <- Hl in Hok, Hlen. case_bool_decide as Hloc.
  - apply Nat.Div0.mod_divides in Hdiv as [k Hk]. destruct (balance_gpus_ok tokens _ _ C a k _ _ _ Ha ltac:(nia) Hok) as (p2l' & rows' & E & Hok' & Hlen'); [lia|].
    rewrite <- Hk, (Nat.mul_comm C (n + r)) in E. rewrite E. cbn [mbind res_bind]. eexists _, _, _. split; [done|]. split; [exact Hok'|lia].
  - eexists _, _, _. split; [done|]. split; [exact Hok|lia].
Qed.

(** ** Packing of groups *)

(** The first of the smallest keys is not a full node when there is another. *)
Lemma first_min_free (keys : list (Z * F)) : ∀ best bk i, Forall (λ k, k.1 = 0 ∨ k.1 = 1) (bk :: keys) → Exists (λ k, k.1 = 0) (bk :: keys) →
  let r := first_min best bk i keys in (r = best ∧ bk.1 = 0) ∨ ((i ≤ r)%nat ∧ ∃ k, keys !! (r - i)%nat = Some k ∧ k.1 = 0).
Proof.
  induction keys as [|k keys IH]; intros best bk i Hall Hex; cbn [first_min].
  { left. apply Exists_cons in Hex as [|Hn]; [done|by apply Exists_nil in Hn]. }
  apply Forall_cons in Hall as [Hbk Hall]. pose proof Hall as [Hk Hall']%Forall_cons. unfold key_lt. case_bool_decide as E1; cbn [orb].
  - right. destruct (IH i k (S i) Hall) as [[-> Hk0]|(Hge & k' & Hk' & Hk0)]; [left; lia| |].
    + split; [lia|]. exists k. by rewrite Nat.sub_diag.
    + split; [lia|]. exists k'. split; [|done]. replace (first_min _ _ _ _ - i)%nat with (S (first_min i k (S i) keys - S i)) by lia. done.
  - assert (Hbk' : bk.1 = 0 ∨ (k.1 = 1 ∧ Exists (λ k, k.1 = 0) keys)).
    { apply Exists_cons in Hex as [|Hex]; [by left|]. destruct Hbk as [|Hbk]; [by left|]. right. apply Exists_cons in Hex as [Hk0|Hex]; [lia|]. split; [lia|done]. }
    assert (Hrec : ∀ b k0, Forall (λ k, k.1 = 0 ∨ k.1 = 1) (k0 :: keys) → Exists (λ k, k.1 = 0) (k0 :: keys) →
      (k0.1 = 0 → b = best ∧ bk.1 = 0 ∨ b = i ∧ k.1 = 0) →
      let r := first_min b k0 (S i) keys in (r = best ∧ bk.1 = 0) ∨ ((i ≤ r)%nat ∧ ∃ k', (k :: keys) !! (r - i)%nat = Some k' ∧ k'.1 = 0)).
    { intros b k0 Ha He Hb r. destruct (IH b k0 (S i) Ha He) as [[Er Hk0]|(Hge & k' & Hk' & Hk0)]; fold r in Er || fold r in Hge, Hk'.
      - destruct (Hb Hk0) as [[-> ?]|[-> ?]]; [by left|]. right. rewrite Er, Nat.sub_diag. split; [lia|]. by exists k.
      - right. split; [lia|]. exists k'. split; [|done]. replace (r - i)%nat with (S (r - S i)) by lia. done. }
    destruct (bool_decide (k.1 = bk.1) && (k.2 <? bk.2)%F) eqn:E2.
    + apply andb_true_iff in E2 as [E2%bool_decide_eq_true _]. apply Hrec; [done| |].
      * destruct Hbk' as [Hb|[_ Hex']]; [left; lia|by right].
      * intros Hk0. right. split; [done|lia].
    + apply Hrec; [by constructor| |].
      * destruct Hbk' as [Hb|[_ Hex']]; [by left|by right].
      * intros Hb. by left.
Qed.

(** The nodes when the groups [done] are placed. *)
Record vec_packing (k : Z) (N n : nat) (done : list nat) (nodes : list (F * Z)) (ret : list Z) : Prop := {
  vp_lengths : length nodes = N ∧ length ret = n;
  vp_counts : Forall (λ c, 0 ≤ c ≤ k) (map snd nodes);
  vp_sum : sumZ (map snd nodes) = zlen done;
  vp_done g : g ∈ done → ∃ r c x, ret !! g = Some (Z.of_nat r * k + x) ∧ map snd nodes !! r = Some c ∧ 0 ≤ x < c;
  vp_inj g g' : g ∈ done → g' ∈ done → ret !! g = ret !! g' → g = g'
}.

Lemma pack_one_ok k N n done nodes ret g tokens : vec_packing k N n done nodes ret → zlen done < Z.of_nat N * k → g ∉ done → (g < n)%nat → (g < length tokens)%nat →
  ∃ nodes' ret', pack_one k tokens (nodes, ret) g = Ok (nodes', ret') ∧ vec_packing k N n (g :: done) nodes' ret'.
Proof.
  intros [(L1 & L2) P2 P3 P4 P5] Hroom Hg Hn Hw. unfold pack_one.
  assert (Hkeys : Forall (λ x, x.1 = 0 ∨ x.1 = 1) (map (node_key k) nodes)).
  { apply Forall_fmap, Forall_true. intros nd. unfold compose, node_key. case_bool_decide; cbn; lia. }
  assert (Hex : Exists (λ x, x.1 = 0) (map (node_key k) nodes)).
  { destruct (decide (Exists (λ x, x.1 = 0) (map (node_key k) nodes))) as [|Hno]; [done|]. exfalso. apply not_Exists_Forall in Hno; [|apply _].
    assert (Hall : Forall (λ c, c = k) (map snd nodes)).
    { apply Forall_fmap. apply (proj1 (Forall_fmap _ _ _)) in Hno. apply (proj1 (Forall_fmap _ _ _)) in P2. apply Forall_forall. intros nd Hin.
      pose proof (proj1 (Forall_forall _ _) Hno nd Hin) as H1. pose proof (proj1 (Forall_forall _ _) P2 nd Hin) as H2. unfold compose, node_key in *. cbn in H2 |- *.
      case_bool_decide; [lia|]. by destruct H1. }
    rewrite (sumZ_full k) in P3 by done. unfold zlen at 1 in P3. rewrite length_map, L1 in P3. lia. }
  destruct (map (node_key k) nodes) as [|k0 keys] eqn:Ek; [by apply Exists_nil in Hex|]. set (r := first_min 0 k0 1 keys).
  assert (Hr : ∃ t c, nodes !! r = Some (t, c) ∧ c < k).
  { assert (Hkr : ∃ kr, map (node_key k) nodes !! r = Some kr ∧ kr.1 = 0).
    { rewrite Ek. destruct (first_min_free keys 0 k0 1 Hkeys Hex) as [[Er ?]|(Hge & kr & Hkr & ?)]; fold r in Er || fold r in Hge, Hkr; [rewrite Er; by exists k0|].
      exists kr. split; [|done]. replace r with (S (r - 1)) by lia. done. }
    destruct Hkr as (kr & Hkr & Hk0). rewrite list_lookup_fmap in Hkr. destruct (nodes !! r) as [[t c]|]; [|done]. exists t, c. split; [done|]. cbn in Hkr. inversion Hkr; subst kr.
    unfold node_key in Hk0. cbn in Hk0. case_bool_decide; [done|lia]. }
  destruct Hr as (t & c & Er & Hck). rewrite Er. destruct (lookup_lt_is_Some_2 tokens g Hw) as [w ->]. rewrite bool_decide_true by done. cbn [py_assert mbind res_bind].
  eexists _, _. split; [done|]. pose proof (lookup_lt_Some _ _ _ Er) as Hlt. assert (Ec : map snd nodes !! r = Some c) by (by rewrite list_lookup_fmap, Er).
  pose proof (Forall_lookup_1 _ _ _ _ P2 Ec) as Hc0. cbn in Hc0.
  assert (Em : map snd (<[r := ((t + w)%F, c + 1)]> nodes) = <[r := c + 1]> (map snd nodes)) by (by rewrite (list_fmap_insert snd)).
  assert (Hsep : ∀ g', g' ∈ done → ret !! g' = Some (Z.of_nat r * k + c) → False).
  { intros g' Hg' E. destruct (P4 g' Hg') as (r' & c' & x & H1 & H2 & H3). rewrite H1 in E. inversion E as [E']. pose proof (Forall_lookup_1 _ _ _ _ P2 H2) as Hc'. cbn in Hc'.
    destruct (place_inj k (Z.of_nat r') (Z.of_nat r) x c) as [Err ->]; [lia..|]. apply Nat2Z.inj in Err as ->. rewrite Ec in H2. inversion H2; subst. lia. }
  split; rewrite ?Em.
  - by rewrite !length_insert.
  - apply Forall_insert; [done|lia].
  - rewrite (sumZ_insert _ _ _ _ Ec), zlen_cons. lia.
  - intros g' [->|Hg']%elem_of_cons.
    + exists r, (c + 1), c. rewrite !list_lookup_insert_eq by (rewrite ?length_map; lia). split_and!; [done|done|lia|lia].
    + destruct (P4 g' Hg') as (r' & c' & x & H1 & H2 & H3). rewrite list_lookup_insert_ne by (intros ->; done). destruct (decide (r' = r)) as [->|Hne].
      * exists r, (c + 1), x. rewrite list_lookup_insert_eq by (rewrite length_map; lia). rewrite Ec in H2. inversion H2; subst. split_and!; [done|done|lia|lia].
      * exists r', c', x. rewrite list_lookup_insert_ne by done. done.
  - intros g1 g2 [->|H1]%elem_of_cons [->|H2]%elem_of_cons E; [done| | |].
    + exfalso. rewrite list_lookup_insert_eq in E by lia. rewrite list_lookup_insert_ne in E by (intros ->; done). by eapply (Hsep g2).
    + exfalso. rewrite (list_lookup_insert_eq _ g) in E by lia. rewrite list_lookup_insert_ne in E by (intros ->; done). by eapply (Hsep g1).
    + rewrite !list_lookup_insert_ne in E by (intros ->; done). by apply P5.
Qed.

Lemma pack_all k N n tokens groups : ∀ done nodes ret, vec_packing k N n done nodes ret → NoDup (groups ++ done) → Forall (λ g, g < n ∧ g < length tokens)%nat groups →
  zlen groups + zlen done ≤ Z.of_nat N * k →
  ∃ nodes' ret', res_fold (pack_one k tokens) (nodes, ret) groups = Ok (nodes', ret') ∧ vec_packing k N n (rev groups ++ done) nodes' ret'.
Proof.
  induction groups as [|g groups IH]; intros done nodes ret Hp Hnd Hr Hroom; cbn [res_fold]; [by exists nodes, ret|].
  cbn [app] in Hnd. apply NoDup_cons in Hnd as [Hg Hnd]. apply Forall_cons in Hr as [[Hn Hw] Hr]. rewrite zlen_cons in Hroom. pose proof (zlen_nonneg groups).
  destruct (pack_one_ok k N n done nodes ret g tokens Hp) as (nodes1 & ret1 & -> & Hp1); [lia|set_solver|done|done|]. cbn [mbind res_bind].
  destruct (IH (g :: done) nodes1 ret1 Hp1) as (nodes' & ret' & -> & Hp'); [|done|rewrite zlen_cons; lia|].
  - rewrite <- Permutation_middle. constructor; done.
  - exists nodes', ret'. split; [done|]. cbn [rev]. by rewrite <- app_assoc.
Qed.

(** The groups are renumbered, [k] to a node. *)
Lemma vec_pack_groups_ok (N k : nat) tokens : (0 < N)%nat → length tokens = (N * k)%nat →
  ∃ ret, vec_pack_groups sort_desc tokens (Z.of_nat N) = Ok ret ∧ length ret = (N * k)%nat ∧ ret ≡ₚ seqZ 0 (zlen ret).
Proof.
  intros HN Hl. unfold vec_pack_groups, zlen at 1 2. rewrite Hl, divides_nat, int_div_nat by done. cbn [mbind res_bind]. rewrite Nat2Z.id.
  pose proof (Hsort tokens) as Hpm. destruct (pack_all (Z.of_nat k) N (N * k) tokens (sort_desc tokens) [] (replicate N (fofZ 0, 0)) (replicate (N * k) (-1)))
    as (nodes & ret & -> & [(L1 & L2) P2 P3 P4 P5]).
  - split; rewrite ?length_replicate, ?fmap_replicate; [done| | |by intros ? ?%not_elem_of_nil|by intros ? ? ?%not_elem_of_nil].
    + apply Forall_replicate. cbn. lia.
    + rewrite (sumZ_full 0) by (by apply Forall_replicate). by rewrite Z.mul_0_r.
  - rewrite app_nil_r, Hpm. apply NoDup_seq.
  - rewrite Hpm. apply Forall_forall. intros g Hg. apply elem_of_seq in Hg. lia.
  - unfold zlen at 1. rewrite Hpm, length_seq. change (zlen []) with 0. lia.
  - cbn [mbind res_bind]. exists ret. split; [done|]. split; [done|]. rewrite app_nil_r in *.
    assert (Hall : ∀ g x, ret !! g = Some x → g ∈ rev (sort_desc tokens)).
    { intros g x Hg. rewrite <- Permutation_rev, Hpm. apply elem_of_seq. apply lookup_lt_Some in Hg. lia. }
    apply perm_seqZ.
    + apply NoDup_alt. intros g g' x Hg Hg'. apply P5; [by eapply Hall|by eapply Hall|congruence].
    + apply Forall_lookup. intros g x Hg. destruct (P4 g (Hall g x Hg)) as (r & c & y & E & Hc & Hy). rewrite Hg in E. inversion E; subst x.
      pose proof (Forall_lookup_1 _ _ _ _ P2 Hc) as Hc'. cbn in Hc'. apply lookup_lt_Some in Hc. rewrite length_map in Hc. unfold zlen. rewrite L2. nia.
Qed.

(** The hierarchical variant: the experts are renumbered, placed, and renumbered back. *)
Lemma prefill_ok (tokens : list (list F)) (N k S r a : nat) : (0 < N)%nat → (0 < k)%nat → (0 < S)%nat → (0 < a)%nat → ((k * S + r) mod a = 0)%nat →
  Forall (λ row, length row = (N * (k * S))%nat) tokens →
  ∃ p2l rows count, prefill_rebalance_layer sort_desc uninit tokens (Z.of_nat (N * (k * S))) (Z.of_nat (N * (k * S + r))) (Z.of_nat a) (Z.of_nat (N * k)) (Z.of_nat N)
      = Ok (p2l, rows, count)
    ∧ lists_ok (Z.of_nat (N * (k * S))) (Z.of_nat (N * r) + 1) p2l rows count ∧ length p2l = (N * (k * S + r))%nat.
Proof.
  intros HN Hk HS Ha Hdiv Ht. unfold prefill_rebalance_layer. assert (HNk : (0 < N * k)%nat) by lia.
  assert (E1 : assert_divides (Z.of_nat (N * k)) (Z.of_nat (N * (k * S))) = Ok tt) by (rewrite Nat.mul_assoc; by apply divides_nat).
  assert (E2 : int_div (Z.of_nat (N * (k * S))) (Z.of_nat (N * k)) = Ok (Z.of_nat S)) by (rewrite Nat.mul_assoc; by apply int_div_nat).
  rewrite E1, E2. cbn [mbind res_bind]. rewrite divides_nat by done. cbn [mbind res_bind]. rewrite !Nat2Z.id.
  set (groups := map fsum _). assert (Hg : length groups = (N * k)%nat) by (unfold groups; by rewrite length_map, chunks_length).
  destruct (vec_pack_groups_ok N k groups HN Hg) as (perm & -> & Hpl & Hperm). cbn [mbind res_bind].
  fold (regroup (Z.of_nat S) perm). pose proof (length_regroup (Z.of_nat S) perm ltac:(lia)) as Hlen. set (log2mlog := regroup (Z.of_nat S) perm) in *.
  assert (Hl : zlen log2mlog = Z.of_nat (N * (k * S))) by (rewrite Hlen; unfold zlen; lia).
  assert (Hlp : log2mlog ≡ₚ seqZ 0 (zlen log2mlog)) by (apply (regroup_perm _ _ (zlen perm)); [lia|done|done]).
  destruct (inverse_ok uninit log2mlog Hlp) as (back & -> & Hinv). cbn [mbind res_bind]. pose proof Hinv as [Il _ _ Ip].
  assert (Hbr : Forall (λ i, 0 ≤ i < Z.of_nat (N * (k * S))) back).
  { apply Forall_forall. intros i Hi. rewrite Ip in Hi. apply elem_of_seqZ in Hi. unfold zlen in *. lia. }
  destruct (res_map_Forall2 (λ row : list F, gather row back) (λ _ row', length row' = (N * (k * S))%nat) tokens) as (tokens' & -> & Ht').
  { intros row Hrow. pose proof (proj1 (Forall_forall _ _) Ht row Hrow) as Hr. cbn in Hr. destruct (gather_ok row back) as (row' & -> & Hp); [unfold zlen; by rewrite Hr|].
    exists row'. split; [done|]. rewrite (picked_length _ _ _ Hp). unfold zlen in *. lia. }
  cbn [mbind res_bind]. rewrite int_div_nat by done. cbn [mbind res_bind].
  destruct (make_redundant_ok tokens' N (k * S) r a HN ltac:(nia) Ha Hdiv) as (p2l & rows & count & -> & Hok & Hlp2l).
  { apply Forall_lookup. intros i row' Hi. destruct (Forall2_lookup_r _ _ _ _ _ Ht' Hi) as (row & _ & Hr). done. }
  cbn [mbind res_bind]. pose proof Hok as [Hrange [H1 H2] _].
  assert (Hfr : Forall (λ i, 0 ≤ i < Z.of_nat (N * (k * S))) log2mlog).
  { apply Forall_forall. intros i Hi. rewrite Hlp in Hi. apply elem_of_seqZ in Hi. lia. }
  destruct (gather_ok back p2l) as (p2l' & -> & Hp2l'); [by replace (zlen back) with (Z.of_nat (N * (k * S))) by (unfold zlen in *; lia)|]. cbn [mbind res_bind].
  destruct (gather_ok rows log2mlog) as (rows' & -> & Hrows'); [by rewrite H1|]. cbn [mbind res_bind].
  destruct (gather_ok count log2mlog) as (count' & -> & Hcount'); [by rewrite H2|]. cbn [mbind res_bind].
  eexists _, _, _. split; [done|]. split; [|by rewrite (picked_length _ _ _ Hp2l')].
  by apply (lists_relabel _ _ p2l rows count log2mlog back).
Qed.

End maps.
