(* ===== verification/ExpertEplb.v ===== *)
(** * Rebalancing with any algorithm

    Whatever algorithm the server was started with, [init_by_eplb] on the counts of the recorder makes metadata of
    which every layer can be used for dispatch. *)

From S2P Require Import Prelude RadixKey PyFloat ExpertBalance ExpertProps ExpertPlace ExpertRebalance ExpertLocation ExpertDispatch.
From S2P Require Import ExpertVec ExpertVecProps ExpertUpdate ExpertServer.

Definition hierarchical (algorithm : EplbAlgorithm) : bool :=
  match algorithm with deepseek_hierarchical | deepseek_vec_hierarchical | elasticity_aware_hierarchical => true | _ => false end.

(** The sizes with which the assertions of the algorithms hold. *)
Record eplb_shape (num_logical num_physical num_local : Z) (num_groups : option Z) (num_nodes : Z) (algorithm : EplbAlgorithm) : Prop := {
  es_experts : 0 < num_logical ≤ num_physical;
  es_local : 0 < num_local ∧ num_physical mod num_local = 0;
  es_groups : hierarchical algorithm = true → ∃ g, num_groups = Some g ∧ 0 < g ∧ num_logical mod g = 0 ∧ 0 < num_nodes ∧ g mod num_nodes = 0
    ∧ (num_physical / num_local) mod num_nodes = 0
}.

Section eplb.
Context {F : Type} `{PyNum F} (sort_desc : list F → list nat) (uninit : Z) (Hsort : ∀ l, sort_desc l ≡ₚ seq 0 (length l)).

Lemma mod_mul a b : 0 < b → a mod b = 0 → ∃ k, a = b * k.
Proof. intros Hb Ha. exists (a / b). pose proof (Z.div_mod a b ltac:(lia)). lia. Qed.

Lemma nat_of a : 0 ≤ a → ∃ n, a = Z.of_nat n.
Proof. intros Ha. exists (Z.to_nat a). lia. Qed.

Lemma lists_layer num_logical num_physical len p2l rows count : lists_ok num_logical len p2l rows count → zlen p2l = num_physical →
  layer_maps num_physical num_logical (p2l, rows, count).
Proof. intros Hok Hl. split; [done|]. by apply (lists_maps _ len). Qed.

(** [decode_rebalance_experts] on a layer. *)
Lemma decode_layer (tokens : list (list F)) num_logical num_physical num_local : 0 < num_logical ≤ num_physical → 0 < num_local → num_physical mod num_local = 0 →
  Forall (λ row, zlen row = num_logical) tokens →
  ∃ l, decode_rebalance_layer sort_desc uninit tokens num_logical num_physical num_local = Ok l ∧ layer_maps num_physical num_logical l.
Proof.
  intros Hn Hl Hd Ht. destruct (nat_of num_logical ltac:(lia)) as [n ->]. destruct (nat_of (num_physical - Z.of_nat n) ltac:(lia)) as [r Er]. destruct (nat_of num_local ltac:(lia)) as [a ->].
  assert (num_physical = Z.of_nat (n + r)) as -> by lia. unfold decode_rebalance_layer.
  destruct (make_redundant_ok sort_desc uninit Hsort tokens 1 n r a) as (p2l & rows & count & E & Hok & Hlen); [lia|lia|lia| | |].
  - rewrite <- Nat2Z.inj_mod in Hd. lia.
  - eapply Forall_impl; [exact Ht|]. intros row Hrow. unfold zlen in Hrow. cbn in Hrow. lia.
  - rewrite !Nat.mul_1_l in *. rewrite E. exists (p2l, rows, count). split; [done|]. by eapply lists_layer; [exact Hok|unfold zlen; lia].
Qed.

(** [prefill_rebalance_experts] on a layer. *)
Lemma prefill_layer (tokens : list (list F)) num_logical num_physical num_local g num_nodes : 0 < num_logical ≤ num_physical → 0 < num_local → num_physical mod num_local = 0 →
  0 < g → num_logical mod g = 0 → 0 < num_nodes → g mod num_nodes = 0 → (num_physical / num_local) mod num_nodes = 0 → Forall (λ row, zlen row = num_logical) tokens →
  ∃ l, prefill_rebalance_layer sort_desc uninit tokens num_logical num_physical num_local g num_nodes = Ok l ∧ layer_maps num_physical num_logical l.
Proof.
  intros Hn Hl Hd Hg Hd1 Hnn Hd2 Hd3 Ht. destruct (mod_mul _ _ Hl Hd) as [gpus ->]. rewrite div_exact in Hd3 by done. destruct (mod_mul _ _ Hnn Hd3) as [q ->].
  destruct (mod_mul _ _ Hg Hd1) as [S ->]. destruct (mod_mul _ _ Hnn Hd2) as [k ->].
  destruct (nat_of num_local ltac:(lia)) as [a ->]. destruct (nat_of num_nodes ltac:(lia)) as [N ->]. destruct (nat_of k ltac:(nia)) as [k' ->]. destruct (nat_of S ltac:(nia)) as [S' ->].
  destruct (nat_of q ltac:(nia)) as [q' ->].
  destruct (nat_of (Z.of_nat a * Z.of_nat q' - Z.of_nat k' * Z.of_nat S') ltac:(nia)) as [r Er].
  destruct (prefill_ok sort_desc uninit Hsort tokens N k' S' r a) as (p2l & rows & count & E & Hok & Hlen); [nia|nia|nia|nia| | |].
  - assert ((k' * S' + r = q' * a)%nat) as -> by lia. apply Nat.Div0.mod_mul.
  - eapply Forall_impl; [exact Ht|]. intros row Hrow. unfold zlen in Hrow. cbn in Hrow. lia.
  - replace (Z.of_nat N * Z.of_nat k' * Z.of_nat S') with (Z.of_nat (N * (k' * S'))) by lia.
    replace (Z.of_nat a * (Z.of_nat N * Z.of_nat q')) with (Z.of_nat (N * (k' * S' + r))) by lia. rewrite <- Nat2Z.inj_mul. rewrite E.
    exists (p2l, rows, count). split; [done|]. eapply lists_layer; [exact Hok|unfold zlen; lia].
Qed.

Lemma layers_ok {X} (f : X → res (list Z * list (list Z) * list Z)) num_logical num_physical layers :
  (∀ x, x ∈ layers → ∃ l, f x = Ok l ∧ layer_maps num_physical num_logical l) →
  ∃ maps, res_map f layers = Ok maps ∧ length maps = length layers ∧ Forall (layer_maps num_physical num_logical) maps.
Proof.
  intros Hf. destruct (res_map_Forall2 f (λ _ l, layer_maps num_physical num_logical l) layers Hf) as (maps & E & Hm). exists maps. split; [done|].
  split; [symmetry; by eapply Forall2_length|]. apply Forall_lookup. intros i l Hl. by destruct (Forall2_lookup_r _ _ _ _ _ Hm Hl) as (? & _ & ?).
Qed.

(** [deepseek.rebalance_experts] and the healthy [elasticity_aware.rebalance_experts]. *)
Lemma exact_layers weight num_logical num_physical g nodes gpus : weight ≠ [] → Forall (λ w : list F, zlen w = num_logical) weight → shape_ok num_logical num_physical g nodes gpus →
  ∃ layers m maps, rebalance_experts_hierarchical sort_desc uninit weight num_physical g nodes gpus = Ok layers
    ∧ tensor_max (concat (map (λ '(_, _, c), c) layers)) = Ok m
    ∧ res_map (λ '(phy2log, phyrank, logcnt), log2phy ← scatter_replicas num_logical m num_physical phy2log phyrank; Ok (phy2log, log2phy, logcnt)) layers = Ok maps
    ∧ length maps = length weight ∧ Forall (layer_maps num_physical num_logical) maps.
Proof.
  intros Hne Hw Hs. destruct (rebalance_with sort_desc uninit Hsort weight num_logical num_physical g nodes gpus Hne Hw Hs) as (layers & m & maps & E1 & E2 & E3 & Hl & Hall).
  exists layers, m, maps. split_and!; try done. eapply Forall_impl; [exact Hall|]. intros [[p l] c] (? & ? & _). done.
Qed.

Context (num_logical num_physical num_local : Z) (num_groups : option Z) (num_nodes : Z).

(** The counts of a layer: a row for each step. *)
Definition counts_ok (counts : list (list (list Z))) : Prop := Forall (Forall (λ row, zlen row = num_logical)) counts.

Definition returns_maps (r : res (list (list Z * list (list Z) * list Z))) (n : nat) : Prop :=
  ∃ maps, r = Ok maps ∧ length maps = n ∧ Forall (layer_maps num_physical num_logical) maps.

Lemma deepseek_ok weight g nodes gpus (h : bool) : weight ≠ [] → Forall (λ w : list F, zlen w = num_logical) weight →
  (if h then shape_ok num_logical num_physical g nodes gpus else shape_ok num_logical num_physical 1 1 gpus) →
  returns_maps (rebalance_experts sort_desc uninit weight num_logical num_physical g nodes gpus h) (length weight).
Proof.
  intros Hne Hw Hs. unfold rebalance_experts, returns_maps.
  destruct h; destruct (exact_layers weight num_logical num_physical _ _ gpus Hne Hw Hs) as (layers & m & maps & -> & Em & E3 & Hlm & Hall);
    cbn [mbind res_bind]; rewrite Em; cbn [mbind res_bind]; rewrite E3; by exists maps.
Qed.

(** With all ranks active the elastic variant is the other. *)
Lemma elastic_healthy weight g nodes gpus (h : bool) active : 0 < gpus → num_physical mod gpus = 0 → zlen (List.filter id active) = gpus →
  rebalance_elastic sort_desc uninit weight num_logical num_physical g nodes gpus h active = rebalance_experts sort_desc uninit weight num_logical num_physical g nodes gpus h.
Proof.
  intros Hg Hd Ha. unfold rebalance_elastic. rewrite Ha, int_div_ok, bool_decide_false by lia. cbn [mbind res_bind].
  replace (num_physical / gpus * gpus) with num_physical by (pose proof (Z.div_mod num_physical gpus); lia). done.
Qed.

Lemma vec_ok tokens (h : bool) : 0 < num_logical ≤ num_physical → 0 < num_local ∧ num_physical mod num_local = 0 →
  (h = true → ∃ g, num_groups = Some g ∧ 0 < g ∧ num_logical mod g = 0 ∧ 0 < num_nodes ∧ g mod num_nodes = 0 ∧ (num_physical / num_local) mod num_nodes = 0) →
  Forall (Forall (λ row : list F, zlen row = num_logical)) tokens →
  returns_maps (vec_rebalance_experts sort_desc uninit tokens num_logical num_physical num_local num_groups num_nodes h) (length tokens).
Proof.
  intros Hn [Hl Hd] Hg Ht. unfold vec_rebalance_experts. destruct h; [destruct (Hg eq_refl) as (g & -> & ? & ? & ? & ? & ?)|]; apply layers_ok; intros x Hx;
    pose proof (proj1 (Forall_forall _ _) Ht x Hx) as Hrow; cbn in Hrow; [by apply prefill_layer|by apply decode_layer].
Qed.

(** All algorithms, with all ranks active. *)
Lemma eplb_rebalance_ok counts algorithm active : eplb_shape num_logical num_physical num_local num_groups num_nodes algorithm →
  counts ≠ [] → counts_ok counts → zlen (List.filter id active) = num_physical / num_local →
  returns_maps (eplb_rebalance_experts sort_desc uninit counts num_logical num_physical num_local num_groups num_nodes algorithm active) (length counts).
Proof.
  intros [Hn [Hl Hd] Hg] Hne Hc Hact. unfold eplb_rebalance_experts. set (weight := map (sum_steps num_logical) counts). set (gpus := num_physical / num_local) in *.
  assert (Hwne : weight ≠ []) by (unfold weight; by destruct counts). assert (Hwl : length weight = length counts) by (unfold weight; by rewrite length_map).
  assert (Hw : Forall (λ w : list F, zlen w = num_logical) weight).
  { apply Forall_fmap, Forall_true. intros x. unfold compose, sum_steps, zlen. rewrite length_map, length_seq. lia. }
  assert (Hgp : 0 < gpus ∧ num_physical mod gpus = 0).
  { destruct (mod_mul _ _ Hl Hd) as [q Eq]. unfold gpus. rewrite Eq, div_exact by done. split; [nia|]. apply Z.mod_mul. nia. }
  assert (Hflat : shape_ok num_logical num_physical 1 1 gpus) by (split; [done|split; [lia|apply Z.mod_1_r]|split; [lia|split; apply Z.mod_1_r]|done]).
  assert (Htok : Forall (Forall (λ row : list F, zlen row = num_logical)) (map (map (map fofZ)) counts)).
  { apply Forall_fmap. eapply Forall_impl; [exact Hc|]. intros steps Hs. apply Forall_fmap. eapply Forall_impl; [exact Hs|]. intros row Hrow. unfold compose. by rewrite zlen_map. }
  assert (Hvl : length (map (map (map (fofZ (F:=F)))) counts) = length counts) by by rewrite length_map.
  assert (Hdeep : ∀ g (h : bool), (h = true → num_groups = Some g ∧ hierarchical algorithm = true) →
    returns_maps (rebalance_experts sort_desc uninit weight num_logical num_physical g num_nodes gpus h) (length counts)).
  { intros g h Hh. rewrite <- Hwl. apply deepseek_ok; [done|done|]. destruct h; [|done]. destruct (Hh eq_refl) as [Eg Hhier]. destruct (Hg Hhier) as (g' & Eg' & ? & ? & ? & ? & ?).
    rewrite Eg in Eg'. inversion Eg'; subst g'. by split. }
  assert (Hsome : ∃ g, (match num_groups with Some n => Ok n | None => Ok 1 end : res Z) = Ok g) by (destruct num_groups; eauto).
  destruct algorithm; cbn [hierarchical] in *; rewrite ?(bool_decide_true (_ = _)), ?(bool_decide_false (_ = _)) by done;
    try (rewrite int_div_ok by done; fold gpus; cbn [mbind res_bind andb]; rewrite ?bool_decide_true by lia).
  - destruct Hsome as [g ->]. cbn [mbind res_bind]. by apply Hdeep.
  - destruct (Hg eq_refl) as (g & -> & _). cbn [mbind res_bind]. by apply Hdeep.
  - rewrite <- Hvl. by apply vec_ok.
  - rewrite <- Hvl. by apply vec_ok.
  - destruct Hsome as [g ->]. cbn [mbind res_bind]. rewrite elastic_healthy by tauto. by apply Hdeep.
  - destruct (Hg eq_refl) as (g & -> & _). cbn [mbind res_bind]. rewrite elastic_healthy by tauto. by apply Hdeep.
Qed.

End eplb.

(** C11: Every one of the six algorithms, with all ranks active and sizes that its assertions accept, returns for
    every layer maps that belong together: every physical expert holds a logical expert, every logical expert has a
    replica, and its row lists exactly the physical experts that hold it, once each, and then padding. *)
Theorem eplb_rebalance_maps {F} `{PyNum F} (sort_desc : list F → list nat) (uninit : Z) num_logical num_physical num_local num_groups num_nodes counts algorithm active :
  (∀ l, sort_desc l ≡ₚ seq 0 (length l)) → eplb_shape num_logical num_physical num_local num_groups num_nodes algorithm →
  counts ≠ [] → counts_ok num_logical counts → zlen (List.filter id active) = num_physical / num_local →
  ∃ maps, eplb_rebalance_experts sort_desc uninit counts num_logical num_physical num_local num_groups num_nodes algorithm active = Ok maps
    ∧ length maps = length counts
    ∧ Forall (λ '(p2l, l2p, cnt), zlen p2l = num_physical ∧ maps_ok (λ _, true) num_logical p2l l2p cnt) maps.
Proof. intros Hsort Hs Hne Hc Ha. exact (eplb_rebalance_ok sort_desc uninit Hsort num_logical num_physical num_local num_groups num_nodes counts algorithm active Hs Hne Hc Ha). Qed.
