(* ===== verification/ExpertServe.v ===== *)
(** * Serving while the experts move

    The recorder, the balancing, the metadata, the exchange of the weights and the manager together: whatever the
    counts of the recorder are, after every forward pass the routed ids lead to the weights of their experts. *)

From S2P Require Import Prelude RadixKey PyFloat ExpertBalance ExpertProps ExpertPlace ExpertRebalance ExpertLocation ExpertDispatch.
From S2P Require Import ExpertVec ExpertVecProps ExpertUpdate ExpertChunk ExpertPlan ExpertMove ExpertCluster ExpertServer ExpertEplb.

Section serve.
Context {F : Type} `{PyNum F} {Rng : Type} `{PyRandom Rng} {V : Type} `{Transport V}.
Context (sort_desc : list F → list nat) (uninit : Z) (empty_like : list (list V) → list (list V)).

(** The settings of a server: tensors of an expert, physical experts of a rank, ranks, nodes, layers, experts, and its arguments. *)
Record Settings := mkSettings {
  st_tensors : nat;
  st_local : Z;
  st_ranks : nat;
  st_nnodes : Z;
  st_layers : nat;
  st_logical : Z;
  st_redundant : Z;
  st_groups : option Z;
  st_algorithm : string;
  st_static : bool;
  st_iterations : nat;
  st_per_chunk : option Z
}.

Definition st_physical (c : Settings) : Z := Z.of_nat (st_ranks c) * st_local c.

(** The settings that the code supports. *)
Record settings_ok (c : Settings) (algorithm : EplbAlgorithm) : Prop := {
  so_positive : (0 < st_tensors c)%nat ∧ 0 < st_local c ∧ (0 < st_layers c)%nat ∧ (0 < st_iterations c)%nat;
  so_nodes : 0 < st_nnodes c ≤ Z.of_nat (st_ranks c);
  so_physical : st_logical c + st_redundant c = st_physical c;
  so_algorithm : compute_algorithm (st_algorithm c) (st_groups c) (st_nnodes c) = Ok algorithm;
  so_shape : eplb_shape (st_logical c) (st_physical c) (st_local c) (st_groups c) (st_nnodes c) algorithm
}.

(** The counts of the recorder: steps, layers, experts. *)
Definition recorded (c : Settings) (logical_count : list (list (list Z))) : Prop :=
  Forall (λ step, length step = st_layers c ∧ Forall (λ row, zlen row = st_logical c) step) logical_count.

(** The metadata that a rank makes of the counts. *)
Definition metadata_of (c : Settings) (ep_rank : Z) (logical_count : list (list (list Z))) : res ExpertLocationMetadata :=
  init_by_eplb (Rng:=Rng) sort_desc uninit (st_algorithm c) (st_nnodes c) (Z.of_nat (st_ranks c)) ep_rank (st_logical c) (st_redundant c) (st_groups c)
    (st_static c) (replicate (st_ranks c) true) (st_layers c) logical_count.

(** [on_forward_pass_end] of the server, with the utilisation test and the counts of the recorder. *)
Definition pass (c : Settings) (ep_rank : Z) (st : Generator * Server) (input : option bool * list (list (list Z))) : res (Generator * Server) :=
  on_forward_pass_end empty_like (st_physical c) (Z.of_nat (st_ranks c)) (st_nnodes c) (replicate (st_ranks c) true) None (st_iterations c) (st_per_chunk c)
    input.1 (metadata_of c ep_rank input.2) st.1 st.2.

Context (Hsort : ∀ l, sort_desc l ≡ₚ seq 0 (length l)).

Lemma recorded_layers c logical_count : recorded c logical_count → counts_ok (st_logical c) (layer_counts (st_layers c) logical_count).
Proof.
  intros Hc. apply Forall_fmap, Forall_true. intros l. apply Forall_forall. intros row (step & Hin & Hrow)%list_elem_of_omap.
  pose proof (proj1 (Forall_forall _ _) Hc step Hin) as [_ Hs]. exact (Forall_lookup_1 _ _ _ _ Hs Hrow).
Qed.

Lemma metadata_of_ok c algorithm ep_rank logical_count : settings_ok c algorithm → 0 ≤ ep_rank < Z.of_nat (st_ranks c) → recorded c logical_count →
  ∃ m, metadata_of c ep_rank logical_count = Ok m ∧ good_meta (st_layers c) (st_physical c) (st_logical c) (st_static c) m.
Proof.
  intros [(HT & HL & Hly & Hit) Hnn Hphys Halg Hshape] Hr Hc. unfold metadata_of, init_by_eplb, init_common. set (R := Z.of_nat (st_ranks c)) in *.
  assert (HR : 0 < R) by lia. rewrite Hphys.
  assert (Ed : assert_divides R (st_physical c) = Ok tt) by (unfold st_physical; apply divides_ok; lia).
  assert (Ei : int_div (st_physical c) R = Ok (st_local c)) by (unfold st_physical; apply int_div_exact; lia). rewrite Ed, Ei. cbn [mbind res_bind]. rewrite Ei. cbn [mbind res_bind]. rewrite Halg. cbn [mbind res_bind].
  destruct (eplb_rebalance_ok sort_desc uninit Hsort (st_logical c) (st_physical c) (st_local c) (st_groups c) (st_nnodes c) (layer_counts (st_layers c) logical_count) algorithm
    (replicate (st_ranks c) true)) as (maps & -> & Hl & Hmaps); [done| |by apply recorded_layers| |].
  - unfold layer_counts. destruct (st_layers c); [lia|done].
  - assert (E : ∀ n, List.filter id (replicate n true) = replicate n true) by (induction n as [|n IH]; [done|]; cbn; f_equal; exact IH).
    rewrite E. unfold zlen. rewrite length_replicate. unfold st_physical. pose proof (div_exact (Z.of_nat (st_ranks c)) (st_local c) HL) as Hdx. rewrite (Z.mul_comm (st_local c)) in Hdx. by rewrite Hdx.
  - cbn [mbind res_bind]. assert (Hep : R ≤ st_physical c) by (unfold st_physical; fold R; nia).
    destruct (init_raw_ok (Rng:=Rng) (st_nnodes c) R (st_physical c) Hnn Hep (st_logical c) maps (st_static c) ep_rank Hmaps Hr) as (m & E & _). exists m. split; [exact E|].
    unfold layer_counts in Hl. rewrite length_map, length_seq in Hl. rewrite <- Hl. by apply (init_raw_good (Rng:=Rng) (st_nnodes c) R _ _ _ _ ep_rank).
Qed.

(** The weights of the experts: layer, expert, tensor. *)
Context (W : Z → Z → nat → V).

(** Expert [e] of the layer is at physical expert [p]: its tensors are in the slot of its rank. *)
Definition serves (c : Settings) (layer : Z) (w : list (list (list V))) (e p : Z) : Prop :=
  0 ≤ p < st_physical c ∧ ∃ wr, w !! Z.to_nat (p / st_local c) = Some wr
    ∧ ∀ i, (i < st_tensors c)%nat → wr !! i ≫= (.!! Z.to_nat (p mod st_local c)) = Some (W layer e i).

(** A server on which every routed id leads to its expert. *)
Definition server_ok (c : Settings) (s : Server) : Prop := ∀ layer w algorithm random ids,
  sv_weights s !! layer = Some w → dispatches (st_static c) algorithm → Forall (λ e, 0 ≤ e < st_logical c) ids → length random = length ids →
  ∃ ps, topk_ids_logical_to_physical (sv_meta s) layer (Some algorithm) random ids = Ok ps ∧ Forall2 (serves c layer w) ids ps.

Lemma sound_serves c algorithm s : settings_ok c algorithm → sound W (st_tensors c) (st_local c) (st_ranks c) (st_layers c) (st_logical c) (st_static c) s → server_ok c s.
Proof.
  intros [(HT & HL & _) _ _ _ _] [Hg Hp] layer w alg random ids Hw Hd Hids Hr. destruct (Hp layer w Hw) as (Hlr & p2l & Ep & Hlen & Hh).
  destruct (gm_topk _ _ _ _ _ Hg _ _ alg random ids Ep Hd Hids Hr) as (ps & E & Hps). rewrite Z2Nat.id in E by lia. exists ps. split; [exact E|].
  destruct (gm_maps _ _ _ _ _ Hg _ _ Ep) as [Hz _]. eapply Forall2_impl; [exact Hps|]. intros e p [Hp0 Hpe]. pose proof (lookup_lt_Some _ _ _ Hpe) as Hlt.
  assert (Hpr : 0 ≤ p < st_physical c) by (unfold zlen, st_physical in *; lia). split; [done|]. set (L := st_local c) in *.
  pose proof (Z.div_mod p L ltac:(lia)) as Hdm. pose proof (Z.mod_pos_bound p L HL) as Hm. assert (Hq : 0 ≤ p / L < Z.of_nat (st_ranks c)).
  { split; [apply Z.div_pos; lia|]. apply Z.div_lt_upper_bound; [lia|]. unfold st_physical in Hpr. fold L in Hpr. lia. }
  destruct (lookup_lt_is_Some_2 w (Z.to_nat (p / L))) as [wr Hwr]; [lia|]. exists wr. split; [done|]. destruct (Hh _ _ Hwr) as [_ Hslot]. rewrite Z2Nat.id in Hslot by lia.
  specialize (Hslot p e ltac:(lia) Hpe). unfold slot_is, slot_of in Hslot. replace (p mod L) with (p - p / L * L) by lia. exact Hslot.
Qed.

Section run.
Context (c : Settings) (algorithm : EplbAlgorithm) (ep_rank : Z) (Hc : settings_ok c algorithm) (Hrank : 0 ≤ ep_rank < Z.of_nat (st_ranks c)).
Context (Hempty : ∀ w, shape (st_tensors c) (st_local c) w → shape (st_tensors c) (st_local c) (empty_like w)).

Notation sound := (sound W (st_tensors c) (st_local c) (st_ranks c) (st_layers c) (st_logical c) (st_static c)).
Notation placed := (placed W (st_tensors c) (st_local c) (st_ranks c) (st_layers c)).
Notation gen_ok := (gen_ok (st_local c) (st_ranks c) (st_layers c) (st_logical c) (st_static c)).

(** A server that was started with counts and whose weights were loaded accordingly. *)
Lemma started_sound logical_count s : recorded c logical_count → metadata_of c ep_rank logical_count = Ok (sv_meta s) → placed (sv_meta s) (sv_weights s) → sound s.
Proof.
  intros Hrec Em Hp. split; [|exact Hp]. destruct (metadata_of_ok c algorithm ep_rank logical_count Hc Hrank Hrec) as (m & E & Hm). rewrite Em in E. by inversion E; subst.
Qed.

Lemma pass_ok g s input : sound s → gen_ok g s → recorded c input.2 → ∃ g' s', pass c ep_rank (g, s) input = Ok (g', s') ∧ sound s' ∧ gen_ok g' s'.
Proof.
  intros Hs Hg Hi. destruct (metadata_of_ok c algorithm ep_rank input.2 Hc Hrank Hi) as (m & Em & Hm). unfold pass. rewrite Em. pose proof Hc as [(HT & HL & _ & Hit) Hnn _ _ _].
  by apply (step_ok empty_like W (st_tensors c) (st_local c) (st_ranks c) (st_nnodes c)).
Qed.

Lemma passes_ok inputs : Forall (λ i, recorded c i.2) inputs → ∀ g s, sound s → gen_ok g s →
  ∃ g' s', res_fold (pass c ep_rank) (g, s) inputs = Ok (g', s') ∧ sound s' ∧ gen_ok g' s'.
Proof.
  induction 1 as [|input inputs Hi _ IH]; intros g s Hs Hg; cbn [res_fold]; [by exists g, s|].
  destruct (pass_ok g s input Hs Hg Hi) as (g' & s' & -> & Hs' & Hg'). cbn [mbind res_bind]. by apply IH.
Qed.

End run.

Lemma pass_counting c ep_rank s above logical_count : pass c ep_rank (Counting (st_iterations c), s) (above, logical_count)
  = start_rebalance empty_like (st_physical c) (Z.of_nat (st_ranks c)) (st_nnodes c) (replicate (st_ranks c) true) None (st_iterations c) (st_per_chunk c)
      above (metadata_of c ep_rank logical_count) s.
Proof. unfold pass. cbn [fst snd on_forward_pass_end]. by rewrite bool_decide_false by lia. Qed.


(** C24: A rebalance that starts is completed: with the layers cut into chunks, after one forward pass for each
    chunk the manager counts passes again and every layer of the server has the placement of the new metadata. *)
Theorem eplb_completes c algorithm ep_rank s above logical_count m :
  settings_ok c algorithm → 0 ≤ ep_rank < Z.of_nat (st_ranks c) → (∀ w, shape (st_tensors c) (st_local c) w → shape (st_tensors c) (st_local c) (empty_like w)) →
  sound W (st_tensors c) (st_local c) (st_ranks c) (st_layers c) (st_logical c) (st_static c) s → recorded c logical_count → metadata_of c ep_rank logical_count = Ok m →
  check_rebalance_needed above = true → match st_per_chunk c with Some n => 0 ≤ n | None => True end →
  ∃ chunks, compute_update_layer_ids_chunks (sv_weights s) (st_per_chunk c) = Ok chunks
    ∧ ∀ inputs, length inputs = (if bool_decide (length chunks ≤ 1)%nat then 0%nat else length chunks) →
      ∃ s', res_fold (pass c ep_rank) (Counting (st_iterations c), s) ((above, logical_count) :: inputs) = Ok (Counting 1, s')
        ∧ ∀ layer, layer ∈ dom (sv_weights s) → physical_to_logical_map (sv_meta s') !! Z.to_nat layer = physical_to_logical_map m !! Z.to_nat layer.
Proof.
  intros Hc Hr He Hs Hrec Em Hneed Hpc. destruct (metadata_of_ok c algorithm ep_rank logical_count Hc Hr Hrec) as (m' & E & Hm). rewrite Em in E. inversion E; subst m'. clear E.
  pose proof Hc as [(HT & HL & _ & Hit) Hnn _ _ _]. destruct (compute_chunks_ok s (st_per_chunk c)) as (cs & Ecs & Hcs & Hcat). exists cs. split; [exact Ecs|]. intros inputs Hlen.
  cbn [res_fold]. rewrite pass_counting, Em. unfold start_rebalance, st_physical. rewrite Hneed. cbn [mbind res_bind]. rewrite Ecs. cbn [mbind res_bind].
  rewrite (start_counting_ok _ Hit). assert (Hdom : ∀ layer, layer ∈ dom (sv_weights s) → 0 ≤ layer).
  { intros layer Hl. destruct Hs as [_ Hp]. apply elem_of_dom in Hl as [w Hw]. destruct (Hp layer w Hw) as [? _]. lia. }
  destruct cs as [|ids [|ids2 cs]]; cbn [length] in Hlen.
  - destruct inputs; [|done]. exists s. split; [done|]. intros layer Hl. by apply (Hcat Hpc) in Hl; apply not_elem_of_nil in Hl.
  - destruct inputs; [|done]. apply Forall_cons in Hcs as [(Hne & Hnd & Hids) _].
    destruct (update_chunk empty_like W (st_tensors c) (st_local c) (st_ranks c) (st_nnodes c) HT HL Hnn He (st_layers c) (st_logical c) (st_static c) s m ids Hs Hm Hne Hnd Hids) as (s' & -> & _ & _ & Hmap).
    cbn [mbind res_bind res_fold]. exists s'. split; [done|]. intros layer Hl. rewrite Hmap, Z2Nat.id by auto. apply (Hcat Hpc) in Hl. cbn [concat] in Hl. rewrite app_nil_r in Hl. by rewrite bool_decide_true.
  - cbn [mbind res_bind]. destruct (run_chunks empty_like W (st_tensors c) (st_local c) (st_ranks c) (st_nnodes c) HT HL Hnn He (st_layers c) (st_logical c) (st_static c) (st_iterations c) (st_per_chunk c) Hit
      (λ i, i.1) (λ i, metadata_of c ep_rank i.2) m inputs (ids :: ids2 :: cs) ltac:(by rewrite Hlen) ltac:(done) Hm s Hs Hcs) as (s' & E & _ & Hmap).
    exists s'. split; [exact E|]. intros layer Hl. rewrite Hmap, Z2Nat.id, bool_decide_true; [done|by apply (Hcat Hpc)|by apply Hdom].
Qed.

End serve.
