(* ===== verification/ExpertDemo.v ===== *)
(** * Experts: concrete inputs

    A sort by insertion for the parameter of the model, the example of the algorithm's authors (twelve experts on
    two nodes of four GPUs), the same with failed ranks, and a packing that is not as balanced as it could be.  A transport that delivers in order and a generator for the parameters of the model, a server of two ranks with
    two layers of three experts, an exchange with a failed rank, and the tables of a dispatch. *)

From S2P Require Import Prelude RadixKey PyFloat ExpertBalance ExpertProps ExpertPlace ExpertRebalance ExpertElastic ExpertLocation ExpertDispatch.
From S2P Require Import ExpertVec ExpertUpdate ExpertChunk ExpertPlan ExpertMove ExpertCluster ExpertServer ExpertVecProps ExpertEplb ExpertServe.

(** ** Balancing *)

(** The indices of [l], largest first. *)
Fixpoint insert_desc (l : list Qc) (i : nat) (sorted : list nat) : list nat :=
  match sorted with
  | [] => [i]
  | j :: rest =>
      match l !! i, l !! j with
      | Some x, Some y => if flt y x then i :: sorted else j :: insert_desc l i rest
      | _, _ => i :: sorted
      end
  end.

Definition argsort_desc (l : list Qc) : list nat := foldl (λ acc i, insert_desc l i acc) [] (seq 0 (length l)).

Lemma insert_desc_perm l i sorted : insert_desc l i sorted ≡ₚ i :: sorted.
Proof.
  induction sorted as [|j rest IH]; cbn [insert_desc]; [done|]. destruct (l !! i), (l !! j); try done. destruct (flt _ _); [done|]. rewrite IH. constructor.
Qed.

Lemma argsort_desc_perm l : argsort_desc l ≡ₚ seq 0 (length l).
Proof.
  unfold argsort_desc. enough (H : ∀ idx acc, foldl (λ acc i, insert_desc l i acc) acc idx ≡ₚ idx ++ acc) by (by rewrite H, app_nil_r).
  induction idx as [|i idx IH]; intros acc; cbn [foldl]; [done|]. rewrite IH, insert_desc_perm. by rewrite <- Permutation_middle.
Qed.

Definition qs : list Z → list Qc := map Qc_ofZ.
Definition demo_weight : list (list Qc) := [qs [90; 132; 40; 61; 104; 165; 39; 4; 73; 56; 183; 86]].

(** Sixteen replicas, four groups of three experts, two nodes of four GPUs. *)
Example rebalance_demo :
  match rebalance_experts argsort_desc 0 demo_weight 12 16 4 2 8 true with
  | Ok [(phy2log, log2phy, logcnt)] =>
      phy2log = [5; 6; 5; 7; 8; 4; 3; 4; 10; 9; 10; 2; 0; 1; 11; 1] ∧ logcnt = [1; 2; 1; 1; 2; 2; 1; 1; 1; 1; 2; 1]
        ∧ log2phy !! 1%nat = Some [15; 13] ∧ log2phy !! 0%nat = Some [12; -1]
  | _ => False
  end.
Proof. vm_compute. split_and!; reflexivity. Qed.

Lemma demo_shape : shape_ok 12 16 4 2 8.
Proof. split; (split_and!; first [lia|reflexivity]). Defined.

(** [rebalance_experts_maps] on the example. *)
Lemma rebalance_experts_maps_witness :
  ∃ maps, rebalance_experts argsort_desc 0 demo_weight 12 16 4 2 8 true = Ok maps ∧ length maps = 1%nat
    ∧ Forall (λ '(phy2log, log2phy, logcnt), zlen phy2log = 16 ∧ maps_ok (λ _, true) 12 phy2log log2phy logcnt ∧ groups_local 3 8 phy2log) maps.
Proof.
  destruct (rebalance_experts_maps argsort_desc 0 argsort_desc_perm demo_weight 12 16 4 2 8 true) as (maps & E & Hl & Hall).
  - discriminate.
  - repeat constructor.
  - exact demo_shape.
  - exists maps. split; [exact E|]. split; [exact Hl|]. eapply Forall_impl; [exact Hall|]. intros [[p l] c] (Hp & Hm & Hg). split; [exact Hp|]. split; [exact Hm|exact (Hg eq_refl)].
Defined.

(** [rebalance_elastic_maps] with the second and the fifth of six ranks failed. *)
Lemma rebalance_elastic_maps_witness :
  let active := [true; false; true; true; false; true] in
  ∃ maps, rebalance_elastic argsort_desc 0 demo_weight 12 24 4 2 6 true active = Ok maps ∧ length maps = 1%nat
    ∧ Forall (λ '(phy2log, log2phy, logcnt), zlen phy2log = 24 ∧ maps_ok (on_active active 4) 12 phy2log log2phy logcnt) maps.
Proof.
  intros active. destruct (rebalance_elastic_maps argsort_desc 0 argsort_desc_perm demo_weight 12 24 4 2 6 true active) as (maps & E & Hl & Hall).
  - discriminate.
  - repeat constructor.
  - reflexivity.
  - lia.
  - reflexivity.
  - vm_compute. split; [reflexivity|discriminate].
  - exists maps. split; [exact E|]. split; [exact Hl|exact Hall].
Defined.

(** Six experts, two failed ranks: the rows of [log2phy] skip the physical experts 4-7 and 16-19. *)
Example elastic_demo :
  match rebalance_elastic argsort_desc 0 demo_weight 12 24 4 2 6 true [true; false; true; true; false; true] with
  | Ok [(phy2log, log2phy, _)] => take 8 phy2log = [10; 8; 3; 7; 0; 0; 0; 0] ∧ take 2 log2phy = [[12; -1]; [9; 10]]
  | _ => False
  end.
Proof. vm_compute. split; reflexivity. Qed.

(** The packing is greedy: the packs of 5, 4, 3, 3, 3, 0 weigh 8 and 10, although 5, 4, 0 and 3, 3, 3 weigh 9 each. *)
Lemma balanced_packing_not_best :
  balanced_packing_row argsort_desc (qs [5; 4; 3; 3; 3; 0]) 2 = Ok ([0; 1; 1; 0; 1; 0], [0; 0; 1; 1; 2; 2])
  ∧ (5 + 3 + 0 = 8 ∧ 4 + 3 + 3 = 10 ∧ 5 + 4 + 0 = 9 ∧ 3 + 3 + 3 = 9).
Proof. split; [vm_compute; reflexivity|lia]. Qed.

(** More logical than physical experts are refused. *)
Example too_few_replicas : rebalance_experts argsort_desc 0 demo_weight 12 8 4 2 8 true = Raise AssertionError.
Proof. vm_compute. reflexivity. Qed.

(** A number of replicas that the GPUs do not divide is refused. *)
Example uneven_gpus : rebalance_experts argsort_desc 0 demo_weight 12 15 4 2 8 true = Raise AssertionError.
Proof. vm_compute. reflexivity. Qed.

Example auto_algorithm : compute_algorithm "auto" (Some 8) 2 = Ok deepseek_hierarchical ∧ compute_algorithm "auto" None 2 = Ok deepseek
  ∧ compute_algorithm "fastest" (Some 8) 2 = Raise KeyError.
Proof. split_and!; reflexivity. Qed.

(** ** A transport *)

Section transport.
Context {V : Type}.

(** The receives of a rank, from the queues of its peers. *)
Fixpoint deliver (queues : Z → list V) (peers : list Z) : res (list V) :=
  match peers with
  | [] => Ok []
  | p :: rest =>
      match queues p with
      | [] => Raise RuntimeError
      | v :: q => l ← deliver (λ s, if bool_decide (s = p) then q else queues s) rest; Ok (v :: l)
      end
  end.

Definition from_peer (s : Z) (peers : list Z) : list Z := List.filter (λ p, bool_decide (p = s)) peers.

Lemma deliver_ok peers : ∀ queues, (∀ s, s ∈ peers → (length (from_peer s peers) ≤ length (queues s))%nat) →
  ∃ g, deliver queues peers = Ok g ∧ length g = length peers ∧ ∀ s, arrivals s peers g = take (length (from_peer s peers)) (queues s).
Proof.
  induction peers as [|p peers IH]; intros queues Hq; cbn [deliver]; [by exists []|].
  assert (Hfp : ∀ s, from_peer s (p :: peers) = if bool_decide (p = s) then p :: from_peer s peers else from_peer s peers) by done.
  destruct (queues p) as [|v q] eqn:Ep.
  { specialize (Hq p ltac:(left)). rewrite Hfp, bool_decide_true, Ep in Hq by done. cbn in Hq. lia. }
  destruct (IH (λ s, if bool_decide (s = p) then q else queues s)) as (g & -> & Hl & Hg).
  { intros s Hs. specialize (Hq s ltac:(by right)). rewrite Hfp in Hq. case_bool_decide as E; subst.
    - rewrite bool_decide_true, Ep in * by done. cbn in Hq. lia.
    - by rewrite bool_decide_false in * by done. }
  cbn [mbind res_bind]. exists (v :: g). split; [done|]. split; [cbn; lia|]. intros s. rewrite Hfp. unfold arrivals. cbn [zip_with omap list_omap]. fold (zip peers g).
  specialize (Hg s). unfold arrivals in Hg. destruct (decide (p = s)) as [<-|Hne].
  - rewrite !bool_decide_true in * by done. rewrite Ep. cbn [length take]. f_equal. exact Hg.
  - rewrite (bool_decide_false (p = s)) by done. rewrite (bool_decide_false (s = p)) in Hg by (by intros ->). exact Hg.
Qed.

Definition mailbox (all : list (list (Msg V))) (d s : Z) : list V := match all !! Z.to_nat s with Some ms => sent d ms | None => [] end.
Definition deliver_all (all : list (list (Msg V))) : res (list (list V)) :=
  res_map (λ '(d, md), deliver (mailbox all (Z.of_nat d)) (recv_peers md)) (imap pair all).

Lemma deliver_all_ok all :
  (∀ s d ms md, all !! s = Some ms → all !! d = Some md →
     length (sent (Z.of_nat d) ms) = length (List.filter (λ p, bool_decide (p = Z.of_nat s)) (recv_peers md))) →
  (∀ d md p, all !! d = Some md → p ∈ recv_peers md → 0 ≤ p < zlen all) →
  ∃ got, deliver_all all = Ok got ∧ length got = length all
    ∧ ∀ d md, all !! d = Some md → ∃ g, got !! d = Some g ∧ length g = length (recv_peers md)
        ∧ ∀ s ms, all !! s = Some ms → arrivals (Z.of_nat s) (recv_peers md) g = sent (Z.of_nat d) ms.
Proof.
  intros Hcount Hrange. unfold deliver_all.
  destruct (res_map_each (λ '(d, md), deliver (mailbox all (Z.of_nat d)) (recv_peers md))
    (λ d g, ∀ md, all !! d = Some md → length g = length (recv_peers md) ∧ ∀ s ms, all !! s = Some ms → arrivals (Z.of_nat s) (recv_peers md) g = sent (Z.of_nat d) ms)
    (imap pair all) 0) as (got & -> & Hl & Hgot).
  - intros d [d' md] Hd. rewrite list_lookup_imap in Hd. destruct (all !! d) as [md'|] eqn:Ed; [|done]. cbn in Hd. inversion Hd; subst d' md'.
    destruct (deliver_ok (recv_peers md) (mailbox all (Z.of_nat d))) as (g & -> & Hlg & Hg).
    { intros s Hs. destruct (Hrange d md s Ed Hs) as [Hs0 Hs1]. destruct (lookup_lt_is_Some_2 all (Z.to_nat s)) as [ms Hms]; [unfold zlen in Hs1; lia|].
      unfold mailbox, from_peer. rewrite Hms. rewrite (Hcount _ _ _ _ Hms Ed). by rewrite Z2Nat.id. }
    exists g. split; [done|]. change (0 + d)%nat with d. intros md' Hmd'. rewrite Ed in Hmd'. inversion Hmd'; subst md'. split; [done|]. intros s ms Hms. rewrite Hg.
    unfold mailbox, from_peer. rewrite Nat2Z.id, Hms. apply take_ge. by rewrite (Hcount _ _ _ _ Hms Ed).
  - exists got. split; [done|]. rewrite length_imap in Hl. split; [done|]. intros d md Hd. destruct (lookup_lt_is_Some_2 got d) as [g Hg]; [apply lookup_lt_Some in Hd; lia|].
    exists g. split; [done|]. by apply (Hgot d g Hg).
Qed.

#[global] Instance in_order : Transport V := {| exchange := deliver_all; exchange_ok := deliver_all_ok |}.

End transport.

(** A generator that takes the first elements and reverses. *)
#[global] Program Instance first_elements : PyRandom unit := {|
  seeded _ := tt;
  sample _ l k := (tt, take (Z.to_nat k) l);
  shuffle _ l := (tt, reverse l)
|}.
Next Obligation. cbn. split; [unfold zlen in *; rewrite length_take; lia|]. apply sublist_submseteq, sublist_take. Qed.
Next Obligation. cbn. apply reverse_Permutation. Qed.

(** ** A server *)

(** Two ranks with two physical experts each, two layers of three experts, a layer at a time. *)
Definition demo_settings : Settings :=
  mkSettings 1 2 2 1 2 3 1 None "deepseek" true 1 (Some 1).

Lemma demo_settings_ok : settings_ok demo_settings deepseek.
Proof.
  split; cbn; [split_and!; lia|lia|reflexivity|reflexivity|]. split; unfold st_physical; cbn; [lia|split; [lia|reflexivity]|discriminate].
Defined.

(** The tensor of an expert of a layer. *)
Definition demo_tensor (layer e : Z) (i : nat) : Z := 100 * layer + 10 * e + Z.of_nat i.

Definition even_counts : list (list (list Z)) := [[[1; 1; 1]; [1; 1; 1]]].
Definition skewed_counts : list (list (list Z)) := [[[1; 9; 1]; [1; 1; 9]]; [[2; 7; 1]; [1; 1; 8]]].

Definition demo_metadata (counts : list (list (list Z))) : res ExpertLocationMetadata :=
  metadata_of (Rng:=unit) argsort_desc 0 demo_settings 0 counts.

Definition demo_meta : ExpertLocationMetadata :=
  match demo_metadata even_counts with Ok m => m | Raise _ => mkMetadata [] [] [] None end.

(** The weights that a map asks for. *)
Definition load (layer : Z) (p2l : list Z) : list (list (list Z)) :=
  map (λ r, [map (λ x, demo_tensor layer (default 0 (p2l !! (2 * r + x)%nat)) 0) [0%nat; 1%nat]]) [0%nat; 1%nat].

Definition demo_server : Server (V:=Z) :=
  mkServer demo_meta (<[0 := load 0 [1; 0; 2; 0]]> (<[1 := load 1 [1; 0; 2; 0]]> ∅)).

Definition demo_pass := pass (Rng:=unit) argsort_desc 0 (map (map (λ _ : Z, 0))) demo_settings 0.

Lemma demo_maps : physical_to_logical_map demo_meta = [[1; 0; 2; 0]; [1; 0; 2; 0]].
Proof. vm_compute. reflexivity. Qed.

(** The second pass starts a rebalance, the third and the fourth update a layer each. *)
Example demo_run :
  match res_fold demo_pass (Fresh, demo_server) [(None, even_counts); (None, skewed_counts); (None, even_counts); (None, even_counts)] with
  | Ok (Counting 1, s) => physical_to_logical_map (sv_meta s) = [[1; 0; 1; 2]; [2; 0; 2; 1]]
      ∧ sv_weights s !! 0 = Some [[[10; 0]]; [[10; 20]]] ∧ sv_weights s !! 1 = Some [[[120; 100]]; [[120; 110]]]
  | _ => False
  end.
Proof. vm_compute. split_and!; reflexivity. Qed.

Lemma load_holds layer p2l : length p2l = 4%nat → ranks_hold demo_tensor 1 2 2 layer p2l (load layer p2l).
Proof.
  intros Hl. split; [done|]. intros r wr Hr. destruct p2l as [|a [|b [|c [|d [|? ?]]]]]; try done.
  assert (Hcase : (r = 0%nat ∧ wr = [[demo_tensor layer a 0; demo_tensor layer b 0]]) ∨ (r = 1%nat ∧ wr = [[demo_tensor layer c 0; demo_tensor layer d 0]])).
  { destruct r as [|[|r]]; [left|right|done]; by inversion Hr. }
  clear Hr. destruct Hcase as [[-> ->]|[-> ->]]; (split; [by split; [|repeat constructor]|]); intros x e Hx He i Hi; assert (i = 0%nat) as -> by lia.
  - assert (x = 0 ∨ x = 1) as [-> | ->] by lia; cbn in He |- *; by inversion He.
  - assert (x = 2 ∨ x = 3) as [-> | ->] by lia; cbn in He |- *; by inversion He.
Qed.

Lemma demo_placed : placed demo_tensor 1 2 2 2 (sv_meta demo_server) (sv_weights demo_server).
Proof.
  intros layer w Hw. cbn [demo_server sv_meta sv_weights] in *. rewrite demo_maps.
  apply lookup_insert_Some in Hw as [[<- <-]|[_ Hw]]; [|apply lookup_insert_Some in Hw as [[<- <-]|[_ Hw]]; [|by rewrite lookup_empty in Hw]];
    (split; [lia|]); exists [1; 0; 2; 0]; (split; [reflexivity|by apply load_holds]).
Qed.

Lemma zeros_shape w : shape 1 2 w → shape 1 2 (map (map (λ _ : Z, 0)) w).
Proof.
  intros [Hl Hw]. split; [by rewrite length_map|]. apply Forall_fmap. eapply Forall_impl; [exact Hw|]. intros t Ht. unfold compose. by rewrite length_map.
Qed.

Lemma demo_recorded counts : counts ∈ [even_counts; skewed_counts] → recorded demo_settings counts.
Proof. intros Hc. rewrite !elem_of_cons in Hc. destruct Hc as [->|[->|Hc]]; [| |by apply not_elem_of_nil in Hc]; repeat constructor. Qed.

Definition demo_inputs : list (option bool * list (list (list Z))) :=
  [(None, even_counts); (None, skewed_counts); (None, even_counts); (Some false, even_counts)].

Lemma demo_inputs_ok : Forall (λ i, recorded demo_settings i.2) demo_inputs.
Proof. repeat (apply Forall_cons; split; [apply demo_recorded; set_solver|]). constructor. Qed.


Definition skewed_meta : ExpertLocationMetadata :=
  match demo_metadata skewed_counts with Ok m => m | Raise _ => mkMetadata [] [] [] None end.

(** [eplb_completes] on the server: two chunks. *)
Lemma eplb_completes_witness : ∃ chunks, compute_update_layer_ids_chunks (sv_weights demo_server) (Some 1) = Ok chunks
  ∧ ∀ inputs, length inputs = (if bool_decide (length chunks ≤ 1)%nat then 0%nat else length chunks) →
    ∃ s', res_fold demo_pass (Counting 1, demo_server) ((None, skewed_counts) :: inputs) = Ok (Counting 1, s')
      ∧ ∀ layer, layer ∈ dom (sv_weights demo_server) → physical_to_logical_map (sv_meta s') !! Z.to_nat layer = physical_to_logical_map skewed_meta !! Z.to_nat layer.
Proof.
  apply (eplb_completes argsort_desc 0 (map (map (λ _ : Z, 0))) argsort_desc_perm demo_tensor demo_settings deepseek 0 demo_server None skewed_counts skewed_meta).
  - exact demo_settings_ok.
  - cbn. lia.
  - exact zeros_shape.
  - apply (started_sound argsort_desc 0 argsort_desc_perm demo_tensor demo_settings deepseek 0 demo_settings_ok ltac:(cbn; lia) even_counts).
    + apply demo_recorded. set_solver.
    + vm_compute. reflexivity.
    + exact demo_placed.
  - apply demo_recorded. set_solver.
  - vm_compute. reflexivity.
  - reflexivity.
  - cbn. lia.
Defined.

(** ** An exchange with a failed rank *)

Definition old_places : list Z := [0; 1; 2; 3; 0; 2].
Definition new_places : list Z := [0; 3; 1; 2; 2; 1].
Definition rank_weights (p2l : list Z) (r : nat) : list (list Z) := [map (λ x, demo_tensor 0 (default 0 (p2l !! (2 * r + x)%nat)) 0) [0%nat; 1%nat]].
Definition failed_states : list (list (list Z) * list (list Z)) := map (λ r, (rank_weights old_places r, [[0; 0]])) [0%nat; 1%nat; 2%nat].

(** The second of three ranks has failed: the first misses expert 3, whose slot gets the content of the buffer; the
    third gets expert 1. *)
Example failed_exchange :
  update_layer_cluster old_places new_places 2 3 [true; false; true] (Some [true; false; true]) failed_states
  = Ok ([([[0; 0]], [[0; 0]]); ([[20; 30]], [[0; 0]]); ([[20; 10]], [[20; 10]])], [[3]; []; []]).
Proof. vm_compute. reflexivity. Qed.

Lemma failed_holds r w t : failed_states !! r = Some (w, t) → holding (demo_tensor 0) 1 2 (Z.of_nat r) old_places w ∧ shape 1 2 t.
Proof.
  intros Hr. assert (Hcase : (r < 3)%nat) by (apply lookup_lt_Some in Hr; cbn in Hr; lia).
  destruct r as [|[|[|r]]]; [..|lia]; cbn in Hr; inversion Hr; subst; (split; [split; [by split; [|repeat constructor]|]|by split; [|repeat constructor]]);
    intros x e Hx He i Hi; assert (i = 0%nat) as -> by lia.
  - assert (x = 0 ∨ x = 1) as [-> | ->] by lia; cbn in He |- *; by inversion He.
  - assert (x = 2 ∨ x = 3) as [-> | ->] by lia; cbn in He |- *; by inversion He.
  - assert (x = 4 ∨ x = 5) as [-> | ->] by lia; cbn in He |- *; by inversion He.
Qed.

Lemma update_layer_moves_witness : ∃ states' missing,
  update_layer_cluster old_places new_places 2 3 [true; false; true] (Some [true; false; true]) failed_states = Ok (states', missing)
  ∧ length states' = 3%nat ∧ length missing = 3%nat
  ∧ ∀ r before after ms, failed_states !! r = Some before → states' !! r = Some after → missing !! r = Some ms →
      updated (demo_tensor 0) 1 2 3 old_places new_places [true; false; true] r before after ms.
Proof.
  apply (update_layer_moves (demo_tensor 0) 1 2 3 3 old_places new_places [true; false; true] (Some [true; false; true]) failed_states);
    [lia|lia|lia|reflexivity|reflexivity| |reflexivity|reflexivity| |].
  - intros e He. unfold old_places, new_places in *. set_solver.
  - split; [reflexivity|]. intros r Hr. assert (r = 0 ∨ r = 1 ∨ r = 2) as [-> |[-> | ->]] by lia; reflexivity.
  - intros r w t Hr _. by apply failed_holds.
Defined.

(** ** A dispatch *)

(** Four ranks on two nodes with two physical experts each; expert 0 is on both nodes, expert 1 on the first. *)
Definition demo_l2p : list (list (list Z)) := [[[0; 4; -1]; [1; 3; -1]; [2; 5; 6]]].

Lemma dispatch_near_and_fair_witness : ∃ table, Forall2 (Forall2 (λ row, column_ok 2 2 4 (candidates_of row))) demo_l2p table
  ∧ ∀ ep_rank, 0 ≤ ep_rank < 4 → compute_logical_to_rank_dispatch_physical_map (Rng:=unit) 2 demo_l2p 4 8 ep_rank 42 = Ok (map (map (at_rank ep_rank)) table).
Proof.
  apply (dispatch_near_and_fair 2 4 8 demo_l2p 42); [lia|lia|].
  apply Forall_forall. intros rows Hrows. apply list_elem_of_singleton in Hrows as ->. repeat (apply Forall_cons; split); [..|by constructor];
    (split; [discriminate|apply (bool_decide_unpack _); reflexivity]).
Defined.

(** The last rank: expert 0 on its node, a share of the replicas of expert 1, expert 2 on itself. *)
Example demo_dispatch : compute_logical_to_rank_dispatch_physical_map (Rng:=unit) 2 demo_l2p 4 8 3 42 = Ok [[4; 1; 6]].
Proof. vm_compute. reflexivity. Qed.

(** ** The algorithms *)

Lemma demo_eplb_shape : eplb_shape 12 16 2 (Some 4) 2 deepseek_vec_hierarchical.
Proof. split; [lia|split; [lia|reflexivity]|]. intros _. exists 4. split_and!; first [reflexivity|lia]. Defined.

Definition demo_counts : list (list (list Z)) := [[[90; 132; 40; 61; 104; 165; 39; 4; 73; 56; 183; 86]; [10; 20; 30; 40; 50; 60; 70; 80; 90; 100; 110; 120]]].

Lemma eplb_rebalance_maps_witness :
  ∃ maps, eplb_rebalance_experts argsort_desc 0 demo_counts 12 16 2 (Some 4) 2 deepseek_vec_hierarchical (replicate 8 true) = Ok maps ∧ length maps = 1%nat
    ∧ Forall (λ '(p2l, l2p, cnt), zlen p2l = 16 ∧ maps_ok (λ _, true) 12 p2l l2p cnt) maps.
Proof.
  apply (eplb_rebalance_maps argsort_desc 0 12 16 2 (Some 4) 2 demo_counts deepseek_vec_hierarchical (replicate 8 true)).
  - exact argsort_desc_perm.
  - exact demo_eplb_shape.
  - discriminate.
  - repeat constructor.
  - reflexivity.
Defined.

(** The vectorised variant on two steps: the groups of a node stay together, every expert is where its row says. *)
Example vec_demo :
  match eplb_rebalance_experts argsort_desc 0 demo_counts 12 16 2 (Some 4) 2 deepseek_vec_hierarchical (replicate 8 true) with
  | Ok [(p2l, l2p, cnt)] => p2l = [11; 2; 9; 1; 10; 1; 10; 0; 8; 4; 5; 4; 5; 7; 6; 3] ∧ cnt = [1; 2; 1; 1; 2; 2; 1; 1; 1; 1; 2; 1]
      ∧ l2p !! 1%nat = Some [5; 3; -1; -1; -1] ∧ l2p !! 11%nat = Some [0; -1; -1; -1; -1]
  | _ => False
  end.
Proof. vm_compute. split_and!; reflexivity. Qed.

(** The redundant experts must be divisible among the nodes. *)
Example vec_uneven : eplb_rebalance_experts argsort_desc 0 demo_counts 12 15 5 (Some 4) 2 deepseek_vec_hierarchical (replicate 3 true) = Raise AssertionError.
Proof. vm_compute. reflexivity. Qed.
